(* ===== verification/_CoqProject ===== *)
-Q . S2P
Prelude.v
Status.v
Lifetime.v
TypeErasure.v
StatusErrors.v
Handler.v
IntMath.v
Collectors.v
Metrics.v
Buffer.v
BufferSource.v
Fetch.v
Interval.v
RadixQueue.v
SliceWork.v
ParallelAlgo.v
RunningTotal.v
ParallelMerge.v
Watch.v
Grant.v
ChunkedCoding.v
ChunkSource.v
HttpParser.v
HttpRoundTrip.v
UrlParse.v
HttpClient.v
HttpHost.v
StreamUtil.v
WatchCell.v
WatchMutex.v
Mutex.v
Latch.v
Channel.v
Queue.v
WorkPool.v
Runtime.v
FakeRuntime.v
Backoff.v
RateLimiter.v
Pin.v
StreamBuffer.v
StreamIO.v
TaskState.v
Seq.v
SeqOps.v
KMerge.v
GroupBy.v
ModelChecker.v
ModelCheckMesh.v
ModelCheckSafe.v
ModelCheckCount.v
ModelCheck.v
ModelCheckEnd.v
ModelCheckLive.v
ModelCheckMerge.v
