(* ===== verification/Prelude.v ===== *)
(** * Batteries: a verification development

    Batteries is a C++ library of building blocks for servers: user-space
    threads and synchronisation, lazy sequences, data-parallel algorithms,
    HTTP, status codes and small containers.  The sources are the headers under
    [src/src/batteries/]; file names below are relative to it.

    ** The parts and their files

    - [Prelude]: this file.  Machine integers, bit masks, and the lemmas on
      lists, permutations and counting that the components share.
    - [Status], [StatusErrors]: [status.hpp], [status_impl.hpp].  Codes, groups
      and the registry ([Module StatusRegistry] holds the registration); the
      statuses of error codes of the system and of other libraries, with a
      cache in every thread.
    - [Lifetime], [TypeErasure], [Handler]: [optional.hpp], the class [StatusOr],
      [small_fn.hpp], [type_erasure.hpp], [async/handler.hpp].  Classes that
      construct, move and destroy objects in raw memory by hand, verified
      against the [option] or the sum that the other files use for them.
    - [Interval], [IntMath], [StreamUtil]: [interval.hpp], [interval_traits.hpp],
      [bounds.hpp]; [math.hpp], [checked_cast.hpp]; [stream_util.hpp].
    - [RadixQueue]: [radix_queue.hpp], the ring of mixed-radix segments.
    - [SliceWork], [ParallelAlgo], [RunningTotal], [ParallelMerge]: the
      [algo/] directory and [async/slice_work*.hpp].  [SliceWork] cuts a range
      into tasks; the others say what the tasks write.  A [WorkContext] is the
      list of the tasks' writes, and every theorem quantifies over all
      permutations of them.  [WorkPool] ([async/worker_pool.hpp],
      [async/work_context.hpp]) shows why: when [await_done] returns, every
      task has run exactly once.
    - [Watch], [WatchCell], [WatchMutex]: [async/watch_decl.hpp],
      [async/watch_impl.hpp].  [Watch] is the lock-free [WatchAtomic], one step
      per atomic access.  [WatchCell] states the abstract [Cell] (a value, a
      closed status, one step per operation) and proves that every run of
      [Watch] is a run of the cell.  [WatchMutex] is the watch of other types.
    - [Mutex], [Queue], [Latch], [Channel], [StreamBuffer], [Grant],
      [RateLimiter], [Pin]: the headers of these names in [async/].  Most are
      clients of a watch and use the [Cell], so their theorems rest on
      [WatchCell.watch_linearizable].  [Queue] uses what
      [Mutex.mutex_serializes] proves: a locked section is one step.
    - [StreamIO]: [protobuf/], [async/stream_buffer.ipp].  The streams of
      protobuf and values of fixed size over a stream buffer.
    - [TaskState], [Runtime], [FakeRuntime], [Backoff]: [async/task_*.hpp],
      [async/runtime.hpp], [async/fake_*.hpp], [async/backoff.hpp].  The state
      word of a user-space thread and every operation that changes it, for one
      task and any number of threads; waiting for a condition; the executors
      and timers that tests use.
    - [Metrics], [Collectors]: [metrics/].  Concurrent collectors; the registry,
      the CSV formatter and the dumper.
    - [Seq], [SeqOps], [KMerge], [GroupBy]: [seq.hpp] and [seq/].  [Seq] holds
      the interface (the classes [Seq], [SeqLaws], [PeekLaws]) and the
      combinators that own their source; [SeqOps] those that share, merge or
      consume sequences; [KMerge] the one with a heap; [GroupBy] the one whose
      items share its source.
    - [Buffer], [BufferSource], [Fetch]: [buffer.hpp], [async/buffer_source*.hpp],
      [async/fetch.hpp].  Byte buffers, the interface of a source of buffers
      with its laws, and what is built on it.
    - [ChunkedCoding], [ChunkSource], [HttpParser], [HttpRoundTrip],
      [HttpClient], [HttpHost], [UrlParse]: [pico_http/], [http/],
      [url_parse.hpp].  The chunked coding and its decoder as a source; the
      parser and printer of messages; the reading of a response from a
      connection ([HttpClient]); calls of [http_request], the queues of the
      hosts and the connections that serve them ([HttpHost]).
    - [ModelChecker], [ModelCheckMesh], [ModelCheckMerge]:
      [state_machine_model.hpp] and [state_machine_model/], the exhaustive model
      checker.  [ModelChecker] is what one shard does with one branch, over any
      user model (a parameter, with the picks of its [step] as a tree);
      [ModelCheckMesh] the shards that run in parallel, one step per access to
      shared memory; [ModelCheckMerge] the merge of their results and
      [check_model].  The proofs are in [ModelCheckSafe] (branches are where
      they belong), [ModelCheckCount] (the count of pending batches),
      [ModelCheck] (nothing is lost), [ModelCheckEnd] (the measure) and
      [ModelCheckLive] (nobody waits for ever).

    In each file a definition is preceded by a comment that names the file, the
    lines and the symbol it translates.  Definitions keep the names of the
    code; where a member function takes part in an interleaving, its body is
    cut into steps (a constructor of the program counter for each place between
    two accesses to shared memory) and the step function of the file holds all
    of them.

    ** How the code is represented

    Machine integers are [Z] with an explicit wrap-around ([uwrap], [swrap]),
    or [nat]/[Z] with a stated bound where the code cannot reach the limit.  A
    failed [BATT_CHECK] or a [BATT_PANIC] is a value ([Panic], [None], or the
    flag of the state that says that a check has failed), and the safety
    theorems say that it does not occur.  A [StatusOr] is a sum.  Concurrency
    is interleaving: a schedule is a list that names the thread of each step and
    resolves what the code leaves open (a weak compare-exchange that fails, the
    value a waiter is woken with), and theorems quantify over every schedule.
    The memory model is sequentially consistent: [std::atomic]'s default, which
    the code uses almost throughout.

    ** What the theorems show

    - Synchronisation: the watch is linearizable, loses no wake-up, invokes each
      handler once and never deadlocks; the mutex runs critical sections one at
      a time in ticket order and makes progress; the queue is FIFO and no reader
      sleeps on an item; a latch is set once; a channel delivers each object
      once if wake-ups bring new values; the stream buffer is a bounded byte
      stream with a definite end; grants never exceed their total, and conserve
      it without [swap]; no pin is used after its object is gone.
    - Tasks and work: a task runs on one thread at a time and its stack is not
      touched after it is gone; no signal is lost unless an await is preempted
      before it starts its operation; awaits return once, in order; each
      completion handler runs once, after termination; a work context is not
      used after [await_done]; timers fire once and not too early.
    - Parallel algorithms: the work is partitioned exactly, and each algorithm
      writes what its sequential counterpart writes, for every interleaving.
    - Sequences: every combinator but [skip_n] computes the list function it is
      named after over arbitrary sources (whose [peek] is right, where it peeks),
      with a bound on the work; [merge_by] is the stable merge; [kmerge] merges sorted sequences; the groups of [group_by] behave
      as if they shared nothing.
    - Codecs, parsers and sources: what is printed or encoded is read back, also
      when it arrives in pieces; the two builds of the HTTP parser agree; the
      parsers are total and stable under later input; readers and transfers take
      the bytes of a source once, in order, to its end.
    - HTTP client: requests are neither lost nor taken twice, responses go to
      the requests in order, and the client comes to rest after a bounded number
      of steps, with all calls returned when the network did its part.
    - Objects: whatever program of constructors, assignments and destructors is
      run, no object is built over another, used when it is not there, or left
      behind, and the classes do what an option, a sum or a function does (for
      [StatusOr], unless an object is given its own value).
    - Model checking: for 1 to 64 shards and any interleaving the search is
      exhaustive and its answer right, given hashes that belong to a shard; when
      the reachable states are finitely many, the number of steps is bounded, and
      shards that can take no step have returned.
    - Data: the radix queue refines a list, intervals are exact sets, codes and
      registry entries agree, error codes have one status in every thread,
      checked casts that compile change no value, those to [bool] apart; retries
      are bounded, metrics count all updates, and the columns of the CSV
      formatter show their metrics, if these have different names.

    Where the code does something else than it means to, an [Example] of the
    file shows it on a concrete input, and the theorem beside it says in its
    hypotheses what it leaves out ([HttpHost.closed_connections],
    [BufferSource.serialize_repeats], [Channel.stale_wakeup_null] and others).

    ** Fuel

    Recursion that is not structural takes fuel and returns [None] (or
    [Diverge], for code that may really run for ever) when it runs out; no
    theorem is conditional on the result being there.  In [Seq] the function
    [cost] bounds the fuel that a sequence with a given list needs, and the laws
    state that with [cost] the answer is there; [GroupBy], [ChunkedCoding],
    [BufferSource] and [Fetch] use the length of what is left to read.
    [SliceWork] and [ParallelMerge] use the size of the input, which each
    iteration reduces; the retries of [Backoff] use [max_attempts].  The
    concurrent components need no fuel: a schedule is finite, and the progress
    theorems state that from every reachable state some schedule finishes, or
    that only a bounded number of steps change anything and what holds when none
    does.  The model checker runs for as long as there are states: when the
    reachable ones are finitely many, [search_bound] bounds its steps.  The
    merge of its results uses 64 levels of fuel, one for each bit of a shard
    index.

    ** Interfaces

    [NaturalOrder] (of [Interval]) is what the element type of an interval
    promises; [Seq]/[SeqLaws]/[PeekLaws] what a sequence promises to the
    combinator that owns it; [Cell] what a watch promises to its clients;
    [BufferSource]/[SourceLaws] and [WriteLaws] what a source of buffers and a
    connection promise to their readers and writers, [FetchesFront], [FailsAtEnd]
    and [SinkLaws] what the streams need of a stream buffer besides; [Erased]
    what a type-erased container knows of its object.  [StdHeap], [StdSort],
    [TimerHeap] and [UnorderedMap] state what the C++ standard says of the heap
    functions, of sorting, of a priority queue and of the order of a hash map,
    and nothing else of the library is assumed.

    ** Not modelled

    - The switch of stacks (boost.context), thread pools and the default
      scheduler ([async/continuation.hpp], [async/task_scheduler.hpp]): an
      activation of a task may run on any thread.
    - Sockets: the network is an input of [HttpClient] and [HttpHost].  The
      server ([http/http_server.hpp]) is a sketch in the code.
    - The asynchronous variants of the stream buffer, and [seq/boxed.hpp],
      [seq/lazy.hpp] and the printers, which add nothing to what is inside.
    - The stochastic model checker, and the progress reports and rates of the
      exhaustive one; a user's model is assumed to give hashes that belong to a
      shard ([hash_ok]) and steps whose picks fit into a branch ([model_ok]).
    - Weak memory orders: where the code asks for less than sequential
      consistency, the model is stronger than the code.
    - Logging, stack traces, debug output, and the templates that only choose a
      type or an overload ([case_of.hpp], [type_traits.hpp], [tuples.hpp]). *)

From Stdlib Require Export ZArith Lia.
From stdpp Require Export base list gmap numbers option.

Create HintDb batt.
Create Rewrite HintDb batt.

Declare Scope batt_scope.
Delimit Scope batt_scope with batt.

(** ** Machine integers

    The C++ integer types are modelled as [Z] kept in range by an explicit
    wrap-around: [uwrap w] is the value an unsigned [w]-bit variable holds
    after an assignment, [swrap w] the two's complement value of a signed
    one. *)

Definition uwrap (w z : Z) : Z := z mod 2 ^ w.

Definition swrap (w z : Z) : Z := (z + 2 ^ (w - 1)) mod 2 ^ w - 2 ^ (w - 1).

Abbreviation u8 := (uwrap 8).
Abbreviation u16 := (uwrap 16).
Abbreviation u32 := (uwrap 32).
Abbreviation u64 := (uwrap 64).
Abbreviation i32 := (swrap 32).
Abbreviation i64 := (swrap 64).

Definition u64_max : Z := 2 ^ 64 - 1.

(** The range predicates that the invariants of the components use. *)
Definition is_u64 (z : Z) : Prop := (0 <= z < 2 ^ 64)%Z.

Definition is_i64 (z : Z) : Prop := (- 2 ^ 63 <= z < 2 ^ 63)%Z.

(** ** Panics

    [BATT_CHECK] and [BATT_ASSERT] terminate the program when the condition
    they test is false.  An operation that may do so returns an [outcome]:
    the value it computes or [Panic]. *)

Inductive outcome (A : Type) : Type :=
| Done (a : A)
| Panic.
Arguments Done {A} a.
Arguments Panic {A}.

#[export] Instance outcome_ret : MRet outcome := fun A a => Done a.

#[export] Instance outcome_bind : MBind outcome :=
  fun A B k m => match m with Done a => k a | Panic => Panic end.

Definition check (b : bool) : outcome unit := if b then Done tt else Panic.

Definition is_done {A} (m : outcome A) : Prop := exists a, m = Done a.

(** ** Lemmas and automation *)

Lemma uwrap_range (w z : Z) : (0 <= w)%Z -> (0 <= uwrap w z < 2 ^ w)%Z.
Proof. intros Hw. apply Z.mod_pos_bound. lia. Qed.

Lemma uwrap_small (w z : Z) : (0 <= z < 2 ^ w)%Z -> uwrap w z = z.
Proof. apply Z.mod_small. Qed.

Lemma uwrap_idem (w z : Z) : uwrap w (uwrap w z) = uwrap w z.
Proof. unfold uwrap. apply Zmod_mod. Qed.

Lemma uwrap_add_l (w a b : Z) : uwrap w (uwrap w a + b) = uwrap w (a + b).
Proof. unfold uwrap. apply Zplus_mod_idemp_l. Qed.

Lemma uwrap_add_r (w a b : Z) : uwrap w (a + uwrap w b) = uwrap w (a + b).
Proof. unfold uwrap. apply Zplus_mod_idemp_r. Qed.

Lemma uwrap_sub_l (w a b : Z) : uwrap w (uwrap w a - b) = uwrap w (a - b).
Proof. unfold uwrap. apply Zminus_mod_idemp_l. Qed.

Lemma uwrap_sub_r (w a b : Z) : uwrap w (a - uwrap w b) = uwrap w (a - b).
Proof. unfold uwrap. apply Zminus_mod_idemp_r. Qed.

Lemma swrap_range (w z : Z) :
  (1 <= w)%Z -> (- 2 ^ (w - 1) <= swrap w z < 2 ^ (w - 1))%Z.
Proof.
  intros Hw. unfold swrap.
  assert (2 ^ w = 2 * 2 ^ (w - 1))%Z as E.
  { rewrite <- Z.pow_succ_r by lia. f_equal. lia. }
  pose proof (Z.mod_pos_bound (z + 2 ^ (w - 1)) (2 ^ w)). lia.
Qed.

Lemma swrap_small (w z : Z) :
  (1 <= w)%Z -> (- 2 ^ (w - 1) <= z < 2 ^ (w - 1))%Z -> swrap w z = z.
Proof.
  intros Hw Hz. unfold swrap.
  assert (2 ^ w = 2 * 2 ^ (w - 1))%Z as E.
  { rewrite <- Z.pow_succ_r by lia. f_equal. lia. }
  rewrite Z.mod_small; lia.
Qed.

#[export] Hint Rewrite uwrap_idem uwrap_add_l uwrap_add_r uwrap_sub_l uwrap_sub_r : batt.
#[export] Hint Resolve uwrap_range swrap_range : batt.

Lemma done_inj {A} (a b : A) : Done a = Done b -> a = b.
Proof. by intros [= ->]. Qed.

Lemma bind_done {A B} (m : outcome A) (k : A -> outcome B) (b : B) :
  m ≫= k = Done b <-> exists a, m = Done a /\ k a = Done b.
Proof.
  split.
  - destruct m as [a|]; [by exists a|done].
  - by intros (a & -> & H).
Qed.

Lemma check_done (b : bool) : check b = Done tt <-> b = true.
Proof. by destruct b. Qed.

Lemma check_bind_done {B} (b : bool) (k : unit -> outcome B) (r : B) :
  check b ≫= k = Done r <-> b = true /\ k tt = Done r.
Proof. destruct b; simpl; naive_solver. Qed.

Lemma mapM_done {A B} (f : A -> outcome B) (g : A -> B) (l : list A) :
  (forall x, x ∈ l -> f x = Done (g x)) -> mapM f l = Done (g <$> l).
Proof.
  induction l as [|x l IH]; intros H; simpl; [done|].
  rewrite H by (by left). simpl. rewrite IH; [done|]. intros y Hy. apply H. by right.
Qed.

(** ** Bits *)

Lemma land_bit (s k : Z) : (0 <= k -> (Z.land s (2 ^ k) =? 0) = negb (Z.testbit s k))%Z.
Proof.
  intros Hk. destruct (Z.testbit s k) eqn:E; simpl.
  - apply Z.eqb_neq. intros H. apply (f_equal (fun z => Z.testbit z k)) in H.
    rewrite Z.land_spec, Z.pow2_bits_true, E, Z.bits_0 in H by done. done.
  - apply Z.eqb_eq, Z.bits_inj'. intros n Hn. rewrite Z.land_spec, Z.bits_0.
    destruct (decide (n = k)) as [->|Hne]; [by rewrite E|].
    rewrite Z.pow2_bits_false by done. by rewrite andb_false_r.
Qed.

(** [bool_cases] turns every boolean comparison of the context and the goal
    into its proposition, so that [lia] can use it. *)
Ltac bool_cases :=
  repeat match goal with
    | H : andb _ _ = true |- _ => apply andb_true_iff in H as [? ?]
    | H : andb _ _ = false |- _ => apply andb_false_iff in H
    | H : orb _ _ = false |- _ => apply orb_false_iff in H as [? ?]
    | H : orb _ _ = true |- _ => apply orb_true_iff in H
    | H : negb _ = true |- _ => apply negb_true_iff in H
    | H : negb _ = false |- _ => apply negb_false_iff in H
    | H : (_ =? _)%Z = true |- _ => apply Z.eqb_eq in H
    | H : (_ =? _)%Z = false |- _ => apply Z.eqb_neq in H
    | H : (_ <? _)%Z = true |- _ => apply Z.ltb_lt in H
    | H : (_ <? _)%Z = false |- _ => apply Z.ltb_ge in H
    | H : (_ <=? _)%Z = true |- _ => apply Z.leb_le in H
    | H : (_ <=? _)%Z = false |- _ => apply Z.leb_gt in H
    | H : (_ =? _)%nat = true |- _ => apply Nat.eqb_eq in H
    | H : (_ =? _)%nat = false |- _ => apply Nat.eqb_neq in H
    | H : (_ <? _)%nat = true |- _ => apply Nat.ltb_lt in H
    | H : (_ <? _)%nat = false |- _ => apply Nat.ltb_ge in H
    | H : (_ <=? _)%nat = true |- _ => apply Nat.leb_le in H
    | H : (_ <=? _)%nat = false |- _ => apply Nat.leb_gt in H
    | H : bool_decide _ = true |- _ => apply bool_decide_eq_true in H
    | H : bool_decide _ = false |- _ => apply bool_decide_eq_false in H
    end.

(** [case_if] splits on the first test of an [if] in the goal or a hypothesis. *)
Ltac case_if :=
  match goal with
  | |- context [if ?b then _ else _] => destruct b eqn:?
  | H : context [if ?b then _ else _] |- _ => destruct b eqn:?
  end; bool_cases.

(** [run_inv] opens the binds of a successful monadic run. *)
Ltac run_inv :=
  repeat match goal with
    | H : check _ ≫= _ = Done _ |- _ => apply check_bind_done in H as [? H]
    | H : _ ≫= _ = Done _ |- _ => apply bind_done in H as (? & ? & H)
    | H : mret _ = Done _ |- _ => apply done_inj in H
    | H : Done _ = Done _ |- _ => apply done_inj in H
    | H : Panic = Done _ |- _ => discriminate H
    end; bool_cases.

(** ** Sums of integers *)

Definition sum (zs : list Z) : Z := foldr Z.add 0%Z zs.
#[global] Arguments sum : simpl never.

Lemma sum_app (xs ys : list Z) : (sum (xs ++ ys) = sum xs + sum ys)%Z.
Proof. unfold sum. induction xs as [|x xs IH]; simpl; [done|]. rewrite IH. lia. Qed.

Lemma sum_cons (x : Z) (xs : list Z) : sum (x :: xs) = (x + sum xs)%Z.
Proof. done. Qed.

Lemma sum_insert {A} (f : A -> Z) (l : list A) (i : nat) (x y : A) :
  l !! i = Some x -> (sum (f <$> <[i := y]> l) = sum (f <$> l) - f x + f y)%Z.
Proof.
  revert i. induction l as [|z l IH]; intros [|i] Hi; simplify_eq/=.
  - rewrite !sum_cons. lia.
  - rewrite !sum_cons, IH by done. lia.
Qed.

Lemma sum_nonneg {A} (f : A -> Z) (l : list A) :
  Forall (fun y => 0 <= f y)%Z l -> (0 <= sum (f <$> l))%Z.
Proof. induction 1 as [|y l Hy Hl IH]; [done|]. rewrite fmap_cons, sum_cons. lia. Qed.

Lemma sum_lookup_le {A} (f : A -> Z) (l : list A) (i : nat) (x : A) :
  Forall (fun y => 0 <= f y)%Z l -> l !! i = Some x -> (f x <= sum (f <$> l))%Z.
Proof.
  intros Hl. revert i. induction Hl as [|y l Hy Hl IH]; intros [|i] Hi; simplify_eq/=;
    rewrite sum_cons.
  - pose proof (sum_nonneg f l Hl). lia.
  - specialize (IH i Hi). lia.
Qed.

Lemma sum_all_zero {A} (f : A -> Z) (l : list A) : (forall j x, l !! j = Some x -> f x = 0%Z) -> sum (f <$> l) = 0%Z.
Proof.
  induction l as [|x l IH]; intros Hl; [done|]. rewrite fmap_cons, sum_cons, (Hl 0%nat x eq_refl), IH; [done|].
  intros j y Hj. by apply (Hl (S j)).
Qed.


(** ** Updates of one thread in a list of threads *)

Lemma list_insert_cases {A} (l : list A) (i j : nat) (x y z : A) :
  l !! i = Some x -> <[i := y]> l !! j = Some z -> (j = i /\ z = y) \/ (j <> i /\ l !! j = Some z).
Proof.
  intros Hi Hj. destruct (decide (j = i)) as [->|Hne].
  - rewrite list_lookup_insert_eq in Hj by (by apply lookup_lt_Some in Hi). injection Hj as <-. by left.
  - rewrite list_lookup_insert_ne in Hj by done. by right.
Qed.

Lemma list_insert_here {A} (l : list A) (i : nat) (x y : A) : l !! i = Some x -> <[i := y]> l !! i = Some y.
Proof. intros Hi. apply list_lookup_insert_eq. by apply lookup_lt_Some in Hi. Qed.

Lemma concat_insert_perm {A B} (f : A -> list B) (l : list A) (i : nat) (x y : A) (a : list B) :
  l !! i = Some x -> f x ≡ₚ a ++ f y -> concat (f <$> l) ≡ₚ a ++ concat (f <$> <[i := y]> l).
Proof.
  intros Hi Hp. revert i Hi. induction l as [|z l IH]; intros [|i] Hi; simplify_eq/=.
  - by rewrite Hp, <- app_assoc.
  - rewrite (IH i Hi), !app_assoc. f_equiv. apply Permutation_app_comm.
Qed.

(** ** Counting the threads of a list *)

(** The number of elements of a list that satisfy [P]. *)
Definition cnt {A} (P : A -> bool) (l : list A) : Z := sum ((fun x => Z.b2z (P x)) <$> l).

Lemma cnt_nonneg {A} (P : A -> bool) (l : list A) : (0 <= cnt P l)%Z.
Proof. apply sum_nonneg, list.Forall_forall. intros x _. by destruct (P x). Qed.

Lemma cnt_nil {A} (P : A -> bool) : cnt P [] = 0%Z.
Proof. done. Qed.

Lemma cnt_cons {A} (P : A -> bool) (x : A) (l : list A) : cnt P (x :: l) = (Z.b2z (P x) + cnt P l)%Z.
Proof. done. Qed.

Lemma cnt_step {A} (P : A -> bool) (l l' : list A) (i : nat) (x y : A) :
  l !! i = Some x ->
  (cnt P (<[i := y]> l ++ l') = cnt P l - Z.b2z (P x) + Z.b2z (P y) + cnt P l')%Z.
Proof. intros Hi. unfold cnt. by rewrite fmap_app, sum_app, (sum_insert _ _ _ _ _ Hi). Qed.

Lemma cnt_lookup {A} (P : A -> bool) (l : list A) (i : nat) (x : A) :
  l !! i = Some x -> (Z.b2z (P x) <= cnt P l)%Z.
Proof.
  apply (sum_lookup_le (fun x => Z.b2z (P x))), list.Forall_forall. intros y _. by destruct (P y).
Qed.

Lemma cnt_zero {A} (P : A -> bool) (l : list A) (i : nat) (x : A) :
  cnt P l = 0%Z -> l !! i = Some x -> P x = false.
Proof. intros H0 Hi. pose proof (cnt_lookup P l i x Hi). destruct (P x); [simpl in *; lia|done]. Qed.

Lemma cnt_unique {A} (P : A -> bool) (l : list A) (i j : nat) (x y : A) :
  (cnt P l <= 1)%Z -> l !! i = Some x -> l !! j = Some y -> P x = true -> P y = true -> i = j.
Proof.
  intros H1 Hi Hj Hx Hy. destruct (decide (i = j)) as [|Hne]; [done|exfalso].
  revert i j Hi Hj Hne H1. unfold cnt. induction l as [|z l IH]; intros [|i] [|j] Hi Hj Hne H1;
    simplify_eq/=; rewrite sum_cons in H1.
  - pose proof (cnt_lookup P l j y Hj) as H. unfold cnt in H. rewrite Hx, Hy in *. simpl in *. lia.
  - pose proof (cnt_lookup P l i x Hi) as H. unfold cnt in H. rewrite Hx, Hy in *. simpl in *. lia.
  - apply (IH i j); try done; [congruence|]. destruct (P z); simpl in *; lia.
Qed.

Lemma cnt_exists {A} (P : A -> bool) (l : list A) :
  (0 < cnt P l)%Z -> exists i x, l !! i = Some x /\ P x = true.
Proof.
  unfold cnt. induction l as [|z l IH]; [done|]. rewrite fmap_cons, sum_cons. intros H.
  destruct (P z) eqn:E; [by exists 0%nat, z|]. simpl in H. destruct IH as (i & x & Hi & Hx); [lia|]. by exists (S i), x.
Qed.

Lemma cnt_app {A} (P : A -> bool) (l l' : list A) : (cnt P (l ++ l') = cnt P l + cnt P l')%Z.
Proof. unfold cnt. by rewrite fmap_app, sum_app. Qed.

Lemma cnt_insert {A} (P : A -> bool) (l : list A) (i : nat) (x y : A) :
  l !! i = Some x -> (cnt P (<[i := y]> l) = cnt P l - Z.b2z (P x) + Z.b2z (P y))%Z.
Proof. intros Hi. pose proof (cnt_step P l [] i x y Hi) as H. rewrite app_nil_r, cnt_nil in H. lia. Qed.

Lemma cnt_perm {A} (P : A -> bool) (l l' : list A) : l ≡ₚ l' -> cnt P l = cnt P l'.
Proof. induction 1; rewrite ?cnt_cons; lia. Qed.

Lemma cnt_concat {A} (P : A -> bool) (ls : list (list A)) : cnt P (concat ls) = sum (cnt P <$> ls).
Proof. induction ls as [|l ls IH]; [done|]. rewrite fmap_cons, sum_cons, <- IH. apply cnt_app. Qed.

(** Two lists in which everything occurs equally often. *)
Lemma cnt_permutation `{EqDecision A} (l l' : list A) : (forall P : A -> bool, cnt P l = cnt P l') -> l ≡ₚ l'.
Proof.
  intros H. pose (d := fun x y : A => decide (x = y)). apply (Permutation_count_occ d). intros x.
  assert (forall k : list A, Z.of_nat (count_occ d k x) = cnt (fun y => bool_decide (y = x)) k) as Hc.
  { induction k as [|y k IH]; [done|]. rewrite cnt_cons. cbn [count_occ]. destruct (d y x); [rewrite bool_decide_eq_true_2 by done|rewrite bool_decide_eq_false_2 by done]; simpl; lia. }
  specialize (H (fun y => bool_decide (y = x))). rewrite <- !Hc in H. lia.
Qed.

Lemma sum_alter {A} (g : A -> Z) (h : A -> A) (l : list A) (i : nat) (x : A) :
  l !! i = Some x -> (sum (g <$> alter h i l) = sum (g <$> l) - g x + g (h x))%Z.
Proof.
  intros Hi. rewrite <- (sum_insert g l i x (h x) Hi). do 2 f_equal. apply list_eq. intros j.
  destruct (decide (j = i)) as [->|].
  - rewrite list_lookup_alter_eq, Hi, list_lookup_insert_eq; [done|]. by eapply lookup_lt_Some.
  - by rewrite list_lookup_alter_ne, list_lookup_insert_ne.
Qed.

(** The other threads after thread [i] has taken a step. *)
Lemma step_cases {A} (l l' : list A) (i j : nat) (x y z : A) :
  l !! i = Some x -> (<[i := y]> l ++ l') !! j = Some z ->
  (j = i /\ z = y) \/ (j <> i /\ l !! j = Some z) \/ z ∈ l'.
Proof.
  intros Hi. rewrite lookup_app_Some. intros [Hj|[_ Hj]].
  - destruct (list_insert_cases _ _ _ _ _ _ Hi Hj) as [?|?]; [by left|by right; left].
  - right. right. by eapply list_elem_of_lookup_2.
Qed.

(** What the other threads hold is the same before and after the step. *)
Lemma concat_step_perm {A B} (f : A -> list B) (l l' : list A) (i : nat) (x y : A) :
  l !! i = Some x -> Forall (fun z => f z = []) l' ->
  exists rest, concat (f <$> l) ≡ₚ f x ++ rest /\ concat (f <$> (<[i := y]> l ++ l')) ≡ₚ f y ++ rest.
Proof.
  intros Hi Hl'. exists (concat (f <$> take i l) ++ concat (f <$> drop (S i) l)).
  assert (concat (f <$> l') = []) as E by (clear - Hl'; induction Hl' as [|z l' Hz _ IH]; simpl; [done|by rewrite Hz]).
  assert (l = take i l ++ x :: drop (S i) l) as El by (by rewrite take_drop_middle).
  split.
  - rewrite El at 1. rewrite fmap_app, concat_app. simpl. solve_Permutation.
  - rewrite insert_take_drop by (by apply lookup_lt_Some in Hi).
    rewrite !fmap_app, !concat_app, fmap_cons, E. simpl. rewrite app_nil_r. solve_Permutation.
Qed.
