(* ===== verification/Status.v ===== *)
(** * Status codes

    [status.hpp] and [status_impl.hpp]: the numeric status codes, the
    registration of code groups, the lookup of an entry from a code and the
    comparison of statuses.  A [Status] is the [i32] it stores; an
    enumeration type is identified by a number (its [std::type_index]). *)

From S2P Require Export Prelude.
From stdpp Require Export strings.

Open Scope Z_scope.

(* @ src/batteries/status.hpp 49-76 StatusCode *)
Inductive StatusCode : Type :=
| kOk | kCancelled | kUnknown | kInvalidArgument | kDeadlineExceeded
| kNotFound | kAlreadyExists | kPermissionDenied | kResourceExhausted
| kFailedPrecondition | kAborted | kOutOfRange | kUnimplemented | kInternal
| kUnavailable | kDataLoss | kUnauthenticated | kClosed | kGrantUnavailable
| kLoopBreak | kEndOfStream | kClosedBeforeEndOfStream | kGrantRevoked.

#[export] Instance StatusCode_eq_dec : EqDecision StatusCode.
Proof. solve_decision. Defined.

(* @ src/batteries/status.hpp 50-75 StatusCode *)
Definition StatusCode_to_Z (c : StatusCode) : Z :=
  match c with
  | kOk => 0 | kCancelled => 1 | kUnknown => 2 | kInvalidArgument => 3
  | kDeadlineExceeded => 4 | kNotFound => 5 | kAlreadyExists => 6
  | kPermissionDenied => 7 | kResourceExhausted => 8 | kFailedPrecondition => 9
  | kAborted => 10 | kOutOfRange => 11 | kUnimplemented => 12 | kInternal => 13
  | kUnavailable => 14 | kDataLoss => 15 | kUnauthenticated => 16
  | kClosed => 100 | kGrantUnavailable => 101 | kLoopBreak => 102
  | kEndOfStream => 103 | kClosedBeforeEndOfStream => 104 | kGrantRevoked => 105
  end.

(** A [StatusOr<T>] holds a value or a status that is not ok; the clients
    modelled here only build it from the codes above. *)
(* @ src/batteries/status.hpp 449-508 StatusOr *)
Inductive StatusOr (A : Type) : Type :=
| OkVal (a : A)
| Err (s : StatusCode).
Arguments OkVal {A} a.
Arguments Err {A} s.

Module StatusRegistry.

(* @ src/batteries/status.hpp 95-97 Status::kGroupSize *)
Definition kGroupSizeBits : Z := 12.
Definition kGroupSize : Z := Z.shiftl 1 kGroupSizeBits.

(* @ src/batteries/status.hpp 269-272 Status::kLocalMask *)
Definition kLocalMask : Z := Z.shiftl 1 kGroupSizeBits - 1.
Definition kGroupMask : Z := Z.lnot kLocalMask.
Definition kMaxGroupCount : Z := 256.
Definition kMaxCodeNumericRange : Z := 65535.

(* @ src/batteries/status.hpp 106-110 Status::CodeEntry *)
Record CodeEntry : Type := mkEntry {
  code : Z;
  enum_value : Z;
  message : string }.

(* @ src/batteries/status.hpp 112-123 Status::CodeGroup *)
Record CodeGroup : Type := mkGroup {
  index : Z;
  min_enum_value : Z;
  enum_value_to_code : list Z;
  entries : list CodeEntry }.

(** The static data: [next_index], the per-type [exactly_once] flags, the
    per-type group and the array of group pointers. *)
(* @ src/batteries/status.hpp 276-300 Status::registered_groups *)
Record Registry : Type := mkRegistry {
  next_index : Z;
  exactly_once : gset nat;
  group_for_type : gmap nat CodeGroup;
  registered_groups : gmap Z CodeGroup }.

Definition empty_group : CodeGroup := mkGroup 0 0 [] [].

Definition initial_registry : Registry := mkRegistry 0 ∅ ∅ ∅.

(* @ src/batteries/status.hpp 276-282 Status::next_group_index *)
Definition next_group_index (r : Registry) : outcome (Z * Registry) :=
  let i := next_index r in
  let r' := mkRegistry (i + 1) (exactly_once r) (group_for_type r) (registered_groups r) in
  check (i <? kMaxGroupCount);; mret (i, r').

(* @ src/batteries/status.hpp 302-305 Status::get_index_of_group *)
Definition get_index_of_group (value : Z) : Z :=
  Z.shiftr (Z.land value kGroupMask) kGroupSizeBits.

(* @ src/batteries/status.hpp 307-310 Status::get_index_within_group *)
Definition get_index_within_group (value : Z) : Z := Z.land value kLocalMask.

(* @ src/batteries/status.hpp 218-221 Status::ok *)
Definition ok (value : Z) : bool := Z.land value kLocalMask =? 0.

(* @ src/batteries/status_impl.hpp 27-30 operator== *)
Definition status_eqb (l r : Z) : bool := (l =? r) || (ok l && ok r).

(* @ src/batteries/status.hpp 133-137 Status::unknown_enum_value_message *)
Definition unknown_enum_value_message : string :=
  "(Unknown enum value; not registered via batt::Status::register_codes)".

(** The loop that appends one entry per registered code. *)
(* @ src/batteries/status.hpp 1374-1390 Status::register_codes_internal *)
Fixpoint make_entries (next_code : Z) (codes : list (Z * string)) : list CodeEntry :=
  match codes with
  | [] => []
  | (v, m) :: rest => mkEntry next_code v m :: make_entries (next_code + 1) rest
  end.

(* @ src/batteries/status.hpp 1401-1403 Status::register_codes_internal *)
Definition fill_code (min : Z) (table : list Z) (e : CodeEntry) : list Z :=
  <[Z.to_nat (enum_value e - min) := code e]> table.

(* @ src/batteries/status.hpp 1360-1424 Status::register_codes_internal *)
Definition register_codes_internal (t : nat) (codes : list (Z * string)) (r : Registry)
  : outcome Registry :=
  if bool_decide (t ∈ exactly_once r) then mret r
  else
    '(i, r1) ← next_group_index r;
    let r2 := mkRegistry (next_index r1) ({[ t ]} ∪ exactly_once r1)
                (group_for_type r1) (registered_groups r1) in
    match codes with
    | [] => mret r2
    | (v0, _) :: _ =>
        let min := foldr Z.min v0 (fst <$> codes) in
        let max := foldr Z.max v0 (fst <$> codes) in
        let first_code := i * kGroupSize in
        let es := make_entries first_code codes in
        let next_code := first_code + Z.of_nat (length codes) in
        check (max - min <=? kMaxCodeNumericRange);;
        let table0 := replicate (Z.to_nat (max - min + 1)) next_code in
        let table := foldl (fill_code min) table0 es in
        let g := mkGroup i min table
                   (es ++ [mkEntry next_code (max + 1) unknown_enum_value_message]) in
        let global_group := default empty_group (group_for_type r2 !! t) in
        check (bool_decide (entries global_group = []));;
        check (i <? kMaxGroupCount);;
        mret (mkRegistry (next_index r2) (exactly_once r2)
                (<[t := g]> (group_for_type r2)) (<[i := g]> (registered_groups r2)))
    end.

(* @ src/batteries/status.hpp 142-153 Status::get_entry_from_code *)
Definition get_entry_from_code (r : Registry) (value : Z) : outcome CodeEntry :=
  let index_of_group := get_index_of_group value in
  let index_within_group := get_index_within_group value in
  check (index_of_group <? kMaxGroupCount);;
  match registered_groups r !! index_of_group with
  | None => Panic
  | Some g =>
      match entries g !! Z.to_nat index_within_group with
      | None => Panic
      | Some e => mret e
      end
  end.

(* @ src/batteries/status.hpp 176-195 Status::Status(ForceLookup, EnumT) *)
Definition status_of_enum (r : Registry) (t : nat) (v : Z) : outcome Z :=
  let group := default empty_group (group_for_type r !! t) in
  check (min_enum_value group <=? v);;
  let index_within_enum := v - min_enum_value group in
  match enum_value_to_code group !! Z.to_nat index_within_enum with
  | None => Panic
  | Some value => get_entry_from_code r value;; mret value
  end.

(* @ src/batteries/status.hpp 342-347 Status::Update *)
Definition Update (unknown self new_status : Z) : Z :=
  if ok self || status_eqb self unknown then new_status else self.

(** The [StatusCode] group, registered before any other. *)
(* @ src/batteries/status_impl.hpp 51-76 detail::StatusBase::StatusBase *)
Definition status_code_messages : list (StatusCode * string) :=
  [ (kOk, "Ok"); (kCancelled, "Cancelled"); (kUnknown, "Unknown");
    (kInvalidArgument, "Invalid Argument"); (kDeadlineExceeded, "Deadline Exceeded");
    (kNotFound, "Not Found"); (kAlreadyExists, "Already Exists");
    (kPermissionDenied, "Permission Denied"); (kResourceExhausted, "Resource Exhausted");
    (kFailedPrecondition, "Failed Precondition"); (kAborted, "Aborted");
    (kOutOfRange, "Out of Range"); (kUnimplemented, "Unimplemented");
    (kInternal, "Internal"); (kUnavailable, "Unavailable"); (kDataLoss, "Data Loss");
    (kUnauthenticated, "Unauthenticated"); (kClosed, "Closed");
    (kGrantUnavailable, "The requested grant count exceeds available count");
    (kLoopBreak, "Loop break"); (kEndOfStream, "End of stream");
    (kClosedBeforeEndOfStream, "The stream was closed before the end of data");
    (kGrantRevoked, "The Grant was revoked") ]%string.

(* @ src/batteries/status_impl.hpp 48-89 detail::StatusBase::StatusBase *)
Definition status_base (strerror : Z -> option string) (t_code t_errno : nat) (r : Registry)
  : outcome Registry :=
  r1 ← register_codes_internal t_code
         ((fun cm => (StatusCode_to_Z cm.1, cm.2)) <$> status_code_messages) r;
  register_codes_internal t_errno
    ((fun c => (Z.of_nat c, default "(unknown)"%string (strerror (Z.of_nat c))))
       <$> seq 0 (Z.to_nat kGroupSize)) r1.

(* @ src/batteries/status.hpp 1309-1312 status_from_errno *)
Definition status_from_errno (r : Registry) (t_errno : nat) (c : Z) : outcome Z :=
  status_of_enum r t_errno c.

(* @ src/batteries/status.hpp 1341-1347 status_is_retryable *)
Definition status_is_retryable (r : Registry) (t_code t_errno : nat) (eagain eintr s : Z)
  : outcome bool :=
  a ← status_of_enum r t_code (StatusCode_to_Z kUnavailable);
  b ← status_of_enum r t_errno eagain;
  c ← status_of_enum r t_errno eintr;
  mret (status_eqb s a || status_eqb s b || status_eqb s c).

(** ** The numeric layout of a code *)

Lemma index_of_group_code (i k : Z) :
  0 <= k < 4096 -> get_index_of_group (i * kGroupSize + k) = i.
Proof.
  intros Hk. unfold get_index_of_group, kGroupMask, kLocalMask.
  change (Z.shiftl 1 kGroupSizeBits - 1) with (Z.ones 12).
  rewrite <- Z.ldiff_land, Z.ldiff_ones_r by done.
  unfold kGroupSizeBits. rewrite Z.shiftr_shiftl_l by done.
  replace (12 - 12) with 0 by done. rewrite Z.shiftl_0_r, Z.shiftr_div_pow2 by done.
  change kGroupSize with 4096. change (2 ^ 12) with 4096.
  rewrite Z.div_add_l by lia. rewrite Z.div_small by lia. lia.
Qed.

Lemma index_within_group_code (i k : Z) :
  0 <= k < 4096 -> get_index_within_group (i * kGroupSize + k) = k.
Proof.
  intros Hk. unfold get_index_within_group, kLocalMask.
  change (Z.shiftl 1 kGroupSizeBits - 1) with (Z.ones 12).
  rewrite Z.land_ones by done. change kGroupSize with 4096. change (2 ^ 12) with 4096.
  rewrite Z.add_comm, Z_mod_plus_full. apply Z.mod_small. lia.
Qed.

Lemma ok_code (i k : Z) :
  0 <= k < 4096 -> ok (i * kGroupSize + k) = (k =? 0).
Proof.
  intros Hk. unfold ok. fold (get_index_within_group (i * kGroupSize + k)).
  by rewrite index_within_group_code.
Qed.

Lemma make_entries_lookup (codes : list (Z * string)) (n : Z) (k : nat) :
  make_entries n codes !! k
  = (fun vm => mkEntry (n + Z.of_nat k) vm.1 vm.2) <$> codes !! k.
Proof.
  revert n k. induction codes as [|[v m] codes IH]; intros n [|k]; simpl; try done.
  - by rewrite Z.add_0_r.
  - rewrite IH. destruct (codes !! k); [|done]. simpl. do 2 f_equal. lia.
Qed.

Lemma make_entries_length (codes : list (Z * string)) (n : Z) :
  length (make_entries n codes) = length codes.
Proof. revert n. induction codes as [|[v m] codes IH]; intros n; simpl; [done|]. by rewrite IH. Qed.

Lemma fill_length (min : Z) (es : list CodeEntry) (tbl : list Z) :
  length (foldl (fill_code min) tbl es) = length tbl.
Proof.
  revert tbl. induction es as [|e es IH]; intros tbl; simpl; [done|].
  rewrite IH. apply length_insert.
Qed.

Lemma fill_lookup_other (min : Z) (es : list CodeEntry) (tbl : list Z) (j : nat) :
  (forall k e, es !! k = Some e -> Z.to_nat (enum_value e - min) <> j) ->
  foldl (fill_code min) tbl es !! j = tbl !! j.
Proof.
  revert tbl. induction es as [|e es IH]; intros tbl Hj; simpl; [done|].
  rewrite IH by (intros k e' He'; apply (Hj (S k) e' He')).
  apply list_lookup_insert_ne, (Hj 0%nat e eq_refl).
Qed.

Lemma fill_lookup_entry (min : Z) (es : list CodeEntry) (tbl : list Z) (k : nat) (e : CodeEntry) :
  NoDup (enum_value <$> es) ->
  (forall k' e', es !! k' = Some e' ->
     min <= enum_value e' /\ (Z.to_nat (enum_value e' - min) < length tbl)%nat) ->
  es !! k = Some e ->
  foldl (fill_code min) tbl es !! Z.to_nat (enum_value e - min) = Some (code e).
Proof.
  revert tbl k. induction es as [|e0 es IH]; intros tbl [|k] Hnd Hr He; simplify_eq/=.
  - apply NoDup_cons in Hnd as [Hnin Hnd].
    rewrite fill_lookup_other.
    + apply list_lookup_insert_eq, (Hr 0%nat e eq_refl).
    + intros k' e' He' Heq. apply Hnin. apply list_elem_of_fmap. exists e'.
      split; [|by eapply list_elem_of_lookup_2].
      pose proof (Hr 0%nat e eq_refl). pose proof (Hr (S k') e' He'). lia.
  - apply NoDup_cons in Hnd as [_ Hnd]. apply (IH _ k); [done| |done].
    intros k' e' He'. unfold fill_code. rewrite length_insert. by apply (Hr (S k') e').
Qed.

Lemma foldr_min_le (v0 : Z) (l : list Z) : foldr Z.min v0 l <= v0.
Proof. induction l; simpl; lia. Qed.

Lemma foldr_max_ge (v0 : Z) (l : list Z) : v0 <= foldr Z.max v0 l.
Proof. induction l; simpl; lia. Qed.

Lemma foldr_min_max (v0 v : Z) (l : list Z) :
  v ∈ l -> foldr Z.min v0 l <= v <= foldr Z.max v0 l.
Proof.
  induction 1; simpl; [lia|]. lia.
Qed.

(** ** What a registration leaves in the registry *)

Definition lowest (codes : list (Z * string)) : Z :=
  match codes with [] => 0 | (v0, _) :: _ => foldr Z.min v0 codes.*1 end.

Definition highest (codes : list (Z * string)) : Z :=
  match codes with [] => 0 | (v0, _) :: _ => foldr Z.max v0 codes.*1 end.

(** The value ranges of a group fit the layout of the codes; a full group
    leaves no code for the values between its own. *)
Definition codes_fit (codes : list (Z * string)) : Prop :=
  codes <> [] /\ (length codes <= 4096)%nat /\ NoDup codes.*1 /\
  (forall v v', v ∈ codes.*1 -> v' ∈ codes.*1 -> v - v' <= kMaxCodeNumericRange) /\
  (length codes = 4096%nat -> forall v, lowest codes <= v <= highest codes -> v ∈ codes.*1).

(** The group that a registration of [codes] builds at index [i]. *)
Definition built_group (i : Z) (codes : list (Z * string)) : CodeGroup :=
  let es := make_entries (i * kGroupSize) codes in
  let next_code := i * kGroupSize + Z.of_nat (length codes) in
  mkGroup i (lowest codes)
    (foldl (fill_code (lowest codes))
       (replicate (Z.to_nat (highest codes - lowest codes + 1)) next_code) es)
    (es ++ [mkEntry next_code (highest codes + 1) unknown_enum_value_message]).

(** A registry reached by registrations of such groups. *)
Definition registry_wf (r : Registry) : Prop :=
  0 <= next_index r <= kMaxGroupCount /\
  (forall i, is_Some (registered_groups r !! i) -> 0 <= i < next_index r) /\
  (forall t, is_Some (group_for_type r !! t) -> t ∈ exactly_once r) /\
  (forall t g, group_for_type r !! t = Some g ->
     registered_groups r !! index g = Some g /\
     exists codes, codes_fit codes /\ g = built_group (index g) codes) /\
  (forall t t' g g', group_for_type r !! t = Some g -> group_for_type r !! t' = Some g' ->
     index g = index g' -> t = t').

Lemma lowest_highest (codes : list (Z * string)) (v : Z) :
  v ∈ codes.*1 -> lowest codes <= v <= highest codes.
Proof.
  destruct codes as [|[v0 m] codes]; [by intros ?%elem_of_nil|].
  intros Hv. by apply foldr_min_max.
Qed.

Lemma foldr_min_in (v0 : Z) (l : list Z) : foldr Z.min v0 l = v0 \/ foldr Z.min v0 l ∈ l.
Proof.
  induction l as [|x l IH]; simpl; [by left|].
  destruct (Z.min_spec x (foldr Z.min v0 l)) as [[_ ->]|[_ ->]].
  - right. left.
  - destruct IH; [by left|]. right. by right.
Qed.

Lemma foldr_max_in (v0 : Z) (l : list Z) : foldr Z.max v0 l = v0 \/ foldr Z.max v0 l ∈ l.
Proof.
  induction l as [|x l IH]; simpl; [by left|].
  destruct (Z.max_spec x (foldr Z.max v0 l)) as [[_ ->]|[_ ->]].
  - destruct IH; [by left|]. right. by right.
  - right. left.
Qed.

Lemma codes_fit_range (codes : list (Z * string)) :
  codes_fit codes -> highest codes - lowest codes <= kMaxCodeNumericRange.
Proof.
  intros (Hne & _ & _ & Hr & _). destruct codes as [|[v0 m] codes]; [done|].
  apply Hr; unfold lowest, highest.
  - destruct (foldr_max_in v0 ((v0, m) :: codes).*1) as [->|]; [left|done].
  - destruct (foldr_min_in v0 ((v0, m) :: codes).*1) as [->|]; [left|done].
Qed.

Lemma register_wf (t : nat) (codes : list (Z * string)) (r : Registry) :
  registry_wf r -> t ∉ exactly_once r -> next_index r < kMaxGroupCount -> codes_fit codes ->
  let g := built_group (next_index r) codes in
  registry_wf (mkRegistry (next_index r + 1) ({[ t ]} ∪ exactly_once r)
     (<[t := g]> (group_for_type r)) (<[next_index r := g]> (registered_groups r))).
Proof.
  intros (Hn & Hreg & Htyp & Hlink & Hinj) Ht Hlt Hfit. split_and!; simpl; [lia|lia| | | |].
  - intros i [g' Hg']. apply lookup_insert_Some in Hg' as [[<- _]|[_ Hg']]; [lia|].
    specialize (Hreg i (mk_is_Some _ _ Hg')). lia.
  - intros t' [g' Hg']. apply lookup_insert_Some in Hg' as [[<- _]|[_ Hg']]; [set_solver|].
    specialize (Htyp t' (mk_is_Some _ _ Hg')). set_solver.
  - intros t' g' Hg'. apply lookup_insert_Some in Hg' as [[_ <-]|[_ Hg']].
    + split; [apply lookup_insert_eq|]. by exists codes.
    + destruct (Hlink t' g' Hg') as [Hl Hc]. split; [|done].
      pose proof (Hreg (index g') (mk_is_Some _ _ Hl)). by rewrite lookup_insert_ne by lia.
  - intros t1 t2 g1 g2 H1 H2 Hi.
    apply lookup_insert_Some in H1 as [[<- <-]|[_ H1]];
      apply lookup_insert_Some in H2 as [[<- <-]|[_ H2]]; [done| | |by eapply Hinj].
    + destruct (Hlink _ _ H2) as [Hl _]. pose proof (Hreg _ (mk_is_Some _ _ Hl)). simpl in Hi. lia.
    + destruct (Hlink _ _ H1) as [Hl _]. pose proof (Hreg _ (mk_is_Some _ _ Hl)). simpl in Hi. lia.
Qed.

Lemma register_spec (t : nat) (codes : list (Z * string)) (r : Registry) :
  registry_wf r -> t ∉ exactly_once r -> next_index r < kMaxGroupCount -> codes_fit codes ->
  let g := built_group (next_index r) codes in
  register_codes_internal t codes r
  = Done (mkRegistry (next_index r + 1) ({[ t ]} ∪ exactly_once r)
            (<[t := g]> (group_for_type r)) (<[next_index r := g]> (registered_groups r))).
Proof.
  intros (_ & _ & Htyp & _) Ht Hlt Hfit. pose proof (codes_fit_range _ Hfit) as Hrange.
  destruct Hfit as (Hne & _). destruct codes as [|[v0 m0] codes]; [done|].
  assert (group_for_type r !! t = None) as Hnone.
  { destruct (group_for_type r !! t) eqn:E; [|done]. destruct Ht. apply Htyp. by rewrite E. }
  unfold register_codes_internal, next_group_index. rewrite bool_decide_eq_false_2 by done.
  apply Z.ltb_lt in Hlt. rewrite Hlt. cbn [check mbind outcome_bind mret outcome_ret next_index
    exactly_once group_for_type registered_groups].
  apply Z.leb_le in Hrange. unfold lowest, highest in Hrange. rewrite Hrange.
  cbn [check mbind outcome_bind]. rewrite Hnone, Hlt. reflexivity.
Qed.

Lemma built_table_lookup (i : Z) (codes : list (Z * string)) (k : nat) (v : Z) (m : string) :
  codes_fit codes -> codes !! k = Some (v, m) ->
  enum_value_to_code (built_group i codes) !! Z.to_nat (v - lowest codes)
  = Some (i * kGroupSize + Z.of_nat k).
Proof.
  intros (Hne & Hlen & Hnd & _) Hk. simpl.
  set (es := make_entries (i * kGroupSize) codes).
  assert (es !! k = Some (mkEntry (i * kGroupSize + Z.of_nat k) v m)) as He.
  { unfold es. by rewrite make_entries_lookup, Hk. }
  refine (fill_lookup_entry _ es _ k (mkEntry _ v m) _ _ He).
  - replace (enum_value <$> es) with codes.*1; [done|].
    apply list_eq. intros j. rewrite !list_lookup_fmap. unfold es.
    rewrite make_entries_lookup. by destruct (codes !! j) as [[]|].
  - intros j e Hj. unfold es in Hj. rewrite make_entries_lookup in Hj.
    destruct (codes !! j) as [[v' m']|] eqn:Ej; simplify_eq/=.
    assert (v' ∈ codes.*1) as Hin.
    { apply list_elem_of_fmap. exists (v', m'). split; [done|]. by eapply list_elem_of_lookup_2. }
    pose proof (lowest_highest codes v' Hin). rewrite length_replicate. lia.
Qed.

Lemma built_table_gap (i : Z) (codes : list (Z * string)) (v : Z) :
  v ∉ codes.*1 -> lowest codes <= v <= highest codes ->
  enum_value_to_code (built_group i codes) !! Z.to_nat (v - lowest codes)
  = Some (i * kGroupSize + Z.of_nat (length codes)).
Proof.
  intros Hv Hr. simpl. rewrite fill_lookup_other.
  - apply lookup_replicate. split; [done|lia].
  - intros k e Hk Heq. rewrite make_entries_lookup in Hk.
    destruct (codes !! k) as [[v' m']|] eqn:Ek; simplify_eq/=.
    assert (v' ∈ codes.*1) as Hin.
    { apply list_elem_of_fmap. exists (v', m'). split; [done|]. by eapply list_elem_of_lookup_2. }
    pose proof (lowest_highest codes v' Hin). destruct Hv.
    replace v with v' by lia. done.
Qed.

Lemma get_entry_built (r : Registry) (i : Z) (codes : list (Z * string)) (k : nat) (e : CodeEntry) :
  registered_groups r !! i = Some (built_group i codes) -> i < kMaxGroupCount ->
  (k < 4096)%nat ->
  entries (built_group i codes) !! k = Some e ->
  get_entry_from_code r (i * kGroupSize + Z.of_nat k) = Done e.
Proof.
  intros Hg Hi Hlen Hk. unfold get_entry_from_code.
  rewrite index_of_group_code, index_within_group_code by lia.
  apply Z.ltb_lt in Hi. rewrite Hi, Hg, Nat2Z.id. simpl. simpl in Hk. by rewrite Hk.
Qed.

Lemma status_of_enum_group (r : Registry) (t : nat) (g : CodeGroup) (v c : Z) (e : CodeEntry) :
  group_for_type r !! t = Some g -> min_enum_value g <= v ->
  enum_value_to_code g !! Z.to_nat (v - min_enum_value g) = Some c ->
  get_entry_from_code r c = Done e -> status_of_enum r t v = Done c.
Proof.
  intros Ht Hmin Htbl He. unfold status_of_enum. rewrite Ht. simpl.
  apply Z.leb_le in Hmin. rewrite Hmin. simpl. by rewrite Htbl, He.
Qed.

(** What a lookup by enumeration value finds in a built group. *)
Lemma status_of_built (r : Registry) (t : nat) (i : Z) (codes : list (Z * string)) (v : Z) :
  group_for_type r !! t = Some (built_group i codes) ->
  registered_groups r !! i = Some (built_group i codes) ->
  i < kMaxGroupCount -> codes_fit codes ->
  (exists k m, codes !! k = Some (v, m) /\
     status_of_enum r t v = Done (i * kGroupSize + Z.of_nat k) /\
     get_entry_from_code r (i * kGroupSize + Z.of_nat k)
     = Done (mkEntry (i * kGroupSize + Z.of_nat k) v m))
  \/ (v ∉ codes.*1 /\ lowest codes <= v <= highest codes /\
     status_of_enum r t v = Done (i * kGroupSize + Z.of_nat (length codes)) /\
     get_entry_from_code r (i * kGroupSize + Z.of_nat (length codes))
     = Done (mkEntry (i * kGroupSize + Z.of_nat (length codes)) (highest codes + 1)
               unknown_enum_value_message))
  \/ (~ lowest codes <= v <= highest codes /\ status_of_enum r t v = Panic).
Proof.
  intros Ht Hi Hlt Hfit. pose proof Hfit as (Hne & Hlen & Hnd & _ & Hgap).
  destruct (decide (v ∈ codes.*1)) as [Hin|Hnin].
  - left. apply list_elem_of_fmap in Hin as ([v' m] & Hv & Hk). simpl in Hv. subst v'.
    apply list_elem_of_lookup_1 in Hk as [k Hk]. exists k, m.
    assert (entries (built_group i codes) !! k = Some (mkEntry (i * kGroupSize + Z.of_nat k) v m)) as He.
    { simpl. rewrite lookup_app_l, make_entries_lookup, Hk; [done|].
      rewrite make_entries_length. by apply lookup_lt_Some in Hk. }
    pose proof (lookup_lt_Some _ _ _ Hk) as Hkl. pose proof (get_entry_built r i codes k _ Hi Hlt ltac:(lia) He) as Hget.
    split; [done|]. split; [|done].
    eapply status_of_enum_group; [done| |by apply (built_table_lookup i codes k v m)|done].
    apply lowest_highest, list_elem_of_fmap. exists (v, m). split; [done|]. by eapply list_elem_of_lookup_2.
  - right. destruct (decide (lowest codes <= v <= highest codes)) as [Hr|Hr].
    + left. split; [done|]. split; [done|].
      assert (entries (built_group i codes) !! length codes
        = Some (mkEntry (i * kGroupSize + Z.of_nat (length codes)) (highest codes + 1)
                  unknown_enum_value_message)) as He.
      { simpl. rewrite lookup_app_r; rewrite make_entries_length; [|done]. by rewrite Nat.sub_diag. }
      assert (length codes <> 4096%nat) as Hn by (intros E; by apply Hnin, Hgap).
      pose proof (get_entry_built r i codes (length codes) _ Hi Hlt ltac:(lia) He) as Hget.
      split; [|done].
      eapply status_of_enum_group; [done|apply Hr|by apply built_table_gap|done].
    + right. split; [done|]. unfold status_of_enum. rewrite Ht. simpl.
      destruct (lowest codes <=? v) eqn:E; [|done]. apply Z.leb_le in E. simpl.
      rewrite lookup_ge_None_2; [done|]. rewrite fill_length, length_replicate. lia.
Qed.

(** Registering a group of at most 4096 distinct codes succeeds, and
    afterwards every registered enumeration value converts to a status whose
    entry carries that value and its message and whose [ok] holds exactly
    for the first code of the group; a value in the numeric range that was
    not registered converts to a non-ok status with the "unknown" message,
    and a value outside the range panics. *)
Theorem register_roundtrip (t : nat) (codes : list (Z * string)) (r : Registry) :
  registry_wf r -> t ∉ exactly_once r -> next_index r < kMaxGroupCount -> codes_fit codes ->
  exists r', register_codes_internal t codes r = Done r' /\ registry_wf r' /\
  (forall k v m, codes !! k = Some (v, m) ->
     exists c, status_of_enum r' t v = Done c /\ get_entry_from_code r' c = Done (mkEntry c v m) /\
       ok c = bool_decide (k = 0%nat)) /\
  (forall v, v ∉ codes.*1 -> lowest codes <= v <= highest codes ->
     exists c e, status_of_enum r' t v = Done c /\ get_entry_from_code r' c = Done e /\
       message e = unknown_enum_value_message /\ ok c = false) /\
  (forall v, ~ lowest codes <= v <= highest codes -> status_of_enum r' t v = Panic).
Proof.
  intros Hwf Ht Hlt Hfit. eexists. split; [by apply register_spec|]. split; [by apply register_wf|].
  set (r' := mkRegistry _ _ _ _). pose proof Hfit as (_ & Hlen & Hnd & _ & Hgap).
  pose proof (fun v => status_of_built r' t (next_index r) codes v
    (lookup_insert_eq _ _ _) (lookup_insert_eq _ _ _) Hlt Hfit) as H.
  split_and!.
  - intros k v m Hk. assert (v ∈ codes.*1) as Hin.
    { apply list_elem_of_fmap. exists (v, m). split; [done|]. by eapply list_elem_of_lookup_2. }
    destruct (H v) as [(k' & m' & Hk' & Hs & He)|[(Hn & _)|(Hn & _)]];
      [|done|by destruct Hn; apply lowest_highest].
    assert (k' = k) as ->.
    { apply (NoDup_lookup codes.*1 _ _ v Hnd); rewrite list_lookup_fmap; [by rewrite Hk'|by rewrite Hk]. }
    rewrite Hk in Hk'. injection Hk' as <-. eexists. split; [exact Hs|]. split; [exact He|].
    apply lookup_lt_Some in Hk. rewrite ok_code by lia. destruct k; [done|]. case_bool_decide; [done|].
    apply Z.eqb_neq. lia.
  - intros v Hv Hr. destruct (H v) as [(k' & m' & Hk' & _)|[(_ & _ & Hs & He)|(Hn & _)]]; [|..].
    + destruct Hv. apply list_elem_of_fmap. exists (v, m'). split; [done|]. by eapply list_elem_of_lookup_2.
    + eexists _, _. split; [exact Hs|]. split; [exact He|]. split; [done|].
      assert (length codes <> 4096%nat) as Hne by (intros E; by apply Hv, Hgap).
      rewrite ok_code by lia. destruct codes; [by destruct Hfit|]. apply Z.eqb_neq. simpl. lia.
    + done.
  - intros v Hv. destruct (H v) as [(k' & m' & Hk' & _)|[(_ & Hr & _)|(_ & Hp)]]; [|done|done].
    destruct Hv. apply lowest_highest, list_elem_of_fmap. exists (v, m'). split; [done|].
    by eapply list_elem_of_lookup_2.
Qed.

Lemma status_of_enum_inv (r : Registry) (t : nat) (v c : Z) :
  registry_wf r -> status_of_enum r t v = Done c ->
  exists g codes k, group_for_type r !! t = Some g /\ g = built_group (index g) codes /\
    codes_fit codes /\ (k < 4096)%nat /\ c = index g * kGroupSize + Z.of_nat k /\
    ((exists m, codes !! k = Some (v, m)) \/ (k = length codes /\ v ∉ codes.*1)).
Proof.
  intros (Hn & Hreg & _ & Hlink & _) Hs.
  destruct (group_for_type r !! t) as [g|] eqn:Hg.
  2:{ unfold status_of_enum in Hs. rewrite Hg in Hs. simpl in Hs.
      destruct (0 <=? v); [|done]. simpl in Hs. by destruct (Z.to_nat (v - 0)). }
  destruct (Hlink t g Hg) as [Hl (codes & Hfit & Heq)].
  pose proof (Hreg _ (mk_is_Some _ _ Hl)) as Hr.
  rewrite Heq in Hg, Hl. assert (index g < kMaxGroupCount) as Hi by lia.
  destruct (status_of_built r t (index g) codes v Hg Hl Hi Hfit)
    as [(k & m & Hk & Hs' & _)|[(Hv & Hr' & Hs' & _)|(_ & Hs')]]; rewrite Hs in Hs'; pose proof Hfit as (_ & Hlen & _ & _ & Hgap).
  - exists g, codes, k. rewrite <- Heq in Hg. pose proof (lookup_lt_Some _ _ _ Hk).
    split_and!; try done; [lia|congruence|eauto].
  - exists g, codes, (length codes). rewrite <- Heq in Hg. split_and!; try done; [|congruence|auto].
    enough (length codes <> 4096%nat) by lia. intros E. by apply Hv, Hgap.
  - done.
Qed.

(** two statuses that compare equal and are not ok come from the same
    enumeration type, and from the same value or from two values that were
    never registered. *)
Theorem statuses_distinct (r : Registry) (t1 t2 : nat) (v1 v2 c1 c2 : Z) :
  registry_wf r ->
  status_of_enum r t1 v1 = Done c1 -> status_of_enum r t2 v2 = Done c2 ->
  ok c1 = false -> status_eqb c1 c2 = true ->
  t1 = t2 /\ (v1 = v2 \/ exists g, group_for_type r !! t1 = Some g /\
     forall e, e ∈ entries g -> message e <> unknown_enum_value_message ->
       enum_value e <> v1 /\ enum_value e <> v2).
Proof.
  intros Hwf H1 H2 Hok Heq. unfold status_eqb in Heq. rewrite Hok, orb_false_r in Heq.
  apply Z.eqb_eq in Heq. subst c2.
  destruct (status_of_enum_inv r t1 v1 c1 Hwf H1) as (g1 & codes & k1 & Hg1 & Hb1 & Hf1 & Hk1 & Hc1 & Hv1).
  destruct (status_of_enum_inv r t2 v2 c1 Hwf H2) as (g2 & codes2 & k2 & Hg2 & Hb2 & Hf2 & Hk2 & Hc2 & Hv2).
  pose proof Hf1 as (_ & Hl1 & _). pose proof Hf2 as (_ & Hl2 & _).
  rewrite Hc1 in Hc2.
  assert (index g1 = index g2) as Hi.
  { apply (f_equal get_index_of_group) in Hc2. by rewrite !index_of_group_code in Hc2 by lia. }
  assert (k1 = k2) as <-.
  { apply (f_equal get_index_within_group) in Hc2. rewrite !index_within_group_code in Hc2 by lia. lia. }
  destruct Hwf as (_ & _ & _ & _ & Hinj). pose proof (Hinj _ _ _ _ Hg1 Hg2 Hi) as <-.
  split; [done|]. rewrite Hg1 in Hg2. injection Hg2 as <-.
  assert (entries g1 = make_entries (index g1 * kGroupSize) codes ++
    [mkEntry (index g1 * kGroupSize + Z.of_nat (length codes)) (highest codes + 1) unknown_enum_value_message]) as He1
    by (rewrite Hb1 at 1; done).
  assert (entries g1 = make_entries (index g1 * kGroupSize) codes2 ++
    [mkEntry (index g1 * kGroupSize + Z.of_nat (length codes2)) (highest codes2 + 1) unknown_enum_value_message]) as He2
    by (rewrite Hb2 at 1; done).
  rewrite He1 in He2. apply app_inj_tail in He2 as [He2 _].
  assert (codes.*1 = codes2.*1) as Hfst.
  { apply list_eq. intros j. apply (f_equal (fun l => enum_value <$> (l !! j))) in He2.
    rewrite !make_entries_lookup in He2. rewrite !list_lookup_fmap.
    destruct (codes !! j) as [[]|], (codes2 !! j) as [[]|]; by simplify_eq/=. }
  assert (length codes = length codes2) as Hll.
  { apply (f_equal length) in Hfst. by rewrite !length_fmap in Hfst. }
  destruct Hv1 as [[m1 Hv1]|[E1 Hv1]], Hv2 as [[m2 Hv2]|[E2 Hv2]].
  - left. apply (f_equal (.!! k1)) in Hfst. rewrite !list_lookup_fmap, Hv1, Hv2 in Hfst. by simplify_eq/=.
  - apply lookup_lt_Some in Hv1. lia.
  - apply lookup_lt_Some in Hv2. lia.
  - right. exists g1. split; [done|]. rewrite He1. intros e He Hm.
    apply elem_of_app in He as [He|He]; [|by apply list_elem_of_singleton in He as ->].
    apply list_elem_of_lookup_1 in He as [j Hj]. rewrite make_entries_lookup in Hj.
    destruct (codes !! j) as [[v m]|] eqn:Ej; simplify_eq/=.
    assert (v ∈ codes.*1) as Hin.
    { apply list_elem_of_fmap. exists (v, m). split; [done|]. by eapply list_elem_of_lookup_2. }
    split; intros ->; [done|]. rewrite Hfst in Hin. done.
Qed.

(** ** A concrete registry: the library's own [StatusCode] group *)

Lemma initial_registry_wf : registry_wf initial_registry.
Proof. split_and!; simpl; try done; try (by intros ? [? ?]). Qed.

(** Decidable form of [codes_fit], used by the witnesses. *)
Definition codes_fitb (codes : list (Z * string)) : bool :=
  bool_decide (codes <> []) && (length codes <? 4096)%nat && bool_decide (NoDup codes.*1) &&
  (highest codes - lowest codes <=? kMaxCodeNumericRange).

Lemma codes_fitb_spec (codes : list (Z * string)) : codes_fitb codes = true -> codes_fit codes.
Proof.
  unfold codes_fitb. intros H. bool_cases. split_and!; [done|lia|done| |lia].
  intros v v' Hv Hv'. pose proof (lowest_highest codes v Hv). pose proof (lowest_highest codes v' Hv'). lia.
Qed.

Definition library_codes : list (Z * string) :=
  (fun cm => (StatusCode_to_Z cm.1, cm.2)) <$> status_code_messages.

Lemma library_codes_fit : codes_fit library_codes.
Proof. apply codes_fitb_spec. by vm_compute. Qed.

Lemma register_roundtrip_witness :
  exists r', register_codes_internal 0 library_codes initial_registry = Done r' /\
    registry_wf r' /\
    exists c, status_of_enum r' 0 103 = Done c /\ ok c = false.
Proof.
  destruct (register_roundtrip 0 library_codes initial_registry initial_registry_wf
    (not_elem_of_empty 0%nat) eq_refl library_codes_fit) as (r' & Hr & Hwf & Hin & _).
  exists r'. split; [exact Hr|]. split; [exact Hwf|].
  destruct (Hin 20%nat 103 "End of stream"%string eq_refl) as (c & Hc & _ & Hok).
  exists c. split; [exact Hc|]. rewrite Hok. reflexivity.
Defined.

Lemma register_preserves_wf (t : nat) (codes : list (Z * string)) (r r' : Registry) :
  registry_wf r -> t ∉ exactly_once r -> next_index r < kMaxGroupCount -> codes_fit codes ->
  register_codes_internal t codes r = Done r' ->
  registry_wf r' /\ next_index r' = next_index r + 1 /\ exactly_once r' = {[ t ]} ∪ exactly_once r.
Proof.
  intros Hwf Ht Hlt Hfit H. rewrite register_spec in H by done. injection H as <-.
  split; [by apply register_wf|done].
Qed.

(** A registry of two application enumerations. *)
Definition two_groups : outcome Registry :=
  r ← register_codes_internal 0 [(0, "ok"); (3, "bad")]%string initial_registry;
  register_codes_internal 1 [(0, "fine"); (7, "broken")]%string r.

Lemma two_groups_wf (r : Registry) : two_groups = Done r -> registry_wf r.
Proof.
  unfold two_groups. intros H. apply bind_done in H as (r0 & H0 & H1).
  apply register_preserves_wf in H0 as (Hwf & Hn & He);
    [|apply initial_registry_wf|set_solver|done|by apply codes_fitb_spec].
  apply register_preserves_wf in H1 as (Hwf' & _);
    [done|done|rewrite He; set_solver|rewrite Hn; done|by apply codes_fitb_spec].
Qed.

Lemma statuses_distinct_witness :
  exists r, two_groups = Done r /\ status_of_enum r 1 7 = Done 4097 /\
  (1%nat = 1%nat /\ (7 = 7 \/ exists g, group_for_type r !! 1%nat = Some g /\
     forall e, e ∈ entries g -> message e <> unknown_enum_value_message ->
       enum_value e <> 7 /\ enum_value e <> 7)).
Proof.
  destruct two_groups as [r|] eqn:E; [|vm_compute in E; discriminate E].
  assert (status_of_enum r 1 7 = Done 4097) as E7.
  { assert ((two_groups ≫= fun r => status_of_enum r 1 7) = Done 4097) as H by (vm_compute; reflexivity).
    rewrite E in H. exact H. }
  exists r. split; [reflexivity|]. split; [exact E7|].
  apply (statuses_distinct r 1 1 7 7 4097 4097 (two_groups_wf r E) E7 E7); vm_compute; reflexivity.
Defined.

(** [register_codes_internal] does not bound the number of codes by the group
    size: code number 4096 of a group is the first code of the next group, and
    therefore ok. *)
Definition oversized_codes : list (Z * string) :=
  (fun v => (Z.of_nat v, "error"%string)) <$> seq 0 4097.

Lemma oversized_group_ok :
  exists r r', register_codes_internal 0 oversized_codes initial_registry = Done r /\
    register_codes_internal 1 [(0, "fine")]%string r = Done r' /\
    status_of_enum r' 0 4096 = Done 4096 /\ ok 4096 = true.
Proof.
  assert (match register_codes_internal 0 oversized_codes initial_registry with
          | Done r =>
              match register_codes_internal 1 [(0, "fine")]%string r with
              | Done r' => match status_of_enum r' 0 4096 with Done c => c =? 4096 | Panic => false end
              | Panic => false
              end
          | Panic => false
          end = true) as E by (vm_compute; reflexivity).
  destruct (register_codes_internal 0 oversized_codes initial_registry) as [r|]; [|done].
  destruct (register_codes_internal 1 _ r) as [r'|] eqn:Er; [|done].
  exists r, r'. split; [done|]. split; [done|]. split; [|done].
  destruct (status_of_enum r' 0 4096); [|done]. by apply Z.eqb_eq in E as ->.
Qed.

End StatusRegistry.
