(* ===== verification/Lifetime.v ===== *)
(** * Lifetimes: Optional and StatusOr

    [optional.hpp], and the class [StatusOr] of [status.hpp].  Both keep raw
    storage next to a tag that says whether an object has been constructed in
    it.  The other files model them as [option] and as a sum; this one shows
    that they may: the classes construct, assign, read and destroy the object
    in their storage by hand, and are verified here against those types, with
    every construction over a live object, read of raw storage or destruction
    of nothing being an error.  Objects live in a table, so that the arguments
    of an operation may be the same object. *)

From S2P Require Import Prelude Status.
Open Scope Z_scope.

(** ** Operations on raw storage *)

(** A C++ operation ends, panics, or its behaviour is undefined (or an object
    leaks). *)
Inductive cxx (A : Type) : Type := Val (a : A) | Panics | Undefined.
Arguments Val {A} a.
Arguments Panics {A}.
Arguments Undefined {A}.

#[export] Instance cxx_ret : MRet cxx := fun A a => Val a.

#[export] Instance cxx_bind : MBind cxx :=
  fun A B k m => match m with Val a => k a | Panics => Panics | Undefined => Undefined end.

Definition check_ (b : bool) : cxx unit := if b then Val tt else Panics.

Inductive storage (V : Type) : Type := Raw | Live (v : V).
Arguments Raw {V}.
Arguments Live {V} v.

Section storage.
Context {V : Type}.

(* @ src/batteries/status.hpp 361-365 StatusOrValueContainer::construct *)
Definition construct (v : V) (s : storage V) : cxx (storage V) :=
  match s with Raw => Val (Live v) | Live _ => Undefined end.

(* @ src/batteries/status.hpp 388-396 StatusOrValueContainer::reference *)
Definition reference (s : storage V) : cxx V :=
  match s with Live v => Val v | Raw => Undefined end.

(* @ src/batteries/status.hpp 398-401 StatusOrValueContainer::destroy *)
Definition destroy (s : storage V) : cxx (storage V) :=
  match s with Live _ => Val Raw | Raw => Undefined end.

(** [x = v] on a live object. *)
Definition assign (v : V) (s : storage V) : cxx (storage V) :=
  match s with Live _ => Val (Live v) | Raw => Undefined end.

(** Storage that goes away must not hold an object. *)
Definition released (s : storage V) : cxx unit := match s with Raw => Val tt | Live _ => Undefined end.
End storage.

(** ** Tables of objects

    An entry is [None] before the constructor and after the destructor of the
    object it is for. *)
Section tables.
Context {C A : Type} (rep : C -> A -> Prop).

Definition entry (t : list (option C)) (i : nat) : cxx C :=
  match t !! i with Some (Some c) => Val c | _ => Undefined end.

(** The entry is free for a new object. *)
Definition vacant (t : list (option C)) (i : nat) : cxx unit :=
  match t !! i with Some None => Val tt | _ => Undefined end.

Definition put (i : nat) (c : option C) (t : list (option C)) : list (option C) := <[i := c]> t.

Definition rep_table : list (option C) -> list (option A) -> Prop := Forall2 (option_Forall2 rep).

(** [m] does what [a] does, unless [a] is undefined. *)
Definition refines {X Y} (R : X -> Y -> Prop) (m : cxx X) (a : cxx Y) : Prop :=
  match a with
  | Undefined => True
  | Panics => m = Panics
  | Val y => exists x, m = Val x /\ R x y
  end.

Lemma refines_bind {X Y X' Y'} (R : X -> Y -> Prop) (R' : X' -> Y' -> Prop) (m : cxx X) (a : cxx Y) (k : X -> cxx X') (l : Y -> cxx Y') :
  refines R m a -> (forall x y, R x y -> refines R' (k x) (l y)) -> refines R' (m ≫= k) (a ≫= l).
Proof.
  intros Hm Hk. destruct a as [y| |]; simpl in *; [|by subst|done]. destruct Hm as (x & -> & Hx). by apply Hk.
Qed.

Lemma refines_val {X Y} (R : X -> Y -> Prop) (x : X) (y : Y) : R x y -> refines R (mret x) (mret y).
Proof. intros H. by exists x. Qed.

Lemma refines_check (b : bool) : refines eq (check_ b) (check_ b).
Proof. destruct b; simpl; [by exists tt|done]. Qed.
End tables.

Section table_lemmas.
Context {C A : Type} (rep : C -> A -> Prop).

Lemma refines_entry (t : list (option C)) (a : list (option A)) (i : nat) :
  rep_table rep t a -> refines rep (entry t i) (entry a i).
Proof.
  intros Ht. unfold entry. destruct (a !! i) as [[y|]|] eqn:E; simpl; try done.
  apply (Forall2_lookup_r _ _ _ _ _ Ht) in E as (x & -> & Hx). inversion Hx; subst. eauto.
Qed.

Lemma refines_vacant (t : list (option C)) (a : list (option A)) (i : nat) :
  rep_table rep t a -> refines eq (vacant t i) (vacant a i).
Proof.
  intros Ht. unfold vacant. destruct (a !! i) as [[y|]|] eqn:E; simpl; try done.
  apply (Forall2_lookup_r _ _ _ _ _ Ht) in E as (x & -> & Hx). inversion Hx; subst. by exists tt.
Qed.

Lemma rep_put (t : list (option C)) (a : list (option A)) (i : nat) (c : option C) (x : option A) :
  rep_table rep t a -> option_Forall2 rep c x -> rep_table rep (put i c t) (put i x a).
Proof. apply Forall2_insert. Qed.
Lemma rep_vacant (n : nat) : rep_table rep (replicate n None) (replicate n None).
Proof. apply Forall2_replicate. constructor. Qed.

Lemma refines_foldl_in {X Y Op} (P : Op -> Prop) (R : X -> Y -> Prop) (f : Op -> X -> cxx X) (g : Op -> Y -> cxx Y)
    (ops : list Op) (m : cxx X) (a : cxx Y) :
  (forall op x y, P op -> R x y -> refines R (f op x) (g op y)) -> Forall P ops -> refines R m a ->
  refines R (foldl (fun m op => x ← m; f op x) m ops) (foldl (fun m op => x ← m; g op x) a ops).
Proof.
  intros Hf Hops. revert m a. induction Hops as [|op ops Hop _ IH]; intros m a Hm; [done|]. simpl.
  apply IH, refines_bind with (R := R); auto.
Qed.

Lemma refines_foldl {X Y Op} (R : X -> Y -> Prop) (f : Op -> X -> cxx X) (g : Op -> Y -> cxx Y) (ops : list Op) (m : cxx X) (a : cxx Y) :
  (forall op x y, R x y -> refines R (f op x) (g op y)) -> refines R m a ->
  refines R (foldl (fun m op => t ← m; f op t) m ops) (foldl (fun m op => t ← m; g op t) a ops).
Proof.
  intros Hf. apply refines_foldl_in with (P := fun _ => True); [by auto|by apply list.Forall_true].
Qed.
End table_lemmas.

(** The steps of a refinement proof: fetch the same entries on both sides. *)
Ltac fetch :=
  eapply refines_bind;
  [first [eapply refines_vacant; eassumption | eapply refines_entry; eassumption | apply refines_check] | cbn beta].

(** Both sides end with related tables. *)
Ltac store := eexists; split; [reflexivity|]; repeat apply rep_put; try assumption; try constructor; try reflexivity.

(** ** Optional *)

Module Opt.
Section optional.
Context {V : Type} (moved : V -> V).

(* @ src/batteries/optional.hpp 313-314 Optional *)
Record Optional : Type := mkOptional { storage_ : storage V; valid_ : bool }.

(* @ src/batteries/optional.hpp 86-92 Optional::Optional *)
Definition none : Optional := mkOptional Raw false.

(** Destroy the object, if there is one. *)
(* @ src/batteries/optional.hpp 257-264 Optional::operator= *)
Definition reset (this : Optional) : cxx Optional :=
  if valid_ this then s ← destroy (storage_ this); mret (mkOptional s false) else mret this.

(* @ src/batteries/optional.hpp 149-153 Optional::Optional *)
Definition opt_from_value (v : V) : cxx Optional :=
  s ← construct v (storage_ none); mret (mkOptional s true).

(* @ src/batteries/optional.hpp 155-160 Optional::~Optional *)
Definition opt_destructor (this : Optional) : cxx (storage V) :=
  if valid_ this then destroy (storage_ this) else mret (storage_ this).

(** [new (&this->storage_) T(that.obj())] if [that] has an object. *)
(* @ src/batteries/optional.hpp 170-176 Optional::Optional *)
Definition copy_from (this that : Optional) : cxx Optional :=
  if valid_ that
  then v ← reference (storage_ that); s ← construct v (storage_ this); mret (mkOptional s true)
  else mret this.

(* @ src/batteries/optional.hpp 162-168 Optional::Optional *)
Definition move_from (this that : Optional) : cxx (Optional * Optional) :=
  if valid_ that
  then v ← reference (storage_ that); s ← construct v (storage_ this); s' ← assign (moved v) (storage_ that);
       mret (mkOptional s true, mkOptional s' true)
  else mret (this, that).

(* @ src/batteries/optional.hpp 193-206 Optional::operator= *)
Definition opt_copy_assign (this that : Optional) : cxx Optional := this ← reset this; copy_from this that.

(* @ src/batteries/optional.hpp 178-191 Optional::operator= *)
Definition opt_move_assign (this that : Optional) : cxx (Optional * Optional) := this ← reset this; move_from this that.

(* @ src/batteries/optional.hpp 208-218 Optional::emplace *)
Definition opt_emplace (v : V) (this : Optional) : cxx Optional :=
  this ← reset this; s ← construct v (storage_ this); mret (mkOptional s true).

(* @ src/batteries/optional.hpp 220-227 Optional::value_or *)
Definition value_or (else_val : V) (this : Optional) : cxx V :=
  if valid_ this then reference (storage_ this) else mret else_val.

(* @ src/batteries/optional.hpp 229-245 Optional::map, flat_map *)
Definition flat_map {U} (fn : V -> option U) (this : Optional) : cxx (option U) :=
  if valid_ this then v ← reference (storage_ this); mret (fn v) else mret None.

(* @ src/batteries/optional.hpp 458-477 get_or_panic *)
Definition get_or_panic (this : Optional) : cxx V := check_ (valid_ this);; reference (storage_ this).

Inductive Op : Type :=
| Construct (i : nat)
| ConstructValue (i : nat) (v : V)
| ConstructCopy (i j : nat)
| ConstructMove (i j : nat)
| Destroy (i : nat)
| AssignNone (i : nat)
| AssignCopy (i j : nat)
| AssignMove (i j : nat)
| Emplace (i : nat) (v : V)
| GetOrPanic (i : nat).

(** [this != &that]: assignment to itself does nothing. *)
Definition exec (op : Op) (t : list (option Optional)) : cxx (list (option Optional)) :=
  match op with
  | Construct i => vacant t i;; mret (put i (Some none) t)
  | ConstructValue i v => vacant t i;; o ← opt_from_value v; mret (put i (Some o) t)
  | ConstructCopy i j => vacant t i;; that ← entry t j; o ← copy_from none that; mret (put i (Some o) t)
  | ConstructMove i j =>
      vacant t i;; that ← entry t j; o ← move_from none that; mret (put j (Some o.2) (put i (Some o.1) t))
  | Destroy i => this ← entry t i; s ← opt_destructor this; released s;; mret (put i None t)
  | AssignNone i => this ← entry t i; o ← reset this; mret (put i (Some o) t)
  | AssignCopy i j =>
      this ← entry t i; that ← entry t j;
      if bool_decide (i = j) then mret t else o ← opt_copy_assign this that; mret (put i (Some o) t)
  | AssignMove i j =>
      this ← entry t i; that ← entry t j;
      if bool_decide (i = j) then mret t
      else o ← opt_move_assign this that; mret (put j (Some o.2) (put i (Some o.1) t))
  | Emplace i v => this ← entry t i; o ← opt_emplace v this; mret (put i (Some o) t)
  | GetOrPanic i => this ← entry t i; get_or_panic this;; mret t
  end.

(** The same operations on [option V]. *)
Definition spec (op : Op) (t : list (option (option V))) : cxx (list (option (option V))) :=
  match op with
  | Construct i => vacant t i;; mret (put i (Some (@None V)) t)
  | ConstructValue i v => vacant t i;; mret (put i (Some (Some v)) t)
  | ConstructCopy i j => vacant t i;; that ← entry t j; mret (put i (Some that) t)
  | ConstructMove i j => vacant t i;; that ← entry t j; mret (put j (Some (moved <$> that)) (put i (Some that) t))
  | Destroy i => entry t i;; mret (put i (@None (option V)) t)
  | AssignNone i => entry t i;; mret (put i (Some (@None V)) t)
  | AssignCopy i j => entry t i;; that ← entry t j; mret (if bool_decide (i = j) then t else put i (Some that) t)
  | AssignMove i j =>
      entry t i;; that ← entry t j;
      mret (if bool_decide (i = j) then t else put j (Some (moved <$> that)) (put i (Some that) t))
  | Emplace i v => entry t i;; mret (put i (Some (Some v)) t)
  | GetOrPanic i => this ← entry t i; check_ (bool_decide (is_Some this));; mret t
  end.

Definition rep (c : Optional) (a : option V) : Prop :=
  c = match a with Some v => mkOptional (Live v) true | None => none end.

Lemma opt_exec_refines (op : Op) (t : list (option Optional)) (a : list (option (option V))) :
  rep_table rep t a -> refines (rep_table rep) (exec op t) (spec op a).
Proof.
  intros Ht.
  destruct op as [i|i v|i j|i j|i|i|i j|i j|i v|i]; cbn [exec spec].
  - fetch. intros _ _ _. store.
  - fetch. intros _ _ _. store.
  - fetch. intros _ _ _. fetch. intros c [x|] ->; store.
  - fetch. intros _ _ _. fetch. intros c [x|] ->; store.
  - fetch. intros c [x|] ->; store.
  - fetch. intros c [x|] ->; store.
  - fetch. intros c x Hc. fetch. intros c' x' Hc'. destruct (bool_decide_reflect (i = j)) as [<-|Hne].
    + store.
    + destruct x, x'; rewrite Hc, Hc'; store.
  - fetch. intros c x Hc. fetch. intros c' x' Hc'. destruct (bool_decide_reflect (i = j)) as [<-|Hne].
    + store.
    + destruct x, x'; rewrite Hc, Hc'; store.
  - fetch. intros c [x|] ->; store.
  - fetch. intros c x Hc. destruct x; rewrite Hc; [store|done].
Qed.

Definition run (ops : list Op) (t : list (option Optional)) : cxx (list (option Optional)) :=
  foldl (fun m op => t ← m; exec op t) (mret t) ops.

Definition spec_run (ops : list Op) (t : list (option (option V))) : cxx (list (option (option V))) :=
  foldl (fun m op => t ← m; spec op t) (mret t) ops.

(** [Optional] implements [option]: whatever the operations on any number of
    them, no object is constructed over another, read, assigned or destroyed
    when it is not there, or left behind. *)
Theorem optional_lifetimes (ops : list Op) (n : nat) :
  refines (rep_table rep) (run ops (replicate n None)) (spec_run ops (replicate n None)).
Proof. unfold run, spec_run. apply (refines_foldl (rep_table rep) exec spec); [exact opt_exec_refines|]. apply refines_val, rep_vacant. Qed.
End optional.
End Opt.

(** ** StatusOr *)

Module SOr.
Import StatusRegistry.

(** [OkStatus()] and [StatusCode::kUnknown]: the codes 0 and 2 of the first
    group. *)
Definition ok_status : Z := 0.
Definition unknown_status : Z := 2.

Section status_or.
Context {V : Type} (moved : V -> V).

(* @ src/batteries/status.hpp 739-740 StatusOr *)
Record StatusOr_ : Type := mkStatusOr { status_ : Z; value_ : storage V }.

(* @ src/batteries/status.hpp 691-694 StatusOr::ok *)
Definition is_ok (this : StatusOr_) : bool := ok (status_ this).

(* @ src/batteries/status.hpp 461-469 StatusOr::StatusOr *)
Definition from_status (s : Z) : cxx StatusOr_ :=
  let this := mkStatusOr s Raw in check_ (negb (is_ok this));; mret this.

(* @ src/batteries/status.hpp 491-508 StatusOr::StatusOr *)
Definition from_value (v : V) : cxx StatusOr_ := s ← construct v Raw; mret (mkStatusOr ok_status s).

(** The new object, and what is left of the old one. *)
(* @ src/batteries/status.hpp 471-482 StatusOr::StatusOr *)
Definition from_move (that : StatusOr_) : cxx (StatusOr_ * StatusOr_) :=
  if is_ok that then
    v ← reference (value_ that);
    s ← construct v Raw;
    s' ← destroy (value_ that);
    mret (mkStatusOr ok_status s, mkStatusOr unknown_status s')
  else mret (mkStatusOr (status_ that) Raw, that).

(* @ src/batteries/status.hpp 484-489 StatusOr::StatusOr *)
Definition from_copy (that : StatusOr_) : cxx StatusOr_ :=
  let this := mkStatusOr (status_ that) Raw in
  if is_ok this then v ← reference (value_ that); s ← construct v Raw; mret (mkStatusOr (status_ this) s)
  else mret this.

(* @ src/batteries/status.hpp 551-556 StatusOr::~StatusOr *)
Definition destructor (this : StatusOr_) : cxx (storage V) :=
  if is_ok this then destroy (value_ this) else mret (value_ this).

(** [if (this->ok()) this->value_.destroy();] the status is still the old
    one. *)
Definition clear (this : StatusOr_) : cxx StatusOr_ := s ← destructor this; mret (mkStatusOr (status_ this) s).

(** The object that is copied is read after the old one has been destroyed:
    [late] reads it from there. *)
(* @ src/batteries/status.hpp 561-582 StatusOr::operator= *)
Definition assign_value (late : StatusOr_ -> cxx V) (this : StatusOr_) : cxx StatusOr_ :=
  this ← clear this; v ← late this; s ← construct v (value_ this); mret (mkStatusOr ok_status s).

(* @ src/batteries/status.hpp 597-615 StatusOr::operator= *)
Definition copy_assign (this that : StatusOr_) : cxx StatusOr_ :=
  s ← (if is_ok this
       then if is_ok that then v ← reference (value_ that); assign v (value_ this) else destroy (value_ this)
       else if is_ok that then v ← reference (value_ that); construct v (value_ this) else mret (value_ this));
  mret (mkStatusOr (status_ that) s).

(* @ src/batteries/status.hpp 617-635 StatusOr::operator= *)
Definition move_assign (this that : StatusOr_) : cxx (StatusOr_ * StatusOr_) :=
  s ← (if is_ok this
       then if is_ok that then v ← reference (value_ that); assign v (value_ this) else destroy (value_ this)
       else if is_ok that then v ← reference (value_ that); construct v (value_ this) else mret (value_ this));
  s' ← (if is_ok that then v ← reference (value_ that); assign (moved v) (value_ that) else mret (value_ that));
  mret (mkStatusOr (status_ that) s, mkStatusOr (status_ that) s').

(* @ src/batteries/status.hpp 637-646 StatusOr::operator= *)
Definition assign_status (s : Z) (this : StatusOr_) : cxx StatusOr_ :=
  check_ (negb (ok s));; this ← clear this; mret (mkStatusOr s (value_ this)).

(* @ src/batteries/status.hpp 648-656 StatusOr::emplace *)
Definition emplace (late : StatusOr_ -> cxx V) (this : StatusOr_) : cxx StatusOr_ :=
  this ← clear this; v ← late this; s ← construct v (value_ this); mret (mkStatusOr ok_status s).

(** The first lines of the other two [emplace]s. *)
(* @ src/batteries/status.hpp 661-664 StatusOr::emplace *)
Definition clear_unknown (this : StatusOr_) : cxx StatusOr_ :=
  if is_ok this then s ← destroy (value_ this); mret (mkStatusOr unknown_status s) else mret this.

(** [that] is looked at after this object has been cleared, so [None] stands
    for the same object. *)
(* @ src/batteries/status.hpp 671-682 StatusOr::emplace *)
Definition emplace_copy (this : StatusOr_) (that : option StatusOr_) : cxx StatusOr_ :=
  this ← clear_unknown this;
  let that := default this that in
  s ← (if is_ok that then v ← reference (value_ that); construct v (value_ this) else mret (value_ this));
  mret (mkStatusOr (status_ that) s).

(* @ src/batteries/status.hpp 658-669 StatusOr::emplace *)
Definition emplace_move (this : StatusOr_) (that : option StatusOr_) : cxx (StatusOr_ * StatusOr_) :=
  this ← clear_unknown this;
  let that := default this that in
  s ← (if is_ok that then v ← reference (value_ that); construct v (value_ this) else mret (value_ this));
  s' ← (if is_ok that then v ← reference (value_ that); assign (moved v) (value_ that) else mret (value_ that));
  mret (mkStatusOr (status_ that) s, mkStatusOr (status_ that) s').

(* @ src/batteries/status.hpp 701-711 StatusOr::value *)
Definition value (this : StatusOr_) : cxx V := check_ (is_ok this);; reference (value_ this).

(** An argument: a value of its own, or [*objects[j]]. *)
Inductive Arg : Type := Own (v : V) | ValueOf (j : nat).

Inductive Op : Type :=
| ConstructStatus (i : nat) (s : Z)
| ConstructValue (i : nat) (v : V)
| ConstructCopy (i j : nat)
| ConstructMove (i j : nat)
| Destroy (i : nat)
| AssignValue (i : nat) (arg : Arg)
| AssignStatus (i : nat) (s : Z)
| AssignCopy (i j : nat)
| AssignMove (i j : nat)
| Emplace (i : nat) (arg : Arg)
| EmplaceCopy (i j : nat)
| EmplaceMove (i j : nat)
| Value (i : nat).

(** The argument [*objects[j]] of an operation on object [i]: the reference is
    taken first, and read late. *)
Definition bind_arg (i : nat) (arg : Arg) (t : list (option StatusOr_)) : cxx (StatusOr_ -> cxx V) :=
  match arg with
  | Own v => Val (fun _ => Val v)
  | ValueOf j =>
      that ← entry t j; value that;;
      Val (fun this => reference (value_ (if bool_decide (i = j) then this else that)))
  end.

Definition exec (op : Op) (t : list (option StatusOr_)) : cxx (list (option StatusOr_)) :=
  match op with
  | ConstructStatus i s => vacant t i;; o ← from_status s; mret (put i (Some o) t)
  | ConstructValue i v => vacant t i;; o ← from_value v; mret (put i (Some o) t)
  | ConstructCopy i j => vacant t i;; that ← entry t j; o ← from_copy that; mret (put i (Some o) t)
  | ConstructMove i j =>
      vacant t i;; that ← entry t j; o ← from_move that; mret (put j (Some o.2) (put i (Some o.1) t))
  | Destroy i => this ← entry t i; s ← destructor this; released s;; mret (put i None t)
  | AssignValue i arg => this ← entry t i; late ← bind_arg i arg t; o ← assign_value late this; mret (put i (Some o) t)
  | AssignStatus i s => this ← entry t i; o ← assign_status s this; mret (put i (Some o) t)
  | AssignCopy i j =>
      this ← entry t i; that ← entry t j;
      if bool_decide (i = j) then mret t else o ← copy_assign this that; mret (put i (Some o) t)
  | AssignMove i j =>
      this ← entry t i; that ← entry t j;
      if bool_decide (i = j) then mret t
      else o ← move_assign this that; mret (put j (Some o.2) (put i (Some o.1) t))
  | Emplace i arg => this ← entry t i; late ← bind_arg i arg t; o ← emplace late this; mret (put i (Some o) t)
  | EmplaceCopy i j =>
      this ← entry t i; that ← entry t j;
      o ← emplace_copy this (if bool_decide (i = j) then None else Some that); mret (put i (Some o) t)
  | EmplaceMove i j =>
      this ← entry t i; that ← entry t j;
      o ← emplace_move this (if bool_decide (i = j) then None else Some that);
      mret (if bool_decide (i = j) then put i (Some o.1) t else put j (Some o.2) (put i (Some o.1) t))
  | Value i => this ← entry t i; value this;; mret t
  end.

Definition run (ops : list Op) (t : list (option StatusOr_)) : cxx (list (option StatusOr_)) :=
  foldl (fun m op => t ← m; exec op t) (mret t) ops.

(** ** The specification *)

Inductive Abs : Type := AOk (v : V) | AErr (s : Z).

Definition abs_ok (a : Abs) : bool := match a with AOk _ => true | AErr _ => false end.

Definition spec_value (a : Abs) : cxx V := match a with AOk v => Val v | AErr _ => Panics end.

Definition spec_moved (a : Abs) : Abs := match a with AOk v => AOk (moved v) | AErr s => AErr s end.

(** What is left of an object whose value is moved to a new one. *)
Definition spec_cleared (a : Abs) : Abs := match a with AOk _ => AErr unknown_status | AErr s => AErr s end.

Definition spec_arg (arg : Arg) (t : list (option Abs)) : cxx V :=
  match arg with
  | Own v => Val v
  | ValueOf j => that ← entry t j; spec_value that
  end.

(** What each operation is to do.  An object that is given its own value, or
    emplaced from itself, keeps it, as it does when it is assigned to itself. *)
Definition spec (op : Op) (t : list (option Abs)) : cxx (list (option Abs)) :=
  match op with
  | ConstructStatus i s => vacant t i;; check_ (negb (ok s));; mret (put i (Some (AErr s)) t)
  | ConstructValue i v => vacant t i;; mret (put i (Some (AOk v)) t)
  | ConstructCopy i j => vacant t i;; that ← entry t j; mret (put i (Some that) t)
  | ConstructMove i j => vacant t i;; that ← entry t j; mret (put j (Some (spec_cleared that)) (put i (Some that) t))
  | Destroy i => entry t i;; mret (put i None t)
  | AssignValue i arg | Emplace i arg => entry t i;; v ← spec_arg arg t; mret (put i (Some (AOk v)) t)
  | AssignStatus i s => entry t i;; check_ (negb (ok s));; mret (put i (Some (AErr s)) t)
  | AssignCopy i j | EmplaceCopy i j =>
      entry t i;; that ← entry t j; mret (if bool_decide (i = j) then t else put i (Some that) t)
  | AssignMove i j | EmplaceMove i j =>
      entry t i;; that ← entry t j;
      mret (if bool_decide (i = j) then t else put j (Some (spec_moved that)) (put i (Some that) t))
  | Value i => this ← entry t i; spec_value this;; mret t
  end.

Definition spec_run (ops : list Op) (t : list (option Abs)) : cxx (list (option Abs)) :=
  foldl (fun m op => t ← m; spec op t) (mret t) ops.

(** The operations that replace the value of an object by that value: the code
    destroys it before it reads it. *)
Definition own_value (op : Op) : bool :=
  match op with
  | AssignValue i (ValueOf j) | Emplace i (ValueOf j) | EmplaceCopy i j | EmplaceMove i j => bool_decide (i = j)
  | _ => false
  end.

Definition rep (c : StatusOr_) (a : Abs) : Prop :=
  match a with
  | AOk v => c = mkStatusOr ok_status (Live v)
  | AErr s => c = mkStatusOr s Raw /\ ok s = false
  end.

(** ** Refinement *)

Lemma rep_ok (c : StatusOr_) (a : Abs) : rep c a -> is_ok c = abs_ok a.
Proof. destruct a as [v|s]; simpl; [by intros ->|by intros [-> ?]]. Qed.

Lemma clear_spec (c : StatusOr_) (a : Abs) :
  rep c a -> exists st, clear c = Val (mkStatusOr st Raw).
Proof.
  destruct a as [v|s]; simpl; [intros ->; by exists ok_status|]. intros [-> Hs]. exists s.
  unfold clear, destructor, is_ok. simpl. by rewrite Hs.
Qed.

Lemma clear_unknown_spec (c : StatusOr_) (a : Abs) :
  rep c a -> exists c', clear_unknown c = Val c' /\ value_ c' = Raw.
Proof.
  destruct a as [v|s]; simpl; [intros ->; by eexists|]. intros [-> Hs]. exists (mkStatusOr s Raw).
  unfold clear_unknown, is_ok. simpl. by rewrite Hs.
Qed.

Lemma refines_value (c : StatusOr_) (a : Abs) : rep c a -> refines eq (value c) (spec_value a).
Proof.
  intros Hr. unfold value. rewrite (rep_ok c a Hr). destruct a as [v|s]; simpl in *; [subst; by exists v|done].
Qed.

Lemma refines_arg (t : list (option StatusOr_)) (a : list (option Abs)) (i : nat) (arg : Arg) :
  rep_table rep t a -> (forall j, arg = ValueOf j -> i <> j) ->
  refines (fun late v => forall this, late this = Val v) (bind_arg i arg t) (spec_arg arg a).
Proof.
  intros Ht Hown. destruct arg as [v|j]; cbn [bind_arg spec_arg]; [by eexists|].
  fetch. intros c x Hc. rewrite bool_decide_eq_false_2 by (by apply Hown).
  pose proof (rep_ok c x Hc) as Hok. unfold value.
  destruct x as [v|s]; simpl in Hc; cbn [spec_value mbind cxx_bind abs_ok] in *; rewrite Hok; [|done].
  subst c. by eexists.
Qed.

Lemma refines_move (c c' : StatusOr_) (x x' : Abs) :
  rep c x -> rep c' x' -> exists o, move_assign c c' = Val o /\ rep o.1 x' /\ rep o.2 (spec_moved x').
Proof.
  intros Hc Hc'. unfold move_assign. rewrite (rep_ok c x Hc), (rep_ok c' x' Hc').
  destruct x, x'; simpl in *; destruct_and?; subst; by eexists.
Qed.

Lemma refines_copy (c c' : StatusOr_) (x x' : Abs) :
  rep c x -> rep c' x' -> exists o, copy_assign c c' = Val o /\ rep o x'.
Proof.
  intros Hc Hc'. unfold copy_assign. rewrite (rep_ok c x Hc), (rep_ok c' x' Hc').
  destruct x, x'; simpl in *; destruct_and?; subst; by eexists.
Qed.

Lemma refines_emplace (c : StatusOr_) (x : Abs) (late : StatusOr_ -> cxx V) (v : V) :
  rep c x -> (forall this, late this = Val v) -> exists o, emplace late c = Val o /\ rep o (AOk v).
Proof.
  intros Hc Hl. destruct (clear_spec c x Hc) as [st E]. unfold emplace. rewrite E. cbn. rewrite Hl. by eexists.
Qed.

Lemma refines_emplace_copy (c c' : StatusOr_) (x x' : Abs) :
  rep c x -> rep c' x' -> exists o, emplace_copy c (Some c') = Val o /\ rep o x'.
Proof.
  intros Hc Hc'. destruct (clear_unknown_spec c x Hc) as (d & E & Hr). unfold emplace_copy. rewrite E.
  simpl. rewrite (rep_ok c' x' Hc'). destruct x'; simpl in *; destruct_and?; subst; rewrite Hr; by eexists.
Qed.

Lemma refines_emplace_move (c c' : StatusOr_) (x x' : Abs) :
  rep c x -> rep c' x' ->
  exists o, emplace_move c (Some c') = Val o /\ rep o.1 x' /\ rep o.2 (spec_moved x').
Proof.
  intros Hc Hc'. destruct (clear_unknown_spec c x Hc) as (d & E & Hr). unfold emplace_move. rewrite E.
  simpl. rewrite (rep_ok c' x' Hc'). destruct x'; simpl in *; destruct_and?; subst; rewrite Hr; by eexists.
Qed.

Lemma own_value_arg (i : nat) (arg : Arg) (op : Op) :
  op = AssignValue i arg \/ op = Emplace i arg -> own_value op = false -> forall j, arg = ValueOf j -> i <> j.
Proof. intros [-> | ->] Hown j ->; by apply bool_decide_eq_false in Hown. Qed.

Lemma sor_exec_refines (op : Op) (t : list (option StatusOr_)) (a : list (option Abs)) :
  own_value op = false -> rep_table rep t a -> refines (rep_table rep) (exec op t) (spec op a).
Proof.
  intros Hown Ht. destruct op as [i s|i v|i j|i j|i|i arg|i s|i j|i j|i arg|i j|i j|i]; cbn [exec spec].
  - fetch. intros _ _ _. unfold from_status, is_ok. simpl. destruct (ok s) eqn:E; [done|]. store. done.
  - fetch. intros _ _ _. store.
  - fetch. intros _ _ _. fetch. intros c x Hc. unfold from_copy, is_ok. simpl.
    pose proof (rep_ok c x Hc) as Hok. unfold is_ok in Hok. rewrite Hok. destruct x; simpl in *; destruct_and?; subst; store; done.
  - fetch. intros _ _ _. fetch. intros c x Hc. unfold from_move. rewrite (rep_ok c x Hc).
    destruct x; simpl in *; destruct_and?; subst; store; done.
  - fetch. intros c x Hc. unfold destructor. rewrite (rep_ok c x Hc). destruct x; simpl in *; destruct_and?; subst; store.
  - fetch. intros c x Hc. eapply refines_bind; [apply refines_arg, own_value_arg with (2 := Hown); auto|]. intros late v Hl.
    destruct (refines_emplace c x late v Hc Hl) as (o & E & Ho). unfold emplace in E. unfold assign_value. rewrite E. store. done.
  - fetch. intros c x Hc. unfold assign_status. destruct (ok s) eqn:E; [done|]. simpl.
    destruct (clear_spec c x Hc) as [st Ec]. rewrite Ec. store. done.
  - fetch. intros c x Hc. fetch. intros c' x' Hc'. destruct (bool_decide _); [store|].
    destruct (refines_copy c c' x x' Hc Hc') as (o & E & Ho). rewrite E. store. done.
  - fetch. intros c x Hc. fetch. intros c' x' Hc'. destruct (bool_decide _); [store|].
    destruct (refines_move c c' x x' Hc Hc') as (o & E & Ho & Ho'). rewrite E. store; done.
  - fetch. intros c x Hc. eapply refines_bind; [apply refines_arg, own_value_arg with (2 := Hown); auto|]. intros late v Hl.
    destruct (refines_emplace c x late v Hc Hl) as (o & E & Ho). rewrite E. store. done.
  - fetch. intros c x Hc. fetch. intros c' x' Hc'.
    cbn [own_value] in Hown. rewrite Hown.
    destruct (refines_emplace_copy c c' x x' Hc Hc') as (o & E & Ho). rewrite E. store. done.
  - fetch. intros c x Hc. fetch. intros c' x' Hc'.
    cbn [own_value] in Hown. rewrite Hown.
    destruct (refines_emplace_move c c' x x' Hc Hc') as (o & E & Ho & Ho'). rewrite E. store; done.
  - fetch. intros c x Hc. eapply refines_bind; [by apply refines_value|]. intros v v' ->. store.
Qed.

(** C24: [StatusOr] implements the sum of values and errors.  Whatever
    constructors, assignments, moves, [emplace]s and destructors are called on
    any number of objects, in any order, the copy or move of an object to
    itself included: an object is constructed in the storage exactly while the
    status is ok; none is constructed over another, read, assigned or destroyed
    when it is not there, or left behind; the value and the status are those of
    the sum; and an ok status given as an error, or the value of an error,
    panics.  The hypothesis leaves out the calls that replace the value of an
    object by that value itself, assigning or emplacing [*s] in [s], and an [emplace] of
    [s] from [s]: the sum keeps the value and the code does not
    ([assign_own_value], [emplace_itself]).  An object that does not exist must
    not be used. *)
Theorem status_or_lifetimes (ops : list Op) (n : nat) :
  Forall (fun op => own_value op = false) ops ->
  match spec_run ops (replicate n None) with
  | Undefined => True
  | Panics => run ops (replicate n None) = Panics
  | Val a => exists t, run ops (replicate n None) = Val t /\ rep_table rep t a
  end.
Proof.
  intros Hown. apply (refines_foldl_in (fun op => own_value op = false) (rep_table rep) exec spec ops _ _ sor_exec_refines Hown).
  apply refines_val, rep_vacant.
Qed.
End status_or.

(** [s = *s] destroys the value and then copies it; the sum keeps it. *)
Example assign_own_value :
  run (fun v : Z => v) [ConstructValue 0 7; AssignValue 0 (ValueOf 0)] [None] = Undefined /\
  spec_run (fun v : Z => v) [ConstructValue 0 7; AssignValue 0 (ValueOf 0)] [None] = Val [Some (AOk 7)].
Proof. done. Qed.

(** [s.emplace(std::move(s))] loses the value; the sum keeps it. *)
Example emplace_itself :
  run (fun v : Z => v) [ConstructValue 0 7; EmplaceMove 0 0] [None] = Val [Some (mkStatusOr unknown_status Raw)] /\
  spec_run (fun v : Z => v) [ConstructValue 0 7; EmplaceMove 0 0] [None] = Val [Some (AOk 7)].
Proof. done. Qed.

(** A program that runs through most of the operations. *)
Definition sample_program : list (Op (V := Z)) :=
  [ConstructValue 0 7; ConstructCopy 1 0; ConstructMove 2 0; AssignStatus 1 13; AssignMove 1 2; Destroy 0;
   AssignCopy 1 1; Emplace 2 (ValueOf 1); EmplaceMove 2 1; Value 2].

Lemma status_or_lifetimes_witness :
  Forall (fun op => own_value op = false) sample_program /\
  spec_run (fun _ => 0) sample_program (replicate 3 None) = Val [None; Some (AOk 0); Some (AOk 7)] /\
  exists t, run (fun _ => 0) sample_program (replicate 3 None) = Val t /\
    rep_table rep t [None; Some (AOk 0); Some (AOk 7)].
Proof.
  assert (Forall (fun op => own_value op = false) sample_program) as H by (repeat constructor).
  split; [exact H|]. split; [reflexivity|].
  exact (status_or_lifetimes (fun _ => 0) sample_program 3 H).
Defined.

(** *** References *)

(** A [StatusOr<T&>] holds a pointer into the memory. *)
(* @ src/batteries/status.hpp 407-445 StatusOrValueContainer<T&> *)
Record RefOr : Type := mkRefOr { ref_status : Z; ptr_ : option nat }.

(** [operator=] of a [StatusOr<T&>], on the memory: [this->value() =
    that.value()] assigns the object referred to. *)
Definition ref_copy_assign {V} (m : list V) (this that : RefOr) : cxx (list V * RefOr) :=
  if ok (ref_status this) then
    if ok (ref_status that) then
      match ptr_ this, ptr_ that ≫= (m !!.) with
      | Some p, Some v => mret (<[p := v]> m, mkRefOr (ref_status that) (ptr_ this))
      | _, _ => Undefined
      end
    else mret (m, mkRefOr (ref_status that) None)
  else mret (m, if ok (ref_status that) then that else mkRefOr (ref_status that) (ptr_ this)).

(** An assignment overwrites the object the target refers to, unless the
    target held an error: then it is made to refer to the other object. *)
Example ref_assign_overwrites :
  ref_copy_assign [1; 2] (mkRefOr 0 (Some 0%nat)) (mkRefOr 0 (Some 1%nat)) = Val ([2; 2], mkRefOr 0 (Some 0%nat)) /\
  ref_copy_assign [1; 2] (mkRefOr 13 None) (mkRefOr 0 (Some 1%nat)) = Val ([1; 2], mkRefOr 0 (Some 1%nat)).
Proof. done. Qed.
End SOr.
