(* ===== verification/TypeErasure.v ===== *)
(** * Type erasure

    [small_fn.hpp] and [type_erasure.hpp].  Both keep an object of unknown type
    behind the functions of an abstract class.  A [SmallFn] builds it in place;
    a [TypeErasedStorage] does so when it fits, and keeps a pointer to it
    otherwise.  The class [Erased] says what they know of the object.  As in
    [Lifetime], objects live in a table, and each class is verified against the
    [option] that it stands for: which of the two places the object is in makes
    no difference. *)

From S2P Require Import Prelude Status Lifetime.
Open Scope Z_scope.

(** What the abstract class knows of an object: its size, what a move leaves
    behind, and what a call does.  A call does not change the type. *)
Class Erased (F A R : Type) : Type := {
  impl_size : F -> Z;
  moved : F -> F;
  invoke : A -> F -> F * R;
  invoke_size arg f : impl_size (invoke arg f).1 = impl_size f }.

(** Programs over a table that also yield results. *)
Section results.
Context {C A R Op : Type}.

Definition quiet {T} (m : cxx T) : cxx (T * list R) := t ← m; mret (t, []).

Definition run_op (exec : Op -> list (option C) -> cxx (list (option C) * list R)) (op : Op)
    (st : list (option C) * list R) : cxx (list (option C) * list R) :=
  r ← exec op st.1; mret (r.1, st.2 ++ r.2).

Definition run_ops (exec : Op -> list (option C) -> cxx (list (option C) * list R)) (ops : list Op) (n : nat) :
  cxx (list (option C) * list R) :=
  foldl (fun m op => st ← m; run_op exec op st) (mret (replicate n None, [])) ops.

Definition same_results (rep : C -> A -> Prop) (x : list (option C) * list R) (y : list (option A) * list R) : Prop :=
  rep_table rep x.1 y.1 /\ x.2 = y.2.
End results.

Lemma refines_run_ops {C A R Op} (rep : C -> A -> Prop) (exec : Op -> list (option C) -> cxx (list (option C) * list R))
    (spec : Op -> list (option A) -> cxx (list (option A) * list R)) (ops : list Op) (n : nat) :
  (forall op t a, rep_table rep t a -> refines (same_results rep) (exec op t) (spec op a)) ->
  refines (same_results rep) (run_ops exec ops n) (run_ops spec ops n).
Proof.
  intros Hop. apply refines_foldl.
  - intros op x y [Ht Hr]. eapply refines_bind; [by apply Hop|]. intros x' y' [Ht' Hr']. apply refines_val. split; simpl; congruence.
  - apply refines_val. split; [apply rep_vacant|done].
Qed.

Lemma refines_quiet {C A R} (rep : C -> A -> Prop) (m : cxx (list (option C))) (a : cxx (list (option A))) :
  refines (rep_table rep) m a -> refines (same_results (R := R) rep) (quiet m) (quiet a).
Proof. intros H. eapply refines_bind; [exact H|]. intros t u Ht. by apply refines_val. Qed.

(** Static assertions and the rules of overloading: a program that breaks them
    does not compile and has no behaviour. *)
Definition compiles (b : bool) : cxx unit := if b then Val tt else Undefined.

(** [BATT_ASSERT]: checked in a debug build; otherwise the code goes on with a
    null pointer. *)
Definition assert_ (debug b : bool) : cxx unit := if b then Val tt else if debug then Panics else Undefined.

Lemma refines_compiles (b : bool) : refines eq (compiles b) (compiles b).
Proof. destruct b; simpl; [by exists tt|done]. Qed.

Lemma refines_assert (debug b : bool) : refines eq (assert_ debug b) (assert_ debug b).
Proof. destruct b, debug; simpl; [by exists tt|by exists tt|done|done]. Qed.

(** A check of the specification decides whether the operation is defined. *)
Lemma refines_guarded {X Y X' Y'} (R : X -> Y -> Prop) (R' : X' -> Y' -> Prop) (m : cxx X) (g : cxx unit) (y : Y) (k : X -> cxx X') (a : cxx Y') :
  refines R m (g;; mret y) -> (forall x, R x y -> refines R' (k x) a) -> refines R' (m ≫= k) (g;; a).
Proof.
  destruct g as [[]| |]; simpl; [|by intros ->|done]. intros (x & -> & Hx) Hk. by apply Hk.
Qed.

(** For the examples: objects of a size that count what they are called with. *)
Record Counter : Type := mkCounter { bytes : Z; count : Z }.

#[export, refine] Instance counter_erased : Erased Counter Z Z := {|
  impl_size := bytes;
  moved c := mkCounter (bytes c) 0;
  invoke arg c := (mkCounter (bytes c) (count c + arg), count c + arg) |}.
Proof. done. Defined.

Module SmallFn.
Section small_fn.
Context `{Erased F A R} (debug : bool).

(** [kMaxSize] and [kMoveOnly] are parameters of the type.  [impl_] points to
    the object in the storage, or is null. *)
(* @ src/batteries/small_fn.hpp 320-321 SmallFn *)
Record SmallFn : Type := mkSmallFn { kMaxSize : Z; kMoveOnly : bool; storage_ : storage F; impl_ : bool }.

Definition none (size : Z) (move_only : bool) : SmallFn := mkSmallFn size move_only Raw false.

Definition set_impl (s : storage F) (p : bool) (this : SmallFn) : SmallFn :=
  mkSmallFn (kMaxSize this) (kMoveOnly this) s p.

(* @ src/batteries/small_fn.hpp 192-199 SmallFn::check_fn_size *)
Definition check_fn_size (f : F) (size : Z) : cxx unit := compiles (impl_size f <=? size).

(** [new (memory) FnImpl(fn)]: there must be room. *)
Definition construct_fn (f : F) (this : SmallFn) : cxx SmallFn :=
  compiles (impl_size f <=? kMaxSize this);; s ← construct f (storage_ this); mret (set_impl s true this).

(** [that.impl_->move(&storage_, kMaxSize)]. *)
(* @ src/batteries/small_fn.hpp 136-141 MoveFnImpl::move *)
Definition fn_move (this that : SmallFn) : cxx (SmallFn * SmallFn) :=
  f ← reference (storage_ that);
  check_ (impl_size f <=? kMaxSize this);;
  s ← construct f (storage_ this);
  s' ← assign (moved f) (storage_ that);
  mret (set_impl s true this, set_impl s' (impl_ that) that).

(* @ src/batteries/small_fn.hpp 158-170 CopyFnImpl::copy, copy_to_move_only *)
Definition fn_copy (this that : SmallFn) : cxx SmallFn :=
  f ← reference (storage_ that);
  check_ (impl_size f <=? kMaxSize this);;
  s ← construct f (storage_ this);
  mret (set_impl s true this).

(* @ src/batteries/small_fn.hpp 250-256 SmallFn::clear *)
Definition clear (this : SmallFn) : cxx SmallFn :=
  if impl_ this then s ← destroy (storage_ this); mret (set_impl s false this) else mret this.

(* @ src/batteries/small_fn.hpp 208-213 SmallFn::SmallFn *)
Definition from_fn (size : Z) (move_only : bool) (f : F) : cxx SmallFn :=
  check_fn_size f size;; construct_fn f (none size move_only).

(* @ src/batteries/small_fn.hpp 215-223 SmallFn::SmallFn *)
Definition from_move (that : SmallFn) : cxx (SmallFn * SmallFn) :=
  let this := none (kMaxSize that) (kMoveOnly that) in
  both ← (if impl_ that then fn_move this that else mret (this, that));
  that ← clear both.2; mret (both.1, that).

(* @ src/batteries/small_fn.hpp 225-231 SmallFn::SmallFn *)
Definition from_copy (that : SmallFn) : cxx SmallFn :=
  let this := none (kMaxSize that) (kMoveOnly that) in
  compiles (negb (kMoveOnly this));; if impl_ that then fn_copy this that else mret this.

(** A copyable function of another size, of which only the size may be smaller. *)
Definition convertible (this that : SmallFn) : bool :=
  (kMaxSize that <=? kMaxSize this) && kMoveOnly this && negb (kMoveOnly that).

(** [that.impl_->copy_to_move_only]: [impl_] is not compared with null. *)
(* @ src/batteries/small_fn.hpp 233-238 SmallFn::SmallFn *)
Definition move_only_from_copy (size : Z) (that : SmallFn) : cxx SmallFn :=
  let this := none size true in
  compiles (convertible this that);; if impl_ that then fn_copy this that else Undefined.

(** There is no [check_fn_size]. *)
(* @ src/batteries/small_fn.hpp 264-270 SmallFn::operator= *)
Definition assign_fn (f : F) (this : SmallFn) : cxx SmallFn := this ← clear this; construct_fn f this.

(** [this] and [that] are two objects. *)
(* @ src/batteries/small_fn.hpp 272-280 SmallFn::operator= *)
Definition move_assign (this that : SmallFn) : cxx (SmallFn * SmallFn) :=
  this ← clear this;
  both ← (if impl_ that then fn_move this that else mret (this, that));
  that ← clear both.2; mret (both.1, that).

(* @ src/batteries/small_fn.hpp 282-291 SmallFn::operator= *)
Definition copy_assign (this that : SmallFn) : cxx SmallFn :=
  compiles (negb (kMoveOnly this));; this ← clear this; if impl_ that then fn_copy this that else mret this.

(* @ src/batteries/small_fn.hpp 293-301 SmallFn::operator= *)
Definition assign_move_only_from_copy (this that : SmallFn) : cxx SmallFn :=
  compiles (convertible this that);; this ← clear this; if impl_ that then fn_copy this that else Undefined.

(* @ src/batteries/small_fn.hpp 313-317 SmallFn::operator() *)
Definition call (arg : A) (this : SmallFn) : cxx (SmallFn * R) :=
  assert_ debug (impl_ this);;
  f ← reference (storage_ this);
  let '(f, r) := invoke arg f in
  s ← assign f (storage_ this); mret (set_impl s (impl_ this) this, r).

Inductive Op : Type :=
| Construct (i : nat) (size : Z) (move_only : bool)
| ConstructFn (i : nat) (size : Z) (move_only : bool) (f : F)
| ConstructMove (i j : nat)
| ConstructCopy (i j : nat)
| ConstructFromCopyable (i j : nat) (size : Z)
| Destroy (i : nat)
| Clear (i : nat)
| AssignFn (i : nat) (f : F)
| AssignMove (i j : nat)
| AssignCopy (i j : nat)
| AssignFromCopyable (i j : nat)
| Call (i : nat) (arg : A).

(** The assignments do nothing when both sides are one object; the conversions
    are between types that differ. *)
Definition exec (op : Op) (t : list (option SmallFn)) : cxx (list (option SmallFn) * list R) :=
  match op with
  | Construct i size move_only => quiet (vacant t i;; mret (put i (Some (none size move_only)) t))
  | ConstructFn i size move_only f => quiet (vacant t i;; c ← from_fn size move_only f; mret (put i (Some c) t))
  | ConstructMove i j =>
      quiet (vacant t i;; that ← entry t j; c ← from_move that; mret (put j (Some c.2) (put i (Some c.1) t)))
  | ConstructCopy i j => quiet (vacant t i;; that ← entry t j; c ← from_copy that; mret (put i (Some c) t))
  | ConstructFromCopyable i j size =>
      quiet (vacant t i;; that ← entry t j; c ← move_only_from_copy size that; mret (put i (Some c) t))
  | Destroy i => quiet (this ← entry t i; c ← clear this; released (storage_ c);; mret (put i None t))
  | Clear i => quiet (this ← entry t i; c ← clear this; mret (put i (Some c) t))
  | AssignFn i f => quiet (this ← entry t i; c ← assign_fn f this; mret (put i (Some c) t))
  | AssignMove i j =>
      quiet (this ← entry t i; that ← entry t j;
        compiles (bool_decide (kMaxSize this = kMaxSize that /\ kMoveOnly this = kMoveOnly that));;
        if bool_decide (i = j) then mret t
        else c ← move_assign this that; mret (put j (Some c.2) (put i (Some c.1) t)))
  | AssignCopy i j =>
      quiet (this ← entry t i; that ← entry t j;
        compiles (bool_decide (kMaxSize this = kMaxSize that /\ kMoveOnly this = kMoveOnly that));;
        if bool_decide (i = j) then compiles (negb (kMoveOnly this));; mret t
        else c ← copy_assign this that; mret (put i (Some c) t))
  | AssignFromCopyable i j =>
      quiet (this ← entry t i; that ← entry t j; c ← assign_move_only_from_copy this that; mret (put i (Some c) t))
  | Call i arg => this ← entry t i; c ← call arg this; mret (put i (Some c.1) t, [c.2])
  end.

(** ** The specification: an optional function of a type *)

Record Fn : Type := mkFn { size : Z; move_only : bool; fn : option F }.

Definition fits (f : F) (x : Fn) : cxx unit := compiles (impl_size f <=? size x).

Definition with_fn (f : option F) (x : Fn) : Fn := mkFn (size x) (move_only x) f.

(** The function of a copyable [SmallFn]; there must be one. *)
Definition converted (x y : Fn) : cxx Fn :=
  compiles ((size y <=? size x) && move_only x && negb (move_only y));;
  match fn y with Some f => mret (with_fn (Some f) x) | None => Undefined end.

Definition same_type (x y : Fn) : cxx unit := compiles (bool_decide (size x = size y /\ move_only x = move_only y)).

Definition spec (op : Op) (t : list (option Fn)) : cxx (list (option Fn) * list R) :=
  match op with
  | Construct i s m => quiet (vacant t i;; mret (put i (Some (mkFn s m None)) t))
  | ConstructFn i s m f =>
      quiet (vacant t i;; let x := mkFn s m (Some f) in fits f x;; mret (put i (Some x) t))
  | ConstructMove i j => quiet (vacant t i;; y ← entry t j; mret (put j (Some (with_fn None y)) (put i (Some y) t)))
  | ConstructCopy i j => quiet (vacant t i;; y ← entry t j; compiles (negb (move_only y));; mret (put i (Some y) t))
  | ConstructFromCopyable i j s =>
      quiet (vacant t i;; y ← entry t j; x ← converted (mkFn s true None) y; mret (put i (Some x) t))
  | Destroy i => quiet (entry t i;; mret (put i None t))
  | Clear i => quiet (x ← entry t i; mret (put i (Some (with_fn None x)) t))
  | AssignFn i f => quiet (x ← entry t i; fits f x;; mret (put i (Some (with_fn (Some f) x)) t))
  | AssignMove i j =>
      quiet (x ← entry t i; y ← entry t j; same_type x y;;
        mret (if bool_decide (i = j) then t else put j (Some (with_fn None y)) (put i (Some y) t)))
  | AssignCopy i j =>
      quiet (x ← entry t i; y ← entry t j; same_type x y;; compiles (negb (move_only x));;
        mret (if bool_decide (i = j) then t else put i (Some y) t))
  | AssignFromCopyable i j =>
      quiet (x ← entry t i; y ← entry t j; x' ← converted x y; mret (put i (Some x') t))
  | Call i arg =>
      x ← entry t i;
      match fn x with
      | Some f => let '(f, r) := invoke arg f in mret (put i (Some (with_fn (Some f) x)) t, [r])
      | None => assert_ debug false;; mret (t, [])
      end
  end.

(** A live function fits into the storage. *)
Definition rep (c : SmallFn) (x : Fn) : Prop :=
  c = match fn x with
      | Some f => mkSmallFn (size x) (move_only x) (Live f) true
      | None => none (size x) (move_only x)
      end /\
  match fn x with Some f => impl_size f <= size x | None => True end.

Definition full (s : Z) (m : bool) (f : F) : SmallFn := mkSmallFn s m (Live f) true.

Lemma rep_some (s : Z) (m : bool) (f : F) : impl_size f <= s -> rep (full s m f) (mkFn s m (Some f)).
Proof. done. Qed.

Lemma rep_none (s : Z) (m : bool) : rep (none s m) (mkFn s m None).
Proof. done. Qed.

(** The two cases of a [SmallFn]. *)
Lemma rep_cases (c : SmallFn) (x : Fn) :
  rep c x ->
  (exists s m, c = none s m /\ x = mkFn s m None) \/
  (exists s m f, c = full s m f /\ x = mkFn s m (Some f) /\ impl_size f <= s).
Proof. destruct x as [s m [f|]]; intros [-> Hf]; [right|left]; by repeat eexists. Qed.

Lemma clear_rep (c : SmallFn) (x : Fn) : rep c x -> clear c = Val (none (size x) (move_only x)).
Proof. intros [(s & m & -> & ->)|(s & m & f & -> & -> & _)]%rep_cases; done. Qed.

Lemma construct_fn_fits (f : F) (s : Z) (m : bool) : impl_size f <= s -> construct_fn f (none s m) = Val (full s m f).
Proof. intros Hf. unfold construct_fn. simpl. by rewrite (proj2 (Z.leb_le _ _) Hf). Qed.

Lemma fn_copy_fits (f : F) (s s' : Z) (m m' : bool) : impl_size f <= s -> fn_copy (none s m) (full s' m' f) = Val (full s m f).
Proof. intros Hf. unfold fn_copy. simpl. by rewrite (proj2 (Z.leb_le _ _) Hf). Qed.

Lemma move_fits (f : F) (s : Z) (m : bool) :
  impl_size f <= s ->
  (both ← fn_move (none s m) (full s m f); that ← clear both.2; mret (both.1, that)) = Val (full s m f, none s m).
Proof. intros Hf. unfold fn_move. simpl. by rewrite (proj2 (Z.leb_le _ _) Hf). Qed.

Hint Resolve rep_some rep_none : core.

Lemma from_fn_refines (s : Z) (m : bool) (f : F) :
  refines rep (from_fn s m f) (fits f (mkFn s m (Some f));; mret (mkFn s m (Some f))).
Proof.
  unfold from_fn, check_fn_size, fits. simpl. destruct (Z.leb_spec (impl_size f) s); simpl; [|done].
  rewrite construct_fn_fits by done. eauto.
Qed.

Lemma from_move_refines (c : SmallFn) (x : Fn) :
  rep c x -> refines (fun p q => rep p.1 q.1 /\ rep p.2 q.2) (from_move c) (mret (x, with_fn None x)).
Proof.
  intros [(s & m & -> & ->)|(s & m & f & -> & -> & Hf)]%rep_cases; unfold from_move; simpl impl_; cbn iota; [by repeat eexists|].
  simpl kMaxSize. simpl kMoveOnly. rewrite move_fits by done. by repeat eexists.
Qed.

Lemma from_copy_refines (c : SmallFn) (x : Fn) :
  rep c x -> refines rep (from_copy c) (compiles (negb (move_only x));; mret x).
Proof.
  intros [(s & m & -> & ->)|(s & m & f & -> & -> & Hf)]%rep_cases; unfold from_copy; simpl; destruct m; simpl; try done; [eauto|].
  rewrite fn_copy_fits by done. eauto.
Qed.

Lemma move_only_from_copy_refines (s : Z) (c : SmallFn) (x : Fn) :
  rep c x -> refines rep (move_only_from_copy s c) (converted (mkFn s true None) x).
Proof.
  intros [(s' & m & -> & ->)|(s' & m & f & -> & -> & Hf)]%rep_cases; unfold move_only_from_copy, converted, convertible; simpl;
    destruct (Z.leb_spec s' s), m; simpl; try done.
  rewrite fn_copy_fits by lia. eexists. split; [done|]. apply rep_some. lia.
Qed.

Lemma assign_fn_refines (f : F) (c : SmallFn) (x : Fn) :
  rep c x -> refines rep (assign_fn f c) (fits f x;; mret (with_fn (Some f) x)).
Proof.
  intros Hc. unfold assign_fn, fits. rewrite (clear_rep _ _ Hc). simpl.
  destruct (Z.leb_spec (impl_size f) (size x)); simpl; [|done]. rewrite construct_fn_fits by done. eauto.
Qed.

Lemma move_assign_refines (c c' : SmallFn) (x y : Fn) :
  rep c x -> rep c' y -> size x = size y -> move_only x = move_only y ->
  refines (fun p q => rep p.1 q.1 /\ rep p.2 q.2) (move_assign c c') (mret (y, with_fn None y)).
Proof.
  intros Hc Hc' Hs Hm. unfold move_assign. rewrite (clear_rep _ _ Hc), Hs, Hm. simpl.
  apply rep_cases in Hc' as [(s & m & -> & ->)|(s & m & f & -> & -> & Hf)]; simpl impl_; cbn iota; [by repeat eexists|].
  simpl size. simpl move_only. rewrite move_fits by done. by repeat eexists.
Qed.

Lemma copy_assign_refines (c c' : SmallFn) (x y : Fn) :
  rep c x -> rep c' y -> size x = size y -> move_only x = move_only y ->
  refines rep (copy_assign c c') (compiles (negb (move_only x));; mret y).
Proof.
  intros Hc Hc' Hs Hm. unfold copy_assign. rewrite (clear_rep _ _ Hc), Hs, Hm.
  replace (kMoveOnly c) with (move_only y) by (destruct Hc as [-> _]; destruct (fn x); by rewrite <- Hm).
  apply rep_cases in Hc' as [(s & m & -> & ->)|(s & m & f & -> & -> & Hf)]; simpl; destruct m; simpl; try done; [eauto|].
  rewrite fn_copy_fits by done. eauto.
Qed.

Lemma assign_move_only_refines (c c' : SmallFn) (x y : Fn) :
  rep c x -> rep c' y -> refines rep (assign_move_only_from_copy c c') (converted x y).
Proof.
  intros Hc Hc'. unfold assign_move_only_from_copy, converted, convertible. rewrite (clear_rep _ _ Hc).
  replace (kMoveOnly c) with (move_only x) by (destruct Hc as [-> _]; by destruct (fn x)).
  replace (kMaxSize c) with (size x) by (destruct Hc as [-> _]; by destruct (fn x)).
  apply rep_cases in Hc' as [(s & m & -> & ->)|(s & m & f & -> & -> & Hf)]; simpl;
    destruct (Z.leb_spec s (size x)), (move_only x) eqn:Em, m; simpl; try done.
  rewrite fn_copy_fits by lia. eexists. split; [done|]. unfold with_fn. rewrite Em. apply rep_some. lia.
Qed.

Lemma call_refines (arg : A) (c : SmallFn) (x : Fn) :
  rep c x ->
  refines (fun p q => rep p.1 q.1 /\ p.2 = q.2) (call arg c)
    match fn x with
    | Some f => let '(f, r) := invoke arg f in mret (with_fn (Some f) x, r)
    | None => assert_ debug false;; Undefined
    end.
Proof.
  intros [(s & m & -> & ->)|(s & m & f & -> & -> & Hf)]%rep_cases; unfold call; simpl; [by destruct debug|].
  pose proof (invoke_size arg f) as Hs. destruct (invoke arg f) as [f' r]. simpl in *. eexists. split; [done|].
  split; [|done]. apply (rep_some s m f'). by rewrite Hs.
Qed.

Lemma same_type_refines (c c' : SmallFn) (x y : Fn) :
  rep c x -> rep c' y ->
  refines (fun _ _ => size x = size y /\ move_only x = move_only y)
    (compiles (bool_decide (kMaxSize c = kMaxSize c' /\ kMoveOnly c = kMoveOnly c'))) (same_type x y).
Proof.
  intros [-> _] [-> _]. unfold same_type.
  replace (bool_decide _) with (bool_decide (size x = size y /\ move_only x = move_only y)) by (by destruct (fn x), (fn y)).
  destruct (bool_decide_reflect (size x = size y /\ move_only x = move_only y)); simpl; eauto.
Qed.

Lemma small_fn_exec_refines (op : Op) (t : list (option SmallFn)) (a : list (option Fn)) :
  rep_table rep t a -> refines (same_results rep) (exec op t) (spec op a).
Proof.
  intros Ht. destruct op as [i s m|i s m f|i j|i j|i j s|i|i|i f|i j|i j|i j|i arg]; cbn [exec spec]; try apply refines_quiet.
  - fetch. intros _ _ _. store; auto.
  - fetch. intros _ _ _.
    eapply refines_guarded; [apply from_fn_refines|]. intros c Hc. store; auto.
  - fetch. intros _ _ _. fetch. intros c x Hc.
    destruct (from_move_refines c x Hc) as (p & -> & Hp1 & Hp2). store; auto.
  - fetch. intros _ _ _. fetch. intros c x Hc.
    eapply refines_guarded; [by apply from_copy_refines|]. intros c' Hc'. store; auto.
  - fetch. intros _ _ _. fetch. intros c x Hc. eapply refines_bind; [by apply move_only_from_copy_refines|].
    intros c' x' Hc'. store; auto.
  - fetch. intros c x Hc. rewrite (clear_rep _ _ Hc). store; auto.
  - fetch. intros c x Hc. rewrite (clear_rep _ _ Hc). store; auto.
  - fetch. intros c x Hc.
    eapply refines_guarded; [by apply assign_fn_refines|]. intros c' Hc'. store; auto.
  - fetch. intros c x Hc. fetch. intros c' y Hc'. eapply refines_bind; [by apply same_type_refines|]. intros _ _ [Hs Hm].
    destruct (bool_decide (i = j)); [store; auto|].
    destruct (move_assign_refines c c' x y) as (p & -> & Hp1 & Hp2); try done. store; auto.
  - fetch. intros c x Hc. fetch. intros c' y Hc'. eapply refines_bind; [by apply same_type_refines|]. intros _ _ [Hs Hm].
    destruct (bool_decide (i = j)).
    + replace (kMoveOnly c) with (move_only x) by (destruct Hc as [-> _]; by destruct (fn x)).
      eapply refines_bind; [apply refines_compiles|]. intros _ _ _. store; auto.
    + eapply refines_guarded; [by apply copy_assign_refines|]. intros c'' Hc''. store; auto.
  - fetch. intros c x Hc. fetch. intros c' y Hc'. eapply refines_bind; [by apply assign_move_only_refines|].
    intros c'' x' Hc''. store; auto.
  - fetch. intros c x Hc. pose proof (call_refines arg c x Hc) as Hf. destruct (fn x) as [f|].
    + destruct (invoke arg f) as [f' r]. destruct Hf as (p & -> & Hp1 & Hp2). simpl in *. subst.
      eexists. split; [reflexivity|]. split; [|done]. simpl. apply rep_put; [done|]. by constructor.
    + destruct debug; simpl in *; [by rewrite Hf|done].
Qed.

(** [SmallFn] implements an optional function: whatever the operations on any
    number of them, of sizes and copyability that fit, the functions and the
    results of the calls are those of the specification; no size check fails;
    no function is constructed over another, or where there is no room for it,
    called, moved or destroyed when it is not there, or left behind.  A call of
    an empty one panics in a debug build. *)
Theorem small_fn_lifetimes (ops : list Op) (n : nat) :
  refines (same_results rep) (run_ops exec ops n) (run_ops spec ops n).
Proof. apply refines_run_ops. apply small_fn_exec_refines. Qed.
End small_fn.

(** Copies are independent, and a copyable function can be given to a larger
    move-only one. *)
Example functions :
  run_ops (exec true)
    [ConstructFn 0 56 false (mkCounter 16 0); Call 0 3; ConstructCopy 1 0; Call 1 4; Call 0 1; ConstructFromCopyable 2 1 64;
     Call 2 1; AssignMove 0 1; Call 0 10; Destroy 1; Clear 2] 3
  = Val ([Some (full 56 false (mkCounter 16 17)); None; Some (none 64 true)], [3; 7; 4; 8; 17]).
Proof. done. Qed.

(** The assignment of a function does not check its size. *)
Example assign_too_large :
  run_ops (exec true) [ConstructFn 0 56 false (mkCounter 64 0)] 1 = Undefined /\
  run_ops (exec true) [Construct 0 56 false; AssignFn 0 (mkCounter 64 0)] 1 = Undefined.
Proof. done. Qed.

(** An empty function can be copied, but not be made move-only; a call of it
    panics only in a debug build. *)
Example empty_functions :
  run_ops (exec true) [Construct 0 56 false; ConstructCopy 1 0] 2 = Val ([Some (none 56 false); Some (none 56 false)], []) /\
  run_ops (exec true) [Construct 0 56 false; ConstructFromCopyable 1 0 56] 2 = Undefined /\
  run_ops (exec true) [Construct 0 56 false; Construct 1 56 true; AssignFromCopyable 1 0] 2 = Undefined /\
  run_ops (exec true) [Construct 0 56 false; Call 0 1] 1 = Panics /\
  run_ops (exec false) [Construct 0 56 false; Call 0 1] 1 = Undefined.
Proof. done. Qed.
End SmallFn.

Module Storage.
Section storage.
Context `{Erased F A R} (kReservedSize pointer_size : Z).

(** [kReservedSize must be large enough to fit a pointer]. *)
Context (pointer_fits : pointer_size <= kReservedSize).

(** What is built in the storage: an object, or an [AbstractValuePointer],
    whose [unique_ptr] owns an object or, once it has been moved, is null. *)
Inductive Stored : Type := Inline (v : F) | Pointer (p : option F).

(** Where [impl_] points to: the object in the storage or the one that the
    pointer in the storage owns. *)
Inductive Where : Type := Here | Heap.

(* @ src/batteries/type_erasure.hpp 224-225 TypeErasedStorage *)
Record TypeErasedStorage : Type := mkTypeErasedStorage { storage_ : storage Stored; impl_ : option Where }.

Definition empty_storage : TypeErasedStorage := mkTypeErasedStorage Raw None.

(* @ src/batteries/type_erasure.hpp 73-89 TypeErasedStorageBase::construct_impl *)
Definition construct_impl (v : F) (memory : storage Stored) : cxx TypeErasedStorage :=
  if impl_size v <=? kReservedSize
  then s ← construct (Inline v) memory; mret (mkTypeErasedStorage s (Some Here))
  else s ← construct (Pointer (Some v)) memory; mret (mkTypeErasedStorage s (Some Heap)).

(** The object that [impl_] points to. *)
(* @ src/batteries/type_erasure.hpp 181-184 TypeErasedStorage::get *)
Definition get (this : TypeErasedStorage) : cxx F :=
  match impl_ this, storage_ this with
  | Some Here, Live (Inline v) => mret v
  | Some Heap, Live (Pointer (Some v)) => mret v
  | _, _ => Undefined
  end.

(** The function of the object: it is built anew in the other memory. *)
(* @ src/batteries/type_erasure.hpp 251-255 AbstractValueImpl::copy_to *)
Definition copy_to (memory : storage Stored) (that : TypeErasedStorage) : cxx TypeErasedStorage :=
  v ← get that; construct_impl v memory.

(** The function of what is in the storage: an object is moved, of a pointer
    only the [unique_ptr].  [impl_] of the result is [ptr_.get()]. *)
(* @ src/batteries/type_erasure.hpp 54-61 AbstractValuePointer::move_to *)
Definition move_to (memory : storage Stored) (that : TypeErasedStorage) : cxx (TypeErasedStorage * TypeErasedStorage) :=
  s ← reference (storage_ that);
  match s with
  | Inline v =>
      this ← construct_impl v memory;
      s' ← assign (Inline (moved v)) (storage_ that); mret (this, mkTypeErasedStorage s' (impl_ that))
  | Pointer p =>
      check_ (pointer_size <=? kReservedSize);;
      s ← construct (Pointer p) memory;
      s' ← assign (Pointer None) (storage_ that);
      mret (mkTypeErasedStorage s ((fun _ => Heap) <$> p), mkTypeErasedStorage s' (impl_ that))
  end.

(** An [AbstractValuePointer] destroys the object it owns. *)
(* @ src/batteries/type_erasure.hpp 168-174 TypeErasedStorage::clear *)
Definition storage_clear (this : TypeErasedStorage) : cxx TypeErasedStorage :=
  match impl_ this with
  | Some _ => s ← destroy (storage_ this); mret (mkTypeErasedStorage s None)
  | None => mret this
  end.

(* @ src/batteries/type_erasure.hpp 153-166 TypeErasedStorage::emplace *)
Definition emplace (v : F) (this : TypeErasedStorage) : cxx TypeErasedStorage :=
  this ← storage_clear this; construct_impl v (storage_ this).

(* @ src/batteries/type_erasure.hpp 110-114 TypeErasedStorage::TypeErasedStorage *)
Definition from_value (v : F) : cxx TypeErasedStorage := emplace v empty_storage.

(* @ src/batteries/type_erasure.hpp 116-118 TypeErasedStorage::TypeErasedStorage *)
Definition storage_copy (other : TypeErasedStorage) : cxx TypeErasedStorage := copy_to Raw other.

(* @ src/batteries/type_erasure.hpp 120-123 TypeErasedStorage::TypeErasedStorage *)
Definition storage_move (other : TypeErasedStorage) : cxx (TypeErasedStorage * TypeErasedStorage) :=
  both ← move_to Raw other; other ← storage_clear both.2; mret (both.1, other).

(** [this] and [other] are two objects. *)
(* @ src/batteries/type_erasure.hpp 132-140 TypeErasedStorage::operator= *)
Definition storage_move_assign (this other : TypeErasedStorage) : cxx (TypeErasedStorage * TypeErasedStorage) :=
  this ← storage_clear this; both ← move_to (storage_ this) other; other ← storage_clear both.2; mret (both.1, other).

(* @ src/batteries/type_erasure.hpp 142-149 TypeErasedStorage::operator= *)
Definition storage_copy_assign (this other : TypeErasedStorage) : cxx TypeErasedStorage :=
  this ← storage_clear this; copy_to (storage_ this) other.

(** A call of a function of the object: [get()] is not compared with null. *)
(* @ src/batteries/type_erasure.hpp 201-204 TypeErasedStorage::operator-> *)
Definition storage_call (arg : A) (this : TypeErasedStorage) : cxx (TypeErasedStorage * R) :=
  v ← get this;
  let '(v, r) := invoke arg v in
  s ← assign match impl_ this with Some Heap => Pointer (Some v) | _ => Inline v end (storage_ this);
  mret (mkTypeErasedStorage s (impl_ this), r).

Inductive Op : Type :=
| Construct (i : nat)
| ConstructValue (i : nat) (v : F)
| ConstructCopy (i j : nat)
| ConstructMove (i j : nat)
| Destroy (i : nat)
| Clear (i : nat)
| Emplace (i : nat) (v : F)
| AssignMove (i j : nat)
| AssignCopy (i j : nat)
| Call (i : nat) (arg : A).

(** An assignment of an object to itself does nothing. *)
Definition exec (op : Op) (t : list (option TypeErasedStorage)) : cxx (list (option TypeErasedStorage) * list R) :=
  match op with
  | Construct i => quiet (vacant t i;; mret (put i (Some empty_storage) t))
  | ConstructValue i v => quiet (vacant t i;; c ← from_value v; mret (put i (Some c) t))
  | ConstructCopy i j => quiet (vacant t i;; that ← entry t j; c ← storage_copy that; mret (put i (Some c) t))
  | ConstructMove i j =>
      quiet (vacant t i;; that ← entry t j; c ← storage_move that; mret (put j (Some c.2) (put i (Some c.1) t)))
  | Destroy i => quiet (this ← entry t i; c ← storage_clear this; released (storage_ c);; mret (put i None t))
  | Clear i => quiet (this ← entry t i; c ← storage_clear this; mret (put i (Some c) t))
  | Emplace i v => quiet (this ← entry t i; c ← emplace v this; mret (put i (Some c) t))
  | AssignMove i j =>
      quiet (this ← entry t i; that ← entry t j;
        if bool_decide (i = j) then mret t
        else c ← storage_move_assign this that; mret (put j (Some c.2) (put i (Some c.1) t)))
  | AssignCopy i j =>
      quiet (this ← entry t i; that ← entry t j;
        if bool_decide (i = j) then mret t else c ← storage_copy_assign this that; mret (put i (Some c) t))
  | Call i arg => this ← entry t i; c ← storage_call arg this; mret (put i (Some c.1) t, [c.2])
  end.

(** The same on [option F]; the source of a copy or a move must not be empty. *)
Definition the (x : option F) : cxx F := match x with Some v => mret v | None => Undefined end.

Definition spec (op : Op) (t : list (option (option F))) : cxx (list (option (option F)) * list R) :=
  match op with
  | Construct i => quiet (vacant t i;; mret (put i (Some None) t))
  | ConstructValue i v => quiet (vacant t i;; mret (put i (Some (Some v)) t))
  | ConstructCopy i j => quiet (vacant t i;; y ← entry t j; v ← the y; mret (put i (Some (Some v)) t))
  | ConstructMove i j =>
      quiet (vacant t i;; y ← entry t j; v ← the y; mret (put j (Some None) (put i (Some (Some v)) t)))
  | Destroy i => quiet (entry t i;; mret (put i None t))
  | Clear i => quiet (entry t i;; mret (put i (Some None) t))
  | Emplace i v => quiet (entry t i;; mret (put i (Some (Some v)) t))
  | AssignMove i j =>
      quiet (entry t i;; y ← entry t j;
        if bool_decide (i = j) then mret t else v ← the y; mret (put j (Some None) (put i (Some (Some v)) t)))
  | AssignCopy i j =>
      quiet (entry t i;; y ← entry t j;
        if bool_decide (i = j) then mret t else v ← the y; mret (put i (Some (Some v)) t))
  | Call i arg =>
      x ← entry t i; v ← the x; let '(v, r) := invoke arg v in mret (put i (Some (Some v)) t, [r])
  end.

(** An object that fits is in the storage, another one behind the pointer. *)
Definition place (v : F) : TypeErasedStorage :=
  if impl_size v <=? kReservedSize then mkTypeErasedStorage (Live (Inline v)) (Some Here)
  else mkTypeErasedStorage (Live (Pointer (Some v))) (Some Heap).

Definition rep (c : TypeErasedStorage) (x : option F) : Prop :=
  c = match x with Some v => place v | None => empty_storage end.

Lemma construct_impl_raw (v : F) : construct_impl v Raw = Val (place v).
Proof. unfold construct_impl, place. by destruct (impl_size v <=? kReservedSize). Qed.

Lemma storage_clear_rep (c : TypeErasedStorage) (x : option F) : rep c x -> storage_clear c = Val empty_storage.
Proof. intros ->. destruct x as [v|]; [|done]. unfold place. by destruct (impl_size v <=? kReservedSize). Qed.

Lemma get_place (v : F) : get (place v) = Val v.
Proof. unfold place. by destruct (impl_size v <=? kReservedSize). Qed.

Lemma copy_place (v : F) : copy_to Raw (place v) = Val (place v).
Proof. unfold copy_to. rewrite get_place. apply construct_impl_raw. Qed.

Lemma move_place (v : F) :
  (both ← move_to Raw (place v); other ← storage_clear both.2; mret (both.1, other)) = Val (place v, empty_storage).
Proof.
  unfold move_to, place. destruct (impl_size v <=? kReservedSize) eqn:E; simpl.
  - unfold construct_impl. by rewrite E.
  - by rewrite (proj2 (Z.leb_le _ _) pointer_fits).
Qed.

Lemma call_place (arg : A) (v : F) : storage_call arg (place v) = Val (place (invoke arg v).1, (invoke arg v).2).
Proof.
  unfold storage_call. rewrite get_place. cbn [mbind cxx_bind]. pose proof (invoke_size arg v) as Hs. destruct (invoke arg v) as [v' r].
  unfold place. simpl in *. rewrite Hs. by destruct (impl_size v <=? kReservedSize).
Qed.

(** The source of a copy or a move. *)
Lemma refines_the {X' Y'} (P : X' -> Y' -> Prop) (c : TypeErasedStorage) (x : option F) (m : cxx X') (a : F -> cxx Y') :
  rep c x -> (forall v, c = place v -> refines P m (a v)) -> refines P m (the x ≫= a).
Proof. intros -> Hk. destruct x as [v|]; [by apply Hk|done]. Qed.

Hint Extern 1 (rep _ _) => reflexivity : core.

Lemma storage_exec_refines (op : Op) (t : list (option TypeErasedStorage)) (a : list (option (option F))) :
  rep_table rep t a -> refines (same_results rep) (exec op t) (spec op a).
Proof.
  intros Ht. destruct op as [i|i v|i j|i j|i|i|i v|i j|i j|i arg]; cbn [exec spec]; try apply refines_quiet.
  - fetch. intros _ _ _. store; auto.
  - fetch. intros _ _ _. unfold from_value, emplace. simpl. rewrite construct_impl_raw. store; auto.
  - fetch. intros _ _ _. fetch. intros c x Hc. eapply refines_the; [done|]. intros v ->.
    unfold storage_copy. rewrite copy_place. store; auto.
  - fetch. intros _ _ _. fetch. intros c x Hc. eapply refines_the; [done|]. intros v ->.
    unfold storage_move. rewrite move_place. store; auto.
  - fetch. intros c x Hc. rewrite (storage_clear_rep _ _ Hc). store.
  - fetch. intros c x Hc. rewrite (storage_clear_rep _ _ Hc). store; auto.
  - fetch. intros c x Hc. unfold emplace. rewrite (storage_clear_rep _ _ Hc). simpl. rewrite construct_impl_raw. store; auto.
  - fetch. intros c x Hc. fetch. intros c' y Hc'. destruct (bool_decide (i = j)); [store|].
    eapply refines_the; [done|]. intros v ->. unfold storage_move_assign. rewrite (storage_clear_rep _ _ Hc). cbn [mbind cxx_bind].
    rewrite move_place. store; auto.
  - fetch. intros c x Hc. fetch. intros c' y Hc'. destruct (bool_decide (i = j)); [store|].
    eapply refines_the; [done|]. intros v ->. unfold storage_copy_assign. rewrite (storage_clear_rep _ _ Hc). simpl.
    rewrite copy_place. store; auto.
  - fetch. intros c x Hc. eapply refines_the; [done|]. intros v ->. rewrite call_place.
    destruct (invoke arg v) as [v' r]. eexists. split; [reflexivity|]. split; [|done]. by apply rep_put; [|constructor].
Qed.

(** [TypeErasedStorage] implements an optional object: whatever the operations
    on any number of them, it makes no difference whether the object fits into
    the storage; none is constructed over another, used or destroyed when it is
    not there, or left behind; the check of the size does not fail. *)
Theorem erased_storage_lifetimes (ops : list Op) (n : nat) :
  refines (same_results rep) (run_ops exec ops n) (run_ops spec ops n).
Proof using pointer_fits. apply refines_run_ops. apply storage_exec_refines. Qed.
End storage.

(** A small and a large object, copied, moved and called. *)
Example objects :
  run_ops (exec 56 16)
    [ConstructValue 0 (mkCounter 16 0); ConstructValue 1 (mkCounter 100 5); Call 0 3; ConstructCopy 2 1; Call 1 1; Call 2 10;
     AssignMove 0 1; Call 0 1; Emplace 1 (mkCounter 8 1); AssignCopy 1 2; Call 1 1; Destroy 2] 3
  = Val ([Some (mkTypeErasedStorage (Live (Pointer (Some (mkCounter 100 7)))) (Some Heap));
          Some (mkTypeErasedStorage (Live (Pointer (Some (mkCounter 100 16)))) (Some Heap)); None], [3; 6; 15; 7; 16]).
Proof. done. Qed.

(** An empty one must neither be copied nor moved, though it may be destroyed. *)
Example empty_storages :
  run_ops (exec 56 16) [Construct 0; Clear 0; Destroy 0] 1 = Val ([None], []) /\
  run_ops (exec 56 16) [Construct 0; ConstructCopy 1 0] 2 = Undefined /\
  run_ops (exec 56 16) [Construct 0; ConstructMove 1 0] 2 = Undefined /\
  run_ops (exec 56 16) [ConstructValue 0 (mkCounter 16 0); ConstructMove 1 0; Construct 2; AssignMove 2 0] 3 = Undefined.
Proof. done. Qed.

(** The hypothesis on the sizes can be met. *)
Example erased_storage_lifetimes_witness :
  refines (same_results (rep 56)) (run_ops (exec 56 16) [ConstructValue 0 (mkCounter 100 5); Call 0 1] 1)
    (run_ops spec [ConstructValue 0 (mkCounter 100 5); Call 0 1] 1).
Proof. apply erased_storage_lifetimes. lia. Defined.
End Storage.
