(* ===== verification/StatusErrors.v ===== *)
(** * Statuses of error codes

    [status.hpp]: [register_error_category], [status_from_error_category] with
    its two levels of maps (one per thread, and a global one under a mutex),
    and [to_status] of the error codes of Boost and of the standard library,
    [status_from_retval] and the comparison of [StatusOr] objects.  An error
    category is identified by its address, an enumeration type by a number.
    The messages of a category and the values of asio's errors are parameters;
    [asio_linux] says which numbers asio documents for them. *)

From S2P Require Import Prelude Status Lifetime.
Import StatusRegistry.
Open Scope Z_scope.

(** [unordered_map::emplace] keeps what is there. *)
Definition emplace {K V} `{Countable K} (k : K) (v : V) (m : gmap K V) : gmap K V :=
  match m !! k with Some _ => m | None => <[k := v]> m end.

Lemma lookup_emplace {K V} `{Countable K} (k : K) (v : V) (m : gmap K V) : emplace k v m !! k = Some (default v (m !! k)).
Proof. unfold emplace. destruct (m !! k) eqn:E; [done|]. apply lookup_insert_eq. Qed.

Lemma lookup_emplace_ne {K V} `{Countable K} (k j : K) (v : V) (m : gmap K V) : j <> k -> emplace k v m !! j = m !! j.
Proof. unfold emplace. destruct (m !! k) eqn:E; [done|]. intros. by apply lookup_insert_ne. Qed.

Definition of_outcome {A} (o : outcome A) : cxx A := match o with Done a => Val a | Panic => Panics end.

(** The error numbers of Linux, and the errors of asio that [to_status] names. *)
Inductive Errno : Type :=
| EACCES | EAFNOSUPPORT | EADDRINUSE | EISCONN | EALREADY | EPIPE | ECONNABORTED | ECONNREFUSED | ECONNRESET | EBADF
| EFAULT | EHOSTUNREACH | EINPROGRESS | EINTR | EINVAL | EMSGSIZE | ENAMETOOLONG | ENETDOWN | ENETRESET | ENETUNREACH
| EMFILE | ENOBUFS | ENOMEM | EPERM | ENOPROTOOPT | ENODEV | ENOTCONN | ENOTSOCK | ECANCELED | EOPNOTSUPP | ESHUTDOWN
| ETIMEDOUT | EAGAIN.

Definition errno_value (e : Errno) : Z :=
  match e with
  | EACCES => 13 | EAFNOSUPPORT => 97 | EADDRINUSE => 98 | EISCONN => 106 | EALREADY => 114 | EPIPE => 32
  | ECONNABORTED => 103 | ECONNREFUSED => 111 | ECONNRESET => 104 | EBADF => 9 | EFAULT => 14 | EHOSTUNREACH => 113
  | EINPROGRESS => 115 | EINTR => 4 | EINVAL => 22 | EMSGSIZE => 90 | ENAMETOOLONG => 36 | ENETDOWN => 100
  | ENETRESET => 102 | ENETUNREACH => 101 | EMFILE => 24 | ENOBUFS => 105 | ENOMEM => 12 | EPERM => 1
  | ENOPROTOOPT => 92 | ENODEV => 19 | ENOTCONN => 107 | ENOTSOCK => 88 | ECANCELED => 125 | EOPNOTSUPP => 95
  | ESHUTDOWN => 108 | ETIMEDOUT => 110 | EAGAIN => 11
  end.

Inductive AsioError : Type :=
| access_denied | address_family_not_supported | address_in_use | already_connected | already_started | broken_pipe
| connection_aborted | connection_refused | connection_reset | bad_descriptor | fault | host_unreachable
| in_progress | interrupted | invalid_argument | message_size | name_too_long | network_down | network_reset
| network_unreachable | no_descriptors | no_buffer_space | no_memory | no_permission | no_protocol_option
| no_such_device | not_connected | not_socket | operation_aborted | operation_not_supported | shut_down | timed_out
| try_again.

Definition system_errors : list AsioError :=
  [ access_denied; address_family_not_supported; address_in_use; already_connected; already_started; broken_pipe;
  connection_aborted; connection_refused; connection_reset; bad_descriptor; fault; host_unreachable; in_progress;
  interrupted; invalid_argument; message_size; name_too_long; network_down; network_reset; network_unreachable;
  no_descriptors; no_buffer_space; no_memory; no_permission; no_protocol_option; no_such_device; not_connected;
  not_socket; operation_aborted; operation_not_supported; shut_down; timed_out; try_again ].

(** The cases of the switch, on Linux. *)
(* @ src/batteries/status.hpp 1143-1248 to_status *)
Definition system_case (e : AsioError) : Errno :=
  match e with
  | access_denied => EACCES | address_family_not_supported => EAFNOSUPPORT | address_in_use => EADDRINUSE
  | already_connected => EISCONN | already_started => EALREADY | broken_pipe => EPIPE
  | connection_aborted => ECONNABORTED | connection_refused => ECONNREFUSED | connection_reset => ECONNRESET
  | bad_descriptor => EBADF | fault => EFAULT | host_unreachable => EHOSTUNREACH | in_progress => EINPROGRESS
  | interrupted => EINTR | invalid_argument => EINVAL | message_size => EMSGSIZE | name_too_long => ENAMETOOLONG
  | network_down => ENETDOWN | network_reset => ENETRESET | network_unreachable => ENETUNREACH
  | no_descriptors => EMFILE | no_buffer_space => ENOBUFS | no_memory => ENOMEM | no_permission => EPERM
  | no_protocol_option => ENOPROTOOPT | no_such_device => ENODEV | not_connected => ENOTCONN | not_socket => ENOTSOCK
  | operation_aborted => ECANCELED | operation_not_supported => EOPNOTSUPP | shut_down => ESHUTDOWN
  | timed_out => ETIMEDOUT | try_again => EAGAIN
  end.

(** The values of asio's errors on Linux, as Boost documents them (an error is
    the error number of the system with the same meaning). *)
Definition asio_number (e : AsioError) : Z :=
  match e with
  | access_denied => 13 | address_family_not_supported => 97 | address_in_use => 98 | already_connected => 106
  | already_started => 114 | broken_pipe => 32 | connection_aborted => 103 | connection_refused => 111
  | connection_reset => 104 | bad_descriptor => 9 | fault => 14 | host_unreachable => 113 | in_progress => 115
  | interrupted => 4 | invalid_argument => 22 | message_size => 90 | name_too_long => 36 | network_down => 100
  | network_reset => 102 | network_unreachable => 101 | no_descriptors => 24 | no_buffer_space => 105
  | no_memory => 12 | no_permission => 1 | no_protocol_option => 92 | no_such_device => 19
  | not_connected => 107 | not_socket => 88 | operation_aborted => 125 | operation_not_supported => 95
  | shut_down => 108 | timed_out => 110 | try_again => 11
  end.

Lemma system_case_number (e : AsioError) : errno_value (system_case e) = asio_number e.
Proof. by destruct e. Qed.

(** The static data: the [result_] flags of [register_error_category], one per
    enumeration type, the registry of the status codes and the two levels of
    maps. *)
(* @ src/batteries/status.hpp 987-1017 thread_local_error_category_status_map, global_error_category_status_map *)
Record Maps : Type := mkMaps {
  results : gset nat;
  registry : Registry;
  global_cache_ : gmap nat (gmap Z Z);
  thread_caches_ : gmap nat (gmap nat (gmap Z Z)) }.

Definition thread_cache (thread : nat) (m : Maps) : gmap nat (gmap Z Z) := default ∅ (thread_caches_ m !! thread).

Definition set_thread_cache (thread : nat) (c : gmap nat (gmap Z Z)) (m : Maps) : Maps :=
  mkMaps (results m) (registry m) (global_cache_ m) (<[thread := c]> (thread_caches_ m)).

Section categories.
Context (message : nat -> Z -> string) (t_code t_errno : nat).

(* @ src/batteries/status.hpp 1045-1048 register_error_category *)
Fixpoint category_map (r : Registry) (t : nat) (codes : list Z) (m : gmap Z Z) : outcome (gmap Z Z) :=
  match codes with
  | [] => Done m
  | code :: rest => s ← status_of_enum r t code; category_map r t rest (emplace code s m)
  end.

(* @ src/batteries/status.hpp 1030-1059 register_error_category *)
Definition register_error_category (t category : nat) (codes : list Z) (m : Maps) : outcome Maps :=
  if bool_decide (t ∈ results m) then Done m
  else
    r ← register_codes_internal t ((fun c => (c, message category c)) <$> codes) (registry m);
    cm ← category_map r t codes ∅;
    Done (mkMaps ({[ t ]} ∪ results m) r (emplace category cm (global_cache_ m)) (thread_caches_ m)).

(** [locked]: this thread holds the mutex.  Locking it again is undefined. *)
(* @ src/batteries/status.hpp 1068-1100 status_from_error_category *)
Fixpoint status_from_error_category (fuel : nat) (locked : bool) (thread category : nat) (code : Z) (m : Maps) : cxx (Z * Maps) :=
  match fuel with
  | O => Undefined
  | S fuel =>
      match thread_cache thread m !! category ≫= (fun codes => codes !! code) with
      | Some s => Val (s, m)
      | None =>
          if locked then Undefined
          else
            match global_cache_ m !! category with
            | Some codes =>
                status_from_error_category fuel true thread category code
                  (set_thread_cache thread (emplace category codes (thread_cache thread m)) m)
            | None => s ← of_outcome (status_of_enum (registry m) t_code (StatusCode_to_Z kUnknown)); Val (s, m)
            end
      end
  end.

(** An [error_code] is a value and a category. *)
Record error_code : Type := mkErrorCode { value : Z; category : nat }.

(* @ src/batteries/status.hpp 1109-1112 status_from_error_code *)
Definition status_from_error_code (thread : nat) (ec : error_code) (m : Maps) : cxx (Z * Maps) :=
  status_from_error_category 2 false thread (category ec) (value ec) m.

(** *** [to_status] *)

Context (asio_value : AsioError -> Z) (system_category misc_category : nat) (eof not_found : Z).

Definition of_code (c : StatusCode) (m : Maps) : cxx (Z * Maps) :=
  s ← of_outcome (status_of_enum (registry m) t_code (StatusCode_to_Z c)); Val (s, m).

Definition of_errno (e : Z) (m : Maps) : cxx (Z * Maps) :=
  s ← of_outcome (status_from_errno (registry m) t_errno e); Val (s, m).

(* @ src/batteries/status.hpp 1125-1260 to_status *)
Definition to_status (thread : nat) (ec : error_code) (m : Maps) : cxx (Z * Maps) :=
  if value ec =? 0 then of_code kOk m
  else if (category ec =? misc_category)%nat then
    if value ec =? eof then of_code kEndOfStream m
    else if value ec =? not_found then of_code kNotFound m
    else status_from_error_code thread ec m
  else if (category ec =? system_category)%nat then
    match list_find (fun e => asio_value e = value ec) system_errors with
    | Some (_, e) => of_errno (errno_value (system_case e)) m
    | None => status_from_error_code thread ec m
    end
  else status_from_error_code thread ec m.

(** A [std::error_code]. *)
(* @ src/batteries/status.hpp 1114-1123 to_status *)
Definition to_status_std (v : Z) (m : Maps) : cxx (Z * Maps) := if v =? 0 then of_code kOk m else of_code kInternal m.

(* @ src/batteries/status.hpp 1314-1321 status_from_retval *)
Definition status_from_retval (errno retval : Z) (m : Maps) : cxx (Z * Maps) :=
  if 0 <=? retval then of_code kOk m else of_errno errno m.

(** ** The maps *)

Definition with_messages (cat : nat) (codes : list Z) : list (Z * string) := (fun c => (c, message cat c)) <$> codes.

(** What [register_error_category] asks for: an enumeration type that has not
    been registered in another way, room for another group, and codes that fit
    one. *)
Definition registrable (t cat : nat) (codes : list Z) (m : Maps) : Prop :=
  t ∈ results m \/
  (t ∉ exactly_once (registry m) /\ next_index (registry m) < kMaxGroupCount /\ codes_fit (with_messages cat codes)).

(** The states of a program that registers categories and converts error
    codes, in any order and in any threads. *)
Inductive Reachable (m0 : Maps) : Maps -> Prop :=
| reach_start : Reachable m0 m0
| reach_register t cat codes m m' :
    Reachable m0 m -> registrable t cat codes m -> register_error_category t cat codes m = Done m' -> Reachable m0 m'
| reach_convert thread ec m s m' : Reachable m0 m -> to_status thread ec m = Val (s, m') -> Reachable m0 m'.

(** Before [main]: the codes of the library have been registered. *)
Record start_ok (m : Maps) : Prop := {
  start_wf : registry_wf (registry m);
  start_codes : forall c, exists s, status_of_enum (registry m) t_code (StatusCode_to_Z c) = Done s /\ (ok s = true <-> c = kOk);
  start_errno : forall e, exists s, status_from_errno (registry m) t_errno (errno_value e) = Done s /\ ok s = false;
  start_caches : global_cache_ m = ∅ /\ thread_caches_ m = ∅ }.

Lemma register_keeps (t t' : nat) (codes : list (Z * string)) (r r' : Registry) (v s : Z) :
  registry_wf r -> t ∉ exactly_once r -> next_index r < kMaxGroupCount -> codes_fit codes ->
  register_codes_internal t codes r = Done r' ->
  (forall e, get_entry_from_code r s = Done e -> get_entry_from_code r' s = Done e) /\
  (status_of_enum r t' v = Done s -> status_of_enum r' t' v = Done s).
Proof.
  intros Hwf Ht Hlt Hfit Hr. rewrite register_spec in Hr by done. injection Hr as <-.
  assert (forall s e, get_entry_from_code r s = Done e ->
    get_entry_from_code (mkRegistry (next_index r + 1) ({[t]} ∪ exactly_once r) (<[t:=built_group (next_index r) codes]> (group_for_type r))
      (<[next_index r:=built_group (next_index r) codes]> (registered_groups r))) s = Done e) as Hget.
  { intros s0 e He. unfold get_entry_from_code in *. destruct (_ <? kMaxGroupCount); [|done]. cbn [check mbind outcome_bind registered_groups] in *.
    destruct (registered_groups r !! get_index_of_group s0) as [g|] eqn:E; [|done].
    destruct Hwf as (_ & Hreg & _). pose proof (Hreg _ (mk_is_Some _ _ E)). rewrite lookup_insert_ne by lia. by rewrite E. }
  split; [apply Hget|]. intros Hs. unfold status_of_enum in *. cbn [group_for_type] in *.
  assert (group_for_type r !! t = None) as Hnone.
  { destruct (group_for_type r !! t) eqn:E; [|done]. destruct Hwf as (_ & _ & Htyp & _). destruct Ht. apply Htyp. by rewrite E. }
  destruct (decide (t' = t)) as [->|Hne].
  { rewrite Hnone in Hs. simpl in Hs. destruct (0 <=? v); [|done]. simpl in Hs. by destruct (Z.to_nat (v - 0)). }
  rewrite lookup_insert_ne by done. destruct (min_enum_value _ <=? v); [|done]. simpl in *.
  destruct (enum_value_to_code _ !! _) as [c|]; [|done]. destruct (get_entry_from_code r c) as [e|] eqn:E; [|done].
  rewrite (Hget _ _ E). done.
Qed.

Lemma category_map_spec (r : Registry) (t : nat) (codes : list Z) (acc : gmap Z Z) (f : Z -> Z) :
  (forall c, c ∈ codes -> status_of_enum r t c = Done (f c)) ->
  exists cm, category_map r t codes acc = Done cm /\
    forall c, cm !! c = match acc !! c with Some s => Some s | None => if decide (c ∈ codes) then Some (f c) else None end.
Proof.
  revert acc. induction codes as [|c0 codes IH]; intros acc Hf; cbn [category_map].
  - exists acc. split; [done|]. intros c. rewrite decide_False by apply not_elem_of_nil. by destruct (acc !! c).
  - rewrite (Hf c0) by left. cbn [mbind outcome_bind]. destruct (IH (emplace c0 (f c0) acc)) as (cm & Hcm & Hl); [intros c Hc; apply Hf; by right|].
    exists cm. split; [done|]. intros c. rewrite Hl. destruct (decide (c = c0)) as [->|Hne].
    + rewrite lookup_emplace, decide_True by left. by destruct (acc !! c0).
    + rewrite lookup_emplace_ne by done. destruct (acc !! c); [done|]. destruct (decide (c ∈ codes)) as [Hin|Hin].
      * by rewrite decide_True by (by right).
      * rewrite decide_False; [done|]. by intros [?|?]%elem_of_cons.
Qed.

(** The statuses of a category carry its codes and messages; that of the code
    which was registered first is ok, no other one is. *)
Definition entries_ok (r : Registry) (cat : nat) (cm : gmap Z Z) : Prop :=
  exists first, forall c s, cm !! c = Some s ->
    get_entry_from_code r s = Done (mkEntry s c (message cat c)) /\ ok s = bool_decide (c = first).

Record Inv (m0 m : Maps) : Prop := {
  inv_wf : registry_wf (registry m);
  inv_keep : forall t v s, status_of_enum (registry m0) t v = Done s -> status_of_enum (registry m) t v = Done s;
  inv_global : forall cat cm, global_cache_ m !! cat = Some cm -> entries_ok (registry m) cat cm;
  inv_caches : forall thread cat cm, thread_cache thread m !! cat = Some cm -> global_cache_ m !! cat = Some cm }.

Lemma inv_start (m0 : Maps) : start_ok m0 -> Inv m0 m0.
Proof.
  intros [Hwf _ _ [Hg Hc]]. split; [done|done| |].
  - intros cat cm. by rewrite Hg.
  - intros thread cat cm. unfold thread_cache. by rewrite Hc, lookup_empty.
Qed.

Lemma with_messages_fst (cat : nat) (codes : list Z) : (with_messages cat codes).*1 = codes.
Proof. unfold with_messages. rewrite <- list_fmap_compose. apply list_fmap_id. Qed.

Lemma register_inv (m0 m : Maps) (t cat : nat) (codes : list Z) :
  Inv m0 m -> registrable t cat codes m ->
  exists m', register_error_category t cat codes m = Done m' /\ Inv m0 m' /\ t ∈ results m' /\
    (forall cat' cm, global_cache_ m !! cat' = Some cm -> global_cache_ m' !! cat' = Some cm) /\
    (t ∉ results m -> global_cache_ m !! cat = None -> exists cm, global_cache_ m' !! cat = Some cm /\
       forall c, c ∈ codes <-> is_Some (cm !! c)).
Proof.
  intros HI Hreg. unfold register_error_category. case_bool_decide as Ht; [by exists m|].
  destruct Hreg as [?|(Ht' & Hlt & Hfit)]; [done|]. pose proof (inv_wf _ _ HI) as Hwf.
  destruct (register_roundtrip t (with_messages cat codes) (registry m) Hwf Ht' Hlt Hfit) as (r & Hr & Hwf' & Hin & _).
  change ((fun c => (c, message cat c)) <$> codes) with (with_messages cat codes). rewrite Hr. cbn [mbind outcome_bind].
  assert (forall k c, codes !! k = Some c -> exists s, status_of_enum r t c = Done s /\
    get_entry_from_code r s = Done (mkEntry s c (message cat c)) /\ ok s = bool_decide (k = 0%nat)) as Hcodes.
  { intros k c Hk. apply (Hin k c (message cat c)). unfold with_messages. by rewrite list_lookup_fmap, Hk. }
  set (f := fun c => match status_of_enum r t c with Done s => s | Panic => 0 end).
  destruct (category_map_spec r t codes ∅ f) as (cm & Hcm & Hl).
  { intros c [k Hk]%list_elem_of_lookup_1. destruct (Hcodes k c Hk) as (s & Hs & _). unfold f. by rewrite Hs. }
  rewrite Hcm. cbn [mbind outcome_bind]. eexists. split; [done|].
  assert (entries_ok r cat cm) as Hentries.
  { exists (default 0 (codes !! 0%nat)). intros c s Hs. rewrite Hl, lookup_empty in Hs. destruct (decide (c ∈ codes)) as [Hc|]; [|done].
    apply list_elem_of_lookup_1 in Hc as [k Hk]. destruct (Hcodes k c Hk) as (s' & Hs' & He & Hok). simplify_eq. unfold f. rewrite Hs'. split; [done|].
    rewrite Hok. apply bool_decide_ext. split; [intros ->; by rewrite Hk|]. intros ->. destruct Hfit as (_ & _ & Hnd & _).
    rewrite with_messages_fst in Hnd. destruct (codes !! 0%nat) as [c0|] eqn:E0; [by eapply NoDup_lookup|].
    apply lookup_ge_None_1 in E0. apply lookup_lt_Some in Hk. lia. }
  pose proof (fun s => proj1 (register_keeps t t _ _ _ 0 s Hwf Ht' Hlt Hfit Hr)) as Hkeep.
  split_and!; [split; cbn [registry global_cache_]| set_solver | |].
  - done.
  - intros t' v s Hs. eapply register_keeps; [exact Hwf|done..|]. by apply (inv_keep _ _ HI).
  - intros cat' cm' Hcm'. destruct (decide (cat' = cat)) as [->|Hne].
    + rewrite lookup_emplace in Hcm'. injection Hcm' as <-. destruct (global_cache_ m !! cat) as [cm0|] eqn:E; [|done].
      destruct (inv_global _ _ HI cat cm0 E) as [first Hf]. exists first. intros c s Hs. destruct (Hf c s Hs). split; [by apply Hkeep|done].
    + rewrite lookup_emplace_ne in Hcm' by done. destruct (inv_global _ _ HI cat' cm' Hcm') as [first Hf]. exists first.
      intros c s Hs. destruct (Hf c s Hs). split; [by apply Hkeep|done].
  - intros thread cat' cm' H. apply (inv_caches _ _ HI) in H. destruct (decide (cat' = cat)) as [->|Hne].
    + by rewrite lookup_emplace, H.
    + by rewrite lookup_emplace_ne.
  - simpl. intros cat' cm' H. destruct (decide (cat' = cat)) as [->|Hne]; [by rewrite lookup_emplace, H|by rewrite lookup_emplace_ne].
  - simpl. intros _ Hnone. exists cm. split; [by rewrite lookup_emplace, Hnone|]. intros c. rewrite Hl, lookup_empty.
    by destruct (decide (c ∈ codes)); split.
Qed.

(** What a code converts to, without threads and caches; [None]: nothing, the
    behaviour is undefined. *)
Definition library_status (m0 : Maps) (c : StatusCode) : Z :=
  match status_of_enum (registry m0) t_code (StatusCode_to_Z c) with Done s => s | Panic => 0 end.

Definition errno_status (m0 : Maps) (e : Z) : Z :=
  match status_from_errno (registry m0) t_errno e with Done s => s | Panic => 0 end.

Definition category_status (m0 m : Maps) (ec : error_code) : option Z :=
  match global_cache_ m !! category ec with
  | Some codes => codes !! value ec
  | None => Some (library_status m0 kUnknown)
  end.

Definition expected (m0 m : Maps) (ec : error_code) : option Z :=
  if decide (value ec = 0) then Some (library_status m0 kOk)
  else if decide (category ec = misc_category /\ value ec = eof) then Some (library_status m0 kEndOfStream)
  else if decide (category ec = misc_category /\ value ec = not_found) then Some (library_status m0 kNotFound)
  else if decide (category ec = system_category /\ value ec ∈ asio_value <$> system_errors) then Some (errno_status m0 (value ec))
  else category_status m0 m ec.

Definition agrees (m0 m : Maps) (res : cxx (Z * Maps)) (e : option Z) : Prop :=
  match e with
  | Some s => exists m', res = Val (s, m') /\ Inv m0 m' /\ global_cache_ m' = global_cache_ m
  | None => res = Undefined
  end.

Lemma thread_cache_set (thread thread' : nat) (c : gmap nat (gmap Z Z)) (m : Maps) :
  thread_cache thread' (set_thread_cache thread c m) = if decide (thread' = thread) then c else thread_cache thread' m.
Proof.
  unfold thread_cache, set_thread_cache. simpl. destruct (decide (thread' = thread)) as [->|Hne].
  - by rewrite lookup_insert_eq.
  - by rewrite lookup_insert_ne.
Qed.

Lemma lookup_agrees (m0 m : Maps) (thread : nat) (ec : error_code) :
  start_ok m0 -> Inv m0 m -> agrees m0 m (status_from_error_code thread ec m) (category_status m0 m ec).
Proof.
  intros Hs HI. unfold status_from_error_code, category_status. cbn [status_from_error_category].
  destruct (thread_cache thread m !! category ec) as [cm|] eqn:Ec; cbn [mbind option_bind].
  - pose proof (inv_caches _ _ HI _ _ _ Ec) as Hg. rewrite Hg. destruct (cm !! value ec) as [s|] eqn:Ev; simpl; [by exists m|].
    by rewrite thread_cache_set, decide_True, lookup_emplace, Ec; simpl; rewrite ?Ev.
  - destruct (global_cache_ m !! category ec) as [cm|] eqn:Eg.
    + rewrite thread_cache_set, decide_True, lookup_emplace, Ec by done. simpl. destruct (cm !! value ec) as [s|] eqn:Ev; simpl; [|done].
      eexists. split_and!; [done| |done]. split; [apply HI|apply HI|apply HI|]. intros thread' cat' cm'. rewrite thread_cache_set.
      destruct (decide (thread' = thread)) as [->|]; [|apply HI]. destruct (decide (cat' = category ec)) as [->|Hne].
      * rewrite lookup_emplace, Ec. simpl. intros ?; by simplify_eq.
      * rewrite lookup_emplace_ne by done. apply HI.
    + destruct (start_codes _ Hs kUnknown) as (s & Hk & _). unfold library_status. rewrite Hk, (inv_keep _ _ HI _ _ _ Hk). by exists m.
Qed.

(** What is known of asio: the two categories differ, and its errors have the
    values documented for Linux. *)
Definition asio_linux : Prop := system_category <> misc_category /\ forall e, asio_value e = asio_number e.

Lemma system_errors_all (e : AsioError) : e ∈ system_errors.
Proof. destruct e; unfold system_errors; set_solver. Qed.

Lemma of_code_agrees (m0 m : Maps) (c : StatusCode) : start_ok m0 -> Inv m0 m -> agrees m0 m (of_code c m) (Some (library_status m0 c)).
Proof.
  intros Hs HI. destruct (start_codes _ Hs c) as (s & Hk & _). unfold of_code, library_status. rewrite Hk, (inv_keep _ _ HI _ _ _ Hk). by exists m.
Qed.

Lemma to_status_agrees (m0 m : Maps) (thread : nat) (ec : error_code) :
  asio_linux -> start_ok m0 -> Inv m0 m -> agrees m0 m (to_status thread ec m) (expected m0 m ec).
Proof.
  intros Ha Hs HI. unfold to_status, expected. pose proof (lookup_agrees m0 m thread ec Hs HI) as Hl.
  destruct (value ec =? 0) eqn:E0; bool_cases.
  { rewrite decide_True by done. by apply of_code_agrees. }
  rewrite decide_False by done. destruct Ha as [Hne Ha]. destruct (category ec =? misc_category)%nat eqn:Em.
  - apply Nat.eqb_eq in Em. rewrite Em in *. destruct (value ec =? eof) eqn:E1; bool_cases.
    { rewrite decide_True by done. by apply of_code_agrees. }
    rewrite decide_False by tauto. destruct (value ec =? not_found) eqn:E2; bool_cases.
    { rewrite decide_True by done. by apply of_code_agrees. }
    rewrite !decide_False; [done|naive_solver..].
  - apply Nat.eqb_neq in Em. rewrite !(decide_False (P := category ec = misc_category /\ _)) by tauto.
    destruct (category ec =? system_category)%nat eqn:Es.
    + apply Nat.eqb_eq in Es. destruct (list_find _ system_errors) as [[i e]|] eqn:Ef.
      * apply list_find_Some in Ef as (Hi & Hv & _). rewrite decide_True.
        2: { split; [done|]. apply list_elem_of_fmap. exists e. split; [done|]. by eapply list_elem_of_lookup_2. }
        rewrite <- Hv, Ha. unfold of_errno, errno_status. destruct (start_errno _ Hs (system_case e)) as (s & Hk & _). rewrite <- system_case_number, Hk.
        rewrite (inv_keep _ _ HI _ _ _ Hk : status_from_errno (registry m) t_errno _ = _). by exists m.
      * rewrite decide_False; [done|]. intros [_ (e & Hv & He)%list_elem_of_fmap]. apply list_find_None in Ef.
        rewrite list.Forall_forall in Ef. by eapply Ef.
    + apply Nat.eqb_neq in Es. rewrite decide_False by tauto. done.
Qed.

Lemma reachable_inv (m0 m : Maps) : asio_linux -> start_ok m0 -> Reachable m0 m -> Inv m0 m.
Proof.
  intros Ha Hs. induction 1 as [|t cat codes m m' _ IH Hreg Hr|thread ec m s m' _ IH Hr]; [by apply inv_start| |].
  - destruct (register_inv _ _ _ _ _ IH Hreg) as (m'' & Hr' & HI & _). assert (m' = m'') as -> by congruence. done.
  - pose proof (to_status_agrees m0 m thread ec Ha Hs IH) as H. unfold agrees in H. destruct (expected m0 m ec); [|congruence].
    destruct H as (m'' & E & HI & _). assert (m' = m'') as -> by congruence. done.
Qed.

(** C37: Whatever categories have been registered and whatever codes have been
    converted before in whatever threads, [to_status] gives the same status in
    every thread: ok for 0, the statuses of [eof] and [not_found], the status
    of the same error number for a system error that asio names (when asio's
    errors have the numbers documented for Linux, [asio_linux]), the status
    registered for a code of a registered category, which carries the code and
    its message and is ok only for the code registered first, and kUnknown for
    a category that is not registered.  For a code that is not one of its
    registered category the behaviour is undefined (the thread locks a mutex
    that it holds).  Registering a category makes its codes known. *)
Theorem to_status_correct (m0 m : Maps) :
  asio_linux -> start_ok m0 -> Reachable m0 m ->
  (forall thread ec,
     match expected m0 m ec with
     | Some s => exists m', to_status thread ec m = Val (s, m') /\ global_cache_ m' = global_cache_ m
     | None => to_status thread ec m = Undefined
     end) /\
  (forall cat cm, global_cache_ m !! cat = Some cm -> entries_ok (registry m) cat cm) /\
  (forall t cat codes, registrable t cat codes m -> exists m', register_error_category t cat codes m = Done m' /\
     (forall cat' cm, global_cache_ m !! cat' = Some cm -> global_cache_ m' !! cat' = Some cm) /\
     (t ∉ results m -> global_cache_ m !! cat = None -> exists cm, global_cache_ m' !! cat = Some cm /\
        forall c, c ∈ codes <-> is_Some (cm !! c))).
Proof.
  intros Ha Hs Hr. pose proof (reachable_inv _ _ Ha Hs Hr) as HI. split_and!.
  - intros thread ec. pose proof (to_status_agrees m0 m thread ec Ha Hs HI) as H. unfold agrees in H.
    destruct (expected m0 m ec); [|done]. destruct H as (m' & ? & _ & ?). by exists m'.
  - apply HI.
  - intros t cat codes Hreg. destruct (register_inv _ _ _ _ _ HI Hreg) as (m' & ? & _ & _ & ? & ?). by exists m'.
Qed.
End categories.

(** ** The registry of the library

    Whatever [strerror] returns: the group of the error numbers is full, with
    [kGroupSize] codes. *)
Definition errno_codes (strerror : Z -> option string) : list (Z * string) :=
  (fun c => (Z.of_nat c, default "(unknown)"%string (strerror (Z.of_nat c)))) <$> seq 0 (Z.to_nat kGroupSize).

Lemma errno_codes_lookup (strerror : Z -> option string) (v : Z) :
  0 <= v < 4096 -> errno_codes strerror !! Z.to_nat v = Some (v, default "(unknown)"%string (strerror v)).
Proof.
  intros Hv. unfold errno_codes. rewrite list_lookup_fmap, lookup_seq_lt by (change (Z.to_nat kGroupSize) with 4096%nat; lia).
  simpl. by rewrite Z2Nat.id by lia.
Qed.

Lemma errno_codes_fst (strerror : Z -> option string) (v : Z) : v ∈ (errno_codes strerror).*1 <-> 0 <= v < 4096.
Proof.
  split.
  - intros ([v' m] & -> & Hin)%list_elem_of_fmap. unfold errno_codes in Hin. apply list_elem_of_fmap in Hin as (k & E & Hk).
    apply elem_of_seq in Hk. change (Z.to_nat kGroupSize) with 4096%nat in Hk. simplify_eq/=. lia.
  - intros Hv. apply list_elem_of_fmap. eexists (v, _). split; [done|]. eapply list_elem_of_lookup_2, (errno_codes_lookup _ v Hv).
Qed.

Lemma full_codes_fit (codes : list (Z * string)) :
  length codes = 4096%nat -> NoDup codes.*1 -> (forall v, v ∈ codes.*1 <-> 0 <= v < 4096) -> codes_fit codes.
Proof.
  intros Hlen Hnd Hall. split_and!; [by intros ->|by rewrite Hlen|done| |].
  - intros v v' Hv%Hall Hv'%Hall. unfold kMaxCodeNumericRange. lia.
  - intros _ v Hv. apply Hall. destruct codes as [|[v0 m0] rest]; [done|]. unfold lowest, highest in Hv.
    assert (0 <= v0 < 4096) as H0 by (apply Hall; left).
    destruct (foldr_min_in v0 ((v0, m0) :: rest).*1) as [H1|H1]; destruct (foldr_max_in v0 ((v0, m0) :: rest).*1) as [H2|H2];
      try (apply Hall in H1); try (apply Hall in H2); lia.
Qed.

Lemma errno_codes_fit (strerror : Z -> option string) : codes_fit (errno_codes strerror).
Proof.
  apply full_codes_fit; [|unfold errno_codes; rewrite <- list_fmap_compose|apply errno_codes_fst].
  - unfold errno_codes. rewrite length_fmap, length_seq. reflexivity.
  - apply NoDup_fmap_2; [|apply NoDup_seq]. intros x y H. simpl in H. lia.
Qed.

Lemma library_code (c : StatusCode) : exists k m, library_codes !! k = Some (StatusCode_to_Z c, m) /\ (k = 0%nat <-> c = kOk).
Proof.
  destruct c;
    match goal with |- context [StatusCode_to_Z ?c] =>
      let k := eval vm_compute in (default 0%nat (fst <$> list_find (fun p => p.1 = StatusCode_to_Z c) library_codes)) in exists k end;
    eexists; (split; [reflexivity|done]).
Qed.

Lemma two_groups_ok (t_code t_errno : nat) (codes errnos : list (Z * string)) :
  t_code <> t_errno -> codes_fit codes -> codes_fit errnos ->
  (forall c, exists k m, codes !! k = Some (StatusCode_to_Z c, m) /\ (k = 0%nat <-> c = kOk)) ->
  (forall v, 0 <= v < 4096 -> exists m, errnos !! Z.to_nat v = Some (v, m)) ->
  exists r, (r1 ← register_codes_internal t_code codes initial_registry; register_codes_internal t_errno errnos r1) = Done r /\
    exactly_once r = {[ t_errno; t_code ]} /\ next_index r = 2 /\ start_ok t_code t_errno (mkMaps ∅ r ∅ ∅).
Proof.
  intros Hne Hfit1 Hfit2 Hcodes Herrnos.
  destruct (register_roundtrip t_code codes initial_registry initial_registry_wf (not_elem_of_empty _) eq_refl Hfit1)
    as (r1 & H1 & Hwf1 & Hin1 & _).
  destruct (register_preserves_wf t_code codes initial_registry r1 initial_registry_wf (not_elem_of_empty _) eq_refl Hfit1 H1)
    as (_ & Hn1 & He1). simpl in Hn1, He1.
  assert (t_errno ∉ exactly_once r1) as Ht by (rewrite He1; clear -Hne; set_solver).
  assert (next_index r1 < kMaxGroupCount) as Hlt by (rewrite Hn1; done).
  destruct (register_roundtrip t_errno errnos r1 Hwf1 Ht Hlt Hfit2) as (r2 & H2 & Hwf2 & Hin2 & _).
  destruct (register_preserves_wf t_errno _ r1 r2 Hwf1 Ht Hlt Hfit2 H2) as (_ & Hn2 & He2).
  exists r2. rewrite H1. split_and!; [exact H2|rewrite He2, He1; clear; set_solver|lia|].
  split; [done| | |done].
  - intros c. destruct (Hcodes c) as (k & m & Hk & Hk0). destruct (Hin1 k _ _ Hk) as (s & Hs & _ & Hok).
    exists s. split; [by eapply (register_keeps t_errno t_code _ r1 r2)|]. rewrite Hok. by rewrite bool_decide_eq_true.
  - intros e. assert (0 < errno_value e < 4096) as Hv by (destruct e; simpl; lia).
    destruct (Herrnos (errno_value e) ltac:(lia)) as [m Hm]. destruct (Hin2 _ _ _ Hm) as (s & Hs & _ & Hok).
    exists s. split; [exact Hs|]. rewrite Hok. apply bool_decide_eq_false. lia.
Qed.

Lemma status_base_ok (strerror : Z -> option string) (t_code t_errno : nat) :
  t_code <> t_errno ->
  exists r, status_base strerror t_code t_errno initial_registry = Done r /\
    exactly_once r = {[ t_errno; t_code ]} /\ next_index r = 2 /\ start_ok t_code t_errno (mkMaps ∅ r ∅ ∅).
Proof.
  intros Hne. apply (two_groups_ok t_code t_errno library_codes (errno_codes strerror) Hne library_codes_fit (errno_codes_fit strerror) library_code).
  intros v Hv. eexists. apply (errno_codes_lookup strerror v Hv).
Qed.

(** ** Examples *)

Definition sample_message (cat : nat) (c : Z) : string := if c =? 5 then "five" else "nine".

Definition sample_asio (e : AsioError) : Z := asio_number e.

(** A category 7 with the codes 5 and 9. *)
Lemma to_status_correct_witness :
  exists m0 m cm, start_ok 0 1 m0 /\ global_cache_ m !! 7%nat = Some cm /\ is_Some (cm !! 9) /\
    exists s m', to_status 0 1 sample_asio 0 1 2 3 4 (mkErrorCode 9 7) m = Val (s, m') /\ cm !! 9 = Some s.
Proof.
  destruct (status_base_ok (fun _ => None) 0 1 ltac:(done)) as (r & _ & He & Hn & Hs). set (m0 := mkMaps ∅ r ∅ ∅) in *.
  assert (asio_linux sample_asio 0 1) as Ha by (split; done).
  assert (registrable sample_message 2 7 [5; 9] m0) as Hreg.
  { right. simpl. rewrite He, Hn. split_and!; [clear; set_solver|done|by apply codes_fitb_spec]. }
  destruct (to_status_correct sample_message 0 1 sample_asio 0 1 2 3 m0 m0 Ha Hs (reach_start _ _ _ _ _ _ _ _ _)) as (_ & _ & Hr).
  destruct (Hr 2%nat 7%nat [5; 9] Hreg) as (m & Hm & _ & Hknown). destruct (Hknown (not_elem_of_empty _) eq_refl) as (cm & Hcm & Hc).
  destruct (proj1 (Hc 9) ltac:(set_solver)) as [s Hs9].
  assert (Reachable sample_message 0 1 sample_asio 0 1 2 3 m0 m) as Hreach by (eapply reach_register; [apply reach_start|exact Hreg|exact Hm]).
  destruct (to_status_correct sample_message 0 1 sample_asio 0 1 2 3 m0 m Ha Hs Hreach) as (Hto & _).
  specialize (Hto 4%nat (mkErrorCode 9 7)). unfold expected, category_status in Hto. simpl in Hto. rewrite Hcm, Hs9 in Hto.
  destruct Hto as (m' & Hto & _). exists m0, m, cm. split; [exact Hs|]. split; [exact Hcm|]. split; [by exists s|]. by exists s, m'.
Defined.

(** A registry that knows only the codes of the library, and category 7. *)
Definition sample_maps : outcome Maps :=
  r ← register_codes_internal 0 library_codes initial_registry;
  register_error_category sample_message 2 7 [5; 9] (mkMaps ∅ r ∅ ∅).

Definition convert (ec : error_code) : option (cxx Z) :=
  match sample_maps with
  | Done m => Some (match status_from_error_code 0 4 ec m with Val (s, _) => Val s | Panics => Panics | Undefined => Undefined end)
  | Panic => None
  end.

(** The code that was registered first is ok, whatever its value is; a code
    that was not registered does not give kUnknown, as the comment of the
    function says: the thread looks for the category again with the mutex
    locked, does not find the code, and locks the mutex again. *)
Example categories :
  convert (mkErrorCode 5 7) = Some (Val 4096) /\ ok 4096 = true /\ convert (mkErrorCode 9 7) = Some (Val 4097) /\
  convert (mkErrorCode 6 7) = Some Undefined /\ convert (mkErrorCode 6 8) = Some (Val 2).
Proof. vm_compute. done. Qed.

(** A second category with the same type of codes is not registered, and the
    caller is told that it is. *)
Example same_type_twice :
  match sample_maps with
  | Done m => register_error_category sample_message 2 8 [5; 9] m = Done m
  | Panic => False
  end.
Proof. vm_compute. done. Qed.

(** ** Comparison of StatusOr objects

    An error compares by its status, a value by its value, and the two are
    never equal. *)
Section compare.
Context {A : Type} (eqb : A -> A -> bool).

(* @ src/batteries/status.hpp 785-798 operator== *)
Definition status_or_eqb (l r : Z + A) : bool :=
  match l, r with
  | inr x, inr y => eqb x y
  | inl s, inl t => status_eqb s t
  | _, _ => false
  end.

(* @ src/batteries/status.hpp 800-804 operator!= *)
Definition status_or_neqb (l r : Z + A) : bool := negb (status_or_eqb l r).

Lemma status_or_eqb_equivalence :
  Equivalence (fun x y => eqb x y = true) -> Equivalence (fun l r => status_or_eqb l r = true).
Proof.
  assert (forall s t, status_eqb s t = true <-> s = t \/ ok s = true /\ ok t = true) as Hs.
  { intros s t. unfold status_eqb. rewrite orb_true_iff, andb_true_iff, Z.eqb_eq. done. }
  intros [Hr Hsy Ht]. split.
  - intros [s|x]; simpl; [|apply Hr]. apply Hs. by left.
  - intros [s|x] [t|y]; simpl; try done; [|apply Hsy]. rewrite !Hs. naive_solver.
  - intros [s|x] [t|y] [u|z]; simpl; try done; [|apply Ht]. rewrite !Hs. naive_solver.
Qed.
End compare.

(* @ src/batteries/status.hpp 1323-1329 ok_result_or_panic *)
Definition ok_result_or_panic {A} (result : Z + A) : outcome A :=
  match result with inr x => Done x | inl _ => Panic end.
