(* ===== verification/Handler.v ===== *)
(** * Handlers and their memory

    [async/handler.hpp].  A handler is a function object in a block of memory,
    which comes from the allocator associated with the function: the heap, or
    a [HandlerMemory] that is given out to one handler at a time.  A handler
    moves its function out of the block and frees the block before it calls
    the function, so that the function can register new handlers in the same
    memory.  A function is what it does here: it is called, and it pushes
    other handlers on the list. *)

From S2P Require Import Prelude Lifetime.
Open Scope nat_scope.

(** [Memory i]: the storage of the [i]-th [HandlerMemory]. *)
Inductive Ptr : Type := Heap (b : nat) | Memory (i : nat).

#[export] Instance ptr_eq_dec : EqDecision Ptr.
Proof. solve_decision. Defined.

(** A function object: a name, its associated memory if it has one, the size
    of a handler for it, and the functions of the handlers that it pushes. *)
Inductive Fn : Type := mkFn { name : nat; memory : option nat; size : nat; pushes : list Fn }.

(* @ src/batteries/async/handler.hpp 321-323 HandlerMemory *)
Record HandlerMemory : Type := mkMemory { capacity : nat; in_use_ : bool }.

(** [heap]: the blocks in use; [called]: the names of the functions that have
    been called, in order. *)
Record World : Type := mkWorld { memories : list HandlerMemory; heap : gset nat; called : list nat }.

(* @ src/batteries/async/handler.hpp 143-143 HandlerImpl *)
Record Handler : Type := mkHandler { ptr : Ptr; fn_ : Fn }.

Definition operator_new (w : World) : Ptr * World :=
  let b := fresh (heap w) in (Heap b, mkWorld (memories w) ({[b]} ∪ heap w) (called w)).

Definition operator_delete (p : Ptr) (w : World) : cxx World :=
  match p with
  | Heap b => if decide (b ∈ heap w) then Val (mkWorld (memories w) (heap w ∖ {[b]}) (called w)) else Undefined
  | Memory _ => Undefined
  end.

Definition set_in_use (i : nat) (m : HandlerMemory) (used : bool) (w : World) : World :=
  mkWorld (<[i := mkMemory (capacity m) used]> (memories w)) (heap w) (called w).

(* @ src/batteries/async/handler.hpp 301-309 HandlerMemory::allocate *)
Definition memory_allocate (i size : nat) (w : World) : cxx (Ptr * World) :=
  match memories w !! i with
  | Some m =>
      if negb (in_use_ m) && (size <? capacity m) then Val (Memory i, set_in_use i m true w) else Val (operator_new w)
  | None => Undefined
  end.

(* @ src/batteries/async/handler.hpp 311-318 HandlerMemory::deallocate *)
Definition memory_deallocate (i : nat) (p : Ptr) (w : World) : cxx World :=
  match memories w !! i with
  | Some m => if decide (p = Memory i) then Val (set_in_use i m false w) else operator_delete p w
  | None => Undefined
  end.

(** The allocator associated with a function. *)
(* @ src/batteries/async/handler.hpp 355-358 HandlerAllocator::allocate *)
Definition allocate (f : Fn) (w : World) : cxx (Ptr * World) :=
  match memory f with Some i => memory_allocate i (size f) w | None => Val (operator_new w) end.

(* @ src/batteries/async/handler.hpp 360-363 HandlerAllocator::deallocate *)
Definition deallocate (f : Fn) (p : Ptr) (w : World) : cxx World :=
  match memory f with Some i => memory_deallocate i p w | None => operator_delete p w end.

(* @ src/batteries/async/handler.hpp 87-93 HandlerImpl::make_new *)
Definition make_new (f : Fn) (w : World) : cxx (Handler * World) :=
  '(p, w) ← allocate f w; Val (mkHandler p f, w).

(** The function is moved out, the block is freed, and only then [fn_action]
    runs. *)
(* @ src/batteries/async/handler.hpp 132-141 HandlerImpl::consume_impl *)
Definition consume_impl {A} (h : Handler) (fn_action : Fn -> World -> cxx A) (w : World) : cxx A :=
  w ← deallocate (fn_ h) (ptr h) w; fn_action (fn_ h) w.

(* @ src/batteries/async/handler.hpp 116-119 HandlerImpl::destroy *)
Definition destroy_handler (h : Handler) (w : World) : cxx World := consume_impl h (fun _ w => Val w) w.

(* @ src/batteries/async/handler.hpp 205-209 push_handler *)
Definition push_handler (handlers : list Handler) (f : Fn) (w : World) : cxx (list Handler * World) :=
  '(h, w) ← make_new f w; Val (handlers ++ [h], w).

Fixpoint push_all (handlers : list Handler) (fs : list Fn) (w : World) : cxx (list Handler * World) :=
  match fs with [] => Val (handlers, w) | f :: fs => '(handlers, w) ← push_handler handlers f w; push_all handlers fs w end.

(** What a function does when it is called while the list is [handlers]. *)
Definition call (handlers : list Handler) (f : Fn) (w : World) : cxx (list Handler * World) :=
  push_all handlers (pushes f) (mkWorld (memories w) (heap w) (called w ++ [name f])).

(* @ src/batteries/async/handler.hpp 109-114 HandlerImpl::notify *)
Definition notify (handlers : list Handler) (h : Handler) (w : World) : cxx (list Handler * World) :=
  consume_impl h (call handlers) w.

(** The loop ends when the list is empty: [None] when the fuel is used up. *)
(* @ src/batteries/async/handler.hpp 211-219 invoke_all_handlers *)
Fixpoint invoke_all_handlers (fuel : nat) (handlers : list Handler) (w : World) : option (cxx World) :=
  match fuel, handlers with
  | _, [] => Some (Val w)
  | O, _ => None
  | S fuel, l :: handlers =>
      match notify handlers l w with
      | Val (handlers, w) => invoke_all_handlers fuel handlers w
      | Panics => Some Panics
      | Undefined => Some Undefined
      end
  end.

(** ** [UniqueHandler] *)
(** [std::unique_ptr] to a handler. *)
Abbreviation UniqueHandler := (option Handler).

(* @ src/batteries/async/handler.hpp 176-182 UniqueHandler::operator() *)
Definition unique_call (handlers : list Handler) (u : UniqueHandler) (w : World) : cxx (UniqueHandler * (list Handler * World)) :=
  match u with Some h => r ← notify handlers h w; Val (None, r) | None => Val (None, (handlers, w)) end.

(* @ src/batteries/async/handler.hpp 28-35 AbstractHandler::Deleter *)
Definition unique_destroy (u : UniqueHandler) (w : World) : cxx World :=
  match u with Some h => destroy_handler h w | None => Val w end.

(** ** Blocks and handlers *)

(** The blocks of the handlers of [handlers] are different and are the ones that are
    in use. *)
Record owns (handlers : list Handler) (w : World) : Prop := {
  owns_distinct : NoDup (ptr <$> handlers);
  owns_heap : forall b, b ∈ heap w <-> Heap b ∈ ptr <$> handlers;
  owns_memory : forall i m, memories w !! i = Some m -> in_use_ m = true <-> Memory i ∈ ptr <$> handlers;
  owns_valid : forall h, h ∈ handlers -> match ptr h with Heap _ => True | Memory i => memory (fn_ h) = Some i end;
  owns_exists : forall h i, h ∈ handlers -> memory (fn_ h) = Some i -> i < length (memories w) }.

(** Memories of the given sizes, none of them in use. *)
Definition initial_world (capacities : list nat) : World := mkWorld ((fun c => mkMemory c false) <$> capacities) ∅ [].

(** The memory that a function and those it pushes refer to exists. *)
Fixpoint fn_ok (n : nat) (f : Fn) : bool :=
  match memory f with Some i => i <? n | None => true end && forallb (fn_ok n) (pushes f).

Lemma fn_ok_split (n : nat) (f : Fn) :
  fn_ok n f = true -> (forall i, memory f = Some i -> i < n) /\ Forall (fun g => fn_ok n g = true) (pushes f).
Proof.
  destruct f as [name mem size fs]. simpl. rewrite andb_true_iff, forallb_forall, list.Forall_forall. intros [Hm Hf]. split.
  - intros i ->. by apply Nat.ltb_lt.
  - intros g Hg. by apply Hf, list_elem_of_In.
Qed.

Lemma operator_new_owns (handlers : list Handler) (f : Fn) (w : World) :
  owns handlers w -> (forall i, memory f = Some i -> i < length (memories w)) ->
  owns (handlers ++ [mkHandler (operator_new w).1 f]) (operator_new w).2.
Proof.
  intros [H1 H2 H3 H4 H5] Hf. pose proof (is_fresh (heap w)) as Hfresh. unfold operator_new. simpl. split; simpl; rewrite ?fmap_app; simpl.
  - apply list.NoDup_app. split_and!; [done| |apply NoDup_singleton].
    intros p Hp ->%list_elem_of_singleton. by apply H2 in Hp.
  - intros b. rewrite elem_of_union, elem_of_singleton, elem_of_app, list_elem_of_singleton, H2. naive_solver.
  - intros i m Hi. rewrite elem_of_app, list_elem_of_singleton, (H3 i m Hi). naive_solver.
  - intros h [Hh| ->%list_elem_of_singleton]%elem_of_app; [by apply H4|done].
  - intros h i [Hh| ->%list_elem_of_singleton]%elem_of_app; [by apply H5|apply Hf].
Qed.

Lemma make_new_owns (handlers : list Handler) (f : Fn) (w : World) :
  owns handlers w -> (forall i, memory f = Some i -> i < length (memories w)) ->
  exists h w', make_new f w = Val (h, w') /\ owns (handlers ++ [h]) w' /\ fn_ h = f /\ called w' = called w /\
    length (memories w') = length (memories w).
Proof.
  intros Ho Hf. pose proof (operator_new_owns handlers f w Ho Hf) as Hnew. unfold make_new, allocate.
  assert (exists h w', ('(p, w) ← Val (operator_new w); Val (mkHandler p f, w)) = Val (h, w') /\ owns (handlers ++ [h]) w' /\ fn_ h = f /\
            called w' = called w /\ length (memories w') = length (memories w)) as Hheap.
  { do 2 eexists. split; [reflexivity|]. by split_and!. }
  destruct (memory f) as [i|] eqn:Em; [|done].
  unfold memory_allocate. destruct (lookup_lt_is_Some_2 (memories w) i) as [m Hm]; [by apply Hf|]. rewrite Hm.
  destruct (negb (in_use_ m) && _) eqn:E; [|done].
  apply andb_true_iff in E as [E _]. apply negb_true_iff in E. destruct Ho as [H1 H2 H3 H4 H5].
  do 2 eexists. split; [reflexivity|]. split_and!; [|done|done|apply length_insert]. split; simpl; rewrite ?fmap_app; simpl.
  - apply list.NoDup_app. split_and!; [done| |apply NoDup_singleton].
    intros p Hp ->%list_elem_of_singleton. apply (H3 i m Hm) in Hp. congruence.
  - intros b. rewrite elem_of_app, list_elem_of_singleton, H2. naive_solver.
  - intros j m' Hj. rewrite elem_of_app, list_elem_of_singleton.
    destruct (list_insert_cases _ _ _ _ _ _ Hm Hj) as [[-> ->]|[Hne Hj']]; [naive_solver|]. rewrite (H3 j m' Hj'). naive_solver.
  - intros h [Hh| ->%list_elem_of_singleton]%elem_of_app; [by apply H4|done].
  - rewrite length_insert. intros h j [Hh| ->%list_elem_of_singleton]%elem_of_app; [by apply H5|]. simpl. rewrite Em. apply Hf.
Qed.

Lemma deallocate_owns (handlers : list Handler) (h : Handler) (w : World) :
  owns (h :: handlers) w ->
  exists w', deallocate (fn_ h) (ptr h) w = Val w' /\ owns handlers w' /\ called w' = called w /\ length (memories w') = length (memories w).
Proof.
  intros [H1 H2 H3 H4 H5]. rewrite fmap_cons in *. apply list.NoDup_cons in H1 as [H0 H1].
  assert (forall b, ptr h = Heap b -> exists w', operator_delete (Heap b) w = Val w' /\ owns handlers w' /\ called w' = called w /\
            length (memories w') = length (memories w)) as Hheap.
  { intros b Ep. simpl. rewrite decide_True by (apply H2; rewrite Ep; apply list_elem_of_here). eexists. split; [reflexivity|].
    split_and!; [|done|done]. split; simpl.
    - done.
    - intros b'. rewrite elem_of_difference, elem_of_singleton, H2, elem_of_cons, Ep. split; [naive_solver|].
      intros Hb. split; [by right|]. intros ->. by rewrite Ep in H0.
    - intros i m Hi. rewrite (H3 i m Hi), elem_of_cons, Ep. naive_solver.
    - intros h' Hh. apply H4. by right.
    - intros h' i Hh. apply H5. by right. }
  pose proof (H4 h ltac:(apply list_elem_of_here)) as Hv. unfold deallocate. destruct (ptr h) as [b|i] eqn:Ep.
  - destruct (memory (fn_ h)) as [i|] eqn:Em; [|by apply Hheap]. unfold memory_deallocate.
    destruct (lookup_lt_is_Some_2 (memories w) i) as [m Hm]; [by apply (H5 h); [apply list_elem_of_here|]|]. rewrite Hm.
    rewrite decide_False by done. by apply Hheap.
  - rewrite Hv. unfold memory_deallocate. destruct (lookup_lt_is_Some_2 (memories w) i) as [m Hm].
    { apply (H5 h); [apply list_elem_of_here|done]. }
    rewrite Hm, decide_True by done. eexists. split; [reflexivity|]. split_and!; [|done|apply length_insert]. split; simpl.
    + done.
    + intros b. rewrite H2, elem_of_cons. naive_solver.
    + intros j m' Hj. destruct (list_insert_cases _ _ _ _ _ _ Hm Hj) as [[-> ->]|[Hne Hj']]; [naive_solver|].
      rewrite (H3 j m' Hj'), elem_of_cons. naive_solver.
    + intros h' Hh. apply H4. by right.
    + rewrite length_insert. intros h' j Hh. apply H5. by right.
Qed.

(** ** Every function is called once *)

Fixpoint fn_size (f : Fn) : nat := S (list_sum (fn_size <$> pushes f)).

Definition total (fs : list Fn) : nat := list_sum (fn_size <$> fs).

Fixpoint fn_names (f : Fn) : list nat := name f :: concat (fn_names <$> pushes f).

Definition all_names (fs : list Fn) : list nat := concat (fn_names <$> fs).

(** First come, first served. *)
Fixpoint call_order (fuel : nat) (queue : list Fn) : list nat :=
  match fuel, queue with
  | S fuel, f :: queue => name f :: call_order fuel (queue ++ pushes f)
  | _, _ => []
  end.

Lemma total_app (fs gs : list Fn) : total (fs ++ gs) = total fs + total gs.
Proof. unfold total. by rewrite fmap_app, list_sum_app. Qed.

Lemma total_cons (f : Fn) (fs : list Fn) : total (f :: fs) = S (total (pushes f) + total fs).
Proof. by destruct f. Qed.

Lemma call_order_all (fuel : nat) (queue : list Fn) : total queue <= fuel -> call_order fuel queue ≡ₚ all_names queue.
Proof.
  revert queue. induction fuel as [|fuel IH]; intros [|f queue] H; try done; rewrite total_cons in H; [lia|]. simpl.
  rewrite IH by (rewrite total_app; lia). unfold all_names. rewrite fmap_app, concat_app, fmap_cons. simpl. destruct f as [n m s fs]. simpl.
  by rewrite Permutation_app_comm.
Qed.

Lemma push_all_owns (fs : list Fn) (handlers : list Handler) (w : World) (n : nat) :
  owns handlers w -> length (memories w) = n -> Forall (fun g => fn_ok n g = true) fs ->
  exists hs w', push_all handlers fs w = Val (handlers ++ hs, w') /\ owns (handlers ++ hs) w' /\ fn_ <$> hs = fs /\
    called w' = called w /\ length (memories w') = n.
Proof.
  intros Ho Hn Hf. revert handlers w Ho Hn. induction Hf as [|f fs Hf Hfs IH]; intros handlers w Ho Hn; simpl.
  - exists [], w. by rewrite app_nil_r.
  - unfold push_handler. destruct (fn_ok_split n f Hf) as [Hm _].
    destruct (make_new_owns handlers f w Ho) as (h & w' & -> & Ho' & Eh & Ec & El); [by rewrite Hn|]. simpl.
    destruct (IH (handlers ++ [h]) w' Ho' ltac:(lia)) as (hs & w2 & -> & Ho2 & E2 & Ec2 & El2).
    exists (h :: hs), w2. rewrite <- app_assoc in *. split_and!; [done|done|by rewrite fmap_cons, Eh, E2|congruence|done].
Qed.

Lemma invoke_all_owns (fuel : nat) (handlers : list Handler) (w : World) (n : nat) :
  owns handlers w -> length (memories w) = n -> Forall (fun h => fn_ok n (fn_ h) = true) handlers -> total (fn_ <$> handlers) <= fuel ->
  exists w', invoke_all_handlers fuel handlers w = Some (Val w') /\ owns [] w' /\
    called w' = called w ++ call_order fuel (fn_ <$> handlers).
Proof.
  revert handlers w. induction fuel as [|fuel IH]; intros [|h handlers] w Ho Hn Hf Ht.
  1,3: exists w; by rewrite app_nil_r.
  { rewrite fmap_cons, total_cons in Ht. lia. }
  rewrite fmap_cons, total_cons in Ht. apply Forall_cons_iff in Hf as [Hf Hfs]. destruct (fn_ok_split n _ Hf) as [_ Hp].
  cbn [invoke_all_handlers]. unfold notify, consume_impl, call.
  destruct (deallocate_owns handlers h w Ho) as (w' & -> & Ho' & Ec & El). cbn [mbind cxx_bind].
  destruct (push_all_owns (pushes (fn_ h)) handlers (mkWorld (memories w') (heap w') (called w' ++ [name (fn_ h)])) n) as (hs & w2 & -> & Ho2 & E2 & Ec2 & El2).
  { by destruct Ho'. }
  { simpl. lia. }
  { done. }
  destruct (IH (handlers ++ hs) w2 Ho2 El2) as (w3 & -> & Ho3 & Ec3).
  { apply Forall_app. split; [done|]. rewrite <- E2, Forall_fmap in Hp. done. }
  { rewrite fmap_app, total_app, E2. lia. }
  exists w3. split_and!; [done|done|]. rewrite Ec3, Ec2, Ec, fmap_app, E2. simpl. by rewrite <- app_assoc.
Qed.

(** C26: handlers that are pushed on a list and invoked, in any memory: handlers
    may share a [HandlerMemory], functions may push other handlers in the
    memory they came from, and everything stays defined: no block is freed
    twice or used by two handlers.  Every function is called exactly once,
    first come first served, and afterwards no block is in use. *)
Theorem handlers_called_once (capacities : list nat) (fs : list Fn) :
  let w := initial_world capacities in
  Forall (fun f => fn_ok (length capacities) f = true) fs ->
  exists hs w1 w2, push_all [] fs w = Val (hs, w1) /\ invoke_all_handlers (total fs) hs w1 = Some (Val w2) /\
    called w2 = call_order (total fs) fs /\ called w2 ≡ₚ all_names fs /\
    heap w2 = ∅ /\ forall i m, memories w2 !! i = Some m -> in_use_ m = false.
Proof.
  intros w Hf. assert (owns [] w) as Ho.
  { split; simpl.
    - constructor.
    - intros b. set_solver.
    - intros i m (c & -> & _)%list_lookup_fmap_Some. simpl. split; [done|by intros ?%elem_of_nil].
    - by intros h ?%elem_of_nil.
    - by intros h i ?%elem_of_nil. }
  destruct (push_all_owns fs [] w (length capacities) Ho) as (hs & w1 & E1 & Ho1 & Ef & Ec1 & El1); [apply length_fmap|done|].
  simpl in E1, Ho1. destruct (invoke_all_owns (total fs) hs w1 (length capacities) Ho1 El1) as (w2 & E2 & Ho2 & Ec2).
  { rewrite <- Ef, Forall_fmap in Hf. done. }
  { by rewrite Ef. }
  rewrite Ef, Ec1 in Ec2. exists hs, w1, w2. split_and!; [done|done|done|rewrite Ec2; by apply call_order_all| |].
  - apply set_eq. intros b. rewrite (owns_heap _ _ Ho2). simpl. set_solver.
  - intros i m Hm. pose proof (owns_memory _ _ Ho2 i m Hm) as H. simpl in H. destruct (in_use_ m); [|done].
    exfalso. apply (not_elem_of_nil (Memory i)). by apply H.
Qed.

(** Two functions share a memory; the first pushes another one in it, which
    finds it free again; the last is too large. *)
Definition sample_fns : list Fn := [mkFn 1 (Some 0) 10 [mkFn 4 (Some 0) 20 []]; mkFn 2 (Some 0) 10 []; mkFn 3 (Some 1) 100 []].

Lemma handlers_called_once_witness :
  exists hs w1 w2, push_all [] sample_fns (initial_world [64; 64]) = Val (hs, w1) /\
    invoke_all_handlers 4 hs w1 = Some (Val w2) /\ called w2 = [1; 2; 3; 4] /\ heap w2 = ∅.
Proof.
  destruct (handlers_called_once [64; 64] sample_fns) as (hs & w1 & w2 & H1 & H2 & H3 & _ & H4 & _).
  - repeat constructor.
  - exists hs, w1, w2. split_and!; [exact H1|exact H2|exact H3|exact H4].
Defined.

Example shared_memory :
  ('(hs, _) ← push_all [] sample_fns (initial_world [64; 64]); Val (List.map ptr hs)) = Val [Memory 0; Heap 0; Heap 1].
Proof. vm_compute. reflexivity. Qed.

(** A handler that needs all of the memory goes to the heap. *)
Example exact_fit : ('(h, _) ← make_new (mkFn 1 (Some 0) 64 []) (initial_world [64]); Val (ptr h)) = Val (Heap 0).
Proof. vm_compute. reflexivity. Qed.

(** A [UniqueHandler] calls its function once, and one that goes away without
    a call frees its memory. *)
Lemma unique_call_once (handlers : list Handler) (h : Handler) (w : World) :
  owns (h :: handlers) w -> Forall (fun g => fn_ok (length (memories w)) g = true) (pushes (fn_ h)) ->
  (exists hs w', unique_call handlers (Some h) w = Val (None, (handlers ++ hs, w')) /\
    owns (handlers ++ hs) w' /\ fn_ <$> hs = pushes (fn_ h) /\ called w' = called w ++ [name (fn_ h)] /\
    unique_call (handlers ++ hs) None w' = Val (None, (handlers ++ hs, w'))) /\
  exists w', unique_destroy (Some h) w = Val w' /\ owns handlers w' /\ called w' = called w.
Proof.
  intros Ho Hp. destruct (deallocate_owns handlers h w Ho) as (w' & E & Ho' & Ec & El).
  unfold unique_call, notify, unique_destroy, destroy_handler, consume_impl, call. rewrite E. cbn [mbind cxx_bind]. split.
  - destruct (push_all_owns (pushes (fn_ h)) handlers (mkWorld (memories w') (heap w') (called w' ++ [name (fn_ h)])) (length (memories w)))
      as (hs & w2 & -> & Ho2 & E2 & Ec2 & El2); [by destruct Ho'|simpl; lia|done|].
    exists hs, w2. split_and!; [done|done|done|by rewrite Ec2, <- Ec|done].
  - by exists w'.
Qed.
