(* ===== verification/IntMath.v ===== *)
(** * Integer arithmetic and checked conversions

    [math.hpp] and [checked_cast.hpp].  An integer type is its width and its
    signedness; the shifts below are by less than the width, where C++ defines
    them. *)

From S2P Require Import Prelude.
Open Scope Z_scope.

(** ** [math.hpp] *)

(** [__builtin_clzll], for an argument that is not 0. *)
Definition clzll (i : Z) : Z := 63 - Z.log2 i.

(* @ src/batteries/math.hpp 15-18 log2_ceil *)
Definition log2_ceil (i : Z) : Z := if i <=? 1 then 0 else 64 - clzll (i - 1).

(* @ src/batteries/math.hpp 19-22 log2_floor *)
Definition log2_floor (i : Z) : Z := if i =? 0 then 0 else 63 - clzll i.

(** [w]: the width of [IntT], an unsigned type. *)
(* @ src/batteries/math.hpp 28-32 lsb_mask *)
Definition lsb_mask (w bits : Z) : Z := uwrap w (uwrap w (Z.shiftl 1 bits) - 1).

(* @ src/batteries/math.hpp 38-42 round_down_bits *)
Definition round_down_bits (w bits n : Z) : Z := Z.land n (uwrap w (Z.lnot (lsb_mask w bits))).

(* @ src/batteries/math.hpp 48-52 round_up_bits *)
Definition round_up_bits (w bits n : Z) : Z := round_down_bits w bits (uwrap w (n + lsb_mask w bits)).

(* @ src/batteries/math.hpp 56-61 ipow *)
Fixpoint ipow (w base : Z) (exponent : nat) (accumulator : Z) : Z :=
  match exponent with
  | O => accumulator
  | S exponent => ipow w base exponent (uwrap w (accumulator * base))
  end.

(** ** [checked_cast.hpp] *)

(** A builtin integer type: [bool] is one. *)
Inductive IntType : Type := mkInt (signed : bool) (width : Z) | Bool.

#[export] Instance IntType_eq_dec : EqDecision IntType.
Proof. solve_decision. Defined.

Definition is_signed (t : IntType) : bool := match t with mkInt s _ => s | Bool => false end.

(** [sizeof(t) * 8]. *)
Definition bits (t : IntType) : Z := match t with mkInt _ w => w | Bool => 8 end.

(** [static_cast<t>(z)]. *)
Definition wrap (t : IntType) (z : Z) : Z :=
  match t with
  | mkInt true w => swrap w z
  | mkInt false w => uwrap w z
  | Bool => if z =? 0 then 0 else 1
  end.

Definition in_range (t : IntType) (z : Z) : bool :=
  match t with
  | mkInt true w => (- 2 ^ (w - 1) <=? z) && (z <? 2 ^ (w - 1))
  | mkInt false w => (0 <=? z) && (z <? 2 ^ w)
  | Bool => (0 <=? z) && (z <=? 1)
  end.

(** Between types of the same signedness. *)
(* @ src/batteries/checked_cast.hpp 19-35 checked_cast *)
Definition checked_cast_same (to from : IntType) (val : Z) : outcome Z :=
  (if bits to <? bits from then check (wrap from (wrap to val) =? val) else mret tt);;
  mret (wrap to val).

(** [(FromType{1} << (kToBits - 1)) - 1], a constant expression.  A type
    smaller than [int] is promoted to [int].  A shift by the width of the type
    or more, or a result that overflows [int], is not a constant: the function
    does not compile then ([None]), whether or not the mask is used. *)
(* @ src/batteries/checked_cast.hpp 53-54 checked_cast *)
Definition kRetainedMask (to from : IntType) : option Z :=
  let kToBits := bits to in
  let mask := Z.shiftl 1 (kToBits - 1) - 1 in
  if bits from <? 32 then if kToBits - 1 <? 31 then Some (wrap from mask) else None
  else if kToBits - 1 <? bits from then Some (wrap from mask) else None.

(* @ src/batteries/checked_cast.hpp 39-59 checked_cast *)
Definition checked_cast_to_signed (to from : IntType) (val : Z) : option (outcome Z) :=
  mask ← kRetainedMask to from;
  Some
    (if bits from <? bits to then mret (wrap to val)
     else check (Z.land val mask =? val);; mret (wrap to val)).

(** [std::make_unsigned_t]: the argument is signed. *)
(* @ src/batteries/checked_cast.hpp 63-77 checked_cast *)
Definition checked_cast_to_unsigned (to from : IntType) (val : Z) : outcome Z :=
  check (0 <=? val);;
  let from' := mkInt false (bits from) in
  checked_cast_same to from' (wrap from' val).

(** The overload is chosen by the signedness of the types; [None] if it does not
    compile. *)
(* @ src/batteries/checked_cast.hpp 17-77 checked_cast *)
Definition checked_cast (to from : IntType) (val : Z) : option (outcome Z) :=
  if Bool.eqb (is_signed to) (is_signed from) then Some (checked_cast_same to from val)
  else if is_signed to then checked_cast_to_signed to from val
  else Some (checked_cast_to_unsigned to from val).

Definition u64_t : IntType := mkInt false 64.
Definition i64_t : IntType := mkInt true 64.
Definition u32_t : IntType := mkInt false 32.
Definition i32_t : IntType := mkInt true 32.
Definition u16_t : IntType := mkInt false 16.
Definition i16_t : IntType := mkInt true 16.
Definition u8_t : IntType := mkInt false 8.
Definition i8_t : IntType := mkInt true 8.

Definition all_types : list IntType := [u8_t; u16_t; u32_t; u64_t; i8_t; i16_t; i32_t; i64_t; Bool].

Example cast_300 : checked_cast u8_t u64_t 300 = Some Panic /\ checked_cast u8_t u64_t 255 = Some (Done 255).
Proof. by vm_compute. Qed.

Example cast_minus : checked_cast u64_t i32_t (-1) = Some Panic /\ checked_cast i64_t u64_t (2 ^ 63) = Some Panic.
Proof. by vm_compute. Qed.

(** ** Masks *)

Lemma lsb_mask_ones (w bits : Z) : 0 <= bits < w -> lsb_mask w bits = Z.ones bits.
Proof.
  intros H. unfold lsb_mask. rewrite Z.shiftl_1_l, Z.ones_equiv.
  pose proof (Z.pow_lt_mono_r 2 bits w ltac:(lia) ltac:(lia) ltac:(lia)).
  pose proof (Z.pow_pos_nonneg 2 bits ltac:(lia) ltac:(lia)).
  rewrite (uwrap_small w (2 ^ bits)) by lia. rewrite uwrap_small; lia.
Qed.

Lemma land_ones_high (w bits n : Z) :
  0 <= bits < w -> 0 <= n < 2 ^ w -> Z.land n (uwrap w (Z.lnot (Z.ones bits))) = n - n mod 2 ^ bits.
Proof.
  intros Hb Hn. unfold uwrap. rewrite <- Z.land_ones by lia. rewrite (Z.land_comm (Z.lnot _)), Z.land_assoc.
  rewrite (Z.land_ones n w), Z.mod_small by lia. rewrite <- Z.ldiff_land, Z.ldiff_ones_r by lia.
  rewrite Z.shiftl_mul_pow2, Z.shiftr_div_pow2 by lia. pose proof (Z.div_mod n (2 ^ bits)). lia.
Qed.

Lemma round_down_bits_eq (w bits n : Z) :
  0 <= bits < w -> 0 <= n < 2 ^ w -> round_down_bits w bits n = n - n mod 2 ^ bits.
Proof. intros Hb Hn. unfold round_down_bits. by rewrite lsb_mask_ones, land_ones_high. Qed.

Lemma ipow_eq (w base accumulator : Z) (exponent : nat) :
  uwrap w (ipow w base exponent accumulator) = uwrap w (accumulator * base ^ Z.of_nat exponent).
Proof.
  revert accumulator. induction exponent as [|n IH]; intros acc; cbn [ipow].
  - by rewrite Z.pow_0_r, Z.mul_1_r.
  - rewrite IH. unfold uwrap. rewrite Zmult_mod_idemp_l, Nat2Z.inj_succ, Z.pow_succ_r by lia. f_equal. lia.
Qed.

(** [log2_ceil] and [log2_floor] are the exponents of the closest powers of
    two from above and below, for every 64-bit argument. *)
Theorem log2_bounds (i : Z) :
  0 < i < 2 ^ 64 ->
  (0 <= log2_floor i <= 63 /\ 2 ^ log2_floor i <= i < 2 ^ (log2_floor i + 1)) /\
  0 <= log2_ceil i <= 64 /\ i <= 2 ^ log2_ceil i /\ (forall k, 0 <= k -> i <= 2 ^ k -> log2_ceil i <= k).
Proof.
  intros Hi. unfold log2_floor, log2_ceil, clzll. replace (i =? 0) with false by (symmetry; apply Z.eqb_neq; lia).
  pose proof (Z.log2_spec i ltac:(lia)) as Hs. pose proof (Z.log2_nonneg i).
  pose proof (proj1 (Z.log2_lt_pow2 i 64 ltac:(lia)) ltac:(lia)).
  replace (63 - (63 - Z.log2 i)) with (Z.log2 i) by lia. split; [rewrite Z.add_1_r; lia|].
  destruct (i <=? 1) eqn:E; bool_cases.
  { split_and!; [lia..| |by intros; lia]. simpl. lia. }
  replace (64 - (63 - Z.log2 (i - 1))) with (Z.log2_up i) by (rewrite Z.log2_up_eqn, Z.sub_1_r by lia; lia).
  pose proof (Z.log2_up_spec i ltac:(lia)) as Hu. pose proof (Z.log2_up_nonneg i). split_and!; [lia| |lia|].
  - apply Z.log2_up_le_pow2; lia.
  - intros k Hk H'. by apply Z.log2_up_le_pow2; lia.
Qed.

(** Rounding an unsigned integer to [bits] bits gives the closest multiple
    of [2 ^ bits] below and above it; the round up wraps to 0 exactly when that
    multiple does not fit in the type. *)
Theorem round_bits_bounds (w bits n : Z) :
  0 <= bits < w -> 0 <= n < 2 ^ w ->
  let m := 2 ^ bits in
  (round_down_bits w bits n mod m = 0 /\ n - m < round_down_bits w bits n <= n) /\
  (n + (m - 1) < 2 ^ w -> round_up_bits w bits n mod m = 0 /\ n <= round_up_bits w bits n < n + m) /\
  (2 ^ w <= n + (m - 1) -> round_up_bits w bits n = 0).
Proof.
  intros Hb Hn m. assert (0 < m) as Hm by (apply Z.pow_pos_nonneg; lia).
  assert (2 ^ w = 2 ^ (w - bits) * m) as Ew by (unfold m; rewrite <- Z.pow_add_r by lia; f_equal; lia).
  assert (m < 2 ^ w) as Hw by (apply Z.pow_lt_mono_r; lia).
  assert (forall z, (z - z mod m) mod m = 0) as Hmod.
  { intros z. rewrite Zminus_mod_idemp_r, Z.sub_diag. apply Z.mod_0_l. lia. }
  unfold round_up_bits. rewrite lsb_mask_ones, Z.ones_equiv, <- Z.sub_1_r by done. fold m.
  rewrite round_down_bits_eq by done. fold m. pose proof (Z.mod_pos_bound n m Hm). split_and!.
  - by rewrite Hmod.
  - lia.
  - lia.
  - intros H'. rewrite uwrap_small by lia. rewrite round_down_bits_eq by lia. fold m.
    pose proof (Z.mod_pos_bound (n + (m - 1)) m Hm). rewrite Hmod. lia.
  - intros H'. assert (uwrap w (n + (m - 1)) = n + (m - 1) - 2 ^ w) as ->.
    { unfold uwrap. rewrite <- (Z.mod_small (n + (m - 1) - 2 ^ w) (2 ^ w)) by lia.
      rewrite <- (Z_mod_plus_full (n + (m - 1) - 2 ^ w) 1). f_equal. lia. }
    rewrite round_down_bits_eq by lia. fold m. rewrite Z.mod_small by lia. lia.
Qed.

Lemma round_bits_bounds_witness :
  round_down_bits 32 8 1000 = 768 /\ round_up_bits 32 8 1000 = 1024 /\ round_up_bits 32 8 (2 ^ 32 - 1) = 0.
Proof.
  destruct (round_bits_bounds 32 8 1000) as (_ & _ & _); [lia|lia|].
  destruct (round_bits_bounds 32 8 (2 ^ 32 - 1)) as (_ & _ & H); [lia|lia|].
  split_and!; [by vm_compute|by vm_compute|apply H; lia].
Defined.

(** ** Checked conversions *)

Lemma wrap_in_range (t : IntType) (z : Z) : 1 <= bits t -> in_range t (wrap t z) = true.
Proof.
  intros Hb. destruct t as [[] w|]; simpl in *; [| |by destruct (z =? 0)]; apply andb_true_iff; rewrite Z.leb_le, Z.ltb_lt;
    [apply swrap_range; lia|apply uwrap_range; lia].
Qed.

Lemma wrap_same (t : IntType) (z : Z) : 1 <= bits t -> in_range t z = true -> wrap t z = z.
Proof.
  intros Hb H. destruct t as [[] w|]; simpl in *; bool_cases; [apply swrap_small; lia|apply uwrap_small; lia|].
  destruct (Z.eqb_spec z 0); lia.
Qed.

(** The values of a smaller type of the same signedness. *)
Definition is_bool (t : IntType) : bool := match t with Bool => true | _ => false end.

Lemma in_range_mono (to from : IntType) (z : Z) :
  1 <= bits from <= bits to -> is_signed to = is_signed from -> (is_bool to = true -> is_bool from = true) ->
  in_range from z = true -> in_range to z = true.
Proof.
  intros Hb Hs Hbool H. destruct to as [st wt|], from as [sf wf|]; simpl in *; subst; try done; [| |by specialize (Hbool eq_refl)].
  - pose proof (Z.pow_le_mono_r 2 (wf - 1) (wt - 1) ltac:(lia) ltac:(lia)).
    pose proof (Z.pow_le_mono_r 2 wf wt ltac:(lia) ltac:(lia)).
    destruct sf; bool_cases; apply andb_true_iff; rewrite Z.leb_le, Z.ltb_lt; lia.
  - pose proof (Z.pow_le_mono_r 2 8 wt ltac:(lia) ltac:(lia)). bool_cases. apply andb_true_iff; rewrite Z.leb_le, Z.ltb_lt; lia.
Qed.

(** A [bool] takes any number of one byte for its truth value. *)
Definition truncates (to from : IntType) : bool := is_bool to && negb (is_bool from) && (bits from =? 8).

Lemma cast_same_spec (to from : IntType) (val : Z) :
  8 <= bits to -> 8 <= bits from -> is_signed to = is_signed from -> truncates to from = false -> in_range from val = true ->
  checked_cast_same to from val = if in_range to val then Done val else Panic.
Proof.
  intros Ht Hf Hs Htr Hv. unfold checked_cast_same. destruct (bits to <? bits from) eqn:Eb; bool_cases.
  - assert (in_range from (wrap to val) = true) as Hr.
    { destruct from as [sf wf|]; [|simpl in *; lia]. destruct to as [st wt|].
      - apply (in_range_mono (mkInt sf wf) (mkInt st wt)); [simpl in *; lia|done|done|apply wrap_in_range; simpl in *; lia].
      - simpl in Hs. subst sf. simpl in *. pose proof (Z.pow_le_mono_r 2 8 wf ltac:(lia) ltac:(lia)).
        destruct (val =? 0); apply andb_true_iff; rewrite Z.leb_le, Z.ltb_lt; lia. }
    rewrite (wrap_same from (wrap to val)) by (done || lia). destruct (in_range to val) eqn:Er.
    + rewrite wrap_same by (done || lia). by rewrite Z.eqb_refl.
    + destruct (wrap to val =? val) eqn:E; [|done]. bool_cases. rewrite <- E, wrap_in_range in Er by lia. done.
  - assert (in_range to val = true) as Hr.
    { apply (in_range_mono to from); [lia|done| |done]. intros E. unfold truncates in Htr. rewrite E in Htr. simpl in Htr.
      destruct (is_bool from) eqn:Ef; [done|]. destruct to as [|]; [done|]. simpl in *. rewrite (proj2 (Z.eqb_eq _ _)) in Htr; [done|lia]. }
    rewrite Hr. simpl. by rewrite wrap_same by (done || lia).
Qed.

Lemma cast_to_signed_spec (to from : IntType) (val : Z) (mask : Z) :
  2 <= bits to -> 8 <= bits from -> is_signed to = true -> is_signed from = false -> is_bool from = false -> in_range from val = true ->
  kRetainedMask to from = Some mask ->
  checked_cast_to_signed to from val = Some (if in_range to val then Done val else Panic).
Proof.
  intros Ht Hf Hs Hsf Hbf Hv Hm. unfold checked_cast_to_signed. rewrite Hm. cbn [mbind option_bind]. f_equal.
  destruct to as [[] wt|]; try done. simpl bits in *.
  assert (forall z, 0 <= z < 2 ^ (wt - 1) -> in_range (mkInt true wt) z = true) as Hin.
  { intros z Hz. simpl. apply andb_true_iff; rewrite Z.leb_le, Z.ltb_lt; lia. }
  assert (0 <= val < 2 ^ bits from) as Hv'.
  { destruct from as [[] wf|]; try done; simpl in *; bool_cases; lia. }
  destruct (bits from <? wt) eqn:Eb; bool_cases.
  - pose proof (Z.pow_le_mono_r 2 (bits from) (wt - 1) ltac:(lia) ltac:(lia)).
    rewrite Hin by lia. by rewrite wrap_same by (first [apply Hin; lia|simpl; lia]).
  - assert (Z.land val mask = val <-> val < 2 ^ (wt - 1)) as Hmask.
    { unfold kRetainedMask in Hm. cbn [bits] in Hm. rewrite Z.shiftl_1_l in Hm.
      assert (Some (wrap from (2 ^ (wt - 1) - 1)) = Some mask) as Hm'.
      { destruct (bits from <? 32); [destruct (wt - 1 <? 31)|destruct (wt - 1 <? bits from)]; done. }
      injection Hm' as <-. pose proof (Z.pow_pos_nonneg 2 (wt - 1) ltac:(lia) ltac:(lia)).
      destruct from as [[] wf|]; try done; simpl in *.
      pose proof (Z.pow_lt_mono_r 2 (wt - 1) wf ltac:(lia) ltac:(lia) ltac:(lia)).
      rewrite uwrap_small by lia. rewrite Z.sub_1_r, <- Z.ones_equiv, Z.land_ones by lia.
      split; intros Hl; [|apply Z.mod_small; lia]. pose proof (Z.mod_pos_bound val (2 ^ (wt - 1)) ltac:(lia)). lia. }
    destruct (Z.eqb_spec (Z.land val mask) val) as [E|E]; cbn [check mbind outcome_bind].
    + apply Hmask in E. rewrite Hin by lia. simpl. f_equal. apply (wrap_same (mkInt true wt)); [simpl; lia|]. apply Hin. lia.
    + rewrite Hmask in E. simpl. rewrite (proj2 (Z.ltb_ge _ _)) by lia. by rewrite andb_false_r.
Qed.

(** The pairs of types for which the mask is not a constant. *)
Definition ill_formed : list (IntType * IntType) :=
  [(i32_t, u8_t); (i32_t, u16_t); (i64_t, u8_t); (i64_t, u16_t); (i64_t, u32_t)].

Lemma unsigned_in_range (w val : Z) : 1 <= w -> 0 <= val -> in_range (mkInt true w) val = true -> in_range (mkInt false w) val = true.
Proof.
  simpl. intros Hw H0 Hv. bool_cases. pose proof (Z.pow_le_mono_r 2 (w - 1) w ltac:(lia) ltac:(lia)).
  apply andb_true_iff; rewrite Z.leb_le, Z.ltb_lt; lia.
Qed.

Lemma cast_to_unsigned_spec (to : IntType) (w val : Z) :
  8 <= bits to -> 8 <= w -> is_signed to = false -> truncates to (mkInt true w) = false -> in_range (mkInt true w) val = true ->
  checked_cast_to_unsigned to (mkInt true w) val = if in_range to val then Done val else Panic.
Proof.
  intros Ht Hw Hs Htr Hv. unfold checked_cast_to_unsigned. cbn [bits]. destruct (Z.leb_spec 0 val) as [H0|H0].
  - cbn [check mbind outcome_bind]. pose proof (unsigned_in_range w val ltac:(lia) H0 Hv) as Hr.
    rewrite wrap_same by (simpl; done || lia). by apply cast_same_spec.
  - simpl. assert (in_range to val = false) as ->; [|done].
    destruct to as [[] wt|]; try done; simpl; by rewrite (proj2 (Z.leb_gt _ _)) by lia.
Qed.

(** C40: Between any two of the builtin integer types, [bool] included as a source
    of unsigned conversions and as a target: the cast does not compile for the
    five pairs in which the mask of a conversion to a signed type is not a
    constant; to [bool] from another type of one byte it takes the truth value,
    or panics when the argument is negative; in all other cases it returns its
    argument when that is a value of the target type and panics otherwise, so
    that no value is changed. *)
Theorem checked_cast_exact (to from : IntType) (val : Z) :
  to ∈ all_types -> from ∈ all_types -> ~ (from = Bool /\ is_signed to = true) -> in_range from val = true ->
  checked_cast to from val =
    if bool_decide ((to, from) ∈ ill_formed) then None
    else if truncates to from then Some (if 0 <=? val then Done (if val =? 0 then 0 else 1) else Panic)
    else Some (if in_range to val then Done val else Panic).
Proof.
  intros Ht Hf Hb Hv.
  assert (8 <= bits to /\ 8 <= bits from) as [Hwt Hwf].
  { unfold all_types in *. rewrite !elem_of_cons, elem_of_nil in Ht, Hf.
    split; [clear Hf|clear Ht]; destruct_or?; subst; simpl; try lia; done. }
  destruct (decide ((to, from) ∈ ill_formed)) as [Hi|Hi].
  { rewrite bool_decide_eq_true_2 by done. unfold ill_formed in Hi. rewrite !elem_of_cons, elem_of_nil in Hi. by destruct_or?; simplify_eq. }
  rewrite bool_decide_eq_false_2 by done. unfold checked_cast.
  destruct (Bool.eqb (is_signed to) (is_signed from)) eqn:Es; [apply Bool.eqb_prop in Es|apply Bool.eqb_false_iff in Es; destruct (is_signed to) eqn:Et].
  - destruct (truncates to from) eqn:Etr; f_equal; [|by apply cast_same_spec].
    unfold truncates in Etr. destruct to as [|]; [done|]. destruct from as [[] w|]; try done. simpl in *. bool_cases. subst w.
    rewrite (proj2 (Z.leb_le 0 val)) by lia. done.
  - replace (truncates to from) with false by (by destruct to).
    destruct (is_signed from) eqn:Ef; [done|]. destruct (kRetainedMask to from) as [mask|] eqn:Em.
    + apply (cast_to_signed_spec to from val mask); try done; [lia|]. destruct from; [done|]. by destruct Hb.
    + exfalso. apply Hi. unfold all_types, ill_formed in *. rewrite !elem_of_cons, elem_of_nil in Ht, Hf.
      destruct_or?; subst; try done; try (by destruct Hb); set_solver.
  - destruct (is_signed from) eqn:Ef; [|done]. destruct from as [[] w|]; try done.
    destruct (truncates to (mkInt true w)) eqn:Etr; f_equal; [|by apply cast_to_unsigned_spec].
    unfold truncates in Etr. destruct to as [|]; [done|]. simpl in Etr. bool_cases. subst w. unfold checked_cast_to_unsigned.
    cbn [bits]. destruct (Z.leb_spec 0 val) as [H0|H0]; [|done]. cbn [check mbind outcome_bind].
    rewrite wrap_same by (first [by apply unsigned_in_range|simpl; lia]). done.
Qed.

Lemma checked_cast_exact_witness :
  checked_cast u8_t i64_t 300 = Some Panic /\ checked_cast u64_t i64_t (-1) = Some Panic /\ checked_cast i32_t u64_t 7 = Some (Done 7) /\
  checked_cast i64_t u32_t 7 = None /\ checked_cast Bool u8_t 2 = Some (Done 1).
Proof.
  split_and!; (rewrite checked_cast_exact; [by vm_compute|cbn; set_solver|cbn; set_solver|by intros []|by vm_compute]).
Defined.

(** What the other files use: an [i64] count as a [usize]. *)
Lemma cast_i64_usize (n : Z) : is_i64 n -> checked_cast u64_t i64_t n = Some (if 0 <=? n then Done n else Panic).
Proof.
  unfold is_i64. intros Hn. unfold checked_cast. cbn [Bool.eqb is_signed u64_t i64_t]. f_equal.
  unfold i64_t, u64_t. rewrite cast_to_unsigned_spec; [|simpl; try lia; try done..].
  - destruct (Z.leb_spec 0 n); simpl; [|by rewrite (proj2 (Z.leb_gt _ _))].
    by rewrite (proj2 (Z.leb_le _ _)), (proj2 (Z.ltb_lt _ _)) by lia.
Qed.
