(* ===== verification/Collectors.v ===== *)
(** * Metric collectors

    [metrics/metric_collectors.hpp].  A counter is one atomic integer of a
    type [T]; a [StatsMetric] is four of them, which its operations update one
    after the other without a lock.  Every access to one of the four is a
    step; the compare-exchange loops of [clamp_min] and [clamp_max] are
    unrolled, and an exchange may fail for no reason. *)

From S2P Require Import Prelude IntMath.
Open Scope Z_scope.

(** ** Counters *)

Section collectors.
Context (signed : bool) (width : Z).

#[local] Arguments wrap : simpl never.

(** The type of the counter; [std::atomic<bool>] has no [fetch_add]. *)
Abbreviation T := (mkInt signed width).

Definition lowest : Z := if is_signed T then - 2 ^ (bits T - 1) else 0.
Definition highest : Z := if is_signed T then 2 ^ (bits T - 1) - 1 else 2 ^ bits T - 1.

(** [delta], of any integer type, is converted to [T] to be added; the new value
    and the old one. *)
(* @ src/batteries/metrics/metric_collectors.hpp 34-44 CountMetric::add, fetch_add *)
Definition fetch_add (delta value_ : Z) : Z * Z := (wrap T (value_ + wrap T delta), value_).

Inductive CountOp : Type := Set_ (v : Z) | Add (delta : Z) | PlusEq (delta : Z) | PostIncrement | PreIncrement | Load | ResetCount.

(** The new value and what is returned, if anything. *)
(* @ src/batteries/metrics/metric_collectors.hpp 29-75 CountMetric *)
Definition count_op (op : CountOp) (value_ : Z) : Z * option Z :=
  match op with
  | Set_ v => (v, None)
  | Add delta => ((fetch_add delta value_).1, None)
  | PlusEq delta => let v := wrap T (value_ + wrap T delta) in (v, Some v)
  | PostIncrement => let '(v, old) := fetch_add 1 value_ in (v, Some old)
  | PreIncrement => let v := wrap T (value_ + 1) in (v, Some v)
  | Load => (value_, Some value_)
  | ResetCount => (0, None)
  end.

(** Which of the two clamps: [clamp_min] raises, [clamp_max] lowers. *)
Inductive Clamp : Type := Min | Max.

(* @ src/batteries/metrics/metric_collectors.hpp 79-88 CountMetric::clamp_min *)
Definition clamp_needed (c : Clamp) (observed bound : Z) : bool :=
  match c with Min => observed <? bound | Max => bound <? observed end.

(** [compare_exchange_weak]: the new value and, when it fails, the value
    observed. *)
(* @ src/batteries/metrics/metric_collectors.hpp 91-100 CountMetric::clamp_max *)
Definition compare_exchange_weak (spurious : bool) (observed desired value_ : Z) : Z * option Z :=
  if spurious || negb (value_ =? observed) then (value_, Some value_) else (desired, None).

(** ** [StatsMetric] *)

(* @ src/batteries/metrics/metric_collectors.hpp 333-336 StatsMetric *)
Record StatsMetric : Type := mkStats { count_ : Z; total_ : Z; max_ : Z; min_ : Z }.

(* @ src/batteries/metrics/metric_collectors.hpp 280-280 StatsMetric::StatsMetric *)
Definition empty_stats : StatsMetric := mkStats 0 0 lowest highest.

(* @ src/batteries/metrics/metric_collectors.hpp 284-286 StatsMetric::StatsMetric *)
Definition stats_of (init_val : Z) : StatsMetric := mkStats 1 init_val init_val init_val.

Inductive Call : Type := Update (sample : Z) | Reset.

(** What a thread does next, in the call at the head of its list.  [Clamping
    c o]: the exchange of the loop, with the value observed. *)
Inductive Pc : Type :=
| Ready
| AddTotal
| Observe (c : Clamp)
| Clamping (c : Clamp) (observed : Z)
| ResetTotal
| ResetMax
| ResetMin.

#[export] Instance clamp_eq_dec : EqDecision Clamp.
Proof. solve_decision. Defined.
#[export] Instance call_eq_dec : EqDecision Call.
Proof. solve_decision. Defined.
#[export] Instance pc_eq_dec : EqDecision Pc.
Proof. solve_decision. Defined.

Abbreviation Thread := (Pc * list Call)%type.

Record State : Type := mkState { stats : StatsMetric; threads : list Thread }.

Definition clamped (c : Clamp) (s : StatsMetric) : Z := match c with Min => max_ s | Max => min_ s end.

Definition set_clamped (c : Clamp) (v : Z) (s : StatsMetric) : StatsMetric :=
  match c with
  | Min => mkStats (count_ s) (total_ s) v (min_ s)
  | Max => mkStats (count_ s) (total_ s) (max_ s) v
  end.

(** After [max_.clamp_min] comes [min_.clamp_max], after that the return. *)
Definition after_clamp (c : Clamp) (calls : list Call) : Thread :=
  match c with Min => (Observe Max, calls) | Max => (Ready, tail calls) end.

(** The test of the loop with a fresh value. *)
Definition clamp_loop (c : Clamp) (observed sample : Z) (calls : list Call) : Thread :=
  if clamp_needed c observed sample then (Clamping c observed, calls) else after_clamp c calls.

(** The sample may be of any integer type; it is converted to [T] where it
    becomes the argument of a function that takes a [T]. *)
(* @ src/batteries/metrics/metric_collectors.hpp 300-306 StatsMetric::update *)
Definition update_step (spurious : bool) (pc : Pc) (sample : Z) (calls : list Call) (s : StatsMetric) : StatsMetric * Thread :=
  match pc with
  | Ready => (mkStats (fetch_add 1 (count_ s)).1 (total_ s) (max_ s) (min_ s), (AddTotal, calls))
  | AddTotal => (mkStats (count_ s) (fetch_add sample (total_ s)).1 (max_ s) (min_ s), (Observe Min, calls))
  | Observe c => (s, clamp_loop c (clamped c s) (wrap T sample) calls)
  | Clamping c observed =>
      match compare_exchange_weak spurious observed (wrap T sample) (clamped c s) with
      | (v, None) => (set_clamped c v s, after_clamp c calls)
      | (_, Some observed) => (s, clamp_loop c observed (wrap T sample) calls)
      end
  | _ => (s, (pc, calls))
  end.

(* @ src/batteries/metrics/metric_collectors.hpp 289-295 StatsMetric::reset *)
Definition reset_step (pc : Pc) (calls : list Call) (s : StatsMetric) : StatsMetric * Thread :=
  match pc with
  | Ready => (mkStats 0 (total_ s) (max_ s) (min_ s), (ResetTotal, calls))
  | ResetTotal => (mkStats (count_ s) 0 (max_ s) (min_ s), (ResetMax, calls))
  | ResetMax => (mkStats (count_ s) (total_ s) lowest (min_ s), (ResetMin, calls))
  | ResetMin => (mkStats (count_ s) (total_ s) (max_ s) highest, (Ready, tail calls))
  | _ => (s, (pc, calls))
  end.

Definition thread_step (spurious : bool) (t : Thread) (s : StatsMetric) : StatsMetric * Thread :=
  match t.2 with
  | [] => (s, t)
  | Update sample :: _ => update_step spurious t.1 sample t.2 s
  | Reset :: _ => reset_step t.1 t.2 s
  end.

Definition step (e : nat * bool) (st : State) : State :=
  match threads st !! e.1 with
  | Some t => let '(s, t') := thread_step e.2 t (stats st) in mkState s (<[e.1 := t']> (threads st))
  | None => st
  end.

Definition run (schedule : list (nat * bool)) (st : State) : State := foldl (fun st e => step e st) st schedule.

Definition initial_state (s : StatsMetric) (work : list (list Call)) : State :=
  mkState s ((fun calls => (Ready, calls)) <$> work).

Definition finished (st : State) : Prop := forall t, t ∈ threads st -> t = (Ready, []).

(** ** What is still to be accounted for *)

(** The samples, converted to [T]. *)
Definition sample_of (c : Call) : list Z := match c with Update s => [wrap T s] | Reset => [] end.

Definition samples (calls : list Call) : list Z := concat (sample_of <$> calls).

Definition to_count (t : Thread) : list Z := samples match t.1 with Ready => t.2 | _ => tail t.2 end.
Definition to_total (t : Thread) : list Z := samples match t.1 with Ready | AddTotal => t.2 | _ => tail t.2 end.
Definition to_max (t : Thread) : list Z :=
  samples match t.1 with Ready | AddTotal | Observe Min | Clamping Min _ => t.2 | _ => tail t.2 end.
Definition to_min (t : Thread) : list Z := samples t.2.

Definition all (f : Thread -> list Z) (st : State) : list Z := concat (f <$> threads st).

(** The four sums that no step changes. *)
Definition account_count (st : State) : Z := wrap T (count_ (stats st) + Z.of_nat (length (all to_count st))).
Definition account_total (st : State) : Z := wrap T (total_ (stats st) + sum (all to_total st)).
Definition account_max (st : State) : Z := foldr Z.max (max_ (stats st)) (all to_max st).
Definition account_min (st : State) : Z := foldr Z.min (min_ (stats st)) (all to_min st).

Definition only_updates (calls : list Call) : Prop := Forall (fun c => c <> Reset) calls.

(** A thread that only makes updates; one that is about to exchange has seen a
    value to be replaced. *)
Definition thread_ok (t : Thread) : Prop :=
  only_updates t.2 /\
  match t.1, t.2 with
  | Ready, _ | AddTotal, _ :: _ | Observe _, _ :: _ => True
  | Clamping c observed, Update v :: _ => clamp_needed c observed (wrap T v) = true
  | _, _ => False
  end.

(** ** The accounts balance *)

Lemma wrap_add_l (a b : Z) : wrap T (wrap T a + b) = wrap T (a + b).
Proof using.
  unfold wrap, swrap, uwrap. destruct signed; [|apply Zplus_mod_idemp_l].
  replace ((a + 2 ^ (width - 1)) `mod` 2 ^ width - 2 ^ (width - 1) + b + 2 ^ (width - 1))
    with ((a + 2 ^ (width - 1)) `mod` 2 ^ width + b) by lia.
  rewrite Zplus_mod_idemp_l. do 2 f_equal. lia.
Qed.

Lemma wrap_add_r (a b : Z) : wrap T (a + wrap T b) = wrap T (a + b).
Proof using. by rewrite Z.add_comm, wrap_add_l, Z.add_comm. Qed.

Lemma max_base (m s : Z) (l : list Z) : foldr Z.max (Z.max m s) l = Z.max s (foldr Z.max m l).
Proof using. induction l as [|x l IH]; simpl; lia. Qed.

Lemma min_base (m s : Z) (l : list Z) : foldr Z.min (Z.min m s) l = Z.min s (foldr Z.min m l).
Proof using. induction l as [|x l IH]; simpl; lia. Qed.

(** One thread's share of the four accounts. *)
Definition balanced (s s' : StatsMetric) (t t' : Thread) : Prop :=
  (forall n, wrap T (count_ s' + (Z.of_nat (length (to_count t')) + n)) = wrap T (count_ s + (Z.of_nat (length (to_count t)) + n))) /\
  (forall z, wrap T (total_ s' + (sum (to_total t') + z)) = wrap T (total_ s + (sum (to_total t) + z))) /\
  (forall l, foldr Z.max (max_ s') (to_max t' ++ l) = foldr Z.max (max_ s) (to_max t ++ l)) /\
  (forall l, foldr Z.min (min_ s') (to_min t' ++ l) = foldr Z.min (min_ s) (to_min t ++ l)).

Lemma samples_update (v : Z) (calls : list Call) : samples (Update v :: calls) = wrap T v :: samples calls.
Proof using. done. Qed.

Ltac accounts := unfold to_count, to_total, to_max, to_min; cbn [fst snd tail]; rewrite ?samples_update.

Lemma clamp_loop_balanced (c : Clamp) (v observed : Z) (calls : list Call) (s : StatsMetric) (pc : Pc) :
  pc = Observe c \/ pc = Clamping c observed ->
  balanced s s (pc, Update v :: calls) (clamp_loop c (clamped c s) (wrap T v) (Update v :: calls)).
Proof using.
  intros Hpc. unfold clamp_loop, after_clamp.
  destruct (clamp_needed c (clamped c s) (wrap T v)) eqn:E.
  - destruct c, Hpc as [-> | ->]; done.
  - destruct c; simpl in E; bool_cases; destruct Hpc as [-> | ->]; split_and!; intros; try done; accounts; simpl;
      first [rewrite <- max_base|rewrite <- min_base]; f_equal; lia.
Qed.

Lemma update_balanced (spurious : bool) (t : Thread) (s : StatsMetric) :
  thread_ok t -> balanced s (thread_step spurious t s).1 t (thread_step spurious t s).2.
Proof using.
  destruct t as [pc calls]. intros [Hu Hok]. simpl in Hu, Hok. unfold thread_step. cbn [fst snd].
  destruct calls as [|[v|] calls]; [done| |by apply Forall_cons_iff in Hu as [[] _]].
  destruct pc as [| |c|c observed| | |]; cbn [update_step]; try done.
  - split_and!; intros; try done; accounts; simpl. rewrite wrap_add_l.
    replace (count_ s + wrap T 1 + _) with (count_ s + (Z.of_nat (length (samples calls)) + n) + wrap T 1) by lia.
    rewrite wrap_add_r. f_equal. lia.
  - split_and!; intros; try done; accounts; simpl. rewrite wrap_add_l, sum_cons. f_equal. lia.
  - apply (clamp_loop_balanced c v 0). by left.
  - unfold compare_exchange_weak. destruct (spurious || _) eqn:E.
    + apply (clamp_loop_balanced c v observed). by right.
    + apply orb_false_iff in E as [_ E]. apply negb_false_iff in E. bool_cases. rewrite <- E in Hok.
      destruct c; simpl in Hok; bool_cases; split_and!; intros; try done; accounts; simpl.
      * rewrite <- max_base. f_equal. lia.
      * rewrite <- min_base. f_equal. lia.
Qed.

Lemma clamp_loop_ok (c : Clamp) (observed v : Z) (calls : list Call) :
  only_updates (Update v :: calls) -> thread_ok (clamp_loop c observed (wrap T v) (Update v :: calls)).
Proof using.
  intros Hu. unfold clamp_loop, after_clamp. destruct (clamp_needed _ _ _) eqn:E; [by split|].
  destruct c; [by split|]. apply Forall_cons_iff in Hu as [_ Hu]. by split.
Qed.

Lemma update_ok (spurious : bool) (t : Thread) (s : StatsMetric) : thread_ok t -> thread_ok (thread_step spurious t s).2.
Proof using.
  destruct t as [pc calls]. intros [Hu Hok]. simpl in Hu, Hok. unfold thread_step. cbn [fst snd].
  destruct calls as [|[v|] calls]; [done| |by apply Forall_cons_iff in Hu as [[] _]].
  destruct pc as [| |c|c observed| | |]; cbn [update_step]; try done.
  - by apply clamp_loop_ok.
  - unfold compare_exchange_weak. destruct (spurious || _); [by apply clamp_loop_ok|].
    simpl. destruct c; [by split|]. apply Forall_cons_iff in Hu as [_ Hu]. by split.
Qed.

Lemma foldr_perm (f : Z -> Z -> Z) (m : Z) (l l' : list Z) :
  (forall a b c, f a (f b c) = f b (f a c)) -> l ≡ₚ l' -> foldr f m l = foldr f m l'.
Proof using. intros Hf. induction 1; simpl; congruence. Qed.

Lemma sum_perm (l l' : list Z) : l ≡ₚ l' -> sum l = sum l'.
Proof using. apply foldr_perm. lia. Qed.

(** A step of one thread changes one share. *)
Lemma all_step (f : Thread -> list Z) (st : State) (s' : StatsMetric) (i : nat) (t t' : Thread) :
  threads st !! i = Some t ->
  exists rest, all f st ≡ₚ f t ++ rest /\ all f (mkState s' (<[i := t']> (threads st))) ≡ₚ f t' ++ rest.
Proof using.
  intros Hi. destruct (concat_step_perm f (threads st) [] i t t' Hi) as (rest & H1 & H2); [done|].
  exists rest. split; [done|]. rewrite app_nil_r in H2. done.
Qed.

Definition same_accounts (st st' : State) : Prop :=
  account_count st' = account_count st /\ account_total st' = account_total st /\
  account_max st' = account_max st /\ account_min st' = account_min st.

Lemma step_accounts (e : nat * bool) (st : State) :
  (forall t, t ∈ threads st -> thread_ok t) ->
  (forall t, t ∈ threads (step e st) -> thread_ok t) /\ same_accounts st (step e st).
Proof using.
  intros HI. unfold step. destruct (threads st !! e.1) as [t|] eqn:Hi; [|done].
  assert (thread_ok t) as Ht by (apply HI; by eapply list_elem_of_lookup_2).
  pose proof (update_balanced e.2 t (stats st) Ht) as (Hc & Hs & Hx & Hn). pose proof (update_ok e.2 t (stats st) Ht) as Ht'.
  destruct (thread_step e.2 t (stats st)) as [s' t']. simpl in *. split.
  - intros u [j Hu]%list_elem_of_lookup_1. destruct (list_insert_cases _ _ _ _ _ _ Hi Hu) as [[-> ->]|[_ H]]; [done|].
    apply HI. by eapply list_elem_of_lookup_2.
  - unfold same_accounts, account_count, account_total, account_max, account_min. cbn [stats].
    destruct (all_step to_count st s' _ t t' Hi) as (r1 & Hr1 & Hr1'). destruct (all_step to_total st s' _ t t' Hi) as (r2 & Hr2 & Hr2').
    destruct (all_step to_max st s' _ t t' Hi) as (r3 & Hr3 & Hr3'). destruct (all_step to_min st s' _ t t' Hi) as (r4 & Hr4 & Hr4').
    rewrite Hr1, Hr1', (sum_perm _ _ Hr2), (sum_perm _ _ Hr2'), !length_app, !Nat2Z.inj_add, !sum_app, Hc, Hs.
    split_and!; [done|done| |].
    + by rewrite (foldr_perm Z.max _ _ _ ltac:(lia) Hr3'), (foldr_perm Z.max _ _ _ ltac:(lia) Hr3).
    + by rewrite (foldr_perm Z.min _ _ _ ltac:(lia) Hr4'), (foldr_perm Z.min _ _ _ ltac:(lia) Hr4).
Qed.

(** A value that a [T] can hold. *)
Definition fits (v : Z) : Prop := wrap T v = v.

Lemma fits_wrap (v : Z) : fits (wrap T v).
Proof using. unfold fits. pose proof (wrap_add_l v 0) as H. by rewrite !Z.add_0_r in H. Qed.

Lemma step_fits (e : nat * bool) (st : State) :
  (forall t, t ∈ threads st -> thread_ok t) -> fits (count_ (stats st)) /\ fits (total_ (stats st)) ->
  fits (count_ (stats (step e st))) /\ fits (total_ (stats (step e st))).
Proof using.
  intros HI [Hc Ht]. unfold step. destruct (threads st !! e.1) as [[pc calls]|] eqn:Hi; [|done].
  destruct (HI (pc, calls)) as [Hu Hok]; [by eapply list_elem_of_lookup_2|]. unfold thread_step. simpl in *.
  destruct calls as [|[v|] calls]; [done| |by apply Forall_cons_iff in Hu as [[] _]].
  destruct pc as [| |c|c observed| | |]; cbn [update_step]; try done; simpl.
  - split; [apply fits_wrap|done].
  - split; [done|apply fits_wrap].
  - unfold compare_exchange_weak. destruct (e.2 || _); [done|]. by destruct c.
Qed.

Record Inv (st0 st : State) : Prop := {
  inv_ok : forall t, t ∈ threads st -> thread_ok t;
  inv_fits : fits (count_ (stats st)) /\ fits (total_ (stats st));
  inv_accounts : same_accounts st0 st }.

Lemma run_inv (schedule : list (nat * bool)) (st0 st : State) : Inv st0 st -> Inv st0 (run schedule st).
Proof using.
  revert st. induction schedule as [|e schedule IH]; simpl; [done|]. intros st [H1 H2 H3]. apply IH.
  destruct (step_accounts e st H1) as [H1' H3']. split; [done|by apply step_fits|].
  destruct H3 as (E1 & E2 & E3 & E4), H3' as (F1 & F2 & F3 & F4). unfold same_accounts. by rewrite F1, F2, F3, F4.
Qed.

(** ** Every update returns *)

(** How much is left to do, for a thread that is not disturbed. *)
Definition work_left (t : Thread) (s : StatsMetric) : nat :=
  let fresh c o := if o =? clamped c s then 0%nat else 1%nat in
  match t.1 with
  | AddTotal => 9 + 10 * length (tail t.2)
  | Observe Min => 8 + 10 * length (tail t.2)
  | Clamping Min o => 5 + fresh Min o + 10 * length (tail t.2)
  | Observe Max => 4 + 10 * length (tail t.2)
  | Clamping Max o => 1 + fresh Max o + 10 * length (tail t.2)
  | _ => 10 * length t.2
  end%nat.

Lemma clamp_loop_left (c : Clamp) (v : Z) (calls : list Call) (s : StatsMetric) :
  (work_left (clamp_loop c (clamped c s) (wrap T v) (Update v :: calls)) s <=
     match c with Min => 5 | Max => 1 end + 10 * length calls)%nat.
Proof using.
  unfold clamp_loop, after_clamp. destruct (clamp_needed _ _ _); destruct c; unfold work_left; simpl; rewrite ?Z.eqb_refl; lia.
Qed.

Lemma work_left_decreases (t : Thread) (s : StatsMetric) :
  thread_ok t -> t <> (Ready, []) -> (work_left (thread_step false t s).2 (thread_step false t s).1 < work_left t s)%nat.
Proof using.
  destruct t as [pc calls]. intros [Hu Hok] Hne. simpl in Hu, Hok. unfold thread_step. cbn [fst snd].
  destruct calls as [|[v|] calls]; [by destruct pc| |by apply Forall_cons_iff in Hu as [[] _]].
  destruct pc as [| |c|c observed| | |]; cbn [update_step]; try done; try (unfold work_left; simpl; lia).
  - pose proof (clamp_loop_left c v calls s). destruct c; unfold work_left at 2; simpl in *; lia.
  - unfold compare_exchange_weak. destruct (clamped c s =? observed) eqn:E; simpl.
    + destruct c; unfold work_left; simpl; destruct (_ =? _); lia.
    + pose proof (clamp_loop_left c v calls s). rewrite Z.eqb_sym in E.
      destruct c; unfold work_left at 2; simpl in *; rewrite E; lia.
Qed.

Lemma solo (i : nat) (t : Thread) (st : State) :
  threads st !! i = Some t -> thread_ok t ->
  exists n, threads (run (replicate n (i, false)) st) = <[i := (Ready, [])]> (threads st).
Proof using.
  remember (work_left t (stats st)) as m eqn:Hm. revert t st Hm. induction (lt_wf m) as [m _ IH]. intros t st Hm Hi Hok.
  destruct (decide (t = (Ready, []))) as [->|Hne].
  - exists O. simpl. by rewrite list_insert_id.
  - pose proof (work_left_decreases t (stats st) Hok Hne) as Hl. pose proof (update_ok false t (stats st) Hok) as Hok'.
    assert (step (i, false) st = mkState (thread_step false t (stats st)).1 (<[i := (thread_step false t (stats st)).2]> (threads st))) as E.
    { unfold step. simpl. rewrite Hi. by destruct (thread_step _ _ _). }
    edestruct (IH _ ltac:(rewrite Hm; exact Hl) _ (step (i, false) st) ltac:(by rewrite E)) as (n & Hn).
    { rewrite E. simpl. apply list_lookup_insert_eq. by eapply lookup_lt_Some. }
    { done. }
    exists (S n). simpl. rewrite Hn, E. simpl. apply list_insert_insert_eq.
Qed.

Lemma run_app (s1 s2 : list (nat * bool)) (st : State) : run (s1 ++ s2) st = run s2 (run s1 st).
Proof using. apply foldl_app. Qed.

Lemma all_finish (k : nat) (st0 st : State) :
  Inv st0 st -> exists schedule, forall j t, (j < k)%nat -> threads (run schedule st) !! j = Some t -> t = (Ready, []).
Proof using.
  intros HI. induction k as [|k (schedule & IH)]; [exists []; lia|].
  pose proof (run_inv schedule st0 st HI) as HI'. destruct (threads (run schedule st) !! k) as [t|] eqn:Hk.
  - destruct (solo k t _ Hk) as (n & Hn). { apply (inv_ok _ _ HI'). by eapply list_elem_of_lookup_2. }
    exists (schedule ++ replicate n (k, false)). intros j u Hj Hu. rewrite run_app, Hn in Hu.
    destruct (list_insert_cases _ _ _ _ _ _ Hk Hu) as [[_ ->]|[Hne Hu']]; [done|]. apply (IH j); [lia|done].
  - exists schedule. intros j u Hj Hu. destruct (decide (j = k)) as [->|]; [congruence|]. apply (IH j); [lia|done].
Qed.

Lemma samples_all (work : list (list Call)) (f : Thread -> list Z) :
  (forall calls, f (Ready, calls) = samples calls) ->
  concat (f <$> ((fun calls => (Ready, calls)) <$> work)) = concat (samples <$> work).
Proof using. intros Hf. rewrite <- list_fmap_compose. f_equal. apply list_fmap_ext. intros i calls _. apply Hf. Qed.

Lemma finished_nothing (f : Thread -> list Z) (st : State) : f (Ready, []) = [] -> finished st -> all f st = [].
Proof using.
  unfold finished, all. intros Hf. induction (threads st) as [|t ts IH]; intros H; [done|]. simpl.
  rewrite (H t) by apply list_elem_of_here. rewrite Hf. apply IH. intros u Hu. apply H. by apply list_elem_of_further.
Qed.

Lemma max_ge_base (m : Z) (l : list Z) : m <= foldr Z.max m l.
Proof using. induction l; simpl; lia. Qed.

Lemma min_le_base (m : Z) (l : list Z) : foldr Z.min m l <= m.
Proof using. induction l; simpl; lia. Qed.

(** What the four counters show after the samples. *)
Definition with_samples (s : StatsMetric) (l : list Z) : StatsMetric :=
  mkStats (wrap T (count_ s + Z.of_nat (length l))) (wrap T (total_ s + sum l)) (foldr Z.max (max_ s) l) (foldr Z.min (min_ s) l).

(** C25: any number of threads update a [StatsMetric] of an integer type
    concurrently, and nobody resets it; the compare-exchanges fail as often as
    they like.  When all calls have returned the metric shows the number of the
    samples and their sum, both modulo the width of its type, and the largest
    and the smallest of the samples converted to its type; before that it shows
    no larger maximum and no smaller minimum; and at any moment the calls can be
    completed. *)
Theorem stats_correct (schedule : list (nat * bool)) (s : StatsMetric) (work : list (list Call)) :
  Forall only_updates work -> fits (count_ s) -> fits (total_ s) ->
  let st := run schedule (initial_state s work) in
  let l := concat (samples <$> work) in
  (finished st -> stats st = with_samples s l) /\
  max_ (stats st) <= foldr Z.max (max_ s) l /\ foldr Z.min (min_ s) l <= min_ (stats st) /\
  exists schedule', finished (run schedule' st).
Proof using.
  intros Hw Hc Ht st l. assert (Inv (initial_state s work) st) as HI.
  { apply run_inv. split; [|done|done]. intros t (calls & -> & Hin)%list_elem_of_fmap. split; [|done].
    rewrite list.Forall_forall in Hw. by apply Hw. }
  pose proof (inv_accounts _ _ HI) as (E1 & E2 & E3 & E4). pose proof (inv_fits _ _ HI) as [F1 F2].
  unfold account_count, account_total, account_max, account_min, all in E1, E2, E3, E4. simpl in E1, E2, E3, E4.
  rewrite !samples_all in E1, E2, E3, E4 by done. fold (all to_count st) (all to_total st) (all to_max st) (all to_min st) in *. fold l in E1, E2, E3, E4.
  split_and!.
  - intros Hf. rewrite (finished_nothing to_count) in E1 by done. rewrite (finished_nothing to_total) in E2 by done.
    rewrite (finished_nothing to_max) in E3 by done. rewrite (finished_nothing to_min) in E4 by done.
    simpl in E1, E2, E3, E4. rewrite !Z.add_0_r in E1, E2. rewrite F1 in E1. rewrite F2 in E2.
    unfold with_samples. rewrite <- E1, <- E2, <- E3, <- E4. by destruct (stats st).
  - rewrite <- E3. apply max_ge_base.
  - rewrite <- E4. apply min_le_base.
  - destruct (all_finish (length (threads st)) _ st HI) as (schedule' & Hs). exists schedule'.
    intros t [j Hj]%list_elem_of_lookup_1. apply (Hs j); [|done]. apply lookup_lt_Some in Hj.
    assert (forall sch st', length (threads (run sch st')) = length (threads st')) as Hlen; [|by rewrite Hlen in Hj].
    clear. induction sch as [|e sch IH]; intros st'; simpl; [done|]. rewrite IH. unfold step.
    destruct (threads st' !! e.1); [|done]. destruct (thread_step _ _ _). simpl. apply length_insert.
Qed.
End collectors.

(** ** Latency and rate *)

(* @ src/batteries/metrics/metric_collectors.hpp 135-136 LatencyMetric *)
Record LatencyMetric : Type := mkLatency { total_usec : Z; count : Z }.

(** The time measured, in nanoseconds, may be negative. *)
(* @ src/batteries/metrics/metric_collectors.hpp 108-120 LatencyMetric::update *)
Definition latency_update (elapsed_duration count_delta : Z) (m : LatencyMetric) : LatencyMetric :=
  let elapsed_usec := Z.max 0 (Z.quot elapsed_duration 1000) in
  mkLatency (fetch_add false 64 elapsed_usec (total_usec m)).1 (fetch_add false 64 count_delta (count m)).1.

(* @ src/batteries/metrics/metric_collectors.hpp 129-133 LatencyMetric::reset *)
Definition latency_reset : LatencyMetric := mkLatency 0 0.

(** [metric_]: whether the timer still refers to its metric. *)
(* @ src/batteries/metrics/metric_collectors.hpp 178-180 LatencyTimer *)
Record LatencyTimer : Type := mkTimer { metric_ : bool; delta_ : Z; start_ : Z }.

(* @ src/batteries/metrics/metric_collectors.hpp 153-175 LatencyTimer::LatencyTimer, stop *)
Definition timer_stop (now : Z) (t : LatencyTimer) (m : LatencyMetric) : LatencyTimer * LatencyMetric :=
  if metric_ t then (mkTimer false (delta_ t) (start_ t), latency_update (now - start_ t) (delta_ t) m) else (t, m).

(** However often a timer is stopped, and its destructor stops it too, it
    counts once, with the time of the first stop. *)
Lemma timer_counts_once (now : Z) (later : list Z) (delta start : Z) (m : LatencyMetric) :
  (foldl (fun p now => timer_stop now p.1 p.2) (timer_stop now (mkTimer true delta start) m) later).2 = latency_update (now - start) delta m.
Proof.
  cbn [timer_stop metric_]. induction later as [|x later IH]; [done|]. exact IH.
Qed.

(** [current_value_] has no initial value. *)
(* @ src/batteries/metrics/metric_collectors.hpp 241-245 RateMetric *)
Record RateMetric : Type := mkRate { start_time_ : Z; start_value_ : Z; current_value_ : option Z }.

(* @ src/batteries/metrics/metric_collectors.hpp 212-226 RateMetric::update *)
Definition rate_update (T : IntType) (kIntervalSeconds now_usec value : Z) (m : RateMetric) : RateMetric :=
  let elapsed_usec := now_usec - start_time_ m in
  if kIntervalSeconds * 1000 * 1000 * 2 <=? elapsed_usec
  then mkRate (start_time_ m + Z.quot elapsed_usec 2) (wrap T (Z.quot (value + start_value_ m) 2)) (Some value)
  else mkRate (start_time_ m) (start_value_ m) (Some value).

(** The dividend and the divisor of the rate per microsecond. *)
(* @ src/batteries/metrics/metric_collectors.hpp 228-238 RateMetric::get *)
Definition rate_get (now_usec : Z) (m : RateMetric) : option (Z * Z) :=
  v ← current_value_ m; Some (v - start_value_ m, now_usec - start_time_ m).

(** The window over which a rate is taken: if updates come at least every two
    intervals, it is at most two intervals long after each of them, at least
    one interval long whenever it has been cut, and never ends in the
    future. *)
Lemma rate_window (T : IntType) (k now value : Z) (m : RateMetric) :
  let I := k * 1000 * 1000 in
  0 < k -> 0 <= now - start_time_ m <= 4 * I ->
  let m' := rate_update T k now value m in
  0 <= now - start_time_ m' <= 2 * I /\ (start_time_ m' <> start_time_ m -> I <= now - start_time_ m').
Proof.
  intros I Hk Hw. unfold rate_update. fold I. rewrite (Z.mul_comm I 2). destruct (2 * I <=? _) eqn:E; bool_cases; simpl; [|lia].
  rewrite Z.quot_div_nonneg by lia. pose proof (Z.div_mod (now - start_time_ m) 2 ltac:(lia)). pose proof (Z.mod_pos_bound (now - start_time_ m) 2). lia.
Qed.

(** A metric that was never updated has no rate. *)
Example rate_before_update : rate_get 10 (mkRate 0 0 None) = None.
Proof. reflexivity. Qed.


(** A sample that does not fit is converted: 2^32 + 5 counts as 5. *)
Example narrowed_sample :
  stats (run true 32 (replicate 8 (0%nat, false)) (initial_state (empty_stats true 32) [[Update (2 ^ 32 + 5)]])) = mkStats 1 5 5 5.
Proof. vm_compute. reflexivity. Qed.

(** Two threads; the exchange of the second fails after the first has
    raised the maximum. *)
Definition sample_work : list (list Call) := [[Update 7; Update (-3)]; [Update 5]].

Definition sample_schedule : list (nat * bool) :=
  replicate 3 (0%nat, false) ++ replicate 3 (1%nat, false) ++ [(0%nat, false); (1%nat, false)] ++ replicate 16 (0%nat, true) ++
  replicate 9 (1%nat, false) ++ replicate 12 (0%nat, false).

Lemma stats_correct_witness :
  let st := run true 32 sample_schedule (initial_state (empty_stats true 32) sample_work) in
  stats st = mkStats 3 9 7 (-3) /\ exists schedule', finished (run true 32 schedule' st).
Proof.
  destruct (stats_correct true 32 sample_schedule (empty_stats true 32) sample_work) as (H1 & _ & _ & H2).
  - repeat constructor; done.
  - reflexivity.
  - reflexivity.
  - split; [|exact H2]. apply H1. intros t Ht.
    replace (threads _) with (replicate 2 (Ready, @nil Call)) in Ht by (vm_compute; reflexivity).
    by apply elem_of_replicate in Ht as [-> _].
Defined.

(** The test of the library for a counter. *)
Example counter_ops :
  let ops := [PostIncrement; PreIncrement; PlusEq 2; Add 3; Load; Set_ 42; Load; ResetCount; Load] in
  (foldl (fun '(v, out) op => let '(v, r) := count_op true 32 op v in (v, out ++ [r])) (0, []) ops).2 =
  [Some 0; Some 2; Some 4; None; Some 7; None; Some 42; None; Some 0].
Proof. reflexivity. Qed.

(** A reset that meets an update may leave a metric that counts no sample but
    has a total. *)
Example reset_is_not_atomic :
  let st := run true 32 [(0%nat, false); (1%nat, false); (1%nat, false); (0%nat, false)] (initial_state (empty_stats true 32) [[Update 5]; [Reset]]) in
  count_ (stats st) = 0 /\ total_ (stats st) = 5.
Proof. split; reflexivity. Qed.
