(* ===== verification/Metrics.v ===== *)
(** * The metric registry and its CSV output

    [metrics/metric_registry.hpp], [metrics/metric_csv_formatter*.hpp] and
    [metrics/metric_dumper*.hpp].  Metrics are registered under a name; the
    formatter writes one column for each name and a row whenever it is asked.
    A metric is what it reads from memory, a map from addresses to integers.
    [std::sort] and the order in which an [unordered_multimap] is traversed
    are given by what the C++ standard says about them.  An output stream is
    the list of the things written to it: a [double] is not turned into
    text. *)

From stdpp Require Import sorting strings.
From Stdlib Require Import Floats.SpecFloat.
From S2P Require Import Prelude Lifetime.
Open Scope Z_scope.

(** ** The C++ standard library *)

Class StdSort : Type := {
  std_sort : forall {A}, (A -> A -> bool) -> list A -> list A;
  std_sort_law : forall {A} (less : A -> A -> bool) (l : list A),
    (forall x, less x x = false) ->
    (forall x y z, less x y = true -> less y z = true -> less x z = true) ->
    (forall x y z, less x y = false -> less y z = false -> less x z = false) ->
    std_sort less l ≡ₚ l /\ StronglySorted (fun x y => less y x = false) (std_sort less l) }.

Class UnorderedMap : Type := {
  traverse : forall {A}, list A -> list A;
  traverse_law : forall {A} (l : list A), traverse l ≡ₚ l }.

(** [std::unique]: the first of each group of neighbours that are equal. *)
Fixpoint unique_from {A} (eq : A -> A -> bool) (last : A) (l : list A) : list A :=
  match l with
  | [] => []
  | x :: l => if eq last x then unique_from eq last l else x :: unique_from eq x l
  end.

Definition std_unique {A} (eq : A -> A -> bool) (l : list A) : list A :=
  match l with [] => [] | x :: l => x :: unique_from eq x l end.

(** [static_cast<double>] of an integer: the nearest double. *)
Definition to_double (z : Z) : spec_float := binary_normalize 53 1024 z 0 false.

Section metrics.
Context {sort : StdSort} {map : UnorderedMap}.

(** ** Labels *)

(* @ src/batteries/metrics/metric_registry.hpp 31-34 MetricLabel *)
Record MetricLabel : Type := mkLabel { key : string; value : string }.

(* @ src/batteries/metrics/metric_registry_impl.hpp 24-37 normalize_labels *)
Definition normalize_labels (labels : list MetricLabel) : list MetricLabel :=
  let labels := std_sort (fun left right => String.ltb (key left) (key right)) labels in
  std_unique (fun left right => bool_decide (key left = key right)) labels.

(** ** Metrics and exporters *)

Abbreviation Memory := (nat -> Z).

(** The addresses of the counters that a metric is made of. *)
Inductive Metric : Type :=
| CountMetric (value : nat)
| LatencyMetric (total_usec count : nat)
| GaugeMetric (value : nat)
| StatsMetric (count total max min : nat)
| WatchMetric (watch : nat)
| QueueMetric (size : nat)
| DerivedMetric (f : Memory -> Z)
| Variable_ (var : nat).

(* @ src/batteries/metrics/metric_registry.hpp 47-84 MetricExporter *)
Record MetricExporter : Type := mkExporter { get_name : string; labels_ : list MetricLabel; get_value : Memory -> spec_float }.

(** A metric that is one counter. *)
(* @ src/batteries/metrics/metric_registry.hpp 89-112 ScalarMetricExporter *)
Definition scalar_exporter (name : string) (metric : nat) : MetricExporter :=
  mkExporter name [] (fun m => to_double (m metric)).

(* @ src/batteries/metrics/metric_registry.hpp 129-152 DerivedMetricExporter *)
Definition derived_exporter (name : string) (metric : Memory -> Z) : MetricExporter :=
  mkExporter name [] (fun m => to_double (metric m)).

(* @ src/batteries/metrics/metric_registry.hpp 157-178 VariableExporter *)
Definition variable_exporter (name : string) (var : nat) : MetricExporter :=
  mkExporter name [] (fun m => to_double (m var)).

(* @ src/batteries/metrics/metric_registry.hpp 183-204 WatchExporter *)
Definition watch_exporter (name : string) (watch : nat) : MetricExporter :=
  mkExporter name [] (fun m => to_double (m watch)).

(* @ src/batteries/metrics/metric_registry.hpp 209-231 QueueDepthExporter *)
Definition queue_depth_exporter (name : string) (queue : nat) : MetricExporter :=
  mkExporter name [] (fun m => to_double (m queue)).

(* @ src/batteries/metrics/metric_registry.hpp 248-350 MetricRegistry::add *)
Definition exporters (name : string) (metric : Metric) : list MetricExporter :=
  match metric with
  | CountMetric value => [scalar_exporter name value]
  | LatencyMetric total_usec count =>
      [scalar_exporter (name +:+ "_total_usec") total_usec; scalar_exporter (name +:+ "_count") count]
  | GaugeMetric value => [scalar_exporter (name +:+ "_gauge") value]
  | StatsMetric count total max min =>
      [scalar_exporter (name +:+ "_count") count; scalar_exporter (name +:+ "_total") total;
       scalar_exporter (name +:+ "_max") max; scalar_exporter (name +:+ "_min") min]
  | WatchMetric watch => [watch_exporter name watch]
  | QueueMetric size => [queue_depth_exporter (name +:+ "_queue_depth") size]
  | DerivedMetric f => [derived_exporter name f]
  | Variable_ var => [variable_exporter name var]
  end.

(** ** The registry *)

(** [metrics_]: the exporters by the address of the object they belong to. *)
Abbreviation MetricRegistry := (list (nat * MetricExporter)).

(** The registry and what is left of the labels: they are moved into the
    exporter. *)
(* @ src/batteries/metrics/metric_registry.hpp 239-246 MetricRegistry::add_exporter *)
Definition add_exporter (obj : nat) (exporter : MetricExporter) (labels : list MetricLabel) (metrics_ : MetricRegistry) : MetricRegistry * list MetricLabel :=
  (metrics_ ++ [(obj, mkExporter (get_name exporter) (normalize_labels labels) (get_value exporter))], []).

(** Every exporter of the metric is given the same variable [labels]. *)
(* @ src/batteries/metrics/metric_registry.hpp 257-309 MetricRegistry::add *)
Definition add (obj : nat) (name : string) (metric : Metric) (labels : list MetricLabel) (metrics_ : MetricRegistry) : MetricRegistry :=
  (foldl (fun r e => add_exporter obj e r.2 r.1) (metrics_, labels) (exporters name metric)).1.

(* @ src/batteries/metrics/metric_registry.hpp 380-386 MetricRegistry::remove *)
Definition remove (obj : nat) (metrics_ : MetricRegistry) : MetricRegistry :=
  filter (fun p => negb (bool_decide (p.1 = obj))) metrics_.

(** The arguments of the calls of [fn], in order. *)
(* @ src/batteries/metrics/metric_registry.hpp 354-376 MetricRegistry::read_all *)
Definition read_all (m : Memory) (metrics_ : MetricRegistry) : list (string * spec_float * list MetricLabel) :=
  (fun p => (get_name p.2, get_value p.2 m, labels_ p.2)) <$> traverse metrics_.

(** ** The CSV formatter *)

(** What has been written to an output stream; [SetPrecision] is for the
    numbers that follow. *)
Inductive Out : Type := Text (s : string) | Integer (n : Z) | Double (d : spec_float) | SetPrecision (n : Z).

(* @ src/batteries/metrics/metric_csv_formatter.hpp 33-44 MetricCsvFormatter *)
Record Csv : Type := mkCsv { id_ : Z; start_time_ : Z; index_of_ : gmap string nat; values_ : list spec_float }.

(* @ src/batteries/metrics/metric_csv_formatter.hpp 31-43 MetricCsvFormatter *)
Definition fresh_csv : Csv := mkCsv 0 0 ∅ [].

(** [std::vector::resize]. *)
Definition resize_values (n : nat) (vs : list spec_float) : list spec_float := take n vs ++ replicate (n - length vs) (S754_zero false).

(* @ src/batteries/metrics/metric_csv_formatter_impl.hpp 26-46 MetricCsvFormatter::initialize *)
Definition initialize (now : Z) (m : Memory) (src : MetricRegistry) (c : Csv) : Csv * list Out :=
  let all_names := std_sort String.ltb ((fun r => r.1.1) <$> read_all m src) in
  let index_of := foldl (fun t '(i, name) => <[name := i]> t) (index_of_ c) (imap pair all_names) in
  let dst := [Text "id,time_usec,date_time"] ++ concat ((fun name => [Text ","; Text name]) <$> all_names) ++ [Text "\n"] in
  (mkCsv 0 now index_of (resize_values (length all_names) (values_ c)), dst).

(** One call of the function that [format_values] passes to [read_all]. *)
(* @ src/batteries/metrics/metric_csv_formatter_impl.hpp 59-65 MetricCsvFormatter::format_values *)
Definition set_value (index_of : gmap string nat) (vs : list spec_float) (r : string * spec_float * list MetricLabel) : cxx (list spec_float) :=
  match index_of !! r.1.1 with
  | None => mret vs
  | Some i => if (i <? length vs)%nat then mret (<[i := r.1.2]> vs) else Undefined
  end.

Fixpoint set_values (index_of : gmap string nat) (vs : list spec_float) (rs : list (string * spec_float * list MetricLabel)) : cxx (list spec_float) :=
  match rs with [] => mret vs | r :: rs => vs ← set_value index_of vs r; set_values index_of vs rs end.

(** [date]: the text of the time of day. *)
(* @ src/batteries/metrics/metric_csv_formatter_impl.hpp 50-79 MetricCsvFormatter::format_values *)
Definition format_values (now : Z) (date : string) (m : Memory) (src : MetricRegistry) (c : Csv) : cxx (Csv * list Out) :=
  let id := id_ c + 1 in
  let time_usec := to_double (now - start_time_ c) in
  vs ← set_values (index_of_ c) (values_ c) (read_all m src);
  mret (mkCsv id (start_time_ c) (index_of_ c) vs,
        [Integer id; Text ","; Double time_usec; Text ","; Text date] ++
        concat ((fun v => [Text ","; SetPrecision 10; Double v]) <$> vs) ++ [Text "\n"]).

(** What a row is made of. *)
Record Reading : Type := mkReading { now_ : Z; date_ : string; memory : Memory; registry : MetricRegistry }.

Fixpoint format_rows (rows : list Reading) (c : Csv) : cxx (Csv * list (list Out)) :=
  match rows with
  | [] => mret (c, [])
  | r :: rows =>
      p ← format_values (now_ r) (date_ r) (memory r) (registry r) c;
      q ← format_rows rows p.1;
      mret (q.1, p.2 :: q.2)
  end.

(** ** Labels are sorted and have different keys *)

Lemma ltb_leb (s t : string) : String.ltb s t = negb (String.leb t s).
Proof using. unfold String.ltb, String.leb. rewrite (String.compare_antisym t s). by destruct (String.compare s t). Qed.

Lemma ltb_false (s t : string) : String.ltb s t = false <-> String.le t s.
Proof using. rewrite ltb_leb. unfold String.le. by destruct (String.leb t s). Qed.

Lemma ltb_irrefl (s : string) : String.ltb s s = false.
Proof using. by apply ltb_false. Qed.

Lemma ltb_ge_trans (s t u : string) : String.ltb s t = false -> String.ltb t u = false -> String.ltb s u = false.
Proof using. rewrite !ltb_false. intros H1 H2. by transitivity t. Qed.

Lemma ltb_trans (s t u : string) : String.ltb s t = true -> String.ltb t u = true -> String.ltb s u = true.
Proof using.
  intros H1 H2. destruct (String.ltb s u) eqn:E; [done|]. apply ltb_false in E.
  assert (String.le t s) as H3. { transitivity u; [|done]. apply ltb_false. destruct (String.ltb u t) eqn:E'; [|done].
    rewrite ltb_leb in E', H2. apply negb_true_iff in E', H2. destruct (String.leb_total t u); congruence. }
  apply ltb_false in H3. congruence.
Qed.

Lemma StronglySorted_weaken {A} (R R' : A -> A -> Prop) (l : list A) :
  (forall x y, R x y -> R' x y) -> StronglySorted R l -> StronglySorted R' l.
Proof using. intros H. induction 1 as [|x l _ IH Hx]; constructor; [done|]. eapply list.Forall_impl; [exact Hx|auto]. Qed.

Lemma sort_strings (l : list string) : std_sort String.ltb l ≡ₚ l /\ StronglySorted String.le (std_sort String.ltb l).
Proof using.
  destruct (std_sort_law String.ltb l ltb_irrefl ltb_trans ltb_ge_trans) as [Hp Hs]. split; [done|].
  eapply StronglySorted_weaken; [|exact Hs]. intros s t. apply ltb_false.
Qed.

Abbreviation key_lt := (fun l r : MetricLabel => String.ltb (key l) (key r) = true).

(** The labels that [std::unique] keeps. *)
Lemma unique_from_sorted (l : list MetricLabel) (last : MetricLabel) :
  StronglySorted (fun l r => String.ltb (key r) (key l) = false) (last :: l) ->
  let l' := last :: unique_from (fun l r => bool_decide (key l = key r)) last l in
  StronglySorted key_lt l' /\ (forall x, x ∈ l' -> x ∈ last :: l) /\ (forall x, x ∈ last :: l -> exists y, y ∈ l' /\ key y = key x).
Proof using.
  revert last. induction l as [|x l IH]; intros last Hs l'; [split_and!; [repeat constructor|done|eauto]|].
  apply StronglySorted_inv in Hs as [Hs Hlast]. apply Forall_cons_iff in Hlast as [Hx Hlast]. unfold l'. simpl.
  destruct (bool_decide_reflect (key last = key x)) as [E|E].
  - destruct (IH last) as (H1 & H2 & H3). { constructor; [by apply StronglySorted_inv in Hs as [Hs _]|done]. }
    split_and!; [done| |].
    + intros y Hy%H2. set_solver.
    + intros y Hy. apply elem_of_cons in Hy as [->|Hy]; [exists last; split; [apply list_elem_of_here|done]|].
      apply elem_of_cons in Hy as [->|Hy]; [exists last; split; [apply list_elem_of_here|done]|]. apply H3. by apply list_elem_of_further.
  - destruct (IH x Hs) as (H1 & H2 & H3). assert (String.ltb (key last) (key x) = true) as Hlt.
    { destruct (String.ltb (key last) (key x)) eqn:E'; [done|]. apply ltb_false in E', Hx. destruct E. by apply (anti_symm String.le). }
    split_and!.
    + constructor; [done|]. constructor; [done|]. apply StronglySorted_inv in H1 as [_ H1].
      eapply list.Forall_impl; [exact H1|]. intros y Hy. by eapply ltb_trans.
    + intros y Hy. apply elem_of_cons in Hy as [->|Hy%H2]; set_solver.
    + intros y Hy. apply elem_of_cons in Hy as [->|(z & Hz & Ez)%H3]; [exists last; split; [apply list_elem_of_here|done]|].
      exists z. split; [by apply list_elem_of_further|done].
Qed.

(** Labels are sorted by key, one label for each key that was given. *)
Theorem normalize_labels_spec (labels : list MetricLabel) :
  StronglySorted key_lt (normalize_labels labels) /\
  (forall x, x ∈ normalize_labels labels -> x ∈ labels) /\
  (forall x, x ∈ labels -> exists y, y ∈ normalize_labels labels /\ key y = key x).
Proof using.
  unfold normalize_labels.
  destruct (std_sort_law (fun l r => String.ltb (key l) (key r)) labels) as [Hp Hs].
  { intros x. apply ltb_irrefl. }
  { intros x y z. apply ltb_trans. }
  { intros x y z. apply ltb_ge_trans. }
  remember (std_sort _ labels) as l eqn:E. clear E. destruct l as [|x l].
  { apply Permutation_nil_l in Hp. subst labels. split_and!; [constructor|done|by intros x ?%elem_of_nil]. }
  destruct (unique_from_sorted l x Hs) as (H1 & H2 & H3). split_and!; [done| |].
  - intros y Hy. rewrite <- Hp. by apply H2.
  - intros y Hy. apply H3. by rewrite Hp.
Qed.

(** ** Every column shows its metric *)

Definition names (src : MetricRegistry) : list string := (fun p => get_name p.2) <$> src.

(** What the metric with this name reads. *)
Definition read_named (name : string) (r : Reading) : option spec_float :=
  (fun p => get_value p.2 (memory r)) <$> head (filter (fun p => get_name p.2 = name) (registry r)).

Definition column (r : Reading) (name : string) (previous : spec_float) : spec_float :=
  match read_named name r with Some v => v | None => previous end.

Definition row_text (id start : Z) (r : Reading) (vs : list spec_float) : list Out :=
  [Integer id; Text ","; Double (to_double (now_ r - start)); Text ","; Text (date_ r)] ++
  concat ((fun v => [Text ","; SetPrecision 10; Double v]) <$> vs) ++ [Text "\n"].

Fixpoint row_texts (id start : Z) (columns : list string) (vs : list spec_float) (rows : list Reading) : list (list Out) :=
  match rows with
  | [] => []
  | r :: rows =>
      let vs := zip_with (column r) columns vs in
      row_text (id + 1) start r vs :: row_texts (id + 1) start columns vs rows
  end.

Definition header_text (columns : list string) : list Out :=
  [Text "id,time_usec,date_time"] ++ concat ((fun name => [Text ","; Text name]) <$> columns) ++ [Text "\n"].

(** [index_of_] says where the columns are. *)
Definition csv_ok (columns : list string) (c : Csv) : Prop :=
  (forall name i, index_of_ c !! name = Some i <-> columns !! i = Some name) /\ length (values_ c) = length columns.

Lemma index_of_columns (columns : list string) :
  NoDup columns -> forall name i,
  foldl (fun t '(i, name) => <[name := i]> t) (∅ : gmap string nat) (imap pair columns) !! name = Some i <-> columns !! i = Some name.
Proof using.
  induction columns as [|x columns IH] using rev_ind; intros Hn name i; [simpl; by rewrite lookup_empty, lookup_nil|].
  apply list.NoDup_app in Hn as (Hn & Hx & _). rewrite imap_app, foldl_app. simpl. rewrite Nat.add_0_r.
  destruct (decide (name = x)) as [->|Hne].
  - rewrite lookup_insert_eq. split.
    + intros [= <-]. apply list_lookup_middle. done.
    + intros Hi. apply lookup_app_Some in Hi as [Hi|[Hl Hi]].
      * apply list_elem_of_lookup_2 in Hi. destruct (Hx _ Hi). apply list_elem_of_here.
      * apply list_lookup_singleton_Some in Hi as [Hi _]. f_equal. lia.
  - rewrite lookup_insert_ne by done. rewrite (IH Hn). split; intros Hi.
    + by apply lookup_app_l_Some.
    + apply lookup_app_Some in Hi as [Hi|[Hl Hi]]; [done|]. apply list_lookup_singleton_Some in Hi as [_ Hi]. congruence.
Qed.

Lemma traverse_names (src : MetricRegistry) (m : Memory) : (fun r => r.1.1) <$> read_all m src ≡ₚ names src.
Proof using. unfold read_all, names. rewrite <- list_fmap_compose. by rewrite traverse_law. Qed.

Lemma initialize_spec (now : Z) (m : Memory) (src : MetricRegistry) :
  NoDup (names src) ->
  exists columns, columns ≡ₚ names src /\ StronglySorted String.le columns /\
    (initialize now m src fresh_csv).2 = header_text columns /\
    csv_ok columns (initialize now m src fresh_csv).1 /\
    values_ (initialize now m src fresh_csv).1 = replicate (length columns) (S754_zero false) /\
    id_ (initialize now m src fresh_csv).1 = 0 /\ start_time_ (initialize now m src fresh_csv).1 = now.
Proof using.
  intros Hn. pose proof (sort_strings ((fun r => r.1.1) <$> read_all m src)) as [Hp Hs].
  eexists. split; [by etransitivity; [exact Hp|apply traverse_names]|]. split; [exact Hs|]. unfold initialize.
  remember (std_sort _ _) as columns eqn:E. clear E. pose proof (traverse_names src m) as Hq. rewrite Hq in Hp. cbn [fst snd index_of_ values_ id_ start_time_ fresh_csv].
  assert (resize_values (length columns) [] = replicate (length columns) (S754_zero false)) as Er.
  { unfold resize_values. rewrite take_nil. simpl. by rewrite Nat.sub_0_r. }
  rewrite Er. split_and!; try done. split; cbn [index_of_ values_].
  - apply index_of_columns. by rewrite Hp.
  - apply length_replicate.
Qed.

(** The values after all the calls of the function: the columns that were
    read have changed. *)
Lemma set_values_spec (columns : list string) (t : gmap string nat) (rs : list (string * spec_float * list MetricLabel)) (vs : list spec_float) :
  (forall name i, t !! name = Some i <-> columns !! i = Some name) -> length vs = length columns ->
  NoDup ((fun r => r.1.1) <$> rs) ->
  exists vs', set_values t vs rs = Val vs' /\ length vs' = length columns /\
    forall i name, columns !! i = Some name ->
      (forall r, r ∈ rs -> r.1.1 = name -> vs' !! i = Some r.1.2) /\
      (name ∉ ((fun r => r.1.1) <$> rs) -> vs' !! i = vs !! i).
Proof using.
  intros Ht. revert vs. induction rs as [|[[name v] labels] rs IH]; intros vs Hl Hn.
  { exists vs. split_and!; [done|done|]. intros i name Hi. split; [by intros r ?%elem_of_nil|done]. }
  apply list.NoDup_cons in Hn as [Hn1 Hn]. simpl in Hn1. cbn [set_values]. unfold set_value. simpl fst. simpl snd.
  destruct (t !! name) as [j|] eqn:Ej.
  - pose proof Ej as Hj. apply Ht in Hj. pose proof (lookup_lt_Some _ _ _ Hj) as Hlt.
    assert ((j <? length vs)%nat = true) as -> by (apply Nat.ltb_lt; lia). cbn [mbind cxx_bind mret cxx_ret].
    destruct (IH (<[j := v]> vs)) as (vs' & E & Hl' & Hv); [by rewrite length_insert|done|].
    exists vs'. split_and!; [done|done|]. intros i name' Hi. destruct (Hv i name' Hi) as [Hv1 Hv2]. split.
    + intros r Hr Hname. apply elem_of_cons in Hr as [->|Hr]; [|by apply Hv1]. simpl in Hname. subst name'.
      apply Ht in Hi. rewrite Ej in Hi. injection Hi as <-. rewrite Hv2 by done. simpl. apply list_lookup_insert_eq. lia.
    + intros Hni. simpl in Hni. apply not_elem_of_cons in Hni as [Hne Hni]. rewrite Hv2 by done.
      apply list_lookup_insert_ne. intros ->. congruence.
  - cbn [mbind cxx_bind mret cxx_ret]. destruct (IH vs) as (vs' & E & Hl' & Hv); [done|done|].
    exists vs'. split_and!; [done|done|]. intros i name' Hi. destruct (Hv i name' Hi) as [Hv1 Hv2]. split.
    + intros r Hr Hname. apply elem_of_cons in Hr as [->|Hr]; [|by apply Hv1]. simpl in Hname. subst name'.
      apply Ht in Hi. congruence.
    + intros Hni. simpl in Hni. apply not_elem_of_cons in Hni as [Hne Hni]. by apply Hv2.
Qed.

(** [head] of the exporters with a name, when there is at most one. *)
Lemma head_filter_name (name : string) (src : MetricRegistry) (p : nat * MetricExporter) :
  NoDup (names src) -> p ∈ src -> get_name p.2 = name -> head (filter (fun p => get_name p.2 = name) src) = Some p.
Proof using.
  intros Hn Hp E. induction src as [|q src IH]; [by apply elem_of_nil in Hp|].
  unfold names in Hn. rewrite fmap_cons in Hn. apply list.NoDup_cons in Hn as [Hq Hn]. rewrite filter_cons. apply elem_of_cons in Hp as [->|Hp].
  - by rewrite decide_True.
  - rewrite decide_False; [by apply IH|]. intros Eq. destruct Hq. rewrite Eq, <- E. by apply (list_elem_of_fmap_2 (fun p => get_name p.2)).
Qed.

Lemma format_values_spec (columns : list string) (r : Reading) (c : Csv) :
  csv_ok columns c -> NoDup (names (registry r)) ->
  let vs := zip_with (column r) columns (values_ c) in
  let c' := mkCsv (id_ c + 1) (start_time_ c) (index_of_ c) vs in
  format_values (now_ r) (date_ r) (memory r) (registry r) c = Val (c', row_text (id_ c + 1) (start_time_ c) r vs) /\ csv_ok columns c'.
Proof using.
  intros [Ht Hl] Hn vs c'. unfold format_values.
  destruct (set_values_spec columns (index_of_ c) (read_all (memory r) (registry r)) (values_ c) Ht Hl) as (vs' & E & Hl' & Hv).
  { by rewrite traverse_names. }
  assert (vs' = vs) as ->.
  { apply list_eq. intros i. unfold vs. rewrite lookup_zip_with. destruct (columns !! i) as [name|] eqn:Hi; simpl.
    - destruct (Hv i name Hi) as [Hv1 Hv2]. destruct (lookup_lt_is_Some_2 (values_ c) i) as [v Hvi].
      { rewrite Hl. by apply lookup_lt_Some in Hi. }
      rewrite Hvi. simpl. unfold column, read_named. destruct (decide (name ∈ names (registry r))) as [Hin|Hni].
      + unfold names in Hin. apply list_elem_of_fmap in Hin as (p & -> & Hp). rewrite (head_filter_name _ _ p) by done. simpl.
        apply (Hv1 (get_name p.2, get_value p.2 (memory r), labels_ p.2)); [|done]. unfold read_all.
        apply (list_elem_of_fmap_2 (fun p => (get_name p.2, get_value p.2 (memory r), labels_ p.2))). by rewrite traverse_law.
      + rewrite Hv2 by (by rewrite traverse_names). rewrite Hvi. destruct (filter _ _) as [|p l] eqn:Ef; [done|].
        assert (p ∈ filter (fun p => get_name p.2 = name) (registry r)) as Hp by (rewrite Ef; apply list_elem_of_here).
        apply list_elem_of_filter in Hp as [<- Hp]. destruct Hni. by apply (list_elem_of_fmap_2 (fun p => get_name p.2)).
    - apply lookup_ge_None in Hi. apply lookup_ge_None. lia. }
  rewrite E. split; [done|]. split; [done|]. subst c' vs. cbn [values_]. rewrite length_zip_with. lia.
Qed.

Lemma format_rows_spec (columns : list string) (rows : list Reading) (c : Csv) :
  csv_ok columns c -> Forall (fun r => NoDup (names (registry r))) rows ->
  exists c', format_rows rows c = Val (c', row_texts (id_ c) (start_time_ c) columns (values_ c) rows).
Proof using.
  revert c. induction rows as [|r rows IH]; intros c Hc Hn; [by exists c|]. apply Forall_cons_iff in Hn as [Hr Hn].
  destruct (format_values_spec columns r c Hc Hr) as [E Hc']. cbn [format_rows]. rewrite E. cbn [mbind cxx_bind fst snd].
  destruct (IH _ Hc' Hn) as (c' & E'). exists c'. rewrite E'. done.
Qed.

(** C32: what a [MetricCsvFormatter] writes that is initialized once: the
    header names the metrics that are registered at the start, in alphabetical
    order, whatever the order of the container; in every row each of these
    columns shows what the metric of that name reads at that moment, or what it
    last read when it has been removed, and metrics that were added later do
    not disturb; no value is written out of range.  The metrics that are
    registered at any one time have different names ([same_name]); a formatter
    that is initialized again can write out of range ([initialized_again]). *)
Theorem csv_correct (now : Z) (m : Memory) (src : MetricRegistry) (rows : list Reading) :
  NoDup (names src) -> Forall (fun r => NoDup (names (registry r))) rows ->
  let '(c, header) := initialize now m src fresh_csv in
  exists columns c', columns ≡ₚ names src /\ StronglySorted String.le columns /\ header = header_text columns /\
    format_rows rows c = Val (c', row_texts 0 now columns (replicate (length columns) (S754_zero false)) rows).
Proof using.
  intros Hn Hr. destruct (initialize_spec now m src Hn) as (columns & Hp & Hs & Hh & Hc & Hv & Hi & Ht).
  destruct (initialize now m src fresh_csv) as [c header]. simpl in *.
  destruct (format_rows_spec columns rows c Hc Hr) as (c' & E). rewrite Hi, Ht, Hv in E. eauto 10.
Qed.

(** ** The dumper *)

(** The loop of the thread: each turn reads the registry and says whether the
    promise has been satisfied by then.  The rows, and whether the loop has
    been left. *)
(* @ src/batteries/metrics/metric_dumper_impl.hpp 32-50 MetricDumper::MetricDumper *)
Fixpoint dump_loop (turns : list (Reading * bool)) (c : Csv) : cxx (list (list Out) * bool) :=
  match turns with
  | [] => mret ([], false)
  | (r, stop_requested) :: turns =>
      p ← format_values (now_ r) (date_ r) (memory r) (registry r) c;
      if (stop_requested : bool) then mret ([p.2], true)
      else q ← dump_loop turns p.1; mret (p.2 :: q.1, q.2)
  end.

(** The dumper writes one row after it has seen the request to stop, and then
    no more. *)
Lemma dump_until_stopped (before : list Reading) (r : Reading) (after : list (Reading * bool)) (c : Csv) :
  dump_loop (((fun r => (r, false)) <$> before) ++ (r, true) :: after) c =
  (q ← format_rows (before ++ [r]) c; mret (q.2, true)).
Proof using.
  revert c. induction before as [|b before IH]; intros c; simpl.
  - by destruct (format_values _ _ _ _ c).
  - destruct (format_values _ _ _ _ c) as [[c' row]| |]; simpl; [|done|done]. rewrite IH. by destruct (format_rows _ c').
Qed.
End metrics.

(** [done_] satisfied, and whether there is a thread to join. *)
(* @ src/batteries/metrics/metric_dumper.hpp 41-48 MetricDumper *)
Record Dumper : Type := mkDumper { done_ : bool; thread_ : bool }.

(** A promise that is satisfied twice throws. *)
(* @ src/batteries/metrics/metric_dumper_impl.hpp 63-66 MetricDumper::halt *)
Definition halt (d : Dumper) : cxx Dumper := if done_ d then Panics else mret (mkDumper true (thread_ d)).

(* @ src/batteries/metrics/metric_dumper_impl.hpp 70-76 MetricDumper::join *)
Definition join_ (d : Dumper) : Dumper := mkDumper (done_ d) false.

(** The destructor calls [stop] too. *)
(* @ src/batteries/metrics/metric_dumper.hpp 35-39 MetricDumper::stop *)
Definition stop (d : Dumper) : cxx Dumper := d ← halt d; mret (join_ d).

(** [dumper.stop()] and then the destructor, which is [noexcept]: the program
    is terminated. *)
Example stop_then_destroy : (d ← stop (mkDumper false true); stop d) = Panics.
Proof. reflexivity. Qed.

(** ** A standard library *)

Lemma asymmetric {A} (less : A -> A -> bool) :
  (forall x, less x x = false) -> (forall x y z, less x y = true -> less y z = true -> less x z = true) ->
  forall x y, less x y = true -> less y x = false.
Proof. intros Hi Ht x y H. destruct (less y x) eqn:E; [|done]. by rewrite <- (Hi x), (Ht x y x H E). Qed.

Definition not_after {A} (less : A -> A -> bool) (x y : A) : Prop := less y x = false.

#[export] Instance not_after_dec {A} (less : A -> A -> bool) : RelDecision (not_after less).
Proof. intros x y. unfold not_after. apply _. Defined.

#[export] Instance merge_std_sort : StdSort.
Proof.
  refine {| std_sort A less := merge_sort (not_after less) |}. intros A less l Hi Ht Hw. split; [apply merge_sort_Permutation|]. apply StronglySorted_merge_sort.
  - intros x y z H1 H2. by apply (Hw z y x).
  - intros x y. unfold not_after. destruct (less y x) eqn:E; [right; by apply asymmetric|by left].
Defined.

#[export] Instance reverse_map : UnorderedMap.
Proof. refine {| traverse A l := reverse l |}. intros A l. apply reverse_Permutation. Defined.

Definition sample_memory : nat -> Z := fun a => nth a [42; 10000; 7] 0.

Definition sample_registry : list (nat * MetricExporter) :=
  add 1 "requests" (CountMetric 2) [] (add 0 "latency" (LatencyMetric 1 0) [mkLabel "Job" "batteries"; mkLabel "Instance" "localhost"; mkLabel "Job" "batteries"] []).

(** Of the two exporters of the latency, only the first has its labels. *)
Example labels_moved_away :
  (fun p => (get_name p.2, labels_ p.2)) <$> sample_registry
  = [("latency_total_usec", [mkLabel "Instance" "localhost"; mkLabel "Job" "batteries"]); ("latency_count", []); ("requests", [])].
Proof. vm_compute. reflexivity. Qed.

(** The counter is removed before the second row. *)
Definition sample_rows : list Reading :=
  [mkReading 1500 "d1" sample_memory sample_registry; mkReading 3000 "d2" (fun a => 2 * sample_memory a) (remove 1 sample_registry)].

Example sample_values :
  let c := (initialize 0 sample_memory sample_registry fresh_csv).1 in
  (p ← format_rows sample_rows c; mret (values_ p.1)) = Val (to_double <$> [84; 20000; 7]).
Proof. vm_compute. reflexivity. Qed.

Lemma csv_correct_witness :
  exists columns c', columns ≡ₚ names sample_registry /\
    format_rows sample_rows (initialize 0 sample_memory sample_registry fresh_csv).1 =
      Val (c', row_texts 0 0 columns (replicate (length columns) (S754_zero false)) sample_rows).
Proof.
  pose proof (csv_correct 0 sample_memory sample_registry sample_rows) as H.
  destruct H as (columns & c' & H1 & _ & _ & H2).
  - apply (bool_decide_unpack _). vm_compute. exact I.
  - repeat constructor; apply (bool_decide_unpack _); vm_compute; exact I.
  - exists columns, c'. split; [exact H1|exact H2].
Defined.

(** Two metrics with one name have two columns, but one of these stays 0. *)
Example same_name :
  let r := add 1 "n" (CountMetric 2) [mkLabel "shard" "1"] (add 0 "n" (CountMetric 1) [mkLabel "shard" "0"] []) in
  (p ← format_values 0 "" sample_memory r (initialize 0 sample_memory r fresh_csv).1; mret (values_ p.1)) = Val (to_double <$> [0; 10000]).
Proof. vm_compute. reflexivity. Qed.

(** A formatter that is initialised again keeps its old columns in [index_of_],
    but not the room for their values. *)
Example initialized_again :
  let c := (initialize 0 sample_memory sample_registry fresh_csv).1 in
  let c := (initialize 0 sample_memory (remove 0 sample_registry) c).1 in
  format_values 0 "" sample_memory sample_registry c = Undefined.
Proof. vm_compute. reflexivity. Qed.
