(* ===== verification/Buffer.v ===== *)
(** * Buffers

    [buffer.hpp]: sequences of buffers that are consumed from the front,
    slices of a buffer, and reference counted views of a managed buffer.

    A [ConstBuffer] is the list of the bytes it refers to; a buffer sequence is
    a list of buffers, and an iterator into one is the part of the sequence
    that starts at the iterator. *)

From S2P Require Import Prelude.
Open Scope Z_scope.

Abbreviation buffer := (list Z).

(** [boost::asio::buffer_size] *)
Definition buffer_size (bufs : list buffer) : nat := length (concat bufs).

(** [buffer += n] of [boost::asio::const_buffer] moves past at most the whole buffer. *)
Definition advance (n : nat) (b : buffer) : buffer := drop n b.

(* @ src/batteries/buffer.hpp 66-74 resize_buffer *)
Definition resize_buffer (b : buffer) (s : nat) : buffer := take (Nat.min s (length b)) b.

(** [cast]: the conversion of a [usize] to the type of the bounds of the interval. *)
(* @ src/batteries/buffer.hpp 78-116 detail::slice_buffer_impl, slice_buffer *)
Definition slice_buffer (cast : Z -> Z) (b : buffer) (lower_bound upper_bound : Z) : buffer :=
  let clamp z := Z.max 0 (Z.min z (cast (Z.of_nat (length b)))) in
  let begin_i := clamp lower_bound in
  let end_i := clamp upper_bound in
  if begin_i <? end_i then take (Z.to_nat (end_i - begin_i)) (drop (Z.to_nat begin_i) b) else [].

(* @ src/batteries/buffer.hpp 118-132 consume_buffers *)
Fixpoint consume_buffers (buffers : list buffer) (count : nat) : outcome (list buffer) :=
  match count, buffers with
  | O, _ => Done buffers
  | S _, [] => Panic
  | S _, front :: rest =>
      if (count <? length front)%nat then Done (advance count front :: rest)
      else consume_buffers rest (count - length front)
  end.

(** [first .. last) and the offset of the position within its first buffer. *)
(* @ src/batteries/buffer.hpp 134-154 consume_buffers_iter *)
Fixpoint consume_buffers_iter (first : list buffer) (offset count : nat) : list buffer * nat :=
  match count, first with
  | S _, b :: first' =>
      let front := advance offset b in
      if (count <? length front)%nat then (first, count)
      else consume_buffers_iter first' 0 (count - length front)
  | _, _ => (first, O)
  end.

(* @ src/batteries/buffer.hpp 156-162 consume_buffers_copy *)
Definition consume_buffers_copy (buffers : list buffer) (count : nat) : outcome (list buffer) :=
  consume_buffers buffers count.

(** ** Views of a managed buffer *)

(* @ src/batteries/buffer.hpp 169-191 ManagedBuffer::kCapacity *)
Definition kCapacity : Z := 4096.

(** [buffer_] is the address of the shared [ManagedBuffer]. *)
(* @ src/batteries/buffer.hpp 239-242 BufferViewImpl *)
Record BufferViewImpl : Type := mkView { buffer_ : nat; offset_ : Z; length_ : Z }.

(* @ src/batteries/buffer.hpp 198-203 BufferViewImpl::BufferViewImpl *)
Definition view_from (buffer : nat) (offset : Z) : BufferViewImpl := mkView buffer offset (u64 (kCapacity - offset)).

(* @ src/batteries/buffer.hpp 205-210 BufferViewImpl::BufferViewImpl *)
Definition view_slice (buffer : nat) (offset length : Z) : BufferViewImpl := mkView buffer offset length.

(* @ src/batteries/buffer.hpp 222-228 BufferViewImpl::operator+= *)
Definition view_advance (v : BufferViewImpl) (delta : Z) : BufferViewImpl :=
  let delta := Z.min delta (length_ v) in
  mkView (buffer_ v) (u64 (offset_ v + delta)) (u64 (length_ v - delta)).

(* @ src/batteries/buffer.hpp 230-237 BufferViewImpl::append *)
Definition view_append (v next : BufferViewImpl) : bool * BufferViewImpl :=
  if (buffer_ v =? buffer_ next)%nat && (u64 (offset_ v + length_ v) =? offset_ next)
  then (true, mkView (buffer_ v) (offset_ v) (u64 (length_ v + length_ next)))
  else (false, v).

(** ** Consuming from the front *)

Lemma buffer_size_cons (b : buffer) (bufs : list buffer) : buffer_size (b :: bufs) = (length b + buffer_size bufs)%nat.
Proof. unfold buffer_size. simpl. by rewrite length_app. Qed.

Lemma buffer_size_app (bufs bufs' : list buffer) :
  buffer_size (bufs ++ bufs') = (buffer_size bufs + buffer_size bufs')%nat.
Proof. unfold buffer_size. by rewrite concat_app, length_app. Qed.

(** [consume_buffers] drops exactly [count] bytes, and panics when there are fewer. *)
Lemma consume_buffers_spec (buffers : list buffer) (count : nat) :
  match consume_buffers buffers count with
  | Done bufs' => (count <= buffer_size buffers)%nat /\ concat bufs' = drop count (concat buffers)
  | Panic => (buffer_size buffers < count)%nat
  end.
Proof.
  revert count. induction buffers as [|b bufs IH]; intros [|n]; simpl consume_buffers;
    [split; [lia|by rewrite drop_0]|unfold buffer_size; simpl; lia|split; [lia|by rewrite drop_0]|].
  rewrite buffer_size_cons. destruct (S n <? length b)%nat eqn:E; bool_cases.
  - split; [lia|]. simpl concat. unfold advance. rewrite drop_app_le by lia. done.
  - specialize (IH (S n - length b)%nat). destruct (length b) as [|m] eqn:Em.
    + destruct (consume_buffers bufs _) as [bufs'|]; [|lia]. destruct IH as [H1 H2]. split; [lia|].
      apply length_zero_iff_nil in Em as ->. by rewrite H2, Nat.sub_0_r.
    + destruct (consume_buffers bufs _) as [bufs'|]; [|lia]. destruct IH as [H1 H2]. split; [lia|].
      cbn [concat]. rewrite drop_app_ge by lia. by rewrite H2, Em.
Qed.

Lemma consume_buffers_done (buffers : list buffer) (count : nat) :
  (count <= buffer_size buffers)%nat ->
  exists bufs', consume_buffers buffers count = Done bufs' /\ concat bufs' = drop count (concat buffers).
Proof.
  intros H. pose proof (consume_buffers_spec buffers count) as Hs.
  destruct (consume_buffers buffers count) as [bufs'|]; [|lia]. exists bufs'. by destruct Hs.
Qed.

(** The bytes from a position to the end of the sequence. *)
Definition bytes_from (pos : list buffer * nat) : list Z := drop pos.2 (concat pos.1).

(** [consume_buffers_iter] counts from the start of the buffer it stands in,
    not from its offset: it moves on by [count] bytes from the start of a
    buffer, or when it leaves the buffer it is in. *)
Lemma consume_buffers_iter_spec (first : list buffer) (offset count : nat) :
  offset = O \/ (exists b rest, first = b :: rest /\ (offset <= length b)%nat /\ (length b - offset <= count)%nat /\ (0 < count)%nat) ->
  (count <= length (bytes_from (first, offset)))%nat ->
  bytes_from (consume_buffers_iter first offset count) = drop count (bytes_from (first, offset)).
Proof.
  unfold bytes_from. revert offset count. induction first as [|b first IH]; intros offset count Hpos Hc.
  { destruct count; simpl in *; by rewrite !drop_nil. }
  destruct count as [|n]; cbn [consume_buffers_iter].
  { destruct Hpos as [->|(? & ? & _ & _ & _ & H)]; [done|lia]. }
  unfold advance. rewrite length_drop.
  assert (offset <= length b)%nat as Ho.
  { destruct Hpos as [->|(? & ? & [= <- <-] & H & _)]; [lia|done]. }
  simpl in Hc. rewrite length_drop, length_app in Hc.
  destruct (S n <? length b - offset)%nat eqn:E; bool_cases.
  - destruct Hpos as [->|(? & ? & [= <- <-] & H)]; [|lia]. done.
  - rewrite IH; [|by left|cbn; rewrite drop_0; lia]. cbn [fst snd]. rewrite drop_0. cbn [concat].
    rewrite drop_drop, drop_app_ge by lia. f_equal. lia.
Qed.

(** Within a buffer it goes back to where [count] says, whatever the offset was. *)
Lemma consume_buffers_iter_within (b : buffer) (rest : list buffer) (offset count : nat) :
  (0 < count)%nat -> (count < length b - offset)%nat ->
  consume_buffers_iter (b :: rest) offset count = (b :: rest, count).
Proof.
  intros H1 H2. destruct count as [|n]; [lia|]. cbn [consume_buffers_iter]. unfold advance. rewrite length_drop.
  destruct (S n <? length b - offset)%nat eqn:E; bool_cases; [done|lia].
Qed.

(** ** Slices *)

Lemma slice_buffer_spec (cast : Z -> Z) (b : buffer) (lower_bound upper_bound : Z) (i : nat) :
  cast (Z.of_nat (length b)) = Z.of_nat (length b) ->
  slice_buffer cast b lower_bound upper_bound !! i =
  if (Z.of_nat i <? upper_bound - Z.max 0 lower_bound) then b !! (Z.to_nat (Z.max 0 lower_bound) + i)%nat else None.
Proof.
  intros Hc. unfold slice_buffer. rewrite Hc. set (n := Z.of_nat (length b)).
  destruct (Z.max 0 (Z.min lower_bound n) <? Z.max 0 (Z.min upper_bound n)) eqn:E; bool_cases.
  - assert (Z.max 0 (Z.min lower_bound n) = Z.max 0 lower_bound) as -> by lia.
    destruct (Z.of_nat i <? upper_bound - Z.max 0 lower_bound) eqn:Ei; bool_cases.
    + destruct (decide (i < Z.to_nat (Z.max 0 (Z.min upper_bound n) - Z.max 0 lower_bound))%nat) as [Hi|Hi].
      * by rewrite lookup_take_lt, lookup_drop by done.
      * rewrite lookup_take_ge by lia. symmetry. apply lookup_ge_None_2. unfold n in *. lia.
    + rewrite lookup_take_ge; [done|lia].
  - case_if; [|done]. symmetry. apply lookup_ge_None_2. unfold n in *. lia.
Qed.

(** ** Views *)

(** The view lies in its buffer. *)
Definition view_wf (v : BufferViewImpl) : Prop := 0 <= offset_ v /\ 0 <= length_ v /\ offset_ v + length_ v <= kCapacity.

Definition view_bytes (storage : nat -> list Z) (v : BufferViewImpl) : list Z :=
  take (Z.to_nat (length_ v)) (drop (Z.to_nat (offset_ v)) (storage (buffer_ v))).

Lemma view_advance_spec (storage : nat -> list Z) (v : BufferViewImpl) (delta : Z) :
  view_wf v -> 0 <= delta ->
  view_wf (view_advance v delta) /\ view_bytes storage (view_advance v delta) = drop (Z.to_nat delta) (view_bytes storage v).
Proof.
  unfold view_wf, view_bytes, view_advance, kCapacity. intros (H1 & H2 & H3) Hd. cbn.
  rewrite !uwrap_small by lia. split; [lia|]. rewrite skipn_firstn_comm, drop_drop.
  destruct (decide (delta <= length_ v)) as [H|H].
  - rewrite Z.min_l by done. f_equal; [lia|]. f_equal; lia.
  - rewrite Z.min_r by lia. replace (Z.to_nat (length_ v) - Z.to_nat delta)%nat with O by lia.
    replace (Z.to_nat (length_ v - length_ v)) with O by lia. done.
Qed.

(** Two adjacent views become one that shows the bytes of both. *)
Lemma view_append_spec (storage : nat -> list Z) (v next v' : BufferViewImpl) :
  view_wf v -> view_wf next -> view_append v next = (true, v') ->
  view_wf v' /\ view_bytes storage v' = view_bytes storage v ++ view_bytes storage next.
Proof.
  unfold view_wf, view_bytes, view_append, kCapacity. intros (H1 & H2 & H3) (H4 & H5 & H6).
  destruct (_ && _) eqn:E; [|done]. intros [= <-]. bool_cases. cbn.
  rewrite uwrap_small in * by lia. split; [lia|].
  replace (buffer_ next) with (buffer_ v) by done. rewrite <- (take_drop (Z.to_nat (length_ v)) (take (Z.to_nat (length_ v + length_ next)) _)).
  rewrite take_take, skipn_firstn_comm, drop_drop. f_equal; [f_equal; lia|]. f_equal; [lia|f_equal; lia].
Qed.

Lemma view_from_wf (b : nat) (offset : Z) : 0 <= offset <= kCapacity -> view_wf (view_from b offset).
Proof. unfold view_wf, view_from, kCapacity. cbn. intros H. rewrite uwrap_small by lia. lia. Qed.
