(* ===== verification/BufferSource.v ===== *)
(** * Buffer sources

    [async/buffer_source.hpp] and [async/buffer_source_impl.hpp]: no-copy input
    streams, the adaptors [take_n] and [prepend], and the operators that read a
    stream to its end.  [BufferSource] is the interface that the type-erased
    class of that name stands for; [SourceLaws] is what its clients rely on:
    the source is the list of bytes that are still to come.

    The client side of a call that may wait is one step: [Blocked] says that the
    task waits for data that has not arrived. *)

From S2P Require Import Prelude Status IntMath Buffer.
Open Scope Z_scope.

Inductive io (A : Type) : Type :=
| Ret (a : A)
| Blocked    (* the task waits *)
| Panicked   (* a BATT_CHECK or a checked_cast fails *)
| NoFuel.    (* a loop of the model has run out of fuel *)
Arguments Ret {A} a.
Arguments Blocked {A}.
Arguments Panicked {A}.
Arguments NoFuel {A}.

#[export] Instance io_ret : MRet io := fun A a => Ret a.

#[export] Instance io_bind : MBind io :=
  fun A B k m => match m with Ret a => k a | Blocked => Blocked | Panicked => Panicked | NoFuel => NoFuel end.

Definition io_of {A} (m : outcome A) : io A := match m with Done a => Ret a | Panic => Panicked end.

(** [BATT_CHECKED_CAST(usize, n)] of an [i64] ([IntMath.cast_i64_usize]). *)
Definition to_usize (n : Z) : io nat := if 0 <=? n then Ret (Z.to_nat n) else Panicked.

(** ** The interface *)

(* @ src/batteries/async/buffer_source.hpp 136-187 BufferSource, HasBufferSourceRequirements *)
Class BufferSource (S : Type) : Type := mkBufferSource {
  size : S -> nat;
  fetch_at_least : Z -> S -> io (StatusOr (list buffer) * S);
  consume : Z -> S -> io S;
  close_for_read : S -> io S }.

(** [content s] is the data from the read position of [s] to the end of the
    stream.  [can_consume s k]: the next [k] bytes may be consumed; all that a
    fetch has returned may be consumed at once.  [ended s]: the source has
    reported its end. *)
Class SourceLaws (S : Type) `{BufferSource S} : Type := mkSourceLaws {
  content : S -> list Z;
  valid : S -> Prop;
  can_consume : S -> nat -> Prop;
  ended : S -> Prop;
  fetch_spec (n : Z) (s : S) : valid s -> 0 <= n ->
    match fetch_at_least n s with
    | Ret (OkVal bufs, s') =>
        valid s' /\ content s' = content s /\ concat bufs `prefix_of` content s /\
        (0 < n -> content s <> [] -> (0 < buffer_size bufs)%nat) /\ can_consume s' (buffer_size bufs)
    | Ret (Err e, s') =>
        e = kEndOfStream ->
        valid s' /\ content s' = content s /\ (length (content s) < Nat.max 1 (Z.to_nat n))%nat /\ ended s'
    | Blocked => True
    | _ => False
    end;
  consume_spec (k : nat) (s : S) : valid s -> can_consume s k ->
    exists s', consume (Z.of_nat k) s = Ret s' /\ valid s' /\ content s' = drop k (content s) }.

(** Any part of what a fetch has returned may be consumed, at once or piece by
    piece. *)
Class PartialConsume (S : Type) `{SourceLaws S} : Prop := {
  partial_consume (n : Z) (s s' : S) (bufs : list buffer) (k : nat) :
    valid s -> 0 <= n -> fetch_at_least n s = Ret (OkVal bufs, s') -> (k <= buffer_size bufs)%nat -> can_consume s' k;
  consume_more (k j : nat) (s s' : S) :
    valid s -> can_consume s (k + j) -> consume (Z.of_nat k) s = Ret s' -> can_consume s' j;
  end_keeps (n : Z) (k : nat) (s s' : S) :
    valid s -> 0 <= n -> can_consume s k -> fetch_at_least n s = Ret (Err kEndOfStream, s') -> can_consume s' k }.

(** A fetch that succeeds returns some data, so that the end of the stream is
    always reported as [kEndOfStream]. *)
Class FetchesSome (S : Type) `{SourceLaws S} : Prop :=
  fetches_some (n : Z) (s s' : S) (bufs : list buffer) :
    valid s -> 0 < n -> fetch_at_least n s = Ret (OkVal bufs, s') -> (0 < buffer_size bufs)%nat.

(** A fetch that succeeds returns as much as was asked for. *)
Class FetchesMin (S : Type) `{SourceLaws S} : Prop :=
  fetches_min (n : Z) (s s' : S) (bufs : list buffer) :
    valid s -> 0 <= n -> fetch_at_least n s = Ret (OkVal bufs, s') -> n <= Z.of_nat (buffer_size bufs).

(** The source does not wait for its next byte, and fails only at its end. *)
Class Reliable (S : Type) `{SourceLaws S} : Prop :=
  reliable (s : S) : valid s -> exists r s', fetch_at_least 1 s = Ret (r, s') /\ forall e, r = Err e -> e = kEndOfStream.

(** ** A stream, as its reader sees it

    The buffers that have arrived and are not consumed yet, and whether the
    writer has closed the stream: what [StreamBuffer.stream_buffer_fifo] shows
    of a [StreamBuffer]. *)

Record ByteStream : Type := mkStream { arrived : list buffer; closed : bool }.

(** A fetch of [n] bytes has at least [n] bytes in its first buffer, for which
    they are copied if need be. *)
(* @ src/batteries/async/stream_buffer_impl.hpp 131-148 StreamBuffer::fetch_at_least *)
Definition gather (n : nat) (bufs : list buffer) : list buffer :=
  match bufs with
  | front :: _ :: _ =>
      if (length front <? n)%nat then
        take n (concat bufs) :: match drop n (concat bufs) with [] => [] | rest => [rest] end
      else bufs
  | _ => bufs
  end.

#[export] Instance byte_stream : BufferSource ByteStream := {|
  size s := buffer_size (arrived s);
  fetch_at_least n s :=
    if Z.of_nat (buffer_size (arrived s)) <? n then if closed s then Ret (Err kEndOfStream, s) else Blocked
    else Ret (OkVal (gather (Z.to_nat n) (arrived s)), s);
  consume k s :=
    n ← to_usize k; bufs ← io_of (consume_buffers (arrived s) n); Ret (mkStream bufs (closed s));
  close_for_read s := Ret s |}.

(** ** [HttpData] *)

(** A [BufferSource] that may be empty, as [HttpData] holds it. *)
(* @ src/batteries/http/http_data.hpp 22-59 HttpData *)
#[export] Instance http_data {S} `{BufferSource S} : BufferSource (option S) := {|
  size d := match d with Some s => size s | None => O end;
  fetch_at_least n d :=
    match d with
    | Some s => '(r, s) ← fetch_at_least n s; Ret (r, Some s)
    | None => Ret (Err kEndOfStream, None)
    end;
  consume k d := match d with Some s => s ← consume k s; Ret (Some s) | None => Ret None end;
  close_for_read d := match d with Some s => s ← close_for_read s; Ret (Some s) | None => Ret None end |}.

(** ** [seq::take_n] *)

(* @ src/batteries/async/buffer_source.hpp 281-284 TakeNSource *)
Record TakeNSource (S : Type) : Type := mkTakeN { limit_ : nat; take_src_ : S }.
Arguments mkTakeN {S} limit_ take_src_.
Arguments limit_ {S} _.
Arguments take_src_ {S} _.

(** The loop that trims the fetched buffers from the back, on the reversed list. *)
(* @ src/batteries/async/buffer_source.hpp 253-264 TakeNSource::fetch_at_least *)
Fixpoint trim_back (limit n_fetched : nat) (rev_buffers : list buffer) : list buffer :=
  match rev_buffers with
  | [] => []
  | last_buffer :: rest =>
      if (limit <? n_fetched)%nat then
        let extra_bytes := (n_fetched - limit)%nat in
        if (length last_buffer <=? extra_bytes)%nat then trim_back limit (n_fetched - length last_buffer) rest
        else take (length last_buffer - extra_bytes) last_buffer :: rest
      else rev_buffers
  end.

(* @ src/batteries/async/buffer_source.hpp 231-290 TakeNSource *)
#[export] Instance take_n {S} `{BufferSource S} : BufferSource (TakeNSource S) := {|
  size t := Nat.min (limit_ t) (size (take_src_ t));
  fetch_at_least min_count t :=
    '(fetched, src) ← fetch_at_least min_count (take_src_ t);
    match fetched with
    | Err e => Ret (Err e, mkTakeN (limit_ t) src)
    | OkVal buffers =>
        Ret (OkVal (reverse (trim_back (limit_ t) (buffer_size buffers) (reverse buffers))), mkTakeN (limit_ t) src)
    end;
  consume count t :=
    count ← to_usize count;
    let n_to_consume := Nat.min count (limit_ t) in
    src ← consume (Z.of_nat n_to_consume) (take_src_ t);
    Ret (mkTakeN (limit_ t - n_to_consume) src);
  close_for_read t := Ret (mkTakeN 0 (take_src_ t)) |}.

(** ** [seq::prepend] *)

(* @ src/batteries/async/buffer_source.hpp 535-553 PrependBufferSource *)
Record PrependBufferSource (S : Type) : Type := mkPrepend {
  first_ : list buffer;
  first_buffer_index_ : nat;
  first_buffer_offset_ : nat;
  first_bytes_remaining_ : nat;
  rest_ : S }.
Arguments mkPrepend {S} first_ first_buffer_index_ first_buffer_offset_ first_bytes_remaining_ rest_.
Arguments first_ {S} _.
Arguments first_buffer_index_ {S} _.
Arguments first_buffer_offset_ {S} _.
Arguments first_bytes_remaining_ {S} _.
Arguments rest_ {S} _.

(* @ src/batteries/async/buffer_source.hpp 454-463 PrependBufferSource::PrependBufferSource *)
Definition prepend {S} (buffers : list buffer) (rest : S) : PrependBufferSource S :=
  mkPrepend buffers 0 0 (buffer_size buffers) rest.

Definition set_rest {S} (p : PrependBufferSource S) (rest : S) : PrependBufferSource S :=
  mkPrepend (first_ p) (first_buffer_index_ p) (first_buffer_offset_ p) (first_bytes_remaining_ p) rest.

(** The unread buffers of [first_]; [None] when a check fails. *)
(* @ src/batteries/async/buffer_source.hpp 475-488 PrependBufferSource::fetch_at_least *)
Definition prepend_first {S} (p : PrependBufferSource S) : io (list buffer) :=
  if (0 <? first_bytes_remaining_ p)%nat then
    match drop (first_buffer_index_ p) (first_ p) with
    | [] => Panicked
    | b :: bufs => Ret (advance (first_buffer_offset_ p) b :: bufs)
    end
  else Ret [].

(* @ src/batteries/async/buffer_source.hpp 470-503 PrependBufferSource::fetch_at_least *)
Definition prepend_fetch {S} `{BufferSource S} (min_count_i : Z) (p : PrependBufferSource S)
    : io (StatusOr (list buffer) * PrependBufferSource S) :=
  min_count_z ← to_usize min_count_i;
  buffer ← prepend_first p;
  let rest_min_count := (min_count_z - Nat.min (first_bytes_remaining_ p) min_count_z)%nat in
  '(fetched_from_rest, rest) ← fetch_at_least (Z.of_nat rest_min_count) (rest_ p);
  let p := set_rest p rest in
  match fetched_from_rest with
  | OkVal bufs => Ret (OkVal (buffer ++ bufs), p)
  | Err e =>
      if (match buffer with [] => true | _ => false end) || negb (bool_decide (e = kEndOfStream)) then Ret (Err e, p)
      else Ret (OkVal buffer, p)
  end.

(* @ src/batteries/async/buffer_source.hpp 505-523 PrependBufferSource::consume *)
Definition prepend_consume {S} `{BufferSource S} (count_i : Z) (p : PrependBufferSource S) : io (PrependBufferSource S) :=
  count_z ← to_usize count_i;
  let consume_from_first := Nat.min (first_bytes_remaining_ p) count_z in
  let consume_from_rest := (count_z - consume_from_first)%nat in
  let '(iter, offset) :=
    consume_buffers_iter (drop (first_buffer_index_ p) (first_ p)) (first_buffer_offset_ p) consume_from_first in
  let p := mkPrepend (first_ p) (length (first_ p) - length iter) offset
             (first_bytes_remaining_ p - consume_from_first) (rest_ p) in
  if (0 <? consume_from_rest)%nat then rest ← consume (Z.of_nat consume_from_rest) (rest_ p); Ret (set_rest p rest)
  else Ret p.

(* @ src/batteries/async/buffer_source.hpp 447-553 PrependBufferSource *)
#[export] Instance prepend_source {S} `{BufferSource S} : BufferSource (PrependBufferSource S) := {|
  size p := (first_bytes_remaining_ p + size (rest_ p))%nat;
  fetch_at_least := prepend_fetch;
  consume := prepend_consume;
  close_for_read p := rest ← close_for_read (rest_ p); Ret (mkPrepend (first_ p) (length (first_ p)) 0 0 rest) |}.

(** ** Reading to the end *)

(* @ src/batteries/seq/loop_control.hpp 16-19 seq::LoopControl *)
Inductive LoopControl : Type := kContinue | kBreak.

Section read.
Context {S A : Type} `{BufferSource S}.

(** The loop over the buffers of one fetch: what [fn] has accumulated, and
    whether it has stopped the loop. *)
(* @ src/batteries/async/buffer_source.hpp 337-343 operator|(Src&&, seq::ForEachBinder<Fn>&&) *)
Fixpoint for_each_buffer (fn : A -> buffer -> A * LoopControl) (acc : A) (bufs : list buffer) : A * LoopControl :=
  match bufs with
  | [] => (acc, kContinue)
  | b :: bufs => match fn acc b with (acc, kBreak) => (acc, kBreak) | (acc, kContinue) => for_each_buffer fn acc bufs end
  end.

(* @ src/batteries/async/buffer_source.hpp 327-352 operator|(Src&&, seq::ForEachBinder<Fn>&&) *)
Fixpoint for_each (fuel : nat) (fn : A -> buffer -> A * LoopControl) (acc : A) (src : S)
    : io (StatusOr LoopControl * A * S) :=
  match fuel with
  | O => NoFuel
  | Datatypes.S fuel =>
      '(fetched, src) ← fetch_at_least 1 src;
      match fetched with
      | Err e => Ret (if bool_decide (e = kEndOfStream) then OkVal kContinue else Err e, acc, src)
      | OkVal bufs =>
          match for_each_buffer fn acc bufs with
          | (acc, kBreak) => Ret (OkVal kBreak, acc, src)
          | (acc, kContinue) =>
              let n_to_consume := buffer_size bufs in
              if (n_to_consume =? 0)%nat then Ret (OkVal kContinue, acc, src)
              else src ← consume (Z.of_nat n_to_consume) src; for_each fuel fn acc src
          end
      end
  end.
End read.

Section fold.
Context {S : Type} `{BufferSource S}.

(* @ src/batteries/async/buffer_source.hpp 357-372 operator|(Src&&, seq::CollectVec) *)
Definition collect_vec (fuel : nat) (src : S) : io (StatusOr (list Z) * S) :=
  '(result, bytes, src) ← for_each fuel (fun bytes b => (bytes ++ b, kContinue)) [] src;
  Ret (match result with OkVal _ => OkVal bytes | Err e => Err e end, src).

(** The status, and what has been written to [out]. *)
(* @ src/batteries/async/buffer_source.hpp 377-384 operator|(Src&&, seq::PrintOut) *)
Definition print_out (fuel : nat) (out : list Z) (src : S) : io (StatusOr unit * list Z * S) :=
  '(result, out, src) ← for_each fuel (fun out b => (out ++ b, kContinue)) out src;
  Ret (match result with OkVal _ => OkVal tt | Err e => Err e end, out, src).

(* @ src/batteries/async/buffer_source.hpp 389-399 operator|(Src&&, seq::Consume) *)
Definition consume_all (fuel : nat) (src : S) : io (StatusOr unit * S) :=
  '(result, _, src) ← for_each fuel (fun (_ : unit) b => (tt, kContinue)) tt src;
  match result with
  | Err e => Ret (Err e, src)
  | OkVal kContinue => Ret (OkVal tt, src)
  | OkVal kBreak => Panicked
  end.

(** [write_some bufs dst]: what [Task::await_write_some] does with the
    destination stream, which is not under [src/]. *)
Context {D : Type} (write_some : list buffer -> D -> StatusOr nat * D).

(* @ src/batteries/async/buffer_source.hpp 421-441 operator|(Src&&, seq::WriteToBinder<AsyncWriteStream>&&) *)
Fixpoint write_to (fuel bytes_transferred : nat) (dst : D) (src : S) : io (StatusOr nat * D * S) :=
  match fuel with
  | O => NoFuel
  | Datatypes.S fuel =>
      '(fetched, src) ← fetch_at_least 1 src;
      match fetched with
      | Err e => Ret (if bool_decide (e = kEndOfStream) then OkVal bytes_transferred else Err e, dst, src)
      | OkVal bufs =>
          match write_some bufs dst with
          | (Err e, dst) => Ret (Err e, dst, src)
          | (OkVal bytes_written, dst) =>
              src ← consume (Z.of_nat bytes_written) src;
              write_to fuel (bytes_transferred + bytes_written) dst src
          end
      end
  end.
End fold.

(** ** [SeqBufferSource] *)

(** [seq]: the items that the sequence has left. *)
(* @ src/batteries/async/buffer_source.hpp 223-226 SeqBufferSource *)
Record SeqBufferSource : Type := mkSeqSource { seq_ : list buffer; active_buffers_ : list buffer }.

(* @ src/batteries/async/buffer_source.hpp 205-215 SeqBufferSource::fetch_at_least *)
Fixpoint seq_fetch_loop (active_size min_count : Z) (active_buffers seq : list buffer)
    : StatusOr (list buffer) * SeqBufferSource :=
  if active_size <? min_count then
    match seq with
    | [] => (Err kInvalidArgument, mkSeqSource [] active_buffers)
    | b :: seq => seq_fetch_loop (active_size + Z.of_nat (length b)) min_count (active_buffers ++ [b]) seq
    end
  else (OkVal active_buffers, mkSeqSource seq active_buffers).

(** The comparison with the [usize] makes [min_count] unsigned. *)
(* @ src/batteries/async/buffer_source.hpp 201-216 SeqBufferSource::fetch_at_least *)
Definition seq_fetch (min_count : Z) (s : SeqBufferSource) : StatusOr (list buffer) * SeqBufferSource :=
  seq_fetch_loop (Z.of_nat (buffer_size (active_buffers_ s))) (u64 min_count) (active_buffers_ s) (seq_ s).

(* @ src/batteries/async/buffer_source.hpp 218-221 SeqBufferSource::consume *)
Definition seq_consume (count : Z) (s : SeqBufferSource) : outcome SeqBufferSource :=
  bufs ← consume_buffers (active_buffers_ s) (Z.to_nat (u64 count));
  Done (mkSeqSource (seq_ s) bufs).

(** ** The laws of the sources *)

Lemma io_bind_ret {A B} (m : io A) (k : A -> io B) (b : B) :
  m ≫= k = Ret b <-> exists a, m = Ret a /\ k a = Ret b.
Proof. destruct m; simpl; naive_solver. Qed.

Lemma to_usize_nat (k : nat) : to_usize (Z.of_nat k) = Ret k.
Proof. unfold to_usize. rewrite (proj2 (Z.leb_le 0 _)) by lia. by rewrite Nat2Z.id. Qed.

Lemma to_usize_ret (n : Z) : 0 <= n -> to_usize n = Ret (Z.to_nat n).
Proof. intros H. unfold to_usize. by rewrite (proj2 (Z.leb_le 0 _)) by lia. Qed.

Lemma concat_gather (n : nat) (bufs : list buffer) : concat (gather n bufs) = concat bufs.
Proof.
  unfold gather. destruct bufs as [|b [|b' bufs]]; try done. case_if; [|done].
  rewrite <- (take_drop n (concat (b :: b' :: bufs))) at 3. cbn [concat]. f_equal.
  destruct (drop n _); [done|]. simpl. by rewrite app_nil_r.
Qed.

Lemma size_gather (n : nat) (bufs : list buffer) : buffer_size (gather n bufs) = buffer_size bufs.
Proof. unfold buffer_size. by rewrite concat_gather. Qed.

Lemma consume_stream (s : ByteStream) (k : nat) :
  (k <= buffer_size (arrived s))%nat ->
  exists bufs, consume (Z.of_nat k) s = Ret (mkStream bufs (closed s)) /\ concat bufs = drop k (concat (arrived s)).
Proof.
  intros Hk. cbn -[to_usize Z.of_nat]. rewrite to_usize_nat. cbn.
  destruct (consume_buffers_done _ _ Hk) as (bufs & -> & H). by exists bufs.
Qed.

#[export, refine] Instance byte_stream_laws : SourceLaws ByteStream := {|
  content s := concat (arrived s);
  valid s := True;
  can_consume s k := (k <= buffer_size (arrived s))%nat;
  ended s := closed s = true |}.
Proof.
  - intros n s _ Hn. cbn -[gather buffer_size]. destruct (Z.of_nat (buffer_size (arrived s)) <? n) eqn:E; bool_cases.
    + destruct (closed s) eqn:Ec; [|done]. intros _. split_and!; [done|done| |done]. unfold buffer_size in *. lia.
    + rewrite concat_gather, size_gather. split_and!; [done|done|done|lia|done].
  - intros k s _ Hk. destruct (consume_stream s k Hk) as (bufs & H & Hb).
    exists (mkStream bufs (closed s)). by split_and!.
Defined.

#[export] Instance byte_stream_partial : PartialConsume ByteStream.
Proof.
  split.
  - intros n s s' bufs k _ Hn. cbn -[gather buffer_size]. repeat case_if; try done. intros [= <- <-]. by rewrite size_gather.
  - intros k j s s' _ Hk Hc. cbn in Hk. destruct (consume_stream s k) as (bufs & Hc' & Hb); [lia|].
    rewrite Hc' in Hc. injection Hc as <-. cbn. unfold buffer_size in *. rewrite Hb, length_drop. lia.
  - intros n k s s' _ _ Hk. cbn -[gather buffer_size]. repeat case_if; try done. by intros [= <-].
Qed.

#[export] Instance byte_stream_min : FetchesMin ByteStream.
Proof. intros n s s' bufs _ Hn. cbn -[gather buffer_size]. repeat case_if; try done. intros [= <- <-]. by rewrite size_gather. Qed.

#[export] Instance byte_stream_some : FetchesSome ByteStream.
Proof. intros n s s' bufs _ Hn. cbn -[gather buffer_size]. repeat case_if; try done. intros [= <- <-]. rewrite size_gather. lia. Qed.

(** *** [HttpData] *)

#[export, refine] Instance http_data_laws {S} `{SourceLaws S} : SourceLaws (option S) := {|
  content d := match d with Some s => content s | None => [] end;
  valid d := match d with Some s => valid s | None => True end;
  can_consume d k := match d with Some s => can_consume s k | None => True end;
  ended d := match d with Some s => ended s | None => True end |}.
Proof.
  - intros n [s|] Hv Hn; cbn; [|intros _; split_and!; [done|done|lia|done]].
    pose proof (fetch_spec n s Hv Hn) as Hf. by destruct (fetch_at_least n s) as [[[bufs|e] s']| | |].
  - intros k [s|] Hv Hk; cbn; [|by exists None; rewrite drop_nil].
    destruct (consume_spec k s Hv Hk) as (s' & -> & Hv' & Hc). by exists (Some s').
Defined.

Lemma http_data_fetch {S} `{SourceLaws S} (n : Z) (d d' : option S) (r : StatusOr (list buffer)) :
  fetch_at_least n d = Ret (r, d') ->
  (d = None /\ d' = None /\ r = Err kEndOfStream) \/
  exists s s', d = Some s /\ d' = Some s' /\ fetch_at_least n s = Ret (r, s').
Proof.
  destruct d as [s|]; cbn.
  - destruct (fetch_at_least n s) as [[r' s']| | |] eqn:E; cbn; try done. intros [= <- <-]. right. by exists s, s'.
  - intros [= <- <-]. by left.
Qed.

#[export] Instance http_data_partial {S} `{PartialConsume S} : PartialConsume (option S).
Proof.
  split.
  - intros n d d' bufs k Hv Hn [(_ & _ & [=])|(s & s' & -> & -> & Hf)]%http_data_fetch Hk.
    exact (partial_consume n s s' bufs k Hv Hn Hf Hk).
  - intros k j [s|] d' Hv Hk; cbn; [|by intros [= <-]]. intros (s' & Hc & [= <-])%io_bind_ret.
    exact (consume_more k j s s' Hv Hk Hc).
  - intros n k d d' Hv Hn Hk [(-> & -> & _)|(s & s' & -> & -> & Hf)]%http_data_fetch; [done|]. exact (end_keeps n k s s' Hv Hn Hk Hf).
Qed.

#[export] Instance http_data_some {S} `{FetchesSome S} : FetchesSome (option S).
Proof.
  intros n d d' bufs Hv Hn [(_ & _ & [=])|(s & s' & -> & -> & Hf)]%http_data_fetch.
  exact (fetches_some n s s' bufs Hv Hn Hf).
Qed.

(** *** [take_n] *)

Lemma trim_back_spec (limit : nat) (l : list buffer) :
  concat (reverse (trim_back limit (buffer_size (reverse l)) l)) = take limit (concat (reverse l)).
Proof.
  induction l as [|x l IH]; [by destruct limit|]. cbn [trim_back]. rewrite !reverse_cons, buffer_size_app, concat_app.
  replace (buffer_size [x]) with (length x) by (unfold buffer_size; simpl; by rewrite app_nil_r).
  simpl concat. rewrite !app_nil_r.
  destruct (limit <? _)%nat eqn:E; bool_cases.
  - destruct (length x <=? _)%nat eqn:E'; bool_cases.
    + rewrite Nat.add_sub, IH. rewrite take_app_le; [done|]. unfold buffer_size in *. lia.
    + rewrite reverse_cons, concat_app. simpl. rewrite app_nil_r, take_app_ge by (unfold buffer_size in *; lia).
      f_equal. f_equal. unfold buffer_size in *. lia.
  - rewrite reverse_cons, concat_app. simpl. rewrite app_nil_r, take_ge; [done|].
    rewrite length_app. unfold buffer_size in *. lia.
Qed.

(** What [take_n] returns is what its source returns, cut at the limit. *)
Lemma trim_spec (limit : nat) (bufs : list buffer) :
  concat (reverse (trim_back limit (buffer_size bufs) (reverse bufs))) = take limit (concat bufs).
Proof. rewrite <- (reverse_involutive bufs) at 1. rewrite trim_back_spec. by rewrite reverse_involutive. Qed.

Lemma trim_size (limit : nat) (bufs : list buffer) :
  buffer_size (reverse (trim_back limit (buffer_size bufs) (reverse bufs))) = Nat.min limit (buffer_size bufs).
Proof. unfold buffer_size at 1. by rewrite trim_spec, length_take. Qed.

Lemma take_n_fetch {S} `{BufferSource S} (n : Z) (t t' : TakeNSource S) (r : StatusOr (list buffer)) :
  fetch_at_least n t = Ret (r, t') ->
  exists r0, fetch_at_least n (take_src_ t) = Ret (r0, take_src_ t') /\ limit_ t' = limit_ t /\
    match r, r0 with
    | OkVal bufs, OkVal bufs0 => bufs = reverse (trim_back (limit_ t) (buffer_size bufs0) (reverse bufs0))
    | Err e, Err e0 => e = e0
    | _, _ => False
    end.
Proof.
  cbn. destruct (fetch_at_least n (take_src_ t)) as [[[bufs|e] s']| | |]; cbn; try done; intros [= <- <-]; by eexists.
Qed.

Lemma prefix_take_mono {A} (n : nat) (l k : list A) : l `prefix_of` k -> take n l `prefix_of` take n k.
Proof.
  intros [r ->]. destruct (decide (n <= length l)%nat) as [Hl|Hl].
  - rewrite take_app_le by done. exists []. by rewrite app_nil_r.
  - rewrite take_app_ge by lia. rewrite (take_ge l) by lia. by eexists.
Qed.

#[export, refine] Instance take_n_laws {S} `{PartialConsume S} : SourceLaws (TakeNSource S) := {|
  content t := take (limit_ t) (content (take_src_ t));
  valid t := valid (take_src_ t);
  can_consume t k := can_consume (take_src_ t) (Nat.min k (limit_ t));
  ended t := ended (take_src_ t) |}.
Proof.
  - intros n t Hv Hn. cbn. pose proof (fetch_spec n (take_src_ t) Hv Hn) as Hf.
    destruct (fetch_at_least n (take_src_ t)) as [[[bufs|e] s']| | |] eqn:E; cbn; try done.
    + destruct Hf as (Hv' & Hc & Hp & Hm & _). rewrite trim_size, trim_spec, Hc.
      split_and!; [done|done|by apply prefix_take_mono| |].
      { intros Hn' Hne. destruct (limit_ t) as [|l]; [done|]. destruct (content (take_src_ t)) eqn:Ec; [done|].
        specialize (Hm Hn' ltac:(done)). lia. }
      apply (partial_consume n (take_src_ t) s' bufs); [done|done|done|lia].
    + intros He. destruct (Hf He) as (Hv' & Hc & Hl & Hend). rewrite Hc. split_and!; [done|done| |done]. rewrite length_take. lia.
  - intros k t Hv Hk. cbn -[to_usize Z.of_nat]. rewrite to_usize_nat. cbn -[Z.of_nat].
    destruct (consume_spec _ _ Hv Hk) as (s' & -> & Hv' & Hc). eexists. split; [done|]. cbn. split; [done|].
    rewrite Hc, skipn_firstn_comm. destruct (decide (k <= limit_ t)%nat) as [Hl|Hl].
    + by rewrite Nat.min_l by done.
    + rewrite Nat.min_r by lia. replace (limit_ t - k)%nat with O by lia. by rewrite Nat.sub_diag.
Defined.

Lemma take_n_consume {S} `{BufferSource S} (k : nat) (t t' : TakeNSource S) :
  consume (Z.of_nat k) t = Ret t' ->
  consume (Z.of_nat (Nat.min k (limit_ t))) (take_src_ t) = Ret (take_src_ t') /\ limit_ t' = (limit_ t - k)%nat.
Proof.
  cbn -[to_usize Z.of_nat]. rewrite to_usize_nat. cbn -[Z.of_nat]. intros (s & -> & [= <-])%io_bind_ret. split; [done|]. cbn. lia.
Qed.

#[export] Instance take_n_partial {S} `{PartialConsume S} : PartialConsume (TakeNSource S).
Proof.
  split.
  - intros n t t' bufs k Hv Hn (r0 & Hf & Hl & Hr)%take_n_fetch Hk. destruct r0 as [bufs0|]; [|done]. subst bufs.
    rewrite trim_size in Hk. apply (partial_consume n (take_src_ t) (take_src_ t') bufs0); [done|done|done|]. lia.
  - intros k j t t' Hv Hk [Hc Hl]%take_n_consume. cbn in *. rewrite Hl.
    apply (consume_more (Nat.min k (limit_ t)) _ (take_src_ t)); [done| |done].
    by replace (Nat.min k (limit_ t) + Nat.min j (limit_ t - k))%nat with (Nat.min (k + j) (limit_ t)) by lia.
  - intros n k t t' Hv Hn Hk (r0 & Hf & Hl & Hr)%take_n_fetch. destruct r0; [done|]. subst. cbn in *. rewrite Hl.
    by apply (end_keeps n _ (take_src_ t)).
Qed.

(** *** [prepend] *)

(** The buffers of [first_] from the read position on. *)
Definition unread {S} (p : PrependBufferSource S) : list buffer := drop (first_buffer_index_ p) (first_ p).

Lemma consume_iter_suffix (first : list buffer) (offset count : nat) :
  exists j, (consume_buffers_iter first offset count).1 = drop j first.
Proof.
  revert offset count. induction first as [|b first IH]; intros offset [|n]; cbn [consume_buffers_iter]; try by exists O.
  destruct (_ <? _)%nat; [by exists O|]. destruct (IH O (S n - length (advance offset b))%nat) as [j Hj]. by exists (S j).
Qed.

Lemma drop_to_suffix {A} (l : list A) (j : nat) : drop (length l - length (drop j l)) l = drop j l.
Proof.
  rewrite length_drop. destruct (decide (j <= length l)%nat) as [H|H]; [by replace (length l - (length l - j))%nat with j by lia|].
  rewrite !drop_ge; [done|lia|lia].
Qed.

(** The offset that [consume_buffers_iter] leaves is inside the buffer it stands in. *)
Lemma consume_iter_offset (first : list buffer) (offset count : nat) :
  (consume_buffers_iter first offset count).2 = O \/
  exists b bs, (consume_buffers_iter first offset count).1 = b :: bs /\ ((consume_buffers_iter first offset count).2 < length b)%nat.
Proof.
  revert offset count. induction first as [|b first IH]; intros offset [|n]; cbn [consume_buffers_iter]; try by left.
  unfold advance. rewrite length_drop. destruct (_ <? _)%nat eqn:E; [|apply IH]. bool_cases. right. exists b, first. split; [done|].
  cbn. lia.
Qed.

Definition prepend_valid {S} (p : PrependBufferSource S) : Prop :=
  first_bytes_remaining_ p = length (bytes_from (unread p, first_buffer_offset_ p)) /\
  (first_buffer_offset_ p = O \/ exists b bs, unread p = b :: bs /\ (first_buffer_offset_ p < length b)%nat).

(** [first_] may be consumed from the start of a buffer on, or past the end of
    the buffer that is partly read. *)
Definition prepend_can {S} (p : PrependBufferSource S) (k : nat) : Prop :=
  let a := Nat.min (first_bytes_remaining_ p) k in
  first_buffer_offset_ p = O \/
  exists b bs, unread p = b :: bs /\ (first_buffer_offset_ p <= length b)%nat /\
    (length b - first_buffer_offset_ p <= a)%nat /\ (0 < a)%nat.

Lemma prepend_first_spec {S} (p : PrependBufferSource S) :
  prepend_valid p ->
  exists bufs, prepend_first p = Ret bufs /\ concat bufs = bytes_from (unread p, first_buffer_offset_ p) /\
    (bufs = [] <-> first_bytes_remaining_ p = O).
Proof.
  intros [Hr Ho]. unfold prepend_first. fold (unread p). unfold bytes_from in *. cbn [fst snd] in *.
  destruct (0 <? first_bytes_remaining_ p)%nat eqn:E; bool_cases.
  - destruct (unread p) as [|b bs]; [rewrite length_drop in Hr; simpl in Hr; lia|].
    eexists. split; [done|]. split; [|split; [by intros [=]|lia]]. unfold advance. simpl.
    destruct Ho as [->|(? & ? & [= <- <-] & H)]; [done|]. by rewrite drop_app_le by lia.
  - exists []. split; [done|]. split; [|split; [lia|done]]. symmetry. apply nil_length_inv. lia.
Qed.

(** All that is unread may be consumed. *)
Lemma prepend_can_all {S} (p : PrependBufferSource S) (k : nat) :
  prepend_valid p -> (first_bytes_remaining_ p <= k)%nat -> prepend_can p k.
Proof.
  intros [Hr Ho] Hk. unfold prepend_can. rewrite Nat.min_l by done. destruct Ho as [?|(b & bs & Hu & Hl)]; [by left|].
  right. exists b, bs. unfold bytes_from in Hr. rewrite Hu in Hr. cbn in Hr. rewrite length_drop, length_app in Hr.
  split_and!; [done|lia|lia|lia].
Qed.

Lemma prepend_consume_ret {S} `{SourceLaws S} (p : PrependBufferSource S) (k : nat) :
  prepend_valid p -> valid (rest_ p) -> prepend_can p k ->
  ((first_bytes_remaining_ p < k)%nat -> can_consume (rest_ p) (k - first_bytes_remaining_ p)) ->
  exists p', prepend_consume (Z.of_nat k) p = Ret p' /\ prepend_valid p' /\ valid (rest_ p') /\
    bytes_from (unread p', first_buffer_offset_ p') ++ content (rest_ p') =
    drop k (bytes_from (unread p, first_buffer_offset_ p) ++ content (rest_ p)).
Proof.
  intros [Hr Ho] Hv Hcan Hrest. unfold prepend_consume. rewrite to_usize_nat. cbn [mbind io_bind].
  fold (unread p). set (a := Nat.min (first_bytes_remaining_ p) k).
  pose proof (consume_buffers_iter_spec (unread p) (first_buffer_offset_ p) a) as Hspec.
  pose proof (consume_iter_suffix (unread p) (first_buffer_offset_ p) a) as [j Hj].
  pose proof (consume_iter_offset (unread p) (first_buffer_offset_ p) a) as Hoff.
  destruct (consume_buffers_iter (unread p) (first_buffer_offset_ p) a) as [iter offset]. cbn [fst snd] in Hj, Hoff.
  assert (bytes_from (iter, offset) = drop a (bytes_from (unread p, first_buffer_offset_ p))) as Hb.
  { apply Hspec; [exact Hcan|]. rewrite <- Hr. lia. }
  assert (drop (length (first_ p) - length iter) (first_ p) = iter) as Hi.
  { rewrite Hj. unfold unread. rewrite drop_drop. apply drop_to_suffix. }
  assert (forall r : S, prepend_valid (mkPrepend (first_ p) (length (first_ p) - length iter) offset (first_bytes_remaining_ p - a) r)) as Hval.
  { intros r. unfold prepend_valid, unread. cbn -[bytes_from]. rewrite Hi. split; [|exact Hoff]. rewrite Hb, length_drop. lia. }
  destruct (0 <? k - a)%nat eqn:E; bool_cases.
  - assert (a = first_bytes_remaining_ p) as Ea by lia.
    destruct (consume_spec (k - first_bytes_remaining_ p) (rest_ p) Hv) as (r & Hcr & Hvr & Hc); [apply Hrest; lia|].
    replace (k - a)%nat with (k - first_bytes_remaining_ p)%nat by lia.
    cbn [rest_]. rewrite Hcr. cbn [mbind io_bind]. eexists. split; [done|]. split; [apply Hval|]. split; [done|]. unfold unread at 1.
    cbn -[bytes_from]. rewrite Hi, Hb, Hc, drop_ge by lia. rewrite (drop_app_ge _ _ k) by lia. by rewrite Hr.
  - eexists. split; [done|]. split; [apply Hval|]. split; [done|]. unfold unread at 1. cbn -[bytes_from]. rewrite Hi, Hb.
    replace a with k by lia. by rewrite drop_app_le by lia.
Qed.

#[export, refine] Instance prepend_laws {S} `{SourceLaws S} : SourceLaws (PrependBufferSource S) := {|
  content p := bytes_from (unread p, first_buffer_offset_ p) ++ content (rest_ p);
  valid p := prepend_valid p /\ valid (rest_ p);
  can_consume p k :=
    prepend_can p k /\ ((first_bytes_remaining_ p < k)%nat -> can_consume (rest_ p) (k - first_bytes_remaining_ p));
  ended p := ended (rest_ p) |}.
Proof.
  - intros n p [Hp Hv] Hn. cbn -[bytes_from]. unfold prepend_fetch. rewrite to_usize_ret by done. cbn [mbind io_bind].
    destruct (prepend_first_spec p Hp) as (bufs & -> & Hb & He). cbn [mbind io_bind].
    set (m := (Z.to_nat n - Nat.min (first_bytes_remaining_ p) (Z.to_nat n))%nat).
    pose proof (fetch_spec (Z.of_nat m) (rest_ p) Hv ltac:(lia)) as Hf. pose proof (proj1 Hp) as Hr.
    assert (buffer_size bufs = first_bytes_remaining_ p) as Hs by (unfold buffer_size; by rewrite Hb).
    destruct (fetch_at_least (Z.of_nat m) (rest_ p)) as [[[bufs'|e] r]| | |]; cbn [mbind io_bind]; try done.
    + destruct Hf as (Hvr & Hc & Hpre & Hm & Hk). rewrite concat_app, Hb, buffer_size_app, Hs. split_and!; [done|done| | | | |].
      * change (unread (set_rest p r)) with (unread p). cbn -[bytes_from]. by rewrite Hc.
      * by apply prefix_app.
      * intros Hn' Hne. destruct (first_bytes_remaining_ p) as [|f] eqn:Ef; [|lia].
        apply Hm; [unfold m; lia|]. intros Hnil. apply Hne. rewrite Hnil, app_nil_r. apply nil_length_inv. by rewrite <- Hr.
      * apply (prepend_can_all (set_rest p r)); [done|]. cbn. lia.
      * cbn. intros _. by replace (first_bytes_remaining_ p + buffer_size bufs' - first_bytes_remaining_ p)%nat with (buffer_size bufs') by lia.
    + destruct (_ || _) eqn:E; [apply orb_true_iff in E|apply orb_false_iff in E].
      * intros ->. destruct (Hf eq_refl) as (Hvr & Hc & Hend & Hended). split_and!; [done|done| | |done].
        { change (unread (set_rest p r)) with (unread p). cbn -[bytes_from]. by rewrite Hc. }
        rewrite length_app, <- Hr. destruct E as [E|E]; [|by rewrite bool_decide_true in E].
        destruct bufs; [|done]. assert (first_bytes_remaining_ p = O) as E0 by (by apply He). unfold m in Hend. lia.
      * destruct E as [E1 E2]. apply negb_false_iff, bool_decide_eq_true in E2. destruct (Hf E2) as (Hvr & Hc & Hend & _).
        assert (0 < first_bytes_remaining_ p)%nat as Hpos.
        { destruct bufs as [|b bufs]; [done|]. apply Nat.neq_0_lt_0. intros H0'. by discriminate (proj2 He H0'). }
        rewrite Hb, Hs. split_and!; [done|done| | | | |].
        { change (unread (set_rest p r)) with (unread p). cbn -[bytes_from]. by rewrite Hc. }
        { by eexists. }
        { lia. }
        { apply (prepend_can_all (set_rest p r)); [done|]. cbn. lia. }
        { cbn. lia. }
  - intros k p [Hp Hv] [Hcan Hrest]. cbn -[bytes_from Z.of_nat].
    destruct (prepend_consume_ret p k Hp Hv Hcan Hrest) as (p' & -> & Hp' & Hv' & Hc). by exists p'.
Defined.

#[export] Instance prepend_some {S} `{FetchesSome S} : FetchesSome (PrependBufferSource S).
Proof.
  intros n p p' bufs [Hp Hv] Hn. cbn -[bytes_from]. unfold prepend_fetch. rewrite to_usize_ret by lia. cbn [mbind io_bind].
  destruct (prepend_first_spec p Hp) as (first & -> & Hb & He). cbn [mbind io_bind].
  assert (buffer_size first = first_bytes_remaining_ p) as Hs by (unfold buffer_size; rewrite Hb; symmetry; apply Hp).
  set (m := (Z.to_nat n - Nat.min (first_bytes_remaining_ p) (Z.to_nat n))%nat).
  destruct (fetch_at_least (Z.of_nat m) (rest_ p)) as [[[bufs'|e] r]| | |] eqn:Ef; cbn [mbind io_bind]; try done.
  - intros [= <- <-]. rewrite buffer_size_app, Hs. destruct (first_bytes_remaining_ p) as [|f] eqn:Er; [|lia].
    apply (fetches_some (Z.of_nat m) (rest_ p) r) in Ef; [lia|done|unfold m; lia].
  - destruct (_ || _) eqn:E; [done|]. intros [= <- <-]. apply orb_false_iff in E as [E _]. rewrite Hs.
    apply Nat.neq_0_lt_0. intros H0'. by rewrite (proj2 He H0') in E.
Qed.

(** ** Reading to the end *)

Lemma for_each_buffer_app {A} (fn : A -> buffer -> A * LoopControl) (acc : A) (a b : list buffer) :
  for_each_buffer fn acc (a ++ b) =
  match for_each_buffer fn acc a with (acc, kContinue) => for_each_buffer fn acc b | r => r end.
Proof.
  revert acc. induction a as [|x a IH]; intros acc; simpl; [done|]. destruct (fn acc x) as [acc' []]; [apply IH|done].
Qed.

Lemma for_each_buffer_unit (l : list buffer) : for_each_buffer (fun (_ : unit) _ => (tt, kContinue)) tt l = (tt, kContinue).
Proof. by induction l. Qed.

Lemma for_each_buffer_append (acc : list Z) (l : list buffer) :
  for_each_buffer (fun out b => (out ++ b, kContinue)) acc l = (acc ++ concat l, kContinue).
Proof. revert acc. induction l as [|b l IH]; intros acc; simpl; [by rewrite app_nil_r|]. by rewrite IH, app_assoc. Qed.

(** What the loop has done when it returns: it has shown the buffers [read] and
    [seen] to [fn], and has consumed [read].  After a break the buffers of the
    last fetch are all still there.  Nothing is said of a source that has
    failed. *)
Definition for_each_result {S A} `{SourceLaws S} (fn : A -> buffer -> A * LoopControl) (acc : A) (src : S)
    (r : StatusOr LoopControl) (acc' : A) (src' : S) : Prop :=
  exists read seen acc1,
    for_each_buffer fn acc read = (acc1, kContinue) /\
    match r with
    | OkVal c =>
        valid src' /\ content src = concat read ++ content src' /\ concat seen `prefix_of` content src' /\
        for_each_buffer fn acc1 seen = (acc', c) /\
        (c = kContinue -> content src' = [] /\ (FetchesSome S -> ended src'))
    | Err e => acc' = acc1 /\ concat read `prefix_of` content src /\ e <> kEndOfStream
    end.

Section loops.
Context {S : Type} `{SourceLaws S}.

(** A fetch of at least one byte that succeeds makes progress or is the end. *)
Lemma fetch_one (src : S) :
  valid src ->
  match fetch_at_least 1 src with
  | Ret (OkVal bufs, src') =>
      valid src' /\ content src' = content src /\ concat bufs `prefix_of` content src /\
      (buffer_size bufs = O -> content src = []) /\ can_consume src' (buffer_size bufs)
  | Ret (Err e, src') => e = kEndOfStream -> valid src' /\ content src' = content src /\ content src = [] /\ ended src'
  | Blocked => True
  | _ => False
  end.
Proof.
  intros Hv. pose proof (fetch_spec 1 src Hv ltac:(lia)) as Hf. destruct (fetch_at_least 1 src) as [[[bufs|e] src']| | |]; try done.
  - destruct Hf as (? & ? & ? & Hm & ?). split_and!; try done. intros H0'. destruct (content src); [done|].
    specialize (Hm ltac:(lia) ltac:(done)). lia.
  - intros He. destruct (Hf He) as (? & ? & Hl & ?). split_and!; try done. apply nil_length_inv. simpl in Hl. lia.
Qed.

Lemma source_for_each_spec {A} (fn : A -> buffer -> A * LoopControl) (fuel : nat) (acc : A) (src : S) :
  valid src -> (length (content src) < fuel)%nat ->
  match for_each fuel fn acc src with
  | Ret (r, acc', src') => for_each_result fn acc src r acc' src'
  | Blocked => True
  | _ => False
  end.
Proof.
  revert acc src. induction fuel as [|fuel IH]; intros acc src Hv Hf; [lia|]. cbn [for_each].
  pose proof (fetch_one src Hv) as Hone. destruct (fetch_at_least 1 src) as [[[bufs|e] src1]| | |] eqn:E1; cbn [mbind io_bind]; try done.
  2: { destruct (bool_decide _) eqn:E; bool_cases.
       - destruct (Hone E) as (Hv1 & Hc & He & Hend). exists [], [], acc. rewrite Hc, He. by split_and!.
       - exists [], [], acc. split_and!; [done|done|apply prefix_nil|done]. }
  destruct Hone as (Hv1 & Hc & Hp & H0' & Hk). destruct (for_each_buffer fn acc bufs) as [acc1 []] eqn:Eb.
  2: { exists [], bufs, acc. by rewrite Hc. }
  destruct (buffer_size bufs =? 0)%nat eqn:E; bool_cases.
  { exists [], bufs, acc. rewrite Hc. split_and!; try done. intros _. split; [auto|]. intros Hsome.
    pose proof (fetches_some 1 src src1 bufs Hv ltac:(lia) E1). lia. }
  destruct (consume_spec _ _ Hv1 Hk) as (src2 & -> & Hv2 & Hc2). cbn [mbind io_bind].
  assert (content src = concat bufs ++ content src2) as Hsplit.
  { destruct Hp as [k Hp]. rewrite Hc2, Hc, Hp. f_equal. symmetry. apply drop_app_length. }
  specialize (IH acc1 src2 Hv2). destruct (for_each fuel fn acc1 src2) as [[[r acc2] src3]| | |];
    try (apply IH; rewrite Hsplit, length_app in Hf; unfold buffer_size in E; lia).
  destruct IH as (read & seen & acc3 & Hr3 & Hr); [rewrite Hsplit, length_app in Hf; unfold buffer_size in E; lia|].
  exists (bufs ++ read), seen, acc3. rewrite for_each_buffer_app, Eb. split; [done|]. rewrite concat_app, <- !app_assoc, Hsplit.
  destruct r; [destruct Hr as (? & -> & ? & ? & ?); by split_and!|]. destruct Hr as (? & ? & ?). split_and!; [done|by apply prefix_app|done].
Qed.

(** A loop over a reliable source returns, without an error. *)
Lemma for_each_reliable {A} (fn : A -> buffer -> A * LoopControl) (fuel : nat) (acc : A) (src : S) :
  Reliable S -> valid src -> (length (content src) < fuel)%nat ->
  exists c acc' src', for_each fuel fn acc src = Ret (OkVal c, acc', src').
Proof.
  intros Hrel. revert acc src. induction fuel as [|fuel IH]; intros acc src Hv Hf; [lia|]. cbn [for_each].
  pose proof (fetch_one src Hv) as Hone. destruct (reliable src Hv) as (r & src1 & Hr & He). rewrite Hr in Hone |- *. cbn [mbind io_bind].
  destruct r as [bufs|e]; [|rewrite (He e eq_refl), bool_decide_true by done; by do 3 eexists].
  destruct Hone as (Hv1 & Hc & Hp & H0' & Hk). destruct (for_each_buffer fn acc bufs) as [acc1 []]; [|by do 3 eexists].
  destruct (buffer_size bufs =? 0)%nat eqn:E; bool_cases; [by do 3 eexists|].
  destruct (consume_spec _ _ Hv1 Hk) as (src2 & -> & Hv2 & Hc2). cbn [mbind io_bind]. apply IH; [done|].
  rewrite Hc2, Hc, length_drop. destruct Hp as [z Hp]. rewrite Hp in Hf |- *. rewrite length_app in Hf |- *.
  unfold buffer_size in *. lia.
Qed.

Lemma source_collect_vec_spec (fuel : nat) (src : S) :
  valid src -> (length (content src) < fuel)%nat ->
  match collect_vec fuel src with
  | Ret (OkVal bytes, src') => bytes = content src /\ content src' = [] /\ valid src' /\ (FetchesSome S -> ended src')
  | Ret (Err e, _) => e <> kEndOfStream
  | Blocked => True
  | _ => False
  end.
Proof.
  intros Hv Hf. unfold collect_vec.
  pose proof (source_for_each_spec (fun bytes b => (bytes ++ b, kContinue)) fuel [] src Hv Hf) as Hs.
  destruct (for_each fuel _ [] src) as [[[r bytes] src']| | |]; cbn [mbind io_bind]; try done.
  destruct Hs as (read & seen & acc1 & Hacc & Hr).
  rewrite for_each_buffer_append in Hacc. injection Hacc as <-. destruct r as [c|e]; [|by destruct Hr as (_ & _ & He)].
  rewrite for_each_buffer_append in Hr. destruct Hr as (Hv' & Hc & Hp & [= <- <-] & Hend). destruct (Hend eq_refl) as [Hnil He]. split; [|done].
  rewrite Hnil in Hp. apply prefix_nil_inv in Hp. by rewrite Hc, Hnil, Hp, !app_nil_r.
Qed.

Lemma collect_vec_reliable (fuel : nat) (src : S) :
  Reliable S -> valid src -> (length (content src) < fuel)%nat ->
  exists src', collect_vec fuel src = Ret (OkVal (content src), src') /\
    content src' = [] /\ valid src' /\ (FetchesSome S -> ended src').
Proof.
  intros Hrel Hv Hf. pose proof (source_collect_vec_spec fuel src Hv Hf) as Hs. unfold collect_vec in *.
  destruct (for_each_reliable (fun bytes b => (bytes ++ b, kContinue)) fuel [] src Hrel Hv Hf) as (c & bytes & src' & Hr).
  rewrite Hr in *. cbn [mbind io_bind] in *. destruct Hs as (-> & Hc & Hv' & He). by exists src'.
Qed.

(** The callback of [consume] never breaks, so its check never fails. *)
Lemma consume_all_spec (fuel : nat) (src : S) :
  valid src -> (length (content src) < fuel)%nat ->
  match consume_all fuel src with
  | Ret (OkVal _, src') => content src' = []
  | Ret (Err e, _) => e <> kEndOfStream
  | Blocked => True
  | _ => False
  end.
Proof.
  intros Hv Hf. unfold consume_all. pose proof (source_for_each_spec (fun (_ : unit) b => (tt, kContinue)) fuel tt src Hv Hf) as Hs.
  destruct (for_each fuel _ tt src) as [[[r acc] src']| | |]; cbn [mbind io_bind]; try done.
  destruct Hs as (read & seen & [] & Hacc & Hr).
  destruct r as [c|e]; [|by destruct Hr as (_ & _ & He)].
  rewrite for_each_buffer_unit in Hr. destruct Hr as (_ & _ & _ & [= <- <-] & Hend). by destruct (Hend eq_refl).
Qed.

Lemma consume_all_reliable (fuel : nat) (src : S) :
  Reliable S -> valid src -> (length (content src) < fuel)%nat ->
  exists src', consume_all fuel src = Ret (OkVal tt, src') /\
    content src' = [] /\ valid src' /\ (FetchesSome S -> ended src').
Proof.
  intros Hrel Hv Hf. unfold consume_all.
  pose proof (source_for_each_spec (fun (_ : unit) b => (tt, kContinue)) fuel tt src Hv Hf) as Hs.
  destruct (for_each_reliable (fun (_ : unit) b => (tt, kContinue)) fuel tt src Hrel Hv Hf) as (c & acc & src' & Hr).
  rewrite Hr in *. cbn [mbind io_bind]. destruct Hs as (read & seen & [] & Hacc & Hv' & _ & _ & Hc & Hend).
  rewrite for_each_buffer_unit in Hc. injection Hc as <- <-. destruct (Hend eq_refl). by exists src'.
Qed.

(** C15: On any source that keeps the laws, the loops of [collect_vec],
    [print_out] and [consume] terminate; unless the source fails, the bytes
    that [collect_vec] returns and those that [print_out] writes are exactly
    those from the read position to the end of the stream, in order, the source
    is then at its end, and the check of [consume] does not fail. *)
Theorem readers_correct (fuel : nat) (out : list Z) (src : S) :
  valid src -> (length (content src) < fuel)%nat ->
  match collect_vec fuel src with
  | Ret (OkVal bytes, src') => bytes = content src /\ content src' = [] /\ valid src' /\ (FetchesSome S -> ended src')
  | Ret (Err e, _) => e <> kEndOfStream
  | Blocked => True
  | _ => False
  end /\
  match print_out fuel out src with
  | Ret (OkVal _, out', src') => out' = out ++ content src /\ content src' = []
  | Ret (Err e, out', _) => e <> kEndOfStream /\ exists read, out' = out ++ read /\ read `prefix_of` content src
  | Blocked => True
  | _ => False
  end /\
  match consume_all fuel src with
  | Ret (OkVal _, src') => content src' = []
  | Ret (Err e, _) => e <> kEndOfStream
  | Blocked => True
  | _ => False
  end.
Proof.
  intros Hv Hf. split_and!; [by apply source_collect_vec_spec| |by apply consume_all_spec].
  unfold print_out. pose proof (source_for_each_spec (fun out b => (out ++ b, kContinue)) fuel out src Hv Hf) as Hs.
  destruct (for_each fuel _ out src) as [[[r out'] src']| | |]; cbn [mbind io_bind]; try done.
  destruct Hs as (read & seen & acc1 & Hacc & Hr). rewrite for_each_buffer_append in Hacc. injection Hacc as <-.
  destruct r as [c|e].
  - rewrite for_each_buffer_append in Hr. destruct Hr as (Hv' & Hc & Hp & [= <- <-] & Hend).
    destruct (Hend eq_refl) as [Hnil _]. split; [|done]. rewrite Hnil in Hp. apply prefix_nil_inv in Hp. by rewrite Hc, Hnil, Hp, !app_nil_r.
  - destruct Hr as (-> & Hp & He). split; [done|]. by eexists.
Qed.

(** *** [write_to] *)

Context {D : Type} (write_some : list buffer -> D -> StatusOr nat * D) (out : D -> list Z).

(** What the documentation of [async_write_some] promises: the stream takes
    some of the data, from the front. *)
Definition writes_prefix : Prop :=
  forall bufs d k d', write_some bufs d = (OkVal k, d') ->
    (k <= buffer_size bufs)%nat /\ ((0 < buffer_size bufs)%nat -> (0 < k)%nat) /\ out d' = out d ++ take k (concat bufs).

Definition writes_all : Prop :=
  forall bufs d k d', write_some bufs d = (OkVal k, d') -> k = buffer_size bufs.

Definition write_error_keeps : Prop := forall bufs d e d', write_some bufs d = (Err e, d') -> out d' = out d.

(** [write_to] on a source that can be consumed in part, or on a destination
    that takes all it is given: the loop terminates, and it returns only when
    the destination has been given the whole stream in order, once, with its
    length as the result, or when one of the two has failed. *)
Lemma write_to_spec (fuel n : nat) (dst : D) (src : S) :
  FetchesSome S -> writes_prefix -> write_error_keeps -> PartialConsume S \/ writes_all ->
  valid src -> (length (content src) < fuel)%nat ->
  match write_to write_some fuel n dst src with
  | Ret (r, dst', src') =>
      exists sent, sent `prefix_of` content src /\ out dst' = out dst ++ sent /\
        match r with OkVal m => m = (n + length sent)%nat /\ sent = content src | Err _ => True end
  | Blocked => True
  | _ => False
  end.
Proof.
  intros Hsome Hw He Hpart. revert n dst src. induction fuel as [|fuel IH]; intros n dst src Hv Hf; [lia|]. cbn [write_to].
  pose proof (fetch_one src Hv) as Hone. destruct (fetch_at_least 1 src) as [[[bufs|e] src1]| | |] eqn:E1; cbn [mbind io_bind]; try done.
  2: { exists []. rewrite app_nil_r. split_and!; [apply prefix_nil|done|].
       destruct (bool_decide _) eqn:E; bool_cases; [|done]. destruct (Hone E) as (_ & _ & -> & _). split; [simpl; lia|done]. }
  destruct Hone as (Hv1 & Hc & Hp & H0' & Hk). destruct (write_some bufs dst) as [[k|e] dst1] eqn:Ew.
  2: { exists []. rewrite app_nil_r. split_and!; [apply prefix_nil|by eapply He|done]. }
  destruct (Hw _ _ _ _ Ew) as (Hle & Hpos & Hout).
  assert (0 < buffer_size bufs)%nat as Hbs by (apply (fetches_some 1 src src1); [done|lia|done]).
  assert (can_consume src1 k) as Hcan.
  { destruct Hpart as [Hpart|Hall]; [|by rewrite (Hall _ _ _ _ Ew)].
    apply (partial_consume 1 src src1 bufs); [done|lia|done|done]. }
  destruct (consume_spec _ _ Hv1 Hcan) as (src2 & -> & Hv2 & Hc2). cbn [mbind io_bind].
  assert (content src = take k (concat bufs) ++ content src2) as Hsplit.
  { rewrite Hc2, Hc. destruct Hp as [tl ->]. unfold buffer_size in Hle. rewrite drop_app_le by done. by rewrite app_assoc, take_drop. }
  assert (length (take k (concat bufs)) = k) as Hlen by (rewrite length_take; unfold buffer_size in Hle; lia).
  specialize (IH (n + k)%nat dst1 src2 Hv2). destruct (write_to write_some fuel (n + k) dst1 src2) as [[[r dst2] src3]| | |];
    try (apply IH; rewrite Hsplit, length_app in Hf; lia).
  destruct IH as (sent & Hc3 & Hout3 & Hr); [rewrite Hsplit, length_app in Hf; lia|].
  exists (take k (concat bufs) ++ sent). rewrite Hsplit, Hout3, Hout, !app_assoc. split_and!; [by apply prefix_app|done|].
  destruct r; [|done]. destruct Hr as [-> ->]. split; [|done]. rewrite length_app. lia.
Qed.
End loops.

(** A message of two bytes before the first two bytes of a stream. *)
Lemma readers_correct_witness :
  exists src', collect_vec 10 (prepend [[1; 2]] (mkTakeN 2 (mkStream [[3]; [4; 5]] true))) = Ret (OkVal [1; 2; 3; 4], src').
Proof.
  pose proof (readers_correct 10 [] (prepend [[1; 2]] (mkTakeN 2 (mkStream [[3]; [4; 5]] true)))) as [H _];
    [split; [split; [done|by left]|done]|simpl; lia|].
  destruct (collect_vec 10 _) as [[[bytes|e] src']| | |] eqn:E; [|by vm_compute in E..].
  exists src'. do 3 f_equal. apply H.
Defined.

(** ** Requests

    [HttpRequest::serialize]: the message, then the body. *)

(* @ src/batteries/http/http_request.hpp 47-54 HttpRequest::serialize *)
Definition serialize {S D} `{BufferSource S} (write_some : list buffer -> D -> StatusOr nat * D)
    (fuel : nat) (message_str : list Z) (data : S) (stream : D) : io (StatusOr unit * D) :=
  '(bytes_written, stream, _) ← write_to write_some fuel 0 stream (prepend [message_str] data);
  Ret (match bytes_written with OkVal _ => OkVal tt | Err e => Err e end, stream).

Lemma prepend_start {S} `{SourceLaws S} (bufs : list buffer) (rest : S) :
  valid rest -> valid (prepend bufs rest) /\ content (prepend bufs rest) = concat bufs ++ content rest.
Proof. intros Hv. split; [split; [split; [done|by left]|done]|done]. Qed.

(** A request is sent as its message followed by its body, each once, on a
    connection that takes all the data of every write: [serialize] terminates
    and returns success only then. *)
Theorem serialize_correct {S D} `{FetchesSome S} (write_some : list buffer -> D -> StatusOr nat * D) (out : D -> list Z)
    (fuel : nat) (message_str : list Z) (data : S) (stream : D) :
  writes_prefix write_some out -> write_error_keeps write_some out -> writes_all write_some ->
  valid data -> (length message_str + length (content data) < fuel)%nat ->
  match serialize write_some fuel message_str data stream with
  | Ret (OkVal _, stream') => out stream' = out stream ++ message_str ++ content data
  | Ret (Err _, stream') => exists sent, sent `prefix_of` message_str ++ content data /\ out stream' = out stream ++ sent
  | Blocked => True
  | _ => False
  end.
Proof.
  intros Hw He Ha Hv Hf. destruct (prepend_start [message_str] data Hv) as [Hpv Hpc].
  assert (concat [message_str] = message_str) as Hm by (simpl; apply app_nil_r). rewrite Hm in Hpc.
  unfold serialize. pose proof (write_to_spec write_some out fuel 0 stream (prepend [message_str] data)
    (prepend_some) Hw He (or_intror Ha) Hpv) as Hs. rewrite Hpc, length_app in Hs. specialize (Hs Hf).
  destruct (write_to write_some fuel 0 stream (prepend [message_str] data)) as [[[r stream'] src']| | |]; cbn [mbind io_bind]; try done.
  destruct Hs as (sent & Hsent & Hout & Hr). destruct r as [m|e].
  - destruct Hr as [_ ->]. done.
  - by exists sent.
Qed.

(** A connection that takes at most [k] bytes of a write; what it has taken. *)
Definition socket (k : nat) (bufs : list buffer) (taken : list Z) : StatusOr nat * list Z :=
  (OkVal (Nat.min k (buffer_size bufs)), taken ++ take (Nat.min k (buffer_size bufs)) (concat bufs)).

Definition whole_socket (bufs : list buffer) (taken : list Z) : StatusOr nat * list Z :=
  (OkVal (buffer_size bufs), taken ++ concat bufs).

Lemma serialize_correct_witness :
  serialize whole_socket 20 [1; 2; 3] (mkStream [[4]; [5; 6]] true) [] = Ret (OkVal tt, [1; 2; 3; 4; 5; 6]).
Proof.
  pose proof (serialize_correct whole_socket id 20 [1; 2; 3] (mkStream [[4]; [5; 6]] true) []) as H.
  assert (forall r, serialize whole_socket 20 [1; 2; 3] (mkStream [[4]; [5; 6]] true) [] = Ret (OkVal tt, r) -> r = [1; 2; 3; 4; 5; 6]) as Hr.
  { intros r E. rewrite E in H. apply H; [|by intros ? ? ? ?|by intros ? ? ? ? [= <- _]|done|simpl; lia].
    intros bufs d k d' [= <- <-]. split_and!; [lia|lia|]. cbn. f_equal. symmetry. by apply take_ge. }
  rewrite <- (Hr _ eq_refl). by vm_compute.
Defined.

(** On any other connection it need not be: two writes that end inside the
    first buffer take the read position back to the length of the second one,
    so that data is sent again; the count of the bytes that remain is then
    less than what there is, and the difference is taken from the body. *)
Theorem prepend_partial_consume {S} `{BufferSource S} (message : buffer) (rest : S) (a b : nat) :
  (0 < a)%nat -> (0 < b)%nat -> (a + b < length message)%nat ->
  exists p1 p2, prepend_consume (Z.of_nat a) (prepend [message] rest) = Ret p1 /\
    prepend_consume (Z.of_nat b) p1 = Ret p2 /\
    prepend_first p2 = Ret [drop b message] /\ first_bytes_remaining_ p2 = (length message - a - b)%nat.
Proof.
  intros Ha Hb Hab. unfold prepend_consume, prepend. rewrite to_usize_nat.
  cbn [mbind io_bind first_ first_buffer_index_ first_buffer_offset_ first_bytes_remaining_ rest_].
  assert (buffer_size [message] = length message) as -> by (unfold buffer_size; simpl; by rewrite app_nil_r).
  rewrite drop_0, (Nat.min_r (length message) a), consume_buffers_iter_within, Nat.sub_diag by lia. cbn [Nat.ltb Nat.leb].
  eexists. eexists. split; [done|]. rewrite to_usize_nat.
  cbn [mbind io_bind first_ first_buffer_index_ first_buffer_offset_ first_bytes_remaining_ rest_ length Nat.sub].
  rewrite drop_0, (Nat.min_r (length message - a) b), consume_buffers_iter_within, Nat.sub_diag by lia. cbn [Nat.ltb Nat.leb].
  split; [done|]. unfold prepend_first. cbn [first_ first_buffer_index_ first_buffer_offset_ first_bytes_remaining_ rest_ length Nat.sub].
  destruct (_ <? _)%nat eqn:E; bool_cases; [|lia]. split; [done|lia].
Qed.

(** A connection that takes 4 bytes at a time: the message is sent with bytes
    repeated, and the body loses as many. *)
Example serialize_repeats :
  serialize (socket 4) 20 [1; 2; 3; 4; 5; 6; 7; 8; 9; 10] (mkStream [[11; 12; 13; 14; 15; 16]] true) [] =
  Ret (OkVal tt, [1; 2; 3; 4; 5; 6; 7; 8; 5; 6; 7; 8; 13; 14; 15; 16]).
Proof. by vm_compute. Qed.

(** ** The end of [take_n] *)

Section take_n_end.
Context (limit : nat) (bufs : list buffer) (is_closed : bool).

Let t : TakeNSource ByteStream := mkTakeN limit (mkStream bufs is_closed).

Lemma take_n_stream_fetch :
  fetch_at_least 1 t =
  if (buffer_size bufs =? 0)%nat then if is_closed then Ret (Err kEndOfStream, t) else Blocked
  else Ret (OkVal (reverse (trim_back limit (buffer_size (gather 1 bufs)) (reverse (gather 1 bufs)))), t).
Proof.
  cbn -[Z.of_nat buffer_size trim_back gather]. destruct (buffer_size bufs =? 0)%nat eqn:E; bool_cases.
  - rewrite E. cbn. by destruct is_closed.
  - replace (Z.of_nat (buffer_size bufs) <? 1) with false by (symmetry; apply Z.ltb_ge; lia). done.
Qed.

Lemma take_n_stream_consume (k : nat) :
  (k <= Nat.min limit (buffer_size bufs))%nat ->
  exists bufs', consume (Z.of_nat k) t = Ret (mkTakeN (limit - k) (mkStream bufs' is_closed)) /\
    buffer_size bufs' = (buffer_size bufs - k)%nat /\ concat bufs' = drop k (concat bufs).
Proof.
  intros Hk. destruct (consume_stream (mkStream bufs is_closed) k) as (bufs' & Hc & Hb); [simpl; lia|].
  exists bufs'. change (consume (Z.of_nat k) t) with
    (count ← to_usize (Z.of_nat k);
     src ← consume (Z.of_nat (Nat.min count limit)) (mkStream bufs is_closed);
     Ret (mkTakeN (limit - Nat.min count limit) src)).
  rewrite to_usize_nat. cbn [mbind io_bind]. rewrite Nat.min_l, Hc by lia. split_and!; [done| |done]. unfold buffer_size. by rewrite Hb, length_drop.
Qed.
End take_n_end.

(** A reader of [take_n] learns that it has reached the limit only by
    fetching from the source once more: reading a stream to the end of its
    [limit] bytes returns when the stream holds more than those or is closed,
    and waits otherwise, also when all the bytes have been read. *)
Theorem take_n_end (limit fuel : nat) (bufs : list buffer) (is_closed : bool) :
  (2 < fuel)%nat ->
  consume_all fuel (mkTakeN limit (mkStream bufs is_closed)) = Blocked <->
  is_closed = false /\ (buffer_size bufs <= limit)%nat.
Proof.
  intros Hf. destruct fuel as [|[|fuel]]; try lia. unfold consume_all. cbn [for_each]. rewrite take_n_stream_fetch.
  destruct (buffer_size bufs =? 0)%nat eqn:E0; bool_cases.
  { destruct is_closed; cbn; split; try done; [by intros [? _]|intros _; split; [done|lia]]. }
  cbn [mbind io_bind]. rewrite for_each_buffer_unit, trim_size, size_gather.
  destruct (Nat.min limit (buffer_size bufs) =? 0)%nat eqn:E1; bool_cases; [cbn; split; [done|lia]|].
  destruct (take_n_stream_consume limit bufs is_closed (Nat.min limit (buffer_size bufs))) as (bufs' & -> & Hb & _); [done|].
  cbn [mbind io_bind]. rewrite take_n_stream_fetch. destruct (buffer_size bufs' =? 0)%nat eqn:E2; bool_cases.
  - destruct is_closed; cbn; split; try done; [by intros [? _]|intros _; split; [done|lia]].
  - cbn [mbind io_bind]. rewrite for_each_buffer_unit, trim_size, size_gather, Hb. destruct (_ =? 0)%nat eqn:E3; bool_cases; [cbn; split; [done|lia]|].
    lia.
Qed.

(** What a reader gets that does not have to wait. *)
Lemma take_n_collect (limit fuel : nat) (bufs : list buffer) (is_closed : bool) :
  (2 < fuel)%nat -> (limit <= buffer_size bufs)%nat -> (limit < buffer_size bufs)%nat \/ is_closed = true ->
  exists bufs', collect_vec fuel (mkTakeN limit (mkStream bufs is_closed)) =
      Ret (OkVal (take limit (concat bufs)), mkTakeN 0 (mkStream bufs' is_closed)) /\
    concat bufs' = drop limit (concat bufs).
Proof.
  intros Hf Hl Hmore. destruct fuel as [|[|fuel]]; try lia. unfold collect_vec. cbn [for_each]. rewrite take_n_stream_fetch.
  destruct (buffer_size bufs =? 0)%nat eqn:E0; bool_cases.
  { assert (limit = O) as -> by lia. destruct Hmore as [?| ->]; [lia|]. cbn. exists bufs. by rewrite drop_0. }
  cbn [mbind io_bind]. rewrite for_each_buffer_append, trim_spec, trim_size, size_gather, concat_gather. cbn [app].
  rewrite Nat.min_l by done. destruct (limit =? 0)%nat eqn:E1; bool_cases.
  { subst limit. cbn. exists bufs. by rewrite drop_0. }
  destruct (take_n_stream_consume limit bufs is_closed limit) as (bufs' & -> & Hb & Hc); [lia|].
  cbn [mbind io_bind]. rewrite Nat.sub_diag, take_n_stream_fetch. exists bufs'. rewrite Hc. split; [|done].
  destruct (buffer_size bufs' =? 0)%nat eqn:E2; bool_cases.
  - destruct Hmore as [?| ->]; [lia|]. done.
  - cbn [mbind io_bind]. rewrite for_each_buffer_append, trim_size, trim_spec. cbn [app Nat.min take].
    by rewrite app_nil_r.
Qed.

(** The whole body of 3 bytes has arrived. *)
Lemma take_n_end_witness : consume_all 5 (mkTakeN 3 (mkStream [[1]; [2; 3]] false)) = Blocked.
Proof. apply (take_n_end 3 5); [lia|]. split; [done|]. unfold buffer_size. simpl. lia. Defined.

(** At the limit [take_n] still returns successfully, without data, so that
    [write_to], which waits for [kEndOfStream], never ends when the stream
    holds more than the limit. *)
Theorem take_n_write_to_spins {D} (write_some : list buffer -> D -> StatusOr nat * D)
    (fuel n limit : nat) (bufs : list buffer) (is_closed : bool) (dst : D) :
  (forall bufs d, exists k d', write_some bufs d = (OkVal k, d') /\ (k <= buffer_size bufs)%nat) ->
  (limit < buffer_size bufs)%nat ->
  write_to write_some fuel n dst (mkTakeN limit (mkStream bufs is_closed)) = NoFuel.
Proof.
  intros Hw. revert n limit bufs dst. induction fuel as [|fuel IH]; intros n limit bufs dst Hl; [done|]. cbn [write_to].
  rewrite take_n_stream_fetch. destruct (buffer_size bufs =? 0)%nat eqn:E; bool_cases; [lia|]. cbn [mbind io_bind].
  destruct (Hw (reverse (trim_back limit (buffer_size (gather 1 bufs)) (reverse (gather 1 bufs)))) dst) as (k & d' & -> & Hk).
  rewrite trim_size, size_gather in Hk.
  destruct (take_n_stream_consume limit bufs is_closed k) as (bufs' & -> & Hb & _); [done|]. cbn [mbind io_bind]. apply IH. lia.
Qed.

(** ** [SeqBufferSource] *)

Lemma seq_fetch_loop_spec (min_count : Z) (active seq : list buffer) :
  match seq_fetch_loop (Z.of_nat (buffer_size active)) min_count active seq with
  | (OkVal bufs, s') =>
      active_buffers_ s' = bufs /\ bufs ++ seq_ s' = active ++ seq /\ min_count <= Z.of_nat (buffer_size bufs)
  | (Err e, s') => e = kInvalidArgument /\ active_buffers_ s' = active ++ seq /\ Z.of_nat (buffer_size (active ++ seq)) < min_count
  end.
Proof.
  revert active. induction seq as [|b seq IH]; intros active; cbn [seq_fetch_loop]; case_if; try (split_and!; try done; lia).
  - rewrite app_nil_r. by split_and!.
  - specialize (IH (active ++ [b])). rewrite buffer_size_app, <- !app_assoc in IH. simpl in IH.
    replace (buffer_size [b]) with (length b) in IH by (unfold buffer_size; simpl; by rewrite app_nil_r).
    by rewrite Nat2Z.inj_add in IH.
Qed.

(** A sequence of buffers delivers its bytes in order; at its end it fails with
    [kInvalidArgument], which the readers above take for an error. *)
Lemma seq_fetch_spec (n : Z) (s : SeqBufferSource) :
  0 <= n < 2 ^ 63 ->
  match seq_fetch n s with
  | (OkVal bufs, s') =>
      concat (active_buffers_ s' ++ seq_ s') = concat (active_buffers_ s ++ seq_ s) /\ bufs = active_buffers_ s' /\
      n <= Z.of_nat (buffer_size bufs) /\
      (forall k, (k <= buffer_size bufs)%nat -> exists s'', seq_consume (Z.of_nat k) s' = Done s'' /\ (Z.of_nat k < 2 ^ 63 ->
        concat (active_buffers_ s'' ++ seq_ s'') = drop k (concat (active_buffers_ s ++ seq_ s))))
  | (Err e, _) => e = kInvalidArgument /\ Z.of_nat (buffer_size (active_buffers_ s ++ seq_ s)) < n
  end.
Proof.
  intros Hn. unfold seq_fetch. rewrite uwrap_small by lia. pose proof (seq_fetch_loop_spec n (active_buffers_ s) (seq_ s)) as Hs.
  destruct (seq_fetch_loop _ _ _ _) as [[bufs|e] s']; [|by destruct Hs as (? & _ & ?)].
  destruct Hs as (Ha & Heq & Hm). rewrite Ha, Heq. split_and!; [done|done|done|]. intros k Hk. unfold seq_consume. rewrite Ha.
  pose proof (uwrap_range 64 (Z.of_nat k) ltac:(lia)). assert (Z.to_nat (u64 (Z.of_nat k)) <= k)%nat as Hle.
  { unfold uwrap. pose proof (Z.mod_le (Z.of_nat k) (2 ^ 64)). lia. }
  destruct (consume_buffers_done bufs (Z.to_nat (u64 (Z.of_nat k)))) as (bufs' & -> & Hc); [lia|]. eexists. split; [done|].
  intros Hk'. cbn [active_buffers_ seq_]. rewrite <- Heq, !concat_app, Hc, uwrap_small, Nat2Z.id, drop_app_le by (unfold buffer_size in *; lia).
  done.
Qed.
