(* ===== verification/Fetch.v ===== *)
(** * Scoped chunks

    [async/fetch.hpp].  [fetch_chunk] takes a piece of a stream; the chunk
    object that it returns gives back what is not wanted and consumes the rest
    from the stream when it goes away.  [transfer_chunked_data] copies a
    stream with it.  A stream is a [BufferSource] of the file of that name:
    [async_fetch] with its handler is [fetch_at_least], and boost's [eof] is
    the status [kEndOfStream]. *)

From S2P Require Import Prelude Status Buffer BufferSource.
Open Scope nat_scope.

(** A [const_buffer]: bytes of the stream, or the first bytes of the chunk's
    own storage. *)
Inductive View : Type := External (bytes : list Z) | Local (n : nat).

(** [source_]: whether there is one. *)
(* @ src/batteries/async/fetch.hpp 179-191 BasicScopedChunk *)
Record Chunk : Type := mkChunk { source_ : bool; local_storage_ : list Z; buffer_ : View }.

(* @ src/batteries/async/fetch.hpp 124-127 BasicScopedChunk::data *)
Definition data (c : Chunk) : list Z :=
  match buffer_ c with External bytes => bytes | Local n => take n (local_storage_ c) end.

Definition view_size (v : View) : nat := match v with External bytes => length bytes | Local n => n end.

(* @ src/batteries/async/fetch.hpp 131-134 BasicScopedChunk::size *)
Definition chunk_size (c : Chunk) : nat := view_size (buffer_ c).

(* @ src/batteries/async/fetch.hpp 146-149 BasicScopedChunk::empty *)
Definition chunk_empty (c : Chunk) : bool := negb (source_ c) || (chunk_size c =? 0).

(* @ src/batteries/async/fetch.hpp 97-102 BasicScopedChunk::BasicScopedChunk *)
Definition chunk_of_buffer (b : buffer) : Chunk := mkChunk true [] (External b).

(* @ src/batteries/async/fetch.hpp 107-112 BasicScopedChunk::BasicScopedChunk *)
Definition chunk_of_storage (storage : list Z) : Chunk := mkChunk true storage (Local (length storage)).

(* @ src/batteries/async/fetch.hpp 157-161 BasicScopedChunk::back_up *)
Definition back_up (n : Z) (c : Chunk) : Chunk :=
  let n := Z.to_nat (Z.min n (Z.of_nat (chunk_size c))) in
  mkChunk (source_ c) (local_storage_ c)
    match buffer_ c with External bytes => External (take (length bytes - n) bytes) | Local k => Local (k - n) end.

Section moves.
(** What a [SmallVec] holds after it has been moved from, which is up to
    boost. *)
Context (moved_from : list Z -> list Z).

(** The new chunk, and [other]. *)
(* @ src/batteries/async/fetch.hpp 54-69 BasicScopedChunk::BasicScopedChunk *)
Definition move_chunk (other : Chunk) : Chunk * Chunk :=
  let buffer := match local_storage_ other with [] => buffer_ other | storage => Local (length storage) end in
  (mkChunk (source_ other) (local_storage_ other) buffer, mkChunk false (moved_from (local_storage_ other)) (External [])).

(** [*this = std::move(other)], for two objects: the source of [*this] is
    forgotten. *)
(* @ src/batteries/async/fetch.hpp 73-92 BasicScopedChunk::operator= *)
Definition move_assign_chunk (this other : Chunk) : Chunk * Chunk := move_chunk other.
End moves.

Section stream.
Context {S : Type} {BS : BufferSource S}.

(* @ src/batteries/async/fetch.hpp 166-177 BasicScopedChunk::consume *)
Definition chunk_consume (c : Chunk) (s : S) : io (Chunk * S) :=
  if source_ c then s ← consume (Z.of_nat (chunk_size c)) s; Ret (mkChunk false (local_storage_ c) (External []), s)
  else Ret (c, s).

(** The copied bytes, and how many are still missing. *)
(* @ src/batteries/async/fetch.hpp 234-240 fetch_chunk *)
Fixpoint gather_loop (bytes_remaining : nat) (bufs : list buffer) : list Z * nat :=
  match bufs with
  | [] => ([], bytes_remaining)
  | b :: bufs =>
      if 0 <? bytes_remaining then
        let bytes_to_copy := Nat.min bytes_remaining (length b) in
        let '(storage, missing) := gather_loop (bytes_remaining - bytes_to_copy) bufs in
        (take bytes_to_copy b ++ storage, missing)
      else ([], bytes_remaining)
  end.

(* @ src/batteries/async/fetch.hpp 205-245 fetch_chunk *)
Definition fetch_chunk (stream : S) (min_size : nat) : io (StatusOr Chunk * S) :=
  if min_size =? 0 then Ret (Err kInvalidArgument, stream)
  else
    '(result, stream) ← fetch_at_least (Z.of_nat min_size) stream;
    match result with
    | Err e => Ret (Err e, stream)
    | OkVal [] => Panicked
    | OkVal ((first_chunk :: _) as buffers) =>
        if min_size <=? length first_chunk then Ret (OkVal (chunk_of_buffer first_chunk), stream)
        else
          let '(storage, bytes_remaining) := gather_loop min_size buffers in
          if bytes_remaining =? 0 then Ret (OkVal (chunk_of_storage storage), stream) else Panicked
    end.

(** ** Copying a stream *)

Context {D : Type} (write : buffer -> D -> StatusOr nat * D).

(** What the body of the loop does with a chunk: the destructor of the chunk
    runs at its end, however it ends. *)
(* @ src/batteries/async/fetch.hpp 263-272 transfer_chunked_data *)
Definition transfer_chunk (chunk : Chunk) (to : D) (from : S) : io (StatusOr nat * D * S) :=
  let '(n_written, to) := write (data chunk) to in
  match n_written with
  | Err e => '(_, from) ← chunk_consume chunk from; Ret (Err e, to, from)
  | OkVal n =>
      if n =? 0 then '(_, from) ← chunk_consume chunk from; Ret (Err kClosedBeforeEndOfStream, to, from)
      else '(_, from) ← chunk_consume (back_up (u64 (Z.of_nat (chunk_size chunk) - Z.of_nat n)) chunk) from; Ret (OkVal n, to, from)
  end.

(** [From::fetch_chunk] fetches at least one byte. *)
(* @ src/batteries/async/fetch.hpp 250-275 transfer_chunked_data *)
Fixpoint transfer_chunked_data (fuel bytes_transferred : nat) (from : S) (to : D) : io (StatusOr nat * D * S) :=
  match fuel with
  | O => NoFuel
  | Datatypes.S fuel =>
      '(chunk, from) ← fetch_chunk from 1;
      match chunk with
      | Err e => Ret (if bool_decide (e = kEndOfStream) then OkVal bytes_transferred else Err e, to, from)
      | OkVal chunk =>
          '(n_written, to, from) ← transfer_chunk chunk to from;
          match n_written with
          | Err e => Ret (Err e, to, from)
          | OkVal n => transfer_chunked_data fuel (bytes_transferred + n) from to
          end
      end
  end.
End stream.

(** ** A chunk consumes what has not been given back *)

(** The buffer is the whole of what the chunk was made with: it has not been
    backed up. *)
Definition whole (c : Chunk) : Prop :=
  match buffer_ c with External _ => local_storage_ c = [] | Local n => n = length (local_storage_ c) end.

Definition view_ok (c : Chunk) : Prop := match buffer_ c with External _ => True | Local n => n <= length (local_storage_ c) end.

Lemma whole_ok (c : Chunk) : whole c -> view_ok c.
Proof. unfold whole, view_ok. destruct (buffer_ c); [done|lia]. Qed.

Lemma data_length (c : Chunk) : view_ok c -> length (data c) = chunk_size c.
Proof. unfold view_ok, data, chunk_size. destruct (buffer_ c); simpl; [done|]. rewrite length_take. lia. Qed.

Lemma move_whole (moved_from : list Z -> list Z) (c : Chunk) : whole c -> (move_chunk moved_from c).1 = c.
Proof.
  destruct c as [s storage b]. unfold whole, move_chunk. simpl. destruct b as [bytes|n].
  - by intros ->.
  - intros ->. by destruct storage.
Qed.

Lemma back_up_data (n : Z) (c : Chunk) :
  view_ok c -> view_ok (back_up n c) /\ source_ (back_up n c) = source_ c /\
  data (back_up n c) = take (length (data c) - Z.to_nat n) (data c).
Proof.
  intros Hok. pose proof (data_length c Hok) as Hl. destruct c as [s storage b]. unfold view_ok, back_up, data, chunk_size in *. simpl in *.
  destruct b as [bytes|k]; simpl in *; split_and!; try done; try lia.
  - f_equal. lia.
  - rewrite Hl, take_take. f_equal. lia.
Qed.

Definition back_ups (ns : list Z) (c : Chunk) : Chunk := foldl (fun c n => back_up n c) c ns.

Lemma back_ups_data (ns : list Z) (c : Chunk) :
  view_ok c -> view_ok (back_ups ns c) /\ source_ (back_ups ns c) = source_ c /\
  data (back_ups ns c) = take (length (data c) - list_sum (Z.to_nat <$> ns)) (data c).
Proof.
  revert c. induction ns as [|n ns IH]; intros c Hok; simpl.
  - rewrite Nat.sub_0_r, firstn_all. done.
  - destruct (back_up_data n c Hok) as (H1 & H2 & H3). destruct (IH (back_up n c) H1) as (I1 & I2 & I3).
    split_and!; [done|by rewrite I2|]. rewrite I3, H3, take_take, length_take. f_equal. unfold fmap in *. lia.
Qed.

Lemma gather_loop_spec (n : nat) (bufs : list buffer) :
  gather_loop n bufs = (take n (concat bufs), n - length (concat bufs)).
Proof.
  revert n. induction bufs as [|b bufs IH]; intros n; simpl; [by rewrite take_nil, Nat.sub_0_r|]. case_if.
  - rewrite IH, take_app, length_app. f_equal; [|lia]. f_equal.
    + destruct (Nat.min_spec n (length b)) as [[_ ->]|[? ->]]; [done|]. by rewrite firstn_all, (take_ge b n).
    + f_equal. lia.
  - assert (n = 0) as -> by lia. done.
Qed.

Section laws.
Context {S : Type} {BS : BufferSource S} {SL : @SourceLaws S BS} {PC : @PartialConsume S BS SL} {FM : @FetchesMin S BS SL}.

(** A chunk of [s]: its bytes come next, and any part of them may be
    consumed. *)
Definition chunk_of (c : Chunk) (s : S) : Prop :=
  whole c /\ source_ c = true /\ valid s /\ data c `prefix_of` content s /\ forall k, k <= length (data c) -> can_consume s k.

Lemma fetch_chunk_spec (s : S) (min_size : nat) :
  valid s -> 0 < min_size ->
  match fetch_chunk s min_size with
  | Ret (OkVal c, s') => chunk_of c s' /\ content s' = content s /\ min_size <= length (data c)
  | Ret (Err e, s') => e = kEndOfStream -> valid s' /\ content s' = content s /\ length (content s) < min_size
  | Blocked => True
  | _ => False
  end.
Proof using PC FM.
  intros Hv Hm. unfold fetch_chunk. rewrite (proj2 (Nat.eqb_neq _ _)) by lia.
  pose proof (fetch_spec (Z.of_nat min_size) s Hv ltac:(lia)) as Hf.
  destruct (fetch_at_least (Z.of_nat min_size) s) as [[[bufs|e] s']| | |] eqn:E; [| |done|done|done]; cbn.
  - destruct Hf as (Hv' & Hc & Hp & _). pose proof (fetches_min (Z.of_nat min_size) s s' bufs Hv ltac:(lia) E) as Hsize.
    assert (forall k, k <= buffer_size bufs -> can_consume s' k) as Hk.
    { intros k. apply (partial_consume (Z.of_nat min_size) s s' bufs k Hv); [lia|done]. }
    unfold buffer_size in *. destruct bufs as [|b bufs]; [simpl in Hsize; lia|]. case_if; bool_cases.
    + assert (b `prefix_of` concat (b :: bufs)) as Hb by apply prefix_app_r, reflexivity.
      split_and!; [|done|done]. unfold chunk_of. split_and!; [done|done|done| |]; unfold data; simpl.
      * rewrite Hc. by etransitivity.
      * intros k Hle. apply Hk. simpl. rewrite length_app. lia.
    + rewrite gather_loop_spec. replace (min_size - length (concat (b :: bufs))) with 0 by lia. cbn -[take concat chunk_of_storage].
      assert (data (chunk_of_storage (take min_size (concat (b :: bufs)))) = take min_size (concat (b :: bufs))) as Hd.
      { unfold data, chunk_of_storage. cbn [buffer_ local_storage_]. apply firstn_all. }
      unfold chunk_of. rewrite Hd, length_take. split_and!; [done|done|done| | |done|lia].
      * rewrite Hc. etransitivity; [|done]. apply prefix_take.
      * intros k Hle. apply Hk. lia.
  - intros He. destruct (Hf He) as (H1 & H2 & H3 & _). split_and!; [done|done|lia].
Qed.

Lemma chunk_consume_spec (c : Chunk) (s : S) :
  view_ok c -> source_ c = true -> valid s -> can_consume s (length (data c)) ->
  exists c' s', chunk_consume c s = Ret (c', s') /\ valid s' /\ content s' = drop (length (data c)) (content s) /\ source_ c' = false.
Proof using.
  intros Hok Hs Hv Hc. unfold chunk_consume. rewrite Hs, <- (data_length c Hok).
  destruct (consume_spec (length (data c)) s Hv Hc) as (s' & -> & Hv' & Hd). cbn. by eauto 10.
Qed.

Lemma moves_whole (moved_from : list Z -> list Z) (n : nat) (c : Chunk) : whole c -> Nat.iter n (fun c => (move_chunk moved_from c).1) c = c.
Proof using. intros H. induction n as [|n IH]; [done|]. rewrite Nat.iter_succ, IH. by apply move_whole. Qed.

(** A chunk is the next bytes of its stream, at least as many as were asked
    for; it may be moved to other objects, then parts of it given back in any
    number of calls, and when it goes away the stream is behind exactly what
    was kept; going away twice does nothing more.  At the end of the stream
    there is no chunk only when less than what was asked for is left. *)
Theorem chunk_gives_back (moved_from : list Z -> list Z) (s : S) (min_size moves : nat) (ns : list Z) :
  valid s -> 0 < min_size ->
  match fetch_chunk s min_size with
  | Ret (OkVal c, s') =>
      let c' := back_ups ns (Nat.iter moves (fun c => (move_chunk moved_from c).1) c) in
      min_size <= length (data c) /\ data c `prefix_of` content s /\
      data c' = take (length (data c) - list_sum (Z.to_nat <$> ns)) (data c) /\ chunk_size c' = length (data c') /\
      exists c'' s'', chunk_consume c' s' = Ret (c'', s'') /\ content s = data c' ++ content s'' /\
        forall t : S, chunk_consume c'' t = Ret (c'', t)
  | Ret (Err e, s') => e = kEndOfStream -> length (content s) < min_size
  | Blocked => True
  | _ => False
  end.
Proof using PC FM.
  intros Hv Hm. pose proof (fetch_chunk_spec s min_size Hv Hm) as Hf.
  destruct (fetch_chunk s min_size) as [[[c|e] s']| | |]; [|by intros He; destruct (Hf He) as (_ & _ & ?)|done|done|done].
  destruct Hf as ((Hw & Hs & Hv' & Hp & Hc) & E & Hl). rewrite E in Hp. rewrite moves_whole by done. intros c'.
  destruct (back_ups_data ns c (whole_ok c Hw)) as (H1 & H2 & H3). fold c' in H1, H2, H3. split_and!; try done.
  { by rewrite data_length. }
  assert (length (data c') <= length (data c)) as Hle by (rewrite H3, length_take; lia).
  destruct (chunk_consume_spec c' s' H1) as (c'' & s'' & E' & _ & Hd & Hs'); [congruence|done|by apply Hc|].
  exists c'', s''. split_and!; [done| |intros t; unfold chunk_consume; by rewrite Hs'].
  assert (data c' `prefix_of` content s) as [rest Hr] by (etransitivity; [|exact Hp]; rewrite H3; apply prefix_take).
  rewrite Hd, E, Hr, drop_app_length. done.
Qed.
End laws.

(** ** A transfer loses nothing *)

(** What a writer promises: it takes the first bytes of what it is given, and
    says how many unless it fails. *)
Class WriteLaws {D} (write : buffer -> D -> StatusOr nat * D) : Type := {
  received : D -> list Z;
  write_spec (b : buffer) (t : D) :
    match write b t with
    | (OkVal n, t') => n <= length b /\ received t' = received t ++ take n b
    | (Err _, t') => exists n, received t' = received t ++ take n b
    end }.

Section transfer.
Context {S : Type} {BS : BufferSource S} {SL : @SourceLaws S BS} {PC : @PartialConsume S BS SL} {FM : @FetchesMin S BS SL}.
Context {D : Type} {write : buffer -> D -> StatusOr nat * D} {WL : WriteLaws write}.

Lemma transfer_chunk_spec (c : Chunk) (to : D) (s : S) :
  chunk_of c s -> (Z.of_nat (length (data c)) < 2 ^ 64)%Z ->
  exists n_written to' s', transfer_chunk write c to s = Ret (n_written, to', s') /\ valid s' /\
    match n_written with
    | OkVal n => 0 < n <= length (data c) /\ received to' = received to ++ take n (data c) /\ content s' = drop n (content s)
    | Err _ => exists n, received to' = received to ++ take n (data c) /\ content s' = drop (length (data c)) (content s)
    end.
Proof using PC.
  intros (Hw & Hs & Hv & Hp & Hc) Hmax. unfold transfer_chunk. pose proof (write_spec (data c) to) as Hwr.
  destruct (write (data c) to) as [[n|e] to'].
  - destruct Hwr as [Hn Hr]. case_if; bool_cases.
    + destruct (chunk_consume_spec c s (whole_ok c Hw) Hs Hv) as (c' & s' & -> & Hv' & Hd & _); [by apply Hc|].
      do 3 eexists. split; [reflexivity|]. split; [done|]. exists 0. by subst n.
    + pose proof (data_length c (whole_ok c Hw)) as Hl.
      rewrite uwrap_small by lia.
      destruct (back_up_data (Z.of_nat (chunk_size c) - Z.of_nat n) c (whole_ok c Hw)) as (H1 & H2 & H3).
      replace (length (data c) - Z.to_nat (Z.of_nat (chunk_size c) - Z.of_nat n)) with n in H3 by lia.
      assert (length (data (back_up (Z.of_nat (chunk_size c) - Z.of_nat n) c)) = n) as Hn' by (rewrite H3, length_take; lia).
      destruct (chunk_consume_spec _ s H1 ltac:(congruence) Hv) as (c' & s' & -> & Hv' & Hd & _); [apply Hc; lia|].
      rewrite Hn' in Hd. do 3 eexists. split; [reflexivity|]. split_and!; [done|lia|done|done|done].
  - destruct (chunk_consume_spec c s (whole_ok c Hw) Hs Hv) as (c' & s' & -> & Hv' & Hd & _); [by apply Hc|].
    destruct Hwr as (n & Hr). do 3 eexists. split; [reflexivity|]. split; [done|]. by exists n.
Qed.

Lemma transfer_from (fuel m : nat) (from : S) (to : D) :
  valid from -> (Z.of_nat (length (content from)) < 2 ^ 64)%Z -> length (content from) < fuel ->
  match transfer_chunked_data write fuel m from to with
  | Ret (OkVal n, to', from') => received to' = received to ++ content from /\ n = m + length (content from) /\ content from' = []
  | Ret (Err _, to', _) => exists sent, sent `prefix_of` content from /\ received to' = received to ++ sent
  | Blocked => True
  | _ => False
  end.
Proof using PC FM.
  revert m from to. induction fuel as [|fuel IH]; intros m from to Hv Hmax Hf; [lia|]. cbn [transfer_chunked_data].
  pose proof (fetch_chunk_spec from 1 Hv ltac:(lia)) as Hs.
  destruct (fetch_chunk from 1) as [[[c|e] s']| | |]; cbn [mbind io_bind]; [| |done|done|done].
  - destruct Hs as (Hc & E & Hl). pose proof Hc as (_ & _ & _ & Hp & _). rewrite E in Hp. destruct Hp as [rest Hp].
    destruct (transfer_chunk_spec c to s' Hc) as (n_written & to' & s2 & -> & Hv2 & Hn); [rewrite Hp, length_app in Hmax; lia|].
    cbn [mbind io_bind]. destruct n_written as [n|e].
    + destruct Hn as (Hn & Hr & Hd). rewrite E, Hp, drop_app_le in Hd by lia.
      assert (take n (data c) ++ content s2 = content from) as Ef by (rewrite Hd, Hp, app_assoc, take_drop; done).
      assert (length (content s2) + n = length (content from)) as El by (rewrite <- Ef, length_app, length_take; lia).
      specialize (IH (m + n) s2 to' Hv2 ltac:(lia) ltac:(lia)).
      destruct (transfer_chunked_data write fuel (m + n) s2 to') as [[[[k|e'] to2] s3]| | |]; try done.
      * destruct IH as (I1 & I2 & I3). rewrite I1, Hr, <- app_assoc, Ef. split_and!; [done|lia|done].
      * destruct IH as (sent & [r I1] & I2). exists (take n (data c) ++ sent). rewrite I2, Hr, <- app_assoc. split; [|done].
        exists r. by rewrite <- app_assoc, <- I1.
    + destruct Hn as (n & Hr & _). exists (take n (data c)). split; [|done]. rewrite Hp. apply prefix_app_r, prefix_take.
  - case_bool_decide as He.
    + destruct (Hs He) as (_ & E & Hl). destruct (content from) as [|x l]; [|simpl in Hl; lia].
      rewrite app_nil_r, E. split_and!; [done|simpl; lia|done].
    + exists []. rewrite app_nil_r. split; [apply prefix_nil|done].
Qed.

(** C31: [transfer_chunked_data] terminates, and when it returns a number the
    destination has received the whole stream, in order, that number is its
    length, and the stream is at its end, however few bytes the writer takes
    at a time.  When it fails, what was received is the beginning of the
    stream. *)
Theorem transfer_correct (fuel : nat) (from : S) (to : D) :
  valid from -> (Z.of_nat (length (content from)) < 2 ^ 64)%Z -> length (content from) < fuel ->
  match transfer_chunked_data write fuel 0 from to with
  | Ret (OkVal n, to', from') => received to' = received to ++ content from /\ n = length (content from) /\ content from' = []
  | Ret (Err _, to', _) => exists sent, sent `prefix_of` content from /\ received to' = received to ++ sent
  | Blocked => True
  | _ => False
  end.
Proof using PC FM.
  intros Hv Hmax Hf. pose proof (transfer_from fuel 0 from to Hv Hmax Hf) as H. exact H.
Qed.
End transfer.

Definition sample_stream : ByteStream := mkStream [[104; 101]; []; [108; 108; 111]; [33]]%Z true.

Lemma chunk_gives_back_witness :
  fetch_chunk sample_stream 4 = Ret (OkVal (chunk_of_buffer [104; 101; 108; 108]%Z), sample_stream) /\
  exists c'' s'', chunk_consume (back_ups [1; 1]%Z (chunk_of_buffer [104; 101; 108; 108]%Z)) sample_stream = Ret (c'', s'') /\
    content sample_stream = [104; 101]%Z ++ content s''.
Proof.
  split; [vm_compute; reflexivity|].
  destruct (chunk_gives_back (fun l => l) sample_stream 4 3 [1; 1]%Z ltac:(exact I) ltac:(lia)) as (_ & _ & _ & _ & c'' & s'' & H1 & H2 & _).
  exists c'', s''. split; [exact H1|exact H2].
Defined.

(** A writer that takes two bytes at a time. *)
Definition write_two (b : buffer) (t : list Z) : StatusOr nat * list Z := (OkVal (Nat.min 2 (length b)), t ++ take 2 b).

#[export] Instance write_two_laws : WriteLaws write_two.
Proof.
  refine {| received t := t |}. intros b t. unfold write_two. split; [apply Nat.le_min_r|]. f_equal. by destruct b as [|x [|y b]].
Defined.

Lemma transfer_correct_witness :
  match transfer_chunked_data write_two 10 0 sample_stream [] with
  | Ret (OkVal n, to', _) => to' = [104; 101; 108; 108; 111; 33]%Z /\ n = 6
  | _ => False
  end.
Proof.
  pose proof (transfer_correct (write := write_two) 10 sample_stream [] ltac:(exact I) ltac:(vm_compute; reflexivity) ltac:(vm_compute; lia)) as H.
  vm_compute. vm_compute in H. destruct H as (H1 & H2 & _). split; [exact H1|exact H2].
Defined.

(** A chunk with storage of its own that is moved after part of it has been
    given back has all of it again. *)
Example move_after_back_up :
  let c := back_up 2 (chunk_of_storage [1; 2; 3]%Z) in
  data c = [1]%Z /\ data (move_chunk (fun _ => []) c).1 = [1; 2; 3]%Z.
Proof. split; reflexivity. Qed.

(** A chunk that another one is assigned to never consumes its data. *)
Example assigned_chunk_is_lost :
  let '(this, other) := move_assign_chunk (fun _ => []) (chunk_of_buffer [1; 2]%Z) (mkChunk false [] (External [])) in
  chunk_consume this sample_stream = Ret (this, sample_stream) /\ chunk_consume other sample_stream = Ret (other, sample_stream).
Proof. split; reflexivity. Qed.

(** When the writer fails the chunk is consumed, although nothing of it has
    been written. *)
Example failed_write_loses_chunk :
  transfer_chunked_data (fun b (t : list Z) => (Err kUnknown, t)) 10 0 sample_stream [] =
  Ret (Err kUnknown, [], mkStream [[]; [108; 108; 111]; [33]]%Z true).
Proof. vm_compute. reflexivity. Qed.
