(* ===== verification/Interval.v ===== *)
(** * Intervals

    [interval_traits.hpp], [interval.hpp] and the part of [bounds.hpp] they
    use.  An interval is a pair of bounds; the two instantiations of
    [IntervalTraits] ([IClosedOpen], [IClosed]) are the two values of
    [InclusiveUpperBound].  The element type is a parameter ordered by the
    class [NaturalOrder], which states what [seq::NaturalOrder] and
    [seq::NaturalEquals] promise for it. *)

From S2P Require Export Prelude.

(** The natural order of an element type, [operator<] and [operator==], and
    the comparison [least_upper_bound(x) < y] that adjacency of closed
    intervals uses. *)
(* @ src/batteries/seq/natural_order.hpp 13-19 seq::NaturalOrder *)
Class NaturalOrder (T : Type) : Type := {
  less : T -> T -> bool;
  equal : T -> T -> bool;
  lub_less : T -> T -> bool }.

Class NaturalOrderLaws (T : Type) `{NaturalOrder T} : Prop := {
  less_irrefl : forall x, less x x = false;
  less_trans : forall x y z, less x y = true -> less y z = true -> less x z = true;
  less_connected : forall x y, less x y = false -> less y x = false -> x = y;
  equal_spec : forall x y, equal x y = true <-> x = y }.

(* @ src/batteries/bounds.hpp 14-15 InclusiveUpperBound *)
Inductive UpperBoundKind : Type := Exclusive | Inclusive.

(** [BATT_DEFINE_INT_BOUNDS]: the least upper bound of an integer is its
    successor in the integer type. *)
(* @ src/batteries/bounds.hpp 39-47 BATT_DEFINE_INT_BOUNDS *)
Definition least_upper_bound (wrap : Z -> Z) (n : Z) : Z := wrap (n + 1)%Z.

(* @ src/batteries/bounds.hpp 44-47 BATT_DEFINE_INT_BOUNDS *)
Definition greatest_lower_bound (wrap : Z -> Z) (n : Z) : Z := wrap (n - 1)%Z.

(** The order of an integer type whose values are normalised by [wrap]. *)
(* @ src/batteries/bounds.hpp 39-56 BATT_DEFINE_INT_BOUNDS *)
Definition int_order (wrap : Z -> Z) : NaturalOrder Z := {|
  less := Z.ltb;
  equal := Z.eqb;
  lub_less := fun x y => (least_upper_bound wrap x <? y)%Z |}.

(** Any other type: [LeastUpperBound<T>], for which [lub(x) < y] is [x < y]. *)
(* @ src/batteries/bounds.hpp 60-91 LeastUpperBound *)
Definition wrapped_order {T} (lt eq : T -> T -> bool) : NaturalOrder T := {|
  less := lt; equal := eq; lub_less := lt |}.

Lemma int_order_laws (wrap : Z -> Z) : @NaturalOrderLaws Z (int_order wrap).
Proof.
  split; simpl; intros; bool_cases; [apply Z.ltb_irrefl|apply Z.ltb_lt; lia|lia|apply Z.eqb_eq].
Qed.

Section Traits.
Context {T : Type} `{NaturalOrder T}.

(* @ src/batteries/interval_traits.hpp 31-39 IntervalTraitsBase::min *)
Definition tmin (left right : T) : T := if less right left then right else left.

(* @ src/batteries/interval_traits.hpp 41-49 IntervalTraitsBase::max *)
Definition tmax (left right : T) : T := if less left right then right else left.

(* @ src/batteries/interval_traits.hpp 62-66 IntervalTraitsBase::greater_than *)
Definition greater_than (left right : T) : bool := less right left.

(* @ src/batteries/interval_traits.hpp 67-71 IntervalTraitsBase::less_or_equal *)
Definition less_or_equal (left right : T) : bool := negb (greater_than left right).

(* @ src/batteries/interval_traits.hpp 72-76 IntervalTraitsBase::greater_or_equal *)
Definition greater_or_equal (left right : T) : bool := negb (less left right).

(* @ src/batteries/interval_traits.hpp 127-130 IntervalTraits::empty *)
Definition empty_open (lower upper : T) : bool := less_or_equal upper lower.

(* @ src/batteries/interval_traits.hpp 179-182 IntervalTraits::empty *)
Definition empty_closed (lower upper : T) : bool := less upper lower.

(* @ src/batteries/interval_traits.hpp 116-130 IntervalTraits::empty *)
Definition traits_empty (k : UpperBoundKind) (lower upper : T) : bool :=
  match k with Exclusive => empty_open lower upper | Inclusive => empty_closed lower upper end.

(* @ src/batteries/interval_traits.hpp 132-136 IntervalTraits::lower_includes_x *)
Definition lower_includes_x (lower x : T) : bool := less_or_equal lower x.

(* @ src/batteries/interval_traits.hpp 190-194 IntervalTraits::x_included_by_upper *)
Definition x_included_by_upper (k : UpperBoundKind) (x upper : T) : bool :=
  match k with Exclusive => less x upper | Inclusive => less_or_equal x upper end.

(* @ src/batteries/interval_traits.hpp 78-107 IntervalTraitsBase::upper_excludes_x *)
Definition upper_excludes_x (k : UpperBoundKind) (upper x : T) : bool :=
  negb (x_included_by_upper k x upper).

(* @ src/batteries/interval_traits.hpp 98-102 IntervalTraitsBase::x_excluded_by_lower *)
Definition x_excluded_by_lower (x lower : T) : bool := negb (lower_includes_x lower x).

(* @ src/batteries/interval_traits.hpp 144-148 IntervalTraits::adjacent *)
Definition adjacent_open (a_lower a_upper b_lower b_upper : T) : bool :=
  negb (less a_upper b_lower) && negb (less b_upper a_lower).

(* @ src/batteries/interval_traits.hpp 196-201 IntervalTraits::adjacent *)
Definition adjacent_closed (a_lower a_upper b_lower b_upper : T) : bool :=
  negb (lub_less b_upper a_lower) && negb (lub_less a_upper b_lower).

Definition traits_adjacent (k : UpperBoundKind) (a_lower a_upper b_lower b_upper : T) : bool :=
  match k with
  | Exclusive => adjacent_open a_lower a_upper b_lower b_upper
  | Inclusive => adjacent_closed a_lower a_upper b_lower b_upper
  end.

End Traits.

(* @ src/batteries/interval.hpp 67-72 BasicInterval *)
Record BasicInterval (T : Type) : Type := mkInterval {
  lower_bound : T;
  upper_bound : T }.
Arguments mkInterval {T} lower_bound upper_bound.
Arguments lower_bound {T} _.
Arguments upper_bound {T} _.

Section Interval.
Context {T : Type} `{NaturalOrder T}.
Context (k : UpperBoundKind).

Implicit Types this that : BasicInterval T.

(* @ src/batteries/interval.hpp 81-86 BasicInterval::empty *)
Definition empty this : bool := traits_empty k (lower_bound this) (upper_bound this).

(* @ src/batteries/interval.hpp 88-97 BasicInterval::contains *)
Definition contains this (item : T) : bool :=
  lower_includes_x (lower_bound this) item && x_included_by_upper k item (upper_bound this).

(* @ src/batteries/interval.hpp 99-109 BasicInterval::adjacent_to *)
Definition adjacent_to this that : bool :=
  traits_adjacent k (lower_bound this) (upper_bound this) (lower_bound that) (upper_bound that).

(* @ src/batteries/interval.hpp 111-121 BasicInterval::union_with *)
Definition union_with this that : BasicInterval T :=
  mkInterval (tmin (lower_bound this) (lower_bound that))
             (tmax (upper_bound this) (upper_bound that)).

(* @ src/batteries/interval.hpp 123-131 BasicInterval::overlaps *)
Definition overlaps this that : bool :=
  negb (traits_empty k (lower_bound that) (upper_bound this)) &&
  negb (traits_empty k (lower_bound this) (upper_bound that)).

(* @ src/batteries/interval.hpp 133-148 BasicInterval::intersection_with *)
Definition intersection_with this that : BasicInterval T :=
  let i := mkInterval (tmax (lower_bound this) (lower_bound that))
                      (tmin (upper_bound this) (upper_bound that)) in
  if empty i then mkInterval (lower_bound this) (lower_bound this) else i.

(* @ src/batteries/interval.hpp 150-174 BasicInterval::without *)
Definition without this that : list (BasicInterval T) :=
  if empty this then []
  else
    let first := mkInterval (lower_bound this) (tmin (upper_bound this) (lower_bound that)) in
    let second := mkInterval (tmax (lower_bound this) (upper_bound that)) (upper_bound this) in
    if adjacent_to first second then [this]
    else (if empty first then [] else [first]) ++ (if empty second then [] else [second]).

(* @ src/batteries/interval.hpp 215-221 BasicInterval::LinearOrder *)
Definition linear_order (l r : BasicInterval T) : bool :=
  traits_empty k (lower_bound r) (upper_bound l).

(* @ src/batteries/interval.hpp 223-228 BasicInterval::LinearOrder *)
Definition linear_order_item (l : T) (r : BasicInterval T) : bool :=
  x_excluded_by_lower l (lower_bound r).

(* @ src/batteries/interval.hpp 230-235 BasicInterval::LinearOrder *)
Definition linear_order_before_item (l : BasicInterval T) (r : T) : bool :=
  upper_excludes_x k (upper_bound l) r.

(* @ src/batteries/interval.hpp 245-254 BasicInterval::LexicographicalOrder *)
Definition lexicographical_order (l r : BasicInterval T) : bool :=
  less (lower_bound l) (lower_bound r) ||
  (equal (lower_bound l) (lower_bound r) && less (upper_bound l) (upper_bound r)).

(* @ src/batteries/interval.hpp 291-302 operator== *)
Definition interval_eqb (l r : BasicInterval T) : bool :=
  equal (lower_bound l) (lower_bound r) && equal (upper_bound l) (upper_bound r).

End Interval.

Section Shifts.
Context (wrap : Z -> Z).

(* @ src/batteries/interval.hpp 176-185 BasicInterval::shift_up *)
Definition shift_up (this : BasicInterval Z) (d : Z) : BasicInterval Z :=
  mkInterval (wrap (lower_bound this + d))%Z (wrap (upper_bound this + d))%Z.

(* @ src/batteries/interval.hpp 187-196 BasicInterval::shift_down *)
Definition shift_down (this : BasicInterval Z) (d : Z) : BasicInterval Z :=
  mkInterval (wrap (lower_bound this - d))%Z (wrap (upper_bound this - d))%Z.

(* @ src/batteries/interval.hpp 261-265 push_back *)
Definition push_back (i : BasicInterval Z) (delta : Z) : BasicInterval Z :=
  mkInterval (lower_bound i) (wrap (upper_bound i + delta))%Z.

(* @ src/batteries/interval.hpp 267-271 push_front *)
Definition push_front (i : BasicInterval Z) (delta : Z) : BasicInterval Z :=
  mkInterval (wrap (lower_bound i - delta))%Z (upper_bound i).

(* @ src/batteries/interval.hpp 273-277 pop_back *)
Definition pop_back (i : BasicInterval Z) (delta : Z) : BasicInterval Z :=
  mkInterval (lower_bound i) (wrap (upper_bound i - delta))%Z.

(* @ src/batteries/interval.hpp 279-283 pop_front *)
Definition pop_front (i : BasicInterval Z) (delta : Z) : BasicInterval Z :=
  mkInterval (wrap (lower_bound i + delta))%Z (upper_bound i).

End Shifts.

(** ** Set semantics *)

Section Semantics.
Context {T : Type} `{NaturalOrderLaws T}.

Implicit Types a b : BasicInterval T.

(** The order facts, in a form that [order] can use: every pair of bounds is
    compared, and transitivity closes the case. *)
Lemma not_less_trans (x y z : T) : less x y = false -> less y z = false -> less x z = false.
Proof.
  intros Hxy Hyz. destruct (less x z) eqn:Hxz; [|done].
  destruct (less z y) eqn:Hzy; [by rewrite (less_trans x z y) in Hxy|].
  rewrite (less_connected y z Hyz Hzy), Hxz in Hxy. done.
Qed.

Lemma less_not_less_trans (x y z : T) : less x y = true -> less z y = false -> less x z = true.
Proof.
  intros Hxy Hyz. destruct (less x z) eqn:Hxz; [done|]. by rewrite (not_less_trans x z y) in Hxy.
Qed.

Lemma not_less_less_trans (x y z : T) : less y x = false -> less y z = true -> less x z = true.
Proof.
  intros Hxy Hyz. destruct (less x z) eqn:Hxz; [done|]. by rewrite (not_less_trans y x z) in Hyz.
Qed.

Lemma less_asym (x y : T) : less x y = true -> less y x = false.
Proof. intros Hxy. destruct (less y x) eqn:E; [|done]. pose proof (less_trans x y x Hxy E). by rewrite less_irrefl in *. Qed.

End Semantics.

(** [order] decides goals about [less]: it saturates the context with the
    transitivity facts and closes contradictory branches. *)
Ltac order_sat :=
  repeat match goal with
    | H1 : less ?x ?y = true, H2 : less ?y ?z = true |- _ =>
        lazymatch goal with
        | _ : less x z = true |- _ => fail
        | _ => pose proof (less_trans x y z H1 H2)
        end
    | H1 : less ?x ?y = true, H2 : less ?z ?y = false |- _ =>
        lazymatch goal with
        | _ : less x z = true |- _ => fail
        | _ => pose proof (less_not_less_trans x y z H1 H2)
        end
    | H1 : less ?y ?x = false, H2 : less ?y ?z = true |- _ =>
        lazymatch goal with
        | _ : less x z = true |- _ => fail
        | _ => pose proof (not_less_less_trans x y z H1 H2)
        end
    end.

Ltac order :=
  order_sat;
  match goal with
  | H : less ?x ?x = true |- _ => by rewrite less_irrefl in H
  | H : less ?x ?y = true, H' : less ?x ?y = false |- _ => by rewrite H in H'
  | H : less ?x ?y = true, H' : less ?y ?x = true |- _ => by rewrite (less_asym x y H) in H'
  | _ => done
  end.

(** Unfolds interval operations to comparisons and splits on them, the
    innermost ones first. *)
Ltac flat t := lazymatch t with context [if _ then _ else _] => fail | _ => idtac end.

Ltac interval_cases :=
  unfold intersection_with, union_with, contains, empty, adjacent_to, overlaps, linear_order,
    linear_order_item, linear_order_before_item, lexicographical_order, upper_excludes_x,
    x_excluded_by_lower, traits_empty, traits_adjacent, empty_open, empty_closed, adjacent_open,
    adjacent_closed, lower_includes_x, x_included_by_upper, less_or_equal, greater_than, tmin,
    tmax in *;
  cbn [lower_bound upper_bound] in *;
  repeat first
    [ progress bool_cases
    | match goal with H : _ \/ _ |- _ => destruct H end
    | discriminate
    | match goal with
      | |- context [less ?x ?y] => flat x; flat y; destruct (less x y) eqn:?
      | H : context [less ?x ?y] |- _ =>
          flat x; flat y;
          lazymatch type of H with
          | less x y = _ => fail
          | _ => destruct (less x y) eqn:?
          end
      end; cbn [negb andb orb lower_bound upper_bound] in * ].

Section Theorems.
Context {T : Type} `{NaturalOrderLaws T}.

Lemma empty_open_spec (a : BasicInterval T) :
  empty Exclusive a = true <-> forall x, contains Exclusive a x = false.
Proof.
  split.
  - intros He x. interval_cases; order.
  - intros Hx. specialize (Hx (lower_bound a)). pose proof (less_irrefl (lower_bound a)).
    interval_cases; order.
Qed.

Lemma intersection_open_exact (a b : BasicInterval T) (x : T) :
  contains Exclusive (intersection_with Exclusive a b) x
  = contains Exclusive a x && contains Exclusive b x.
Proof. interval_cases; order. Qed.

Lemma existsb_contains (k : UpperBoundKind) (l : list (BasicInterval T)) (x : T) :
  (exists i, i ∈ l /\ contains k i x = true) <-> existsb (fun i => contains k i x) l = true.
Proof. rewrite existsb_exists. by setoid_rewrite list_elem_of_In. Qed.

Lemma without_existsb (a b : BasicInterval T) (x : T) :
  existsb (fun i => contains Exclusive i x) (without Exclusive a b)
  = contains Exclusive a x && negb (contains Exclusive b x).
Proof.
  unfold without. interval_cases; cbn [existsb app]; interval_cases; order.
Qed.

(** [without] is exact set difference for half-open intervals. *)
Theorem without_exact (a b : BasicInterval T) (x : T) :
  (exists i, i ∈ without Exclusive a b /\ contains Exclusive i x = true) <->
  contains Exclusive a x = true /\ contains Exclusive b x = false.
Proof.
  rewrite existsb_contains, without_existsb, andb_true_iff, negb_true_iff. done.
Qed.

(** the set operations on half-open intervals. *)
Theorem intersection_union_exact (a b : BasicInterval T) (x : T) :
  (contains Exclusive (intersection_with Exclusive a b) x
   = contains Exclusive a x && contains Exclusive b x) /\
  (empty Exclusive a = false -> empty Exclusive b = false ->
   adjacent_to Exclusive a b = true ->
   contains Exclusive (union_with a b) x = contains Exclusive a x || contains Exclusive b x).
Proof.
  split; [apply intersection_open_exact|]. intros Ha Hb Hadj. interval_cases; order.
Qed.

(** For non-empty half-open intervals the linear order is a strict partial
    order whose incomparable pairs are exactly the overlapping ones, and
    [overlaps] holds exactly when the intervals have an element in common. *)
Theorem linear_order_overlaps (a b c : BasicInterval T) :
  empty Exclusive a = false -> empty Exclusive b = false -> empty Exclusive c = false ->
  linear_order Exclusive a a = false /\
  (linear_order Exclusive a b = true -> linear_order Exclusive b c = true ->
   linear_order Exclusive a c = true) /\
  (overlaps Exclusive a b
   = negb (linear_order Exclusive a b) && negb (linear_order Exclusive b a)) /\
  (overlaps Exclusive a b = true <->
   exists x, contains Exclusive a x = true /\ contains Exclusive b x = true).
Proof.
  intros Ha Hb Hc. split_and!.
  - interval_cases; order.
  - intros H1 H2. interval_cases; order.
  - interval_cases; order.
  - split.
    + intros Ho. exists (tmax (lower_bound a) (lower_bound b)).
      pose proof (less_irrefl (lower_bound a)). pose proof (less_irrefl (lower_bound b)).
      interval_cases; order.
    + intros (x & H1 & H2). interval_cases; order.
Qed.

Lemma equal_false (x y : T) : equal x y = false -> less x y = true \/ less y x = true.
Proof.
  intros He. destruct (less x y) eqn:E1; [by left|]. destruct (less y x) eqn:E2; [by right|].
  pose proof (less_connected x y E1 E2) as E. by rewrite (proj2 (equal_spec x y) E) in He.
Qed.

Ltac equal_cases :=
  repeat match goal with
    | H : equal ?x ?y = true |- _ => apply equal_spec in H; try subst
    | H : equal ?x ?y = false |- _ => apply equal_false in H
    | H : context [equal ?x ?y] |- _ => destruct (equal x y) eqn:?
    | |- context [equal ?x ?y] => destruct (equal x y) eqn:?
    end.

Lemma lexicographical_order_irrefl (a : BasicInterval T) : lexicographical_order a a = false.
Proof.
  unfold lexicographical_order. by rewrite !less_irrefl, andb_false_r.
Qed.

Lemma lexicographical_order_trans (a b c : BasicInterval T) :
  lexicographical_order a b = true -> lexicographical_order b c = true ->
  lexicographical_order a c = true.
Proof.
  destruct a as [al au], b as [bl bu], c as [cl cu].
  unfold lexicographical_order. cbn [lower_bound upper_bound].
  intros H1 H2. apply orb_true_iff in H1, H2. rewrite !andb_true_iff, !equal_spec in H1, H2.
  apply orb_true_iff. rewrite andb_true_iff, equal_spec.
  destruct H1 as [H1|[-> H1]], H2 as [H2|[-> H2]]; [left; order|left; order|left; order|].
  right. split; [done|order].
Qed.

Lemma lexicographical_order_connected (a b : BasicInterval T) :
  lexicographical_order a b = false -> lexicographical_order b a = false -> a = b.
Proof.
  destruct a as [al au], b as [bl bu].
  unfold lexicographical_order. cbn [lower_bound upper_bound].
  intros H1 H2. apply orb_false_iff in H1 as [H1 H3], H2 as [H2 H4].
  pose proof (less_connected al bl H1 H2) as ->.
  rewrite (proj2 (equal_spec bl bl) eq_refl) in H3, H4. simpl in H3, H4.
  by rewrite (less_connected au bu H3 H4).
Qed.

(** For a non-empty closed interval that does not meet the other one,
    [intersection_with] still returns a non-empty interval: the singleton of
    its own lower bound. *)
Theorem closed_intersection_of_disjoint (a b : BasicInterval T) :
  empty Inclusive (mkInterval (tmax (lower_bound a) (lower_bound b))
                              (tmin (upper_bound a) (upper_bound b))) = true ->
  contains Inclusive (intersection_with Inclusive a b) (lower_bound a) = true.
Proof.
  intros He. unfold intersection_with. cbv zeta. rewrite He.
  unfold contains, lower_includes_x, x_included_by_upper, less_or_equal, greater_than.
  simpl. by rewrite less_irrefl.
Qed.

End Theorems.

(** Shifting by [d] and back is the identity on the values of an unsigned
    type, and so are the one-sided operations. *)
Lemma uwrap_add_sub (w x d : Z) : (0 <= x < 2 ^ w)%Z -> uwrap w (uwrap w (x + d) - d) = x.
Proof. intros Hx. rewrite uwrap_sub_l, Z.add_simpl_r. by apply uwrap_small. Qed.

Lemma uwrap_sub_add (w x d : Z) : (0 <= x < 2 ^ w)%Z -> uwrap w (uwrap w (x - d) + d) = x.
Proof. intros Hx. rewrite uwrap_add_l, Z.sub_add. by apply uwrap_small. Qed.

Lemma shift_roundtrip (w d : Z) (i : BasicInterval Z) :
  (0 <= lower_bound i < 2 ^ w)%Z -> (0 <= upper_bound i < 2 ^ w)%Z ->
  shift_down (uwrap w) (shift_up (uwrap w) i d) d = i /\
  pop_back (uwrap w) (push_back (uwrap w) i d) d = i /\
  pop_front (uwrap w) (push_front (uwrap w) i d) d = i.
Proof.
  destruct i as [l u]. simpl. intros Hl Hu.
  unfold shift_down, shift_up, pop_back, push_back, pop_front, push_front; simpl.
  rewrite !uwrap_add_sub, uwrap_sub_add by done. done.
Qed.

(** ** Concrete instances *)

#[local] Instance u64_order : NaturalOrder Z := int_order u64.
#[local] Instance u64_order_laws : NaturalOrderLaws Z := int_order_laws u64.

Lemma linear_order_overlaps_witness :
  overlaps Exclusive (mkInterval 0 4)%Z (mkInterval 2 6)%Z = true <->
  exists x, contains Exclusive (mkInterval 0 4)%Z x = true /\ contains Exclusive (mkInterval 2 6)%Z x = true.
Proof.
  refine (proj2 (proj2 (proj2 (linear_order_overlaps _ _ (mkInterval 7 8)%Z _ _ _)))); reflexivity.
Defined.

Lemma intersection_union_exact_witness :
  contains Exclusive (union_with (mkInterval 0 4)%Z (mkInterval 4 6)%Z) 5%Z
  = contains Exclusive (mkInterval 0 4)%Z 5%Z || contains Exclusive (mkInterval 4 6)%Z 5%Z.
Proof. apply (intersection_union_exact (mkInterval 0 4)%Z (mkInterval 4 6)%Z 5%Z); reflexivity. Defined.

Lemma without_exact_witness :
  (exists i, i ∈ without Exclusive (mkInterval 0 10)%Z (mkInterval 3 5)%Z /\
     contains Exclusive i 7%Z = true) <->
  contains Exclusive (mkInterval 0 10)%Z 7%Z = true /\ contains Exclusive (mkInterval 3 5)%Z 7%Z = false.
Proof. apply (without_exact (mkInterval 0 10)%Z (mkInterval 3 5)%Z 7%Z). Defined.

Lemma closed_intersection_of_disjoint_witness :
  contains Inclusive (intersection_with Inclusive (mkInterval 0 1)%Z (mkInterval 5 6)%Z) 0%Z = true.
Proof. apply (closed_intersection_of_disjoint (mkInterval 0 1)%Z (mkInterval 5 6)%Z). reflexivity. Defined.

(** The closed interval difference keeps the end points it should remove. *)
Lemma closed_without_keeps_end_points :
  without Inclusive (mkInterval 0 10)%Z (mkInterval 3 5)%Z = [mkInterval 0 3; mkInterval 5 10]%Z /\
  contains Inclusive (mkInterval 0 3)%Z 3%Z = true /\ contains Inclusive (mkInterval 3 5)%Z 3%Z = true.
Proof. by vm_compute. Qed.

(** [overlaps] is false although the bounding range [0,6) is not empty. *)
Lemma overlaps_is_not_bounding_range :
  overlaps Exclusive (mkInterval 0 1)%Z (mkInterval 5 6)%Z = false /\
  empty Exclusive (union_with (mkInterval 0 1)%Z (mkInterval 5 6)%Z) = false.
Proof. by vm_compute. Qed.
