(* ===== verification/RadixQueue.v ===== *)
(** * A FIFO queue of integers with a radix per integer

    [radix_queue.hpp].  The queue is a ring of segments; a segment packs
    consecutive items [(radix, value)] as the digits of a mixed-radix number
    of 64 bits.  The abstract queue is the list of the items.  The indices
    are natural numbers: [index_type] is chosen so that it holds
    [kQueueSize], and every index is reduced modulo [kQueueSize]. *)

From S2P Require Export Prelude.
Open Scope Z_scope.

(* @ src/batteries/radix_queue.hpp 45-53 RadixQueue::Segment *)
Record Segment : Type := mkSegment { radix : Z; value : Z }.

(* @ src/batteries/radix_queue.hpp 46-47 RadixQueue::Segment *)
Definition default_segment : Segment := mkSegment 1 0.

(* @ src/batteries/radix_queue.hpp 210-213 RadixQueue *)
Record RadixQueue : Type := mkQueue {
  front_ : nat;
  back_ : nat;
  queue_ : list Segment }.

(** [kQueueSize] is the length of the array. *)
(* @ src/batteries/radix_queue.hpp 34-34 RadixQueue::kQueueSize *)
Definition kQueueSize (q : RadixQueue) : nat := length (queue_ q).

(* @ src/batteries/radix_queue.hpp 92-92 RadixQueue::RadixQueue *)
Definition new_queue (capacity_in_bits : nat) : RadixQueue :=
  mkQueue 0 0 (replicate (capacity_in_bits / 64) default_segment).

(** Access to the array; out of range is undefined behaviour, [Panic] here. *)
Definition get_segment (q : RadixQueue) (i : nat) : outcome Segment :=
  match queue_ q !! i with Some s => Done s | None => Panic end.

(* @ src/batteries/radix_queue.hpp 177-184 RadixQueue::front *)
Definition front (q : RadixQueue) : outcome Segment := get_segment q (front_ q).

(* @ src/batteries/radix_queue.hpp 186-193 RadixQueue::back *)
Definition back (q : RadixQueue) : outcome Segment := get_segment q (back_ q).

(* @ src/batteries/radix_queue.hpp 159-162 RadixQueue::advance_index *)
Definition advance_index (q : RadixQueue) (i : nat) : nat := ((i + 1) mod kQueueSize q)%nat.

(* @ src/batteries/radix_queue.hpp 164-175 RadixQueue::queue_size *)
Definition queue_size (q : RadixQueue) : outcome nat :=
  let upper_bound :=
    if (front_ q <=? back_ q)%nat then (back_ q + 1)%nat else (kQueueSize q + back_ q + 1)%nat in
  check (front_ q <? upper_bound)%nat;;
  mret (upper_bound - front_ q)%nat.

(* @ src/batteries/radix_queue.hpp 94-99 RadixQueue::empty *)
Definition empty (q : RadixQueue) : outcome bool :=
  n ← queue_size q;
  s ← front q;
  mret ((n =? 1)%nat && (radix s =? 1)).

(* @ src/batteries/radix_queue.hpp 101-106 RadixQueue::full *)
Definition full (q : RadixQueue) : bool := (front_ q =? advance_index q (back_ q))%nat.

(* @ src/batteries/radix_queue.hpp 108-115 RadixQueue::clear *)
Definition clear (q : RadixQueue) : RadixQueue := mkQueue 0 0 (<[0%nat := default_segment]> (queue_ q)).

(* @ src/batteries/radix_queue.hpp 195-199 RadixQueue::pop_front *)
Definition pop_front (q : RadixQueue) : outcome RadixQueue :=
  check (negb (front_ q =? back_ q)%nat);;
  mret (mkQueue (advance_index q (front_ q)) (back_ q) (queue_ q)).

(* @ src/batteries/radix_queue.hpp 201-206 RadixQueue::push_back *)
Definition push_back (q : RadixQueue) : outcome RadixQueue :=
  check (negb (full q));;
  let b := advance_index q (back_ q) in
  mret (mkQueue (front_ q) b (<[b := default_segment]> (queue_ q))).

(* @ src/batteries/radix_queue.hpp 117-132 RadixQueue::push *)
Definition push (q : RadixQueue) (r v : Z) : outcome RadixQueue :=
  check (v <? r);;
  b ← back q;
  let would_overflow := u64_max / radix b <? r in
  q1 ← (if would_overflow then push_back q else mret q);
  s ← back q1;
  let s' := mkSegment (u64 (radix s * r)) (u64 (value s + u64 (v * radix s))) in
  mret (mkQueue (front_ q1) (back_ q1) (<[back_ q1 := s']> (queue_ q1))).

(** Division by a zero radix is a fault. *)
(* @ src/batteries/radix_queue.hpp 134-153 RadixQueue::pop *)
Definition pop (q : RadixQueue) (r : Z) : outcome (Z * RadixQueue) :=
  s ← front q;
  check (r <=? radix s);;
  check (negb (r =? 0));;
  let v := value s mod r in
  let s' := mkSegment (radix s / r) (value s / r) in
  let q1 := mkQueue (front_ q) (back_ q) (<[front_ q := s']> (queue_ q)) in
  check (value s' <? radix s');;
  n ← queue_size q1;
  q2 ← (if (radix s' =? 1) && (1 <? n)%nat then pop_front q1 else mret q1);
  mret (v, q2).

(** The segments from front to back. *)
Definition window (q : RadixQueue) (n : nat) : list (option Segment) :=
  (fun i => queue_ q !! ((front_ q + i) mod kQueueSize q)%nat) <$> seq 0 n.

(* @ src/batteries/radix_queue.hpp 73-88 RadixQueue::operator== *)
Definition queue_eqb (q1 q2 : RadixQueue) : outcome bool :=
  n1 ← queue_size q1;
  n2 ← queue_size q2;
  mret ((n1 =? n2)%nat &&
        forallb (fun i =>
          match queue_ q1 !! ((front_ q1 + i) mod kQueueSize q1)%nat,
                queue_ q2 !! ((front_ q2 + i) mod kQueueSize q2)%nat with
          | Some s1, Some s2 => (radix s1 =? radix s2) && (value s1 =? value s2)
          | _, _ => false
          end) (seq 0 n1)).

(** ** The abstract queue and the representation relation *)

Definition item : Type := Z * Z.

Definition valid_item (it : item) : Prop := 0 <= it.2 < it.1 /\ it.1 <= u64_max.

(** The mixed-radix packing of a run of items. *)
Fixpoint pack (items : list item) : Segment :=
  match items with
  | [] => default_segment
  | (r, v) :: rest => mkSegment (r * radix (pack rest)) (v + r * value (pack rest))
  end.

(** An item of radix 1 carries no information and leaves no trace. *)
Definition informative (it : item) : bool := negb (it.1 =? 1).

Definition valid_group (g : list item) : Prop :=
  Forall valid_item g /\ Forall (fun it => informative it = true) g /\ radix (pack g) <= u64_max.

Record layout (q : RadixQueue) (groups : list (list item)) : Prop := {
  layout_front : (front_ q < kQueueSize q)%nat;
  layout_back : (back_ q < kQueueSize q)%nat;
  layout_size : length groups = S ((back_ q + kQueueSize q - front_ q) mod kQueueSize q);
  layout_segments : forall i g, groups !! i = Some g ->
    queue_ q !! ((front_ q + i) mod kQueueSize q)%nat = Some (pack g);
  layout_valid : Forall valid_group groups;
  layout_nonempty : forall i g, groups !! i = Some g -> (S i < length groups)%nat -> g <> [] }.

Definition represents (q : RadixQueue) (items : list item) : Prop :=
  exists groups, layout q groups /\ concat groups = filter (fun it => informative it = true) items.

(** ** Packing *)

Lemma valid_item_pos (it : item) : valid_item it -> 1 <= it.1.
Proof. intros [? ?]. lia. Qed.

Lemma pack_bounds (g : list item) :
  Forall valid_item g -> 1 <= radix (pack g) /\ 0 <= value (pack g) < radix (pack g).
Proof.
  induction 1 as [|[r v] g Hv Hg IH]; simpl; [lia|].
  destruct Hv as [Hv _]. simpl in Hv. destruct IH as [IH1 IH2]. nia.
Qed.

Lemma pack_snoc (g : list item) (r v : Z) :
  pack (g ++ [(r, v)]) = mkSegment (radix (pack g) * r) (value (pack g) + v * radix (pack g)).
Proof.
  induction g as [|[r' v'] g IH]; simpl.
  - f_equal; lia.
  - rewrite IH. simpl. f_equal; lia.
Qed.

Lemma pack_radix_1 (g : list item) :
  valid_group g -> (radix (pack g) = 1 <-> g = []).
Proof.
  intros (Hv & Hi & _). split; [|by intros ->].
  destruct g as [|[r v] g]; [done|]. simpl. intros H.
  apply Forall_cons_1 in Hv as [[Hv _] Hv']. apply Forall_cons_1 in Hi as [Hi _].
  unfold informative in Hi. simpl in *. bool_cases.
  pose proof (pack_bounds g Hv'). nia.
Qed.

Lemma valid_group_tail (it : item) (g : list item) : valid_group (it :: g) -> valid_group g.
Proof.
  intros (Hv & Hi & Hr). apply Forall_cons_1 in Hv as [Hv Hv']. apply Forall_cons_1 in Hi as [_ Hi].
  split_and!; [done|done|]. destruct it as [r v]. simpl in Hr.
  pose proof (valid_item_pos _ Hv). pose proof (pack_bounds g Hv'). simpl in *. nia.
Qed.

(** ** The ring of segments *)

Lemma queue_size_layout (q : RadixQueue) (groups : list (list item)) :
  layout q groups -> queue_size q = Done (length groups).
Proof.
  intros [Hf Hb Hs _ _ _]. unfold queue_size.
  destruct (front_ q <=? back_ q)%nat eqn:E; bool_cases.
  - replace (back_ q + kQueueSize q - front_ q)%nat with (back_ q - front_ q + 1 * kQueueSize q)%nat in Hs by lia.
    rewrite Nat.Div0.mod_add, Nat.mod_small in Hs by lia.
    rewrite (proj2 (Nat.ltb_lt _ _)) by lia. simpl. rewrite Hs. f_equal. lia.
  - rewrite Nat.mod_small in Hs by lia.
    rewrite (proj2 (Nat.ltb_lt _ _)) by lia. simpl. rewrite Hs. f_equal. lia.
Qed.

Lemma layout_head (q : RadixQueue) (g : list item) (groups : list (list item)) :
  layout q (g :: groups) -> front q = Done (pack g).
Proof.
  intros [Hf _ _ Hseg _ _]. unfold front, get_segment. specialize (Hseg 0%nat g eq_refl).
  rewrite Nat.add_0_r, Nat.mod_small in Hseg by done. by rewrite Hseg.
Qed.

Lemma ring_last (f b n : nat) :
  (f < n)%nat -> (b < n)%nat -> ((f + (b + n - f) mod n) mod n = b)%nat.
Proof.
  intros Hf Hb. rewrite Nat.Div0.add_mod_idemp_r.
  replace (f + (b + n - f))%nat with (b + 1 * n)%nat by lia.
  rewrite Nat.Div0.mod_add. by apply Nat.mod_small.
Qed.

Lemma ring_inj (f i j n : nat) :
  (i < n)%nat -> (j < n)%nat -> ((f + i) mod n = (f + j) mod n)%nat -> i = j.
Proof.
  intros Hi Hj H. pose proof (Nat.div_mod_eq (f + i) n). pose proof (Nat.div_mod_eq (f + j) n).
  assert ((f + i) / n = (f + j) / n)%nat by nia. nia.
Qed.

Lemma layout_last (q : RadixQueue) (groups : list (list item)) (g : list item) :
  layout q (groups ++ [g]) -> back q = Done (pack g).
Proof.
  intros [Hf Hb Hs Hseg _ _]. unfold back, get_segment.
  specialize (Hseg (length groups) g). rewrite list_lookup_middle in Hseg by done.
  rewrite length_app in Hs. simpl in Hs.
  replace (length groups) with ((back_ q + kQueueSize q - front_ q) mod kQueueSize q)%nat in Hseg by lia.
  rewrite ring_last in Hseg by done. by rewrite Hseg.
Qed.

Lemma layout_nonnil (q : RadixQueue) (groups : list (list item)) : layout q groups -> groups <> [].
Proof. intros [_ _ Hs _ _ _] ->. discriminate Hs. Qed.

Lemma new_queue_represents (capacity_in_bits : nat) :
  (64 <= capacity_in_bits)%nat -> represents (new_queue capacity_in_bits) [].
Proof.
  intros Hc. assert (0 < capacity_in_bits / 64)%nat as Hn by (apply Nat.div_str_pos; lia).
  exists [[]]. split; [|done].
  split; unfold kQueueSize; simpl; rewrite ?length_replicate; [done|done| | | |].
  - by rewrite Nat.sub_0_r, Nat.Div0.mod_same.
  - intros [|i] g Hg; simplify_eq/=. rewrite Nat.mod_small by done. by apply lookup_replicate.
  - repeat constructor; simpl; done.
  - intros [|i] g Hg; simplify_eq/=. lia.
Qed.

(** ** Updates of the ring *)

Lemma ring_dist (f b n : nat) :
  (f < n)%nat -> (b < n)%nat ->
  ((b + n - f) mod n = if (f <=? b)%nat then b - f else b + n - f)%nat.
Proof.
  intros Hf Hb. case_if.
  - replace (b + n - f)%nat with (b - f + 1 * n)%nat by lia.
    rewrite Nat.Div0.mod_add. apply Nat.mod_small. lia.
  - apply Nat.mod_small. lia.
Qed.

Lemma ring_next (f n : nat) :
  (f < n)%nat -> ((f + 1) mod n = if (f + 1 =? n)%nat then 0 else f + 1)%nat.
Proof.
  intros Hf. case_if.
  - replace (f + 1)%nat with n by lia. apply Nat.Div0.mod_same.
  - apply Nat.mod_small. lia.
Qed.

Lemma ring_lt (f i n : nat) : (f < n)%nat -> ((f + i) mod n < n)%nat.
Proof. intros. apply Nat.mod_upper_bound. lia. Qed.

Lemma layout_len (q : RadixQueue) (groups : list (list item)) :
  layout q groups -> (length groups <= kQueueSize q)%nat.
Proof.
  intros [Hf Hb Hs _ _ _]. rewrite ring_dist in Hs by done. case_if; lia.
Qed.

Lemma layout_update (q : RadixQueue) (groups : list (list item)) (i : nat) (g g' : list item) :
  layout q groups -> groups !! i = Some g -> valid_group g' ->
  ((S i < length groups)%nat -> g' <> []) ->
  layout (mkQueue (front_ q) (back_ q)
            (<[((front_ q + i) mod kQueueSize q)%nat := pack g']> (queue_ q)))
         (<[i := g']> groups).
Proof.
  intros L Hi Hg' Hne. pose proof (layout_len _ _ L) as Hlen. pose proof (lookup_lt_Some _ _ _ Hi) as Hlt.
  destruct L as [Hf Hb Hs Hseg Hval Hnon].
  unfold kQueueSize in *. split; unfold kQueueSize; cbn [front_ back_ queue_]; rewrite ?length_insert;
    [done|done|done| | |].
  - intros j gj Hj. destruct (decide (i = j)) as [<-|Hij].
    + rewrite list_lookup_insert_eq in Hj by done. injection Hj as <-.
      apply list_lookup_insert_eq, ring_lt, Hf.
    + rewrite list_lookup_insert_ne in Hj by done.
      rewrite list_lookup_insert_ne; [by apply Hseg|].
      intros H. apply ring_inj in H; [done|lia|apply lookup_lt_Some in Hj; lia].
  - by apply Forall_insert.
  - intros j gj Hj Hj'. destruct (decide (i = j)) as [<-|Hij].
    + rewrite list_lookup_insert_eq in Hj by done. injection Hj as <-. by apply Hne.
    + rewrite list_lookup_insert_ne in Hj by done. by apply (Hnon j).
Qed.

Lemma layout_update_last (q : RadixQueue) (gs : list (list item)) (g g' : list item) :
  layout q (gs ++ [g]) -> valid_group g' ->
  layout (mkQueue (front_ q) (back_ q) (<[back_ q := pack g']> (queue_ q))) (gs ++ [g']).
Proof.
  intros L Hg'. pose proof L as [Hf Hb Hs _ _ _].
  rewrite length_app in Hs. simpl in Hs.
  pose proof (layout_update q (gs ++ [g]) (length gs) g g' L) as H.
  rewrite insert_app_r_alt, Nat.sub_diag in H by done. simpl in H.
  replace ((front_ q + length gs) mod kQueueSize q)%nat with (back_ q) in H.
  - apply H; [by apply list_lookup_middle|done|]. rewrite length_app. simpl. lia.
  - replace (length gs) with ((back_ q + kQueueSize q - front_ q) mod kQueueSize q)%nat by lia.
    by rewrite ring_last.
Qed.

(** The front slot may hold anything when it is popped. *)
Lemma pop_front_layout (q : RadixQueue) (g : list item) (gs : list (list item)) (s : Segment) :
  layout q (g :: gs) -> gs <> [] ->
  exists q', pop_front (mkQueue (front_ q) (back_ q) (<[front_ q := s]> (queue_ q))) = Done q'
             /\ layout q' gs.
Proof.
  intros L Hgs. pose proof (layout_len _ _ L) as Hlen. destruct L as [Hf Hb Hs Hseg Hval Hnon].
  assert (0 < length gs)%nat as Hpos by (destruct gs; [done|simpl; lia]).
  simpl in Hs, Hlen. rewrite ring_dist in Hs by done.
  assert (front_ q <> back_ q) as Hne by (intros E; rewrite E in Hs; case_if; lia).
  unfold pop_front, advance_index, kQueueSize in *. simpl.
  rewrite (proj2 (Nat.eqb_neq _ _) Hne), length_insert. simpl.
  eexists. split; [done|]. split; unfold kQueueSize; simpl; rewrite ?length_insert.
  - by apply ring_lt.
  - done.
  - rewrite ring_next by done. rewrite ring_dist; [|case_if; lia|done]. repeat case_if; lia.
  - intros i gi Hi. pose proof (lookup_lt_Some _ _ _ Hi) as Hlt. rewrite Nat.Div0.add_mod_idemp_l.
    replace (front_ q + 1 + i)%nat with (front_ q + S i)%nat by lia.
    rewrite list_lookup_insert_ne; [by apply Hseg|]. intros E.
    rewrite <- (Nat.mod_small (front_ q) (length (queue_ q))) in E at 1 by done.
    rewrite <- (Nat.add_0_r (front_ q)) in E at 1. apply ring_inj in E; lia.
  - by apply Forall_cons_1 in Hval as [_ Hval].
  - intros i gi Hi Hlt. apply (Hnon (S i)); [done|]. simpl. lia.
Qed.

Lemma push_back_layout (q : RadixQueue) (gs : list (list item)) (g : list item) :
  layout q (gs ++ [g]) -> g <> [] -> full q = false ->
  exists q', push_back q = Done q' /\ layout q' ((gs ++ [g]) ++ [[]]).
Proof.
  intros L Hg Hfull. pose proof (layout_len _ _ L) as Hlen. destruct L as [Hf Hb Hs Hseg Hval Hnon].
  unfold push_back. rewrite Hfull. simpl. eexists. split; [done|].
  unfold full, advance_index in *. bool_cases.
  rewrite length_app in Hs, Hlen. simpl in Hs, Hlen. rewrite ring_dist in Hs by done.
  split; cbn [front_ back_ queue_]; unfold kQueueSize; cbn [queue_];
    rewrite ?length_insert; fold (kQueueSize q).
  - done.
  - by apply ring_lt.
  - rewrite !length_app. simpl. rewrite ring_next in * by done.
    rewrite ring_dist; [|done|case_if; lia]. repeat case_if; lia.
  - intros i gi Hi. destruct (decide (i = length (gs ++ [g]))) as [->|Hi'].
    + rewrite lookup_app_r, Nat.sub_diag in Hi by done. simpl in Hi. injection Hi as <-.
      replace ((front_ q + length (gs ++ [g])) mod kQueueSize q)%nat
        with ((back_ q + 1) mod kQueueSize q)%nat.
      * apply list_lookup_insert_eq. by apply ring_lt.
      * rewrite length_app. simpl. rewrite <- Nat.Div0.add_mod_idemp_l.
        rewrite <- (ring_last (front_ q) (back_ q) (kQueueSize q)) at 1 by done.
        rewrite ring_dist by done. rewrite !Nat.Div0.add_mod_idemp_l. f_equal. case_if; lia.
    + assert (i < length (gs ++ [g]))%nat as Hlt.
      { apply lookup_lt_Some in Hi. rewrite length_app in Hi. simpl in Hi. lia. }
      rewrite lookup_app_l in Hi by done. rewrite length_app in Hlt. simpl in Hlt.
      rewrite list_lookup_insert_ne; [by apply Hseg|].
      rewrite <- (ring_last (front_ q) (back_ q) (kQueueSize q)) by done.
      rewrite Nat.Div0.add_mod_idemp_l, ring_dist by done. intros H.
      rewrite ring_next in * by done.
      replace (front_ q + (if (front_ q <=? back_ q)%nat then back_ q - front_ q else back_ q + kQueueSize q - front_ q) + 1)%nat
        with (front_ q + S (length gs))%nat in H by (repeat case_if; lia).
      apply ring_inj in H; repeat case_if; lia.
  - apply Forall_app. split; [done|]. repeat constructor; simpl; done.
  - intros i gi Hi Hlt. rewrite length_app in Hlt. simpl in Hlt.
    rewrite lookup_app_l in Hi by lia. destruct (decide (i = length gs)) as [->|Hne'].
    + rewrite list_lookup_middle in Hi by done. by injection Hi as <-.
    + apply (Hnon i gi Hi). rewrite length_app in *. simpl in *. lia.
Qed.

(** ** Push, pop, empty *)

Lemma filter_snoc (items : list item) (it : item) :
  filter (fun it => informative it = true) (items ++ [it])
  = filter (fun it => informative it = true) items ++ (if informative it then [it] else []).
Proof. rewrite list.filter_app, list.filter_cons. case_decide; destruct (informative it); done. Qed.

Lemma valid_group_snoc (g : list item) (it : item) :
  valid_group g -> valid_item it -> informative it = true -> radix (pack g) * it.1 <= u64_max ->
  valid_group (g ++ [it]).
Proof.
  intros (Hv & Hi & Hr) Hit Hinf Hfit. split_and!.
  - apply Forall_app. split; [done|by constructor].
  - apply Forall_app. split; [done|by constructor].
  - destruct it as [r v]. by rewrite pack_snoc.
Qed.

(** The write that [push] performs at the back segment [g]. *)
Lemma push_segment (g : list item) (r v : Z) :
  valid_group g -> valid_item (r, v) -> radix (pack g) * r <= u64_max ->
  mkSegment (u64 (radix (pack g) * r)) (u64 (value (pack g) + u64 (v * radix (pack g))))
  = pack (g ++ [(r, v)]).
Proof.
  intros (Hv & _) [Hrv Hr] Hfit. simpl in Hrv, Hr. rewrite pack_snoc. unfold u64_max in *.
  pose proof (pack_bounds g Hv) as [? ?].
  assert (0 <= v * radix (pack g) <= (r - 1) * radix (pack g)) by nia.
  rewrite (uwrap_small _ (v * radix (pack g))) by lia.
  rewrite !uwrap_small; [done|lia..].
Qed.

Lemma informative_false (r v : Z) : valid_item (r, v) -> informative (r, v) = false -> r = 1 /\ v = 0.
Proof. unfold informative, valid_item. simpl. intros H E. bool_cases. lia. Qed.

Lemma push_room (q : RadixQueue) (gs : list (list item)) (g items : list item) (r v : Z) :
  layout q (gs ++ [g]) -> valid_group g -> valid_item (r, v) -> radix (pack g) * r <= u64_max ->
  concat (gs ++ [g]) = filter (fun it => informative it = true) items ->
  represents (mkQueue (front_ q) (back_ q)
     (<[back_ q := mkSegment (u64 (radix (pack g) * r)) (u64 (value (pack g) + u64 (v * radix (pack g))))]> (queue_ q)))
     (items ++ [(r, v)]).
Proof.
  intros L Hg Hit Hfit Hc. rewrite push_segment by done.
  destruct (informative (r, v)) eqn:Hinf.
  - exists (gs ++ [g ++ [(r, v)]]). split.
    + apply (layout_update_last q gs g); [done|by apply valid_group_snoc].
    + rewrite filter_snoc, Hinf, <- Hc, !concat_app. simpl. by rewrite !app_nil_r, app_assoc.
  - destruct (informative_false r v Hit Hinf) as [-> ->].
    exists (gs ++ [g]). split.
    + rewrite pack_snoc. replace (mkSegment _ _) with (pack g).
      * by apply (layout_update_last q gs g g).
      * destruct (pack g). simpl. f_equal; lia.
    + by rewrite filter_snoc, Hinf, app_nil_r.
Qed.

Lemma push_spec (q : RadixQueue) (items : list item) (r v : Z) (b : Segment) :
  represents q items -> valid_item (r, v) -> back q = Done b ->
  (u64_max / radix b < r /\ full q = true /\ push q r v = Panic) \/
  (~ (u64_max / radix b < r /\ full q = true) /\
   exists q', push q r v = Done q' /\ represents q' (items ++ [(r, v)])).
Proof.
  intros (groups & L & Hc) Hit Hb.
  destruct groups as [|g gs _] using rev_ind; [by apply layout_nonnil in L|].
  pose proof (layout_last _ _ _ L) as Hb'. rewrite Hb in Hb'. injection Hb' as ->.
  pose proof (layout_valid _ _ L) as Hval. apply Forall_app in Hval as [Hvs Hg].
  apply Forall_inv in Hg as Hg'. pose proof Hg' as (Hv & _ & Hr).
  pose proof (pack_bounds g Hv) as [Hr1 _].
  assert (push q r v = (if u64_max / radix (pack g) <? r
     then push_back q ≫= fun q1 => back q1 ≫= fun s =>
       Done (mkQueue (front_ q1) (back_ q1) (<[back_ q1 := mkSegment (u64 (radix s * r)) (u64 (value s + u64 (v * radix s)))]> (queue_ q1)))
     else Done (mkQueue (front_ q) (back_ q) (<[back_ q := mkSegment (u64 (radix (pack g) * r)) (u64 (value (pack g) + u64 (v * radix (pack g))))]> (queue_ q)))))
    as Hpush.
  { unfold push. destruct Hit as [[_ Hvr] _]. simpl in Hvr. apply Z.ltb_lt in Hvr. rewrite Hvr. simpl.
    rewrite Hb. simpl. destruct (u64_max / radix (pack g) <? r); [reflexivity|]. simpl. rewrite Hb. reflexivity. }
  rewrite Hpush. destruct (u64_max / radix (pack g) <? r) eqn:Hov; bool_cases.
  - destruct (full q) eqn:Hfull.
    + left. split_and!; [done|done|]. unfold push_back. by rewrite Hfull.
    + right. split; [by intros [_ ?]|].
      assert (g <> []) as Hne.
      { intros ->. simpl in Hov. rewrite Z.div_1_r in Hov. destruct Hit as [_ Hit]. simpl in Hit. lia. }
      destruct (push_back_layout q gs g L Hne Hfull) as (q1 & -> & L1). simpl.
      rewrite (layout_last _ _ _ L1). simpl. eexists. split; [done|].
      apply (push_room q1 (gs ++ [g]) [] items r v L1); [by repeat constructor|done| |].
      * simpl. destruct Hit as [_ Hit]. simpl in Hit. lia.
      * rewrite concat_app. simpl. by rewrite app_nil_r.
  - right. split; [lia|]. eexists. split; [done|].
    apply (push_room q gs g items r v L Hg' Hit); [|done].
    pose proof (Z.mul_div_le u64_max (radix (pack g))). nia.
Qed.

(** C39: [push] appends the item to the queue the ring represents; it panics
    exactly when the back segment cannot take the item and the ring is full. *)
Theorem push_represents (q : RadixQueue) (items : list item) (r v : Z) (b : Segment) :
  represents q items -> valid_item (r, v) -> back q = Done b ->
  (u64_max / radix b < r /\ full q = true /\ push q r v = Panic) \/
  (~ (u64_max / radix b < r /\ full q = true) /\
   exists q', push q r v = Done q' /\ represents q' (items ++ [(r, v)])).
Proof. apply push_spec. Qed.

Lemma represents_empty_tail (groups : list (list item)) (q : RadixQueue) (it : item) (items : list item) :
  layout q groups -> concat groups = it :: items ->
  exists g gs, groups = (it :: g) :: gs /\ items = g ++ concat gs.
Proof.
  intros L Hc. destruct groups as [|[|it' g] gs]; [done| |].
  - destruct gs as [|g' gs]; [done|].
    exfalso. apply (layout_nonempty _ _ L 0%nat [] eq_refl); [simpl; lia|done].
  - simpl in Hc. injection Hc as -> Hc. by exists g, gs.
Qed.

Lemma pop_spec (q : RadixQueue) (items : list item) (r v : Z) :
  represents q ((r, v) :: items) -> valid_item (r, v) ->
  exists q', pop q r = Done (v, q') /\ represents q' items.
Proof.
  intros (groups & L & Hc) Hit. pose proof Hit as [Hrv Hru]. simpl in Hrv, Hru.
  rewrite filter_cons in Hc. case_decide as Hinf.
  - destruct (represents_empty_tail _ _ _ _ L Hc) as (g & gs & -> & Hi).
    pose proof (layout_valid _ _ L) as Hval. apply Forall_inv in Hval as Hg.
    pose proof (valid_group_tail _ _ Hg) as Hg'. pose proof Hg' as (Hv' & _ & _).
    pose proof (pack_bounds g Hv') as [HR HV].
    unfold pop. rewrite (layout_head _ _ _ L). simpl.
    rewrite (proj2 (Z.leb_le r (r * radix (pack g)))) by nia. simpl. rewrite (proj2 (Z.eqb_neq r 0)) by lia. simpl.
    replace (r * radix (pack g) / r) with (radix (pack g)) by (rewrite Z.mul_comm, Z.div_mul; lia).
    replace ((v + r * value (pack g)) / r) with (value (pack g))
      by (rewrite Z.mul_comm, Z.div_add, Z.div_small by lia; lia).
    rewrite (proj2 (Z.ltb_lt _ _)) by lia. simpl.
    replace ((v + r * value (pack g)) mod r) with v
      by (rewrite Z.mul_comm, Z.mod_add, Z.mod_small by lia; lia).
    set (q1 := mkQueue (front_ q) (back_ q)
       (<[front_ q := mkSegment (radix (pack g)) (value (pack g))]> (queue_ q))).
    assert (queue_size q1 = Done (length (((r, v) :: g) :: gs))) as Hsize.
    { etransitivity; [|exact (queue_size_layout _ _ L)]. unfold queue_size, kQueueSize. simpl. by rewrite length_insert. }
    rewrite Hsize. cbn [mbind outcome_bind].
    destruct ((radix (pack g) =? 1) && (1 <? length (((r, v) :: g) :: gs))%nat) eqn:Hpop; bool_cases.
    + assert (gs <> []) as Hgs by (destruct gs; [simpl in *; lia|done]).
      destruct (pop_front_layout q ((r, v) :: g) gs (mkSegment (radix (pack g)) (value (pack g))) L Hgs)
        as (q2 & Hq2 & L2).
      unfold q1. rewrite Hq2. eexists. split; [done|]. exists gs. split; [done|].
      apply (pack_radix_1 g Hg') in H as ->. simpl in Hi. by rewrite Hi.
    + eexists. split; [done|]. exists (g :: gs). split; [|done].
      pose proof (layout_update q _ 0 _ g L eq_refl Hg') as Lu. simpl in Lu.
      pose proof (layout_front _ _ L). rewrite Nat.add_0_r, Nat.mod_small in Lu by done.
      subst q1. replace (mkSegment (radix (pack g)) (value (pack g))) with (pack g) by (by destruct (pack g)).
      apply Lu. intros Hlt ->. destruct Hpop as [Hp|Hp]; bool_cases; [by simpl in Hp|change (S (length gs) <= 1)%nat in Hp; simpl in Hlt; lia].
  - assert (informative (r, v) = false) as Hf by (by destruct (informative (r, v))).
    destruct (informative_false r v Hit Hf) as [-> ->].
    pose proof (layout_nonnil _ _ L) as Hn. destruct groups as [|g gs]; [done|].
    pose proof (layout_valid _ _ L) as Hval. apply Forall_inv in Hval as Hg. pose proof Hg as (Hv & _ & _).
    pose proof (pack_bounds g Hv) as [HR HV].
    unfold pop. rewrite (layout_head _ _ _ L). simpl. rewrite (proj2 (Z.leb_le _ _)) by lia. simpl.
    rewrite !Z.div_1_r, Z.mod_1_r. rewrite (proj2 (Z.ltb_lt _ _)) by lia. simpl.
    replace (mkSegment (radix (pack g)) (value (pack g))) with (pack g) by (by destruct (pack g)).
    assert (<[front_ q := pack g]> (queue_ q) = queue_ q) as ->.
    { apply list_insert_id. pose proof (layout_segments _ _ L 0%nat g eq_refl) as Hs.
      pose proof (layout_front _ _ L). by rewrite Nat.add_0_r, Nat.mod_small in Hs. }
    replace (mkQueue (front_ q) (back_ q) (queue_ q)) with q by (by destruct q).
    rewrite (queue_size_layout _ _ L). cbn [mbind outcome_bind].
    destruct ((radix (pack g) =? 1) && (1 <? length (g :: gs))%nat) eqn:Hpop; bool_cases.
    + exfalso. apply (pack_radix_1 g Hg) in H. by apply (layout_nonempty _ _ L 0%nat g eq_refl).
    + eexists. split; [done|]. by exists (g :: gs).
Qed.

(** [pop], given the radix of the oldest item, returns that item's value
    and leaves a ring that represents the remaining items. *)
Theorem pop_represents (q : RadixQueue) (items : list item) (r v : Z) :
  represents q ((r, v) :: items) -> valid_item (r, v) ->
  exists q', pop q r = Done (v, q') /\ represents q' items.
Proof. apply pop_spec. Qed.

(** [empty] answers whether the represented queue holds no informative
    item (an item of radix 1 leaves no trace). *)
Theorem empty_represents (q : RadixQueue) (items : list item) :
  represents q items ->
  empty q = Done (forallb (fun it => negb (informative it)) items).
Proof.
  intros (groups & L & Hc). unfold empty. rewrite (queue_size_layout _ _ L). simpl.
  destruct groups as [|g gs]; [by apply layout_nonnil in L|].
  rewrite (layout_head _ _ _ L). simpl. f_equal.
  pose proof (layout_valid _ _ L) as Hval. apply Forall_inv in Hval as Hg.
  destruct (forallb (fun it => negb (informative it)) items) eqn:Hall.
  - assert (concat (g :: gs) = []) as Hnil.
    { rewrite Hc. rewrite forallb_forall in Hall. apply elem_of_nil_inv. intros it Hit.
      apply list_elem_of_filter in Hit as [Hi Hit]. apply list_elem_of_In in Hit.
      specialize (Hall it Hit). by rewrite Hi in Hall. }
    simpl in Hnil. apply app_nil in Hnil as [-> Hnil]. destruct gs as [|g' gs]; [done|].
    exfalso. apply (layout_nonempty _ _ L 0%nat [] eq_refl); [simpl; lia|done].
  - apply andb_false_iff. destruct gs as [|g' gs]; [|by left]. right.
    apply Z.eqb_neq. rewrite (pack_radix_1 g Hg). intros ->. simpl in Hc.
    apply (eq_true_false_abs (forallb (fun it => negb (informative it)) items)); [|done].
    apply forallb_forall. intros it Hit. destruct (informative it) eqn:Hi; [|done].
    apply list_elem_of_In in Hit.
    assert (it ∈ filter (fun it => informative it = true) items) as H by (by apply list_elem_of_filter).
    rewrite <- Hc in H. by apply elem_of_nil in H.
Qed.

(** ** Concrete queues *)

Lemma two_words_represents : represents (new_queue 128) [].
Proof. apply new_queue_represents. lia. Qed.

Lemma push_represents_witness :
  exists q', push (new_queue 128) 10 7 = Done q' /\ represents q' ([] ++ [(10, 7)]).
Proof.
  destruct (push_represents (new_queue 128) [] 10 7 default_segment two_words_represents) as [[H _]|[_ H]].
  - split; [simpl; lia|]. vm_compute. discriminate.
  - reflexivity.
  - exfalso. vm_compute in H. discriminate.
  - exact H.
Defined.

(** A ring that holds [(10, 7)] and then [(3, 2)] in one segment. *)
Definition sample_queue : RadixQueue := mkQueue 0 0 [mkSegment 30 27; default_segment].

Lemma sample_queue_represents : represents sample_queue [(10, 7); (3, 2)].
Proof.
  exists [[(10, 7); (3, 2)]]. split; [|done].
  assert (valid_group [(10, 7); (3, 2)]) as Hv.
  { split_and!; repeat constructor; vm_compute; discriminate. }
  split; unfold kQueueSize; simpl; [lia|lia|done| |by repeat constructor|].
  - intros [|i] g Hg; simplify_eq/=. done.
  - intros [|i] g Hg; simplify_eq/=. lia.
Qed.

Lemma pop_represents_witness :
  exists q', pop sample_queue 10 = Done (7, q') /\ represents q' [(3, 2)].
Proof.
  apply (pop_represents sample_queue [(3, 2)] 10 7 sample_queue_represents).
  split; [simpl; lia|]. vm_compute. discriminate.
Defined.

Lemma empty_represents_witness : empty sample_queue = Done false.
Proof. exact (empty_represents sample_queue [(10, 7); (3, 2)] sample_queue_represents). Defined.
