(* ===== verification/SliceWork.v ===== *)
(** * Slicing work into tasks, and running the tasks

    [async/slice_work.hpp], [async/slice_work_impl.hpp].  A work function is
    represented by the writes it performs on the destination array, since the
    work functions of the parallel algorithms read only data that no
    concurrent task writes.  The tasks of one [WorkContext] run on several
    threads: an execution is any interleaving of their writes, and the
    theorems quantify over every permutation of all the writes. *)

From S2P Require Export Prelude.
Open Scope Z_scope.

(** ** Writes to an array *)

Section writes.
Context {A : Type}.

Definition write : Type := nat * A.

Definition apply_writes (ws : list write) (d : list A) : list A :=
  foldl (fun d w => <[w.1 := w.2]> d) d ws.

(** The writes of a loop that stores [xs] from index [i] on. *)
Definition writes_at (i : nat) (xs : list A) : list write := zip (seq i (length xs)) xs.

Lemma apply_writes_length (ws : list write) (d : list A) : length (apply_writes ws d) = length d.
Proof. revert d. induction ws as [|w ws IH]; intros d; simpl; [done|]. by rewrite IH, length_insert. Qed.

Lemma apply_writes_app (ws1 ws2 : list write) (d : list A) :
  apply_writes (ws1 ++ ws2) d = apply_writes ws2 (apply_writes ws1 d).
Proof. apply foldl_app. Qed.

(** Writes to distinct cells commute. *)
Lemma apply_writes_perm (ws ws' : list write) (d : list A) :
  NoDup ws.*1 -> Permutation ws ws' -> apply_writes ws d = apply_writes ws' d.
Proof.
  intros Hnd Hp. revert d Hnd.
  induction Hp as [|w ws ws' Hp IH|w1 w2 ws|ws1 ws2 ws3 Hp1 IH1 Hp2 IH2]; intros d Hnd; simpl in *.
  - done.
  - apply list.NoDup_cons in Hnd as [_ Hnd]. by apply IH.
  - apply list.NoDup_cons in Hnd as [Hn _]. f_equal. apply list_insert_insert_ne.
    intros E. apply Hn. rewrite E. by left.
  - rewrite IH1 by done. apply IH2. by rewrite <- Hp1.
Qed.

Lemma apply_writes_notin (ws : list write) (d : list A) (i : nat) :
  i ∉ ws.*1 -> apply_writes ws d !! i = d !! i.
Proof.
  revert d. induction ws as [|w ws IH]; intros d Hi; simpl; [done|].
  apply not_elem_of_cons in Hi as [Hi Hi']. rewrite IH by done. by apply list_lookup_insert_ne.
Qed.

Lemma apply_writes_in (ws : list write) (d : list A) (i : nat) (x : A) :
  NoDup ws.*1 -> (i, x) ∈ ws -> (i < length d)%nat -> apply_writes ws d !! i = Some x.
Proof.
  revert d. induction ws as [|w ws IH]; intros d Hnd Hin Hi; simpl.
  - by apply elem_of_nil in Hin.
  - simpl in Hnd. apply list.NoDup_cons in Hnd as [Hn Hnd].
    apply elem_of_cons in Hin as [<-|Hin].
    + rewrite apply_writes_notin by done. by apply list_lookup_insert_eq.
    + apply IH; [done|done|by rewrite length_insert].
Qed.

Lemma writes_at_cons (i : nat) (x : A) (xs : list A) :
  writes_at i (x :: xs) = (i, x) :: writes_at (S i) xs.
Proof. done. Qed.

Lemma writes_at_app (i : nat) (xs ys : list A) :
  writes_at i (xs ++ ys) = writes_at i xs ++ writes_at (i + length xs) ys.
Proof.
  revert i. induction xs as [|x xs IH]; intros i; simpl.
  - by rewrite Nat.add_0_r.
  - rewrite !writes_at_cons, IH. simpl. by rewrite Nat.add_succ_r.
Qed.

Lemma writes_at_keys (i : nat) (xs : list A) : (writes_at i xs).*1 = seq i (length xs).
Proof. unfold writes_at. apply fst_zip. by rewrite length_seq. Qed.

Lemma writes_at_NoDup (i : nat) (xs : list A) : NoDup (writes_at i xs).*1.
Proof. rewrite writes_at_keys. apply NoDup_seq. Qed.

Lemma apply_writes_at (i : nat) (xs d : list A) :
  (i + length xs <= length d)%nat ->
  apply_writes (writes_at i xs) d = take i d ++ xs ++ drop (i + length xs) d.
Proof.
  revert i d. induction xs as [|x xs IH]; intros i d Hlen; simpl in Hlen.
  - simpl. by rewrite Nat.add_0_r, take_drop.
  - change (apply_writes (writes_at i (x :: xs)) d)
      with (apply_writes (writes_at (S i) xs) (<[i := x]> d)).
    rewrite IH by (rewrite length_insert; lia). simpl length.
    rewrite Nat.add_succ_r. assert (i < length d)%nat by lia.
    rewrite (take_S_r _ i x) by (by rewrite list_lookup_insert_eq).
    rewrite take_insert_ge, <- app_assoc by lia. simpl.
    by rewrite drop_insert_lt by lia.
Qed.

(** Any order of the writes of the loop gives the same array. *)
Lemma apply_writes_any_order (ws : list write) (i : nat) (xs d : list A) :
  Permutation (writes_at i xs) ws -> (i + length xs <= length d)%nat ->
  apply_writes ws d = take i d ++ xs ++ drop (i + length xs) d.
Proof.
  intros Hp Hlen. rewrite <- (apply_writes_perm (writes_at i xs)); [|apply writes_at_NoDup|done].
  by apply apply_writes_at.
Qed.
End writes.

Arguments write A : clear implicits.

(** ** Parameters and plans *)

(* @ src/batteries/async/slice_work.hpp 37-65 WorkSliceParams *)
Record WorkSliceParams : Type := mkParams { min_task_size : Z; max_tasks : Z }.

(* @ src/batteries/async/slice_work.hpp 42-42 WorkSliceParams::kDefaultMinTaskSize *)
Definition kDefaultMinTaskSize : Z := 512.

(* @ src/batteries/async/slice_work.hpp 46-52 WorkSliceParams::from_worker_pool *)
Definition from_worker_pool (pool_size : Z) : WorkSliceParams :=
  mkParams kDefaultMinTaskSize (u64 (pool_size + 1)).

(* @ src/batteries/async/slice_work.hpp 74-80 get_task_size *)
Definition get_task_size (params : WorkSliceParams) (input_size : Z) : outcome Z :=
  check (0 <? max_tasks params);;
  check (0 <? min_task_size params);;
  mret (Z.max (min_task_size params) (u64 (input_size + max_tasks params - 1) / max_tasks params)).

(* @ src/batteries/async/slice_work.hpp 82-86 get_task_count *)
Definition get_task_count (input_size task_size : Z) : outcome Z :=
  check (0 <? task_size);;
  mret (u64 (input_size + task_size - 1) / task_size).

(* @ src/batteries/async/slice_work.hpp 92-109 WorkSlicePlan *)
Record WorkSlicePlan : Type := mkPlan { input_size : Z; task_size : Z; n_tasks : Z }.

(* @ src/batteries/async/slice_work_impl.hpp 26-34 WorkSlicePlan::WorkSlicePlan *)
Definition make_plan (params : WorkSliceParams) (n : Z) : outcome WorkSlicePlan :=
  ts ← get_task_size params n;
  nt ← get_task_count n ts;
  check (min_task_size params <=? ts);;
  check (nt <=? max_tasks params);;
  mret (mkPlan n ts nt).

(** A task: what the generator is called with, and whether the calling
    thread runs it. *)
Record SliceTask : Type := mkTask {
  task_index : Z;
  task_offset : Z;
  this_task_size : Z;
  runs_inline : bool }.

(** The loop of [slice_work]; one round per unit of fuel. *)
(* @ src/batteries/async/slice_work.hpp 132-146 slice_work *)
Fixpoint slice_loop (fuel : nat) (plan : WorkSlicePlan) (index offset remaining : Z)
    : outcome (list SliceTask * Z) :=
  if 0 <? remaining then
    match fuel with
    | O => Panic
    | S fuel' =>
        let size := Z.min remaining (task_size plan) in
        let index' := u64 (index + 1) in
        let task := mkTask index offset size (index' =? n_tasks plan) in
        rest ← slice_loop fuel' plan index' (offset + size) (remaining - size);
        mret (task :: rest.1, rest.2)
    end
  else mret ([], index).

(* @ src/batteries/async/slice_work.hpp 119-149 slice_work *)
Definition slice_work (plan : WorkSlicePlan) : outcome (list SliceTask) :=
  if input_size plan =? 0 then mret []
  else
    check (0 <? n_tasks plan);;
    check (0 <? task_size plan);;
    r ← slice_loop (Z.to_nat (input_size plan)) plan 0 0 (input_size plan);
    check (r.2 =? n_tasks plan);;
    mret r.1.

(** ** The plan *)

(** The sizes for which no intermediate sum wraps around. *)
Definition plan_fits (params : WorkSliceParams) (n : Z) : Prop :=
  0 < min_task_size params /\ 0 < max_tasks params /\ 0 <= n < 2 ^ 63 /\
  n + min_task_size params <= u64_max /\ n + max_tasks params <= u64_max.

Definition ceil_div (n d : Z) : Z := (n + d - 1) / d.

Lemma ceil_div_spec (n d : Z) : 0 <= n -> 0 < d -> (ceil_div n d - 1) * d < n <= ceil_div n d * d.
Proof.
  intros Hn Hd. unfold ceil_div. pose proof (Z.div_mod (n + d - 1) d ltac:(lia)).
  pose proof (Z.mod_pos_bound (n + d - 1) d Hd). nia.
Qed.

Lemma ceil_div_unique (n d q : Z) : 0 < d -> (q - 1) * d < n <= q * d -> ceil_div n d = q.
Proof.
  intros Hd Hq. unfold ceil_div. symmetry. apply (Z.div_unique_pos _ _ _ (n + d - 1 - d * q)); nia.
Qed.

Lemma make_plan_done (params : WorkSliceParams) (n : Z) :
  plan_fits params n ->
  exists plan, make_plan params n = Done plan /\ input_size plan = n /\
    task_size plan = Z.max (min_task_size params) (ceil_div n (max_tasks params)) /\
    n_tasks plan = ceil_div n (task_size plan) /\ 0 < task_size plan /\
    0 <= n_tasks plan <= max_tasks params /\ n_tasks plan <= n.
Proof.
  intros (Hm & Ht & [Hn Hn'] & Hov1 & Hov2). unfold u64_max in *.
  pose proof (ceil_div_spec n (max_tasks params) Hn Ht) as Hc.
  set (ts := Z.max (min_task_size params) (ceil_div n (max_tasks params))).
  assert (0 < ts) as Hts by lia.
  pose proof (ceil_div_spec n ts Hn Hts) as Hd.
  assert (0 <= ceil_div n ts <= n) by nia.
  assert (ceil_div n ts <= max_tasks params) as Hle by nia.
  assert (n + ts - 1 < 2 ^ 64) as Hov3 by nia.
  exists (mkPlan n ts (ceil_div n ts)). unfold make_plan, get_task_size, get_task_count.
  rewrite (proj2 (Z.ltb_lt 0 (max_tasks params))), (proj2 (Z.ltb_lt 0 (min_task_size params))) by done.
  simpl. rewrite (uwrap_small 64 (n + max_tasks params - 1)) by lia. fold (ceil_div n (max_tasks params)) ts.
  rewrite (proj2 (Z.ltb_lt 0 ts)) by done. simpl.
  rewrite (uwrap_small 64 (n + ts - 1)) by lia. fold (ceil_div n ts).
  rewrite (proj2 (Z.leb_le (min_task_size params) ts)) by lia. simpl.
  rewrite (proj2 (Z.leb_le (ceil_div n ts) _)) by done. simpl. split_and!; first [done|lia].
Qed.

(** ** The tasks *)

Definition nth_task (plan : WorkSlicePlan) (k : nat) : SliceTask :=
  let off := Z.of_nat k * task_size plan in
  mkTask (Z.of_nat k) off (Z.min (task_size plan) (input_size plan - off))
    (Z.of_nat (S k) =? n_tasks plan).

Lemma slice_loop_tasks (plan : WorkSlicePlan) (m k fuel : nat) :
  0 < task_size plan -> n_tasks plan = ceil_div (input_size plan) (task_size plan) ->
  n_tasks plan <= u64_max -> 0 <= input_size plan ->
  Z.of_nat (k + m) = n_tasks plan ->
  input_size plan - Z.of_nat k * task_size plan <= Z.of_nat fuel ->
  slice_loop fuel plan (Z.of_nat k) (Z.of_nat k * task_size plan)
    (input_size plan - Z.of_nat k * task_size plan)
  = Done (nth_task plan <$> seq k m, n_tasks plan).
Proof.
  intros Hts Hnt Hov Hn. revert k fuel. unfold u64_max in *.
  pose proof (ceil_div_spec (input_size plan) (task_size plan) Hn Hts) as Hc. rewrite <- Hnt in Hc.
  induction m as [|m IH]; intros k fuel Hk Hfuel.
  - destruct fuel; simpl; rewrite (proj2 (Z.ltb_ge 0 _)) by nia; simpl; do 2 f_equal; lia.
  - assert (0 < input_size plan - Z.of_nat k * task_size plan) as Hpos by nia.
    destruct fuel as [|fuel]; [lia|]. cbn [slice_loop].
    rewrite (proj2 (Z.ltb_lt 0 _)) by done. rewrite (uwrap_small 64) by lia.
    replace (Z.of_nat k + 1) with (Z.of_nat (S k)) by lia.
    destruct (Z.le_gt_cases (task_size plan) (input_size plan - Z.of_nat k * task_size plan)).
    + rewrite Z.min_r by lia.
      replace (Z.of_nat k * task_size plan + task_size plan) with (Z.of_nat (S k) * task_size plan) by nia.
      replace (input_size plan - Z.of_nat k * task_size plan - task_size plan)
        with (input_size plan - Z.of_nat (S k) * task_size plan) by nia.
      rewrite IH by nia. cbn. unfold nth_task at 2. by rewrite Z.min_l by lia.
    + assert (m = O) as -> by nia. rewrite Z.min_l, Z.sub_diag by lia. 
      replace (slice_loop fuel plan _ _ 0) with (Done ([] : list SliceTask, Z.of_nat (S k)))
        by (by destruct fuel).
      cbn. unfold nth_task. rewrite Z.min_r by lia. do 2 f_equal. lia.
Qed.

Lemma slice_work_tasks (params : WorkSliceParams) (n : Z) :
  plan_fits params n -> 0 < n ->
  exists plan, make_plan params n = Done plan /\ input_size plan = n /\ 0 < task_size plan /\
    n_tasks plan = ceil_div n (task_size plan) /\ 0 < n_tasks plan <= max_tasks params /\
    slice_work plan = Done (nth_task plan <$> seq 0 (Z.to_nat (n_tasks plan))).
Proof.
  intros Hfit Hn. destruct (make_plan_done params n Hfit) as (plan & Hp & Hi & Hts & Hnt & Hpos & Hr & Hle).
  pose proof (ceil_div_spec n (task_size plan) ltac:(lia) Hpos) as Hc.
  assert (0 < n_tasks plan) by nia.
  exists plan. split_and!; [done..|lia|].
  unfold slice_work. rewrite Hi, (proj2 (Z.eqb_neq n 0)) by lia.
  rewrite (proj2 (Z.ltb_lt 0 (n_tasks plan))), (proj2 (Z.ltb_lt 0 (task_size plan))) by done. cbn [check].
  destruct Hfit as (_ & _ & Hbound & _).
  pose proof (slice_loop_tasks plan (Z.to_nat (n_tasks plan)) 0 (Z.to_nat n) Hpos) as Hl.
  rewrite Hi, Z.mul_0_l, Z.sub_0_r in Hl. change (Z.of_nat 0) with 0 in Hl.
  unfold u64_max in *. rewrite Hl by (done || lia). cbn. by rewrite Z.eqb_refl.
Qed.

Lemma slice_work_empty (params : WorkSliceParams) :
  plan_fits params 0 ->
  exists plan, make_plan params 0 = Done plan /\ slice_work plan = Done [].
Proof.
  intros Hfit. destruct (make_plan_done params 0 Hfit) as (plan & Hp & Hi & _).
  exists plan. split; [done|]. unfold slice_work. by rewrite Hi.
Qed.

(** What the tasks do piecewise is what one pass over the input does. *)
Lemma tasks_concat {B} (F : nat -> nat -> list B) (plan : WorkSlicePlan) :
  0 < task_size plan -> 0 <= input_size plan ->
  n_tasks plan = ceil_div (input_size plan) (task_size plan) ->
  (forall o, F o 0%nat = []) ->
  (forall o a b, Z.of_nat (o + a + b) <= input_size plan -> F o a ++ F (o + a)%nat b = F o (a + b)%nat) ->
  concat ((fun t => F (Z.to_nat (task_offset t)) (Z.to_nat (this_task_size t)))
            <$> (nth_task plan <$> seq 0 (Z.to_nat (n_tasks plan))))
  = F 0%nat (Z.to_nat (input_size plan)).
Proof.
  intros Hts Hn Hnt Hnil Happ.
  pose proof (ceil_div_spec (input_size plan) (task_size plan) Hn Hts) as Hc. rewrite <- Hnt in Hc.
  assert (0 <= n_tasks plan) as Hpos by nia.
  enough (forall k, Z.of_nat k <= n_tasks plan ->
    concat ((fun t => F (Z.to_nat (task_offset t)) (Z.to_nat (this_task_size t)))
              <$> (nth_task plan <$> seq 0 k))
    = F 0%nat (Z.to_nat (Z.min (input_size plan) (Z.of_nat k * task_size plan)))) as H.
  { rewrite H by lia. rewrite Z2Nat.id by done. by rewrite Z.min_l by nia. }
  induction k as [|k IH]; intros Hk.
  - change (Z.of_nat 0 * task_size plan) with 0. by rewrite Z.min_r.
  - rewrite seq_S, !fmap_app, concat_app, IH by lia. simpl. rewrite app_nil_r.
    rewrite (Z.min_r _ (Z.of_nat k * _)) by nia.
    rewrite (Happ 0%nat) by nia. f_equal. nia.
Qed.

Lemma concat_seqZ (plan : WorkSlicePlan) :
  0 < task_size plan -> 0 <= input_size plan ->
  n_tasks plan = ceil_div (input_size plan) (task_size plan) ->
  concat ((fun t => seqZ (task_offset t) (this_task_size t))
            <$> (nth_task plan <$> seq 0 (Z.to_nat (n_tasks plan)))) = seqZ 0 (input_size plan).
Proof.
  intros Hts Hn Hnt.
  pose proof (ceil_div_spec (input_size plan) (task_size plan) Hn Hts) as Hc. rewrite <- Hnt in Hc.
  pose proof (tasks_concat (fun o a => seqZ (Z.of_nat o) (Z.of_nat a)) plan Hts Hn Hnt) as H.
  cbv beta in H. rewrite (Z2Nat.id (input_size plan)) in H by done. change (Z.of_nat 0) with 0 in H.
  rewrite <- H.
  - f_equal. apply list_fmap_ext. intros i t Ht. apply list_lookup_fmap_Some in Ht as (k & -> & Ht).
    apply lookup_seq in Ht as [-> Ht]. simpl. by rewrite !Z2Nat.id by nia.
  - done.
  - intros o a b Hb. cbv beta. rewrite !Nat2Z.inj_add. symmetry. apply seqZ_app; lia.
Qed.

(** [slice_work] hands out consecutive, non-empty pieces that cover the
    input exactly, at most [max_tasks] of them, all but the last of
    [task_size >= min_task_size] elements, and the calling thread runs exactly the last one;
    none of its checks can fail. *)
Theorem slice_work_partition (params : WorkSliceParams) (n : Z) :
  plan_fits params n -> 0 < n ->
  exists plan tasks, make_plan params n = Done plan /\ slice_work plan = Done tasks /\
    min_task_size params <= task_size plan /\
    Z.of_nat (length tasks) = n_tasks plan /\ 0 < n_tasks plan <= max_tasks params /\
    concat ((fun t => seqZ (task_offset t) (this_task_size t)) <$> tasks) = seqZ 0 n /\
    (forall k t, tasks !! k = Some t ->
       task_index t = Z.of_nat k /\ 0 < this_task_size t <= task_size plan /\
       (S k < length tasks -> this_task_size t = task_size plan /\ runs_inline t = false)%nat /\
       (S k = length tasks -> runs_inline t = true)).
Proof.
  intros Hfit Hn. destruct (slice_work_tasks params n Hfit Hn) as (plan & Hp & Hi & Hts & Hnt & Hpos & Hs).
  destruct (make_plan_done params n Hfit) as (plan' & Hp' & _ & Hsz & _).
  rewrite Hp in Hp'. apply done_inj in Hp' as <-.
  exists plan, (nth_task plan <$> seq 0 (Z.to_nat (n_tasks plan))).
  rewrite <- Hi in Hnt. pose proof (ceil_div_spec (input_size plan) (task_size plan) ltac:(lia) Hts) as Hc.
  rewrite <- Hnt in Hc. rewrite length_fmap, length_seq.
  split_and!; [done|done|lia|lia|lia|lia| |].
  - rewrite <- Hi. apply concat_seqZ; [done|lia|done].
  - intros k t Ht. apply list_lookup_fmap_Some in Ht as (j & -> & Hj).
    apply lookup_seq in Hj as [-> Hj]. rewrite Nat.add_0_l.
    unfold nth_task. cbn [task_index this_task_size runs_inline].
    split; [done|]. split; [nia|]. split.
    + intros Hlt. split; [nia|]. apply Z.eqb_neq. lia.
    + intros He. apply Z.eqb_eq. lia.
Qed.

Lemma slice_work_partition_witness :
  exists plan tasks, make_plan (mkParams 3 4) 10 = Done plan /\ slice_work plan = Done tasks /\
    length tasks = 4%nat /\
    concat ((fun t => seqZ (task_offset t) (this_task_size t)) <$> tasks) = seqZ 0 10.
Proof.
  destruct (slice_work_partition (mkParams 3 4) 10) as (plan & tasks & Hp & Hs & _ & Hl & _ & Hc & _).
  - unfold plan_fits, u64_max. simpl. lia.
  - lia.
  - exists plan, tasks. split_and!; [done|done| |done].
    vm_compute in Hp. injection Hp as <-. simpl in Hl. lia.
Defined.
