(* ===== verification/ParallelAlgo.v ===== *)
(** * Data-parallel copy, transform and accumulate

    [algo/parallel_copy.hpp], [algo/parallel_transform.hpp],
    [algo/parallel_accumulate.hpp].  Each runs the tasks of one
    [slice_work] plan; the writes of the tasks reach the destination in any
    order. *)

From S2P Require Import Prelude SliceWork.
Open Scope Z_scope.

(** [*std::next(src_begin, task_offset), task_size]: the elements of a task. *)
Definition task_slice {A} (src : list A) (t : SliceTask) : list A :=
  take (Z.to_nat (this_task_size t)) (drop (Z.to_nat (task_offset t)) src).

(* @ src/batteries/algo/parallel_copy.hpp 21-45 parallel_copy *)
Definition parallel_copy {A} (params : WorkSliceParams) (src : list A) (dst_begin : nat)
    : outcome (list (write A)) :=
  if max_tasks params =? 1 then mret (writes_at dst_begin src)
  else
    plan ← make_plan params (Z.of_nat (length src));
    tasks ← slice_work plan;
    mret (concat ((fun t =>
      writes_at (dst_begin + Z.to_nat (task_offset t)) (task_slice src t)) <$> tasks)).

(* @ src/batteries/algo/parallel_transform.hpp 21-46 parallel_transform *)
Definition parallel_transform {A B} (params : WorkSliceParams) (src : list A) (dst_begin : nat)
    (transform_fn : A -> B) : outcome (list (write B)) :=
  if max_tasks params =? 1 then mret (writes_at dst_begin (transform_fn <$> src))
  else
    plan ← make_plan params (Z.of_nat (length src));
    tasks ← slice_work plan;
    mret (concat ((fun t =>
      writes_at (dst_begin + Z.to_nat (task_offset t)) (transform_fn <$> task_slice src t)) <$> tasks)).

Section accumulate.
Context {T : Type} (binary_op : T -> T -> T) (identity : T).

Definition accumulate (xs : list T) (init : T) : T := foldl binary_op init xs.

(** The cells as the calling thread leaves them, and the writes of the
    tasks; a task reads only its own cell. *)
(* @ src/batteries/algo/parallel_accumulate.hpp 26-62 parallel_accumulate_partial *)
Definition parallel_accumulate_partial (xs : list T) (init : T) (task_result_buffer : list T)
    (params : WorkSliceParams) : outcome (list T * list (write T)) :=
  if (length xs =? 0)%nat then Done ([], [])
  else if max_tasks params =? 1 then
    check (1 <=? length task_result_buffer)%nat;;
    Done ([accumulate xs init], [])
  else
    plan ← make_plan params (Z.of_nat (length xs));
    let task_results := replicate (Z.to_nat (n_tasks plan)) identity in
    let task_results := match task_results with [] => [] | _ :: rest => init :: rest end in
    tasks ← slice_work plan;
    Done (task_results,
          (fun t => (Z.to_nat (task_index t),
                     accumulate (task_slice xs t)
                       (default identity (task_results !! Z.to_nat (task_index t)))))
            <$> (tasks : list SliceTask)).

(** [order] is the order in which the writes happen. *)
(* @ src/batteries/algo/parallel_accumulate.hpp 66-104 parallel_accumulate *)
Fixpoint parallel_accumulate (fuel : nat) (order : list (write T) -> list (write T))
    (xs : list T) (init : T) (params : WorkSliceParams) : outcome T :=
  match fuel with
  | O => Panic
  | S fuel' =>
      if (length xs =? 0)%nat then mret init
      else
        check (0 <? min_task_size params);;
        check (0 <? max_tasks params);;
        if (max_tasks params =? 1)
           || (Z.of_nat (length xs) <=? Z.max (min_task_size params) (max_tasks params))
        then mret (accumulate xs init)
        else
          r ← parallel_accumulate_partial xs init (replicate (Z.to_nat (max_tasks params)) identity) params;
          match apply_writes (order r.2) r.1 with
          | [] => Panic
          | front :: rest => parallel_accumulate fuel' order rest front params
          end
  end.
End accumulate.

(** ** Copy and transform *)

Lemma task_slice_join {A B} (f : A -> B) (d : nat) (src : list A) (o a b : nat) :
  (o + a + b <= length src)%nat ->
  writes_at (d + o) (f <$> take a (drop o src)) ++ writes_at (d + (o + a)) (f <$> take b (drop (o + a) src))
  = writes_at (d + o) (f <$> take (a + b) (drop o src)).
Proof.
  intros H. rewrite <- (drop_drop src a o).
  rewrite <- (take_take_drop (drop o src) a b), fmap_app, writes_at_app.
  f_equal. f_equal. rewrite length_fmap, length_take, length_drop. lia.
Qed.

Lemma parallel_transform_writes {A B} (params : WorkSliceParams) (src : list A) (d : nat) (f : A -> B) :
  plan_fits params (Z.of_nat (length src)) ->
  parallel_transform params src d f = Done (writes_at d (f <$> src)).
Proof.
  intros Hfit. unfold parallel_transform. destruct (max_tasks params =? 1); [done|].
  destruct src as [|x src].
  - change (Z.of_nat (length [])) with 0 in *.
    destruct (slice_work_empty params Hfit) as (plan & -> & Hs). cbn. by rewrite Hs.
  - destruct (slice_work_tasks params _ Hfit ltac:(simpl; lia)) as (plan & -> & Hi & Hts & Hnt & Hpos & Hs).
    cbn [mbind outcome_bind]. rewrite Hs. cbn [mbind outcome_bind]. unfold mret, outcome_ret. f_equal.
    rewrite <- Hi in Hnt.
    pose proof (tasks_concat (fun o a => writes_at (d + o) (f <$> take a (drop o (x :: src)))) plan Hts) as H.
    rewrite Hi, Nat2Z.id in H. rewrite Hi in Hnt. rewrite Nat.add_0_r, drop_0, firstn_all in H.
    apply H; [lia|done|done|]. intros o a b Hb. apply task_slice_join. lia.
Qed.

Lemma parallel_copy_transform {A} (params : WorkSliceParams) (src : list A) (d : nat) :
  parallel_copy params src d = parallel_transform params src d id.
Proof.
  unfold parallel_copy, parallel_transform. rewrite list_fmap_id. destruct (_ =? 1); [done|].
  destruct (make_plan _ _) as [plan|]; [|done]. cbn. destruct (slice_work plan) as [tasks|]; [|done]. cbn.
  do 2 f_equal. apply list_fmap_ext. intros i t _. by rewrite list_fmap_id.
Qed.

(** [parallel_transform] writes [transform_fn] of each source element to
    the destination and nothing else, whatever the order of the tasks' writes. *)
Theorem parallel_transform_correct {A B} (params : WorkSliceParams) (src : list A) (dst_begin : nat)
    (transform_fn : A -> B) (dst : list B) :
  plan_fits params (Z.of_nat (length src)) -> (dst_begin + length src <= length dst)%nat ->
  exists ws, parallel_transform params src dst_begin transform_fn = Done ws /\
    forall ws', Permutation ws ws' ->
      apply_writes ws' dst
      = take dst_begin dst ++ (transform_fn <$> src) ++ drop (dst_begin + length src) dst.
Proof.
  intros Hfit Hlen. eexists. split; [by apply parallel_transform_writes|].
  intros ws' Hp. rewrite (apply_writes_any_order ws' dst_begin (transform_fn <$> src)); [|done|];
    by rewrite length_fmap.
Qed.

Lemma parallel_transform_correct_witness :
  exists ws, parallel_transform (mkParams 1 2) [1; 2; 3] 1 Z.succ = Done ws /\
    apply_writes (rev ws) [9; 9; 9; 9; 9] = [9; 2; 3; 4; 9].
Proof.
  destruct (parallel_transform_correct (mkParams 1 2) [1; 2; 3] 1 Z.succ [9; 9; 9; 9; 9]) as (ws & Hw & H).
  - unfold plan_fits, u64_max. simpl. lia.
  - simpl. lia.
  - exists ws. split; [done|]. rewrite (H (rev ws) (Permutation_rev ws)). reflexivity.
Defined.

(** [parallel_copy] copies the source to the destination and changes
    nothing else, whatever the order of the tasks' writes. *)
Theorem parallel_copy_correct {A} (params : WorkSliceParams) (src : list A) (dst_begin : nat) (dst : list A) :
  plan_fits params (Z.of_nat (length src)) -> (dst_begin + length src <= length dst)%nat ->
  exists ws, parallel_copy params src dst_begin = Done ws /\
    forall ws', Permutation ws ws' ->
      apply_writes ws' dst = take dst_begin dst ++ src ++ drop (dst_begin + length src) dst.
Proof.
  intros Hfit Hlen. rewrite parallel_copy_transform, parallel_transform_writes, list_fmap_id by done.
  eexists. split; [done|]. intros ws' Hp. by apply apply_writes_any_order.
Qed.

Lemma parallel_copy_correct_witness :
  exists ws, parallel_copy (mkParams 1 2) [1; 2; 3] 1 = Done ws /\
    apply_writes (rev ws) [9; 9; 9; 9; 9] = [9; 1; 2; 3; 9].
Proof.
  destruct (parallel_copy_correct (mkParams 1 2) [1; 2; 3] 1 [9; 9; 9; 9; 9]) as (ws & Hw & H).
  - unfold plan_fits, u64_max. simpl. lia.
  - simpl. lia.
  - exists ws. split; [done|]. rewrite (H (rev ws) (Permutation_rev ws)). reflexivity.
Defined.

(** ** Accumulate *)

Section accumulate_correct.
Context {T : Type} (op : T -> T -> T) (identity : T).
Hypothesis op_assoc : forall x y z, op (op x y) z = op x (op y z).
Hypothesis op_identity : forall x, op identity x = x.

Lemma accumulate_from (x y : T) (ys : list T) :
  accumulate op (y :: ys) x = op x (accumulate op (y :: ys) identity).
Proof.
  unfold accumulate. simpl. rewrite op_identity. revert y.
  induction ys as [|z ys IH]; intros y; simpl; [done|]. by rewrite op_assoc, IH.
Qed.

(** Accumulating the partial results of non-empty pieces. *)
Lemma accumulate_pieces (x : T) (cs : list (list T)) :
  Forall (fun c => c <> []) cs ->
  accumulate op ((fun c => accumulate op c identity) <$> cs) x = accumulate op (concat cs) x.
Proof.
  revert x. induction cs as [|[|y c] cs IH]; intros x Hne; [done| |];
    apply Forall_cons_1 in Hne as [Hc Hne]; [done|].
  rewrite fmap_cons.
  change (accumulate op (?a :: ?l) x) with (accumulate op l (op x a)).
  rewrite <- accumulate_from, IH by done.
  change (concat ((y :: c) :: cs)) with ((y :: c) ++ concat cs).
  unfold accumulate. by rewrite (foldl_app op (y :: c)).
Qed.

Lemma parallel_accumulate_partial_tasks (xs : list T) (init : T) (buffer : list T)
    (params : WorkSliceParams) :
  plan_fits params (Z.of_nat (length xs)) -> xs <> [] -> max_tasks params <> 1 ->
  exists c cs cells ws, parallel_accumulate_partial op identity xs init buffer params = Done (cells, ws) /\
    concat (c :: cs) = xs /\ Forall (fun c => c <> []) cs /\
    Z.of_nat (S (length cs)) <= max_tasks params /\
    forall ws', Permutation ws ws' ->
      apply_writes ws' cells = accumulate op c init :: ((fun c => accumulate op c identity) <$> cs).
Proof.
  intros Hfit Hxs Hmax.
  assert (0 < Z.of_nat (length xs)) as Hlen by (destruct xs; [done|simpl; lia]).
  destruct (slice_work_tasks params _ Hfit Hlen) as (plan & Hp & Hi & Hts & Hnt & Hpos & Hs).
  pose proof (tasks_concat (fun o a => take a (drop o xs)) plan Hts) as Hcat.
  rewrite Hi, Nat2Z.id, drop_0, firstn_all in Hcat.
  pose proof (ceil_div_spec _ (task_size plan) (Z.lt_le_incl _ _ Hlen) Hts) as Hc. rewrite <- Hnt in Hc.
  destruct (Z.to_nat (n_tasks plan)) as [|m] eqn:Hm; [lia|].
  exists (task_slice xs (nth_task plan 0)), (task_slice xs <$> (nth_task plan <$> seq 1 m)).
  unfold parallel_accumulate_partial. rewrite (proj2 (Nat.eqb_neq _ 0)) by (destruct xs; done).
  rewrite (proj2 (Z.eqb_neq _ 1)) by done. rewrite Hp. cbn [mbind outcome_bind].
  rewrite Hs. cbn [mbind outcome_bind]. rewrite Hm. do 2 eexists. split; [reflexivity|]. split_and!.
  - apply Hcat; [lia|done|done|]. intros o a b Hb. rewrite <- (drop_drop xs a o). apply take_take_drop.
  - apply Forall_fmap, Forall_fmap, list.Forall_forall. intros k Hk. apply elem_of_seq in Hk.
    unfold compose, task_slice, nth_task. simpl. intros E. apply (f_equal length) in E.
    rewrite length_take, length_drop in E. simpl in E. nia.
  - rewrite !length_fmap, length_seq. lia.
  - intros ws' Hperm.
    rewrite (apply_writes_any_order ws' 0 (accumulate op (task_slice xs (nth_task plan 0)) init
        :: ((fun c => accumulate op c identity) <$> (task_slice xs <$> (nth_task plan <$> seq 1 m))))).
    + rewrite take_0, drop_ge; [by rewrite app_nil_r|].
      simpl. rewrite !length_fmap, length_seq, length_replicate. lia.
    + rewrite <- Hperm. match goal with |- Permutation ?a ?b => cut (a = b); [by intros ->|] end.
      unfold writes_at.
      simpl length. rewrite !length_fmap, length_seq. simpl. f_equal.
      apply list_eq. intros i. rewrite lookup_zip_with, !list_lookup_fmap.
      destruct (decide (i < m)%nat) as [Hi'|Hi'].
      * rewrite !lookup_seq_lt by done. simpl. rewrite Nat2Z.id. simpl.
        by rewrite lookup_replicate_2 by lia.
      * by rewrite !lookup_seq_ge by lia.
    + simpl. rewrite !length_fmap, length_seq, length_replicate. lia.
Qed.

Lemma parallel_accumulate_base (fuel : nat) (order : list (write T) -> list (write T))
    (xs : list T) (init : T) (params : WorkSliceParams) :
  0 < min_task_size params -> 0 < max_tasks params -> Z.of_nat (length xs) <= max_tasks params ->
  parallel_accumulate op identity (S fuel) order xs init params = Done (accumulate op xs init).
Proof.
  intros Hm Ht Hlen. cbn [parallel_accumulate]. destruct xs as [|x xs]; [done|].
  simpl (length _ =? 0)%nat. cbv iota.
  rewrite !(proj2 (Z.ltb_lt 0 _)) by done. simpl.
  rewrite (proj2 (Z.leb_le _ _)) by (simpl in Hlen; lia). by rewrite orb_true_r.
Qed.

(** C12: for an associative operator with a left identity,
    [parallel_accumulate] returns what [std::accumulate] returns, whatever
    the order in which the tasks store their partial results, and its
    recursion is at most one level deep. *)
Theorem parallel_accumulate_correct (order : list (write T) -> list (write T)) (xs : list T) (init : T)
    (params : WorkSliceParams) :
  (forall ws, Permutation ws (order ws)) -> plan_fits params (Z.of_nat (length xs)) ->
  parallel_accumulate op identity 2 order xs init params = Done (accumulate op xs init).
Proof using op_assoc op_identity.
  intros Horder Hfit. pose proof Hfit as (Hm & Ht & _).
  destruct (decide (Z.of_nat (length xs) <= max_tasks params)).
  { by apply parallel_accumulate_base. }
  assert (xs <> []) as Hxs by (intros ->; simpl in *; lia).
  remember 1%nat as one. cbn [parallel_accumulate]. subst one.
  rewrite (proj2 (Nat.eqb_neq _ 0)) by (destruct xs; done).
  rewrite (proj2 (Z.ltb_lt 0 (min_task_size params))), (proj2 (Z.ltb_lt 0 (max_tasks params))) by done.
  cbn [check mbind outcome_bind].
  destruct ((max_tasks params =? 1) || _) eqn:E; [done|]. bool_cases.
  destruct (parallel_accumulate_partial_tasks xs init
              (replicate (Z.to_nat (max_tasks params)) identity) params Hfit Hxs ltac:(done))
    as (c & cs & cells & ws & -> & Hcat & Hne & Hlen & Hws).
  cbn [mbind outcome_bind fst snd]. rewrite (Hws _ (Horder ws)).
  rewrite parallel_accumulate_base; [|done|done|rewrite length_fmap; lia].
  f_equal. rewrite accumulate_pieces by done. rewrite <- Hcat. unfold accumulate. simpl.
  by rewrite foldl_app.
Qed.
End accumulate_correct.

Lemma parallel_accumulate_correct_witness :
  parallel_accumulate Z.add 0 2 (@rev _) [1; 2; 3; 4; 5; 6; 7] 100 (mkParams 2 3) = Done 128.
Proof.
  rewrite (parallel_accumulate_correct Z.add 0).
  - reflexivity.
  - intros x y z. lia.
  - intros x. lia.
  - intros ws. apply Permutation_rev.
  - unfold plan_fits, u64_max. simpl. lia.
Defined.
