(* ===== verification/RunningTotal.v ===== *)
(** * Running totals kept in parts

    [algo/running_total.hpp], [algo/parallel_running_total.hpp].  The array
    holds, for each part, a leading zero and the running totals local to the
    part, then the summary: the running totals of the parts.  [usize] values
    wrap at 64 bits; sizes and indices are natural numbers, bounded by the
    memory that holds the array. *)

From S2P Require Import Prelude SliceWork.
Open Scope Z_scope.

(* @ src/batteries/algo/running_total.hpp 53-72 RunningTotal *)
Record RunningTotal : Type := mkRT {
  values_ : list Z;
  parts_count_ : nat;
  part_size_ : nat;
  size_ : nat }.

(* @ src/batteries/algo/running_total.hpp 256-259 RunningTotal::RunningTotal *)
Definition default_running_total : RunningTotal := mkRT [0] 0 1 1.

(* @ src/batteries/algo/running_total.hpp 236-239 RunningTotal::part_segment_size *)
Definition part_segment_size (t : RunningTotal) : nat := part_size_ t + 1.

(* @ src/batteries/algo/running_total.hpp 231-234 RunningTotal::part_segment_offset *)
Definition part_segment_offset (t : RunningTotal) (part_i : nat) : nat := part_i * part_segment_size t.

(* @ src/batteries/algo/running_total.hpp 251-254 RunningTotal::offset_of_part *)
Definition offset_of_part (t : RunningTotal) (part_i : nat) : nat := part_i * part_segment_size t.

(* @ src/batteries/algo/running_total.hpp 241-244 RunningTotal::summary_offset *)
Definition summary_offset (t : RunningTotal) : nat := part_segment_size t * parts_count_ t.

(* @ src/batteries/algo/running_total.hpp 246-249 RunningTotal::summary_size *)
Definition summary_size (t : RunningTotal) : nat := parts_count_ t + 1.

(* @ src/batteries/algo/running_total.hpp 226-229 RunningTotal::raw_size *)
Definition raw_size (t : RunningTotal) : nat := summary_offset t + summary_size t.

(* @ src/batteries/algo/running_total.hpp 94-97 RunningTotal::empty *)
Definition empty (t : RunningTotal) : bool := (size_ t =? 0)%nat.

(** Reading a cell of the array; out of bounds is undefined behaviour. *)
Definition cell (t : RunningTotal) (i : nat) : outcome Z :=
  match values_ t !! i with Some v => Done v | None => Panic end.

Definition store (t : RunningTotal) (i : nat) (v : Z) : outcome RunningTotal :=
  check (i <? length (values_ t))%nat;;
  mret (mkRT (<[i := v]> (values_ t)) (parts_count_ t) (part_size_ t) (size_ t)).

(** A [Slice] of the array: its offset and its length. *)
(* @ src/batteries/algo/running_total.hpp 216-224 RunningTotal::raw_slice *)
Definition raw_slice (offset size : nat) : nat * nat := (offset, size).

(* @ src/batteries/algo/running_total.hpp 208-214 RunningTotal::const_part_impl *)
Definition const_part_impl (t : RunningTotal) (i : nat) : outcome (nat * nat) :=
  check (part_segment_offset t i <? raw_size t)%nat;;
  mret (raw_slice (part_segment_offset t i) (part_segment_size t)).

(* @ src/batteries/algo/running_total.hpp 147-152 RunningTotal::const_part *)
Definition const_part (t : RunningTotal) (i : nat) : outcome (nat * nat) :=
  check (i <? parts_count_ t)%nat;;
  const_part_impl t i.

(* @ src/batteries/algo/running_total.hpp 154-159 RunningTotal::mutable_part *)
Definition mutable_part (t : RunningTotal) (i : nat) : outcome (nat * nat) :=
  check (i <? parts_count_ t)%nat;;
  mret (raw_slice (part_segment_offset t i) (part_segment_size t)).

(* @ src/batteries/algo/running_total.hpp 161-169 RunningTotal::const_summary *)
Definition const_summary (t : RunningTotal) : nat * nat := raw_slice (summary_offset t) (summary_size t).

(** Only the position that is accessed has to be in bounds. *)
Definition slice_get (t : RunningTotal) (s : nat * nat) (k : nat) : outcome Z :=
  check (k <? s.2)%nat;;
  cell t (s.1 + k).

(* @ src/batteries/algo/running_total.hpp 171-177 RunningTotal::operator[] *)
Definition get (t : RunningTotal) (i : Z) : outcome Z :=
  check (u64 i <? Z.of_nat (size_ t));;
  let part_index := (Z.to_nat i / part_size_ t)%nat in
  let part_offset := (Z.to_nat i mod part_size_ t)%nat in
  s ← slice_get t (const_summary t) part_index;
  p ← const_part_impl t part_index;
  v ← slice_get t p part_offset;
  mret (u64 (s + v)).

(* @ src/batteries/algo/running_total.hpp 99-103 RunningTotal::front *)
Definition front (t : RunningTotal) : outcome Z :=
  check (negb (empty t));;
  cell t 0.

(* @ src/batteries/algo/running_total.hpp 105-109 RunningTotal::back *)
Definition back (t : RunningTotal) : outcome Z :=
  check (negb (empty t));;
  get t (Z.of_nat (size_ t - 1)).

(** [new usize[n]] does not initialise: [fresh] is what the memory holds. *)
(* @ src/batteries/algo/running_total.hpp 119-139 RunningTotal::reset *)
Definition reset (fresh : nat -> list Z) (count size : nat) : outcome RunningTotal :=
  check (0 <? size)%nat;;
  let t0 := mkRT [] count size 0 in
  let t1 := mkRT (fresh (raw_size t0)) count size 0 in
  t2 ← store t1 (summary_offset t1) 0;
  t3 ← foldl (fun acc i =>
         t ← acc;
         p ← mutable_part t i;
         store t p.1 0) (Done t2) (seq 0 count);
  mret (mkRT (values_ t3) count size (count * size + 1)).

(* @ src/batteries/algo/running_total.hpp 141-145 RunningTotal::set_size *)
Definition set_size (t : RunningTotal) (new_size : nat) : outcome RunningTotal :=
  check (new_size <=? parts_count_ t * part_size_ t + 1)%nat;;
  mret (mkRT (values_ t) (parts_count_ t) (part_size_ t) new_size).

(** One round of the loop of [update_summary]: part [p], total so far. *)
(* @ src/batteries/algo/running_total.hpp 199-202 RunningTotal::update_summary *)
Definition summary_step (acc : outcome (RunningTotal * Z)) (p : nat) : outcome (RunningTotal * Z) :=
  tt ← acc;
  let t := tt.1 in
  v ← cell t (part_size_ t + part_segment_size t * p);
  let total := u64 (tt.2 + v) in
  t' ← store t (summary_offset t + 1 + p) total;
  mret (t', total).

(* @ src/batteries/algo/running_total.hpp 189-205 RunningTotal::update_summary *)
Definition update_summary (t : RunningTotal) : outcome RunningTotal :=
  z ← cell t (summary_offset t);
  check (z =? 0);;
  r ← foldl summary_step (Done (t, 0)) (seq 0 (parts_count_ t));
  check (summary_offset t + 1 + parts_count_ t =? raw_size t)%nat;;
  mret r.1.

(** ** Iterators *)

(* @ src/batteries/algo/running_total.hpp 264-284 RunningTotal::Iterator *)
Record Iterator : Type := mkIter { container_ : RunningTotal; position_ : Z }.

(* @ src/batteries/algo/running_total.hpp 340-343 RunningTotal::begin *)
Definition begin (t : RunningTotal) : Iterator := mkIter t 0.

(* @ src/batteries/algo/running_total.hpp 347-350 RunningTotal::end *)
Definition end_ (t : RunningTotal) : Iterator := mkIter t (Z.of_nat (size_ t)).

(* @ src/batteries/algo/running_total.hpp 286-289 RunningTotal::Iterator::dereference *)
Definition dereference (it : Iterator) : outcome Z := get (container_ it) (position_ it).

(** Both iterators of a range have the same container. *)
(* @ src/batteries/algo/running_total.hpp 291-294 RunningTotal::Iterator::equal *)
Definition equal (a b : Iterator) : bool := position_ a =? position_ b.

(* @ src/batteries/algo/running_total.hpp 296-300 RunningTotal::Iterator::increment *)
Definition increment (it : Iterator) : outcome Iterator :=
  check (u64 (position_ it) <? Z.of_nat (size_ (container_ it)));;
  mret (mkIter (container_ it) (position_ it + 1)).

(* @ src/batteries/algo/running_total.hpp 302-306 RunningTotal::Iterator::decrement *)
Definition decrement (it : Iterator) : outcome Iterator :=
  check (0 <? position_ it);;
  mret (mkIter (container_ it) (position_ it - 1)).

(* @ src/batteries/algo/running_total.hpp 308-312 RunningTotal::Iterator::advance *)
Definition advance (it : Iterator) (delta : Z) : outcome Iterator :=
  let pos := position_ it + delta in
  check ((0 <=? pos) && (pos <? Z.of_nat (size_ (container_ it)) + 1));;
  mret (mkIter (container_ it) pos).

(* @ src/batteries/algo/running_total.hpp 314-317 RunningTotal::Iterator::distance_to *)
Definition distance_to (a b : Iterator) : Z := position_ b - position_ a.

(* @ src/batteries/algo/running_total.hpp 370-384 RunningTotal::slice *)
Definition slice (t : RunningTotal) (begin_index end_index : Z) : outcome (Iterator * Iterator) :=
  check (begin_index <=? end_index);;
  b ← advance (begin t) begin_index;
  e ← advance (begin t) end_index;
  mret (b, e).

(** A loop over a range, [for (x : range)]. *)
Fixpoint iterate (fuel : nat) (first last : Iterator) : outcome (list Z) :=
  if equal first last then mret []
  else
    match fuel with
    | O => Panic
    | S fuel' =>
        v ← dereference first;
        first' ← increment first;
        rest ← iterate fuel' first' last;
        mret (v :: rest)
    end.

(** ** The parallel construction *)

Section parallel.
Context {A : Type} (fn : A -> Z).

(** The values the loop of one task stores. *)
(* @ src/batteries/algo/parallel_running_total.hpp 65-69 parallel_running_total *)
Fixpoint part_totals (part_total : Z) (items : list A) : list Z :=
  match items with
  | [] => []
  | item :: rest => let t := u64 (part_total + fn item) in t :: part_totals t rest
  end.

(** [part_total] when the loop has ended. *)
Definition part_total (items : list A) : Z := foldl (fun t item => u64 (t + fn item)) 0 items.

(** A part that is too short for its elements would be overrun: [Panic]. *)
(* @ src/batteries/algo/parallel_running_total.hpp 50-74 parallel_running_total *)
Definition part_task (t : RunningTotal) (plan : WorkSlicePlan) (xs : list A) (task : SliceTask)
    : outcome (list (write Z)) :=
  let src := take (Z.to_nat (this_task_size task)) (drop (Z.to_nat (task_offset task)) xs) in
  dst ← mutable_part t (Z.to_nat (task_index task));
  check (if task_index task + 1 <? n_tasks plan
         then (dst.2 =? length src + 1)%nat else true);;
  z ← slice_get t dst 0;
  check (z =? 0);;
  check (length src <=? dst.2 - 1)%nat;;
  mret (writes_at (dst.1 + 1) (part_totals 0 src ++ replicate (dst.2 - 1 - length src) (part_total src))).

(** [order]: the order in which the writes of the tasks happen. *)
(* @ src/batteries/algo/parallel_running_total.hpp 31-83 parallel_running_total *)
Definition parallel_running_total (fresh : nat -> list Z)
    (order : list (write Z) -> list (write Z)) (params : WorkSliceParams) (xs : list A)
    : outcome RunningTotal :=
  plan ← make_plan params (Z.of_nat (length xs));
  if input_size plan =? 0 then mret default_running_total
  else
    t0 ← reset fresh (Z.to_nat (n_tasks plan)) (Z.to_nat (task_size plan));
    t1 ← set_size t0 (Z.to_nat (input_size plan) + 1);
    tasks ← slice_work plan;
    ws ← mapM (part_task t1 plan xs) tasks;
    update_summary (mkRT (apply_writes (order (concat ws)) (values_ t1))
                         (parts_count_ t1) (part_size_ t1) (size_ t1)).
End parallel.

(** ** Sums *)

Lemma sum_take_add (zs : list Z) (a b : nat) :
  sum (take (a + b) zs) = sum (take a zs) + sum (take b (drop a zs)).
Proof. by rewrite <- sum_app, take_take_drop. Qed.

Lemma uwrap_add_add (a b : Z) : u64 (u64 a + u64 b) = u64 (a + b).
Proof. unfold uwrap. by rewrite <- Zplus_mod. Qed.

Lemma uwrap_add_idem (a b : Z) : u64 (u64 a + b) = u64 (a + b).
Proof. unfold uwrap. apply Zplus_mod_idemp_l. Qed.

(** ** The contents of the array *)

Definition pos (t : RunningTotal) (p o : nat) : nat := p * (part_size_ t + 1) + o.

(** The parts hold the running totals of consecutive pieces of [zs]. *)
Record parts_filled (t : RunningTotal) (zs : list Z) : Prop := {
  filled_size : (0 < part_size_ t)%nat;
  filled_length : length (values_ t) = raw_size t;
  filled_summary : values_ t !! summary_offset t = Some 0;
  filled_parts : forall p o, (p < parts_count_ t)%nat -> (o <= part_size_ t)%nat ->
    values_ t !! pos t p o = Some (u64 (sum (take o (drop (p * part_size_ t) zs)))) }.

Definition store_at (t : RunningTotal) (i : nat) (v : Z) : RunningTotal :=
  mkRT (<[i := v]> (values_ t)) (parts_count_ t) (part_size_ t) (size_ t).

Lemma store_done (t : RunningTotal) (i : nat) (v : Z) :
  (i < length (values_ t))%nat -> store t i v = Done (store_at t i v).
Proof. intros H. unfold store. by rewrite (proj2 (Nat.ltb_lt _ _)). Qed.

Lemma pos_lt (t : RunningTotal) (p o : nat) :
  (p < parts_count_ t)%nat -> (o <= part_size_ t)%nat -> (pos t p o < summary_offset t)%nat.
Proof. intros Hp Ho. unfold pos, summary_offset, part_segment_size. nia. Qed.

(** The state of [update_summary] after [k] rounds. *)
Record summed (t : RunningTotal) (zs : list Z) (k : nat) (t' : RunningTotal) : Prop := {
  summed_count : parts_count_ t' = parts_count_ t;
  summed_part : part_size_ t' = part_size_ t;
  summed_size : size_ t' = size_ t;
  summed_filled : parts_filled t' zs;
  summed_cells : forall j, (j <= k)%nat ->
    values_ t' !! (summary_offset t + j)%nat = Some (u64 (sum (take (j * part_size_ t) zs))) }.

Lemma summary_step_summed (t t' : RunningTotal) (zs : list Z) (k : nat) :
  summed t zs k t' -> (k < parts_count_ t)%nat ->
  exists t'', summary_step (Done (t', u64 (sum (take (k * part_size_ t) zs)))) k
    = Done (t'', u64 (sum (take (S k * part_size_ t) zs))) /\ summed t zs (S k) t''.
Proof.
  intros [Hc Hp Hs [Hpos Hlen Hsum Hparts] Hcells] Hk.
  assert (summary_offset t' = summary_offset t) as Hso
    by (unfold summary_offset, part_segment_size; by rewrite Hc, Hp).
  assert (summary_offset t + 1 + k < length (values_ t'))%nat as Hlt
    by (rewrite Hlen; unfold raw_size, summary_size; lia).
  unfold summary_step. simpl. unfold cell.
  replace (part_size_ t' + part_segment_size t' * k)%nat with (pos t' k (part_size_ t'))
    by (unfold pos, part_segment_size; nia).
  rewrite Hparts by lia. simpl. rewrite Hso, store_done by done. simpl.
  rewrite uwrap_add_add, Hp, <- sum_take_add.
  replace (k * part_size_ t + part_size_ t)%nat with (S k * part_size_ t)%nat by lia.
  eexists. split; [reflexivity|]. split; simpl; [done|done|done| |].
  - split; simpl; [done|by rewrite length_insert| |].
    + change (summary_offset (store_at _ _ _)) with (summary_offset t').
      rewrite list_lookup_insert_ne by lia. done.
    + intros p o Hp' Ho. change (pos (store_at _ _ _) p o) with (pos t' p o).
      pose proof (pos_lt t' p o Hp' Ho). rewrite list_lookup_insert_ne by lia. by apply Hparts.
  - intros j Hj. destruct (decide (j = S k)) as [->|Hne].
    + replace (summary_offset t + S k)%nat with (summary_offset t + 1 + k)%nat by lia.
      by rewrite list_lookup_insert_eq.
    + rewrite list_lookup_insert_ne by lia. apply Hcells. lia.
Qed.

Lemma update_summary_summed (t : RunningTotal) (zs : list Z) :
  parts_filled t zs ->
  exists t', update_summary t = Done t' /\ summed t zs (parts_count_ t) t'.
Proof.
  intros Hf. pose proof Hf as [Hpos Hlen Hsum Hparts].
  unfold update_summary, cell. rewrite Hsum. simpl.
  assert (forall k, (k <= parts_count_ t)%nat ->
    exists t', foldl summary_step (Done (t, 0)) (seq 0 k) = Done (t', u64 (sum (take (k * part_size_ t) zs)))
      /\ summed t zs k t') as H.
  { induction k as [|k IH]; intros Hk.
    - exists t. split; [done|]. split; [done..|]. intros j Hj. replace j with 0%nat by lia.
      by rewrite Nat.add_0_r.
    - destruct (IH ltac:(lia)) as (t' & Hfold & Ht'). rewrite seq_S, foldl_app, Hfold. simpl foldl.
      by apply summary_step_summed. }
  destruct (H _ (le_n _)) as (t' & Hfold & Ht'). rewrite Hfold. cbn [mbind outcome_bind].
  rewrite (proj2 (Nat.eqb_eq _ _)) by (unfold raw_size, summary_size; lia). simpl.
  by exists t'.
Qed.

Lemma summed_get (t t' : RunningTotal) (zs : list Z) (i : nat) :
  summed t zs (parts_count_ t) t' -> (i < size_ t)%nat -> (i <= parts_count_ t * part_size_ t)%nat ->
  Z.of_nat i <= u64_max ->
  get t' (Z.of_nat i) = Done (u64 (sum (take i zs))).
Proof.
  intros [Hc Hp Hs [Hpos Hlen Hsum Hparts] Hcells] Hi Hcap Hmax. unfold u64_max in Hmax.
  rewrite Hp in Hpos.
  unfold get. rewrite uwrap_small by lia. rewrite (proj2 (Z.ltb_lt _ _)) by lia. simpl.
  rewrite Nat2Z.id, Hp. set (p := (i / part_size_ t)%nat). set (o := (i mod part_size_ t)%nat).
  assert (i = p * part_size_ t + o)%nat as Ei by (unfold p, o; rewrite Nat.mul_comm; apply Nat.div_mod_eq).
  assert (o < part_size_ t)%nat as Ho by (apply Nat.mod_upper_bound; lia).
  assert (p <= parts_count_ t)%nat as Hle by nia.
  assert (summary_offset t' = summary_offset t) as Hso
    by (unfold summary_offset, part_segment_size; by rewrite Hc, Hp).
  unfold slice_get, const_summary, raw_slice. simpl. unfold summary_size at 1. rewrite Hc.
  rewrite (proj2 (Nat.ltb_lt _ _)) by lia. simpl. unfold cell. rewrite Hso, Hcells by done. simpl.
  unfold const_part_impl.
  rewrite (proj2 (Nat.ltb_lt _ _))
    by (unfold part_segment_offset, raw_size, summary_size, summary_offset, part_segment_size; nia).
  simpl. unfold part_segment_size at 1. rewrite Hp, (proj2 (Nat.ltb_lt _ _)) by lia. simpl.
  change (part_segment_offset t' p + o)%nat with (pos t' p o).
  destruct (decide (p = parts_count_ t)) as [Ep|Hne].
  - assert (o = 0)%nat as Eo by nia. rewrite Eo, Ep.
    replace (pos t' (parts_count_ t) 0) with (summary_offset t')
      by (unfold pos, summary_offset, part_segment_size; rewrite Hc, Hp; lia).
    rewrite Hsum. simpl. rewrite Z.add_0_r, (uwrap_idem 64). do 4 f_equal. nia.
  - rewrite Hparts by lia. simpl. rewrite uwrap_add_add, Hp, <- sum_take_add. by rewrite <- Ei.
Qed.

(** ** [reset] *)

Lemma reset_done (fresh : nat -> list Z) (c s : nat) :
  (forall n, length (fresh n) = n) -> (0 < s)%nat ->
  exists t, reset fresh c s = Done t /\ parts_count_ t = c /\ part_size_ t = s /\
    size_ t = (c * s + 1)%nat /\ length (values_ t) = raw_size t /\
    forall p, (p <= c)%nat -> values_ t !! (p * (s + 1))%nat = Some 0.
Proof.
  intros Hfresh Hs. unfold reset. rewrite (proj2 (Nat.ltb_lt 0 s)) by done. cbn [check mbind outcome_bind].
  set (t1 := mkRT (fresh _) c s 0).
  assert (length (values_ t1) = raw_size t1) as Hlen1 by apply Hfresh.
  rewrite store_done by (rewrite Hlen1; unfold raw_size, summary_size; lia). cbn [mbind outcome_bind].
  set (t2 := store_at t1 (summary_offset t1) 0).
  assert (forall k, (k <= c)%nat ->
    exists t3, foldl (fun acc i => t ← acc; p ← mutable_part t i; store t p.1 0) (Done t2) (seq 0 k) = Done t3 /\
      parts_count_ t3 = c /\ part_size_ t3 = s /\ length (values_ t3) = raw_size t1 /\
      forall p, (p < k \/ p = c)%nat -> values_ t3 !! (p * (s + 1))%nat = Some 0) as H.
  { induction k as [|k IH]; intros Hk.
    - exists t2. simpl. rewrite length_insert. split_and!; try done.
      intros p [?| ->]; [lia|]. replace (c * (s + 1))%nat with (summary_offset t1)
        by (unfold summary_offset, part_segment_size; simpl; lia).
      apply list_lookup_insert_eq. eapply Nat.lt_le_trans; [|apply Nat.eq_le_incl; symmetry; exact Hlen1].
      unfold raw_size, summary_size. lia.
    - destruct (IH ltac:(lia)) as (t3 & Hfold & Hc3 & Hs3 & Hl3 & Hz3).
      rewrite seq_S, foldl_app, Hfold. simpl. unfold mutable_part. rewrite Hc3.
      rewrite (proj2 (Nat.ltb_lt k c)) by lia. simpl.
      unfold part_segment_offset, part_segment_size. rewrite Hs3.
      assert (k * (s + 1) < raw_size t1)%nat
        by (unfold raw_size, summary_offset, summary_size, part_segment_size; simpl; nia).
      rewrite store_done by lia. eexists. split; [reflexivity|]. simpl. rewrite length_insert.
      split_and!; try done. intros p Hp. destruct (decide (p = k)) as [->|Hne].
      + apply list_lookup_insert_eq. lia.
      + rewrite list_lookup_insert_ne by nia. apply Hz3. lia. }
  destruct (H c (le_n _)) as (t3 & Hfold & Hc3 & Hs3 & Hl3 & Hz3). rewrite Hfold. simpl.
  eexists. split; [reflexivity|]. simpl. split_and!; try done. intros p Hp. apply Hz3. lia.
Qed.

(** ** The tasks *)

Section parallel_tasks.
Context {A : Type} (fn : A -> Z).

Lemma part_totals_length (z : Z) (xs : list A) : length (part_totals fn z xs) = length xs.
Proof. revert z. induction xs as [|x xs IH]; intros z; simpl; [done|]. by rewrite IH. Qed.

Lemma part_totals_lookup (z : Z) (xs : list A) (j : nat) :
  (j < length xs)%nat ->
  part_totals fn z xs !! j = Some (u64 (z + sum (take (S j) (fn <$> xs)))).
Proof.
  revert z j. induction xs as [|x xs IH]; intros z j Hj; simpl in *; [lia|].
  destruct j as [|j]; simpl.
  - rewrite sum_cons. change (sum []) with 0. by rewrite Z.add_0_r.
  - rewrite IH by lia. by rewrite uwrap_add_idem, <- Z.add_assoc, sum_cons.
Qed.

Lemma part_total_sum (xs : list A) : part_total fn xs = u64 (sum (fn <$> xs)).
Proof.
  unfold part_total. change 0 with (u64 0) at 1. rewrite <- (Z.add_0_l (sum _)). generalize 0.
  induction xs as [|x xs IH]; intros z; simpl; [by rewrite Z.add_0_r|].
  by rewrite uwrap_add_idem, IH, <- Z.add_assoc, sum_cons.
Qed.

(** What the task of piece [src] leaves in its part of size [s]. *)
Definition row (s : nat) (src : list A) : list Z :=
  part_totals fn 0 src ++ replicate (s - length src) (part_total fn src).

Lemma row_length (s : nat) (src : list A) : (length src <= s)%nat -> length (row s src) = s.
Proof. intros H. unfold row. rewrite length_app, part_totals_length, length_replicate. lia. Qed.

Lemma row_lookup (s : nat) (src : list A) (j : nat) :
  (length src <= s)%nat -> (j < s)%nat ->
  row s src !! j = Some (u64 (sum (take (S j) (fn <$> src)))).
Proof.
  intros Hl Hj. unfold row. destruct (decide (j < length src)%nat) as [Hlt|Hge].
  - rewrite lookup_app_l by (rewrite part_totals_length; done). by rewrite part_totals_lookup.
  - rewrite lookup_app_r by (rewrite part_totals_length; lia).
    rewrite part_totals_length, lookup_replicate_2 by lia.
    rewrite part_total_sum, (take_ge (fn <$> src)) by (rewrite length_fmap; lia). done.
Qed.

Definition piece (xs : list A) (s p : nat) : list A := take s (drop (p * s) xs).

Definition row_writes (xs : list A) (s p : nat) : list (write Z) :=
  writes_at (p * (s + 1) + 1) (row s (piece xs s p)).

Lemma piece_length (xs : list A) (s p : nat) : (length (piece xs s p) <= s)%nat.
Proof. unfold piece. rewrite length_take. lia. Qed.

Lemma row_writes_keys (xs : list A) (s p : nat) :
  (row_writes xs s p).*1 = seq (p * (s + 1) + 1) s.
Proof. unfold row_writes. by rewrite writes_at_keys, row_length by apply piece_length. Qed.

Lemma rows_keys_lt (xs : list A) (s k i : nat) :
  i ∈ (concat (row_writes xs s <$> seq 0 k)).*1 ->
  exists p j, (p < k)%nat /\ (j < s)%nat /\ i = (p * (s + 1) + S j)%nat.
Proof.
  rewrite list_elem_of_fmap. intros (w & -> & Hw). apply list_elem_of_In, in_concat in Hw as (ws & Hws & Hw).
  apply list_elem_of_In, list_elem_of_fmap in Hws as (p & -> & Hp). apply elem_of_seq in Hp.
  assert (w.1 ∈ (row_writes xs s p).*1) as Hk by (apply list_elem_of_fmap_2; by apply list_elem_of_In).
  rewrite row_writes_keys in Hk. apply elem_of_seq in Hk.
  exists p, (w.1 - (p * (s + 1) + 1))%nat. lia.
Qed.

Lemma rows_NoDup (xs : list A) (s k : nat) : NoDup (concat (row_writes xs s <$> seq 0 k)).*1.
Proof.
  induction k as [|k IH]; [constructor|].
  rewrite seq_S, fmap_app, concat_app, fmap_app. apply list.NoDup_app. split_and!; [done| |].
  - intros i Hi Hi'. apply rows_keys_lt in Hi as (p & j & Hp & Hj & ->).
    simpl in Hi'. rewrite app_nil_r, row_writes_keys in Hi'. apply elem_of_seq in Hi'. nia.
  - simpl. rewrite app_nil_r, row_writes_keys. apply NoDup_seq.
Qed.
End parallel_tasks.

Lemma part_task_done {A} (fn : A -> Z) (t : RunningTotal) (plan : WorkSlicePlan) (xs : list A) (k s : nat) :
  task_size plan = Z.of_nat s -> input_size plan = Z.of_nat (length xs) ->
  n_tasks plan = ceil_div (input_size plan) (task_size plan) -> (0 < s)%nat ->
  n_tasks plan = Z.of_nat (parts_count_ t) -> part_size_ t = s -> (k < parts_count_ t)%nat ->
  values_ t !! (k * (s + 1))%nat = Some 0 ->
  part_task fn t plan xs (nth_task plan k) = Done (row_writes fn xs s k).
Proof.
  intros Hts Hn Hnt Hs Hc Hp Hk Hz.
  pose proof (ceil_div_spec (input_size plan) (task_size plan) ltac:(lia) ltac:(lia)) as Hcd.
  rewrite <- Hnt in Hcd.
  unfold part_task, nth_task. cbn [task_index task_offset this_task_size]. rewrite Hts, Nat2Z.id.
  replace (Z.to_nat (Z.of_nat k * Z.of_nat s)) with (k * s)%nat by lia.
  replace (take _ (drop (k * s) xs)) with (piece xs s k).
  2: { unfold piece. destruct (decide (k * s + s <= length xs)%nat).
       - f_equal. lia.
       - rewrite !take_ge; [done|rewrite length_drop; lia..]. }
  pose proof (piece_length xs s k) as Hlen.
  unfold mutable_part. rewrite (proj2 (Nat.ltb_lt _ _)) by done. simpl.
  unfold part_segment_offset, part_segment_size. rewrite Hp.
  assert ((if Z.of_nat k + 1 <? n_tasks plan then (s + 1 =? length (piece xs s k) + 1)%nat else true) = true) as ->.
  { case_if; [|done]. apply Nat.eqb_eq. unfold piece. rewrite length_take, length_drop. nia. }
  simpl. unfold slice_get. simpl. rewrite (proj2 (Nat.ltb_lt _ _)) by lia. simpl.
  unfold cell. rewrite Nat.add_0_r, Hz. simpl. rewrite (proj2 (Nat.leb_le _ _)) by lia. simpl.
  unfold row_writes, row. rewrite Nat.add_sub. done.
Qed.

(** The tasks fill the parts, in whatever order their writes happen. *)
Lemma tasks_fill_parts {A} (fn : A -> Z) (t : RunningTotal) (xs : list A) (ws : list (write Z)) (n : nat) :
  (0 < part_size_ t)%nat -> length (values_ t) = raw_size t ->
  (forall p, (p <= parts_count_ t)%nat -> values_ t !! (p * (part_size_ t + 1))%nat = Some 0) ->
  Permutation (concat (row_writes fn xs (part_size_ t) <$> seq 0 (parts_count_ t))) ws ->
  parts_filled (mkRT (apply_writes ws (values_ t)) (parts_count_ t) (part_size_ t) n) (fn <$> xs).
Proof.
  intros Hpos Hlen Hz Hperm.
  set (s := part_size_ t) in *. set (c := parts_count_ t) in *.
  pose proof (rows_NoDup fn xs s c) as Hnd. rewrite Hperm in Hnd.
  assert (forall p, (p <= c)%nat -> apply_writes ws (values_ t) !! (p * (s + 1))%nat = Some 0) as Hz'.
  { intros p Hp. rewrite apply_writes_notin; [by apply Hz|]. rewrite <- Hperm. intros Hin.
    apply rows_keys_lt in Hin as (p' & j & ? & ? & E).
    assert (p <= p' \/ p' + 1 <= p)%nat as [|] by lia; nia. }
  split; cbn [values_ parts_count_ part_size_]; [done|by rewrite apply_writes_length| |].
  - replace (summary_offset _) with (c * (s + 1))%nat
      by (unfold summary_offset, part_segment_size; simpl; lia). by apply Hz'.
  - intros p o Hp Ho. unfold pos. cbn [part_size_]. destruct o as [|j].
    + rewrite Nat.add_0_r, Hz' by lia. by rewrite take_0.
    + apply apply_writes_in; [done| |].
      * rewrite <- Hperm. apply list_elem_of_In, in_concat. exists (row_writes fn xs s p).
        split; apply list_elem_of_In.
        -- apply list_elem_of_fmap_2, elem_of_seq. lia.
        -- unfold row_writes, writes_at. apply list_elem_of_lookup. exists j.
           apply lookup_zip_with_Some. do 2 eexists. split; [reflexivity|]. split.
           ++ apply lookup_seq. rewrite row_length by apply piece_length. lia.
           ++ rewrite row_lookup by (apply piece_length || lia). unfold piece.
              rewrite fmap_take, fmap_drop, take_take. do 4 f_equal. lia.
      * rewrite Hlen. unfold raw_size, summary_offset, summary_size, part_segment_size. fold s c. nia.
Qed.

(** ** The theorems *)

(** once the parts hold their local running totals, [update_summary]
    succeeds and [operator[]] at every index in bounds is the running total
    of the whole input, modulo [2^64]. *)
Theorem update_summary_correct (t : RunningTotal) (zs : list Z) :
  parts_filled t zs ->
  exists t', update_summary t = Done t' /\ size_ t' = size_ t /\
    forall i, (i < size_ t)%nat -> (i <= parts_count_ t * part_size_ t)%nat -> Z.of_nat i <= u64_max ->
      get t' (Z.of_nat i) = Done (u64 (sum (take i zs))).
Proof.
  intros Hf. destruct (update_summary_summed t zs Hf) as (t' & Hu & Hs).
  exists t'. split_and!; [done|apply Hs|]. intros i Hi Hcap Hmax. by apply (summed_get t t' zs i).
Qed.

(** The input of the example in the comment of [running_total.hpp:24-48]. *)
Lemma update_summary_correct_witness :
  exists t', update_summary (mkRT [0; 2; 3; 6; 0; 1; 3; 4; 0; 7; 7] 2 3 7) = Done t' /\
    get t' 5 = Done 9.
Proof.
  destruct (update_summary_correct (mkRT [0; 2; 3; 6; 0; 1; 3; 4; 0; 7; 7] 2 3 7) [2; 1; 3; 1; 2; 1])
    as (t' & Hu & _ & Hg).
  - split; [simpl; lia|done|done|].
    intros p o Hp Ho. simpl in Hp, Ho.
    destruct p as [|[|p]]; [| |lia]; (destruct o as [|[|[|[|o]]]]; [..|lia]); reflexivity.
  - exists t'. split; [done|]. apply (Hg 5%nat); vm_compute; lia || discriminate.
Defined.

Lemma parallel_running_total_summed {A} (fn : A -> Z) (fresh : nat -> list Z)
    (order : list (write Z) -> list (write Z)) (params : WorkSliceParams) (xs : list A) :
  (forall n, length (fresh n) = n) -> (forall ws, Permutation ws (order ws)) ->
  plan_fits params (Z.of_nat (length xs)) -> xs <> [] ->
  exists t0 t, parallel_running_total fn fresh order params xs = Done t /\
    summed t0 (fn <$> xs) (parts_count_ t0) t /\ size_ t0 = S (length xs) /\
    (length xs <= parts_count_ t0 * part_size_ t0)%nat.
Proof.
  intros Hfresh Horder Hfit Hxs.
  assert (0 < Z.of_nat (length xs)) as Hlen by (destruct xs; [done|simpl; lia]).
  destruct (slice_work_tasks params _ Hfit Hlen) as (plan & Hp & Hi & Hts & Hnt & Hpos & Hs).
  pose proof (ceil_div_spec _ (task_size plan) (Z.lt_le_incl _ _ Hlen) Hts) as Hc. rewrite <- Hnt in Hc.
  set (c := Z.to_nat (n_tasks plan)) in *. set (s := Z.to_nat (task_size plan)).
  assert (length xs <= c * s)%nat as Hcap by (unfold c, s; nia).
  unfold parallel_running_total. rewrite Hp. cbn [mbind outcome_bind].
  rewrite Hi, (proj2 (Z.eqb_neq _ 0)) by lia. fold c s.
  destruct (reset_done fresh c s Hfresh ltac:(lia)) as (t0 & -> & Hc0 & Hs0 & Hz0 & Hl0 & Hzero).
  cbn [mbind outcome_bind]. unfold set_size. rewrite Hc0, Hs0, Nat2Z.id.
  rewrite (proj2 (Nat.leb_le _ _)) by lia. cbn [check mbind outcome_bind].
  rewrite Hs. unfold mret, outcome_ret. cbn [mbind outcome_bind].
  set (t1 := mkRT (values_ t0) c s (length xs + 1)).
  rewrite (mapM_done _ (fun t => row_writes fn xs s (Z.to_nat (task_index t)))).
  2: { intros task Htask. apply list_elem_of_fmap in Htask as (k & -> & Hk). apply elem_of_seq in Hk.
       rewrite (part_task_done fn t1 plan xs k s); simpl; rewrite ?Nat2Z.id; try done; try lia.
       - by rewrite Hi.
       - apply Hzero. lia. }
  cbn [mbind outcome_bind].
  replace ((fun t => row_writes fn xs s (Z.to_nat (task_index t))) <$> (nth_task plan <$> seq 0 c))
    with (row_writes fn xs s <$> seq 0 c).
  2: { rewrite <- list_fmap_compose. apply list_fmap_ext. intros k k' _. unfold compose. simpl. by rewrite Nat2Z.id. }
  set (t2 := mkRT (apply_writes (order _) (values_ t1)) _ _ _).
  assert (parts_filled t2 (fn <$> xs)) as Hf.
  { apply (tasks_fill_parts fn t1 xs); simpl; [lia| |done|apply Horder].
    rewrite Hl0. unfold raw_size, summary_offset, summary_size, part_segment_size. simpl. by rewrite Hc0, Hs0. }
  destruct (update_summary_summed t2 _ Hf) as (t' & Hu & Hsum).
  exists t2, t'. split_and!; [done|done|simpl; lia|done].
Qed.

(** C14: [parallel_running_total] returns, whatever the uninitialised memory
    holds and in whatever order the tasks' writes happen, an object of size
    [n + 1] whose element [i] is the sum of the first [i] values modulo [2^64]. *)
Theorem parallel_running_total_correct {A} (fn : A -> Z) (fresh : nat -> list Z)
    (order : list (write Z) -> list (write Z)) (params : WorkSliceParams) (xs : list A) :
  (forall n, length (fresh n) = n) -> (forall ws, Permutation ws (order ws)) ->
  plan_fits params (Z.of_nat (length xs)) ->
  exists t, parallel_running_total fn fresh order params xs = Done t /\ size_ t = S (length xs) /\
    forall i, (i <= length xs)%nat ->
      get t (Z.of_nat i) = Done (u64 (sum (fn <$> take i xs))).
Proof.
  intros Hfresh Horder Hfit. destruct (decide (xs = [])) as [->|Hxs].
  - destruct (make_plan_done params _ Hfit) as (plan & Hp & Hi & _).
    exists default_running_total. unfold parallel_running_total. rewrite Hp. cbn [mbind outcome_bind].
    rewrite Hi. split_and!; [done|done|]. intros i Hle. simpl in Hle. replace i with 0%nat by lia. done.
  - destruct (parallel_running_total_summed fn fresh order params xs Hfresh Horder Hfit Hxs)
      as (t0 & t & Ht & Hsum & Hsize & Hcap).
    exists t. split_and!; [done|by rewrite (summed_size _ _ _ _ Hsum)|]. intros i Hi.
    destruct Hfit as (_ & _ & Hn & _).
    rewrite (summed_get t0 t (fn <$> xs) i Hsum), fmap_take; [done|lia|lia|unfold u64_max; lia].
Qed.

Lemma parallel_running_total_correct_witness :
  exists t, parallel_running_total id (fun n => replicate n 77) (@rev _) (mkParams 2 3) [2; 1; 3; 1; 2; 1; 1] = Done t /\
    get t 7 = Done 11.
Proof.
  destruct (parallel_running_total_correct id (fun n => replicate n 77) (@rev _) (mkParams 2 3) [2; 1; 3; 1; 2; 1; 1])
    as (t & Ht & _ & Hg).
  - intros n. apply length_replicate.
  - intros ws. apply Permutation_rev.
  - unfold plan_fits, u64_max. simpl. lia.
  - exists t. split; [done|]. apply (Hg 7%nat). simpl. lia.
Defined.

(** ** Ranges *)

Lemma iterate_gets (t : RunningTotal) (f : nat -> Z) (i m : nat) :
  (forall j, (j < i + m)%nat -> get t (Z.of_nat j) = Done (f j)) ->
  (i + m <= size_ t)%nat -> Z.of_nat (i + m) <= u64_max ->
  iterate m (mkIter t (Z.of_nat i)) (mkIter t (Z.of_nat (i + m))) = Done (f <$> seq i m).
Proof.
  unfold u64_max. revert i. induction m as [|m IH]; intros i Hget Hsize Hmax.
  - unfold iterate, equal. simpl. by rewrite Nat.add_0_r, Z.eqb_refl.
  - cbn [iterate]. unfold equal at 1. cbn [position_]. rewrite (proj2 (Z.eqb_neq _ _)) by lia.
    unfold dereference. cbn [container_ position_]. rewrite Hget by lia. cbn [mbind outcome_bind].
    unfold increment. cbn [container_ position_]. rewrite uwrap_small by lia.
    rewrite (proj2 (Z.ltb_lt _ _)) by lia. simpl check. cbn [mbind outcome_bind].
    replace (Z.of_nat i + 1) with (Z.of_nat (S i)) by lia.
    unfold mret, outcome_ret. cbn [mbind outcome_bind].
    replace (i + S m)%nat with (S i + m)%nat in * by lia.
    rewrite IH; [done| |lia|lia]. intros j Hj. apply Hget. lia.
Qed.

(** iterating over [slice(b, e)] of a parallel running total yields the
    running totals at [b], ..., [e - 1] and never trips an assertion. *)
Theorem slice_running_totals {A} (fn : A -> Z) (fresh : nat -> list Z)
    (order : list (write Z) -> list (write Z)) (params : WorkSliceParams) (xs : list A)
    (t : RunningTotal) (b e : nat) :
  (forall n, length (fresh n) = n) -> (forall ws, Permutation ws (order ws)) ->
  plan_fits params (Z.of_nat (length xs)) -> xs <> [] ->
  parallel_running_total fn fresh order params xs = Done t ->
  (b <= e <= S (length xs))%nat ->
  exists first last, slice t (Z.of_nat b) (Z.of_nat e) = Done (first, last) /\
    distance_to first last = Z.of_nat (e - b) /\
    iterate (e - b) first last = Done ((fun i => u64 (sum (fn <$> take i xs))) <$> seq b (e - b)).
Proof.
  intros Hfresh Horder Hfit Hxs Hrun Hbe.
  destruct (parallel_running_total_summed fn fresh order params xs Hfresh Horder Hfit Hxs)
    as (t0 & t' & Ht & Hsum & Hsize & Hcap).
  rewrite Hrun in Ht. apply done_inj in Ht as <-.
  pose proof (summed_size _ _ _ _ Hsum) as Hst. destruct Hfit as (_ & _ & Hn & _).
  unfold slice, advance, begin. cbn [position_ container_]. rewrite !Z.add_0_l.
  rewrite (proj2 (Z.leb_le (Z.of_nat b) _)), !(proj2 (Z.leb_le 0 _)) by lia.
  rewrite !(proj2 (Z.ltb_lt _ (Z.of_nat (size_ t) + 1))) by lia. simpl.
  do 2 eexists. split; [reflexivity|]. split; [unfold distance_to; simpl; lia|].
  replace (Z.of_nat e) with (Z.of_nat (b + (e - b))) by lia.
  apply iterate_gets; [|lia|unfold u64_max; lia].
  intros j Hj. rewrite (summed_get t0 t (fn <$> xs) j Hsum), fmap_take; [done|lia|lia|unfold u64_max; lia].
Qed.

Lemma slice_running_totals_witness :
  exists t first last,
    parallel_running_total id (fun n => replicate n 77) (@rev _) (mkParams 2 3) [2; 1; 3; 1; 2; 1; 1] = Done t /\
    slice t 2 5 = Done (first, last) /\ iterate 3 first last = Done [3; 6; 7].
Proof.
  destruct (parallel_running_total id (fun n => replicate n 77) (@rev _) (mkParams 2 3) [2; 1; 3; 1; 2; 1; 1])
    as [t|] eqn:Hrun; [|vm_compute in Hrun; discriminate].
  destruct (slice_running_totals id (fun n => replicate n 77) (@rev _) (mkParams 2 3) [2; 1; 3; 1; 2; 1; 1] t 2 5)
    as (first & last & Hs & _ & Hi).
  - intros n. apply length_replicate.
  - intros ws. apply Permutation_rev.
  - unfold plan_fits, u64_max. simpl. lia.
  - discriminate.
  - exact Hrun.
  - simpl. lia.
  - exists t, first, last. split_and!; [done|exact Hs|exact Hi].
Defined.
