(* ===== verification/ParallelMerge.v ===== *)
(** * Parallel merge of two sorted ranges

    [algo/parallel_merge.hpp].  A range is the list of its elements; a task
    is the list of its writes to the destination, and the tasks' writes
    happen in any order.  [std::merge] and [std::lower_bound] are written out
    as the C++ standard specifies them. *)

From S2P Require Import Prelude SliceWork ParallelAlgo.
Open Scope Z_scope.

(** The three phases: split the first range, then the second, then merge. *)
(* @ src/batteries/algo/parallel_merge.hpp 18-88 FirstPhase, SecondPhase, ThirdPhase *)
Inductive Phase : Type := FirstPhase | SecondPhase | ThirdPhase.

Section merge.
Context {A : Type} (compare : A -> A -> bool).

(** [std::merge]: an element of the second range goes first only if it is
    less than the element of the first range. *)
Fixpoint merge (xs : list A) : list A -> list A :=
  fix merge_ys (ys : list A) : list A :=
    match xs, ys with
    | [], _ => ys
    | _, [] => xs
    | x :: xs', y :: ys' => if compare y x then y :: merge_ys ys' else x :: merge xs' ys
    end.

(** [std::lower_bound], as an offset. *)
Fixpoint lower_bound (xs : list A) (v : A) : nat :=
  match xs with
  | [] => O
  | x :: xs' => if compare x v then S (lower_bound xs' v) else O
  end.

(* @ src/batteries/algo/parallel_merge.hpp 31-40 FirstPhase::fixed_iter *)
Definition fixed_iter (phase : Phase) (src_0 src_1 : list A) : list A :=
  match phase with FirstPhase => src_0 | _ => src_1 end.

(* @ src/batteries/algo/parallel_merge.hpp 61-70 SecondPhase::search_iter *)
Definition search_iter (phase : Phase) (src_0 src_1 : list A) : list A :=
  match phase with FirstPhase => src_1 | _ => src_0 end.

(* @ src/batteries/algo/parallel_merge.hpp 41-50 FirstPhase::src_0_iter *)
Definition src_0_iter (phase : Phase) (fixed search : list A) : list A :=
  match phase with FirstPhase => fixed | _ => search end.

(* @ src/batteries/algo/parallel_merge.hpp 71-80 SecondPhase::src_1_iter *)
Definition src_1_iter (phase : Phase) (fixed search : list A) : list A :=
  match phase with FirstPhase => search | _ => fixed end.

(** How many more elements belong to the equivalence group of [back]. *)
(* @ src/batteries/algo/parallel_merge.hpp 195-200 parallel_merge_fanout *)
Fixpoint extend_shard (back : A) (rest : list A) : nat :=
  match rest with
  | [] => O
  | x :: rest' => if compare back x then O else S (extend_shard x rest')
  end.

(* @ src/batteries/algo/parallel_merge.hpp 175-178 parallel_merge_fanout *)
Definition target_size (min_task_size max_tasks fixed_part_size : Z) : outcome Z :=
  let max_tasks_per_phase := u64 (max_tasks + 1) / 2 in
  check (negb (max_tasks_per_phase =? 0));;
  mret (i64 (Z.max (u64 (fixed_part_size + max_tasks_per_phase - 1) / max_tasks_per_phase)
                   (u64 (min_task_size + 1) / 2))).

(** [next] is the next phase; [offset] is the distance of the shard from
    [fixed_begin], [part] the elements from there on. *)
(* @ src/batteries/algo/parallel_merge.hpp 180-257 parallel_merge_fanout *)
Fixpoint fanout_loop (fuel : nat) (next : list A -> list A -> nat -> outcome (list (write A)))
    (phase : Phase) (target : Z) (search : list A) (offset : nat) (part : list A) (dst_begin : nat)
    : outcome (list (write A)) :=
  match part, fuel with
  | [], _ => mret []
  | _, O => Panic
  | shard_begin :: _, S fuel' =>
      let shard_size := Z.min target (Z.of_nat (length part)) in
      check (0 <? shard_size);;
      let initial := Z.to_nat shard_size in
      match part !! (initial - 1)%nat with
      | None => Panic
      | Some back =>
          let size := (initial + extend_shard back (drop initial part))%nat in
          let rest := drop size part in
          let is_first := (offset =? 0)%nat in
          let search_begin := if is_first then O else lower_bound search shard_begin in
          search_end ←
            match rest with
            | [] => mret (length search)
            | shard_end :: _ =>
                check (search_begin <=? length search)%nat;;
                mret (search_begin + lower_bound (drop search_begin search) shard_end)%nat
            end;
          check (search_begin <=? search_end)%nat;;
          let fixed_shard := take size part in
          let search_shard := take (search_end - search_begin) (drop search_begin search) in
          ws ← next (src_0_iter phase fixed_shard search_shard)
                    (src_1_iter phase fixed_shard search_shard) (dst_begin + search_begin)%nat;
          others ← fanout_loop fuel' next phase target search (offset + size) rest (dst_begin + size);
          mret (ws ++ others)
      end
  end.

(* @ src/batteries/algo/parallel_merge.hpp 164-258 parallel_merge_fanout *)
Definition parallel_merge_fanout (next : list A -> list A -> nat -> outcome (list (write A)))
    (phase : Phase) (min_task_size max_tasks : Z) (fixed search : list A) (dst_begin : nat)
    : outcome (list (write A)) :=
  target ← target_size min_task_size max_tasks (Z.of_nat (length fixed));
  fanout_loop (length fixed) next phase target search 0 fixed dst_begin.

(* @ src/batteries/algo/parallel_merge.hpp 107-160 parallel_merge_impl *)
Definition merge_impl (next : list A -> list A -> nat -> outcome (list (write A)))
    (phase : Phase) (min_task_size max_tasks : Z) (src_0 src_1 : list A) (dst_begin : nat)
    : outcome (list (write A)) :=
  match src_0, src_1 with
  | [], _ => parallel_copy (mkParams 0 1) src_1 dst_begin
  | _, [] => parallel_copy (mkParams 0 1) src_0 dst_begin
  | _, _ =>
      if (match phase with ThirdPhase => true | _ => false end)
         || (Z.of_nat (length src_0) + Z.of_nat (length src_1) <=? i64 min_task_size)
      then mret (writes_at dst_begin (merge src_0 src_1))
      else parallel_merge_fanout next phase min_task_size max_tasks
             (fixed_iter phase src_0 src_1) (search_iter phase src_0 src_1) dst_begin
  end.

(** [Phase::NextPhase]; the third phase never reaches the next one. *)
(* @ src/batteries/algo/parallel_merge.hpp 238-245 parallel_merge_impl *)
Definition parallel_merge_impl (phase : Phase) (min_task_size max_tasks : Z)
    : list A -> list A -> nat -> outcome (list (write A)) :=
  let third := merge_impl (fun _ _ _ => Panic) ThirdPhase min_task_size max_tasks in
  let second := merge_impl third SecondPhase min_task_size max_tasks in
  match phase with
  | ThirdPhase => third
  | SecondPhase => second
  | FirstPhase => merge_impl second FirstPhase min_task_size max_tasks
  end.

(* @ src/batteries/algo/parallel_merge.hpp 264-304 parallel_merge *)
Definition parallel_merge (src_0 src_1 : list A) (dst_begin : nat) (min_task_size max_tasks : Z)
    : outcome (list (write A)) :=
  parallel_merge_impl FirstPhase min_task_size max_tasks src_0 src_1 dst_begin.
End merge.

(** ** Order *)

Class StrictWeakOrder {A} (compare : A -> A -> bool) : Prop := {
  compare_irrefl : forall x, compare x x = false;
  compare_trans : forall x y z, compare x y = true -> compare y z = true -> compare x z = true;
  compare_weak : forall x y z, compare x y = false -> compare y z = false -> compare x z = false }.

Section correct.
Context {A : Type} (compare : A -> A -> bool) `{!StrictWeakOrder compare}.

Local Abbreviation merge := (merge compare).
Local Abbreviation lower_bound := (lower_bound compare).

Fixpoint sorted (xs : list A) : Prop :=
  match xs with
  | [] => True
  | x :: xs' => Forall (fun y => compare y x = false) xs' /\ sorted xs'
  end.

Lemma compare_asym (x y : A) : compare x y = true -> compare y x = false.
Proof.
  intros Hxy. destruct (compare y x) eqn:E; [|done].
  pose proof (compare_trans x y x Hxy E). by rewrite compare_irrefl in *.
Qed.

Lemma less_leq_less (x y z : A) : compare x y = true -> compare z y = false -> compare x z = true.
Proof.
  intros Hxy Hzy. destruct (compare x z) eqn:E; [done|].
  by rewrite (compare_weak x z y E Hzy) in Hxy.
Qed.

Lemma leq_less_less (x y z : A) : compare y x = false -> compare y z = true -> compare x z = true.
Proof.
  intros Hyx Hyz. destruct (compare x z) eqn:E; [done|].
  by rewrite (compare_weak y x z Hyx E) in Hyz.
Qed.

Lemma sorted_app (xs ys : list A) :
  sorted (xs ++ ys) <-> sorted xs /\ sorted ys /\ forall x y, x ∈ xs -> y ∈ ys -> compare y x = false.
Proof.
  induction xs as [|x xs IH]; simpl.
  - split; [|by intros (_ & ? & _)]. intros H. split_and!; [done|done|]. intros ? ? Hx. by apply elem_of_nil in Hx.
  - rewrite IH, Forall_app. split.
    + intros ([Hx Hy] & Hxs & Hys & Hxy). split_and!; [done|done|done|].
      intros x' y Hx' Hy'. apply elem_of_cons in Hx' as [->|Hx']; [|by apply Hxy].
      by apply (proj1 (list.Forall_forall _ _) Hy).
    + intros ([Hx Hxs] & Hys & Hxy). split_and!; [done| |done|done|].
      * apply list.Forall_forall. intros y Hy. apply Hxy; [by left|done].
      * intros x' y Hx' Hy'. apply Hxy; [by right|done].
Qed.

(** ** Merging in pieces *)

Lemma merge_nil_r (xs : list A) : merge xs [] = xs.
Proof. by destruct xs. Qed.

Lemma merge_nil_l (ys : list A) : merge [] ys = ys.
Proof. by destruct ys. Qed.

Lemma merge_app (a1 a2 b1 b2 : list A) :
  (forall a b, a ∈ a1 -> b ∈ b2 -> compare b a = false) ->
  (forall a b, a ∈ a2 -> b ∈ b1 -> compare b a = true) ->
  merge (a1 ++ a2) (b1 ++ b2) = merge a1 b1 ++ merge a2 b2.
Proof.
  revert b1. induction a1 as [|a a1 IHa].
  - intros b1 _ H2. rewrite merge_nil_l. simpl app. induction b1 as [|b b1 IHb]; [done|].
    destruct a2 as [|a' a2]; [by rewrite !merge_nil_l|].
    simpl. rewrite H2 by (by left). f_equal. apply IHb. intros x y Hx Hy. apply H2; [done|by right].
  - intros b1. induction b1 as [|b b1 IHb]; intros H1 H2.
    + rewrite merge_nil_r. destruct b2 as [|b' b2].
      * simpl app. by rewrite !merge_nil_r.
      * simpl. rewrite H1 by (by left). f_equal.
        change (b' :: b2) with ([] ++ b' :: b2). rewrite IHa.
        -- by rewrite merge_nil_r.
        -- intros x y Hx Hy. apply H1; [by right|done].
        -- intros x y _ Hy. by apply elem_of_nil in Hy.
    + simpl. destruct (compare b a) eqn:E.
      * simpl. f_equal. apply IHb; [done|]. intros x y Hx Hy. apply H2; [done|by right].
      * simpl. f_equal. apply (IHa (b :: b1)); [|done]. intros x y Hx Hy. apply H1; [by right|done].
Qed.

Lemma merge_perm (xs ys : list A) : Permutation (merge xs ys) (xs ++ ys).
Proof.
  revert ys. induction xs as [|x xs IHx]; [intros ys; by rewrite merge_nil_l|].
  induction ys as [|y ys IHy]; [by rewrite merge_nil_r, app_nil_r|].
  simpl. destruct (compare y x).
  - rewrite IHy. by rewrite Permutation_middle.
  - by rewrite IHx.
Qed.

Lemma merge_length (xs ys : list A) : length (merge xs ys) = (length xs + length ys)%nat.
Proof. by rewrite merge_perm, length_app. Qed.

(** ** Splitting at a bound *)

Lemma lower_bound_le (xs : list A) (v : A) : (lower_bound xs v <= length xs)%nat.
Proof. induction xs as [|x xs IH]; simpl; [lia|]. destruct (compare x v); lia. Qed.

Lemma lower_bound_before (xs : list A) (v x : A) :
  x ∈ take (lower_bound xs v) xs -> compare x v = true.
Proof.
  induction xs as [|y xs IH]; simpl; [by intros ?%elem_of_nil|].
  destruct (compare y v) eqn:E; simpl; [|by intros ?%elem_of_nil].
  intros [->|Hx]%elem_of_cons; [done|by apply IH].
Qed.

Lemma lower_bound_after (xs : list A) (v x : A) :
  sorted xs -> x ∈ drop (lower_bound xs v) xs -> compare x v = false.
Proof.
  induction xs as [|y xs IH]; simpl; [by intros _ ?%elem_of_nil|].
  intros [Hy Hs]. destruct (compare y v) eqn:E; simpl; [by apply IH|].
  intros [->|Hx]%elem_of_cons; [done|].
  apply (compare_weak x y v); [|done]. by apply (proj1 (list.Forall_forall _ _) Hy).
Qed.

(** The bound found from an earlier bound on. *)
Lemma lower_bound_drop (xs : list A) (k : nat) (v : A) :
  (forall x, x ∈ take k xs -> compare x v = true) -> (k <= length xs)%nat ->
  lower_bound xs v = (k + lower_bound (drop k xs) v)%nat.
Proof.
  revert k. induction xs as [|x xs IH]; intros [|k] H Hk; simpl in *; [done|lia|done|].
  rewrite H by (by left). f_equal. apply IH; [|lia]. intros y Hy. apply H. by right.
Qed.

Lemma extend_shard_le (back : A) (rest : list A) : (extend_shard compare back rest <= length rest)%nat.
Proof.
  revert back. induction rest as [|x rest IH]; intros back; simpl; [lia|].
  destruct (compare back x); [lia|]. specialize (IH x). lia.
Qed.

(** After the extension the shard ends at the end of an equivalence group. *)
Lemma extend_shard_strict (pre rest : list A) (back e : A) (tl : list A) :
  sorted (pre ++ back :: rest) ->
  drop (extend_shard compare back rest) rest = e :: tl ->
  forall x, x ∈ pre ++ back :: take (extend_shard compare back rest) rest -> compare x e = true.
Proof.
  revert pre back. induction rest as [|y rest IH]; intros pre back Hs Hd x Hx; [done|].
  simpl in Hd, Hx. destruct (compare back y) eqn:E.
  - simpl in Hd, Hx. injection Hd as -> ->.
    apply sorted_app in Hs as (_ & _ & Hle).
    apply elem_of_app in Hx as [Hx|Hx].
    + apply (leq_less_less x back e); [|done]. apply Hle; [done|by left].
    + apply elem_of_cons in Hx as [->|Hx]; [done|by apply elem_of_nil in Hx].
  - simpl in Hd, Hx. apply (IH (pre ++ [back]) y); [by rewrite <- app_assoc|done|].
    by rewrite <- app_assoc.
Qed.
(** ** Shards *)

(** The shard that a round of the fan-out loop cuts from [part]. *)
Lemma shard_spec (part : list A) (initial : nat) :
  sorted part -> (0 < initial <= length part)%nat ->
  exists back, part !! (initial - 1)%nat = Some back /\
    let size := (initial + extend_shard compare back (drop initial part))%nat in
    (0 < size <= length part)%nat /\
    forall e tl, drop size part = e :: tl -> forall x, x ∈ take size part -> compare x e = true.
Proof.
  intros Hs Hi. destruct (lookup_lt_is_Some_2 part (initial - 1)) as [back Hback]; [lia|].
  exists back. split; [done|]. cbv zeta.
  pose proof (extend_shard_le back (drop initial part)) as Hle. rewrite length_drop in Hle.
  split; [lia|]. intros e tl Hd x Hx.
  assert (part = take (initial - 1) part ++ back :: drop initial part) as Hpart.
  { rewrite <- (take_drop_middle part (initial - 1) back) at 1 by done.
    by replace (S (initial - 1)) with initial by lia. }
  rewrite <- drop_drop in Hd. apply (extend_shard_strict (take (initial - 1) part) (drop initial part) back e tl).
  - by rewrite <- Hpart.
  - done.
  - rewrite <- take_take_drop in Hx.
    replace initial with (S (initial - 1)) in Hx at 1 by lia.
    rewrite (take_S_r _ _ back), <- app_assoc in Hx by done. exact Hx.
Qed.

Lemma sorted_split (xs : list A) (n : nat) :
  sorted xs -> sorted (take n xs) /\ sorted (drop n xs) /\
  forall x y, x ∈ take n xs -> y ∈ drop n xs -> compare y x = false.
Proof. intros H. rewrite <- (take_drop n xs) in H. by apply sorted_app in H. Qed.

Lemma sorted_head_le (e : A) (tl : list A) (x : A) : sorted (e :: tl) -> x ∈ e :: tl -> compare x e = false.
Proof.
  intros [He _] [->|Hx]%elem_of_cons; [apply compare_irrefl|]. by apply (proj1 (list.Forall_forall _ _) He).
Qed.

(** Cutting both ranges at the first element [e] of the rest of the fixed
    range splits the merge, in either phase. *)
Lemma merge_split (phase : Phase) (shard rest found later : list A) (e : A) (tl : list A) :
  rest = e :: tl -> sorted (shard ++ rest) ->
  (forall x, x ∈ shard -> compare x e = true) ->
  (forall x, x ∈ found -> compare x e = true) -> (forall x, x ∈ later -> compare x e = false) ->
  merge (src_0_iter phase (shard ++ rest) (found ++ later)) (src_1_iter phase (shard ++ rest) (found ++ later))
  = merge (src_0_iter phase shard found) (src_1_iter phase shard found)
    ++ merge (src_0_iter phase rest later) (src_1_iter phase rest later).
Proof.
  intros -> Hs Hstrict Hfound Hlater. apply sorted_app in Hs as (_ & Hrest & _).
  pose proof (fun x => sorted_head_le e tl x Hrest) as Hhead.
  destruct phase; simpl; apply merge_app; intros a b Ha Hb.
  all: first
    [ apply (less_leq_less b e a); by auto
    | apply (compare_asym a b), (less_leq_less a e b); by auto ].
Qed.

Definition merges (bound : nat) (next : list A -> list A -> nat -> outcome (list (write A))) : Prop :=
  forall xs ys d, sorted xs -> sorted ys -> (length xs + length ys <= bound)%nat ->
    next xs ys d = Done (writes_at d (merge xs ys)).

(** The loop, from a point where [k] elements of the searched range belong
    to earlier shards. *)
Lemma fanout_loop_merge (bound fuel : nat) next (phase : Phase) (target : Z) (search : list A)
    (offset k : nat) (part : list A) (dst : nat) :
  merges bound next -> 0 < target -> sorted search -> sorted part ->
  (length part <= fuel)%nat -> (length part + length search <= bound)%nat -> (k <= length search)%nat ->
  (offset = 0%nat -> k = 0%nat) ->
  (offset <> 0%nat -> forall h tl, part = h :: tl -> lower_bound search h = k) ->
  (part = [] -> k = length search) ->
  fanout_loop compare fuel next phase target search offset part dst
  = Done (writes_at (dst + k) (merge (src_0_iter phase part (drop k search)) (src_1_iter phase part (drop k search)))).
Proof.
  intros Hnext Ht Hsearch. revert offset k part dst.
  induction fuel as [|fuel IH]; intros offset k part dst Hpart Hfuel Hbound Hk Hk0 Hkn Hend;
    (destruct part as [|h tl];
      [rewrite (Hend eq_refl), drop_all; first [by destruct phase | by destruct fuel, phase]|]); [simpl in Hfuel; lia|].
  cbn [fanout_loop]. set (part := h :: tl) in *. assert (0 < length part)%nat as Hlen by (simpl; lia).
  rewrite (proj2 (Z.ltb_lt 0 _)) by lia. cbn [check mbind outcome_bind].
  set (initial := Z.to_nat (Z.min target (Z.of_nat (length part)))).
  destruct (shard_spec part initial Hpart ltac:(unfold initial; lia)) as (back & -> & Hsize & Hstrict).
  set (size := (initial + extend_shard compare back (drop initial part))%nat) in *.
  cbv zeta.
  assert ((if (offset =? 0)%nat then O else lower_bound search h) = k) as ->.
  { case_if; [by rewrite Hk0|by apply (Hkn ltac:(done) h tl)]. }
  destruct (sorted_split part size Hpart) as (Hs1 & Hs2 & Hs12).
  destruct (sorted_split search k Hsearch) as (_ & Hsk & _).
  pose proof (take_drop size part) as Hsplit.
  destruct (drop size part) as [|e tl'] eqn:Hrest.
  - cbn [mbind outcome_bind]. unfold mret, outcome_ret. cbn [mbind outcome_bind].
    rewrite (proj2 (Nat.leb_le _ _)) by done. cbn [check mbind outcome_bind].
    rewrite app_nil_r in Hsplit. rewrite Hsplit, (take_ge (drop k search)) by (rewrite length_drop; lia).
    rewrite Hnext; [|destruct phase; assumption..|destruct phase; cbn [src_0_iter src_1_iter]; rewrite length_drop; lia].
    cbn [mbind outcome_bind]. destruct fuel; cbn; by rewrite app_nil_r.
  - rewrite (proj2 (Nat.leb_le k _)) by done. cbn [check mbind outcome_bind].
    unfold mret, outcome_ret. cbn [mbind outcome_bind].
    set (j := lower_bound (drop k search) e).
    pose proof (lower_bound_le (drop k search) e) as Hj. fold j in Hj. rewrite length_drop in Hj.
    rewrite (proj2 (Nat.leb_le k (k + j))) by lia. cbn [check mbind outcome_bind].
    replace (k + j - k)%nat with j by lia.
    destruct (sorted_split (drop k search) j Hsk) as (Hf1 & Hf2 & _).
    assert (length (take size part) = size) as Hl1 by (rewrite length_take; lia).
    assert (length (take j (drop k search)) = j) as Hl2 by (rewrite length_take, length_drop; lia).
    rewrite Hnext; [|destruct phase; assumption..|destruct phase; cbn [src_0_iter src_1_iter]; lia].
    cbn [mbind outcome_bind]. rewrite drop_drop in Hf2.
    assert (length part = (size + length (e :: tl'))%nat) as Hlp by (rewrite <- Hsplit, length_app; lia).
    rewrite (IH (offset + size)%nat (k + j)%nat (e :: tl')); [|done|simpl in *; lia|lia|lia|lia| |done].
    2: { intros _ h' tl'' [= <- <-]. rewrite (lower_bound_drop search k e); [done| |done].
         intros x Hx. destruct (decide (offset = 0%nat)) as [E|E].
         - rewrite (Hk0 E) in Hx. by apply elem_of_nil in Hx.
         - rewrite <- (Hkn E h tl eq_refl) in Hx. apply lower_bound_before in Hx.
           apply (less_leq_less x h e); [done|]. apply Hs12; [|by left].
           unfold part. destruct size; [lia|]. by left. }
    cbn [mbind outcome_bind]. f_equal.
    rewrite <- Hsplit at 3 4. rewrite <- (take_drop j (drop k search)) at 3 4.
    rewrite drop_drop.
    rewrite (merge_split phase _ (e :: tl') _ _ e tl'); [|done|by rewrite Hsplit| | |].
    + rewrite writes_at_app. f_equal. f_equal. rewrite merge_length. destruct phase; simpl; lia.
    + intros x Hx. by apply (Hstrict e tl' eq_refl).
    + intros x Hx. by apply lower_bound_before in Hx.
    + intros x Hx. rewrite <- drop_drop in Hx. by apply lower_bound_after in Hx.
Qed.
(** ** The whole merge *)

(** Sizes for which the task size is computed without wrapping. *)
Definition merge_fits (min_task_size max_tasks : Z) : Prop :=
  0 <= min_task_size < 2 ^ 63 /\ 0 < max_tasks < u64_max.

Lemma target_size_done (min_task_size max_tasks n : Z) :
  merge_fits min_task_size max_tasks -> 0 < n < 2 ^ 62 ->
  exists target, target_size min_task_size max_tasks n = Done target /\ 0 < target.
Proof.
  unfold merge_fits, u64_max. intros [Hm Ht] Hn. unfold target_size.
  rewrite (uwrap_small 64 (max_tasks + 1)) by lia.
  set (p := (max_tasks + 1) / 2).
  assert (0 < p <= 2 ^ 63) as Hp.
  { unfold p. split; [apply Z.div_str_pos; lia|]. apply Z.div_le_upper_bound; lia. }
  rewrite (proj2 (Z.eqb_neq p 0)) by lia. simpl. rewrite !uwrap_small by lia.
  assert (0 < (n + p - 1) / p <= n) as Hq.
  { split; [apply Z.div_str_pos; lia|]. apply Z.div_le_upper_bound; nia. }
  assert (0 <= (min_task_size + 1) / 2 < 2 ^ 63) as Hr.
  { split; [apply Z.div_pos; lia|apply Z.div_lt_upper_bound; lia]. }
  eexists. split; [reflexivity|]. unfold swrap. rewrite Z.mod_small by lia. lia.
Qed.

Lemma merge_impl_merges (bound : nat) next (phase : Phase) (min_task_size max_tasks : Z) :
  merge_fits min_task_size max_tasks -> Z.of_nat bound < 2 ^ 62 ->
  (phase = ThirdPhase \/ merges bound next) ->
  merges bound (merge_impl compare next phase min_task_size max_tasks).
Proof.
  intros Hfit Hb Hnext xs ys d Hxs Hys Hlen.
  unfold merge_impl. destruct xs as [|x xs]; [by rewrite merge_nil_l|].
  destruct ys as [|y ys]; [by rewrite merge_nil_r|].
  destruct (_ || _) eqn:E; [done|]. apply orb_false_iff in E as [E _].
  assert (merges bound next) as Hm by (destruct Hnext as [->|]; done).
  unfold parallel_merge_fanout.
  assert (length (fixed_iter phase (x :: xs) (y :: ys)) + length (search_iter phase (x :: xs) (y :: ys))
    = length (x :: xs) + length (y :: ys))%nat as Hl by (destruct phase; cbn [fixed_iter search_iter]; lia).
  assert (0 < length (fixed_iter phase (x :: xs) (y :: ys)))%nat as Hpos by (destruct phase; simpl; lia).
  destruct (target_size_done min_task_size max_tasks (Z.of_nat (length (fixed_iter phase (x :: xs) (y :: ys)))))
    as (target & -> & Ht); [done|lia|].
  cbn [mbind outcome_bind].
  rewrite (fanout_loop_merge bound _ next phase target _ 0 0);
    [|done|done|by destruct phase|by destruct phase|done|lia|lia|done|done|
      intros E'; rewrite E' in Hpos; simpl in Hpos; lia].
  rewrite Nat.add_0_r, drop_0. by destruct phase.
Qed.

Lemma parallel_merge_writes (xs ys : list A) (d : nat) (min_task_size max_tasks : Z) :
  merge_fits min_task_size max_tasks -> sorted xs -> sorted ys ->
  Z.of_nat (length xs + length ys) < 2 ^ 62 ->
  parallel_merge compare xs ys d min_task_size max_tasks = Done (writes_at d (merge xs ys)).
Proof.
  intros Hfit Hxs Hys Hlen. unfold parallel_merge, parallel_merge_impl.
  apply (merge_impl_merges (length xs + length ys)); [done|done| |done|done|done].
  right. apply merge_impl_merges; [done|done|].
  right. apply merge_impl_merges; [done|done|by left].
Qed.


(** [max_tasks] defaults to [hardware_concurrency() / 2], which is zero on a
    machine with one hardware thread: the number of tasks per phase is then
    zero and the fan-out divides by it. *)
Lemma parallel_merge_no_tasks (x y : A) (xs ys : list A) (d : nat) (min_task_size : Z) :
  0 <= min_task_size < 2 ^ 63 -> min_task_size < 2 + Z.of_nat (length xs) + Z.of_nat (length ys) ->
  parallel_merge compare (x :: xs) (y :: ys) d min_task_size 0 = Panic.
Proof.
  intros Hm Hlt. unfold parallel_merge, parallel_merge_impl, merge_impl at 1.
  unfold swrap. rewrite Z.mod_small by lia. rewrite (proj2 (Z.leb_gt _ _)) by (simpl length; lia). done.
Qed.
End correct.

#[export] Instance Z_ltb_order : StrictWeakOrder Z.ltb.
Proof. split; intros *; rewrite ?Z.ltb_irrefl, ?Z.ltb_lt, ?Z.ltb_ge; lia. Qed.

