(* ===== verification/Watch.v ===== *)
(** * WatchAtomic: a value that can be awaited

    [async/watch_decl.hpp], class [WatchAtomic], for [T = u64].  Every atomic
    access to [value_] or [spin_state_] is one step of a thread; the observer
    list is touched only by the holder of the spin lock.  A state is the
    shared memory, the program counters of the threads and the log of the
    handlers that have been invoked; a schedule says which thread takes the
    next step, so every interleaving is covered.  The memory order is the
    default one of [std::atomic], sequential consistency. *)

From S2P Require Import Prelude Status.
Open Scope Z_scope.

(* @ src/batteries/async/watch_decl.hpp 277-279 WatchAtomic::kLocked *)
Definition kLocked : Z := 1.
(* @ src/batteries/async/watch_decl.hpp 281-283 WatchAtomic::kOpen *)
Definition kOpen : Z := 2.
(* @ src/batteries/async/watch_decl.hpp 285-288 WatchAtomic::kWaiting *)
Definition kWaiting : Z := 4.
(* @ src/batteries/async/watch_decl.hpp 290-292 WatchAtomic::kClosedAtEnd *)
Definition kClosedAtEnd : Z := 8.
(* @ src/batteries/async/watch_decl.hpp 294-296 WatchAtomic::kClosedBeforeEnd *)
Definition kClosedBeforeEnd : Z := 16.

(** A registered handler: its identity, and the [last_seen] value its caller
    passed (the code does not store it; it is kept to state properties). *)
Record Observer : Type := mkObserver { handler : nat; seen : Z }.

(* @ src/batteries/async/watch_decl.hpp 751-753 WatchAtomic *)
Record Memory : Type := mkMemory {
  value_ : Z;
  spin_state_ : Z;
  observers_ : list Observer }.

(** The read-modify-write operations on [value_]. *)
Inductive RmwOp : Type := Exchange (v : Z) | FetchAdd (v : Z) | FetchSub (v : Z) | FetchOr (v : Z) | FetchAnd (v : Z).

(* @ src/batteries/async/watch_decl.hpp 385-453 WatchAtomic::set_value, fetch_add, fetch_or, fetch_sub, fetch_and *)
Definition rmw (op : RmwOp) (old_value : Z) : Z :=
  match op with
  | Exchange v => v
  | FetchAdd v => u64 (old_value + v)
  | FetchSub v => u64 (old_value - v)
  | FetchOr v => Z.lor old_value v
  | FetchAnd v => Z.land old_value v
  end.

(* @ src/batteries/async/watch_decl.hpp 682-698 WatchAtomic::get_final_status *)
Definition final_status (spin : Z) : StatusCode :=
  let s := Z.land spin (Z.lor kClosedAtEnd kClosedBeforeEnd) in
  if s =? kClosedBeforeEnd then kClosedBeforeEndOfStream
  else if s =? kClosedAtEnd then kEndOfStream
  else kClosed.

(* @ src/batteries/async/watch_decl.hpp 340-365 WatchAtomic::close *)
Definition close_state (prior : Z) (final_status_code : StatusCode) : Z :=
  Z.lor (Z.ldiff prior (Z.lor kOpen kWaiting))
    (if negb (Z.land prior kOpen =? kOpen) then 0
     else match final_status_code with
          | kEndOfStream => kClosedAtEnd
          | kClosedBeforeEndOfStream => kClosedBeforeEnd
          | _ => 0
          end).

(** Where a thread is in its operation. *)
Inductive Pc : Type :=
| Rmw (op : RmwOp)                                             (* set_value, fetch_* *)
| ModLoad (fn : Z -> option Z)                                 (* modify, modify_if *)
| ModCas (fn : Z -> option Z) (old : Z) (changed : bool)
| NotifyLoad (ret v : Z)                                       (* notify *)
| NotifyLock (ret v : Z)
| NotifyTake (ret v prior : Z)
| NotifyUnlock (ret v prior : Z) (obs : list Observer)
| Invoke (ret : option Z) (obs : list Observer) (r : StatusOr Z)
| CloseLock (code : StatusCode)                                (* close *)
| CloseTake (code : StatusCode) (prior : Z)
| CloseUnlock (desired : Z) (obs : list Observer)
| CloseStatus (obs : list Observer)
| Wait (o : Observer)                                          (* async_wait *)
| WaitLock (o : Observer)
| WaitClosed (o : Observer) (prior : Z)
| WaitStatus (o : Observer)
| WaitCheck (o : Observer) (prior : Z)
| WaitPush (o : Observer) (prior : Z)
| WaitUnlock (prior : Z) (now : option (Observer * Z))
| Finished (ret : option Z).

(* @ src/batteries/async/watch_decl.hpp 700-709 WatchAtomic::lock_observers *)
Definition lock_observers (m : Memory) (next : Z -> Pc) (retry : Pc) : Memory * Pc :=
  let prior := spin_state_ m in
  let m' := mkMemory (value_ m) (Z.lor prior kLocked) (observers_ m) in
  if Z.land prior kLocked =? 0 then (m', next prior) else (m', retry).

(* @ src/batteries/async/watch_decl.hpp 711-714 WatchAtomic::unlock_observers *)
Definition unlock_observers (m : Memory) (desired : Z) : Memory :=
  mkMemory (value_ m) (Z.ldiff desired kLocked) (observers_ m).

Definition set_mem (m : Memory) (v : Z) : Memory := mkMemory v (spin_state_ m) (observers_ m).

Definition no_observers (m : Memory) : Memory := mkMemory (value_ m) (spin_state_ m) [].

(** One atomic step: the new memory, the new program counter and the
    handlers invoked.  [spurious]: a weak compare-exchange may fail although
    the value is the expected one. *)
(* @ src/batteries/async/watch_decl.hpp 466-749 WatchAtomic::modify, modify_if, async_wait, notify, close *)
Definition thread_step (spurious : bool) (m : Memory) (pc : Pc) : Memory * Pc * list (nat * StatusOr Z) :=
  match pc with
  | Rmw op =>
      let old_value := value_ m in
      let new_value := rmw op old_value in
      (set_mem m new_value,
       if old_value =? new_value then Finished (Some old_value) else NotifyLoad old_value new_value, [])
  | ModLoad fn => (m, ModCas fn (value_ m) false, [])
  | ModCas fn old changed =>
      match fn old with
      | None => (m, Finished None, [])
      | Some modified =>
          let changed := changed || negb (modified =? old) in
          if spurious || negb (value_ m =? old) then (m, ModCas fn (value_ m) changed, [])
          else (set_mem m modified,
                if changed then NotifyLoad old modified else Finished (Some old), [])
      end
  | NotifyLoad ret v =>
      (m, if Z.land (spin_state_ m) (Z.lor kLocked kWaiting) =? 0 then Finished (Some ret)
          else NotifyLock ret v, [])
  | NotifyLock ret v => (lock_observers m (NotifyTake ret v) pc, [])
  | NotifyTake ret v prior => (no_observers m, NotifyUnlock ret v prior (observers_ m), [])
  | NotifyUnlock ret v prior obs =>
      (unlock_observers m (Z.ldiff prior kWaiting), Invoke (Some ret) obs (OkVal v), [])
  | Invoke ret obs r =>
      match obs with
      | [] => (m, Finished ret, [])
      | o :: obs' => (m, Invoke ret obs' r, [(handler o, r)])
      end
  | CloseLock code => (lock_observers m (CloseTake code) pc, [])
  | CloseTake code prior => (no_observers m, CloseUnlock (close_state prior code) (observers_ m), [])
  | CloseUnlock desired obs => (unlock_observers m desired, CloseStatus obs, [])
  | CloseStatus obs => (m, Invoke None obs (Err (final_status (spin_state_ m))), [])
  | Wait o =>
      let now_seen := value_ m in
      (m, if now_seen =? seen o then WaitLock o else Invoke None [o] (OkVal now_seen), [])
  | WaitLock o =>
      (lock_observers m (fun prior => if Z.land prior kOpen =? 0 then WaitClosed o prior
                                      else WaitCheck o prior) pc, [])
  | WaitClosed o prior => (unlock_observers m prior, WaitStatus o, [])
  | WaitStatus o => (m, Invoke None [o] (Err (final_status (spin_state_ m))), [])
  | WaitCheck o prior =>
      let now_seen := value_ m in
      (m, if now_seen =? seen o then WaitPush o prior else WaitUnlock prior (Some (o, now_seen)), [])
  | WaitPush o prior =>
      (mkMemory (value_ m) (spin_state_ m) (observers_ m ++ [o]), WaitUnlock (Z.lor prior kWaiting) None, [])
  | WaitUnlock prior now =>
      (unlock_observers m prior,
       match now with Some (o, v) => Invoke None [o] (OkVal v) | None => Finished None end, [])
  | Finished ret => (m, pc, [])
  end.

Record State : Type := mkState {
  mem : Memory;
  threads : list Pc;
  log : list (nat * StatusOr Z) }.

(** One step of thread [i]. *)
Definition step (i : nat) (spurious : bool) (st : State) : State :=
  match threads st !! i with
  | Some pc =>
      let '(m, pc', ev) := thread_step spurious (mem st) pc in
      mkState m (<[i := pc']> (threads st)) (log st ++ ev)
  | None => st
  end.

Definition run (schedule : list (nat * bool)) (st : State) : State :=
  foldl (fun st ib => step ib.1 ib.2 st) st schedule.

(** The operations a thread can start with. *)
Definition is_start (pc : Pc) : bool :=
  match pc with Rmw _ | ModLoad _ | CloseLock _ | Wait _ => true | _ => false end.

(* @ src/batteries/async/watch_decl.hpp 308-317 WatchAtomic::WatchAtomic *)
Definition initial_state (init_value : Z) (ops : list Pc) : State :=
  mkState (mkMemory init_value kOpen []) ops [].

Definition is_finished (pc : Pc) : bool := match pc with Finished _ => true | _ => false end.

Definition quiescent (st : State) : Prop := Forall (fun pc => is_finished pc = true) (threads st).

Definition is_open (m : Memory) : bool := negb (Z.land (spin_state_ m) kOpen =? 0).

(** ** Bits of the spin state *)

#[local] Arguments Z.testbit : simpl never.

Lemma land_locked (s : Z) : (Z.land s kLocked =? 0) = negb (Z.testbit s 0).
Proof. by apply (land_bit s 0). Qed.

Lemma land_open (s : Z) : (Z.land s kOpen =? 0) = negb (Z.testbit s 1).
Proof. by apply (land_bit s 1). Qed.

Lemma land_locked_waiting (s : Z) :
  (Z.land s (Z.lor kLocked kWaiting) =? 0) = negb (Z.testbit s 0) && negb (Z.testbit s 2).
Proof.
  rewrite Z.land_lor_distr_r, <- land_locked, <- (land_bit s 2) by done. change (2 ^ 2) with kWaiting.
  destruct (Z.land s kLocked =? 0) eqn:E1, (Z.land s kWaiting =? 0) eqn:E2; simpl; bool_cases.
  - by rewrite E1, E2.
  - rewrite E1, Z.lor_0_l. by apply Z.eqb_neq.
  - apply Z.eqb_neq. intros [H _]%Z.lor_eq_0_iff. done.
  - apply Z.eqb_neq. intros [H _]%Z.lor_eq_0_iff. done.
Qed.

Lemma bit_locked (s : Z) : Z.testbit (Z.lor s kLocked) 0 = true.
Proof. rewrite Z.lor_spec. apply orb_true_r. Qed.

Lemma bit_unlocked (s : Z) : Z.testbit (Z.ldiff s kLocked) 0 = false.
Proof. rewrite Z.ldiff_spec. apply andb_false_r. Qed.

Lemma bit_ldiff_locked (s k : Z) : 0 < k -> Z.testbit (Z.ldiff s kLocked) k = Z.testbit s k.
Proof.
  intros Hk. rewrite Z.ldiff_spec. change kLocked with (2 ^ 0).
  rewrite Z.pow2_bits_false by lia. apply andb_true_r.
Qed.

(** ** The invariant *)

(** The thread holds the spin lock. *)
Definition holds (pc : Pc) : bool :=
  match pc with
  | NotifyTake _ _ _ | NotifyUnlock _ _ _ _ | CloseTake _ _ | CloseUnlock _ _
  | WaitClosed _ _ | WaitCheck _ _ | WaitPush _ _ | WaitUnlock _ _ => true
  | _ => false
  end.

(** The thread is about to wake the observers. *)
Definition pending (pc : Pc) : bool :=
  match pc with NotifyLoad _ _ | NotifyLock _ _ | NotifyTake _ _ _ => true | _ => false end.

(** A non-empty list is announced by [kWaiting], and the watch is open. *)
Definition announced (s : Z) (obs : list Observer) : Prop :=
  obs <> [] -> Z.testbit s 1 = true /\ Z.testbit s 2 = true.

(** What the holder of the lock is about to store is right for the list. *)
Definition holder_ok (obs : list Observer) (pc : Pc) : Prop :=
  match pc with
  | NotifyTake _ _ p | CloseTake _ p | WaitClosed _ p => announced p obs
  | NotifyUnlock _ _ _ _ | CloseUnlock _ _ => obs = []
  | WaitCheck _ p | WaitPush _ p | WaitUnlock p (Some _) => Z.testbit p 1 = true /\ announced p obs
  | WaitUnlock p None => Z.testbit p 1 = true /\ Z.testbit p 2 = true
  | _ => True
  end.

Record lock_inv (b : bool) (ts : list Pc) : Prop := {
  lock_held : forall i pc, ts !! i = Some pc -> holds pc = true -> b = true;
  lock_unique : forall i j pc pc', ts !! i = Some pc -> ts !! j = Some pc' ->
    holds pc = true -> holds pc' = true -> i = j;
  lock_holder : b = true -> exists i pc, ts !! i = Some pc /\ holds pc = true }.

Definition holder_inv (obs : list Observer) (ts : list Pc) : Prop :=
  forall i pc, ts !! i = Some pc -> holder_ok obs pc.

(** A registered observer, or one about to be, that has not seen the value
    will be woken by some thread. *)
Definition pending_inv (v : Z) (obs : list Observer) (ts : list Pc) : Prop :=
  forall o, (o ∈ obs \/ exists i p, ts !! i = Some (WaitPush o p)) -> seen o <> v ->
    exists j pc, ts !! j = Some pc /\ pending pc = true.

Record Inv (st : State) : Prop := {
  inv_lock : lock_inv (Z.testbit (spin_state_ (mem st)) 0) (threads st);
  inv_free : Z.testbit (spin_state_ (mem st)) 0 = false ->
    announced (spin_state_ (mem st)) (observers_ (mem st));
  inv_holder : holder_inv (observers_ (mem st)) (threads st);
  inv_pending : pending_inv (value_ (mem st)) (observers_ (mem st)) (threads st) }.

(** ** How a step of one thread changes each part *)

Section update.
Context (ts : list Pc) (i : nat) (pc pc' : Pc).
Hypothesis Hi : ts !! i = Some pc.

Lemma insert_cases (j : nat) (q : Pc) :
  <[i := pc']> ts !! j = Some q -> (j = i /\ q = pc') \/ (j <> i /\ ts !! j = Some q).
Proof using Hi.
  pose proof (lookup_lt_Some _ _ _ Hi) as Hlt. destruct (decide (j = i)) as [->|Hne].
  - rewrite list_lookup_insert_eq by done. intros [= <-]. by left.
  - rewrite list_lookup_insert_ne by done. by right.
Qed.

Lemma insert_here : <[i := pc']> ts !! i = Some pc'.
Proof using Hi. apply list_lookup_insert_eq. by apply lookup_lt_Some in Hi. Qed.

Lemma insert_other (j : nat) (q : Pc) : j <> i -> ts !! j = Some q -> <[i := pc']> ts !! j = Some q.
Proof. intros Hne Hq. by rewrite list_lookup_insert_ne. Qed.

Lemma lock_inv_same (b : bool) : holds pc' = holds pc -> lock_inv b ts -> lock_inv b (<[i := pc']> ts).
Proof using Hi.
  intros Hh [H1 H2 H3]. split.
  - intros j q [[-> ->]|[_ Hq]]%insert_cases Hq'; [|by apply (H1 j q)]. rewrite Hh in Hq'. by apply (H1 i pc).
  - intros j k q q' [[-> ->]|[Hj Hq]]%insert_cases [[-> ->]|[Hk Hq']]%insert_cases E E'; try done.
    + rewrite Hh in E. by apply (H2 i k pc q').
    + rewrite Hh in E'. by apply (H2 j i q pc).
    + by apply (H2 j k q q').
  - intros Hb. destruct (H3 Hb) as (j & q & Hq & E). destruct (decide (j = i)) as [->|Hne].
    + exists i, pc'. split; [apply insert_here|]. congruence.
    + exists j, q. split; [by apply insert_other|done].
Qed.

Lemma lock_inv_acquire : holds pc' = true -> lock_inv false ts -> lock_inv true (<[i := pc']> ts).
Proof using Hi.
  intros Hh [H1 _ _]. split; [done| |].
  - intros j k q q' [[-> ->]|[Hj Hq]]%insert_cases [[-> ->]|[Hk Hq']]%insert_cases E E'; try done.
    + by discriminate (H1 k q' Hq' E').
    + by discriminate (H1 j q Hq E).
    + by discriminate (H1 j q Hq E).
  - intros _. exists i, pc'. split; [apply insert_here|done].
Qed.

Lemma lock_inv_release (b : bool) :
  holds pc = true -> holds pc' = false -> lock_inv b ts -> lock_inv false (<[i := pc']> ts).
Proof using Hi.
  intros Hh Hh' [H1 H2 _]. split; [| |done].
  - intros j q [[-> ->]|[Hj Hq]]%insert_cases E; [congruence|]. by destruct (Hj (H2 j i q pc Hq Hi E Hh)).
  - intros j k q q' [[-> ->]|[Hj Hq]]%insert_cases [[-> ->]|[Hk Hq']]%insert_cases E E'; try congruence.
    by apply (H2 j k q q').
Qed.

(** No other thread holds the lock when it is free or held by thread [i]. *)
Lemma others_free (b : bool) (j : nat) (q : Pc) :
  lock_inv b ts -> b = false \/ holds pc = true -> j <> i -> ts !! j = Some q -> holds q = false.
Proof using Hi.
  intros [H1 H2 _] Hb Hj Hq. destruct (holds q) eqn:E; [|done].
  destruct Hb as [->|Hh]; [by discriminate (H1 j q Hq E)|]. by destruct (Hj (H2 j i q pc Hq Hi E Hh)).
Qed.

Lemma holder_inv_same (obs : list Observer) :
  holder_ok obs pc' -> holder_inv obs ts -> holder_inv obs (<[i := pc']> ts).
Proof using Hi. intros Hok H j q [[-> ->]|[_ Hq]]%insert_cases; [done|by apply (H j)]. Qed.

Lemma holder_ok_free (obs : list Observer) (q : Pc) : holds q = false -> holder_ok obs q.
Proof. by destruct q. Qed.

Lemma holder_inv_alone (b : bool) (obs obs' : list Observer) :
  lock_inv b ts -> b = false \/ holds pc = true -> holder_ok obs' pc' -> holder_inv obs' (<[i := pc']> ts).
Proof using Hi.
  intros Hl Hb Hok j q [[-> ->]|[Hj Hq]]%insert_cases; [done|].
  by apply holder_ok_free, (others_free b j).
Qed.

Lemma pending_inv_same (v : Z) (obs : list Observer) :
  (pending pc = true -> pending pc' = true) -> (forall o p, pc' = WaitPush o p -> seen o = v) ->
  pending_inv v obs ts -> pending_inv v obs (<[i := pc']> ts).
Proof using Hi.
  intros Hp Hw H o Ho Hv.
  assert (o ∈ obs \/ exists j p, ts !! j = Some (WaitPush o p)) as Ho'.
  { destruct Ho as [Ho|(j & p & [[-> E]|[_ Hq]]%insert_cases)]; [by left| |by right; exists j, p].
    by destruct (Hv (Hw o p (eq_sym E))). }
  destruct (H o Ho' Hv) as (j & q & Hq & E). destruct (decide (j = i)) as [->|Hne].
  - exists i, pc'. split; [apply insert_here|]. apply Hp. congruence.
  - exists j, q. split; [by apply insert_other|done].
Qed.

Lemma pending_inv_here (v : Z) (obs : list Observer) :
  pending pc' = true -> pending_inv v obs (<[i := pc']> ts).
Proof using Hi. intros Hp o _ _. exists i, pc'. split; [apply insert_here|done]. Qed.

Lemma pending_inv_empty (b : bool) (v : Z) :
  lock_inv b ts -> b = false \/ holds pc = true -> (forall o p, pc' <> WaitPush o p) ->
  pending_inv v [] (<[i := pc']> ts).
Proof using Hi.
  intros Hl Hb Hw o [Ho|(j & p & [[-> E]|[Hj Hq]]%insert_cases)] Hv.
  - by apply elem_of_nil in Ho.
  - by destruct (Hw o p).
  - by discriminate (others_free b j _ Hl Hb Hj Hq).
Qed.
End update.

(** ** Every step preserves the invariant *)

Section preserve.
Context (m : Memory) (ts : list Pc) (lg : list (nat * StatusOr Z)) (i : nat) (pc : Pc).
Hypothesis HI : Inv (mkState m ts lg).
Hypothesis Hi : ts !! i = Some pc.

(** A step that leaves the memory alone. *)
Lemma inv_local (pc' : Pc) (lg' : list (nat * StatusOr Z)) :
  holds pc' = holds pc -> holder_ok (observers_ m) pc' -> (pending pc = true -> pending pc' = true) ->
  (forall o p, pc' = WaitPush o p -> seen o = value_ m) ->
  Inv (mkState m (<[i := pc']> ts) lg').
Proof using HI Hi.
  intros Hh Hok Hp Hw. destruct HI as [Hl Hf Hho Hpe]. simpl in *. split; simpl.
  - by apply (lock_inv_same ts i pc).
  - done.
  - by apply (holder_inv_same ts i pc).
  - by apply (pending_inv_same ts i pc).
Qed.

(** A change of the value. *)
Lemma inv_change (pc' : Pc) (v : Z) (lg' : list (nat * StatusOr Z)) :
  holds pc = false -> holds pc' = false -> pending pc = false ->
  v = value_ m \/ pending pc' = true ->
  Inv (mkState (set_mem m v) (<[i := pc']> ts) lg').
Proof using HI Hi.
  intros Hh Hh' Hp Hv. destruct HI as [Hl Hf Hho Hpe]. simpl in *. split; simpl.
  - apply (lock_inv_same ts i pc); congruence.
  - done.
  - apply (holder_inv_same ts i pc); [done| |done]. by apply holder_ok_free.
  - destruct Hv as [->|Hv]; [|by apply (pending_inv_here ts i pc)].
    apply (pending_inv_same ts i pc); [done|congruence| |done]. intros o p ->. done.
Qed.

Lemma inv_lock_observers (next : Z -> Pc) (m' : Memory) (pc' : Pc) (lg' : list (nat * StatusOr Z)) :
  lock_observers m next pc = (m', pc') -> holds pc = false ->
  (forall p, holds (next p) = true) -> (forall p, pending pc = true -> pending (next p) = true) ->
  (forall p, announced p (observers_ m) -> holder_ok (observers_ m) (next p)) ->
  (forall o p q, next p <> WaitPush o q) ->
  Inv (mkState m' (<[i := pc']> ts) lg').
Proof using HI Hi.
  intros E Hh Hn Hp Hok Hw. destruct HI as [Hl Hf Hho Hpe]. simpl in *.
  unfold lock_observers in E. rewrite land_locked in E.
  destruct (Z.testbit (spin_state_ m) 0) eqn:Eb; simpl in E; injection E as <- <-.
  - rewrite (list_insert_id ts i pc Hi). split; simpl; rewrite ?bit_locked; done.
  - split; simpl; rewrite ?bit_locked.
    + by apply (lock_inv_acquire ts i pc).
    + done.
    + apply (holder_inv_same ts i pc); [done| |done]. by apply Hok, Hf.
    + apply (pending_inv_same ts i pc); [done|by apply Hp| |done]. intros o p E. by apply Hw in E.
Qed.

Lemma inv_unlock_observers (desired : Z) (pc' : Pc) (lg' : list (nat * StatusOr Z)) :
  holds pc = true -> holds pc' = false -> pending pc = false -> announced desired (observers_ m) ->
  Inv (mkState (unlock_observers m desired) (<[i := pc']> ts) lg').
Proof using HI Hi.
  intros Hh Hh' Hp Ha. destruct HI as [Hl Hf Hho Hpe]. simpl in *. split; simpl.
  - rewrite bit_unlocked. by apply (lock_inv_release ts i pc pc' Hi _ Hh Hh') in Hl.
  - intros _. unfold announced. by rewrite !bit_ldiff_locked.
  - apply (holder_inv_same ts i pc); [done|by apply holder_ok_free|done].
  - apply (pending_inv_same ts i pc); [done|congruence| |done]. by intros o p ->.
Qed.

(** The holder of the lock empties the list. *)
Lemma inv_take (pc' : Pc) (lg' : list (nat * StatusOr Z)) :
  holds pc = true -> holds pc' = true -> holder_ok [] pc' -> (forall o p, pc' <> WaitPush o p) ->
  Inv (mkState (no_observers m) (<[i := pc']> ts) lg').
Proof using HI Hi.
  intros Hh Hh' Hok Hw. destruct HI as [Hl Hf Hho Hpe]. simpl in *. split; simpl.
  - apply (lock_inv_same ts i pc); congruence.
  - by intros _ [].
  - apply (holder_inv_alone ts i pc pc' Hi _ (observers_ m) [] Hl); [by right|done].
  - apply (pending_inv_empty ts i pc pc' Hi _ _ Hl); [by right|done].
Qed.

(** The holder of the lock registers an observer. *)
Lemma inv_push (o : Observer) (p : Z) (lg' : list (nat * StatusOr Z)) :
  pc = WaitPush o p ->
  Inv (mkState (mkMemory (value_ m) (spin_state_ m) (observers_ m ++ [o]))
        (<[i := WaitUnlock (Z.lor p kWaiting) None]> ts) lg').
Proof using HI Hi.
  intros Hpc. destruct HI as [Hl Hf Hho Hpe]. simpl in *. pose proof (Hho i pc Hi) as Hok.
  rewrite Hpc in *. simpl in Hok. destruct Hok as [Hopen _].
  split; simpl.
  - by apply (lock_inv_same ts i (WaitPush o p)).
  - intros E. destruct Hl as [Hheld _ _]. by rewrite (Hheld i _ Hi eq_refl) in E.
  - apply (holder_inv_alone ts i (WaitPush o p) _ Hi _ (observers_ m) _ Hl); [by right|].
    simpl. rewrite !Z.lor_spec, Hopen. split; [done|apply orb_true_r].
  - intros o' Ho' Hv. destruct (Hpe o') as (j & q & Hq & Ep).
    + destruct Ho' as [Ho'|(j & p' & [[-> E]|[Hj Hq]]%(insert_cases ts i (WaitPush o p)))]; [|done| |done].
      * apply elem_of_app in Ho' as [Ho'|Ho']; [by left|]. apply list_elem_of_singleton in Ho' as ->.
        right. by exists i, p.
      * right. by exists j, p'.
    + done.
    + exists j, q. split; [|done]. apply insert_other; [|done]. intros ->. rewrite Hi in Hq. by injection Hq as <-.
Qed.

(** A notifier that sees neither bit leaves no observer behind. *)
Lemma inv_skip (ret v : Z) (lg' : list (nat * StatusOr Z)) :
  pc = NotifyLoad ret v -> Z.land (spin_state_ m) (Z.lor kLocked kWaiting) = 0 ->
  Inv (mkState m (<[i := Finished (Some ret)]> ts) lg').
Proof using HI Hi.
  intros Hpc E. apply Z.eqb_eq in E. rewrite land_locked_waiting in E. bool_cases.
  destruct HI as [Hl Hf Hho Hpe]. simpl in *. rewrite H in *.
  assert (observers_ m = []) as Hobs.
  { destruct (observers_ m) eqn:Eo; [done|]. destruct (Hf eq_refl ltac:(done)) as [_ Hw]. congruence. }
  split; simpl; rewrite ?H.
  - apply (lock_inv_same ts i pc); [done|by rewrite Hpc|done].
  - done.
  - by apply (holder_inv_same ts i pc).
  - rewrite Hobs. apply (pending_inv_empty ts i pc _ Hi false _ Hl); [by left|done].
Qed.

End preserve.

(** [use_inv L] applies a lemma of the section at the current step. *)
Ltac use_inv L :=
  match goal with
  | HI : Inv (mkState ?m ?ts ?lg), Hi : ?ts !! ?i = Some ?pc |- _ => apply (L m ts lg i pc HI Hi); try done
  end.

Lemma inv_thread_step (m : Memory) (ts : list Pc) (lg lg' ev : list (nat * StatusOr Z)) (i : nat) (pc : Pc)
    (spurious : bool) (m' : Memory) (pc' : Pc) :
  Inv (mkState m ts lg) -> ts !! i = Some pc ->
  thread_step spurious m pc = (m', pc', ev) -> Inv (mkState m' (<[i := pc']> ts) lg').
Proof.
  intros HI Hi E. pose proof (inv_holder _ HI i pc Hi) as Hok. simpl in Hok.
  destruct pc; simpl in E;
    try (destruct (lock_observers _ _ _) as [m1 pc1] eqn:El);
    try (injection E as <- <- <-).
  - use_inv inv_change; destruct (_ =? _) eqn:Ev; bool_cases; first [done | by right | by left].
  - use_inv inv_local.
  - destruct (fn old) as [v|]; [|injection E as <- <- <-; use_inv inv_local].
    destruct (spurious || _) eqn:Es; injection E as <- <- <-; [use_inv inv_local|].
    apply orb_false_iff in Es as [_ Es]. bool_cases.
    use_inv inv_change; destruct (changed || _) eqn:Ec; try done; [by right|].
    apply orb_false_iff in Ec as [_ Ec]. bool_cases. left. congruence.
  - destruct (_ =? _) eqn:Es; bool_cases; [|use_inv inv_local].
    by apply (inv_skip m ts lg i _ HI Hi ret v).
  - by apply (inv_lock_observers m ts lg i _ HI Hi _ _ _ lg' El).
  - use_inv inv_take.
  - use_inv inv_unlock_observers.
  - destruct obs as [|o obs]; injection E as <- <- <-; use_inv inv_local.
  - by apply (inv_lock_observers m ts lg i _ HI Hi _ _ _ lg' El).
  - use_inv inv_take.
  - use_inv inv_unlock_observers.
  - use_inv inv_local.
  - destruct (_ =? _); use_inv inv_local.
  - apply (inv_lock_observers m ts lg i _ HI Hi _ _ _ lg' El); try done; intros; rewrite land_open;
      match goal with |- context [Z.testbit ?p 1] => destruct (Z.testbit p 1) eqn:Eo end; done.
  - use_inv inv_unlock_observers.
  - use_inv inv_local.
  - destruct (_ =? _) eqn:Ev; bool_cases; use_inv inv_local. by intros ? ? [= <- _].
  - by apply (inv_push m ts lg i _ HI Hi).
  - use_inv inv_unlock_observers; destruct now as [[o v]|]; try done; [by destruct Hok|].
    intros _. exact Hok.
  - use_inv inv_local.
Qed.

Lemma inv_step (k : nat) (spurious : bool) (st : State) : Inv st -> Inv (step k spurious st).
Proof.
  intros H. unfold step. destruct (threads st !! k) as [pc|] eqn:Ek; [|done].
  destruct (thread_step spurious (mem st) pc) as [[m' pc'] ev] eqn:E. destruct st as [m ts lg].
  by apply (inv_thread_step m ts lg _ ev k pc spurious m' pc' H Ek).
Qed.

Lemma inv_run (schedule : list (nat * bool)) (st : State) : Inv st -> Inv (run schedule st).
Proof.
  revert st. induction schedule as [|[k b] schedule IH]; intros st H; simpl; [done|].
  by apply IH, inv_step.
Qed.

Lemma start_facts (pc : Pc) (obs : list Observer) :
  is_start pc = true -> holds pc = false /\ holder_ok obs pc /\ forall o p, pc <> WaitPush o p.
Proof. by destruct pc. Qed.

Lemma inv_initial (init_value : Z) (ops : list Pc) :
  Forall (fun pc => is_start pc = true) ops -> Inv (initial_state init_value ops).
Proof.
  intros Hops. rewrite list.Forall_lookup in Hops.
  split; simpl; [split| | |].
  - intros i pc Hi. destruct (start_facts pc [] (Hops i pc Hi)) as [-> _]. done.
  - intros i j pc pc' Hi _ Hh. destruct (start_facts pc [] (Hops i pc Hi)) as [E _]. congruence.
  - done.
  - by intros _ [].
  - intros i pc Hi. by apply start_facts, (Hops i).
  - intros o [Ho|(i & p & Hi)] _; [by apply elem_of_nil in Ho|].
    by destruct (start_facts _ [] (Hops i _ Hi)) as (_ & _ & []%(fun f => f o p)).
Qed.

(** ** Reachable states *)

Definition reachable (init_value : Z) (ops : list Pc) (st : State) : Prop :=
  Forall (fun pc => is_start pc = true) ops /\
  exists schedule, st = run schedule (initial_state init_value ops).

Lemma inv_reachable (init_value : Z) (ops : list Pc) (st : State) :
  reachable init_value ops st -> Inv st.
Proof. intros [Hops [schedule ->]]. by apply inv_run, inv_initial. Qed.

(** ** Every handler is in exactly one place *)

(** The handlers a thread is responsible for. *)
Definition tokens (pc : Pc) : list nat :=
  match pc with
  | NotifyUnlock _ _ _ obs | Invoke _ obs _ | CloseUnlock _ obs | CloseStatus obs => handler <$> obs
  | Wait o | WaitLock o | WaitClosed o _ | WaitStatus o | WaitCheck o _ | WaitPush o _
  | WaitUnlock _ (Some (o, _)) => [handler o]
  | _ => []
  end.

Definition all_handlers (st : State) : list nat :=
  concat (tokens <$> threads st) ++ (handler <$> observers_ (mem st)) ++ (log st).*1.

(** Permutations of concatenations of numbers, by counting. *)
Ltac perm_count :=
  apply (Permutation_count_occ Nat.eq_dec); intros n;
  repeat match goal with
  | H : Permutation _ _ |- _ =>
      pose proof (proj1 (Permutation_count_occ Nat.eq_dec _ _) H n); clear H
  end;
  simpl in *; rewrite ?count_occ_app in *; simpl in *;
  repeat change (list_fmap _ _ ?f ?l) with (fmap (M := list) f l);
  repeat match goal with |- context [Nat.eq_dec ?a ?b] => destruct (Nat.eq_dec a b) end; lia.

Lemma thread_step_tokens (b : bool) (m m' : Memory) (pc pc' : Pc) (ev : list (nat * StatusOr Z)) :
  thread_step b m pc = (m', pc', ev) ->
  Permutation (tokens pc' ++ (handler <$> observers_ m') ++ ev.*1) (tokens pc ++ (handler <$> observers_ m)).
Proof.
  intros E. destruct pc; simpl in E; unfold lock_observers in E;
    repeat match type of E with
    | context [if ?c then _ else _] => destruct c
    | context [match ?x with Some _ => _ | None => _ end] => destruct x as [[? ?]|] || destruct x
    | context [match ?x with [] => _ | _ :: _ => _ end] => destruct x
    end; injection E as <- <- <-; simpl; rewrite ?app_nil_r; try done.
  all: rewrite ?fmap_app; by perm_count.
Qed.

Lemma step_handlers (i : nat) (b : bool) (st : State) :
  Permutation (all_handlers (step i b st)) (all_handlers st).
Proof.
  unfold step. destruct (threads st !! i) as [pc|] eqn:Hi; [|done].
  destruct (thread_step b (mem st) pc) as [[m' pc'] ev] eqn:E. apply thread_step_tokens in E.
  unfold all_handlers. simpl.
  assert (concat (tokens <$> threads st)
    = concat (tokens <$> take i (threads st)) ++ tokens pc ++ concat (tokens <$> drop (S i) (threads st))) as ->.
  { rewrite <- (take_drop_middle (threads st) i pc Hi) at 1. by rewrite fmap_app, concat_app. }
  rewrite insert_take_drop by (by apply lookup_lt_Some in Hi).
  rewrite !fmap_app, concat_app. rewrite fmap_cons. cbn [concat].
  revert E. generalize (tokens pc) (tokens pc'). intros p p' E. perm_count.
Qed.

Lemma run_handlers (schedule : list (nat * bool)) (st : State) :
  Permutation (all_handlers (run schedule st)) (all_handlers st).
Proof.
  revert st. induction schedule as [|[i b] schedule IH]; intros st; simpl; [done|].
  by rewrite IH, step_handlers.
Qed.

(** ** Progress: no thread can block the others for ever *)

(** An upper bound on the steps a thread still takes when it runs alone. *)
Definition work (m : Memory) (pc : Pc) : nat :=
  let n := length (observers_ m) in
  match pc with
  | Finished _ => 0
  | Invoke _ obs _ => 1 + length obs
  | NotifyUnlock _ _ _ obs | CloseStatus obs => 2 + length obs
  | CloseUnlock _ obs => 3 + length obs
  | NotifyTake _ _ _ => 3 + n
  | NotifyLock _ _ | CloseTake _ _ => 4 + n
  | NotifyLoad _ _ | CloseLock _ => 5 + n
  | Rmw _ => 6 + n
  | ModCas _ old _ => if (value_ m =? old)%Z then 6 + n else 7 + n
  | ModLoad _ => 8 + n
  | WaitUnlock _ _ | WaitStatus _ => 3
  | WaitPush _ _ | WaitClosed _ _ => 4
  | WaitCheck _ _ => 5
  | WaitLock _ => 6
  | Wait _ => 7
  end%nat.

(** The thread holds the lock or nobody does. *)
Definition can_run (m : Memory) (pc : Pc) : Prop :=
  holds pc = true \/ Z.testbit (spin_state_ m) 0 = false.

Lemma thread_step_alone (m m' : Memory) (pc pc' : Pc) (ev : list (nat * StatusOr Z)) :
  can_run m pc -> is_finished pc = false -> thread_step false m pc = (m', pc', ev) ->
  (work m' pc' < work m pc)%nat /\ can_run m' pc'.
Proof.
  unfold can_run. intros Hrun Hfin E.
  destruct pc; simpl in E, Hrun, Hfin; try discriminate Hfin;
    try (destruct Hrun as [Hrun|Hrun]; [discriminate Hrun|]);
    unfold lock_observers in E; rewrite ?land_locked, ?Hrun in E; cbn [negb] in E;
    repeat match type of E with
    | context [if ?c then _ else _] => destruct c eqn:?
    | context [match ?x with Some _ => _ | None => _ end] => destruct x as [[? ?]|] || destruct x
    | context [match ?x with [] => _ | _ :: _ => _ end] => destruct x
    end; injection E as <- <- <-; simpl;
    repeat match goal with |- context [if ?c then _ else _] => destruct c eqn:? end; bool_cases;
    rewrite ?bit_unlocked; (split; [try lia; try congruence|by auto]).
Qed.

Lemma step_alone (i : nat) (st : State) (pc : Pc) :
  threads st !! i = Some pc -> can_run (mem st) pc -> is_finished pc = false ->
  exists pc', threads (step i false st) = <[i := pc']> (threads st) /\
    (work (mem (step i false st)) pc' < work (mem st) pc)%nat /\ can_run (mem (step i false st)) pc'.
Proof.
  intros Hi Hrun Hfin. unfold step. rewrite Hi.
  destruct (thread_step false (mem st) pc) as [[m' pc'] ev] eqn:E. simpl.
  exists pc'. split; [done|]. by apply (thread_step_alone _ _ _ _ _ Hrun Hfin E).
Qed.

Lemma finish_alone (n i : nat) (st : State) (pc : Pc) :
  threads st !! i = Some pc -> can_run (mem st) pc -> (work (mem st) pc <= n)%nat ->
  exists schedule ret, threads (run schedule st) = <[i := Finished ret]> (threads st).
Proof.
  revert st pc. induction n as [|n IH]; intros st pc Hi Hrun Hn;
    (destruct (is_finished pc) eqn:Hfin;
      [destruct pc as [| | | | | | | | | | | | | | | | | | |ret]; try discriminate Hfin;
       exists [], ret; simpl; by rewrite list_insert_id|]).
  - exfalso. destruct pc; simpl in *; try lia; try discriminate; destruct (_ =? _); lia.
  - destruct (step_alone i st pc Hi Hrun Hfin) as (pc' & Hts & Hw & Hrun').
    pose proof (lookup_lt_Some _ _ _ Hi) as Hlt.
    destruct (IH (step i false st) pc') as (schedule & ret & Hs); [|done|lia|].
    + rewrite Hts. by apply list_lookup_insert_eq.
    + exists ((i, false) :: schedule), ret. simpl. rewrite Hs, Hts. apply list_insert_insert_eq.
Qed.

Definition unfinished (ts : list Pc) : nat :=
  length (filter (fun pc => is_finished pc = false) ts).

Lemma unfinished_insert (ts : list Pc) (i : nat) (pc : Pc) (ret : option Z) :
  ts !! i = Some pc -> is_finished pc = false ->
  (unfinished (<[i := Finished ret]> ts) < unfinished ts)%nat.
Proof.
  intros Hi Hf. unfold unfinished. rewrite insert_take_drop by (by apply lookup_lt_Some in Hi).
  rewrite <- (take_drop_middle ts i pc Hi) at 3.
  rewrite !list.filter_app, !list.filter_cons, !length_app. simpl. rewrite decide_True by done. simpl. lia.
Qed.

Lemma quiesce (n : nat) (st : State) :
  Inv st -> (unfinished (threads st) <= n)%nat -> exists schedule, quiescent (run schedule st).
Proof.
  revert st. induction n as [|n IH]; intros st HI Hn.
  - exists []. apply list.Forall_forall. intros pc Hpc. destruct (is_finished pc) eqn:E; [done|].
    assert (pc ∈ filter (fun pc => is_finished pc = false) (threads st)) as Hin
      by (by apply list_elem_of_filter).
    unfold unfinished in Hn. destruct (filter _ _); [by apply elem_of_nil in Hin|simpl in Hn; lia].
  - destruct (decide (Forall (fun pc => is_finished pc = true) (threads st))) as [Hq|Hq]; [by exists []|].
    assert (exists i pc, threads st !! i = Some pc /\ is_finished pc = false /\ can_run (mem st) pc)
      as (i & pc & Hi & Hf & Hrun).
    { destruct (Z.testbit (spin_state_ (mem st)) 0) eqn:Eb.
      - destruct (lock_holder _ _ (inv_lock _ HI) Eb) as (i & pc & Hi & Hh).
        exists i, pc. split_and!; [done|by destruct pc|by left].
      - apply not_Forall_Exists in Hq; [|apply _]. apply Exists_exists in Hq as (pc & Hin & Hf).
        apply list_elem_of_lookup in Hin as [i Hi]. exists i, pc.
        split_and!; [done|by apply not_true_is_false|by right]. }
    destruct (finish_alone _ i st pc Hi Hrun (le_n _)) as (s1 & ret & Hs1).
    pose proof (unfinished_insert (threads st) i pc ret Hi Hf) as Hlt.
    destruct (IH (run s1 st)) as [s2 Hs2]; [by apply inv_run|rewrite Hs1; lia|].
    exists (s1 ++ s2). unfold run in *. by rewrite foldl_app.
Qed.

(** ** The theorems *)

(** C2: no wake-up is lost.  In every reachable state in which all operations
    have returned, a handler that has not been invoked has seen the current
    value, and the watch is open. *)
Theorem watch_no_lost_wakeup (init_value : Z) (ops : list Pc) (st : State) (o : Observer) :
  reachable init_value ops st -> quiescent st -> o ∈ observers_ (mem st) ->
  seen o = value_ (mem st) /\ is_open (mem st) = true.
Proof.
  intros Hr Hq Ho. apply inv_reachable in Hr as [Hl Hf _ Hp]. unfold quiescent in Hq.
  rewrite list.Forall_lookup in Hq. split.
  - destruct (decide (seen o = value_ (mem st))) as [|Hne]; [done|].
    destruct (Hp o (or_introl Ho) Hne) as (j & pc & Hj & Hpe).
    specialize (Hq j pc Hj). by destruct pc.
  - unfold is_open. rewrite land_open, negb_involutive. apply Hf.
    + destruct (Z.testbit (spin_state_ (mem st)) 0) eqn:E; [|done].
      destruct (lock_holder _ _ Hl eq_refl) as (j & pc & Hj & Hh). specialize (Hq j pc Hj). by destruct pc.
    + intros E. rewrite E in Ho. by apply elem_of_nil in Ho.
Qed.

(** Every handler passed to [async_wait] is, in every reachable state, in
    exactly one place: with a thread that is going to register or invoke it,
    in the observer list, or invoked; in particular it is invoked at most
    once, and when all operations have returned it is registered or has been
    invoked. *)
Theorem watch_handlers_once (init_value : Z) (ops : list Pc) (st : State) :
  reachable init_value ops st ->
  Permutation (all_handlers st) (concat (tokens <$> ops)) /\
  (quiescent st -> Permutation ((handler <$> observers_ (mem st)) ++ (log st).*1) (concat (tokens <$> ops))).
Proof.
  intros [Hops [schedule ->]].
  assert (Permutation (all_handlers (run schedule (initial_state init_value ops))) (concat (tokens <$> ops))) as H.
  { rewrite run_handlers. unfold all_handlers. simpl. by rewrite app_nil_r. }
  split; [done|]. intros Hq. rewrite <- H. unfold all_handlers.
  assert (concat (tokens <$> threads (run schedule (initial_state init_value ops))) = []) as ->; [|done].
  unfold quiescent in Hq. induction Hq as [|pc ts Hpc Hts IH]; [done|].
  rewrite fmap_cons. cbn [concat]. rewrite IH. by destruct pc.
Qed.

(** From every reachable state the threads can all run to completion: the
    spin lock is never left held and no compare-exchange loop is stuck. *)
Theorem watch_progress (init_value : Z) (ops : list Pc) (st : State) :
  reachable init_value ops st -> exists schedule, quiescent (run schedule st).
Proof. intros Hr. apply inv_reachable in Hr. by apply (quiesce (unfinished (threads st))). Qed.

(** Two waiters, a writer and a [close] (the last one with [kEndOfStream]). *)
Definition sample_ops : list Pc :=
  [Wait (mkObserver 1 0); Wait (mkObserver 2 0); Rmw (FetchAdd 5); CloseLock kEndOfStream].

Definition sample_state : State :=
  run (((fun i => (i, false)) <$> [0; 0; 0; 0; 0; 2; 2; 1; 2; 2; 2; 2; 2; 1; 2])%nat) (initial_state 0 sample_ops).

Lemma sample_reachable : reachable 0 sample_ops sample_state.
Proof. split; [by repeat constructor|by eexists]. Qed.

Definition waiting_state : State :=
  run (replicate 5 (0%nat, false)) (initial_state 0 [Wait (mkObserver 1 0)]).

Lemma watch_no_lost_wakeup_witness :
  seen (mkObserver 1 0) = value_ (mem waiting_state) /\ is_open (mem waiting_state) = true.
Proof.
  apply (watch_no_lost_wakeup 0 [Wait (mkObserver 1 0)] waiting_state (mkObserver 1 0)).
  - split; [by repeat constructor|by eexists].
  - unfold waiting_state, quiescent. vm_compute. by repeat constructor.
  - vm_compute. left.
Defined.

Lemma watch_handlers_once_witness : Permutation (all_handlers sample_state) [1; 2]%nat.
Proof. exact (proj1 (watch_handlers_once 0 sample_ops sample_state sample_reachable)). Defined.

Lemma watch_progress_witness : exists schedule, quiescent (run schedule sample_state).
Proof. exact (watch_progress 0 sample_ops sample_state sample_reachable). Defined.

(** A handler may be invoked with the very value its caller has seen: the
    writer stores 1, a waiter that has seen 1 registers, and the writer then
    notifies it of 1.  [await_not_equal] returns that value, although its
    comment guarantees a value different from [last_seen]. *)
Lemma wakes_with_last_seen :
  exists schedule, log (run schedule (initial_state 0 [Rmw (Exchange 1); Wait (mkObserver 7 1)]))
    = [(7%nat, OkVal 1)].
Proof.
  exists ([(0, false)] ++ replicate 5 (1, false) ++ replicate 6 (0, false))%nat. vm_compute. reflexivity.
Qed.
