(* ===== verification/Grant.v ===== *)
(** * Grants of a counted resource

    [async/grant_decl.hpp], [async/grant_impl.hpp].  One issuer, its grants,
    and threads that run the operations; every access to a [Watch<u64>] or an
    atomic is one step (a [modify_if] is its load and its compare-exchange),
    so an amount that has left one place and not reached the next is with the
    thread that moves it.  A failed [BATT_CHECK]/[BATT_ASSERT] stops the
    program. *)

From S2P Require Import Prelude Status.
Open Scope Z_scope.

(* @ src/batteries/async/grant_decl.hpp 92-97 Grant::Issuer *)
Record Issuer : Type := mkIssuer { available_ : Z; total_size_ : Z; issuer_closed : bool }.

(** [issuer_ : bool]: the grant is attached; a grant that has been moved from
    is not.  [revoked]: its watch is closed. *)
(* @ src/batteries/async/grant_decl.hpp 214-223 Grant *)
Record GrantObj : Type := mkGrant { issuer_ : bool; size_ : Z; revoked : bool }.

(** The counter that an amount is taken from. *)
Inductive Source : Type := FromIssuer | FromGrant (g : nat).

Definition Result : Type := StatusOr nat.

(** Where a thread is in its operation; [SpendAll] runs [revoke] when
    [then_close] is set. *)
Inductive Pc : Type :=
| IssueGrant (count : Z) (wait : bool)
| Spend (g : nat) (count : Z) (wait : bool)
| Transfer (src : Source) (count : Z) (wait : bool)
| TransferCas (src : Source) (count : Z) (wait : bool) (observed : Z)
| TransferMake (count : Z)
| TransferFailed (src : Source) (count : Z) (wait : bool)
| Grow (count : Z)
| Recycle (count : Z) (then_close : option nat)
| CloseIssuer
| SpendAll (g : nat) (then_close : bool)
| CloseGrant (g : nat)
| Subsume (this that : nat)
| SubsumeTake (this that : nat)
| SubsumeAdd (this : nat) (count : Z)
| Swap (this that : nat)
| SwapOut (this that : nat)
| SwapThis (this that : nat) (count : Z)
| SwapIn (that : nat) (count : Z)
| Move (that : nat)
| MoveTake (that : nat)
| MoveMake (count : Z)
| Finished (r : option Result).

Record State : Type := mkState {
  issuer : Issuer;
  grants : list GrantObj;
  threads : list Pc }.

Definition set_available (st : State) (n : Z) : State :=
  mkState (mkIssuer n (total_size_ (issuer st)) (issuer_closed (issuer st))) (grants st) (threads st).

Definition set_grant (st : State) (g : nat) (o : GrantObj) : State :=
  mkState (issuer st) (<[g := o]> (grants st)) (threads st).

Definition add_grant (st : State) (n : Z) : State :=
  mkState (issuer st) (grants st ++ [mkGrant true n false]) (threads st).

Definition goto (st : State) (i : nat) (pc : Pc) : State :=
  mkState (issuer st) (grants st) (<[i := pc]> (threads st)).

Definition get_grant (st : State) (g : nat) : outcome GrantObj :=
  match grants st !! g with Some o => Done o | None => Panic end.

(** [set_value] on the size of a grant. *)
Definition set_size (o : GrantObj) (n : Z) : GrantObj := mkGrant (issuer_ o) n (revoked o).

Definition source_value (st : State) (src : Source) : outcome Z :=
  match src with
  | FromIssuer => Done (available_ (issuer st))
  | FromGrant g => o ← get_grant st g; Done (size_ o)
  end.

Definition source_closed (st : State) (src : Source) : outcome bool :=
  match src with
  | FromIssuer => Done (issuer_closed (issuer st))
  | FromGrant g => o ← get_grant st g; Done (revoked o)
  end.

Definition set_source (st : State) (src : Source) (n : Z) : outcome State :=
  match src with
  | FromIssuer => Done (set_available st n)
  | FromGrant g => o ← get_grant st g; Done (set_grant st g (set_size o n))
  end.

(* @ src/batteries/async/grant_impl.hpp 164-169 Grant::transfer_impl *)
Definition take_count (count observed : Z) : option Z :=
  if count <=? observed then Some (observed - count) else None.

(** The loop of [transfer_impl].  [await_true] is one step, enabled when the
    watch holds enough or is closed; otherwise the thread stays. *)
(* @ src/batteries/async/grant_impl.hpp 152-194 Grant::transfer_impl *)
Definition transfer_step (spurious : bool) (i : nat) (st : State) (pc : Pc) : outcome State :=
  match pc with
  | Transfer src count wait =>
      observed ← source_value st src;
      Done (goto st i (match take_count count observed with
                       | Some _ => TransferCas src count wait observed
                       | None => TransferFailed src count wait
                       end))
  | TransferCas src count wait old =>
      now ← source_value st src;
      if spurious || negb (now =? old) then
        Done (goto st i (match take_count count now with
                         | Some _ => TransferCas src count wait now
                         | None => TransferFailed src count wait
                         end))
      else
        st' ← set_source st src (old - count);
        Done (goto st' i (TransferMake count))
  | TransferMake count =>
      Done (goto (add_grant st count) i (Finished (Some (OkVal (length (grants st))))))
  | TransferFailed src count wait =>
      closed ← source_closed st src;
      if wait then
        now ← source_value st src;
        Done (if count <=? now then goto st i (Transfer src count wait)
              else if (closed : bool) then goto st i (Finished (Some (Err kClosed)))
              else st)
      else Done (goto st i (Finished (Some (Err (if (closed : bool) then kGrantRevoked else kGrantUnavailable)))))
  | _ => Done st
  end.

(** The other operations. *)
(* @ src/batteries/async/grant_impl.hpp 31-148 Grant::Issuer::issue_grant, grow, recycle, close, Grant::Grant, revoke, swap, spend, spend_all, subsume *)
Definition thread_step (spurious : bool) (i : nat) (st : State) (pc : Pc) : outcome State :=
  match pc with
  | IssueGrant count wait => Done (goto st i (Transfer FromIssuer count wait))
  | Spend g count wait =>
      o ← get_grant st g;
      Done (goto st i (if issuer_ o then Transfer (FromGrant g) count wait
                       else Finished (Some (Err kFailedPrecondition))))
  | Grow count =>
      let old_size := total_size_ (issuer st) in
      check (old_size <? u64 (old_size + count));;
      Done (goto (mkState (mkIssuer (available_ (issuer st)) (u64 (old_size + count)) (issuer_closed (issuer st)))
                          (grants st) (threads st)) i (Recycle count None))
  | Recycle count then_close =>
      Done (goto (set_available st (u64 (available_ (issuer st) + count))) i
              (match then_close with Some g => CloseGrant g | None => Finished None end))
  | CloseIssuer =>
      Done (goto (mkState (mkIssuer (available_ (issuer st)) (total_size_ (issuer st)) true)
                          (grants st) (threads st)) i (Finished None))
  | SpendAll g then_close =>
      o ← get_grant st g;
      if issuer_ o then
        Done (goto (set_grant st g (set_size o 0)) i
                (Recycle (size_ o) (if then_close then Some g else None)))
      else Done (goto st i (if then_close then CloseGrant g else Finished None))
  | CloseGrant g =>
      o ← get_grant st g;
      Done (goto (set_grant st g (mkGrant (issuer_ o) (size_ o) true)) i (Finished None))
  | Subsume this that =>
      b ← get_grant st that;
      if negb (issuer_ b) then Done (goto st i (Finished None))
      else
        a ← get_grant st this;
        check (issuer_ a);;
        Done (goto st i (SubsumeTake this that))
  | SubsumeTake this that =>
      b ← get_grant st that;
      Done (goto (set_grant st that (set_size b 0)) i (SubsumeAdd this (size_ b)))
  | SubsumeAdd this count =>
      a ← get_grant st this;
      Done (goto (set_grant st this (set_size a (u64 (size_ a + count)))) i (Finished None))
  | Swap this that =>
      a ← get_grant st this;
      b ← get_grant st that;
      let st1 := set_grant st this (mkGrant (issuer_ b) (size_ a) (revoked a)) in
      b' ← get_grant st1 that;
      Done (goto (set_grant st1 that (mkGrant (issuer_ a) (size_ b') (revoked b'))) i (SwapOut this that))
  | SwapOut this that =>
      b ← get_grant st that;
      Done (goto (set_grant st that (set_size b 0)) i (SwapThis this that (size_ b)))
  | SwapThis this that count =>
      a ← get_grant st this;
      Done (goto (set_grant st this (set_size a count)) i (SwapIn that (size_ a)))
  | SwapIn that count =>
      b ← get_grant st that;
      Done (goto (set_grant st that (set_size b count)) i (Finished None))
  | Move that =>
      b ← get_grant st that;
      Done (goto (set_grant st that (mkGrant false (size_ b) (revoked b))) i
              (if issuer_ b then MoveTake that else Finished None))
  | MoveTake that =>
      b ← get_grant st that;
      Done (goto (set_grant st that (set_size b 0)) i (MoveMake (size_ b)))
  | MoveMake count =>
      Done (goto (add_grant st count) i (Finished (Some (OkVal (length (grants st))))))
  | Finished _ => Done st
  | _ => transfer_step spurious i st pc
  end.

Definition step (i : nat) (spurious : bool) (st : State) : outcome State :=
  match threads st !! i with
  | Some pc => thread_step spurious i st pc
  | None => Done st
  end.

Definition run (schedule : list (nat * bool)) (st : State) : outcome State :=
  foldl (fun acc ib => st ← acc; step ib.1 ib.2 st) (Done st) schedule.

(* @ src/batteries/async/grant_impl.hpp 15-19 Grant::Issuer::Issuer *)
Definition new_issuer (initial_count : Z) : Issuer := mkIssuer initial_count initial_count false.

(* @ src/batteries/async/grant_impl.hpp 23-27 Grant::Issuer::~Issuer *)
Definition destroy_issuer (st : State) : outcome unit :=
  check (total_size_ (issuer st) =? available_ (issuer st)).

(* @ src/batteries/async/grant_decl.hpp 140-165 Grant::empty, is_valid, is_revoked *)
Definition is_valid (o : GrantObj) : bool := negb (size_ o =? 0) && issuer_ o.

(** ** Conservation *)

(** The amount a thread is carrying from one counter to another. *)
Definition in_flight (pc : Pc) : Z :=
  match pc with
  | TransferMake c | Recycle c _ | SubsumeAdd _ c | SwapThis _ _ c | SwapIn _ c | MoveMake c => c
  | _ => 0
  end.

(** Whether a thread is going to call [swap] or is inside it. *)
Definition swapping (pc : Pc) : bool :=
  match pc with Swap _ _ | SwapOut _ _ | SwapThis _ _ _ | SwapIn _ _ => true | _ => false end.

(** Arguments are not negative, a planned transfer is covered by what was
    observed, and in an [exact] run no thread is inside [swap]. *)
Definition pc_ok (exact : bool) (pc : Pc) : Prop :=
  (exact = true -> swapping pc = false) /\
  match pc with
  | IssueGrant c _ | Spend _ c _ | Transfer _ c _ | TransferFailed _ c _ => 0 <= c
  | Grow c => 0 <= c <= u64_max
  | TransferCas _ c _ observed => 0 <= c <= observed
  | _ => 0 <= in_flight pc
  end.

(** What the grants, the issuer and the threads have. *)
Definition held (st : State) : Z :=
  available_ (issuer st) + sum (size_ <$> grants st) + sum (in_flight <$> threads st).

Record Inv (exact : bool) (st : State) : Prop := {
  inv_available : 0 <= available_ (issuer st);
  inv_sizes : Forall (fun o => 0 <= size_ o) (grants st);
  inv_threads : Forall (pc_ok exact) (threads st);
  inv_total : held st <= total_size_ (issuer st);
  inv_exact : exact = true -> held st = total_size_ (issuer st);
  inv_fits : total_size_ (issuer st) <= u64_max }.

Section conservation.
Context (exact : bool).
Notation pc_ok := (pc_ok exact).
Notation Inv := (Inv exact).

Lemma pc_ok_in_flight (pc : Pc) : pc_ok pc -> 0 <= in_flight pc.
Proof. intros [_ H]. destruct pc; simpl in *; lia. Qed.

Lemma inv_in_flight (st : State) : Inv st -> Forall (fun pc => 0 <= in_flight pc) (threads st).
Proof. intros [_ _ H _ _ _]. eapply Forall_impl; [exact H|]. apply pc_ok_in_flight. Qed.

(** The counters are bounded by the total, so no sum of them wraps. *)
Lemma inv_bounds (st : State) (i : nat) (pc : Pc) :
  Inv st -> threads st !! i = Some pc ->
  available_ (issuer st) + in_flight pc <= u64_max /\
  forall g o, grants st !! g = Some o -> 0 <= size_ o /\ size_ o + in_flight pc <= u64_max.
Proof.
  intros HI Hi. pose proof (sum_lookup_le in_flight _ i pc (inv_in_flight st HI) Hi) as Hp.
  pose proof (sum_nonneg in_flight _ (inv_in_flight st HI)) as Hp'.
  destruct HI as [Ha Hs _ Ht _ Hf]. unfold held in Ht.
  pose proof (sum_nonneg size_ _ Hs). split; [lia|]. intros g o Hg.
  pose proof (sum_lookup_le size_ _ g o Hs Hg). rewrite list.Forall_lookup in Hs. specialize (Hs g o Hg).
  simpl in Hs. lia.
Qed.

(** What one thread is carrying, and the counters. *)
Definition counted (iss : Issuer) (gs : list GrantObj) (pc : Pc) : Z :=
  available_ iss + sum (size_ <$> gs) + in_flight pc.

(** A step that changes some counters and the state of thread [i].  In a run
    with [swap] it may lose some of what is counted. *)
Lemma grant_inv_lose (st : State) (i : nat) (pc pc' : Pc) (iss : Issuer) (gs : list GrantObj) :
  Inv st -> threads st !! i = Some pc -> pc_ok pc' ->
  0 <= available_ iss -> Forall (fun o => 0 <= size_ o) gs -> total_size_ iss <= u64_max ->
  total_size_ (issuer st) - counted (issuer st) (grants st) pc <= total_size_ iss - counted iss gs pc' ->
  (exact = true -> total_size_ (issuer st) - counted (issuer st) (grants st) pc = total_size_ iss - counted iss gs pc') ->
  Inv (mkState iss gs (<[i := pc']> (threads st))).
Proof.
  unfold counted. intros [Ha Hs Hp Ht He Hf] Hi Hok Ha' Hs' Hf' Hle Heq. unfold held in *.
  split; unfold held; simpl; try done; [by apply Forall_insert|..]; rewrite (sum_insert in_flight _ i pc pc' Hi); [lia|].
  intros Hx. specialize (He Hx). specialize (Heq Hx). lia.
Qed.

Lemma grant_inv_update (st : State) (i : nat) (pc pc' : Pc) (iss : Issuer) (gs : list GrantObj) :
  Inv st -> threads st !! i = Some pc -> pc_ok pc' ->
  0 <= available_ iss -> Forall (fun o => 0 <= size_ o) gs -> total_size_ iss <= u64_max ->
  total_size_ iss - (available_ iss + sum (size_ <$> gs) + in_flight pc')
  = total_size_ (issuer st) - (available_ (issuer st) + sum (size_ <$> grants st) + in_flight pc) ->
  Inv (mkState iss gs (<[i := pc']> (threads st))).
Proof. intros HI Hi Hok Ha Hs Hf E. apply (grant_inv_lose st i pc); unfold counted; try done; lia. Qed.

Lemma inv_set_grant (st : State) (i g : nat) (pc pc' : Pc) (o o' : GrantObj) :
  Inv st -> threads st !! i = Some pc -> grants st !! g = Some o -> pc_ok pc' -> 0 <= size_ o' ->
  size_ o' + in_flight pc' = size_ o + in_flight pc ->
  Inv (goto (set_grant st g o') i pc').
Proof.
  intros HI Hi Hg Hok Hs E. apply (grant_inv_update st i pc); simpl; try done; try apply HI.
  - apply Forall_insert; [apply HI|done].
  - rewrite (sum_insert size_ _ g o o' Hg). lia.
Qed.

Lemma grant_inv_goto (st : State) (i : nat) (pc pc' : Pc) :
  Inv st -> threads st !! i = Some pc -> pc_ok pc' -> in_flight pc' = in_flight pc ->
  Inv (goto st i pc').
Proof. intros HI Hi Hok E. apply (grant_inv_update st i pc); try done; try apply HI. lia. Qed.

Lemma inv_set_available (st : State) (i : nat) (pc pc' : Pc) (n : Z) :
  Inv st -> threads st !! i = Some pc -> pc_ok pc' -> 0 <= n ->
  n + in_flight pc' = available_ (issuer st) + in_flight pc ->
  Inv (goto (set_available st n) i pc').
Proof. intros HI Hi Hok Hn E. apply (grant_inv_update st i pc); simpl; try done; try apply HI. lia. Qed.

Lemma inv_add_grant (st : State) (i : nat) (pc pc' : Pc) (n : Z) :
  Inv st -> threads st !! i = Some pc -> pc_ok pc' -> 0 <= n ->
  n + in_flight pc' = in_flight pc -> Inv (goto (add_grant st n) i pc').
Proof.
  intros HI Hi Hok Hn E. apply (grant_inv_update st i pc); simpl; try done; try apply HI.
  - apply Forall_app. split; [apply HI|by repeat constructor].
  - rewrite fmap_app, sum_app. simpl. rewrite sum_cons. change (sum []) with 0. lia.
Qed.

Lemma get_grant_done (st : State) (g : nat) (o : GrantObj) :
  get_grant st g = Done o <-> grants st !! g = Some o.
Proof. unfold get_grant. destruct (grants st !! g); split; congruence. Qed.

Lemma take_count_cases (st : State) (i : nat) (pc : Pc) (src : Source) (count now : Z) (wait : bool) :
  Inv st -> threads st !! i = Some pc -> 0 <= count -> in_flight pc = 0 ->
  Inv (goto st i (match take_count count now with
                  | Some _ => TransferCas src count wait now
                  | None => TransferFailed src count wait
                  end)).
Proof.
  intros HI Hi Hc Hpc. unfold take_count.
  destruct (count <=? now) eqn:E; bool_cases; by apply (grant_inv_goto st i pc).
Qed.

Lemma inv_transfer_cas (st st' : State) (i : nat) (pc : Pc) (src : Source) (count : Z) :
  Inv st -> threads st !! i = Some pc -> in_flight pc = 0 -> 0 <= count ->
  forall now, source_value st src = Done now -> count <= now -> set_source st src (now - count) = Done st' ->
  Inv (goto st' i (TransferMake count)).
Proof.
  intros HI Hi Hpc Hc now Hnow Hle E. destruct src as [|g]; simpl in *.
  - apply done_inj in Hnow, E. subst. apply (inv_set_available st i pc); simpl; try done; lia.
  - apply bind_done in Hnow as (o & Hg & Hnow). apply done_inj in Hnow as <-. rewrite Hg in E. simpl in E.
    apply done_inj in E as <-. apply get_grant_done in Hg. apply (inv_set_grant st i g pc _ o); simpl; try done; lia.
Qed.

Ltac use_inv L := eapply L; [eassumption|eassumption|..]; simpl; try done; try (split; [done|simpl; lia]); try lia.

Lemma grow_fits (old count : Z) :
  0 <= old <= u64_max -> 0 <= count <= u64_max -> old < u64 (old + count) ->
  u64 (old + count) = old + count /\ old + count <= u64_max.
Proof.
  unfold u64_max. intros Ho Hc H. destruct (Z.le_gt_cases (old + count) (2 ^ 64 - 1)).
  - rewrite uwrap_small; lia.
  - exfalso. unfold uwrap in H.
    rewrite (Z.mod_eq _ (2 ^ 64)) in H by lia.
    assert ((old + count) / 2 ^ 64 = 1) by (symmetry; apply (Z.div_unique_pos _ _ _ (old + count - 2 ^ 64)); lia).
    lia.
Qed.

Lemma inv_total_nonneg (st : State) : Inv st -> 0 <= total_size_ (issuer st) <= u64_max.
Proof.
  intros HI. split; [|apply HI]. pose proof (inv_total _ st HI) as Ht. unfold held in Ht. pose proof (inv_available _ st HI).
  pose proof (sum_nonneg size_ _ (inv_sizes _ st HI)). pose proof (sum_nonneg in_flight _ (inv_in_flight st HI)). lia.
Qed.

(** [swap] exchanges the issuers first. *)
Lemma inv_swap_issuers (st : State) (i this that : nat) (a b b' : GrantObj) :
  Inv st -> threads st !! i = Some (Swap this that) -> grants st !! this = Some a -> grants st !! that = Some b ->
  <[this := mkGrant (issuer_ b) (size_ a) (revoked a)]> (grants st) !! that = Some b' ->
  Inv (mkState (issuer st)
    (<[that := mkGrant (issuer_ a) (size_ b') (revoked b')]> (<[this := mkGrant (issuer_ b) (size_ a) (revoked a)]> (grants st)))
    (<[i := SwapOut this that]> (threads st))).
Proof.
  intros HI Hi Ha Hb Hb'. pose proof (inv_sizes _ st HI) as Hs.
  assert (Forall (fun o => 0 <= size_ o) (<[this := mkGrant (issuer_ b) (size_ a) (revoked a)]> (grants st))) as Hs1.
  { apply Forall_insert; [done|]. exact (proj1 (list.Forall_lookup _ _) Hs this a Ha). }
  apply (grant_inv_update st i (Swap this that)); try done; try apply HI.
  - pose proof (inv_threads _ st HI) as Hp. rewrite list.Forall_lookup in Hp. by destruct (Hp i _ Hi).
  - apply Forall_insert; [done|]. exact (proj1 (list.Forall_lookup _ _) Hs1 that b' Hb').
  - rewrite (sum_insert size_ _ that b' _ Hb'), (sum_insert size_ _ this a _ Ha). simpl. lia.
Qed.

(** At the end it overwrites what the other grant has by then. *)
Lemma inv_swap_in (st : State) (i that : nat) (count : Z) (b : GrantObj) :
  Inv st -> threads st !! i = Some (SwapIn that count) -> 0 <= count -> 0 <= size_ b -> grants st !! that = Some b ->
  Inv (mkState (issuer st) (<[that := set_size b count]> (grants st)) (<[i := Finished None]> (threads st))).
Proof.
  intros HI Hi Hc Hb Hg. apply (grant_inv_lose st i (SwapIn that count)); try done; try apply HI.
  - apply Forall_insert; [apply HI|done].
  - unfold counted. rewrite (sum_insert size_ _ that b _ Hg). simpl. lia.
  - intros Hx. pose proof (inv_threads _ st HI) as Hp. rewrite list.Forall_lookup in Hp.
    destruct (Hp i _ Hi) as [Hsw _]. by discriminate (Hsw Hx).
Qed.

Lemma grant_inv_thread_step (spurious : bool) (i : nat) (st st' : State) (pc : Pc) :
  Inv st -> threads st !! i = Some pc -> thread_step spurious i st pc = Done st' -> Inv st'.
Proof.
  intros HI Hi E.
  assert (pc_ok pc) as Hok by (pose proof (inv_threads _ st HI) as H; rewrite list.Forall_lookup in H; by apply (H i)).
  pose proof (inv_bounds st i pc HI Hi) as [Ha Hg]. unfold u64_max in Ha, Hg.
  pose proof (inv_available _ st HI) as Ha0.
  destruct Hok as [Hx Hok]. destruct pc; simpl in E, Hx, Hok, Ha, Hg; try done; run_inv;
    repeat match goal with H : get_grant _ _ = Done _ |- _ => apply get_grant_done in H end;
    try match goal with H : grants st !! ?g = Some ?o |- _ => pose proof (Hg g o H) end.
  - subst. use_inv grant_inv_goto.
  - subst. use_inv grant_inv_goto; by destruct (issuer_ _).
  - subst. eapply take_count_cases; [eassumption|eassumption|done|done].
  - destruct (spurious || _) eqn:Es; run_inv; subst.
    + eapply take_count_cases; [eassumption|eassumption|lia|done].
    + eapply (inv_transfer_cas st _ i _ src count); [eassumption|eassumption|done|lia|eassumption|lia|done].
  - subst. use_inv inv_add_grant.
  - destruct wait; run_inv; subst; [|use_inv grant_inv_goto].
    repeat case_if; [use_inv grant_inv_goto..|done].
  - destruct (grow_fits (total_size_ (issuer st)) count (inv_total_nonneg st HI) Hok H) as [Eg Hf].
    subst. rewrite Eg. unfold goto. cbn [issuer grants threads]. use_inv grant_inv_update; apply HI.
  - subst. rewrite uwrap_small by lia. destruct then_close; use_inv inv_set_available.
  - subst. unfold goto. cbn [issuer grants threads]. use_inv grant_inv_update; apply HI.
  - destruct (issuer_ _) eqn:Eo; run_inv; subst.
    + destruct then_close; use_inv inv_set_grant.
    + destruct then_close; use_inv grant_inv_goto.
  - subst. use_inv inv_set_grant.
  - destruct (issuer_ _) eqn:Eo; simpl in E; run_inv; subst; use_inv grant_inv_goto.
  - subst. use_inv inv_set_grant.
  - subst. rewrite uwrap_small by lia. use_inv inv_set_grant.
  - subst. unfold goto, set_grant. cbn [issuer grants threads]. eapply inv_swap_issuers; eassumption.
  - subst. use_inv inv_set_grant.
  - subst. use_inv inv_set_grant.
  - subst. unfold goto, set_grant. cbn [issuer grants threads]. eapply inv_swap_in; try eassumption. lia.
  - subst. destruct (issuer_ _); use_inv inv_set_grant.
  - subst. use_inv inv_set_grant.
  - subst. use_inv inv_add_grant.
  - by subst.
Qed.

Lemma grant_inv_run (schedule : list (nat * bool)) (st st' : State) :
  Inv st -> run schedule st = Done st' -> Inv st'.
Proof.
  unfold run. intros HI. revert st'. induction schedule as [|[i b] schedule IH] using rev_ind; intros st' E.
  - apply done_inj in E. by subst.
  - rewrite foldl_app in E. simpl in E. run_inv. specialize (IH _ H).
    unfold step in E. destruct (threads x !! i) as [pc|] eqn:Hi; [|apply done_inj in E; by subst].
    by apply (grant_inv_thread_step b i x st' pc).
Qed.
End conservation.

(** ** The theorems *)

(** What a thread may start with. *)
Definition is_start (pc : Pc) : Prop :=
  match pc with
  | IssueGrant c _ | Spend _ c _ | Grow c => 0 <= c <= u64_max
  | CloseIssuer | SpendAll _ _ | Subsume _ _ | Swap _ _ | Move _ => True
  | _ => False
  end.

Definition initial_state (initial_count : Z) (ops : list Pc) : State :=
  mkState (new_issuer initial_count) [] ops.

Lemma grant_inv_initial (exact : bool) (initial_count : Z) (ops : list Pc) :
  0 <= initial_count <= u64_max -> Forall is_start ops ->
  (exact = true -> Forall (fun pc => swapping pc = false) ops) -> Inv exact (initial_state initial_count ops).
Proof.
  intros Hc Hops Hsw. assert (sum (in_flight <$> ops) = 0) as E.
  { clear Hsw. induction Hops as [|pc ops Hpc Hops IH]; [done|]. rewrite fmap_cons, sum_cons, IH. by destruct pc. }
  split; unfold held; simpl; rewrite ?E; change (sum []) with 0; try (intros; lia); [done|].
  apply list.Forall_lookup. intros i pc Hi. split.
  - intros Hx. exact (proj1 (list.Forall_lookup _ _) (Hsw Hx) i pc Hi).
  - pose proof (proj1 (list.Forall_lookup _ _) Hops i pc Hi) as Hpc. destruct pc; simpl in *; lia || done.
Qed.

(** C34: conservation.  Under every interleaving of [issue_grant], [spend],
    [grow], [revoke], [spend_all], [subsume], [swap], moves and [close], in
    which no check fails, what is available, the sizes of all grants and what
    the threads are carrying add up, at every moment, to at most the total
    size, which fits in 64 bits, and none of them is negative: nothing is
    granted twice.  When no thread calls [swap], the sum is the total size; a
    [swap] that races can lose a part of it ([swap_loses_count],
    [swaps_lose_count]). *)
Theorem grant_conservation (initial_count : Z) (ops : list Pc) (schedule : list (nat * bool)) (st : State) :
  0 <= initial_count <= u64_max -> Forall is_start ops ->
  run schedule (initial_state initial_count ops) = Done st ->
  let held := available_ (issuer st) + sum (size_ <$> grants st) + sum (in_flight <$> threads st) in
  0 <= available_ (issuer st) /\ Forall (fun o => 0 <= size_ o) (grants st) /\
  Forall (fun pc => 0 <= in_flight pc) (threads st) /\
  held <= total_size_ (issuer st) <= u64_max /\
  (Forall (fun pc => swapping pc = false) ops -> total_size_ (issuer st) = held).
Proof.
  intros Hc Hops E. pose proof (grant_inv_run false _ _ _ (grant_inv_initial false _ _ Hc Hops ltac:(done)) E) as HI.
  split_and!; [apply HI|apply HI|by apply (inv_in_flight false)|apply HI|apply HI|].
  intros Hsw. pose proof (grant_inv_run true _ _ _ (grant_inv_initial true _ _ Hc Hops (fun _ => Hsw)) E) as HI'.
  symmetry. by apply (inv_exact true st HI').
Qed.

Lemma sum_zero {A} (f : A -> Z) (l : list A) :
  Forall (fun x => 0 <= f x) l -> (sum (f <$> l) = 0 <-> Forall (fun x => f x = 0) l).
Proof.
  induction 1 as [|x l Hx Hl IH]; [by split; [constructor|]|].
  rewrite fmap_cons, sum_cons, Forall_cons_iff, <- IH. pose proof (sum_nonneg f l Hl). lia.
Qed.

(** The check in [~Issuer] succeeds exactly when every grant has been
    given back and no thread is carrying an amount. *)
Theorem issuer_destructor (initial_count : Z) (ops : list Pc) (schedule : list (nat * bool)) (st : State) :
  0 <= initial_count <= u64_max -> Forall is_start ops -> Forall (fun pc => swapping pc = false) ops ->
  run schedule (initial_state initial_count ops) = Done st ->
  (destroy_issuer st = Done tt <->
   Forall (fun o => size_ o = 0) (grants st) /\ Forall (fun pc => in_flight pc = 0) (threads st)).
Proof.
  intros Hc Hops Hsw E. pose proof (grant_inv_run true _ _ _ (grant_inv_initial true _ _ Hc Hops (fun _ => Hsw)) E) as HI.
  pose proof (inv_in_flight true st HI) as Hf. destruct HI as [_ Hs _ _ Ht _]. specialize (Ht eq_refl). unfold held in Ht.
  unfold destroy_issuer. rewrite check_done, Z.eqb_eq.
  rewrite <- (sum_zero size_ _ Hs), <- (sum_zero in_flight _ Hf).
  pose proof (sum_nonneg size_ _ Hs). pose proof (sum_nonneg in_flight _ Hf). lia.
Qed.

(** The result of [spend] and [issue_grant] without waiting, when no other
    thread interferes.  If the source holds [count], it loses exactly
    [count] and a new grant of that size is returned, whether or not the
    source is closed; otherwise nothing changes and the error tells a closed
    source ([kGrantRevoked]) from an open one ([kGrantUnavailable]). *)
Theorem transfer_result (st : State) (i : nat) (src : Source) (count n : Z) (closed : bool) :
  threads st !! i = Some (Transfer src count false) ->
  source_value st src = Done n -> source_closed st src = Done closed ->
  exists st1, run [(i, false); (i, false); (i, false)] st = Done st1 /\
    (count <= n -> exists st', set_source st src (n - count) = Done st' /\
       st1 = goto (add_grant st' count) i (Finished (Some (OkVal (length (grants st)))))) /\
    (n < count -> st1 = goto st i (Finished (Some (Err (if closed then kGrantRevoked else kGrantUnavailable))))).
Proof.
  intros Hi Hn Hcl. pose proof (lookup_lt_Some _ _ _ Hi) as Hlt.
  assert (forall s pc, i < length (threads s) -> threads (goto s i pc) !! i = Some pc)%nat as Hgo
    by (intros s pc Hs; by apply list_lookup_insert_eq).
  assert (forall s pc pc', goto (goto s i pc) i pc' = goto s i pc') as Hgg
    by (intros s pc pc'; unfold goto; simpl; by rewrite list_insert_insert_eq).
  assert (forall pc, source_value (goto st i pc) src = Done n) as Hn' by (by destruct src).
  assert (forall pc, source_closed (goto st i pc) src = Done closed) as Hcl' by (by destruct src).
  unfold run. cbn [foldl fst snd mbind outcome_bind]. unfold step at 3. rewrite Hi. simpl thread_step.
  rewrite Hn. cbn [mbind outcome_bind]. unfold take_count.
  destruct (count <=? n) eqn:E; bool_cases.
  - unfold step at 2. rewrite Hgo by done. simpl thread_step. rewrite Hn'. cbn [mbind outcome_bind].
    rewrite Z.eqb_refl. simpl.
    assert (exists st', set_source st src (n - count) = Done st' /\
      length (grants st') = length (grants st) /\ length (threads st') = length (threads st) /\
      set_source (goto st i (TransferCas src count false n)) src (n - count)
      = Done (goto st' i (TransferCas src count false n))) as (st' & Hset & Hlg & Hlt' & ->).
    { destruct src as [|g]; simpl in *; [by eexists|]. change (get_grant (goto st i _) g) with (get_grant st g).
      destruct (get_grant st g) as [o|]; [|done]. simpl. eexists. split; [done|]. simpl.
      by rewrite length_insert. }
    simpl. rewrite Hgg. unfold step. rewrite Hgo by lia. simpl. eexists. split; [reflexivity|].
    split; [|lia]. intros _. exists st'. split; [done|]. rewrite Hlg. unfold goto, add_grant. simpl.
    by rewrite list_insert_insert_eq.
  - unfold step at 2. rewrite Hgo by done. simpl thread_step. rewrite Hcl'. cbn [mbind outcome_bind].
    rewrite Hgg. unfold step. rewrite Hgo by done. simpl. eexists. split; [reflexivity|].
    split; [lia|]. done.
Qed.

Definition sample_ops : list Pc :=
  [IssueGrant 4 false; Grow 3; SpendAll 0 true; IssueGrant 9 true].

Lemma sample_ops_start : Forall is_start sample_ops.
Proof. repeat constructor; vm_compute; discriminate. Qed.

Lemma sample_no_swap : Forall (fun pc => swapping pc = false) sample_ops.
Proof. repeat constructor. Qed.

Definition sample_schedule : list (nat * bool) :=
  ((fun i => (i, false)) <$> [0; 1; 3; 3; 0; 0; 3; 0; 1; 2; 3; 2; 3; 3; 3; 2; 3])%nat.

Definition sample_state : State :=
  match run sample_schedule (initial_state 10 sample_ops) with Done st => st | Panic => initial_state 0 [] end.

Lemma sample_run : run sample_schedule (initial_state 10 sample_ops) = Done sample_state.
Proof. vm_compute. reflexivity. Qed.

Lemma grant_conservation_witness : total_size_ (issuer sample_state)
  = available_ (issuer sample_state) + sum (size_ <$> grants sample_state) + sum (in_flight <$> threads sample_state).
Proof.
  apply (grant_conservation 10 sample_ops sample_schedule sample_state); [|apply sample_ops_start|apply sample_run|apply sample_no_swap].
  vm_compute. split; discriminate.
Defined.

Lemma issuer_destructor_witness :
  destroy_issuer sample_state = Done tt <->
  Forall (fun o => size_ o = 0) (grants sample_state) /\ Forall (fun pc => in_flight pc = 0) (threads sample_state).
Proof.
  apply (issuer_destructor 10 sample_ops sample_schedule sample_state); [|apply sample_ops_start|apply sample_no_swap|apply sample_run].
  vm_compute. split; discriminate.
Defined.

Lemma transfer_result_witness :
  exists st1, run [(0%nat, false); (0%nat, false); (0%nat, false)]
    (mkState (mkIssuer 5 5 true) [] [Transfer FromIssuer 3 false]) = Done st1 /\
    grants st1 = [mkGrant true 3 false].
Proof.
  destruct (transfer_result (mkState (mkIssuer 5 5 true) [] [Transfer FromIssuer 3 false]) 0 FromIssuer 3 5 true)
    as (st1 & Hr & Hok & _); [reflexivity..|].
  exists st1. split; [exact Hr|]. destruct Hok as (st' & Hs & ->); [lia|].
  injection Hs as <-. reflexivity.
Defined.

(** [Issuer::close] does not deny all further requests: one that the
    available count covers still succeeds. *)
Lemma issue_after_close :
  exists st, run (replicate 5 (0%nat, false) ++ replicate 5 (1%nat, false))
    (initial_state 5 [CloseIssuer; IssueGrant 3 false]) = Done st /\
    threads st = [Finished None; Finished (Some (OkVal 0%nat))] /\
    issuer_closed (issuer st) = true.
Proof. eexists. split; [vm_compute; reflexivity|]. done. Qed.

(** [swap] is not safe with respect to a concurrent [subsume]: what is added
    to the other grant between its two [set_value]s is overwritten, and the
    issuer can never be destroyed without a panic. *)
Lemma swap_loses_count :
  exists st, run ((fun i => (i, false)) <$> [0; 0; 0; 1; 1; 1; 0]%nat)
    (mkState (mkIssuer 0 10 false) [mkGrant true 5 false; mkGrant true 3 false; mkGrant true 2 false]
       [Swap 0 1; Subsume 1 2]) = Done st /\
    threads st = [Finished None; Finished None] /\
    grants st = [mkGrant true 3 false; mkGrant true 5 false; mkGrant true 0 false] /\
    total_size_ (issuer st) = 10.
Proof. eexists. split; [vm_compute; reflexivity|]. done. Qed.

(** Nor with respect to another [swap] of the two grants: each overwrites what
    the other has put back, and nothing is left. *)
Lemma swaps_lose_count :
  exists st, run ((fun i => (i, false)) <$> [0; 1; 0; 1; 0; 1; 0; 1]%nat)
    (mkState (mkIssuer 0 8 false) [mkGrant true 5 false; mkGrant true 3 false] [Swap 0 1; Swap 1 0]) = Done st /\
    threads st = [Finished None; Finished None] /\ (size_ <$> grants st) = [0; 0].
Proof. eexists. split; [vm_compute; reflexivity|]. done. Qed.
