(* ===== verification/ChunkedCoding.v ===== *)
(** * HTTP chunked transfer coding

    [pico_http/parser_impl.hpp] (the decoder) and
    [http/http_chunk_encoder.hpp] (the encoder).  Bytes are integers from 0
    to 255; a position in the input is the list of the bytes from there on.
    The decoder is a state machine that is fed pieces of the stream; it is
    compared with a reference machine that takes one byte at a time. *)

From S2P Require Import Prelude Status.
Open Scope Z_scope.

Definition LF : Z := 10.
Definition CR : Z := 13.

(* @ src/batteries/pico_http/parser_impl.hpp 596-603 CHUNKED_IN_CHUNK_SIZE .. CHUNKED_IN_TRAILERS_LINE_MIDDLE *)
Inductive ChunkState : Type :=
| CHUNKED_IN_CHUNK_SIZE
| CHUNKED_IN_CHUNK_EXT
| CHUNKED_IN_CHUNK_DATA
| CHUNKED_IN_CHUNK_CRLF
| CHUNKED_IN_TRAILERS_LINE_HEAD
| CHUNKED_IN_TRAILERS_LINE_MIDDLE.

(* @ src/batteries/pico_http/parser_decl.hpp 114-120 pico_http::ChunkedDecoder *)
Record ChunkedDecoder : Type := mkDecoder {
  bytes_left_in_chunk : Z;
  consume_trailer : bool;
  hex_count_ : Z;
  state_ : ChunkState }.

(* @ src/batteries/pico_http/parser_decl.hpp 122-125 pico_http::DecodeResult *)
Record DecodeResult : Type := mkResult { done : bool; bytes_consumed : Z }.

(** "should be zero-filled before start" *)
(* @ src/batteries/http/http_chunk_decoder.hpp 25-28 HttpChunkDecoder::HttpChunkDecoder *)
Definition zero_decoder (consume_trailer : bool) : ChunkedDecoder :=
  mkDecoder 0 consume_trailer 0 CHUNKED_IN_CHUNK_SIZE.

Definition with_state (d : ChunkedDecoder) (s : ChunkState) : ChunkedDecoder :=
  mkDecoder (bytes_left_in_chunk d) (consume_trailer d) (hex_count_ d) s.

Definition with_left (d : ChunkedDecoder) (n : Z) (s : ChunkState) : ChunkedDecoder :=
  mkDecoder n (consume_trailer d) (hex_count_ d) s.

(* @ src/batteries/pico_http/parser_impl.hpp 605-616 pico_http::detail::decode_hex *)
Definition decode_hex (ch : Z) : Z :=
  if (48 <=? ch) && (ch <=? 57) then ch - 48
  else if (65 <=? ch) && (ch <=? 70) then ch - 65 + 10
  else if (97 <=? ch) && (ch <=? 102) then ch - 97 + 10
  else -1.

(** How an inner loop ends. *)
Inductive Signal : Type := SReturn | SBreak | SError.

(* @ src/batteries/pico_http/parser_impl.hpp 647-663 pico_http::decode_chunked *)
Fixpoint size_loop (d : ChunkedDecoder) (buf : list Z) : ChunkedDecoder * list Z * Signal :=
  match buf with
  | [] => (d, [], SReturn)
  | c :: buf' =>
      let v := decode_hex c in
      if v =? -1 then (d, buf, if hex_count_ d =? 0 then SError else SBreak)
      else if hex_count_ d =? 16 then (d, buf, SError)
      else size_loop (mkDecoder (u64 (bytes_left_in_chunk d * 16 + v)) (consume_trailer d)
                        (hex_count_ d + 1) (state_ d)) buf'
  end.

(** The bytes from the first line feed on; none when there is no line feed. *)
(* @ src/batteries/pico_http/parser_impl.hpp 669-676 pico_http::decode_chunked *)
Fixpoint find_lf (buf : list Z) : list Z :=
  match buf with
  | [] => []
  | c :: buf' => if c =? LF then buf else find_lf buf'
  end.

(* @ src/batteries/pico_http/parser_impl.hpp 706-713 pico_http::decode_chunked *)
Fixpoint skip_cr (buf : list Z) : list Z :=
  match buf with
  | [] => []
  | c :: buf' => if c =? CR then skip_cr buf' else buf
  end.

(** How the [switch] ends: [Return] leaves the function, [Again] is the
    [break] that goes round the loop. *)
Inductive Round : Type :=
| Return (d : ChunkedDecoder) (rest : list Z) (out : list (list Z)) (is_done : bool)
| Failed (d : ChunkedDecoder) (out : list (list Z))
| Again (d : ChunkedDecoder) (rest : list Z) (out : list (list Z)).

(* @ src/batteries/pico_http/parser_impl.hpp 735-746 pico_http::decode_chunked *)
Definition in_trailers_line_middle (d : ChunkedDecoder) (buf : list Z) (out : list (list Z)) : Round :=
  match find_lf buf with
  | [] => Return d [] out false
  | _ :: rest => Again (with_state d CHUNKED_IN_TRAILERS_LINE_HEAD) rest out
  end.

(* @ src/batteries/pico_http/parser_impl.hpp 720-733 pico_http::decode_chunked *)
Definition in_trailers_line_head (d : ChunkedDecoder) (buf : list Z) (out : list (list Z)) : Round :=
  match skip_cr buf with
  | [] => Return d [] out false
  | c :: rest =>
      if c =? LF then Return d rest out true
      else in_trailers_line_middle (with_state d CHUNKED_IN_TRAILERS_LINE_MIDDLE) rest out
  end.

(* @ src/batteries/pico_http/parser_impl.hpp 705-719 pico_http::decode_chunked *)
Definition in_chunk_crlf (d : ChunkedDecoder) (buf : list Z) (out : list (list Z)) : Round :=
  match skip_cr buf with
  | [] => Return d [] out false
  | c :: rest =>
      if negb (c =? LF) then Failed d out
      else Again (with_state d CHUNKED_IN_CHUNK_SIZE) rest out
  end.

(* @ src/batteries/pico_http/parser_impl.hpp 689-703 pico_http::decode_chunked *)
Definition in_chunk_data (d : ChunkedDecoder) (buf : list Z) (out : list (list Z)) : Round :=
  let avail := Z.of_nat (length buf) in
  let left := bytes_left_in_chunk d in
  if avail <? left then
    Return (with_left d (left - avail) (state_ d)) [] (if 0 <? avail then out ++ [buf] else out) false
  else
    in_chunk_crlf (with_left d 0 CHUNKED_IN_CHUNK_CRLF) (drop (Z.to_nat left) buf)
      (out ++ [take (Z.to_nat left) buf]).

(* @ src/batteries/pico_http/parser_impl.hpp 667-687 pico_http::decode_chunked *)
Definition in_chunk_ext (d : ChunkedDecoder) (buf : list Z) (out : list (list Z)) : Round :=
  match find_lf buf with
  | [] => Return d [] out false
  | _ :: rest =>
      if bytes_left_in_chunk d =? 0 then
        if consume_trailer d then Again (with_state d CHUNKED_IN_TRAILERS_LINE_HEAD) rest out
        else Return d rest out true
      else in_chunk_data (with_state d CHUNKED_IN_CHUNK_DATA) rest out
  end.

(* @ src/batteries/pico_http/parser_impl.hpp 646-665 pico_http::decode_chunked *)
Definition in_chunk_size (d : ChunkedDecoder) (buf : list Z) (out : list (list Z)) : Round :=
  match size_loop d buf with
  | (d', _, SReturn) => Return d' [] out false
  | (d', _, SError) => Failed d' out
  | (d', rest, SBreak) =>
      in_chunk_ext (mkDecoder (bytes_left_in_chunk d') (consume_trailer d') 0 CHUNKED_IN_CHUNK_EXT) rest out
  end.

(* @ src/batteries/pico_http/parser_impl.hpp 645-749 pico_http::decode_chunked *)
Definition decode_round (d : ChunkedDecoder) (buf : list Z) (out : list (list Z)) : Round :=
  match state_ d with
  | CHUNKED_IN_CHUNK_SIZE => in_chunk_size d buf out
  | CHUNKED_IN_CHUNK_EXT => in_chunk_ext d buf out
  | CHUNKED_IN_CHUNK_DATA => in_chunk_data d buf out
  | CHUNKED_IN_CHUNK_CRLF => in_chunk_crlf d buf out
  | CHUNKED_IN_TRAILERS_LINE_HEAD => in_trailers_line_head d buf out
  | CHUNKED_IN_TRAILERS_LINE_MIDDLE => in_trailers_line_middle d buf out
  end.

(** Each further round has consumed a byte, so the length of the input plus
    one is enough fuel. *)
(* @ src/batteries/pico_http/parser_impl.hpp 644-750 pico_http::decode_chunked *)
Fixpoint decode_loop (fuel : nat) (d : ChunkedDecoder) (buf : list Z) (out : list (list Z)) : Round :=
  match decode_round d buf out, fuel with
  | Again d' rest out', S fuel' => decode_loop fuel' d' rest out'
  | r, _ => r
  end.

(** The decoder and the output are updated in place, errors included. *)
(* @ src/batteries/pico_http/parser_impl.hpp 626-751 pico_http::decode_chunked *)
Definition decode_chunked (d : ChunkedDecoder) (input : list Z) (output : list (list Z))
    : outcome (ChunkedDecoder * list (list Z) * StatusOr DecodeResult) :=
  match decode_loop (S (length input)) d input output with
  | Return d' rest out is_done =>
      Done (d', out, OkVal (mkResult is_done (Z.of_nat (length input) - Z.of_nat (length rest))))
  | Failed d' out => Done (d', out, Err kInvalidArgument)
  | Again _ _ _ => Panic
  end.

(* @ src/batteries/pico_http/parser_impl.hpp 753-756 pico_http::decode_chunked_is_in_data *)
Definition decode_chunked_is_in_data (d : ChunkedDecoder) : bool :=
  match state_ d with CHUNKED_IN_CHUNK_DATA => true | _ => false end.

(** ** The encoder *)

(* @ src/batteries/http/http_chunk_encoder.hpp 31-32 http_encode_chunked *)
Definition hex_digit (v : Z) : Z := if v <? 10 then 48 + v else 65 + (v - 10).

(** The four bits at [bit_offset = 4 * k]. *)
Definition nibble (n : Z) (k : nat) : Z := Z.land (Z.shiftr n (4 * Z.of_nat k)) 15.

(* @ src/batteries/http/http_chunk_encoder.hpp 42-45 http_encode_chunked *)
Fixpoint first_nibble (n : Z) (k : nat) : nat :=
  if nibble n k =? 0 then match k with O => O | S k' => first_nibble n k' end else k.

(* @ src/batteries/http/http_chunk_encoder.hpp 46-50 http_encode_chunked *)
Fixpoint emit_nibbles (n : Z) (k : nat) : list Z :=
  hex_digit (nibble n k) :: match k with O => [] | S k' => emit_nibbles n k' end.

(* @ src/batteries/http/http_chunk_encoder.hpp 37-52 http_encode_chunked *)
Definition encode_hex (n : Z) : list Z :=
  if n =? 0 then [48] else emit_nibbles n (first_nibble n 15).

(* @ src/batteries/http/http_chunk_encoder.hpp 34-35 http_encode_chunked *)
Definition last_chunk (include_trailer : bool) : list Z :=
  if include_trailer then [CR; LF; 48; CR; LF; CR; LF] else [CR; LF; 48; CR; LF].

(* @ src/batteries/http/http_chunk_encoder.hpp 78-103 http_encode_chunked *)
Definition encode_chunk (first_chunk : bool) (chunk : list Z) : outcome (list Z) :=
  let header := (if first_chunk then [] else [CR; LF]) ++ encode_hex (Z.of_nat (length chunk)) ++ [CR; LF] in
  check (0 <? Z.of_nat (length chunk));;
  Done (header ++ chunk).

(** What is written to a destination that accepts every write.  [src]: the
    chunks that the source delivers before the end of the stream. *)
(* @ src/batteries/http/http_chunk_encoder.hpp 56-105 http_encode_chunked *)
Fixpoint encode_loop (first_chunk include_trailer : bool) (src : list (list Z)) : outcome (list Z) :=
  match src with
  | [] => Done (last_chunk include_trailer)
  | chunk :: src' =>
      written ← encode_chunk first_chunk chunk;
      rest ← encode_loop false include_trailer src';
      Done (written ++ rest)
  end.

(* @ src/batteries/http/http_chunk_encoder.hpp 27-106 http_encode_chunked *)
Definition http_encode_chunked (include_trailer : bool) (src : list (list Z)) : outcome (list Z) :=
  encode_loop true include_trailer src.

(** ** The reference machine: one byte at a time *)

Inductive Event : Type := Take (d : ChunkedDecoder) (data : list Z) | Finish (d : ChunkedDecoder) | Bad.

Definition ext_byte (d : ChunkedDecoder) (c : Z) : Event :=
  if c =? LF then
    if bytes_left_in_chunk d =? 0 then
      if consume_trailer d then Take (with_state d CHUNKED_IN_TRAILERS_LINE_HEAD) [] else Finish d
    else Take (with_state d CHUNKED_IN_CHUNK_DATA) []
  else Take d [].

Definition step_byte (d : ChunkedDecoder) (c : Z) : Event :=
  match state_ d with
  | CHUNKED_IN_CHUNK_SIZE =>
      let v := decode_hex c in
      if v =? -1 then
        if hex_count_ d =? 0 then Bad
        else ext_byte (mkDecoder (bytes_left_in_chunk d) (consume_trailer d) 0 CHUNKED_IN_CHUNK_EXT) c
      else if hex_count_ d =? 16 then Bad
      else Take (mkDecoder (u64 (bytes_left_in_chunk d * 16 + v)) (consume_trailer d) (hex_count_ d + 1) (state_ d)) []
  | CHUNKED_IN_CHUNK_EXT => ext_byte d c
  | CHUNKED_IN_CHUNK_DATA =>
      let left := bytes_left_in_chunk d - 1 in
      Take (with_left d left (if left =? 0 then CHUNKED_IN_CHUNK_CRLF else CHUNKED_IN_CHUNK_DATA)) [c]
  | CHUNKED_IN_CHUNK_CRLF =>
      if c =? CR then Take d []
      else if c =? LF then Take (with_state d CHUNKED_IN_CHUNK_SIZE) [] else Bad
  | CHUNKED_IN_TRAILERS_LINE_HEAD =>
      if c =? CR then Take d []
      else if c =? LF then Finish d else Take (with_state d CHUNKED_IN_TRAILERS_LINE_MIDDLE) []
  | CHUNKED_IN_TRAILERS_LINE_MIDDLE =>
      if c =? LF then Take (with_state d CHUNKED_IN_TRAILERS_LINE_HEAD) [] else Take d []
  end.

Inductive End : Type := Incomplete (d : ChunkedDecoder) | Complete (d : ChunkedDecoder) (rest : list Z) | Invalid.

Fixpoint run_bytes (d : ChunkedDecoder) (buf : list Z) : list Z * End :=
  match buf with
  | [] => ([], Incomplete d)
  | c :: buf' =>
      match step_byte d c with
      | Take d' data => let r := run_bytes d' buf' in (data ++ r.1, r.2)
      | Finish d' => ([], Complete d' buf')
      | Bad => ([], Invalid)
      end
  end.

(** A decoder in the middle of a chunk has bytes left in it. *)
Definition wf (d : ChunkedDecoder) : Prop :=
  0 <= bytes_left_in_chunk d /\ (state_ d = CHUNKED_IN_CHUNK_DATA -> 0 < bytes_left_in_chunk d).

(** [Round] results that mean the same as a run of the reference machine;
    [Again] stands for what remains to be run. *)
Definition agrees (out : list (list Z)) (r : Round) (e : list Z * End) : Prop :=
  match r with
  | Return d rest out' false => rest = [] /\ e.2 = Incomplete d /\ wf d /\ concat out' = concat out ++ e.1
  | Return d rest out' true => e.2 = Complete d rest /\ concat out' = concat out ++ e.1
  | Failed _ _ => e.2 = Invalid
  | Again d rest out' => exists data, concat out' = concat out ++ data /\ wf d /\
      e = (data ++ (run_bytes d rest).1, (run_bytes d rest).2)
  end.

Lemma agrees_shift (out out' : list (list Z)) (r : Round) (data : list Z) (e : list Z * End) :
  agrees out' r e -> concat out' = concat out ++ data -> agrees out r (data ++ e.1, e.2).
Proof.
  intros H Ho. destruct r as [d rest o []|d o|d rest o]; simpl in *.
  - destruct H as [He ->]. by rewrite Ho, app_assoc.
  - destruct H as (-> & He & Hw & ->). by rewrite Ho, app_assoc.
  - done.
  - destruct H as (data' & -> & Hw & ->). exists (data ++ data'). simpl.
    split_and!; [by rewrite Ho, app_assoc|done|by rewrite app_assoc].
Qed.

Lemma agrees_same (out : list (list Z)) (r : Round) (e e' : list Z * End) : e = e' -> agrees out r e -> agrees out r e'.
Proof. by intros ->. Qed.

Lemma surjective_end (e : list Z * End) : e = (e.1, e.2).
Proof. by destruct e. Qed.

(** ** Each state agrees with the reference machine *)

Ltac skip_byte IH := apply (agrees_same _ _ _ _ (eq_sym (surjective_end _))), IH.

Lemma middle_agrees (d : ChunkedDecoder) (buf : list Z) (out : list (list Z)) :
  wf d -> state_ d = CHUNKED_IN_TRAILERS_LINE_MIDDLE ->
  agrees out (in_trailers_line_middle d buf out) (run_bytes d buf).
Proof.
  intros Hw Hs. unfold in_trailers_line_middle. induction buf as [|c buf IH]; simpl.
  - by rewrite app_nil_r.
  - unfold step_byte. rewrite Hs. destruct (c =? LF) eqn:E.
    + simpl. exists []. rewrite app_nil_r. split_and!; [done| |done]. split; [apply Hw|done].
    + apply (agrees_same _ _ _ _ (surjective_end _)), IH.
Qed.

Lemma head_agrees (d : ChunkedDecoder) (buf : list Z) (out : list (list Z)) :
  wf d -> state_ d = CHUNKED_IN_TRAILERS_LINE_HEAD ->
  agrees out (in_trailers_line_head d buf out) (run_bytes d buf).
Proof.
  intros Hw Hs. unfold in_trailers_line_head. induction buf as [|c buf IH]; simpl.
  - by rewrite app_nil_r.
  - unfold step_byte. rewrite Hs. destruct (c =? CR) eqn:Ec.
    + apply (agrees_same _ _ _ _ (surjective_end _)), IH.
    + destruct (c =? LF) eqn:E.
      * simpl. by rewrite app_nil_r.
      * apply (agrees_same _ _ _ _ (surjective_end _)), middle_agrees; [|done]. split; [apply Hw|done].
Qed.

Lemma crlf_agrees (d : ChunkedDecoder) (buf : list Z) (out : list (list Z)) :
  wf d -> state_ d = CHUNKED_IN_CHUNK_CRLF ->
  agrees out (in_chunk_crlf d buf out) (run_bytes d buf).
Proof.
  intros Hw Hs. unfold in_chunk_crlf. induction buf as [|c buf IH]; simpl.
  - by rewrite app_nil_r.
  - unfold step_byte. rewrite Hs. destruct (c =? CR) eqn:Ec.
    + apply (agrees_same _ _ _ _ (surjective_end _)), IH.
    + destruct (c =? LF) eqn:E; simpl; [|done].
      exists []. rewrite app_nil_r. split_and!; [done| |done]. split; [apply Hw|done].
Qed.

(** The bytes of a chunk are passed on. *)
Lemma run_data (d : ChunkedDecoder) (n : nat) (buf : list Z) :
  state_ d = CHUNKED_IN_CHUNK_DATA -> (n <= length buf)%nat -> Z.of_nat n <= bytes_left_in_chunk d ->
  (0 < n)%nat ->
  let left := bytes_left_in_chunk d - Z.of_nat n in
  let d' := with_left d left (if left =? 0 then CHUNKED_IN_CHUNK_CRLF else CHUNKED_IN_CHUNK_DATA) in
  run_bytes d buf = (take n buf ++ (run_bytes d' (drop n buf)).1, (run_bytes d' (drop n buf)).2).
Proof.
  revert d buf. induction n as [|n IH]; intros d buf Hs Hn Hl Hpos; [lia|].
  destruct buf as [|c buf]; [simpl in Hn; lia|]. simpl in Hn.
  cbn [run_bytes]. unfold step_byte. rewrite Hs. cbv zeta. simpl take. simpl drop.
  destruct n as [|n].
  - simpl. rewrite Z.sub_1_r. done.
  - rewrite (proj2 (Z.eqb_neq (bytes_left_in_chunk d - 1) 0)) by lia.
    rewrite IH; simpl bytes_left_in_chunk; [|done|lia|lia|lia].
    replace (bytes_left_in_chunk d - 1 - Z.of_nat (S n)) with (bytes_left_in_chunk d - Z.of_nat (S (S n))) by lia.
    done.
Qed.

Lemma data_agrees (d : ChunkedDecoder) (buf : list Z) (out : list (list Z)) :
  wf d -> state_ d = CHUNKED_IN_CHUNK_DATA ->
  agrees out (in_chunk_data d buf out) (run_bytes d buf).
Proof.
  intros [Hl Hpos] Hs. specialize (Hpos Hs). unfold in_chunk_data.
  destruct (Z.of_nat (length buf) <? bytes_left_in_chunk d) eqn:E; bool_cases.
  - destruct buf as [|c buf].
    + simpl. rewrite Z.sub_0_r, app_nil_r. split_and!; try done. by destruct d.
    + rewrite (run_data d (length (c :: buf)) (c :: buf) Hs) by (simpl in *; lia).
      rewrite (proj2 (Z.eqb_neq _ 0)) by lia. rewrite drop_all, firstn_all. simpl (0 <? _). rewrite <- Hs.
      split_and!; [done|done| |]; simpl.
      * split; simpl; simpl in E; lia.
      * rewrite concat_app. simpl. by rewrite ?app_nil_r.
  - rewrite (run_data d (Z.to_nat (bytes_left_in_chunk d)) buf Hs) by lia.
    rewrite Z2Nat.id, Z.sub_diag by lia. apply (agrees_shift out (out ++ [take (Z.to_nat (bytes_left_in_chunk d)) buf])).
    + apply crlf_agrees; [|done]. by split.
    + rewrite concat_app. simpl. by rewrite app_nil_r.
Qed.

Lemma ext_agrees (d : ChunkedDecoder) (buf : list Z) (out : list (list Z)) :
  wf d -> state_ d = CHUNKED_IN_CHUNK_EXT ->
  agrees out (in_chunk_ext d buf out) (run_bytes d buf).
Proof.
  intros Hw Hs. unfold in_chunk_ext. induction buf as [|c buf IH]; simpl.
  - by rewrite app_nil_r.
  - unfold step_byte. rewrite Hs. unfold ext_byte. destruct (c =? LF) eqn:E.
    + destruct (bytes_left_in_chunk d =? 0) eqn:El; bool_cases.
      * destruct (consume_trailer d); simpl; [|by rewrite app_nil_r].
        exists []. rewrite app_nil_r. split_and!; [done| |done]. split; [apply Hw|done].
      * apply (agrees_same _ _ _ _ (surjective_end _)), data_agrees; [|done].
        destruct Hw. split; simpl; lia.
    + apply (agrees_same _ _ _ _ (surjective_end _)), IH.
Qed.

(** The first byte that is not a digit is looked at again in the next state. *)
Lemma run_ext_first (d : ChunkedDecoder) (c : Z) (buf : list Z) :
  state_ d = CHUNKED_IN_CHUNK_SIZE -> decode_hex c = -1 -> hex_count_ d <> 0 ->
  run_bytes d (c :: buf)
  = run_bytes (mkDecoder (bytes_left_in_chunk d) (consume_trailer d) 0 CHUNKED_IN_CHUNK_EXT) (c :: buf).
Proof.
  intros Hs Hc Hh. cbn [run_bytes]. unfold step_byte. rewrite Hs, Hc. simpl.
  by rewrite (proj2 (Z.eqb_neq _ 0)).
Qed.

Lemma size_agrees (d : ChunkedDecoder) (buf : list Z) (out : list (list Z)) :
  wf d -> state_ d = CHUNKED_IN_CHUNK_SIZE ->
  agrees out (in_chunk_size d buf out) (run_bytes d buf).
Proof.
  unfold in_chunk_size. revert d. induction buf as [|c buf IH]; intros d Hw Hs.
  - simpl. by rewrite app_nil_r.
  - cbn [size_loop]. destruct (decode_hex c =? -1) eqn:Ev; bool_cases.
    + destruct (hex_count_ d =? 0) eqn:Eh; bool_cases.
      * cbn [run_bytes]. unfold step_byte. by rewrite Hs, Ev, Eh.
      * rewrite run_ext_first by done. apply ext_agrees; [|done]. destruct Hw. by split.
    + cbn [run_bytes]. unfold step_byte. rewrite Hs. cbv zeta. rewrite (proj2 (Z.eqb_neq _ (-1))) by done.
      destruct (hex_count_ d =? 16) eqn:Eh; [done|].
      apply (agrees_same _ _ _ _ (surjective_end _)), IH; [|done].
      split; simpl; [|done]. unfold uwrap. apply Z.mod_pos_bound. lia.
Qed.

Lemma round_agrees (d : ChunkedDecoder) (buf : list Z) (out : list (list Z)) :
  wf d -> agrees out (decode_round d buf out) (run_bytes d buf).
Proof.
  intros Hw. unfold decode_round. destruct (state_ d) eqn:Hs.
  - by apply size_agrees.
  - by apply ext_agrees.
  - by apply data_agrees.
  - by apply crlf_agrees.
  - by apply head_agrees.
  - by apply middle_agrees.
Qed.

(** ** The whole loop *)

Lemma find_lf_length (buf : list Z) : (length (find_lf buf) <= length buf)%nat.
Proof. induction buf as [|c buf IH]; simpl; [lia|]. destruct (c =? LF); simpl; lia. Qed.

Lemma skip_cr_length (buf : list Z) : (length (skip_cr buf) <= length buf)%nat.
Proof. induction buf as [|c buf IH]; simpl; [lia|]. destruct (c =? CR); simpl; lia. Qed.

Lemma size_loop_length (d d' : ChunkedDecoder) (buf rest : list Z) (s : Signal) :
  size_loop d buf = (d', rest, s) -> (length rest <= length buf)%nat.
Proof.
  revert d. induction buf as [|c buf IH]; intros d; simpl.
  - intros [= _ <- _]. simpl. lia.
  - destruct (decode_hex c =? -1); [by intros [= _ <- _]|].
    destruct (hex_count_ d =? 16); [by intros [= _ <- _]|]. intros H%IH. lia.
Qed.

Definition shorter (r : Round) (buf : list Z) : Prop :=
  match r with Again _ rest _ => (length rest < length buf)%nat | _ => True end.

Lemma shorter_weaken (r : Round) (buf buf' : list Z) :
  shorter r buf -> (length buf <= length buf')%nat -> shorter r buf'.
Proof. destruct r; simpl; lia || done. Qed.

Lemma middle_shorter (d : ChunkedDecoder) (buf : list Z) (out : list (list Z)) :
  shorter (in_trailers_line_middle d buf out) buf.
Proof.
  unfold in_trailers_line_middle. pose proof (find_lf_length buf).
  destruct (find_lf buf); simpl in *; lia || done.
Qed.

Lemma crlf_shorter (d : ChunkedDecoder) (buf : list Z) (out : list (list Z)) :
  shorter (in_chunk_crlf d buf out) buf.
Proof.
  unfold in_chunk_crlf. pose proof (skip_cr_length buf).
  destruct (skip_cr buf) as [|c rest]; [done|]. destruct (negb (c =? LF)); simpl in *; lia || done.
Qed.

Lemma data_shorter (d : ChunkedDecoder) (buf : list Z) (out : list (list Z)) :
  shorter (in_chunk_data d buf out) buf.
Proof.
  unfold in_chunk_data. destruct (_ <? _); [done|].
  eapply shorter_weaken; [apply crlf_shorter|]. rewrite length_drop. lia.
Qed.

Lemma ext_shorter (d : ChunkedDecoder) (buf : list Z) (out : list (list Z)) :
  shorter (in_chunk_ext d buf out) buf.
Proof.
  unfold in_chunk_ext. pose proof (find_lf_length buf). destruct (find_lf buf) as [|c rest]; [done|].
  destruct (_ =? 0); [by destruct (consume_trailer d); simpl in *|].
  eapply shorter_weaken; [apply data_shorter|]. simpl in *. lia.
Qed.

Lemma round_shorter (d : ChunkedDecoder) (buf : list Z) (out : list (list Z)) :
  shorter (decode_round d buf out) buf.
Proof.
  unfold decode_round. destruct (state_ d).
  - unfold in_chunk_size. destruct (size_loop d buf) as [[d' rest] []] eqn:E; try done.
    eapply shorter_weaken; [apply ext_shorter|]. by apply size_loop_length in E.
  - apply ext_shorter.
  - apply data_shorter.
  - apply crlf_shorter.
  - unfold in_trailers_line_head. pose proof (skip_cr_length buf).
    destruct (skip_cr buf) as [|c rest]; [done|]. destruct (c =? LF); [done|].
    eapply shorter_weaken; [apply middle_shorter|]. simpl in *. lia.
  - apply middle_shorter.
Qed.

Lemma loop_agrees (fuel : nat) (d : ChunkedDecoder) (buf : list Z) (out : list (list Z)) :
  wf d -> (length buf < fuel)%nat ->
  agrees out (decode_loop fuel d buf out) (run_bytes d buf) /\
  forall d' rest out', decode_loop fuel d buf out <> Again d' rest out'.
Proof.
  revert d buf out. induction fuel as [|fuel IH]; intros d buf out Hw Hf; [lia|].
  pose proof (round_agrees d buf out Hw) as Ha. pose proof (round_shorter d buf out) as Hs.
  cbn [decode_loop]. destruct (decode_round d buf out) as [| |d' rest out']; [done..|].
  destruct Ha as (data & Ho & Hw' & ->). simpl in Hs.
  destruct (IH d' rest out' Hw' ltac:(lia)) as [Ha Hn]. split; [|done].
  by apply (agrees_shift out out').
Qed.

(** [decode_chunked] in terms of the reference machine; it never runs out of
    fuel, so it always returns. *)
Lemma decode_chunked_spec (d : ChunkedDecoder) (buf : list Z) (out : list (list Z)) :
  wf d ->
  exists d' out' r, decode_chunked d buf out = Done (d', out', r) /\
    match run_bytes d buf with
    | (data, Incomplete e) => r = OkVal (mkResult false (Z.of_nat (length buf))) /\ d' = e /\ wf e /\
        concat out' = concat out ++ data
    | (data, Complete e rest) =>
        r = OkVal (mkResult true (Z.of_nat (length buf) - Z.of_nat (length rest))) /\ d' = e /\
        concat out' = concat out ++ data
    | (_, Invalid) => r = Err kInvalidArgument
    end.
Proof.
  intros Hw. destruct (loop_agrees (S (length buf)) d buf out Hw ltac:(lia)) as [Ha Hn].
  unfold decode_chunked. destruct (decode_loop _ _ _ _) as [d' rest out' []|d' out'|d' rest out']; simpl in Ha.
  - destruct (run_bytes d buf) as [data e]. simpl in Ha. destruct Ha as [-> Ho]. by do 3 eexists.
  - destruct (run_bytes d buf) as [data e]. simpl in Ha. destruct Ha as (-> & -> & Hwd & Ho).
    do 3 eexists. split; [done|]. simpl. by rewrite Z.sub_0_r.
  - destruct (run_bytes d buf) as [data e]. simpl in Ha. subst e. by do 3 eexists.
  - by destruct (Hn d' rest out').
Qed.

Lemma run_bytes_app (d : ChunkedDecoder) (a b : list Z) :
  run_bytes d (a ++ b) =
  match run_bytes d a with
  | (data, Incomplete d') => (data ++ (run_bytes d' b).1, (run_bytes d' b).2)
  | (data, Complete d' rest) => (data, Complete d' (rest ++ b))
  | (data, Invalid) => (data, Invalid)
  end.
Proof.
  revert d. induction a as [|c a IH]; intros d; simpl; [by destruct (run_bytes d b)|].
  destruct (step_byte d c) as [d' data|d'|]; [|done|done]. rewrite IH.
  destruct (run_bytes d' a) as [data' [d''|d'' rest|]]; simpl; by rewrite ?app_assoc.
Qed.

(** ** Feeding the stream in pieces *)

(** [decode_chunked] may be fed the stream in pieces.  If it wants more
    after [a], it has consumed all of [a], and decoding [b] next gives the
    same result, the same state and the same data as decoding [a ++ b] at
    once; if it finished or failed on [a], what follows makes no difference. *)
Theorem decode_chunked_pieces (d : ChunkedDecoder) (a b : list Z) (out : list (list Z)) :
  wf d ->
  exists da oa ra dw ow rw,
    decode_chunked d a out = Done (da, oa, ra) /\ decode_chunked d (a ++ b) out = Done (dw, ow, rw) /\
    match ra with
    | Err _ => rw = ra
    | OkVal res =>
        if done res then rw = ra /\ dw = da /\ concat ow = concat oa
        else bytes_consumed res = Z.of_nat (length a) /\
          exists db ob rb, decode_chunked da b oa = Done (db, ob, rb) /\
            match rb with
            | Err _ => rw = rb
            | OkVal res' => rw = OkVal (mkResult (done res') (Z.of_nat (length a) + bytes_consumed res')) /\
                dw = db /\ concat ow = concat ob
            end
    end.
Proof.
  intros Hw. destruct (decode_chunked_spec d a out Hw) as (da & oa & ra & Ha & Sa).
  destruct (decode_chunked_spec d (a ++ b) out Hw) as (dw & ow & rw & Hww & Sw).
  exists da, oa, ra, dw, ow, rw. split_and!; [done|done|]. rewrite run_bytes_app in Sw.
  destruct (run_bytes d a) as [data [e|e rest|]].
  - destruct Sa as (-> & -> & Hwe & Hoa). simpl. split; [done|].
    destruct (decode_chunked_spec e b oa Hwe) as (db & ob & rb & Hb & Sb).
    exists db, ob, rb. split; [done|].
    destruct (run_bytes e b) as [data' [e'|e' rest|]]; simpl in *.
    + destruct Sw as (-> & -> & _ & How), Sb as (-> & -> & _ & Hob). simpl.
      rewrite length_app, Nat2Z.inj_add, How, Hob, Hoa, app_assoc. done.
    + destruct Sw as (-> & -> & How), Sb as (-> & -> & Hob). simpl.
      rewrite length_app, How, Hob, Hoa, app_assoc. split_and!; [|done|done]. do 2 f_equal. lia.
    + by subst.
  - destruct Sa as (-> & -> & Hoa), Sw as (-> & -> & How). simpl.
    rewrite !length_app, Hoa, How. split_and!; [|done|done]. do 2 f_equal. lia.
  - by subst.
Qed.

Lemma decode_chunked_pieces_witness :
  exists d1, decode_chunked (zero_decoder false) [51; 13; 10; 97] [] = Done (d1, [[97]], OkVal (mkResult false 4)) /\
  exists d2, decode_chunked d1 [98; 99; 13; 10; 48; 13; 10] [[97]] = Done (d2, [[97]; [98; 99]], OkVal (mkResult true 7)).
Proof.
  destruct (decode_chunked_pieces (zero_decoder false) [51; 13; 10; 97] [98; 99; 13; 10; 48; 13; 10] [])
    as (da & oa & ra & dw & ow & rw & Ha & _ & H).
  - split; [done|]. discriminate.
  - vm_compute in Ha. injection Ha as <- <- <-. destruct H as (_ & db & ob & rb & Hb & H).
    vm_compute in Hb. injection Hb as <- <- <-. eexists. split; [reflexivity|]. eexists. reflexivity.
Defined.

(** ** Encoding and decoding *)

Lemma nibble_div (n : Z) (k : nat) : nibble n k = (n / 16 ^ Z.of_nat k) mod 16.
Proof.
  unfold nibble. change 15 with (Z.ones 4). rewrite Z.land_ones, Z.shiftr_div_pow2 by lia.
  rewrite Z.pow_mul_r by lia. done.
Qed.

Lemma nibble_range (n : Z) (k : nat) : 0 <= nibble n k < 16.
Proof. rewrite nibble_div. apply Z.mod_pos_bound. lia. Qed.

Lemma decode_hex_digit (v : Z) : 0 <= v < 16 -> decode_hex (hex_digit v) = v.
Proof. intros H. unfold decode_hex, hex_digit. repeat case_if; lia. Qed.

Lemma first_nibble_fits (n : Z) (k : nat) :
  0 <= n < 16 ^ Z.of_nat (S k) ->
  (first_nibble n k <= k)%nat /\ n < 16 ^ Z.of_nat (S (first_nibble n k)).
Proof.
  induction k as [|k IH]; intros Hn; simpl first_nibble; destruct (nibble n _ =? 0) eqn:E; bool_cases;
    try (split; [lia|lia]).
  rewrite nibble_div in E.
  assert (n < 16 ^ Z.of_nat (S k)) as Hlt.
  { assert (0 < 16 ^ Z.of_nat (S k)) by (apply Z.pow_pos_nonneg; lia).
    rewrite (Nat2Z.inj_succ (S k)), Z.pow_succ_r in Hn by lia.
    assert (0 <= n / 16 ^ Z.of_nat (S k) < 16) as Hq
      by (split; [apply Z.div_pos; lia|apply Z.div_lt_upper_bound; lia]).
    rewrite Z.mod_small in E by lia. apply Z.div_small_iff in E; lia. }
  destruct (IH ltac:(lia)) as [Hk Hj]. split; [lia|done].
Qed.

Definition in_size (t : bool) (left hex : Z) : ChunkedDecoder := mkDecoder left t hex CHUNKED_IN_CHUNK_SIZE.

Lemma run_digit (t : bool) (left hex v : Z) (rest : list Z) :
  0 <= v < 16 -> 0 <= hex < 16 -> 0 <= left -> left * 16 + v < 2 ^ 64 ->
  run_bytes (in_size t left hex) (hex_digit v :: rest) = run_bytes (in_size t (left * 16 + v) (hex + 1)) rest.
Proof.
  intros Hv Hh Hl Hfit. cbn [run_bytes]. unfold step_byte at 1. cbn [state_ in_size]. cbv zeta.
  rewrite decode_hex_digit by done. rewrite (proj2 (Z.eqb_neq v (-1))) by lia.
  cbn [hex_count_ in_size bytes_left_in_chunk consume_trailer]. rewrite (proj2 (Z.eqb_neq hex 16)) by lia.
  rewrite uwrap_small by lia. symmetry. apply surjective_end.
Qed.

Lemma run_nibbles (t : bool) (n left hex : Z) (k : nat) (rest : list Z) :
  0 <= n -> 0 <= left -> 0 <= hex -> hex + Z.of_nat (S k) <= 16 ->
  left * 16 ^ Z.of_nat (S k) + n mod 16 ^ Z.of_nat (S k) < 2 ^ 64 ->
  run_bytes (in_size t left hex) (emit_nibbles n k ++ rest)
  = run_bytes (in_size t (left * 16 ^ Z.of_nat (S k) + n mod 16 ^ Z.of_nat (S k)) (hex + Z.of_nat (S k))) rest.
Proof.
  revert left hex. induction k as [|k IH]; intros left hex Hn Hl Hh Hk Hfit; simpl emit_nibbles.
  - change (16 ^ Z.of_nat 1) with 16 in *. cbn [app].
    rewrite run_digit; [|apply nibble_range|lia|done|].
    + rewrite nibble_div. change (16 ^ Z.of_nat 0) with 1. by rewrite Z.div_1_r.
    + rewrite nibble_div. change (16 ^ Z.of_nat 0) with 1. by rewrite Z.div_1_r.
  - rewrite (Nat2Z.inj_succ (S k)), Z.pow_succ_r in Hfit |- * by lia.
    set (p := 16 ^ Z.of_nat (S k)) in *.
    assert (0 < p) as Hp by (apply Z.pow_pos_nonneg; lia).
    assert (n mod (16 * p) = n mod p + p * nibble n (S k)) as Hmod
      by (rewrite nibble_div, (Z.mul_comm 16 p), Z.rem_mul_r by lia; done).
    rewrite Hmod in Hfit |- *.
    pose proof (Z.mod_pos_bound n p Hp). pose proof (nibble_range n (S k)) as Hv.
    cbn [app]. rewrite run_digit; [|done|lia|done|nia].
    rewrite IH; [|done|nia|lia|lia|fold p; nia]. fold p. f_equal. unfold in_size. f_equal; nia.
Qed.

Lemma run_take (d d' : ChunkedDecoder) (c : Z) (buf : list Z) :
  step_byte d c = Take d' [] -> run_bytes d (c :: buf) = run_bytes d' buf.
Proof. intros H. cbn [run_bytes]. rewrite H. symmetry. apply surjective_end. Qed.

(** A decoder between two chunks. *)
Definition after_chunk (t : bool) : ChunkedDecoder := mkDecoder 0 t 0 CHUNKED_IN_CHUNK_CRLF.

Lemma run_chunk (t : bool) (chunk rest : list Z) :
  chunk <> [] -> Z.of_nat (length chunk) < 2 ^ 64 ->
  run_bytes (zero_decoder t) ((encode_hex (Z.of_nat (length chunk)) ++ [CR; LF]) ++ chunk ++ rest)
  = (chunk ++ (run_bytes (after_chunk t) rest).1, (run_bytes (after_chunk t) rest).2).
Proof.
  intros Hc Hfit. set (n := Z.of_nat (length chunk)) in *.
  assert (0 < n) as Hn by (destruct chunk; [done|unfold n; simpl; lia]).
  unfold encode_hex. rewrite (proj2 (Z.eqb_neq n 0)) by lia.
  destruct (first_nibble_fits n 15) as [Hk Hj]; [change (16 ^ Z.of_nat 16) with (2 ^ 64); lia|].
  set (k := first_nibble n 15) in *.
  assert (n mod 16 ^ Z.of_nat (S k) = n) as Hmod by (apply Z.mod_small; lia).
  rewrite <- app_assoc. change (zero_decoder t) with (in_size t 0 0).
  rewrite run_nibbles; [|lia|lia|lia|lia|rewrite Hmod; lia].
  rewrite Hmod, Z.mul_0_l, !Z.add_0_l.
  cbn [app]. rewrite run_ext_first; [|done|done|cbn [hex_count_ in_size]; lia]. cbn [bytes_left_in_chunk consume_trailer in_size].
  set (e := mkDecoder n t 0 CHUNKED_IN_CHUNK_EXT).
  rewrite (run_take e e) by done. rewrite (run_take e (with_state e CHUNKED_IN_CHUNK_DATA)).
  2: { unfold step_byte. cbn [state_ e]. unfold ext_byte. cbn [bytes_left_in_chunk e].
       by rewrite (proj2 (Z.eqb_neq n 0)) by lia. }
  rewrite (run_data _ (length chunk)); [|done|rewrite length_app; lia|simpl; lia|lia].
  cbn [with_state bytes_left_in_chunk e]. fold n. rewrite Z.sub_diag.
  by rewrite take_app_length, drop_app_length.
Qed.

Lemma run_separator (t : bool) (rest : list Z) :
  run_bytes (after_chunk t) (CR :: LF :: rest) = run_bytes (zero_decoder t) rest.
Proof. cbn. symmetry. apply surjective_end. Qed.

Lemma run_last_chunk (t : bool) (rest : list Z) :
  exists d, run_bytes (after_chunk t) (last_chunk t ++ rest) = ([], Complete d rest).
Proof. destruct t; eexists; cbn; reflexivity. Qed.

Lemma encode_loop_run (t first : bool) (src : list (list Z)) (rest : list Z) :
  Forall (fun c => c <> [] /\ Z.of_nat (length c) < 2 ^ 64) src -> (first = true -> src <> []) ->
  exists written d, encode_loop first t src = Done written /\
    run_bytes (if first then zero_decoder t else after_chunk t) (written ++ rest) = (concat src, Complete d rest).
Proof.
  intros Hsrc. revert first. induction Hsrc as [|c src [Hc Hl] Hsrc IH]; intros first Hf.
  - destruct first; [by destruct (Hf eq_refl)|]. destruct (run_last_chunk t rest) as [d Hd].
    by exists (last_chunk t), d.
  - destruct (IH false ltac:(done)) as (written & d & Hw & Hr). cbn [encode_loop].
    unfold encode_chunk. rewrite (proj2 (Z.ltb_lt 0 _)) by (destruct c; [done|simpl; lia]).
    cbn [check mbind outcome_bind]. rewrite Hw. cbn [mbind outcome_bind].
    eexists _, d. split; [reflexivity|]. destruct first; cbn [app].
    + rewrite <- !app_assoc. rewrite (app_assoc (encode_hex _)). rewrite run_chunk by done. by rewrite Hr.
    + rewrite run_separator, <- !app_assoc. rewrite (app_assoc (encode_hex _)), run_chunk by done. by rewrite Hr.
Qed.

(** What [http_encode_chunked] writes for a source that delivers at least
    one chunk, followed by anything, is decoded by [decode_chunked] (with the
    same choice about the trailer) to exactly the bytes of the source; it is
    done, and it has consumed exactly what was written. *)
Theorem chunked_roundtrip (t : bool) (src : list (list Z)) (tail : list Z) :
  Forall (fun c => c <> [] /\ Z.of_nat (length c) < 2 ^ 64) src -> src <> [] ->
  exists written d out, http_encode_chunked t src = Done written /\
    decode_chunked (zero_decoder t) (written ++ tail) []
    = Done (d, out, OkVal (mkResult true (Z.of_nat (length written)))) /\
    concat out = concat src.
Proof.
  intros Hsrc Hne. destruct (encode_loop_run t true src tail Hsrc ltac:(done)) as (written & d & Hw & Hr).
  destruct (decode_chunked_spec (zero_decoder t) (written ++ tail) []) as (d' & out & r & Hd & Hs);
    [split; [done|discriminate]|].
  rewrite Hr in Hs. destruct Hs as (-> & -> & Ho).
  exists written, d, out. split_and!; [done| |done]. rewrite Hd. do 4 f_equal. rewrite length_app. lia.
Qed.

Lemma chunked_roundtrip_witness :
  exists written d out, http_encode_chunked true [[104; 105]; [33]] = Done written /\
    decode_chunked (zero_decoder true) (written ++ [7]) []
    = Done (d, out, OkVal (mkResult true (Z.of_nat (length written)))) /\
    concat out = [104; 105; 33].
Proof.
  apply (chunked_roundtrip true [[104; 105]; [33]] [7]); [|discriminate].
  repeat constructor; discriminate.
Defined.

(** With no chunk at all, the encoder writes only the last chunk, which
    starts with the line break that ends a chunk's data: no decoder accepts
    it. *)
Lemma empty_body_does_not_decode (t : bool) :
  http_encode_chunked t [] = Done (last_chunk t) /\
  exists d, decode_chunked (zero_decoder t) (last_chunk t) [] = Done (d, [], Err kInvalidArgument).
Proof. split; [done|]. destruct t; eexists; vm_compute; reflexivity. Qed.
