(* ===== verification/ChunkSource.v ===== *)
(** * The chunk decoder as a buffer source

    [http/http_chunk_decoder.hpp]: [HttpChunkDecoder] reads a source and is one
    itself.  It decodes what the source returns from a checkpoint on, keeps the
    decoded buffers until they are consumed, and then consumes the bytes of the
    source that they came from.  [chunk_decoder_laws] shows that it keeps the
    laws of [BufferSource.SourceLaws], its content being what the reference
    machine of [ChunkedCoding] makes of the content of its source. *)

From S2P Require Import Prelude Status IntMath Buffer BufferSource ChunkedCoding.
Open Scope Z_scope.

(** [a - b] of two [usize]. *)
Definition usub (a b : nat) : nat := Z.to_nat (u64 (Z.of_nat a - Z.of_nat b)).

(* @ src/batteries/http/http_chunk_decoder.hpp 157-165 HttpChunkDecoder *)
Record HttpChunkDecoder (S : Type) : Type := mkChunkDecoder {
  src_ : S;
  decoder_checkpoint_ : ChunkedDecoder;
  decoder_latest_ : ChunkedDecoder;
  done_ : bool;
  decoded_src_size_ : nat;
  output_available_ : nat;
  output_consumed_ : nat;
  decoded_chunks_ : list buffer }.
Arguments mkChunkDecoder {S} src_ decoder_checkpoint_ decoder_latest_ done_ decoded_src_size_ output_available_ output_consumed_ decoded_chunks_.
Arguments src_ {S} _.
Arguments decoder_checkpoint_ {S} _.
Arguments decoder_latest_ {S} _.
Arguments done_ {S} _.
Arguments decoded_src_size_ {S} _.
Arguments output_available_ {S} _.
Arguments output_consumed_ {S} _.
Arguments decoded_chunks_ {S} _.

(* @ src/batteries/http/http_chunk_decoder.hpp 21-29 HttpChunkDecoder::HttpChunkDecoder *)
Definition chunk_decoder {S} (src : S) (consume_trailer : bool) : HttpChunkDecoder S :=
  mkChunkDecoder src (zero_decoder consume_trailer) (zero_decoder consume_trailer) false 0 0 0 [].

(* @ src/batteries/http/http_chunk_decoder.hpp 33-36 HttpChunkDecoder::size *)
Definition decoder_size {S} (d : HttpChunkDecoder S) : nat := usub (output_available_ d) (output_consumed_ d).

Section decoder.
Context {S : Type} `{BufferSource S}.

(* @ src/batteries/http/http_chunk_decoder.hpp 149-153 HttpChunkDecoder::consume_from_src *)
Definition consume_from_src (count : nat) (d : HttpChunkDecoder S) : io (HttpChunkDecoder S) :=
  src ← consume (Z.of_nat count) (src_ d);
  Ret (mkChunkDecoder src (decoder_checkpoint_ d) (decoder_latest_ d) (done_ d)
         (usub (decoded_src_size_ d) count) (output_available_ d) (output_consumed_ d) (decoded_chunks_ d)).

(* @ src/batteries/http/http_chunk_decoder.hpp 140-147 HttpChunkDecoder::release_decoded_chunks *)
Definition release_decoded_chunks (d : HttpChunkDecoder S) : io (HttpChunkDecoder S) :=
  consume_from_src (decoded_src_size_ d)
    (mkChunkDecoder (src_ d) (decoder_latest_ d) (decoder_latest_ d) (done_ d) (decoded_src_size_ d) 0 0 []).

(** A buffer has been decoded: [n_to_consume_from_src], and the new state. *)
(* @ src/batteries/http/http_chunk_decoder.hpp 95-110 HttpChunkDecoder::fetch_at_least *)
Definition buffer_decoded (latest : ChunkedDecoder) (chunks : list buffer) (result : DecodeResult)
    (n_to_consume_from_src : nat) (d : HttpChunkDecoder S) : nat * HttpChunkDecoder S :=
  let bytes_consumed := Z.to_nat (bytes_consumed result) in
  let decoded_src_size := (decoded_src_size_ d + bytes_consumed)%nat in
  let decoded_size := buffer_size chunks in
  let is_done := done_ d || done result in
  if negb (output_consumed_ d =? 0)%nat && (decoded_size <=? output_consumed_ d)%nat
  then ((n_to_consume_from_src + bytes_consumed)%nat,
        mkChunkDecoder (src_ d) latest latest is_done decoded_src_size
          (output_available_ d) (output_consumed_ d - decoded_size) [])
  else (n_to_consume_from_src,
        mkChunkDecoder (src_ d) (decoder_checkpoint_ d) latest is_done decoded_src_size
          (output_available_ d) (output_consumed_ d) chunks).

(** The loop over the fetched buffers: the error that ends it, if any, and
    [n_to_consume_from_src]. *)
(* @ src/batteries/http/http_chunk_decoder.hpp 89-111 HttpChunkDecoder::fetch_at_least *)
Fixpoint decode_buffers (bufs : list buffer) (n_to_consume_from_src : nat) (d : HttpChunkDecoder S)
    : outcome (option StatusCode * nat * HttpChunkDecoder S) :=
  match bufs with
  | [] => Done (None, n_to_consume_from_src, d)
  | src_buffer :: bufs =>
      '(latest, chunks, result) ← decode_chunked (decoder_latest_ d) src_buffer (decoded_chunks_ d);
      match result with
      | Err e =>
          Done (Some e, n_to_consume_from_src,
                mkChunkDecoder (src_ d) (decoder_checkpoint_ d) latest (done_ d) (decoded_src_size_ d)
                  (output_available_ d) (output_consumed_ d) chunks)
      | OkVal result =>
          let '(n, d) := buffer_decoded latest chunks result n_to_consume_from_src d in
          if done result then Done (None, n, d) else decode_buffers bufs n d
      end
  end.

(** [on_loop_exit] *)
(* @ src/batteries/http/http_chunk_decoder.hpp 82-87 HttpChunkDecoder::fetch_at_least *)
Definition on_loop_exit (n_to_consume_from_src : nat) (d : HttpChunkDecoder S) : io (HttpChunkDecoder S) :=
  d ← (if (0 <? n_to_consume_from_src)%nat then consume_from_src n_to_consume_from_src d else Ret d);
  Ret (mkChunkDecoder (src_ d) (decoder_checkpoint_ d) (decoder_latest_ d) (done_ d) (decoded_src_size_ d)
         (buffer_size (decoded_chunks_ d)) (output_consumed_ d) (decoded_chunks_ d)).

(** What happens when [src_.fetch_at_least] has returned: an error, or another
    round of the loop. *)
(* @ src/batteries/http/http_chunk_decoder.hpp 68-111 HttpChunkDecoder::fetch_at_least *)
Definition decode_fetched (fetched : StatusOr (list buffer)) (d : HttpChunkDecoder S)
    : io (option StatusCode * HttpChunkDecoder S) :=
  match fetched with
  | Err e =>
      if bool_decide (e = kEndOfStream) && negb (done_ d) then
        d ← (if (decoder_size d =? 0)%nat then release_decoded_chunks d else Ret d);
        Ret (Some kClosedBeforeEndOfStream, d)
      else Ret (Some e, d)
  | OkVal bufs =>
      '(error, n, d) ← io_of (decode_buffers bufs 0
        (mkChunkDecoder (src_ d) (decoder_checkpoint_ d) (decoder_checkpoint_ d) (done_ d) 0
           (output_available_ d) (output_consumed_ d) []));
      d ← on_loop_exit n d;
      Ret (error, d)
  end.

(* @ src/batteries/http/http_chunk_decoder.hpp 54-115 HttpChunkDecoder::fetch_at_least *)
Fixpoint decoder_fetch_loop (fuel : nat) (min_count : nat) (d : HttpChunkDecoder S)
    : io (StatusOr (list buffer) * HttpChunkDecoder S) :=
  match fuel with
  | O => NoFuel
  | Datatypes.S fuel =>
      if (decoder_size d <? min_count)%nat then
        if done_ d then
          d ← (if (decoder_size d =? 0)%nat then release_decoded_chunks d else Ret d);
          Ret (Err kEndOfStream, d)
        else
          let src_min_count := Z.of_nat (decoded_src_size_ d) + (Z.of_nat min_count - Z.of_nat (decoder_size d)) in
          '(fetched, src) ← fetch_at_least src_min_count (src_ d);
          '(error, d) ← decode_fetched fetched
            (mkChunkDecoder src (decoder_checkpoint_ d) (decoder_latest_ d) (done_ d) (decoded_src_size_ d)
               (output_available_ d) (output_consumed_ d) (decoded_chunks_ d));
          match error with
          | Some e => Ret (Err e, d)
          | None => decoder_fetch_loop fuel min_count d
          end
      else
        bufs ← io_of (consume_buffers_copy (decoded_chunks_ d) (output_consumed_ d));
        Ret (OkVal bufs, d)
  end.

(* @ src/batteries/http/http_chunk_decoder.hpp 120-129 HttpChunkDecoder::consume *)
Definition decoder_consume (count : Z) (d : HttpChunkDecoder S) : io (HttpChunkDecoder S) :=
  let output_consumed := Z.to_nat (u64 (Z.of_nat (output_consumed_ d) + count)) in
  let d := mkChunkDecoder (src_ d) (decoder_checkpoint_ d) (decoder_latest_ d) (done_ d) (decoded_src_size_ d)
             (output_available_ d) output_consumed (decoded_chunks_ d) in
  if (output_available_ d <? output_consumed)%nat then Panicked
  else if (output_consumed =? output_available_ d)%nat then release_decoded_chunks d else Ret d.

Context (fuel : nat).

(* @ src/batteries/http/http_chunk_decoder.hpp 17-167 HttpChunkDecoder *)
#[local] Instance http_chunk_decoder : BufferSource (HttpChunkDecoder S) := {|
  size := decoder_size;
  fetch_at_least n d := min_count ← to_usize n; decoder_fetch_loop fuel min_count d;
  consume := decoder_consume;
  close_for_read := release_decoded_chunks |}.

(** ** The laws *)

Context `{!SourceLaws S, !PartialConsume S, !FetchesMin S}.

Lemma run_bytes_length (d : ChunkedDecoder) (buf : list Z) : (length (run_bytes d buf).1 <= length buf)%nat.
Proof.
  revert d. induction buf as [|c buf IH]; intros d; simpl; [lia|].
  assert (forall d' data, step_byte d c = Take d' data -> (length data <= 1)%nat) as Hd.
  { intros d' data. unfold step_byte, ext_byte. repeat case_match; intros [= _ <-]; simpl; lia. }
  destruct (step_byte d c) as [d' data|d'|]; simpl; [|lia|lia].
  specialize (Hd _ _ eq_refl). specialize (IH d'). rewrite length_app. lia.
Qed.

Lemma usub_le (a b : nat) : (b <= a)%nat -> Z.of_nat a < 2 ^ 64 -> usub a b = (a - b)%nat.
Proof. intros Hab Hlt. unfold usub. rewrite uwrap_small by lia. lia. Qed.

(** What is left of the source after the last chunk. *)
Definition leftover (d : HttpChunkDecoder S) : option (list Z) :=
  if done_ d then Some (drop (decoded_src_size_ d) (content (src_ d)))
  else match (run_bytes (decoder_checkpoint_ d) (content (src_ d))).2 with Complete _ rest => Some rest | _ => None end.

(** The data from the checkpoint on. *)
Definition decoded (d : HttpChunkDecoder S) : list Z :=
  if done_ d then concat (decoded_chunks_ d) else (run_bytes (decoder_checkpoint_ d) (content (src_ d))).1.

Definition unread_data (d : HttpChunkDecoder S) : list Z := drop (output_consumed_ d) (decoded d).

(** The decoded chunks are what the first [decoded_src_size_] bytes of the
    source decode to, and the source may give up those. *)
Record decoder_inv (d : HttpChunkDecoder S) : Prop := {
  inv_src : valid (src_ d);
  inv_small : Z.of_nat (length (content (src_ d))) < 2 ^ 63;
  inv_size : (decoded_src_size_ d <= length (content (src_ d)))%nat;
  inv_available : output_available_ d = buffer_size (decoded_chunks_ d);
  inv_chunks : (buffer_size (decoded_chunks_ d) <= decoded_src_size_ d)%nat;
  inv_consumed : (output_consumed_ d <= output_available_ d)%nat;
  inv_release : can_consume (src_ d) (decoded_src_size_ d);
  inv_run : done_ d = false ->
    wf (decoder_checkpoint_ d) /\ wf (decoder_latest_ d) /\
    run_bytes (decoder_checkpoint_ d) (take (decoded_src_size_ d) (content (src_ d))) =
      (concat (decoded_chunks_ d), Incomplete (decoder_latest_ d)) }.

Lemma decoder_size_eq (d : HttpChunkDecoder S) :
  decoder_inv d -> decoder_size d = (buffer_size (decoded_chunks_ d) - output_consumed_ d)%nat.
Proof. intros []. unfold decoder_size. rewrite usub_le by lia. lia. Qed.

(** The chunks are the first of the data. *)
Lemma decoded_split (d : HttpChunkDecoder S) :
  decoder_inv d ->
  decoded d = concat (decoded_chunks_ d) ++
    if done_ d then [] else (run_bytes (decoder_latest_ d) (drop (decoded_src_size_ d) (content (src_ d)))).1.
Proof.
  intros [? ? ? ? ? ? ? Hr]. unfold decoded. destruct (done_ d); [by rewrite app_nil_r|]. destruct (Hr eq_refl) as (_ & _ & E).
  rewrite <- (take_drop (decoded_src_size_ d) (content (src_ d))) at 1. by rewrite run_bytes_app, E.
Qed.

(** Consuming decoded bytes of the source, with what they decode to. *)
Lemma consume_from_src_ret (k : nat) (d : HttpChunkDecoder S) :
  valid (src_ d) -> can_consume (src_ d) k -> (k <= decoded_src_size_ d)%nat -> Z.of_nat (decoded_src_size_ d) < 2 ^ 63 ->
  exists src', consume (Z.of_nat k) (src_ d) = Ret src' /\ valid src' /\ content src' = drop k (content (src_ d)) /\
    consume_from_src k d = Ret (mkChunkDecoder src' (decoder_checkpoint_ d) (decoder_latest_ d) (done_ d)
      (decoded_src_size_ d - k) (output_available_ d) (output_consumed_ d) (decoded_chunks_ d)).
Proof.
  intros Hv Hc Hk Hl. destruct (consume_spec k (src_ d) Hv Hc) as (src' & Hs & Hv' & Hcs). exists src'. split_and!; [done..|].
  unfold consume_from_src. rewrite Hs. cbn [mbind io_bind]. by rewrite usub_le by lia.
Qed.

Lemma release_spec (d : HttpChunkDecoder S) :
  decoder_inv d ->
  exists d', release_decoded_chunks d = Ret d' /\ decoder_inv d' /\ leftover d' = leftover d /\
    decoded d' = drop (output_available_ d) (decoded d) /\ done_ d' = done_ d /\
    output_consumed_ d' = O /\ output_available_ d' = O /\ decoded_src_size_ d' = O.
Proof.
  intros Hinv. pose proof (decoded_split d Hinv) as Hd. destruct Hinv as [Hv Hs Hl Ha Hc Ho Hrel Hrun]. unfold release_decoded_chunks.
  destruct (consume_from_src_ret (decoded_src_size_ d)
    (mkChunkDecoder (src_ d) (decoder_latest_ d) (decoder_latest_ d) (done_ d) (decoded_src_size_ d) 0 0 []))
    as (src' & Hcs & Hv' & Hct & ->); [done|done|done|cbn; lia|]. cbn in Hct |- *. rewrite Nat.sub_diag.
  eexists. split; [done|]. assert (content src' = drop (decoded_src_size_ d) (content (src_ d))) as Hct' by done.
  split_and!; try done.
  - split; cbn; try done.
    + rewrite Hct', length_drop. lia.
    + lia.
    + apply (consume_more (decoded_src_size_ d) 0 (src_ d)); [done|by rewrite Nat.add_0_r|done].
    + intros Hnd. destruct (Hrun Hnd) as (_ & Hw & _). by split_and!.
  - unfold leftover. cbn. rewrite drop_0, Hct'. destruct (done_ d) eqn:Ed; [done|]. destruct (Hrun eq_refl) as (_ & _ & E).
    rewrite <- (take_drop (decoded_src_size_ d) (content (src_ d))) at 2. by rewrite run_bytes_app, E.
  - rewrite Hd, Ha. unfold buffer_size. rewrite drop_app_length. unfold decoded. cbn. rewrite Hct'. by destruct (done_ d).
Qed.

(** *** Decoding the buffers of one fetch *)

(** [decode_buffers] has decoded [whole], of which [n] bytes are before the
    checkpoint [d] now has; [start] is the state before the first of them. *)
Definition decoding (start : ChunkedDecoder) (consumed : nat) (whole : list Z) (n : nat) (d : HttpChunkDecoder S) : Prop :=
  exists before, (n <= length whole)%nat /\ decoded_src_size_ d = length whole /\
    (output_consumed_ d + length before)%nat = consumed /\
    (buffer_size (decoded_chunks_ d) <= length whole - n)%nat /\
    if done_ d then exists e, run_bytes start whole = (before ++ concat (decoded_chunks_ d), Complete e [])
    else wf (decoder_checkpoint_ d) /\ wf (decoder_latest_ d) /\
      run_bytes start (take n whole) = (before, Incomplete (decoder_checkpoint_ d)) /\
      run_bytes (decoder_checkpoint_ d) (drop n whole) = (concat (decoded_chunks_ d), Incomplete (decoder_latest_ d)) /\
      (n = length whole \/ output_consumed_ d = O \/ (output_consumed_ d < buffer_size (decoded_chunks_ d))%nat).

Lemma run_complete_split (d e : ChunkedDecoder) (b data rest : list Z) :
  run_bytes d b = (data, Complete e rest) -> exists pre, b = pre ++ rest /\ run_bytes d pre = (data, Complete e []).
Proof.
  revert d data. induction b as [|c b IH]; intros d data; simpl; [done|]. destruct (step_byte d c) as [d' data'|d'|] eqn:Es; [| |done].
  - destruct (run_bytes d' b) as [data'' e'] eqn:Er. simpl. intros [= <- ->]. destruct (IH d' data'' Er) as (pre & -> & Hp).
    exists (c :: pre). split; [done|]. simpl. by rewrite Es, Hp.
  - intros [= <- <- <-]. exists [c]. split; [done|]. simpl. by rewrite Es.
Qed.

(** The machine over all that has been decoded. *)
Lemma decoding_run (start : ChunkedDecoder) (consumed : nat) (whole : list Z) (n : nat) (d : HttpChunkDecoder S) (b : list Z) :
  decoding start consumed whole n d -> done_ d = false ->
  exists before, (output_consumed_ d + length before)%nat = consumed /\
    run_bytes start (take n whole) = (before, Incomplete (decoder_checkpoint_ d)) /\
    run_bytes (decoder_checkpoint_ d) (drop n whole ++ b) =
      (concat (decoded_chunks_ d) ++ (run_bytes (decoder_latest_ d) b).1, (run_bytes (decoder_latest_ d) b).2) /\
    run_bytes start (whole ++ b) =
      (before ++ concat (decoded_chunks_ d) ++ (run_bytes (decoder_latest_ d) b).1, (run_bytes (decoder_latest_ d) b).2).
Proof.
  intros (before & Hn & Hs & Hc & Hb & Hd) Hnd. rewrite Hnd in Hd. destruct Hd as (_ & _ & Hr1 & Hr2 & _).
  exists before. split_and!; [done|done|by rewrite run_bytes_app, Hr2|].
  rewrite <- (take_drop n whole) at 1. rewrite <- app_assoc, run_bytes_app, Hr1, run_bytes_app, Hr2. done.
Qed.

Lemma buffer_decoded_spec (start latest : ChunkedDecoder) (consumed n : nat) (whole part data : list Z)
    (chunks : list buffer) (fin : bool) (d : HttpChunkDecoder S) :
  decoding start consumed whole n d -> done_ d = false -> concat chunks = concat (decoded_chunks_ d) ++ data ->
  run_bytes (decoder_latest_ d) part = (data, if fin then Complete latest [] else Incomplete latest) -> (fin = false -> wf latest) ->
  exists n' d', buffer_decoded latest chunks (mkResult fin (Z.of_nat (length part))) n d = (n', d') /\
    src_ d' = src_ d /\ output_available_ d' = output_available_ d /\ done_ d' = fin /\
    decoding start consumed (whole ++ part) n' d'.
Proof.
  intros Hdec Hnd Hch Hrun Hw. destruct (decoding_run start consumed whole n d part Hdec Hnd) as (before' & Hcon' & Hr1' & Hr2p & Hrall).
  pose proof Hdec as (before & Hn & Hs & Hcon & Hb & Hd). rewrite Hnd in Hd. destruct Hd as (Hwc & Hwl & Hr1 & Hr2 & Halt).
  rewrite Hr1 in Hr1'. injection Hr1' as <-. clear Hcon'. rewrite Hrun in Hr2p, Hrall. cbn [fst snd] in Hr2p, Hrall. rewrite <- Hch in Hr2p, Hrall.
  assert (buffer_size chunks <= length whole - n + length part)%nat as Hsz.
  { pose proof (run_bytes_length (decoder_checkpoint_ d) (drop n whole ++ part)) as Hl. rewrite Hr2p in Hl. cbn in Hl.
    rewrite length_app, length_drop in Hl. unfold buffer_size. lia. }
  assert (buffer_size (decoded_chunks_ d) <= buffer_size chunks)%nat as Hmono by (unfold buffer_size; rewrite Hch, length_app; lia).
  unfold buffer_decoded. cbn [bytes_consumed done]. rewrite Nat2Z.id, Hnd. cbn [orb].
  destruct (negb _ && _) eqn:E; do 2 eexists; (split; [reflexivity|]); cbn; split_and!; try done.
  - bool_cases. assert (n = length whole) as -> by (destruct Halt as [?|[?|?]]; [done|lia|lia]).
    exists (before ++ concat chunks). cbn. rewrite !length_app. fold (buffer_size chunks). split_and!; [lia|lia|lia|lia|].
    destruct fin; [exists latest; by rewrite app_nil_r|]. assert (take (length whole + length part) (whole ++ part) = whole ++ part) as ->
      by (apply take_ge; rewrite length_app; lia).
    rewrite drop_ge by (rewrite length_app; lia). split_and!; try done; try (by apply Hw). by left.
  - exists before. cbn. rewrite length_app. unfold buffer_size in *. split_and!; [lia|lia|done|lia|]. destruct fin; [by exists latest|].
    rewrite take_app_le, drop_app_le by done. split_and!; try done; [by apply Hw|].
    right. apply andb_false_iff in E as [E|E]; bool_cases; [by left|right; lia].
Qed.

Lemma decode_buffers_spec (start : ChunkedDecoder) (consumed : nat) (bufs : list buffer) (whole : list Z) (n : nat)
    (d : HttpChunkDecoder S) :
  decoding start consumed whole n d -> done_ d = false ->
  exists error n' d', decode_buffers bufs n d = Done (error, n', d') /\ src_ d' = src_ d /\
    output_available_ d' = output_available_ d /\ (n' <= decoded_src_size_ d')%nat /\
    (decoded_src_size_ d' <= length whole + buffer_size bufs)%nat /\
    match error with
    | Some e => e = kInvalidArgument /\ (run_bytes start (whole ++ concat bufs)).2 = Invalid
    | None => exists whole', whole' `prefix_of` whole ++ concat bufs /\ decoding start consumed whole' n' d' /\
        (done_ d' = false -> whole' = whole ++ concat bufs)
    end.
Proof.
  revert whole n d. induction bufs as [|b bufs IH]; intros whole n d Hdec Hnd.
  { pose proof Hdec as (before & Hn & Hs & _). exists None, n, d. split_and!; [done|done|done|lia|unfold buffer_size; simpl; lia|].
    exists whole. simpl. rewrite app_nil_r. by split_and!. }
  pose proof Hdec as (before & Hn & Hs & Hcon & Hb & Hd). rewrite Hnd in Hd. destruct Hd as (Hwc & Hwl & Hr1 & Hr2 & Halt).
  cbn [decode_buffers]. rewrite buffer_size_cons. cbn [concat].
  destruct (decode_chunked_spec (decoder_latest_ d) b (decoded_chunks_ d) Hwl) as (latest & chunks & r & -> & Hr). cbn [mbind outcome_bind].
  destruct (run_bytes (decoder_latest_ d) b) as [data [e|e rest|]] eqn:Eb.
  3: { subst r. do 3 eexists. split; [done|]. cbn. split_and!; [done|done|lia|lia|done|].
       destruct (decoding_run start consumed whole n d (b ++ concat bufs) Hdec Hnd) as (? & _ & _ & _ & ->). cbn.
       by rewrite run_bytes_app, Eb. }
  - destruct Hr as (-> & -> & Hwe & Hch).
    destruct (buffer_decoded_spec start e consumed n whole b data chunks false d Hdec Hnd Hch Eb (fun _ => Hwe))
      as (n1 & d1 & -> & Hsrc & Hav & Hdn & Hdec1). cbn [done].
    destruct (IH (whole ++ b) n1 d1 Hdec1 Hdn) as (error & n' & d' & Hres & Hsrc' & Hav' & Hn' & Hsz & Herr).
    exists error, n', d'. rewrite length_app in Hsz. split_and!; [done|congruence|congruence|done|lia|].
    by rewrite <- app_assoc in Herr.
  - destruct Hr as (-> & -> & Hch). destruct (run_complete_split _ _ _ _ _ Eb) as (pre & Hb' & Hpre).
    assert (Z.of_nat (length b) - Z.of_nat (length rest) = Z.of_nat (length pre)) as -> by (rewrite Hb', length_app; lia).
    destruct (buffer_decoded_spec start e consumed n whole pre data chunks true d Hdec Hnd Hch Hpre ltac:(done))
      as (n1 & d1 & -> & Hsrc & Hav & Hdn & Hdec1). cbn [done].
    pose proof Hdec1 as (before1 & Hn1 & Hs1 & _). exists None, n1, d1. rewrite length_app in Hn1, Hs1.
    assert (length pre <= length b)%nat by (rewrite Hb', length_app; lia).
    split_and!; [done|done|done|lia|lia|]. exists (whole ++ pre). split_and!; [|done|congruence].
    rewrite Hb', <- !app_assoc. apply prefix_app. by eexists.
Qed.

(** Without an error the decoder is again in a state that stands for the same
    data, and more of the source has been decoded. *)
Lemma decode_fetched_ok (bufs : list buffer) (d : HttpChunkDecoder S) (src : S) :
  decoder_inv d -> done_ d = false -> valid src -> content src = content (src_ d) ->
  concat bufs `prefix_of` content src -> (decoded_src_size_ d <= buffer_size bufs)%nat ->
  (forall k, (k <= buffer_size bufs)%nat -> can_consume src k) ->
  exists error d', decode_fetched (OkVal bufs) (mkChunkDecoder src (decoder_checkpoint_ d) (decoder_latest_ d) (done_ d)
      (decoded_src_size_ d) (output_available_ d) (output_consumed_ d) (decoded_chunks_ d)) = Ret (error, d') /\
    match error with
    | Some e => e = kInvalidArgument /\ (run_bytes (decoder_checkpoint_ d) (content (src_ d))).2 = Invalid
    | None => decoder_inv d' /\ leftover d' = leftover d /\ unread_data d' = unread_data d /\
        (length (content (src_ d')) <= length (content (src_ d)))%nat /\
        (done_ d' = false ->
          length (content (src_ d')) - decoded_src_size_ d' = length (content (src_ d)) - buffer_size bufs)%nat
    end.
Proof.
  intros [_ Hsm HD Hav Hch Hoc _ Hrun] Hnd Hv Hcs Hpre Hge Hcan. rewrite <- Hcs in Hsm, HD, Hrun. rewrite Hnd. destruct (Hrun Hnd) as (Hwc & Hwl & Hr). clear Hrun.
  unfold decode_fetched. cbn [src_ decoder_checkpoint_ decoder_latest_ done_ decoded_src_size_ output_available_ output_consumed_ decoded_chunks_].
  set (d0 := mkChunkDecoder src (decoder_checkpoint_ d) (decoder_checkpoint_ d) false 0 (output_available_ d) (output_consumed_ d) []).
  assert (decoding (decoder_checkpoint_ d) (output_consumed_ d) [] 0 d0) as Hdec0.
  { exists []. cbn. split_and!; try done; try lia. }
  destruct (decode_buffers_spec _ _ bufs [] 0 d0 Hdec0 eq_refl) as (error & n & d1 & -> & Hsrc & _ & Hn & Hsz & Herr).
  cbn [io_of mbind io_bind]. cbn [d0 src_] in Hsrc. cbn [length Nat.add] in Hsz.
  assert (buffer_size bufs <= length (content src))%nat as Hbl by (destruct Hpre as [? ->]; rewrite length_app; unfold buffer_size; lia).
  assert (exists d2, (if (0 <? n)%nat then consume_from_src n d1 else Ret d1) = Ret d2 /\
    valid (src_ d2) /\ content (src_ d2) = drop n (content src) /\
    (forall j, (n + j <= buffer_size bufs)%nat -> can_consume (src_ d2) j) /\
    d2 = mkChunkDecoder (src_ d2) (decoder_checkpoint_ d1) (decoder_latest_ d1) (done_ d1)
      (decoded_src_size_ d1 - n) (output_available_ d1) (output_consumed_ d1) (decoded_chunks_ d1)) as (d2 & Hex & Hv2 & Hc2 & Hcan2 & Ed2).
  { destruct (0 <? n)%nat eqn:E; bool_cases.
    - destruct (consume_from_src_ret n d1) as (src' & Hcons & Hv' & Hct & ->); [by rewrite Hsrc|rewrite Hsrc; apply Hcan; lia|done|lia|].
      eexists. split; [reflexivity|]. cbn. rewrite Hsrc in *. split_and!; [done|done| |done]. intros j Hj.
      apply (consume_more n j src); [done|apply Hcan; lia|done].
    - assert (n = O) as -> by lia. exists d1. rewrite Hsrc. split_and!; [done|done|done|intros j Hj; apply Hcan; lia|].
      rewrite Nat.sub_0_r, <- Hsrc. by destruct d1. }
  unfold on_loop_exit. rewrite Hex. cbn [mbind io_bind]. do 2 eexists. split; [reflexivity|].
  destruct error as [e|].
  { destruct Herr as [-> He]. split; [done|]. rewrite <- Hcs. destruct Hpre as [z ->]. rewrite run_bytes_app. simpl in He.
    destruct (run_bytes _ (concat bufs)) as [data e']. cbn in He. by subst e'. }
  destruct Herr as (whole & Hwp & (before & Hnw & HD1 & Hcon & Hchs & Hdn) & Hfin).
  simpl in Hwp, Hfin. rewrite Ed2. cbn -[buffer_size leftover unread_data].
  destruct (transitivity Hwp Hpre) as [y HC]. rewrite <- Hcs.
  assert (exists e', run_bytes (decoder_checkpoint_ d) whole = (before ++ concat (decoded_chunks_ d1), e') /\
    (done_ d1 = true -> exists e, e' = Complete e [])) as (e' & Hrw & He').
  { destruct (done_ d1); [destruct Hdn as [e ->]; eexists; split; [done|by eexists]|].
    destruct Hdn as (_ & _ & H1 & H2 & _). eexists. split; [|done]. by rewrite <- (take_drop n whole), run_bytes_app, H1, H2. }
  assert (output_consumed_ d <= length before + buffer_size (decoded_chunks_ d1))%nat as Hle.
  { assert (concat (decoded_chunks_ d) `prefix_of` before ++ concat (decoded_chunks_ d1)) as Hp.
    { assert (take (decoded_src_size_ d) (content src) `prefix_of` whole) as [z Hz].
      { destruct (decide (decoded_src_size_ d <= length whole)%nat) as [Hw|Hw].
        - rewrite HC, take_app_le by done. exists (drop (decoded_src_size_ d) whole). by rewrite take_drop.
        - exfalso. destruct (done_ d1) eqn:E1; [|rewrite (Hfin eq_refl) in Hw; unfold buffer_size in *; lia].
          destruct (He' eq_refl) as [e ->]. rewrite HC, take_app_ge, run_bytes_app, Hrw in Hr by lia. done. }
      rewrite Hz, run_bytes_app, Hr in Hrw. injection Hrw as Hrw _. rewrite <- Hrw. by eexists. }
    destruct Hp as [z Hz]. apply (f_equal length) in Hz. rewrite !length_app in Hz. unfold buffer_size in *. lia. }
  assert (length (content (src_ d2)) = length (content src) - n)%nat as Hlen by (by rewrite Hc2, length_drop).
  assert (length whole <= length (content src))%nat as Hwl' by (rewrite HC, length_app; lia).
  assert (take (decoded_src_size_ d1 - n) (drop n (content src)) = drop n whole) as Htake.
  { rewrite HD1, HC, drop_app_le, take_app_le by (rewrite ?length_drop; lia). apply take_ge. rewrite length_drop. lia. }
  split_and!.
  - split; cbn -[buffer_size]; [done|lia|lia|done|lia|lia|apply Hcan2; lia|].
    intros Hnd1. rewrite Hnd1 in Hdn. destruct Hdn as (H1 & H2 & _ & H3 & _). by rewrite Hc2, Htake.
  - unfold leftover. cbn. rewrite Hnd, Hc2, <- Hcs. destruct (done_ d1).
    + destruct (He' eq_refl) as [e ->]. rewrite drop_drop, HC, run_bytes_app, Hrw. cbn. f_equal.
      rewrite drop_app_ge by lia. by match goal with |- drop ?m _ = _ => replace m with O by lia end.
    + destruct Hdn as (_ & _ & H1 & _ & _). rewrite <- (take_drop n (content src)) at 2.
      rewrite HC, take_app_le, run_bytes_app, H1 by done. done.
  - unfold unread_data, decoded. cbn. rewrite Hnd, Hc2, <- Hcs, <- Hcon, Nat.add_comm, <- drop_drop. f_equal. destruct (done_ d1).
    + destruct (He' eq_refl) as [e ->]. rewrite HC, run_bytes_app, Hrw. cbn. by rewrite drop_app_length.
    + destruct Hdn as (_ & _ & H1 & _ & _). rewrite <- (take_drop n (content src)) at 2.
      rewrite HC, take_app_le, run_bytes_app, H1 by done. cbn. by rewrite drop_app_length.
  - lia.
  - intros Hnd1. rewrite (Hfin Hnd1) in HD1. unfold buffer_size. lia.
Qed.

(** *** [fetch_at_least] and [consume] *)

(** Nothing decoded is kept once the decoder is done and all has been consumed. *)
Definition settled (d : HttpChunkDecoder S) : Prop :=
  done_ d = true -> output_consumed_ d = output_available_ d -> decoded_src_size_ d = O.

Definition same_stream (d d' : HttpChunkDecoder S) : Prop :=
  decoder_inv d' /\ leftover d' = leftover d /\ unread_data d' = unread_data d /\
  (length (content (src_ d')) <= length (content (src_ d)))%nat.

Lemma same_stream_trans (d1 d2 d3 : HttpChunkDecoder S) : same_stream d1 d2 -> same_stream d2 d3 -> same_stream d1 d3.
Proof. intros (_ & H1 & H2 & H3) (? & H5 & H6 & H7). split_and!; [done|congruence|congruence|lia]. Qed.

(** Rounds of the loop that are left. *)
Definition rounds (d : HttpChunkDecoder S) : nat :=
  if done_ d then O else Datatypes.S (length (content (src_ d)) - decoded_src_size_ d).

Lemma release_unread (d : HttpChunkDecoder S) :
  decoder_inv d -> output_consumed_ d = output_available_ d ->
  exists d', release_decoded_chunks d = Ret d' /\ same_stream d d' /\ settled d' /\ done_ d' = done_ d /\
    output_consumed_ d' = O /\ output_available_ d' = O.
Proof.
  intros Hinv Ho. destruct (release_spec d Hinv) as (d' & Hr & Hinv' & Hl & Hd & Hdn & Hoc & Hav & Hsz).
  exists d'. split; [done|]. split; [|split; [by intros _ _|by split_and!]]. split; [done|]. split; [done|]. split.
  - unfold unread_data. by rewrite Hd, Hoc, Ho.
  - unfold release_decoded_chunks, consume_from_src in Hr. cbn in Hr. destruct Hinv.
    destruct (consume_spec (decoded_src_size_ d) (src_ d)) as (src' & Hc & _ & Hct); [done|done|].
    rewrite Hc in Hr. injection Hr as <-. cbn. rewrite Hct, length_drop. lia.
Qed.

Lemma fetch_loop_spec (n min_count : nat) (d : HttpChunkDecoder S) :
  decoder_inv d -> (rounds d < n)%nat ->
  match decoder_fetch_loop n min_count d with
  | Ret (OkVal bufs, d') =>
      same_stream d d' /\ concat bufs `prefix_of` unread_data d' /\ (min_count <= buffer_size bufs)%nat /\
      buffer_size bufs = (output_available_ d' - output_consumed_ d')%nat /\ (min_count = O -> d' = d)
  | Ret (Err e, d') =>
      e = kEndOfStream -> same_stream d d' /\ settled d' /\ (length (unread_data d) < min_count)%nat /\ done_ d' = true
  | Blocked => True
  | _ => False
  end.
Proof.
  revert d. induction n as [|n IH]; intros d Hinv Hn; [lia|]. cbn [decoder_fetch_loop]. pose proof (decoder_size_eq d Hinv) as Hsz.
  destruct (decoder_size d <? min_count)%nat eqn:E; bool_cases.
  2: { destruct (consume_buffers_done (decoded_chunks_ d) (output_consumed_ d)) as (bufs & Hc & Hb);
         [destruct Hinv; lia|]. unfold consume_buffers_copy. rewrite Hc. cbn [io_of mbind io_bind].
       assert (buffer_size bufs = buffer_size (decoded_chunks_ d) - output_consumed_ d)%nat as Hbs
         by (unfold buffer_size; by rewrite Hb, length_drop).
       split; [by split_and!|]. split_and!; [|lia| |done].
       - unfold unread_data. rewrite (decoded_split d Hinv), Hb, drop_app_le by (destruct Hinv; unfold buffer_size in *; lia). by eexists.
       - destruct Hinv. lia. }
  destruct (done_ d) eqn:Ed.
  { assert (length (unread_data d) = decoder_size d) as Hlen.
    { rewrite Hsz. unfold unread_data. rewrite (decoded_split d Hinv), Ed, app_nil_r, length_drop. done. }
    destruct (decoder_size d =? 0)%nat eqn:E0; bool_cases; cbn [mbind io_bind].
    - destruct (release_unread d Hinv) as (d' & -> & Hsame & Hset & Hdn & _); [destruct Hinv; lia|]. cbn [mbind io_bind].
      intros _. split_and!; [done|done|lia|congruence].
    - intros _. split; [by split_and!|]. split_and!; [|lia|done]. intros _ H'. destruct Hinv. lia. }
  assert (rounds d = Datatypes.S (length (content (src_ d)) - decoded_src_size_ d)) as Hrd by (unfold rounds; by rewrite Ed).
  set (m := Z.of_nat (decoded_src_size_ d) + (Z.of_nat min_count - Z.of_nat (decoder_size d))).
  pose proof (inv_src d Hinv) as Hv. pose proof (fetch_spec m (src_ d) Hv ltac:(lia)) as Hf.
  destruct (fetch_at_least m (src_ d)) as [[[bufs|e] src]| | |] eqn:Ef; cbn [mbind io_bind]; try done.
  - destruct Hf as (Hv' & Hc & Hp & _ & _). pose proof (fetches_min m (src_ d) src bufs Hv ltac:(lia) Ef) as Hmin.
    destruct (decode_fetched_ok bufs d src Hinv Ed Hv' Hc) as (error & d' & Hd & He);
      [by rewrite Hc|lia|intros k Hk; exact (partial_consume m (src_ d) src bufs k Hv ltac:(lia) Ef Hk)|].
    rewrite Ed in Hd. rewrite Hd. cbn [mbind io_bind]. destruct error as [e|]; [by destruct He as [-> _]|].
    destruct He as (Hinv' & Hl & Hu & Hlen & Hround).
    assert (same_stream d d') as Hsame by (by split_and!).
    assert (rounds d' < n)%nat as Hn'.
    { unfold rounds. destruct (done_ d'); [lia|]. rewrite Hround by done.
      assert (buffer_size bufs <= length (content (src_ d)))%nat by (destruct Hp as [z ->]; rewrite length_app; unfold buffer_size; lia). lia. }
    specialize (IH d' Hinv' Hn'). destruct (decoder_fetch_loop n min_count d') as [[[bufs'|e] d'']| | |]; try done.
    + destruct IH as (H1 & H2 & H3 & H4 & _). split; [by eapply same_stream_trans|]. split_and!; [done|done|done|lia].
    + intros He. destruct (IH He) as (H1 & H2 & H3 & H4). split; [by eapply same_stream_trans|]. split_and!; [done|congruence|done].
  - unfold decode_fetched. destruct (_ && _) eqn:Ee; cbn [mbind io_bind].
    + assert (e = kEndOfStream) as -> by (apply andb_true_iff in Ee as [Ee _]; by apply bool_decide_eq_true in Ee).
      destruct (Hf eq_refl) as (Hv' & Hc & _).
      set (d1 := mkChunkDecoder src _ _ _ _ _ _ _).
      destruct (decoder_size d1 =? 0)%nat; cbn [mbind io_bind]; [|done].
      destruct (release_spec d1) as (d' & -> & _); [|done]. destruct Hinv. split; cbn; rewrite ?Hc; try done.
      * exact (end_keeps m _ (src_ d) src Hv ltac:(lia) inv_release0 Ef).
      * intros _. by apply inv_run0.
    + cbn in Ee. rewrite andb_true_r in Ee. by apply bool_decide_eq_false in Ee.
Qed.

(** The decoder keeps the laws of a source.  [L]: what its source will be left
    with; it does not change. *)
Context (L : option (list Z)).

#[local, refine] Instance chunk_decoder_laws : SourceLaws (HttpChunkDecoder S) := {|
  content := unread_data;
  valid d := decoder_inv d /\ leftover d = L /\ settled d /\ (Datatypes.S (length (content (src_ d))) < fuel)%nat;
  can_consume d k := (k <= output_available_ d - output_consumed_ d)%nat;
  ended d := done_ d = true /\ (output_consumed_ d = output_available_ d -> decoded_src_size_ d = O) |}.
Proof.
  - intros n d (Hinv & HL & Hset & Hfuel) Hn. cbn [fetch_at_least http_chunk_decoder]. rewrite to_usize_ret by done. cbn [mbind io_bind].
    assert (rounds d < fuel)%nat as Hr by (unfold rounds; destruct (done_ d); lia).
    pose proof (fetch_loop_spec fuel (Z.to_nat n) d Hinv Hr) as Hf.
    destruct (decoder_fetch_loop fuel (Z.to_nat n) d) as [[[bufs|e] d']| | |]; try done.
    + destruct Hf as ((Hinv' & HL' & Hu & Hlen) & Hp & Hmin & Hsz & H0'). split_and!; [done|congruence| |lia|done|by rewrite <- Hu|lia|lia].
      destruct (decide (Z.to_nat n = O)) as [Hz|Hz]; [by rewrite H0'|]. intros _ Ho. lia.
    + intros He. destruct (Hf He) as ((Hinv' & HL' & Hu & Hlen) & Hset' & Hlt & Hdn). split_and!; [done|congruence|done|lia|done|lia|done|auto].
  - intros k d (Hinv & HL & Hset & Hfuel) Hk. cbn [consume http_chunk_decoder]. unfold decoder_consume.
    assert (Z.of_nat (output_available_ d) < 2 ^ 63 /\ (output_consumed_ d <= output_available_ d)%nat) as [Hsmall Hoc] by (destruct Hinv; lia).
    rewrite uwrap_small by lia. replace (Z.to_nat (Z.of_nat (output_consumed_ d) + Z.of_nat k)) with (output_consumed_ d + k)%nat by lia.
    set (d1 := mkChunkDecoder _ _ _ _ _ _ _ _). change (output_available_ d1) with (output_available_ d).
    destruct (output_available_ d <? output_consumed_ d + k)%nat eqn:E1; bool_cases; [destruct Hinv; lia|].
    assert (decoder_inv d1) as Hinv1 by (destruct Hinv; split; cbn; try done; lia).
    assert (unread_data d1 = drop k (unread_data d)) as Hu1 by (unfold unread_data; by rewrite drop_drop).
    destruct (output_consumed_ d + k =? output_available_ d)%nat eqn:E2; bool_cases.
    + destruct (release_unread d1 Hinv1) as (d' & -> & (Hinv' & HL' & Hu & Hlen) & Hset' & _); [done|]. exists d'.
      cbn in Hlen. split_and!; [done|done| |done|lia|congruence]. by rewrite HL'.
    + exists d1. split_and!; [done|done|done| |done|done]. intros _ Ho. by cbn in Ho.
Defined.

Lemma unread_done (d : HttpChunkDecoder S) :
  decoder_inv d -> (output_available_ d - output_consumed_ d <= length (unread_data d))%nat /\
    (done_ d = true -> length (unread_data d) = output_available_ d - output_consumed_ d)%nat.
Proof.
  intros Hinv. unfold unread_data. rewrite (decoded_split d Hinv), length_drop, length_app. destruct Hinv. unfold buffer_size in *.
  split; [lia|]. intros ->. simpl. lia.
Qed.

Lemma decoder_fetch (n : Z) (d : HttpChunkDecoder S) :
  valid d -> 0 <= n -> fetch_at_least n d = decoder_fetch_loop fuel (Z.to_nat n) d /\ decoder_inv d /\ (rounds d < fuel)%nat.
Proof.
  intros (Hinv & _ & _ & Hf) Hn. cbn. rewrite to_usize_ret by done. split_and!; [done|done|]. unfold rounds. destruct (done_ d); lia.
Qed.

#[local] Instance chunk_decoder_partial : PartialConsume (HttpChunkDecoder S).
Proof.
  split.
  - intros n d d' bufs k Hv Hn Hf Hk. destruct (decoder_fetch n d Hv Hn) as (E & Hinv & Hr). rewrite E in Hf.
    pose proof (fetch_loop_spec fuel (Z.to_nat n) d Hinv Hr) as Hs. rewrite Hf in Hs. destruct Hs as (_ & _ & _ & Hs & _). cbn. lia.
  - intros k j d d' Hv Hk Hc. cbn in Hk, Hc |- *. destruct Hv as (Hinv & _). unfold decoder_consume in Hc.
    assert (Z.of_nat (output_available_ d) < 2 ^ 63 /\ (output_consumed_ d <= output_available_ d)%nat) as [Hsmall Hoc] by (destruct Hinv; lia).
    rewrite uwrap_small in Hc by lia.
    replace (Z.to_nat (Z.of_nat (output_consumed_ d) + Z.of_nat k)) with (output_consumed_ d + k)%nat in Hc by lia.
    cbn [output_available_] in Hc. destruct (_ <? _)%nat; [done|]. destruct (_ =? _)%nat eqn:E; bool_cases; [|injection Hc as <-; cbn; lia].
    unfold release_decoded_chunks, consume_from_src in Hc. apply io_bind_ret in Hc as (src' & _ & [= <-]). cbn. lia.
  - intros n k d d' Hv Hn Hk Hf. destruct (decoder_fetch n d Hv Hn) as (E & Hinv & Hr). rewrite E in Hf.
    pose proof (fetch_loop_spec fuel (Z.to_nat n) d Hinv Hr) as Hs. rewrite Hf in Hs.
    destruct (Hs eq_refl) as ((Hinv' & _ & Hu & _) & _ & _ & Hd). cbn in *.
    pose proof (proj1 (unread_done d Hinv)). pose proof (proj2 (unread_done d' Hinv') Hd) as Hl. rewrite Hu in Hl. lia.
Qed.

#[local] Instance chunk_decoder_min : FetchesMin (HttpChunkDecoder S).
Proof.
  intros n d d' bufs Hv Hn Hf. destruct (decoder_fetch n d Hv Hn) as (E & Hinv & Hr). rewrite E in Hf.
  pose proof (fetch_loop_spec fuel (Z.to_nat n) d Hinv Hr) as Hs. rewrite Hf in Hs. destruct Hs as (_ & _ & Hs & _). lia.
Qed.

(** The source does not wait for data that it has, nor fails. *)
Context (Hdelivers : forall (n : Z) (s : S), valid s -> 0 <= n -> n <= Z.of_nat (length (content s)) ->
  exists bufs s', fetch_at_least n s = Ret (OkVal bufs, s')).

Lemma fetch_loop_reliable (rest : list Z) (n : nat) (d : HttpChunkDecoder S) :
  decoder_inv d -> leftover d = Some rest -> (rounds d < n)%nat ->
  exists r d', decoder_fetch_loop n 1 d = Ret (r, d') /\ forall e, r = Err e -> e = kEndOfStream.
Proof.
  revert d. induction n as [|n IH]; intros d Hinv Hrest Hn; [lia|]. cbn [decoder_fetch_loop]. pose proof (decoder_size_eq d Hinv) as Hsz.
  destruct (decoder_size d <? 1)%nat eqn:E; bool_cases.
  2: { destruct (consume_buffers_done (decoded_chunks_ d) (output_consumed_ d)) as (bufs & Hc & Hb);
         [destruct Hinv; lia|]. unfold consume_buffers_copy. rewrite Hc. by do 2 eexists. }
  destruct (done_ d) eqn:Ed.
  { destruct (decoder_size d =? 0)%nat eqn:E0; cbn [mbind io_bind]; [|by do 2 eexists; split; [done|intros e [= <-]]].
    destruct (release_spec d Hinv) as (d' & -> & _). do 2 eexists. split; [done|]. by intros e [= <-]. }
  assert (rounds d = Datatypes.S (length (content (src_ d)) - decoded_src_size_ d)) as Hrd by (unfold rounds; by rewrite Ed).
  pose proof (inv_src d Hinv) as Hv. pose proof (inv_size d Hinv) as HD.
  assert (exists e, (run_bytes (decoder_checkpoint_ d) (content (src_ d))).2 = Complete e rest) as [fin Hcomp].
  { unfold leftover in Hrest. rewrite Ed in Hrest. destruct (run_bytes _ _).2; try done. injection Hrest as <-. by eexists. }
  assert (decoded_src_size_ d < length (content (src_ d)))%nat as Hlt.
  { destruct (decide (decoded_src_size_ d = length (content (src_ d)))) as [Heq|]; [|lia].
    destruct (inv_run d Hinv Ed) as (_ & _ & Hr). rewrite Heq, take_ge in Hr by done. by rewrite Hr in Hcomp. }
  set (m := Z.of_nat (decoded_src_size_ d) + (Z.of_nat 1 - Z.of_nat (decoder_size d))).
  destruct (Hdelivers m (src_ d) Hv ltac:(lia) ltac:(lia)) as (bufs & src & Ef). rewrite Ef. cbn [mbind io_bind].
  pose proof (fetch_spec m (src_ d) Hv ltac:(lia)) as Hf. rewrite Ef in Hf. destruct Hf as (Hv' & Hc & Hp & _ & _).
  pose proof (fetches_min m (src_ d) src bufs Hv ltac:(lia) Ef) as Hmin.
  destruct (decode_fetched_ok bufs d src Hinv Ed Hv' Hc) as (error & d' & Hd & He);
    [by rewrite Hc|lia|intros k Hk; exact (partial_consume m (src_ d) src bufs k Hv ltac:(lia) Ef Hk)|].
  rewrite Ed in Hd. rewrite Hd. cbn [mbind io_bind]. destruct error as [e|]; [destruct He as [_ He]; congruence|].
  destruct He as (Hinv' & Hl & Hu & Hlen & Hround). apply IH; [done|congruence|].
  unfold rounds. destruct (done_ d'); [lia|]. rewrite Hround by done.
  assert (buffer_size bufs <= length (content (src_ d)))%nat by (destruct Hp as [z ->]; rewrite length_app; unfold buffer_size; lia). lia.
Qed.

Lemma chunk_decoder_reliable (rest : list Z) : L = Some rest -> Reliable (HttpChunkDecoder S).
Proof.
  intros HL d Hv. destruct (decoder_fetch 1 d Hv ltac:(lia)) as (E & Hinv & Hr). rewrite E.
  apply (fetch_loop_reliable rest); [done| |done]. destruct Hv as (_ & H' & _). congruence.
Qed.

(** A decoder that has just been made. *)
Lemma chunk_decoder_start (src : S) (t : bool) :
  valid src -> can_consume src 0 -> Z.of_nat (length (content src)) < 2 ^ 63 -> (Datatypes.S (length (content src)) < fuel)%nat ->
  match (run_bytes (zero_decoder t) (content src)).2 with Complete _ rest => Some rest | _ => None end = L ->
  valid (chunk_decoder src t) /\ content (chunk_decoder src t) = (run_bytes (zero_decoder t) (content src)).1.
Proof.
  intros Hv Hc Hs Hf HL. split; [|done]. split_and!; [|done|done|done].
  split; cbn; try done; lia.
Qed.

End decoder.

(** ** A chunked body, from a connection to its reader *)

Section body.
Context (fuel : nat) (rest : list Z).

#[local] Instance stream_decoder : BufferSource (HttpChunkDecoder ByteStream) := http_chunk_decoder fuel.
#[local] Instance stream_decoder_laws : SourceLaws (HttpChunkDecoder ByteStream) := chunk_decoder_laws fuel (Some rest).

#[local] Instance stream_decoder_some : FetchesSome (HttpChunkDecoder ByteStream).
Proof. intros n d d' bufs Hv Hn Hf. pose proof (chunk_decoder_min fuel (Some rest) n d d' bufs Hv ltac:(lia) Hf). lia. Qed.

#[local] Instance stream_decoder_reliable : Reliable (HttpChunkDecoder ByteStream).
Proof.
  apply (chunk_decoder_reliable fuel (Some rest)) with (rest := rest); [|done]. intros n s _ Hn Hl. cbn in *.
  replace (Z.of_nat (buffer_size (arrived s)) <? n) with false by (symmetry; apply Z.ltb_ge; done). by do 2 eexists.
Qed.

(** At the end of its data the decoder has consumed the body and nothing else. *)
Lemma decoder_at_end (d : HttpChunkDecoder ByteStream) :
  valid d -> content d = [] -> ended d -> content (src_ d) = rest.
Proof.
  intros (Hinv & HL & _) Hnil [Hdn Hz]. pose proof (proj2 (unread_done d Hinv) Hdn) as Hl.
  change (unread_data d = []) in Hnil. rewrite Hnil in Hl. simpl in Hl.
  unfold leftover in HL. rewrite Hdn, Hz in HL; [|destruct Hinv; lia]. by injection HL as HL.
Qed.

Lemma chunk_decoder_collect (t : bool) (fuel' : nat) (src : ByteStream) (body : list Z) (fin : ChunkedDecoder) :
  Z.of_nat (length (content src)) < 2 ^ 63 -> (Datatypes.S (length (content src)) < fuel)%nat -> (length body < fuel')%nat ->
  run_bytes (zero_decoder t) (content src) = (body, Complete fin rest) ->
  exists d', collect_vec fuel' (chunk_decoder src t) = Ret (OkVal body, d') /\ valid d' /\ content d' = [] /\
    content (src_ d') = rest.
Proof.
  intros Hs Hf Hf' Hr.
  destruct (chunk_decoder_start fuel (Some rest) src t) as [Hv Hc]; try done; [cbn; lia|by rewrite Hr|].
  destruct (collect_vec_reliable fuel' (chunk_decoder src t) _ Hv) as (d' & Hd & Hnil & Hv' & Hend);
    [by rewrite Hc, Hr|].
  rewrite Hc, Hr in Hd. exists d'. split_and!; [exact Hd|exact Hv'|exact Hnil|]. apply decoder_at_end; [exact Hv'|exact Hnil|exact (Hend _)].
Qed.

(** Whatever is done with the body before, discarding the rest of it ends there. *)
Lemma chunk_decoder_consume_all (fuel' : nat) (d : HttpChunkDecoder ByteStream) :
  valid d -> (length (content d) < fuel')%nat ->
  exists d', consume_all fuel' d = Ret (OkVal tt, d') /\ content (src_ d') = rest.
Proof.
  intros Hv Hf. destruct (consume_all_reliable fuel' d _ Hv Hf) as (d' & Hd & Hnil & Hv' & Hend).
  exists d'. split; [exact Hd|]. apply decoder_at_end; [exact Hv'|exact Hnil|exact (Hend _)].
Qed.
End body.

(** C17: A chunked body, as [http_encode_chunked] writes it from at least one
    buffer, none of them empty, arrives on a connection in any pieces, with
    more data behind it: reading it through [HttpChunkDecoder] with
    [collect_vec] terminates without waiting for anything else, returns exactly
    the data of the chunks, and leaves the connection at the first byte behind
    the body.  The body of no data at all is another matter
    ([ChunkedCoding.empty_body_does_not_decode]). *)
Theorem chunked_body_read (t is_closed : bool) (fuel fuel' : nat) (pieces chunks : list buffer) (written tail : list Z) :
  Forall (fun c => c <> [] /\ Z.of_nat (length c) < 2 ^ 64) chunks -> chunks <> [] ->
  http_encode_chunked t chunks = Done written -> concat pieces = written ++ tail ->
  Z.of_nat (length (concat pieces)) < 2 ^ 63 -> (Datatypes.S (length (concat pieces)) < fuel)%nat ->
  (length (concat chunks) < fuel')%nat ->
  exists d', @collect_vec _ (http_chunk_decoder fuel) fuel' (chunk_decoder (mkStream pieces is_closed) t) = Ret (OkVal (concat chunks), d') /\
    concat (arrived (src_ d')) = tail.
Proof.
  intros Hch Hne Hw Hp Hs Hf Hf'. destruct (encode_loop_run t true chunks tail Hch ltac:(done)) as (written' & fin & Hw' & Hr).
  unfold http_encode_chunked in Hw. rewrite Hw in Hw'. injection Hw' as <-.
  destruct (chunk_decoder_collect fuel tail t fuel' (mkStream pieces is_closed) (concat chunks) fin) as (d' & Hd & _ & _ & Ht);
    try done; [cbn; by rewrite Hp|]. by exists d'.
Qed.

(** Two chunks in three pieces, the connection still open. *)
Lemma chunked_body_read_witness :
  exists d', @collect_vec _ (http_chunk_decoder 50) 20
      (chunk_decoder (mkStream [[50; 13]; [10; 104; 105; 13; 10; 49; 13; 10; 33; 13]; [10; 48; 13; 10; 7]] false) false) =
    Ret (OkVal [104; 105; 33], d') /\ concat (arrived (src_ d')) = [7].
Proof.
  apply (chunked_body_read false false 50 20 _ [[104; 105]; [33]] [50; 13; 10; 104; 105; 13; 10; 49; 13; 10; 33; 13; 10; 48; 13; 10] [7]);
    [repeat constructor; done|done|by vm_compute|done|simpl; lia|simpl; lia|simpl; lia].
Defined.
