(* ===== verification/HttpParser.v ===== *)
(** * The HTTP message parser

    [pico_http/parser_impl.hpp]: requests, responses and headers.  A position
    in the buffer is the list of the bytes from there to [buf_end]; the
    return codes [-1] and [-2] are [Failed] and [Incomplete].  [sse] selects
    the build with SSE 4.2 or the one without; the intrinsic
    [_mm_cmpestri] in its range mode gives the index of the first of 16
    bytes that lies in one of the ranges.  Tokens are shorter than 2^31
    bytes ([token_len] is an [int]). *)

From S2P Require Import Prelude.
Open Scope Z_scope.

Definition SP : Z := 32.
Definition HT : Z := 9.
Definition CR : Z := 13.
Definition LF : Z := 10.

(** [*ret = -1], [*ret = -2], or a value and the position after it. *)
(* @ src/batteries/pico_http/parser_decl.hpp 61-63 kParseOk, kParseFailed, kParseIncomplete *)
Inductive Res (A : Type) : Type :=
| Ok (a : A)
| Failed
| Incomplete.
Arguments Ok {A} a.
Arguments Failed {A}.
Arguments Incomplete {A}.

Definition res_bind {A B} (r : Res A) (k : A -> Res B) : Res B :=
  match r with Ok a => k a | Failed => Failed | Incomplete => Incomplete end.

#[export] Instance res_mret : MRet Res := @Ok.
#[export] Instance res_mbind : MBind Res := fun A B k r => res_bind r k.

(* @ src/batteries/pico_http/parser_impl.hpp 58-58 BATT_PICO_HTTP_IS_PRINTABLE_ASCII *)
Definition is_printable_ascii (c : Z) : bool := u32 (c - 32) <? 95.

(* @ src/batteries/pico_http/parser_impl.hpp 106-114 token_char_map *)
Definition token_char_table : list Z :=
  [0; 0; 0; 0; 0; 0; 0; 0; 0; 0; 0; 0; 0; 0; 0; 0; 0; 0; 0; 0; 0; 0; 0; 0; 0; 0; 0; 0; 0; 0; 0; 0;
    0; 1; 0; 1; 1; 1; 1; 1; 0; 0; 1; 1; 0; 1; 1; 0; 1; 1; 1; 1; 1; 1; 1; 1; 1; 1; 0; 0; 0; 0; 0; 0;
    0; 1; 1; 1; 1; 1; 1; 1; 1; 1; 1; 1; 1; 1; 1; 1; 1; 1; 1; 1; 1; 1; 1; 1; 1; 1; 1; 0; 0; 0; 1; 1;
    1; 1; 1; 1; 1; 1; 1; 1; 1; 1; 1; 1; 1; 1; 1; 1; 1; 1; 1; 1; 1; 1; 1; 1; 1; 1; 1; 0; 1; 0; 1; 0].

(** The rows for the bytes from 128 on are zero. *)
(* @ src/batteries/pico_http/parser_impl.hpp 106-114 token_char_map *)
Definition token_char_map (c : Z) : bool :=
  match token_char_table !! Z.to_nat c with Some v => negb (v =? 0) | None => false end.

(* @ src/batteries/pico_http/parser_impl.hpp 66-74 BATT_PICO_HTTP_EXPECT_CHAR *)
Definition expect_char (ch : Z) (buf : list Z) : Res (list Z) :=
  match buf with
  | [] => Incomplete
  | c :: buf' => if c =? ch then Ok buf' else Failed
  end.

(** ** The scanners *)

Definition in_ranges (ranges : list (Z * Z)) (c : Z) : bool :=
  existsb (fun r => (r.1 <=? c) && (c <=? r.2)) ranges.

(** The index of the first byte in the ranges, or the length. *)
Fixpoint first_in (ranges : list (Z * Z)) (bytes : list Z) : nat :=
  match bytes with
  | [] => O
  | c :: bytes' => if in_ranges ranges c then O else S (first_in ranges bytes')
  end.

(* @ src/batteries/pico_http/parser_impl.hpp 125-136 findchar_fast *)
Fixpoint findchar_blocks (blocks : nat) (ranges : list (Z * Z)) (buf : list Z) : list Z * bool :=
  match blocks with
  | O => (buf, false)
  | S blocks' =>
      let r := first_in ranges (take 16 buf) in
      if (r =? 16)%nat then findchar_blocks blocks' ranges (drop 16 buf) else (drop r buf, true)
  end.

(* @ src/batteries/pico_http/parser_impl.hpp 116-145 findchar_fast *)
Definition findchar_fast (sse : bool) (ranges : list (Z * Z)) (buf : list Z) : list Z * bool :=
  if sse && (16 <=? length buf)%nat then findchar_blocks (length buf / 16) ranges buf else (buf, false).

(* @ src/batteries/pico_http/parser_impl.hpp 199-200 get_token_to_eol *)
Definition is_ctl (c : Z) : bool := ((c <? 32) && negb (c =? HT)) || (c =? 127).

(* @ src/batteries/pico_http/parser_impl.hpp 196-204 get_token_to_eol *)
Fixpoint eol_loop (buf : list Z) : Res (list Z) :=
  match buf with
  | [] => Incomplete
  | c :: buf' => if negb (is_printable_ascii c) && is_ctl c then Ok buf else eol_loop buf'
  end.

(** The unrolled part: at most [n] printable bytes; [true] when it stopped
    at a byte that is not printable. *)
(* @ src/batteries/pico_http/parser_impl.hpp 168-183 get_token_to_eol *)
Fixpoint doit (n : nat) (buf : list Z) : list Z * bool :=
  match n, buf with
  | S n', c :: buf' => if is_printable_ascii c then doit n' buf' else (buf, true)
  | _, _ => (buf, false)
  end.

(* @ src/batteries/pico_http/parser_impl.hpp 164-195 get_token_to_eol *)
Fixpoint unrolled_loop (fuel : nat) (buf : list Z) : list Z * bool :=
  match fuel with
  | O => (buf, false)
  | S fuel' =>
      if (8 <=? length buf)%nat then
        match doit 8 buf with
        | (c :: buf', true) => if is_ctl c then (c :: buf', true) else unrolled_loop fuel' buf'
        | (buf', _) => unrolled_loop fuel' buf'
        end
      else (buf, false)
  end.

(* @ src/batteries/pico_http/parser_impl.hpp 155-158 get_token_to_eol *)
Definition ranges1 : list (Z * Z) := [(0, 8); (10, 31); (127, 127)].

(* @ src/batteries/pico_http/parser_impl.hpp 147-220 get_token_to_eol *)
Definition get_token_to_eol (sse : bool) (token_start : list Z) : Res (list Z * list Z) :=
  let '(b, found) :=
    if sse then findchar_fast sse ranges1 token_start
    else unrolled_loop (S (length token_start)) token_start in
  ctl ← (if found then Ok b else eol_loop b);
  let token := take (length token_start - length ctl) token_start in
  match ctl with
  | [] => Failed
  | c :: buf' =>
      if c =? CR then rest ← expect_char LF buf'; mret (token, rest)
      else if c =? LF then mret (token, buf')
      else Failed
  end.

(** [std::string_view{tok_start, buf - tok_start}] *)
Definition token_of (start buf : list Z) : list Z := take (length start - length buf) start.

(* @ src/batteries/pico_http/parser_impl.hpp 292-301 parse_token *)
Fixpoint token_loop (next_char : Z) (buf : list Z) : Res (list Z) :=
  match buf with
  | [] => Incomplete
  | c :: buf' =>
      if c =? next_char then Ok buf
      else if negb (token_char_map c) then Failed
      else token_loop next_char buf'
  end.

(* @ src/batteries/pico_http/parser_impl.hpp 277-285 parse_token *)
Definition token_ranges : list (Z * Z) :=
  [(0, 32); (34, 34); (40, 41); (44, 44); (47, 47); (58, 64); (91, 93); (123, 255)].

(* @ src/batteries/pico_http/parser_impl.hpp 269-304 parse_token *)
Definition parse_token (sse : bool) (next_char : Z) (buf_start : list Z) : Res (list Z * list Z) :=
  let '(b, found) := findchar_fast sse token_ranges buf_start in
  if negb found && (length b =? 0)%nat then Incomplete
  else rest ← token_loop next_char b; mret (token_of buf_start rest, rest).

(* @ src/batteries/pico_http/parser_impl.hpp 85-96 BATT_PICO_HTTP_ADVANCE_TOKEN *)
Fixpoint advance_loop (buf : list Z) : Res (list Z) :=
  match buf with
  | [] => Incomplete
  | c :: buf' =>
      if c =? SP then Ok buf
      else if negb (is_printable_ascii c) && ((c <? 32) || (c =? 127)) then Failed
      else advance_loop buf'
  end.

(* @ src/batteries/pico_http/parser_impl.hpp 76-99 BATT_PICO_HTTP_ADVANCE_TOKEN *)
Definition advance_token (sse : bool) (tok_start : list Z) : Res (list Z * list Z) :=
  let '(b, found) := findchar_fast sse [(0, 32); (127, 127)] tok_start in
  if negb found && (length b =? 0)%nat then Incomplete
  else rest ← advance_loop b; mret (token_of tok_start rest, rest).

(* @ src/batteries/pico_http/parser_impl.hpp 250-256 BATT_PICO_HTTP_PARSE_INT *)
Definition parse_int (mul : Z) (buf : list Z) : Res (Z * list Z) :=
  match buf with
  | [] => Incomplete
  | c :: buf' => if (c <? 48) || (57 <? c) then Failed else Ok (mul * (c - 48), buf')
  end.

(* @ src/batteries/pico_http/parser_impl.hpp 306-324 parse_http_version *)
Definition parse_http_version (buf : list Z) : Res (Z * list Z) :=
  if (length buf <? 9)%nat then Incomplete
  else
    b1 ← expect_char 72 buf; b2 ← expect_char 84 b1; b3 ← expect_char 84 b2; b4 ← expect_char 80 b3;
    b5 ← expect_char 47 b4; b6 ← expect_char 49 b5; b7 ← expect_char 46 b6;
    parse_int 1 b7.

Fixpoint skip_spaces (buf : list Z) : Res (list Z) :=
  match buf with
  | [] => Incomplete
  | c :: buf' => if c =? SP then skip_spaces buf' else Ok buf
  end.

(** [do { ++buf; CHECK_EOF(); } while ( *buf == ' ');]; there is a byte at
    [buf]. *)
(* @ src/batteries/pico_http/parser_impl.hpp 407-410 parse_request_impl *)
Definition do_skip_spaces (buf : list Z) : Res (list Z) :=
  match buf with [] => Incomplete | _ :: buf' => skip_spaces buf' end.

Definition is_blank (c : Z) : bool := (c =? SP) || (c =? HT).

Fixpoint skip_blanks (buf : list Z) : Res (list Z) :=
  match buf with
  | [] => Incomplete
  | c :: buf' => if is_blank c then skip_blanks buf' else Ok buf
  end.

(** [++buf; for (;; ++buf) ...], from the colon on. *)
(* @ src/batteries/pico_http/parser_impl.hpp 359-365 parse_headers_impl *)
Definition do_skip_blanks (buf : list Z) : Res (list Z) :=
  match buf with [] => Incomplete | _ :: buf' => skip_blanks buf' end.

Fixpoint drop_blanks (v : list Z) : list Z :=
  match v with
  | [] => []
  | c :: v' => if is_blank c then drop_blanks v' else v
  end.

(** remove trailing SPs and HTABs *)
(* @ src/batteries/pico_http/parser_impl.hpp 373-381 parse_headers_impl *)
Definition trim_end (v : list Z) : list Z := reverse (drop_blanks (reverse v)).

(** ** Headers *)

(* @ src/batteries/pico_http/parser_decl.hpp 49-54 pico_http::MessageHeader *)
Record MessageHeader : Type := mkHeader { name : list Z; header_value : list Z }.

(** An optional line break, and the position after it. *)
(* @ src/batteries/pico_http/parser_impl.hpp 340-348 parse_headers_impl *)
Definition line_break (buf : list Z) : Res (bool * list Z) :=
  match buf with
  | [] => Incomplete
  | c :: buf' =>
      if c =? CR then rest ← expect_char LF buf'; mret (true, rest)
      else if c =? LF then mret (true, buf')
      else mret (false, buf)
  end.

(** One header line; [first]: no header has been committed yet. *)
(* @ src/batteries/pico_http/parser_impl.hpp 349-383 parse_headers_impl *)
Definition parse_header (sse : bool) (first : bool) (buf : list Z) : Res (MessageHeader * list Z) :=
  nb ← (match buf with
        | c :: _ =>
            if negb (negb first && is_blank c) then
              tok ← parse_token sse 58 buf;
              if (length tok.1 =? 0)%nat then Failed
              else b ← do_skip_blanks tok.2; mret (tok.1, b)
            else mret ([], buf)
        | [] => Incomplete
        end : Res (list Z * list Z));
  v ← get_token_to_eol sse nb.2;
  mret (mkHeader nb.1 (trim_end v.1), v.2).

(** The headers parsed so far stay in the vector when the parser stops.
    Every round consumes a byte: the length of the buffer is enough fuel,
    and with none left the answer is [None]. *)
(* @ src/batteries/pico_http/parser_impl.hpp 326-386 parse_headers_impl *)
Fixpoint parse_headers_impl (fuel : nat) (sse : bool) (headers : list MessageHeader) (buf : list Z)
    : option (list MessageHeader * Res (list Z)) :=
  match line_break buf with
  | Failed => Some (headers, Failed)
  | Incomplete => Some (headers, Incomplete)
  | Ok (true, rest) => Some (headers, Ok rest)
  | Ok (false, buf) =>
      match fuel with
      | O => None
      | S fuel' =>
          match parse_header sse (length headers =? 0)%nat buf with
          | Failed => Some (headers, Failed)
          | Incomplete => Some (headers, Incomplete)
          | Ok (h, rest) => parse_headers_impl fuel' sse (headers ++ [h]) rest
          end
      end
  end.

(** ** Requests *)

(* @ src/batteries/pico_http/parser_decl.hpp 65-83 pico_http::Request *)
Record Request : Type := mkRequest {
  method : list Z;
  path : list Z;
  major_version : Z;
  minor_version : Z;
  headers : list MessageHeader }.

(** What is assigned when the parser has got this far. *)
Definition set_method (r : Request) (m : list Z) : Request :=
  mkRequest m (path r) (major_version r) (minor_version r) (headers r).
Definition set_path (r : Request) (p : list Z) : Request :=
  mkRequest (method r) p (major_version r) (minor_version r) (headers r).
Definition set_minor (r : Request) (v : Z) : Request :=
  mkRequest (method r) (path r) (major_version r) v (headers r).
Definition set_major (r : Request) (v : Z) : Request :=
  mkRequest (method r) (path r) v (minor_version r) (headers r).
Definition set_headers (r : Request) (h : list MessageHeader) : Request :=
  mkRequest (method r) (path r) (major_version r) (minor_version r) h.

(** A step that updates the object; the parser stops at the first failure. *)
Definition Steps (S A : Type) : Type := option (S * Res A).

Definition steps_bind {S A B} (m : Steps S A) (k : S -> A -> Steps S B) : Steps S B :=
  match m with
  | Some (s, Ok a) => k s a
  | Some (s, Failed) => Some (s, Failed)
  | Some (s, Incomplete) => Some (s, Incomplete)
  | None => None
  end.

(** The path and the spaces after it. *)
(* @ src/batteries/pico_http/parser_impl.hpp 403-427 parse_request_impl *)
Definition parse_request_line (sse : bool) (r : Request) (buf : list Z) : Steps Request (list Z) :=
  steps_bind (Some (r, parse_token sse SP buf)) (fun r tok =>
    let r := set_method r tok.1 in
    steps_bind (Some (r, do_skip_spaces tok.2)) (fun r buf =>
      steps_bind (Some (r, advance_token sse buf)) (fun r p =>
        let r := set_path r p.1 in
        steps_bind (Some (r, do_skip_spaces p.2)) (fun r buf =>
          if (length (method r) =? 0)%nat || (length (path r) =? 0)%nat then Some (r, Failed)
          else
            steps_bind (Some (r, parse_http_version buf)) (fun r v =>
              Some (set_minor r v.1, Ok v.2)))))).

Definition request_headers (sse : bool) (r : Request) (buf : list Z) : Steps Request (list Z) :=
  match parse_headers_impl (length buf) sse (headers r) buf with
  | Some (h, res) => Some (set_headers r h, res)
  | None => None
  end.

(* @ src/batteries/pico_http/parser_impl.hpp 388-439 parse_request_impl *)
Definition parse_request_impl (sse : bool) (r : Request) (buf : list Z) : Steps Request (list Z) :=
  steps_bind (Some (r, line_break buf)) (fun r skipped =>
    steps_bind (parse_request_line sse r skipped.2) (fun r buf =>
      steps_bind (Some (r, line_break buf)) (fun r eol =>
        if negb eol.1 then Some (r, Failed) else request_headers sse r eol.2))).

(** The line ends counted so far; two in a row complete the message. *)
(* @ src/batteries/pico_http/parser_impl.hpp 227-244 is_complete *)
Fixpoint complete_loop (fuel : nat) (ret_cnt : Z) (buf : list Z) : Res (list Z) :=
  match fuel, buf with
  | _, [] => Incomplete
  | O, _ => Incomplete
  | S fuel', c :: buf' =>
      r ← (if c =? CR then rest ← expect_char LF buf'; mret (ret_cnt + 1, rest)
           else if c =? LF then mret (ret_cnt + 1, buf')
           else mret (0, buf') : Res (Z * list Z));
      if r.1 =? 2 then mret r.2 else complete_loop fuel' r.1 r.2
  end.

(* @ src/batteries/pico_http/parser_impl.hpp 222-248 is_complete *)
Definition is_complete (buf : list Z) (last_len : nat) : Res (list Z) :=
  let buf := if (last_len <? 3)%nat then buf else drop (last_len - 3) buf in
  complete_loop (length buf) 0 buf.

Definition ret_code {A} (r : Res A) (on_ok : A -> Z) : Z :=
  match r with Ok a => on_ok a | Failed => -1 | Incomplete => -2 end.

(** The object and the returned [int]. *)
(* @ src/batteries/pico_http/parser_impl.hpp 447-473 pico_http::Request::parse *)
Definition parse_request (sse : bool) (buf : list Z) (last_len : nat) : option (Request * Z) :=
  let r := mkRequest [] [] (-1) (-1) [] in
  let incomplete := if (last_len =? 0)%nat then None
                    else match is_complete buf last_len with Ok _ => None | e => Some (ret_code e (fun _ => 0)) end in
  match incomplete with
  | Some ret => Some (set_major r 1, ret)
  | None =>
      match parse_request_impl sse r buf with
      | None => None
      | Some (r, Ok rest) => Some (set_major r 1, Z.of_nat (length buf) - Z.of_nat (length rest))
      | Some (r, e) => Some (r, ret_code e (fun _ => 0))
      end
  end.

(** ** Responses *)

(* @ src/batteries/pico_http/parser_decl.hpp 87-105 pico_http::Response *)
Record Response : Type := mkResponse {
  rsp_major_version : Z;
  rsp_minor_version : Z;
  status : Z;
  message : list Z;
  rsp_headers : list MessageHeader }.

Definition set_rsp_minor (r : Response) (v : Z) : Response :=
  mkResponse (rsp_major_version r) v (status r) (message r) (rsp_headers r).
Definition set_rsp_major (r : Response) (v : Z) : Response :=
  mkResponse v (rsp_minor_version r) (status r) (message r) (rsp_headers r).
Definition set_status (r : Response) (v : Z) : Response :=
  mkResponse (rsp_major_version r) (rsp_minor_version r) v (message r) (rsp_headers r).
Definition set_message (r : Response) (m : list Z) : Response :=
  mkResponse (rsp_major_version r) (rsp_minor_version r) (status r) m (rsp_headers r).
Definition set_rsp_headers (r : Response) (h : list MessageHeader) : Response :=
  mkResponse (rsp_major_version r) (rsp_minor_version r) (status r) (message r) h.

(* @ src/batteries/pico_http/parser_impl.hpp 258-267 BATT_PICO_HTTP_PARSE_INT_3 *)
Definition parse_int_3 (r : Response) (buf : list Z) : Steps Response (list Z) :=
  steps_bind (Some (r, parse_int 100 buf)) (fun r d =>
    let r := set_status r d.1 in
    steps_bind (Some (r, parse_int 10 d.2)) (fun r d =>
      let r := set_status r (status r + d.1) in
      steps_bind (Some (r, parse_int 1 d.2)) (fun r d =>
        Some (set_status r (status r + d.1), Ok d.2)))).

(** The spaces in front of the message; the end of line stops the loop, also
    when the message is nothing but spaces. *)
(* @ src/batteries/pico_http/parser_impl.hpp 509-525 parse_response_impl *)
Definition trim_message (msg : list Z) : option (list Z) :=
  let fix skip (m : list Z) := match m with c :: m' => if c =? SP then skip m' else m | [] => [] end in
  match msg with
  | [] => Some []
  | c :: msg' => if c =? SP then Some (skip msg') else None
  end.

Definition response_headers (sse : bool) (r : Response) (buf : list Z) : Steps Response (list Z) :=
  match parse_headers_impl (length buf) sse (rsp_headers r) buf with
  | Some (h, res) => Some (set_rsp_headers r h, res)
  | None => None
  end.

(* @ src/batteries/pico_http/parser_impl.hpp 480-528 parse_response_impl *)
Definition parse_response_impl (sse : bool) (r : Response) (buf : list Z) : Steps Response (list Z) :=
  steps_bind (Some (r, parse_http_version buf)) (fun r v =>
    let r := set_rsp_minor r v.1 in
    steps_bind (Some (r, expect_char SP v.2)) (fun r buf =>
      steps_bind (Some (r, skip_spaces buf)) (fun r buf =>
        if (length buf <? 4)%nat then Some (r, Incomplete)
        else
          steps_bind (parse_int_3 r buf) (fun r buf =>
            steps_bind (Some (r, get_token_to_eol sse buf)) (fun r m =>
              let r := set_message r m.1 in
              match trim_message m.1 with
              | None => Some (r, Failed)
              | Some msg =>
                  let r := set_message r msg in
                  response_headers sse r m.2
              end))))).

(* @ src/batteries/pico_http/parser_impl.hpp 539-565 pico_http::Response::parse *)
Definition parse_response (sse : bool) (buf : list Z) (last_len : nat) : option (Response * Z) :=
  let r := mkResponse (-1) (-1) 0 [] [] in
  let incomplete := if (last_len =? 0)%nat then None
                    else match is_complete buf last_len with Ok _ => None | e => Some (ret_code e (fun _ => 0)) end in
  match incomplete with
  | Some ret => Some (set_rsp_major r 1, ret)
  | None =>
      match parse_response_impl sse r buf with
      | None => None
      | Some (r, Ok rest) => Some (set_rsp_major r 1, Z.of_nat (length buf) - Z.of_nat (length rest))
      | Some (r, e) => Some (r, ret_code e (fun _ => 0))
      end
  end.

(* @ src/batteries/pico_http/parser_impl.hpp 569-589 pico_http::parse_headers *)
Definition parse_headers (sse : bool) (buf : list Z) (last_len : nat) : option (list MessageHeader * Z) :=
  let incomplete := if (last_len =? 0)%nat then None
                    else match is_complete buf last_len with Ok _ => None | e => Some (ret_code e (fun _ => 0)) end in
  match incomplete with
  | Some ret => Some ([], ret)
  | None =>
      match parse_headers_impl (length buf) sse [] buf with
      | None => None
      | Some (h, r) => Some (h, ret_code r (fun rest => Z.of_nat (length buf) - Z.of_nat (length rest)))
      end
  end.

(** ** Printing *)

(** [out << n] for an [int] of one digit. *)
Definition digit (n : Z) : Z := 48 + n.

(* @ src/batteries/pico_http/parser_impl.hpp 767-770 operator<< *)
Definition print_header (h : MessageHeader) : list Z := name h ++ [58; SP] ++ header_value h ++ [CR; LF].

(* @ src/batteries/pico_http/parser_impl.hpp 774-780 operator<< *)
Definition print_headers (hs : list MessageHeader) : list Z := concat (print_header <$> hs).

(* @ src/batteries/pico_http/parser_impl.hpp 784-788 operator<< *)
Definition print_request (r : Request) : list Z :=
  method r ++ [SP] ++ path r ++ [SP; 72; 84; 84; 80; 47; digit (major_version r); 46; digit (minor_version r); CR; LF]
  ++ print_headers (headers r) ++ [CR; LF].

(** [out << n] for a status code of three digits. *)
Definition print_status (n : Z) : list Z := [digit (n / 100); digit (n / 10 mod 10); digit (n mod 10)].

(* @ src/batteries/pico_http/parser_impl.hpp 792-797 operator<< *)
Definition print_response (r : Response) : list Z :=
  [72; 84; 84; 80; 47; digit (rsp_major_version r); 46; digit (rsp_minor_version r); SP]
  ++ print_status (status r) ++ [SP] ++ message r ++ [CR; LF] ++ print_headers (rsp_headers r) ++ [CR; LF].

(** ** The fast scans skip nothing that matters *)

Definition is_byte (c : Z) : Prop := 0 <= c < 256.

Lemma first_in_spec (ranges : list (Z * Z)) (bytes : list Z) :
  (first_in ranges bytes <= length bytes)%nat /\
  Forall (fun c => in_ranges ranges c = false) (take (first_in ranges bytes) bytes) /\
  ((first_in ranges bytes < length bytes)%nat ->
   exists c rest, drop (first_in ranges bytes) bytes = c :: rest /\ in_ranges ranges c = true).
Proof.
  induction bytes as [|c bytes (Hl & Hf & Hd)]; simpl; [split_and!; [lia|constructor|lia]|].
  destruct (in_ranges ranges c) eqn:E; simpl.
  - split_and!; [lia|constructor|by eexists _, _].
  - split_and!; [lia|by constructor|]. intros H. apply Hd. lia.
Qed.

(** The scan ends at the first byte in the ranges, or finds none in what it
    has passed. *)
Definition scanned (stop : Z -> bool) (buf : list Z) (r : list Z * bool) : Prop :=
  exists pre, buf = pre ++ r.1 /\ Forall (fun c => stop c = false) pre /\
    (r.2 = true -> exists c rest, r.1 = c :: rest /\ stop c = true).

Lemma findchar_blocks_scanned (ranges : list (Z * Z)) (n : nat) (buf : list Z) :
  (16 * n <= length buf)%nat -> scanned (in_ranges ranges) buf (findchar_blocks n ranges buf).
Proof.
  revert buf. induction n as [|n IH]; intros buf Hn; cbn [findchar_blocks].
  - exists []. by split_and!.
  - destruct (first_in_spec ranges (take 16 buf)) as (Hl & Hf & Hd).
    assert (length (take 16 buf) = 16)%nat as H16 by (rewrite length_take; lia). rewrite H16 in *.
    set (r := first_in ranges (take 16 buf)) in *.
    destruct (r =? 16)%nat eqn:E; bool_cases.
    + destruct (IH (drop 16 buf)) as (pre & Hb & Hp & Hs); [rewrite length_drop; lia|].
      exists (take 16 buf ++ pre). split_and!; [|apply Forall_app; split; [|done]|done].
      * rewrite <- app_assoc, <- Hb. by rewrite take_drop.
      * rewrite E, take_ge in Hf by lia. done.
    + exists (take r (take 16 buf)). split_and!; [|done|].
      * simpl. rewrite take_take, Nat.min_l by lia. by rewrite take_drop.
      * intros _. destruct Hd as (c & rest & Hc & Hin); [lia|]. simpl.
        rewrite <- (take_drop 16 buf), drop_app_le, Hc by lia. by eexists _, _.
Qed.

Lemma findchar_fast_scanned (sse : bool) (ranges : list (Z * Z)) (buf : list Z) :
  scanned (in_ranges ranges) buf (findchar_fast sse ranges buf).
Proof.
  unfold findchar_fast. destruct (sse && _); [|exists []; by split_and!].
  apply findchar_blocks_scanned. pose proof (Nat.Div0.mul_div_le (length buf) 16). lia.
Qed.

Lemma scanned_weaken (stop stop' : Z -> bool) (buf : list Z) (r : list Z * bool) :
  Forall is_byte buf ->
  (forall c, is_byte c -> stop c = false -> stop' c = false) ->
  scanned stop buf r -> exists pre, buf = pre ++ r.1 /\ Forall (fun c => stop' c = false) pre.
Proof.
  intros Hb Hstop (pre & -> & Hp & _). exists pre. split; [done|].
  apply Forall_app in Hb as [Hb _]. apply list.Forall_forall. intros c Hc.
  apply Hstop; [by apply (proj1 (list.Forall_forall _ _) Hb)|by apply (proj1 (list.Forall_forall _ _) Hp)].
Qed.

(** Facts about bytes are checked on all 256 of them. *)
Definition all_bytes : list Z := seqZ 0 256.

Lemma byte_cases (P : Z -> bool) : forallb P all_bytes = true -> forall c, is_byte c -> P c = true.
Proof.
  intros H c Hc. rewrite forallb_forall in H. apply H. apply list_elem_of_In, elem_of_seqZ.
  unfold is_byte in Hc. lia.
Qed.

(** ** Canonical forms: what the scanners compute in every build *)

Lemma token_loop_skip (next : Z) (pre b : list Z) :
  Forall (fun c => (c =? next) || negb (token_char_map c) = false) pre ->
  token_loop next (pre ++ b) = token_loop next b.
Proof.
  induction 1 as [|c pre Hc Hp IH]; [done|]. apply orb_false_iff in Hc as [H1 H2].
  simpl. by rewrite H1, H2.
Qed.

Lemma advance_loop_skip (pre b : list Z) :
  Forall (fun c => (c =? SP) || (negb (is_printable_ascii c) && ((c <? 32) || (c =? 127))) = false) pre ->
  advance_loop (pre ++ b) = advance_loop b.
Proof.
  induction 1 as [|c pre Hc Hp IH]; [done|]. apply orb_false_iff in Hc as [H1 H2].
  simpl. by rewrite H1, H2.
Qed.

Lemma eol_loop_skip (pre b : list Z) :
  Forall (fun c => negb (is_printable_ascii c) && is_ctl c = false) pre -> eol_loop (pre ++ b) = eol_loop b.
Proof. induction 1 as [|c pre Hc Hp IH]; [done|]. simpl. by rewrite Hc. Qed.

Definition parse_token' (next_char : Z) (buf : list Z) : Res (list Z * list Z) :=
  rest ← token_loop next_char buf; mret (token_of buf rest, rest).

Definition advance_token' (buf : list Z) : Res (list Z * list Z) :=
  rest ← advance_loop buf; mret (token_of buf rest, rest).

(** The line end at a control character. *)
Definition finish_eol (start ctl : list Z) : Res (list Z * list Z) :=
  match ctl with
  | [] => Failed
  | c :: buf' =>
      if c =? CR then rest ← expect_char LF buf'; mret (token_of start ctl, rest)
      else if c =? LF then mret (token_of start ctl, buf')
      else Failed
  end.

Definition get_token_to_eol' (start : list Z) : Res (list Z * list Z) :=
  ctl ← eol_loop start; finish_eol start ctl.

Lemma parse_token_canonical (sse : bool) (next : Z) (buf : list Z) :
  next = 58 \/ next = SP -> Forall is_byte buf -> parse_token sse next buf = parse_token' next buf.
Proof.
  intros Hnext Hb. unfold parse_token, parse_token'.
  pose proof (findchar_fast_scanned sse token_ranges buf) as Hs.
  apply (scanned_weaken _ (fun c => (c =? next) || negb (token_char_map c))) in Hs as (pre & Hpre & Hp); [|done|].
  - destruct (findchar_fast sse token_ranges buf) as [b found]. simpl in Hpre.
    replace (token_loop next buf) with (token_loop next b) by (rewrite Hpre; by rewrite token_loop_skip).
    destruct (negb found && _) eqn:E; [|done].
    apply andb_true_iff in E as [_ E]. apply Nat.eqb_eq in E. by destruct b.
  - intros c Hc Hr.
    assert (in_ranges token_ranges c || negb ((c =? next) || negb (token_char_map c)) = true) as H.
    { revert c Hc Hr. intros c Hc _. revert c Hc. destruct Hnext as [->| ->]; apply byte_cases; by vm_compute. }
    rewrite Hr in H. simpl in H. by apply negb_true_iff in H.
Qed.

Lemma advance_token_canonical (sse : bool) (buf : list Z) :
  Forall is_byte buf -> advance_token sse buf = advance_token' buf.
Proof.
  intros Hb. unfold advance_token, advance_token'.
  pose proof (findchar_fast_scanned sse [(0, 32); (127, 127)] buf) as Hs.
  apply (scanned_weaken _ (fun c => (c =? SP) || (negb (is_printable_ascii c) && ((c <? 32) || (c =? 127)))))
    in Hs as (pre & Hpre & Hp); [|done|].
  - destruct (findchar_fast sse _ buf) as [b found]. simpl in Hpre.
    replace (advance_loop buf) with (advance_loop b) by (rewrite Hpre; by rewrite advance_loop_skip).
    destruct (negb found && _) eqn:E; [|done].
    apply andb_true_iff in E as [_ E]. apply Nat.eqb_eq in E. by destruct b.
  - intros c Hc Hr.
    assert (in_ranges [(0, 32); (127, 127)] c
      || negb ((c =? SP) || (negb (is_printable_ascii c) && ((c <? 32) || (c =? 127)))) = true) as H
      by (clear Hr; revert c Hc; apply byte_cases; by vm_compute).
    rewrite Hr in H. simpl in H. by apply negb_true_iff in H.
Qed.

(** A stop of the end-of-line scan. *)
Definition eol_stop (c : Z) : bool := negb (is_printable_ascii c) && is_ctl c.

Lemma doit_scanned (n : nat) (buf : list Z) :
  exists pre, buf = pre ++ (doit n buf).1 /\ Forall (fun c => is_printable_ascii c = true) pre /\
    ((doit n buf).2 = true -> exists c rest, (doit n buf).1 = c :: rest /\ is_printable_ascii c = false).
Proof.
  revert buf. induction n as [|n IH]; intros [|c buf]; simpl; try (exists []; by split_and!).
  destruct (is_printable_ascii c) eqn:E; simpl.
  - destruct (IH buf) as (pre & Hb & Hp & Hs). exists (c :: pre). split_and!; [by rewrite Hb at 1|by constructor|done].
  - exists []. split_and!; [done|done|]. intros _. by eexists _, _.
Qed.

Lemma unrolled_loop_scanned (fuel : nat) (buf : list Z) : scanned eol_stop buf (unrolled_loop fuel buf).
Proof.
  revert buf. induction fuel as [|fuel IH]; intros buf; cbn [unrolled_loop]; [exists []; by split_and!|].
  destruct (8 <=? length buf)%nat; [|exists []; by split_and!].
  destruct (doit_scanned 8 buf) as (pre & Hb & Hp & Hs). destruct (doit 8 buf) as [b []]; simpl in *.
  - destruct (Hs eq_refl) as (c & rest & -> & Hc). destruct (is_ctl c) eqn:Ec.
    + exists pre. split_and!; [done| |].
      * eapply list.Forall_impl; [exact Hp|]. intros x Hx. unfold eol_stop. by rewrite Hx.
      * intros _. exists c, rest. split; [done|]. unfold eol_stop. by rewrite Hc, Ec.
    + destruct (IH rest) as (pre' & Hr & Hp' & Hs'). exists (pre ++ c :: pre'). split_and!; [|apply Forall_app; split|done].
      * rewrite Hb, Hr at 1. by rewrite <- app_assoc.
      * eapply list.Forall_impl; [exact Hp|]. intros x Hx. unfold eol_stop. by rewrite Hx.
      * constructor; [|done]. unfold eol_stop. by rewrite Ec, andb_false_r.
  - assert (scanned eol_stop buf (unrolled_loop fuel b)) as H.
    { destruct (IH b) as (pre' & Hr & Hp' & Hs'). exists (pre ++ pre'). split_and!; [|apply Forall_app; split; [|done]|done].
      - rewrite Hb, Hr at 1. by rewrite <- app_assoc.
      - eapply list.Forall_impl; [exact Hp|]. intros x Hx. unfold eol_stop. by rewrite Hx. }
    by destruct b.
Qed.

Lemma ranges1_stop (c : Z) : is_byte c -> in_ranges ranges1 c = eol_stop c.
Proof.
  intros Hc. apply eqb_prop. revert c Hc.
  apply (byte_cases (fun c => eqb (in_ranges ranges1 c) (eol_stop c))). by vm_compute.
Qed.

Lemma get_token_to_eol_canonical (sse : bool) (start : list Z) :
  Forall is_byte start -> get_token_to_eol sse start = get_token_to_eol' start.
Proof.
  intros Hb. unfold get_token_to_eol, get_token_to_eol'.
  assert (scanned eol_stop start (if sse then findchar_fast sse ranges1 start
                                  else unrolled_loop (S (length start)) start)) as (pre & Hpre & Hp & Hs).
  { destruct sse; [|apply unrolled_loop_scanned].
    destruct (findchar_fast_scanned true ranges1 start) as (pre & Hpre & Hp & Hs).
    rewrite Hpre in Hb. apply Forall_app in Hb as [Hb1 Hb2]. exists pre. split_and!; [done| |].
    - apply list.Forall_forall. intros c Hc. rewrite <- ranges1_stop.
      + by apply (proj1 (list.Forall_forall _ _) Hp).
      + by apply (proj1 (list.Forall_forall _ _) Hb1).
    - intros Hf. destruct (Hs Hf) as (c & rest & Hc & Hin). exists c, rest. split; [done|].
      rewrite <- ranges1_stop; [done|]. rewrite Hc in Hb2. by apply Forall_cons_1 in Hb2 as [? _]. }
  destruct (if sse then _ else _) as [b found]. simpl in *.
  replace (eol_loop start) with (eol_loop b) by (rewrite Hpre; by rewrite eol_loop_skip).
  destruct found.
  - destruct (Hs eq_refl) as (c & rest & -> & Hc). simpl. unfold eol_stop in Hc. by rewrite Hc.
  - destruct (eol_loop b) as [[|c ctl]| |]; try done.
Qed.

(** ** Regular parsers

    A parser is regular when what it answers is not changed by bytes that
    arrive later: a success leaves a suffix of the buffer and is repeated on
    a longer buffer with the new bytes after that suffix, and a failure is
    repeated. *)

Class HasPos (X : Type) : Type := {
  pos : X -> list Z;
  ext : list Z -> X -> X }.

#[export] Instance list_has_pos : HasPos (list Z) := {| pos b := b; ext s b := b ++ s |}.
#[export] Instance pair_has_pos {A} : HasPos (A * list Z) := {| pos x := x.2; ext s x := (x.1, x.2 ++ s) |}.

Definition suffix_of (rest buf : list Z) : Prop := exists pre, buf = pre ++ rest.

Lemma suffix_refl (b : list Z) : suffix_of b b.
Proof. by exists []. Qed.

Lemma suffix_cons (c : Z) (r b : list Z) : suffix_of r b -> suffix_of r (c :: b).
Proof. intros [p ->]. by exists (c :: p). Qed.

Lemma suffix_trans (a b c : list Z) : suffix_of a b -> suffix_of b c -> suffix_of a c.
Proof. intros [p ->] [q ->]. exists (q ++ p). by rewrite app_assoc. Qed.

Lemma suffix_bytes (r b : list Z) : suffix_of r b -> Forall is_byte b -> Forall is_byte r.
Proof. intros [p ->] H. by apply Forall_app in H as [_ H]. Qed.

Lemma suffix_length (r b : list Z) : suffix_of r b -> (length r <= length b)%nat.
Proof. intros [p ->]. rewrite length_app. lia. Qed.

Definition Reg {X Y} `{HasPos X, HasPos Y} (f : X -> Res Y) : Prop :=
  forall x, match f x with
            | Ok y => suffix_of (pos y) (pos x) /\ forall s, f (ext s x) = Ok (ext s y)
            | Failed => forall s, f (ext s x) = Failed
            | Incomplete => True
            end.

(** The same for steps that update an object. *)
Definition SReg {S X Y} `{HasPos X, HasPos Y} (f : S -> X -> Steps S Y) : Prop :=
  forall r x, match f r x with
              | Some (r', Ok y) => suffix_of (pos y) (pos x) /\ forall s, f r (ext s x) = Some (r', Ok (ext s y))
              | Some (r', Failed) => forall s, f r (ext s x) = Some (r', Failed)
              | Some (_, Incomplete) => True
              | None => False
              end.

Lemma Reg_bind {X Y W} `{HasPos X, HasPos Y, HasPos W} (f : X -> Res Y) (g : Y -> Res W) :
  Reg f -> Reg g -> Reg (fun x => f x ≫= g).
Proof.
  intros Hf Hg x. specialize (Hf x). destruct (f x) as [y| |]; simpl; [|intros s; by rewrite Hf|done].
  destruct Hf as [Hs Hf]. specialize (Hg y). destruct (g y) as [w| |]; [|intros s; by rewrite Hf; simpl|done].
  destruct Hg as [Hs' Hg]. split; [by eapply suffix_trans|]. intros s. rewrite Hf. simpl. apply Hg.
Qed.

Lemma SReg_bind {S X Y W} `{HasPos X, HasPos Y, HasPos W} (f : S -> X -> Steps S Y) (g : S -> Y -> Steps S W) :
  SReg f -> SReg g -> SReg (fun r x => steps_bind (f r x) g).
Proof.
  intros Hf Hg r x. specialize (Hf r x). destruct (f r x) as [[r' [y| |]]|]; simpl; [|intros s; by rewrite Hf|done|done].
  destruct Hf as [Hs Hf]. specialize (Hg r' y). destruct (g r' y) as [[r'' [w| |]]|];
    [|intros s; by rewrite Hf; simpl|done|done].
  destruct Hg as [Hs' Hg]. split; [by eapply suffix_trans|]. intros s. rewrite Hf. simpl. apply Hg.
Qed.

(** An update of the object followed by a regular parser. *)
Lemma SReg_lift {S X Y} `{HasPos X, HasPos Y} (h : S -> X -> S) (f : X -> Res Y) :
  (forall r x s, h r (ext s x) = h r x) -> Reg f -> SReg (fun r x => Some (h r x, f x)).
Proof.
  intros Hh Hf r x. specialize (Hf x). destruct (f x) as [y| |]; [|intros s; by rewrite Hh, Hf|done].
  destruct Hf as [Hs Hf]. split; [done|]. intros s. by rewrite Hh, Hf.
Qed.

Lemma Reg_ret {X Y} `{HasPos X, HasPos Y} (h : X -> Y) :
  (forall x, pos (h x) = pos x) -> (forall x s, h (ext s x) = ext s (h x)) -> Reg (fun x => Ok (h x)).
Proof. intros Hp He x. split; [rewrite Hp; apply suffix_refl|]. intros s. by rewrite He. Qed.

(** ** The scanners are regular *)

Lemma expect_char_regular (ch : Z) : Reg (expect_char ch).
Proof.
  intros [|c buf]; [done|]. simpl. destruct (c =? ch); [|done].
  split; [apply suffix_cons, suffix_refl|done].
Qed.

Lemma eol_loop_regular : Reg eol_loop.
Proof.
  intros buf. induction buf as [|c buf IH]; [done|]. cbn [eol_loop].
  destruct (_ && _) eqn:E.
  - split; [apply suffix_refl|]. intros s. simpl. by rewrite E.
  - destruct (eol_loop buf) as [y| |]; simpl in *.
    + destruct IH as [Hs IH]. split; [by apply suffix_cons|]. intros s. by rewrite E.
    + intros s. by rewrite E.
    + done.
Qed.

Lemma token_loop_regular (next : Z) : Reg (token_loop next).
Proof.
  intros buf. induction buf as [|c buf IH]; [done|]. cbn [token_loop].
  destruct (c =? next) eqn:E1.
  - split; [apply suffix_refl|]. intros s. simpl. by rewrite E1.
  - destruct (negb (token_char_map c)) eqn:E2; [intros s; simpl; by rewrite E1, E2|].
    destruct (token_loop next buf) as [y| |]; simpl in *.
    + destruct IH as [Hs IH]. split; [by apply suffix_cons|]. intros s. by rewrite E1, E2.
    + intros s. by rewrite E1, E2.
    + done.
Qed.

Lemma advance_loop_regular : Reg advance_loop.
Proof.
  intros buf. induction buf as [|c buf IH]; [done|]. cbn [advance_loop].
  destruct (c =? SP) eqn:E1.
  - split; [apply suffix_refl|]. intros s. simpl. by rewrite E1.
  - destruct (negb _ && _) eqn:E2; [intros s; simpl; by rewrite E1, E2|].
    destruct (advance_loop buf) as [y| |]; simpl in *.
    + destruct IH as [Hs IH]. split; [by apply suffix_cons|]. intros s. by rewrite E1, E2.
    + intros s. by rewrite E1, E2.
    + done.
Qed.

Lemma skip_spaces_regular : Reg skip_spaces.
Proof.
  intros buf. induction buf as [|c buf IH]; [done|]. cbn [skip_spaces]. destruct (c =? SP) eqn:E.
  - destruct (skip_spaces buf) as [y| |]; simpl in *.
    + destruct IH as [Hs IH]. split; [by apply suffix_cons|]. intros s. by rewrite E.
    + intros s. by rewrite E.
    + done.
  - split; [apply suffix_refl|]. intros s. simpl. by rewrite E.
Qed.

Lemma skip_blanks_regular : Reg skip_blanks.
Proof.
  intros buf. induction buf as [|c buf IH]; [done|]. cbn [skip_blanks]. destruct (is_blank c) eqn:E.
  - destruct (skip_blanks buf) as [y| |]; simpl in *.
    + destruct IH as [Hs IH]. split; [by apply suffix_cons|]. intros s. by rewrite E.
    + intros s. by rewrite E.
    + done.
  - split; [apply suffix_refl|]. intros s. simpl. by rewrite E.
Qed.

Lemma Reg_tail {Y} `{HasPos Y} (f : list Z -> Res Y) :
  Reg f -> Reg (fun buf => match buf with [] => Incomplete | _ :: buf' => f buf' end).
Proof.
  intros Hf [|c buf]; [done|]. specialize (Hf buf). simpl.
  destruct (f buf) as [y| |]; simpl in *; [|done|done]. destruct Hf as [Hs Hf].
  split; [by apply suffix_cons|done].
Qed.

Lemma do_skip_spaces_regular : Reg do_skip_spaces.
Proof. apply (Reg_tail skip_spaces), skip_spaces_regular. Qed.

Lemma do_skip_blanks_regular : Reg do_skip_blanks.
Proof. apply (Reg_tail skip_blanks), skip_blanks_regular. Qed.

Lemma token_of_app (start buf s : list Z) : token_of (start ++ s) (buf ++ s) = token_of start buf.
Proof. unfold token_of. rewrite !length_app, take_app_le by lia. f_equal. lia. Qed.

(** A scan that returns the token it has passed. *)
Lemma Reg_token (f : list Z -> Res (list Z)) :
  Reg f -> Reg (fun buf => rest ← f buf; mret (token_of buf rest, rest)).
Proof.
  intros Hf buf. specialize (Hf buf). destruct (f buf) as [y| |]; simpl in *; [|intros s; by rewrite Hf|done].
  destruct Hf as [Hs Hf]. split; [done|]. intros s. rewrite Hf. simpl. by rewrite token_of_app.
Qed.

Lemma finish_eol_regular (start : list Z) :
  match eol_loop start with
  | Ok ctl => match finish_eol start ctl with
              | Ok y => suffix_of y.2 ctl /\ forall s, finish_eol (start ++ s) (ctl ++ s) = Ok (y.1, y.2 ++ s)
              | Failed => ctl <> [] -> forall s, finish_eol (start ++ s) (ctl ++ s) = Failed
              | Incomplete => True
              end
  | _ => True
  end.
Proof.
  destruct (eol_loop start) as [[|c ctl]| |]; [by intros []| |done|done]. unfold finish_eol. cbn [app].
  destruct (c =? CR); [|destruct (c =? LF)]; simpl.
  - pose proof (expect_char_regular LF ctl) as He. destruct (expect_char LF ctl) as [y| |]; simpl in *; [|intros _ s; by rewrite He|done].
    destruct He as [Hs He]. split; [by apply suffix_cons|]. intros s. rewrite He. simpl.
    by rewrite <- (token_of_app start (c :: ctl) s).
  - split; [apply suffix_cons, suffix_refl|]. intros s.
    by rewrite <- (token_of_app start (c :: ctl) s).
  - done.
Qed.

Lemma eol_loop_nonempty (start ctl : list Z) : eol_loop start = Ok ctl -> ctl <> [].
Proof.
  induction start as [|c start IH]; simpl; [done|]. destruct (_ && _); [by intros [= <-]|done].
Qed.

Lemma get_token_to_eol_regular : Reg get_token_to_eol'.
Proof.
  intros start. unfold get_token_to_eol'. pose proof (eol_loop_regular start) as He.
  pose proof (finish_eol_regular start) as Hf. pose proof (eol_loop_nonempty start) as Hn.
  destruct (eol_loop start) as [ctl| |]; simpl in *; [|intros s; by rewrite He|done].
  destruct He as [Hs He]. destruct (finish_eol start ctl) as [y| |]; simpl in *.
  - destruct Hf as [Hs' Hf]. split; [by eapply suffix_trans|]. intros s. rewrite He. simpl. apply Hf.
  - intros s. rewrite He. simpl. apply Hf. by apply Hn.
  - done.
Qed.

Lemma parse_int_regular (mul : Z) : Reg (parse_int mul).
Proof.
  intros [|c buf]; [done|]. simpl. destruct (_ || _); [done|].
  split; [apply suffix_cons, suffix_refl|done].
Qed.

Lemma Reg_at_least {Y} `{HasPos Y} (n : nat) (f : list Z -> Res Y) :
  Reg f -> Reg (fun buf => if (length buf <? n)%nat then Incomplete else f buf).
Proof.
  intros Hf buf. simpl. destruct (length buf <? n)%nat eqn:E; [done|]. bool_cases.
  specialize (Hf buf). simpl in Hf.
  assert (forall s, (length (buf ++ s) <? n)%nat = false) as Hl
    by (intros s; apply Nat.ltb_ge; rewrite length_app; lia).
  destruct (f buf) as [y| |]; [|intros s; by rewrite Hl|done].
  destruct Hf as [Hs Hf]. split; [done|]. intros s. by rewrite Hl.
Qed.

Lemma parse_http_version_regular : Reg parse_http_version.
Proof.
  apply (Reg_at_least 9 (fun buf => expect_char 72 buf ≫= fun b1 => expect_char 84 b1 ≫= fun b2 =>
    expect_char 84 b2 ≫= fun b3 => expect_char 80 b3 ≫= fun b4 => expect_char 47 b4 ≫= fun b5 =>
    expect_char 49 b5 ≫= fun b6 => expect_char 46 b6 ≫= fun b7 => parse_int 1 b7)).
  repeat (apply (Reg_bind (expect_char _)); [apply expect_char_regular|]). apply parse_int_regular.
Qed.

(** ** Headers are regular *)

Lemma Reg_ext {X Y} `{HasPos X, HasPos Y} (f g : X -> Res Y) : (forall x, f x = g x) -> Reg g -> Reg f.
Proof.
  intros E Hg x. rewrite E. specialize (Hg x). destruct (g x).
  - split; [apply Hg|]. intros s. rewrite E. apply Hg.
  - intros s. rewrite E. apply Hg.
  - done.
Qed.

Lemma parse_token_false (next : Z) (buf : list Z) : parse_token false next buf = parse_token' next buf.
Proof. by destruct buf. Qed.

Lemma advance_token_false (buf : list Z) : advance_token false buf = advance_token' buf.
Proof. by destruct buf. Qed.

Lemma get_token_to_eol_false (start : list Z) : get_token_to_eol false start = get_token_to_eol' start.
Proof.
  unfold get_token_to_eol, get_token_to_eol'.
  destruct (unrolled_loop_scanned (S (length start)) start) as (pre & Hpre & Hp & Hs).
  destruct (unrolled_loop _ _) as [b found]. simpl in *.
  replace (eol_loop start) with (eol_loop b) by (rewrite Hpre; by rewrite eol_loop_skip).
  destruct found.
  - destruct (Hs eq_refl) as (c & rest & -> & Hc). simpl. unfold eol_stop in Hc. by rewrite Hc.
  - destruct (eol_loop b) as [[|c ctl]| |]; try done.
Qed.

Lemma parse_token_regular (next : Z) : Reg (parse_token false next).
Proof. eapply Reg_ext; [apply parse_token_false|]. apply (Reg_token (token_loop next)), token_loop_regular. Qed.

Lemma advance_token_regular : Reg (advance_token false).
Proof. eapply Reg_ext; [apply advance_token_false|]. apply (Reg_token advance_loop), advance_loop_regular. Qed.

Lemma get_token_regular : Reg (get_token_to_eol false).
Proof. eapply Reg_ext; [apply get_token_to_eol_false|]. apply get_token_to_eol_regular. Qed.

Lemma line_break_regular : Reg line_break.
Proof.
  intros [|c buf]; [done|]. simpl. destruct (c =? CR); [|destruct (c =? LF)]; simpl.
  - pose proof (expect_char_regular LF buf) as He.
    destruct (expect_char LF buf) as [y| |]; simpl in *; [|intros s; by rewrite He|done].
    destruct He as [Hs He]. split; [by apply suffix_cons|]. intros s. by rewrite He.
  - split; [apply suffix_cons, suffix_refl|done].
  - split; [apply suffix_refl|done].
Qed.

(** The name of a header line and the position of its value. *)
Definition header_name (sse : bool) (first : bool) (buf : list Z) : Res (list Z * list Z) :=
  match buf with
  | c :: _ =>
      if negb (negb first && is_blank c) then
        tok ← parse_token sse 58 buf;
        if (length tok.1 =? 0)%nat then Failed
        else b ← do_skip_blanks tok.2; mret (tok.1, b)
      else mret ([], buf)
  | [] => Incomplete
  end.

Lemma header_name_regular (first : bool) : Reg (header_name false first).
Proof.
  assert (Reg (fun buf : list Z => parse_token false 58 buf ≫= fun tok =>
    if (length tok.1 =? 0)%nat then Failed else b ← do_skip_blanks tok.2; mret (tok.1, b))) as H.
  { apply (Reg_bind (parse_token false 58)); [apply parse_token_regular|]. intros tok. simpl.
    destruct (length tok.1 =? 0)%nat; [done|]. pose proof (do_skip_blanks_regular tok.2) as Hb.
    destruct (do_skip_blanks tok.2) as [y| |]; simpl in *; [|intros s; by rewrite Hb|done].
    destruct Hb as [Hs Hb]. split; [done|]. intros s. by rewrite Hb. }
  intros [|c buf]; [done|]. unfold header_name. simpl ext. specialize (H (c :: buf)). simpl ext in H.
  cbn [app] in *. destruct (negb (negb first && is_blank c)); [exact H|].
  split; [apply suffix_refl|done].
Qed.

Lemma parse_header_regular (first : bool) : Reg (parse_header false first).
Proof.
  apply (Reg_bind (header_name false first)); [apply header_name_regular|]. intros nb. simpl.
  pose proof (get_token_regular nb.2) as Hv. simpl in Hv.
  destruct (get_token_to_eol false nb.2) as [y| |]; simpl in *; [|intros s; by rewrite Hv|done].
  destruct Hv as [Hs Hv]. split; [done|]. intros s. by rewrite Hv.
Qed.

Lemma eol_loop_suffix (start ctl : list Z) : eol_loop start = Ok ctl -> suffix_of ctl start.
Proof. intros E. pose proof (eol_loop_regular start) as H. rewrite E in H. apply H. Qed.

Lemma get_token_shorter (start tok rest : list Z) :
  get_token_to_eol' start = Ok (tok, rest) -> (length rest < length start)%nat.
Proof.
  unfold get_token_to_eol'. destruct (eol_loop start) as [ctl| |] eqn:E; simpl; [|done|done].
  apply eol_loop_suffix, suffix_length in E. destruct ctl as [|c ctl]; [done|]. simpl in *.
  destruct (c =? CR); [|destruct (c =? LF)]; simpl; [| |done].
  - destruct ctl as [|c' ctl]; [done|]. simpl. destruct (c' =? LF); [|done]. intros [= _ <-]. simpl in *. lia.
  - intros [= _ <-]. lia.
Qed.

Lemma parse_header_shorter (first : bool) (buf rest : list Z) (h : MessageHeader) :
  parse_header false first buf = Ok (h, rest) -> (length rest < length buf)%nat.
Proof.
  unfold parse_header. change (match buf with [] => _ | _ :: _ => _ end) with (header_name false first buf).
  pose proof (header_name_regular first buf) as Hn.
  destruct (header_name false first buf) as [nb| |]; simpl; [|done|done].
  destruct Hn as [Hn _]. apply suffix_length in Hn. simpl in Hn. rewrite get_token_to_eol_false.
  destruct (get_token_to_eol' nb.2) as [[v r]| |] eqn:E; simpl; [|done|done].
  apply get_token_shorter in E. intros [= _ <-]. lia.
Qed.

Lemma parse_headers_regular (n : nat) (hs : list MessageHeader) (buf : list Z) :
  (length buf <= n)%nat ->
  match parse_headers_impl n false hs buf with
  | Some (h, Ok y) => suffix_of y buf /\
      forall s m, (length (buf ++ s) <= m)%nat -> parse_headers_impl m false hs (buf ++ s) = Some (h, Ok (y ++ s))
  | Some (h, Failed) =>
      forall s m, (length (buf ++ s) <= m)%nat -> parse_headers_impl m false hs (buf ++ s) = Some (h, Failed)
  | Some (_, Incomplete) => True
  | None => False
  end.
Proof.
  revert hs buf. induction n as [|n IH]; intros hs buf Hn.
  { destruct buf; [done|simpl in Hn; lia]. }
  cbn [parse_headers_impl]. pose proof (line_break_regular buf) as Hl.
  destruct (line_break buf) as [[[] b]| |] eqn:El; simpl in Hl.
  - destruct Hl as [Hs Hl]. split; [done|]. intros s m _. destruct m; cbn [parse_headers_impl]; by rewrite Hl.
  - destruct Hl as [_ Hl].
    assert (b = buf /\ buf <> []) as [-> Hne].
    { destruct buf as [|c buf]; [done|]. split; [|done]. simpl in El.
      destruct (c =? CR); [by destruct (expect_char LF buf)|]. destruct (c =? LF); [done|]. by injection El. }
    pose proof (parse_header_regular (length hs =? 0)%nat buf) as Hh.
    pose proof (parse_header_shorter (length hs =? 0)%nat buf) as Hsh.
    destruct (parse_header false (length hs =? 0)%nat buf) as [[h rest]| |]; simpl in Hh.
    + destruct Hh as [Hs Hh]. specialize (Hsh rest h eq_refl). specialize (IH (hs ++ [h]) rest ltac:(lia)).
      destruct (parse_headers_impl n false (hs ++ [h]) rest) as [[h' [y| |]]|]; [| |done|done].
      * destruct IH as [Hs' IH]. split; [by eapply suffix_trans|]. intros s m Hm.
        destruct m as [|m]; [rewrite length_app in Hm; destruct buf; [done|simpl in Hm; lia]|].
        cbn [parse_headers_impl]. rewrite Hl, Hh. apply IH. rewrite length_app in *. lia.
      * intros s m Hm.
        destruct m as [|m]; [rewrite length_app in Hm; destruct buf; [done|simpl in Hm; lia]|].
        cbn [parse_headers_impl]. rewrite Hl, Hh. apply IH. rewrite length_app in *. lia.
    + intros s m Hm.
      destruct m as [|m]; [rewrite length_app in Hm; destruct buf; [done|simpl in Hm; lia]|].
      cbn [parse_headers_impl]. by rewrite Hl, Hh.
    + done.
  - intros s m _. destruct m; cbn [parse_headers_impl]; by rewrite Hl.
  - done.
Qed.

(** ** Requests and responses are regular *)

Lemma SReg_guard {S X Y} `{HasPos X, HasPos Y} (b : S -> X -> bool) (f : S -> X -> Steps S Y) :
  (forall r x s, b r (ext s x) = b r x) -> SReg f -> SReg (fun r x => if b r x then Some (r, Failed) else f r x).
Proof.
  intros Hb Hf r x. destruct (b r x) eqn:E.
  - intros s. by rewrite Hb, E.
  - specialize (Hf r x). destruct (f r x) as [[r' [y| |]]|]; [|intros s; by rewrite Hb, E|done|done].
    destruct Hf as [Hs Hf]. split; [done|]. intros s. by rewrite Hb, E.
Qed.

(** A step from the position inside a richer result. *)
Lemma SReg_pos {S A Y} `{HasPos Y} (f : S -> list Z -> Steps S Y) :
  SReg f -> SReg (fun r (x : A * list Z) => f r x.2).
Proof. intros Hf r x. exact (Hf r x.2). Qed.

Lemma SReg_headers {S} (get : S -> list MessageHeader) (set : S -> list MessageHeader -> S) :
  SReg (fun r buf => match parse_headers_impl (length buf) false (get r) buf with
                     | Some (h, res) => Some (set r h, res)
                     | None => None
                     end).
Proof.
  intros r buf. simpl. pose proof (parse_headers_regular (length buf) (get r) buf (le_n _)) as H.
  destruct (parse_headers_impl (length buf) false (get r) buf) as [[h [y| |]]|]; [| |done|done].
  - destruct H as [Hs H]. split; [done|]. intros s. by rewrite H.
  - intros s. by rewrite H.
Qed.

Lemma SReg_id {S Y} `{HasPos Y} {X} `{HasPos X} (f : X -> Res Y) : Reg f -> SReg (fun (r : S) x => Some (r, f x)).
Proof. intros Hf. by apply (SReg_lift (fun r _ => r)). Qed.

Lemma request_line_regular : SReg (parse_request_line false).
Proof.
  unfold parse_request_line.
  apply (SReg_bind (fun r buf => Some (r, parse_token false SP buf))); [apply SReg_id, parse_token_regular|].
  apply (SReg_bind (fun r tok => Some (set_method r tok.1, do_skip_spaces tok.2))).
  { apply (SReg_lift (fun r tok => set_method r tok.1) (fun tok => do_skip_spaces tok.2)); [done|].
    intros tok. exact (do_skip_spaces_regular tok.2). }
  apply (SReg_bind (fun r buf => Some (r, advance_token false buf))); [apply SReg_id, advance_token_regular|].
  apply (SReg_bind (fun r p => Some (set_path r p.1, do_skip_spaces p.2))).
  { apply (SReg_lift (fun r p => set_path r p.1) (fun p => do_skip_spaces p.2)); [done|].
    intros p. exact (do_skip_spaces_regular p.2). }
  apply (SReg_guard (fun r _ => (length (method r) =? 0)%nat || (length (path r) =? 0)%nat)); [done|].
  apply (SReg_bind (fun r buf => Some (r, parse_http_version buf))); [apply SReg_id, parse_http_version_regular|].
  apply (SReg_lift (fun r v => set_minor r v.1) (fun v => Ok v.2)); [done|]. by apply (Reg_ret snd).
Qed.

Lemma request_regular : SReg (parse_request_impl false).
Proof.
  unfold parse_request_impl.
  apply (SReg_bind (fun r buf => Some (r, line_break buf))); [apply SReg_id, line_break_regular|].
  apply (SReg_bind (fun r skipped => parse_request_line false r skipped.2));
    [apply (SReg_pos (parse_request_line false)), request_line_regular|].
  apply (SReg_bind (fun r buf => Some (r, line_break buf))); [apply SReg_id, line_break_regular|].
  apply (SReg_guard (fun _ eol => negb eol.1)); [done|].
  apply (SReg_pos (request_headers false)), (SReg_headers headers set_headers).
Qed.

Lemma parse_int_3_regular : SReg parse_int_3.
Proof.
  unfold parse_int_3.
  apply (SReg_bind (fun r buf => Some (r, parse_int 100 buf))); [apply SReg_id, parse_int_regular|].
  apply (SReg_bind (fun r d => Some (set_status r d.1, parse_int 10 d.2))).
  { apply (SReg_lift (fun r d => set_status r d.1) (fun d => parse_int 10 d.2)); [done|].
    intros d. exact (parse_int_regular 10 d.2). }
  apply (SReg_bind (fun r d => Some (set_status r (status r + d.1), parse_int 1 d.2))).
  { apply (SReg_lift (fun r d => set_status r (status r + d.1)) (fun d => parse_int 1 d.2)); [done|].
    intros d. exact (parse_int_regular 1 d.2). }
  apply (SReg_lift (fun r d => set_status r (status r + d.1)) (fun d => Ok d.2)); [done|]. by apply (Reg_ret snd).
Qed.

Lemma SReg_at_least {S Y} `{HasPos Y} (n : nat) (f : S -> list Z -> Steps S Y) :
  SReg f -> SReg (fun r buf => if (length buf <? n)%nat then Some (r, Incomplete) else f r buf).
Proof.
  intros Hf r buf. simpl. destruct (length buf <? n)%nat eqn:E; [done|]. bool_cases.
  specialize (Hf r buf). simpl in Hf.
  assert (forall s, (length (buf ++ s) <? n)%nat = false) as Hl
    by (intros s; apply Nat.ltb_ge; rewrite length_app; lia).
  destruct (f r buf) as [[r' [y| |]]|]; [|intros s; by rewrite Hl|done|done].
  destruct Hf as [Hs Hf]. split; [done|]. intros s. by rewrite Hl.
Qed.

(** The part of a response that follows the status code. *)
Definition response_tail (sse : bool) (r : Response) (m : list Z * list Z) : Steps Response (list Z) :=
  let r := set_message r m.1 in
  match trim_message m.1 with
  | None => Some (r, Failed)
  | Some msg => response_headers sse (set_message r msg) m.2
  end.

Lemma response_tail_regular : SReg (response_tail false).
Proof.
  intros r m. unfold response_tail. simpl. destruct (trim_message m.1) as [msg|]; [|done].
  exact (SReg_headers rsp_headers set_rsp_headers (set_message (set_message r m.1) msg) m.2).
Qed.

Lemma response_regular : SReg (parse_response_impl false).
Proof.
  unfold parse_response_impl.
  apply (SReg_bind (fun r buf => Some (r, parse_http_version buf))); [apply SReg_id, parse_http_version_regular|].
  apply (SReg_bind (fun r v => Some (set_rsp_minor r v.1, expect_char SP v.2))).
  { apply (SReg_lift (fun r v => set_rsp_minor r v.1) (fun v => expect_char SP v.2)); [done|].
    intros v. exact (expect_char_regular SP v.2). }
  apply (SReg_bind (fun r buf => Some (r, skip_spaces buf))); [apply SReg_id, skip_spaces_regular|].
  apply (SReg_at_least 4), (SReg_bind parse_int_3); [apply parse_int_3_regular|].
  apply (SReg_bind (fun r buf => Some (r, get_token_to_eol false buf))); [apply SReg_id, get_token_regular|].
  exact response_tail_regular.
Qed.

(** ** The builds with and without SSE agree *)

Definition SEq {S X Y} `{HasPos X, HasPos Y} (f g : S -> X -> Steps S Y) : Prop :=
  forall r x, Forall is_byte (pos x) -> f r x = g r x.

Lemma SEq_refl {S X Y} `{HasPos X, HasPos Y} (f : S -> X -> Steps S Y) : SEq f f.
Proof. done. Qed.

Lemma SEq_bind {S X Y W} `{HasPos X, HasPos Y, HasPos W} (f f' : S -> X -> Steps S Y) (g g' : S -> Y -> Steps S W) :
  SReg f' -> SEq f f' -> SEq g g' -> SEq (fun r x => steps_bind (f r x) g) (fun r x => steps_bind (f' r x) g').
Proof.
  intros Hr Hf Hg r x Hx. rewrite Hf by done. specialize (Hr r x).
  destruct (f' r x) as [[r' [y| |]]|]; simpl; try done. apply Hg. destruct Hr as [Hs _]. by eapply suffix_bytes.
Qed.

Lemma header_name_sse (sse first : bool) (buf : list Z) :
  Forall is_byte buf -> header_name sse first buf = header_name false first buf.
Proof.
  intros Hb. unfold header_name. destruct buf as [|c buf]; [done|].
  by rewrite parse_token_canonical, parse_token_false by (done || by left).
Qed.

Lemma parse_header_sse (sse first : bool) (buf : list Z) :
  Forall is_byte buf -> parse_header sse first buf = parse_header false first buf.
Proof.
  intros Hb. change (parse_header ?s first buf)
    with (nb ← header_name s first buf; v ← get_token_to_eol s nb.2; mret (mkHeader nb.1 (trim_end v.1), v.2)).
  rewrite header_name_sse by done. pose proof (header_name_regular first buf) as Hr.
  destruct (header_name false first buf) as [nb| |]; simpl; [|done|done].
  destruct Hr as [Hs _]. by rewrite get_token_to_eol_canonical, get_token_to_eol_false by (by eapply suffix_bytes).
Qed.

Lemma parse_headers_sse (sse : bool) (n : nat) (hs : list MessageHeader) (buf : list Z) :
  Forall is_byte buf -> parse_headers_impl n sse hs buf = parse_headers_impl n false hs buf.
Proof.
  revert hs buf. induction n as [|n IH]; intros hs buf Hb; cbn [parse_headers_impl]; [done|].
  pose proof (line_break_regular buf) as Hl. destruct (line_break buf) as [[[] b]| |]; try done.
  destruct Hl as [Hs _]. simpl in Hs. assert (Forall is_byte b) as Hb' by (by eapply suffix_bytes).
  rewrite parse_header_sse by done. pose proof (parse_header_regular (length hs =? 0)%nat b) as Hh.
  destruct (parse_header false (length hs =? 0)%nat b) as [[h rest]| |]; try done.
  destruct Hh as [Hs' _]. apply IH. by eapply suffix_bytes.
Qed.

Lemma request_line_sse (sse : bool) : SEq (parse_request_line sse) (parse_request_line false).
Proof.
  unfold parse_request_line.
  apply (SEq_bind (fun r buf => Some (r, parse_token sse SP buf)) (fun r buf => Some (r, parse_token false SP buf))).
  { apply SReg_id, parse_token_regular. }
  { intros r buf Hb. by rewrite parse_token_canonical, parse_token_false by (done || by right). }
  apply (SEq_bind (fun r tok => Some (set_method r tok.1, do_skip_spaces tok.2)) (fun r tok => Some (set_method r tok.1, do_skip_spaces tok.2))).
  { apply (SReg_lift (fun r tok => set_method r tok.1) (fun tok => do_skip_spaces tok.2)); [done|].
    intros tok. exact (do_skip_spaces_regular tok.2). }
  { apply SEq_refl. }
  apply (SEq_bind (fun r buf => Some (r, advance_token sse buf)) (fun r buf => Some (r, advance_token false buf))).
  { apply SReg_id, advance_token_regular. }
  { intros r buf Hb. by rewrite advance_token_canonical, advance_token_false. }
  apply SEq_refl.
Qed.

Lemma request_sse (sse : bool) : SEq (parse_request_impl sse) (parse_request_impl false).
Proof.
  unfold parse_request_impl.
  apply (SEq_bind (fun r buf => Some (r, line_break buf)) (fun r buf => Some (r, line_break buf)));
    [apply SReg_id, line_break_regular|apply SEq_refl|].
  apply (SEq_bind (fun r skipped => parse_request_line sse r skipped.2) (fun r skipped => parse_request_line false r skipped.2)).
  { apply (SReg_pos (parse_request_line false)), request_line_regular. }
  { intros r x Hx. by apply request_line_sse. }
  apply (SEq_bind (fun r buf => Some (r, line_break buf)) (fun r buf => Some (r, line_break buf)));
    [apply SReg_id, line_break_regular|apply SEq_refl|].
  intros r x Hx. unfold request_headers. by rewrite parse_headers_sse.
Qed.

Lemma response_sse (sse : bool) : SEq (parse_response_impl sse) (parse_response_impl false).
Proof.
  unfold parse_response_impl.
  apply (SEq_bind (fun r buf => Some (r, parse_http_version buf)) (fun r buf => Some (r, parse_http_version buf)));
    [apply SReg_id, parse_http_version_regular|apply SEq_refl|].
  apply (SEq_bind (fun r v => Some (set_rsp_minor r v.1, expect_char SP v.2)) (fun r v => Some (set_rsp_minor r v.1, expect_char SP v.2))).
  { apply (SReg_lift (fun r v => set_rsp_minor r v.1) (fun v => expect_char SP v.2)); [done|].
    intros v. exact (expect_char_regular SP v.2). }
  { apply SEq_refl. }
  apply (SEq_bind (fun r buf => Some (r, skip_spaces buf)) (fun r buf => Some (r, skip_spaces buf)));
    [apply SReg_id, skip_spaces_regular|apply SEq_refl|].
  intros r buf Hb. destruct (length buf <? 4)%nat; [done|]. revert r buf Hb.
  apply (SEq_bind parse_int_3 parse_int_3); [apply parse_int_3_regular|apply SEq_refl|].
  apply (SEq_bind (fun r buf => Some (r, get_token_to_eol sse buf)) (fun r buf => Some (r, get_token_to_eol false buf))).
  { apply SReg_id, get_token_regular. }
  { intros r buf Hb. by rewrite get_token_to_eol_canonical, get_token_to_eol_false. }
  intros r m Hm. destruct (trim_message m.1); [|done]. unfold response_headers. by rewrite parse_headers_sse.
Qed.

(** C35: the build that scans 16 bytes at a time with SSE 4.2 and the one that
    does not parse every buffer to the same object and return code:
    requests, responses and header blocks. *)
Theorem sse_equivalence (buf : list Z) (last_len : nat) :
  Forall is_byte buf ->
  parse_request true buf last_len = parse_request false buf last_len /\
  parse_response true buf last_len = parse_response false buf last_len /\
  parse_headers true buf last_len = parse_headers false buf last_len.
Proof.
  intros Hb. unfold parse_request, parse_response, parse_headers.
  rewrite (request_sse true), (response_sse true), (parse_headers_sse true) by done. done.
Qed.

Lemma parse_response_stable (sse : bool) (buf more : list Z) :
  Forall is_byte (buf ++ more) ->
  exists r n, parse_response sse buf 0 = Some (r, n) /\
    (n = -2 \/ parse_response sse (buf ++ more) 0 = Some (r, n)).
Proof.
  intros Hb. pose proof Hb as Hb'. apply Forall_app in Hb' as [Hb' _]. unfold parse_response. simpl.
  rewrite !(response_sse sse) by done.
  pose proof (response_regular (mkResponse (-1) (-1) 0 [] []) buf) as H.
  destruct (parse_response_impl false _ buf) as [[r [y| |]]|]; [| | |done]; do 2 eexists; (split; [reflexivity|]).
  - right. destruct H as [_ H]. simpl in H. rewrite H, !length_app. do 2 f_equal. lia.
  - right. simpl in H. by rewrite H.
  - by left.
Qed.

(** C36: parsing is total, and bytes that arrive later do not change an answer:
    a request or response that was parsed (with its length) or refused on a
    buffer is parsed to the same object, or refused, on every longer buffer. *)
Theorem parse_stable (sse : bool) (buf more : list Z) :
  Forall is_byte (buf ++ more) ->
  (exists r n, parse_request sse buf 0 = Some (r, n) /\
     (n = -2 \/ parse_request sse (buf ++ more) 0 = Some (r, n))) /\
  (exists r n, parse_response sse buf 0 = Some (r, n) /\
     (n = -2 \/ parse_response sse (buf ++ more) 0 = Some (r, n))).
Proof.
  intros Hb. split; [|by apply parse_response_stable].
  pose proof Hb as Hb'. apply Forall_app in Hb' as [Hb' _]. unfold parse_request. simpl. rewrite !(request_sse sse) by done.
  pose proof (request_regular (mkRequest [] [] (-1) (-1) []) buf) as H.
  destruct (parse_request_impl false _ buf) as [[r [y| |]]|]; [| | |done]; do 2 eexists; (split; [reflexivity|]).
  - right. destruct H as [_ H]. simpl in H. rewrite H, !length_app. do 2 f_equal. lia.
  - right. simpl in H. by rewrite H.
  - by left.
Qed.

(** [GET /a HTTP/1.1], [Host: b], and one byte of the body. *)
Definition sample_request : list Z :=
  [71; 69; 84; 32; 47; 97; 32; 72; 84; 84; 80; 47; 49; 46; 49; 13; 10; 72; 111; 115; 116; 58; 32; 98; 13; 10; 13; 10].

Lemma forall_bytes (bs : list Z) : forallb (fun c => (0 <=? c) && (c <? 256)) bs = true -> Forall is_byte bs.
Proof.
  intros H. apply list.Forall_forall. intros c Hc. rewrite forallb_forall in H.
  specialize (H c (proj1 (list_elem_of_In _ _) Hc)). bool_cases. unfold is_byte. lia.
Qed.

Lemma sse_equivalence_witness :
  parse_request true sample_request 0 = Some (mkRequest [71; 69; 84] [47; 97] 1 1 [mkHeader [72; 111; 115; 116] [98]], 28) /\
  parse_request true sample_request 0 = parse_request false sample_request 0.
Proof.
  split; [by vm_compute|].
  apply (sse_equivalence sample_request 0), forall_bytes. by vm_compute.
Defined.

Lemma parse_stable_witness :
  parse_request false sample_request 0 = Some (mkRequest [71; 69; 84] [47; 97] 1 1 [mkHeader [72; 111; 115; 116] [98]], 28) /\
  exists r n, parse_request false sample_request 0 = Some (r, n) /\
    (n = -2 \/ parse_request false (sample_request ++ [104]) 0 = Some (r, n)).
Proof.
  split; [by vm_compute|].
  apply (parse_stable false sample_request [104]), forall_bytes. by vm_compute.
Defined.
