(* ===== verification/HttpRoundTrip.v ===== *)
(** * Printed messages parse back

    [operator<<] of [pico_http] requests, responses and headers against the
    parser of [HttpParser]: what the library prints, it reads back, whatever
    bytes follow it in the buffer. *)

From S2P Require Import Prelude HttpParser.
Open Scope Z_scope.

(** ** Messages the syntax can express *)

Definition not_ctl (c : Z) : bool := negb (eol_stop c).

Definition ends_blank (v : list Z) : bool := match head (reverse v) with Some c => is_blank c | None => false end.
Definition starts_blank (v : list Z) : bool := match head v with Some c => is_blank c | None => false end.

Definition nonempty (v : list Z) : bool := match v with [] => false | _ => true end.

Definition path_char (c : Z) : bool := (32 <? c) && negb (c =? 127).

Definition valid_header (h : MessageHeader) : bool :=
  nonempty (name h) && forallb token_char_map (name h) &&
  forallb not_ctl (header_value h) && negb (starts_blank (header_value h)) && negb (ends_blank (header_value h)).

Definition is_digit (n : Z) : bool := (0 <=? n) && (n <? 10).

Definition valid_request (r : Request) : bool :=
  nonempty (method r) && forallb token_char_map (method r) && nonempty (path r) && forallb path_char (path r) &&
  (major_version r =? 1) && is_digit (minor_version r) && forallb valid_header (headers r).

Definition valid_response (r : Response) : bool :=
  (rsp_major_version r =? 1) && is_digit (rsp_minor_version r) && (100 <=? status r) && (status r <? 1000) &&
  forallb not_ctl (message r) && negb (match head (message r) with Some c => c =? SP | None => false end) &&
  forallb valid_header (rsp_headers r).

(** ** Tokens *)

Lemma token_of_prefix (m b : list Z) : token_of (m ++ b) b = m.
Proof.
  unfold token_of. rewrite length_app, take_app_le by lia. replace (_ - _)%nat with (length m) by lia. apply firstn_all.
Qed.

Lemma token_char_not (next : Z) (m : list Z) :
  token_char_map next = false -> forallb token_char_map m = true ->
  Forall (fun c => (c =? next) || negb (token_char_map c) = false) m.
Proof.
  intros Hn Hm. apply list.Forall_forall. intros c Hc. rewrite forallb_forall in Hm.
  specialize (Hm c (proj1 (list_elem_of_In _ _) Hc)). rewrite Hm, orb_false_r. apply Z.eqb_neq. intros ->. congruence.
Qed.

Lemma parse_token_print (next : Z) (m b : list Z) :
  token_char_map next = false -> forallb token_char_map m = true ->
  parse_token false next (m ++ next :: b) = Ok (m, next :: b).
Proof.
  intros Hn Hm. rewrite parse_token_false. unfold parse_token'.
  rewrite token_loop_skip by (by apply token_char_not). simpl. rewrite Z.eqb_refl. simpl.
  by rewrite token_of_prefix.
Qed.

Lemma advance_token_print (p b : list Z) :
  forallb path_char p = true -> advance_token false (p ++ SP :: b) = Ok (p, SP :: b).
Proof.
  intros Hp. rewrite advance_token_false. unfold advance_token'. rewrite advance_loop_skip.
  - simpl. by rewrite token_of_prefix.
  - apply list.Forall_forall. intros c Hc. rewrite forallb_forall in Hp.
    specialize (Hp c (proj1 (list_elem_of_In _ _) Hc)). unfold path_char in Hp. apply andb_true_iff in Hp as [H1 H2].
    apply negb_true_iff in H2. rewrite H2, orb_false_r. unfold SP. bool_cases.
    rewrite (proj2 (Z.eqb_neq c 32)) by lia. rewrite (proj2 (Z.ltb_ge c 32)) by lia. by rewrite andb_false_r.
Qed.

Lemma get_token_print (v b : list Z) :
  forallb not_ctl v = true -> get_token_to_eol false (v ++ CR :: LF :: b) = Ok (v, b).
Proof.
  intros Hv. rewrite get_token_to_eol_false. unfold get_token_to_eol'. rewrite eol_loop_skip.
  - simpl. by rewrite token_of_prefix.
  - apply list.Forall_forall. intros c Hc. rewrite forallb_forall in Hv.
    specialize (Hv c (proj1 (list_elem_of_In _ _) Hc)). by apply negb_true_iff in Hv.
Qed.

(** ** Headers *)

Lemma trim_end_id (v : list Z) : ends_blank v = false -> trim_end v = v.
Proof.
  unfold ends_blank, trim_end. destruct v as [|c v _] using rev_ind; [done|].
  rewrite reverse_snoc. simpl. intros H. rewrite H. by rewrite reverse_cons, reverse_involutive.
Qed.

Lemma skip_blanks_print (v b : list Z) :
  starts_blank v = false -> skip_blanks (v ++ CR :: LF :: b) = Ok (v ++ CR :: LF :: b).
Proof. destruct v as [|c v]; [done|]. unfold starts_blank. simpl. by intros ->. Qed.

Lemma token_char_start (c : Z) : token_char_map c = true -> is_blank c = false /\ (c =? CR) = false /\ (c =? LF) = false.
Proof.
  unfold is_blank, SP, HT, CR, LF. intros H.
  split_and!; [apply orb_false_iff; split| |]; apply Z.eqb_neq; intros ->; discriminate.
Qed.

Lemma valid_header_parts (h : MessageHeader) :
  valid_header h = true ->
  forallb token_char_map (name h) = true /\ forallb not_ctl (header_value h) = true /\
  starts_blank (header_value h) = false /\ ends_blank (header_value h) = false /\
  exists c m, name h = c :: m /\ token_char_map c = true.
Proof.
  unfold valid_header. intros H. bool_cases. split_and!; try done.
  destruct (name h) as [|c m]; [done|]. exists c, m. split; [done|]. simpl in *. by bool_cases.
Qed.

Lemma parse_header_print (first : bool) (h : MessageHeader) (b : list Z) :
  valid_header h = true -> parse_header false first (print_header h ++ b) = Ok (h, b).
Proof.
  intros Hv. apply valid_header_parts in Hv as (Hn & Hc & Hsb & Heb & c & m & Hname & Htok).
  assert (print_header h ++ b = name h ++ 58 :: SP :: header_value h ++ CR :: LF :: b) as ->
    by (unfold print_header; by rewrite <- !app_assoc).
  change (parse_header false first ?x)
    with (nb ← header_name false first x; v ← get_token_to_eol false nb.2; mret (mkHeader nb.1 (trim_end v.1), v.2)).
  assert (forall x, header_name false first (name h ++ x) =
    (tok ← parse_token false 58 (name h ++ x);
     if (length tok.1 =? 0)%nat then Failed else b ← do_skip_blanks tok.2; mret (tok.1, b))) as ->.
  { intros x. unfold header_name. rewrite Hname. cbn [app].
    by rewrite (proj1 (token_char_start c Htok)), andb_false_r. }
  rewrite parse_token_print by done. simpl.
  replace (length (name h) =? 0)%nat with false by (by rewrite Hname).
  simpl. rewrite skip_blanks_print by done. simpl. rewrite get_token_print by done. simpl.
  rewrite trim_end_id by done. by destruct h.
Qed.

Lemma line_break_print (h : MessageHeader) (b : list Z) :
  valid_header h = true -> line_break (print_header h ++ b) = Ok (false, print_header h ++ b).
Proof.
  intros Hv. apply valid_header_parts in Hv as (_ & _ & _ & _ & c & m & Hname & Htok).
  destruct (token_char_start c Htok) as (_ & H1 & H2). unfold print_header. rewrite Hname. cbn [app]. simpl.
  by rewrite H1, H2.
Qed.

Lemma parse_headers_print (fuel : nat) (acc hs : list MessageHeader) (b : list Z) :
  forallb valid_header hs = true -> (length hs <= fuel)%nat ->
  parse_headers_impl fuel false acc (print_headers hs ++ CR :: LF :: b) = Some (acc ++ hs, Ok b).
Proof.
  revert fuel acc. induction hs as [|h hs IH]; intros fuel acc Hv Hf.
  - rewrite app_nil_r. by destruct fuel.
  - simpl in Hv. apply andb_true_iff in Hv as [Hh Hv]. destruct fuel as [|fuel]; [simpl in Hf; lia|].
    cbn [parse_headers_impl]. unfold print_headers. rewrite fmap_cons. cbn [concat]. rewrite <- app_assoc.
    rewrite line_break_print, parse_header_print by done.
    fold (print_headers hs). rewrite IH by (done || simpl in *; lia). by rewrite <- app_assoc.
Qed.

Lemma print_headers_length (hs : list MessageHeader) : (length hs <= length (print_headers hs))%nat.
Proof.
  induction hs as [|h hs IH]; [done|]. unfold print_headers. rewrite fmap_cons. cbn [concat].
  fold (print_headers hs). unfold print_header. rewrite !length_app. simpl. lia.
Qed.

(** ** Request and response lines *)

Lemma parse_int_digit (mul n : Z) (b : list Z) : is_digit n = true -> parse_int mul (digit n :: b) = Ok (mul * n, b).
Proof.
  unfold is_digit, digit. intros H. bool_cases. simpl.
  rewrite (proj2 (Z.ltb_ge (48 + n) 48)), (proj2 (Z.ltb_ge 57 (48 + n))) by lia. simpl. do 3 f_equal. lia.
Qed.

(** At least one byte follows the version: [HTTP/1.x] and the next one. *)
Lemma parse_http_version_print (n c : Z) (b : list Z) :
  is_digit n = true ->
  parse_http_version (72 :: 84 :: 84 :: 80 :: 47 :: 49 :: 46 :: digit n :: c :: b) = Ok (n, c :: b).
Proof.
  intros H. unfold parse_http_version. replace (_ <? 9)%nat with false by (symmetry; apply Nat.ltb_ge; simpl; lia).
  cbn [expect_char Z.eqb Pos.eqb mbind res_mbind res_bind]. rewrite parse_int_digit by done. by rewrite Z.mul_1_l.
Qed.

Lemma skip_spaces_stop (c : Z) (b : list Z) : (c =? SP) = false -> skip_spaces (c :: b) = Ok (c :: b).
Proof. intros H. simpl. by rewrite H. Qed.

Lemma nonempty_length (v : list Z) : nonempty v = true -> (length v =? 0)%nat = false.
Proof. by destruct v. Qed.

Lemma valid_request_parts (r : Request) :
  valid_request r = true ->
  forallb token_char_map (method r) = true /\ forallb path_char (path r) = true /\
  nonempty (method r) = true /\ nonempty (path r) = true /\
  major_version r = 1 /\ is_digit (minor_version r) = true /\ forallb valid_header (headers r) = true.
Proof. unfold valid_request. intros H. apply andb_true_iff in H as [H H7]. bool_cases. by split_and!. Qed.

Lemma request_line_print (r s : Request) (b : list Z) :
  valid_request r = true ->
  parse_request_line false s (method r ++ SP :: path r ++ SP :: 72 :: 84 :: 84 :: 80 :: 47 :: 49 :: 46
                                :: digit (minor_version r) :: CR :: b) =
  Some (set_minor (set_path (set_method s (method r)) (path r)) (minor_version r), Ok (CR :: b)).
Proof.
  intros Hv. apply valid_request_parts in Hv as (Hm & Hp & Hmn & Hpn & _ & Hd & _).
  unfold parse_request_line. rewrite parse_token_print by done. cbn [steps_bind fst snd].
  assert (forall x, do_skip_spaces (SP :: path r ++ x) = Ok (path r ++ x)) as ->.
  { intros x. destruct (path r) as [|c p]; [done|]. simpl in Hp. apply andb_true_iff in Hp as [Hc _].
    cbn [do_skip_spaces app]. apply skip_spaces_stop. unfold path_char in Hc. bool_cases. unfold SP. lia. }
  cbn [steps_bind]. rewrite advance_token_print by done. cbn [steps_bind fst snd do_skip_spaces].
  rewrite skip_spaces_stop by done. cbn [steps_bind set_path set_method method path].
  rewrite !nonempty_length by done. cbn [orb]. rewrite parse_http_version_print by done. done.
Qed.

Lemma parse_request_impl_print (r s : Request) (body : list Z) :
  valid_request r = true -> headers s = [] ->
  parse_request_impl false s (print_request r ++ body) =
  Some (mkRequest (method r) (path r) (major_version s) (minor_version r) (headers r), Ok body).
Proof.
  intros Hv Hs. pose proof Hv as Hv'. apply valid_request_parts in Hv' as (Hm & Hp & Hmn & Hpn & Hmaj & Hd & Hh).
  assert (print_request r ++ body = method r ++ SP :: path r ++ SP :: 72 :: 84 :: 84 :: 80 :: 47 :: 49 :: 46
            :: digit (minor_version r) :: CR :: LF :: print_headers (headers r) ++ CR :: LF :: body) as ->.
  { unfold print_request. rewrite Hmaj. rewrite <- !app_assoc. cbn [app]. done. }
  unfold parse_request_impl.
  assert (forall x, line_break (method r ++ x) = Ok (false, method r ++ x)) as ->.
  { intros x. destruct (method r) as [|c m]; [done|]. simpl in Hm. apply andb_true_iff in Hm as [Hc _].
    destruct (token_char_start c Hc) as (_ & H1 & H2). simpl. by rewrite H1, H2. }
  cbn [steps_bind snd]. rewrite request_line_print by done. simpl. unfold request_headers. cbn [headers set_minor set_path set_method].
  rewrite Hs, parse_headers_print; [done|done|].
  rewrite length_app. pose proof (print_headers_length (headers r)). lia.
Qed.

(** A request printed with [operator<<] parses back to the same request in
    both builds, whatever follows it in the buffer, and the returned length
    is the length of what was printed. *)
Theorem request_roundtrip (sse : bool) (r : Request) (body : list Z) :
  valid_request r = true -> Forall is_byte (print_request r ++ body) ->
  parse_request sse (print_request r ++ body) 0 = Some (r, Z.of_nat (length (print_request r))).
Proof.
  intros Hv Hb. unfold parse_request. cbn [Nat.eqb]. rewrite (request_sse sse) by done.
  rewrite parse_request_impl_print by done. apply valid_request_parts in Hv as (_ & _ & _ & _ & Hmaj & _).
  unfold set_major. cbn [method path minor_version headers]. rewrite length_app, <- Hmaj.
  do 2 f_equal; [by destruct r|lia].
Qed.

(** [POST /x HTTP/1.1] with two headers, one with an empty value. *)
Definition sample : Request :=
  mkRequest [80; 79; 83; 84] [47; 120] 1 1 [mkHeader [72; 111; 115; 116] [98; 32; 98]; mkHeader [65] []].

Lemma request_roundtrip_witness :
  valid_request sample = true /\
  parse_request true (print_request sample ++ [1; 2; 3]) 0 = Some (sample, Z.of_nat (length (print_request sample))).
Proof.
  split; [by vm_compute|]. apply (request_roundtrip true sample [1; 2; 3]); [by vm_compute|].
  apply forall_bytes. by vm_compute.
Defined.

(** ** Responses *)

Lemma valid_response_parts (r : Response) :
  valid_response r = true ->
  rsp_major_version r = 1 /\ is_digit (rsp_minor_version r) = true /\ 100 <= status r < 1000 /\
  forallb not_ctl (message r) = true /\
  (match head (message r) with Some c => c =? SP | None => false end) = false /\
  forallb valid_header (rsp_headers r) = true.
Proof. unfold valid_response. intros H. apply andb_true_iff in H as [H H7]. bool_cases. by split_and!. Qed.

Lemma parse_int_3_print (r : Response) (n : Z) (b : list Z) :
  100 <= n < 1000 -> parse_int_3 r (print_status n ++ b) = Some (set_status r n, Ok b).
Proof.
  intros Hn. unfold parse_int_3, print_status. cbn [app].
  assert (is_digit (n / 100) = true /\ is_digit (n / 10 mod 10) = true /\ is_digit (n mod 10) = true) as (H1 & H2 & H3).
  { unfold is_digit. rewrite !andb_true_iff, !Z.leb_le, !Z.ltb_lt. Z.to_euclidean_division_equations. lia. }
  rewrite parse_int_digit by done. cbn [steps_bind fst snd].
  rewrite parse_int_digit by done. cbn [steps_bind fst snd].
  rewrite parse_int_digit by done. cbn [steps_bind fst snd].
  unfold set_status. cbn [rsp_major_version rsp_minor_version status message rsp_headers].
  do 3 f_equal. Z.to_euclidean_division_equations. lia.
Qed.

(** The message is what follows the space after the status code. *)
Lemma trim_message_print (m : list Z) :
  (match head m with Some c => c =? SP | None => false end) = false -> trim_message (SP :: m) = Some m.
Proof. destruct m as [|c m]; [done|]. simpl. by intros ->. Qed.

Lemma parse_response_impl_print (r s : Response) (body : list Z) :
  valid_response r = true -> rsp_headers s = [] ->
  parse_response_impl false s (print_response r ++ body) =
  Some (mkResponse (rsp_major_version s) (rsp_minor_version r) (status r) (message r) (rsp_headers r), Ok body).
Proof.
  intros Hv Hs. apply valid_response_parts in Hv as (Hmaj & Hd & Hst & Hm & Hsp & Hh).
  assert (print_response r ++ body = 72 :: 84 :: 84 :: 80 :: 47 :: 49 :: 46 :: digit (rsp_minor_version r) :: SP ::
            print_status (status r) ++ (SP :: message r) ++ CR :: LF :: print_headers (rsp_headers r) ++ CR :: LF :: body) as ->.
  { unfold print_response. rewrite Hmaj. rewrite <- !app_assoc. cbn [app]. done. }
  unfold parse_response_impl. rewrite parse_http_version_print by done. cbn [steps_bind fst snd expect_char].
  rewrite Z.eqb_refl. cbn [steps_bind].
  assert (forall x, skip_spaces (print_status (status r) ++ x) = Ok (print_status (status r) ++ x)) as ->.
  { intros x. unfold print_status. cbn [app]. apply skip_spaces_stop. apply Z.eqb_neq. unfold digit, SP. Z.to_euclidean_division_equations. lia. }
  cbn [steps_bind]. replace (_ <? 4)%nat with false
    by (symmetry; apply Nat.ltb_ge; unfold print_status; rewrite !length_app; simpl; lia).
  rewrite parse_int_3_print by done. cbn [steps_bind].
  rewrite get_token_print by (simpl; done). cbn [steps_bind fst snd]. rewrite trim_message_print by done.
  unfold response_headers. cbn [rsp_headers set_message set_status set_rsp_minor]. rewrite Hs, parse_headers_print; [done|done|].
  rewrite length_app. pose proof (print_headers_length (rsp_headers r)). lia.
Qed.

Lemma parse_response_print (sse : bool) (r : Response) (body : list Z) :
  valid_response r = true -> Forall is_byte (print_response r ++ body) ->
  parse_response sse (print_response r ++ body) 0 = Some (r, Z.of_nat (length (print_response r))).
Proof.
  intros Hv Hb. unfold parse_response. cbn [Nat.eqb]. rewrite (response_sse sse) by done.
  rewrite parse_response_impl_print by done. apply valid_response_parts in Hv as (Hmaj & _).
  unfold set_rsp_major. cbn [rsp_minor_version status message rsp_headers]. rewrite length_app, <- Hmaj.
  do 2 f_equal; [by destruct r|lia].
Qed.

(** A response printed with [operator<<] parses back to the same response
    in both builds, whatever follows it in the buffer, and the returned
    length is the length of what was printed. *)
Theorem response_roundtrip (sse : bool) (r : Response) (body : list Z) :
  valid_response r = true -> Forall is_byte (print_response r ++ body) ->
  parse_response sse (print_response r ++ body) 0 = Some (r, Z.of_nat (length (print_response r))).
Proof. apply parse_response_print. Qed.

(** [HTTP/1.0 404 no] *)
Definition sample_response : Response := mkResponse 1 0 404 [110; 111] [mkHeader [65] [66]].

Lemma response_roundtrip_witness :
  valid_response sample_response = true /\
  parse_response false (print_response sample_response ++ [104; 105]) 0 =
  Some (sample_response, Z.of_nat (length (print_response sample_response))).
Proof.
  split; [by vm_compute|]. apply (response_roundtrip false sample_response [104; 105]); [by vm_compute|].
  apply forall_bytes. by vm_compute.
Defined.
