(* ===== verification/UrlParse.v ===== *)
(** * URLs

    [url_parse.hpp], with the [from_string<i64>] of [stream_util.hpp] that it
    reads ports with.  A [std::string_view] is the list of its characters; the
    [BATT_PANIC]s of the parser are [Panic]. *)

From Stdlib Require Import Ascii String.
From S2P Require Import Prelude Status.
Open Scope Z_scope.

Abbreviation chars := (list ascii).
Abbreviation chars_of := list_ascii_of_string.

(** ** Standard library: [find_first_of] and integer extraction *)

Definition char_in (delims : chars) (c : ascii) : bool := existsb (Ascii.eqb c) delims.

Definition starts_with (c : ascii) (s : chars) : bool := match s with c' :: _ => Ascii.eqb c' c | [] => false end.

(** [url.find_first_of(delims)]; [None] is [npos]. *)
Fixpoint find_first_of (delims url : chars) : option nat :=
  match url with
  | [] => None
  | c :: url' => if char_in delims c then Some O else S <$> find_first_of delims url'
  end.

Definition code (c : ascii) : Z := Z.of_nat (nat_of_ascii c).

Definition is_space (c : ascii) : bool := (code c =? 32) || ((9 <=? code c) && (code c <=? 13)).
Definition is_digit (c : ascii) : bool := (48 <=? code c) && (code c <=? 57).

Fixpoint skip_ws (s : chars) : chars :=
  match s with c :: s' => if is_space c then skip_ws s' else s | [] => [] end.

(** The digits in front, as a number, how many there are, and the rest. *)
Fixpoint read_digits (acc : Z) (n : nat) (s : chars) : Z * nat * chars :=
  match s with
  | c :: s' => if is_digit c then read_digits (acc * 10 + (code c - 48)) (S n) s' else (acc, n, s)
  | [] => (acc, n, s)
  end.

Definition i64_max : Z := 2 ^ 63 - 1.
Definition i64_min : Z := - 2 ^ 63.

(** A decimal [iss >> val]: what it stores in [val] if it stores something,
    whether it fails, and whether it has reached the end of the stream.
    Nothing is stored when only white space is left; 0 when there are no
    digits; the closest [i64] when the number is out of range. *)
Definition extract_i64 (s : chars) : option Z * bool * bool :=
  match skip_ws s with
  | [] => (None, true, true)
  | c :: s' =>
      let '(neg, digits) := if Ascii.eqb c "-" then (true, s') else if Ascii.eqb c "+" then (false, s') else (false, c :: s') in
      let '(n, count, rest) := read_digits 0 0 digits in
      let v := if (neg : bool) then - n else n in
      let eof := match rest with [] => true | _ => false end in
      if (count =? 0)%nat then (Some 0, true, eof)
      else if v <? i64_min then (Some i64_min, true, eof)
      else if i64_max <? v then (Some i64_max, true, eof)
      else (Some v, false, eof)
  end.

(** [uninit]: what the uninitialised [val] holds. *)
(* @ src/batteries/stream_util.hpp 104-131 from_string, from_string_impl *)
Definition from_string (uninit : Z) (str : chars) : option Z :=
  let '(stored, fail, eof) := extract_i64 str in
  let val := match stored with Some v => v | None => uninit end in
  if negb (fail || eof) || eof then Some val else None.

(** ** The parser *)

(* @ src/batteries/url_parse.hpp 19-42 UrlParse *)
Record UrlParse : Type := mkUrl {
  scheme : chars;
  user : chars;
  host : chars;
  port : option Z;
  path : chars;
  query : chars;
  fragment : chars }.

Definition set_scheme (p : UrlParse) (s : chars) : UrlParse :=
  mkUrl s (user p) (host p) (port p) (path p) (query p) (fragment p).
Definition set_user (p : UrlParse) (s : chars) : UrlParse :=
  mkUrl (scheme p) s (host p) (port p) (path p) (query p) (fragment p).
Definition set_host (p : UrlParse) (s : chars) : UrlParse :=
  mkUrl (scheme p) (user p) s (port p) (path p) (query p) (fragment p).
Definition set_port (p : UrlParse) (n : option Z) : UrlParse :=
  mkUrl (scheme p) (user p) (host p) n (path p) (query p) (fragment p).
Definition set_path (p : UrlParse) (s : chars) : UrlParse :=
  mkUrl (scheme p) (user p) (host p) (port p) s (query p) (fragment p).
Definition set_query (p : UrlParse) (s : chars) : UrlParse :=
  mkUrl (scheme p) (user p) (host p) (port p) (path p) s (fragment p).
Definition set_fragment (p : UrlParse) (s : chars) : UrlParse :=
  mkUrl (scheme p) (user p) (host p) (port p) (path p) (query p) s.

Definition Parsed : Type := outcome (StatusOr UrlParse).

Definition ok (p : UrlParse) : Parsed := Done (OkVal p).

(* @ src/batteries/url_parse.hpp 243-257 parse_url_query *)
Definition parse_url_query (url : chars) (parse : UrlParse) : Parsed :=
  match find_first_of ["#"%char] url with
  | None => ok (set_query parse url)
  | Some d => ok (set_fragment (set_query parse (take d url)) (drop (d + 1) url))
  end.

(* @ src/batteries/url_parse.hpp 212-241 parse_url_path *)
Definition parse_url_path (url : chars) (parse : UrlParse) : Parsed :=
  match find_first_of ["?"; "#"]%char url with
  | None => ok (set_path parse url)
  | Some d =>
      let parse := set_path parse (take d url) in
      match drop d url with
      | c :: url =>
          if Ascii.eqb c "?" then parse_url_query url parse
          else if Ascii.eqb c "#" then ok (set_fragment parse url)
          else Panic
      | [] => Panic
      end
  end.

Section port.
Context (uninit : Z).

(* @ src/batteries/url_parse.hpp 196-210 parse_url_port *)
Definition parse_url_port (url : chars) (parse : UrlParse) : Parsed :=
  let port_str := match find_first_of ["/"%char] url with Some d => take d url | None => url end in
  match from_string uninit port_str with
  | None => Done (Err kInvalidArgument)
  | Some n => parse_url_path (drop (length port_str) url) (set_port parse (Some n))
  end.

(** What follows the host. *)
(* @ src/batteries/url_parse.hpp 177-194 parse_url_host *)
Definition parse_after_host (url : chars) (parse : UrlParse) : Parsed :=
  match url with
  | [] => ok parse
  | c :: url' =>
      if Ascii.eqb c ":" then parse_url_port url' parse
      else if Ascii.eqb c "/" then parse_url_path url parse
      else Panic
  end.

(* @ src/batteries/url_parse.hpp 148-194 parse_url_host *)
Definition parse_url_host (url : chars) (parse : UrlParse) : Parsed :=
  match url with
  | [] => ok parse
  | c :: url' =>
      if Ascii.eqb c "[" then
        match find_first_of ["]"%char] url' with
        | None => Done (Err kInvalidArgument)
        | Some d => parse_after_host (drop (d + 1) url') (set_host parse (take d url'))
        end
      else
        match find_first_of [":"; "/"]%char url with
        | None => ok (set_host parse url)
        | Some d => parse_after_host (drop d url) (set_host parse (take d url))
        end
  end.

(* @ src/batteries/url_parse.hpp 108-146 parse_url_auth *)
Definition parse_url_auth (url : chars) (parse : UrlParse) : Parsed :=
  if starts_with "[" url then parse_url_host url parse
  else
    match find_first_of ["@"; ":"; "/"]%char url with
    | None => ok (set_host parse url)
    | Some d =>
        match drop d url with
        | c :: url' =>
            if Ascii.eqb c "@" then parse_url_host url' (set_user parse (take d url))
            else if Ascii.eqb c ":" then parse_url_port url' (set_host (set_user parse []) (take d url))
            else if Ascii.eqb c "/" then
              parse_url_path (drop d url) (set_port (set_host (set_user parse []) (take d url)) None)
            else Panic
        | [] => Panic
        end
    end.

(* @ src/batteries/url_parse.hpp 74-102 parse_url *)
Definition parse_url (url : chars) : Parsed :=
  let parse := mkUrl [] [] [] None [] [] [] in
  if (length url =? 0)%nat then ok parse
  else if starts_with "/" url then parse_url_path url parse
  else
    match find_first_of [":"%char] url with
    | None => ok (set_scheme parse url)
    | Some d =>
        let parse := set_scheme parse (take d url) in
        let url := drop (d + 1) url in
        if starts_with "/" url && starts_with "/" (tail url) then parse_url_auth (drop 2 url) parse
        else parse_url_path url parse
    end.
End port.

Definition str (s : string) : chars := chars_of s.

Example parse_ldap : parse_url 0 (str "ldap://[2001:db8::7/c=GB?objectClass?one") = Done (Err kInvalidArgument).
Proof. by vm_compute. Qed.

Example parse_port : parse_url 0 (str "https://me@the:889/a/b?q#s") =
  ok (mkUrl (str "https") (str "me") (str "the") (Some 889) (str "/a/b") (str "q") (str "s")).
Proof. by vm_compute. Qed.

Example parse_not_a_number : parse_url 0 (str "https://www.server.net:NOTANUMBER/a/b") = Done (Err kInvalidArgument).
Proof. by vm_compute. Qed.

(** ** Searching for delimiters *)

Definition free_of (delims s : chars) : bool := forallb (fun c => negb (char_in delims c)) s.

Lemma find_first_of_app (delims pre : chars) (c : ascii) (rest : chars) :
  free_of delims pre = true -> char_in delims c = true ->
  find_first_of delims (pre ++ c :: rest) = Some (length pre).
Proof.
  intros Hp Hc. induction pre as [|a pre IH]; simpl in *; [by rewrite Hc|].
  apply andb_true_iff in Hp as [Ha Hp]. apply negb_true_iff in Ha. by rewrite Ha, IH.
Qed.

Lemma find_first_of_none (delims s : chars) : free_of delims s = true -> find_first_of delims s = None.
Proof.
  induction s as [|a s IH]; simpl; [done|]. intros H. apply andb_true_iff in H as [Ha H].
  apply negb_true_iff in Ha. by rewrite Ha, IH.
Qed.

Lemma find_first_of_some (delims url : chars) (d : nat) :
  find_first_of delims url = Some d ->
  exists c rest, url = take d url ++ c :: rest /\ drop d url = c :: rest /\ drop (d + 1) url = rest /\
    char_in delims c = true /\ free_of delims (take d url) = true.
Proof.
  revert d. induction url as [|a url IH]; intros d; simpl; [done|]. destruct (char_in delims a) eqn:Ea.
  - intros [= <-]. by exists a, url.
  - destruct (find_first_of delims url) as [d'|]; [|done]. intros [= <-].
    destruct (IH d' eq_refl) as (c & rest & H1 & H2 & H3 & H4 & H5). exists c, rest. simpl.
    split_and!; [by rewrite <- H1|done|done|done|by rewrite Ea].
Qed.

Lemma take_prefix {A} (pre rest : list A) : take (length pre) (pre ++ rest) = pre.
Proof. by rewrite take_app_length. Qed.

Lemma drop_prefix {A} (pre rest : list A) : drop (length pre) (pre ++ rest) = rest.
Proof. by rewrite drop_app_length. Qed.

Lemma drop_prefix_1 {A} (pre : list A) (c : A) (rest : list A) : drop (length pre + 1) (pre ++ c :: rest) = rest.
Proof. rewrite <- drop_drop. rewrite drop_prefix. done. Qed.

(** ** When the parser panics *)

Lemma query_no_panic (url : chars) (p : UrlParse) : parse_url_query url p <> Panic.
Proof. unfold parse_url_query. by destruct (find_first_of _ url). Qed.

Lemma path_no_panic (url : chars) (p : UrlParse) : parse_url_path url p <> Panic.
Proof.
  unfold parse_url_path. destruct (find_first_of _ url) as [d|] eqn:E; [|done].
  apply find_first_of_some in E as (c & rest & _ & -> & _ & Hc & _).
  destruct (Ascii.eqb c "?") eqn:E1; [apply query_no_panic|]. destruct (Ascii.eqb c "#") eqn:E2; [done|].
  simpl in Hc. by rewrite E1, E2 in Hc.
Qed.

Lemma port_no_panic (uninit : Z) (url : chars) (p : UrlParse) : parse_url_port uninit url p <> Panic.
Proof. unfold parse_url_port. destruct (from_string _ _); [apply path_no_panic|done]. Qed.

Lemma after_host_panic (uninit : Z) (url : chars) (p : UrlParse) :
  parse_after_host uninit url p = Panic <-> exists c rest, url = c :: rest /\ char_in [":"; "/"]%char c = false.
Proof.
  destruct url as [|c url]; simpl; [split; [done|by intros (? & ? & [=] & _)]|].
  destruct (Ascii.eqb c ":") eqn:E1; [|destruct (Ascii.eqb c "/") eqn:E2].
  - split; [by intros ?%port_no_panic|intros (c' & rest & [= <- <-] & H)]. by rewrite E1 in H.
  - split; [by intros ?%path_no_panic|intros (c' & rest & [= <- <-] & H)]. by rewrite E1, E2 in H.
  - split; [|done]. intros _. exists c, url. by rewrite E1, E2.
Qed.

(** A bracketed host with something else than a port or a path behind it. *)
Definition bad_host (url : chars) : Prop :=
  exists h c rest, url = "["%char :: h ++ "]"%char :: c :: rest /\
    free_of ["]"%char] h = true /\ char_in [":"; "/"]%char c = false.

Lemma host_panic (uninit : Z) (url : chars) (p : UrlParse) : parse_url_host uninit url p = Panic <-> bad_host url.
Proof.
  destruct url as [|c url]; simpl; [split; [done|by intros (? & ? & ? & [=] & _)]|].
  destruct (Ascii.eqb c "[") eqn:Ec.
  - apply Ascii.eqb_eq in Ec as ->. destruct (find_first_of _ url) as [d|] eqn:E.
    + pose proof E as E'. apply find_first_of_some in E' as (b & rest & Hurl & _ & -> & Hb & Hf).
      simpl in Hb. rewrite orb_false_r in Hb. apply Ascii.eqb_eq in Hb as ->. rewrite after_host_panic. split.
      * intros (c & rest' & -> & Hc). exists (take d url), c, rest'. by rewrite <- Hurl.
      * intros (h & c & rest' & [= Heq] & Hh & Hc). exists c, rest'. split; [|done].
        rewrite Heq in E. rewrite find_first_of_app in E by done. injection E as <-.
        rewrite Heq, take_prefix in Hurl. apply app_inv_head in Hurl. by injection Hurl as <-.
    + split; [done|]. intros (h & c & rest' & [= Heq] & Hh & Hc). rewrite Heq, find_first_of_app in E by done. done.
  - split.
    + destruct (find_first_of [":"; "/"]%char (c :: url)) as [d|] eqn:E; simpl in E; rewrite E; [|done].
      apply (find_first_of_some [":"; "/"]%char (c :: url)) in E as (b & rest & _ & -> & _ & Hb & _).
      intros (c' & rest' & [= <- <-] & Hc)%after_host_panic. congruence.
    + intros (h & c' & rest' & [= -> _] & _). by rewrite Ascii.eqb_refl in Ec.
Qed.

Lemma auth_panic (uninit : Z) (url : chars) (p : UrlParse) :
  parse_url_auth uninit url p = Panic <->
  bad_host url \/
  exists u host, url = u ++ "@"%char :: host /\ starts_with "[" u = false /\ free_of ["@"; ":"; "/"]%char u = true /\
    bad_host host.
Proof.
  unfold parse_url_auth. destruct (starts_with "[" url) eqn:Es.
  - rewrite host_panic. split; [by left|]. intros [H|(u & host & -> & Hu & _)]; [done|].
    destruct u; simpl in *; congruence.
  - assert (bad_host url -> False) as Hno.
    { intros (h & c & rest & -> & _). discriminate Es. }
    split.
    + destruct (find_first_of _ url) as [d|] eqn:E; [|done].
      apply find_first_of_some in E as (c & rest & Hurl & -> & _ & Hc & Hf).
      destruct (Ascii.eqb c "@") eqn:E1; [|destruct (Ascii.eqb c ":") eqn:E2; [|destruct (Ascii.eqb c "/") eqn:E3]].
      * apply Ascii.eqb_eq in E1 as ->. rewrite host_panic. intros Hb. right. exists (take d url), rest.
        split_and!; try done. rewrite Hurl in Es. by destruct (take d url).
      * by intros ?%port_no_panic.
      * by intros ?%path_no_panic.
      * simpl in Hc. by rewrite E1, E2, E3 in Hc.
    + intros [H|(u & host & -> & Hu & Hf & Hb)]; [by destruct Hno|].
      rewrite find_first_of_app, drop_prefix by done. rewrite Ascii.eqb_refl. by apply host_panic.
Qed.

(** [parse_url] reaches its "This should not be possible!" panic exactly on
    the URLs with an authority whose host is in brackets and is followed by a
    character that starts neither a port nor a path; on every other string it
    returns a parse or [kInvalidArgument]. *)
Theorem parse_url_panics (uninit : Z) (url : chars) :
  parse_url uninit url = Panic <->
  exists s auth, url = s ++ str "://" ++ auth /\ free_of [":"%char] s = true /\ starts_with "/" s = false /\
    (bad_host auth \/
     exists u host, auth = u ++ "@"%char :: host /\ starts_with "[" u = false /\
       free_of ["@"; ":"; "/"]%char u = true /\ bad_host host).
Proof.
  unfold parse_url. destruct (length url =? 0)%nat eqn:El.
  { destruct url; [|done]. split; [done|]. by intros ([] & auth & [=] & _). }
  destruct (starts_with "/" url) eqn:Es.
  { split; [by intros ?%path_no_panic|]. intros (s & auth & -> & _ & Hs & _). destruct s; simpl in *; congruence. }
  split.
  - destruct (find_first_of _ url) as [d|] eqn:E; [|done].
    apply find_first_of_some in E as (c & rest & Hurl & _ & -> & Hc & Hf).
    simpl in Hc. rewrite orb_false_r in Hc. apply Ascii.eqb_eq in Hc as ->.
    destruct rest as [|a [|b rest]]; simpl; try (rewrite ?andb_false_r; by intros ?%path_no_panic).
    destruct (Ascii.eqb a "/" && Ascii.eqb b "/") eqn:Eab; [|by intros ?%path_no_panic].
    apply andb_true_iff in Eab as [->%Ascii.eqb_eq ->%Ascii.eqb_eq]. rewrite drop_0, auth_panic. intros H.
    exists (take d url), rest. split_and!; try done. rewrite Hurl in Es. by destruct (take d url).
  - intros (s & auth & -> & Hf & Hs & H). simpl. rewrite find_first_of_app by done.
    rewrite take_prefix, drop_prefix_1. simpl. rewrite drop_0. by apply auth_panic.
Qed.

(** [ldap://[::1]x] *)
Example parse_bad_host : parse_url 0 (str "ldap://[::1]x") = Panic.
Proof. by vm_compute. Qed.

Lemma parse_url_panics_witness : parse_url 0 (str "ldap://[::1]x") = Panic.
Proof.
  apply (parse_url_panics 0 (str "ldap://[::1]x")). exists (str "ldap"), (str "[::1]x").
  split_and!; try by vm_compute. left. exists (str "::1"), "x"%char, []. by split_and!.
Defined.

(** ** Printing, and the round trip *)

Definition digit (n : Z) : ascii := ascii_of_nat (Z.to_nat (48 + n)).

(** The decimal digits of [n], at most [fuel] of them. *)
Fixpoint print_nat (fuel : nat) (n : Z) : chars :=
  match fuel with
  | O => []
  | S fuel' => if n <? 10 then [digit n] else print_nat fuel' (n / 10) ++ [digit (n mod 10)]
  end.

Definition print_port (n : option Z) : chars :=
  match n with Some n => ":"%char :: print_nat 20 n | None => [] end.

(** A host that would not be read back as it stands is put in brackets. *)
Definition plain_host (h : chars) : bool := free_of ["@"; ":"; "/"]%char h && negb (starts_with "[" h).

Definition print_host (h : chars) : chars := if plain_host h then h else "["%char :: h ++ ["]"%char].

Definition print_opt (mark : ascii) (s : chars) : chars := match s with [] => [] | _ => mark :: s end.

Definition print_tail (p : UrlParse) : chars :=
  path p ++ print_opt "?" (query p) ++ print_opt "#" (fragment p).

Definition print_user (u : chars) : chars := match u with [] => [] | _ => u ++ ["@"%char] end.

Definition print_url (p : UrlParse) : chars :=
  match scheme p with
  | [] => print_tail p
  | _ => scheme p ++ str "://" ++ print_user (user p) ++ print_host (host p) ++ print_port (port p) ++ print_tail p
  end.

Definition is_nil (s : chars) : bool := match s with [] => true | _ => false end.

(** URLs with an authority, and paths without a scheme. *)
Definition valid_url (p : UrlParse) : bool :=
  (if is_nil (scheme p)
   then is_nil (user p) && is_nil (host p) && (match port p with None => true | Some _ => false end)
   else free_of [":"%char] (scheme p) && negb (starts_with "/" (scheme p))
        && free_of ["@"; ":"; "/"]%char (user p) && negb (starts_with "[" (user p))
        && (plain_host (host p) || free_of ["]"%char] (host p))
        && (match port p with Some n => (0 <=? n) && (n <=? i64_max) | None => true end))
  && starts_with "/" (path p) && free_of ["?"; "#"]%char (path p) && free_of ["#"%char] (query p).

(** ** Numbers *)

Definition value_of (acc : Z) (ds : chars) : Z := foldl (fun acc c => acc * 10 + (code c - 48)) acc ds.

Lemma read_digits_app (acc : Z) (n : nat) (ds rest : chars) :
  forallb is_digit ds = true ->
  read_digits acc n (ds ++ rest) = read_digits (value_of acc ds) (n + length ds) rest.
Proof.
  revert acc n. induction ds as [|c ds IH]; intros acc n H; simpl in *; [f_equal; lia|].
  apply andb_true_iff in H as [-> H]. rewrite IH by done. f_equal; lia.
Qed.

Lemma digit_spec (n : Z) : 0 <= n < 10 -> is_digit (digit n) = true /\ code (digit n) = 48 + n.
Proof.
  intros Hn. unfold is_digit, code, digit. rewrite nat_ascii_embedding by lia. split; [|lia].
  apply andb_true_iff. split; apply Z.leb_le; lia.
Qed.

Lemma print_nat_spec (fuel : nat) (n : Z) :
  0 <= n < 10 ^ Z.of_nat fuel -> (0 < fuel)%nat ->
  forallb is_digit (print_nat fuel n) = true /\ value_of 0 (print_nat fuel n) = n /\ (0 < length (print_nat fuel n))%nat.
Proof.
  revert n. induction fuel as [|fuel IH]; intros n Hn Hf; [lia|]. cbn [print_nat].
  destruct (n <? 10) eqn:E; bool_cases.
  - destruct (digit_spec n) as [H1 H2]; [lia|]. simpl. rewrite H1, H2. split_and!; [done|lia|lia].
  - assert (0 < fuel)%nat as Hf' by (destruct fuel; simpl in *; lia).
    rewrite Nat2Z.inj_succ, Z.pow_succ_r in Hn by lia.
    destruct (digit_spec (n mod 10)) as [H1 H2]; [apply Z.mod_pos_bound; lia|].
    destruct (IH (n / 10)) as (H3 & H4 & H5); [split; [apply Z.div_pos; lia|apply Z.div_lt_upper_bound; lia]|done|].
    rewrite forallb_app, H3, length_app. simpl. rewrite H1. split_and!; [done| |lia].
    unfold value_of in *. rewrite foldl_app, H4. simpl. rewrite H2. pose proof (Z.div_mod n 10). lia.
Qed.

Lemma digit_not_special (c : ascii) : is_digit c = true ->
  is_space c = false /\ Ascii.eqb c "-" = false /\ Ascii.eqb c "+" = false /\ Ascii.eqb c "/" = false.
Proof.
  unfold is_digit, is_space. intros H. bool_cases. split_and!.
  - apply orb_false_iff. split; [apply Z.eqb_neq; lia|]. apply andb_false_iff. right. apply Z.leb_gt. lia.
  - apply Ascii.eqb_neq. intros ->. by vm_compute in H.
  - apply Ascii.eqb_neq. intros ->. by vm_compute in H.
  - apply Ascii.eqb_neq. intros ->. by vm_compute in H.
Qed.

Lemma from_string_print (uninit n : Z) : 0 <= n <= i64_max -> from_string uninit (print_nat 20 n) = Some n.
Proof.
  intros Hn. destruct (print_nat_spec 20 n) as (H1 & H2 & H3); [unfold i64_max in Hn; simpl; lia|lia|].
  unfold from_string, extract_i64. destruct (print_nat 20 n) as [|c ds] eqn:E; [simpl in H3; lia|].
  assert (is_digit c = true) as Hc by (simpl in H1; by bool_cases).
  destruct (digit_not_special c Hc) as (Hs & Hm & Hp & _). cbn [skip_ws]. rewrite Hs, Hm, Hp.
  rewrite <- (app_nil_r (c :: ds)), read_digits_app, H2 by done. simpl.
  replace (n <? i64_min) with false by (symmetry; apply Z.ltb_ge; unfold i64_min; lia).
  replace (i64_max <? n) with false by (symmetry; apply Z.ltb_ge; lia). done.
Qed.

Lemma digits_free_of_slash (ds : chars) : forallb is_digit ds = true -> free_of ["/"%char] ds = true.
Proof.
  intros H. apply forallb_forall. intros c Hc. rewrite forallb_forall in H.
  destruct (digit_not_special c (H c Hc)) as (_ & _ & _ & E). simpl. by rewrite E.
Qed.

(** ** The parts *)

Lemma tail_roundtrip (p s : UrlParse) :
  free_of ["?"; "#"]%char (path p) = true -> free_of ["#"%char] (query p) = true ->
  query s = [] -> fragment s = [] ->
  parse_url_path (print_tail p) s =
  ok (mkUrl (scheme s) (user s) (host s) (port s) (path p) (query p) (fragment p)).
Proof.
  intros Hp Hq Hsq Hsf. unfold parse_url_path, print_tail.
  destruct (query p) as [|q qs] eqn:Eq; cbn [print_opt app].
  - destruct (fragment p) as [|f fs]; cbn [print_opt].
    + rewrite app_nil_r, find_first_of_none by done. unfold set_path. by rewrite Hsq, Hsf.
    + rewrite find_first_of_app, take_prefix, drop_prefix by done. unfold set_fragment, set_path. simpl. by rewrite Hsq.
  - rewrite find_first_of_app, take_prefix, drop_prefix by done. rewrite Ascii.eqb_refl. unfold parse_url_query.
    destruct (fragment p) as [|f fs]; cbn [print_opt].
    + rewrite app_nil_r, find_first_of_none by done. unfold set_query, set_path. simpl. by rewrite Hsf.
    + change (q :: qs ++ "#"%char :: f :: fs) with ((q :: qs) ++ "#"%char :: f :: fs).
      by rewrite find_first_of_app, take_prefix, drop_prefix_1 by done.
Qed.

Lemma tail_starts (p : UrlParse) : starts_with "/" (path p) = true -> exists rest, print_tail p = "/"%char :: rest.
Proof.
  unfold print_tail. destruct (path p) as [|c cs]; [done|]. simpl. intros ->%Ascii.eqb_eq. by eexists.
Qed.

Lemma port_roundtrip (uninit n : Z) (p s : UrlParse) :
  0 <= n <= i64_max -> starts_with "/" (path p) = true ->
  parse_url_port uninit (print_nat 20 n ++ print_tail p) s = parse_url_path (print_tail p) (set_port s (Some n)).
Proof.
  intros Hn Hp. destruct (tail_starts p Hp) as [rest ->]. unfold parse_url_port.
  destruct (print_nat_spec 20 n) as (H1 & _ & _); [unfold i64_max in Hn; simpl; lia|lia|].
  by rewrite find_first_of_app, take_prefix, from_string_print, drop_prefix by (done || by apply digits_free_of_slash).
Qed.

(** The port, if any, and the rest. *)
Lemma after_host_roundtrip (uninit : Z) (p s : UrlParse) :
  (match port p with Some n => (0 <=? n) && (n <=? i64_max) | None => true end) = true ->
  starts_with "/" (path p) = true -> port s = None ->
  (exists c rest, print_port (port p) ++ print_tail p = c :: rest /\ char_in [":"; "/"]%char c = true) /\
  parse_after_host uninit (print_port (port p) ++ print_tail p) s =
  parse_url_path (print_tail p) (set_port s (port p)).
Proof.
  intros Hport Hp Hs. destruct (tail_starts p Hp) as [rest Ht]. destruct (port p) as [n|] eqn:En; cbn [print_port app].
  - split; [by eexists _, _|]. unfold parse_after_host. rewrite Ascii.eqb_refl.
    apply port_roundtrip; [|done]. bool_cases. lia.
  - rewrite Ht. split; [by eexists _, _|]. simpl. f_equal. unfold set_port. rewrite <- Hs. by destruct s.
Qed.

Lemma free_of_weaken (ds ds' : chars) (s : chars) :
  (forall c, char_in ds c = false -> char_in ds' c = false) -> free_of ds s = true -> free_of ds' s = true.
Proof.
  intros H Hf. apply forallb_forall. intros c Hc. unfold free_of in Hf. rewrite forallb_forall in Hf.
  specialize (Hf c Hc). apply negb_true_iff in Hf. by rewrite H.
Qed.

Lemma host_roundtrip (uninit : Z) (h tl : chars) (s : UrlParse) :
  plain_host h || free_of ["]"%char] h = true -> (exists c rest, tl = c :: rest /\ char_in [":"; "/"]%char c = true) ->
  parse_url_host uninit (print_host h ++ tl) s = parse_after_host uninit tl (set_host s h).
Proof.
  intros Hh (c & rest & -> & Hc). unfold print_host. destruct (plain_host h) eqn:Ep; simpl in Hh.
  - unfold plain_host in Ep. apply andb_true_iff in Ep as [Hf Hb]. apply negb_true_iff in Hb.
    assert (free_of [":"; "/"]%char h = true) as Hf'.
    { eapply free_of_weaken; [|exact Hf]. intros a. simpl. intros [_ H]%orb_false_iff. exact H. }
    unfold parse_url_host. destruct h as [|a h]; cbn [app].
    + destruct (Ascii.eqb c "[") eqn:E; [apply Ascii.eqb_eq in E as ->; discriminate Hc|].
      assert (find_first_of [":"; "/"]%char (c :: rest) = Some O) as -> by (simpl in *; by rewrite Hc). done.
    + simpl in Hb. rewrite Hb. change (a :: h ++ c :: rest) with ((a :: h) ++ c :: rest).
      by rewrite find_first_of_app, take_prefix, drop_prefix by done.
  - cbn [app]. unfold parse_url_host. rewrite Ascii.eqb_refl. rewrite <- app_assoc. cbn [app].
    by rewrite find_first_of_app, take_prefix, drop_prefix_1 by done.
Qed.

Lemma starts_with_app (b c : ascii) (h rest : chars) :
  starts_with b h = false -> Ascii.eqb c b = false -> starts_with b (h ++ c :: rest) = false.
Proof. by destruct h. Qed.

(** Without a user and with a host as it stands, [parse_url_auth] finds the
    end of the host itself. *)
Lemma auth_plain_host (uninit : Z) (h rest : chars) (c : ascii) (s : UrlParse) :
  plain_host h = true -> char_in [":"; "/"]%char c = true -> user s = [] -> port s = None ->
  parse_url_auth uninit (h ++ c :: rest) s = parse_after_host uninit (c :: rest) (set_host s h).
Proof.
  intros [Hf Hb]%andb_true_iff Hc Hu Hp. apply negb_true_iff in Hb. unfold parse_url_auth.
  assert (Ascii.eqb c "@" = false /\ Ascii.eqb c "[" = false) as [Hat Hbr].
  { split; apply Ascii.eqb_neq; intros ->; discriminate Hc. }
  rewrite starts_with_app by done.
  assert (char_in ["@"; ":"; "/"]%char c = true) as Hc' by (simpl in *; rewrite Hc; apply orb_true_r).
  rewrite find_first_of_app, take_prefix, drop_prefix, Hat by done.
  assert (set_host (set_user s []) h = set_host s h) as ->
    by (unfold set_host, set_user; simpl; by rewrite <- Hu).
  assert (set_port (set_host s h) None = set_host s h) as -> by (unfold set_host, set_port; simpl; by rewrite <- Hp).
  simpl. destruct (Ascii.eqb c ":") eqn:E1; [done|]. destruct (Ascii.eqb c "/") eqn:E2; [done|].
  simpl in Hc. by rewrite E1, E2 in Hc.
Qed.

Lemma auth_roundtrip (uninit : Z) (p s : UrlParse) :
  free_of ["@"; ":"; "/"]%char (user p) = true -> starts_with "[" (user p) = false ->
  plain_host (host p) || free_of ["]"%char] (host p) = true ->
  (match port p with Some n => (0 <=? n) && (n <=? i64_max) | None => true end) = true ->
  starts_with "/" (path p) = true -> user s = [] -> port s = None ->
  parse_url_auth uninit (print_user (user p) ++ print_host (host p) ++ print_port (port p) ++ print_tail p) s =
  parse_url_path (print_tail p) (mkUrl (scheme s) (user p) (host p) (port p) (path s) (query s) (fragment s)).
Proof.
  intros Hu Hub Hh Hport Hpath Hsu Hsp.
  assert (forall s', port s' = None ->
    parse_url_host uninit (print_host (host p) ++ print_port (port p) ++ print_tail p) s' =
    parse_url_path (print_tail p) (set_port (set_host s' (host p)) (port p))) as Hhost.
  { intros s' Hs'. destruct (after_host_roundtrip uninit p (set_host s' (host p)) Hport Hpath Hs') as [Hc Hr].
    by rewrite host_roundtrip. }
  destruct (user p) as [|u us] eqn:Eu; cbn [print_user app].
  - destruct (plain_host (host p)) eqn:Ep.
    + destruct (after_host_roundtrip uninit p (set_host s (host p)) Hport Hpath Hsp) as [(c & rest & E & Hc) Hr].
      unfold print_host. rewrite Ep. rewrite E in *. rewrite auth_plain_host, Hr by done.
      unfold set_port, set_host. simpl. by rewrite Hsu.
    + unfold parse_url_auth. specialize (Hhost s Hsp). unfold print_host in *. rewrite Ep in *. cbn [app starts_with] in *.
      rewrite Ascii.eqb_refl, Hhost. unfold set_port, set_host. simpl. by rewrite Hsu.
  - unfold parse_url_auth. simpl in Hub. cbn [starts_with]. rewrite Hub. rewrite <- app_assoc. cbn [app].
    change (u :: us ++ "@"%char :: ?x) with ((u :: us) ++ "@"%char :: x).
    rewrite find_first_of_app, take_prefix, drop_prefix by done. rewrite Ascii.eqb_refl. by rewrite Hhost.
Qed.

(** A URL printed from its parts parses back to the same parts: with an
    authority (user, host in brackets when it needs them, port), or a path
    without a scheme, each with an optional query and fragment. *)
Theorem url_roundtrip (uninit : Z) (p : UrlParse) :
  valid_url p = true -> parse_url uninit (print_url p) = ok p.
Proof.
  intros Hv. unfold valid_url in Hv. apply andb_true_iff in Hv as [Hv Hq]. apply andb_true_iff in Hv as [Hv Hf].
  apply andb_true_iff in Hv as [Hv Hp]. unfold parse_url, print_url. destruct (tail_starts p Hp) as [rest Ht].
  destruct (scheme p) as [|c cs] eqn:Es; simpl in Hv.
  - rewrite Ht. cbn [length Nat.eqb starts_with]. rewrite Ascii.eqb_refl. rewrite <- Ht, tail_roundtrip by done.
    bool_cases. simpl. destruct p as [sc us ho po pa qu fr]; simpl in *. destruct us, ho, po; try discriminate. by subst.
  - destruct (free_of [":"%char] (c :: cs)) eqn:Hsc; simpl in Hsc; rewrite Hsc in Hv; [|discriminate Hv].
    apply andb_true_iff in Hv as [Hv Hport]. apply andb_true_iff in Hv as [Hv Hh]. apply andb_true_iff in Hv as [Hv Hub].
    apply andb_true_iff in Hv as [Hv Hu]. apply negb_true_iff in Hub. simpl in Hv. apply negb_true_iff in Hv.
    cbn [app length Nat.eqb starts_with]. rewrite Hv.
    change (c :: cs ++ ?x) with ((c :: cs) ++ x). simpl (str "://" ++ _).
    rewrite find_first_of_app by done. rewrite take_prefix, drop_prefix_1. simpl (_ && _).
    cbn [drop]. rewrite drop_0, auth_roundtrip by done. rewrite tail_roundtrip by done. rewrite <- Es. by destruct p.
Qed.

Definition sample_url : UrlParse :=
  mkUrl (str "ldap") (str "me") (str "2001:db8::7") (Some 389) (str "/c=GB") (str "objectClass?one") (str "s").

Lemma url_roundtrip_witness :
  print_url sample_url = str "ldap://me@[2001:db8::7]:389/c=GB?objectClass?one#s" /\
  parse_url 0 (print_url sample_url) = ok sample_url.
Proof. split; [by vm_compute|]. apply (url_roundtrip 0 sample_url). by vm_compute. Defined.

(** ** Ports the parser should refuse *)

(** An empty port is whatever the uninitialised variable holds, a sign alone is
    0, what follows the digits is ignored, and a number that does not fit
    becomes the largest one. *)
Lemma odd_ports (uninit : Z) :
  from_string uninit (str "") = Some uninit /\ from_string uninit (str "-") = Some 0 /\
  from_string uninit (str "80abc") = Some 80 /\ from_string uninit (str "99999999999999999999") = Some i64_max.
Proof. by vm_compute. Qed.

(** A query that follows the host directly is part of the host. *)
Lemma query_in_host :
  parse_url 0 (str "http://host?q=1") = ok (mkUrl (str "http") [] (str "host?q=1") None [] [] []).
Proof. by vm_compute. Qed.
