(* ===== verification/HttpClient.v ===== *)
(** * The HTTP client's connection

    [http/http_client_connection_impl.hpp], from the side that receives: the
    response is parsed from the input buffer, [ResponseInfo] chooses how its
    body is delimited, and the body is read through the source that this
    selects, before the next response on the connection is read.  The input
    buffer is a [BufferSource.ByteStream]. *)

From Stdlib Require Import Ascii String.
From S2P Require Import Prelude Status IntMath Buffer BufferSource ChunkedCoding ChunkSource HttpParser HttpRoundTrip UrlParse.
Open Scope Z_scope.

(** ** Headers *)

(* @ src/batteries/http/http_header.hpp 16-26 find_header *)
Fixpoint find_header (headers : list MessageHeader) (wanted : list Z) : option (list Z) :=
  match headers with
  | [] => None
  | hdr :: headers => if bool_decide (HttpParser.name hdr = wanted) then Some (header_value hdr) else find_header headers wanted
  end.

(** The characters of a header value. *)
Definition text (bytes : list Z) : chars := (fun c => ascii_of_nat (Z.to_nat c)) <$> bytes.

Definition bytes_of (s : string) : list Z := code <$> list_ascii_of_string s.

(** A decimal [iss >> val] of a [usize]: a number with a minus sign is negated
    modulo 2^64; [UrlParse.extract_i64] explains the result. *)
Definition extract_u64 (s : chars) : option Z * bool * bool :=
  match skip_ws s with
  | [] => (None, true, true)
  | c :: s' =>
      let '(neg, digits) := if Ascii.eqb c "-" then (true, s') else if Ascii.eqb c "+" then (false, s') else (false, c :: s') in
      let '(n, count, rest) := read_digits 0 0 digits in
      let eof := match rest with [] => true | _ => false end in
      if (count =? 0)%nat then (Some 0, true, eof)
      else if u64_max <? n then (Some u64_max, true, eof)
      else (Some (if (neg : bool) then u64 (- n) else n), false, eof)
  end.

(* @ src/batteries/stream_util.hpp 104-131 from_string, from_string_impl *)
Definition from_string_usize (uninit : Z) (str : chars) : option Z :=
  let '(stored, fail, eof) := extract_u64 str in
  let val := match stored with Some v => v | None => uninit end in
  if negb (fail || eof) || eof then Some val else None.

(** ** How a body is delimited *)

(* @ src/batteries/http/http_client_connection_decl.hpp 29-42 HttpClientConnection::ResponseInfo *)
Record ResponseInfo : Type := mkInfo {
  content_length : option Z;
  keep_alive : bool;
  chunked_encoding : bool }.

(* @ src/batteries/http/http_client_connection_impl.hpp 243-259 ResponseInfo::ResponseInfo *)
Definition response_info (uninit : Z) (response : Response) : ResponseInfo :=
  let headers := rsp_headers response in
  mkInfo
    (match find_header headers (bytes_of "Content-Length") with
     | Some s => from_string_usize uninit (text s)
     | None => None
     end)
    (match find_header headers (bytes_of "Connection") with
     | Some s => bool_decide (s = bytes_of "keep-alive")
     | None => (rsp_major_version response =? 1) && (1 <=? rsp_minor_version response)
     end)
    (match find_header headers (bytes_of "Transfer-Encoding") with
     | Some s => bool_decide (s = bytes_of "chunked")
     | None => false
     end).

(* @ src/batteries/http/http_client_connection_decl.hpp 32-35 ResponseInfo::is_valid *)
Definition is_valid (i : ResponseInfo) : bool :=
  (match content_length i with Some _ => true | None => false end) || chunked_encoding i || negb (keep_alive i).

(** The sources that [get_data] wraps; all of them refer to the input buffer. *)
(* @ src/batteries/http/http_client_connection_impl.hpp 263-284 ResponseInfo::get_data *)
Inductive BodySource : Type :=
| NoBody (input_buffer : ByteStream)
| Whole (input_buffer : ByteStream)
| Limited (src : TakeNSource ByteStream)
| Chunked (src : HttpChunkDecoder ByteStream)
| LimitedChunked (src : TakeNSource (HttpChunkDecoder ByteStream)).

Section client.
Context (fuel : nat).

#[local] Instance client_decoder : BufferSource (HttpChunkDecoder ByteStream) := http_chunk_decoder fuel.

(** What a wrapper does to the result of the source it wraps. *)
Definition io_map {A B} (f : A -> B) (m : io A) : io B := a ← m; Ret (f a).

(* @ src/batteries/async/buffer_source_impl.hpp 31-62 BufferSource::BufferSourceImpl *)
#[local] Instance body_source : BufferSource BodySource := {|
  size b :=
    match b with
    | NoBody _ => O | Whole s => size s | Limited t => size t | Chunked d => size d | LimitedChunked t => size t
    end;
  fetch_at_least n b :=
    match b with
    | NoBody s => Ret (Err kEndOfStream, NoBody s)
    | Whole s => io_map (prod_map id Whole) (fetch_at_least n s)
    | Limited t => io_map (prod_map id Limited) (fetch_at_least n t)
    | Chunked d => io_map (prod_map id Chunked) (fetch_at_least n d)
    | LimitedChunked t => io_map (prod_map id LimitedChunked) (fetch_at_least n t)
    end;
  consume k b :=
    match b with
    | NoBody s => Ret (NoBody s)
    | Whole s => io_map Whole (consume k s)
    | Limited t => io_map Limited (consume k t)
    | Chunked d => io_map Chunked (consume k d)
    | LimitedChunked t => io_map LimitedChunked (consume k t)
    end;
  close_for_read b :=
    match b with
    | NoBody s => Ret (NoBody s)
    | Whole s => io_map Whole (close_for_read s)
    | Limited t => io_map Limited (close_for_read t)
    | Chunked d => io_map Chunked (close_for_read d)
    | LimitedChunked t => io_map LimitedChunked (close_for_read t)
    end |}.

(* @ src/batteries/http/http_client_connection_impl.hpp 263-284 ResponseInfo::get_data *)
Definition get_data (i : ResponseInfo) (input_buffer : ByteStream) : BodySource :=
  match content_length i with
  | None =>
      if chunked_encoding i then Chunked (chunk_decoder input_buffer false)
      else if keep_alive i then NoBody input_buffer
      else Whole input_buffer
  | Some n =>
      if chunked_encoding i then LimitedChunked (mkTakeN (Z.to_nat n) (chunk_decoder input_buffer false))
      else Limited (mkTakeN (Z.to_nat n) input_buffer)
  end.

Definition input_buffer_of (b : BodySource) : ByteStream :=
  match b with
  | NoBody s | Whole s => s
  | Limited t => take_src_ t
  | Chunked d => src_ d
  | LimitedChunked t => src_ (take_src_ t)
  end.

(** ** One response *)

Context (sse : bool).

(** [kParseFailed] is -1, [kParseIncomplete] is -2. *)
(* @ src/batteries/http/http_client_connection_impl.hpp 203-229 HttpClientConnection::read_next_response *)
Fixpoint read_next_response (n : nat) (min_to_fetch : nat) (input_buffer : ByteStream)
    : io (StatusOr (Response * Z) * ByteStream) :=
  match n with
  | O => NoFuel
  | S n =>
      '(fetched, input_buffer) ← fetch_at_least (Z.of_nat min_to_fetch) input_buffer;
      match fetched with
      | Err e => Ret (Err e, input_buffer)
      | OkVal [] => Panicked
      | OkVal (front :: rest) =>
          match parse_response sse front 0 with
          | None => NoFuel
          | Some (response, result) =>
              if result =? -2 then
                read_next_response n (Nat.max (min_to_fetch + 1) (buffer_size (front :: rest))) input_buffer
              else if result =? -1 then Ret (Err kInternal, input_buffer)
              else if 0 <? result then Ret (OkVal (response, result), input_buffer)
              else Panicked
          end
      end
  end.

(** [application]: what is done with the body between [await_set_data] and its
    return.  The result is the response and what the application has made of
    it; [None] when the connection has been closed instead of kept. *)
(* @ src/batteries/http/http_client_connection_impl.hpp 156-198 HttpClientConnection::process_responses *)
Definition process_response {R} (n : nat) (uninit : Z) (application : BodySource -> io (R * BodySource)) (input_buffer : ByteStream)
    : io (StatusOr (Response * R * option ByteStream)) :=
  '(message_length, input_buffer) ← read_next_response n 1 input_buffer;
  match message_length with
  | Err e => Ret (Err e)
  | OkVal (response, message_length) =>
      let info := response_info uninit response in
      if negb (is_valid info) then Ret (Err kInvalidArgument)
      else
        input_buffer ← consume message_length input_buffer;
        '(result, response_data) ← application (get_data info input_buffer);
        if keep_alive info then
          '(data_consumed, response_data) ← consume_all fuel response_data;
          match data_consumed with
          | Err e => Ret (Err e)
          | OkVal _ => Ret (OkVal (response, result, Some (input_buffer_of response_data)))
          end
        else Ret (OkVal (response, result, None))
  end.
End client.

(** ** Reading the head of a response *)

Lemma gather_prefix (n : nat) (bufs : list buffer) :
  (0 < buffer_size bufs)%nat -> exists front rest, gather n bufs = front :: rest /\ concat bufs = front ++ concat rest /\
    (Nat.min n (buffer_size bufs) <= length front)%nat.
Proof.
  intros Hne. destruct bufs as [|b [|b' bufs]]; [unfold buffer_size in Hne; simpl in Hne; lia| |].
  - exists b, []. split_and!; [done|done|]. unfold buffer_size. simpl. rewrite app_nil_r. lia.
  - unfold gather. case_if.
    + eexists _, _. split; [done|]. split.
      * rewrite <- (take_drop n (concat (b :: b' :: bufs))) at 1. f_equal. destruct (drop n _); [done|]. simpl. by rewrite app_nil_r.
      * rewrite length_take. unfold buffer_size. lia.
    + eexists _, _. split_and!; [done|done|]. lia.
Qed.

Lemma read_next_response_spec (sse : bool) (n : nat) (r : Response) (rest : list Z) (s : ByteStream) :
  (1 < n)%nat -> valid_response r = true -> concat (arrived s) = print_response r ++ rest -> Forall is_byte (concat (arrived s)) ->
  read_next_response sse n 1 s = Ret (OkVal (r, Z.of_nat (length (print_response r))), s).
Proof.
  intros Hn Hv Hc Hb. destruct n as [|[|n]]; [lia..|].
  assert (0 < length (print_response r))%nat as Hpos by (unfold print_response; rewrite !length_app; simpl; lia).
  assert (1 < buffer_size (arrived s))%nat as Hsz.
  { unfold buffer_size. rewrite Hc, length_app. unfold print_response in *. rewrite !length_app. simpl. lia. }
  assert (parse_response sse (concat (arrived s)) 0 = Some (r, Z.of_nat (length (print_response r)))) as Hwhole.
  { rewrite Hc in Hb |- *. by apply parse_response_print. }
  assert (forall k, (0 < k <= buffer_size (arrived s))%nat -> fetch_at_least (Z.of_nat k) s = Ret (OkVal (gather k (arrived s)), s)) as Hfetch.
  { intros k Hk. cbn -[gather buffer_size Z.of_nat]. replace (Z.of_nat (buffer_size (arrived s)) <? Z.of_nat k) with false by (symmetry; apply Z.ltb_ge; lia).
    by rewrite Nat2Z.id. }
  (* What parsing a first buffer gives. *)
  assert (forall front more, concat (arrived s) = front ++ more ->
    exists r' m, parse_response sse front 0 = Some (r', m) /\ (m = -2 \/ r' = r /\ m = Z.of_nat (length (print_response r)))) as Hfront.
  { intros front more Hfm. rewrite Hfm in Hb. destruct (parse_response_stable sse front more Hb) as (r' & m & Hp & Hm).
    exists r', m. split; [done|]. destruct Hm as [?|Hm]; [by left|right]. rewrite <- Hfm, Hwhole in Hm. by injection Hm as <- <-. }
  cbn [read_next_response]. rewrite (Hfetch 1%nat) by lia. cbn [mbind io_bind].
  destruct (gather_prefix 1 (arrived s)) as (front & tl & -> & Hfc & _); [lia|].
  destruct (Hfront front (concat tl) Hfc) as (r' & m & -> & Hm).
  assert (forall m', m' = Z.of_nat (length (print_response r)) -> (m' =? -2) = false /\ (m' =? -1) = false /\ (0 <? m') = true) as Hm'.
  { intros m' ->. split_and!; [apply Z.eqb_neq; lia|apply Z.eqb_neq; lia|apply Z.ltb_lt; lia]. }
  destruct (m =? -2) eqn:E.
  2: { destruct Hm as [->|[-> Hm]]; [done|]. destruct (Hm' m Hm) as (_ & -> & ->). by rewrite Hm. }
  assert (buffer_size (front :: tl) = buffer_size (arrived s)) as Hbs by (unfold buffer_size; by rewrite Hfc).
  rewrite Hbs, Nat.max_r, Hfetch by lia. cbn [mbind io_bind].
  destruct (gather_prefix (buffer_size (arrived s)) (arrived s)) as (front' & tl' & -> & Hfc' & Hlen); [lia|].
  assert (front' = concat (arrived s)) as ->.
  { assert (concat tl' = []) as Hnil.
    { apply nil_length_inv. apply (f_equal length) in Hfc'. rewrite length_app in Hfc'. unfold buffer_size in Hlen. lia. }
    by rewrite Hfc', Hnil, app_nil_r. }
  rewrite Hwhole. destruct (Hm' _ eq_refl) as (-> & -> & ->). done.
Qed.

(** ** Wrapping a source *)

Section wrap.
Context {S : Type} `{B : BufferSource S} (inj : S -> BodySource).

Context (bs : BufferSource BodySource).

Context (Hfetch : forall n s, @fetch_at_least _ bs n (inj s) = io_map (prod_map id inj) (fetch_at_least n s))
  (Hconsume : forall k s, @consume _ bs k (inj s) = io_map inj (consume k s)).

Lemma for_each_wrap {A} (n : nat) (fn : A -> buffer -> A * LoopControl) (acc : A) (s : S) :
  @for_each _ _ bs n fn acc (inj s) = io_map (prod_map id inj) (for_each n fn acc s).
Proof.
  revert acc s. induction n as [|n IH]; intros acc s; [done|]. cbn [for_each]. rewrite Hfetch.
  destruct (fetch_at_least 1 s) as [[[bufs|e] s']| | |]; cbn; try done.
  destruct (for_each_buffer fn acc bufs) as [acc' []]; [|done]. case_if; [done|].
  rewrite Hconsume. destruct (consume (Z.of_nat (buffer_size bufs)) s'); cbn; done.
Qed.

Lemma collect_vec_wrap (n : nat) (s : S) :
  @collect_vec _ bs n (inj s) = io_map (prod_map id inj) (collect_vec n s).
Proof. unfold collect_vec. rewrite for_each_wrap. by destruct (for_each n _ [] s) as [[[[] acc] s']| | |]. Qed.

Lemma consume_all_wrap (n : nat) (s : S) :
  @consume_all _ bs n (inj s) = io_map (prod_map id inj) (consume_all n s).
Proof. unfold consume_all. rewrite for_each_wrap. by destruct (for_each n _ tt s) as [[[[[]|] acc] s']| | |]. Qed.
End wrap.

(** ** The body of a response *)

(** [i] delimits [body] as [payload] on the connection, with [next] behind it:
    by its length, by chunks, or by the end of the connection.  A length is
    only known to be reached when there is something behind it
    ([BufferSource.take_n_end]). *)
Inductive framed (i : ResponseInfo) (is_closed : bool) (next : list Z) : list Z -> list Z -> Prop :=
| by_length (body : list Z) :
    content_length i = Some (Z.of_nat (length body)) -> chunked_encoding i = false ->
    next <> [] \/ is_closed = true -> framed i is_closed next body body
| by_chunks (chunks : list (list Z)) (payload : list Z) :
    content_length i = None -> chunked_encoding i = true ->
    Forall (fun c => c <> [] /\ Z.of_nat (length c) < 2 ^ 64) chunks -> chunks <> [] ->
    http_encode_chunked false chunks = Done payload -> framed i is_closed next payload (concat chunks)
| by_close (body : list Z) :
    content_length i = None -> chunked_encoding i = false -> keep_alive i = false ->
    is_closed = true -> next = [] -> framed i is_closed next body body.

Lemma framed_valid (i : ResponseInfo) (is_closed : bool) (next payload body : list Z) :
  framed i is_closed next payload body -> is_valid i = true.
Proof. unfold is_valid. intros [? ->|? ? ? ->|? ? ? ->]; by rewrite ?orb_true_r. Qed.

Lemma take_n_discard (fuel : nat) (bufs : list buffer) (is_closed : bool) :
  (0 < fuel)%nat -> concat bufs <> [] \/ is_closed = true ->
  consume_all fuel (mkTakeN 0 (mkStream bufs is_closed)) = Ret (OkVal tt, mkTakeN 0 (mkStream bufs is_closed)).
Proof.
  intros Hf Hne. destruct fuel as [|fuel]; [lia|]. unfold consume_all. cbn [for_each]. rewrite take_n_stream_fetch.
  destruct (buffer_size bufs =? 0)%nat eqn:E; bool_cases.
  - destruct Hne as [Hne| ->]; [|done]. by destruct Hne; apply nil_length_inv.
  - cbn [mbind io_bind]. by rewrite for_each_buffer_unit, trim_size.
Qed.

Lemma stream_collect (fuel : nat) (bufs : list buffer) :
  (1 < fuel)%nat -> exists s', collect_vec fuel (mkStream bufs true) = Ret (OkVal (concat bufs), s').
Proof.
  intros Hf. destruct fuel as [|[|fuel]]; [lia..|]. unfold collect_vec. cbn [for_each].
  assert (forall bufs, fetch_at_least 1 (mkStream bufs true) =
    if (buffer_size bufs =? 0)%nat then Ret (Err kEndOfStream, mkStream bufs true) else Ret (OkVal (gather 1 bufs), mkStream bufs true)) as Hfetch.
  { intros l. cbn -[gather buffer_size]. destruct (buffer_size l =? 0)%nat eqn:E; bool_cases; [by rewrite E|].
    by replace (Z.of_nat (buffer_size l) <? 1) with false by (symmetry; apply Z.ltb_ge; lia). }
  rewrite Hfetch. destruct (buffer_size bufs =? 0)%nat eqn:E; bool_cases; cbn [mbind io_bind].
  { apply nil_length_inv in E. rewrite E. by eexists. }
  rewrite for_each_buffer_append, size_gather, concat_gather. replace (buffer_size bufs =? 0)%nat with false by (symmetry; by apply Nat.eqb_neq).
  destruct (consume_stream (mkStream bufs true) (buffer_size bufs)) as (bufs' & -> & Hb); [done|]. cbn [mbind io_bind closed]. rewrite Hfetch.
  assert (buffer_size bufs' = O) as -> by (unfold buffer_size in *; rewrite Hb, length_drop; cbn; lia). by eexists.
Qed.

(** The body is read to its end, and what is left of it is discarded: the
    connection is then at [next]. *)
Lemma body_read (fuel : nat) (i : ResponseInfo) (bufs : list buffer) (is_closed : bool) (next payload body : list Z) :
  framed i is_closed next payload body -> concat bufs = payload ++ next ->
  Z.of_nat (length (concat bufs)) < 2 ^ 63 -> (length (concat bufs) + 3 < fuel)%nat ->
  exists b b', @collect_vec _ (body_source fuel) fuel (get_data i (mkStream bufs is_closed)) = Ret (OkVal body, b) /\
    (keep_alive i = true ->
      @consume_all _ (body_source fuel) fuel b = Ret (OkVal tt, b') /\ concat (arrived (input_buffer_of b')) = next).
Proof.
  intros Hfr Hc Hs Hf. unfold get_data. destruct Hfr as [body -> -> Hne|chunks payload -> -> Hch Hne Hw|body -> -> Hk -> ->].
  - rewrite Nat2Z.id, (collect_vec_wrap Limited) by done. apply (f_equal length) in Hc as Hl. rewrite length_app in Hl.
    destruct (take_n_collect (length body) fuel bufs is_closed) as (bufs' & -> & Hb); [lia|unfold buffer_size; lia| |].
    { destruct Hne as [Hne|?]; [left|by right]. unfold buffer_size. destruct next; [done|]. simpl in Hl. lia. }
    cbn. do 2 eexists. split; [by rewrite Hc, take_app_length|]. intros _. rewrite (consume_all_wrap Limited) by done.
    rewrite Hc, drop_app_length in Hb. rewrite take_n_discard; [cbn; by split|lia|by rewrite Hb].
  - destruct (encode_loop_run false true chunks next Hch ltac:(done)) as (payload' & fin & Hw' & Hr).
    unfold http_encode_chunked in Hw. rewrite Hw in Hw'. injection Hw' as <-. rewrite <- Hc in Hr.
    assert (length (concat chunks) <= length (concat bufs))%nat as Hlen.
    { pose proof (run_bytes_length (zero_decoder false) (concat bufs)) as Hl. by rewrite Hr in Hl. }
    destruct (chunk_decoder_collect fuel next false fuel (mkStream bufs is_closed) (concat chunks) fin) as (d & Hd & Hv & Hnil & _);
      try done; try (cbn; lia).
    destruct (chunk_decoder_consume_all fuel next fuel d Hv) as (d' & Hd' & Ht); [by rewrite Hnil; simpl; lia|].
    rewrite (@collect_vec_wrap _ (http_chunk_decoder fuel) Chunked) by done. unfold stream_decoder in *. rewrite Hd. cbn. do 2 eexists. split; [done|].
    intros _. rewrite (@consume_all_wrap _ (http_chunk_decoder fuel) Chunked) by done. rewrite Hd'. by cbn.
  - rewrite Hk. rewrite (collect_vec_wrap Whole) by done. rewrite app_nil_r in Hc.
    destruct (stream_collect fuel bufs) as [s' ->]; [lia|]. cbn. exists (Whole s'), (Whole s'). by split; [rewrite Hc|].
Qed.

(** C18: A response arrives on a connection in any pieces, as [operator<<]
    prints it, followed by its body, framed as its headers say, and by the
    data of the next response.  The client parses exactly that response, the
    application that reads its body with [collect_vec] gets exactly the body,
    and, when the connection is kept, its input buffer is then at the first
    byte of the next response.  No step waits and no check fails.  [framed]
    admits a body by length, if something follows it or the connection is
    closed behind it (else the client waits: [BufferSource.take_n_end]); one
    that ends with the connection; and a chunked one as [http_encode_chunked]
    writes it, which is not empty and does not have the empty line at the end
    that other servers send ([kept_connection_fails]). *)
Theorem response_read (sse is_closed : bool) (fuel n : nat) (uninit : Z) (r : Response)
    (pieces : list buffer) (payload body next : list Z) :
  valid_response r = true -> framed (response_info uninit r) is_closed next payload body ->
  concat pieces = print_response r ++ payload ++ next -> Forall is_byte (concat pieces) ->
  Z.of_nat (length (concat pieces)) < 2 ^ 63 -> (length (concat pieces) + 3 < fuel)%nat -> (1 < n)%nat ->
  exists rest, process_response fuel sse n uninit (@collect_vec _ (body_source fuel) fuel) (mkStream pieces is_closed) =
      Ret (OkVal (r, OkVal body, rest)) /\
    (keep_alive (response_info uninit r) = true -> exists s, rest = Some s /\ concat (arrived s) = next).
Proof.
  intros Hv Hfr Hc Hb Hs Hf Hn. unfold process_response.
  rewrite (read_next_response_spec sse n r (payload ++ next)) by done. cbn [mbind io_bind].
  rewrite (framed_valid _ _ _ _ _ Hfr). cbn [negb]. apply (f_equal length) in Hc as Hl. rewrite length_app in Hl.
  destruct (consume_stream (mkStream pieces is_closed) (length (print_response r))) as (bufs & -> & Hbufs);
    [unfold buffer_size; cbn [arrived]; lia|]. cbn [mbind io_bind closed arrived] in *.
  assert (concat bufs = payload ++ next) as Hbufs' by (by rewrite Hbufs, Hc, drop_app_length).
  destruct (body_read fuel (response_info uninit r) bufs is_closed next payload body Hfr Hbufs') as (b & b' & Hcol & Hdis);
    [rewrite Hbufs'; lia|rewrite Hbufs'; lia|].
  rewrite Hcol. cbn [mbind io_bind]. destruct (keep_alive (response_info uninit r)).
  - destruct (Hdis eq_refl) as [-> Ht]. cbn [mbind io_bind]. eexists. split; [done|]. intros _. by eexists.
  - by eexists.
Qed.

(** [HTTP/1.1 200 OK], a chunked body of two chunks in pieces, and the first
    byte of what follows. *)
Definition chunked_response : Response :=
  mkResponse 1 1 200 [79; 75] [mkHeader (bytes_of "Transfer-Encoding") (bytes_of "chunked")].

Definition chunked_pieces : list buffer :=
  let bytes := print_response chunked_response ++ [50; 13; 10; 104; 105; 13; 10; 49; 13; 10; 33; 13; 10; 48; 13; 10] ++ [72] in
  [take 20 bytes; take 40 (drop 20 bytes); drop 60 bytes].

Lemma response_read_witness :
  exists rest, process_response 100 true 2 0 (@collect_vec _ (body_source 100) 100) (mkStream chunked_pieces false) =
      Ret (OkVal (chunked_response, OkVal [104; 105; 33], rest)) /\
    (keep_alive (response_info 0 chunked_response) = true -> exists s, rest = Some s /\ concat (arrived s) = [72]).
Proof.
  apply (response_read true false 100 2 0 chunked_response chunked_pieces
    [50; 13; 10; 104; 105; 13; 10; 49; 13; 10; 33; 13; 10; 48; 13; 10] [104; 105; 33] [72]).
  - by vm_compute.
  - apply (by_chunks _ _ _ [[104; 105]; [33]]); [done|by vm_compute|repeat constructor; done|done|by vm_compute].
  - by vm_compute.
  - apply forall_bytes. by vm_compute.
  - by vm_compute.
  - apply Nat.ltb_lt. by vm_compute.
  - lia.
Defined.

(** A chunked body as servers write it ends with an empty line, which the
    decoder of the client, made without [IncludeHttpTrailer], leaves on the
    connection: the next response is then refused. *)
Definition server_body : list Z := [49; 13; 10; 33; 13; 10; 48; 13; 10; 13; 10].

Example kept_connection_fails :
  let response := print_response chunked_response ++ server_body in
  let next := mkStream [[13; 10] ++ response] false in
  process_response 200 false 3 0 (@collect_vec _ (body_source 200) 200) (mkStream [response ++ response] false) =
    Ret (OkVal (chunked_response, OkVal [33], Some next)) /\
  process_response 200 false 3 0 (@collect_vec _ (body_source 200) 200) next = Ret (Err kInternal).
Proof. split; vm_compute; reflexivity. Qed.
