(* ===== verification/HttpHost.v ===== *)
(** * HTTP client: hosts and connections

    [http/http_client.hpp], [http/http_client_impl.hpp],
    [http/http_client_host_context_*.hpp], and the two loops of
    [http/http_client_connection_impl.hpp].  [http_request] hands a request to
    the client, which keeps a queue for every host; the task of a host opens
    connections, at most two; each connection takes requests from the queue,
    sends them, and assigns the responses that arrive to them in the order in
    which they were sent.  An operation of a queue or a watch is a step, since
    these are linearizable ([Queue], [WatchCell]); what the network and the
    application that reads the response do is an input of the step. *)

From Stdlib Require Import Ascii.
From S2P Require Import Prelude Status HttpParser UrlParse.
Open Scope Z_scope.

(** ** The request *)

(* @ src/batteries/http/host_address.hpp 28-34 HostAddress *)
Record HostAddress : Type := mkAddress { address_scheme : chars; hostname : chars; address_port : option Z }.

(* @ src/batteries/http/host_address.hpp 80-83 operator== *)
#[export] Instance HostAddress_eq_dec : EqDecision HostAddress.
Proof. solve_decision. Defined.

Module RequestContext.

(** The parameters of [http_request] that change the message or its data. *)
Inductive Param : Type :=
| PHeader (hdr : MessageHeader)
| PData (data : list Z)
| PVersion (major minor : Z).

(* @ src/batteries/http/http_client.hpp 249-258 HttpClientRequestContext *)
Record Context : Type := mkContext { host_address_ : HostAddress; message_ : Request; data_ : list Z }.

Definition set_message (m : Request) (c : Context) : Context := mkContext (host_address_ c) m (data_ c).

(** The name and value of a character. *)
Definition bytes_of (s : chars) : list Z := (fun c => Z.of_N (Ascii.N_of_ascii c)) <$> s.

(* @ src/batteries/http/http_client.hpp 96-102 HttpClientRequestContext::HttpClientRequestContext *)
Definition new_context : Context := mkContext (mkAddress [] [] None) (mkRequest [] [] 1 1 []) [].

(* @ src/batteries/http/http_client.hpp 151-163 HttpClientRequestContext::set_version, set_method *)
Definition set_version (major minor : Z) (c : Context) : Context :=
  let m := message_ c in set_message (mkRequest (method m) (HttpParser.path m) major minor (headers m)) c.
Definition set_method (name : list Z) (c : Context) : Context :=
  let m := message_ c in
  set_message (mkRequest name (HttpParser.path m) (HttpParser.major_version m) (HttpParser.minor_version m) (headers m)) c.

(* @ src/batteries/http/http_client.hpp 171-199 HttpClientRequestContext::set_url *)
Definition set_url (url : UrlParse) (c : Context) : Context :=
  let path_ := UrlParse.path url
    ++ (match query url with [] => [] | q => "?"%char :: q end)
    ++ (match fragment url with [] => [] | f => "#"%char :: f end) in
  let m := message_ c in
  mkContext (mkAddress (scheme url) (host url) (port url))
    (mkRequest (method m) (bytes_of path_) (HttpParser.major_version m) (HttpParser.minor_version m) (headers m)) (data_ c).

(* @ src/batteries/http/http_client.hpp 201-209 HttpClientRequestContext::set_header, set_data *)
Definition set_header (hdr : MessageHeader) (c : Context) : Context :=
  let m := message_ c in
  set_message (mkRequest (method m) (HttpParser.path m) (HttpParser.major_version m) (HttpParser.minor_version m) (headers m ++ [hdr])) c.
Definition set_data (data : list Z) (c : Context) : Context := mkContext (host_address_ c) (message_ c) data.

(** A header is appended by [set_header] and then again. *)
(* @ src/batteries/http/http_client.hpp 106-147 HttpClientRequestContext::set_params *)
Fixpoint set_params (params : list Param) (c : Context) : Context :=
  match params with
  | [] => c
  | PHeader hdr :: rest => set_params rest (set_header hdr (set_header hdr c))
  | PData data :: rest => set_params rest (set_data data c)
  | PVersion major minor :: rest => set_params rest (set_version major minor c)
  end.

(** The message of [http_request(method, url, params...)]. *)
Definition request_context (name : list Z) (url : UrlParse) (params : list Param) : Context :=
  set_params params (set_url url (set_method name new_context)).
End RequestContext.

(** ** Hosts and connections *)

Import StatusRegistry.

Definition kDefaultMaxConnections : nat := 2.

(** [kCreated], [kInitialized] and [kConsumed] of [HttpMessageBase]. *)
(* @ src/batteries/http/http_message_base.hpp 32-36 HttpMessageBase::State *)
Definition kCreated : Z := 0.
Definition kInitialized : Z := 1.
Definition kConsumed : Z := 2.

(** A [Watch<i32>]. *)
Record Watch_ : Type := mkWatch { value : Z; closed : bool }.

Definition set_value (v : Z) (w : Watch_) : Watch_ := mkWatch v (closed w).
Definition close (w : Watch_) : Watch_ := mkWatch (value w) true.

(** A thread in [http_request]. *)
Inductive ClientPc : Type :=
| CSubmit
| CFindHost
| CPush (h : nat)
| CAwaitRequest
| CAwaitResponse
| CReturned (status : Z).

(** A call of [http_request], with its [HttpRequest] and [HttpResponse]. *)
(* @ src/batteries/http/http_message_base.hpp 139-145 HttpMessageBase *)
Record Exchange : Type := mkExchange {
  address : HostAddress;
  client : ClientPc;
  request_state : Watch_;
  request_status : Z;
  response_state : Watch_;
  response_status : Z }.

(** Where [process_requests] is.  [connected] is its variable. *)
Inductive RequestsPc : Type :=
| QAwait (connected : bool)
| QTaken (i : nat) (connected : bool)
| QOpen (i : nat)
| QUpdate (i : nat) (status : Z)
| QClose (i : nat)
| QPush (i : nat)
| QSerialize (i : nat)
| QConsumed (i : nat)
| QExit
| QDone.

(** Where [process_responses] is. *)
Inductive ResponsesPc : Type :=
| SAwait
| SRead (i : nat)
| SInvalid (i : nat)
| SClose (i : nat)
| SInit (i : nat) (keep_alive : bool)
| SMessage (i : nat) (keep_alive : bool)
| SData (i : nat) (keep_alive : bool)
| SEnd (keep_alive : bool)
| SExit
| SDone.

(** [context_] is the index of the host.  [taken], [sent], [pushed],
    [answered] and [delivered] are not in the program: the requests taken from
    the queue of the host and sent, the responses put on [response_queue_],
    taken from it, and given a message, in the order in which this happened. *)
(* @ src/batteries/http/http_client_connection_decl.hpp 68-79 HttpClientConnection *)
Record Connection : Type := mkConnection {
  context_ : nat;
  requests : RequestsPc;
  responses : ResponsesPc;
  socket_open : bool;
  response_queue_ : list nat;
  response_queue_closed : bool;
  taken : list nat;
  sent : list nat;
  pushed : list nat;
  answered : list nat;
  delivered : list nat }.

Inductive HostPc : Type := HLoop | HAwait (queue_depth : nat).

(** [connection_tasks_]: the indices of the connections. *)
(* @ src/batteries/http/http_client_host_context_decl.hpp 80-91 HttpClientHostContext *)
Record Host : Type := mkHost {
  host_address_ : HostAddress;
  request_queue_ : list nat;
  connection_tasks_ : list nat;
  main : HostPc }.

(** [hosts]: the map [host_contexts_] of [HttpClient]. *)
(* @ src/batteries/http/http_client.hpp 59-63 HttpClient *)
Record State : Type := mkState {
  exchanges : list Exchange;
  hosts : list Host;
  connections : list Connection;
  failed : bool }.

(** What a step gets from outside: a status or, for each address the name of the
    host resolves to, whether the connection to it can be made; whether
    [serialize] succeeds on an open socket, the response that was read, and
    whether the application took its head and its body was consumed. *)
Inductive Response_ : Type := ReadError | Parsed (valid keep_alive : bool).

Record Env : Type := mkEnv {
  resolved : Z + list bool;
  serialize_ok : bool;
  response : Response_;
  message_consumed : bool;
  data_consumed : bool }.

(** The addresses are tried in their order. *)
(* @ src/batteries/http/http_client_connection_impl.hpp 54-68 HttpClientConnection::open_connection *)
Definition open_connection (e : Env) : Z :=
  match resolved e with
  | inl status => status
  | inr hosts => if existsb (fun connected => connected) hosts then StatusCode_to_Z kOk else StatusCode_to_Z kUnavailable
  end.

Definition set_exchange (i : nat) (x : Exchange) (st : State) : State :=
  mkState (<[i := x]> (exchanges st)) (hosts st) (connections st) (failed st).
Definition set_host (h : nat) (host : Host) (st : State) : State :=
  mkState (exchanges st) (<[h := host]> (hosts st)) (connections st) (failed st).
Definition set_connection (c : nat) (conn : Connection) (st : State) : State :=
  mkState (exchanges st) (hosts st) (<[c := conn]> (connections st)) (failed st).
Definition panic (st : State) : State := mkState (exchanges st) (hosts st) (connections st) true.

Definition with_client (pc : ClientPc) (x : Exchange) : Exchange :=
  mkExchange (address x) pc (request_state x) (request_status x) (response_state x) (response_status x).
Definition with_request (w : Watch_) (s : Z) (x : Exchange) : Exchange :=
  mkExchange (address x) (client x) w s (response_state x) (response_status x).
Definition with_response (w : Watch_) (s : Z) (x : Exchange) : Exchange :=
  mkExchange (address x) (client x) (request_state x) (request_status x) w s.

(** [await_equal]: the watch has the value, or is closed, or not yet. *)
(* @ src/batteries/async/watch_decl.hpp 607-631 WatchAtomic::await_true, await_equal *)
Definition await_equal (v : Z) (w : Watch_) : option (StatusOr unit) :=
  if value w =? v then Some (OkVal tt) else if closed w then Some (Err kClosed) else None.

(** The status of a message that has been closed is returned, if it is one. *)
Definition error_of (status : Z) (e : StatusCode) : Z := if ok status then StatusCode_to_Z e else status.

(* @ src/batteries/http/http_client_impl.hpp 14-35 HttpClient::submit_request *)
Definition find_host (a : HostAddress) (st : State) : nat * State :=
  match list_find (fun host => host_address_ host = a) (hosts st) with
  | Some (h, _) => (h, st)
  | None => (length (hosts st), mkState (exchanges st) (hosts st ++ [mkHost a [] [] HLoop]) (connections st) (failed st))
  end.

(* @ src/batteries/http/http_client_host_context_decl.hpp 47-51 HttpClientHostContext::submit_request *)
Definition push_request (h i : nat) (st : State) : State :=
  match hosts st !! h with
  | Some host => set_host h (mkHost (host_address_ host) (request_queue_ host ++ [i]) (connection_tasks_ host) (main host)) st
  | None => panic st
  end.

(* @ src/batteries/http/http_client.hpp 262-330 http_request *)
Definition http_request_step (i : nat) (x : Exchange) (st : State) : State :=
  let goto pc st := set_exchange i (with_client pc x) st in
  match client x with
  | CSubmit =>
      set_exchange i (with_client CFindHost (with_request (set_value kInitialized (request_state x)) (request_status x) x)) st
  | CFindHost => let '(h, st) := find_host (address x) st in goto (CPush h) st
  | CPush h => goto CAwaitRequest (push_request h i st)
  | CAwaitRequest =>
      match await_equal kConsumed (request_state x) with
      | Some (OkVal _) => goto CAwaitResponse st
      | Some (Err e) => goto (CReturned (error_of (request_status x) e)) st
      | None => st
      end
  | CAwaitResponse =>
      match await_equal kInitialized (response_state x) with
      | Some (OkVal _) => goto (CReturned 0) st
      | Some (Err e) => goto (CReturned (error_of (response_status x) e)) st
      | None => st
      end
  | CReturned _ => st
  end.

(* @ src/batteries/http/http_client_host_context_decl.hpp 58-61 HttpClientHostContext::can_grow *)
Definition can_grow (host : Host) : bool := (length (connection_tasks_ host) <? kDefaultMaxConnections)%nat.

Definition new_connection (h : nat) : Connection := mkConnection h (QAwait false) SAwait true [] false [] [] [] [] [].

(* @ src/batteries/http/http_client_host_context_impl.hpp 61-68 HttpClientHostContext::create_connection *)
Definition create_connection (h : nat) (host : Host) (st : State) : State :=
  let c := length (connections st) in
  set_host h (mkHost (host_address_ host) (request_queue_ host) (connection_tasks_ host ++ [c]) (main host))
    (mkState (exchanges st) (hosts st) (connections st ++ [new_connection h]) (failed st)).

(** The loop reads the depth of the queue, opens a connection if there is work,
    and waits for the depth to be another one. *)
(* @ src/batteries/http/http_client_host_context_impl.hpp 36-58 HttpClientHostContext::host_task_main *)
Definition host_task_main_step (h : nat) (host : Host) (st : State) : State :=
  let goto pc host := mkHost (host_address_ host) (request_queue_ host) (connection_tasks_ host) pc in
  match main host with
  | HLoop =>
      let queue_depth := length (request_queue_ host) in
      let host := goto (HAwait queue_depth) host in
      if (0 <? queue_depth)%nat && can_grow host then create_connection h host st else set_host h host st
  | HAwait queue_depth =>
      if (length (request_queue_ host) =? queue_depth)%nat then st else set_host h (goto HLoop host) st
  end.

Definition with_requests (pc : RequestsPc) (k : Connection) : Connection :=
  mkConnection (context_ k) pc (responses k) (socket_open k) (response_queue_ k) (response_queue_closed k)
    (taken k) (sent k) (pushed k) (answered k) (delivered k).

(* @ src/batteries/http/http_client_connection_impl.hpp 72-119 HttpClientConnection::process_requests *)
Definition process_requests_step (c : nat) (k : Connection) (e : Env) (st : State) : State :=
  let goto pc st := set_connection c (with_requests pc k) st in
  match requests k with
  | QAwait connected =>
      match hosts st !! context_ k with
      | Some (mkHost a (i :: rest) tasks pc) =>
          set_host (context_ k) (mkHost a rest tasks pc)
            (set_connection c
              (mkConnection (context_ k) (QTaken i connected) (responses k) (socket_open k) (response_queue_ k)
                (response_queue_closed k) (taken k ++ [i]) (sent k) (pushed k) (answered k) (delivered k)) st)
      | _ => st
      end
  | QTaken i connected =>
      match exchanges st !! i with
      | Some x =>
          if value (request_state x) =? kInitialized then goto (if connected then QPush i else QOpen i) st else panic st
      | None => panic st
      end
  | QOpen i => goto (if ok (open_connection e) then QPush i else QUpdate i (open_connection e)) st
  | QUpdate i status =>
      match exchanges st !! i with
      | Some x =>
          goto (QClose i) (set_exchange i
            (with_request (request_state x) (Update (StatusCode_to_Z kUnknown) (request_status x) status) x) st)
      | None => panic st
      end
  | QClose i =>
      match exchanges st !! i with
      | Some x => goto QExit (set_exchange i (with_request (close (request_state x)) (request_status x) x) st)
      | None => panic st
      end
  | QPush i =>
      set_connection c
        (mkConnection (context_ k) (QSerialize i) (responses k) (socket_open k) (response_queue_ k ++ [i])
          (response_queue_closed k) (taken k) (sent k) (pushed k ++ [i]) (answered k) (delivered k)) st
  | QSerialize i => goto (if serialize_ok e && socket_open k then QConsumed i else QExit) st
  | QConsumed i =>
      match exchanges st !! i with
      | Some x =>
          set_connection c
            (mkConnection (context_ k) (QAwait true) (responses k) (socket_open k) (response_queue_ k)
              (response_queue_closed k) (taken k) (sent k ++ [i]) (pushed k) (answered k) (delivered k))
            (set_exchange i (with_request (set_value kConsumed (request_state x)) (request_status x) x) st)
      | None => panic st
      end
  | QExit =>
      set_connection c
        (mkConnection (context_ k) QDone (responses k) (socket_open k) (response_queue_ k)
          true (taken k) (sent k) (pushed k) (answered k) (delivered k)) st
  | QDone => st
  end.

Definition with_responses (pc : ResponsesPc) (k : Connection) : Connection :=
  mkConnection (context_ k) (requests k) pc (socket_open k) (response_queue_ k) (response_queue_closed k)
    (taken k) (sent k) (pushed k) (answered k) (delivered k).

(** A closed queue is read to its end. *)
(* @ src/batteries/http/http_client_connection_impl.hpp 150-199 HttpClientConnection::process_responses *)
Definition process_responses_step (c : nat) (k : Connection) (e : Env) (st : State) : State :=
  let goto pc st := set_connection c (with_responses pc k) st in
  match responses k with
  | SAwait =>
      match response_queue_ k with
      | i :: rest =>
          set_connection c
            (mkConnection (context_ k) (requests k) (SRead i) (socket_open k) rest
              (response_queue_closed k) (taken k) (sent k) (pushed k) (answered k ++ [i]) (delivered k)) st
      | [] => if response_queue_closed k then goto SExit st else st
      end
  | SRead i =>
      match response e with
      | ReadError => goto SExit st
      | Parsed valid keep_alive => goto (if valid then SInit i keep_alive else SInvalid i) st
      end
  | SInvalid i =>
      match exchanges st !! i with
      | Some x =>
          goto (SClose i) (set_exchange i
            (with_response (response_state x)
              (Update (StatusCode_to_Z kUnknown) (response_status x) (StatusCode_to_Z kInvalidArgument)) x) st)
      | None => panic st
      end
  | SClose i =>
      match exchanges st !! i with
      | Some x => goto SExit (set_exchange i (with_response (close (response_state x)) (response_status x) x) st)
      | None => panic st
      end
  | SInit i keep_alive =>
      match exchanges st !! i with
      | Some x =>
          set_connection c
            (mkConnection (context_ k) (requests k) (SMessage i keep_alive) (socket_open k) (response_queue_ k)
              (response_queue_closed k) (taken k) (sent k) (pushed k) (answered k) (delivered k ++ [i]))
            (set_exchange i (with_response (set_value kInitialized (response_state x)) (response_status x) x) st)
      | None => panic st
      end
  | SMessage i keep_alive => goto (if message_consumed e then SData i keep_alive else SExit) st
  | SData i keep_alive => goto (SEnd keep_alive) st
  | SEnd true => goto (if data_consumed e then SAwait else SExit) st
  | SEnd false =>
      set_connection c
        (mkConnection (context_ k) (requests k) SExit false (response_queue_ k) (response_queue_closed k)
          (taken k) (sent k) (pushed k) (answered k) (delivered k)) st
  | SExit => goto SDone st
  | SDone => st
  end.

(** ** The system *)

Inductive Actor : Type := Client (i : nat) | HostTask (h : nat) | Requests (c : nat) | Responses (c : nat).

Definition step (a : Actor) (e : Env) (st : State) : State :=
  match a with
  | Client i => match exchanges st !! i with Some x => http_request_step i x st | None => st end
  | HostTask h => match hosts st !! h with Some host => host_task_main_step h host st | None => st end
  | Requests c => match connections st !! c with Some k => process_requests_step c k e st | None => st end
  | Responses c => match connections st !! c with Some k => process_responses_step c k e st | None => st end
  end.

Definition run (schedule : list (Actor * Env)) (st : State) : State :=
  foldl (fun st ae => step ae.1 ae.2 st) st schedule.

Definition new_exchange (a : HostAddress) : Exchange :=
  mkExchange a CSubmit (mkWatch kCreated false) 0 (mkWatch kCreated false) 0.

Definition initial_state (addresses : list HostAddress) : State :=
  mkState (new_exchange <$> addresses) [] [] false.

(** A network and an application that do their part. *)
Definition good : Env := mkEnv (inr [false; true]) true (Parsed true true) true true.

(** ** The invariant *)

(** What an invariant of an exchange needs to know of the rest: the addresses
    of the calls and of the hosts, what has been sent and delivered. *)
Definition addresses (st : State) : list HostAddress := address <$> exchanges st.
Definition host_addresses (st : State) : list HostAddress := host_address_ <$> hosts st.
Definition all_sent (st : State) : list nat := concat (sent <$> connections st).
Definition all_delivered (st : State) : list nat := concat (delivered <$> connections st).

(** The requests that are queued at a host or have been taken from there. *)
Definition all_ids (st : State) : list nat := concat (request_queue_ <$> hosts st) ++ concat (taken <$> connections st).

Definition is_pushed (pc : ClientPc) : bool :=
  match pc with CSubmit | CFindHost | CPush _ => false | _ => true end.

Definition pushed_at (st : State) (i : nat) : bool :=
  match exchanges st !! i with Some x => is_pushed (client x) | None => false end.

(** The host of index [h] is the one that call [i] asks for. *)
Definition is_for (st : State) (i h : nat) : Prop :=
  exists a, addresses st !! i = Some a /\ host_addresses st !! h = Some a.

(** What [process_requests] has taken and not sent, and put on the response
    queue and not sent. *)
Definition requests_hold (pc : RequestsPc) (u v : list nat) : Prop :=
  match pc with
  | QAwait _ => u = [] /\ v = []
  | QTaken i _ | QOpen i | QClose i | QPush i => u = [i] /\ v = []
  | QUpdate i status => u = [i] /\ v = [] /\ ok status = false
  | QSerialize i | QConsumed i => u = [i] /\ v = [i]
  | QExit | QDone => (v = [] \/ v = u) /\ exists i, u = [i]
  end.

(** What [process_responses] has taken and not delivered. *)
Definition responses_hold (pc : ResponsesPc) (w : list nat) : Prop :=
  match pc with
  | SAwait | SMessage _ _ | SData _ _ | SEnd _ => w = []
  | SRead i | SInvalid i | SClose i | SInit i _ => w = [i]
  | SExit | SDone => (length w <= 1)%nat
  end.

Definition conn_ok (k : Connection) : Prop :=
  (exists u v, taken k = sent k ++ u /\ pushed k = sent k ++ v /\ requests_hold (requests k) u v) /\
  (exists w, answered k = delivered k ++ w /\ responses_hold (responses k) w) /\
  pushed k = answered k ++ response_queue_ k.

Definition exchange_ok (st : State) (i : nat) (x : Exchange) : Prop :=
  value (request_state x) =
    match client x with CSubmit => kCreated | _ => if bool_decide (i ∈ all_sent st) then kConsumed else kInitialized end /\
  value (response_state x) = (if bool_decide (i ∈ all_delivered st) then kInitialized else kCreated) /\
  (closed (request_state x) = true -> ok (request_status x) = false) /\
  (closed (response_state x) = true -> ok (response_status x) = false) /\
  match client x with
  | CPush h => is_for st i h
  | CAwaitResponse => i ∈ all_sent st
  | CReturned s =>
      if ok s then i ∈ all_sent st /\ i ∈ all_delivered st
      else closed (request_state x) = true \/ closed (response_state x) = true
  | _ => True
  end.

Record Inv (st : State) : Prop := {
  inv_failed : failed st = false;
  inv_hosts : NoDup (host_addresses st);
  inv_max : forall h host, hosts st !! h = Some host -> (length (connection_tasks_ host) <= kDefaultMaxConnections)%nat;
  inv_ids i : cnt (Nat.eqb i) (all_ids st) = Z.b2z (pushed_at st i);
  inv_queue h host i : hosts st !! h = Some host -> i ∈ request_queue_ host -> is_for st i h;
  inv_taken c k i : connections st !! c = Some k -> i ∈ taken k -> is_for st i (context_ k);
  inv_conn c k : connections st !! c = Some k -> conn_ok k;
  inv_qclose c k i x : connections st !! c = Some k -> requests k = QClose i -> exchanges st !! i = Some x -> ok (request_status x) = false;
  inv_sclose c k i x : connections st !! c = Some k -> responses k = SClose i -> exchanges st !! i = Some x -> ok (response_status x) = false;
  inv_exchange i x : exchanges st !! i = Some x -> exchange_ok st i x }.

Lemma fmap_insert_same {A B} (f : A -> B) (l : list A) (i : nat) (x y : A) :
  l !! i = Some x -> f y = f x -> f <$> <[i := y]> l = f <$> l.
Proof. intros Hi Hf. rewrite list_fmap_insert, Hf. apply list_insert_id. by rewrite list_lookup_fmap, Hi. Qed.

Lemma elem_of_concat_fmap {A B} (f : A -> list B) (l : list A) (b : B) :
  b ∈ concat (f <$> l) <-> exists c k, l !! c = Some k /\ b ∈ f k.
Proof.
  rewrite list_elem_of_In, in_concat. split.
  - intros (bs & Hbs & Hb). apply list_elem_of_In, list_elem_of_fmap in Hbs as (k & -> & Hk).
    apply list_elem_of_lookup_1 in Hk as [c Hc]. exists c, k. by rewrite list_elem_of_In.
  - intros (c & k & Hc & Hb). exists (f k). rewrite <- !list_elem_of_In. split; [|done].
    apply list_elem_of_fmap. exists k. split; [done|]. by eapply list_elem_of_lookup_2.
Qed.

Lemma elem_of_concat_insert {A B} (f : A -> list B) (l : list A) (c : nat) (k k' : A) (bs : list B) (b : B) :
  l !! c = Some k -> f k' = f k ++ bs -> b ∈ concat (f <$> <[c := k']> l) <-> b ∈ concat (f <$> l) \/ b ∈ bs.
Proof.
  intros Hc Hf. rewrite !elem_of_concat_fmap. split.
  - intros (d & k1 & Hd & Hb). destruct (list_insert_cases _ _ _ _ _ _ Hc Hd) as [[-> ->]|[Hne Hd']]; [|by eauto].
    rewrite Hf, elem_of_app in Hb. destruct Hb; eauto.
  - intros [(d & k1 & Hd & Hb)|Hb].
    + destruct (decide (d = c)) as [->|Hne].
      * exists c, k'. rewrite (list_insert_here _ _ _ _ Hc), Hf. split; [done|]. simplify_eq. apply elem_of_app. by left.
      * exists d, k1. by rewrite list_lookup_insert_ne.
    + exists c, k'. rewrite (list_insert_here _ _ _ _ Hc), Hf. split; [done|]. apply elem_of_app. by right.
Qed.

Lemma cnt_elem (i : nat) (l : list nat) : i ∈ l -> 1 <= cnt (Nat.eqb i) l.
Proof.
  intros [j Hj]%list_elem_of_lookup_1. pose proof (cnt_lookup (Nat.eqb i) l j i Hj) as H. rewrite Nat.eqb_refl in H. exact H.
Qed.

(** Everything that has been taken has been put on the queue by its call. *)
Lemma ids_pushed (st : State) (i : nat) : Inv st -> i ∈ all_ids st -> exists x, exchanges st !! i = Some x /\ is_pushed (client x) = true.
Proof.
  intros HI Hi%cnt_elem. rewrite (inv_ids _ HI) in Hi. unfold pushed_at in Hi. destruct (exchanges st !! i) as [x|]; [|simpl in Hi; lia].
  exists x. destruct (is_pushed (client x)); [done|simpl in Hi; lia].
Qed.

Lemma taken_pushed (st : State) (c i : nat) (k : Connection) :
  Inv st -> connections st !! c = Some k -> i ∈ taken k -> exists x, exchanges st !! i = Some x /\ is_pushed (client x) = true.
Proof.
  intros HI Hc Hi. apply (ids_pushed st); [done|]. apply elem_of_app. right. apply elem_of_concat_fmap. eauto.
Qed.

(** What one connection holds is part of what all of them hold. *)
Lemma cnt_taken_le (i c : nat) (k : Connection) (l : list Connection) :
  l !! c = Some k -> cnt (Nat.eqb i) (taken k) <= cnt (Nat.eqb i) (concat (taken <$> l)).
Proof.
  intros Hc. rewrite cnt_concat, <- list_fmap_compose. apply (sum_lookup_le (cnt (Nat.eqb i) ∘ taken) l c k); [|done].
  apply list.Forall_forall. intros k' _. apply cnt_nonneg.
Qed.

Lemma cnt_taken_two (i c d : nat) (k k' : Connection) (l : list Connection) :
  l !! c = Some k -> l !! d = Some k' -> c <> d ->
  cnt (Nat.eqb i) (taken k) + cnt (Nat.eqb i) (taken k') <= cnt (Nat.eqb i) (concat (taken <$> l)).
Proof.
  intros Hc Hd Hne. pose proof (sum_insert (cnt (Nat.eqb i) ∘ taken) l c k (mkConnection 0 QExit SExit true [] true [] [] [] [] []) Hc) as Hsum.
  cbn in Hsum. rewrite cnt_nil in Hsum. rewrite cnt_concat, <- list_fmap_compose.
  pose proof (cnt_taken_le i d k' (<[c := mkConnection 0 QExit SExit true [] true [] [] [] [] []]> l)) as Hl.
  rewrite list_lookup_insert_ne in Hl by done. specialize (Hl Hd). rewrite cnt_concat, <- list_fmap_compose in Hl.
  unfold compose in *. lia.
Qed.

(** A request that is being handled has not been sent. *)
Lemma held_not_sent (st : State) (c i : nat) (k : Connection) :
  Inv st -> connections st !! c = Some k -> taken k = sent k ++ [i] -> i ∉ all_sent st.
Proof.
  intros HI Hc Ht Hs. apply elem_of_concat_fmap in Hs as (d & k' & Hd & Hi).
  pose proof (inv_ids _ HI i) as H. unfold all_ids in H. rewrite cnt_app in H.
  pose proof (cnt_nonneg (Nat.eqb i) (concat (request_queue_ <$> hosts st))) as H0.
  assert (1 <= cnt (Nat.eqb i) (taken k)) as Hk by (apply cnt_elem; rewrite Ht; apply elem_of_app; right; by left).
  assert (Z.b2z (pushed_at st i) <= 1) as Hb by (by destruct (pushed_at st i)).
  destruct (decide (d = c)) as [->|Hne].
  - simplify_eq. pose proof (cnt_taken_le i c k (connections st) Hc) as Hl. rewrite Ht, cnt_app in Hl.
    pose proof (cnt_elem _ _ Hi). assert (cnt (Nat.eqb i) [i] = 1) as E by (by rewrite cnt_cons, cnt_nil, Nat.eqb_refl). lia.
  - destruct (inv_conn _ HI d k' Hd) as [(u & v & Ht' & _) _].
    assert (1 <= cnt (Nat.eqb i) (taken k')) as Hk' by (apply cnt_elem; rewrite Ht'; apply elem_of_app; by left).
    pose proof (cnt_taken_two i d c k' k (connections st) Hd Hc Hne). lia.
Qed.

Lemma exchange_ok_ext (st st' : State) (i : nat) (x : Exchange) :
  (i ∈ all_sent st <-> i ∈ all_sent st') -> (i ∈ all_delivered st <-> i ∈ all_delivered st') ->
  (forall h, is_for st i h -> is_for st' i h) -> exchange_ok st i x -> exchange_ok st' i x.
Proof.
  unfold exchange_ok. intros Hs Hd Hf (Hq & Hr & Hcq & Hcr & Hc).
  rewrite <- (bool_decide_ext _ _ Hs), <- (bool_decide_ext _ _ Hd). split_and!; try done.
  destruct (client x) as [| |h| | |s]; try done; [by apply Hf|by apply Hs|]. destruct (ok s); [|done]. by rewrite <- Hs, <- Hd.
Qed.

Lemma is_for_set_exchange (st : State) (i j h : nat) (x x' : Exchange) :
  exchanges st !! i = Some x -> address x' = address x -> is_for (set_exchange i x' st) j h <-> is_for st j h.
Proof. intros Hi Ha. unfold is_for, addresses. simpl. by rewrite (fmap_insert_same _ _ _ _ _ Hi Ha). Qed.

Lemma pushed_at_set_exchange (st : State) (i j : nat) (x x' : Exchange) :
  exchanges st !! i = Some x -> is_pushed (client x') = is_pushed (client x) -> pushed_at (set_exchange i x' st) j = pushed_at st j.
Proof.
  intros Hi Hp. unfold pushed_at. simpl. destruct (decide (j = i)) as [->|Hne].
  - by rewrite (list_insert_here _ _ _ _ Hi), Hi.
  - by rewrite list_lookup_insert_ne.
Qed.

(** What a change of an exchange must keep. *)
Record changes (x x' : Exchange) : Prop := {
  ch_address : address x' = address x;
  ch_pushed : is_pushed (client x') = is_pushed (client x);
  ch_request : ok (request_status x) = false -> ok (request_status x') = false;
  ch_response : ok (response_status x) = false -> ok (response_status x') = false }.

(** A connection changes, and with it exchange [i]: what it has sent and
    delivered may grow by [i]. *)
Lemma conn_exchange_inv (st : State) (c i : nat) (k k' : Connection) (x x' : Exchange) (bs ds : list nat) :
  Inv st -> connections st !! c = Some k -> exchanges st !! i = Some x ->
  context_ k' = context_ k -> taken k' = taken k -> conn_ok k' ->
  sent k' = sent k ++ bs -> delivered k' = delivered k ++ ds -> (forall j, j ∈ bs -> j = i) -> (forall j, j ∈ ds -> j = i) ->
  changes x x' ->
  (forall j, requests k' = QClose j -> requests k = QClose j \/ (j = i /\ ok (request_status x') = false)) ->
  (forall j, responses k' = SClose j -> responses k = SClose j \/ (j = i /\ ok (response_status x') = false)) ->
  exchange_ok (set_connection c k' (set_exchange i x' st)) i x' ->
  Inv (set_connection c k' (set_exchange i x' st)).
Proof.
  intros HI Hc Hi Hctx Ht Hok Hs Hd Hbs Hds [Ha Hp Hq Hr] Hqc Hsc Hx.
  assert (forall j, j <> i -> j ∈ all_sent st <-> j ∈ all_sent (set_connection c k' (set_exchange i x' st))) as Hsent.
  { intros j Hj. unfold all_sent. simpl. rewrite (elem_of_concat_insert sent _ _ _ _ _ _ Hc Hs). naive_solver. }
  assert (forall j, j <> i -> j ∈ all_delivered st <-> j ∈ all_delivered (set_connection c k' (set_exchange i x' st))) as Hdel.
  { intros j Hj. unfold all_delivered. simpl. rewrite (elem_of_concat_insert delivered _ _ _ _ _ _ Hc Hd). naive_solver. }
  pose proof (is_for_set_exchange st i) as Hf.
  split.
  - apply (inv_failed _ HI).
  - apply (inv_hosts _ HI).
  - apply (inv_max _ HI).
  - intros j. unfold all_ids. simpl. rewrite (fmap_insert_same taken _ _ _ _ Hc Ht).
    rewrite (inv_ids _ HI j : cnt _ (concat _ ++ _) = _). f_equal. symmetry. exact (pushed_at_set_exchange st i j x x' Hi Hp).
  - intros h host j Hh Hj. apply (Hf j h x x' Hi Ha). by apply (inv_queue _ HI h host).
  - intros d k1 j Hd1 Hj. apply (Hf j _ x x' Hi Ha). simpl in Hd1.
    destruct (list_insert_cases _ _ _ _ _ _ Hc Hd1) as [[-> ->]|[Hne Hd2]]; [|by apply (inv_taken _ HI d)].
    rewrite Hctx. apply (inv_taken _ HI c); [done|]. by rewrite <- Ht.
  - intros d k1 Hd1. simpl in Hd1. destruct (list_insert_cases _ _ _ _ _ _ Hc Hd1) as [[-> ->]|[Hne Hd2]]; [done|by apply (inv_conn _ HI d)].
  - intros d k1 j y Hd1 Hk Hy. simpl in Hd1, Hy. destruct (list_insert_cases _ _ _ _ _ _ Hc Hd1) as [[-> ->]|[Hne Hd2]].
    + destruct (Hqc j Hk) as [Hk'|[-> Hst]]; [|by rewrite (list_insert_here _ _ _ _ Hi) in Hy; simplify_eq].
      destruct (list_insert_cases _ _ _ _ _ _ Hi Hy) as [[-> ->]|[_ Hy']]; [apply Hq|]; by eapply (inv_qclose _ HI c k).
    + destruct (list_insert_cases _ _ _ _ _ _ Hi Hy) as [[-> ->]|[_ Hy']]; [apply Hq|]; by eapply (inv_qclose _ HI d k1).
  - intros d k1 j y Hd1 Hk Hy. simpl in Hd1, Hy. destruct (list_insert_cases _ _ _ _ _ _ Hc Hd1) as [[-> ->]|[Hne Hd2]].
    + destruct (Hsc j Hk) as [Hk'|[-> Hst]]; [|by rewrite (list_insert_here _ _ _ _ Hi) in Hy; simplify_eq].
      destruct (list_insert_cases _ _ _ _ _ _ Hi Hy) as [[-> ->]|[_ Hy']]; [apply Hr|]; by eapply (inv_sclose _ HI c k).
    + destruct (list_insert_cases _ _ _ _ _ _ Hi Hy) as [[-> ->]|[_ Hy']]; [apply Hr|]; by eapply (inv_sclose _ HI d k1).
  - intros j y Hy. simpl in Hy. destruct (list_insert_cases _ _ _ _ _ _ Hi Hy) as [[-> ->]|[Hne Hy']]; [done|].
    eapply exchange_ok_ext; [by apply Hsent|by apply Hdel| |by apply (inv_exchange _ HI)].
    intros h Hfor. by apply (Hf j h x x' Hi Ha).
Qed.

(** A connection changes by itself. *)
Lemma conn_inv (st : State) (c : nat) (k k' : Connection) :
  Inv st -> connections st !! c = Some k ->
  context_ k' = context_ k -> taken k' = taken k -> sent k' = sent k -> delivered k' = delivered k -> conn_ok k' ->
  (forall j, requests k' = QClose j -> requests k = QClose j) -> (forall j, responses k' = SClose j -> responses k = SClose j) ->
  Inv (set_connection c k' st).
Proof.
  intros HI Hc Hctx Ht Hs Hd Hok Hqc Hsc.
  assert (forall j x, exchange_ok st j x -> exchange_ok (set_connection c k' st) j x) as Hex.
  { intros j x. apply exchange_ok_ext; [| |done].
    - unfold all_sent. simpl. by rewrite (fmap_insert_same sent _ _ _ _ Hc Hs).
    - unfold all_delivered. simpl. by rewrite (fmap_insert_same delivered _ _ _ _ Hc Hd). }
  split; try apply HI; simpl.
  - intros j. unfold all_ids. simpl. rewrite (fmap_insert_same taken _ _ _ _ Hc Ht). exact (inv_ids _ HI j).
  - intros d k1 j Hd1 Hj. destruct (list_insert_cases _ _ _ _ _ _ Hc Hd1) as [[-> ->]|[Hne Hd2]]; [|by apply (inv_taken _ HI d)].
    rewrite Hctx. apply (inv_taken _ HI c); [done|]. by rewrite <- Ht.
  - intros d k1 Hd1. destruct (list_insert_cases _ _ _ _ _ _ Hc Hd1) as [[-> ->]|[Hne Hd2]]; [done|by apply (inv_conn _ HI d)].
  - intros d k1 j y Hd1 Hk Hy. destruct (list_insert_cases _ _ _ _ _ _ Hc Hd1) as [[-> ->]|[Hne Hd2]].
    + apply (inv_qclose _ HI c k j y); auto.
    + by apply (inv_qclose _ HI d k1 j y).
  - intros d k1 j y Hd1 Hk Hy. destruct (list_insert_cases _ _ _ _ _ _ Hc Hd1) as [[-> ->]|[Hne Hd2]].
    + apply (inv_sclose _ HI c k j y); auto.
    + by apply (inv_sclose _ HI d k1 j y).
  - intros j y Hy. apply Hex. by apply (inv_exchange _ HI).
Qed.

(** An exchange changes by itself. *)
Lemma exchange_inv (st : State) (i : nat) (x x' : Exchange) :
  Inv st -> exchanges st !! i = Some x -> changes x x' -> exchange_ok st i x' -> Inv (set_exchange i x' st).
Proof.
  intros HI Hi [Ha Hp Hq Hr] Hx. pose proof (is_for_set_exchange st i) as Hf.
  assert (forall j y, exchange_ok st j y -> exchange_ok (set_exchange i x' st) j y) as Hex.
  { intros j y. apply exchange_ok_ext; [done..|]. intros h. by apply (Hf j h x x'). }
  split; try apply HI.
  - intros j. rewrite (pushed_at_set_exchange st i j x x' Hi Hp). exact (inv_ids _ HI j).
  - intros h host j Hh Hj. apply (Hf j h x x' Hi Ha). by apply (inv_queue _ HI h host).
  - intros d k1 j Hd1 Hj. apply (Hf j _ x x' Hi Ha). by apply (inv_taken _ HI d).
  - intros d k1 j y Hd1 Hk Hy. destruct (list_insert_cases _ _ _ _ _ _ Hi Hy) as [[-> ->]|[_ Hy']]; [apply Hq|]; by eapply (inv_qclose _ HI d k1).
  - intros d k1 j y Hd1 Hk Hy. destruct (list_insert_cases _ _ _ _ _ _ Hi Hy) as [[-> ->]|[_ Hy']]; [apply Hr|]; by eapply (inv_sclose _ HI d k1).
  - intros j y Hy. destruct (list_insert_cases _ _ _ _ _ _ Hi Hy) as [[-> ->]|[Hne Hy']]; apply Hex; [done|by apply (inv_exchange _ HI)].
Qed.

Lemma cnt_concat_insert {A} (P : nat -> bool) (f : A -> list nat) (l : list A) (i : nat) (x y : A) :
  l !! i = Some x -> cnt P (concat (f <$> <[i := y]> l)) = cnt P (concat (f <$> l)) - cnt P (f x) + cnt P (f y).
Proof. intros Hi. rewrite !cnt_concat, <- !list_fmap_compose. apply (sum_insert (cnt P ∘ f) l i x y Hi). Qed.

(** The task of a host goes on. *)
Lemma host_inv (st : State) (h : nat) (host host' : Host) :
  Inv st -> hosts st !! h = Some host -> host_address_ host' = host_address_ host ->
  request_queue_ host' = request_queue_ host -> (length (connection_tasks_ host') <= kDefaultMaxConnections)%nat ->
  Inv (set_host h host' st).
Proof.
  intros HI Hh Ha Hq Hmax.
  assert (host_addresses (set_host h host' st) = host_addresses st) as Hha by (apply (fmap_insert_same _ _ _ _ _ Hh Ha)).
  assert (forall j g, is_for st j g -> is_for (set_host h host' st) j g) as Hf.
  { intros j g. unfold is_for. by rewrite Hha. }
  split; try apply HI.
  - rewrite Hha. apply (inv_hosts _ HI).
  - intros g host1 Hg. destruct (list_insert_cases _ _ _ _ _ _ Hh Hg) as [[-> ->]|[Hne Hg']]; [done|by apply (inv_max _ HI g)].
  - intros j. unfold all_ids. simpl. rewrite (fmap_insert_same request_queue_ _ _ _ _ Hh Hq). exact (inv_ids _ HI j).
  - intros g host1 j Hg Hj. apply Hf. destruct (list_insert_cases _ _ _ _ _ _ Hh Hg) as [[-> ->]|[Hne Hg']].
    + apply (inv_queue _ HI h host); [done|]. by rewrite <- Hq.
    + by apply (inv_queue _ HI g host1).
  - intros c k j Hc Hj. apply Hf. by apply (inv_taken _ HI c).
  - intros j y Hy. apply (exchange_ok_ext st); [done..|apply Hf|]. by apply (inv_exchange _ HI).
Qed.

Lemma new_connection_ok (h : nat) : conn_ok (new_connection h).
Proof. split_and!; [by exists [], []|by exists []|done]. Qed.

Lemma lookup_snoc_cases {A} (l : list A) (x y : A) (c : nat) : (l ++ [x]) !! c = Some y -> l !! c = Some y \/ (c = length l /\ y = x).
Proof.
  intros [?|[Hlen Hy]]%lookup_app_Some; [by left|right]. apply list_lookup_singleton_Some in Hy as [? ->]. split; [lia|done].
Qed.

Lemma concat_snoc_nil {A B} (f : A -> list B) (l : list A) (x : A) : f x = [] -> concat (f <$> (l ++ [x])) = concat (f <$> l).
Proof. intros Hx. rewrite fmap_app, concat_app. simpl. by rewrite Hx, !app_nil_r. Qed.

(** A new connection has nothing to do yet. *)
Lemma new_connection_inv (st : State) (h : nat) :
  Inv st -> Inv (mkState (exchanges st) (hosts st) (connections st ++ [new_connection h]) (failed st)).
Proof.
  intros HI. set (st' := mkState _ _ _ _).
  assert (forall j y, exchange_ok st j y -> exchange_ok st' j y) as Hex.
  { intros j y. apply exchange_ok_ext; [| |done].
    - unfold all_sent. simpl. by rewrite (concat_snoc_nil sent).
    - unfold all_delivered. simpl. by rewrite (concat_snoc_nil delivered). }
  split; try apply HI.
  - intros j. unfold all_ids. simpl. rewrite (concat_snoc_nil taken) by done. exact (inv_ids _ HI j).
  - intros c k j [Hc|[-> ->]]%lookup_snoc_cases Hj; [by apply (inv_taken _ HI c)|by apply elem_of_nil in Hj].
  - intros c k [Hc|[-> ->]]%lookup_snoc_cases; [by apply (inv_conn _ HI c)|apply new_connection_ok].
  - intros c k j y [Hc|[-> ->]]%lookup_snoc_cases Hk Hy; [by apply (inv_qclose _ HI c k j)|done].
  - intros c k j y [Hc|[-> ->]]%lookup_snoc_cases Hk Hy; [by apply (inv_sclose _ HI c k j)|done].
  - intros j y Hy. apply Hex. by apply (inv_exchange _ HI).
Qed.

Lemma host_task_inv (st : State) (h : nat) (host : Host) :
  Inv st -> hosts st !! h = Some host -> Inv (host_task_main_step h host st).
Proof.
  intros HI Hh. pose proof (inv_max _ HI h host Hh) as Hmax. unfold host_task_main_step. destruct (main host) as [|d].
  - destruct (_ && _) eqn:E; [|by eapply host_inv].
    apply andb_true_iff in E as [_ E]. unfold can_grow in E. simpl in E. apply Nat.ltb_lt in E.
    unfold create_connection. eapply host_inv; [by apply new_connection_inv|exact Hh|done|done|].
    simpl. rewrite length_app. simpl. lia.
  - destruct (_ =? _)%nat; [done|]. by eapply host_inv.
Qed.

(** A host for an address that has none. *)
Lemma new_host_inv (st : State) (a : HostAddress) :
  Inv st -> a ∉ host_addresses st ->
  Inv (mkState (exchanges st) (hosts st ++ [mkHost a [] [] HLoop]) (connections st) (failed st)).
Proof.
  intros HI Ha. set (st' := mkState _ _ _ _).
  assert (host_addresses st' = host_addresses st ++ [a]) as Hha by (unfold host_addresses, st'; cbn [hosts]; by rewrite fmap_app).
  assert (forall j g, is_for st j g -> is_for st' j g) as Hf.
  { intros j g (b & Hj & Hg). exists b. split; [done|]. rewrite Hha. by apply lookup_app_l_Some. }
  split; try apply HI.
  - rewrite Hha. apply NoDup_app. split_and!; [apply (inv_hosts _ HI)| |apply NoDup_singleton].
    by intros b Hb ->%list_elem_of_singleton.
  - intros g host [Hg|[-> ->]]%lookup_snoc_cases; [by apply (inv_max _ HI g)|]. simpl. unfold kDefaultMaxConnections. lia.
  - intros j. unfold all_ids. simpl. rewrite (concat_snoc_nil request_queue_) by done. exact (inv_ids _ HI j).
  - intros g host j [Hg|[-> ->]]%lookup_snoc_cases Hj; [apply Hf; by apply (inv_queue _ HI g host)|by apply elem_of_nil in Hj].
  - intros c k j Hc Hj. apply Hf. by apply (inv_taken _ HI c).
  - intros j y Hy. apply (exchange_ok_ext st); [done..|apply Hf|]. by apply (inv_exchange _ HI).
Qed.

Lemma find_host_spec (st : State) (a : HostAddress) :
  Inv st -> let '(h, st') := find_host a st in Inv st' /\ host_addresses st' !! h = Some a /\ exchanges st' = exchanges st.
Proof.
  intros HI. unfold find_host. destruct (list_find _ (hosts st)) as [[h host]|] eqn:E.
  - apply list_find_Some in E as (Hh & <- & _). split_and!; [done| |done]. unfold host_addresses. by rewrite list_lookup_fmap, Hh.
  - apply list_find_None in E. split_and!; [|unfold host_addresses; simpl; rewrite fmap_app; by apply list_lookup_middle; rewrite length_fmap|done].
    apply new_host_inv; [done|]. intros (host & -> & Hh)%list_elem_of_fmap. rewrite list.Forall_forall in E. by apply (E host).
Qed.

(** A call puts its request on the queue of its host. *)
Lemma push_inv (st : State) (i h : nat) (x : Exchange) :
  Inv st -> exchanges st !! i = Some x -> client x = CPush h ->
  Inv (set_exchange i (with_client CAwaitRequest x) (push_request h i st)).
Proof.
  intros HI Hi Hx. pose proof (inv_exchange _ HI i x Hi) as Hex. unfold exchange_ok in Hex. rewrite Hx in Hex.
  destruct Hex as (Hq & Hr & Hcq & Hcr & Hfor). pose proof Hfor as (a & Ha & Hha).
  unfold host_addresses in Hha. rewrite list_lookup_fmap in Hha. destruct (hosts st !! h) as [host|] eqn:Hh; [|done].
  unfold push_request. rewrite Hh. set (host' := mkHost _ _ _ _). set (st' := set_exchange _ _ _).
  assert (forall j g, is_for st j g <-> is_for st' j g) as Hf.
  { intros j g. unfold is_for, st', addresses, host_addresses, set_host. simpl.
    by rewrite (fmap_insert_same address _ _ _ (with_client CAwaitRequest x) Hi eq_refl), (fmap_insert_same host_address_ _ _ _ host' Hh eq_refl). }
  split; try apply HI.
  - unfold host_addresses, st'. simpl. rewrite (fmap_insert_same host_address_ _ _ _ host' Hh eq_refl). apply (inv_hosts _ HI).
  - intros g host1 Hg. destruct (list_insert_cases _ _ _ _ _ _ Hh Hg) as [[-> ->]|[Hne Hg']]; [apply (inv_max _ HI _ _ Hh)|apply (inv_max _ HI _ _ Hg')].
  - intros j. unfold all_ids. simpl. rewrite cnt_app, (cnt_concat_insert _ _ _ _ _ _ Hh). simpl. rewrite cnt_app, cnt_cons, cnt_nil.
    pose proof (inv_ids _ HI j) as H. unfold all_ids in H. rewrite cnt_app in H. revert H. unfold pushed_at. simpl.
    destruct (decide (j = i)) as [->|Hne].
    + rewrite (list_insert_here _ _ _ _ Hi), Hi, Hx, Nat.eqb_refl. simpl. lia.
    + rewrite list_lookup_insert_ne by done. rewrite (proj2 (Nat.eqb_neq j i)) by done. simpl. lia.
  - intros g host1 j Hg Hj. apply Hf. destruct (list_insert_cases _ _ _ _ _ _ Hh Hg) as [[-> ->]|[Hne Hg']]; [|by apply (inv_queue _ HI g host1)].
    simpl in Hj. apply elem_of_app in Hj as [Hj| ->%list_elem_of_singleton]; [by apply (inv_queue _ HI h host)|done].
  - intros c k j Hc Hj. apply Hf. by apply (inv_taken _ HI c).
  - intros c k j y Hc Hk Hy. destruct (list_insert_cases _ _ _ _ _ _ Hi Hy) as [[-> ->]|[_ Hy']]; [exact (inv_qclose _ HI c k i x Hc Hk Hi)|exact (inv_qclose _ HI c k j y Hc Hk Hy')].
  - intros c k j y Hc Hk Hy. destruct (list_insert_cases _ _ _ _ _ _ Hi Hy) as [[-> ->]|[_ Hy']]; [exact (inv_sclose _ HI c k i x Hc Hk Hi)|exact (inv_sclose _ HI c k j y Hc Hk Hy')].
  - intros j y Hy. apply (exchange_ok_ext st); [done..|intros g; apply Hf|].
    destruct (list_insert_cases _ _ _ _ _ _ Hi Hy) as [[-> ->]|[Hne Hy']]; [done|by apply (inv_exchange _ HI)].
Qed.

(** A connection takes a request from the queue of its host. *)
Lemma pop_inv (st : State) (c i : nat) (k : Connection) (connected : bool) (a : HostAddress) (rest tasks : list nat) (pc : HostPc) (e : Env) :
  Inv st -> connections st !! c = Some k -> requests k = QAwait connected ->
  hosts st !! context_ k = Some (mkHost a (i :: rest) tasks pc) ->
  Inv (process_requests_step c k e st).
Proof.
  intros HI Hc Hk Hh. unfold process_requests_step. rewrite Hk, Hh. set (host' := mkHost _ _ _ _). set (k' := mkConnection _ _ _ _ _ _ _ _ _ _ _).
  set (st' := set_host _ _ _).
  assert (forall j g, is_for st j g <-> is_for st' j g) as Hf.
  { intros j g. unfold is_for, st', host_addresses. simpl. by rewrite (fmap_insert_same host_address_ _ _ _ host' Hh eq_refl). }
  destruct (inv_conn _ HI c k Hc) as [(u & v & Ht & Hp & Hqh) Hs]. rewrite Hk in Hqh. destruct Hqh as [-> ->]. rewrite !app_nil_r in *.
  assert (conn_ok k') as Hok.
  { split; [|exact Hs]. exists [i], []. simpl. by rewrite app_nil_r, Ht. }
  assert (forall j y, exchange_ok st j y -> exchange_ok st' j y) as Hex.
  { intros j y. apply exchange_ok_ext; [| |intros g; apply Hf].
    - unfold all_sent. simpl. by rewrite (fmap_insert_same sent _ _ _ k' Hc eq_refl).
    - unfold all_delivered. simpl. by rewrite (fmap_insert_same delivered _ _ _ k' Hc eq_refl). }
  split; try apply HI.
  - unfold host_addresses, st'. simpl. rewrite (fmap_insert_same host_address_ _ _ _ host' Hh eq_refl). apply (inv_hosts _ HI).
  - intros g host1 Hg. destruct (list_insert_cases _ _ _ _ _ _ Hh Hg) as [[-> ->]|[Hne Hg']]; [apply (inv_max _ HI _ _ Hh)|apply (inv_max _ HI _ _ Hg')].
  - intros j. unfold all_ids. simpl. rewrite cnt_app, (cnt_concat_insert _ _ _ _ _ _ Hh), (cnt_concat_insert _ _ _ _ _ _ Hc). simpl.
    rewrite cnt_app, !cnt_cons, cnt_nil. pose proof (inv_ids _ HI j) as H. unfold all_ids in H. rewrite cnt_app in H.
    unfold pushed_at in *. simpl. lia.
  - intros g host1 j Hg Hj. apply Hf. destruct (list_insert_cases _ _ _ _ _ _ Hh Hg) as [[-> ->]|[Hne Hg']]; [|by apply (inv_queue _ HI g host1)].
    apply (inv_queue _ HI _ _ j Hh). by right.
  - intros d k1 j Hd Hj. apply Hf. destruct (list_insert_cases _ _ _ _ _ _ Hc Hd) as [[-> ->]|[Hne Hd']]; [|by apply (inv_taken _ HI d)].
    simpl in *. apply elem_of_app in Hj as [Hj| ->%list_elem_of_singleton]; [by apply (inv_taken _ HI c)|].
    apply (inv_queue _ HI _ _ i Hh). by left.
  - intros d k1 Hd. destruct (list_insert_cases _ _ _ _ _ _ Hc Hd) as [[-> ->]|[Hne Hd']]; [done|by apply (inv_conn _ HI d)].
  - intros d k1 j y Hd Hk1 Hy. destruct (list_insert_cases _ _ _ _ _ _ Hc Hd) as [[-> ->]|[Hne Hd']]; [done|exact (inv_qclose _ HI d k1 j y Hd' Hk1 Hy)].
  - intros d k1 j y Hd Hk1 Hy. destruct (list_insert_cases _ _ _ _ _ _ Hc Hd) as [[-> ->]|[Hne Hd']]; [exact (inv_sclose _ HI c k j y Hc Hk1 Hy)|exact (inv_sclose _ HI d k1 j y Hd' Hk1 Hy)].
  - intros j y Hy. apply Hex. by apply (inv_exchange _ HI).
Qed.

Lemma error_of_bad (status : Z) (e : StatusCode) : ok status = false -> error_of status e = status.
Proof. unfold error_of. by intros ->. Qed.

Lemma client_inv (st : State) (i : nat) (x : Exchange) :
  Inv st -> exchanges st !! i = Some x -> Inv (http_request_step i x st).
Proof.
  intros HI Hi. pose proof (inv_exchange _ HI i x Hi) as Hex. pose proof Hex as (Hq & Hr & Hcq & Hcr & Hc).
  unfold http_request_step. destruct (client x) as [| |h| | |s] eqn:E.
  - apply (exchange_inv st i x); [done|done|by split; simpl; rewrite ?E|].
    split_and!; try done. simpl. rewrite bool_decide_eq_false_2; [done|]. intros (c & k & Hk & Hin)%elem_of_concat_fmap.
    destruct (inv_conn _ HI c k Hk) as [(u & v & Ht & _) _].
    destruct (taken_pushed st c i k HI Hk) as (y & Hy & Hp); [rewrite Ht; apply elem_of_app; by left|]. simplify_eq. by rewrite E in Hp.
  - pose proof (find_host_spec st (address x) HI) as Hf. destruct (find_host (address x) st) as [h st']. destruct Hf as (HI' & Ha & Hes).
    rewrite <- Hes in Hi. pose proof (inv_exchange _ HI' i x Hi) as (Hq' & Hr' & _ & _ & _). rewrite E in Hq'.
    apply (exchange_inv st' i x); [done|done|by split; simpl; rewrite ?E|]. split_and!; try done. simpl.
    exists (address x). split; [|done]. unfold addresses. by rewrite list_lookup_fmap, Hi.
  - by apply push_inv.
  - unfold await_equal. destruct (Z.eqb_spec (value (request_state x)) kConsumed) as [Ev|Ev].
    + apply (exchange_inv st i x); [done|done|by split; simpl; rewrite ?E|]. split_and!; try done. simpl.
      rewrite Hq in Ev. by case_bool_decide.
    + destruct (closed (request_state x)) eqn:Ecl; [|done]. apply (exchange_inv st i x); [done|done|by split; simpl; rewrite ?E|].
      rewrite (error_of_bad _ _ (Hcq eq_refl)). split_and!; try done; [intros _; by apply Hcq|]. cbn [client with_client]. rewrite (Hcq eq_refl). by left.
  - unfold await_equal. destruct (Z.eqb_spec (value (response_state x)) kInitialized) as [Ev|Ev].
    + apply (exchange_inv st i x); [done|done|by split; simpl; rewrite ?E|]. split_and!; try done. simpl.
      rewrite Hr in Ev. by case_bool_decide.
    + destruct (closed (response_state x)) eqn:Ecl; [|done]. apply (exchange_inv st i x); [done|done|by split; simpl; rewrite ?E|].
      rewrite (error_of_bad _ _ (Hcr eq_refl)). split_and!; try done; [intros _; by apply Hcr|]. cbn [client with_client]. rewrite (Hcr eq_refl). by right.
  - done.
Qed.

Lemma update_bad (self status : Z) : ok status = false -> ok (Update (StatusCode_to_Z kUnknown) self status) = false.
Proof. intros Hs. unfold Update. destruct (ok self || _) eqn:E; [done|]. by apply orb_false_iff in E as [-> _]. Qed.

(** The exchange of a request that a connection has taken. *)
Lemma held_exchange (st : State) (c i : nat) (k : Connection) :
  Inv st -> connections st !! c = Some k -> i ∈ taken k ->
  exists x, exchanges st !! i = Some x /\ exchange_ok st i x /\ client x <> CSubmit.
Proof.
  intros HI Hc Hin. destruct (taken_pushed st c i k HI Hc Hin) as (x & Hi & Hp). exists x.
  split_and!; [done|by apply (inv_exchange _ HI)|]. intros E. by rewrite E in Hp.
Qed.

Lemma sent_set (st : State) (c i j : nat) (k k' : Connection) (x : Exchange) (bs : list nat) :
  connections st !! c = Some k -> sent k' = sent k ++ bs ->
  j ∈ all_sent (set_connection c k' (set_exchange i x st)) <-> j ∈ all_sent st \/ j ∈ bs.
Proof. intros Hc Hs. unfold all_sent. simpl. by apply (elem_of_concat_insert _ _ c k). Qed.

Lemma delivered_set (st : State) (c i j : nat) (k k' : Connection) (x : Exchange) (bs : list nat) :
  connections st !! c = Some k -> delivered k' = delivered k ++ bs ->
  j ∈ all_delivered (set_connection c k' (set_exchange i x st)) <-> j ∈ all_delivered st \/ j ∈ bs.
Proof. intros Hc Hs. unfold all_delivered. simpl. by apply (elem_of_concat_insert _ _ c k). Qed.

(** An exchange whose statuses and flags change. *)
Lemma exchange_ok_flags (st : State) (c i : nat) (k k' : Connection) (x x' : Exchange) :
  connections st !! c = Some k -> exchanges st !! i = Some x -> sent k' = sent k -> delivered k' = delivered k ->
  address x' = address x -> client x' = client x ->
  value (request_state x') = value (request_state x) -> value (response_state x') = value (response_state x) ->
  (closed (request_state x) = true -> closed (request_state x') = true) ->
  (closed (response_state x) = true -> closed (response_state x') = true) ->
  (closed (request_state x') = true -> ok (request_status x') = false) ->
  (closed (response_state x') = true -> ok (response_status x') = false) ->
  exchange_ok st i x -> exchange_ok (set_connection c k' (set_exchange i x' st)) i x'.
Proof.
  intros Hc Hi Hs Hd Ha Hcl Hvq Hvr Hq Hr Hq' Hr' (H1 & H2 & _ & _ & H5). unfold exchange_ok. rewrite Hvq, Hvr, Hcl.
  assert (i ∈ all_sent (set_connection c k' (set_exchange i x' st)) <-> i ∈ all_sent st) as Es.
  { rewrite (sent_set st c i i k k' x' []) by (done || by rewrite app_nil_r). rewrite elem_of_nil. tauto. }
  assert (i ∈ all_delivered (set_connection c k' (set_exchange i x' st)) <-> i ∈ all_delivered st) as Ed.
  { rewrite (delivered_set st c i i k k' x' []) by (done || by rewrite app_nil_r). rewrite elem_of_nil. tauto. }
  rewrite (bool_decide_ext _ _ Es), (bool_decide_ext _ _ Ed). split_and!; try done.
  destruct (client x) as [| |h| | |s]; try done.
  - by apply (is_for_set_exchange st i i h x x').
  - by apply Es.
  - destruct (ok s); [by rewrite Es, Ed|]. destruct H5; auto.
Qed.

Lemma requests_inv (st : State) (c : nat) (k : Connection) (e : Env) :
  Inv st -> connections st !! c = Some k -> Inv (process_requests_step c k e st).
Proof.
  intros HI Hc. pose proof (inv_conn _ HI c k Hc) as [(u & v & Ht & Hp & Hh) [Hs Hpa]].
  destruct (requests k) as [cn|i cn|i|i s|i|i|i|i| |] eqn:E; simpl in Hh.
  - unfold process_requests_step. rewrite E. destruct (hosts st !! context_ k) as [[a [|i rest] tasks pc]|] eqn:Hh'; [done| |done].
    pose proof (pop_inv st c i k cn a rest tasks pc e HI Hc E Hh') as H. unfold process_requests_step in H. by rewrite E, Hh' in H.
  - destruct Hh as [-> ->]. destruct (held_exchange st c i k HI Hc) as (x & Hi & (Hv & _) & Hcl); [rewrite Ht; apply elem_of_app; right; by left|].
    rewrite bool_decide_eq_false_2 in Hv by (by eapply held_not_sent).
    unfold process_requests_step. rewrite E, Hi. replace (value (request_state x)) with kInitialized by (by destruct (client x)).
    simpl. apply (conn_inv st c k); try done; [|by destruct cn].
    split; [|by split]. exists [i], []. by destruct cn.
  - destruct Hh as [-> ->]. unfold process_requests_step. rewrite E. apply (conn_inv st c k); try done; [|by destruct (ok _)].
    split; [|by split]. exists [i], []. simpl. by destruct (ok (open_connection e)) eqn:Eo.
  - destruct Hh as (-> & -> & Hs'). destruct (held_exchange st c i k HI Hc) as (x & Hi & Hx & Hcl); [rewrite Ht; apply elem_of_app; right; by left|].
    pose proof Hx as (_ & _ & Hq & Hr & _).
    unfold process_requests_step. rewrite E, Hi. pose proof (update_bad (request_status x) s Hs').
    apply (conn_exchange_inv st c i k _ x _ [] []); simpl; rewrite ?app_nil_r; try done; try (by intros ? ?%elem_of_nil).
    + split; [|by split]. by exists [i], [].
    + intros j [= ->]. by right.
    + intros j Hj. by left.
    + by apply (exchange_ok_flags st c i k _ x).
  - destruct Hh as [-> ->]. destruct (held_exchange st c i k HI Hc) as (x & Hi & Hx & Hcl); [rewrite Ht; apply elem_of_app; right; by left|].
    pose proof Hx as (_ & _ & Hq & Hr & _). pose proof (inv_qclose _ HI c k i x Hc E Hi) as Hbad.
    unfold process_requests_step. rewrite E, Hi.
    apply (conn_exchange_inv st c i k _ x _ [] []); simpl; rewrite ?app_nil_r; try done; try (by intros ? ?%elem_of_nil).
    + split; [|by split]. exists [i], []. simpl. split_and!; [done|done|by left|by eexists].
    + intros j Hj. by left.
    + by apply (exchange_ok_flags st c i k _ x).
  - destruct Hh as [-> ->]. unfold process_requests_step. rewrite E. apply (conn_inv st c k); try done.
    split; [|split; [done|]]; simpl.
    + exists [i], [i]. simpl. by rewrite Hp, app_nil_r.
    + by rewrite Hpa, app_assoc.
  - destruct Hh as [-> ->]. unfold process_requests_step. rewrite E. apply (conn_inv st c k); try done; [|by destruct (_ && _)].
    split; [|by split]. exists [i], [i]. simpl. destruct (_ && _); simpl; split_and!; try done; [by right|by eexists].
  - destruct Hh as [-> ->]. destruct (held_exchange st c i k HI Hc) as (x & Hi & Hx & Hcl); [rewrite Ht; apply elem_of_app; right; by left|].
    pose proof Hx as (Hv & Hw & Hq & Hr & Hcx).
    unfold process_requests_step. rewrite E, Hi.
    apply (conn_exchange_inv st c i k _ x _ [i] []); simpl; rewrite ?app_nil_r; try done; try (by intros ? ?%elem_of_nil).
    + split; [|by split]. exists [], []. simpl. by rewrite !app_nil_r.
    + by intros j ->%list_elem_of_singleton.
    + intros j Hj. by left.
    + set (k' := mkConnection _ _ _ _ _ _ _ _ _ _ _). set (x' := with_request _ _ x).
      pose proof (fun j => sent_set st c i j k k' x' [i] Hc eq_refl) as Es.
      assert (forall j, j ∈ all_delivered (set_connection c k' (set_exchange i x' st)) <-> j ∈ all_delivered st) as Ed.
      { intros j. rewrite (delivered_set st c i j k k' x' []) by (done || by rewrite app_nil_r). rewrite elem_of_nil. tauto. }
      unfold exchange_ok. rewrite bool_decide_eq_true_2 by (apply Es; right; by left). rewrite (bool_decide_ext _ _ (Ed i)).
      split_and!; try done; [simpl; by destruct (client x)|]. simpl. destruct (client x) as [| |h| | |s]; try done.
      * by apply (is_for_set_exchange st i i h x x').
      * apply Es. by left.
      * destruct (ok s); [|done]. rewrite Es, Ed. destruct Hcx. tauto.
  - unfold process_requests_step. rewrite E. apply (conn_inv st c k); try done. split; [|by split]. by exists u, v.
  - unfold process_requests_step. by rewrite E.
Qed.

Lemma requests_hold_cases (pc : RequestsPc) (u v : list nat) : requests_hold pc u v -> v = [] \/ v = u.
Proof. destruct pc; simpl; naive_solver. Qed.

Lemma answered_taken (k : Connection) (i : nat) : conn_ok k -> i ∈ answered k -> i ∈ taken k.
Proof.
  intros [(u & v & Ht & Hp & Hh) [_ Hpa]] Hi. assert (i ∈ pushed k) as Hi' by (rewrite Hpa; apply elem_of_app; by left).
  rewrite Hp, elem_of_app in Hi'. rewrite Ht, elem_of_app. destruct Hi' as [?|Hv]; [by left|right].
  apply requests_hold_cases in Hh as [->| ->]; [by apply elem_of_nil in Hv|done].
Qed.

Lemma responses_inv (st : State) (c : nat) (k : Connection) (e : Env) :
  Inv st -> connections st !! c = Some k -> Inv (process_responses_step c k e st).
Proof.
  intros HI Hc. pose proof (inv_conn _ HI c k Hc) as Hok. pose proof Hok as [Hs [(w & Ha & Hh) Hpa]].
  destruct (responses k) as [|i|i|i|i ka|i ka|i ka|ka| |] eqn:E; simpl in Hh;
    try (destruct (held_exchange st c i k HI Hc) as (x & Hi & Hx & Hcl);
      [by apply answered_taken; [|rewrite Ha, Hh; apply elem_of_app; right; left]|]);
    try (pose proof Hx as (Hv & Hw & Hq & Hr & Hcx)); unfold process_responses_step; rewrite E.
  - subst w. rewrite app_nil_r in Ha. destruct (response_queue_ k) as [|i rest] eqn:Er.
    + destruct (response_queue_closed k); [|done]. apply (conn_inv st c k); try done.
      split; [done|]. simpl. rewrite Er. split; [|done]. exists []. simpl. rewrite app_nil_r. split; [done|lia].
    + apply (conn_inv st c k); try done. split; [done|]. split; [exists [i]; simpl; by rewrite Ha|]. simpl. by rewrite Hpa, <- app_assoc.
  - subst w. destruct (response e) as [|[] ka]; apply (conn_inv st c k); try done.
    all: split; [done|split; [|done]]; exists [i]; simpl; split; done || lia.
  - subst w. rewrite Hi. pose proof (update_bad (response_status x) (StatusCode_to_Z kInvalidArgument) eq_refl) as Hu.
    apply (conn_exchange_inv st c i k _ x _ [] []); simpl; rewrite ?app_nil_r; try done; try (by intros ? ?%elem_of_nil).
    + split; [done|split; [by exists [i]|done]].
    + intros j Hj. by left.
    + intros j [= ->]. by right.
    + by apply (exchange_ok_flags st c i k _ x).
  - subst w. rewrite Hi. pose proof (inv_sclose _ HI c k i x Hc E Hi) as Hbad.
    apply (conn_exchange_inv st c i k _ x _ [] []); simpl; rewrite ?app_nil_r; try done; try (by intros ? ?%elem_of_nil).
    + split; [done|split; [|done]]. exists [i]. simpl. split; [done|lia].
    + intros j Hj. by left.
    + by apply (exchange_ok_flags st c i k _ x).
  - subst w. rewrite Hi.
    apply (conn_exchange_inv st c i k _ x _ [] [i]); simpl; rewrite ?app_nil_r; try done; try (by intros ? ?%elem_of_nil).
    + split; [done|split; [|done]]. exists []. simpl. by rewrite app_nil_r.
    + by intros j ->%list_elem_of_singleton.
    + intros j Hj. by left.
    + set (k' := mkConnection _ _ _ _ _ _ _ _ _ _ _). set (x' := with_response _ _ x).
      pose proof (fun j => delivered_set st c i j k k' x' [i] Hc eq_refl) as Ed.
      assert (forall j, j ∈ all_sent (set_connection c k' (set_exchange i x' st)) <-> j ∈ all_sent st) as Es.
      { intros j. rewrite (sent_set st c i j k k' x' []) by (done || by rewrite app_nil_r). rewrite elem_of_nil. tauto. }
      unfold exchange_ok. rewrite (bool_decide_eq_true_2 (i ∈ all_delivered _)) by (apply Ed; right; by left).
      rewrite (bool_decide_ext _ _ (Es i)). split_and!; try done. simpl. destruct (client x) as [| |h| | |s]; try done.
      * by apply (is_for_set_exchange st i i h x x').
      * by apply Es.
      * destruct (ok s); [|done]. rewrite Es, Ed. destruct Hcx. tauto.
  - subst w. apply (conn_inv st c k); try done; [|by destruct (message_consumed e)].
    split; [done|split; [|done]]. exists []. split; [done|]. destruct (message_consumed e); simpl; [done|lia].
  - subst w. apply (conn_inv st c k); try done. split; [done|split; [|done]]. by exists [].
  - subst w. destruct ka.
    + apply (conn_inv st c k); try done; [|by destruct (data_consumed e)].
      split; [done|split; [|done]]. exists []. split; [done|]. destruct (data_consumed e); simpl; [done|lia].
    + apply (conn_inv st c k); try done. split; [done|split; [|done]]. exists []. simpl. split; [done|lia].
  - apply (conn_inv st c k); try done. split; [done|split; [|done]]. by exists w.
  - done.
Qed.

Lemma http_step_inv (a : Actor) (e : Env) (st : State) : Inv st -> Inv (step a e st).
Proof.
  intros HI. destruct a as [i|h|c|c]; simpl.
  - destruct (exchanges st !! i) as [x|] eqn:Hi; [by apply client_inv|done].
  - destruct (hosts st !! h) as [host|] eqn:Hh; [by apply host_task_inv|done].
  - destruct (connections st !! c) as [k|] eqn:Hc; [by apply requests_inv|done].
  - destruct (connections st !! c) as [k|] eqn:Hc; [by apply responses_inv|done].
Qed.

Lemma http_run_inv (schedule : list (Actor * Env)) (st : State) : Inv st -> Inv (run schedule st).
Proof. revert st. induction schedule as [|ae schedule IH]; intros st HI; [done|]. by apply IH, http_step_inv. Qed.

Lemma http_initial_inv (ads : list HostAddress) : Inv (initial_state ads).
Proof.
  split; simpl; try done.
  - apply NoDup_nil_2.
  - intros i. unfold all_ids, pushed_at. simpl. rewrite cnt_nil, list_lookup_fmap. by destruct (ads !! i).
  - intros i x Hi. rewrite list_lookup_fmap in Hi. destruct (ads !! i) as [a|]; simplify_eq/=. split_and!; try done.
Qed.

(** A call that has returned ok has been sent and has got its response; one
    that has returned an error has been closed. *)
Definition outcome_ok (st : State) (i : nat) (x : Exchange) : Prop :=
  match client x with
  | CReturned s =>
      if ok s then i ∈ all_sent st /\ i ∈ all_delivered st
      else closed (request_state x) = true \/ closed (response_state x) = true
  | _ => True
  end.

(** C19: In every interleaving of calls of [http_request], host tasks and
    connections, and whatever the network does: no check fails; there is one
    host for each address and it has at most two connections; no request is
    lost from the queues or taken twice, and only connections of its host take
    it; a connection sends the requests in the order in which it takes them,
    and the responses that it reads go to these requests in the same order; and
    [http_request] returns ok only for a request that was sent and answered, an
    error only for one that has been refused. *)
Theorem http_host_correct (ads : list HostAddress) (schedule : list (Actor * Env)) :
  let st := run schedule (initial_state ads) in
  failed st = false /\
  NoDup (host_addresses st) /\
  (forall h host, hosts st !! h = Some host -> (length (connection_tasks_ host) <= 2)%nat) /\
  NoDup (all_ids st) /\
  (forall i, i ∈ all_ids st <-> pushed_at st i = true) /\
  (forall c k, connections st !! c = Some k ->
     (forall i, i ∈ taken k -> is_for st i (context_ k)) /\
     sent k `prefix_of` taken k /\ delivered k `prefix_of` pushed k /\ pushed k `prefix_of` taken k) /\
  (forall i x, exchanges st !! i = Some x -> outcome_ok st i x).
Proof.
  intros st. assert (Inv st) as HI by apply http_run_inv, http_initial_inv.
  assert (forall i, cnt (Nat.eqb i) (all_ids st) <= 1) as Hcnt by (intros i; rewrite (inv_ids _ HI); by destruct (pushed_at st i)).
  split_and!; try apply HI.
  - apply NoDup_alt. intros a b i Ha Hb. eapply (cnt_unique (Nat.eqb i)); [apply Hcnt|exact Ha|exact Hb|by apply Nat.eqb_refl..].
  - intros i. split.
    + intros Hi%cnt_elem. rewrite (inv_ids _ HI) in Hi. destruct (pushed_at st i); [done|simpl in Hi; lia].
    + intros Hp. pose proof (inv_ids _ HI i) as H. rewrite Hp in H.
      destruct (cnt_exists (Nat.eqb i) (all_ids st)) as (j & i' & Hj & E%Nat.eqb_eq); [simpl in H; lia|]. subst i'. by eapply list_elem_of_lookup_2.
  - intros c k Hc. pose proof (inv_conn _ HI c k Hc) as [(u & v & Ht & Hp & Hh) [(w & Ha & _) Hpa]]. split_and!.
    + intros i. by apply (inv_taken _ HI c).
    + rewrite Ht. by exists u.
    + rewrite Hpa, Ha, <- app_assoc. by eexists.
    + rewrite Ht, Hp. apply requests_hold_cases in Hh as [->| ->]; [rewrite app_nil_r; by exists u|done].
  - intros i x Hi. destruct (inv_exchange _ HI i x Hi) as (_ & _ & _ & _ & H). unfold outcome_ok. by destruct (client x).
Qed.

(** ** Progress *)

(** The network does its part: the connection opens, the request is taken, the
    server answers and keeps the connection, the application reads. *)
Definition good_env (e : Env) : Prop :=
  ok (open_connection e) = true /\ serialize_ok e = true /\ response e = Parsed true true /\
  message_consumed e = true /\ data_consumed e = true.

(** Then a connection stays in use. *)
Definition in_use (k : Connection) : Prop :=
  match requests k with QUpdate _ _ | QClose _ | QExit | QDone => False | _ => True end /\
  match responses k with
  | SInvalid _ | SClose _ | SExit | SDone => False
  | SInit _ ka | SMessage _ ka | SData _ ka | SEnd ka => ka = true
  | _ => True
  end /\
  socket_open k = true /\ response_queue_closed k = false.

Definition no_error (x : Exchange) : Prop :=
  closed (request_state x) = false /\ closed (response_state x) = false /\
  match client x with CReturned s => s = 0 | _ => True end.

(** A host that has seen work has a connection. *)
Definition attended (contexts : list nat) (h : nat) (host : Host) : Prop :=
  (connection_tasks_ host <> [] -> h ∈ contexts) /\
  match main host with HAwait (S _) => connection_tasks_ host <> [] | _ => True end.

Definition Live (st : State) : Prop :=
  Forall in_use (connections st) /\ Forall no_error (exchanges st) /\
  forall h host, hosts st !! h = Some host -> attended (context_ <$> connections st) h host.

Lemma live_connection (st : State) (c : nat) (k k' : Connection) :
  Live st -> connections st !! c = Some k -> context_ k' = context_ k -> in_use k' -> Live (set_connection c k' st).
Proof.
  intros (Hc & Hx & Hh) Hk Hctx Hk'. split_and!; simpl; [by apply Forall_insert|done|].
  by rewrite (fmap_insert_same context_ _ _ _ _ Hk Hctx).
Qed.

Lemma live_exchange (st : State) (i : nat) (x' : Exchange) : Live st -> no_error x' -> Live (set_exchange i x' st).
Proof. intros (Hc & Hx & Hh) Hx'. split_and!; simpl; [done|by apply Forall_insert|done]. Qed.

Lemma live_host (st : State) (h : nat) (host' : Host) :
  Live st -> attended (context_ <$> connections st) h host' -> Live (set_host h host' st).
Proof.
  intros (Hc & Hx & Hh) Hh'. split_and!; simpl; [done|done|]. intros g host Hg.
  destruct (decide (g = h)) as [->|Hne]; [|rewrite list_lookup_insert_ne in Hg by done; by apply Hh].
  apply list_lookup_insert_Some in Hg as [(_ & <- & _)|[? _]]; done.
Qed.

Lemma live_lookups (st : State) :
  Live st ->
  (forall c k, connections st !! c = Some k -> in_use k) /\ (forall i x, exchanges st !! i = Some x -> no_error x).
Proof.
  intros (Hc & Hx & _). split; intros j y Hy; [exact (Forall_lookup_1 _ _ _ _ Hc Hy)|exact (Forall_lookup_1 _ _ _ _ Hx Hy)].
Qed.

Lemma live_client (st : State) (i : nat) (x : Exchange) :
  Live st -> exchanges st !! i = Some x -> Live (http_request_step i x st).
Proof.
  intros HL Hi. pose proof (proj2 (live_lookups st HL) i x Hi) as (Hq & Hr & Hs).
  unfold http_request_step. destruct (client x) as [| |h| | |s] eqn:E.
  - by apply live_exchange.
  - unfold find_host. destruct (list_find _ _) as [[h host]|]; [by apply live_exchange|].
    apply live_exchange; [|done]. destruct HL as (HL1 & HL2 & HL3). split_and!; [done|done|].
    intros h host [Hh|[-> ->]]%lookup_snoc_cases; [by apply HL3|split; [by intros []|done]].
  - apply live_exchange; [|done]. unfold push_request. destruct (hosts st !! h) as [host|] eqn:Hh; [|done].
    apply live_host; [done|]. exact (proj2 (proj2 HL) h host Hh).
  - unfold await_equal. rewrite Hq. destruct (_ =? _); [|done]. by apply live_exchange.
  - unfold await_equal. rewrite Hr. destruct (_ =? _); [|done]. by apply live_exchange.
  - done.
Qed.

Lemma live_host_task (st : State) (h : nat) (host : Host) :
  Live st -> hosts st !! h = Some host -> Live (host_task_main_step h host st).
Proof.
  intros HL Hh. pose proof HL as (HL1 & HL2 & HL3). destruct (HL3 h host Hh) as [Ht Hd]. unfold host_task_main_step.
  destruct (main host) as [|d].
  - destruct (length (request_queue_ host)) as [|n] eqn:En; simpl; [by apply live_host|].
    unfold can_grow. simpl. destruct (Nat.ltb_spec (length (connection_tasks_ host)) kDefaultMaxConnections) as [Hlt|Hge].
    + unfold create_connection. apply live_host.
      * split_and!; simpl; [apply Forall_app; split; [done|by repeat constructor]|done|]. intros g host1 Hg.
        destruct (HL3 g host1 Hg) as [Ht1 Hd1]. split; [|done]. intros Hne. rewrite fmap_app. apply elem_of_app. left. by apply Ht1.
      * split; simpl; [|by destruct (connection_tasks_ host)]. intros _. rewrite fmap_app. apply elem_of_app. right. by left.
    + apply live_host; [done|]. split; simpl; [done|]. intros E. rewrite E in Hge. unfold kDefaultMaxConnections in Hge. simpl in Hge. lia.
  - destruct (_ =? _)%nat; [done|]. apply live_host; [done|]. by split.
Qed.

Lemma live_requests (st : State) (c : nat) (k : Connection) (e : Env) :
  Live st -> good_env e -> connections st !! c = Some k -> Live (process_requests_step c k e st).
Proof.
  intros HL (Ho & Hs & _) Hc. pose proof (live_lookups st HL) as [HLc HLx]. pose proof (HLc c k Hc) as (Hq & Hr & Hsk & Hcl).
  unfold process_requests_step. destruct (requests k) as [cn|i cn|i|i s|i|i|i|i| |] eqn:E; try done.
  - destruct (hosts st !! context_ k) as [[a [|i rest] tasks pc]|] eqn:Hh; [done| |done].
    apply live_host; [by apply (live_connection st c k)|]. simpl.
    rewrite (fmap_insert_same context_ _ _ _ _ Hc) by done. by apply (proj2 (proj2 HL) _ _ Hh).
  - destruct (exchanges st !! i) as [x|]; [|done]. destruct (_ =? _); [|done]. by apply (live_connection st c k); [| |destruct cn|destruct cn].
  - rewrite Ho. by apply (live_connection st c k).
  - by apply (live_connection st c k).
  - rewrite Hs, Hsk. by apply (live_connection st c k).
  - destruct (exchanges st !! i) as [x|] eqn:Hi; [|done]. apply (live_connection _ c k); try done. apply live_exchange; [done|].
    exact (HLx i x Hi).
Qed.

Lemma live_responses (st : State) (c : nat) (k : Connection) (e : Env) :
  Live st -> good_env e -> connections st !! c = Some k -> Live (process_responses_step c k e st).
Proof.
  intros HL (_ & _ & Hre & Hm & Hd) Hc. pose proof (live_lookups st HL) as [HLc HLx]. pose proof (HLc c k Hc) as (Hq & Hr & Hsk & Hcl).
  unfold process_responses_step. destruct (responses k) as [|i|i|i|i ka|i ka|i ka|ka| |] eqn:E; try done.
  - destruct (response_queue_ k) as [|i rest]; [by rewrite Hcl|]. by apply (live_connection st c k).
  - rewrite Hre. by apply (live_connection st c k).
  - destruct (exchanges st !! i) as [x|] eqn:Hi; [|done]. apply (live_connection _ c k); try done. apply live_exchange; [done|].
    exact (HLx i x Hi).
  - rewrite Hm. by apply (live_connection st c k).
  - by apply (live_connection st c k).
  - subst ka. rewrite Hd. by apply (live_connection st c k).
Qed.

Lemma live_run (schedule : list (Actor * Env)) (st : State) :
  Forall (fun ae => good_env ae.2) schedule -> Live st -> Live (run schedule st).
Proof.
  intros Hs. revert st. induction Hs as [|[a e] schedule He _ IH]; intros st HL; [done|]. apply IH. simpl in *. destruct a as [i|h|c|c]; simpl.
  - destruct (exchanges st !! i) eqn:Hi; [by apply live_client|done].
  - destruct (hosts st !! h) eqn:Hh; [by apply live_host_task|done].
  - destruct (connections st !! c) eqn:Hc; [by apply live_requests|done].
  - destruct (connections st !! c) eqn:Hc; [by apply live_responses|done].
Qed.

(** The number of steps that a part of the system can still take. *)
Definition client_rank (x : Exchange) : Z :=
  match client x with CSubmit => 28 | CFindHost => 27 | CPush _ => 19 | CAwaitRequest => 2 | CAwaitResponse => 1 | CReturned _ => 0 end.

Definition host_rank (host : Host) : Z :=
  14 * Z.of_nat (length (request_queue_ host)) + 3 * (Z.of_nat kDefaultMaxConnections - Z.of_nat (length (connection_tasks_ host))) +
  match main host with HLoop => 1 | HAwait d => if (length (request_queue_ host) =? d)%nat then 0 else 2 end.

Definition requests_rank (pc : RequestsPc) : Z :=
  match pc with
  | QTaken _ _ => 11 | QOpen _ => 10 | QPush _ => 9 | QUpdate _ _ => 3 | QClose _ => 2 | QSerialize _ => 2 | QConsumed _ => 1
  | QExit => 1 | QAwait _ | QDone => 0
  end.

(** A connection whose queue is closed can still end. *)
Definition responses_rank (pc : ResponsesPc) : Z :=
  match pc with
  | SAwait => 2 | SRead _ => 7 | SInvalid _ => 4 | SClose _ => 3 | SInit _ _ => 6 | SMessage _ _ => 5 | SData _ _ => 4 | SEnd _ => 3
  | SExit => 1 | SDone => 0
  end.

Definition connection_rank (k : Connection) : Z :=
  requests_rank (requests k) + responses_rank (responses k) + 6 * Z.of_nat (length (response_queue_ k)).

Definition measure (st : State) : Z :=
  sum (client_rank <$> exchanges st) + sum (host_rank <$> hosts st) + sum (connection_rank <$> connections st).

(** Nothing to do for now. *)
Definition waits (st : State) (a : Actor) : Prop :=
  match a with
  | Client i =>
      forall x, exchanges st !! i = Some x ->
      match client x with
      | CReturned _ => True
      | CAwaitRequest => await_equal kConsumed (request_state x) = None
      | CAwaitResponse => await_equal kInitialized (response_state x) = None
      | _ => False
      end
  | HostTask h => forall host, hosts st !! h = Some host -> main host = HAwait (length (request_queue_ host))
  | Requests c =>
      forall k, connections st !! c = Some k ->
      match requests k with
      | QDone => True
      | QAwait _ => forall host, hosts st !! context_ k = Some host -> request_queue_ host = []
      | _ => False
      end
  | Responses c =>
      forall k, connections st !! c = Some k ->
      match responses k with SDone => True | SAwait => response_queue_ k = [] /\ response_queue_closed k = false | _ => False end
  end.

Lemma measure_exchange (st : State) (i : nat) (x x' : Exchange) :
  exchanges st !! i = Some x -> measure (set_exchange i x' st) = measure st - client_rank x + client_rank x'.
Proof. intros Hi. unfold measure. simpl. rewrite (sum_insert _ _ _ _ _ Hi). lia. Qed.

Lemma measure_host (st : State) (h : nat) (host host' : Host) :
  hosts st !! h = Some host -> measure (set_host h host' st) = measure st - host_rank host + host_rank host'.
Proof. intros Hh. unfold measure. simpl. rewrite (sum_insert _ _ _ _ _ Hh). lia. Qed.

Lemma measure_connection (st : State) (c : nat) (k k' : Connection) :
  connections st !! c = Some k -> measure (set_connection c k' st) = measure st - connection_rank k + connection_rank k'.
Proof. intros Hc. unfold measure. simpl. rewrite (sum_insert _ _ _ _ _ Hc). lia. Qed.

(** A step changes nothing, and then the thread waits, or brings the end
    nearer; a failed check, which does not occur, is the third case. *)
Definition moves_on (st : State) (a : Actor) (st' : State) : Prop :=
  (st' = st /\ waits st a) \/ measure st' < measure st \/ failed st' = true.

Lemma client_moves (st : State) (i : nat) (x : Exchange) :
  exchanges st !! i = Some x -> moves_on st (Client i) (http_request_step i x st).
Proof.
  intros Hi. unfold http_request_step. destruct (client x) as [| |h| | |s] eqn:E.
  - right; left. rewrite (measure_exchange st i x) by done. unfold client_rank. rewrite E. simpl. lia.
  - right; left. unfold find_host. destruct (list_find _ _) as [[h host]|].
    + rewrite (measure_exchange st i x) by done. unfold client_rank. rewrite E. simpl. lia.
    + rewrite (measure_exchange _ i x) by done. unfold measure, client_rank. simpl. rewrite E, fmap_app, sum_app.
      change (sum (host_rank <$> [mkHost (address x) [] [] HLoop])) with 7. lia.
  - unfold push_request. destruct (hosts st !! h) as [host|] eqn:Hh; [|by right; right].
    right; left. rewrite (measure_exchange _ i x) by done. rewrite (measure_host st h host) by done.
    unfold client_rank, host_rank. rewrite E. simpl. rewrite length_app. simpl. destruct (main host); [lia|].
    destruct (_ =? _)%nat, (_ =? _)%nat; lia.
  - unfold await_equal. destruct (_ =? _) eqn:Ev; [|destruct (closed _) eqn:Ec].
    + right; left. rewrite (measure_exchange st i x) by done. unfold client_rank. rewrite E. simpl. lia.
    + right; left. rewrite (measure_exchange st i x) by done. unfold client_rank. rewrite E. simpl. lia.
    + left. split; [done|]. intros y Hy. simplify_eq. rewrite E. unfold await_equal. by rewrite Ev, Ec.
  - unfold await_equal. destruct (_ =? _) eqn:Ev; [|destruct (closed _) eqn:Ec].
    + right; left. rewrite (measure_exchange st i x) by done. unfold client_rank. rewrite E. simpl. lia.
    + right; left. rewrite (measure_exchange st i x) by done. unfold client_rank. rewrite E. simpl. lia.
    + left. split; [done|]. intros y Hy. simplify_eq. rewrite E. unfold await_equal. by rewrite Ev, Ec.
  - left. split; [done|]. intros y Hy. simplify_eq. by rewrite E.
Qed.

Lemma host_task_moves (st : State) (h : nat) (host : Host) :
  hosts st !! h = Some host -> moves_on st (HostTask h) (host_task_main_step h host st).
Proof.
  intros Hh. unfold host_task_main_step. destruct (main host) as [|d] eqn:E.
  - right; left. destruct (_ && _) eqn:Eg.
    + apply andb_true_iff in Eg as [_ Eg%Nat.ltb_lt]. simpl in Eg. unfold create_connection.
      rewrite (measure_host _ h host) by done. unfold measure, host_rank. simpl. rewrite E, fmap_app, sum_app, length_app, Nat.eqb_refl.
      change (sum (connection_rank <$> [new_connection h])) with 2. simpl. lia.
    + rewrite (measure_host _ h host) by done. unfold host_rank. simpl. rewrite E, Nat.eqb_refl. lia.
  - destruct (Nat.eqb_spec (length (request_queue_ host)) d) as [<-|Hne].
    + left. split; [done|]. intros host1 Hh1. by simplify_eq.
    + right; left. rewrite (measure_host _ h host) by done. unfold host_rank. simpl. rewrite E, (proj2 (Nat.eqb_neq _ _) Hne). lia.
Qed.

(** A connection moves on by itself. *)
Lemma connection_moves (st st' : State) (a : Actor) (c : nat) (k k' : Connection) :
  connections st !! c = Some k -> connections st' = connections st -> measure st' = measure st ->
  connection_rank k' < connection_rank k -> moves_on st a (set_connection c k' st').
Proof. intros Hc Hcs Hm Hr. right; left. rewrite (measure_connection st' c k) by (by rewrite Hcs). lia. Qed.

Lemma measure_exchange_same (st : State) (i : nat) (x x' : Exchange) :
  exchanges st !! i = Some x -> client x' = client x -> measure (set_exchange i x' st) = measure st.
Proof. intros Hi Hc. rewrite (measure_exchange st i x) by done. unfold client_rank. rewrite Hc. lia. Qed.

(** The exchange that a step changes is there, or the step fails. *)
Ltac exchange_there st i := destruct (exchanges st !! i) as [x|] eqn:Hi; [|by right; right].

Lemma requests_moves (st : State) (c : nat) (k : Connection) (e : Env) :
  connections st !! c = Some k -> moves_on st (Requests c) (process_requests_step c k e st).
Proof.
  intros Hc. unfold process_requests_step. destruct (requests k) as [cn|i cn|i|i s|i|i|i|i| |] eqn:E.
  2-9: try exchange_there st i; try (destruct (_ =? _); [|by right; right]);
    apply (connection_moves st _ _ c k); try done; try (by apply (measure_exchange_same st i x));
    unfold connection_rank; simpl; rewrite ?E, ?length_app; simpl; repeat case_match; simpl; lia.
  - destruct (hosts st !! context_ k) as [[a [|i rest] tasks pc]|] eqn:Hh.
    + left. split; [done|]. intros k1 Hk1. simplify_eq. rewrite E. intros host Hhost. by simplify_eq.
    + right; left. rewrite (measure_host _ (context_ k) (mkHost a (i :: rest) tasks pc)) by done. rewrite (measure_connection st c k) by done.
      unfold connection_rank, host_rank. simpl. rewrite E. simpl. destruct pc; [lia|]. repeat case_match; lia.
    + left. split; [done|]. intros k1 Hk1. simplify_eq. rewrite E. intros host Hhost. by simplify_eq.
  - left. split; [done|]. intros k1 Hk1. simplify_eq. by rewrite E.
Qed.

Lemma responses_moves (st : State) (c : nat) (k : Connection) (e : Env) :
  connections st !! c = Some k -> moves_on st (Responses c) (process_responses_step c k e st).
Proof.
  intros Hc. unfold process_responses_step. destruct (responses k) as [|i|i|i|i ka|i ka|i ka|ka| |] eqn:E.
  2-9: try exchange_there st i; repeat case_match; apply (connection_moves st _ _ c k); try done;
    try (by apply (measure_exchange_same st i x)); unfold connection_rank; simpl; rewrite ?E, ?length_app; simpl; lia.
  - destruct (response_queue_ k) as [|i rest] eqn:Er.
    + destruct (response_queue_closed k) eqn:Ecl.
      * apply (connection_moves st _ _ c k); try done. unfold connection_rank. simpl. rewrite E. simpl. lia.
      * left. split; [done|]. intros k1 Hk1. simplify_eq. by rewrite E.
    + apply (connection_moves st _ _ c k); try done. unfold connection_rank. simpl. rewrite E, Er. simpl. lia.
  - left. split; [done|]. intros k1 Hk1. simplify_eq. by rewrite E.
Qed.

Lemma step_moves (st : State) (a : Actor) (e : Env) : Inv st -> (step a e st = st /\ waits st a) \/ measure (step a e st) < measure st.
Proof.
  intros HI. assert (moves_on st a (step a e st)) as [H|[H|H]].
  - destruct a as [i|h|c|c]; simpl.
    + destruct (exchanges st !! i) eqn:Hi; [by apply client_moves|]. left. split; [done|]. intros x Hx. congruence.
    + destruct (hosts st !! h) eqn:Hh; [by apply host_task_moves|]. left. split; [done|]. intros x Hx. congruence.
    + destruct (connections st !! c) eqn:Hc; [by apply requests_moves|]. left. split; [done|]. intros x Hx. congruence.
    + destruct (connections st !! c) eqn:Hc; [by apply responses_moves|]. left. split; [done|]. intros x Hx. congruence.
  - by left.
  - by right.
  - rewrite (inv_failed _ (http_step_inv a e st HI)) in H. done.
Qed.

#[export] Instance Exchange_eq_dec : EqDecision Exchange.
Proof. assert (EqDecision Watch_) by solve_decision. assert (EqDecision ClientPc) by solve_decision. solve_decision. Defined.

#[export] Instance Connection_eq_dec : EqDecision Connection.
Proof. assert (EqDecision RequestsPc) by solve_decision. assert (EqDecision ResponsesPc) by solve_decision. solve_decision. Defined.

#[export] Instance Host_eq_dec : EqDecision Host.
Proof. assert (EqDecision HostPc) by solve_decision. solve_decision. Defined.

#[export] Instance State_eq_dec : EqDecision State.
Proof. solve_decision. Defined.

(** How many steps of a schedule change something. *)
Fixpoint moves (schedule : list (Actor * Env)) (st : State) : Z :=
  match schedule with
  | [] => 0
  | (a, e) :: rest => (if decide (step a e st = st) then 0 else 1) + moves rest (step a e st)
  end.

Lemma ranks_nonneg (st : State) : Inv st -> 0 <= measure st.
Proof.
  intros HI. unfold measure.
  assert (0 <= sum (client_rank <$> exchanges st)) by (apply sum_nonneg, list.Forall_forall; intros x _; unfold client_rank; destruct (client x); lia).
  assert (0 <= sum (connection_rank <$> connections st)).
  { apply sum_nonneg, list.Forall_forall. intros k _. unfold connection_rank. destruct (requests k), (responses k); simpl; lia. }
  assert (0 <= sum (host_rank <$> hosts st)); [|lia].
  apply sum_nonneg, list.Forall_forall. intros host [h Hh]%list_elem_of_lookup_1. pose proof (inv_max _ HI h host Hh) as Hm.
  unfold host_rank. destruct (main host); [lia|]. destruct (_ =? _)%nat; lia.
Qed.

Lemma moves_bound (schedule : list (Actor * Env)) (st : State) : Inv st -> moves schedule st + measure (run schedule st) <= measure st.
Proof.
  revert st. induction schedule as [|[a e] schedule IH]; intros st HI; simpl; [lia|].
  specialize (IH (step a e st) (http_step_inv a e st HI)).
  destruct (step_moves st a e HI) as [[Hs _]|Hm].
  - rewrite decide_True by done. rewrite Hs in IH |- *. lia.
  - destruct (decide _); lia.
Qed.

Lemma good_good : good_env good.
Proof. done. Qed.

(** A request that is still waited for when nobody has anything to do. *)
Lemma quiet_request (st : State) (i : nat) (x : Exchange) :
  Inv st -> Live st -> (forall a, waits st a) -> exchanges st !! i = Some x -> is_pushed (client x) = true -> i ∈ all_sent st.
Proof.
  intros HI HL Hw Hi Hp. pose proof (inv_ids _ HI i) as H. unfold pushed_at in H. rewrite Hi, Hp in H.
  destruct (cnt_exists (Nat.eqb i) (all_ids st)) as (j & i' & Hj & E%Nat.eqb_eq); [simpl in H; lia|]. subst i'.
  apply list_elem_of_lookup_2 in Hj. unfold all_ids in Hj. apply elem_of_app in Hj as [Hq|Hq].
  - exfalso. apply elem_of_concat_fmap in Hq as (h & host & Hh & Hin). pose proof (Hw (HostTask h) host Hh) as Hm.
    destruct (proj2 (proj2 HL) h host Hh) as [Ht Ha]. rewrite Hm in Ha.
    destruct (request_queue_ host) as [|i0 rest] eqn:Eq; [by apply elem_of_nil in Hin|]. simpl in Ha. apply Ht in Ha.
    apply list_elem_of_fmap in Ha as (k & -> & [c Hc]%list_elem_of_lookup_1). pose proof (Hw (Requests c) k Hc) as Hwk.
    destruct (proj1 (live_lookups st HL) c k Hc) as (Hu & _). destruct (requests k); try done. specialize (Hwk host Hh). by rewrite Eq in Hwk.
  - apply elem_of_concat_fmap in Hq as (c & k & Hc & Hin). apply elem_of_concat_fmap. exists c, k. split; [done|].
    pose proof (Hw (Requests c) k Hc) as Hwk. destruct (proj1 (live_lookups st HL) c k Hc) as (Hu & _).
    destruct (inv_conn _ HI c k Hc) as [(u & v & Ht & _ & Hh) _]. destruct (requests k); try done. destruct Hh as [-> _].
    by rewrite Ht, app_nil_r in Hin.
Qed.

Lemma quiet_response (st : State) (i : nat) :
  Inv st -> Live st -> (forall a, waits st a) -> i ∈ all_sent st -> i ∈ all_delivered st.
Proof.
  intros HI HL Hw (c & k & Hc & Hin)%elem_of_concat_fmap. apply elem_of_concat_fmap. exists c, k. split; [done|].
  pose proof (Hw (Responses c) k Hc) as Hwk. destruct (proj1 (live_lookups st HL) c k Hc) as (_ & Hr & _).
  destruct (inv_conn _ HI c k Hc) as [(u & v & _ & Hp & _) [(w & Ha & Hh) Hpa]].
  destruct (responses k); try done. destruct Hwk as [Hq _]. simpl in Hh. subst w. rewrite Hq, Ha, !app_nil_r in Hpa.
  rewrite <- Hpa, Hp. apply elem_of_app. by left.
Qed.

Lemma initial_measure (ads : list HostAddress) : measure (initial_state ads) = 28 * Z.of_nat (length ads).
Proof.
  unfold measure. change (sum (host_rank <$> hosts (initial_state ads))) with 0.
  change (sum (connection_rank <$> connections (initial_state ads))) with 0. simpl.
  induction ads as [|a ads IH]; [done|]. rewrite !fmap_cons, sum_cons. change (client_rank (new_exchange a)) with 28. cbn [length]. lia.
Qed.

(** C20: However the steps are interleaved and whatever the network does, the client
    comes to rest after at most 28 steps for each call; and when the network
    did its part, all calls have then returned ok. *)
Theorem http_request_returns (ads : list HostAddress) (schedule : list (Actor * Env)) :
  let st := run schedule (initial_state ads) in
  moves schedule (initial_state ads) <= 28 * Z.of_nat (length ads) /\
  (Forall (fun ae => good_env ae.2) schedule -> (forall a e, good_env e -> step a e st = st) ->
   forall i x, exchanges st !! i = Some x -> client x = CReturned 0).
Proof.
  intros st. pose proof (http_initial_inv ads) as H0. assert (Inv st) as HI by (by apply http_run_inv). split.
  - pose proof (moves_bound schedule _ H0) as Hm. pose proof (ranks_nonneg st HI) as Hn. unfold st in Hn.
    rewrite initial_measure in Hm. lia.
  - intros Hg Hs. assert (Live st) as HL.
    { apply live_run; [done|]. split_and!; [done| |done]. apply list.Forall_fmap, list.Forall_true. done. }
    assert (forall a, waits st a) as Hw.
    { intros a. destruct (step_moves st a good HI) as [[_ Hw]|Hm]; [done|]. rewrite (Hs a good good_good) in Hm. lia. }
    intros i x Hi. pose proof (Hw (Client i) x Hi) as Hx. destruct (inv_exchange _ HI i x Hi) as (Hq & Hr & _).
    destruct (proj2 (live_lookups st HL) i x Hi) as (_ & _ & Hret). destruct (client x) as [| |h| | |s] eqn:E; try done.
    + exfalso. assert (i ∈ all_sent st) as Hin by (apply (quiet_request st i x); try done; by rewrite E).
      rewrite bool_decide_eq_true_2 in Hq by done. unfold await_equal in Hx. by rewrite Hq in Hx.
    + exfalso. assert (i ∈ all_sent st) as Hin by (apply (quiet_request st i x); try done; by rewrite E).
      rewrite bool_decide_eq_true_2 in Hr by (by apply quiet_response). unfold await_equal in Hx. by rewrite Hr in Hx.
    + by subst s.
Qed.

(** ** Sample runs *)

(** Everybody takes [n] steps. *)
Definition everybody (clients hosts conns n : nat) (e : Env) : list (Actor * Env) :=
  concat (replicate n (((fun a => (a, e)) <$> (Client <$> seq 0 clients)) ++
    ((fun a => (a, e)) <$> (HostTask <$> seq 0 hosts)) ++
    concat ((fun c => [(Requests c, e); (Responses c, e)]) <$> seq 0 conns))).

Definition summary (st : State) : list ClientPc * list (list nat) * list (list nat) :=
  (client <$> exchanges st, request_queue_ <$> hosts st, delivered <$> connections st).

Definition example_host : HostAddress := mkAddress [] [] None.
Definition other_host : HostAddress := mkAddress [] [] (Some 8080).

Lemma everybody_env (P : Env -> Prop) (clients hosts conns n : nat) (e : Env) :
  P e -> Forall (fun ae => P ae.2) (everybody clients hosts conns n e).
Proof.
  intros He. unfold everybody. induction n as [|n IH]; simpl; [done|]. rewrite !Forall_app. split_and!; [| | |exact IH].
  - by apply list.Forall_fmap, list.Forall_true.
  - by apply list.Forall_fmap, list.Forall_true.
  - generalize (seq 0 conns). intros l. induction l as [|c l IHl]; simpl; [done|]. by repeat constructor.
Qed.

(** Four calls, three of them to one host. *)
Definition four_calls : State :=
  run (everybody 4 2 4 40 good) (initial_state [example_host; other_host; example_host; example_host]).

Example four_calls_summary :
  summary four_calls = ([CReturned 0; CReturned 0; CReturned 0; CReturned 0], [[]; []], [[0; 3]; [1]; [2]]%nat).
Proof. vm_compute. reflexivity. Qed.

Lemma http_request_returns_witness :
  moves (everybody 4 2 4 40 good) (initial_state [example_host; other_host; example_host; example_host]) <= 112 /\
  forall i x, exchanges four_calls !! i = Some x -> client x = CReturned 0.
Proof.
  pose proof (http_request_returns [example_host; other_host; example_host; example_host] (everybody 4 2 4 40 good)) as [Hm Hr].
  split; [exact Hm|]. apply Hr.
  - by apply everybody_env.
  - intros [[|[|[|[|i]]]]|[|[|h]]|[|[|[|c]]]|[|[|[|c]]]] e He; vm_compute; reflexivity.
Defined.

(** The client does nothing more, whatever happens. *)
Definition stuck (st : State) : Prop := forall a e, step a e st = st.

(** When the request cannot be written, [http_request] does not return. *)
Example write_error :
  let st := run (everybody 1 1 1 40 (mkEnv (inr [false; true]) false (Parsed true true) true true)) (initial_state [example_host]) in
  stuck st /\ client <$> exchanges st = [CAwaitRequest].
Proof. split; [|done]. intros [[|i]|[|h]|[|c]|[|c]] e; vm_compute; reflexivity. Qed.

(** Nor does it when no response can be read. *)
Example read_error :
  let st := run (everybody 1 1 1 40 (mkEnv (inr [false; true]) true ReadError true true)) (initial_state [example_host]) in
  client <$> exchanges st = [CAwaitResponse] /\ responses <$> connections st = [SDone].
Proof. done. Qed.

(** A connection that the server closes after a response still takes a request,
    which gets lost; and it is not replaced: once a host has had two, further
    requests stay on its queue. *)
Definition one_each : Env := mkEnv (inr [false; true]) true (Parsed true false) true true.

Example closed_connections :
  let st := run (everybody 5 1 2 40 one_each) (initial_state (replicate 5 example_host)) in
  stuck st /\
  client <$> exchanges st = [CReturned 0; CReturned 0; CAwaitRequest; CAwaitRequest; CAwaitRequest] /\
  taken <$> connections st = [[0; 2]; [1; 3]]%nat /\ request_queue_ <$> hosts st = [[4]]%nat.
Proof. split; [|done]. intros [[|[|[|[|[|i]]]]]|[|h]|[|[|c]]|[|[|c]]] e; vm_compute; reflexivity. Qed.

(** A header that is given once is sent twice, and the fragment of the URL is
    sent to the server. *)
Example request_context_example (hdr : MessageHeader) :
  let url := mkUrl [] [] [] None ["/"%char] [] ["f"%char] in
  let m := RequestContext.message_ (RequestContext.request_context [] url [RequestContext.PHeader hdr]) in
  headers m = [hdr; hdr] /\ HttpParser.path m = [47; 35; 102].
Proof. done. Qed.
