(* ===== verification/StreamUtil.v ===== *)
(** * Printing and reading text

    [stream_util.hpp] (with [constants.hpp]): escaped string literals, hex
    dumps, sizes printed with units and read back, ranges, and
    [from_string<bool>].  A stream is the list of the characters written to
    it. *)

From Stdlib Require Import Ascii String.
From S2P Require Import Prelude Status UrlParse.
Open Scope Z_scope.

(** ** Escaped string literals *)

(* @ src/batteries/stream_util.hpp 205-206 operator<< *)
Definition xdigit (n : Z) : ascii := if n <? 10 then ascii_of_nat (Z.to_nat (48 + n)) else ascii_of_nat (Z.to_nat (87 + n)).

(* @ src/batteries/stream_util.hpp 208-210 operator<< *)
Definition emit_hex_ascii (c : Z) : chars :=
  ["\"; "x"]%char ++ [xdigit (Z.land (Z.shiftr c 4) 15); xdigit (Z.land c 15)].

Definition bs (c : ascii) : chars := ["\"%char; c].

(** What one character is printed as. *)
(* @ src/batteries/stream_util.hpp 219-298 operator<< *)
Definition escape_char (ch : ascii) : chars :=
  let c := code ch in
  let low := Z.land c 15 in
  if negb (Z.land c 128 =? 0) then emit_hex_ascii c
  else
    let high := Z.land c 112 in
    if high =? 0 then
      if low =? 0 then bs "0"
      else if low =? 7 then bs "a"
      else if low =? 8 then bs "b"
      else if low =? 9 then bs "t"
      else if low =? 10 then bs "n"
      else if low =? 11 then bs "v"
      else if low =? 12 then bs "f"
      else if low =? 13 then bs "r"
      else emit_hex_ascii c
    else if high =? 16 then if low =? 11 then bs "e" else emit_hex_ascii c
    else if high =? 32 then if low =? 2 then bs (ascii_of_nat 34) else [ch]
    else if high =? 80 then if low =? 12 then bs "\" else [ch]
    else if high =? 112 then if low =? 15 then str "\x7f" else [ch]
    else [ch].

(** The loop: at the character of index [i]. *)
(* @ src/batteries/stream_util.hpp 213-300 operator<< *)
Fixpoint escape_from (max_show_length : Z) (length_ i : Z) (s : chars) : chars :=
  match s with
  | [] => [ascii_of_nat 34]
  | ch :: s =>
      if max_show_length <? i then ascii_of_nat 34 :: str "...(" ++ print_nat 20 (length_ - i) ++ str " skipped chars)"
      else escape_char ch ++ escape_from max_show_length length_ (i + 1) s
  end.

(** [is_upper_bound]: whether the string is [StringUpperBound()] itself. *)
(* @ src/batteries/stream_util.hpp 199-301 operator<< *)
Definition escape (max_show_length : Z) (is_upper_bound : bool) (s : chars) : chars :=
  if is_upper_bound then ascii_of_nat 34 :: str "\xff" ++ ascii_of_nat 34 :: str "..."
  else ascii_of_nat 34 :: escape_from max_show_length (Z.of_nat (length s)) 0 s.

(** ** Hex dumps *)

(** [out << std::hex << std::setw(w) << std::setfill('0') << n] *)
Fixpoint hex (w : nat) (n : Z) : chars :=
  match w with O => [] | S w => hex w (n / 16) ++ [xdigit (n mod 16)] end.

Definition newline : ascii := ascii_of_nat 10.

(** The offsets have eight digits as long as they fit. *)
(* @ src/batteries/stream_util.hpp 314-324 operator<< *)
Fixpoint hex_dump_from (i : Z) (bytes : chars) : chars :=
  match bytes with
  | [] => []
  | b :: bytes =>
      (if i mod 16 =? 0 then hex 8 i ++ str ": " else []) ++ hex 2 (Z.land (code b) 255) ++
      (if i mod 16 =? 15 then [newline] else if i mod 2 =? 1 then str " " else []) ++
      hex_dump_from (i + 1) bytes
  end.

(* @ src/batteries/stream_util.hpp 303-331 HexByteDumper, operator<<, dump_hex *)
Definition hex_dump (bytes : chars) : chars := newline :: hex_dump_from 0 bytes.

(** ** Sizes *)

(* @ src/batteries/constants.hpp 16-21 kKB .. kEB *)
Definition kKB : Z := 1000.
Definition kMB : Z := 1000 * kKB.
Definition kGB : Z := 1000 * kMB.
Definition kTB : Z := 1000 * kGB.
Definition kPB : Z := 1000 * kTB.
Definition kEB : Z := 1000 * kPB.

(* @ src/batteries/constants.hpp 23-28 kKiB .. kEiB *)
Definition kKiB : Z := 1024.
Definition kMiB : Z := 1024 * kKiB.
Definition kGiB : Z := 1024 * kMiB.
Definition kTiB : Z := 1024 * kGiB.
Definition kPiB : Z := 1024 * kTiB.
Definition kEiB : Z := 1024 * kPiB.

(* @ src/batteries/stream_util.hpp 408-416 SizeDumper *)
Record SizeDumper : Type := mkSize { value : Z; exact_ : bool }.

(* @ src/batteries/stream_util.hpp 338-341 SizeDumper::UnitBase *)
Inductive UnitBase : Type := kLog2 | kLog10.

(* @ src/batteries/stream_util.hpp 376-403 SizeDumper::format *)
Definition units (base : UnitBase) : list (Z * chars) :=
  match base with
  | kLog2 =>
      [(kEiB, str "EiB"); (kPiB, str "PiB"); (kTiB, str "TiB"); (kGiB, str "GiB"); (kMiB, str "MiB"); (kKiB, str "KiB");
       (1, str "B")]
  | kLog10 =>
      [(kEB, str "EB"); (kPB, str "PB"); (kTB, str "TB"); (kGB, str "GB"); (kMB, str "MB"); (kKB, str "KB"); (1, str "B")]
  end.

Record Formatted : Type := mkFormatted { text : chars; parts : Z; ord : Z; error : Z }.

(* @ src/batteries/stream_util.hpp 355-374 SizeDumper::format *)
Fixpoint format_impl (exact : bool) (us : list (Z * chars)) (first_part : bool) (n unit_ord : Z) (f : Formatted) : Formatted :=
  match us with
  | [] => f
  | (div, unit_str) :: us =>
      let q := n / div in
      let r := n mod div in
      if negb (q =? 0) || ((div =? 1) && first_part) then
        let f := mkFormatted (text f ++ (if first_part then [] else str "+") ++ print_nat 20 q ++ unit_str)
                   (parts f + 1) (if first_part then unit_ord else ord f) (error f) in
        if negb exact then mkFormatted (text f) (parts f) (ord f) r
        else format_impl exact us false r (unit_ord - 1) f
      else format_impl exact us first_part r (unit_ord - 1) f
  end.

(* @ src/batteries/stream_util.hpp 343-406 SizeDumper::format *)
Definition format (t : SizeDumper) (base : UnitBase) : Formatted :=
  format_impl (exact_ t) (units base) true (value t) 7 (mkFormatted [] 0 0 0).

(* @ src/batteries/stream_util.hpp 418-435 operator<< *)
Definition print_size (t : SizeDumper) : chars :=
  let base2 := format t kLog2 in
  let base10 := format t kLog10 in
  if (parts base10 <? parts base2)
     || ((parts base10 =? parts base2)
         && ((ord base2 <? ord base10) || ((ord base2 =? ord base10) && (negb (error base2 =? 0) && (error base10 =? 0)))))
  then (if error base10 =? 0 then [] else str "~") ++ text base10
  else (if error base2 =? 0 then [] else str "~") ++ text base2.

(* @ src/batteries/stream_util.hpp 437-451 dump_size, dump_size_exact *)
Definition dump_size (n : Z) : chars := print_size (mkSize n false).
Definition dump_size_exact (n : Z) : chars := print_size (mkSize n true).

(** ** Reading a size *)

Definition is_alpha (c : ascii) : bool :=
  ((97 <=? code c) && (code c <=? 122)) || ((65 <=? code c) && (code c <=? 90)).

(** [std::tolower], in the "C" locale. *)
Definition tolower (c : ascii) : Z := if (65 <=? code c) && (code c <=? 90) then code c + 32 else code c.

(* @ src/batteries/stream_util.hpp 512-534 parse_byte_size *)
Definition unit_value (s : chars) : Z :=
  match s with
  | [] => 1
  | c :: _ =>
      let l := tolower c in
      if l =? 98 then 1 else if l =? 107 then kKiB else if l =? 109 then kMiB else if l =? 103 then kGiB
      else if l =? 116 then kTiB else if l =? 112 then kPiB else if l =? 101 then kEiB else 1
  end.

(* @ src/batteries/stream_util.hpp 535-538 parse_byte_size *)
Fixpoint skip_alpha (s : chars) : chars :=
  match s with c :: s' => if is_alpha c then skip_alpha s' else s | [] => [] end.

(** The loop, and the call that the text behind a minus sign is read with.
    [std::from_chars] fails when there are no digits and when the number does
    not fit.  Each round takes a character, so the length is enough fuel
    ([parse_loop_fuel]). *)
(* @ src/batteries/stream_util.hpp 481-550 parse_byte_size *)
Fixpoint parse_loop (fuel : nat) (s : chars) (result_value : Z) (have_result : bool) : option Z :=
  match fuel with
  | O => None
  | S fuel =>
      match s with
      | [] => Some result_value
      | c :: s' =>
          if Ascii.eqb c "+" then parse_loop fuel s' result_value have_result
          else if Ascii.eqb c "-" then
            if negb have_result then None
            else
              match (match s' with [] => None | _ => parse_loop fuel s' 0 false end) with
              | None => None
              | Some delta => Some (u64 (result_value - delta))
              end
          else
            let '(num_value, count, s) := read_digits 0 0 s in
            if (count =? 0)%nat || (u64_max <? num_value) then None
            else
              let unit_value := unit_value s in
              let s := skip_alpha s in
              let result_value := u64 (result_value + u64 (num_value * unit_value)) in
              match s with
              | c :: _ => if negb (Ascii.eqb c "+") && negb (Ascii.eqb c "-") then None else parse_loop fuel s result_value true
              | [] => parse_loop fuel s result_value true
              end
      end
  end.

(* @ src/batteries/stream_util.hpp 472-551 parse_byte_size *)
Definition parse_byte_size (s : chars) : option Z :=
  match s with [] => None | _ => parse_loop (S (length s)) s 0 false end.

(** ** [from_string<bool>] *)

(** [iss >> val] of an [int]: the number is read as a [long] first. *)
Definition extract_i32 (s : chars) : option Z * bool * bool :=
  let '(stored, fail, eof) := extract_i64 s in
  match stored with
  | Some v =>
      if v <? - 2 ^ 31 then (Some (- 2 ^ 31), true, eof)
      else if 2 ^ 31 - 1 <? v then (Some (2 ^ 31 - 1), true, eof) else (Some v, fail, eof)
  | None => (None, fail, eof)
  end.

(* @ src/batteries/stream_util.hpp 104-114 from_string_impl *)
Definition from_string_int (uninit : Z) (s : chars) : option Z :=
  let '(stored, fail, eof) := extract_i32 s in
  let val := match stored with Some v => v | None => uninit end in
  if negb (fail || eof) || eof then Some val else None.

Definition to_lower_copy (s : chars) : chars := (fun c => ascii_of_nat (Z.to_nat (tolower c))) <$> s.

(** An [std::optional<int>] without a value is different from 0. *)
(* @ src/batteries/stream_util.hpp 118-123 from_string_impl *)
Definition from_string_bool (uninit : Z) (s : chars) : option bool :=
  Some (bool_decide (to_lower_copy s = str "true") || negb (bool_decide (from_string_int uninit s = Some 0))).

Example bool_false : from_string_bool 0 (str "false") = Some true /\ from_string_bool 0 (str "0") = Some false.
Proof. by vm_compute. Qed.

(** ** Ranges *)

(** An item prints itself, or is a range. *)
Inductive Item : Type := Leaf (s : chars) | Range (items : list Item).

(* @ src/batteries/stream_util.hpp 572-572 Pretty *)
Inductive Pretty : Type := PTrue | PFalse | PDefault.

(** The thread's [range_dump_pretty] and [range_dump_depth]. *)
(* @ src/batteries/stream_util.hpp 582-592 detail::range_dump_pretty, detail::range_dump_depth *)
Record DumpState : Type := mkDump { range_dump_pretty : Pretty; range_dump_depth : nat }.

(* @ src/batteries/stream_util.hpp 634-637 pretty_print_indent *)
Definition pretty_print_indent (d : DumpState) : chars := repeat " "%char (range_dump_depth d * 2).

(* @ src/batteries/stream_util.hpp 653-687 RangeDumper, operator<< *)
Fixpoint dump_item (pretty_ : Pretty) (d : DumpState) (x : Item) : chars * DumpState :=
  match x with
  | Leaf s => (s, d)
  | Range items =>
      let save_pretty := range_dump_pretty d in
      let pretty := match pretty_ with
                    | PDefault => match save_pretty with PTrue => true | _ => false end
                    | PTrue => true
                    | PFalse => false
                    end in
      let indent := pretty_print_indent d in
      let d := mkDump (if pretty then PTrue else PFalse) (S (range_dump_depth d)) in
      let head := str "{ " ++ (if pretty && negb (match items with [] => true | _ => false end) then newline :: indent else []) in
      let '(body, d) :=
        (fix dump_all (d : DumpState) (items : list Item) : chars * DumpState :=
           match items with
           | [] => ([], d)
           | item :: items =>
               let '(s, d) := dump_item PDefault d item in
               let '(rest, d) := dump_all d items in
               ((if pretty then str "  " else []) ++ s ++ str ", " ++ (if pretty then newline :: indent else []) ++ rest, d)
           end) d items in
      (head ++ body ++ str "}", mkDump save_pretty (range_dump_depth d - 1))
  end.

(* @ src/batteries/stream_util.hpp 690-694 dump_range *)
Definition dump_range (items : list Item) (pretty : Pretty) (d : DumpState) : chars * DumpState := dump_item pretty d (Range items).

(** ** Reading an escaped literal back *)

Definition quote : ascii := ascii_of_nat 34.

Definition unhex (c : ascii) : Z := if is_digit c then code c - 48 else code c - 87.

Definition unescape_letter (c : ascii) : ascii :=
  if Ascii.eqb c "0" then ascii_of_nat 0 else if Ascii.eqb c "a" then ascii_of_nat 7
  else if Ascii.eqb c "b" then ascii_of_nat 8 else if Ascii.eqb c "t" then ascii_of_nat 9
  else if Ascii.eqb c "n" then ascii_of_nat 10 else if Ascii.eqb c "v" then ascii_of_nat 11
  else if Ascii.eqb c "f" then ascii_of_nat 12 else if Ascii.eqb c "r" then ascii_of_nat 13
  else if Ascii.eqb c "e" then ascii_of_nat 27 else c.

(** A reader for which an [\x] takes two digits; in a C literal it takes all
    that follow. *)
Fixpoint unescape (s : chars) : option chars :=
  match s with
  | [] => None
  | c :: s1 =>
      if Ascii.eqb c quote then match s1 with [] => Some [] | _ => None end
      else if Ascii.eqb c "\" then
        match s1 with
        | [] => None
        | e :: s2 =>
            if Ascii.eqb e "x" then
              match s2 with
              | h :: l :: s3 => cons (ascii_of_nat (Z.to_nat (16 * unhex h + unhex l))) <$> unescape s3
              | _ => None
              end
            else cons (unescape_letter e) <$> unescape s2
        end
      else cons c <$> unescape s1
  end.

Definition printable (c : ascii) : bool := (32 <=? code c) && (code c <=? 126).

(** The three shapes of an escaped character. *)
Definition well_escaped (ch : ascii) : bool :=
  forallb printable (escape_char ch) &&
  match escape_char ch with
  | [c] => Ascii.eqb c ch && negb (Ascii.eqb c quote) && negb (Ascii.eqb c "\")
  | [b; e] => Ascii.eqb b "\" && negb (Ascii.eqb e "x") && Ascii.eqb (unescape_letter e) ch
  | [b; x; h; l] => Ascii.eqb b "\" && Ascii.eqb x "x" && Ascii.eqb (ascii_of_nat (Z.to_nat (16 * unhex h + unhex l))) ch
  | _ => false
  end.

Lemma all_well_escaped (ch : ascii) : well_escaped ch = true.
Proof. destruct ch as [[] [] [] [] [] [] [] []]; vm_compute; reflexivity. Qed.

Lemma escape_char_spec (ch : ascii) :
  forallb printable (escape_char ch) = true /\
  forall rest, unescape (escape_char ch ++ rest) = cons ch <$> unescape rest.
Proof.
  pose proof (all_well_escaped ch) as H. unfold well_escaped in H. apply andb_true_iff in H as [H1 H]. split; [done|]. clear H1.
  intros rest. destruct (escape_char ch) as [|a [|b [|c [|d [|]]]]]; try done; apply andb_true_iff in H as [H H3]; apply andb_true_iff in H as [H1 H2].
  - apply Ascii.eqb_eq in H1 as ->. apply negb_true_iff in H2, H3. cbn [app unescape]. by rewrite H2, H3.
  - apply Ascii.eqb_eq in H1 as ->, H3 as <-. apply negb_true_iff in H2. cbn [app unescape]. by rewrite H2.
  - apply Ascii.eqb_eq in H1 as ->, H2 as ->, H3 as <-. cbn [app unescape].
    change (Ascii.eqb "\" quote) with false. by rewrite !Ascii.eqb_refl.
Qed.

Lemma escape_from_spec (max length_ i : Z) (s : chars) :
  i + Z.of_nat (length s) <= max + 1 ->
  forallb printable (escape_from max length_ i s) = true /\ unescape (escape_from max length_ i s) = Some s.
Proof.
  revert i. induction s as [|ch s IH]; intros i Hi; cbn [escape_from length] in *; [by split|].
  replace (max <? i) with false by (symmetry; apply Z.ltb_ge; lia). destruct (escape_char_spec ch) as [H1 H2].
  destruct (IH (i + 1)) as [H3 H4]; [lia|]. rewrite forallb_app, H1, H3, H2, H4. done.
Qed.

(** An escaped literal is made of printable characters only, and reads back
    to exactly the string it shows, whatever bytes that has, as long as the
    string has at most [max_show_length + 1] characters. *)
Theorem escape_roundtrip (max_show_length : Z) (s : chars) :
  Z.of_nat (length s) <= max_show_length + 1 ->
  exists body, escape max_show_length false s = quote :: body /\
    forallb printable body = true /\ unescape body = Some s.
Proof.
  intros Hl. eexists. split; [reflexivity|]. by apply (escape_from_spec max_show_length (Z.of_nat (length s)) 0).
Qed.

Lemma escape_roundtrip_witness :
  exists body, escape 100 false (str "a" ++ [newline; ascii_of_nat 200]) = quote :: body /\
    forallb printable body = true /\ unescape body = Some (str "a" ++ [newline; ascii_of_nat 200]).
Proof. apply (escape_roundtrip 100). simpl. lia. Defined.

(** A longer string is cut after [max_show_length + 1] characters. *)
Lemma escape_cut (max length_ i : Z) (s : chars) :
  0 <= i <= max + 1 -> max + 1 - i < Z.of_nat (length s) ->
  escape_from max length_ i s =
  concat (escape_char <$> take (Z.to_nat (max + 1 - i)) s) ++
    quote :: str "...(" ++ print_nat 20 (length_ - (max + 1)) ++ str " skipped chars)".
Proof.
  revert i. induction s as [|ch s IH]; intros i Hi Hs; cbn [length] in Hs; [lia|]. cbn [escape_from].
  destruct (max <? i) eqn:E; bool_cases.
  - replace i with (max + 1) by lia. by rewrite Z.sub_diag.
  - rewrite (IH (i + 1)) by lia. replace (Z.to_nat (max + 1 - i)) with (S (Z.to_nat (max + 1 - (i + 1)))) by lia.
    cbn [take fmap list_fmap concat]. by rewrite <- app_assoc.
Qed.

(** ** Reading a hex dump back *)

Fixpoint undump (fuel : nat) (i : Z) (s : chars) : option chars :=
  match fuel with
  | O => None
  | S fuel =>
      match (if i mod 16 =? 0 then drop 10 s else s) with
      | [] => Some []
      | [_] => None
      | h :: l :: s =>
          let s := if (i mod 16 =? 15) || (i mod 2 =? 1) then drop 1 s else s in
          cons (ascii_of_nat (Z.to_nat (16 * unhex h + unhex l))) <$> undump fuel (i + 1) s
      end
  end.

Lemma hex_length (w : nat) (n : Z) : length (hex w n) = w.
Proof. revert n. induction w as [|w IH]; intros n; simpl; [done|]. rewrite length_app, IH. simpl. lia. Qed.

Lemma hex_byte (b : ascii) :
  exists h l, hex 2 (Z.land (code b) 255) = [h; l] /\ ascii_of_nat (Z.to_nat (16 * unhex h + unhex l)) = b.
Proof.
  exists (xdigit (code b / 16)), (xdigit (code b mod 16)). destruct b as [[] [] [] [] [] [] [] []]; split; vm_compute; reflexivity.
Qed.

Lemma undump_from (fuel : nat) (i : Z) (bytes : chars) :
  (length bytes < fuel)%nat -> undump fuel i (hex_dump_from i bytes) = Some bytes.
Proof.
  revert i bytes. induction fuel as [|fuel IH]; intros i bytes Hf; [lia|]. destruct bytes as [|b bytes]; cbn [undump hex_dump_from].
  { by destruct (i mod 16 =? 0). }
  cbn [length] in Hf. destruct (hex_byte b) as (h & l & -> & Hb).
  set (rest := hex_dump_from (i + 1) bytes). set (sep := if i mod 16 =? 15 then [newline] else if i mod 2 =? 1 then str " " else []).
  assert ((if i mod 16 =? 0 then drop 10 ((if i mod 16 =? 0 then hex 8 i ++ str ": " else []) ++ [h; l] ++ sep ++ rest)
    else (if i mod 16 =? 0 then hex 8 i ++ str ": " else []) ++ [h; l] ++ sep ++ rest) = [h; l] ++ sep ++ rest) as ->.
  { destruct (i mod 16 =? 0); [|done].
    assert (length (hex 8 i ++ str ": ") = 10%nat) as Hlen by (by rewrite length_app, hex_length).
    rewrite drop_app_ge by lia. by rewrite Hlen. }
  cbn [app]. assert ((if (i mod 16 =? 15) || (i mod 2 =? 1) then drop 1 (sep ++ rest) else sep ++ rest) = rest) as ->.
  { unfold sep. by destruct (i mod 16 =? 15), (i mod 2 =? 1). }
  unfold rest. rewrite IH by lia. cbn. by rewrite Hb.
Qed.

(** The hex dump of a block of bytes determines the block: each byte is
    shown once, in order, by two digits at the place that its offset gives. *)
Theorem hex_dump_roundtrip (bytes : chars) :
  exists body, hex_dump bytes = newline :: body /\ undump (S (length bytes)) 0 body = Some bytes.
Proof. eexists. split; [reflexivity|]. apply undump_from. lia. Qed.

(** ** The sizes that [parse_byte_size] reads

    A size expression, as the grammar of its text. *)

Inductive SizeExpr : Type :=
| SEnd
| SPlus (e : SizeExpr)
| SMinus (e : SizeExpr)
| STerm (digits letters : chars) (e : SizeExpr).

Fixpoint print_expr (e : SizeExpr) : chars :=
  match e with
  | SEnd => []
  | SPlus e => "+"%char :: print_expr e
  | SMinus e => "-"%char :: print_expr e
  | STerm digits letters e => digits ++ letters ++ print_expr e
  end.

(** [have]: whether a number has been read, without which a minus sign is
    refused; a number is followed by a sign or by the end. *)
Fixpoint wf_expr (have : bool) (e : SizeExpr) : bool :=
  match e with
  | SEnd => true
  | SPlus e => wf_expr have e
  | SMinus e => have && negb (is_nil (print_expr e)) && wf_expr false e
  | STerm digits letters e =>
      forallb is_digit digits && negb (is_nil digits) && (value_of 0 digits <=? u64_max) && forallb is_alpha letters &&
      (match e with STerm _ _ _ => false | _ => true end) && wf_expr true e
  end.

(** A minus sign negates all that follows it. *)
Fixpoint eval_expr (acc : Z) (e : SizeExpr) : Z :=
  match e with
  | SEnd => acc
  | SPlus e => eval_expr acc e
  | SMinus e => u64 (acc - eval_expr 0 e)
  | STerm digits letters e => eval_expr (u64 (acc + u64 (value_of 0 digits * unit_value letters))) e
  end.

Definition signed (s : chars) : bool := match s with c :: _ => Ascii.eqb c "+" || Ascii.eqb c "-" | [] => true end.

Lemma digit_not_alpha (c : ascii) : is_alpha c = true -> is_digit c = false.
Proof.
  unfold is_alpha, is_digit. intros H. apply andb_false_iff. destruct (48 <=? code c) eqn:E; [right|by left].
  apply Z.leb_gt. bool_cases. destruct H as [H|H]; bool_cases; lia.
Qed.

Lemma sign_not_digit (c : ascii) : Ascii.eqb c "+" || Ascii.eqb c "-" = true -> is_digit c = false /\ is_alpha c = false.
Proof. intros H. apply orb_true_iff in H as [->%Ascii.eqb_eq| ->%Ascii.eqb_eq]; by vm_compute. Qed.

Lemma read_digits_stop (acc : Z) (n : nat) (s : chars) :
  match s with c :: _ => is_digit c = false | [] => True end -> read_digits acc n s = (acc, n, s).
Proof. destruct s as [|c s]; simpl; [done|]. by intros ->. Qed.

Lemma skip_alpha_app (letters s : chars) :
  forallb is_alpha letters = true -> signed s = true -> skip_alpha (letters ++ s) = s.
Proof.
  intros Hl Hs. induction letters as [|c letters IH]; simpl in *.
  - destruct s as [|c s]; [done|]. simpl. by rewrite (proj2 (sign_not_digit c Hs)).
  - apply andb_true_iff in Hl as [-> Hl]. by apply IH.
Qed.

Lemma unit_value_app (letters s : chars) : signed s = true -> unit_value (letters ++ s) = unit_value letters.
Proof.
  intros Hs. destruct letters as [|c letters]; [|done]. destruct s as [|c s]; [done|]. simpl in Hs.
  apply orb_true_iff in Hs as [->%Ascii.eqb_eq| ->%Ascii.eqb_eq]; done.
Qed.

Lemma print_signed (e : SizeExpr) : (match e with STerm _ _ _ => false | _ => true end) = true -> signed (print_expr e) = true.
Proof. by destruct e. Qed.

Lemma parse_complete (e : SizeExpr) (fuel : nat) (acc : Z) (have : bool) :
  wf_expr have e = true -> (length (print_expr e) < fuel)%nat -> parse_loop fuel (print_expr e) acc have = Some (eval_expr acc e).
Proof.
  revert fuel acc have. induction e as [|e IH|e IH|ds ls e IH]; intros [|fuel] acc have Hwf Hf; try (simpl in Hf; lia).
  - done.
  - cbn [print_expr parse_loop]. cbn [wf_expr print_expr length] in *. apply IH; [done|lia].
  - cbn [wf_expr] in Hwf. apply andb_true_iff in Hwf as [Hwf Hw]. apply andb_true_iff in Hwf as [-> Hne].
    cbn [print_expr parse_loop negb eval_expr length] in *.
    change (Ascii.eqb "-" "+") with false. change (Ascii.eqb "-" "-") with true. cbn [negb].
    specialize (IH fuel 0 false Hw ltac:(lia)). destruct (print_expr e) as [|c s] eqn:Ep; [done|]. by rewrite IH.
  - cbn [wf_expr] in Hwf. apply andb_true_iff in Hwf as [Hwf Hw]. apply andb_true_iff in Hwf as [Hwf Hn].
    apply andb_true_iff in Hwf as [Hwf Hl]. apply andb_true_iff in Hwf as [Hwf Hm]. apply andb_true_iff in Hwf as [Hd Hne].
    pose proof (print_signed e Hn) as Hs. cbn [print_expr eval_expr] in *. destruct ds as [|d ds]; [done|].
    assert (is_digit d = true) as Hdd by (simpl in Hd; by bool_cases). destruct (digit_not_special d Hdd) as (_ & Hdm & Hdp & _).
    cbn [app parse_loop]. rewrite Hdm, Hdp. change (d :: ds ++ ls ++ print_expr e) with ((d :: ds) ++ ls ++ print_expr e).
    assert (match ls ++ print_expr e with c :: _ => is_digit c = false | [] => True end) as Hst.
    { destruct ls as [|l ls]; [|apply digit_not_alpha; simpl in Hl; by bool_cases].
      destruct (print_expr e) as [|c s]; [done|]. by apply sign_not_digit. }
    rewrite read_digits_app, read_digits_stop by done.
    cbn [Nat.add length Nat.eqb orb]. replace (u64_max <? value_of 0 (d :: ds)) with false by (symmetry; apply Z.ltb_ge; bool_cases; lia).
    rewrite unit_value_app, skip_alpha_app by done.
    assert (length (print_expr e) < fuel)%nat as Hf' by (rewrite !length_app in Hf; simpl in Hf; lia).
    specialize (IH fuel (u64 (acc + u64 (value_of 0 (d :: ds) * unit_value ls))) true Hw Hf').
    destruct (print_expr e) as [|c s]; [done|]. simpl in Hs. rewrite <- negb_orb, Hs. done.
Qed.

Lemma read_digits_inv (acc v : Z) (n k : nat) (s rest : chars) :
  read_digits acc n s = (v, k, rest) ->
  exists ds, s = ds ++ rest /\ forallb is_digit ds = true /\ k = (n + length ds)%nat /\ v = value_of acc ds.
Proof.
  revert acc n. induction s as [|c s IH]; intros acc n; simpl.
  - intros [= <- <- <-]. exists []. split_and!; [done|done|simpl; lia|done].
  - destruct (is_digit c) eqn:Ec.
    + intros H. destruct (IH _ _ H) as (ds & -> & Hd & -> & ->). exists (c :: ds). simpl. rewrite Ec. split_and!; [done|done|lia|done].
    + intros [= <- <- <-]. exists []. split_and!; [done|done|simpl; lia|done].
Qed.

Lemma skip_alpha_inv (s : chars) : exists ls, s = ls ++ skip_alpha s /\ forallb is_alpha ls = true.
Proof.
  induction s as [|c s IH]; [by exists []|]. simpl. destruct (is_alpha c) eqn:Ec; [|by exists []].
  destruct IH as (ls & Hs & Hl). exists (c :: ls). simpl. by rewrite Ec, <- Hs.
Qed.

Lemma term_unsigned (ds ls : chars) (e : SizeExpr) (have : bool) :
  wf_expr have (STerm ds ls e) = true -> signed (print_expr (STerm ds ls e)) = false.
Proof.
  cbn [wf_expr]. intros H. do 4 apply andb_true_iff in H as [H _]. apply andb_true_iff in H as [Hd Hne].
  destruct ds as [|d ds]; [done|]. simpl in *. apply andb_true_iff in Hd as [Hd _].
  destruct (digit_not_special d Hd) as (_ & -> & -> & _). done.
Qed.

Lemma parse_sound (fuel : nat) (s : chars) (acc v : Z) (have : bool) :
  parse_loop fuel s acc have = Some v ->
  exists e, wf_expr have e = true /\ print_expr e = s /\ eval_expr acc e = v.
Proof.
  revert s acc v have. induction fuel as [|fuel IH]; intros s acc v have; [done|]. cbn [parse_loop].
  destruct s as [|c s]; [intros [= <-]; by exists SEnd|].
  destruct (Ascii.eqb c "+") eqn:Ep.
  { apply Ascii.eqb_eq in Ep as ->. intros (e & H1 & H2 & H3)%IH. exists (SPlus e). cbn. by rewrite H2. }
  destruct (Ascii.eqb c "-") eqn:Em.
  { apply Ascii.eqb_eq in Em as ->. destruct have; [|done]. cbn [negb]. destruct s as [|c' s]; [done|].
    destruct (parse_loop fuel (c' :: s) 0 false) as [delta|] eqn:Ed; [|done]. intros [= <-].
    destruct (IH _ _ _ _ Ed) as (e & H1 & H2 & H3). exists (SMinus e). cbn [wf_expr print_expr eval_expr]. by rewrite H2, H3, H1. }
  destruct (read_digits 0 0 (c :: s)) as [[num count] rest] eqn:Er.
  destruct (read_digits_inv _ _ _ _ _ _ Er) as (ds & Hs & Hd & -> & ->).
  destruct ((0 + length ds =? 0)%nat || (u64_max <? value_of 0 ds)) eqn:Eb; [done|].
  apply orb_false_iff in Eb as [Eb1 Eb2]. destruct (skip_alpha_inv rest) as (ls & Hrest & Hl).
  set (acc' := u64 (acc + u64 (value_of 0 ds * unit_value rest))).
  intros H. assert (signed (skip_alpha rest) = true /\ parse_loop fuel (skip_alpha rest) acc' true = Some v) as [Hsg Hp].
  { destruct (skip_alpha rest) as [|c' s']; [done|]. rewrite <- negb_orb in H. simpl. by destruct (_ || _). }
  destruct (IH _ _ _ _ Hp) as (e & H1 & H2 & H3). exists (STerm ds ls e).
  assert (match e with STerm _ _ _ => false | _ => true end = true) as Hnt.
  { destruct e as [| | |ds' ls' e']; try done. apply term_unsigned in H1. congruence. }
  cbn [wf_expr print_expr eval_expr]. rewrite Hd, H1, Hl, Hnt, H2. split_and!.
  - destruct ds; [done|]. simpl is_nil. cbn [negb andb]. rewrite andb_true_r. replace (_ <=? u64_max) with true; [done|].
    symmetry. bool_cases. apply Z.leb_le. lia.
  - by rewrite Hs, <- Hrest.
  - rewrite <- H3. unfold acc'. rewrite Hrest at 1. by rewrite unit_value_app.
Qed.

(** [parse_byte_size] accepts exactly the texts of the grammar above: numbers
    that fit in 64 bits, each with letters of which the first chooses the
    unit, joined by signs, and returns their value modulo 2^64, in which a
    minus sign negates all that follows it. *)
Theorem parse_byte_size_grammar (s : chars) (v : Z) :
  parse_byte_size s = Some v <->
  s <> [] /\ exists e, wf_expr false e = true /\ print_expr e = s /\ eval_expr 0 e = v.
Proof.
  unfold parse_byte_size. split.
  - intros H. assert (s <> []) as Hne by (by destruct s). split; [done|]. destruct s; [done|]. by apply parse_sound in H.
  - intros (Hne & e & Hw & <- & <-). destruct (print_expr e) as [|c s] eqn:Ep; [done|]. rewrite <- Ep.
    apply parse_complete; [done|lia].
Qed.

(** [10k-2+1] is [10k-(2+1)]. *)
Lemma parse_byte_size_grammar_witness : parse_byte_size (str "10k-2+1") = Some 10237.
Proof.
  apply parse_byte_size_grammar. split; [done|].
  exists (STerm (str "10") (str "k") (SMinus (STerm (str "2") [] (SPlus (STerm (str "1") [] SEnd))))). by vm_compute.
Defined.

(** ** Printing a size and reading it back *)

(** The terms that [format] prints. *)
Fixpoint size_terms (us : list (Z * chars)) (first_part : bool) (n : Z) : list (Z * Z * chars) :=
  match us with
  | [] => []
  | (div, unit_str) :: us =>
      if negb (n / div =? 0) || ((div =? 1) && first_part) then (n / div, div, unit_str) :: size_terms us false (n mod div)
      else size_terms us first_part (n mod div)
  end.

Fixpoint terms_expr (ts : list (Z * Z * chars)) : SizeExpr :=
  match ts with
  | [] => SEnd
  | (q, _, u) :: ts => STerm (print_nat 20 q) u (match ts with [] => SEnd | _ => SPlus (terms_expr ts) end)
  end.

Definition tail_expr (ts : list (Z * Z * chars)) : SizeExpr := match ts with [] => SEnd | _ => SPlus (terms_expr ts) end.

Lemma terms_expr_cons (q d : Z) (u : chars) (ts : list (Z * Z * chars)) :
  terms_expr ((q, d, u) :: ts) = STerm (print_nat 20 q) u (tail_expr ts).
Proof. done. Qed.

Lemma format_exact (us : list (Z * chars)) (first : bool) (n unit_ord : Z) (f : Formatted) :
  text (format_impl true us first n unit_ord f) =
    text f ++ print_expr (if first then terms_expr (size_terms us first n) else tail_expr (size_terms us first n)) /\
  error (format_impl true us first n unit_ord f) = error f /\
  parts (format_impl true us first n unit_ord f) = parts f + Z.of_nat (length (size_terms us first n)).
Proof.
  revert first n unit_ord f. induction us as [|[div u] us IH]; intros first n unit_ord f; cbn [format_impl size_terms].
  { destruct first; cbn; rewrite app_nil_r; split_and!; try done; lia. }
  destruct (negb (n / div =? 0) || (div =? 1) && first); cbn [negb].
  - destruct (IH false (n mod div) (unit_ord - 1) (mkFormatted (text f ++ (if first then [] else str "+") ++ print_nat 20 (n / div) ++ u)
      (parts f + 1) (if first then unit_ord else ord f) (error f))) as (-> & -> & ->). cbn [text parts error length].
    split_and!; [|done|lia]. rewrite <- !app_assoc. f_equal.
    destruct first; [by rewrite terms_expr_cons|]. unfold tail_expr at 2. by rewrite terms_expr_cons.
  - destruct (IH first (n mod div) (unit_ord - 1) f) as (-> & -> & ->). done.
Qed.

(** *** The terms *)

Definition terms_value (f : Z * Z * chars -> Z) (ts : list (Z * Z * chars)) : Z := sum ((fun t => t.1.1 * f t) <$> ts).

Definition by_unit (t : Z * Z * chars) : Z := unit_value t.2.
Definition by_div (t : Z * Z * chars) : Z := t.1.2.

(** Letters for the unit, a number that fits, and the unit's value in bytes if
    it has one of the base. *)
Definition good_unit (u : Z * chars) : Prop := 0 < u.1 /\ forallb is_alpha u.2 = true.

Definition good_term (t : Z * Z * chars) : Prop :=
  0 <= t.1.1 <= u64_max /\ forallb is_alpha t.2 = true.

Lemma size_terms_good (us : list (Z * chars)) (first : bool) (n : Z) :
  Forall good_unit us -> 0 <= n <= u64_max ->
  Forall good_term (size_terms us first n) /\ Forall (fun t => (by_div t, t.2) ∈ us) (size_terms us first n).
Proof.
  intros Hus. revert first n. induction Hus as [|[div u] us [Hd Hu] Hus IH]; intros first n Hn; cbn [size_terms]; [done|].
  cbn in Hd, Hu. pose proof (Z.mod_pos_bound n div Hd). pose proof (Z.mod_le n div ltac:(lia) Hd).
  assert (0 <= n / div <= n) as Hq by (split; [apply Z.div_pos; lia|apply Z.div_le_upper_bound; nia]).
  assert (forall b, Forall good_term (size_terms us b (n mod div)) /\ Forall (fun t => (by_div t, t.2) ∈ (div, u) :: us) (size_terms us b (n mod div))) as Hrest.
  { intros b. destruct (IH b (n mod div)) as [H1 H2]; [lia|]. split; [done|]. eapply Forall_impl; [done|]. intros t Ht. by right. }
  destruct (_ || _); [|apply Hrest]. destruct (Hrest false) as [H1 H2]. split; (constructor; [|done]); [by split; cbn; [lia|]|by left].
Qed.

(** With a last unit of 1 the terms add up to the whole size. *)
Lemma size_terms_sum (us : list (Z * chars)) (u : chars) (first : bool) (n : Z) :
  0 <= n -> Forall good_unit us -> terms_value by_div (size_terms (us ++ [(1, u)]) first n) = n.
Proof.
  intros Hn Hus. revert first n Hn. induction Hus as [|[div v] us [Hd _] Hus IH]; intros first n Hn; cbn [app size_terms].
  - rewrite Z.div_1_r. unfold terms_value.
    destruct (n =? 0) eqn:E; destruct first; cbn -[Z.mul sum];
      bool_cases; unfold sum; cbn -[Z.mul]; lia.
  - cbn in Hd. pose proof (Z.mod_pos_bound n div Hd). pose proof (Z.div_mod n div ltac:(lia)) as Hdm.
    destruct (_ || _) eqn:E; unfold terms_value in *.
    + rewrite fmap_cons, sum_cons. rewrite (IH false (n mod div)) by lia. cbn. lia.
    + apply orb_false_iff in E as [E _]. bool_cases. rewrite (IH first (n mod div)) by lia. lia.
Qed.

Lemma size_terms_some (us : list (Z * chars)) (u : chars) (n : Z) : size_terms (us ++ [(1, u)]) true n <> [].
Proof.
  revert n. induction us as [|[div v] us IH]; intros n; cbn [app size_terms]; [|destruct (_ || _); [done|apply IH]].
  by rewrite orb_true_r.
Qed.

Lemma terms_wf (ts : list (Z * Z * chars)) (have : bool) :
  Forall good_term ts -> wf_expr have (terms_expr ts) = true /\ wf_expr have (tail_expr ts) = true.
Proof.
  intros Hts. revert have. induction Hts as [|[[q d] u] ts [Hq Hu] Hts IH]; intros have; [done|].
  assert (wf_expr have (terms_expr ((q, d, u) :: ts)) = true) as Hw; [|by split].
  rewrite terms_expr_cons. cbn [wf_expr]. cbn in Hq, Hu.
  destruct (print_nat_spec 20 q) as (H1 & H2 & H3); [unfold u64_max in Hq; simpl; lia|lia|].
  rewrite H1, H2, Hu, (proj2 (IH true)), (proj2 (Z.leb_le q u64_max)) by lia.
  destruct (print_nat 20 q); [simpl in H3; lia|]. by destruct ts.
Qed.

Lemma terms_eval (ts : list (Z * Z * chars)) (acc : Z) :
  Forall good_term ts -> is_u64 acc ->
  eval_expr acc (terms_expr ts) = u64 (acc + terms_value by_unit ts) /\
  eval_expr acc (tail_expr ts) = u64 (acc + terms_value by_unit ts).
Proof.
  intros Hts. revert acc. induction Hts as [|[[q d] u] ts [Hq Hu] Hts IH]; intros acc Ha.
  { cbn. rewrite Z.add_0_r, uwrap_small by (unfold is_u64 in Ha; lia). done. }
  assert (eval_expr acc (terms_expr ((q, d, u) :: ts)) = u64 (acc + terms_value by_unit ((q, d, u) :: ts))) as Hw; [|by split].
  rewrite terms_expr_cons. cbn [eval_expr]. cbn in Hq.
  destruct (print_nat_spec 20 q) as (_ & -> & _); [unfold u64_max in Hq; simpl; lia|lia|].
  rewrite (proj2 (IH _ ltac:(apply uwrap_range; lia))). rewrite uwrap_add_l, <- Z.add_assoc, (Z.add_comm (u64 _)), Z.add_assoc.
  rewrite uwrap_add_r. f_equal. unfold terms_value. rewrite fmap_cons, sum_cons. unfold by_unit at 2. cbn. lia.
Qed.

(** Every unit with its letters, and the last one. *)
Lemma units_good (base : UnitBase) :
  exists us u, units base = us ++ [(1, u)] /\ Forall good_unit us /\ Forall good_unit (units base).
Proof.
  destruct base;
    [exists [(kEiB, str "EiB"); (kPiB, str "PiB"); (kTiB, str "TiB"); (kGiB, str "GiB"); (kMiB, str "MiB"); (kKiB, str "KiB")]
    |exists [(kEB, str "EB"); (kPB, str "PB"); (kTB, str "TB"); (kGB, str "GB"); (kMB, str "MB"); (kKB, str "KB")]];
    exists (str "B"); (split; [done|]); split; repeat constructor; by vm_compute.
Qed.

(** The binary units mean to [parse_byte_size] what they mean to [format]. *)
Lemma log2_units (us : Z * chars) : us ∈ units kLog2 -> unit_value us.2 = us.1.
Proof. cbn [units]. rewrite !elem_of_cons, elem_of_nil. intros H. by repeat destruct H as [->|H]. Qed.

Lemma log2_value (ts : list (Z * Z * chars)) :
  Forall (fun t => (by_div t, t.2) ∈ units kLog2) ts -> terms_value by_unit ts = terms_value by_div ts.
Proof.
  unfold terms_value. induction 1 as [|t ts Ht Hts IH]; [done|]. rewrite !fmap_cons, !sum_cons, IH. f_equal. f_equal.
  exact (log2_units (by_div t, t.2) Ht).
Qed.

(** *** Exact and rounded sizes *)

Lemma parse_expr (e : SizeExpr) :
  wf_expr false e = true -> print_expr e <> [] -> parse_byte_size (print_expr e) = Some (eval_expr 0 e).
Proof.
  intros Hw Hne. unfold parse_byte_size. destruct (print_expr e) as [|c s] eqn:Ep; [done|]. rewrite <- Ep.
  apply parse_complete; [done|lia].
Qed.

Lemma terms_printed (ts : list (Z * Z * chars)) : ts <> [] -> Forall good_term ts -> print_expr (terms_expr ts) <> [].
Proof.
  intros Hne Hts. destruct Hts as [|[[q d] u] ts [Hq _] _]; [done|]. rewrite terms_expr_cons. cbn [print_expr]. cbn in Hq.
  destruct (print_nat_spec 20 q) as (_ & _ & H3); [unfold u64_max in Hq; simpl; lia|lia|].
  destruct (print_nat 20 q); [simpl in H3; lia|done].
Qed.

Lemma format_inexact (us : list (Z * chars)) (n unit_ord : Z) (f : Formatted) (q d : Z) (u : chars) (ts : list (Z * Z * chars)) :
  0 <= n -> Forall good_unit us -> size_terms us true n = (q, d, u) :: ts ->
  let f' := format_impl false us true n unit_ord f in
  text f' = text f ++ print_nat 20 q ++ u /\ error f' = n mod d /\ parts f' = parts f + 1 /\ q = n / d /\ (q <> 0 \/ d = 1) /\ 0 < d.
Proof.
  intros Hn Hus. revert unit_ord. induction Hus as [|[div v] us [Hd _] Hus IH]; intros unit_ord; cbn [size_terms format_impl]; [done|].
  destruct (_ || _) eqn:E; cbn [negb].
  - intros [= <- <- <- _]. cbn in *. split_and!; try done. apply orb_true_iff in E as [E|E]; bool_cases; auto.
  - apply orb_false_iff in E as [E _]. bool_cases. cbn in Hd. pose proof (Z.div_mod n div ltac:(lia)) as Hdm.
    assert (n mod div = n) as -> by lia. apply IH.
Qed.

(** Sizes are printed so that they can be read back.  An exact size in
    binary units is read back by [parse_byte_size] as itself.  A rounded one
    is printed as a single number and unit, and is read back as the size less
    the remainder that [format] reports, which is less than the printed part
    unless the size is 0. *)
Theorem size_roundtrip (n : Z) :
  is_u64 n ->
  (let f := format (mkSize n true) kLog2 in parse_byte_size (text f) = Some n /\ error f = 0 /\ 1 <= parts f <= 7) /\
  (let f := format (mkSize n false) kLog2 in
   parse_byte_size (text f) = Some (n - error f) /\ parts f = 1 /\ 0 <= error f /\ (n <> 0 -> error f < n - error f)).
Proof.
  intros Hn. unfold is_u64 in Hn. destruct (units_good kLog2) as (us & u & Hus & Hg & Hgood). unfold format. cbn [exact_ value].
  destruct (size_terms_good (units kLog2) true n Hgood) as [Hts Hin]; [unfold u64_max; lia|].
  pose proof (size_terms_sum us u true n ltac:(lia) Hg) as Hsum. rewrite <- Hus in Hsum.
  pose proof (size_terms_some us u n) as Hne. rewrite <- Hus in Hne. split.
  - destruct (format_exact (units kLog2) true n 7 (mkFormatted [] 0 0 0)) as (-> & -> & ->). cbn [text error parts app].
    rewrite parse_expr, (proj1 (terms_eval _ 0 Hts ltac:(unfold is_u64; lia))), log2_value, Hsum, uwrap_small
      by (done || lia || by apply terms_wf || by apply terms_printed).
    split_and!; [done|done| |].
    + destruct (size_terms _ _ _); [done|]. simpl. lia.
    + assert (forall l b m, (length (size_terms l b m) <= length l)%nat) as Hlen.
      { intros l. induction l as [|[dv uu] l IH]; intros b m; cbn [size_terms length]; [lia|].
        specialize (IH false (m mod dv)) as H1. specialize (IH b (m mod dv)) as H2. destruct (_ || _); cbn [length]; lia. }
      specialize (Hlen (units kLog2) true n). simpl length in Hlen at 2. lia.
  - destruct (size_terms (units kLog2) true n) as [|[[q d] v] ts] eqn:Et; [done|].
    destruct (format_inexact _ n 7 (mkFormatted [] 0 0 0) q d v ts ltac:(lia) Hgood Et) as (-> & -> & -> & Hq & Hq0 & Hd).
    cbn [text parts app]. apply Forall_cons in Hts as [Ht _]. apply Forall_cons in Hin as [Hin _].
    pose proof (log2_units (d, v) Hin) as Hv. cbn in Hv. pose proof (Z.div_mod n d ltac:(lia)) as Hdm. pose proof (Z.mod_pos_bound n d Hd).
    assert (Forall good_term [(q, d, v)]) as Hts1 by (by constructor).
    pose proof (parse_expr (terms_expr [(q, d, v)]) (proj1 (terms_wf _ false Hts1)) (terms_printed [(q, d, v)] ltac:(done) Hts1)) as Hp.
    rewrite (proj1 (terms_eval _ 0 Hts1 ltac:(unfold is_u64; lia))) in Hp. cbn [terms_expr print_expr] in Hp. rewrite app_nil_r in Hp.
    rewrite Hp. unfold terms_value, by_unit. cbn. rewrite sum_cons, Hv. change (sum []) with 0. rewrite uwrap_small by nia.
    split_and!; [f_equal; lia|done|lia|]. intros Hn0. destruct Hq0 as [Hq0| ->]; [nia|lia].
Qed.

(** 1536 is "1KiB+512B", or about "1KiB". *)
Lemma size_roundtrip_witness :
  parse_byte_size (str "1KiB+512B") = Some 1536 /\ parse_byte_size (str "1KiB") = Some 1024.
Proof.
  destruct (size_roundtrip 1536) as [(H1 & _ & _) (H2 & _ & _ & _)]; [unfold is_u64; lia|].
  split; [exact H1|exact H2].
Defined.

(** What [dump_size_exact] prints may be in decimal units, which
    [parse_byte_size] does not know. *)
Example decimal_size : dump_size_exact 1000000 = str "1MB" /\ parse_byte_size (dump_size_exact 1000000) = Some 1048576.
Proof. by vm_compute. Qed.

Example size_overflow : parse_byte_size (str "16e") = Some 0 /\ parse_byte_size (str "+") = Some 0.
Proof. by vm_compute. Qed.
