(* ===== verification/WatchCell.v ===== *)
(** * What a watch promises to its clients

    The queue, the mutex, the stream buffer, the latch and the grants share
    state through a [Watch] of a primitive type.  They are verified against a
    [Cell]: a value that changes in one step per operation, and the status it
    was closed with.  This file states that interface and shows that the
    lock-free implementation of [Watch.v] provides it: every run of the
    implementation is a run of the cell. *)

From S2P Require Import Prelude Status Watch.
Open Scope Z_scope.

Create HintDb history.

(** No handler is invoked by the step. *)
Ltac no_events := intros ? ? ?%elem_of_nil; done.

(** ** The cell *)

(** [cell_past]: every value the cell has held, the current one first. *)
Record Cell : Type := mkCell {
  cell_value : Z;
  cell_final : option StatusCode;
  cell_past : list Z }.

Definition new_cell (v : Z) : Cell := mkCell v None [v].

Inductive CellOp : Type :=
| CellRmw (op : RmwOp)
| CellModify (fn : Z -> option Z)
| CellClose (code : StatusCode).

Definition put (v : Z) (c : Cell) : Cell := mkCell v (cell_final c) (v :: cell_past c).

(** The status of a watch closed with this code. *)
(* @ src/batteries/async/watch_decl.hpp 346-362 WatchAtomic::close *)
Definition closed_status (code : StatusCode) : StatusCode :=
  match code with
  | kEndOfStream => kEndOfStream
  | kClosedBeforeEndOfStream => kClosedBeforeEndOfStream
  | _ => kClosed
  end.

(** A cell that is already closed keeps its status, and its value can still
    be changed. *)
Definition close (code : StatusCode) (c : Cell) : Cell :=
  mkCell (cell_value c)
    (match cell_final c with Some s => Some s | None => Some (closed_status code) end) (cell_past c).

Definition cell_apply (op : CellOp) (c : Cell) : Cell :=
  match op with
  | CellRmw op => put (rmw op (cell_value c)) c
  | CellModify fn => match fn (cell_value c) with Some v => put v c | None => c end
  | CellClose code => close code c
  end.

(** What a wait on the cell can return: a value the cell has held, or the
    status it was closed with. *)
Definition wait_result (c : Cell) (r : StatusOr Z) : Prop :=
  match r with
  | OkVal v => v ∈ cell_past c
  | Err s => cell_final c = Some s
  end.

(** ** The operations of a run, in the order in which they take effect *)

(** The cell operation a thread starts with; a waiter changes nothing. *)
Definition op_of (start : Pc) : option CellOp :=
  match start with
  | Rmw op => Some (CellRmw op)
  | ModLoad fn => Some (CellModify fn)
  | CloseLock code => Some (CellClose code)
  | _ => None
  end.

(** The step at which the operation of a thread takes effect. *)
Definition takes_effect (spurious : bool) (m : Memory) (pc : Pc) : bool :=
  match pc with
  | Rmw _ | CloseUnlock _ _ => true
  | ModCas fn old _ =>
      match fn old with Some _ => negb (spurious || negb (value_ m =? old)) | None => false end
  | _ => false
  end.

Definition effect (i : nat) (spurious : bool) (st : State) : list nat :=
  match threads st !! i with
  | Some pc => if takes_effect spurious (mem st) pc then [i] else []
  | None => []
  end.

Fixpoint effects (schedule : list (nat * bool)) (st : State) : list nat :=
  match schedule with
  | [] => []
  | ib :: rest => effect ib.1 ib.2 st ++ effects rest (step ib.1 ib.2 st)
  end.

Section history.
Context (init_value : Z) (ops : list Pc).

Definition apply_thread (c : Cell) (i : nat) : Cell :=
  match ops !! i ≫= op_of with Some op => cell_apply op c | None => c end.

(** The cell after the operations of these threads. *)
Definition cell_after (order : list nat) : Cell := foldl apply_thread (new_cell init_value) order.

(** The operation of thread [i] took effect when the cell held [v]. *)
Definition committed (order : list nat) (i : nat) (v : Z) : Prop :=
  exists before after, order = before ++ i :: after /\ v = cell_value (cell_after before).

(** The cell held [v] at some point. *)
Definition was_value (order : list nat) (v : Z) : Prop :=
  exists before after, order = before ++ after /\ v = cell_value (cell_after before).

(** What the return of an operation says. *)
Definition returned (order : list nat) (i : nat) (start : Pc) (ret : option Z) : Prop :=
  match start with
  | Rmw _ => exists v, ret = Some v /\ committed order i v
  | ModLoad fn =>
      match ret with
      | Some v => committed order i v /\ fn v <> None
      | None => i ∉ order /\ exists v, was_value order v /\ fn v = None
      end
  | CloseLock _ => i ∈ order
  | _ => i ∉ order
  end.

(** ** The simulation relation *)

(** The bits that record whether and how the watch was closed. *)
Definition closed_bits (s : Z) : bool * bool * bool := (Z.testbit s 1, Z.testbit s 3, Z.testbit s 4).

Definition closed_of (s : Z) : option StatusCode := if Z.testbit s 1 then None else Some (final_status s).

Definition is_wait (pc : Pc) : Prop := match pc with Wait _ => True | _ => False end.

(** An operation that has changed the value and is waking the observers. *)
Definition changed_value (order : list nat) (i : nat) (start : Pc) (ret : Z) : Prop :=
  returned order i start (Some ret) /\ match start with Rmw _ | ModLoad _ => True | _ => False end.

(** Where thread [i], which started with [start], can be. *)
Definition thread_ok (order : list nat) (s : Z) (i : nat) (start pc : Pc) : Prop :=
  let c := cell_after order in
  match pc with
  | Rmw _ | ModLoad _ | CloseLock _ | Wait _ => start = pc /\ i ∉ order
  | ModCas fn old _ => start = ModLoad fn /\ i ∉ order /\ was_value order old
  | NotifyLoad ret v | NotifyLock ret v => changed_value order i start ret /\ v ∈ cell_past c
  | NotifyTake ret v p | NotifyUnlock ret v p _ =>
      changed_value order i start ret /\ v ∈ cell_past c /\ closed_bits p = closed_bits s
  | CloseTake code p => start = CloseLock code /\ i ∉ order /\ closed_bits p = closed_bits s
  | CloseUnlock d _ =>
      exists code p, start = CloseLock code /\ i ∉ order /\ closed_bits p = closed_bits s /\ d = close_state p code
  | CloseStatus _ => returned order i start None /\ cell_final c <> None
  | WaitLock _ => is_wait start /\ i ∉ order
  | WaitClosed _ p => is_wait start /\ i ∉ order /\ closed_bits p = closed_bits s /\ cell_final c <> None
  | WaitStatus _ => is_wait start /\ i ∉ order /\ cell_final c <> None
  | WaitCheck _ p | WaitPush _ p | WaitUnlock p None => is_wait start /\ i ∉ order /\ closed_bits p = closed_bits s
  | WaitUnlock p (Some (_, v)) =>
      is_wait start /\ i ∉ order /\ closed_bits p = closed_bits s /\ v ∈ cell_past c
  | Invoke ret obs r => returned order i start ret /\ (obs <> [] -> wait_result c r)
  | Finished ret => returned order i start ret
  end.

Record Simulates (order : list nat) (st : State) : Prop := {
  sim_value : value_ (mem st) = cell_value (cell_after order);
  sim_closed : closed_of (spin_state_ (mem st)) = cell_final (cell_after order);
  sim_open : Z.testbit (spin_state_ (mem st)) 1 = true -> closed_bits (spin_state_ (mem st)) = (true, false, false);
  sim_nodup : NoDup order;
  sim_threads : forall i pc, threads st !! i = Some pc ->
    exists start, ops !! i = Some start /\ thread_ok order (spin_state_ (mem st)) i start pc;
  sim_log : forall h r, (h, r) ∈ log st -> wait_result (cell_after order) r }.

(** ** The history only grows *)

Lemma cell_after_app (o l : list nat) : cell_after (o ++ l) = foldl apply_thread (cell_after o) l.
Proof. unfold cell_after. by rewrite foldl_app. Qed.

Lemma cell_after_snoc (o : list nat) (i : nat) : cell_after (o ++ [i]) = apply_thread (cell_after o) i.
Proof. by rewrite cell_after_app. Qed.

Lemma wait_result_apply (c : Cell) (i : nat) (r : StatusOr Z) : wait_result c r -> wait_result (apply_thread c i) r.
Proof.
  unfold apply_thread. destruct (ops !! i ≫= op_of) as [op|]; [|done].
  destruct r as [v|e]; destruct op as [op|fn|code]; simpl; try done.
  - by right.
  - destruct (fn _); simpl; [by right|done].
  - by destruct (fn _).
  - by intros ->.
Qed.

Lemma wait_result_app (o l : list nat) (r : StatusOr Z) :
  wait_result (cell_after o) r -> wait_result (cell_after (o ++ l)) r.
Proof.
  rewrite cell_after_app. generalize (cell_after o). induction l as [|i l IH]; intros c Hc; simpl; [done|].
  by apply IH, wait_result_apply.
Qed.

Lemma past_app (o l : list nat) (v : Z) :
  v ∈ cell_past (cell_after o) -> v ∈ cell_past (cell_after (o ++ l)).
Proof. exact (wait_result_app o l (OkVal v)). Qed.

Lemma final_app (o l : list nat) :
  cell_final (cell_after o) <> None -> cell_final (cell_after (o ++ l)) <> None.
Proof.
  destruct (cell_final (cell_after o)) as [e|] eqn:E; [|done]. intros _.
  pose proof (wait_result_app o l (Err e) E) as H. simpl in H. by rewrite H.
Qed.

Lemma committed_app (o l : list nat) (i : nat) (v : Z) : committed o i v -> committed (o ++ l) i v.
Proof. intros (b & a & -> & ->). exists b, (a ++ l). split; [by rewrite <- app_assoc|done]. Qed.

Lemma was_value_app (o l : list nat) (v : Z) : was_value o v -> was_value (o ++ l) v.
Proof. intros (b & a & -> & ->). exists b, (a ++ l). by rewrite <- app_assoc. Qed.

Lemma was_value_now (o : list nat) : was_value o (cell_value (cell_after o)).
Proof. exists o, []. by rewrite app_nil_r. Qed.

Lemma not_in_app (o l : list nat) (i : nat) : i ∉ o -> i ∉ l -> i ∉ o ++ l.
Proof. rewrite elem_of_app. tauto. Qed.

#[local] Hint Resolve wait_result_app past_app final_app committed_app was_value_app not_in_app : history.

Lemma returned_app (o l : list nat) (i : nat) (start : Pc) (ret : option Z) :
  i ∉ l -> returned o i start ret -> returned (o ++ l) i start ret.
Proof.
  intros Hl. destruct start; simpl; eauto with history.
  - intros (v & -> & H). eauto with history.
  - destruct ret as [v|].
    + intros [H ?]. eauto with history.
    + intros (H & v & Hv & ?). eauto 6 with history.
  - intros H. apply elem_of_app. by left.
Qed.

#[local] Hint Resolve returned_app : history.

Lemma changed_value_app (o l : list nat) (i : nat) (start : Pc) (ret : Z) :
  i ∉ l -> changed_value o i start ret -> changed_value (o ++ l) i start ret.
Proof. intros Hl [? ?]. split; eauto with history. Qed.

#[local] Hint Resolve changed_value_app : history.

Lemma thread_ok_app (o l : list nat) (s : Z) (i : nat) (start pc : Pc) :
  i ∉ l -> thread_ok o s i start pc -> thread_ok (o ++ l) s i start pc.
Proof.
  intros Hl. destruct pc as [| | | | | | | | | | | | | | | | | |p [[o' v]|]|]; simpl;
    intros; destruct_and?; split_and?; eauto with history.
  destruct H as (code & p & ? & ? & ? & ?). exists code, p. split_and!; eauto with history.
Qed.

Lemma thread_ok_bits (o : list nat) (s s' : Z) (i : nat) (start pc : Pc) :
  (holds pc = true -> closed_bits s' = closed_bits s) -> thread_ok o s i start pc -> thread_ok o s' i start pc.
Proof.
  intros H. destruct pc as [| | | | | | | | | | | | | | | | | |p [[o' v]|]|]; simpl in *;
    try specialize (H eq_refl); try rewrite H; done.
Qed.

(** ** One step *)

Lemma current_in_past (o : list nat) : cell_value (cell_after o) ∈ cell_past (cell_after o).
Proof.
  induction o as [|i o IH] using rev_ind; [by left|]. rewrite cell_after_snoc. unfold apply_thread.
  destruct (ops !! i ≫= op_of) as [[op|fn|code]|]; simpl; try done; [by left|].
  destruct (fn _); [by left|done].
Qed.

Lemma sim_update (o l : list nat) (m m' : Memory) (ts : list Pc) (lg ev : list (nat * StatusOr Z)) (i : nat)
    (pc pc' start : Pc) :
  Inv (mkState m ts lg) -> Simulates o (mkState m ts lg) -> ts !! i = Some pc -> ops !! i = Some start ->
  l = [] \/ (l = [i] /\ i ∉ o) ->
  value_ m' = cell_value (cell_after (o ++ l)) ->
  closed_of (spin_state_ m') = cell_final (cell_after (o ++ l)) ->
  (Z.testbit (spin_state_ m') 1 = true -> closed_bits (spin_state_ m') = (true, false, false)) ->
  holds pc = true \/ closed_bits (spin_state_ m') = closed_bits (spin_state_ m) ->
  thread_ok (o ++ l) (spin_state_ m') i start pc' ->
  (forall h r, (h, r) ∈ ev -> wait_result (cell_after (o ++ l)) r) ->
  Simulates (o ++ l) (mkState m' (<[i := pc']> ts) (lg ++ ev)).
Proof.
  intros HI [Hv Hc Ho Hn Ht Hl] Hi Hs Hol Hv' Hc' Ho' Hb Hok Hev. simpl in *. split; simpl; try done.
  - destruct Hol as [->|[-> Hni]]; [by rewrite app_nil_r|].
    apply list.NoDup_app. split_and!; [done| |apply NoDup_singleton]. intros x Hx ->%list_elem_of_singleton. done.
  - intros j q [[-> ->]|[Hj Hq]]%(insert_cases ts i pc pc' Hi); [by exists start|].
    destruct (Ht j q Hq) as (start' & Hs' & Hok'). exists start'. split; [done|].
    apply thread_ok_app; [destruct Hol as [->|[-> _]]; [apply not_elem_of_nil|by rewrite list_elem_of_singleton]|].
    apply (thread_ok_bits _ (spin_state_ m)); [|done]. intros Hh. destruct Hb as [Hb|]; [|done].
    destruct HI as [[_ Hu _] _ _ _]. by destruct (Hj (Hu j i q pc Hq Hi Hh Hb)).
  - intros h r [Hr|Hr]%elem_of_app; [|by eapply Hev]. by eapply wait_result_app, Hl.
Qed.
End history.

(** ** The bits of the spin state *)

#[local] Arguments Z.testbit : simpl never.

Lemma closed_bits_lor (s k : Z) : closed_bits k = (false, false, false) -> closed_bits (Z.lor s k) = closed_bits s.
Proof. unfold closed_bits. rewrite !Z.lor_spec. intros [= -> -> ->]. by rewrite !orb_false_r. Qed.

Lemma closed_bits_ldiff (s k : Z) : closed_bits k = (false, false, false) -> closed_bits (Z.ldiff s k) = closed_bits s.
Proof. unfold closed_bits. rewrite !Z.ldiff_spec. intros [= -> -> ->]. by rewrite !andb_true_r. Qed.

Definition final_bits (s : Z) : Z := Z.land s (Z.lor kClosedAtEnd kClosedBeforeEnd).

Lemma final_bits_eq (s s' : Z) :
  Z.testbit s 3 = Z.testbit s' 3 -> Z.testbit s 4 = Z.testbit s' 4 -> final_bits s = final_bits s'.
Proof.
  intros H3 H4. apply Z.bits_inj'. intros n Hn. unfold final_bits. rewrite !Z.land_spec, !Z.lor_spec.
  change kClosedAtEnd with (2 ^ 3). change kClosedBeforeEnd with (2 ^ 4). rewrite !Z.pow2_bits_eqb by done.
  destruct (Z.eqb_spec 3 n) as [<-|]; [by rewrite H3|]. destruct (Z.eqb_spec 4 n) as [<-|]; [by rewrite H4|].
  by rewrite !andb_false_r.
Qed.

Lemma closed_of_bits (s s' : Z) : closed_bits s = closed_bits s' -> closed_of s = closed_of s'.
Proof.
  unfold closed_bits, closed_of. intros [= H1 H3 H4]. rewrite H1. destruct (Z.testbit s' 1); [done|].
  unfold final_status. fold (final_bits s) (final_bits s'). by rewrite (final_bits_eq s s').
Qed.

Lemma closed_of_final (s : Z) : closed_of s <> None -> closed_of s = Some (final_status s).
Proof. unfold closed_of. by destruct (Z.testbit s 1). Qed.

(** The state a [close] with this code leaves, as bits. *)
Lemma close_state_bits (p : Z) (code : StatusCode) :
  (Z.testbit p 1 = true -> closed_bits p = (true, false, false)) ->
  closed_bits (close_state p code) =
  if Z.testbit p 1
  then match code with
       | kEndOfStream => (false, true, false)
       | kClosedBeforeEndOfStream => (false, false, true)
       | _ => (false, false, false)
       end
  else closed_bits p.
Proof.
  intros Hp. unfold close_state.
  assert ((Z.land p kOpen =? kOpen) = Z.testbit p 1) as ->.
  { pose proof (land_open p) as H. destruct (Z.testbit p 1); simpl in H; bool_cases.
    - apply Z.eqb_eq, Z.bits_inj'. intros n Hn. rewrite Z.land_spec. change kOpen with (2 ^ 1) in *.
      destruct (decide (n = 1)) as [->|Hne].
      + rewrite Z.pow2_bits_true by done. rewrite andb_true_r.
        destruct (Z.testbit p 1) eqn:E; [done|]. destruct H. apply Z.bits_inj'. intros k Hk.
        rewrite Z.land_spec, Z.bits_0, Z.pow2_bits_eqb by done.
        destruct (Z.eqb_spec 1 k) as [<-|]; [by rewrite E|apply andb_false_r].
      + rewrite Z.pow2_bits_false by done. apply andb_false_r.
    - apply Z.eqb_neq. by rewrite H. }
  unfold closed_bits in *. destruct (Z.testbit p 1) eqn:E1.
  - specialize (Hp eq_refl). injection Hp as H3 H4. cbn [negb].
    destruct code; rewrite ?Z.lor_spec, ?Z.ldiff_spec, ?Z.lor_spec, ?E1, ?H3, ?H4; reflexivity.
  - cbn [negb]. rewrite Z.lor_0_r, !Z.ldiff_spec, E1.
    change (Z.testbit (Z.lor kOpen kWaiting) 3) with false. change (Z.testbit (Z.lor kOpen kWaiting) 4) with false.
    by rewrite !andb_true_r.
Qed.

(** ** Every step of the implementation is a step of the cell, or none *)

Section simulation.
Context (init_value : Z) (ops : list Pc) (o : list nat).
Context (m : Memory) (ts : list Pc) (lg : list (nat * StatusOr Z)) (i : nat) (pc start : Pc).
Hypothesis HI : Inv (mkState m ts lg).
Hypothesis HS : Simulates init_value ops o (mkState m ts lg).
Hypothesis Hi : ts !! i = Some pc.
Hypothesis Hs : ops !! i = Some start.

(** A step that changes neither the value nor the closed bits. *)
Lemma sim_quiet (m' : Memory) (pc' : Pc) (ev : list (nat * StatusOr Z)) :
  value_ m' = value_ m -> closed_bits (spin_state_ m') = closed_bits (spin_state_ m) ->
  thread_ok init_value ops o (spin_state_ m') i start pc' ->
  (forall h r, (h, r) ∈ ev -> wait_result (cell_after init_value ops o) r) ->
  Simulates init_value ops (o ++ []) (mkState m' (<[i := pc']> ts) (lg ++ ev)).
Proof using HI HS Hi Hs.
  intros Hv Hb Hok Hev. pose proof HS as [H1 H2 H3 _ _ _]. simpl in *.
  apply (sim_update init_value ops o [] m m' ts lg ev i pc pc' start);
    rewrite ?app_nil_r; try done; try congruence; try by left; try by right.
  - rewrite <- H2. by apply closed_of_bits.
  - intros Ho. rewrite Hb. apply H3. unfold closed_bits in Hb. by injection Hb as <- _ _.
  - right. exact Hb.
Qed.

Lemma sim_lock (next : Z -> Pc) (m' : Memory) (pc' : Pc) :
  lock_observers m next pc = (m', pc') -> holds pc = false ->
  thread_ok init_value ops o (spin_state_ m) i start pc ->
  (forall s, closed_bits (spin_state_ m) = closed_bits s -> thread_ok init_value ops o s i start (next (spin_state_ m))) ->
  Simulates init_value ops (o ++ []) (mkState m' (<[i := pc']> ts) (lg ++ [])).
Proof using HI HS Hi Hs.
  intros E Hh Hpc Hnext. unfold lock_observers in E.
  assert (closed_bits (Z.lor (spin_state_ m) kLocked) = closed_bits (spin_state_ m)) as Hb by (by apply closed_bits_lor).
  destruct (_ =? _); injection E as <- <-; apply sim_quiet; simpl; try done.
  all: try no_events.
  - by apply Hnext.
  - apply (thread_ok_bits init_value ops o (spin_state_ m)); [congruence|done].
Qed.

(** A release of the lock that keeps the closed bits. *)
Lemma sim_unlock (desired : Z) (pc' : Pc) :
  closed_bits desired = closed_bits (spin_state_ m) ->
  (forall s, thread_ok init_value ops o s i start pc') ->
  Simulates init_value ops (o ++ []) (mkState (unlock_observers m desired) (<[i := pc']> ts) (lg ++ [])).
Proof using HI HS Hi Hs.
  intros Hd Hok. apply sim_quiet; [done| |done|no_events].
  unfold unlock_observers. simpl. rewrite closed_bits_ldiff by done. done.
Qed.

Lemma sim_final_status : cell_final (cell_after init_value ops o) <> None ->
  wait_result (cell_after init_value ops o) (Err (final_status (spin_state_ m))).
Proof using HS.
  pose proof HS as [_ H2 _ _ _ _]. simpl in *. rewrite <- H2. apply closed_of_final.
Qed.

Lemma sim_current : value_ m ∈ cell_past (cell_after init_value ops o).
Proof using HS. pose proof HS as [H1 _ _ _ _ _]. simpl in *. rewrite H1. apply current_in_past. Qed.

(** A change of the value by thread [i]. *)
Lemma sim_change (v : Z) (pc' : Pc) :
  i ∉ o -> holds pc = false -> cell_value (cell_after init_value ops (o ++ [i])) = v ->
  cell_final (cell_after init_value ops (o ++ [i])) = cell_final (cell_after init_value ops o) ->
  thread_ok init_value ops (o ++ [i]) (spin_state_ m) i start pc' ->
  Simulates init_value ops (o ++ [i]) (mkState (set_mem m v) (<[i := pc']> ts) (lg ++ [])).
Proof using HI HS Hi Hs.
  intros Hni Hh Hv Hf Hok. pose proof HS as [_ H2 H3 _ _ _]. simpl in *.
  apply (sim_update init_value ops o [i] m (set_mem m v) ts lg [] i pc pc' start); simpl; try done; [by right|congruence|by right|].
  no_events.
Qed.

Lemma committed_now : committed init_value ops (o ++ [i]) i (value_ m).
Proof using HS. exists o, []. split; [done|]. by apply (sim_value _ _ _ _ HS). Qed.

Lemma sim_close (code : StatusCode) (p : Z) (pc' : Pc) :
  start = CloseLock code -> i ∉ o -> holds pc = true -> closed_bits p = closed_bits (spin_state_ m) ->
  (forall s, cell_final (cell_after init_value ops (o ++ [i])) <> None ->
             thread_ok init_value ops (o ++ [i]) s i start pc') ->
  Simulates init_value ops (o ++ [i])
    (mkState (unlock_observers m (close_state p code)) (<[i := pc']> ts) (lg ++ [])).
Proof using HI HS Hi Hs.
  intros Hstart Hni Hh Hp Hok. pose proof HS as [H1 H2 H3 _ _ _]. simpl in *.
  assert (cell_after init_value ops (o ++ [i]) = close code (cell_after init_value ops o)) as Ha.
  { rewrite cell_after_snoc. unfold apply_thread. by rewrite Hs, Hstart. }
  assert (Z.testbit p 1 = true -> closed_bits p = (true, false, false)) as Hp'.
  { rewrite Hp. intros E. apply H3. unfold closed_bits in Hp. injection Hp as <- _ _. done. }
  pose proof (close_state_bits p code Hp') as Hcb.
  assert (closed_of p = cell_final (cell_after init_value ops o)) as Hcp by (rewrite <- H2; by apply closed_of_bits).
  apply (sim_update init_value ops o [i] m _ ts lg [] i pc pc' start); simpl; try done; [by right| | | |by left| |].
  - by rewrite Ha.
  - rewrite Ha. simpl. rewrite <- Hcp.
    rewrite (closed_of_bits _ (close_state p code)) by (by apply closed_bits_ldiff).
    destruct (Z.testbit p 1) eqn:E.
    + unfold closed_of at 2. rewrite E.
      rewrite (closed_of_bits (close_state p code) (match code with kEndOfStream => 8 | kClosedBeforeEndOfStream => 16 | _ => 0 end))
        by (rewrite Hcb; by destruct code).
      by destruct code.
    + rewrite (closed_of_bits (close_state p code) p) by done. unfold closed_of. by rewrite E.
  - assert (closed_bits (Z.ldiff (close_state p code) kLocked) = closed_bits (close_state p code)) as ->
      by (by apply closed_bits_ldiff).
    rewrite bit_ldiff_locked by done. intros E. exfalso. unfold closed_bits in Hcb. rewrite E in Hcb.
    destruct (Z.testbit p 1) eqn:Ep; [destruct code; discriminate Hcb|discriminate Hcb].
  - apply Hok. rewrite Ha. simpl. destruct (cell_final (cell_after init_value ops o)); intros E; discriminate E.
  - no_events.
Qed.
End simulation.

(** [use_sim L] applies a lemma of the section at the current step. *)
Ltac use_sim L :=
  match goal with
  | HI : Inv (mkState ?m ?ts ?lg), HS : Simulates ?v ?ops ?o (mkState ?m ?ts ?lg),
    Hi : ?ts !! ?i = Some ?pc, Hs : ?ops !! ?i = Some ?start |- _ =>
      apply (L v ops o m ts lg i pc start HI HS Hi Hs); simpl; try done
  end.

(** The return of a change of the value that has just taken effect. *)
Lemma rmw_changed (init_value : Z) (ops : list Pc) (o : list nat) (m : Memory) (ts : list Pc)
    (lg : list (nat * StatusOr Z)) (i : nat) (op : RmwOp) :
  Simulates init_value ops o (mkState m ts lg) -> changed_value init_value ops (o ++ [i]) i (Rmw op) (value_ m).
Proof. intros HS. split; [|done]. exists (value_ m). split; [done|]. by apply (committed_now init_value ops o m ts lg). Qed.

Lemma modify_changed (init_value : Z) (ops : list Pc) (o : list nat) (m : Memory) (ts : list Pc)
    (lg : list (nat * StatusOr Z)) (i : nat) (fn : Z -> option Z) (v : Z) :
  Simulates init_value ops o (mkState m ts lg) -> fn (value_ m) = Some v ->
  changed_value init_value ops (o ++ [i]) i (ModLoad fn) (value_ m).
Proof. intros HS Hfn. split; [|done]. split; [|congruence]. by apply (committed_now init_value ops o m ts lg). Qed.

Lemma sim_thread_step (init_value : Z) (ops : list Pc) (o : list nat) (m : Memory) (ts : list Pc)
    (lg ev : list (nat * StatusOr Z)) (i : nat) (pc start : Pc) (b : bool) (m' : Memory) (pc' : Pc) :
  Inv (mkState m ts lg) -> Simulates init_value ops o (mkState m ts lg) -> ts !! i = Some pc -> ops !! i = Some start ->
  thread_ok init_value ops o (spin_state_ m) i start pc -> thread_step b m pc = (m', pc', ev) ->
  Simulates init_value ops (o ++ (if takes_effect b m pc then [i] else [])) (mkState m' (<[i := pc']> ts) (lg ++ ev)).
Proof.
  intros HI HS Hi Hs Hok E. pose proof (sim_value _ _ _ _ HS) as Hv. simpl in Hv.
  destruct pc; simpl in E; cbn [takes_effect];
    try (destruct (lock_observers _ _ _) as [m1 pc1] eqn:El);
    try (injection E as <- <- <-).
  - destruct Hok as [-> Hni].
    assert (cell_after init_value ops (o ++ [i]) = put (rmw op (value_ m)) (cell_after init_value ops o)) as Ha
      by (rewrite cell_after_snoc; unfold apply_thread; rewrite Hs; simpl; by rewrite Hv).
    use_sim sim_change; [by rewrite Ha|by rewrite Ha|]. pose proof (rmw_changed _ _ _ _ _ _ i op HS) as Hr.
    destruct (_ =? _); [apply Hr|]. split; [done|]. rewrite Ha. by left.
  - destruct Hok as [-> Hni]. use_sim sim_quiet; [|no_events].
    split_and!; [done|done|]. rewrite Hv. apply was_value_now.
  - destruct Hok as (-> & Hni & Hold). destruct (fn old) as [v|] eqn:Efn.
    + destruct (b || _) eqn:Es; injection E as <- <- <-.
      * use_sim sim_quiet; [|no_events].
        split_and!; [done|done|]. rewrite Hv. apply was_value_now.
      * apply orb_false_iff in Es as [_ Es]. bool_cases. subst old.
        assert (cell_after init_value ops (o ++ [i]) = put v (cell_after init_value ops o)) as Ha
          by (rewrite cell_after_snoc; unfold apply_thread; rewrite Hs; simpl; by rewrite <- Hv, Efn).
        use_sim sim_change; [by rewrite Ha|by rewrite Ha|]. pose proof (modify_changed _ _ _ _ _ _ i fn v HS Efn) as Hr.
        destruct (changed || _); [|apply Hr]. split; [done|]. rewrite Ha. by left.
    + injection E as <- <- <-. use_sim sim_quiet; [|no_events].
      split; [done|]. by exists old.
  - use_sim sim_quiet; [|no_events]. destruct (_ =? _); [apply Hok|done].
  - apply (sim_lock _ _ _ _ _ _ _ _ _ HI HS Hi Hs _ _ _ El); [done|done|]. intros s Hb. simpl. destruct Hok. by split_and!.
  - use_sim sim_quiet. no_events.
  - destruct Hok as (Hr & Hpast & Hp). use_sim sim_unlock; [by rewrite closed_bits_ldiff|].
    intros _. split; [apply Hr|done].
  - destruct Hok as [Hr Hw]. destruct obs as [|ob obs]; injection E as <- <- <-; use_sim sim_quiet.
    + no_events.
    + split; [done|]. intros _. by apply Hw.
    + intros h r' [= -> ->]%list_elem_of_singleton. by apply Hw.
  - apply (sim_lock _ _ _ _ _ _ _ _ _ HI HS Hi Hs _ _ _ El); [done|done|]. intros s Hb. simpl. destruct Hok as [-> Hni]. by split_and!.
  - destruct Hok as (-> & Hni & Hp). use_sim sim_quiet; [|no_events]. by exists code, prior.
  - destruct Hok as (code & p & -> & Hni & Hp & ->). use_sim sim_close.
    intros _ Hf. split; [|done]. apply elem_of_app. right. by left.
  - destruct Hok as [Hr Hf]. use_sim sim_quiet; [|no_events]. split; [done|].
    intros _. by apply (sim_final_status init_value ops o m ts lg HS).
  - destruct Hok as [-> Hni]. use_sim sim_quiet; [|no_events].
    destruct (_ =? _); simpl; [done|]. split; [done|]. intros _. by apply (sim_current init_value ops o m ts lg).
  - apply (sim_lock _ _ _ _ _ _ _ _ _ HI HS Hi Hs _ _ _ El); [done|done|]. intros s Hb. destruct Hok as [Hw Hni].
    rewrite land_open. destruct (Z.testbit (spin_state_ m) 1) eqn:Eo; simpl; split_and!; try done.
    rewrite <- (sim_closed _ _ _ _ HS). simpl. unfold closed_of. by rewrite Eo.
  - destruct Hok as (Hw & Hni & Hp & Hf). by use_sim sim_unlock.
  - destruct Hok as (Hw & Hni & Hf). use_sim sim_quiet; [|no_events].
    split; [by destruct start|]. intros _. by apply (sim_final_status init_value ops o m ts lg HS).
  - destruct Hok as (Hw & Hni & Hp). use_sim sim_quiet; [|no_events].
    destruct (_ =? _); simpl; split_and!; try done. by apply (sim_current init_value ops o m ts lg).
  - destruct Hok as (Hw & Hni & Hp). use_sim sim_quiet; [|no_events].
    split_and!; [done|done|]. by rewrite closed_bits_lor.
  - destruct now as [[ob v]|]; simpl in Hok.
    + destruct Hok as (Hw & Hni & Hp & Hpast). use_sim sim_unlock. intros _. split; [by destruct start|done].
    + destruct Hok as (Hw & Hni & Hp). use_sim sim_unlock. intros _. by destruct start.
  - use_sim sim_quiet. no_events.
Qed.

Lemma sim_run (init_value : Z) (ops : list Pc) (schedule : list (nat * bool)) (o : list nat) (st : State) :
  Inv st -> Simulates init_value ops o st ->
  Simulates init_value ops (o ++ effects schedule st) (run schedule st).
Proof.
  revert o st. induction schedule as [|[i b] schedule IH]; intros o st HI HS; simpl; [by rewrite app_nil_r|].
  rewrite app_assoc. apply IH; [by apply inv_step|].
  unfold effect, step. destruct (threads st !! i) as [pc|] eqn:Hi; [|by rewrite app_nil_r].
  destruct (sim_threads _ _ _ _ HS i pc Hi) as (start & Hs & Hok).
  destruct (thread_step b (mem st) pc) as [[m' pc'] ev] eqn:E. destruct st as [m ts lg].
  by apply (sim_thread_step init_value ops o m ts lg ev i pc start b m' pc').
Qed.

Lemma sim_initial (init_value : Z) (ops : list Pc) :
  Forall (fun pc => is_start pc = true) ops -> Simulates init_value ops [] (initial_state init_value ops).
Proof.
  intros Hops. rewrite list.Forall_lookup in Hops. split; simpl; try done.
  - apply NoDup_nil_2.
  - intros i pc Hi. exists pc. split; [done|]. specialize (Hops i pc Hi).
    destruct pc; try discriminate Hops; (split; [done|apply not_elem_of_nil]).
  - no_events.
Qed.

(** C1: the lock-free watch is linearizable.  In every interleaving of
    concurrent operations there is an order in which the operations that have
    taken effect, each once, run one at a time on a [Cell] to give the value
    and the closed status of the watch; an operation that has returned has
    taken effect and returned what it returns in that order; and every
    handler was invoked with a value the cell has held or the status it was
    closed with. *)
Theorem watch_linearizable (init_value : Z) (ops : list Pc) (schedule : list (nat * bool)) :
  Forall (fun pc => is_start pc = true) ops ->
  let st := run schedule (initial_state init_value ops) in
  let order := effects schedule (initial_state init_value ops) in
  let c := cell_after init_value ops order in
  NoDup order /\
  value_ (mem st) = cell_value c /\
  closed_of (spin_state_ (mem st)) = cell_final c /\
  (forall i start ret, ops !! i = Some start -> threads st !! i = Some (Finished ret) ->
     returned init_value ops order i start ret) /\
  (forall h r, (h, r) ∈ log st -> wait_result c r).
Proof.
  intros Hops st order c.
  destruct (sim_run init_value ops schedule [] (initial_state init_value ops)) as [H1 H2 _ H4 H5 H6];
    [by apply inv_initial|by apply sim_initial|].
  split_and!; try done. intros i start ret Hs Hi. destruct (H5 i _ Hi) as (start' & Hs' & Hok).
  rewrite Hs in Hs'. by injection Hs' as <-.
Qed.

(** The schedule of [sample_state]: the writer, one waiter and the close run
    interleaved. *)
Lemma watch_linearizable_witness :
  let st := run (((fun i => (i, false)) <$> [0; 0; 2; 0; 0; 0; 2; 3; 2; 2; 2; 2; 3; 3; 3; 3; 3]%nat)) (initial_state 0 sample_ops) in
  threads st !! 2%nat = Some (Finished (Some 0)) /\
  effects ((fun i => (i, false)) <$> [0; 0; 2; 0; 0; 0; 2; 3; 2; 2; 2; 2; 3; 3; 3; 3; 3]%nat) (initial_state 0 sample_ops) = [2; 3]%nat /\
  value_ (mem st) = 5 /\ closed_of (spin_state_ (mem st)) = Some kEndOfStream.
Proof.
  intros st. split; [by vm_compute|]. split; [by vm_compute|].
  destruct (watch_linearizable 0 sample_ops ((fun i => (i, false)) <$> [0; 0; 2; 0; 0; 0; 2; 3; 2; 2; 2; 2; 3; 3; 3; 3; 3]%nat)) as (_ & H1 & H2 & _ & _);
    [by repeat constructor|].
  split; [etransitivity; [exact H1|by vm_compute]|etransitivity; [exact H2|by vm_compute]].
Defined.
