(* ===== verification/WatchMutex.v ===== *)
(** * Watch of a type that is not atomic

    The class [Watch] of [async/watch_decl.hpp] and [async/watch_impl.hpp]: a
    value, a flag and a list of observers under a mutex.  Every critical
    section is a step, and so is the call of a handler, which comes after the
    mutex has been released.  A handler has a number, and a thread that is
    blocked in [await_not_equal] is the handler that wakes it up. *)

From S2P Require Import Prelude Status.
Open Scope Z_scope.

Section watch.
Context {T : Type} `{!EqDecision T}.

(** A handler, and the value that its caller had seen. *)
Record Handler : Type := mkHandler { id : nat; last_seen : T }.

(** [Invoke]: handlers are being called; the thread goes to sleep then, if it
    waits for one.  [Test]: in [await_true]. *)
Inductive Pc : Type :=
| Idle
| Invoke (hs : list Handler) (result : StatusOr T) (sleep : option (nat * (T -> bool)))
| Test (v : T) (pred : T -> bool)
| Sleep (h : nat) (pred : T -> bool).

Inductive Op : Type :=
| Close
| SetValue (v : T)
| GetValue
| Modify (fn : T -> T)
| AsyncWait (last_seen : T)
| AwaitTrue (pred : T -> bool).

Record Thread : Type := mkThread { pc : Pc; todo : list Op; results : list (StatusOr T) }.

(** [next_id], [called], [history]: the handlers made and called so far and
    the values the watch has had (not in the program). *)
(* @ src/batteries/async/watch_decl.hpp 264-269 Watch *)
Record State : Type := mkState {
  closed_ : bool;
  value_ : T;
  observers_ : list Handler;
  next_id : nat;
  called : list (Handler * StatusOr T);
  history : list T;
  threads : list Thread }.

Definition set_thread (i : nat) (th : Thread) (st : State) : State :=
  mkState (closed_ st) (value_ st) (observers_ st) (next_id st) (called st) (history st) (<[i := th]> (threads st)).

(* @ src/batteries/async/watch_decl.hpp 86-96 Watch::close *)
Definition close_step (st : State) : list Handler * State :=
  (observers_ st, mkState true (value_ st) [] (next_id st) (called st) (history st) (threads st)).

(** Takes the observers when the value changes. *)
(* @ src/batteries/async/watch_decl.hpp 108-119 Watch::set_value *)
Definition set_value_step (v : T) (st : State) : list Handler * State :=
  if decide (v <> value_ st) then
    (observers_ st, mkState (closed_ st) v [] (next_id st) (called st) (history st ++ [v]) (threads st))
  else ([], st).

(** The new value is returned. *)
(* @ src/batteries/async/watch_decl.hpp 140-155 Watch::modify *)
Definition modify_step (fn : T -> T) (st : State) : T * (list Handler * State) :=
  let new_value := fn (value_ st) in (new_value, set_value_step new_value st).

(* @ src/batteries/async/watch_decl.hpp 222-262 Watch::clamp_min_value, clamp_max_value *)
Definition clamp_min_value (order_fn : T -> T -> bool) (lower_bound : T) : Op :=
  Modify (fun observed => if order_fn observed lower_bound then lower_bound else observed).
Definition clamp_max_value (order_fn : T -> T -> bool) (upper_bound : T) : Op :=
  Modify (fun observed => if order_fn upper_bound observed then upper_bound else observed).

(** The handler, when it is to be called at once, and with what. *)
(* @ src/batteries/async/watch_decl.hpp 163-187 Watch::async_wait *)
Definition async_wait_step (h : Handler) (st : State) : option (StatusOr T) * State :=
  let with_observers obs := mkState (closed_ st) (value_ st) obs (S (next_id st)) (called st) (history st) (threads st) in
  if closed_ st then (Some (Err kClosed), with_observers (observers_ st))
  else if decide (value_ st = last_seen h) then (None, with_observers (observers_ st ++ [h]))
  else (Some (OkVal (value_ st)), with_observers (observers_ st)).

Definition result_of (h : nat) (cs : list (Handler * StatusOr T)) : option (StatusOr T) :=
  snd <$> (snd <$> list_find (fun c : Handler * StatusOr T => id c.1 = h) cs).

(** Waits for the value to be another one than [v]: the handler resumes this
    thread. *)
(* @ src/batteries/async/watch_impl.hpp 19-25 Watch::await_not_equal *)
Definition await_not_equal_step (i : nat) (v : T) (pred : T -> bool) (rest : list Op) (rs : list (StatusOr T)) (st : State) : State :=
  let h := mkHandler (next_id st) v in
  let '(now, st) := async_wait_step h st in
  set_thread i (mkThread
    match now with Some r => Invoke [h] r (Some (id h, pred)) | None => Sleep (id h) pred end rest rs) st.

(* @ src/batteries/async/watch_decl.hpp 204-215 Watch::await_true *)
Definition await_true_step (i : nat) (p : Pc) (rest : list Op) (rs : list (StatusOr T)) (st : State) : State :=
  match p with
  | Test v pred =>
      if pred v then set_thread i (mkThread Idle rest (rs ++ [OkVal v])) st else await_not_equal_step i v pred rest rs st
  | Sleep h pred =>
      match result_of h (called st) with
      | Some (OkVal v) => set_thread i (mkThread (Test v pred) rest rs) st
      | Some (Err s) => set_thread i (mkThread Idle rest (rs ++ [Err s])) st
      | None => st
      end
  | _ => st
  end.

(* @ src/batteries/async/watch_decl.hpp 86-127 Watch::close, is_closed, set_value, get_value *)
Definition op_step (i : nat) (op : Op) (rest : list Op) (rs : list (StatusOr T)) (st : State) : State :=
  match op with
  | Close => let '(hs, st) := close_step st in set_thread i (mkThread (Invoke hs (Err kClosed) None) rest rs) st
  | SetValue v => let '(hs, st) := set_value_step v st in set_thread i (mkThread (Invoke hs (OkVal v) None) rest rs) st
  | GetValue => set_thread i (mkThread Idle rest (rs ++ [OkVal (value_ st)])) st
  | Modify fn =>
      let '(v, (hs, st)) := modify_step fn st in set_thread i (mkThread (Invoke hs (OkVal v) None) rest (rs ++ [OkVal v])) st
  | AsyncWait v =>
      let h := mkHandler (next_id st) v in
      let '(now, st) := async_wait_step h st in
      set_thread i (mkThread match now with Some r => Invoke [h] r None | None => Idle end rest rs) st
  | AwaitTrue pred => set_thread i (mkThread (Test (value_ st) pred) rest rs) st
  end.

Definition step (i : nat) (st : State) : State :=
  match threads st !! i with
  | None => st
  | Some (mkThread Idle [] _) => st
  | Some (mkThread Idle (op :: rest) rs) => op_step i op rest rs st
  | Some (mkThread (Invoke (h :: hs) r sleep) rest rs) =>
      set_thread i (mkThread (Invoke hs r sleep) rest rs)
        (mkState (closed_ st) (value_ st) (observers_ st) (next_id st) (called st ++ [(h, r)]) (history st) (threads st))
  | Some (mkThread (Invoke [] r None) rest rs) => set_thread i (mkThread Idle rest rs) st
  | Some (mkThread (Invoke [] r (Some (h, pred))) rest rs) => set_thread i (mkThread (Sleep h pred) rest rs) st
  | Some (mkThread p rest rs) => await_true_step i p rest rs st
  end.

Definition run (schedule : list nat) (st : State) : State := foldl (fun st i => step i st) st schedule.

Definition initial_state (v : T) (programs : list (list Op)) : State :=
  mkState false v [] 0 [] [v] ((fun ops => mkThread Idle ops []) <$> programs).

(** ** The invariant *)

Definition pending (th : Thread) : list Handler := match pc th with Invoke hs _ _ => hs | _ => [] end.

Definition ids (hs : list Handler) : list nat := id <$> hs.

Definition result_ok (closed : bool) (hist : list T) (c : Handler * StatusOr T) : Prop :=
  match c.2 with
  | OkVal v => v <> last_seen c.1 /\ v ∈ hist
  | Err s => s = kClosed /\ closed = true
  end.

Definition thread_ok (closed : bool) (hist : list T) (th : Thread) : Prop :=
  match pc th with Invoke hs r _ => Forall (fun h => result_ok closed hist (h, r)) hs | _ => True end.

Record Inv (st : State) : Prop := {
  inv_ids : forall P, cnt P (ids (observers_ st)) + sum ((fun th => cnt P (ids (pending th))) <$> threads st) + cnt P (ids (called st).*1)
    = cnt P (seq 0 (next_id st));
  inv_seen : Forall (fun h => last_seen h = value_ st) (observers_ st);
  inv_closed : closed_ st = true -> observers_ st = [];
  inv_value : value_ st ∈ history st;
  inv_called : Forall (result_ok (closed_ st) (history st)) (called st);
  inv_threads : Forall (thread_ok (closed_ st) (history st)) (threads st) }.

Lemma result_ok_mono (c c' : bool) (hist hist' : list T) (x : Handler * StatusOr T) :
  (c = true -> c' = true) -> (forall v, v ∈ hist -> v ∈ hist') -> result_ok c hist x -> result_ok c' hist' x.
Proof. unfold result_ok. destruct (x.2); naive_solver. Qed.

Lemma watch_thread_inv (st : State) (i : nat) (th th' : Thread) (c : bool) (v : T) (obs : list Handler) (n : nat)
    (cs : list (Handler * StatusOr T)) (hist : list T) :
  Inv st -> threads st !! i = Some th ->
  (closed_ st = true -> c = true) -> (forall x, x ∈ history st -> x ∈ hist) ->
  (forall P, cnt P (ids obs) + cnt P (ids (pending th')) + cnt P (ids cs.*1) + cnt P (seq 0 (next_id st)) =
     cnt P (ids (observers_ st)) + cnt P (ids (pending th)) + cnt P (ids (called st).*1) + cnt P (seq 0 n)) ->
  Forall (fun h => last_seen h = v) obs -> (c = true -> obs = []) -> v ∈ hist ->
  Forall (result_ok c hist) cs -> thread_ok c hist th' ->
  Inv (mkState c v obs n cs hist (<[i := th']> (threads st))).
Proof.
  intros HI Hi Hc Hhist HP Hobs Hcl Hv Hcs Hth. split; cbn [closed_ value_ observers_ next_id called history threads]; try done.
  - intros P. rewrite (sum_insert _ _ _ _ _ Hi). specialize (HP P). pose proof (inv_ids _ HI P). lia.
  - apply Forall_insert; [|done]. eapply list.Forall_impl; [apply (inv_threads _ HI)|]. intros u. unfold thread_ok. destruct (pc u); try done.
    intros Hu. eapply list.Forall_impl; [exact Hu|]. intros h. by apply result_ok_mono.
Qed.

Lemma cnt_fmap {A B} (P : B -> bool) (f : A -> B) (l : list A) : cnt P (f <$> l) = cnt (fun x => P (f x)) l.
Proof. unfold cnt. by rewrite <- list_fmap_compose. Qed.

Lemma seq_snoc_cnt (P : nat -> bool) (n : nat) : cnt P (seq 0 (S n)) = cnt P (seq 0 n) + Z.b2z (P n).
Proof. rewrite seq_S, cnt_app, cnt_cons, cnt_nil. simpl. lia. Qed.

Ltac thread_step HI Hi :=
  unfold set_thread; cbn [closed_ value_ observers_ next_id called history threads];
  apply (watch_thread_inv _ _ _ _ _ _ _ _ _ _ HI Hi); try done; try apply HI; try congruence.

Lemma await_step_inv (st : State) (i : nat) (v : T) (th : Thread) (sleep : option (nat * (T -> bool))) (p : Pc) (rest : list Op) (rs : list (StatusOr T)) :
  Inv st -> threads st !! i = Some th -> pending th = [] -> pending (mkThread p rest rs) = [] ->
  Inv (let h := mkHandler (next_id st) v in
       let '(now, st) := async_wait_step h st in
       set_thread i (mkThread match now with Some r => Invoke [h] r sleep | None => p end rest rs) st).
Proof.
  intros HI Hi Hth Hp. unfold async_wait_step. destruct (closed_ st) eqn:Ec; [|destruct (decide (value_ st = v)) as [Ev|Ev]]; cbn [last_seen].
  - thread_step HI Hi.
    + intros P. rewrite Hth, seq_snoc_cnt. unfold ids. simpl. rewrite cnt_cons, !cnt_nil. simpl. lia.
    + intros _. by apply HI.
    + eapply list.Forall_impl; [apply HI|]. intros x. apply result_ok_mono; [by rewrite Ec|done].
    + by repeat constructor.
  - rewrite decide_True by done. thread_step HI Hi.
    + intros P. rewrite Hth, Hp, seq_snoc_cnt. unfold ids. rewrite fmap_app, cnt_app. simpl. rewrite cnt_cons, !cnt_nil. simpl. lia.
    + apply Forall_app. split; [apply HI|by repeat constructor].
    + rewrite <- Ec. apply (inv_called _ HI).
    + unfold pending, thread_ok in *. simpl in *. destruct p; try done. by subst.
  - rewrite decide_False by done. thread_step HI Hi.
    + intros P. rewrite Hth, seq_snoc_cnt. unfold ids. simpl. rewrite cnt_cons, !cnt_nil. simpl. lia.
    + rewrite <- Ec. apply (inv_called _ HI).
    + repeat constructor; [done|apply HI].
Qed.

Lemma take_inv (st : State) (i : nat) (v : T) (th : Thread) (rest : list Op) (rs : list (StatusOr T)) :
  Inv st -> threads st !! i = Some th -> pending th = [] ->
  Inv (let '(hs, st) := set_value_step v st in set_thread i (mkThread (Invoke hs (OkVal v) None) rest rs) st).
Proof.
  intros HI Hi Hth. unfold set_value_step. destruct (decide (v <> value_ st)) as [Hv|Hv].
  - thread_step HI Hi.
    + intros x Hx. apply elem_of_app. by left.
    + intros P. rewrite Hth. unfold pending, ids. simpl. rewrite !cnt_nil. lia.
    + apply elem_of_app. right. left.
    + eapply list.Forall_impl; [apply HI|]. intros x. apply result_ok_mono; [done|]. intros y Hy. apply elem_of_app. by left.
    + unfold thread_ok. simpl. eapply list.Forall_impl; [apply (inv_seen _ HI)|]. intros h Hh. split; simpl; [congruence|]. apply elem_of_app. right. left.
  - thread_step HI Hi.
    + intros P. rewrite Hth. done.
    + constructor.
Qed.

Lemma watch_step_inv (i : nat) (st : State) : Inv st -> Inv (step i st).
Proof.
  intros HI. unfold step. destruct (threads st !! i) as [th|] eqn:Hi; [|done].
  assert (thread_ok (closed_ st) (history st) th) as Hok by (eapply Forall_lookup_1; [apply HI|done]).
  destruct th as [p rest rs]. destruct p as [|[|h hs] r sleep|v pred|h pred].
  - destruct rest as [|[|v| |fn|v|pred] rest]; [done|..]; simpl.
    + thread_step HI Hi.
      * intros P. unfold pending, ids. simpl. rewrite !cnt_nil. lia.
      * eapply list.Forall_impl; [apply HI|]. intros x. by apply result_ok_mono.
      * unfold thread_ok. simpl. apply list.Forall_forall. intros h _. done.
    + by eapply (take_inv st i v).
    + by thread_step HI Hi.
    + by eapply (take_inv st i (fn (value_ st))).
    + by eapply (await_step_inv st i v _ None Idle).
    + by thread_step HI Hi.
  - destruct sleep as [[h pred]|]; by thread_step HI Hi.
  - unfold thread_ok in Hok. simpl in Hok. apply Forall_cons_iff in Hok as [Hh Hhs]. thread_step HI Hi.
    + intros P. unfold pending, ids. cbn [pc]. rewrite !fmap_app, cnt_app, !fmap_cons, !cnt_cons. simpl. rewrite cnt_nil. lia.
    + apply Forall_app. split; [apply HI|by repeat constructor].
  - simpl. destruct (pred v); [by thread_step HI Hi|]. by eapply (await_step_inv st i v _ (Some (next_id st, pred)) (Sleep (next_id st) pred)).
  - simpl. destruct (result_of h (called st)) as [[v|s]|]; [by thread_step HI Hi..|done].
Qed.

Lemma watch_run_inv (schedule : list nat) (st : State) : Inv st -> Inv (run schedule st).
Proof. revert st. induction schedule as [|i schedule IH]; intros st HI; [done|]. by apply IH, watch_step_inv. Qed.

Lemma watch_initial_inv (v : T) (programs : list (list Op)) : Inv (initial_state v programs).
Proof.
  split; simpl; try done.
  - intros P. rewrite <- list_fmap_compose. rewrite sum_all_zero; [done|]. intros j ops Hj. done.
  - left.
  - apply list.Forall_fmap, list.Forall_forall. intros ops _. done.
Qed.

(** C28: In every interleaving of the operations of a watch: each handler is called
    exactly once, is about to be called by some thread, or is registered; one
    that has been called got a value that the watch has had and that is not
    the one its caller had seen, or the closed status of a watch that has been
    closed; and no wakeup is lost: while a handler is registered the watch is
    open and has the value that the caller had seen. *)
Theorem watch_mutex_correct (v : T) (programs : list (list Op)) (schedule : list nat) :
  let st := run schedule (initial_state v programs) in
  ids (observers_ st ++ concat (pending <$> threads st) ++ (called st).*1) ≡ₚ seq 0 (next_id st) /\
  Forall (result_ok (closed_ st) (history st)) (called st) /\
  (forall h, h ∈ observers_ st -> closed_ st = false /\ value_ st = last_seen h).
Proof.
  intros st. assert (Inv st) as HI by apply watch_run_inv, watch_initial_inv. split_and!.
  - apply cnt_permutation. intros P. rewrite <- (inv_ids _ HI P). unfold ids.
    rewrite !fmap_app, !cnt_app, !cnt_fmap, cnt_concat, <- list_fmap_compose. unfold compose.
    replace (sum ((fun th => cnt P (id <$> pending th)) <$> threads st)) with (sum ((fun th => cnt (fun x => P (id x)) (pending th)) <$> threads st)); [lia|].
    f_equal. apply list_fmap_ext. intros j th _. by rewrite cnt_fmap.
  - apply (inv_called _ HI).
  - intros h Hh. pose proof (inv_seen _ HI) as Hs. rewrite list.Forall_forall in Hs. rewrite (Hs h Hh). split; [|done].
    destruct (closed_ st) eqn:E; [|done]. rewrite (inv_closed _ HI E) in Hh. by apply elem_of_nil in Hh.
Qed.
End watch.

(** ** Examples *)

Definition sample_programs : list (list (Op (T := Z))) := [[AwaitTrue (fun v => 3 <=? v)]; [SetValue 1; Modify (Z.add 2)]; [AsyncWait 3; Close]].

(** The waiter goes to sleep twice; the handler that is registered last gets
    the closed status. *)
Example watch_run :
  let st := run (concat (replicate 12 [0; 0; 1]%nat) ++ replicate 8 2%nat) (initial_state 0 sample_programs) in
  (results <$> threads st) = [[OkVal 3]; [OkVal 3]; []] /\ (snd <$> called st) = [OkVal 1; OkVal 3; Err kClosed].
Proof. vm_compute. done. Qed.
