(* ===== verification/Mutex.v ===== *)
(** * Mutex: a ticket lock

    [async/mutex.hpp].  [acquire] takes a ticket from [next_ticket_] and waits
    until the watch [current_ticket_], a [Cell] here, shows it; [release]
    moves the watch on.  Threads run lists of critical sections
    ([with_lock]); a section reads the protected value in one step and writes
    it back in another, so that nothing but the lock makes it atomic.  The
    value a wait returns is chosen by the schedule among those the watch has
    held: a wake-up may carry a value that is no longer current. *)

From S2P Require Import Prelude Status Watch WatchCell.
Open Scope Z_scope.

Section mutex.
Context {A : Type}.

Abbreviation Action := (A -> A).

(** Where a thread is; the last argument is the critical sections it still
    has to run, the current one first. *)
Inductive Pc : Type :=
| Idle (acts : list Action)
| GetCurrent (my_ticket : Z) (acts : list Action)
| Compare (my_ticket latest : Z) (acts : list Action)
| AwaitNotEqual (my_ticket last_seen : Z) (acts : list Action)
| Locked (my_ticket : Z) (acts : list Action)
| Writing (my_ticket : Z) (new_value : A) (acts : list Action)
| Releasing (my_ticket : Z) (acts : list Action)
| CheckFailed.

(* @ src/batteries/async/mutex.hpp 286-288 Mutex *)
Record MutexState : Type := mkMutex {
  next_ticket_ : Z;
  current_ticket_ : Cell;
  value_ : A }.

(** [claims]: the critical sections in the order in which their tickets were
    taken (not in the program). *)
Record State : Type := mkState { mutex : MutexState; threads : list Pc; claims : list Action }.

(* @ src/batteries/async/mutex.hpp 262-265 Mutex::acquire *)
Definition take_ticket (m : MutexState) : Z * MutexState :=
  (next_ticket_ m, mkMutex (u64 (next_ticket_ m + 1)) (current_ticket_ m) (value_ m)).

(* @ src/batteries/async/mutex.hpp 281-284 Mutex::release *)
Definition release (m : MutexState) : MutexState :=
  mkMutex (next_ticket_ m) (cell_apply (CellRmw (FetchAdd 1)) (current_ticket_ m)) (value_ m).

(** The loop test of [acquire], and the check after the loop. *)
(* @ src/batteries/async/mutex.hpp 269-274 Mutex::acquire *)
Definition compare (my_ticket latest : Z) (acts : list Action) : Pc :=
  if latest <? my_ticket then AwaitNotEqual my_ticket latest acts
  else if latest =? my_ticket then Locked my_ticket acts
  else CheckFailed.

(** [choice]: which of the values the watch has held the wait returns; a
    wait whose choice is not among them stays asleep.  The watch of a mutex
    is not closed while it is in use. *)
(* @ src/batteries/async/mutex.hpp 245-276 Mutex::with_lock, acquire *)
Definition thread_step (choice : nat) (m : MutexState) (pc : Pc) : MutexState * Pc :=
  match pc with
  | Idle (act :: acts) => let '(t, m') := take_ticket m in (m', GetCurrent t (act :: acts))
  | GetCurrent t acts => (m, Compare t (cell_value (current_ticket_ m)) acts)
  | Compare t latest acts => (m, compare t latest acts)
  | AwaitNotEqual t last acts =>
      (m, match cell_past (current_ticket_ m) !! choice with Some v => Compare t v acts | None => pc end)
  | Locked t (act :: acts) => (m, Writing t (act (value_ m)) acts)
  | Writing t v acts => (mkMutex (next_ticket_ m) (current_ticket_ m) v, Releasing t acts)
  | Releasing t acts => (release m, Idle acts)
  | _ => (m, pc)
  end.

Definition claim (pc : Pc) : list Action := match pc with Idle (act :: _) => [act] | _ => [] end.

Definition step (i choice : nat) (st : State) : State :=
  match threads st !! i with
  | Some pc =>
      let '(m, pc') := thread_step choice (mutex st) pc in
      mkState m (<[i := pc']> (threads st)) (claims st ++ claim pc)
  | None => st
  end.

Definition run (schedule : list (nat * nat)) (st : State) : State :=
  foldl (fun st ic => step ic.1 ic.2 st) st schedule.

Definition initial_state (init_value : A) (work : list (list Action)) : State :=
  mkState (mkMutex 0 (new_cell 0) init_value) (Idle <$> work) [].

(** The thread holds the lock. *)
Definition inside (pc : Pc) : bool :=
  match pc with Locked _ _ | Writing _ _ _ | Releasing _ _ => true | _ => false end.

Definition finished (pc : Pc) : bool := match pc with Idle [] => true | _ => false end.

(** The thread sleeps in [await_not_equal], with no reason to wake up. *)
Definition asleep (m : MutexState) (pc : Pc) : bool :=
  match pc with AwaitNotEqual _ last _ => cell_value (current_ticket_ m) =? last | _ => false end.

(** ** The invariant *)

Definition ticket (pc : Pc) : option Z :=
  match pc with
  | GetCurrent t _ | Compare t _ _ | AwaitNotEqual t _ _ | Locked t _ | Writing t _ _ | Releasing t _ => Some t
  | _ => None
  end.

(** The critical sections for which the thread has not yet taken a ticket. *)
Definition unclaimed (pc : Pc) : Z :=
  match pc with
  | Idle acts | Writing _ _ acts | Releasing _ acts => Z.of_nat (length acts)
  | GetCurrent _ acts | Compare _ _ acts | AwaitNotEqual _ _ acts | Locked _ acts => Z.of_nat (length acts) - 1
  | CheckFailed => 0
  end.

Definition run_sections (init_value : A) (acts : list Action) : A := foldl (fun v act => act v) init_value acts.

Section invariant.
Context (init_value : A) (total : Z).

(** Sections whose write has been done: one more than the tickets released
    while the holder is between its write and its release. *)
Definition pc_ok (m : MutexState) (cs : list Action) (pc : Pc) : Prop :=
  let cur := cell_value (current_ticket_ m) in
  match pc with
  | Idle _ => True
  | GetCurrent t acts => cs !! Z.to_nat t = head acts /\ acts <> []
  | Compare t latest acts => cs !! Z.to_nat t = head acts /\ acts <> [] /\ latest <= cur
  | AwaitNotEqual t last acts => cs !! Z.to_nat t = head acts /\ acts <> [] /\ last <= cur /\ last < t
  | Locked t acts =>
      cs !! Z.to_nat t = head acts /\ acts <> [] /\ t = cur /\
      value_ m = run_sections init_value (take (Z.to_nat cur) cs)
  | Writing t v _ => t = cur /\ v = run_sections init_value (take (S (Z.to_nat cur)) cs)
  | Releasing t _ => t = cur /\ value_ m = run_sections init_value (take (S (Z.to_nat cur)) cs)
  | CheckFailed => False
  end.

Record Inv (st : State) : Prop := {
  inv_next : next_ticket_ (mutex st) = Z.of_nat (length (claims st));
  inv_current : 0 <= cell_value (current_ticket_ (mutex st)) <= next_ticket_ (mutex st);
  inv_past : Forall (fun v => v <= cell_value (current_ticket_ (mutex st))) (cell_past (current_ticket_ (mutex st)));
  inv_total : next_ticket_ (mutex st) + sum (unclaimed <$> threads st) = total;
  inv_tickets : forall i pc t, threads st !! i = Some pc -> ticket pc = Some t ->
    cell_value (current_ticket_ (mutex st)) <= t < next_ticket_ (mutex st);
  inv_unique : forall i j pc pc' t, threads st !! i = Some pc -> threads st !! j = Some pc' ->
    ticket pc = Some t -> ticket pc' = Some t -> i = j;
  inv_all : forall t, cell_value (current_ticket_ (mutex st)) <= t < next_ticket_ (mutex st) ->
    exists i pc, threads st !! i = Some pc /\ ticket pc = Some t;
  inv_pc : forall i pc, threads st !! i = Some pc -> pc_ok (mutex st) (claims st) pc;
  inv_value : (forall i pc, threads st !! i = Some pc -> inside pc = false) ->
    value_ (mutex st) = run_sections init_value (take (Z.to_nat (cell_value (current_ticket_ (mutex st)))) (claims st)) }.

Hypothesis Htotal : total < 2 ^ 64.

Lemma inside_ticket (m : MutexState) (cs : list Action) (pc : Pc) :
  pc_ok m cs pc -> inside pc = true -> ticket pc = Some (cell_value (current_ticket_ m)).
Proof. destruct pc; simpl; try done; naive_solver. Qed.

Lemma pc_unclaimed (m : MutexState) (cs : list Action) (pc : Pc) : pc_ok m cs pc -> 0 <= unclaimed pc.
Proof. destruct pc as [|? acts|? ? acts|? ? acts|? acts| | |]; simpl; try lia; destruct acts; simpl; naive_solver lia. Qed.

Lemma unclaimed_nonneg (st : State) : Inv st -> Forall (fun pc => 0 <= unclaimed pc) (threads st).
Proof.
  intros HI. apply list.Forall_lookup. intros i pc Hi. eapply pc_unclaimed. by apply (inv_pc _ HI i).
Qed.

Lemma next_bound (st : State) : Inv st -> next_ticket_ (mutex st) <= total.
Proof.
  intros HI. pose proof (inv_total _ HI). pose proof (sum_nonneg unclaimed (threads st) (unclaimed_nonneg st HI)). lia.
Qed.

(** Only the thread with the current ticket can be inside. *)
Lemma others_outside (st : State) (i j : nat) (pc q : Pc) :
  Inv st -> threads st !! i = Some pc -> ticket pc = Some (cell_value (current_ticket_ (mutex st))) ->
  threads st !! j = Some q -> j <> i -> inside q = false.
Proof.
  intros HI Hi Ht Hj Hne. destruct (inside q) eqn:E; [|done]. destruct Hne.
  apply (inv_unique _ HI j i q pc (cell_value (current_ticket_ (mutex st))) Hj Hi); [|done].
  eapply inside_ticket; [by apply (inv_pc _ HI j)|done].
Qed.

Lemma pc_ok_outside (m m' : MutexState) (cs : list Action) (pc : Pc) :
  inside pc = false -> cell_value (current_ticket_ m) <= cell_value (current_ticket_ m') ->
  pc_ok m cs pc -> pc_ok m' cs pc.
Proof. destruct pc; simpl; try done; intros _ Hle H; destruct_and?; split_and?; done || lia. Qed.

Section preserve.
Context (m : MutexState) (ts : list Pc) (cs : list Action) (i : nat) (pc : Pc).
Hypothesis HI : Inv (mkState m ts cs).
Hypothesis Hi : ts !! i = Some pc.

(** A step of a thread that keeps its ticket; it may change the value when it
    holds the current ticket. *)
Lemma inv_keep (v : A) (pc' : Pc) :
  ticket pc' = ticket pc -> unclaimed pc' = unclaimed pc ->
  v = value_ m \/ ticket pc = Some (cell_value (current_ticket_ m)) ->
  inside pc' = true \/ (inside pc' = false /\ inside pc = false) ->
  pc_ok (mkMutex (next_ticket_ m) (current_ticket_ m) v) cs pc' ->
  (inside pc' = false -> v = value_ m) ->
  Inv (mkState (mkMutex (next_ticket_ m) (current_ticket_ m) v) (<[i := pc']> ts) cs).
Proof using HI Hi.
  intros Ht Hu Hv Hin Hok Hval. destruct HI as [H1 H2 H3 H4 H5 H6 H7 H8 H9]. simpl in *. split; simpl; try done.
  - rewrite (sum_insert unclaimed ts i pc pc' Hi). lia.
  - intros j q t [[-> ->]|[Hj Hq]]%(list_insert_cases ts i j pc pc' q Hi) Hqt.
    + apply (H5 i pc); congruence.
    + by apply (H5 j q).
  - intros j k q q' t [[-> ->]|[Hj Hq]]%(list_insert_cases ts i j pc pc' q Hi)
      [[-> ->]|[Hk Hq']]%(list_insert_cases ts i k pc pc' q' Hi) E E'; try done.
    + rewrite Ht in E. by apply (H6 i k pc q' t).
    + rewrite Ht in E'. by apply (H6 j i q pc t).
    + by apply (H6 j k q q' t).
  - intros t Hr. destruct (H7 t Hr) as (j & q & Hq & E). destruct (decide (j = i)) as [->|Hne].
    + exists i, pc'. split; [by apply (list_insert_here ts i pc)|]. rewrite Ht. congruence.
    + exists j, q. by rewrite list_lookup_insert_ne.
  - intros j q [[-> ->]|[Hj Hq]]%(list_insert_cases ts i j pc pc' q Hi); [done|].
    destruct Hv as [->|Hv]; [destruct m; by apply (H8 j)|].
    apply (pc_ok_outside m); [|done|by apply (H8 j)].
    by apply (others_outside (mkState m ts cs) i j pc).
  - intros Hall. pose proof (Hall i pc' ltac:(by apply (list_insert_here ts i pc))) as Hout.
    rewrite (Hval Hout). apply H9. intros j q Hq. destruct (decide (j = i)) as [->|Hne].
    + rewrite Hi in Hq. injection Hq as <-. by destruct Hin as [Hin|[_ Hin]]; [congruence|].
    + apply (Hall j q). by rewrite list_lookup_insert_ne.
Qed.

Lemma mutex_inv_local (pc' : Pc) :
  ticket pc' = ticket pc -> unclaimed pc' = unclaimed pc ->
  inside pc' = true \/ (inside pc' = false /\ inside pc = false) -> pc_ok m cs pc' ->
  Inv (mkState m (<[i := pc']> ts) cs).
Proof using HI Hi.
  intros Ht Hu Hin Hok.
  pose proof (inv_keep (value_ m) pc' Ht Hu (or_introl eq_refl) Hin) as H. destruct m. by apply H.
Qed.

(** The value, when the lock is free and thread [i] is next. *)
Lemma value_when_next (t : Z) :
  ticket pc = Some t -> t = cell_value (current_ticket_ m) -> inside pc = false ->
  value_ m = run_sections init_value (take (Z.to_nat t) cs).
Proof using HI Hi.
  intros Ht -> Hout. apply (inv_value _ HI). intros j q Hq. simpl in *. destruct (decide (j = i)) as [->|Hne].
  - rewrite Hi in Hq. by injection Hq as <-.
  - by apply (others_outside (mkState m ts cs) i j pc q HI Hi Ht Hq).
Qed.

Lemma inv_compare (t latest : Z) (acts : list Action) :
  pc = Compare t latest acts -> Inv (mkState m (<[i := compare t latest acts]> ts) cs).
Proof using HI Hi.
  intros Hpc. pose proof (inv_pc _ HI i pc Hi) as Hok. pose proof (inv_tickets _ HI i pc t Hi) as Ht.
  rewrite Hpc in Hok, Ht. simpl in *. specialize (Ht eq_refl). destruct Hok as (Hcs & Hne & Hle).
  unfold compare. destruct (latest <? t) eqn:E1; bool_cases; [|destruct (latest =? t) eqn:E2; bool_cases; [|lia]].
  - apply mutex_inv_local; rewrite ?Hpc; simpl; try done. all: first [by right | by split_and!].
  - apply mutex_inv_local; rewrite ?Hpc; simpl; try done; first [by left|split_and!; [done|done|lia|]].
    replace (cell_value (current_ticket_ m)) with t by lia. apply value_when_next; rewrite ?Hpc; (done || lia).
Qed.

Lemma inv_take_ticket (act : Action) (acts : list Action) :
  pc = Idle (act :: acts) ->
  Inv (mkState (take_ticket m).2 (<[i := GetCurrent (next_ticket_ m) (act :: acts)]> ts) (cs ++ [act])).
Proof using HI Hi Htotal.
  intros Hpc. pose proof (next_bound _ HI) as Hb. pose proof (unclaimed_nonneg _ HI) as Hun.
  destruct HI as [H1 H2 H3 H4 H5 H6 H7 H8 H9]. simpl in *.
  pose proof (sum_lookup_le unclaimed ts i pc Hun Hi) as Hsum. rewrite Hpc in Hsum. simpl in Hsum.
  rewrite Nat2Z.inj_succ in Hsum.
  assert (u64 (next_ticket_ m + 1) = next_ticket_ m + 1) as Hw by (apply uwrap_small; lia).
  assert (forall n, (n <= length cs)%nat -> take n (cs ++ [act]) = take n cs) as Htake by (intros; by apply take_app_le).
  split; simpl; rewrite ?Hw; try done.
  - rewrite length_app. simpl. lia.
  - lia.
  - rewrite (sum_insert unclaimed ts i pc _ Hi), Hpc. simpl. lia.
  - intros j q t [[-> ->]|[Hj Hq]]%(list_insert_cases ts i j pc _ q Hi) Hqt.
    + injection Hqt as <-. lia.
    + specialize (H5 j q t Hq Hqt). lia.
  - intros j k q q' t [[-> ->]|[Hj Hq]]%(list_insert_cases ts i j pc _ q Hi)
      [[-> ->]|[Hk Hq']]%(list_insert_cases ts i k pc _ q' Hi) E E'; try done.
    + injection E as <-. specialize (H5 k q' _ Hq' E'). lia.
    + injection E' as <-. specialize (H5 j q _ Hq E). lia.
    + by apply (H6 j k q q' t).
  - intros t Hr. destruct (decide (t = next_ticket_ m)) as [->|Hne].
    + eexists i, _. split; [by apply (list_insert_here ts i pc)|done].
    + destruct (H7 t ltac:(lia)) as (j & q & Hq & E). exists j, q. split; [|done].
      rewrite list_lookup_insert_ne; [done|]. intros ->. rewrite Hi in Hq. injection Hq as <-. by rewrite Hpc in E.
  - intros j q [[-> ->]|[Hj Hq]]%(list_insert_cases ts i j pc _ q Hi).
    + simpl. split; [|done]. rewrite H1, Nat2Z.id, lookup_app_r, Nat.sub_diag by lia. done.
    + pose proof (H8 j q Hq) as Hok.
      assert (forall t, ticket q = Some t -> (cs ++ [act]) !! Z.to_nat t = cs !! Z.to_nat t) as Hl.
      { intros t Ht. specialize (H5 j q t Hq Ht). apply lookup_app_l. lia. }
      destruct q; simpl in *; rewrite ?(Hl _ eq_refl), ?Htake by lia; try done.
      all: specialize (H5 j _ _ Hq eq_refl); destruct_and?; split_and?; try done; rewrite Htake by lia; done.
  - intros Hall. rewrite Htake by lia. apply H9. intros j q Hq. destruct (decide (j = i)) as [->|Hne].
    + rewrite Hi in Hq. injection Hq as <-. by rewrite Hpc.
    + apply (Hall j q). by rewrite list_lookup_insert_ne.
Qed.

Lemma inv_release (t : Z) (acts : list Action) :
  pc = Releasing t acts -> Inv (mkState (release m) (<[i := Idle acts]> ts) cs).
Proof using HI Hi Htotal.
  intros Hpc. pose proof (next_bound _ HI) as Hb. pose proof (inv_pc _ HI i pc Hi) as Hok.
  assert (ticket pc = Some (cell_value (current_ticket_ m))) as Htk
    by (eapply inside_ticket; [exact Hok|by rewrite Hpc]).
  pose proof (fun j q => others_outside _ i j pc q HI Hi Htk) as Hout.
  rewrite Hpc in Hok. simpl in Hok. destruct Hok as [-> Hval].
  destruct HI as [H1 H2 H3 H4 H5 H6 H7 H8 H9]. simpl in *.
  pose proof (H5 i pc _ Hi Htk) as Hcur.
  assert (u64 (cell_value (current_ticket_ m) + 1) = cell_value (current_ticket_ m) + 1) as Hw by (apply uwrap_small; lia).
  unfold release. split; simpl; rewrite ?Hw; try done.
  - lia.
  - constructor; [lia|]. eapply list.Forall_impl; [exact H3|]. simpl. lia.
  - rewrite (sum_insert unclaimed ts i pc _ Hi), Hpc. simpl. lia.
  - intros j q t [[-> ->]|[Hj Hq]]%(list_insert_cases ts i j pc _ q Hi) Hqt; [done|].
    specialize (H5 j q t Hq Hqt). destruct (decide (t = cell_value (current_ticket_ m))) as [->|]; [|lia].
    by destruct (Hj (H6 j i q pc _ Hq Hi Hqt Htk)).
  - intros j k q q' t [[-> ->]|[Hj Hq]]%(list_insert_cases ts i j pc _ q Hi)
      [[-> ->]|[Hk Hq']]%(list_insert_cases ts i k pc _ q' Hi) E E'; try done.
    by apply (H6 j k q q' t).
  - intros t Hr. destruct (H7 t ltac:(lia)) as (j & q & Hq & E). exists j, q. split; [|done].
    rewrite list_lookup_insert_ne; [done|]. intros ->. rewrite Hi in Hq. injection Hq as <-.
    rewrite Htk in E. injection E as <-. lia.
  - intros j q [[-> ->]|[Hj Hq]]%(list_insert_cases ts i j pc _ q Hi); [done|].
    apply (pc_ok_outside m); [by apply (Hout j)|simpl; lia|by apply (H8 j)].
  - intros _. rewrite Hval. do 2 f_equal. lia.
Qed.
End preserve.

Lemma mutex_inv_step (k choice : nat) (st : State) : Inv st -> Inv (step k choice st).
Proof using Htotal.
  intros HI. unfold step. destruct (threads st !! k) as [pc|] eqn:Hk; [|done].
  destruct st as [m ts cs]. simpl in *. pose proof (inv_pc _ HI k pc Hk) as Hok. simpl in Hok.
  destruct pc as [[|act acts]|t acts|t latest acts|t last acts|t [|act acts]|t v acts|t acts|];
    cbn [thread_step claim]; rewrite ?app_nil_r; try (rewrite (list_insert_id ts k _ Hk); exact HI).
  - by apply (inv_take_ticket m ts cs k _ HI Hk).
  - apply (mutex_inv_local m ts cs k _ HI Hk); simpl; [done|done|by right|].
    destruct Hok. by split_and!.
  - by apply (inv_compare m ts cs k _ HI Hk t latest).
  - destruct (cell_past (current_ticket_ m) !! choice) as [v|] eqn:Ev;
      [|rewrite (list_insert_id ts k _ Hk); exact HI].
    apply (mutex_inv_local m ts cs k _ HI Hk); simpl; [done|done|by right|]. destruct Hok as (Hcs & Hne & _).
    split_and!; [done|done|]. pose proof (inv_past _ HI) as Hp. rewrite list.Forall_lookup in Hp. by apply (Hp choice).
  - apply (mutex_inv_local m ts cs k _ HI Hk); simpl; [done|lia|by left|]. destruct Hok as (Hcs & _ & -> & ->).
    split; [done|]. simpl in Hcs. rewrite (take_S_r _ _ _ Hcs). unfold run_sections. by rewrite foldl_app.
  - destruct Hok as [-> ->]. apply (inv_keep m ts cs k _ HI Hk); simpl; done || by (right; done) || by left.
  - by apply (inv_release m ts cs k _ HI Hk t).
Qed.

Lemma mutex_inv_run (schedule : list (nat * nat)) (st : State) : Inv st -> Inv (run schedule st).
Proof using Htotal.
  revert st. induction schedule as [|[k c] schedule IH]; intros st HI; [done|]. by apply IH, mutex_inv_step.
Qed.
End invariant.

Definition total_sections (work : list (list Action)) : Z := sum ((fun acts => Z.of_nat (length acts)) <$> work).

Lemma mutex_inv_initial (init_value : A) (work : list (list Action)) :
  Inv init_value (total_sections work) (initial_state init_value work).
Proof.
  assert (forall i pc, (Idle <$> work) !! i = Some pc -> exists acts, pc = Idle acts) as Hidle.
  { intros i pc Hi. rewrite list_lookup_fmap in Hi. destruct (work !! i); [|done]. injection Hi as <-. by eexists. }
  split; simpl; try done; try lia.
  - constructor; [simpl; lia|constructor].
  - unfold total_sections. by rewrite <- list_fmap_compose.
  - by intros i pc t (acts & ->)%Hidle [=].
  - by intros i j pc pc' t (acts & ->)%Hidle _ [=].
  - by intros i pc (acts & ->)%Hidle.
Qed.

(** ** Every section is claimed once *)

Definition pending (pc : Pc) : list Action :=
  match pc with
  | Idle acts | Writing _ _ acts | Releasing _ acts => acts
  | GetCurrent _ acts | Compare _ _ acts | AwaitNotEqual _ _ acts | Locked _ acts => tail acts
  | CheckFailed => []
  end.

Lemma thread_step_pending (choice : nat) (m m' : MutexState) (pc pc' : Pc) :
  thread_step choice m pc = (m', pc') -> pc' <> CheckFailed -> pending pc = claim pc ++ pending pc'.
Proof.
  destruct pc as [[|act acts]| | | |? [|? ?]| | |]; simpl; intros [= <- <-] Hne; try done.
  - unfold compare in *. by repeat case_if.
  - by destruct (_ !! _).
Qed.

Lemma run_pending (init_value : A) (total : Z) (schedule : list (nat * nat)) (st : State) :
  total < 2 ^ 64 -> Inv init_value total st ->
  claims (run schedule st) ++ concat (pending <$> threads (run schedule st)) ≡ₚ claims st ++ concat (pending <$> threads st).
Proof.
  intros Ht. revert st. induction schedule as [|[k c] schedule IH]; intros st HI; [done|]. simpl.
  pose proof (mutex_inv_step init_value total Ht k c st HI) as HI'. rewrite IH by done. revert HI'. unfold step.
  destruct (threads st !! k) as [pc|] eqn:Hk; [|done]. destruct (thread_step c (mutex st) pc) as [m' pc'] eqn:E.
  intros HI'. simpl. rewrite (concat_insert_perm pending (threads st) k pc pc' (claim pc) Hk); [by rewrite <- app_assoc|].
  erewrite (thread_step_pending c (mutex st) m' pc pc' E); [done|]. intros ->.
  exact (inv_pc _ _ _ HI' k _ (list_insert_here (threads st) k pc CheckFailed Hk)).
Qed.

(** C3: the mutex serialises its critical sections.  In every interleaving, and
    whatever values the waits return, at most one thread is inside, the check
    on the ticket never fails, and while nobody is inside the protected value
    is the result of running the sections released so far one after another,
    in the order in which their tickets were taken; when all threads are done these are all the sections. *)
Theorem mutex_serializes (init_value : A) (work : list (list Action)) (schedule : list (nat * nat)) :
  total_sections work < 2 ^ 64 ->
  let st := run schedule (initial_state init_value work) in
  (forall i, threads st !! i <> Some CheckFailed) /\
  (forall i j pc pc', threads st !! i = Some pc -> threads st !! j = Some pc' ->
     inside pc = true -> inside pc' = true -> i = j) /\
  (Forall (fun pc => inside pc = false) (threads st) ->
     value_ (mutex st) =
     run_sections init_value (take (Z.to_nat (cell_value (current_ticket_ (mutex st)))) (claims st))) /\
  (Forall (fun pc => finished pc = true) (threads st) ->
     value_ (mutex st) = run_sections init_value (claims st) /\ claims st ≡ₚ concat work).
Proof.
  intros Ht st. pose proof (mutex_inv_run init_value _ Ht schedule _ (mutex_inv_initial init_value work)) as HI. fold st in HI.
  split_and!.
  - intros i Hi. exact (inv_pc _ _ _ HI i _ Hi).
  - intros i j pc pc' Hi Hj Hin Hin'. apply (inv_unique _ _ _ HI i j pc pc' (cell_value (current_ticket_ (mutex st))) Hi Hj).
    + by apply (inside_ticket init_value (mutex st) (claims st)), Hin; apply (inv_pc _ _ _ HI i).
    + by apply (inside_ticket init_value (mutex st) (claims st)), Hin'; apply (inv_pc _ _ _ HI j).
  - intros Hall. rewrite list.Forall_lookup in Hall. by apply (inv_value _ _ _ HI).
  - intros Hall. rewrite list.Forall_lookup in Hall. split.
    + rewrite (inv_value _ _ _ HI); [|by intros i pc Hi%Hall; destruct pc as [[]| | | | | | |]].
      f_equal. apply take_ge.
      destruct (decide (cell_value (current_ticket_ (mutex st)) < next_ticket_ (mutex st))) as [Hlt|Hge].
      * destruct (inv_all _ _ _ HI (cell_value (current_ticket_ (mutex st)))) as (i & pc & Hi & E); [lia|].
        specialize (Hall i pc Hi). by destruct pc as [[]| | | | | | |].
      * pose proof (inv_next _ _ _ HI). lia.
    + pose proof (run_pending init_value _ schedule _ Ht (mutex_inv_initial init_value work)) as Hp. fold st in Hp.
      simpl in Hp. rewrite <- list_fmap_compose in Hp. simpl in Hp.
      assert (concat (pending <$> threads st) = []) as E.
      { clear Hp HI. assert (Forall (fun pc => finished pc = true) (threads st)) as H by (by apply list.Forall_lookup).
        induction H as [|pc ts Hpc Hts IH]; [done|]. rewrite fmap_cons. cbn [concat]. rewrite IH.
        - by destruct pc as [[]| | | | | | |].
        - intros i x Hi. by apply (Hall (S i)). }
      rewrite E, app_nil_r in Hp. rewrite Hp. by rewrite list_fmap_id.
Qed.

(** ** Progress *)

(** A run in which no thread takes a step while it is asleep. *)
Fixpoint awake_run (schedule : list (nat * nat)) (st : State) : Prop :=
  match schedule with
  | [] => True
  | (i, choice) :: rest =>
      (exists pc, threads st !! i = Some pc /\ asleep (mutex st) pc = false) /\ awake_run rest (step i choice st)
  end.

Definition weight (pc : Pc) : Z :=
  match pc with
  | Idle acts => 8 * Z.of_nat (length acts)
  | GetCurrent _ acts => 8 * Z.of_nat (length (tail acts)) + 5
  | Compare t latest acts => 8 * Z.of_nat (length (tail acts)) + (if latest <? t then 6 else 4)
  | AwaitNotEqual _ _ acts => 8 * Z.of_nat (length (tail acts)) + 5
  | Locked _ acts => 8 * Z.of_nat (length (tail acts)) + 3
  | Writing _ _ acts => 8 * Z.of_nat (length acts) + 2
  | Releasing _ acts => 8 * Z.of_nat (length acts) + 1
  | CheckFailed => 0
  end.

Lemma weight_nonneg (pc : Pc) : 0 <= weight pc.
Proof. destruct pc; simpl; try lia. case_if; lia. Qed.

(** The thread whose turn it is. *)
Definition next_up (m : MutexState) (pc : Pc) : Prop :=
  ticket pc = Some (cell_value (current_ticket_ m)) \/ (exists act acts, pc = Idle (act :: acts)).

Lemma step_weight (init_value : A) (cs : list Action) (m m' : MutexState) (pc pc' : Pc) :
  pc_ok init_value m cs pc -> next_up m pc -> thread_step 0 m pc = (m', pc') ->
  hd_error (cell_past (current_ticket_ m)) = Some (cell_value (current_ticket_ m)) ->
  asleep m pc = false /\ weight pc' < weight pc.
Proof.
  intros Hok Hnext E Hpast. destruct Hnext as [Ht|(act & acts & ->)]; [|injection E as <- <-; simpl; split; [done|lia]].
  assert (cell_past (current_ticket_ m) !! 0%nat = Some (cell_value (current_ticket_ m))) as H0
    by (by destruct (cell_past (current_ticket_ m))).
  destruct pc as [acts|t acts|t latest acts|t last acts|t [|act acts]|t v acts|t acts|]; try discriminate Ht;
    simpl in Ht, Hok, E; destruct_and?; try injection Ht as ->; try done.
  - injection E as <- <-. simpl. rewrite Z.ltb_irrefl. split; [done|lia].
  - injection E as <- <-. unfold compare. split; [done|].
    destruct (latest <? _) eqn:E1; [|destruct (latest =? _)]; simpl; rewrite ?E1; lia.
  - rewrite H0 in E. injection E as <- <-. simpl. rewrite Z.ltb_irrefl. split; [|lia]. apply Z.eqb_neq. lia.
  - injection E as <- <-. simpl. split; [done|lia].
  - injection E as <- <-. simpl. split; [done|lia].
  - injection E as <- <-. simpl. split; [done|lia].
Qed.

Lemma past_head_step (k c : nat) (st : State) :
  hd_error (cell_past (current_ticket_ (mutex st))) = Some (cell_value (current_ticket_ (mutex st))) ->
  let st' := step k c st in
  hd_error (cell_past (current_ticket_ (mutex st'))) = Some (cell_value (current_ticket_ (mutex st'))).
Proof.
  intros H. simpl. unfold step. destruct (threads st !! k) as [pc|]; [|done].
  by destruct pc as [[|act acts]|t acts|t latest acts|t last acts|t [|act acts]|t v acts|t acts|]; simpl.
Qed.

Lemma exists_next_up (init_value : A) (total : Z) (st : State) :
  Inv init_value total st -> ~ Forall (fun pc => finished pc = true) (threads st) ->
  exists i pc, threads st !! i = Some pc /\ next_up (mutex st) pc.
Proof.
  intros HI Hn.
  destruct (decide (cell_value (current_ticket_ (mutex st)) < next_ticket_ (mutex st))) as [Hlt|Hge].
  - destruct (inv_all _ _ _ HI (cell_value (current_ticket_ (mutex st)))) as (i & pc & Hi & Ht); [lia|].
    exists i, pc. split; [done|by left].
  - apply not_Forall_Exists in Hn; [|apply _]. apply Exists_exists in Hn as (pc & Hin & Hf).
    apply list_elem_of_lookup in Hin as [i Hi]. exists i, pc. split; [done|].
    destruct (ticket pc) as [t|] eqn:Et; [pose proof (inv_tickets _ _ _ HI i pc t Hi Et); lia|].
    right. pose proof (inv_pc _ _ _ HI i pc Hi) as Hok. destruct pc as [[|act acts]| | | | | | |]; try done; [by destruct Hf|].
    by exists act, acts.
Qed.

Lemma progress (init_value : A) (total : Z) (n : nat) (st : State) :
  total < 2 ^ 64 -> Inv init_value total st ->
  hd_error (cell_past (current_ticket_ (mutex st))) = Some (cell_value (current_ticket_ (mutex st))) ->
  sum (weight <$> threads st) <= Z.of_nat n ->
  exists schedule, awake_run schedule st /\ Forall (fun pc => finished pc = true) (threads (run schedule st)).
Proof.
  intros Ht. revert st. induction n as [|n IH]; intros st HI Hp Hn;
    (destruct (decide (Forall (fun pc => finished pc = true) (threads st))) as [Hf|Hf]; [by exists []|]);
    destruct (exists_next_up _ _ _ HI Hf) as (i & pc & Hi & Hnext);
    destruct (thread_step 0 (mutex st) pc) as [m' pc'] eqn:E;
    destruct (step_weight init_value (claims st) (mutex st) m' pc pc' (inv_pc _ _ _ HI i pc Hi) Hnext E Hp) as [Ha Hw];
    assert (Forall (fun pc => 0 <= weight pc) (threads st)) as Hnn
      by (apply list.Forall_forall; intros; apply weight_nonneg).
  - pose proof (sum_lookup_le weight (threads st) i pc Hnn Hi). pose proof (weight_nonneg pc'). lia.
  - assert (threads (step i 0 st) = <[i := pc']> (threads st)) as Hts by (unfold step; by rewrite Hi, E).
    destruct (IH (step i 0 st)) as (schedule & Hs & Hall).
    + by apply mutex_inv_step.
    + by apply past_head_step.
    + rewrite Hts, (sum_insert weight (threads st) i pc pc' Hi). lia.
    + exists ((i, 0%nat) :: schedule). split; [|done]. split; [|done]. by exists pc.
Qed.

(** C16: The mutex does not deadlock.  With fewer than 2^64 critical sections,
    from every reachable state the threads can run to the end by steps of
    threads that are awake: whenever some thread is unfinished, the one whose
    turn it is has a step to take. *)
Theorem mutex_progress (init_value : A) (work : list (list Action)) (schedule : list (nat * nat)) :
  total_sections work < 2 ^ 64 ->
  exists rest, awake_run rest (run schedule (initial_state init_value work)) /\
    Forall (fun pc => finished pc = true) (threads (run rest (run schedule (initial_state init_value work)))).
Proof.
  intros Ht. pose proof (mutex_inv_run init_value _ Ht schedule _ (mutex_inv_initial init_value work)) as HI.
  apply (progress init_value (total_sections work) (Z.to_nat (sum (weight <$> threads (run schedule (initial_state init_value work)))))); [done|done| |lia].
  assert (forall sch st, hd_error (cell_past (current_ticket_ (mutex st))) = Some (cell_value (current_ticket_ (mutex st))) ->
    hd_error (cell_past (current_ticket_ (mutex (run sch st)))) = Some (cell_value (current_ticket_ (mutex (run sch st))))) as H.
  { intros sch. induction sch as [|[k c] sch IH]; intros st Hst; [done|]. by apply IH, past_head_step. }
  by apply H.
Qed.
End mutex.

(** Three threads: the second one sleeps behind the first; the sections do
    not commute. *)
Definition sample_work : list (list (Z -> Z)) := [[fun v => v + 3]; [fun v => v * 2]; [fun v => v - 1]].

Definition sample_schedule : list (nat * nat) :=
  ((fun i => (i, O)) <$> [0; 1; 1; 0; 1; 0; 0; 0; 0; 1; 1; 1; 1; 1; 2; 2; 2; 2; 2; 2]%nat).

Lemma mutex_serializes_witness :
  let st := run sample_schedule (initial_state 5 sample_work) in
  Forall (fun pc => finished pc = true) (threads st) /\ value_ (mutex st) = 15 /\
  value_ (mutex st) = run_sections 5 (claims st).
Proof.
  intros st. assert (Forall (fun pc => finished pc = true) (threads st)) as Hf
    by (vm_compute; by repeat constructor).
  split; [done|]. split; [by vm_compute|].
  destruct (mutex_serializes 5 sample_work sample_schedule) as (_ & _ & _ & H); [by vm_compute|]. by apply H.
Defined.

Lemma mutex_progress_witness :
  exists rest, awake_run rest (run [(0%nat, 0%nat); (1%nat, 0%nat)] (initial_state 5 sample_work)) /\
    Forall (fun pc => finished pc = true) (threads (run rest (run [(0%nat, 0%nat); (1%nat, 0%nat)] (initial_state 5 sample_work)))).
Proof. apply (mutex_progress 5 sample_work [(0%nat, 0%nat); (1%nat, 0%nat)]). by vm_compute. Defined.
