(* ===== verification/Latch.v ===== *)
(** * Latch, Future and Promise: a value that is set once

    [async/latch.hpp], [async/future_decl.hpp], [async/future_impl.hpp].  The
    state of the latch is a watch, a [Cell] here; the value lies in a plain
    [Optional], written between two changes of the state.  A write and the
    reads of it are separate steps, so that a read that overlaps the write
    would be seen: the slot is then [Building].  A [Future] is a latch behind
    a reference count, and its operations are those of the latch. *)

From S2P Require Import Prelude Status Watch WatchCell.
Open Scope Z_scope.

(* @ src/batteries/async/latch.hpp 35-40 Latch::State *)
Definition kInitial : Z := 0.
Definition kSetting : Z := 1.
Definition kReady : Z := 3.

Section latch.
Context {V : Type}.

(** The memory of [value_]: [None], under construction, or constructed. *)
Inductive Slot : Type := Empty | Building | Full (v : StatusOr V).

(* @ src/batteries/async/latch.hpp 145-148 Latch *)
Record Latch : Type := mkLatch { state_ : Cell; value_ : Slot }.

Inductive Result : Type :=
| WasSet (first : bool)                      (* set_value *)
| IsReady (ready : bool)                     (* is_ready *)
| Got (r : StatusOr V)                       (* await, poll, async_get *)
| Invalidated
| CheckFailed
| Torn.                                      (* a read of a value under construction *)

Inductive Pc : Type :=
| SetError (s : StatusCode)
| SetFetchOr (v : StatusOr V)
| SetEmplace (v : StatusOr V)
| SetConstructed (v : StatusOr V)
| SetReady
| LoadReady
| PollLoad
| AwaitLoad
| AwaitTest (observed : StatusOr Z)
| AwaitNotEqual (last_seen : Z)
| GetState
| GetValue
| AsyncWait (last_seen : Z)
| AsyncHandler (result : StatusOr Z)
| Invalidate
| Finished (res : Result).

(** [BATT_CHECK(this->value_)] and [*this->value_]. *)
(* @ src/batteries/async/latch.hpp 112-115 Latch::get_ready_value_or_panic *)
Definition read_value (s : Slot) : Result :=
  match s with Empty => CheckFailed | Building => Torn | Full v => Got v end.

(** [AsyncGetHandler::operator()]: it passes on an error, reads the value when
    the latch is ready, and waits again otherwise. *)
(* @ src/batteries/async/latch.hpp 160-175 Latch::AsyncGetHandler::operator *)
Definition handler_step (s : Slot) (result : StatusOr Z) : Pc :=
  match result with
  | Err e => Finished (Got (Err e))
  | OkVal v => if v =? kReady then Finished (read_value s) else AsyncWait v
  end.

(** The loop of [await_true], called by [await_equal]. *)
(* @ src/batteries/async/watch_decl.hpp 607-633 WatchAtomic::await_true, await_equal *)
Definition await_test (observed : StatusOr Z) : Pc :=
  match observed with
  | OkVal v => if v =? kReady then GetState else AwaitNotEqual v
  | Err e => Finished (Got (Err e))
  end.

(** What a wait with this choice returns: a value the cell has held, or its
    closed status; [None] while it sleeps. *)
Definition wait_choice (choice : option nat) (c : Cell) : option (StatusOr Z) :=
  match choice with
  | Some k => OkVal <$> cell_past c !! k
  | None => Err <$> cell_final c
  end.

(* @ src/batteries/async/latch.hpp 56-142 Latch *)
Definition thread_step (choice : option nat) (l : Latch) (pc : Pc) : Latch * Pc :=
  let c := state_ l in
  let v := cell_value c in
  match pc with
  | SetError s => (l, if bool_decide (s = kOk) then Finished CheckFailed else SetFetchOr (Err s))
  | SetFetchOr r =>
      (mkLatch (cell_apply (CellRmw (FetchOr kSetting)) c) (value_ l),
       if v =? kInitial then SetEmplace r else Finished (WasSet false))
  | SetEmplace r => (mkLatch c Building, SetConstructed r)
  | SetConstructed r => (mkLatch c (Full r), SetReady)
  | SetReady => (mkLatch (cell_apply (CellRmw (Exchange kReady)) c) (value_ l), Finished (WasSet true))
  | LoadReady => (l, Finished (IsReady (v =? kReady)))
  | PollLoad => (l, if v =? kReady then GetState else Finished (Got (Err kUnavailable)))
  | AwaitLoad => (l, AwaitTest (OkVal v))
  | AwaitTest r => (l, await_test r)
  | AwaitNotEqual _ => (l, match wait_choice choice c with Some r => AwaitTest r | None => pc end)
  | GetState => (l, if v =? kReady then GetValue else Finished CheckFailed)
  | GetValue => (l, Finished (read_value (value_ l)))
  | AsyncWait _ => (l, match wait_choice choice c with Some r => AsyncHandler r | None => pc end)
  | AsyncHandler r => (l, handler_step (value_ l) r)
  | Invalidate => (mkLatch (close kClosed c) (value_ l), Finished Invalidated)
  | Finished _ => (l, pc)
  end.

Record State : Type := mkState { latch : Latch; threads : list Pc }.

Definition step (i : nat) (choice : option nat) (st : State) : State :=
  match threads st !! i with
  | Some pc => let '(l, pc') := thread_step choice (latch st) pc in mkState l (<[i := pc']> (threads st))
  | None => st
  end.

Definition run (schedule : list (nat * option nat)) (st : State) : State :=
  foldl (fun st s => step s.1 s.2 st) st schedule.

Definition new_latch : Latch := mkLatch (new_cell kInitial) Empty.

Definition initial_state (ops : list Pc) : State := mkState new_latch ops.

(** [async_get] starts with [AsyncWait kInitial]; [Promise::set_value],
    [Future::async_wait] and [Future::is_ready] are calls of the latch. *)
(* @ src/batteries/async/latch.hpp 181-185 Latch::async_get *)
Definition async_get : Pc := AsyncWait kInitial.

(* @ src/batteries/async/future_impl.hpp 38-80 Promise::set_value, Future::async_wait, is_ready *)
Definition promise_set_value (v : V) : Pc := SetFetchOr (OkVal v).
Definition future_async_wait : Pc := async_get.
Definition future_is_ready : Pc := LoadReady.

Definition is_start (pc : Pc) : bool :=
  match pc with
  | SetError s => negb (bool_decide (s = kOk))
  | SetFetchOr _ | LoadReady | PollLoad | AwaitLoad | Invalidate => true
  | AsyncWait last => last =? kInitial
  | _ => false
  end.

(** The value an operation wants to set. *)
Definition sets (pc : Pc) : option (StatusOr V) :=
  match pc with SetError s => Some (Err s) | SetFetchOr v => Some v | _ => None end.

(** A waiter with no reason to wake up. *)
Definition asleep (c : Cell) (pc : Pc) : bool :=
  match pc with
  | AwaitNotEqual last | AsyncWait last => (cell_value c =? last) && match cell_final c with None => true | _ => false end
  | _ => false
  end.

Definition finished (pc : Pc) : bool := match pc with Finished _ => true | _ => false end.

(** ** The invariant *)

(** The thread that has won the race to set the value. *)
Definition setting (pc : Pc) : option (StatusOr V) :=
  match pc with SetEmplace v | SetConstructed v => Some v | _ => None end.

Definition is_winner (pc : Pc) : bool :=
  match pc with SetEmplace _ | SetConstructed _ | SetReady | Finished (WasSet true) => true | _ => false end.

Definition wait_ok (c : Cell) (r : StatusOr Z) : Prop :=
  match r with OkVal v => v ∈ cell_past c | Err e => cell_final c = Some e end.

(** Where a thread that started with [start] can be, when [ops !! w] has won,
    if any has. *)
Definition pc_ok (l : Latch) (winner : option (nat * StatusOr V)) (i : nat) (start pc : Pc) : Prop :=
  let c := state_ l in
  match pc with
  | SetError s => pc = start /\ s <> kOk
  | SetFetchOr v => sets start = Some v
  | SetEmplace v => winner = Some (i, v) /\ sets start = Some v /\ cell_value c = kSetting /\ value_ l = Empty
  | SetConstructed v => winner = Some (i, v) /\ sets start = Some v /\ cell_value c = kSetting /\ value_ l = Building
  | SetReady => (exists v, winner = Some (i, v) /\ value_ l = Full v) /\ cell_value c = kSetting
  | Finished (WasSet true) => (exists v, winner = Some (i, v)) /\ cell_value c = kReady
  | Finished (WasSet false) => winner <> None /\ sets start <> None
  | LoadReady | PollLoad | AwaitLoad | Invalidate => pc = start
  | AwaitTest r => start = AwaitLoad /\ wait_ok c r
  | AsyncHandler r => start = async_get /\ wait_ok c r
  | AwaitNotEqual last => start = AwaitLoad /\ last ∈ cell_past c /\ last <> kReady
  | AsyncWait last => start = async_get /\ last ∈ cell_past c /\ last <> kReady
  | GetState | GetValue => cell_value c = kReady /\ (start = PollLoad \/ start = AwaitLoad)
  | Finished (IsReady b) => start = LoadReady /\ (b = true -> cell_value c = kReady)
  | Finished (Got r) =>
      sets start = None /\
      ((start = PollLoad /\ r = Err kUnavailable) \/
       (exists e, r = Err e /\ cell_final c = Some e) \/
       (value_ l = Full r /\ cell_value c = kReady))
  | Finished Invalidated => start = Invalidate /\ cell_final c <> None
  | Finished CheckFailed | Finished Torn => False
  end.

(** What the state says about the winner. *)
Definition latch_ok (ops : list Pc) (l : Latch) (winner : option (nat * StatusOr V)) : Prop :=
  match winner with
  | None => cell_value (state_ l) = kInitial /\ value_ l = Empty
  | Some (w, v) =>
      (exists start, ops !! w = Some start /\ sets start = Some v) /\
      (cell_value (state_ l) = kSetting \/ cell_value (state_ l) = kReady /\ value_ l = Full v)
  end.

Definition past_ok (c : Cell) : Prop :=
  cell_value c ∈ cell_past c /\
  Forall (fun v => v = kInitial \/ v = kSetting \/ v = kReady /\ cell_value c = kReady) (cell_past c).

Record Inv (ops : list Pc) (winner : option (nat * StatusOr V)) (st : State) : Prop := {
  inv_latch : latch_ok ops (latch st) winner;
  inv_past : past_ok (state_ (latch st));
  inv_winner : forall w v, winner = Some (w, v) -> exists pc, threads st !! w = Some pc /\ is_winner pc = true;
  inv_pcs : forall i pc, threads st !! i = Some pc ->
    exists start, ops !! i = Some start /\ pc_ok (latch st) winner i start pc }.

(** How one thread changes the latch under the others. *)
Record Grows (l l' : Latch) (winner winner' : option (nat * StatusOr V)) : Prop := {
  grows_past : forall v, v ∈ cell_past (state_ l) -> v ∈ cell_past (state_ l');
  grows_final : forall e, cell_final (state_ l) = Some e -> cell_final (state_ l') = Some e;
  grows_ready : cell_value (state_ l) = kReady -> cell_value (state_ l') = kReady /\ value_ l' = value_ l;
  grows_winner : winner <> None -> winner' = winner }.

Lemma grows_refl (l : Latch) (w : option (nat * StatusOr V)) : Grows l l w w.
Proof. by split. Qed.

Definition in_set (pc : Pc) : bool :=
  match pc with SetEmplace _ | SetConstructed _ | SetReady => true | _ => false end.

Lemma wait_ok_grows (l l' : Latch) (w w' : option (nat * StatusOr V)) (r : StatusOr Z) :
  Grows l l' w w' -> wait_ok (state_ l) r -> wait_ok (state_ l') r.
Proof. intros [H1 H2 _ _]. destruct r; simpl; eauto. Qed.

Lemma pc_ok_grows (l l' : Latch) (w w' : option (nat * StatusOr V)) (i : nat) (start pc : Pc) :
  Grows l l' w w' -> in_set pc = false \/ (cell_value (state_ l') = cell_value (state_ l) /\ value_ l' = value_ l) ->
  pc_ok l w i start pc -> pc_ok l' w' i start pc.
Proof.
  intros G Hs. pose proof (fun r => wait_ok_grows l l' w w' r G) as Hw. destruct G as [H1 H2 H3 H4].
  assert (forall x, w = Some x -> w' = Some x) as H4' by (intros x E; rewrite H4; congruence).
  destruct pc as [s|v|v|v| | | | |r|last| | |last|r| |[[]|b|r| | |]]; simpl; try done.
  all: try (destruct Hs as [|[-> ->]]; [done|]).
  - intros (? & ? & ? & ?). by split_and!; [apply H4'| | |].
  - intros (? & ? & ? & ?). by split_and!; [apply H4'| | |].
  - intros [(v & ? & ?) ?]. split; [|done]. exists v. split; [by apply H4'|done].
  - intros [? ?]. split; [done|by apply Hw].
  - intros (? & ? & ?). split_and!; [done|by apply H1|done].
  - intros [? ?]. split; [by apply H3|done].
  - intros [? ?]. split; [by apply H3|done].
  - intros (? & ? & ?). split_and!; [done|by apply H1|done].
  - intros [? ?]. split; [done|by apply Hw].
  - intros [[v ?] ?]. split; [exists v; by apply H4'|by apply H3].
  - intros [? ?]. split; [by rewrite H4|done].
  - intros [? Hb]. split; [done|]. intros E. by apply H3, Hb.
  - intros [Hn Hor]. split; [done|]. destruct Hor as [?|[(e & ? & ?)|[? ?]]]; [by left|right; left; eauto|]. right; right.
    destruct (H3 ltac:(done)) as [? ->]. done.
  - intros [? Hn]. split; [done|]. destruct (cell_final (state_ l)) as [e|]; [|done]. by rewrite (H2 e).
Qed.

(** A step of thread [i] that lets the latch grow. *)
Lemma latch_inv_update (ops : list Pc) (w w' : option (nat * StatusOr V)) (l l' : Latch) (ts : list Pc) (i : nat) (start pc pc' : Pc) :
  Inv ops w (mkState l ts) -> ts !! i = Some pc -> ops !! i = Some start ->
  Grows l l' w w' ->
  (cell_value (state_ l') = cell_value (state_ l) /\ value_ l' = value_ l) \/
    (forall j q, j <> i -> ts !! j = Some q -> in_set q = false) ->
  latch_ok ops l' w' ->
  past_ok (state_ l') ->
  (is_winner pc = true -> is_winner pc' = true) -> (w' <> w -> exists v, w' = Some (i, v) /\ is_winner pc' = true) ->
  pc_ok l' w' i start pc' ->
  Inv ops w' (mkState l' (<[i := pc']> ts)).
Proof.
  intros [H1 H2 H3 H4] Hi Hs G Ho Hl Hp Hw Hw' Hok. simpl in *. split; simpl; try done.
  - intros k v E. destruct (decide (k = i)) as [->|Hne].
    + exists pc'. split; [by apply (list_insert_here ts i pc)|].
      destruct (decide (is_winner pc' = true)) as [|Hn]; [done|]. exfalso.
      assert (is_winner pc <> true) as Hnw by tauto.
      destruct w as [[w0 v0]|].
      * rewrite (grows_winner _ _ _ _ G) in E by done. injection E as -> ->. destruct (H3 i v eq_refl) as (q & Hq & Hq').
        rewrite Hi in Hq. injection Hq as <-. done.
      * destruct Hw' as (v' & ? & ?); [by rewrite E|done].
    + rewrite list_lookup_insert_ne by done. apply (H3 k v). destruct w as [x|].
      * rewrite <- E. symmetry. by apply (grows_winner _ _ _ _ G).
      * destruct Hw' as (v' & E' & ?); [by rewrite E|]. congruence.
  - intros j q [[-> ->]|[Hj Hq]]%(list_insert_cases ts i j pc pc' q Hi); [by exists start|].
    destruct (H4 j q Hq) as (s & Hs' & Hok'). exists s. split; [done|]. apply (pc_ok_grows l l' w w'); [done| |done].
    destruct Ho as [Ho|Ho]; [by right|left; by eapply Ho].
Qed.

(** A step that does not touch the latch. *)
Lemma latch_inv_goto (ops : list Pc) (w : option (nat * StatusOr V)) (l : Latch) (ts : list Pc) (i : nat) (start pc pc' : Pc) :
  Inv ops w (mkState l ts) -> ts !! i = Some pc -> ops !! i = Some start ->
  is_winner pc = false -> pc_ok l w i start pc' -> Inv ops w (mkState l (<[i := pc']> ts)).
Proof.
  intros HI Hi Hs Hw Hok. apply (latch_inv_update ops w w l l ts i start pc pc');
    [done|done|done|apply grows_refl|by left|apply HI|apply HI|by rewrite Hw|done|done].
Qed.

Lemma past_ready (ops : list Pc) (w : option (nat * StatusOr V)) (st : State) :
  Inv ops w st -> kReady ∈ cell_past (state_ (latch st)) -> cell_value (state_ (latch st)) = kReady.
Proof.
  intros HI Hin. pose proof (proj1 (list.Forall_forall _ _) (proj2 (inv_past _ _ _ HI)) _ Hin) as H. simpl in H.
  destruct H as [H|[H|[_ H]]]; [discriminate H|discriminate H|done].
Qed.

(** Only the winner is inside [set_value]. *)
Lemma one_setter (ops : list Pc) (v : StatusOr V) (st : State) (i : nat) :
  Inv ops (Some (i, v)) st -> forall j q, j <> i -> threads st !! j = Some q -> in_set q = false.
Proof.
  intros HI j q Hne Hq. destruct (inv_pcs _ _ _ HI j q Hq) as (s & _ & Hok).
  destruct q; simpl in *; try done; naive_solver.
Qed.

Lemma wait_choice_ok (choice : option nat) (c : Cell) (r : StatusOr Z) : wait_choice choice c = Some r -> wait_ok c r.
Proof.
  destruct choice as [k|]; simpl.
  - destruct (cell_past c !! k) eqn:E; [|done]. intros [= <-]. simpl. by apply list_elem_of_lookup_2 in E.
  - destruct (cell_final c) eqn:E; [|done]. by intros [= <-].
Qed.

Lemma inv_fetch_or (ops : list Pc) (w : option (nat * StatusOr V)) (l : Latch) (ts : list Pc) (i : nat) (v : StatusOr V) :
  Inv ops w (mkState l ts) -> ts !! i = Some (SetFetchOr v) ->
  exists w', Inv ops w' (mkState (thread_step None l (SetFetchOr v)).1 (<[i := (thread_step None l (SetFetchOr v)).2]> ts)) /\
    (w <> None -> w' = w).
Proof.
  intros HI Hi. destruct (inv_pcs _ _ _ HI i _ Hi) as (start & Hs & Hok). pose proof HI as [H1 H2 H3 H4]. simpl in *.
  destruct w as [[k x]|]; cbn [latch_ok] in H1.
  - exists (Some (k, x)). split; [|done]. destruct H1 as [Hk H1].
    assert (Z.lor (cell_value (state_ l)) kSetting = cell_value (state_ l)) as E by (by destruct H1 as [->|[-> _]]).
    assert (cell_value (state_ l) =? kInitial = false) as -> by (by destruct H1 as [->|[-> _]]).
    apply (latch_inv_update ops (Some (k, x)) (Some (k, x)) l _ ts i start _ _ HI Hi Hs); simpl; rewrite ?E; try done.
    + split; simpl; rewrite ?E; try done. intros. by right.
    + by left.
    + split; simpl; rewrite ?E; [by left|]. constructor; [|apply H2]. destruct H1 as [->|[-> _]]; auto.
    + by rewrite Hok.
  - destruct H1 as [H0 He]. rewrite H0. exists (Some (i, v)). split; [|done].
    apply (latch_inv_update ops None (Some (i, v)) l _ ts i start _ _ HI Hi Hs); simpl; try done.
    + split; simpl; try done; [intros; by right|by rewrite H0].
    + right. intros j q Hj Hq. destruct (H4 j q Hq) as (s & _ & Hq'). destruct q; simpl in Hq'; try done; naive_solver.
    + split; [by exists start|by left].
    + split; simpl; [by left|]. constructor; [right; by left|]. eapply list.Forall_impl; [exact (proj2 H2)|]. simpl. rewrite H0. intros y [->|[->|[_ Hy]]]; auto. discriminate Hy.
    + intros _. by exists v.
Qed.

Lemma latch_inv_step (ops : list Pc) (w : option (nat * StatusOr V)) (st : State) (i : nat) (choice : option nat) :
  Inv ops w st -> exists w', Inv ops w' (step i choice st) /\ (w <> None -> w' = w).
Proof.
  intros HI. unfold step. destruct (threads st !! i) as [pc|] eqn:Hi; [|by exists w].
  destruct st as [l ts]. simpl in Hi. cbn [latch threads].
  destruct (inv_pcs _ _ _ HI i pc Hi) as (start & Hs & Hok). pose proof HI as [H1 H2 H3 H4]. cbn [latch threads] in *.
  assert (forall pc', is_winner pc = false -> pc_ok l w i start pc' ->
    exists w', Inv ops w' (mkState l (<[i := pc']> ts)) /\ (w <> None -> w' = w)) as Hgoto.
  { intros pc' Hw Hok'. exists w. split; [|done]. by eapply latch_inv_goto. }
  destruct pc as [s|v|v|v| | | | |r|last| | |last|r| |res]; cbn [thread_step];
    try match goal with |- context [wait_choice choice (state_ l)] =>
      destruct (wait_choice choice (state_ l)) as [r|] eqn:Er; [apply wait_choice_ok in Er|] end; simpl in Hok.
  - destruct Hok as [<- Hne]. rewrite bool_decide_false by done. by apply Hgoto.
  - by apply (inv_fetch_or ops w l ts i v).
  - destruct Hok as (-> & Hv & Hc & He). exists (Some (i, v)). split; [|done].
    apply (latch_inv_update ops (Some (i, v)) (Some (i, v)) l _ ts i start _ _ HI Hi Hs); simpl; try done.
    + split; simpl; try done. by rewrite Hc.
    + right. by apply (one_setter ops v (mkState l ts)).
    + split; [by exists start|by left].
  - destruct Hok as (-> & Hv & Hc & He). exists (Some (i, v)). split; [|done].
    apply (latch_inv_update ops (Some (i, v)) (Some (i, v)) l _ ts i start _ _ HI Hi Hs); simpl; try done.
    + split; simpl; try done. by rewrite Hc.
    + right. by apply (one_setter ops v (mkState l ts)).
    + split; [by exists start|by left].
    + split; [by exists v|done].
  - destruct Hok as ((v & -> & He) & Hc). exists (Some (i, v)). split; [|done].
    apply (latch_inv_update ops (Some (i, v)) (Some (i, v)) l _ ts i start _ _ HI Hi Hs); simpl; try done.
    + split; simpl; try done. intros; by right.
    + right. by apply (one_setter ops v (mkState l ts)).
    + split; [apply H1|by right].
    + split; simpl; [by left|]. constructor; [auto|]. eapply list.Forall_impl; [exact (proj2 H2)|]. simpl. naive_solver.
    + split; [by exists v|done].
  - apply Hgoto; [done|]. split; [done|]. by intros ?%Z.eqb_eq.
  - apply Hgoto; [done|]. destruct (Z.eqb_spec (cell_value (state_ l)) kReady); simpl; [by auto|]. rewrite <- Hok. split; [done|by left].
  - apply Hgoto; [done|]. split; [done|]. apply H2.
  - apply Hgoto; [done|]. destruct Hok as [-> Hr]. destruct r as [v|e]; simpl in Hr |- *; [|split; [done|right; left; by exists e]].
    destruct (Z.eqb_spec v kReady) as [->|]; simpl; [|done]. split; [by apply (past_ready ops w (mkState l ts))|by right].
  - apply Hgoto; [done|]. split; [apply Hok|done].
  - apply Hgoto; done.
  - apply Hgoto; [done|]. destruct Hok as [Hc ?]. by rewrite Hc.
  - apply Hgoto; [done|]. destruct Hok as [Hc Hst]. assert (sets start = None) as Hn by (by destruct Hst as [->| ->]).
    destruct w as [[k v]|]; simpl in H1.
    + destruct H1 as [_ [E|[_ E]]]; [by rewrite E in Hc|]. simpl. rewrite E. split; [done|]. right; right; done.
    + destruct H1 as [E _]. by rewrite E in Hc.
  - apply Hgoto; [done|]. split; [apply Hok|done].
  - apply Hgoto; done.
  - apply Hgoto; [done|]. destruct Hok as [-> Hr]. destruct r as [v|e]; simpl in Hr |- *; [|split; [done|right; left; by exists e]].
    destruct (Z.eqb_spec v kReady) as [->|]; simpl; [|done].
    pose proof (past_ready ops w (mkState l ts) HI Hr) as Hc. simpl in Hc. destruct w as [[k v]|]; simpl in H1.
    + destruct H1 as [_ [E|[_ E]]]; [by rewrite E in Hc|]. simpl. rewrite E. split; [done|]. right; right; done.
    + destruct H1 as [E _]. by rewrite E in Hc.
  - exists w. split; [|done]. apply (latch_inv_update ops w w l _ ts i start _ _ HI Hi Hs); simpl; try done.
    + split; simpl; try done. by intros e ->.
    + by left.
    + split; [by rewrite Hok|by destruct (cell_final _)].
  - exists w. split; [|done]. rewrite list_insert_id by done. exact HI.
Qed.

(** A latch that is ready stays ready. *)
Lemma ready_stays (schedule : list (nat * option nat)) (st : State) :
  cell_value (state_ (latch st)) = kReady -> cell_value (state_ (latch (run schedule st))) = kReady.
Proof.
  revert st. induction schedule as [|[i c] schedule IH]; intros st Hc; [done|]. apply IH. simpl. unfold step.
  destruct (threads st !! i) as [pc|]; [|done]. destruct st as [l ts]. simpl in *.
  destruct pc; simpl; try done. by rewrite Hc.
Qed.

Lemma length_threads (schedule : list (nat * option nat)) (st : State) :
  length (threads (run schedule st)) = length (threads st).
Proof.
  revert st. induction schedule as [|[i c] schedule IH]; intros st; [done|]. simpl. rewrite IH. unfold step.
  destruct (threads st !! i) as [pc|]; [|done]. destruct (thread_step _ _ _). simpl. by rewrite length_insert.
Qed.

Lemma latch_inv_run (ops : list Pc) (schedule : list (nat * option nat)) (w : option (nat * StatusOr V)) (st : State) :
  Inv ops w st -> exists w', Inv ops w' (run schedule st) /\ (w <> None -> w' = w).
Proof.
  revert w st. induction schedule as [|[i c] schedule IH]; intros w st HI; [by exists w|].
  destruct (latch_inv_step ops w st i c HI) as (w1 & HI1 & E1). destruct (IH w1 _ HI1) as (w2 & HI2 & E2).
  exists w2. split; [done|]. intros Hw. rewrite E2 by (by rewrite E1). by apply E1.
Qed.

Lemma latch_inv_initial (ops : list Pc) : Forall (fun pc => is_start pc = true) ops -> Inv ops None (initial_state ops).
Proof.
  intros Hops. split; simpl; try done; [split; simpl; [by left|by constructor; [left|]]|]. intros i pc Hi. exists pc. split; [done|].
  pose proof (proj1 (list.Forall_lookup _ _) Hops i pc Hi) as Hpc. simpl in Hpc. destruct pc; simpl in *; try done.
  - split; [done|]. by destruct (bool_decide_reflect (s = kOk)).
  - bool_cases. subst. split_and!; [done|by left|done].
Qed.

(** C10: a latch is set once.  For any number of concurrent setters, readers,
    waiters and [invalidate]s, in every interleaving: no check fails and no
    read overlaps the write of the value; at most one [set_value] returns
    true, and one that returns false lost to an operation that has won; every
    reader gets the value of the winner, the status the latch was closed
    with, or [kUnavailable] from [poll]; once a reader has got the value, the
    value does not change any more; and when only sleeping threads are left
    although some thread was to set the value, none is asleep. *)
Theorem latch_set_once (ops : list Pc) (schedule schedule' : list (nat * option nat)) :
  Forall (fun pc => is_start pc = true) ops ->
  let st := run schedule (initial_state ops) in
  let st' := run schedule' st in
  (forall i, threads st !! i <> Some (Finished CheckFailed) /\ threads st !! i <> Some (Finished Torn)) /\
  (forall i j, threads st !! i = Some (Finished (WasSet true)) -> threads st !! j = Some (Finished (WasSet true)) -> i = j) /\
  (forall i, threads st !! i = Some (Finished (WasSet false)) ->
     exists w pc, w <> i /\ threads st !! w = Some pc /\ is_winner pc = true) /\
  (forall i start r, ops !! i = Some start -> threads st !! i = Some (Finished (Got r)) ->
     (start = PollLoad /\ r = Err kUnavailable) \/
     (exists e, r = Err e /\ cell_final (state_ (latch st)) = Some e) \/
     (value_ (latch st') = Full r /\
      exists w pc set, ops !! w = Some set /\ sets set = Some r /\ threads st !! w = Some pc /\ is_winner pc = true)) /\
  (Exists (fun pc => sets pc <> None) ops ->
   Forall (fun pc => finished pc || asleep (state_ (latch st)) pc = true) (threads st) ->
   Forall (fun pc => finished pc = true) (threads st) /\ cell_value (state_ (latch st)) = kReady).
Proof.
  intros Hops st st'. destruct (latch_inv_run ops schedule None _ (latch_inv_initial ops Hops)) as (w & HI & _).
  destruct (latch_inv_run ops schedule' w _ HI) as (w' & HI' & Ew). fold st in HI, HI'. fold st' in HI'.
  split_and!.
  - intros i. split; intros Hi; by destruct (inv_pcs _ _ _ HI i _ Hi) as (s & _ & []).
  - intros i j Hi Hj. destruct (inv_pcs _ _ _ HI i _ Hi) as (s & _ & [v ->] & _).
    destruct (inv_pcs _ _ _ HI j _ Hj) as (s' & _ & [v' E] & _). by injection E.
  - intros i Hi. destruct (inv_pcs _ _ _ HI i _ Hi) as (s & _ & Hw & _). destruct w as [[w v]|]; [|done].
    destruct (inv_winner _ _ _ HI w v eq_refl) as (pc & Hpc & Hwin). exists w, pc. split_and!; [|done|done].
    intros ->. rewrite Hi in Hpc. injection Hpc as <-. discriminate Hwin.
  - intros i start r Hs Hi. destruct (inv_pcs _ _ _ HI i _ Hi) as (s & Hs' & Hok). rewrite Hs in Hs'. injection Hs' as <-.
    simpl in Hok. destruct Hok as [_ [?|[?|[Hv Hc]]]]; [by left|right; by left|]. right; right.
    pose proof (inv_latch _ _ _ HI) as Hl. pose proof (inv_latch _ _ _ HI') as Hl'. destruct w as [[w v]|].
    + rewrite (Ew ltac:(done)) in *. simpl in Hl, Hl'. destruct Hl as [(set & Hset & Hsets) [E|[_ E]]]; [by rewrite E in Hc|].
      rewrite E in Hv. injection Hv as ->. destruct (inv_winner _ _ _ HI w r eq_refl) as (pc & Hpc & Hwin).
      split; [|by exists w, pc, set]. destruct Hl' as [_ [E'|[_ E']]]; [|done].
      pose proof (ready_stays schedule' st Hc) as Hc'. fold st' in Hc'. by rewrite E' in Hc'.
    + destruct Hl as [Hl _]. by rewrite Hl in Hc.
  - intros Hex Hall. assert (cell_value (state_ (latch st)) = kReady) as Hc.
    + apply list.Exists_exists in Hex as (op & Hop & Hset). apply list_elem_of_lookup_1 in Hop as [k Hk].
      destruct (lookup_lt_is_Some_2 (threads st) k) as [pc Hpc].
      { unfold st. rewrite length_threads. by apply lookup_lt_Some in Hk. }
      destruct (inv_pcs _ _ _ HI k pc Hpc) as (s & Hs & Hok). rewrite Hk in Hs. injection Hs as <-.
      pose proof (proj1 (list.Forall_lookup _ _) Hall k pc Hpc) as H. simpl in H.
      destruct pc as [| | | | | | | | |last| | |last| | |[[]|b|r| | |]]; try discriminate H; simpl in Hok; destruct_and?; subst; try done.
      destruct w as [[w v]|]; [|done]. destruct (inv_winner _ _ _ HI w v eq_refl) as (q & Hq & Hwin).
      pose proof (proj1 (list.Forall_lookup _ _) Hall w q Hq) as Hf. simpl in Hf.
      destruct (inv_pcs _ _ _ HI w q Hq) as (s' & _ & Hok'). destruct q as [| | | | | | | | | | | | | | |[[]|b|r| | |]]; try done.
      apply Hok'.
    + split; [|done]. apply list.Forall_lookup. intros i pc Hi. pose proof (proj1 (list.Forall_lookup _ _) Hall i pc Hi) as H.
      simpl in H. destruct (finished pc) eqn:E; [done|]. simpl in H.
      destruct (inv_pcs _ _ _ HI i _ Hi) as (s & _ & Hok). destruct pc; try discriminate H; simpl in H, Hok; bool_cases.
      all: destruct Hok as (_ & _ & []); congruence.
Qed.
End latch.

(** Two setters, a waiter that sleeps at first, a handler and a poll. *)
Definition sample_ops : list (Pc (V := Z)) :=
  [SetFetchOr (OkVal 1); SetFetchOr (OkVal 2); AwaitLoad; async_get; PollLoad].

Definition sample_schedule : list (nat * option nat) :=
  (fun i => (i, Some O)) <$> [2; 4; 2; 1; 0; 2; 3; 2; 1; 2; 1; 3; 3; 1; 3; 3; 2; 2; 2; 2; 2; 3]%nat.

Lemma latch_set_once_witness :
  let st := run sample_schedule (initial_state sample_ops) in
  threads st = [Finished (WasSet false); Finished (WasSet true); Finished (Got (OkVal 2)); Finished (Got (OkVal 2));
                Finished (Got (Err kUnavailable))] /\
  value_ (latch st) = Full (OkVal 2).
Proof.
  intros st. split; [by vm_compute|].
  destruct (latch_set_once sample_ops sample_schedule []) as (_ & _ & _ & H & _); [by repeat constructor|].
  destruct (H 2%nat AwaitLoad (OkVal 2)) as [[E _]|[(e & E & _)|[E _]]]; [done|by vm_compute|discriminate E|discriminate E|exact E].
Defined.
