(* ===== verification/Channel.v ===== *)
(** * Channel: an unbuffered channel from one producer to one consumer

    [async/channel.hpp].  The two counters are watches, [Cell]s here, and the
    object in transit is a plain pointer.  The writer and the reader run lists
    of calls; every access to a counter or to the pointer is a step of its
    own.  Each counter is changed by one side only, so a wake-up carries the
    current value, but not always a new one ([Watch.wakes_with_last_seen]):
    [stale] in a schedule allows a wake-up with the value already seen.  The
    counts stay below 2^31, where the [i32] of the code and the wrap-around of
    the cell agree. *)

From S2P Require Import Prelude Status Watch WatchCell.
Open Scope Z_scope.

Section channel.
Context {T : Type}.

(* @ src/batteries/async/channel.hpp 101-103 Channel *)
Record Channel : Type := mkChannel {
  read_count_ : Cell;
  write_count_ : Cell;
  value_ : option T }.

(** [write] or [async_write], [read] or [async_read]. *)
Inductive WriteCall : Type := Write (async : bool) (value : T) | CloseForWrite.
Inductive ReadCall : Type := Read (async : bool) | Consume | CloseForRead.

Inductive WriterPc : Type :=
| WStart
| WIsActive (writes : Z)
| WCheckClosed
| WSetValue
| WLoadSeen
| WFetchAdd (last_seen : option Z)
| WAwaitLoad (target : Z)
| WAwaitTest (target : Z) (observed : StatusOr Z)
| WAwait (target last_seen : Z)
| WAsyncWait (target last_seen : Z)
| WHandler (target : Z) (observed : StatusOr Z)
| WPanic.

Inductive ReaderPc : Type :=
| RStart
| RLoadSeen
| RAwait (last_seen : Z)
| RAsyncLoadWrites
| RAsyncLoadReads (observed_write_count : Z)
| RAsyncWait (observed_write_count observed_read_count : Z)
| RHandler (observed_read_count : Z) (updated : StatusOr Z)
| RDeref
| CIsActive (writes : Z)
| CClear
| CFetchAdd
| RStopped (s : StatusCode)
| RNull
| RPanic.

(** The calls still to be made, the current one first; [results]: what the
    writes have returned. *)
Record Writer : Type := mkWriter { w_pc : WriterPc; w_calls : list WriteCall; results : list StatusCode }.
Record Reader : Type := mkReader { r_pc : ReaderPc; r_calls : list ReadCall; got : list T }.

(** [sent]: the objects that were made available (not in the program). *)
Record State : Type := mkState { chan : Channel; writer : Writer; reader : Reader; sent : list T }.

Definition closed (c : Cell) : bool := match cell_final c with Some _ => true | None => false end.

Definition increment (c : Cell) : Cell := cell_apply (CellRmw (FetchAdd 1)) c.

(** A wait on a counter: [None] while it sleeps. *)
Definition wait (stale : bool) (last_seen : Z) (c : Cell) : option (StatusOr Z) :=
  if stale || negb (cell_value c =? last_seen) then Some (OkVal (cell_value c))
  else Err <$> cell_final c.

(* @ src/batteries/async/channel.hpp 173-177 Channel::is_active *)
Definition is_active (writes reads : Z) : bool := 0 <? writes - reads.

Definition set_value (v : option T) (ch : Channel) : Channel := mkChannel (read_count_ ch) (write_count_ ch) v.

(** The last lines of [write], after the wait for the reader. *)
(* @ src/batteries/async/channel.hpp 214-217 Channel::write *)
Definition await_test (target : Z) (observed : StatusOr Z) : WriterPc + StatusCode :=
  match observed with
  | OkVal v => if v =? target then inr kOk else inl (WAwait target v)
  | Err s => inr s
  end.

(** The handler that [async_write] waits with. *)
(* @ src/batteries/async/channel.hpp 162-168 Channel::async_write *)
Definition write_handler (target : Z) (observed : StatusOr Z) : option StatusCode :=
  match observed with
  | OkVal v => if target =? v then Some kOk else None
  | Err s => Some s
  end.

Definition count_write (value : T) (ch : Channel) (sent : list T) : Channel * list T :=
  (mkChannel (read_count_ ch) (increment (write_count_ ch)) (value_ ch), sent ++ [value]).

(** The steps of [async_write] that differ from those of [write]. *)
(* @ src/batteries/async/channel.hpp 155-168 Channel::async_write *)
Definition async_write_step (stale : bool) (value : T) (ch : Channel) (sent : list T) (pc : WriterPc) :
    Channel * list T * (WriterPc + StatusCode) :=
  match pc with
  | WLoadSeen => (ch, sent, inl (WFetchAdd (Some (cell_value (read_count_ ch)))))
  | WFetchAdd (Some last) =>
      let target := cell_value (write_count_ ch) + 1 in
      (count_write value ch sent, inl (if last + 1 =? target then WAsyncWait target last else WPanic))
  | WAsyncWait target last =>
      (ch, sent, inl match wait stale last (read_count_ ch) with Some r => WHandler target r | None => pc end)
  | WHandler target r =>
      match write_handler target r with
      | Some s => (set_value None ch, sent, inr s)
      | None => (ch, sent, inl WPanic)
      end
  | _ => (ch, sent, inl pc)
  end.

(* @ src/batteries/async/channel.hpp 202-218 Channel::write *)
Definition write_step (stale async : bool) (value : T) (ch : Channel) (sent : list T) (pc : WriterPc) :
    Channel * list T * (WriterPc + StatusCode) :=
  let reads := cell_value (read_count_ ch) in
  let writes := cell_value (write_count_ ch) in
  match pc with
  | WStart => (ch, sent, inl (WIsActive writes))
  | WIsActive writes => (ch, sent, inl (if is_active writes reads then WPanic else WCheckClosed))
  | WCheckClosed => (ch, sent, if closed (write_count_ ch) then inr kClosed else inl WSetValue)
  | WSetValue => (set_value (Some value) ch, sent, inl (if async then WLoadSeen else WFetchAdd None))
  | WFetchAdd None => (count_write value ch sent, inl (WAwaitLoad (writes + 1)))
  | WAwaitLoad target => (ch, sent, inl (WAwaitTest target (OkVal reads)))
  | WAwaitTest target r => (ch, sent, await_test target r)
  | WAwait target last =>
      (ch, sent, inl match wait stale last (read_count_ ch) with Some r => WAwaitTest target r | None => pc end)
  | _ => async_write_step stale value ch sent pc
  end.

(* @ src/batteries/async/channel.hpp 230-234 Channel::close_for_write *)
Definition close_for_write (ch : Channel) : Channel :=
  mkChannel (read_count_ ch) (close kClosed (write_count_ ch)) (value_ ch).

(* @ src/batteries/async/channel.hpp 222-226 Channel::close_for_read *)
Definition close_for_read (ch : Channel) : Channel :=
  mkChannel (close kClosed (read_count_ ch)) (write_count_ ch) (value_ ch).

Definition writer_step (stale : bool) (st : State) : State :=
  let w := writer st in
  match w_calls w with
  | [] => st
  | CloseForWrite :: calls =>
      mkState (close_for_write (chan st)) (mkWriter WStart calls (results w)) (reader st) (sent st)
  | Write async value :: calls =>
      let '(ch, sent', next) := write_step stale async value (chan st) (sent st) (w_pc w) in
      mkState ch
        (match next with
         | inl pc => mkWriter pc (w_calls w) (results w)
         | inr s => mkWriter WStart calls (results w ++ [s])
         end) (reader st) sent'
  end.

(** What a step of the reader leads to: another step, an object, the end of
    the call. *)
Inductive ReadNext : Type := RGoto (pc : ReaderPc) | RGot (value : T) | RReturn.

(** [*this->value_] *)
Definition deref (v : option T) : ReadNext := match v with Some x => RGot x | None => RGoto RNull end.

(* @ src/batteries/async/channel.hpp 110-138 Channel::async_read *)
Definition async_read_step (stale : bool) (ch : Channel) (pc : ReaderPc) : ReadNext :=
  match pc with
  | RStart => RGoto (if closed (read_count_ ch) then RStopped kClosed else RAsyncLoadWrites)
  | RAsyncLoadWrites => RGoto (RAsyncLoadReads (cell_value (write_count_ ch)))
  | RAsyncLoadReads observed =>
      let reads := cell_value (read_count_ ch) in
      RGoto (if reads <? observed then RDeref else RAsyncWait observed reads)
  | RAsyncWait last observed_reads =>
      RGoto match wait stale last (write_count_ ch) with Some r => RHandler observed_reads r | None => pc end
  | RHandler observed_reads r =>
      RGoto match r with
            | Err s => RStopped s
            | OkVal updated => if observed_reads <? updated then RDeref else RPanic
            end
  | RDeref => deref (value_ ch)
  | _ => RGoto pc
  end.

(* @ src/batteries/async/channel.hpp 181-188 Channel::read *)
Definition read_step (stale : bool) (ch : Channel) (pc : ReaderPc) : ReadNext :=
  match pc with
  | RStart => RGoto RLoadSeen
  | RLoadSeen => RGoto (RAwait (cell_value (read_count_ ch)))
  | RAwait last =>
      RGoto match wait stale last (write_count_ ch) with
            | Some (OkVal _) => RDeref
            | Some (Err s) => RStopped s
            | None => pc
            end
  | RDeref => deref (value_ ch)
  | _ => RGoto pc
  end.

(* @ src/batteries/async/channel.hpp 192-198 Channel::consume *)
Definition consume_step (ch : Channel) (pc : ReaderPc) : Channel * ReadNext :=
  match pc with
  | RStart => (ch, RGoto (CIsActive (cell_value (write_count_ ch))))
  | CIsActive writes => (ch, RGoto (if is_active writes (cell_value (read_count_ ch)) then CClear else RPanic))
  | CClear => (set_value None ch, RGoto CFetchAdd)
  | CFetchAdd => (mkChannel (increment (read_count_ ch)) (write_count_ ch) (value_ ch), RReturn)
  | _ => (ch, RGoto pc)
  end.

(** The reader stops at the first error. *)
Definition reader_step (stale : bool) (st : State) : State :=
  let r := reader st in
  let continue (ch : Channel) (next : ReadNext) (calls : list ReadCall) :=
    mkState ch (writer st)
      (match next with
       | RGoto pc => mkReader pc (r_calls r) (got r)
       | RGot v => mkReader RStart calls (got r ++ [v])
       | RReturn => mkReader RStart calls (got r)
       end) (sent st) in
  match r_calls r with
  | [] => st
  | Read async :: calls => continue (chan st) ((if async then async_read_step else read_step) stale (chan st) (r_pc r)) calls
  | Consume :: calls => let '(ch, next) := consume_step (chan st) (r_pc r) in continue ch next calls
  | CloseForRead :: calls => continue (close_for_read (chan st)) RReturn calls
  end.

(** Who steps next, and whether a wake-up may be stale. *)
Inductive Who : Type := W | R.

Definition step (who : Who) (stale : bool) (st : State) : State :=
  match who with W => writer_step stale st | R => reader_step stale st end.

Definition run (schedule : list (Who * bool)) (st : State) : State :=
  foldl (fun st s => step s.1 s.2 st) st schedule.

(* @ src/batteries/async/channel.hpp 26-28 Channel::Channel *)
Definition new_channel : Channel := mkChannel (new_cell 0) (new_cell 0) None.

Definition initial_state (wcalls : list WriteCall) (rcalls : list ReadCall) : State :=
  mkState new_channel (mkWriter WStart wcalls []) (mkReader RStart rcalls []) [].

(** ** Disciplined readers *)

(** [consume] follows each successful [read], and [close_for_read] comes
    last. *)
Fixpoint disciplined (holding : bool) (calls : list ReadCall) : bool :=
  match calls with
  | [] => true
  | Read _ :: calls => negb holding && disciplined true calls
  | Consume :: calls => holding && disciplined false calls
  | CloseForRead :: calls => match calls with [] => true | _ => false end
  end.

Definition written (calls : list WriteCall) : list T :=
  omap (fun c => match c with Write _ v => Some v | CloseForWrite => None end) calls.

(** Wake-ups bring a new value, as [await_not_equal] promises; the loop of
    the blocking [write] does not need that. *)
Definition blocking_writes (calls : list WriteCall) : bool :=
  forallb (fun c => match c with Write async _ => negb async | CloseForWrite => true end) calls.

Definition fresh (wcalls : list WriteCall) (schedule : list (Who * bool)) : bool :=
  forallb (fun s => match s with
                    | (R, stale) => negb stale
                    | (W, stale) => negb stale || blocking_writes wcalls
                    end) schedule.

Definition reader_asleep (st : State) : bool :=
  match r_pc (reader st) with
  | RAwait last | RAsyncWait last _ => (cell_value (write_count_ (chan st)) =? last) && negb (closed (write_count_ (chan st)))
  | _ => false
  end.

Definition writer_asleep (st : State) : bool :=
  match w_pc (writer st) with
  | WAwait _ last | WAsyncWait _ last => (cell_value (read_count_ (chan st)) =? last) && negb (closed (read_count_ (chan st)))
  | _ => false
  end.
(** ** The invariant *)

Definition R_ (ch : Channel) : Z := cell_value (read_count_ ch).
Definition W_ (ch : Channel) : Z := cell_value (write_count_ ch).

(** The object of the current call has been made available. *)
Definition in_flight (pc : WriterPc) : bool :=
  match pc with WAwaitLoad _ | WAwaitTest _ _ | WAwait _ _ | WAsyncWait _ _ | WHandler _ _ => true | _ => false end.

(** The calls whose object is still to be made available. *)
Definition unsent (w : Writer) : list T := written (if in_flight (w_pc w) then tail (w_calls w) else w_calls w).

Definition count_ok (rs : list StatusCode) : Z := Z.of_nat (length (filter (fun s => s = kOk) rs)).

(** Nothing is in transit, or the reader has gone and a write has failed. *)
Definition idle_ok (ch : Channel) (rs : list StatusCode) : Prop :=
  W_ ch = R_ ch \/ (closed (read_count_ ch) = true /\ Exists (fun s => s <> kOk) rs).

Definition wait_err (c : Cell) (r : StatusOr Z) : Prop :=
  match r with OkVal _ => True | Err s => s = kClosed /\ closed c = true end.

Definition writer_ok (ch : Channel) (calls : list WriteCall) (rs : list StatusCode) (pc : WriterPc) : Prop :=
  let writing (b : bool) := exists async v rest, calls = Write async v :: rest /\ (b = true -> async = true) in
  let is_set := exists async v rest, calls = Write async v :: rest /\ value_ ch = Some v in
  match pc with
  | WStart => idle_ok ch rs
  | WIsActive w => w = W_ ch /\ idle_ok ch rs /\ writing false
  | WCheckClosed => W_ ch = R_ ch /\ writing false
  | WSetValue => W_ ch = R_ ch /\ writing false /\ closed (write_count_ ch) = false
  | WLoadSeen => W_ ch = R_ ch /\ writing true /\ is_set /\ closed (write_count_ ch) = false
  | WFetchAdd last => W_ ch = R_ ch /\ writing (match last with Some _ => true | None => false end) /\
                      is_set /\ closed (write_count_ ch) = false /\ (forall l, last = Some l -> l = R_ ch)
  | WAwaitLoad t => t = W_ ch /\ writing false
  | WAwaitTest t r => t = W_ ch /\ writing false /\ wait_err (read_count_ ch) r /\ (forall v, r = OkVal v -> v <= R_ ch)
  | WAwait t last => t = W_ ch /\ writing false /\ last <> t /\ last <= R_ ch
  | WAsyncWait t last => t = W_ ch /\ writing true /\ t = last + 1
  | WHandler t r => t = W_ ch /\ writing true /\ wait_err (read_count_ ch) r /\ (forall v, r = OkVal v -> v = t /\ R_ ch = t)
  | WPanic => closed (read_count_ ch) = true /\ Exists (fun s => s <> kOk) rs /\ writing false
  end.

Definition reader_ok (ch : Channel) (sent got : list T) (calls : list ReadCall) (pc : ReaderPc) : Prop :=
  let reading (b : bool) := exists rest, calls = Read b :: rest in
  let consuming := exists rest, calls = Consume :: rest in
  match pc with
  | RStart => True
  | RLoadSeen => reading false
  | RAwait last => reading false /\ last = R_ ch
  | RAsyncLoadWrites => reading true
  | RAsyncLoadReads w => reading true /\ R_ ch <= w <= W_ ch
  | RAsyncWait w r => reading true /\ w = R_ ch /\ r = R_ ch
  | RHandler r res => reading true /\ r = R_ ch /\ wait_err (write_count_ ch) res /\
                      match res with OkVal v => v = W_ ch /\ W_ ch = R_ ch + 1 | Err _ => W_ ch = R_ ch end
  | RDeref => (exists b, reading b) /\ W_ ch = R_ ch + 1
  | CIsActive w => consuming /\ w = W_ ch
  | CClear | CFetchAdd => consuming
  | RStopped s => (exists b, reading b) /\ s = kClosed /\ closed (write_count_ ch) = true /\ W_ ch = R_ ch
  | RNull | RPanic => False
  end.

Definition final_ok (c : Cell) : Prop := cell_final c = None \/ cell_final c = Some kClosed.

Record Inv (wcalls : list WriteCall) (st : State) : Prop := {
  inv_counts : 0 <= R_ (chan st) <= W_ (chan st) /\ W_ (chan st) <= R_ (chan st) + 1;
  inv_final : final_ok (read_count_ (chan st)) /\ final_ok (write_count_ (chan st));
  inv_sent : Z.of_nat (length (sent st)) = W_ (chan st);
  inv_prefix : exists rest, sent st ++ rest = written wcalls;
  inv_unsent : closed (write_count_ (chan st)) = true \/ sent st ++ unsent (writer st) = written wcalls;
  inv_slot : W_ (chan st) = R_ (chan st) + 1 -> value_ (chan st) = last (sent st) \/
    r_pc (reader st) = CFetchAdd \/ closed (read_count_ (chan st)) = true;
  inv_gone : closed (read_count_ (chan st)) = true -> r_calls (reader st) = [];
  inv_ok : count_ok (results (writer st)) <= R_ (chan st) /\
    (in_flight (w_pc (writer st)) = true -> count_ok (results (writer st)) < W_ (chan st));
  inv_writer : writer_ok (chan st) (w_calls (writer st)) (results (writer st)) (w_pc (writer st));
  inv_blocking : forall async v, Write async v ∈ w_calls (writer st) -> Write async v ∈ wcalls;
  inv_reader : reader_ok (chan st) (sent st) (got (reader st)) (r_calls (reader st)) (r_pc (reader st));
  inv_got : exists holding, disciplined holding (r_calls (reader st)) = true /\
    got (reader st) = take (length (got (reader st))) (sent st) /\
    Z.of_nat (length (got (reader st))) = R_ (chan st) + Z.b2z holding /\
    (holding = true -> W_ (chan st) = R_ (chan st) + 1) }.

(** ** Steps of the writer *)

Lemma wait_err_mono (c c' : Cell) (r : StatusOr Z) :
  (closed c = true -> closed c' = true) -> wait_err c r -> wait_err c' r.
Proof. destruct r; simpl; naive_solver. Qed.

Lemma reader_ok_mono (ch ch' : Channel) (sent sent' got : list T) (calls : list ReadCall) (pc : ReaderPc) :
  R_ ch' = R_ ch -> (closed (write_count_ ch) = true -> closed (write_count_ ch') = true) ->
  W_ ch' = W_ ch \/ (W_ ch = R_ ch /\ W_ ch' = R_ ch + 1 /\ closed (write_count_ ch) = false /\ forall rest, calls <> Consume :: rest) ->
  reader_ok ch sent got calls pc -> reader_ok ch' sent' got calls pc.
Proof.
  intros HR Hc HW. destruct pc as [| |l| |w|w r|r [v|e]| |w| | |s| |]; simpl; rewrite ?HR; try done.
  - intros [? ?]. split; [done|]. destruct HW as [->|(? & -> & _)]; lia.
  - intros (? & -> & _ & -> & ?). split_and!; try done; destruct HW as [HW|(? & HW & _)]; lia.
  - intros (? & -> & [-> Hcl] & HWR). destruct HW as [->|(_ & _ & Hn & _)]; [|congruence]. by split_and!; auto.
  - intros [? ?]. split; [done|]. destruct HW as [->|(? & -> & _)]; lia.
  - intros [[rest ->] ->]. split; [by exists rest|]. destruct HW as [->|(_ & _ & _ & Hn)]; [done|]. by destruct (Hn rest).
  - intros (? & -> & Hcl & HWR). destruct HW as [->|(_ & _ & Hn & _)]; [|congruence]. by split_and!; auto.
Qed.

Lemma count_ok_snoc (rs : list StatusCode) (s : StatusCode) :
  count_ok (rs ++ [s]) = count_ok rs + (if bool_decide (s = kOk) then 1 else 0).
Proof. unfold count_ok. rewrite filter_app, length_app. destruct s; simpl; lia. Qed.

Section writer.
Context (wcalls : list WriteCall) (st : State).
Hypothesis HI : Inv wcalls st.
Hypothesis Hlen : Z.of_nat (length (written wcalls)) < 2 ^ 31.

Lemma counts_bound : W_ (chan st) < 2 ^ 31.
Proof using HI Hlen.
  destruct (inv_prefix _ _ HI) as [rest E]. pose proof (inv_sent _ _ HI). rewrite <- E, length_app in Hlen. lia.
Qed.

Lemma count_write_writes (value : T) (l : list T) : W_ (count_write value (chan st) l).1 = W_ (chan st) + 1.
Proof using HI Hlen.
  pose proof counts_bound as Hb. pose proof (inv_counts _ _ HI) as [Hc _]. unfold W_, count_write, increment. simpl.
  apply uwrap_small. fold (W_ (chan st)). lia.
Qed.

(** A step of the writer that makes no object available. *)
Lemma inv_writer_update (ch : Channel) (w : Writer) :
  read_count_ ch = read_count_ (chan st) -> W_ ch = W_ (chan st) ->
  final_ok (write_count_ ch) -> (closed (write_count_ (chan st)) = true -> closed (write_count_ ch) = true) ->
  value_ ch = value_ (chan st) \/ W_ (chan st) = R_ (chan st) \/ closed (read_count_ (chan st)) = true ->
  closed (write_count_ ch) = true \/ unsent w = unsent (writer st) ->
  count_ok (results w) <= R_ (chan st) /\ (in_flight (w_pc w) = true -> count_ok (results w) < W_ (chan st)) ->
  writer_ok ch (w_calls w) (results w) (w_pc w) ->
  (forall c, c ∈ w_calls w -> c ∈ w_calls (writer st)) ->
  Inv wcalls (mkState ch w (reader st) (sent st)).
Proof using HI.
  intros Hr HW Hf Hc Hv Hu Hok Hw Hsub. assert (R_ ch = R_ (chan st)) as HR by (unfold R_; by rewrite Hr).
  destruct HI as [H1 H2 H3 H4 H5 H6 H7 H8 H9 H10 H11 H12]. split; simpl; rewrite ?HW, ?HR, ?Hr; try done.
  - by destruct H2.
  - destruct H5 as [H5|H5]; [left; by apply Hc|]. destruct Hu as [Hu|Hu]; [by left|right]. by rewrite Hu.
  - intros E. destruct Hv as [->|[Hv|Hv]]; [by apply H6|lia|by right; right].
  - intros a v Hin. by apply H10, Hsub.
  - apply (reader_ok_mono (chan st) ch (sent st)); auto.
Qed.

(** The current call is a write. *)
Context (async : bool) (value : T) (rest : list WriteCall).
Hypothesis Hcalls : w_calls (writer st) = Write async value :: rest.

Lemma inv_write_goto (ch : Channel) (pc : WriterPc) :
  read_count_ ch = read_count_ (chan st) -> write_count_ ch = write_count_ (chan st) ->
  value_ ch = value_ (chan st) \/ W_ (chan st) = R_ (chan st) \/ closed (read_count_ (chan st)) = true ->
  in_flight pc = in_flight (w_pc (writer st)) ->
  writer_ok ch (w_calls (writer st)) (results (writer st)) pc ->
  Inv wcalls (mkState ch (mkWriter pc (w_calls (writer st)) (results (writer st))) (reader st) (sent st)).
Proof using HI.
  intros Hr Hw Hv Hf Hok. apply inv_writer_update; simpl; rewrite ?Hw; try done.
  - unfold W_. by rewrite Hw.
  - apply HI.
  - right. unfold unsent. simpl. by rewrite Hf.
  - rewrite Hf. apply HI.
Qed.

(** The write returns. *)
Lemma inv_write_return (ch : Channel) (s : StatusCode) :
  read_count_ ch = read_count_ (chan st) -> write_count_ ch = write_count_ (chan st) ->
  value_ ch = value_ (chan st) \/ W_ (chan st) = R_ (chan st) \/ closed (read_count_ (chan st)) = true ->
  closed (write_count_ ch) = true \/ in_flight (w_pc (writer st)) = true ->
  (s = kOk -> in_flight (w_pc (writer st)) = true) -> W_ (chan st) = R_ (chan st) \/ (closed (read_count_ (chan st)) = true /\ s <> kOk) ->
  Inv wcalls (mkState ch (mkWriter WStart rest (results (writer st) ++ [s])) (reader st) (sent st)).
Proof using HI Hcalls.
  intros Hr Hw Hv Hc Hs Hi. pose proof (inv_ok _ _ HI) as [Ho1 Ho2]. apply inv_writer_update; simpl; rewrite ?Hw; try done.
  - unfold W_. by rewrite Hw.
  - apply HI.
  - destruct Hc as [Hc|Hc]; [left; by rewrite <- Hw|right]. unfold unsent. simpl. by rewrite Hc, Hcalls.
  - split; [|done]. rewrite count_ok_snoc. destruct (bool_decide_reflect (s = kOk)) as [E|E]; [|lia].
    specialize (Ho2 (Hs E)). destruct Hi as [Hi|[_ Hi]]; [lia|done].
  - unfold idle_ok, R_, W_. rewrite Hr, Hw. destruct Hi as [Hi|[Hi Hne]]; [by left|right]. split; [done|].
    apply Exists_app. right. by constructor.
  - intros c Hin. rewrite Hcalls. by right.
Qed.

(** The object becomes available. *)
Lemma inv_write_add (pc : WriterPc) :
  W_ (chan st) = R_ (chan st) -> closed (write_count_ (chan st)) = false ->
  in_flight (w_pc (writer st)) = false -> in_flight pc = true -> w_pc (writer st) <> WStart ->
  value_ (chan st) = Some value ->
  writer_ok (count_write value (chan st) (sent st)).1 (w_calls (writer st)) (results (writer st)) pc ->
  Inv wcalls (mkState (count_write value (chan st) (sent st)).1 (mkWriter pc (w_calls (writer st)) (results (writer st)))
                (reader st) (count_write value (chan st) (sent st)).2).
Proof using HI Hlen Hcalls.
  intros HWR Hnc Hf Hf' Hst Hv Hok. pose proof (count_write_writes value (sent st)) as HW.
  destruct HI as [H1 H2 H3 H4 H5 H6 H7 H8 H9 H10 H11 H12]. unfold count_write in *. simpl in *.
  destruct H5 as [H5|H5]; [congruence|]. unfold unsent in H5. rewrite Hf, Hcalls in H5.
  change (written (Write async value :: rest)) with (value :: written rest) in H5.
  split; simpl; rewrite ?HW; change (R_ (mkChannel (read_count_ (chan st)) _ _)) with (R_ (chan st)); try done.
  - lia.
  - rewrite length_app. simpl. lia.
  - exists (written rest). by rewrite <- app_assoc.
  - right. unfold unsent. simpl. by rewrite Hf', Hcalls, <- app_assoc.
  - intros _. left. by rewrite Hv, last_snoc.
  - split; [apply H8|]. intros _. destruct H8. lia.
  - apply (reader_ok_mono (chan st) _ (sent st)); try done. right. split_and!; [done|rewrite HW; lia|done|].
    intros r E. destruct H12 as (h & Hd & _ & _ & Hh). rewrite E in Hd. simpl in Hd. bool_cases. specialize (Hh ltac:(done)). lia.
  - destruct H12 as ([] & Hd & Hg & Hl & Hh); [specialize (Hh eq_refl); lia|]. exists false. split_and!; [done| |done|done].
    simpl in Hl. rewrite Hg at 1. rewrite take_app_le by lia. done.
Qed.
End writer.

Lemma wait_spec (stale : bool) (last : Z) (c : Cell) (r : StatusOr Z) :
  final_ok c -> wait stale last c = Some r ->
  wait_err c r /\ match r with OkVal v => v = cell_value c /\ (stale = false -> v <> last) | Err _ => cell_value c = last end.
Proof.
  intros Hf. unfold wait. destruct (stale || negb (cell_value c =? last)) eqn:E.
  - intros [= <-]. simpl. split_and!; [done|done|]. intros ->. simpl in E. by bool_cases.
  - apply orb_false_iff in E as [-> E]. bool_cases.
    destruct Hf as [Ef|Ef]; rewrite Ef; simpl; [done|]. intros [= <-]. split; [split; [done|by unfold closed; rewrite Ef]|done].
Qed.

Lemma writer_inv_step (wcalls : list WriteCall) (stale : bool) (st : State) :
  Z.of_nat (length (written wcalls)) < 2 ^ 31 -> negb stale || blocking_writes wcalls = true ->
  Inv wcalls st -> Inv wcalls (writer_step stale st).
Proof.
  intros Hlen Hstale HI. unfold writer_step. pose proof (inv_writer _ _ HI) as Hok. pose proof (inv_counts _ _ HI) as [Hc1 Hc2].
  destruct (w_calls (writer st)) as [|[async value|] rest] eqn:Hcalls; [done| |].
  2: { assert (w_pc (writer st) = WStart) as Hpc.
       { destruct (w_pc (writer st)); simpl in Hok; naive_solver. }
       rewrite Hpc in Hok. simpl in Hok. apply (inv_writer_update wcalls st HI); simpl; try done.
       - unfold final_ok. simpl. destruct (proj2 (inv_final _ _ HI)) as [->| ->]; by right.
       - unfold closed. simpl. by destruct (cell_final _).
       - by left.
       - left. unfold closed. simpl. by destruct (cell_final _).
       - split; [apply HI|done].
       - intros c Hin. rewrite Hcalls. by right. }
  pose proof (inv_write_goto wcalls st HI) as Hgoto. rewrite Hcalls in Hgoto.
  pose proof (inv_write_return wcalls st HI async value rest Hcalls) as Hret.
  pose proof (inv_write_add wcalls st HI Hlen async value rest Hcalls) as Hadd. rewrite Hcalls in Hadd.
  assert (stale = false \/ async = false) as Hs.
  { destruct stale; [|by left]. right. simpl in Hstale. pose proof (inv_blocking _ _ HI async value) as Hb.
    rewrite Hcalls in Hb. specialize (Hb ltac:(by left)). apply list_elem_of_In, (proj1 (forallb_forall _ _) Hstale) in Hb.
    by destruct async. }
  destruct (w_pc (writer st)) as [|w| | | |last|t|t r|t last|t last|t r|] eqn:Hpc; simpl in Hok.
  all: cbn [write_step async_write_step].
  - apply Hgoto; try done; [by left|]. split_and!; [done|done|by exists async, value, rest].
  - destruct Hok as (-> & Hidle & Hw). apply Hgoto; try done; [by left|by destruct (is_active _ _)|].
    unfold is_active. destruct (0 <? _) eqn:E; bool_cases; simpl.
    + destruct Hidle as [Hidle|[? ?]]; [unfold W_, R_ in *; lia|done].
    + split; [unfold W_, R_ in *; lia|done].
  - destruct Hok as (HWR & Hw). destruct (closed (write_count_ (chan st))) eqn:E.
    + apply Hret; try done; by left.
    + apply Hgoto; try done. by left.
  - destruct Hok as (HWR & Hw & Hnc). apply Hgoto; try done; [by right; left|by destruct async|].
    assert (is_set : exists a v r, Write async value :: rest = Write a v :: r /\ value_ (set_value (Some value) (chan st)) = Some v)
      by by exists async, value, rest.
    destruct async; simpl; split_and!; try done; by exists true, value, rest || exists false, value, rest.
  - destruct Hok as (HWR & Hw & Hset & Hnc). apply Hgoto; try done; [by left|].
    split_and!; try done. by intros l [= <-].
  - destruct Hok as (HWR & Hw & (a & v & r & [= <- <- <-] & Hv) & Hnc & Hl). destruct last as [l|]; cbn [write_step async_write_step].
    + rewrite (Hl l eq_refl). assert (R_ (chan st) + 1 =? cell_value (write_count_ (chan st)) + 1 = true) as ->
        by (apply Z.eqb_eq; unfold W_ in HWR; lia).
      apply Hadd; try done. cbn [writer_ok]. rewrite (count_write_writes wcalls st HI Hlen). unfold W_ in *. split_and!; [done|done|lia].
    + apply Hadd; try done. cbn [writer_ok]. rewrite (count_write_writes wcalls st HI Hlen). done.
  - destruct Hok as (-> & Hw). apply Hgoto; try done; [by left|]. split_and!; try done. by intros v [= <-].
  - destruct Hok as (-> & Hw & He & Hv). destruct r as [v|s]; simpl.
    + destruct (v =? _) eqn:E; bool_cases.
      * apply Hret; try done; [by left|by right|]. left. specialize (Hv v eq_refl). lia.
      * apply Hgoto; try done; [by left|]. split_and!; try done. by apply Hv.
    + destruct He as [-> He]. apply Hret; try done; [by left|by right|]. by right.
  - destruct Hok as (-> & Hw & Hne & Hle).
    destruct (wait stale last (read_count_ (chan st))) as [r|] eqn:E.
    + apply wait_spec in E as [E1 E2]; [|apply HI]. apply Hgoto; try done; [by left|]. split_and!; try done.
      intros v ->. destruct E2 as [-> _]. done.
    + apply Hgoto; try done. by left.
  - destruct Hok as (-> & Hw & Ht).
    destruct (wait stale last (read_count_ (chan st))) as [r|] eqn:E.
    + apply wait_spec in E as [E1 E2]; [|apply HI]. apply Hgoto; try done; [by left|]. split_and!; try done.
      intros v ->. destruct Hw as (a & v' & r & [= <- <- <-] & Ha). destruct Hs as [Hs|Hs]; [|by rewrite Ha in Hs].
      destruct E2 as [-> E2]. specialize (E2 Hs). unfold R_, W_ in *. lia.
    + apply Hgoto; try done. by left.
  - destruct Hok as (-> & Hw & He & Hv). destruct r as [v|s]; simpl.
    + destruct (Hv v eq_refl) as [-> HR]. rewrite Z.eqb_refl. apply Hret; try done; [right; left; lia|by right|by left].
    + destruct He as [-> He]. apply Hret; try done; [by right; right|by right|by right].
  - apply Hgoto; try done. by left.
Qed.

(** ** Steps of the reader *)

Lemma writer_ok_mono (ch ch' : Channel) (calls : list WriteCall) (rs : list StatusCode) (pc : WriterPc) :
  W_ ch' = W_ ch -> closed (write_count_ ch') = closed (write_count_ ch) ->
  (closed (read_count_ ch) = true -> closed (read_count_ ch') = true) ->
  (R_ ch' = R_ ch /\ (W_ ch = R_ ch -> value_ ch' = value_ ch)) \/
    (R_ ch' = R_ ch + 1 /\ W_ ch = R_ ch + 1 /\ closed (read_count_ ch) = false) ->
  writer_ok ch calls rs pc -> writer_ok ch' calls rs pc.
Proof.
  intros HW Hw Hr HR. assert (idle_ok ch rs -> idle_ok ch' rs) as Hidle.
  { unfold idle_ok. rewrite HW. destruct HR as [[-> _]|(-> & H & Hn)]; intros [?|[? ?]]; try (right; by auto); [by left|left; lia]. }
  pose proof (wait_err_mono (read_count_ ch) (read_count_ ch')) as He.
  destruct pc as [|w| | | |last|t|t r|t last|t last|t r|]; simpl; rewrite ?HW, ?Hw; try done; intros; destruct_and?;
    try (destruct HR as [[HR Hv]|(HR & HR' & Hn)]; [rewrite ?Hv by done; rewrite ?HR|lia || congruence]);
    split_and?; eauto; try lia.
  - intros v E. match goal with H : forall v, r = OkVal v -> v <= _ |- _ => specialize (H v E) end. lia.
  - intros v E. match goal with H : forall v, r = OkVal v -> _ |- _ => destruct (H v E) end. lia.
Qed.

Section reader.
Context (wcalls : list WriteCall) (st : State).
Hypothesis HI : Inv wcalls st.

(** A step of the reader within a call. *)
Lemma inv_reader_goto (pc : ReaderPc) :
  pc = CFetchAdd \/ r_pc (reader st) <> CFetchAdd ->
  reader_ok (chan st) (sent st) (got (reader st)) (r_calls (reader st)) pc ->
  Inv wcalls (mkState (chan st) (writer st) (mkReader pc (r_calls (reader st)) (got (reader st))) (sent st)).
Proof using HI.
  intros Hpc Hok. destruct HI as [H1 H2 H3 H4 H5 H6 H7 H8 H9 H10 H11 H12]. split; simpl; try done.
  intros E. destruct (H6 E) as [?|[?|?]]; [by left| |by right; right]. destruct Hpc as [->|Hpc]; [by right; left|done].
Qed.

(** A read returns its object. *)
Lemma inv_read_got (async : bool) (rest : list ReadCall) (v : T) :
  r_calls (reader st) = Read async :: rest -> r_pc (reader st) = RDeref -> value_ (chan st) = Some v ->
  Inv wcalls (mkState (chan st) (writer st) (mkReader RStart rest (got (reader st) ++ [v])) (sent st)).
Proof using HI.
  intros Hcalls Hpc Hv. destruct HI as [H1 H2 H3 H4 H5 H6 H7 H8 H9 H10 H11 H12]. rewrite Hcalls, Hpc in *.
  destruct H11 as [_ HWR]. split; simpl; try done.
  - intros E. destruct (H6 E) as [?|[?|?]]; [by left|done|by right; right].
  - intros E. by specialize (H7 E).
  - destruct H12 as (h & Hd & Hg & Hl & Hh). simpl in Hd. bool_cases. destruct h; [done|]. simpl in Hl. exists true. split_and!; [done| | |done].
    + destruct (H6 HWR) as [Hlast|[?|Hcl]]; [|done|by specialize (H7 Hcl)]. rewrite Hv in Hlast. symmetry in Hlast.
      apply last_Some in Hlast as [l El]. rewrite El, length_app in H3. simpl in H3. rewrite El in Hg |- *.
      rewrite length_app. simpl. rewrite take_ge by (rewrite length_app; simpl; lia). f_equal.
      rewrite Hg, take_app_le by lia. by rewrite take_ge by lia.
    + rewrite length_app. simpl. lia.
Qed.

(** [consume] clears the pointer and counts. *)
Lemma inv_consume_clear (rest : list ReadCall) :
  r_calls (reader st) = Consume :: rest ->
  Inv wcalls (mkState (set_value None (chan st)) (writer st) (mkReader CFetchAdd (r_calls (reader st)) (got (reader st))) (sent st)).
Proof using HI.
  intros Hcalls. destruct HI as [H1 H2 H3 H4 H5 H6 H7 H8 H9 H10 H11 H12].
  assert (W_ (chan st) = R_ (chan st) + 1) as HWR.
  { destruct H12 as (h & Hd & _ & _ & Hh). rewrite Hcalls in Hd. simpl in Hd. bool_cases. by apply Hh. }
  split; simpl; try done.
  - intros _. by right; left.
  - apply (writer_ok_mono (chan st)); try done. left. split; [done|]. lia.
  - by exists rest.
Qed.

Lemma inv_consume_count (rest : list ReadCall) :
  W_ (chan st) < 2 ^ 31 ->
  r_calls (reader st) = Consume :: rest ->
  Inv wcalls (mkState (mkChannel (increment (read_count_ (chan st))) (write_count_ (chan st)) (value_ (chan st))) (writer st)
                (mkReader RStart rest (got (reader st))) (sent st)).
Proof using HI.
  intros Hb Hcalls. destruct HI as [H1 H2 H3 H4 H5 H6 H7 H8 H9 H10 H11 H12].
  assert (closed (read_count_ (chan st)) = false) as Hnc.
  { apply not_true_iff_false. intros E. specialize (H7 E). congruence. }
  destruct H12 as (h & Hd & Hg & Hl & Hh). rewrite Hcalls in Hd. simpl in Hd. bool_cases. subst. specialize (Hh eq_refl).
  assert (R_ (mkChannel (increment (read_count_ (chan st))) (write_count_ (chan st)) (value_ (chan st))) = R_ (chan st) + 1) as HR.
  { unfold R_, increment. simpl. apply uwrap_small. fold (R_ (chan st)). lia. }
  split; simpl; rewrite ?HR; change (W_ (mkChannel _ (write_count_ (chan st)) _)) with (W_ (chan st)); try done.
  - lia.
  - lia.
  - intros E. unfold closed in E, Hnc. simpl in E. by rewrite E in Hnc.
  - split; [lia|apply H8].
  - apply (writer_ok_mono (chan st)); try done. right. by split_and!.
  - exists false. split_and!; try done. simpl in *. lia.
Qed.

Lemma inv_close_for_read (rest : list ReadCall) :
  r_calls (reader st) = CloseForRead :: rest -> r_pc (reader st) = RStart ->
  Inv wcalls (mkState (close_for_read (chan st)) (writer st) (mkReader RStart rest (got (reader st))) (sent st)).
Proof using HI.
  intros Hcalls Hpc. destruct HI as [H1 H2 H3 H4 H5 H6 H7 H8 H9 H10 H11 H12].
  assert (rest = []) as ->. { destruct H12 as (h & Hd & _). rewrite Hcalls in Hd. simpl in Hd. by destruct rest. }
  assert (closed (read_count_ (close_for_read (chan st))) = true) as Hc by (unfold closed; simpl; by destruct (cell_final _)).
  split; simpl; try done.
  - split; [|apply H2]. unfold final_ok. simpl. destruct (proj1 H2) as [->| ->]; by right.
  - intros _. by right; right.
  - apply (writer_ok_mono (chan st)); try done. by left.
  - destruct H12 as (h & Hd & Hg & Hl & Hh). by exists h.
Qed.
End reader.

Lemma reader_inv_step (wcalls : list WriteCall) (st : State) :
  Z.of_nat (length (written wcalls)) < 2 ^ 31 -> Inv wcalls st -> Inv wcalls (reader_step false st).
Proof.
  intros Hlen HI. unfold reader_step. pose proof (inv_reader _ _ HI) as Hok. pose proof (inv_counts _ _ HI) as [Hc1 Hc2].
  pose proof (counts_bound wcalls st HI Hlen) as Hb. pose proof (inv_final _ _ HI) as [_ Hfw].
  pose proof (inv_reader_goto wcalls st HI) as Hgoto.
  assert (r_calls (reader st) <> [] -> closed (read_count_ (chan st)) = false) as Hopen.
  { intros Hne. apply not_true_iff_false. intros E. by apply Hne, (inv_gone _ _ HI). }
  assert (W_ (chan st) = R_ (chan st) + 1 -> r_pc (reader st) <> CFetchAdd -> r_calls (reader st) <> [] ->
          exists v, value_ (chan st) = Some v) as Hslot.
  { intros E Hpc Hne. destruct (inv_slot _ _ HI E) as [->|[?|Hcl]]; [|done|by rewrite Hopen in Hcl].
    pose proof (inv_sent _ _ HI) as Hl. destruct (last (sent st)) as [v|] eqn:El; [by exists v|].
    apply last_None in El. rewrite El in Hl. simpl in Hl. lia. }
  destruct (r_calls (reader st)) as [|[async| |] rest] eqn:Hcalls; [done| | |].
  - assert (exists b rest', Read async :: rest = Read b :: rest') as Hreading by by exists async, rest.
    destruct (r_pc (reader st)) as [| |l| |w|w r|r res| |w| | |s| |] eqn:Hpc; simpl in Hok; try done; try (by destruct Hok).
    + destruct async; cbn [async_read_step read_step].
      * rewrite Hopen by done. apply Hgoto; [by right|]. by exists rest.
      * apply Hgoto; [by right|]. by exists rest.
    + destruct Hok as [r' [= -> <-]]. cbn [read_step]. apply Hgoto; [by right|]. split; [by exists rest|done].
    + destruct Hok as [[r' [= -> <-]] ->]. cbn [read_step].
      destruct (wait false (R_ (chan st)) (write_count_ (chan st))) as [[v|s]|] eqn:E; [| |apply Hgoto; [by right|]; by split; [exists rest|]].
      * apply wait_spec in E as [_ [-> Hne]]; [|done]. apply Hgoto; [by right|]. split; [done|].
        specialize (Hne eq_refl). unfold W_, R_ in *. lia.
      * apply wait_spec in E as [[-> He] Hr]; [|done]. apply Hgoto; [by right|]. by split_and!.
    + destruct Hok as [r' [= -> <-]]. cbn [async_read_step]. apply Hgoto; [by right|]. split; [by exists rest|]. unfold W_, R_ in *. lia.
    + destruct Hok as [[r' [= -> <-]] Hw]. cbn [async_read_step]. apply Hgoto; [by right|]. destruct (_ <? w) eqn:E; bool_cases.
      * split; [done|]. unfold W_, R_ in *. lia.
      * split_and!; [by exists rest| |done]. unfold W_, R_ in *. lia.
    + destruct Hok as ([r' [= -> <-]] & -> & ->). cbn [async_read_step].
      destruct (wait false (R_ (chan st)) (write_count_ (chan st))) as [res|] eqn:E; [|apply Hgoto; [by right|]; by split_and!; [exists rest| |]].
      apply wait_spec in E as [He Hr]; [|done]. apply Hgoto; [by right|]. split_and!; [by exists rest|done|done|].
      destruct res; [|done]. destruct Hr as [-> Hne]. specialize (Hne eq_refl). unfold W_, R_ in *. lia.
    + destruct Hok as ([r' [= -> <-]] & -> & He & Hr). cbn [async_read_step]. apply Hgoto; [by right|]. destruct res as [v|s].
      * destruct Hr as [-> HWR]. assert (R_ (chan st) <? W_ (chan st) = true) as -> by (apply Z.ltb_lt; lia). by split.
      * destruct He as [-> He]. by split_and!.
    + destruct Hok as [_ HWR]. destruct (Hslot HWR) as [v Hv]; [done|done|].
      assert ((if async then async_read_step else read_step) false (chan st) RDeref = RGot v) as -> by (destruct async; simpl; by rewrite Hv).
      by apply (inv_read_got wcalls st HI async rest v).
    + by destruct Hok as [[? ?] _].
    + destruct async; cbn [async_read_step read_step]; by apply Hgoto; [right|].
  - destruct (r_pc (reader st)) as [| |l| |w|w r|r res| |w| | |s| |] eqn:Hpc; simpl in Hok; try done; try naive_solver; cbn [consume_step].
    + destruct Hok as [_ ->]. apply Hgoto; [by right|]. unfold is_active.
      assert (0 <? W_ (chan st) - cell_value (read_count_ (chan st)) = true) as ->; [|by exists rest].
      apply Z.ltb_lt. destruct (inv_got _ _ HI) as (h & Hd & _ & _ & Hh). rewrite Hcalls in Hd. simpl in Hd. bool_cases.
      specialize (Hh ltac:(done)). unfold R_ in *. lia.
    + rewrite <- Hcalls. by apply (inv_consume_clear wcalls st HI rest).
    + by apply (inv_consume_count wcalls st HI rest).
  - assert (r_pc (reader st) = RStart) as Hpc by (destruct (r_pc (reader st)); simpl in Hok; naive_solver).
    by apply (inv_close_for_read wcalls st HI).
Qed.

Lemma channel_inv_run (wcalls : list WriteCall) (schedule : list (Who * bool)) (st : State) :
  Z.of_nat (length (written wcalls)) < 2 ^ 31 -> fresh wcalls schedule = true -> Inv wcalls st -> Inv wcalls (run schedule st).
Proof.
  intros Hlen. revert st. induction schedule as [|[who stale] schedule IH]; intros st Hf HI; [done|].
  unfold fresh in Hf. cbn [forallb] in Hf. apply andb_true_iff in Hf as [Hs Hf]. apply IH; [done|]. destruct who; simpl.
  - by apply writer_inv_step.
  - apply negb_true_iff in Hs as ->. by apply reader_inv_step.
Qed.

Lemma channel_inv_initial (wcalls : list WriteCall) (rcalls : list ReadCall) :
  disciplined false rcalls = true -> Inv wcalls (initial_state wcalls rcalls).
Proof.
  intros Hd. split; simpl; try done.
  - split; by left.
  - by exists (written wcalls).
  - by right.
  - by left.
  - by exists false.
Qed.

(** C11: a channel passes every object on, once and in order.  A reader that
    consumes what it reads and closes last ([disciplined]) and any writer of
    fewer than 2^31 objects, blocking or not, run concurrently, and a wake-up
    brings a new value, as [await_not_equal] promises ([fresh]; it can bring
    the old one, and then the claim fails: [stale_wakeup_null],
    [stale_wakeup_panics]; the blocking [write] stands both).  Then: the reader
    fails no check and never follows a null pointer, and the writer fails one
    only after a write has returned an error because the reader has closed;
    what the reader has got is, in order, what the writer has written, less at
    most one object in transit and those still to come; a write that has
    returned ok was read; the reader is told [kClosed] only when the writer has
    closed and it has got everything; and writer and reader are never both
    asleep. *)
Theorem channel_delivers (wcalls : list WriteCall) (rcalls : list ReadCall) (schedule : list (Who * bool)) :
  Z.of_nat (length (written wcalls)) < 2 ^ 31 -> disciplined false rcalls = true -> fresh wcalls schedule = true ->
  let st := run schedule (initial_state wcalls rcalls) in
  r_pc (reader st) <> RPanic /\ r_pc (reader st) <> RNull /\
  (w_pc (writer st) = WPanic ->
     closed (read_count_ (chan st)) = true /\ Exists (fun s => s <> kOk) (results (writer st))) /\
  (exists transit rest, written wcalls = got (reader st) ++ transit ++ rest /\
     sent st = got (reader st) ++ transit /\ (length transit <= 1)%nat) /\
  count_ok (results (writer st)) <= Z.of_nat (length (got (reader st))) /\
  (forall s, r_pc (reader st) = RStopped s ->
     s = kClosed /\ closed (write_count_ (chan st)) = true /\ got (reader st) = sent st) /\
  writer_asleep st && reader_asleep st = false.
Proof.
  intros Hlen Hd Hf st. pose proof (channel_inv_run wcalls schedule _ Hlen Hf (channel_inv_initial wcalls rcalls Hd)) as HI.
  fold st in HI. destruct HI as [H1 H2 H3 H4 H5 H6 H7 H8 H9 H10 H11 (h & Hd' & Hg & Hl & Hh)].
  assert (sent st = got (reader st) ++ drop (length (got (reader st))) (sent st)) as Hs by (rewrite Hg at 1; by rewrite take_drop).
  assert (0 <= Z.b2z h <= 1) as Hb by (destruct h; simpl; lia).
  split_and!.
  - intros E. by rewrite E in H11.
  - intros E. by rewrite E in H11.
  - intros E. rewrite E in H9. simpl in H9. by destruct H9 as (? & ? & _).
  - destruct H4 as [rest E]. exists (drop (length (got (reader st))) (sent st)), rest. split_and!; [|done|].
    + by rewrite app_assoc, <- Hs.
    + rewrite length_drop. lia.
  - lia.
  - intros s E. rewrite E in H11. destruct H11 as ((b & r & Er) & -> & Hc & HWR). split_and!; [done|done|].
    rewrite Er in Hd'. simpl in Hd'. bool_cases. subst h. simpl in Hl. rewrite Hg, take_ge by lia. done.
  - unfold writer_asleep, reader_asleep. destruct (w_pc (writer st)); simpl in H9; try done;
      destruct (r_pc (reader st)); simpl in H11; try (by rewrite andb_false_r);
      apply not_true_iff_false; intros E; bool_cases; unfold W_, R_ in *; destruct_and?; lia.
Qed.
End channel.

(** A writer of three objects and a reader that closes when it has consumed
    the second. *)
Definition sample_writes : list WriteCall := [Write false 7; Write true 8; Write false 9; CloseForWrite].
Definition sample_reads : list ReadCall := [Read true; Consume; Read false; Consume; CloseForRead].

Definition turns (ws : list Who) : list (Who * bool) := (fun w => (w, false)) <$> ws.

Definition sample_schedule : list (Who * bool) :=
  turns ([R; R; R; R; W; W; W; W; W; R; R; R; W; W; R; R; R; R; W; W] ++ replicate 40 W ++ replicate 20 R ++ replicate 20 W).

Lemma channel_delivers_witness :
  let st := run sample_schedule (initial_state sample_writes sample_reads) in
  results (writer st) = [kOk; kOk; kClosed] /\ got (reader st) = [7; 8] /\
  count_ok (results (writer st)) <= Z.of_nat (length (got (reader st))) /\ writer_asleep st && reader_asleep st = false.
Proof.
  intros st. split; [by vm_compute|]. split; [by vm_compute|].
  destruct (channel_delivers sample_writes sample_reads sample_schedule) as (_ & _ & _ & _ & H1 & _ & H2);
    [by vm_compute|by vm_compute|by vm_compute|]. split; [exact H1|exact H2].
Defined.

(** [close_for_read] is documented to make all future writes fail; the second
    one panics, since the first leaves its object on the channel. *)
Example second_write_panics :
  let st := run (turns (replicate 3 R ++ replicate 30 W)) (initial_state [Write false 7; Write false 8] [CloseForRead]) in
  results (writer st) = [kClosed] /\ w_pc (writer st) = WPanic.
Proof. by vm_compute. Qed.

(** A wake-up with the count already seen: the reader has consumed the first
    object and follows the null pointer. *)
Example stale_wakeup_null :
  let st := run (turns (replicate 5 W ++ replicate 10 R) ++ [(R, true); (R, false)])
              (initial_state [Write false 7] [Read false; Consume; Read false]) in
  r_pc (reader st) = RNull.
Proof. by vm_compute. Qed.

(** The same wake-up fails the check of [async_read] and of [async_write]. *)
Example stale_wakeup_panics :
  r_pc (reader (run (turns (replicate 5 W ++ replicate 11 R) ++ [(R, true); (R, false)])
    (initial_state [Write false 7] [Read true; Consume; Read true]))) = RPanic /\
  w_pc (writer (run (turns (replicate 6 W) ++ [(W, true); (W, false)])
    (initial_state [Write true 7] []))) = WPanic.
Proof. by vm_compute. Qed.
