(* ===== verification/Queue.v ===== *)
(** * Queue: an unbounded multi-producer, multi-consumer queue

    [async/queue.hpp].  The counter [pending_count_] is a [Cell]; the deque is
    behind a [Mutex], so each locked access to it is one step
    ([Mutex.mutex_serializes]).  Counts stay below 2^63, where the
    [i64] of the code and the wrap-around of the cell agree.  A schedule entry
    says which thread steps, whether a weak compare-exchange fails spuriously,
    and what a wait returns: one of the values the counter has held, or the
    closed status. *)

From S2P Require Import Prelude Status Watch WatchCell.
Open Scope Z_scope.

Section queue.
Context {T : Type}.

(** What an operation returns. *)
Inductive Result : Type :=
| Pushed (ok : bool)
| Next (r : StatusOr T)
| TryNext (r : option T)
| Drained (count : Z)
| Closed
| CheckFailed.

(** A reader: [await_next], [try_pop_next], or [drain] with its count so far. *)
Inductive Reader : Type := Awaiting | Trying | Draining (count : Z).

Inductive Pc : Type :=
| PushOpen (items : list T)
| PushLock (items : list T)
| PushNotify (count : Z)
| Acquire (r : Reader)
| AcquireCas (r : Reader) (old_value : Z)
| AwaitChange (last_seen : Z)
| PopLocked (r : Reader)
| PopDirect
| CloseQueue
| Finished (res : Result).

(** [pushed], [popped]: the items that went in and out, in order (not in the
    program). *)
(* @ src/batteries/async/queue.hpp 116-116 QueueBase::pending_count_, pending_items_ *)
Record State : Type := mkState {
  pending_count_ : Cell;
  pending_items_ : list T;
  threads : list Pc;
  pushed : list T;
  popped : list T }.

(* @ src/batteries/async/queue.hpp 108-114 QueueBase::decrement_if_positive *)
Definition decrement_if_positive (n : Z) : option Z := if 0 <? n then Some (n - 1) else None.

(* @ src/batteries/async/queue.hpp 30-33 QueueBase::is_open *)
Definition is_open (c : Cell) : bool := match cell_final c with None => true | Some _ => false end.

Definition goto (st : State) (i : nat) (pc : Pc) : State :=
  mkState (pending_count_ st) (pending_items_ st) (<[i := pc]> (threads st)) (pushed st) (popped st).

Definition set_count (st : State) (c : Cell) : State :=
  mkState c (pending_items_ st) (threads st) (pushed st) (popped st).

(** [pending.insert(pending.end(), begin(items), end(items))] *)
(* @ src/batteries/async/queue.hpp 173-175 Queue::push_all *)
Definition insert_items (st : State) (items : list T) : State :=
  mkState (pending_count_ st) (pending_items_ st ++ items) (threads st) (pushed st ++ items) (popped st).

(** [front()] and [pop_front()]. *)
(* @ src/batteries/async/queue.hpp 206-216 Queue::pop_next_or_panic *)
Definition pop_front (st : State) : option (T * State) :=
  match pending_items_ st with
  | x :: items => Some (x, mkState (pending_count_ st) items (threads st) (pushed st) (popped st ++ [x]))
  | [] => None
  end.

(** What follows a failed attempt to take a token. *)
(* @ src/batteries/async/queue.hpp 76-105 QueueBase::close, await_one, try_acquire, notify *)
Definition no_token (r : Reader) (old_value : Z) : Pc :=
  match r with
  | Awaiting => AwaitChange old_value
  | Trying => Finished (TryNext None)
  | Draining n => Finished (Drained n)
  end.

(** The reader has an item. *)
(* @ src/batteries/async/queue.hpp 218-229 Queue::await_next, try_pop_next, drain *)
Definition deliver (r : Reader) (x : T) : Pc :=
  match r with
  | Awaiting => Finished (Next (OkVal x))
  | Trying => Finished (TryNext (Some x))
  | Draining n => Acquire (Draining (n + 1))
  end.

(** [choice]: the value a wait returns, by its position in the past of the
    counter, or the closed status. *)
(* @ src/batteries/async/queue.hpp 132-204 Queue::push, push_with_lock, push_all, await_next, try_pop_next *)
Definition step (i : nat) (spurious : bool) (choice : option nat) (st : State) : State :=
  let c := pending_count_ st in
  match threads st !! i with
  | Some (PushOpen items) =>
      goto st i (if is_open c then PushLock items else Finished (Pushed false))
  | Some (PushLock items) => goto (insert_items st items) i (PushNotify (Z.of_nat (length items)))
  | Some (PushNotify n) => goto (set_count st (cell_apply (CellRmw (FetchAdd n)) c)) i (Finished (Pushed true))
  | Some (Acquire r) => goto st i (AcquireCas r (cell_value c))
  | Some (AcquireCas r old) =>
      match decrement_if_positive old with
      | None => goto st i (no_token r old)
      | Some n =>
          if spurious || negb (cell_value c =? old) then goto st i (AcquireCas r (cell_value c))
          else goto (set_count st (put n c)) i (if 0 <? old then PopLocked r else Finished CheckFailed)
      end
  | Some (AwaitChange last) =>
      match choice with
      | Some k => match cell_past c !! k with Some v => goto st i (AcquireCas Awaiting v) | None => st end
      | None => match cell_final c with Some s => goto st i (Finished (Next (Err s))) | None => st end
      end
  | Some (PopLocked r) =>
      match pop_front st with
      | Some (x, st') => goto st' i (deliver r x)
      | None => goto st i (Finished CheckFailed)
      end
  | Some PopDirect =>
      match pop_front st with
      | Some (x, st') => goto st' i (Finished (TryNext (Some x)))
      | None => goto st i (Finished CheckFailed)
      end
  | Some CloseQueue => goto (set_count st (close kClosed c)) i (Finished Closed)
  | _ => st
  end.

Definition run (schedule : list (nat * bool * option nat)) (st : State) : State :=
  foldl (fun st s => step s.1.1 s.1.2 s.2 st) st schedule.

(** The operations a thread can start with; [PopDirect] is a call of
    [pop_next_or_panic] from outside. *)
Definition is_start (pc : Pc) : bool :=
  match pc with
  | PushOpen _ | Acquire Awaiting | Acquire Trying | Acquire (Draining 0) | PopDirect | CloseQueue => true
  | _ => false
  end.

Definition direct_pop (pc : Pc) : bool := match pc with PopDirect => true | _ => false end.

Definition initial_state (ops : list Pc) : State := mkState (new_cell 0) [] ops [] [].

(** A reader that sleeps with no reason to wake up. *)
Definition asleep (c : Cell) (pc : Pc) : bool :=
  match pc with AwaitChange last => (cell_value c =? last) && is_open c | _ => false end.

Definition finished (pc : Pc) : bool := match pc with Finished _ => true | _ => false end.

(** ** The invariant *)

(** Items a thread has inserted but not yet counted, and tokens it holds. *)
Definition uncounted (pc : Pc) : Z := match pc with PushNotify n => n | _ => 0 end.
Definition tokens (pc : Pc) : Z := match pc with PopLocked _ => 1 | _ => 0 end.

(** Items a thread is still going to insert. *)
Definition to_push (pc : Pc) : Z :=
  match pc with PushOpen items | PushLock items => Z.of_nat (length items) | _ => 0 end.

Definition pc_ok (pc : Pc) : Prop :=
  match pc with
  | PushNotify n => 0 <= n
  | AwaitChange last => last <= 0
  | PopDirect | Finished CheckFailed => False
  | _ => True
  end.

Record Inv (total : Z) (st : State) : Prop := {
  inv_count : cell_value (pending_count_ st) + sum (uncounted <$> threads st) + sum (tokens <$> threads st)
    = Z.of_nat (length (pending_items_ st));
  inv_nonneg : 0 <= cell_value (pending_count_ st);
  inv_fifo : pushed st = popped st ++ pending_items_ st;
  inv_total : Z.of_nat (length (pushed st)) + sum (to_push <$> threads st) <= total;
  inv_pcs : Forall pc_ok (threads st) }.

Section preserve.
Context (total : Z) (st : State) (i : nat) (pc : Pc).
Hypothesis Htotal : total < 2 ^ 63.
Hypothesis HI : Inv total st.
Hypothesis Hi : threads st !! i = Some pc.

Lemma sums_nonneg :
  0 <= sum (uncounted <$> threads st) /\ 0 <= sum (tokens <$> threads st) /\ 0 <= sum (to_push <$> threads st).
Proof using HI.
  split_and!; apply sum_nonneg; eapply list.Forall_impl; try exact (inv_pcs _ _ HI); intros []; simpl; lia.
Qed.

(** The counter and the deque after a step of thread [i]. *)
Lemma queue_inv_update (c : Cell) (items pu po : list T) (pc' : Pc) :
  cell_value c + uncounted pc' + tokens pc' - Z.of_nat (length items) =
  cell_value (pending_count_ st) + uncounted pc + tokens pc - Z.of_nat (length (pending_items_ st)) ->
  0 <= cell_value c -> pu = po ++ items ->
  Z.of_nat (length pu) + to_push pc' <= Z.of_nat (length (pushed st)) + to_push pc -> pc_ok pc' ->
  Inv total (mkState c items (<[i := pc']> (threads st)) pu po).
Proof using HI Hi.
  intros Hc Hn Hf Ht Hok. destruct HI as [H1 H2 H3 H4 H5]. split; simpl; try done.
  - rewrite (sum_insert uncounted _ i pc pc' Hi), (sum_insert tokens _ i pc pc' Hi). lia.
  - rewrite (sum_insert to_push _ i pc pc' Hi). lia.
  - by apply list.Forall_insert.
Qed.

Lemma queue_inv_goto (pc' : Pc) :
  uncounted pc' + tokens pc' = uncounted pc + tokens pc -> to_push pc' <= to_push pc -> pc_ok pc' ->
  Inv total (goto st i pc').
Proof using HI Hi.
  intros Hu Ht Hok. apply queue_inv_update; try done; try lia; [by apply (inv_nonneg _ _ HI)|by apply (inv_fifo _ _ HI)].
Qed.
End preserve.

(** The counter never passes the number of items pushed. *)
Lemma count_bound (total : Z) (st : State) (i : nat) (pc : Pc) :
  Inv total st -> threads st !! i = Some pc ->
  cell_value (pending_count_ st) + uncounted pc + tokens pc <= Z.of_nat (length (pending_items_ st)) /\
  Z.of_nat (length (pending_items_ st)) <= total.
Proof.
  intros HI Hi. destruct (sums_nonneg total st HI) as (Hu & Ht & Hp). pose proof HI as [H1 H2 H3 H4 H5].
  assert (uncounted pc <= sum (uncounted <$> threads st)).
  { apply (sum_lookup_le uncounted _ i); [|done]. eapply list.Forall_impl; [exact H5|]. intros []; simpl; lia. }
  assert (tokens pc <= sum (tokens <$> threads st)).
  { apply (sum_lookup_le tokens _ i); [|done]. apply list.Forall_forall. intros []; simpl; lia. }
  rewrite H3, length_app in H4. lia.
Qed.

Lemma queue_inv_step (total : Z) (i : nat) (b : bool) (choice : option nat) (st : State) :
  total < 2 ^ 63 -> Inv total st -> Inv total (step i b choice st).
Proof.
  intros Ht HI. unfold step. destruct (threads st !! i) as [pc|] eqn:Hi; [|done].
  pose proof (count_bound total st i pc HI Hi) as [Hb Hb']. pose proof HI as [H1 H2 H3 H4 H5].
  pose proof (proj1 (list.Forall_lookup _ _) H5 i pc Hi) as Hok.
  destruct pc as [items|items|n|r|r old|last|r| | |res]; simpl in Hb, Hok; try done.
  - apply (queue_inv_goto total st i _ HI Hi); destruct (is_open _); simpl; done || lia.
  - apply (queue_inv_update total st i _ HI Hi); simpl; rewrite ?length_app; try done; try lia.
    by rewrite H3, app_assoc.
  - assert (u64 (cell_value (pending_count_ st) + n) = cell_value (pending_count_ st) + n) as Hw
      by (apply uwrap_small; lia).
    apply (queue_inv_update total st i _ HI Hi); simpl; rewrite ?Hw; done || lia.
  - by apply (queue_inv_goto total st i _ HI Hi).
  - unfold decrement_if_positive. destruct (0 <? old) eqn:E; bool_cases.
    + destruct (b || _) eqn:Eb; [by apply (queue_inv_goto total st i _ HI Hi)|].
      apply orb_false_iff in Eb as [_ Eb]. bool_cases. subst old.
      apply (queue_inv_update total st i _ HI Hi); simpl; done || lia.
    + apply (queue_inv_goto total st i _ HI Hi); destruct r; simpl; done || lia.
  - destruct choice as [k|].
    + destruct (_ !! k) as [v|]; [|done]. by apply (queue_inv_goto total st i _ HI Hi).
    + destruct (cell_final _); [|done]. by apply (queue_inv_goto total st i _ HI Hi).
  - unfold pop_front. destruct (pending_items_ st) as [|x items] eqn:El; [simpl in Hb; lia|].
    assert (uncounted (deliver r x) = 0 /\ tokens (deliver r x) = 0 /\ to_push (deliver r x) = 0 /\ pc_ok (deliver r x))
      as (E1 & E2 & E3 & E4) by (by destruct r).
    apply (queue_inv_update total st i _ HI Hi); rewrite ?E1, ?E2, ?E3; cbn [uncounted tokens to_push]; try done; try lia.
    + rewrite El. simpl. lia.
    + simpl. by rewrite H3, <- app_assoc.
  - apply (queue_inv_update total st i _ HI Hi); simpl; done || lia.
Qed.

Lemma queue_inv_run (total : Z) (schedule : list (nat * bool * option nat)) (st : State) :
  total < 2 ^ 63 -> Inv total st -> Inv total (run schedule st).
Proof.
  intros Ht. revert st. induction schedule as [|[[i b] c] schedule IH]; intros st HI; [done|]. by apply IH, queue_inv_step.
Qed.

Definition total_pushes (ops : list Pc) : Z := sum (to_push <$> ops).

Lemma queue_inv_initial (ops : list Pc) :
  Forall (fun pc => is_start pc = true) ops -> Forall (fun pc => direct_pop pc = false) ops ->
  Inv (total_pushes ops) (initial_state ops).
Proof.
  intros Hops Hd. split; simpl; try done.
  - clear Hd. induction Hops as [|pc ops Hpc Hops IH]; [done|]. rewrite !fmap_cons, !sum_cons.
    destruct pc as [|?|?|[]| | | | | |]; try discriminate Hpc; simpl in *; lia.
  - apply list.Forall_forall. intros pc Hin. rewrite list.Forall_forall in Hops, Hd.
    specialize (Hops pc Hin). specialize (Hd pc Hin). by destruct pc.
Qed.

(** A direct pop takes the first item too. *)
Lemma step_fifo (i : nat) (b : bool) (choice : option nat) (st : State) :
  pushed st = popped st ++ pending_items_ st ->
  pushed (step i b choice st) = popped (step i b choice st) ++ pending_items_ (step i b choice st).
Proof.
  intros H. unfold step, pop_front. repeat case_match; simplify_eq; simpl in *; try done.
  all: rewrite H; try match goal with E : pending_items_ _ = _ |- _ => rewrite E end; by rewrite <- ?app_assoc.
Qed.

Lemma run_fifo (schedule : list (nat * bool * option nat)) (st : State) :
  pushed st = popped st ++ pending_items_ st ->
  pushed (run schedule st) = popped (run schedule st) ++ pending_items_ (run schedule st).
Proof. revert st. induction schedule as [|[[i b] c] schedule IH]; intros st H; [done|]. by apply IH, step_fifo. Qed.

(** ** The theorems *)

(** C8: the queue is a FIFO queue for any number of producers and consumers.
    In every interleaving of all its operations, the items popped so far
    followed by the items in the queue are the items pushed so far, in the
    same order.  When no client calls [pop_next_or_panic] itself, no
    [BATT_CHECK] fails either (a reader that has taken a token always finds an
    item), and [size] counts the items when every operation has returned; such
    a call takes an item without a token ([direct_pop_breaks_count]).  The
    items pushed are fewer than 2^63. *)
Theorem queue_fifo (ops : list Pc) (schedule : list (nat * bool * option nat)) :
  Forall (fun pc => is_start pc = true) ops -> total_pushes ops < 2 ^ 63 ->
  let st := run schedule (initial_state ops) in
  pushed st = popped st ++ pending_items_ st /\
  (Forall (fun pc => direct_pop pc = false) ops ->
     (forall i, threads st !! i <> Some (Finished CheckFailed)) /\
     (Forall (fun pc => finished pc = true) (threads st) ->
        cell_value (pending_count_ st) = Z.of_nat (length (pending_items_ st)))).
Proof.
  intros Hops Ht st. split; [by apply run_fifo|]. intros Hd.
  pose proof (queue_inv_run _ schedule _ Ht (queue_inv_initial ops Hops Hd)) as HI. fold st in HI.
  pose proof HI as [H1 H2 H3 H4 H5]. split.
  - intros i Hi. exact (proj1 (list.Forall_lookup _ _) H5 i _ Hi).
  - intros Hf. assert (sum (uncounted <$> threads st) = 0 /\ sum (tokens <$> threads st) = 0) as [E1 E2]; [|lia].
    clear - Hf. induction Hf as [|pc ts Hpc Hts IH]; [done|]. rewrite !fmap_cons, !sum_cons.
    destruct IH as [-> ->]. by destruct pc.
Qed.

(** No reader sleeps while there is something to read.  When no thread but
    sleeping readers is left, and a reader sleeps, the queue is open and
    empty. *)
Theorem queue_no_lost_items (ops : list Pc) (schedule : list (nat * bool * option nat)) (i : nat) (pc : Pc) :
  Forall (fun pc => is_start pc = true) ops -> Forall (fun pc => direct_pop pc = false) ops ->
  total_pushes ops < 2 ^ 63 ->
  let st := run schedule (initial_state ops) in
  Forall (fun pc => finished pc || asleep (pending_count_ st) pc = true) (threads st) ->
  threads st !! i = Some pc -> asleep (pending_count_ st) pc = true ->
  pending_items_ st = [] /\ is_open (pending_count_ st) = true.
Proof.
  intros Hops Hd Ht st Hall Hi Ha. pose proof (queue_inv_run _ schedule _ Ht (queue_inv_initial ops Hops Hd)) as HI. fold st in HI.
  pose proof HI as [H1 H2 H3 H4 H5]. pose proof (proj1 (list.Forall_lookup _ _) H5 i pc Hi) as Hok.
  destruct pc; try discriminate Ha. simpl in Ha, Hok. bool_cases. split; [|done].
  assert (sum (uncounted <$> threads st) = 0 /\ sum (tokens <$> threads st) = 0) as [E1 E2].
  { clear - Hall. induction Hall as [|q ts Hq Hts IH]; [done|]. rewrite !fmap_cons, !sum_cons.
    destruct IH as [-> ->]. by destruct q. }
  destruct (pending_items_ st); [done|]. simpl in H1. lia.
Qed.
End queue.

(** Two producers, a [try_pop_next], an [await_next] that sleeps at first, a
    [close], and a [drain]. *)
Definition sample_ops : list Pc :=
  [PushOpen [1; 2]; PushOpen [3]; Acquire Trying; Acquire Awaiting; CloseQueue; Acquire (Draining 0)].

Definition sample_schedule : list (nat * bool * option nat) :=
  ((fun i => (i, false, Some O)) <$> [3; 3; 0; 1; 1; 0; 0; 1; 3; 3; 3; 2; 2; 4; 2; 5; 5; 5; 5; 5]%nat).

Lemma queue_fifo_witness :
  let st := run sample_schedule (initial_state sample_ops) in
  threads st !! 3%nat = Some (Finished (Next (OkVal 3))) /\ threads st !! 5%nat = Some (Finished (Drained 1)) /\
  pushed st = [3; 1; 2] /\ pushed st = popped st ++ pending_items_ st /\
  cell_value (pending_count_ st) = Z.of_nat (length (pending_items_ st)).
Proof.
  intros st. split; [by vm_compute|]. split; [by vm_compute|]. split; [by vm_compute|].
  destruct (queue_fifo sample_ops sample_schedule) as [Hf Hc]; [by repeat constructor|by vm_compute|].
  split; [exact Hf|]. apply Hc; [by repeat constructor|vm_compute; by repeat constructor].
Defined.

Lemma queue_no_lost_items_witness :
  let st := run [(0%nat, false, None); (0%nat, false, None)] (initial_state [Acquire (T := Z) Awaiting]) in
  asleep (pending_count_ st) (AwaitChange (T := Z) 0) = true /\ pending_items_ st = [] /\ is_open (pending_count_ st) = true.
Proof.
  intros st. split; [by vm_compute|].
  apply (queue_no_lost_items [Acquire Awaiting] [(0%nat, false, None); (0%nat, false, None)] 0%nat (AwaitChange 0));
    [by repeat constructor|by repeat constructor|by vm_compute|vm_compute; by repeat constructor|by vm_compute|by vm_compute].
Defined.

(** [pop_next_or_panic] is public, but it takes no token: after a direct call
    the count is one too high, and the next [try_pop_next] fails its check. *)
Lemma direct_pop_breaks_count :
  let st := run ((fun i => (i, false, Some O)) <$> [0; 0; 0; 1; 2; 2; 2]%nat)
              (initial_state [PushOpen [7]; PopDirect; Acquire Trying]) in
  threads st = [Finished (Pushed true); Finished (TryNext (Some 7)); Finished CheckFailed].
Proof. by vm_compute. Qed.

(** A closed queue still hands out the items it holds: [await_next] after
    [close] succeeds. *)
Lemma read_after_close :
  let st := run ((fun i => (i, false, Some O)) <$> [0; 0; 0; 1; 2; 2; 2]%nat)
              (initial_state [PushOpen [7]; CloseQueue; Acquire Awaiting]) in
  threads st = [Finished (Pushed true); Finished Closed; Finished (Next (OkVal 7))].
Proof. by vm_compute. Qed.
