(* ===== verification/WorkPool.v ===== *)
(** * Worker pools and work contexts

    [async/worker_pool.hpp], [async/worker.hpp], [async/work_context.hpp].  A
    [WorkContext] counts the work that it has handed to the workers of a pool
    and waits for its end.  The work functions run on any worker and may hand
    out more work in the same context.  Every access to the context is a step;
    a worker's queue is a FIFO queue, as [Queue.queue_fifo] shows, and its
    thread takes the next item when it has none.  Thread 0 is the client, whose
    context goes away when [await_done] returns: the threads must not touch it
    after that.  A function is the list of the work that it hands out. *)

From S2P Require Import Prelude.
Open Scope Z_scope.

Inductive Work : Type := mkWork { name : nat; spawns : list Work }.

(** Where a call of a function is: [Started], [Counted]: in the middle of
    [async_run]; [Notifying], [Unref]: in [on_work_finished], after the first
    and before the second decrement.  The last four are in [await_done]. *)
Inductive Pc : Type :=
| Body
| Started
| Counted
| Notifying
| Unref
| AwaitCount
| Seen (count : Z)
| AwaitRef
| Returned.

(** [todo]: the calls of [async_run] that it still makes; [root]: whether it is
    the client. *)
Record Frame : Type := mkFrame { root : bool; pc : Pc; todo : list Work }.

(* @ src/batteries/async/work_context.hpp 78-80 WorkContext *)
Record State : Type := mkState {
  work_count_ : Z;
  ref_count_ : Z;
  returned : bool;                  (* the context is gone *)
  failed : bool;                    (* a check has failed, or the context was used when it was gone *)
  round_robin_ : Z;
  queues : list (list Work);
  threads : list (list Frame);
  ran : list nat }.

Definition set_thread (i : nat) (t : list Frame) (st : State) : State :=
  mkState (work_count_ st) (ref_count_ st) (returned st) (failed st) (round_robin_ st) (queues st) (<[i := t]> (threads st)) (ran st).

Definition fail (st : State) : State :=
  mkState (work_count_ st) (ref_count_ st) (returned st) true (round_robin_ st) (queues st) (threads st) (ran st).

(** An access to the context. *)
Definition access (st st' : State) : State := if returned st then fail st else st'.

Definition add_counts (work ref : Z) (st : State) : State :=
  mkState (work_count_ st + work) (ref_count_ st + ref) (returned st) (failed st) (round_robin_ st) (queues st) (threads st) (ran st).

Definition call_function (i : nat) (w : Work) (frames : list Frame) (st : State) : State :=
  mkState (work_count_ st) (ref_count_ st) (returned st) (failed st) (round_robin_ st) (queues st)
    (<[i := mkFrame false Body (spawns w) :: frames]> (threads st)) (ran st ++ [name w]).

(* @ src/batteries/async/worker_pool.hpp 49-57 WorkerPool::async_run *)
Definition pool_async_run (i : nat) (w : Work) (frames : list Frame) (st : State) : State :=
  match queues st with
  | [] => call_function i w frames st
  | qs =>
      let next := Z.to_nat (round_robin_ st mod Z.of_nat (length qs)) in
      set_thread i frames
        (mkState (work_count_ st) (ref_count_ st) (returned st) (failed st) (u64 (round_robin_ st + 1))
           (alter (fun q => q ++ [w]) next qs) (threads st) (ran st))
  end.

(* @ src/batteries/async/work_context.hpp 36-52 WorkContext::async_run, on_work_started *)
Definition async_run_step (i : nat) (f : Frame) (frames : list Frame) (st : State) : State :=
  match pc f, todo f with
  | Body, _ :: _ => access st (set_thread i (mkFrame (root f) Started (todo f) :: frames) (add_counts 0 1 st))
  | Started, _ => access st (set_thread i (mkFrame (root f) Counted (todo f) :: frames) (add_counts 1 0 st))
  | Counted, w :: rest => access st (pool_async_run i w (mkFrame (root f) Body rest :: frames) st)
  | _, _ => st
  end.

(* @ src/batteries/async/work_context.hpp 54-58 WorkContext::on_work_finished *)
Definition on_work_finished_step (i : nat) (f : Frame) (frames : list Frame) (st : State) : State :=
  match pc f with
  | Body => access st (set_thread i (mkFrame (root f) Notifying [] :: frames) (add_counts (-1) 0 st))
  | Notifying => access st (set_thread i (mkFrame (root f) Unref [] :: frames) st)
  | Unref => access st (set_thread i frames (add_counts 0 (-1) st))
  | _ => st
  end.

(** The values that [await_true] sees are values the count has had since the
    call of [await_done]. *)
(* @ src/batteries/async/work_context.hpp 60-75 WorkContext::await_done *)
Definition await_done_step (i : nat) (f : Frame) (frames : list Frame) (st : State) : State :=
  let goto p := set_thread i (mkFrame (root f) p [] :: frames) in
  match pc f with
  | Body => goto AwaitCount st
  | AwaitCount => goto (Seen (work_count_ st)) st
  | Seen count => if count <? 0 then fail st else goto (if count <=? 0 then AwaitRef else AwaitCount) st
  | AwaitRef =>
      if 0 <? ref_count_ st then st
      else
        let st := goto Returned st in
        mkState (work_count_ st) (ref_count_ st) true (failed st) (round_robin_ st) (queues st) (threads st) (ran st)
  | _ => st
  end.

(** A worker that has nothing to do takes the next item of its queue. *)
(* @ src/batteries/async/worker.hpp 26-47 Worker::Worker *)
Definition worker_step (i : nat) (st : State) : State :=
  match i with
  | O => st
  | S k =>
      match queues st !! k with
      | Some (w :: q) =>
          call_function i w []
            (mkState (work_count_ st) (ref_count_ st) (returned st) (failed st) (round_robin_ st) (<[k := q]> (queues st)) (threads st) (ran st))
      | _ => st
      end
  end.

Definition step (i : nat) (st : State) : State :=
  match threads st !! i with
  | None => st
  | Some [] => worker_step i st
  | Some (f :: frames) =>
      match pc f, todo f with
      | Body, _ :: _ | Started, _ | Counted, _ => async_run_step i f frames st
      | _, _ => if root f then await_done_step i f frames st else on_work_finished_step i f frames st
      end
  end.

Definition run (schedule : list nat) (st : State) : State := foldl (fun st i => step i st) st schedule.

(** A pool of [size] workers, and a client that hands out [work] and waits. *)
(* @ src/batteries/async/worker_pool.hpp 36-41 WorkerPool::WorkerPool *)
Definition initial_state (size : nat) (work : list Work) : State :=
  mkState 0 0 false false 0 (replicate size []) ([mkFrame true Body work] :: replicate size []) [].

(** ** The invariant

    The counts are sums over the calls in progress and the items of the
    queues.  Every part of the invariant is such a sum. *)

Definition ref_of (f : Frame) : Z :=
  (if root f then 0 else 1) + match pc f with Started | Counted => 1 | _ => 0 end.

Definition work_of (f : Frame) : Z :=
  (if root f then 0 else match pc f with Notifying | Unref => 0 | _ => 1 end) + match pc f with Counted => 1 | _ => 0 end.

Definition root_of (f : Frame) : Z := Z.b2z (root f).

Definition active_of (f : Frame) : Z := if root f then match pc f with Returned => 0 | _ => 1 end else 0.

(** The client has seen that there is no work left. *)
Definition past_of (f : Frame) : Z :=
  if root f then match pc f with Seen c => if c <=? 0 then 1 else 0 | AwaitRef | Returned => 1 | _ => 0 end else 0.

Fixpoint names (w : Work) : list nat := name w :: concat (names <$> spawns w).

Definition all_names (ws : list Work) : list nat := concat (names <$> ws).

Definition occ (x : nat) (l : list nat) : Z := Z.of_nat (count_occ Nat.eq_dec l x).

Definition occ_of (x : nat) (f : Frame) : Z := occ x (all_names (todo f)).

(** The sum over the frames of a thread, over all frames, and over the items of
    all queues. *)
Definition lsum (g : Frame -> Z) (t : list Frame) : Z := sum (g <$> t).
Definition tsum (g : Frame -> Z) (ts : list (list Frame)) : Z := sum (lsum g <$> ts).
Definition queued (qs : list (list Work)) : Z := sum ((fun q : list Work => Z.of_nat (length q)) <$> qs).
Definition qocc (x : nat) (qs : list (list Work)) : Z := sum ((fun q => occ x (all_names q)) <$> qs).

Arguments ref_of !f /.
Arguments work_of !f /.
Arguments root_of !f /.
Arguments active_of !f /.
Arguments past_of !f /.
Arguments occ_of x !f /.

Definition frame_ok (f : Frame) : Prop :=
  match pc f with
  | Body => True
  | Started | Counted => todo f <> []
  | Notifying | Unref => root f = false /\ todo f = []
  | Seen c => root f = true /\ todo f = [] /\ 0 <= c
  | AwaitCount | AwaitRef | Returned => root f = true /\ todo f = []
  end.

Record Inv (work : list Work) (st : State) : Prop := {
  inv_work : work_count_ st = tsum work_of (threads st) + queued (queues st);
  inv_ref : ref_count_ st = tsum ref_of (threads st) + queued (queues st);
  inv_root : tsum root_of (threads st) = 1;
  inv_active : tsum active_of (threads st) = Z.b2z (negb (returned st));
  inv_past : 0 < tsum past_of (threads st) -> work_count_ st = 0;
  inv_returned : returned st = true -> ref_count_ st = 0;
  inv_failed : failed st = false;
  inv_frames : Forall (Forall frame_ok) (threads st);
  inv_names : forall x, occ x (ran st) + tsum (occ_of x) (threads st) + qocc x (queues st) = occ x (all_names work);
  inv_length : length (threads st) = S (length (queues st)) }.

Lemma lsum_cons (g : Frame -> Z) (f : Frame) (t : list Frame) : lsum g (f :: t) = g f + lsum g t.
Proof. done. Qed.

Lemma lsum_nonneg (g : Frame -> Z) (t : list Frame) : (forall f, 0 <= g f) -> 0 <= lsum g t.
Proof. intros Hg. apply sum_nonneg, list.Forall_forall. auto. Qed.

Lemma tsum_nonneg (g : Frame -> Z) (ts : list (list Frame)) : (forall f, 0 <= g f) -> 0 <= tsum g ts.
Proof. intros Hg. apply sum_nonneg, list.Forall_forall. intros t _. by apply lsum_nonneg. Qed.

Lemma tsum_ge (g : Frame -> Z) (ts : list (list Frame)) (i : nat) (f : Frame) (t : list Frame) :
  (forall f, 0 <= g f) -> ts !! i = Some (f :: t) -> g f <= tsum g ts.
Proof.
  intros Hg Hi. pose proof (sum_lookup_le (lsum g) ts i (f :: t)) as H. rewrite lsum_cons in H.
  pose proof (lsum_nonneg g t Hg). unfold tsum. rewrite <- H; [lia| |done]. apply list.Forall_forall. intros u _. by apply lsum_nonneg.
Qed.

Lemma tsum_sub (g h : Frame -> Z) (ts : list (list Frame)) : tsum (fun f => g f - h f) ts = tsum g ts - tsum h ts.
Proof.
  unfold tsum. induction ts as [|t ts IH]; [done|]. rewrite !fmap_cons, !sum_cons, IH.
  enough (lsum (fun f => g f - h f) t = lsum g t - lsum h t) by lia. clear. unfold lsum.
  induction t as [|f t IH]; [done|]. rewrite !fmap_cons, !sum_cons, IH. lia.
Qed.

Lemma items_nonneg (qs : list (list Work)) : 0 <= queued qs.
Proof. apply sum_nonneg, list.Forall_forall. intros q _. simpl. lia. Qed.

Ltac frame_fun := intros [[] [] ?]; try done; unfold ref_of, work_of, active_of, root_of, past_of; simpl; repeat case_match; simpl; lia.

Lemma ref_nonneg (f : Frame) : 0 <= ref_of f.
Proof. revert f. frame_fun. Qed.

Lemma work_nonneg (f : Frame) : 0 <= work_of f.
Proof. revert f. frame_fun. Qed.

Lemma active_nonneg (f : Frame) : 0 <= active_of f.
Proof. revert f. frame_fun. Qed.

Lemma root_past (f : Frame) : 0 <= root_of f - past_of f.
Proof. revert f. frame_fun. Qed.

Lemma past_nonneg (f : Frame) : 0 <= past_of f.
Proof. revert f. frame_fun. Qed.

Lemma ref_worker (f : Frame) : root f = false -> 1 <= ref_of f.
Proof. revert f. frame_fun. Qed.

Lemma active_client (f : Frame) : root f = true -> pc f <> Returned -> active_of f = 1.
Proof. revert f. intros [[] [] ?]; simpl; done. Qed.

Section step.
Context (work : list Work) (st : State) (i : nat) (t : list Frame).
Hypothesis HI : Inv work st.
Hypothesis Hi : threads st !! i = Some t.

Lemma tsum_update (g : Frame -> Z) (t' : list Frame) : tsum g (<[i := t']> (threads st)) = tsum g (threads st) - lsum g t + lsum g t'.
Proof using Hi. unfold tsum. by apply sum_insert. Qed.

(** A step that changes thread [i]. *)
Lemma thread_inv (wc rc : Z) (ret : bool) (rr : Z) (qs : list (list Work)) (t' : list Frame) (r : list nat) :
  Forall frame_ok t' ->
  wc = work_count_ st + (lsum work_of t' - lsum work_of t) + (queued qs - queued (queues st)) ->
  rc = ref_count_ st + (lsum ref_of t' - lsum ref_of t) + (queued qs - queued (queues st)) ->
  lsum root_of t' = lsum root_of t ->
  lsum active_of t' - lsum active_of t = Z.b2z (negb ret) - Z.b2z (negb (returned st)) ->
  (0 < tsum past_of (threads st) - lsum past_of t + lsum past_of t' -> wc = 0) ->
  (ret = true -> rc = 0) ->
  (forall x, occ x r + lsum (occ_of x) t' + qocc x qs = occ x (ran st) + lsum (occ_of x) t + qocc x (queues st)) ->
  length qs = length (queues st) -> Inv work (mkState wc rc ret (failed st) rr qs (<[i := t']> (threads st)) r).
Proof using HI Hi.
  intros Hok Hw Hr Hroot Ha Hp Hret Hn Hl. destruct HI. split; simpl; rewrite ?tsum_update; try lia; try done.
  - by apply Forall_insert.
  - intros x. rewrite tsum_update. specialize (Hn x). specialize (inv_names0 x). lia.
  - rewrite length_insert. lia.
Qed.
End step.

(** A thread that is about to use the context finds it there. *)
Lemma context_there (work : list Work) (st : State) (i : nat) (f : Frame) (t : list Frame) :
  Inv work st -> threads st !! i = Some (f :: t) -> (root f = true -> pc f <> Returned) -> returned st = false.
Proof.
  intros HI Hi Hf. destruct (returned st) eqn:E; [|done]. pose proof (inv_returned _ _ HI E) as Hr. rewrite (inv_ref _ _ HI) in Hr.
  pose proof (inv_active _ _ HI) as Ha. rewrite E in Ha. simpl in Ha. pose proof (items_nonneg (queues st)).
  pose proof (tsum_ge ref_of (threads st) i f t ref_nonneg Hi) as H1. pose proof (tsum_ge active_of (threads st) i f t active_nonneg Hi) as H2.
  destruct (root f) eqn:Er; [|pose proof (ref_worker f Er); lia]. pose proof (active_client f Er (Hf eq_refl)). lia.
Qed.

(** When there is no work, no call hands out more; the client does so only before it has seen the end. *)
Lemma work_there (work : list Work) (st : State) (i : nat) (f : Frame) (t : list Frame) :
  Inv work st -> threads st !! i = Some (f :: t) -> past_of f = 0 -> (root f = false -> 0 < work_of f) ->
  tsum past_of (threads st) <= 0.
Proof.
  intros HI Hi Hp Hw. destruct (root f) eqn:Er.
  - pose proof (tsum_ge (fun f => root_of f - past_of f) (threads st) i f t root_past Hi) as H. simpl in H.
    rewrite tsum_sub, (inv_root _ _ HI), Hp in H. assert (root_of f = 1) by (unfold root_of; by rewrite Er). lia.
  - destruct (Z_le_gt_dec (tsum past_of (threads st)) 0) as [|H]; [done|]. pose proof (inv_past _ _ HI ltac:(lia)) as H0.
    rewrite (inv_work _ _ HI) in H0. pose proof (items_nonneg (queues st)). pose proof (tsum_ge work_of (threads st) i f t work_nonneg Hi). specialize (Hw eq_refl). lia.
Qed.

Lemma all_names_app (ws vs : list Work) : all_names (ws ++ vs) = all_names ws ++ all_names vs.
Proof. unfold all_names. by rewrite fmap_app, concat_app. Qed.

Lemma occ_app (x : nat) (l l' : list nat) : occ x (l ++ l') = occ x l + occ x l'.
Proof. unfold occ. rewrite count_occ_app. lia. Qed.

Lemma occ_work (x : nat) (w : Work) (ws : list Work) :
  occ x (all_names (w :: ws)) = occ x [name w] + occ x (all_names (spawns w)) + occ x (all_names ws).
Proof.
  unfold all_names at 1. rewrite fmap_cons. cbn [concat]. rewrite occ_app. f_equal. destruct w as [n s]. cbn [names name spawns].
  change (n :: concat (names <$> s)) with ([n] ++ all_names s). apply occ_app.
Qed.

Lemma occ_nil (x : nat) : occ x (all_names []) = 0.
Proof. done. Qed.

Lemma pushed (qs : list (list Work)) (k : nat) (w : Work) :
  (k < length qs)%nat ->
  queued (alter (fun q => q ++ [w]) k qs) = queued qs + 1 /\
  forall x, qocc x (alter (fun q => q ++ [w]) k qs) = qocc x qs + occ x [name w] + occ x (all_names (spawns w)).
Proof.
  intros Hk. destruct (lookup_lt_is_Some_2 qs k Hk) as [q Hq]. unfold queued, qocc. split; [|intros x]; rewrite (sum_alter _ _ _ _ _ Hq).
  - rewrite length_app. simpl. lia.
  - rewrite all_names_app, occ_app, occ_work, occ_nil. lia.
Qed.

(** The goals of [thread_inv] for a state that is known. *)
Ltac update HI Hi :=
  unfold set_thread, add_counts, call_function; cbn [work_count_ ref_count_ returned failed round_robin_ queues threads ran];
  apply (thread_inv _ _ _ _ HI Hi); rewrite ?lsum_cons; simpl; try done; try (by repeat constructor); try lia.

Lemma async_run_inv (work : list Work) (st : State) (i : nat) (f : Frame) (t : list Frame) :
  Inv work st -> threads st !! i = Some (f :: t) ->
  match pc f, todo f with Body, _ :: _ | Started, _ | Counted, _ => True | _, _ => False end -> Inv work (async_run_step i f t st).
Proof.
  intros HI Hi Hpc. assert (returned st = false) as Hret by (eapply context_there; [done..|]; by destruct (pc f)).
  assert (Forall frame_ok (f :: t)) as Hok by (eapply Forall_lookup_1; [apply HI|done]).
  apply Forall_cons_iff in Hok as [Hf Ht].
  assert (tsum past_of (threads st) <= 0) as Hp.
  { eapply work_there; [done|done| |]; destruct f as [[] [] ?]; done. }
  unfold async_run_step, access. rewrite Hret.
  destruct f as [r p td]. cbn [pc todo root] in *. destruct p; try done.
  - destruct td as [|w td]; [done|]. update HI Hi; intros; congruence.
  - update HI Hi; intros; congruence.
  - destruct td as [|w td]; [done|]. unfold pool_async_run. destruct (queues st) as [|q0 qs] eqn:Eq.
    + update HI Hi; [intros; congruence|]. intros x. rewrite !lsum_cons, occ_app. cbn [occ_of todo]. rewrite occ_work. lia.
    + rewrite <- Eq. assert (0 < length (queues st))%nat as Hl by (rewrite Eq; simpl; lia).
      destruct (pushed (queues st) (Z.to_nat (round_robin_ st mod Z.of_nat (length (queues st)))) w) as [H1 H2].
      { pose proof (Z.mod_pos_bound (round_robin_ st) (Z.of_nat (length (queues st)))). lia. }
      update HI Hi; rewrite ?H1; try lia; [intros; congruence| |apply length_alter].
      intros x. rewrite !lsum_cons, H2. cbn [occ_of todo]. rewrite occ_work. lia.
Qed.

Lemma on_work_finished_inv (work : list Work) (st : State) (i : nat) (f : Frame) (t : list Frame) :
  Inv work st -> threads st !! i = Some (f :: t) -> root f = false -> todo f = [] -> Inv work (on_work_finished_step i f t st).
Proof.
  intros HI Hi Hr Htd. assert (returned st = false) as Hret by (eapply context_there; [done..|]; by rewrite Hr).
  assert (Forall frame_ok (f :: t)) as Hok by (eapply Forall_lookup_1; [apply HI|done]).
  apply Forall_cons_iff in Hok as [Hf Ht]. unfold on_work_finished_step, access. rewrite Hret.
  destruct f as [r p td]. cbn [pc todo root] in *. subst r td. destruct p; try done.
  - assert (tsum past_of (threads st) <= 0) as Hp by (by eapply work_there).
    update HI Hi. intros; congruence.
  - update HI Hi; [|intros; congruence]. intros H. pose proof (inv_past _ _ HI). lia.
  - update HI Hi; [|intros; congruence]. intros H. pose proof (inv_past _ _ HI). lia.
Qed.

Lemma await_done_inv (work : list Work) (st : State) (i : nat) (f : Frame) (t : list Frame) :
  Inv work st -> threads st !! i = Some (f :: t) -> root f = true -> todo f = [] -> Inv work (await_done_step i f t st).
Proof.
  intros HI Hi Hr Htd. assert (Forall frame_ok (f :: t)) as Hok by (eapply Forall_lookup_1; [apply HI|done]).
  apply Forall_cons_iff in Hok as [Hf Ht]. unfold await_done_step.
  pose proof (inv_work _ _ HI) as Hw. pose proof (tsum_nonneg work_of (threads st) work_nonneg) as Hw0. pose proof (items_nonneg (queues st)) as Hq0.
  pose proof (inv_past _ _ HI) as Hpast. pose proof (inv_returned _ _ HI) as Hret.
  pose proof (tsum_ge past_of (threads st) i f t past_nonneg Hi) as Hp.
  destruct f as [r p td]. cbn [pc todo root] in *. subst r td. destruct p; try done.
  - update HI Hi.
  - update HI Hi.
    + constructor; [split_and!; [done|done|simpl; lia]|done].
    + destruct (work_count_ st <=? 0) eqn:E; bool_cases; lia.
  - destruct Hf as (_ & _ & Hc). simpl in Hp. rewrite (proj2 (Z.ltb_ge count 0)) by lia. destruct (count <=? 0) eqn:E; update HI Hi; rewrite E; intros H; apply Hpast; lia.
  - simpl in Hp. destruct (0 <? ref_count_ st) eqn:E; [done|]. bool_cases.
    pose proof (context_there work st i _ t HI Hi ltac:(done)) as Hthere. rewrite (inv_ref _ _ HI) in E.
    pose proof (tsum_nonneg ref_of (threads st) ref_nonneg). pose proof (inv_ref _ _ HI).
    update HI Hi. rewrite Hthere. simpl. lia.
Qed.

Lemma worker_inv (work : list Work) (st : State) (i : nat) :
  Inv work st -> threads st !! i = Some [] -> Inv work (worker_step i st).
Proof.
  intros HI Hi. unfold worker_step. destruct i as [|k]; [done|]. destruct (queues st !! k) as [[|w q]|] eqn:Hk; [done| |done].
  pose proof (inv_past _ _ HI) as Hpast. pose proof (inv_returned _ _ HI) as Hret.
  assert (queued (<[k := q]> (queues st)) = queued (queues st) - 1) as Hq.
  { unfold queued. rewrite (sum_insert _ _ _ _ _ Hk). simpl. lia. }
  update HI Hi; rewrite ?Hq; try lia.
  - intros x. rewrite !lsum_cons, occ_app. unfold qocc. rewrite (sum_insert _ _ _ _ _ Hk). cbn [occ_of todo]. rewrite occ_work. lia.
  - apply length_insert.
Qed.

Lemma step_inv (work : list Work) (st : State) (i : nat) : Inv work st -> Inv work (step i st).
Proof.
  intros HI. unfold step. destruct (threads st !! i) as [[|f t]|] eqn:Hi; [by apply worker_inv| |done].
  assert (Forall frame_ok (f :: t)) as Hok by (eapply Forall_lookup_1; [apply HI|done]).
  apply Forall_cons_iff in Hok as [Hf _]. unfold frame_ok in Hf.
  destruct (pc f) eqn:Ep; try (apply async_run_inv; [done|done|by rewrite Ep]).
  1: destruct (todo f) as [|w td] eqn:Et; [|by apply async_run_inv; rewrite ?Ep, ?Et].
  all: destruct (root f) eqn:Er; try (destruct_and?; congruence).
  all: first [apply await_done_inv|apply on_work_finished_inv]; naive_solver.
Qed.

Lemma work_run_inv (work : list Work) (schedule : list nat) (st : State) : Inv work st -> Inv work (run schedule st).
Proof. revert st. induction schedule as [|i schedule IH]; simpl; [done|]. intros st H. by apply IH, step_inv. Qed.

Lemma context_initial_inv (size : nat) (work : list Work) : Inv work (initial_state size work).
Proof.
  assert (forall g, tsum g (threads (initial_state size work)) = g (mkFrame true Body work)) as Ht.
  { intros g. unfold tsum. cbn [threads initial_state]. rewrite fmap_cons, sum_cons, (sum_all_zero (lsum g)); [unfold lsum, sum; simpl; lia|].
    intros j t Ht. by apply lookup_replicate in Ht as [-> _]. }
  assert (queued (queues (initial_state size work)) = 0) as Hq.
  { unfold queued. apply sum_all_zero. intros j q Hj. by apply lookup_replicate in Hj as [-> _]. }
  split; rewrite ?Ht, ?Hq; try done.
  - constructor; [by repeat constructor|]. apply list.Forall_forall. intros t Ht'. by apply elem_of_replicate in Ht' as [-> _].
  - intros x. rewrite Ht. unfold qocc. rewrite sum_all_zero; [simpl; unfold occ; simpl; lia|].
    intros j q Hj. by apply lookup_replicate in Hj as [-> _].
  - simpl. by rewrite !length_replicate.
Qed.

(** ** The client is at the bottom of thread 0 *)

Definition shape (i : nat) (t : list Frame) : Prop :=
  exists n, root <$> t = replicate n false ++ match i with O => [true] | S _ => [] end.

Definition Shape (st : State) : Prop := forall i t, threads st !! i = Some t -> shape i t.

Lemma shape_set (st st' : State) (i : nat) (t' : list Frame) :
  threads st' = <[i := t']> (threads st) -> Shape st -> shape i t' -> Shape st'.
Proof. intros E Hs Ht j t. rewrite E, list_lookup_insert_Some. intros [(-> & -> & _)|[_ Hj]]; [done|by apply Hs]. Qed.

Lemma shape_push (i : nat) (f : Frame) (t : list Frame) : root f = false -> shape i t -> shape i (f :: t).
Proof. intros Hf [n Hn]. exists (S n). by rewrite fmap_cons, Hn, Hf. Qed.

Lemma shape_pop (i : nat) (f : Frame) (t : list Frame) : root f = false -> shape i (f :: t) -> shape i t.
Proof. intros Hf [[|n] Hn]; rewrite fmap_cons, Hf in Hn; [by destruct i|]. exists n. by simplify_eq/=. Qed.

Lemma shape_same (i : nat) (f f' : Frame) (t : list Frame) : root f' = root f -> shape i (f :: t) -> shape i (f' :: t).
Proof. intros Hf [n Hn]. exists n. by rewrite fmap_cons, Hf, <- fmap_cons. Qed.

Lemma shape_alone (i : nat) (f : Frame) (t : list Frame) : root f = true -> shape i (f :: t) -> i = 0%nat /\ t = [].
Proof. intros Hf [[|n] Hn]; rewrite fmap_cons, Hf in Hn; [|done]. destruct i, t; done. Qed.

Lemma step_shape (work : list Work) (st : State) (i : nat) : Inv work st -> Shape st -> Shape (step i st).
Proof.
  intros HI Hs. unfold step. destruct (threads st !! i) as [[|f t]|] eqn:Hi; [| |done].
  - unfold worker_step. destruct i as [|k]; [done|]. destruct (queues st !! k) as [[|w q]|]; [done| |done].
    eapply shape_set; [reflexivity|done|]. apply shape_push; [done|by apply Hs].
  - pose proof (Hs i _ Hi) as Hf. assert (frame_ok f) as Hok.
    { eapply Forall_lookup_1 in Hi; [|apply HI]. by apply Forall_cons_iff in Hi as [? _]. }
    assert (forall p td, shape i (mkFrame (root f) p td :: t)) as Hsame by (intros; by eapply shape_same).
    unfold async_run_step, await_done_step, on_work_finished_step, pool_async_run, access.
    repeat case_match; try done; (eapply shape_set; [reflexivity|done|]); try done; try (by apply shape_push); try (by eapply shape_pop).
Qed.

(** ** Progress *)

Definition cost (f : Frame) : Z :=
  8 * Z.of_nat (length (all_names (todo f))) +
  match pc f with
  | Body => if root f then 6 else 3
  | Started => if root f then 5 else 2
  | Counted => if root f then 4 else 1
  | Notifying => 2
  | Unref => 1
  | AwaitCount => 4
  | Seen c => if c <=? 0 then 2 else 5
  | AwaitRef => 1
  | Returned => 0
  end.

Definition item_cost (w : Work) : Z := 8 * Z.of_nat (length (names w)) - 3.

Definition queues_cost (qs : list (list Work)) : Z := sum ((fun q : list Work => sum (item_cost <$> q)) <$> qs).

(** What is still to be done. *)
Definition remaining (st : State) : Z := tsum cost (threads st) + queues_cost (queues st).

Lemma cost_nonneg (f : Frame) : 0 <= cost f.
Proof. unfold cost. repeat case_match; lia. Qed.

Lemma names_length (w : Work) : length (names w) = S (length (all_names (spawns w))).
Proof. by destruct w. Qed.

Lemma all_names_length (w : Work) (ws : list Work) : length (all_names (w :: ws)) = (length (names w) + length (all_names ws))%nat.
Proof. unfold all_names. by rewrite fmap_cons, <- length_app. Qed.

Lemma remaining_nonneg (st : State) : 0 <= remaining st.
Proof.
  unfold remaining. pose proof (tsum_nonneg cost (threads st) cost_nonneg). enough (0 <= queues_cost (queues st)) by lia.
  apply sum_nonneg, list.Forall_forall. intros q _. apply sum_nonneg, list.Forall_forall. intros w _. unfold item_cost. rewrite names_length. lia.
Qed.

Lemma remaining_set (st st' : State) (i : nat) (t t' : list Frame) :
  threads st !! i = Some t -> threads st' = <[i := t']> (threads st) ->
  remaining st' = remaining st - lsum cost t + lsum cost t' + (queues_cost (queues st') - queues_cost (queues st)).
Proof. intros Hi E. unfold remaining, tsum. rewrite E, (sum_insert _ _ _ _ _ Hi). lia. Qed.

Lemma pushed_cost (qs : list (list Work)) (k : nat) (w : Work) :
  (k < length qs)%nat -> queues_cost (alter (fun q => q ++ [w]) k qs) = queues_cost qs + item_cost w.
Proof.
  intros Hk. destruct (lookup_lt_is_Some_2 qs k Hk) as [q Hq]. unfold queues_cost. rewrite (sum_alter _ _ _ _ _ Hq).
  rewrite fmap_app, sum_app. replace (sum (item_cost <$> [w])) with (item_cost w) by (unfold sum; simpl; lia). lia.
Qed.

Ltac decrease Hi :=
  (erewrite remaining_set; [|exact Hi|reflexivity]); rewrite ?lsum_cons; unfold cost; simpl; rewrite ?all_names_length, ?names_length; lia.

(** A step of a call that does not wait. *)
Lemma busy_step (work : list Work) (st : State) (i : nat) (f : Frame) (t : list Frame) :
  Inv work st -> returned st = false -> threads st !! i = Some (f :: t) ->
  root f = false \/ match pc f with Body | Started | Counted | Seen _ => True | _ => False end ->
  remaining (step i st) < remaining st.
Proof.
  intros HI Hret Hi Hf. assert (frame_ok f) as Hok.
  { pose proof Hi as H. eapply Forall_lookup_1 in H; [|apply HI]. by apply Forall_cons_iff in H as [? _]. }
  unfold step. rewrite Hi. unfold async_run_step, on_work_finished_step, await_done_step, access. rewrite Hret.
  destruct f as [r p td]. cbn [pc todo root] in *.
  destruct p as [| | | | | |c| |]; unfold frame_ok in Hok; simpl in Hok; destruct_and?; subst; try (destruct Hf; done).
  - destruct td as [|w td], r; simpl; decrease Hi.
  - destruct td as [|w td]; [done|]. destruct r; decrease Hi.
  - destruct td as [|w td]; [done|]. unfold pool_async_run. destruct (queues st) as [|q0 qs] eqn:Eq.
    + destruct r; decrease Hi.
    + rewrite <- Eq. (erewrite remaining_set; [|exact Hi|reflexivity]). cbn [queues set_thread]. rewrite pushed_cost.
      2: { pose proof (Z.mod_pos_bound (round_robin_ st) (Z.of_nat (length (queues st)))). rewrite Eq in *. simpl in *. lia. }
      rewrite !lsum_cons. unfold cost, item_cost. simpl. rewrite all_names_length. destruct r; lia.
  - decrease Hi.
  - decrease Hi.
  - rewrite (proj2 (Z.ltb_ge c 0)) by lia. destruct (c <=? 0) eqn:E; (erewrite remaining_set; [|exact Hi|reflexivity]); rewrite !lsum_cons; unfold cost; simpl; rewrite E; lia.
Qed.

Lemma idle_step (st : State) (k : nat) (w : Work) (q : list Work) :
  threads st !! S k = Some [] -> queues st !! k = Some (w :: q) -> remaining (step (S k) st) < remaining st.
Proof.
  intros Hi Hk. unfold step. rewrite Hi. unfold worker_step. rewrite Hk. (erewrite remaining_set; [|exact Hi|reflexivity]).
  unfold call_function. cbn [queues]. unfold queues_cost. rewrite (sum_insert _ _ _ _ _ Hk), fmap_cons, sum_cons, lsum_cons.
  unfold cost at 2, item_cost at 2. simpl. rewrite names_length. lia.
Qed.

Lemma sum_pos {A} (g : A -> Z) (l : list A) : 0 < sum (g <$> l) -> exists j x, l !! j = Some x /\ 0 < g x.
Proof.
  induction l as [|x l IH]; [done|]. rewrite fmap_cons, sum_cons. intros H. destruct (Z_lt_le_dec 0 (g x)).
  - by exists 0%nat, x.
  - destruct IH as (j & y & Hj & Hy); [lia|]. by exists (S j), y.
Qed.

Lemma await_step (work : list Work) (st : State) (f : Frame) (t : list Frame) :
  Inv work st -> returned st = false -> threads st !! 0%nat = Some (f :: t) -> root f = true ->
  pc f = AwaitCount \/ pc f = AwaitRef -> ref_count_ st <= 0 -> remaining (step 0 st) < remaining st.
Proof.
  intros HI Hret Hi Hr Hpc Href. assert (work_count_ st <= ref_count_ st) as Hw.
  { rewrite (inv_work _ _ HI), (inv_ref _ _ HI). pose proof (tsum_nonneg (fun f => ref_of f - work_of f) (threads st)) as H.
    rewrite tsum_sub in H. enough (forall f, 0 <= ref_of f - work_of f) by (specialize (H ltac:(done)); lia). frame_fun. }
  unfold step. rewrite Hi. destruct f as [r p td]. simpl in Hr. subst r. unfold await_done_step.
  destruct Hpc as [Hpc|Hpc]; simpl in Hpc; subst p; simpl.
  - (erewrite remaining_set; [|exact Hi|reflexivity]). rewrite !lsum_cons. unfold cost. simpl. rewrite (proj2 (Z.leb_le _ 0)) by lia. lia.
  - rewrite (proj2 (Z.ltb_ge 0 _)) by done. decrease Hi.
Qed.

(** Some thread can always do something. *)
Lemma some_step (work : list Work) (st : State) :
  Inv work st -> Shape st -> returned st = false -> exists i, remaining (step i st) < remaining st.
Proof.
  intros HI Hs Hret. destruct (threads st !! 0%nat) as [t0|] eqn:H0; [|apply lookup_ge_None_1 in H0; rewrite (inv_length _ _ HI) in H0; lia].
  destruct t0 as [|f t]; [by destruct (Hs _ _ H0) as [[|n] Hn]|].
  assert (forall j g u, threads st !! j = Some (g :: u) -> root g = false -> exists i, remaining (step i st) < remaining st) as Hbusy
    by (intros; eexists; eapply busy_step; eauto).
  destruct (root f) eqn:Hr; [|by eapply Hbusy]. destruct (shape_alone _ _ _ Hr (Hs _ _ H0)) as [_ ->].
  destruct (decide (ref_count_ st <= 0)) as [Href|Href].
  - exists 0%nat. assert (frame_ok f) as Hok.
    { pose proof H0 as H. eapply Forall_lookup_1 in H; [|apply HI]. by apply Forall_cons_iff in H as [? _]. }
    assert (pc f <> Returned) as Hp.
    { intros Hp. pose proof (tsum_ge (fun f => root_of f - active_of f) (threads st) 0 f [] ltac:(frame_fun) H0) as H.
      rewrite tsum_sub, (inv_root _ _ HI), (inv_active _ _ HI), Hret in H. unfold root_of, active_of in H. rewrite Hr, Hp in H. simpl in H. lia. }
    unfold frame_ok in Hok. destruct (pc f) eqn:Ep; try done.
    all: first [ destruct_and?; congruence
               | by eapply busy_step; [done|done|exact H0|right; rewrite Ep]
               | eapply await_step; [done|done|exact H0|done|tauto|done] ].
  - destruct (Z_lt_le_dec 0 (queued (queues st))) as [Hq|Hq].
    + destruct (sum_pos _ _ Hq) as (k & [|w q] & Hk & Hlen); [done|].
      destruct (threads st !! S k) as [[|g u]|] eqn:Hi; [by exists (S k); eapply idle_step| |].
      * destruct (root g) eqn:Hg; [|by eapply Hbusy]. by destruct (shape_alone _ _ _ Hg (Hs _ _ Hi)).
      * apply lookup_ge_None_1 in Hi. apply lookup_lt_Some in Hk. rewrite (inv_length _ _ HI) in Hi. lia.
    + rewrite (inv_ref _ _ HI) in Href. destruct (sum_pos (lsum ref_of) (threads st)) as (j & [|g u] & Hj & Hg); [unfold tsum in Href; lia|done|].
      destruct (root g) eqn:Hrg; [|by eapply Hbusy]. destruct (shape_alone _ _ _ Hrg (Hs _ _ Hj)) as [-> ->].
      exists 0%nat. eapply busy_step; [done|done|exact Hj|right]. rewrite lsum_cons in Hg. unfold ref_of in Hg. rewrite Hrg in Hg.
      by destruct (pc g).
Qed.

Lemma tsum_zero (g : Frame -> Z) (ts : list (list Frame)) (i : nat) (t : list Frame) (j : nat) (f : Frame) :
  (forall f, 0 <= g f) -> tsum g ts = 0 -> ts !! i = Some t -> t !! j = Some f -> g f = 0.
Proof.
  intros Hg H0 Hi Hj. pose proof (sum_lookup_le g t j f ltac:(apply list.Forall_forall; auto) Hj) as H1.
  pose proof (sum_lookup_le (lsum g) ts i t ltac:(apply list.Forall_forall; intros; by apply lsum_nonneg) Hi) as H2.
  unfold tsum in H0. change (sum (g <$> t)) with (lsum g t) in H1. specialize (Hg f). lia.
Qed.

(** When the client has returned, nothing is left. *)
Lemma returned_done (work : list Work) (st : State) : Inv work st -> returned st = true -> work_count_ st = 0 /\ ran st ≡ₚ all_names work.
Proof.
  intros HI Hret. pose proof (inv_returned _ _ HI Hret) as Href. pose proof (inv_ref _ _ HI) as Hr. pose proof (inv_active _ _ HI) as Ha.
  rewrite Hret in Ha. pose proof (tsum_nonneg ref_of (threads st) ref_nonneg). pose proof (items_nonneg (queues st)).
  assert (tsum ref_of (threads st) = 0) as Hr0 by lia.
  assert (forall i t j f, threads st !! i = Some t -> t !! j = Some f -> root f = true /\ pc f = Returned /\ todo f = []) as Hall.
  { intros i t j f Hi Hj. pose proof (tsum_zero _ _ _ _ _ _ ref_nonneg Hr0 Hi Hj) as H1.
    pose proof (tsum_zero _ _ _ _ _ _ active_nonneg Ha Hi Hj) as H2.
    assert (frame_ok f) as Hok by (eapply Forall_lookup_1; [|done]; eapply Forall_lookup_1; [apply HI|done]).
    destruct (root f) eqn:Er; [|pose proof (ref_worker f Er); lia]. unfold active_of in H2. rewrite Er in H2.
    unfold frame_ok in Hok. destruct (pc f); naive_solver. }
  assert (forall g, (forall f, root f = true -> pc f = Returned -> todo f = [] -> g f = 0) -> tsum g (threads st) = 0) as Hzero.
  { intros g Hg. apply sum_all_zero. intros i t Hi. apply sum_all_zero. intros j f Hj. destruct (Hall _ _ _ _ Hi Hj) as (? & ? & ?). by apply Hg. }
  split.
  - rewrite (inv_work _ _ HI), Hzero; [lia|]. intros [r p td] ? ? ?. simpl in *. by subst.
  - apply (Permutation_count_occ Nat.eq_dec). intros x. pose proof (inv_names _ _ HI x) as H1.
    rewrite Hzero in H1 by (intros f _ _ Htd; unfold occ_of; by rewrite Htd). unfold qocc in H1. rewrite sum_all_zero in H1; [unfold occ in H1; lia|].
    intros k [|w q] Hk; [done|].
    pose proof (sum_lookup_le (fun q : list Work => Z.of_nat (length q)) (queues st) k _ ltac:(apply list.Forall_forall; intros; lia) Hk) as H2.
    unfold queued in *. simpl in H2. lia.
Qed.

Lemma finishes (work : list Work) (st : State) : Inv work st -> Shape st -> exists schedule, returned (run schedule st) = true.
Proof.
  remember (Z.to_nat (remaining st)) as n eqn:Hn. revert st Hn. induction (lt_wf n) as [n _ IH]. intros st -> HI Hs.
  destruct (returned st) eqn:Hret; [by exists []|]. destruct (some_step work st HI Hs Hret) as [i Hi].
  pose proof (remaining_nonneg (step i st)). destruct (IH (Z.to_nat (remaining (step i st))) ltac:(lia) (step i st) eq_refl) as [schedule Hdone].
  - by apply step_inv.
  - by eapply step_shape.
  - by exists (i :: schedule).
Qed.

Lemma run_shape (work : list Work) (schedule : list nat) (st : State) : Inv work st -> Shape st -> Shape (run schedule st).
Proof.
  revert st. induction schedule as [|i schedule IH]; simpl; [done|]. intros st HI Hs.
  apply IH; [by apply step_inv|by eapply step_shape].
Qed.

Lemma initial_shape (size : nat) (work : list Work) : Shape (initial_state size work).
Proof.
  intros [|i] t Hi; simpl in Hi; [simplify_eq; by exists 0%nat|]. apply lookup_replicate in Hi as [-> _]. by exists 0%nat.
Qed.

(** C27: for any pool, work and schedule of the threads: no check of the count
    fails and no thread uses the context after [await_done] has returned; when
    it has returned, every work function has run exactly once, also those that
    other work handed out; and from every state that can be reached,
    [await_done] can still return. *)
Theorem work_context_correct (size : nat) (work : list Work) (schedule : list nat) :
  let st := run schedule (initial_state size work) in
  failed st = false /\
  (returned st = true -> work_count_ st = 0 /\ ref_count_ st = 0 /\ ran st ≡ₚ all_names work) /\
  exists schedule', returned (run schedule' st) = true.
Proof.
  intros st. assert (Inv work st) as HI by apply work_run_inv, context_initial_inv. split_and!.
  - apply (inv_failed _ _ HI).
  - intros Hret. destruct (returned_done _ _ HI Hret). split_and!; [done|by apply (inv_returned _ _ HI)|done].
  - eapply finishes; [done|]. eapply run_shape; [apply context_initial_inv|apply initial_shape].
Qed.

(** Work 1 hands out work 2 and 3; the client hands out 1 and 4. *)
Definition sample_work : list Work := [mkWork 1 [mkWork 2 []; mkWork 3 []]; mkWork 4 []].

(** With two workers, 3 runs before 2, which waits behind 4. *)
Example two_workers :
  let st := run (concat (replicate 40 [0; 1; 2]%nat)) (initial_state 2 sample_work) in
  returned st = true /\ ran st = [1; 4; 3; 2]%nat.
Proof. vm_compute. done. Qed.

(** Without workers, the client runs the work itself, in the order in which it is handed out. *)
Example no_workers :
  let st := run (replicate 40 0%nat) (initial_state 0 sample_work) in returned st = true /\ ran st = [1; 2; 3; 4]%nat.
Proof. vm_compute. done. Qed.

(** The count alone is not enough: the client has seen that it is 0, and the
    last call has not left [on_work_finished]. *)
Example count_is_zero_first :
  let st := run [0; 0; 0; 1; 1; 0; 0; 0; 0; 0]%nat (initial_state 1 [mkWork 1 []]) in
  work_count_ st = 0 /\ ref_count_ st = 1 /\ returned st = false.
Proof. vm_compute. done. Qed.
