(* ===== verification/Runtime.v ===== *)
(** * Runtime: waiting for conditions on weak notify slots

    [async/runtime.hpp].  Objects are hashed to slots; [await_condition] waits
    on the slot of its objects until a condition on them holds, [notify] wakes
    the slot, and [lock] locks its mutex.  Different objects may have the same
    slot: here is one slot with any number of conditions.  A thread that
    changes the objects locks the slot, changes them, unlocks it and notifies.
    The mutex is used as [Mutex.mutex_serializes] shows it may be; the counter
    is not closed before the program ends. *)

From S2P Require Import Prelude.
Open Scope Z_scope.

Section runtime.
Context {S R : Type} (check_condition : nat -> S -> option R).

(** [WRead], [WLock], [WCheck], [WUnlock], [WAwait]: a call of
    [await_condition]; [WReturn]: it returns and releases the lock.  [ULock],
    [UModify], [UUnlock], [UNotify]: a thread that applies [f] to the objects. *)
Inductive Thread : Type :=
| WRead (cond : nat)
| WLock (cond : nat) (observed_ts : Z)
| WCheck (cond : nat) (observed_ts : Z)
| WUnlock (cond : nat) (observed_ts : Z)
| WAwait (cond : nat) (observed_ts : Z)
| WReturn (cond : nat) (last_result : R)
| WDone (cond : nat) (result : R)
| ULock (f : S -> S)
| UModify (f : S -> S)
| UUnlock
| UNotify
| UDone.

(** [objects]: what the conditions are about. *)
(* @ src/batteries/async/runtime.hpp 45-48 Runtime::WeakNotifySlot *)
Record State : Type := mkState {
  counter : Z;
  mutex : option nat;
  objects : S;
  threads : list Thread }.

Definition goto (i : nat) (t : Thread) (st : State) : State := mkState (counter st) (mutex st) (objects st) (<[i := t]> (threads st)).

Definition lock (i : nat) (t : Thread) (st : State) : State :=
  match mutex st with
  | Some _ => st
  | None => mkState (counter st) (Some i) (objects st) (<[i := t]> (threads st))
  end.

Definition unlock (i : nat) (t : Thread) (st : State) : State := mkState (counter st) None (objects st) (<[i := t]> (threads st)).

(** [await_not_equal] returns when the counter is not the one observed. *)
(* @ src/batteries/async/runtime.hpp 137-159 Runtime::await_condition *)
Definition await_condition_step (i : nat) (t : Thread) (st : State) : State :=
  match t with
  | WRead c => goto i (WLock c (counter st)) st
  | WLock c ts => lock i (WCheck c ts) st
  | WCheck c ts => goto i (match check_condition c (objects st) with Some r => WReturn c r | None => WUnlock c ts end) st
  | WUnlock c ts => unlock i (WAwait c ts) st
  | WAwait c ts => if counter st =? ts then st else goto i (WLock c (counter st)) st
  | WReturn c r => unlock i (WDone c r) st
  | _ => st
  end.

(* @ src/batteries/async/runtime.hpp 124-135 Runtime::notify, lock *)
Definition update_step (i : nat) (t : Thread) (st : State) : State :=
  match t with
  | ULock f => lock i (UModify f) st
  | UModify f => mkState (counter st) (mutex st) (f (objects st)) (<[i := UUnlock]> (threads st))
  | UUnlock => unlock i UNotify st
  | UNotify => mkState (counter st + 1) (mutex st) (objects st) (<[i := UDone]> (threads st))
  | _ => st
  end.

Definition step (i : nat) (st : State) : State :=
  match threads st !! i with
  | Some ((ULock _ | UModify _ | UUnlock | UNotify) as t) => update_step i t st
  | Some t => await_condition_step i t st
  | None => st
  end.

Definition run (schedule : list nat) (st : State) : State := foldl (fun st i => step i st) st schedule.

Definition is_call (t : Thread) : Prop := match t with WRead _ | ULock _ => True | _ => False end.

Definition initial_state (s : S) (calls : list Thread) : State := mkState 0 None s calls.

(** ** The invariant *)

Definition holds (t : Thread) : bool :=
  match t with WCheck _ _ | WUnlock _ _ | WReturn _ _ | UModify _ | UUnlock => true | _ => false end.

(** A thread that has changed the objects and has not notified yet. *)
Definition pending (t : Thread) : bool := match t with UUnlock | UNotify => true | _ => false end.

Definition observed_ok (counter : Z) (t : Thread) : Prop :=
  match t with WLock _ ts | WCheck _ ts | WUnlock _ ts | WAwait _ ts => ts <= counter | _ => True end.

(** A waiter that has not seen the last notification missed nothing: its
    condition does not hold, or there is another notification to come. *)
Definition not_lost (st : State) (t : Thread) : Prop :=
  match t with
  | WUnlock c ts | WAwait c ts => ts = counter st -> check_condition c (objects st) = None \/ 0 < cnt pending (threads st)
  | _ => True
  end.

Record Inv (st : State) : Prop := {
  inv_mutex : forall i t, threads st !! i = Some t -> holds t = true <-> mutex st = Some i;
  inv_holder : forall i, mutex st = Some i -> exists t, threads st !! i = Some t;
  inv_observed : Forall (observed_ok (counter st)) (threads st);
  inv_not_lost : Forall (not_lost st) (threads st) }.

(** A step that changes thread [i], the mutex and perhaps more. *)
Lemma runtime_thread_inv (st : State) (i : nat) (t t' : Thread) (n : Z) (m : option nat) (s : S) :
  Inv st -> threads st !! i = Some t ->
  m = (if holds t' then Some i else if holds t then None else mutex st) ->
  (holds t' = true -> holds t = true \/ mutex st = None) ->
  (n = counter st \/ n = counter st + 1) ->
  (n = counter st -> s = objects st /\ (pending t = true -> pending t' = true) \/ pending t' = true) ->
  observed_ok n t' -> not_lost (mkState n m s (<[i := t']> (threads st))) t' ->
  Inv (mkState n m s (<[i := t']> (threads st))).
Proof.
  intros HI Hi Hm Hh Hn Hs Hobs Hlost. destruct HI as [H1 H2 H3 H4]. assert (i < length (threads st))%nat as Hlt by (by eapply lookup_lt_Some).
  split; cbn [counter mutex objects threads].
  - intros j u Hj. apply list_lookup_insert_Some in Hj as [(-> & -> & _)|[Hne Hj]].
    + subst m. destruct (holds u); [done|]. split; [done|]. destruct (holds t) eqn:Et; [done|]. intros E. apply (H1 _ _ Hi) in E. congruence.
    + rewrite (H1 _ _ Hj). subst m. destruct (holds t') eqn:Et'.
      * split; [|congruence]. intros E. destruct (Hh eq_refl) as [Et|Et]; [apply (H1 _ _ Hi) in Et|]; congruence.
      * destruct (holds t) eqn:Et; [|done]. apply (H1 _ _ Hi) in Et. split; congruence.
  - intros j Hj. subst m. destruct (decide (j = i)) as [->|Hne]; [exists t'; by apply list_lookup_insert_eq|].
    destruct (holds t'); [congruence|]. destruct (holds t); [done|]. destruct (H2 j Hj) as [u Hu]. exists u. by rewrite list_lookup_insert_ne.
  - apply Forall_insert; [|done]. eapply list.Forall_impl; [exact H3|]. intros u. unfold observed_ok. destruct u; lia.
  - apply Forall_insert; [|done]. rewrite list.Forall_forall in H3, H4 |- *. intros u Hu. specialize (H3 u Hu). specialize (H4 u Hu).
    pose proof (cnt_insert pending _ i t t' Hi) as Hc.
    assert (forall c ts, ts <= counter st -> (ts = counter st -> check_condition c (objects st) = None \/ 0 < cnt pending (threads st)) ->
      ts = n -> check_condition c s = None \/ 0 < cnt pending (<[i:=t']> (threads st))) as Hgen.
    { intros c ts Hts Hold ->. destruct Hn as [->| ->]; [|lia]. destruct (Hs eq_refl) as [[-> Hp]|Hp].
      - destruct (Hold eq_refl) as [?|?]; [by left|right]. destruct (pending t), (pending t'); simpl in Hc; try specialize (Hp eq_refl); lia || done.
      - right. pose proof (cnt_lookup pending (<[i:=t']> (threads st)) i t') as H. rewrite Hp in H. simpl in H. specialize (H ltac:(by apply list_lookup_insert_eq)). lia. }
    unfold not_lost, observed_ok in *. cbn [counter objects threads]. destruct u; try done; by apply Hgen.
Qed.

Ltac thread_step HI Hi := apply (runtime_thread_inv _ _ _ _ _ _ _ HI Hi); simpl in *; try tauto; try lia; auto.

Lemma runtime_step_inv (i : nat) (st : State) : Inv st -> Inv (step i st).
Proof.
  intros HI. unfold step. destruct (threads st !! i) as [t|] eqn:Hi; [|done].
  assert (observed_ok (counter st) t) as Ho by (eapply Forall_lookup_1; [apply HI|done]).
  assert (not_lost st t) as Hl by (eapply Forall_lookup_1; [apply HI|done]).
  assert (holds t = true <-> mutex st = Some i) as Hh by (by apply (inv_mutex _ HI)).
  destruct t as [c|c ts|c ts|c ts|c ts|c r|c r|f|f| | |]; unfold await_condition_step, update_step, lock, unlock, goto; try done.
  - thread_step HI Hi.
  - destruct (mutex st) eqn:Em; [done|]. thread_step HI Hi.
  - destruct (check_condition c (objects st)) as [r|] eqn:Ec; thread_step HI Hi.
  - thread_step HI Hi. intros E. destruct (Hl E); [by left|right]. rewrite (cnt_insert _ _ _ _ _ Hi). simpl. lia.
  - destruct (counter st =? ts) eqn:E; [done|]. thread_step HI Hi.
  - thread_step HI Hi.
  - destruct (mutex st) eqn:Em; [done|]. thread_step HI Hi.
  - thread_step HI Hi.
  - thread_step HI Hi.
  - thread_step HI Hi.
Qed.

Lemma runtime_run_inv (schedule : list nat) (st : State) : Inv st -> Inv (run schedule st).
Proof. revert st. induction schedule as [|i schedule IH]; intros st HI; [done|]. by apply IH, runtime_step_inv. Qed.

Lemma runtime_initial_inv (s : S) (calls : list Thread) : Forall is_call calls -> Inv (initial_state s calls).
Proof.
  intros Hc. split; simpl.
  - intros i t Hi. pose proof (Forall_lookup_1 _ _ _ _ Hc Hi). by destruct t.
  - done.
  - eapply list.Forall_impl; [exact Hc|]. by intros [].
  - eapply list.Forall_impl; [exact Hc|]. by intros [].
Qed.

(** A thread whose step changes nothing. *)
Lemma stuck_thread (st : State) (i : nat) (t : Thread) :
  threads st !! i = Some t -> step i st = st ->
  match t with
  | WDone _ _ | UDone => True
  | WAwait _ ts => ts = counter st
  | WLock _ _ | ULock _ => mutex st <> None
  | _ => False
  end.
Proof.
  intros Hi Hs. unfold step in Hs. rewrite Hi in Hs.
  assert (forall t', threads st = <[i := t']> (threads st) -> t' = t) as Hsame.
  { intros t' E. pose proof (lookup_lt_Some _ _ _ Hi). rewrite E, list_lookup_insert_eq in Hi by done. congruence. }
  destruct t as [c|c ts|c ts|c ts|c ts|c r|c r|f|f| | |]; simpl in Hs; unfold lock, unlock, goto in Hs; try done.
  all: try (destruct (mutex st); [done|]).
  all: try (destruct (counter st =? ts) eqn:E; [bool_cases; done|]).
  all: try (destruct (check_condition c (objects st))).
  all: apply (f_equal threads) in Hs; simpl in Hs; symmetry in Hs; by apply Hsame in Hs.
Qed.

(** C29: In any interleaving of threads that wait for conditions and threads that
    change the objects and notify, at most one thread holds the mutex of the
    slot, and no notification is lost: when no thread can do anything, every
    call has returned but those of [await_condition] whose condition does not
    hold. *)
Theorem await_condition_no_lost_wakeup (s : S) (calls : list Thread) (schedule : list nat) :
  Forall is_call calls ->
  let st := run schedule (initial_state s calls) in
  (forall i j t u, threads st !! i = Some t -> threads st !! j = Some u -> holds t = true -> holds u = true -> i = j) /\
  ((forall i, step i st = st) -> forall i t, threads st !! i = Some t ->
     match t with
     | WDone _ _ | UDone => True
     | WAwait c _ => check_condition c (objects st) = None
     | _ => False
     end).
Proof.
  intros Hc st. assert (Inv st) as HI by (by apply runtime_run_inv, runtime_initial_inv). split.
  - intros i j t u Hi Hj Ht Hu. apply (inv_mutex _ HI _ _ Hi) in Ht. apply (inv_mutex _ HI _ _ Hj) in Hu. congruence.
  - intros Hstuck i t Hi. assert (mutex st = None) as Hm.
    { destruct (mutex st) as [j|] eqn:E; [|done]. destruct (inv_holder _ HI j E) as [u Hu]. pose proof (stuck_thread st j u Hu (Hstuck j)) as H.
      apply (inv_mutex _ HI _ _ Hu) in E. by destruct u. }
    pose proof (stuck_thread st i t Hi (Hstuck i)) as H. destruct t; try done.
    assert (not_lost st (WAwait cond observed_ts)) as Hl by (eapply Forall_lookup_1; [apply HI|done]).
    destruct (Hl H) as [|Hp]; [done|]. apply cnt_exists in Hp as (j & u & Hj & Hu). pose proof (stuck_thread st j u Hj (Hstuck j)). by destruct u.
Qed.
End runtime.

(** Two conditions on a number; one thread adds 1, another 2. *)
Definition sample_condition (c : nat) (s : Z) : option Z := if Z.of_nat c <=? s then Some s else None.

Definition sample_calls : list (Thread (S := Z) (R := Z)) := [WRead 2; WRead 5; ULock (Z.add 1); ULock (Z.add 2)].

Definition sample_run : State := run sample_condition (concat (replicate 20 [0; 1; 2; 3]%nat)) (initial_state 0 sample_calls).

Lemma await_condition_no_lost_wakeup_witness :
  threads sample_run = [WDone 2 3; WAwait 5 2; UDone; UDone] /\ sample_condition 5 (objects sample_run) = None.
Proof.
  assert (threads sample_run = [WDone 2 3; WAwait 5 2; UDone; UDone]) as E by (vm_compute; reflexivity). split; [exact E|].
  destruct (await_condition_no_lost_wakeup sample_condition 0 sample_calls (concat (replicate 20 [0; 1; 2; 3]%nat))) as [_ H]; [by repeat constructor|].
  specialize (H ltac:(intros [|[|[|[|i]]]]; vm_compute; reflexivity) 1%nat (WAwait 5 2)). apply H. vm_compute. reflexivity.
Defined.
