(* ===== verification/FakeRuntime.v ===== *)
(** * The fake executor and the fake time

    [async/fake_execution_context_decl.hpp], [_impl.hpp],
    [async/fake_executor_decl.hpp], [_impl.hpp], [_impl.ipp] and
    [async/fake_time_service_decl.hpp], [_impl.hpp]: what tests use in place of
    an [io_context] and a clock.  Module [Executor]: executors that track
    outstanding work keep its count exact under every copy, move, assignment
    and destruction.  Module [Timers]: threads that set timers, advance the
    time and run ready handlers.  The heap of Boost is a class with the laws
    that its documentation states. *)

From S2P Require Import Prelude Lifetime.
Open Scope Z_scope.

Module Executor.

(** A [BasicFakeExecutor]; [tracked]: the property it is instantiated for. *)
(* @ src/batteries/async/fake_executor_decl.hpp 37-47 BasicFakeExecutor *)
Record Handle : Type := mkHandle { tracked : bool; context_ : option nat }.

(** The executors, and the work counts of the contexts. *)
Record State : Type := mkState { handles : list (option Handle); work_counts : gmap nat Z }.

Definition work_count (c : nat) (st : State) : Z := default 0 (work_counts st !! c).

Definition set_count (c : nat) (n : Z) (st : State) : State := mkState (handles st) (<[c := n]> (work_counts st)).

Definition set_handle (i : nat) (h : option Handle) (st : State) : State := mkState (put i h (handles st)) (work_counts st).

(* @ src/batteries/async/fake_executor_impl.hpp 43-49 BasicFakeExecutor::on_work_started *)
Definition on_work_started (h : Handle) (st : State) : cxx State :=
  match context_ h with
  | None => Val st
  | Some c => let prior := work_count c st in check_ (negb (prior + 1 =? 0)) ;; Val (set_count c (prior + 1) st)
  end.

(* @ src/batteries/async/fake_executor_impl.hpp 53-59 BasicFakeExecutor::on_work_finished *)
Definition on_work_finished (h : Handle) (st : State) : cxx State :=
  match context_ h with
  | None => Val st
  | Some c => let prior := work_count c st in check_ (0 <? prior) ;; Val (set_count c (prior - 1) st)
  end.

(* @ src/batteries/async/fake_executor_decl.hpp 49-58 BasicFakeExecutor::BasicFakeExecutor *)
Definition construct (tracked : bool) (context : option nat) (st : State) : cxx (Handle * State) :=
  let h := mkHandle tracked context in
  st ← (if tracked then on_work_started h st else Val st); Val (h, st).

(** The moved-from executor has no context. *)
(* @ src/batteries/async/fake_executor_decl.hpp 60-63 BasicFakeExecutor::BasicFakeExecutor *)
Definition moved_from (h : Handle) : Handle := mkHandle (tracked h) None.

(* @ src/batteries/async/fake_executor_decl.hpp 81-86 BasicFakeExecutor::~BasicFakeExecutor *)
Definition destroy (h : Handle) (st : State) : cxx State := if tracked h then on_work_finished h st else Val st.

(** Operations on executors of the same type, but for [Require], which makes
    one of the type that is asked for. *)
Inductive Op : Type :=
| Default (i : nat) (tracked : bool)
| FromContext (i : nat) (tracked : bool) (c : nat)
| Copy (i j : nat)
| Move (i j : nat)
| CopyAssign (i j : nat)
| MoveAssign (i j : nat)
| Swap (i j : nat)
| Require (i j : nat) (tracked : bool)
| Destroy (i : nat).

Definition same_type (x y : Handle) : cxx unit := if eqb (tracked x) (tracked y) then Val tt else Undefined.

(* @ src/batteries/async/fake_executor_decl.hpp 65-78 BasicFakeExecutor::operator= *)
Definition assign (move : bool) (i j : nat) (st : State) : cxx State :=
  x ← entry (handles st) i; y ← entry (handles st) j; same_type x y ;;
  '(tmp, st) ← (if move then Val (y, set_handle j (Some (moved_from y)) st) else construct (tracked y) (context_ y) st);
  x ← entry (handles st) i;
  destroy x (set_handle i (Some tmp) st).

(* @ src/batteries/async/fake_executor_decl.hpp 88-92 BasicFakeExecutor::swap *)
Definition swap (i j : nat) (st : State) : cxx State :=
  x ← entry (handles st) i; y ← entry (handles st) j; same_type x y ;;
  Val (set_handle j (Some x) (set_handle i (Some y) st)).

(* @ src/batteries/async/fake_executor_decl.hpp 102-198 BasicFakeExecutor::require, prefer *)
Definition require (i j : nat) (tracked : bool) (st : State) : cxx State :=
  vacant (handles st) i ;; y ← entry (handles st) j;
  '(h, st) ← construct tracked (context_ y) st; Val (set_handle i (Some h) st).

Definition apply_op (op : Op) (st : State) : cxx State :=
  match op with
  | Default i t => vacant (handles st) i ;; Val (set_handle i (Some (mkHandle t None)) st)
  | FromContext i t c => vacant (handles st) i ;; '(h, st) ← construct t (Some c) st; Val (set_handle i (Some h) st)
  | Copy i j =>
      vacant (handles st) i ;; y ← entry (handles st) j;
      '(h, st) ← construct (tracked y) (context_ y) st; Val (set_handle i (Some h) st)
  | Move i j =>
      vacant (handles st) i ;; y ← entry (handles st) j;
      Val (set_handle i (Some y) (set_handle j (Some (moved_from y)) st))
  | CopyAssign i j => assign false i j st
  | MoveAssign i j => assign true i j st
  | Swap i j => swap i j st
  | Require i j t => require i j t st
  | Destroy i => x ← entry (handles st) i; destroy x (set_handle i None st)
  end.

Definition run (ops : list Op) (st : State) : cxx State := foldl (fun m op => st ← m; apply_op op st) (Val st) ops.

Definition no_handles (n : nat) : State := mkState (replicate n None) ∅.

(** ** The count is that of the tracked executors *)

Definition works_on (c : nat) (h : Handle) : bool := tracked h && bool_decide (context_ h = Some c).

Definition works_on_entry (c : nat) (h : option Handle) : bool := match h with Some h => works_on c h | None => false end.

Lemma works_on_null (c : nat) (t : bool) : works_on c (mkHandle t None) = false.
Proof. by destruct t. Qed.

(** [temps]: the temporary objects of an operation that is under way. *)
Definition Inv (temps : list Handle) (st : State) : Prop :=
  forall c, work_count c st = cnt (works_on c) temps + cnt (works_on_entry c) (handles st).

Lemma inv_nonneg (temps : list Handle) (st : State) (c : nat) : Inv temps st -> 0 <= work_count c st.
Proof. intros HI. rewrite HI. pose proof (cnt_nonneg (works_on c) temps). pose proof (cnt_nonneg (works_on_entry c) (handles st)). lia. Qed.

Lemma work_count_set (c c' : nat) (n : Z) (st : State) : work_count c' (set_count c n st) = if decide (c' = c) then n else work_count c' st.
Proof.
  unfold work_count, set_count. simpl. destruct (decide (c' = c)) as [->|Hne]; [by rewrite lookup_insert_eq|by rewrite lookup_insert_ne].
Qed.

Lemma construct_inv (t : bool) (c : option nat) (temps : list Handle) (st : State) :
  Inv temps st -> exists st', construct t c st = Val (mkHandle t c, st') /\ Inv (mkHandle t c :: temps) st' /\ handles st' = handles st.
Proof.
  intros HI. unfold construct, on_work_started. destruct t; cbn [context_ tracked].
  - destruct c as [c|].
    + pose proof (inv_nonneg _ _ c HI). rewrite (proj2 (Z.eqb_neq (work_count c st + 1) 0)) by lia. eexists. split_and!; [done| |done].
      intros c'. rewrite work_count_set, cnt_cons. unfold works_on at 1. simpl. specialize (HI c') as HI'. simpl in *.
      destruct (decide (c' = c)) as [->|Hne]; [rewrite bool_decide_eq_true_2 by done; simpl; lia|].
      rewrite bool_decide_eq_false_2 by congruence. simpl. lia.
    + eexists. split_and!; [done| |done]. intros c'. rewrite cnt_cons. unfold works_on at 1. simpl. apply HI.
  - eexists. split_and!; [done| |done]. intros c'. rewrite cnt_cons. simpl. apply HI.
Qed.

Lemma destroy_inv (h : Handle) (temps : list Handle) (st : State) :
  Inv (h :: temps) st -> exists st', destroy h st = Val st' /\ Inv temps st' /\ handles st' = handles st.
Proof.
  intros HI. unfold destroy, on_work_finished. destruct h as [[] [c|]]; cbn [context_ tracked].
  2-4: exists st; split_and!; [done| |done]; intros c'; specialize (HI c'); rewrite cnt_cons in HI; unfold works_on at 1 in HI; simpl in HI; lia.
  pose proof (HI c) as Hc. rewrite cnt_cons in Hc. unfold works_on at 1 in Hc. simpl in Hc. rewrite bool_decide_eq_true_2 in Hc by done.
  pose proof (cnt_nonneg (works_on c) temps). pose proof (cnt_nonneg (works_on_entry c) (handles st)). simpl in Hc.
  rewrite (proj2 (Z.ltb_lt 0 _)) by lia. simpl. eexists. split_and!; [done| |done]. intros c'. rewrite work_count_set. simpl.
  specialize (HI c') as HI'. rewrite cnt_cons in HI'. unfold works_on at 1 in HI'. simpl in HI'.
  destruct (decide (c' = c)) as [->|Hne]; [lia|]. rewrite bool_decide_eq_false_2 in HI' by congruence. simpl in HI'. lia.
Qed.

(** An object goes into its place; what was there is a temporary then. *)
Lemma place_inv (i : nat) (h x : option Handle) (temps : list Handle) (st : State) :
  handles st !! i = Some x -> Inv (option_list h ++ temps) st -> Inv (option_list x ++ temps) (set_handle i h st).
Proof.
  intros Hi HI c. specialize (HI c). unfold set_handle, put, work_count in *. simpl. rewrite (cnt_insert _ _ _ _ h Hi). rewrite !cnt_app in *.
  assert (forall o, cnt (works_on c) (option_list o) = Z.b2z (works_on_entry c o)) as Ho by (intros [o|]; [unfold cnt, sum; simpl; lia|done]).
  rewrite Ho in *. lia.
Qed.

Lemma entry_val (t : list (option Handle)) (i : nat) : (exists h, entry t i = Val h /\ t !! i = Some (Some h)) \/ entry t i = Undefined.
Proof. unfold entry. destruct (t !! i) as [[h|]|]; eauto. Qed.

Lemma vacant_val (t : list (option Handle)) (i : nat) : (vacant t i = Val tt /\ t !! i = Some None) \/ vacant t i = Undefined.
Proof. unfold vacant. destruct (t !! i) as [[h|]|]; eauto. Qed.

(** Follows an operation up to the next case in which it is undefined. *)
Ltac op_step :=
  match goal with
  | |- context [vacant ?t ?i] => let H := fresh "Hv" in destruct (vacant_val t i) as [[-> H]| ->]; [|by right]; cbn [mbind cxx_bind]
  | |- context [entry ?t ?i] => let H := fresh "He" in let h := fresh "h" in
      destruct (entry_val t i) as [(h & -> & H)| ->]; [|by right]; cbn [mbind cxx_bind]
  | |- context [same_type ?x ?y] => unfold same_type; destruct (eqb (tracked x) (tracked y)); [|by right]; cbn [mbind cxx_bind]
  end.

Lemma moved_inv (j : nat) (y : Handle) (st : State) :
  handles st !! j = Some (Some y) -> Inv [] st -> Inv [y] (set_handle j (Some (moved_from y)) st).
Proof.
  intros Hj HI. apply (place_inv j (Some (moved_from y)) (Some y) [] st Hj). intros c. simpl. rewrite HI, cnt_cons.
  unfold moved_from. rewrite works_on_null. simpl. lia.
Qed.

Lemma replace_inv (i : nat) (x tmp : Handle) (st : State) :
  handles st !! i = Some (Some x) -> Inv [tmp] st ->
  exists st', destroy x (set_handle i (Some tmp) st) = Val st' /\ Inv [] st'.
Proof.
  intros Hi HI.
  destruct (destroy_inv x [] (set_handle i (Some tmp) st)) as (st' & -> & HI' & _); [|by exists st'].
  by apply (place_inv i (Some tmp) (Some x) [] st Hi).
Qed.

Lemma apply_op_inv (op : Op) (st : State) : Inv [] st -> (exists st', apply_op op st = Val st' /\ Inv [] st') \/ apply_op op st = Undefined.
Proof.
  intros HI. destruct op as [i t|i t c|i j|i j|i j|i j|i j|i j t|i]; unfold apply_op, assign, swap, require; repeat op_step.
  - left. eexists. split; [done|]. apply (place_inv i (Some _) None [] st Hv). intros c. simpl. rewrite HI, cnt_cons, works_on_null. simpl. lia.
  - left. destruct (construct_inv t (Some c) [] st HI) as (st1 & -> & HI1 & Hh). eexists. split; [done|].
    rewrite <- Hh in Hv. by apply (place_inv i (Some _) None [] st1 Hv).
  - left. destruct (construct_inv (tracked h) (context_ h) [] st HI) as (st1 & -> & HI1 & Hh). eexists. split; [done|].
    rewrite <- Hh in Hv. by apply (place_inv i (Some _) None [] st1 Hv).
  - left. eexists. split; [done|]. pose proof (moved_inv j h st He HI) as HI1.
    assert (handles (set_handle j (Some (moved_from h)) st) !! i = Some None) as Hi.
    { simpl. unfold put. rewrite list_lookup_insert_ne; [done|]. intros ->. congruence. }
    by apply (place_inv i (Some _) None [] _ Hi).
  - left. destruct (construct_inv (tracked h0) (context_ h0) [] st HI) as (st1 & -> & HI1 & Hh). cbn [mbind cxx_bind].
    unfold entry. rewrite Hh, He. cbn [mbind cxx_bind]. apply replace_inv; [by rewrite Hh|done].
  - left. by apply replace_inv, (moved_inv j h0 st).
  - left. eexists. split; [done|]. intros c. rewrite cnt_nil. unfold work_count, set_handle, put. simpl.
    destruct (decide (i = j)) as [->|Hne].
    + assert (h0 = h) as -> by congruence. rewrite !(list_insert_id _ j) by (rewrite ?(list_insert_id _ j); done). specialize (HI c). by rewrite cnt_nil in HI.
    + assert (<[i:=Some h0]> (handles st) !! j = Some (Some h0)) as Hj by (by rewrite list_lookup_insert_ne).
      rewrite (cnt_insert _ _ _ _ _ Hj), (cnt_insert _ _ _ _ _ He). specialize (HI c). rewrite cnt_nil in HI. unfold work_count in HI. lia.
  - left. destruct (construct_inv t (context_ h) [] st HI) as (st1 & -> & HI1 & Hh). eexists. split; [done|].
    rewrite <- Hh in Hv. by apply (place_inv i (Some _) None [] st1 Hv).
  - left. destruct (destroy_inv h [] (set_handle i None st)) as (st' & -> & HI' & _); [|by exists st'].
    by apply (place_inv i None (Some h) [] st He).
Qed.

Lemma executor_run_inv (ops : list Op) (st : State) : Inv [] st -> (exists st', run ops st = Val st' /\ Inv [] st') \/ run ops st = Undefined.
Proof.
  revert st. induction ops as [|op ops IH]; intros st HI; [left; by exists st|]. unfold run. simpl.
  destruct (apply_op_inv op st HI) as [(st' & -> & HI')| ->]; [by apply IH|right]. clear. induction ops; [done|]. done.
Qed.

(** The executors, copied and moved in any way by a program that uses objects
    while they exist, keep the count of the outstanding work exact: for each
    context it is the number of the tracked executors that refer to it, and no
    check fails. *)
Theorem work_count_exact (n : nat) (ops : list Op) :
  match run ops (no_handles n) with
  | Val st => forall c, work_count c st = cnt (works_on_entry c) (handles st)
  | Panics => False
  | Undefined => True
  end.
Proof.
  destruct (executor_run_inv ops (no_handles n)) as [(st & -> & HI)| ->]; [|done|done].
  intros c. unfold no_handles, work_count. simpl. rewrite lookup_empty, cnt_nil. simpl. induction n as [|n IH]; [done|].
  cbn [replicate]. rewrite cnt_cons. simpl. lia.
Qed.

Example executors :
  match run [FromContext 0 false 7; Require 1 0 true; Copy 2 1; Move 3 2; CopyAssign 2 3; MoveAssign 1 1; Destroy 3] (no_handles 4) with
  | Val st => work_count 7 st = 2
  | _ => False
  end.
Proof. vm_compute. done. Qed.

End Executor.

Module Timers.

(** A timer; [handler] stands for the callable. *)
(* @ src/batteries/async/fake_time_service_decl.hpp 45-63 FakeTimeService::TimerInstance *)
Record TimerInstance : Type := mkTimer { executor : nat; expires_at : Z; handler : nat }.

#[export] Instance TimerInstance_eq_dec : EqDecision TimerInstance.
Proof. solve_decision. Defined.

(** The timers of the queue have an [impl]. *)
(* @ src/batteries/async/fake_time_service_impl.hpp 31-36 operator< *)
Definition timer_lt (l r : TimerInstance) : bool := expires_at l <? expires_at r.

(** [boost::heap::d_ary_heap], ordered by [std::greater]: the top is one of
    the smallest elements. *)
Class TimerHeap : Type := {
  TimerQueue : Type;
  empty_queue : TimerQueue;
  push : TimerInstance -> TimerQueue -> TimerQueue;
  top : TimerQueue -> option TimerInstance;
  pop : TimerQueue -> TimerQueue;
  elements : TimerQueue -> list TimerInstance;
  empty_law : elements empty_queue = [];
  push_law : forall t q, elements (push t q) ≡ₚ t :: elements q;
  top_none_law : forall q, top q = None -> elements q = [];
  top_law : forall q t, top q = Some t -> elements q ≡ₚ t :: elements (pop q) /\ forall u, u ∈ elements q -> timer_lt u t = false }.

(** What a thread does, one after another. *)
Inductive Call : Type :=
| AsyncWait (t : TimerInstance)
| Advance (delta : Z)
| PopReady (context : nat) (picker : nat -> nat).

(* @ src/batteries/async/fake_execution_context_impl.hpp 70-81 FakeExecutionContext::poll_one *)
Definition poll_one (context : nat) : Call := PopReady context (fun _ => O).

(** Where it is: [Insert]: it has seen that the timer has not expired;
    [Post]: it hands timers to their executors; [Run]: it calls a handler. *)
Inductive Pc : Type := Next | Insert (t : TimerInstance) | Post (ts : list TimerInstance) | Run (t : TimerInstance).

Record Thread : Type := mkThread { pc : Pc; todo : list Call }.

Section timers.
Context `{TimerHeap}.

(** The static state of the time service, the ready handlers of the contexts,
    and the calls of handlers with the time of each. *)
(* @ src/batteries/async/fake_time_service_decl.hpp 98-102 FakeTimeService::State *)
Record State : Type := mkState {
  fake_time_ : Z;
  timer_queue_ : TimerQueue;
  ready_to_run_ : list (list TimerInstance);
  failed : bool;
  called : list (TimerInstance * Z);
  threads : list Thread }.

Definition set_thread (i : nat) (p : Pc) (rest : list Call) (st : State) : State :=
  mkState (fake_time_ st) (timer_queue_ st) (ready_to_run_ st) (failed st) (called st) (<[i := mkThread p rest]> (threads st)).

(** [boost::asio::post]; a context that is not there is not in the program. *)
(* @ src/batteries/async/fake_execution_context_impl.hpp 31-41 FakeExecutionContext::push_ready_handler *)
Definition push_ready_handler (t : TimerInstance) (st : State) : State :=
  mkState (fake_time_ st) (timer_queue_ st) (alter (fun ready => ready ++ [t]) (executor t) (ready_to_run_ st)) (failed st) (called st) (threads st).

(** The handler that is picked leaves its place to the last one. *)
(* @ src/batteries/async/fake_execution_context_impl.hpp 45-67 FakeExecutionContext::pop_ready_handler *)
Definition pop_ready (picker : nat -> nat) (ready : list TimerInstance) : outcome (option (TimerInstance * list TimerInstance)) :=
  match list.last ready with
  | None => Done None
  | Some back =>
      let next_i := picker (length ready) in
      match ready !! next_i with
      | None => Panic
      | Some t => Done (Some (t, removelast (if next_i =? length ready - 1 then ready else <[next_i := back]> ready)%nat))
      end
  end.

(** [fuel]: the number of timers is enough. *)
(* @ src/batteries/async/fake_time_service_impl.hpp 91-95 FakeTimeService::State::advance_time *)
Fixpoint pop_expired (fuel : nat) (now : Z) (expired : list TimerInstance) (q : TimerQueue) : list TimerInstance * TimerQueue :=
  match fuel with
  | O => (expired, q)
  | S fuel =>
      match top q with
      | Some t => if expires_at t <=? now then pop_expired fuel now (expired ++ [t]) (pop q) else (expired, q)
      | None => (expired, q)
      end
  end.

(* @ src/batteries/async/fake_time_service_impl.hpp 84-100 FakeTimeService::State::advance_time *)
Definition advance_time_step (i : nat) (delta : Z) (rest : list Call) (st : State) : State :=
  let now := fake_time_ st + delta in
  let '(expired, q) := pop_expired (length (elements (timer_queue_ st))) now [] (timer_queue_ st) in
  set_thread i (Post expired) rest (mkState now q (ready_to_run_ st) (failed st) (called st) (threads st)).

(** The time is read with the mutex locked; it is locked again to insert. *)
(* @ src/batteries/async/fake_time_service_impl.hpp 55-80 FakeTimeService::State::schedule_timer *)
Definition schedule_timer_step (i : nat) (t : TimerInstance) (rest : list Call) (st : State) : State :=
  set_thread i (if expires_at t <=? fake_time_ st then Post [t] else Insert t) rest st.

Definition insert_step (i : nat) (t : TimerInstance) (rest : list Call) (st : State) : State :=
  set_thread i Next rest (mkState (fake_time_ st) (push t (timer_queue_ st)) (ready_to_run_ st) (failed st) (called st) (threads st)).

Definition pop_step (i context : nat) (picker : nat -> nat) (rest : list Call) (st : State) : State :=
  match ready_to_run_ st !! context with
  | None => set_thread i Next rest st
  | Some ready =>
      match pop_ready picker ready with
      | Panic => mkState (fake_time_ st) (timer_queue_ st) (ready_to_run_ st) true (called st) (threads st)
      | Done None => set_thread i Next rest st
      | Done (Some (t, ready)) =>
          set_thread i (Run t) rest (mkState (fake_time_ st) (timer_queue_ st) (<[context := ready]> (ready_to_run_ st)) (failed st) (called st) (threads st))
      end
  end.

Definition step (i : nat) (st : State) : State :=
  match threads st !! i with
  | None => st
  | Some th =>
      match pc th, todo th with
      | Next, [] => st
      | Next, AsyncWait t :: rest => schedule_timer_step i t rest st
      | Next, Advance delta :: rest => advance_time_step i delta rest st
      | Next, PopReady context picker :: rest => pop_step i context picker rest st
      | Insert t, rest => insert_step i t rest st
      | Post [], rest => set_thread i Next rest st
      | Post (t :: ts), rest => set_thread i (Post ts) rest (push_ready_handler t st)
      | Run t, rest =>
          set_thread i Next rest (mkState (fake_time_ st) (timer_queue_ st) (ready_to_run_ st) (failed st) (called st ++ [(t, fake_time_ st)]) (threads st))
      end
  end.

Definition run (schedule : list nat) (st : State) : State := foldl (fun st i => step i st) st schedule.

Definition initial_state (now : Z) (contexts : nat) (programs : list (list Call)) : State :=
  mkState now empty_queue (replicate contexts []) false [] (mkThread Next <$> programs).

(** ** No timer is lost, and none is early *)

Definition call_timers (c : Call) : list TimerInstance := match c with AsyncWait t => [t] | _ => [] end.

Definition pc_timers (p : Pc) : list TimerInstance := match p with Next => [] | Insert t | Run t => [t] | Post ts => ts end.

Definition thread_timers (th : Thread) : list TimerInstance := pc_timers (pc th) ++ concat (call_timers <$> todo th).

(** Where timers can be. *)
Definition everything (st : State) : list TimerInstance :=
  (called st).*1 ++ concat (ready_to_run_ st) ++ elements (timer_queue_ st) ++ concat (thread_timers <$> threads st).

Definition all_timers (programs : list (list Call)) : list TimerInstance := concat ((fun calls => concat (call_timers <$> calls)) <$> programs).

Definition call_ok (contexts : nat) (c : Call) : Prop :=
  match c with
  | AsyncWait t => (executor t < contexts)%nat
  | Advance delta => 0 <= delta
  | PopReady _ picker => forall n, (0 < n)%nat -> (picker n < n)%nat
  end.

Definition expired (now : Z) (t : TimerInstance) : Prop := expires_at t <= now.

Definition pc_ok (contexts : nat) (now : Z) (p : Pc) : Prop :=
  match p with
  | Next => True
  | Insert t => (executor t < contexts)%nat
  | Post ts => Forall (fun t => (executor t < contexts)%nat) ts /\ Forall (expired now) ts
  | Run t => expired now t
  end.

Definition thread_ok (contexts : nat) (now : Z) (th : Thread) : Prop := pc_ok contexts now (pc th) /\ Forall (call_ok contexts) (todo th).

Record Inv (contexts : nat) (all : list TimerInstance) (st : State) : Prop := {
  inv_all : forall P, cnt P (everything st) = cnt P all;
  inv_length : length (ready_to_run_ st) = contexts;
  inv_failed : failed st = false;
  inv_called : Forall (fun c : TimerInstance * Z => expired c.2 c.1) (called st);
  inv_ready : Forall (Forall (expired (fake_time_ st))) (ready_to_run_ st);
  inv_queue : Forall (fun t => (executor t < contexts)%nat) (elements (timer_queue_ st));
  inv_threads : Forall (thread_ok contexts (fake_time_ st)) (threads st) }.

Lemma pop_expired_spec (fuel : nat) (now : Z) (acc : list TimerInstance) (q : TimerQueue) :
  (length (elements q) <= fuel)%nat ->
  exists ts q', pop_expired fuel now acc q = (acc ++ ts, q') /\ elements q ≡ₚ ts ++ elements q' /\
    Forall (expired now) ts /\ Forall (fun t => now < expires_at t) (elements q').
Proof.
  revert acc q. induction fuel as [|fuel IH]; intros acc q Hf; simpl.
  - exists [], q. rewrite app_nil_r. split_and!; [done|done|constructor|]. destruct (elements q); [constructor|simpl in Hf; lia].
  - destruct (top q) as [t|] eqn:Et.
    + destruct (top_law q t Et) as [Hperm Hmin]. destruct (expires_at t <=? now) eqn:E; bool_cases.
      * destruct (IH (acc ++ [t]) (pop q)) as (ts & q' & -> & Hp & Hts & Hq); [apply Permutation_length in Hperm; simpl in Hperm; lia|].
        exists (t :: ts), q'. rewrite <- app_assoc. split_and!; [done|by rewrite Hperm, Hp|by constructor|done].
      * exists [], q. rewrite app_nil_r. split_and!; [done|done|constructor|]. apply list.Forall_forall. intros u Hu.
        specialize (Hmin u Hu). unfold timer_lt in Hmin. bool_cases. lia.
    + exists [], q. rewrite app_nil_r. split_and!; [done|done|constructor|]. rewrite (top_none_law q Et). constructor.
Qed.

Lemma pop_ready_spec (picker : nat -> nat) (ready : list TimerInstance) :
  (forall n, (0 < n)%nat -> (picker n < n)%nat) ->
  match pop_ready picker ready with
  | Panic => False
  | Done None => ready = []
  | Done (Some (t, rest)) => ready ≡ₚ t :: rest
  end.
Proof.
  intros Hp. unfold pop_ready. destruct ready as [|back r0 _] using rev_ind; [done|]. rewrite last_snoc, length_app. simpl.
  specialize (Hp (length r0 + 1)%nat ltac:(lia)). set (k := picker (length r0 + 1)%nat) in *. replace (length r0 + 1 - 1)%nat with (length r0) by lia.
  destruct (k =? length r0)%nat eqn:E.
  - apply Nat.eqb_eq in E. rewrite lookup_app_r, E, Nat.sub_diag by lia. simpl. rewrite removelast_last. by rewrite Permutation_app_comm.
  - apply Nat.eqb_neq in E. rewrite lookup_app_l by lia. destruct (lookup_lt_is_Some_2 r0 k) as [t Ht]; [lia|]. rewrite Ht.
    rewrite insert_app_l by lia. rewrite removelast_last. apply cnt_permutation. intros P.
    rewrite cnt_app, !cnt_cons, cnt_nil, (cnt_insert _ _ _ _ _ Ht). lia.
Qed.

Lemma everything_cnt (st : State) (P : TimerInstance -> bool) :
  cnt P (everything st) = cnt P (called st).*1 + sum (cnt P <$> ready_to_run_ st) + cnt P (elements (timer_queue_ st)) +
    sum ((fun th => cnt P (thread_timers th)) <$> threads st).
Proof. unfold everything. rewrite !cnt_app, !cnt_concat, <- list_fmap_compose. unfold compose. lia. Qed.

Definition calls_cnt (P : TimerInstance -> bool) (td : list Call) : Z := cnt P (concat (call_timers <$> td)).

Lemma thread_cnt (P : TimerInstance -> bool) (p : Pc) (td : list Call) :
  cnt P (thread_timers (mkThread p td)) = cnt P (pc_timers p) + calls_cnt P td.
Proof. apply cnt_app. Qed.

Lemma calls_cnt_cons (P : TimerInstance -> bool) (c : Call) (td : list Call) : calls_cnt P (c :: td) = cnt P (call_timers c) + calls_cnt P td.
Proof. apply cnt_app. Qed.

(** A step of thread [i]: what its place and the shared places gain and lose
    is balanced. *)
Lemma thread_step_inv (contexts : nat) (all : list TimerInstance) (st : State) (i : nat) (th : Thread)
    (p : Pc) (rest : list Call) (now : Z) (q : TimerQueue) (ready : list (list TimerInstance)) (c : list (TimerInstance * Z)) :
  Inv contexts all st -> threads st !! i = Some th -> fake_time_ st <= now ->
  (forall P, cnt P c.*1 + sum (cnt P <$> ready) + cnt P (elements q) + cnt P (thread_timers (mkThread p rest)) =
     cnt P (called st).*1 + sum (cnt P <$> ready_to_run_ st) + cnt P (elements (timer_queue_ st)) + cnt P (thread_timers th)) ->
  length ready = contexts -> Forall (fun c : TimerInstance * Z => expired c.2 c.1) c ->
  Forall (Forall (expired now)) ready -> Forall (fun t => (executor t < contexts)%nat) (elements q) ->
  pc_ok contexts now p -> Forall (call_ok contexts) rest ->
  Inv contexts all (mkState now q ready (failed st) c (<[i := mkThread p rest]> (threads st))).
Proof.
  intros HI Hi Hnow HP Hlen Hc Hr Hq Hp Hrest. split; simpl; try done.
  - intros P. rewrite <- (inv_all _ _ _ HI P), !everything_cnt. simpl. rewrite (sum_insert _ _ _ _ _ Hi). specialize (HP P). lia.
  - by rewrite (inv_failed _ _ _ HI).
  - apply Forall_insert; [|done]. eapply list.Forall_impl; [apply HI|]. intros th' [H1 H2]. split; [|done].
    unfold pc_ok in *. destruct (pc th') as [|t|ts|t]; try done; [|unfold expired in *; lia]. destruct H1 as [H1 H3]. split; [done|].
    eapply list.Forall_impl; [exact H3|]. intros u; unfold expired; lia.
Qed.

Ltac thread_step HI Hi Hready :=
  apply (thread_step_inv _ _ _ _ _ _ _ _ _ _ _ HI Hi); cbn [fake_time_ timer_queue_ ready_to_run_ failed called threads];
  try done; try lia; try (apply Hready; lia); try (split; by repeat constructor);
  try (intros P; rewrite !thread_cnt, ?calls_cnt_cons; simpl; rewrite ?cnt_cons, ?cnt_nil; lia).

Lemma timer_step_inv (contexts : nat) (all : list TimerInstance) (i : nat) (st : State) : Inv contexts all st -> Inv contexts all (step i st).
Proof.
  intros HI. unfold step. destruct (threads st !! i) as [th|] eqn:Hi; [|done].
  assert (thread_ok contexts (fake_time_ st) th) as [Hpc Hcalls] by (eapply Forall_lookup_1; [apply HI|exact Hi]).
  assert (forall now, fake_time_ st <= now -> Forall (Forall (expired now)) (ready_to_run_ st)) as Hready.
  { intros now Hnow. eapply list.Forall_impl; [apply HI|]. intros ready Hr. eapply list.Forall_impl; [exact Hr|]. intros t; unfold expired; lia. }
  pose proof (inv_called _ _ _ HI) as Hcalled. pose proof (inv_queue _ _ _ HI) as Hqueue. pose proof (inv_length _ _ _ HI) as Hlen.
  destruct th as [p td]. cbn [pc todo] in *. destruct p as [|t|[|t ts]|t].
  - destruct td as [|[t|delta|c picker] rest]; [done|..]; apply Forall_cons_iff in Hcalls as [Hcall Hrest]; simpl in Hcall.
    + unfold schedule_timer_step. destruct (expires_at t <=? fake_time_ st) eqn:E; bool_cases;
        thread_step HI Hi Hready.
    + unfold advance_time_step. destruct (pop_expired_spec _ (fake_time_ st + delta) [] (timer_queue_ st) (le_n _)) as (ts & q & -> & Hp & Hts & Hq).
      assert (Forall (fun t => (executor t < contexts)%nat) (ts ++ elements q)) as [H1 H2]%Forall_app by (by rewrite <- Hp).
      thread_step HI Hi Hready.
      intros P. rewrite (cnt_perm _ _ _ Hp), !thread_cnt, calls_cnt_cons, !cnt_app. simpl. rewrite cnt_nil. lia.
    + unfold pop_step. destruct (ready_to_run_ st !! c) as [ready|] eqn:Ec.
      2: { thread_step HI Hi Hready. }
      pose proof (pop_ready_spec picker ready Hcall) as Hpop. destruct (pop_ready picker ready) as [[[t r]|]|]; [| |done].
      * assert (Forall (expired (fake_time_ st)) (t :: r)) as [Ht Hr]%Forall_cons_iff.
        { rewrite <- Hpop. eapply Forall_lookup_1; [apply HI|exact Ec]. }
        thread_step HI Hi Hready.
        -- intros P. rewrite (sum_insert _ _ _ _ _ Ec), (cnt_perm _ _ _ Hpop), !thread_cnt, calls_cnt_cons. simpl. rewrite !cnt_cons, cnt_nil. lia.
        -- by rewrite length_insert.
        -- by apply Forall_insert; [apply Hready|].
      * thread_step HI Hi Hready.
  - unfold insert_step. thread_step HI Hi Hready.
    + intros P. rewrite (cnt_perm _ _ _ (push_law _ _)), !thread_cnt. simpl. rewrite !cnt_cons, cnt_nil. lia.
    + rewrite push_law. by constructor.
  - thread_step HI Hi Hready.
  - unfold push_ready_handler. destruct Hpc as [[Hex Hexs]%Forall_cons_iff [Ht Hts]%Forall_cons_iff].
    destruct (lookup_lt_is_Some_2 (ready_to_run_ st) (executor t)) as [ready Er]; [by rewrite Hlen|].
    thread_step HI Hi Hready.
    + intros P. rewrite (sum_alter _ _ _ _ _ Er), !thread_cnt, cnt_app. simpl. rewrite !cnt_cons, cnt_nil. lia.
    + by rewrite length_alter.
    + apply list.Forall_lookup. intros j r Hj. pose proof (Hready (fake_time_ st) ltac:(lia)) as Hr. rewrite list.Forall_lookup in Hr.
      destruct (decide (j = executor t)) as [->|Hne].
      * rewrite list_lookup_alter_eq, Er in Hj. injection Hj as <-. apply Forall_app. split; [by eapply Hr|by repeat constructor].
      * rewrite list_lookup_alter_ne in Hj by done. by eapply Hr.
  - thread_step HI Hi Hready.
    + intros P. rewrite fmap_app, cnt_app, !thread_cnt. simpl. rewrite !cnt_cons, !cnt_nil. simpl. lia.
    + apply Forall_app. split; [done|]. by repeat constructor.
Qed.

Lemma timers_run_inv (contexts : nat) (all : list TimerInstance) (schedule : list nat) (st : State) :
  Inv contexts all st -> Inv contexts all (run schedule st).
Proof. revert st. induction schedule as [|i schedule IH]; intros st HI; [done|]. by apply IH, timer_step_inv. Qed.

Lemma initial_timers_inv (now : Z) (contexts : nat) (programs : list (list Call)) :
  Forall (Forall (call_ok contexts)) programs -> Inv contexts (all_timers programs) (initial_state now contexts programs).
Proof.
  intros Hok. split; simpl; try done.
  - intros P. rewrite everything_cnt. unfold all_timers. rewrite cnt_concat. simpl. rewrite empty_law, cnt_nil.
    assert (sum (cnt P <$> replicate contexts []) = 0) as -> by (apply sum_all_zero; intros j x Hx; by apply lookup_replicate in Hx as [-> _]).
    rewrite <- !list_fmap_compose. rewrite !Z.add_0_l. done.
  - apply length_replicate.
  - apply list.Forall_forall. intros r Hr. by apply elem_of_replicate in Hr as [-> _].
  - by rewrite empty_law.
  - apply list.Forall_fmap. eapply list.Forall_impl; [exact Hok|]. intros calls Hc. by split.
Qed.

(** C38: In every interleaving of threads that set timers, let the time go by and
    run ready handlers: no check fails; no timer is lost or called twice;
    none is called before its time; and when [advance_time] has taken the
    expired timers, the queue holds none. *)
Theorem timers_fire_once (now : Z) (contexts : nat) (programs : list (list Call)) (schedule : list nat) :
  Forall (Forall (call_ok contexts)) programs ->
  let st := run schedule (initial_state now contexts programs) in
  failed st = false /\
  everything st ≡ₚ all_timers programs /\
  Forall (fun c : TimerInstance * Z => expires_at c.1 <= c.2) (called st) /\
  forall i delta rest, threads st !! i = Some (mkThread Next (Advance delta :: rest)) ->
    Forall (fun t => fake_time_ (step i st) < expires_at t) (elements (timer_queue_ (step i st))).
Proof.
  intros Hok st. assert (Inv contexts (all_timers programs) st) as HI by apply timers_run_inv, (initial_timers_inv _ _ _ Hok).
  split_and!; [apply (inv_failed _ _ _ HI)|apply cnt_permutation, (inv_all _ _ _ HI)|apply (inv_called _ _ _ HI)|].
  intros i delta rest Hi. unfold step. rewrite Hi. cbn [pc todo]. unfold advance_time_step.
  destruct (pop_expired_spec _ (fake_time_ st + delta) [] (timer_queue_ st) (le_n _)) as (ts & q & -> & _ & _ & Hq). exact Hq.
Qed.
End timers.

(** ** A heap: a sorted list *)

Fixpoint insert_timer (t : TimerInstance) (l : list TimerInstance) : list TimerInstance :=
  match l with [] => [t] | u :: l' => if timer_lt u t then u :: insert_timer t l' else t :: l end.

Lemma insert_timer_perm (t : TimerInstance) (l : list TimerInstance) : insert_timer t l ≡ₚ t :: l.
Proof. induction l as [|u l IH]; simpl; [done|]. destruct (timer_lt u t); [|done]. rewrite IH. apply Permutation_swap. Qed.

Definition sort_timers (l : list TimerInstance) : list TimerInstance := foldr insert_timer [] l.

Lemma sort_timers_perm (l : list TimerInstance) : sort_timers l ≡ₚ l.
Proof. induction l as [|t l IH]; simpl; [done|]. by rewrite insert_timer_perm, IH. Qed.

Lemma head_minimal (l : list TimerInstance) :
  match sort_timers l with [] => True | u :: l' => Forall (fun v => expires_at u <= expires_at v) l' end.
Proof.
  induction l as [|t l IH]; simpl; [done|]. destruct (sort_timers l) as [|u l']; simpl; [done|].
  destruct (timer_lt u t) eqn:E; unfold timer_lt in E; bool_cases.
  - rewrite insert_timer_perm. constructor; [lia|done].
  - constructor; [lia|]. eapply list.Forall_impl; [exact IH|]. simpl. lia.
Qed.

#[refine] Instance list_heap : TimerHeap := {|
  TimerQueue := list TimerInstance;
  empty_queue := [];
  push t q := t :: q;
  top q := head (sort_timers q);
  pop q := tail (sort_timers q);
  elements q := q |}.
Proof.
  - done.
  - done.
  - intros q Hq. pose proof (sort_timers_perm q) as Hp. destruct (sort_timers q); [|done]. by apply Permutation_nil_l in Hp.
  - intros q t. pose proof (sort_timers_perm q) as Hp. pose proof (head_minimal q) as Hu. destruct (sort_timers q) as [|v l]; [done|].
    simpl. intros [= ->]. split; [by rewrite Hp|]. intros w Hw. rewrite <- Hp in Hw. unfold timer_lt. apply Z.ltb_ge.
    rewrite list.Forall_forall in Hu. apply elem_of_cons in Hw as [->|Hw]; [lia|by apply Hu].
Defined.

(** ** Examples *)

Definition sample_programs : list (list Call) :=
  [[AsyncWait (mkTimer 0 5 1); AsyncWait (mkTimer 0 3 2); AsyncWait (mkTimer 0 0 3)]; [Advance 4; Advance 1];
   [poll_one 0; poll_one 0; poll_one 0]].

Definition sample_state : State := run (replicate 8 0%nat ++ replicate 8 1%nat ++ replicate 8 2%nat) (initial_state 0 1 sample_programs).

Lemma timers_fire_once_witness :
  called sample_state = [(mkTimer 0 0 3, 5); (mkTimer 0 5 1, 5); (mkTimer 0 3 2, 5)] /\
  failed sample_state = false /\ everything sample_state ≡ₚ all_timers sample_programs.
Proof.
  destruct (timers_fire_once 0 1 sample_programs (replicate 8 0%nat ++ replicate 8 1%nat ++ replicate 8 2%nat)) as (H1 & H2 & _).
  - repeat constructor; simpl; try lia.
  - split; [vm_compute; reflexivity|]. split; [exact H1|exact H2].
Defined.

(** The ready handlers are not run in the order in which they became ready:
    the last one takes the place of the one that was run (timer 1 expires last
    above, and runs before timer 2). *)
Example not_fifo :
  (fun c : TimerInstance * Z => handler c.1) <$> called sample_state = [3; 1; 2]%nat.
Proof. vm_compute. reflexivity. Qed.

(** A timer that is set while the time goes by: it has not expired when that
    is tested, and it is not in the queue when the expired timers are taken.
    It waits for the next advance, although its time has come. *)
Example set_during_advance :
  let st := run [0; 1; 1; 0; 2; 2; 2]%nat (initial_state 0 1 [[AsyncWait (mkTimer 0 3 1)]; [Advance 4]; [poll_one 0]]) in
  elements (timer_queue_ st) = [mkTimer 0 3 1] /\ fake_time_ st = 4 /\ called st = [].
Proof. vm_compute. done. Qed.
End Timers.
