(* ===== verification/Backoff.v ===== *)
(** * Retrying with exponential backoff

    [async/backoff.hpp].  The action is a parameter: what its n-th call
    returns.  [sleep_impl] is the list of delays the loop has slept. *)

From S2P Require Import Prelude.
Open Scope Z_scope.

(* @ src/batteries/async/backoff.hpp 47-52 RetryState *)
Record RetryState : Type := mkRetry {
  should_retry : bool;
  n_attempts : Z;
  prev_delay_usec : Z;
  next_delay_usec : Z }.

(* @ src/batteries/async/backoff.hpp 57-76 ExponentialBackoff *)
Record ExponentialBackoff : Type := mkBackoff {
  max_attempts : Z;
  initial_delay_usec : Z;
  backoff_factor : Z;
  backoff_divisor : Z;
  max_delay_usec : Z }.

(* @ src/batteries/async/backoff.hpp 78-89 ExponentialBackoff::with_default_params *)
Definition with_default_params : ExponentialBackoff := mkBackoff 40 10 2 1 (250 * 1000).

(** A division by zero is a [Panic]. *)
(* @ src/batteries/async/backoff.hpp 95-111 update_retry_state *)
Definition update_retry_state (state : RetryState) (policy : ExponentialBackoff) : outcome RetryState :=
  if max_attempts policy <=? n_attempts state then
    Done (mkRetry false (n_attempts state) (prev_delay_usec state) (next_delay_usec state))
  else
    let n := u64 (n_attempts state + 1) in
    let prev := next_delay_usec state in
    if n =? 1 then Done (mkRetry true n prev (initial_delay_usec policy))
    else if backoff_divisor policy =? 0 then Panic
    else Done (mkRetry true n prev
                 (Z.min (max_delay_usec policy) (u64 (prev * backoff_factor policy) / backoff_divisor policy))).

Section retry.
Context {Result : Type}.
Variables (is_ok_status status_is_retryable : Result -> bool) (policy : ExponentialBackoff).

(** The result, the number of calls of the action, and the delays slept, from
    call number [n] on; [None] when there is no fuel left. *)
(* @ src/batteries/async/backoff.hpp 138-160 with_retry_policy *)
Fixpoint retry_loop (fuel : nat) (action_fn : nat -> Result) (n : nat) (state : RetryState) (sleeps : list Z)
    : option (outcome (Result * nat * list Z)) :=
  match fuel with
  | O => None
  | S fuel' =>
      let result := action_fn n in
      let done := Some (Done (result, S n, sleeps)) in
      if negb (is_ok_status result) && status_is_retryable result then
        match update_retry_state state policy with
        | Panic => Some Panic
        | Done state =>
            if should_retry state then retry_loop fuel' action_fn (S n) state (sleeps ++ [next_delay_usec state])
            else done
        end
      else done
  end.

(** [RetryState] with its default member initialisers. *)
(* @ src/batteries/async/backoff.hpp 136-142 with_retry_policy *)
Definition with_retry_policy (fuel : nat) (action_fn : nat -> Result) : option (outcome (Result * nat * list Z)) :=
  retry_loop fuel action_fn 0 (mkRetry false 0 0 0) [].

(** ** The delays *)

(** The delay after the (k+1)-th failure. *)
Fixpoint delay (k : nat) : Z :=
  match k with
  | O => initial_delay_usec policy
  | S k' => Z.min (max_delay_usec policy) (delay k' * backoff_factor policy / backoff_divisor policy)
  end.

Definition fails (action_fn : nat -> Result) (n : nat) : bool :=
  negb (is_ok_status (action_fn n)) && status_is_retryable (action_fn n).

(** Policies whose products fit in 64 bits. *)
Record sane : Prop := {
  sane_attempts : 0 <= max_attempts policy < 2 ^ 64;
  sane_initial : 0 <= initial_delay_usec policy;
  sane_divisor : 0 < backoff_divisor policy;
  sane_factor : 0 <= backoff_factor policy;
  sane_max : 0 <= max_delay_usec policy;
  sane_product : Z.max (initial_delay_usec policy) (max_delay_usec policy) * backoff_factor policy < 2 ^ 64 }.

Hypothesis Hsane : sane.

Lemma delay_bounds (k : nat) :
  0 <= delay k <= Z.max (initial_delay_usec policy) (max_delay_usec policy) /\ (k <> O -> delay k <= max_delay_usec policy).
Proof using Hsane.
  destruct Hsane as [H1 H2 H3 H4 H5 H6]. induction k as [|k IH]; simpl; [lia|].
  assert (0 <= delay k * backoff_factor policy / backoff_divisor policy) by (apply Z.div_pos; nia). lia.
Qed.

(** The state after [k] failures that were retried. *)
Definition state_after (k : nat) (st : RetryState) : Prop :=
  n_attempts st = Z.of_nat k /\ (k <> O -> next_delay_usec st = delay (k - 1)).

Lemma update_spec (k : nat) (st : RetryState) :
  state_after k st -> Z.of_nat k <= max_attempts policy ->
  exists st', update_retry_state st policy = Done st' /\
    if Z.of_nat k <? max_attempts policy
    then should_retry st' = true /\ state_after (S k) st' /\ next_delay_usec st' = delay k
    else should_retry st' = false.
Proof using Hsane.
  intros [Hn Hd] Hk. pose proof Hsane as [H1 H2 H3 H4 H5 H6]. unfold update_retry_state. rewrite Hn.
  destruct (Z.of_nat k <? max_attempts policy) eqn:E; bool_cases.
  - rewrite (proj2 (Z.leb_gt _ _)) by lia. rewrite uwrap_small by lia.
    destruct (Z.of_nat k + 1 =? 1) eqn:E1; bool_cases.
    + assert (k = O) as -> by lia. eexists. split; [done|]. by split_and!.
    + rewrite (proj2 (Z.eqb_neq _ _)) by lia. destruct k as [|k]; [lia|].
      rewrite Hd by done. replace (S k - 1)%nat with k by lia. pose proof (delay_bounds k) as [Hb _].
      rewrite uwrap_small by nia. eexists. split; [done|]. unfold state_after. simpl.
      split_and!; [done|lia|done|done].
  - rewrite (proj2 (Z.leb_le _ _)) by lia. by eexists.
Qed.

Lemma retry_loop_spec (action_fn : nat -> Result) (fuel k : nat) (st : RetryState) :
  state_after k st -> Z.of_nat k <= max_attempts policy -> max_attempts policy < Z.of_nat (k + fuel) ->
  (forall j, (j < k)%nat -> fails action_fn j = true) ->
  exists m, retry_loop fuel action_fn k st (delay <$> seq 0 k) = Some (Done (action_fn m, S m, delay <$> seq 0 m)) /\
    Z.of_nat m <= max_attempts policy /\ (forall j, (j < m)%nat -> fails action_fn j = true) /\
    (fails action_fn m = false \/ Z.of_nat m = max_attempts policy).
Proof using Hsane.
  revert k st. induction fuel as [|fuel IH]; intros k st Hst Hk Hf Hfail; [lia|]. cbn [retry_loop].
  fold (fails action_fn k). destruct (fails action_fn k) eqn:E.
  - destruct (update_spec k st Hst Hk) as (st' & -> & Hst'). destruct (Z.of_nat k <? _) eqn:Ek; bool_cases.
    + destruct Hst' as (-> & Hst' & ->).
      replace ((delay <$> seq 0 k) ++ [delay k]) with (delay <$> seq 0 (S k)) by (by rewrite seq_S, fmap_app).
      apply IH; [done|lia|lia|]. intros j Hj. destruct (decide (j = k)) as [->|]; [done|apply Hfail; lia].
    + rewrite Hst'. exists k. split_and!; [done|lia|done|right; lia].
  - exists k. split_and!; [done|lia|done|by left].
Qed.

(** The retry loop ends.  It calls the action until it succeeds, fails with
    a status that is not retryable, or has been retried [max_attempts] times,
    returns the result of the last call, and sleeps between two calls:
    [initial_delay_usec] first, then the previous delay scaled and capped, so
    never more than the larger of the two limits. *)
Theorem retry_bounded (action_fn : nat -> Result) (fuel : nat) :
  max_attempts policy < Z.of_nat fuel ->
  exists m, with_retry_policy fuel action_fn = Some (Done (action_fn m, S m, delay <$> seq 0 m)) /\
    Z.of_nat m <= max_attempts policy /\
    (forall j, (j < m)%nat -> fails action_fn j = true) /\
    (fails action_fn m = false \/ Z.of_nat m = max_attempts policy) /\
    Forall (fun d => 0 <= d <= Z.max (initial_delay_usec policy) (max_delay_usec policy)) (delay <$> seq 0 m).
Proof using Hsane.
  intros Hf. destruct (retry_loop_spec action_fn fuel 0 (mkRetry false 0 0 0)) as (m & H1 & H2 & H3 & H4);
    [by split|by apply Hsane|lia|lia|].
  exists m. split_and!; try done. apply Forall_fmap, list.Forall_forall. intros k _. apply delay_bounds.
Qed.
End retry.

(** Three failures, then success, with the default parameters. *)
Lemma retry_bounded_witness :
  let action n := (3 <=? n)%nat in
  let policy := with_default_params in
  with_retry_policy id negb policy 41 action = Some (Done (true, 4%nat, [10; 20; 40])) /\
  exists m, with_retry_policy id negb policy 41 action = Some (Done (action m, S m, delay policy <$> seq 0 m)) /\
    Z.of_nat m <= 40 /\ (fails id negb action m = false \/ Z.of_nat m = 40).
Proof.
  intros action policy. split; [by vm_compute|].
  destruct (retry_bounded id negb policy) with (action_fn := action) (fuel := 41%nat) as (m & H1 & H2 & _ & H4 & _);
    [split; simpl; lia|by vm_compute|].
  by exists m.
Defined.

(** [max_attempts = 0] means no retry at all. *)
Lemma zero_means_no_retry (f d : Z) (action_fn : nat -> bool) :
  with_retry_policy id negb (mkBackoff 0 1 f d 1) 1 action_fn = Some (Done (action_fn O, 1%nat, [])).
Proof. unfold with_retry_policy. simpl. by destruct (action_fn O). Qed.
