(* ===== verification/RateLimiter.v ===== *)
(** * RateLimiter

    [async/rate_limiter.hpp].  The limit in force at a moment is
    [get_current_upper_bound], the elapsed time multiplied by the rate in
    floating point and truncated; the model takes the values it returns as
    given, one per call, and the theorems assume what a steady clock
    guarantees: they do not decrease. *)

From S2P Require Import Prelude Status.
Open Scope Z_scope.

(* @ src/batteries/async/rate_limiter.hpp 104-113 BasicRateLimiter *)
Record RateLimiter : Type := mkRateLimiter { count_ : Z; burst_ : Z }.

(* @ src/batteries/async/rate_limiter.hpp 27-29 BasicRateLimiter::BasicRateLimiter *)
Definition new_rate_limiter (burst : Z) : RateLimiter := mkRateLimiter 0 burst.

(** A client that has saved up more than a burst loses the excess. *)
(* @ src/batteries/async/rate_limiter.hpp 36-40 BasicRateLimiter::poll *)
Definition forget (current_upper_bound : Z) (r : RateLimiter) : RateLimiter :=
  if burst_ r <? i64 (current_upper_bound - count_ r)
  then mkRateLimiter (i64 (current_upper_bound - burst_ r)) (burst_ r) else r.

(* @ src/batteries/async/rate_limiter.hpp 34-51 BasicRateLimiter::poll *)
Definition poll (current_upper_bound : Z) (r : RateLimiter) : outcome (bool * RateLimiter) :=
  let r := forget current_upper_bound r in
  if count_ r =? current_upper_bound then mret (false, r)
  else
    let r := mkRateLimiter (i64 (count_ r + 1)) (burst_ r) in
    check (count_ r <=? current_upper_bound);; mret (true, r).

(* @ src/batteries/async/rate_limiter.hpp 54-57 BasicRateLimiter::available *)
Definition available (current_upper_bound : Z) (r : RateLimiter) : Z :=
  Z.min (Z.max (i64 (current_upper_bound - count_ r)) 0) (burst_ r).

(** One poll for each value of the upper bound. *)
Fixpoint polls (uppers : list Z) (r : RateLimiter) : outcome (list bool * RateLimiter) :=
  match uppers with
  | [] => mret ([], r)
  | u :: us => '(ok, r) ← poll u r; '(oks, r) ← polls us r; mret (ok :: oks, r)
  end.

(** ** Lemmas *)

(** The state between two polls, the last of which saw [seen]. *)
Definition ready (seen : Z) (r : RateLimiter) : Prop := 0 <= count_ r <= seen /\ 0 <= burst_ r /\ is_i64 (burst_ r).

Definition granted (oks : list bool) : Z := sum ((fun b : bool => if b then 1 else 0) <$> oks).

Lemma forget_spec (seen u : Z) (r : RateLimiter) :
  ready seen r -> seen <= u -> is_i64 u ->
  forget u r = mkRateLimiter (Z.max (count_ r) (u - burst_ r)) (burst_ r).
Proof.
  intros ([Hc1 Hc2] & Hb & Hbi) Hle Hu. unfold is_i64 in *. unfold forget. rewrite !swrap_small by lia.
  destruct (_ <? _) eqn:E; bool_cases; [f_equal; lia|]. destruct r. simpl in *. f_equal. lia.
Qed.

Lemma poll_spec (seen u : Z) (r : RateLimiter) :
  ready seen r -> seen <= u -> is_i64 u ->
  let c := Z.max (count_ r) (u - burst_ r) in
  poll u r = Done (c <? u, mkRateLimiter (if c <? u then c + 1 else c) (burst_ r)) /\ c <= u /\
  ready u (mkRateLimiter (if c <? u then c + 1 else c) (burst_ r)).
Proof.
  intros Hr Hle Hu c. unfold poll. rewrite (forget_spec seen u r Hr Hle Hu). destruct Hr as ([Hc1 Hc2] & Hb & Hbi).
  fold c. cbn [count_ burst_]. assert (c <= u) as Hcu by lia. split_and!; [|done|].
  - unfold is_i64 in *. destruct (c =? u) eqn:E; bool_cases.
    + by rewrite E, Z.ltb_irrefl.
    + rewrite swrap_small by lia. rewrite (proj2 (Z.leb_le (c + 1) u)), (proj2 (Z.ltb_lt c u)) by lia. done.
  - split_and!; cbn [count_ burst_]; try done; destruct (c <? u) eqn:E; bool_cases; lia.
Qed.

Fixpoint nondecreasing (seen : Z) (uppers : list Z) : Prop :=
  match uppers with [] => True | u :: us => seen <= u /\ is_i64 u /\ nondecreasing u us end.

Definition last_upper (seen : Z) (uppers : list Z) : Z := default seen (last uppers).

Lemma last_upper_cons (seen u : Z) (us : list Z) : last_upper seen (u :: us) = last_upper u us.
Proof. unfold last_upper. rewrite last_cons. by destruct (last us). Qed.

(** What is granted is covered by the rise of the count, and what is refused
    was used up. *)
Lemma polls_spec (uppers : list Z) (seen : Z) (r : RateLimiter) :
  ready seen r -> nondecreasing seen uppers ->
  exists oks r', polls uppers r = Done (oks, r') /\ length oks = length uppers /\ burst_ r' = burst_ r /\
    ready (last_upper seen uppers) r' /\ count_ r + granted oks <= count_ r' /\
    (forall u us, uppers = u :: us -> Z.max (count_ r) (u - burst_ r) + granted oks <= count_ r').
Proof.
  revert seen r. induction uppers as [|u us IH]; intros seen r Hr Hu; cbn [polls].
  { exists [], r. split_and!; try done. unfold granted. simpl. unfold sum. simpl. lia. }
  destruct Hu as (Hle & Hi & Hus). destruct (poll_spec seen u r Hr Hle Hi) as (-> & Hcu & Hr'). cbn [mbind outcome_bind].
  destruct (IH u _ Hr' Hus) as (oks & r' & -> & Hl & Hb & Hlast & Hg & _). cbn [mbind outcome_bind]. eexists _, r'. split; [done|].
  assert (Z.max (count_ r) (u - burst_ r) + granted ((Z.max (count_ r) (u - burst_ r) <? u) :: oks) <= count_ r') as Hcount.
  { unfold granted in *. rewrite fmap_cons, sum_cons. cbn [count_] in Hg. destruct (_ <? u); lia. }
  split_and!; [simpl; lia|done| |lia|by intros ? ? [= <- <-]].
  by rewrite last_upper_cons.
Qed.

Lemma nondecreasing_app (us vs : list Z) (seen : Z) :
  nondecreasing seen (us ++ vs) <-> nondecreasing seen us /\ nondecreasing (last_upper seen us) vs.
Proof.
  revert seen. induction us as [|u us IH]; intros seen; simpl; [unfold last_upper; simpl; tauto|].
  rewrite IH, last_upper_cons. tauto.
Qed.

(** Polls that see the same bound. *)
Lemma polls_same (n : nat) (seen u : Z) (r : RateLimiter) :
  ready seen r -> seen <= u -> is_i64 u ->
  exists oks r', polls (replicate n u) r = Done (oks, r') /\
    granted oks = Z.min (Z.of_nat n) (Z.min (u - count_ r) (burst_ r)).
Proof.
  revert seen r. induction n as [|n IH]; intros seen r Hr Hle Hu; cbn [replicate polls].
  { exists [], r. split; [done|]. unfold granted, sum. simpl. destruct Hr. lia. }
  destruct (poll_spec seen u r Hr Hle Hu) as (-> & Hcu & Hr'). cbn [mbind outcome_bind].
  destruct (IH u _ Hr' ltac:(lia) Hu) as (oks & r' & -> & Hg). cbn [mbind outcome_bind count_ burst_] in *.
  eexists _, r'. split; [done|]. unfold granted in *. rewrite fmap_cons, sum_cons, Hg. destruct Hr.
  destruct (_ <? u) eqn:E; bool_cases; lia.
Qed.

(** ** The theorem *)

(** The limiter grants in any stretch of time at most the operations that the
    rate allows for it, and one burst; its check does not fail; and as many
    polls as [available] says succeed at once, and no more. *)
Theorem rate_limit (burst : Z) (before uppers : list Z) :
  0 <= burst -> is_i64 burst -> nondecreasing 0 (before ++ uppers) ->
  exists oks0 r0 oks r, polls before (new_rate_limiter burst) = Done (oks0, r0) /\ polls uppers r0 = Done (oks, r) /\
    (forall u us, uppers = u :: us -> granted oks <= last_upper u uppers - u + burst) /\
    (forall u n, uppers = replicate n u ->
       granted oks = Z.min (Z.of_nat n) (available u r0)).
Proof.
  intros Hb Hi [Hbefore Hus]%nondecreasing_app.
  destruct (polls_spec before 0 (new_rate_limiter burst)) as (oks0 & r0 & E0 & _ & Hb0 & Hr0 & _); [by split_and!|done|].
  simpl in Hb0. destruct (polls_spec uppers _ r0 Hr0 Hus) as (oks & r & E & _ & Hbr & Hr & _ & Hg).
  exists oks0, r0, oks, r. split_and!; [done|done| |].
  - intros u us ->. specialize (Hg u us eq_refl). destruct Hr as ([_ Hc] & _).
    rewrite last_upper_cons in *. lia.
  - intros u n ->. destruct n as [|n].
    + injection E as <- <-. unfold granted, available, sum. simpl. lia.
    + destruct Hus as (Hle & Hu & _). destruct (polls_same (S n) _ u r0 Hr0 Hle Hu) as (oks' & r' & E' & Hg').
      rewrite E in E'. injection E' as <- <-. rewrite Hg'. destruct Hr0 as ([Hc1 Hc2] & _). unfold available, is_i64 in *.
      rewrite swrap_small by lia. lia.
Qed.

(** A burst of 2: three operations at time 10 are too many. *)
Lemma rate_limit_example :
  polls [3; 10; 10; 10; 11] (new_rate_limiter 2) = Done ([true; true; true; false; true], mkRateLimiter 11 2).
Proof. by vm_compute. Qed.
