(* ===== verification/Pin.v ===== *)
(** * Pin: keeping an object alive without owning it

    [async/pin.hpp].  An object counts its pins; its destructor releases the
    pin of the object itself and waits until no other is left.  Threads run
    lists of calls on pins of one object; every access to the count is a step.
    A pin belongs to one thread at a time, which may pass it on; the others
    wait for it.  The object is destroyed by its owner, thread 0, which is
    also the only one that makes pins from the bare pointer. *)

From S2P Require Import Prelude Status.
Open Scope Z_scope.

Inductive Call : Type :=
| MakePin (d : nat)                          (* d = Pin{object} *)
| CopyAssign (d s : nat)
| MoveAssign (d s : nat)
| Release (d : nat)
| Use (d : nat)                              (* d->f() *)
| Give (d : nat) (thread : nat)
| Destroy.

(** [tmp]: the local pin of an assignment. *)
Inductive Pc : Type :=
| Ready
| Swap (d : nat) (tmp : bool)
| Drop (tmp : bool)
| Yielding
| FinalCheck
| UseAfterFree
| CheckFailed.

Inductive Phase : Type := Alive | Destroying | Dead.

(** A pin: the thread it belongs to, and whether it refers to the object. *)
(* @ src/batteries/async/pin.hpp 187-187 Pin *)
Record Pin : Type := mkPin { owner : nat; ptr_ : bool }.

(* @ src/batteries/async/pin.hpp 75-79 Pinnable *)
Record State : Type := mkState {
  pin_count_ : Z;
  phase : Phase;
  pins : list Pin;
  threads : list (Pc * list Call) }.

Definition is_dead (p : Phase) : bool := match p with Dead => true | _ => false end.

Definition goto (i : nat) (pc : Pc) (calls : list Call) (st : State) : State :=
  mkState (pin_count_ st) (phase st) (pins st) (<[i := (pc, calls)]> (threads st)).

Definition set_pin (d : nat) (p : Pin) (st : State) : State :=
  mkState (pin_count_ st) (phase st) (<[d := p]> (pins st)) (threads st).

Definition set_phase (p : Phase) (st : State) : State := mkState (pin_count_ st) p (pins st) (threads st).

(** An access to the count, after which thread [i] continues with [pc]. *)
(* @ src/batteries/async/pin.hpp 65-73 Pinnable::pin, unpin *)
Definition count (delta : Z) (i : nat) (pc : Pc) (calls : list Call) (st : State) : State :=
  if is_dead (phase st) then goto i UseAfterFree calls st
  else goto i pc calls (mkState (pin_count_ st + delta) (phase st) (pins st) (threads st)).

(** The pin [d], if it belongs to thread [i]. *)
Definition own (i d : nat) (st : State) : option bool :=
  match pins st !! d with Some p => if owner p =? i then Some (ptr_ p) else None | None => None end%nat.

(* @ src/batteries/async/pin.hpp 118-173 Pin::Pin, operator=, release *)
Definition call_step (i : nat) (c : Call) (calls : list Call) (st : State) : State :=
  match c with
  | MakePin d => match own i d st with Some _ => count 1 i (Swap d true) (c :: calls) st | None => st end
  | CopyAssign d s =>
      match own i d st, own i s st with
      | Some _, Some true => count 1 i (Swap d true) (c :: calls) st
      | Some _, Some false => goto i (Swap d false) (c :: calls) st
      | _, _ => st
      end
  | MoveAssign d s =>
      match own i d st, own i s st with
      | Some _, Some p => goto i (Swap d p) (c :: calls) (set_pin s (mkPin i false) st)
      | _, _ => st
      end
  | Release d =>
      match own i d st with
      | Some true => count (-1) i Ready calls (set_pin d (mkPin i false) st)
      | Some false => goto i Ready calls st
      | None => st
      end
  | Use d =>
      match own i d st with
      | Some true => count 0 i Ready calls st
      | Some false => goto i Ready calls st
      | None => st
      end
  | Give d j => match own i d st with Some p => goto i Ready calls (set_pin d (mkPin j p) st) | None => st end
  | Destroy =>
      let st' := count (-1) i Yielding (c :: calls) st in
      if is_dead (phase st) then st' else set_phase Destroying st'
  end.

(* @ src/batteries/async/pin.hpp 46-63 Pinnable::~Pinnable *)
Definition destructor_step (i : nat) (pc : Pc) (calls : list Call) (st : State) : State :=
  match pc with
  | Yielding => if 0 <? pin_count_ st then st else goto i FinalCheck calls st
  | FinalCheck =>
      if pin_count_ st =? 0 then goto i Ready (tail calls) (set_phase Dead st) else goto i CheckFailed calls st
  | _ => st
  end.

(** The local pin takes the place of the old one, which is released. *)
(* @ src/batteries/async/pin.hpp 139-161 Pin::operator=, swap *)
Definition swap_step (i : nat) (pc : Pc) (calls : list Call) (st : State) : State :=
  match pc with
  | Swap d tmp =>
      match own i d st with
      | Some p => goto i (Drop p) calls (set_pin d (mkPin i tmp) st)
      | None => st
      end
  | Drop true => count (-1) i Ready (tail calls) st
  | Drop false => goto i Ready (tail calls) st
  | _ => st
  end.

Definition step (i : nat) (st : State) : State :=
  match threads st !! i with
  | Some (Ready, c :: calls) => call_step i c calls st
  | Some (Swap _ _ as pc, calls) | Some (Drop _ as pc, calls) => swap_step i pc calls st
  | Some (pc, calls) => destructor_step i pc calls st
  | None => st
  end.

Definition run (schedule : list nat) (st : State) : State := foldl (fun st i => step i st) st schedule.

(* @ src/batteries/async/pin.hpp 75-79 Pinnable *)
Definition initial_state (owners : list nat) (work : list (list Call)) : State :=
  mkState 1 Alive ((fun o => mkPin o false) <$> owners) ((fun calls => (Ready, calls)) <$> work).

(** What thread [i] may call: only the owner makes pins from the pointer,
    before it destroys the object, and that once. *)
Fixpoint allowed (may_make : bool) (calls : list Call) : bool :=
  match calls with
  | [] => true
  | MakePin _ :: calls => may_make && allowed may_make calls
  | Destroy :: calls => may_make && allowed false calls
  | _ :: calls => allowed may_make calls
  end.

(** ** The invariant *)

Definition alive (p : Phase) : bool := match p with Alive => true | _ => false end.

(** The pins on the way: those of assignments in progress. *)
Definition on_the_way (t : Pc * list Call) : Z :=
  match t.1 with Swap _ true | Drop true => 1 | _ => 0 end.

Definition held (p : Pin) : Z := Z.b2z (ptr_ p).

(** The calls that come after the current one. *)
Definition rest (t : Pc * list Call) : list Call := match t.1 with Ready => t.2 | _ => tail t.2 end.

Definition thread_ok (st : State) (i : nat) (t : Pc * list Call) : Prop :=
  allowed (bool_decide (i = O) && alive (phase st)) (rest t) = true /\
  match t.1 with
  | UseAfterFree | CheckFailed => False
  | Yielding => i = O /\ phase st = Destroying
  | FinalCheck => i = O /\ phase st = Destroying /\ pin_count_ st = 0
  | Swap d _ => exists b, pins st !! d = Some (mkPin i b)
  | _ => True
  end.

Record Inv (st : State) : Prop := {
  inv_count : pin_count_ st = Z.b2z (alive (phase st)) + sum (held <$> pins st) + sum (on_the_way <$> threads st);
  inv_dead : phase st = Dead -> pin_count_ st = 0;
  inv_threads : forall i t, threads st !! i = Some t -> thread_ok st i t }.

Lemma held_nonneg (ps : list Pin) : Forall (fun p => 0 <= held p) ps.
Proof. apply list.Forall_forall. intros [o []] _; unfold held; simpl; lia. Qed.

Lemma way_nonneg (ts : list (Pc * list Call)) : Forall (fun t => 0 <= on_the_way t) ts.
Proof. apply list.Forall_forall. intros [[|d []|[]| | | |] ?] _; unfold on_the_way; simpl; lia. Qed.

Section step.
Context (st : State) (i : nat) (pc : Pc) (calls : list Call).
Hypothesis HI : Inv st.
Hypothesis Hi : threads st !! i = Some (pc, calls).

Lemma pin_sums_nonneg : 0 <= sum (held <$> pins st) /\ 0 <= sum (on_the_way <$> threads st).
Proof using. split; apply sum_nonneg; [apply held_nonneg|apply way_nonneg]. Qed.

(** A thread that holds a pin keeps the count positive. *)
Lemma holder_count (d : nat) : own i d st = Some true -> 0 < pin_count_ st - Z.b2z (alive (phase st)).
Proof using HI.
  intros H. unfold own in H. destruct (pins st !! d) as [p|] eqn:E; [|done]. destruct (_ =? _)%nat; [|done]. injection H as Hp.
  pose proof (sum_lookup_le held _ d p (held_nonneg _) E) as Hle. unfold held in Hle at 1. rewrite Hp in Hle.
  pose proof pin_sums_nonneg. rewrite (inv_count _ HI). simpl in *. lia.
Qed.

Lemma way_count : on_the_way (pc, calls) = 1 -> 0 < pin_count_ st - Z.b2z (alive (phase st)).
Proof using HI Hi.
  intros H. pose proof (sum_lookup_le on_the_way _ i _ (way_nonneg _) Hi) as Hle. rewrite H in Hle.
  pose proof pin_sums_nonneg. rewrite (inv_count _ HI). lia.
Qed.

Lemma own_spec (d : nat) (b : bool) : own i d st = Some b -> pins st !! d = Some (mkPin i b).
Proof using.
  unfold own. destruct (pins st !! d) as [[o p]|]; [|done]. simpl. destruct (Nat.eqb_spec o i) as [->|]; [|done]. by intros [= ->].
Qed.

(** A step of thread [i]. *)
Lemma pin_update (c : Z) (ph : Phase) (ps : list Pin) (pc' : Pc) (calls' : list Call) :
  c - Z.b2z (alive ph) - sum (held <$> ps) - on_the_way (pc', calls') =
    pin_count_ st - Z.b2z (alive (phase st)) - sum (held <$> pins st) - on_the_way (pc, calls) ->
  (ph = Dead -> c = 0) ->
  ph = phase st \/ i = O ->
  (phase st = Destroying -> pin_count_ st = 0 -> i <> O -> c = 0) ->
  (forall d j b, j <> i -> pins st !! d = Some (mkPin j b) -> ps !! d = Some (mkPin j b)) ->
  (let st' := mkState c ph ps (<[i := (pc', calls')]> (threads st)) in thread_ok st' i (pc', calls') -> Inv st').
Proof using HI Hi.
  intros Hc Hd Hph H0 Hps st' Hok. destruct HI as [H1 H2 H3]. split; simpl; [|done|].
  - rewrite (sum_insert on_the_way _ i _ _ Hi). lia.
  - intros j t [[-> ->]|[Hj Ht]]%(list_insert_cases _ i j _ _ t Hi); [done|].
    destruct (H3 j t Ht) as [Ha Hpc]. split.
    + destruct Hph as [->| ->]; [done|]. by rewrite bool_decide_false in * by done.
    + destruct t as [[|d b|b| | | |] cs]; simpl in *; try done.
      * destruct Hpc as [b' Hb]. exists b'. by apply Hps.
      * destruct Hpc as [-> Hp]. split; [done|]. destruct Hph as [->| ->]; [done|by destruct Hj].
      * destruct Hpc as (-> & Hp & Hz). destruct Hph as [->| ->]; [|by destruct Hj]. split_and!; [done|done|]. by apply H0.
Qed.
End step.

Lemma not_dead (st : State) : Inv st -> 0 < pin_count_ st \/ phase st = Alive -> is_dead (phase st) = false.
Proof.
  intros HI H. destruct (phase st) eqn:E; try done. destruct H as [H|H]; [|done]. pose proof (inv_dead _ HI E). lia.
Qed.

Lemma alive_count (st : State) : Inv st -> phase st = Alive -> 0 < pin_count_ st.
Proof.
  intros HI E. pose proof (pin_sums_nonneg st). rewrite (inv_count _ HI), E. simpl. lia.
Qed.

(** The sum after pin [d] of thread [i] has changed. *)
Lemma held_insert (st : State) (i d : nat) (b : bool) (p : Pin) :
  own i d st = Some b -> sum (held <$> <[d := p]> (pins st)) = sum (held <$> pins st) - Z.b2z b + held p.
Proof. intros H%own_spec. by rewrite (sum_insert held _ d _ _ H). Qed.

Lemma own_others (st : State) (i d : nat) (b : bool) (p : Pin) :
  own i d st = Some b -> forall d' j b', j <> i -> pins st !! d' = Some (mkPin j b') -> <[d := p]> (pins st) !! d' = Some (mkPin j b').
Proof.
  intros H%own_spec d' j b' Hj Hd. rewrite list_lookup_insert_ne; [done|]. intros ->. congruence.
Qed.

Lemma allowed_tail (b : bool) (c : Call) (calls : list Call) :
  allowed b (c :: calls) = true ->
  match c with
  | MakePin _ => b = true /\ allowed b calls = true
  | Destroy => b = true /\ allowed false calls = true
  | _ => allowed b calls = true
  end.
Proof. destruct c; simpl; rewrite ?andb_true_iff; tauto. Qed.

Lemma pin_inv_step (i : nat) (st : State) : Inv st -> Inv (step i st).
Proof.
  intros HI. unfold step. destruct (threads st !! i) as [[pc calls]|] eqn:Hi; [|done].
  pose proof (inv_threads _ HI i _ Hi) as [Ha Hok]. pose proof (pin_sums_nonneg st) as [Hn1 Hn2].
  pose proof (pin_update st i pc calls HI Hi) as Hup. pose proof (way_count st i pc calls HI Hi) as Hway.
  pose proof (holder_count st i HI) as Hhold. pose proof (inv_dead _ HI) as Hdead.
  assert (forall c b, own i c st = Some b -> exists b', <[c := mkPin i b]> (pins st) !! c = Some (mkPin i b')) as Hself.
  { intros c b H%own_spec. exists b. apply list_lookup_insert_eq. by eapply lookup_lt_Some. }
  destruct pc as [|d tmp|tmp| | | |]; cbn [rest fst snd] in Ha; simpl in Hok; try done.
  - destruct calls as [|c calls]; [done|]. apply allowed_tail in Ha. unfold call_step.
    destruct c as [d|d s|d s|d|d|d j|].
    + destruct (own i d st) as [b|] eqn:Ed; [|done]. destruct Ha as [Hb Ha]. apply andb_true_iff in Hb as [Hi0 Hal].
      assert (phase st = Alive) as Hph by (by destruct (phase st)). unfold count. rewrite not_dead by auto.
      apply Hup; try done; [unfold on_the_way; simpl; lia|by rewrite Hph|by left|by rewrite Hph|]. split; [done|]. apply own_spec in Ed. by exists b.
    + destruct (own i d st) as [b|] eqn:Ed; [|done]. destruct (own i s st) as [[]|] eqn:Es; [| |done].
      * specialize (Hhold s Es). unfold count. rewrite not_dead by (done || left; destruct (alive _); simpl in *; lia).
        apply Hup; try done; [unfold on_the_way; simpl; lia| |by left| |].
        -- intros E. simpl in E. rewrite (Hdead E), E in Hhold. simpl in Hhold. lia.
        -- intros E Hz. rewrite Hz in Hhold. destruct (alive _); simpl in Hhold; lia.
        -- split; [done|]. apply own_spec in Ed. by exists b.
      * apply Hup; try done; [by left|]. split; [done|]. apply own_spec in Ed. by exists b.
    + destruct (own i d st) as [b|] eqn:Ed; [|done]. destruct (own i s st) as [p|] eqn:Es; [|done].
      apply Hup; try done; [|by left|by apply (own_others st i s p)|].
      * cbn [pins set_pin pin_count_ phase]. rewrite (held_insert st i s p _ Es). unfold held, on_the_way. simpl. destruct p; simpl; lia.
      * split; [done|]. cbn [pins set_pin fst]. destruct (decide (d = s)) as [->|Hne].
        -- exists false. apply list_lookup_insert_eq. apply own_spec in Es. by eapply lookup_lt_Some.
        -- exists b. rewrite list_lookup_insert_ne by done. by apply own_spec.
    + destruct (own i d st) as [[]|] eqn:Ed; [| |done].
      * specialize (Hhold d Ed). unfold count. cbn [phase set_pin]. rewrite not_dead by (done || left; destruct (alive _); simpl in *; lia).
        apply Hup; cbn [pins set_pin pin_count_ phase]; try done; [| |by left| |by apply (own_others st i d true)].
        -- rewrite (held_insert st i d true _ Ed). unfold held, on_the_way. simpl. lia.
        -- intros E. simpl in E. rewrite (Hdead E), E in Hhold. simpl in Hhold. lia.
        -- intros E Hz. rewrite Hz in Hhold. destruct (alive _); simpl in Hhold; lia.
      * apply Hup; try done. by left.
    + destruct (own i d st) as [[]|] eqn:Ed; [| |done].
      * specialize (Hhold d Ed). unfold count. rewrite not_dead by (done || left; destruct (alive _); simpl in *; lia).
        apply Hup; try done; [unfold on_the_way; simpl; lia| |by left|]; intros; rewrite Z.add_0_r; auto.
      * apply Hup; try done. by left.
    + destruct (own i d st) as [p|] eqn:Ed; [|done]. apply Hup; cbn [pins set_pin pin_count_ phase]; try done; [|by left|by apply (own_others st i d p)].
      rewrite (held_insert st i d p _ Ed). unfold held, on_the_way. simpl. lia.
    + destruct Ha as [Hb Ha]. apply andb_true_iff in Hb as [Hi0 Hal]. apply bool_decide_eq_true in Hi0.
      assert (phase st = Alive) as Hph by (by destruct (phase st)). pose proof (alive_count st HI Hph).
      unfold count. rewrite !not_dead by auto.
      apply Hup; try done; [|by right|].
      * unfold on_the_way. simpl. rewrite Hph. simpl. lia.
      * split; [by rewrite andb_false_r|done].
  - cbn [swap_step]. destruct (own i d st) as [p|] eqn:Ed; [|done].
    apply Hup; cbn [pins set_pin pin_count_ phase]; try done; [|by left|by apply (own_others st i d p)].
    rewrite (held_insert st i d p _ Ed). unfold held, on_the_way. simpl. destruct p, tmp; simpl; lia.
  - destruct tmp; cbn [swap_step].
    + specialize (Hway eq_refl). unfold count. rewrite not_dead by (done || left; destruct (alive _); simpl in *; lia).
      apply Hup; try done; [unfold on_the_way; simpl; lia| |by left|].
      * intros E. simpl in E. rewrite (Hdead E), E in Hway. simpl in Hway. lia.
      * intros E Hz. rewrite Hz in Hway. destruct (alive _); simpl in Hway; lia.
    + apply Hup; try done. by left.
  - cbn [destructor_step]. destruct (0 <? pin_count_ st) eqn:E; [done|]. bool_cases. destruct Hok as [-> Hph].
    apply Hup; try done; [by left|]. split; [done|]. split_and!; [done|done|]. rewrite (inv_count _ HI), Hph in *. simpl in *. lia.
  - cbn [destructor_step]. destruct Hok as (-> & Hph & Hz). rewrite Hz. simpl. apply Hup; simpl; try done; [|by right|].
    + unfold on_the_way. rewrite Hph. simpl. lia.
    + split; [|done]. by rewrite Hph in Ha.
Qed.

Lemma pin_run_inv (schedule : list nat) (st : State) : Inv st -> Inv (run schedule st).
Proof. revert st. induction schedule as [|i schedule IH]; simpl; intros st H; [done|]. by apply IH, pin_inv_step. Qed.

(** The first thread owns the object; the others only work with the pins they
    are given. *)
Definition owner_makes_pins (work : list (list Call)) : Prop :=
  forall i calls, work !! i = Some calls -> allowed (bool_decide (i = O)) calls = true.

Lemma initial_inv (owners : list nat) (work : list (list Call)) :
  owner_makes_pins work -> Inv (initial_state owners work).
Proof.
  intros H. split; simpl.
  - rewrite !sum_all_zero; [done| |].
    + intros j t (calls & -> & _)%list_lookup_fmap_Some. done.
    + intros j p (o & -> & _)%list_lookup_fmap_Some. done.
  - done.
  - intros i t (calls & -> & Hc)%list_lookup_fmap_Some. split; [|done]. rewrite andb_true_r. by apply H.
Qed.

(** What the pins promise in a state: no access to the object after it is
    gone and the assertion of the destructor holds; the count is exact; once
    the destructor has returned no pin refers to the object, and the
    destructor returns at the next turns of its thread when there are none. *)
Definition pins_keep (st : State) : Prop :=
  (forall i pc calls, threads st !! i = Some (pc, calls) -> pc <> UseAfterFree /\ pc <> CheckFailed) /\
  pin_count_ st = Z.b2z (alive (phase st)) + sum (held <$> pins st) + sum (on_the_way <$> threads st) /\
  (phase st = Dead -> (forall p, p ∈ pins st -> ptr_ p = false) /\ (forall t, t ∈ threads st -> on_the_way t = 0)) /\
  (forall calls, threads st !! O = Some (Yielding, calls) ->
    (forall p, p ∈ pins st -> ptr_ p = false) -> (forall t, t ∈ threads st -> on_the_way t = 0) ->
    phase (step 0 (step 0 st)) = Dead).

Lemma inv_pins_keep (st : State) : Inv st -> pins_keep st.
Proof.
  intros HI. pose proof (pin_sums_nonneg st) as [Hn1 Hn2]. pose proof (inv_count _ HI) as Hc. split_and!.
  - intros i pc calls Hi. destruct (inv_threads _ HI i _ Hi) as [_ Hok]. by destruct pc.
  - done.
  - intros Hd. pose proof (inv_dead _ HI Hd) as Hz. rewrite Hz, Hd in Hc. simpl in Hc. split.
    + intros p [d Hp]%list_elem_of_lookup_1. pose proof (sum_lookup_le held _ d p (held_nonneg _) Hp).
      destruct p as [o []]; unfold held in *; simpl in *; [lia|done].
    + intros t Ht. pose proof (list_elem_of_lookup_1 _ _ Ht) as [i Hi].
      pose proof (sum_lookup_le on_the_way _ i t (way_nonneg _) Hi).
      pose proof (way_nonneg (threads st)) as Hw. rewrite list.Forall_forall in Hw. specialize (Hw t Ht). simpl in Hw. lia.
  - intros calls Hi Hp Hw. destruct (inv_threads _ HI O _ Hi) as [_ Hok]. simpl in Hok. destruct Hok as [_ Hph].
    rewrite Hph in Hc. rewrite (sum_all_zero held), (sum_all_zero on_the_way) in Hc; [|intros j t Ht%list_elem_of_lookup_2; by apply Hw|]; last first.
    { intros j p Hin%list_elem_of_lookup_2%Hp. unfold held. by rewrite Hin. }
    simpl in Hc. unfold step at 2. rewrite Hi. cbn [destructor_step]. rewrite Hc. simpl.
    unfold step. simpl. rewrite list_lookup_insert_eq by (by eapply lookup_lt_Some). cbn [destructor_step].
    simpl. rewrite Hc. done.
Qed.

(** C30: pins and the destructor, under any interleaving of the threads, any
    passing of pins between them and any assignments and releases: if only
    the owner makes pins from the bare pointer, and none after it has
    started to destroy the object, then no pin is used after the object is
    gone, the count is the object's own pin, the pins held and the ones on
    the way, no pin is left when the destructor returns, and it returns when
    there is none. *)
Theorem pin_safe (owners schedule : list nat) (work : list (list Call)) :
  owner_makes_pins work -> pins_keep (run schedule (initial_state owners work)).
Proof. intros H. by apply inv_pins_keep, pin_run_inv, initial_inv. Qed.

(** The owner makes a pin, gives it to thread 1 and destroys the object. *)
Definition sample_work : list (list Call) := [[MakePin 0; Give 0 1; Destroy]; [Use 0; CopyAssign 1 0; Release 0; Use 1; Release 1]].

Lemma pin_safe_witness : pins_keep (run [0; 0; 0; 0; 1; 0; 0; 1; 1]%nat (initial_state [0; 1]%nat sample_work)).
Proof. apply (pin_safe [0; 1]%nat [0; 0; 0; 0; 1; 0; 0; 1; 1]%nat sample_work). intros [|[|[|i]]] calls [= <-]; reflexivity. Defined.

(** The destructor waits for thread 1 and returns after its last release. *)
Example destructor_waits :
  let st := run ([0; 0; 0; 0; 0; 0; 0; 1; 1; 1; 1; 1; 1; 0; 0])%nat (initial_state [0; 1]%nat sample_work) in
  let st' := run [1; 0; 0]%nat st in (pin_count_ st, phase st, pin_count_ st', phase st') = (1, Destroying, 0, Dead).
Proof. reflexivity. Qed.

(** A pin made from the bare pointer by another thread is too late: the
    destructor has returned. *)
Example late_pin :
  let st := run [0; 0; 0; 1]%nat (initial_state [0; 1]%nat [[Destroy]; [MakePin 1]]) in
  threads st !! 1%nat = Some (UseAfterFree, [MakePin 1]).
Proof. reflexivity. Qed.
