(* ===== verification/StreamBuffer.v ===== *)
(** * StreamBuffer: a bounded byte stream

    [async/stream_buffer.hpp], [async/stream_buffer_impl.hpp].  One producer
    ([write_all], [close_for_write]) and one consumer ([fetch_at_least],
    [consume], [close_for_read]) run concurrently.  The two positions are
    [Cell]s; the producer copies one byte per step, and the consumer reads the
    fetched memory later than it fetched it, so that the ring is really
    shared.  Positions stay below 2^63. *)

From S2P Require Import Prelude Status Watch WatchCell.
Open Scope Z_scope.

(** A [ConstBuffer] or [MutableBuffer] into the ring, or the temporary buffer. *)
Inductive Buffer : Type :=
| InRing (offset len : nat)
| InTmp (data : list Z).

Definition buffer_size (b : Buffer) : Z :=
  match b with InRing _ len => Z.of_nat len | InTmp data => Z.of_nat (length data) end.

Definition contents (mem : list Z) (b : Buffer) : list Z :=
  match b with InRing off len => (fun i => mem !!! i) <$> seq off len | InTmp data => data end.

Definition all_contents (mem : list Z) (bufs : list Buffer) : list Z := concat (contents mem <$> bufs).

(** The bytes of the ring a buffer refers to. *)
Definition indices (b : Buffer) : list nat := match b with InRing off len => seq off len | InTmp _ => [] end.

Definition all_indices (bufs : list Buffer) : list nat := concat (indices <$> bufs).

Section stream.
Context (capacity : Z).

(* @ src/batteries/async/stream_buffer_impl.hpp 177-200 StreamBuffer::get_buffers *)
Definition get_buffers (offset count : Z) : outcome (list Buffer) :=
  check (0 <=? offset) ;;
  let first_begin := offset mod capacity in
  check (first_begin <? capacity) ;;
  let first_to_end := capacity - first_begin in
  if count <=? first_to_end then
    check (0 <=? count) ;;
    Done [InRing (Z.to_nat first_begin) (Z.to_nat count)]
  else
    check (0 <=? first_to_end) ;;
    Done [InRing (Z.to_nat first_begin) (Z.to_nat first_to_end); InRing 0 (Z.to_nat (count - first_to_end))].

(** [size()], with the check of the cast; [space()]. *)
(* @ src/batteries/async/stream_buffer_impl.hpp 38-48 StreamBuffer::size, space *)
Definition size (commit consume : Z) : outcome Z := check (0 <=? commit - consume) ;; Done (commit - consume).
Definition space (commit consume : Z) : outcome Z := n ← size commit consume; Done (capacity - n).

(** The first buffer is made to hold at least [min_count] bytes. *)
(* @ src/batteries/async/stream_buffer_impl.hpp 132-148 StreamBuffer::fetch_at_least *)
Definition fix_first (mem : list Z) (min_count : Z) (bufs : list Buffer) : outcome (list Buffer) :=
  match bufs with
  | front :: (InRing off len) :: more =>
      if buffer_size front <? min_count then
        let tmp := take (Z.to_nat min_count) (all_contents mem bufs) in
        check (Z.of_nat (length tmp) =? min_count) ;;
        check (match more with [] => true | _ => false end) ;;
        let skip := Z.to_nat (min_count - buffer_size front) in
        let back := InRing (off + skip) (len - skip) in
        Done (InTmp tmp :: (if buffer_size back =? 0 then [] else [back]))
      else Done bufs
  | _ => Done bufs
  end.

(** What the two sides are asked to do. *)
Inductive WriteOp : Type := WriteAll (data : list Z) | CloseForWrite.
Inductive ReadOp : Type := Read (min_count : nat) (want : nat) | CloseForRead.

(** The producer: [rest] are the operations still to come. *)
Inductive Producer : Type :=
| PIdle (rest : list WriteOp)
| PLoop (data : list Z) (rest : list WriteOp)
| PAwait (target observed : Z) (data : list Z) (rest : list WriteOp)
| PSleep (target last_seen : Z) (data : list Z) (rest : list WriteOp)
| PReady (data : list Z) (rest : list WriteOp)
| PCopy (todo : list (nat * Z)) (n : nat) (data : list Z) (rest : list WriteOp)
| PCommit (n : nat) (data : list Z) (rest : list WriteOp)
| PFailed (s : StatusCode)
| PPanic.

(** The consumer: a read of at least [min] bytes, of which it consumes [want]
    or as many as there are. *)
Inductive Consumer : Type :=
| CIdle (rest : list ReadOp)
| CStart (min want : nat) (rest : list ReadOp)
| CAwait (target observed : Z) (min want : nat) (rest : list ReadOp)
| CSleep (target last_seen : Z) (min want : nat) (rest : list ReadOp)
| CReady (min want : nat) (rest : list ReadOp)
| CFix (bufs : list Buffer) (min want : nat) (rest : list ReadOp)
| CUse (bufs : list Buffer) (min want : nat) (rest : list ReadOp)
| CConsume (bytes : list Z) (rest : list ReadOp)
| CFailed (min : nat) (s : StatusCode)
| CPanic.

(** [written], [consumed]: the bytes committed and consumed so far (not in
    the program). *)
(* @ src/batteries/async/stream_buffer.hpp 179-200 StreamBuffer *)
Record State : Type := mkState {
  buffer_ : list Z;
  consume_pos_ : Cell;
  commit_pos_ : Cell;
  producer : Producer;
  consumer : Consumer;
  written : list Z;
  consumed : list Z }.

Definition with_producer (st : State) (p : Producer) : State :=
  mkState (buffer_ st) (consume_pos_ st) (commit_pos_ st) p (consumer st) (written st) (consumed st).
Definition with_consumer (st : State) (c : Consumer) : State :=
  mkState (buffer_ st) (consume_pos_ st) (commit_pos_ st) (producer st) c (written st) (consumed st).

(** The result of waiting on [c], as the schedule chooses it; [None]: the
    waiter stays asleep. *)
Definition wake (c : Cell) (choice : option nat) : option (StatusOr Z) :=
  match choice with
  | Some k => OkVal <$> (cell_past c !! k)
  | None => Err <$> cell_final c
  end.

(** The predicate of the wait. *)
(* @ src/batteries/async/stream_buffer_impl.hpp 228-230 StreamBuffer::pre_transfer *)
Definition enough (target observed : Z) : bool := target <=? observed.

(** An error of the wait counts only if it is not the end of the stream or
    there is not enough. *)
(* @ src/batteries/async/stream_buffer_impl.hpp 231-235 StreamBuffer::pre_transfer *)
Definition wait_failed (moving : Cell) (target : Z) (s : StatusCode) : bool :=
  negb (match s with kEndOfStream => true | _ => false end) || (cell_value moving <? target).

(* @ src/batteries/async/stream_buffer_impl.hpp 68-110 StreamBuffer::prepare_at_least, commit, write_all, close_for_write *)
Definition producer_step (choice : option nat) (st : State) : State :=
  let commit := cell_value (commit_pos_ st) in
  match producer st with
  | PIdle [] => st
  | PIdle (WriteAll data :: rest) => with_producer st (PLoop data rest)
  | PIdle (CloseForWrite :: rest) =>
      mkState (buffer_ st) (consume_pos_ st) (close kEndOfStream (commit_pos_ st)) (PIdle rest) (consumer st)
        (written st) (consumed st)
  | PLoop [] rest => with_producer st (PIdle rest)
  | PLoop data rest =>
      with_producer st
        (if capacity <? 1 then PFailed kInvalidArgument
         else PAwait (commit + (1 - capacity)) (cell_value (consume_pos_ st)) data rest)
  | PAwait target observed data rest =>
      with_producer st (if enough target observed then PReady data rest else PSleep target observed data rest)
  | PSleep target _ data rest =>
      match wake (consume_pos_ st) choice with
      | None => st
      | Some (OkVal v) => with_producer st (PAwait target v data rest)
      | Some (Err s) =>
          with_producer st (if wait_failed (consume_pos_ st) target s then PFailed s else PReady data rest)
      end
  | PReady data rest =>
      with_producer st
        match (n ← space commit (cell_value (consume_pos_ st)); get_buffers commit n) with
        | Done bufs => let todo := zip (all_indices bufs) data in PCopy todo (length todo) data rest
        | Panic => PPanic
        end
  | PCopy ((i, x) :: todo) n data rest =>
      mkState (<[i := x]> (buffer_ st)) (consume_pos_ st) (commit_pos_ st) (PCopy todo n data rest) (consumer st)
        (written st) (consumed st)
  | PCopy [] n data rest => with_producer st (PCommit n data rest)
  | PCommit n data rest =>
      mkState (buffer_ st) (consume_pos_ st) (cell_apply (CellRmw (FetchAdd (Z.of_nat n))) (commit_pos_ st))
        (PLoop (drop n data) rest) (consumer st) (written st ++ take n data) (consumed st)
  | _ => st
  end.

(* @ src/batteries/async/stream_buffer_impl.hpp 114-165 StreamBuffer::fetch_at_least, consume, close_for_read *)
Definition consumer_step (choice : option nat) (st : State) : State :=
  let consume := cell_value (consume_pos_ st) in
  match consumer st with
  | CIdle [] => st
  | CIdle (Read min want :: rest) => with_consumer st (CStart min want rest)
  | CIdle (CloseForRead :: rest) =>
      mkState (buffer_ st) (close kClosed (consume_pos_ st)) (commit_pos_ st) (producer st) (CIdle rest)
        (written st) (consumed st)
  | CStart min want rest =>
      with_consumer st
        (if capacity <? Z.of_nat min then CFailed min kInvalidArgument
         else CAwait (consume + Z.of_nat min) (cell_value (commit_pos_ st)) min want rest)
  | CAwait target observed min want rest =>
      with_consumer st (if enough target observed then CReady min want rest else CSleep target observed min want rest)
  | CSleep target _ min want rest =>
      match wake (commit_pos_ st) choice with
      | None => st
      | Some (OkVal v) => with_consumer st (CAwait target v min want rest)
      | Some (Err s) =>
          with_consumer st (if wait_failed (commit_pos_ st) target s then CFailed min s else CReady min want rest)
      end
  | CReady min want rest =>
      with_consumer st
        match (n ← size (cell_value (commit_pos_ st)) consume; get_buffers consume n) with
        | Done bufs => CFix bufs min want rest
        | Panic => CPanic
        end
  | CFix bufs min want rest =>
      with_consumer st
        match fix_first (buffer_ st) (Z.of_nat min) bufs with
        | Done bufs => CUse bufs min want rest
        | Panic => CPanic
        end
  | CUse bufs min want rest => with_consumer st (CConsume (take want (all_contents (buffer_ st) bufs)) rest)
  | CConsume bytes rest =>
      mkState (buffer_ st) (cell_apply (CellRmw (FetchAdd (Z.of_nat (length bytes)))) (consume_pos_ st)) (commit_pos_ st)
        (producer st) (CIdle rest) (written st) (consumed st ++ bytes)
  | _ => st
  end.

Definition step (who : bool) (choice : option nat) (st : State) : State :=
  if who then producer_step choice st else consumer_step choice st.

Definition run (schedule : list (bool * option nat)) (st : State) : State :=
  foldl (fun st wc => step wc.1 wc.2 st) st schedule.

(** [buffer]: the uninitialised memory. *)
(* @ src/batteries/async/stream_buffer_impl.hpp 14-20 StreamBuffer::StreamBuffer *)
Definition initial_state (buffer : list Z) (writes : list WriteOp) (reads : list ReadOp) : State :=
  mkState buffer (new_cell 0) (new_cell 0) (PIdle writes) (CIdle reads) [] [].
(** ** The ring *)

(** The place of a stream position in the ring. *)
Definition cidx (pos : Z) : nat := Z.to_nat (pos mod capacity).

Definition cidxs (pos : Z) (n : nat) : list nat := (fun j => cidx (pos + Z.of_nat j)) <$> seq 0 n.

Hypothesis Hcap : 0 < capacity.

Lemma mod_add (pos j : Z) :
  0 <= pos -> 0 <= j <= capacity ->
  (pos + j) mod capacity =
  if pos mod capacity + j <? capacity then pos mod capacity + j else pos mod capacity + j - capacity.
Proof.
  intros Hp Hj. pose proof (Z.div_mod pos capacity). pose proof (Z.mod_pos_bound pos capacity).
  destruct (_ <? _) eqn:E; bool_cases; symmetry.
  - apply (Z.mod_unique_pos _ _ (pos / capacity)); lia.
  - apply (Z.mod_unique_pos _ _ (pos / capacity + 1)); lia.
Qed.

Lemma cidx_inj (p q : Z) : 0 <= p < q -> q < p + capacity -> cidx p <> cidx q.
Proof.
  intros Hp Hq E. unfold cidx in E.
  pose proof (Z.mod_pos_bound p capacity). pose proof (Z.mod_pos_bound q capacity).
  assert (p mod capacity = q mod capacity) as E' by lia.
  pose proof (Z.div_mod p capacity) as Hp'. pose proof (Z.div_mod q capacity) as Hq'.
  assert (q - p = capacity * (q / capacity - p / capacity)) by lia.
  destruct (Z.le_gt_cases (q / capacity - p / capacity) 0); nia.
Qed.

Lemma cidx_bound (p : Z) : (cidx p < Z.to_nat capacity)%nat.
Proof. unfold cidx. pose proof (Z.mod_pos_bound p capacity). lia. Qed.

Lemma seq_map_ext {A} (f g : nat -> A) (a b n : nat) :
  (forall j, (j < n)%nat -> f (a + j)%nat = g (b + j)%nat) -> f <$> seq a n = g <$> seq b n.
Proof.
  revert a b. induction n as [|n IH]; intros a b H; [done|]. simpl. f_equal.
  - specialize (H O). rewrite !Nat.add_0_r in H. apply H. lia.
  - apply IH. intros j Hj. specialize (H (S j)). rewrite !Nat.add_succ_r in H. apply H. lia.
Qed.

(** The buffers for [count] bytes from [offset] on are the places of these
    positions in order: one buffer, or two when they wrap around. *)
Lemma get_buffers_spec (offset count : Z) :
  0 <= offset -> 0 <= count <= capacity ->
  exists bufs, get_buffers offset count = Done bufs /\ all_indices bufs = cidxs offset (Z.to_nat count) /\
    (forall mem, all_contents mem bufs = (fun i => mem !!! i) <$> cidxs offset (Z.to_nat count)) /\
    ((exists o l, bufs = [InRing o l]) \/ (exists o l o' l', bufs = [InRing o l; InRing o' l'])).
Proof.
  intros Ho Hc. unfold get_buffers. pose proof (Z.mod_pos_bound offset capacity) as Hm.
  rewrite (proj2 (Z.leb_le 0 offset)), (proj2 (Z.ltb_lt (offset mod capacity) capacity)) by lia. simpl.
  set (r := offset mod capacity) in *. destruct (count <=? capacity - r) eqn:E; bool_cases.
  - rewrite (proj2 (Z.leb_le 0 count)) by lia. simpl.
    assert (seq (Z.to_nat r) (Z.to_nat count) = cidxs offset (Z.to_nat count)) as Hidx.
    { unfold cidxs. rewrite <- (list_fmap_id (seq (Z.to_nat r) _)). apply seq_map_ext. intros j Hj. simpl.
      unfold cidx. rewrite mod_add by lia. fold r. rewrite (proj2 (Z.ltb_lt _ _)) by lia. lia. }
    eexists. split; [done|]. unfold all_indices, all_contents. simpl. rewrite !app_nil_r, Hidx.
    split_and!; [done| |left; by eexists _, _]. intros mem. by rewrite app_nil_r.
  - rewrite (proj2 (Z.leb_le 0 _)) by lia. simpl.
    assert (seq (Z.to_nat r) (Z.to_nat (capacity - r)) ++ seq 0 (Z.to_nat (count - (capacity - r)))
      = cidxs offset (Z.to_nat count)) as Hidx.
    { unfold cidxs. replace (Z.to_nat count) with (Z.to_nat (capacity - r) + Z.to_nat (count - (capacity - r)))%nat by lia.
      rewrite seq_app, fmap_app. f_equal.
      - rewrite <- (list_fmap_id (seq (Z.to_nat r) _)). apply seq_map_ext. intros j Hj. simpl.
        unfold cidx. rewrite mod_add by lia. fold r. rewrite (proj2 (Z.ltb_lt _ _)) by lia. lia.
      - rewrite <- (list_fmap_id (seq 0 (Z.to_nat (count - (capacity - r))))) at 1. apply seq_map_ext. intros j Hj. simpl.
        unfold cidx. rewrite mod_add by lia. fold r. rewrite (proj2 (Z.ltb_ge _ _)) by lia. lia. }
    eexists. split; [done|]. unfold all_indices, all_contents. simpl. rewrite !app_nil_r, Hidx.
    split_and!; [done| |right; by eexists _, _, _, _]. intros mem. by rewrite app_nil_r, <- fmap_app, Hidx.
Qed.

(** Reading depends only on the places read. *)
Lemma contents_insert (mem : list Z) (bufs : list Buffer) (i : nat) (x : Z) :
  i ∉ all_indices bufs -> all_contents (<[i := x]> mem) bufs = all_contents mem bufs.
Proof.
  induction bufs as [|b bufs IH]; [done|]. unfold all_indices, all_contents. rewrite !fmap_cons. cbn [concat].
  intros Hi. apply not_elem_of_app in Hi as [Hb Hi]. f_equal; [|by apply IH]. destruct b as [off len|data]; [|done].
  simpl in *. apply list_fmap_ext. intros k j Hk. apply list_elem_of_lookup_2 in Hk.
  destruct (decide (i = j)) as [->|Hne]; [done|]. by rewrite list_lookup_total_insert_ne.
Qed.

(** The rearrangement of [fetch_at_least] keeps the bytes and makes the first
    buffer long enough. *)
Lemma fix_first_spec (mem : list Z) (min : Z) (bufs : list Buffer) :
  0 <= min <= Z.of_nat (length (all_contents mem bufs)) ->
  ((exists o l, bufs = [InRing o l]) \/ (exists o l o' l', bufs = [InRing o l; InRing o' l'])) ->
  exists bufs', fix_first mem min bufs = Done bufs' /\ all_contents mem bufs' = all_contents mem bufs /\
    (forall i, i ∈ all_indices bufs' -> i ∈ all_indices bufs) /\
    (exists b more, bufs' = b :: more /\ min <= buffer_size b).
Proof.
  intros Hmin [(o & l & ->)|(o & l & o' & l' & ->)]; simpl.
  - eexists. split_and!; [done|done|done|]. eexists _, _. split; [done|]. unfold all_contents in Hmin.
    simpl in Hmin. rewrite app_nil_r, length_fmap, length_seq in Hmin. simpl. lia.
  - unfold all_contents in *. simpl in Hmin.
    rewrite app_nil_r, length_app, !length_fmap, !length_seq in Hmin.
    destruct (Z.of_nat l <? min) eqn:E; bool_cases; cycle 1.
    { eexists. split_and!; [done|done|done|]. eexists _, _. split; [done|]. simpl. lia. }
    cbn [fmap list_fmap concat contents].
    set (all := (fun i => mem !!! i) <$> seq o l) in *.
    assert (length (take (Z.to_nat min) (all ++ ((fun i => mem !!! i) <$> seq o' l') ++ [])) = Z.to_nat min) as Hlen.
    { rewrite app_nil_r, length_take, length_app. unfold all. rewrite !length_fmap, !length_seq. lia. }
    rewrite Hlen, Z2Nat.id, Z.eqb_refl by lia. cbn [check mbind outcome_bind]. eexists. split; [done|].
    set (skip := Z.to_nat (min - Z.of_nat l)).
    assert (take (Z.to_nat min) (all ++ ((fun i => mem !!! i) <$> seq o' l') ++ []) ++ ((fun i => mem !!! i) <$> seq (o' + skip) (l' - skip))
      = all ++ ((fun i => mem !!! i) <$> seq o' l') ++ []) as Hc.
    { rewrite app_nil_r, take_app_ge by (unfold all; rewrite length_fmap, length_seq; lia).
      rewrite <- app_assoc. f_equal. unfold all. rewrite length_fmap, length_seq.
      replace (Z.to_nat min - l)%nat with skip by lia.
      assert (seq o' l' = seq o' skip ++ seq (o' + skip) (l' - skip)) as ->
        by (rewrite <- seq_app; f_equal; unfold skip; lia).
      rewrite fmap_app, take_app_le, take_ge by (rewrite length_fmap, length_seq; lia). done. }
    split_and!.
    + etransitivity; [|exact Hc]. destruct (_ =? 0) eqn:El; cbn [fmap list_fmap concat contents];
        rewrite ?app_nil_r; [|done]. bool_cases. cbn [buffer_size] in El.
      assert (l' - skip = 0)%nat as -> by lia. by rewrite app_nil_r.
    + intros i. unfold all_indices. destruct (_ =? 0); simpl; rewrite ?app_nil_r.
      * by intros ?%elem_of_nil.
      * rewrite elem_of_app, !elem_of_seq. unfold skip. lia.
    + eexists _, _. split; [done|]. simpl. rewrite app_nil_r in Hlen. simpl. unfold all_contents. simpl.
      rewrite app_nil_r. fold all. rewrite Hlen. lia.
Qed.
(** ** The invariant *)

Definition write_data (ops : list WriteOp) : list Z :=
  concat ((fun op => match op with WriteAll data => data | CloseForWrite => [] end) <$> ops).

(** The bytes the producer has still to write; [None] when it has given up. *)
Definition remaining (p : Producer) : option (list Z) :=
  match p with
  | PIdle rest => Some (write_data rest)
  | PLoop data rest | PAwait _ _ data rest | PSleep _ _ data rest | PReady data rest
  | PCopy _ _ data rest | PCommit _ data rest => Some (data ++ write_data rest)
  | PFailed _ | PPanic => None
  end.

Section invariant.
Context (all : list Z).
Hypothesis Hall : Z.of_nat (length all) < 2 ^ 63.

Definition producer_ok (R W : Z) (mem : list Z) (p : Producer) : Prop :=
  match p with
  | PAwait target observed data _ => data <> [] /\ target = W + (1 - capacity) /\ observed <= R
  | PSleep target last data _ => data <> [] /\ target = W + (1 - capacity) /\ last < target
  | PReady data _ => data <> [] /\ W + (1 - capacity) <= R
  | PCopy todo n data _ =>
      (0 < n <= length data)%nat /\ W + Z.of_nat n <= R + capacity /\
      exists k, (k + length todo = n)%nat /\ todo = drop k (zip (cidxs W n) (take n data)) /\
        forall j, (j < k)%nat -> mem !!! cidx (W + Z.of_nat j) = data !!! j
  | PCommit n data _ =>
      (0 < n <= length data)%nat /\ W + Z.of_nat n <= R + capacity /\
      forall j, (j < n)%nat -> mem !!! cidx (W + Z.of_nat j) = data !!! j
  | PPanic => False
  | _ => True
  end.

Definition consumer_ok (R W : Z) (mem wr : list Z) (c : Consumer) : Prop :=
  match c with
  | CAwait target observed min _ _ => target = R + Z.of_nat min /\ observed <= W /\ Z.of_nat min <= capacity
  | CSleep target last min _ _ => target = R + Z.of_nat min /\ last < target /\ Z.of_nat min <= capacity
  | CReady min _ _ => R + Z.of_nat min <= W
  | CFix bufs min _ _ => exists n, R + n <= W /\ Z.of_nat min <= n /\ get_buffers R n = Done bufs
  | CUse bufs min _ _ =>
      (exists n, R + Z.of_nat n <= W /\ (min <= n)%nat /\ all_contents mem bufs = take n (drop (Z.to_nat R) wr)) /\
      (forall i, i ∈ all_indices bufs -> exists q, R <= q < W /\ i = cidx q) /\
      exists b more, bufs = b :: more /\ Z.of_nat min <= buffer_size b
  | CConsume bytes _ =>
      R + Z.of_nat (length bytes) <= W /\ bytes = take (length bytes) (drop (Z.to_nat R) wr)
  | CPanic => False
  | _ => True
  end.

Abbreviation R st := (cell_value (consume_pos_ st)).
Abbreviation W st := (cell_value (commit_pos_ st)).

Record Inv (st : State) : Prop := {
  inv_buffer : length (buffer_ st) = Z.to_nat capacity;
  inv_pos : 0 <= R st <= W st /\ W st <= R st + capacity;
  inv_written : Z.of_nat (length (written st)) = W st;
  inv_consumed : consumed st = take (Z.to_nat (R st)) (written st);
  inv_ring : forall q, R st <= q < W st -> buffer_ st !!! cidx q = written st !!! Z.to_nat q;
  inv_past : Forall (fun v => v <= R st) (cell_past (consume_pos_ st)) /\
             Forall (fun v => v <= W st) (cell_past (commit_pos_ st));
  inv_source : exists rem, written st ++ rem = all /\
    match remaining (producer st) with Some r => rem = r | None => True end;
  inv_producer : producer_ok (R st) (W st) (buffer_ st) (producer st);
  inv_consumer : consumer_ok (R st) (W st) (buffer_ st) (written st) (consumer st) }.

Lemma source_bound (st : State) (data : list Z) (rest : list WriteOp) :
  Inv st -> remaining (producer st) = Some (data ++ write_data rest) ->
  W st + Z.of_nat (length data) <= Z.of_nat (length all).
Proof.
  intros HI E. destruct (inv_source _ HI) as (rem & <- & Hr). rewrite E in Hr. subst rem.
  rewrite <- (inv_written _ HI), !length_app. lia.
Qed.

(** *** Steps that move only one side *)

Lemma inv_with_producer (st : State) (p : Producer) :
  Inv st -> producer_ok (R st) (W st) (buffer_ st) p ->
  remaining p = remaining (producer st) \/ remaining p = None -> Inv (with_producer st p).
Proof.
  intros [H1 H2 H3 H4 H5 H6 H7 H8 H9] Hp Hr. split; simpl; try done.
  destruct H7 as (rem & Hw & Hm). exists rem. split; [done|]. by destruct Hr as [->| ->].
Qed.

Lemma inv_with_consumer (st : State) (c : Consumer) :
  Inv st -> consumer_ok (R st) (W st) (buffer_ st) (written st) c -> Inv (with_consumer st c).
Proof. intros [H1 H2 H3 H4 H5 H6 H7 H8 H9] Hc. by split. Qed.

(** A wait that is woken by a value. *)
Lemma wake_value (c : Cell) (choice : option nat) (v bound : Z) :
  Forall (fun v => v <= bound) (cell_past c) -> wake c choice = Some (OkVal v) -> v <= bound.
Proof.
  unfold wake. intros Hp. destruct choice as [k|].
  - destruct (cell_past c !! k) eqn:E; [|done]. intros [= <-]. rewrite list.Forall_lookup in Hp. by apply (Hp k).
  - by destruct (cell_final c).
Qed.

Lemma wait_failed_false (c : Cell) (target : Z) (s : StatusCode) : wait_failed c target s = false -> target <= cell_value c.
Proof. unfold wait_failed. intros [_ H]%orb_false_iff. bool_cases. lia. Qed.

(** *** The producer *)

Lemma zip_lookup {A B} (xs : list A) (ys : list B) (k : nat) :
  zip xs ys !! k = match xs !! k, ys !! k with Some x, Some y => Some (x, y) | _, _ => None end.
Proof.
  revert ys k. induction xs as [|x xs IH]; intros ys k; [done|].
  destruct ys as [|y ys], k as [|k]; simpl; try done; first [apply IH|by destruct (xs !! k)].
Qed.

Lemma cidxs_lookup (pos : Z) (n k : nat) : (k < n)%nat -> cidxs pos n !! k = Some (cidx (pos + Z.of_nat k)).
Proof. intros Hk. unfold cidxs. rewrite list_lookup_fmap, lookup_seq_lt by done. done. Qed.

Lemma zip_take_r {A B} (xs : list A) (ys : list B) :
  zip xs ys = zip (take (Nat.min (length xs) (length ys)) xs) (take (Nat.min (length xs) (length ys)) ys).
Proof.
  revert ys. induction xs as [|x xs IH]; intros [|y ys]; simpl; try done. by rewrite <- IH.
Qed.

Lemma cidxs_take (pos : Z) (n k : nat) : (k <= n)%nat -> take k (cidxs pos n) = cidxs pos k.
Proof. intros Hk. unfold cidxs. rewrite <- fmap_take, take_seq. by rewrite Nat.min_l. Qed.

Lemma producer_ready (st : State) (data : list Z) (rest : list WriteOp) :
  Inv st -> producer st = PReady data rest -> Inv (producer_step None st).
Proof.
  intros HI Ep. pose proof (inv_producer _ HI) as Hp. rewrite Ep in Hp. destruct Hp as [Hne Hsp].
  destruct (inv_pos _ HI) as [HR HW]. unfold producer_step. rewrite Ep. unfold space, size.
  rewrite (proj2 (Z.leb_le 0 _)) by lia. cbn [check mbind outcome_bind].
  destruct (get_buffers_spec (W st) (capacity - (W st - R st))) as (bufs & -> & Hidx & _ & _); [lia|lia|].
  rewrite Hidx. set (n := Z.to_nat (capacity - (W st - R st))).
  assert (length (cidxs (W st) n) = n) as Hlen by (unfold cidxs; by rewrite length_fmap, length_seq).
  rewrite zip_take_r, Hlen, cidxs_take by lia. set (m := Nat.min n (length data)).
  assert (length (zip (cidxs (W st) m) (take m data)) = m) as Hm.
  { rewrite length_zip_with, length_take. unfold cidxs. rewrite length_fmap, length_seq. lia. }
  rewrite Hm. apply inv_with_producer; [done| |rewrite Ep; by left].
  assert (0 < length data)%nat by (destruct data; simpl; [done|lia]).
  split; [lia|]. split; [lia|]. exists O. split; [lia|]. split; [done|lia].
Qed.

(** A byte that is being written is outside of what is committed, and outside
    of what is being read. *)
Lemma producer_copy (st : State) (i : nat) (x : Z) (todo : list (nat * Z)) (n : nat) (data : list Z) (rest : list WriteOp) :
  Inv st -> producer st = PCopy ((i, x) :: todo) n data rest -> Inv (producer_step None st).
Proof.
  intros HI Ep. pose proof (inv_producer _ HI) as Hp. rewrite Ep in Hp. destruct Hp as (Hn & Hsp & k & Hk & Htodo & Hmem).
  destruct HI as [H1 [HR HW] H3 H4 H5 H6 H7 H8 H9]. unfold producer_step. rewrite Ep.
  assert (k < n)%nat as Hkn by (simpl in Hk; lia).
  assert (i = cidx (W st + Z.of_nat k) /\ data !!! k = x) as [-> Hx].
  { assert (zip (cidxs (W st) n) (take n data) !! k = Some (i, x)) as E
      by (rewrite <- (Nat.add_0_r k), <- lookup_drop, <- Htodo; done).
    rewrite zip_lookup, cidxs_lookup, lookup_take_lt in E by done.
    destruct (data !! k) as [y|] eqn:Ey; [|done]. injection E as <- <-. split; [done|]. by apply list_lookup_total_correct. }
  assert (forall q, R st <= q < W st + Z.of_nat k -> cidx q <> cidx (W st + Z.of_nat k)) as Hother
    by (intros q Hq; apply cidx_inj; lia).
  split; simpl; try done.
  - by rewrite length_insert.
  - intros q Hq. rewrite list_lookup_total_insert_ne by (apply not_eq_sym, Hother; lia). by apply H5.
  - rewrite Ep in H7. done.
  - split; [done|]. split; [done|]. exists (S k). simpl in Hk. split; [lia|]. split.
    + assert (todo = drop 1 ((cidx (W st + Z.of_nat k), x) :: todo)) as -> by done. by rewrite Htodo, drop_drop, Nat.add_1_r.
    + intros j Hj. destruct (decide (j = k)) as [->|].
      * rewrite list_lookup_total_insert_eq; [done|]. rewrite H1. apply cidx_bound.
      * rewrite list_lookup_total_insert_ne by (apply not_eq_sym, Hother; lia). apply Hmem. lia.
  - destruct (consumer st); simpl in *; try done. destruct H9 as ((n' & Hn1 & Hn2 & Hc) & Hidx & Hfirst).
    split_and!; [|done|done]. exists n'. split_and!; [done|done|]. rewrite contents_insert; [done|].
    intros Hin. destruct (Hidx _ Hin) as (q & Hq & E). apply (Hother q); [lia|done].
Qed.

Lemma lookup_total_app_l {A} `{Inhabited A} (l k : list A) (i : nat) : (i < length l)%nat -> (l ++ k) !!! i = l !!! i.
Proof. intros Hi. rewrite !list_lookup_total_alt, lookup_app_l by done. done. Qed.

Lemma lookup_total_app_r {A} `{Inhabited A} (l k : list A) (i : nat) :
  (length l <= i)%nat -> (l ++ k) !!! i = k !!! (i - length l)%nat.
Proof. intros Hi. rewrite !list_lookup_total_alt, lookup_app_r by done. done. Qed.

(** Committed bytes are not lost by later commits. *)
Lemma consumer_ok_grow (r w n : Z) (mem wr more : list Z) (c : Consumer) :
  0 <= r <= w -> 0 <= n -> Z.of_nat (length wr) = w ->
  consumer_ok r w mem wr c -> consumer_ok r (w + n) mem (wr ++ more) c.
Proof.
  intros Hr Hn Hw. assert (forall m, r + Z.of_nat m <= w ->
    take m (drop (Z.to_nat r) (wr ++ more)) = take m (drop (Z.to_nat r) wr)) as Hpre.
  { intros m Hm. rewrite drop_app_le, take_app_le; [done|rewrite length_drop; lia|lia]. }
  destruct c; simpl; try done; try (intros; destruct_and?; split_and?; done || lia).
  - intros (m & H1 & H2 & H3). exists m. split_and!; done || lia.
  - intros ((m & H1 & H2 & H3) & H4 & H5). split_and!; [|intros i Hi; destruct (H4 i Hi) as (q & Hq & ->); exists q; split; [lia|done]|done].
    exists m. split_and!; [lia|done|]. by rewrite Hpre.
  - intros [H1 H2]. split; [lia|]. by rewrite Hpre.
Qed.

Lemma producer_commit (st : State) (n : nat) (data : list Z) (rest : list WriteOp) :
  Inv st -> producer st = PCommit n data rest -> Inv (producer_step None st).
Proof.
  intros HI Ep. pose proof (inv_producer _ HI) as Hp. rewrite Ep in Hp. destruct Hp as (Hn & Hsp & Hmem).
  pose proof (source_bound st data rest HI ltac:(by rewrite Ep)) as Hb.
  destruct HI as [H1 [HR HW] H3 H4 H5 [H6 H6'] H7 H8 H9]. unfold producer_step. rewrite Ep.
  assert (u64 (W st + Z.of_nat n) = W st + Z.of_nat n) as Hw by (apply uwrap_small; lia).
  split; simpl; rewrite ?Hw; try done; try lia.
  - rewrite length_app, length_take. lia.
  - rewrite H4, take_app_le by lia. done.
  - intros q Hq. destruct (decide (q < W st)) as [Hlt|Hge].
    + rewrite lookup_total_app_l by lia. apply H5. lia.
    + rewrite lookup_total_app_r by lia.
      replace q with (W st + Z.of_nat (Z.to_nat q - length (written st))) at 1 by lia.
      rewrite Hmem, !list_lookup_total_alt, lookup_take_lt by lia. done.
  - split; [done|]. constructor; [lia|]. eapply list.Forall_impl; [exact H6'|]. simpl. lia.
  - rewrite Ep in H7. destruct H7 as (rem & Hw' & ->). eexists. split; [|done].
    rewrite <- Hw', <- app_assoc. f_equal. by rewrite app_assoc, take_drop.
  - by apply consumer_ok_grow; [lia|lia| |].
Qed.

Lemma inv_producer_step (choice : option nat) (st : State) : Inv st -> Inv (producer_step choice st).
Proof.
  intros HI. pose proof (inv_producer _ HI) as Hp. destruct (inv_past _ HI) as [Hpast _].
  destruct (producer st) as [[|[data|] rest]|[|x data] rest|target obs data rest|target last data rest|data rest
    |[|[i x] todo] n data rest|n data rest|s|] eqn:Ep; simpl in Hp; try done;
    try (replace (producer_step choice st) with (producer_step None st) by (unfold producer_step; by rewrite Ep));
    try (by eapply producer_ready); try (by eapply producer_copy); try (by eapply producer_commit);
    unfold producer_step; rewrite Ep; try done.
  - apply inv_with_producer; [done|done|]. left. by rewrite Ep.
  - destruct HI as [H1 H2 H3 H4 H5 H6 H7 H8 H9]. split; simpl; try done. by rewrite Ep in H7.
  - apply inv_with_producer; [done|done|]. left. by rewrite Ep.
  - rewrite (proj2 (Z.ltb_ge capacity 1)) by lia. apply inv_with_producer; [done| |rewrite Ep; by left].
    split_and!; done || lia.
  - destruct Hp as (Hne & -> & Hobs). unfold enough.
    destruct (_ <=? obs) eqn:E; bool_cases; apply inv_with_producer; try done; try (rewrite Ep; by left); split_and!; done || lia.
  - destruct (wake (consume_pos_ st) choice) as [[v|s]|] eqn:Ew; [| |done].
    + apply inv_with_producer; [done| |rewrite Ep; by left]. apply (wake_value _ _ _ _ Hpast) in Ew.
      simpl. destruct Hp as (? & ? & ?). by split_and!.
    + destruct (wait_failed _ _ _) eqn:Ef; apply inv_with_producer; try done; [by right| |rewrite Ep; by left].
      apply wait_failed_false in Ef. destruct Hp as (? & -> & _). by split.
  - apply inv_with_producer; [done| |rewrite Ep; by left]. destruct Hp as (H1 & H2 & k & Hk & _ & Hmem).
    simpl in Hk. split_and!; [lia|lia|lia|]. intros j Hj. apply Hmem. lia.
Qed.
(** *** The consumer *)

Lemma stream_contents (st : State) (n : nat) :
  Inv st -> R st + Z.of_nat n <= W st ->
  (fun i => buffer_ st !!! i) <$> cidxs (R st) n = take n (drop (Z.to_nat (R st)) (written st)).
Proof.
  intros HI Hn. destruct (inv_pos _ HI) as [HR _]. pose proof (inv_written _ HI) as Hw. apply list_eq. intros j.
  destruct (decide (j < n)%nat) as [Hj|Hj].
  - rewrite list_lookup_fmap, cidxs_lookup by done. simpl. rewrite lookup_take_lt by done. rewrite lookup_drop.
    rewrite (inv_ring _ HI) by lia. replace (Z.to_nat (R st + Z.of_nat j)) with (Z.to_nat (R st) + j)%nat by lia.
    symmetry. apply list_lookup_lookup_total_lt. lia.
  - rewrite lookup_ge_None_2 by (rewrite length_fmap; unfold cidxs; rewrite length_fmap, length_seq; lia).
    symmetry. apply lookup_ge_None_2. rewrite length_take. lia.
Qed.

Lemma consumer_ready (st : State) (min want : nat) (rest : list ReadOp) :
  Inv st -> consumer st = CReady min want rest -> Inv (consumer_step None st).
Proof.
  intros HI Ec. pose proof (inv_consumer _ HI) as Hc. rewrite Ec in Hc. simpl in Hc.
  destruct (inv_pos _ HI) as [HR HW]. unfold consumer_step. rewrite Ec. unfold size.
  rewrite (proj2 (Z.leb_le 0 _)) by lia. cbn [check mbind outcome_bind].
  destruct (get_buffers_spec (R st) (W st - R st)) as (bufs & Eb & _ & _ & _); [lia|lia|]. rewrite Eb.
  apply inv_with_consumer; [done|]. exists (W st - R st). split_and!; [lia|lia|done].
Qed.

Lemma consumer_fix (st : State) (bufs : list Buffer) (min want : nat) (rest : list ReadOp) :
  Inv st -> consumer st = CFix bufs min want rest -> Inv (consumer_step None st).
Proof.
  intros HI Ec. pose proof (inv_consumer _ HI) as Hc. rewrite Ec in Hc. destruct Hc as (n & Hn & Hmin & Hb).
  destruct (inv_pos _ HI) as [HR HW]. unfold consumer_step. rewrite Ec.
  destruct (get_buffers_spec (R st) n) as (bufs' & Eb & Hidx & Hcont & Hshape); [lia|lia|].
  rewrite Hb in Eb. injection Eb as <-.
  pose proof (stream_contents st (Z.to_nat n) HI ltac:(lia)) as Hs. rewrite <- Hcont in Hs.
  destruct (fix_first_spec (buffer_ st) (Z.of_nat min) bufs) as (bufs' & -> & Hall' & Hsub & Hfirst); [|done|].
  { rewrite Hs, length_take, length_drop. pose proof (inv_written _ HI). lia. }
  apply inv_with_consumer; [done|]. split_and!; [|intros i Hi|done].
  - exists (Z.to_nat n). split_and!; [lia|lia|]. by rewrite Hall'.
  - apply Hsub in Hi. rewrite Hidx in Hi. unfold cidxs in Hi. apply list_elem_of_fmap in Hi as (j & -> & Hj).
    apply elem_of_seq in Hj. exists (R st + Z.of_nat j). split; [lia|done].
Qed.

Lemma consumer_use (st : State) (bufs : list Buffer) (min want : nat) (rest : list ReadOp) :
  Inv st -> consumer st = CUse bufs min want rest -> Inv (consumer_step None st).
Proof.
  intros HI Ec. pose proof (inv_consumer _ HI) as Hc. rewrite Ec in Hc. destruct Hc as ((n & Hn & Hmin & Hcont) & _ & _).
  unfold consumer_step. rewrite Ec, Hcont. apply inv_with_consumer; [done|]. simpl.
  rewrite take_take, length_take, length_drop. pose proof (inv_written _ HI). destruct (inv_pos _ HI).
  split; [lia|]. f_equal. lia.
Qed.

Lemma consumer_consume (st : State) (bytes : list Z) (rest : list ReadOp) :
  Inv st -> consumer st = CConsume bytes rest -> Inv (consumer_step None st).
Proof.
  intros HI Ec. pose proof (inv_consumer _ HI) as Hc. rewrite Ec in Hc. destruct Hc as [Hn Hbytes].
  assert (W st <= Z.of_nat (length all)) as Hb.
  { destruct (inv_source _ HI) as (rem & <- & _). rewrite <- (inv_written _ HI), length_app. lia. }
  destruct HI as [H1 [HR HW] H3 H4 H5 [H6 H6'] H7 H8 H9]. unfold consumer_step. rewrite Ec.
  assert (u64 (R st + Z.of_nat (length bytes)) = R st + Z.of_nat (length bytes)) as Hw by (apply uwrap_small; lia).
  split; simpl; rewrite ?Hw; try done; try lia.
  - rewrite H4. rewrite Hbytes at 1. rewrite Z2Nat.inj_add, Nat2Z.id by lia.
    rewrite <- (take_drop (Z.to_nat (R st)) (written st)) at 3.
    rewrite take_app_ge by (rewrite length_take; lia). do 2 f_equal. rewrite length_take. lia.
  - intros q Hq. apply H5. lia.
  - split; [|done]. constructor; [lia|]. eapply list.Forall_impl; [exact H6|]. simpl. lia.
  - destruct (producer st); simpl in *; try done; try (destruct_and?; split_and?; done || lia).
Qed.

Lemma inv_consumer_step (choice : option nat) (st : State) : Inv st -> Inv (consumer_step choice st).
Proof.
  intros HI. pose proof (inv_consumer _ HI) as Hc. destruct (inv_past _ HI) as [_ Hpast].
  destruct (consumer st) as [[|[min want|] rest]|min want rest|target obs min want rest|target last min want rest
    |min want rest|bufs min want rest|bufs min want rest|bytes rest|min s|] eqn:Ec; simpl in Hc; try done;
    try (replace (consumer_step choice st) with (consumer_step None st) by (unfold consumer_step; by rewrite Ec));
    try (by eapply consumer_ready); try (by eapply consumer_fix); try (by eapply consumer_use);
    try (by eapply consumer_consume);
    unfold consumer_step; rewrite Ec; try done.
  - by apply inv_with_consumer.
  - destruct HI as [H1 H2 H3 H4 H5 H6 H7 H8 H9]. by split.
  - destruct (capacity <? Z.of_nat min) eqn:E; bool_cases; apply inv_with_consumer; done.
  - destruct Hc as (-> & Hobs & Hmin). unfold enough.
    destruct (_ <=? obs) eqn:E; bool_cases; apply inv_with_consumer; try done; simpl; split_and?; lia.
  - destruct (wake (commit_pos_ st) choice) as [[v|s]|] eqn:Ew; [| |done].
    + apply inv_with_consumer; [done|]. apply (wake_value _ _ _ _ Hpast) in Ew. simpl. destruct Hc as (? & ? & ?). by split_and!.
    + destruct (wait_failed _ _ _) eqn:Ef; apply inv_with_consumer; try done.
      apply wait_failed_false in Ef. destruct Hc as (-> & _). simpl. lia.
Qed.

Lemma stream_inv_run (schedule : list (bool * option nat)) (st : State) : Inv st -> Inv (run schedule st).
Proof.
  revert st. induction schedule as [|[[] c] schedule IH]; intros st HI; [done|apply IH, inv_producer_step; done|apply IH, inv_consumer_step; done].
Qed.
(** *** End of stream *)

(** Everything is written before the stream is closed. *)
Definition closes_last (ops : list WriteOp) : Prop := exists datas, ops = (WriteAll <$> datas) ++ [CloseForWrite].

Definition rest_of (p : Producer) : list WriteOp :=
  match p with
  | PIdle rest | PLoop _ rest | PAwait _ _ _ rest | PSleep _ _ _ rest | PReady _ rest | PCopy _ _ _ rest | PCommit _ _ rest => rest
  | PFailed _ | PPanic => [CloseForWrite]
  end.

Record EndInv (st : State) : Prop := {
  end_producer :
    (cell_final (commit_pos_ st) = None /\ closes_last (rest_of (producer st))) \/
    (cell_final (commit_pos_ st) = Some kEndOfStream /\ producer st = PIdle []);
  end_consumer : forall min, consumer st = CFailed min kEndOfStream ->
    cell_final (commit_pos_ st) = Some kEndOfStream /\ W st < R st + Z.of_nat min }.

Lemma closes_last_cons (op : WriteOp) (ops : list WriteOp) :
  closes_last (op :: ops) -> (op = CloseForWrite /\ ops = []) \/ (exists data, op = WriteAll data /\ closes_last ops).
Proof.
  intros [[|d datas] E]; [injection E as -> ->; by left|]. injection E as -> ->. right. exists d. split; [done|].
  by exists datas.
Qed.

Lemma end_producer_step (choice : option nat) (st : State) : EndInv st -> EndInv (producer_step choice st).
Proof.
  intros [Hp Hc]. unfold producer_step.
  assert (forall p, closes_last (rest_of p) ->
    cell_final (commit_pos_ st) = None -> EndInv (with_producer st p)) as Hkeep by (intros p Hr Hf; split; [by left|done]).
  destruct (producer st) as [[|op rest]|[|x data] rest|target obs data rest|target last data rest|data rest
    |[|[i x] todo] n data rest|n data rest|s|] eqn:Ep; try (split; [rewrite Ep|]; done);
    (destruct Hp as [[Hf Hr]|[Hf Hr]]; [|discriminate Hr || (injection Hr as ->)]); simpl in Hr.
  - apply closes_last_cons in Hr as [[-> ->]|(data & -> & Hr)]; [|by apply Hkeep].
    split; simpl; rewrite Hf; [by right|]. intros min Hm. destruct (Hc min Hm). congruence.
  - by apply Hkeep.
  - apply Hkeep; [|done]. by destruct (capacity <? 1); [exists []|].
  - apply Hkeep; [|done]. by destruct (enough _ _).
  - destruct (wake _ _) as [[v|s]|]; [by apply Hkeep| |split; [rewrite Ep; by left|done]].
    apply Hkeep; [|done]. by destruct (wait_failed _ _ _); [exists []|].
  - apply Hkeep; [|done]. by destruct (_ ≫= _); [|exists []].
  - by apply Hkeep.
  - split; simpl; [by left|done].
  - split; simpl; [by left|]. intros min Hm. destruct (Hc min Hm). congruence.
Qed.

Lemma end_consumer_step (choice : option nat) (st : State) : Inv st -> EndInv st -> EndInv (consumer_step choice st).
Proof.
  intros HI [Hp Hc]. pose proof (inv_consumer _ HI) as Hok. unfold consumer_step.
  assert (forall c, (forall min, c <> CFailed min kEndOfStream) -> EndInv (with_consumer st c)) as Hkeep.
  { intros c Hne. split; [done|]. intros min Hm. simpl in Hm. by destruct (Hne min). }
  destruct (consumer st) as [[|[min want|] rest]|min want rest|target obs min want rest|target last min want rest
    |min want rest|bufs min want rest|bufs min want rest|bytes rest|min s|] eqn:Ec; simpl in Hok;
    try (by apply Hkeep); try (split; [done|rewrite Ec; done]); try (split; simpl; done).
  - apply Hkeep. intros m. by destruct (capacity <? _).
  - apply Hkeep. intros m. by destruct (enough _ _).
  - destruct (wake _ _) as [[v|s]|] eqn:Ew; [by apply Hkeep| |split; [done|rewrite Ec; done]].
    destruct (wait_failed _ _ _) eqn:Ef; [|by apply Hkeep]. split; [done|]. simpl. intros m [= -> ->].
    unfold wait_failed in Ef. simpl in Ef. bool_cases. destruct Hok as (-> & _). split; [|lia].
    unfold wake in Ew. destruct choice as [k|]; [by destruct (_ !! k)|].
    destruct (cell_final (commit_pos_ st)); [|done]. by injection Ew as ->.
  - apply Hkeep. intros m. by destruct (_ ≫= _).
  - apply Hkeep. intros m. by destruct (fix_first _ _ _).
Qed.

Lemma end_run (schedule : list (bool * option nat)) (st : State) :
  Inv st -> EndInv st -> EndInv (run schedule st).
Proof.
  revert st. induction schedule as [|[[] c] schedule IH]; intros st HI HE; [done| |]; simpl; apply IH.
  - by apply inv_producer_step.
  - by apply end_producer_step.
  - by apply inv_consumer_step.
  - by apply end_consumer_step.
Qed.
End invariant.

Lemma stream_inv_initial (buffer : list Z) (writes : list WriteOp) (reads : list ReadOp) :
  length buffer = Z.to_nat capacity -> Inv (write_data writes) (initial_state buffer writes reads).
Proof.
  intros Hb. split; simpl; try done; try lia.
  - split; (constructor; [lia|constructor]).
  - by exists (write_data writes).
Qed.

(** ** The theorems *)

(** A side that sleeps with no reason to wake up. *)
Definition producer_asleep (st : State) : Prop :=
  exists target last data rest, producer st = PSleep target last data rest /\
    cell_value (consume_pos_ st) = last /\ cell_final (consume_pos_ st) = None.
Definition consumer_asleep (st : State) : Prop :=
  exists target last min want rest, consumer st = CSleep target last min want rest /\
    cell_value (commit_pos_ st) = last /\ cell_final (commit_pos_ st) = None.

(** C9: the stream buffer is a bounded byte stream.  In every interleaving no
    check fails; the bytes consumed are a prefix of the bytes committed, these
    a prefix of what the producer was asked to write; at most [capacity] bytes
    are in between; and a fetch returns buffers that hold the next bytes of
    the stream, at least as many as asked for, the first buffer alone holding
    that many. *)
Theorem stream_buffer_fifo (buffer : list Z) (writes : list WriteOp) (reads : list ReadOp)
    (schedule : list (bool * option nat)) :
  length buffer = Z.to_nat capacity -> Z.of_nat (length (write_data writes)) < 2 ^ 63 ->
  let st := run schedule (initial_state buffer writes reads) in
  producer st <> PPanic /\ consumer st <> CPanic /\
  (exists unread, written st = consumed st ++ unread /\ Z.of_nat (length unread) <= capacity) /\
  (exists unwritten, write_data writes = written st ++ unwritten) /\
  (forall bufs min want rest, consumer st = CUse bufs min want rest ->
     exists fetched unread, written st = consumed st ++ fetched ++ unread /\ all_contents (buffer_ st) bufs = fetched /\
       exists b more, bufs = b :: more /\ Z.of_nat min <= buffer_size b).
Proof.
  intros Hb Ht st. pose proof (stream_inv_run _ Ht schedule _ (stream_inv_initial buffer writes reads Hb)) as HI. fold st in HI.
  pose proof HI as [H1 [HR HW] H3 H4 H5 H6 H7 H8 H9].
  assert (written st = consumed st ++ drop (Z.to_nat (cell_value (consume_pos_ st))) (written st)) as Hsplit
    by (by rewrite H4, take_drop).
  split_and!.
  - intros E. by rewrite E in H8.
  - intros E. by rewrite E in H9.
  - eexists. split; [exact Hsplit|]. rewrite length_drop. lia.
  - destruct H7 as (rem & <- & _). by exists rem.
  - intros bufs min want rest E. rewrite E in H9. destruct H9 as ((n & Hn & Hmin & Hcont) & _ & Hfirst).
    exists (take n (drop (Z.to_nat (cell_value (consume_pos_ st))) (written st))), (drop n (drop (Z.to_nat (cell_value (consume_pos_ st))) (written st))).
    split_and!; [by rewrite take_drop|done|done].
Qed.

(** The stream ends where the data ends, and the two sides cannot both be
    stuck.  When everything is written before [close_for_write], a reader gets
    [kEndOfStream] only if all the data has been committed and fewer bytes
    than it asked for are left; and in no reachable state do a producer and a
    consumer both sleep. *)
Theorem stream_buffer_end (buffer : list Z) (writes : list WriteOp) (reads : list ReadOp)
    (schedule : list (bool * option nat)) :
  length buffer = Z.to_nat capacity -> Z.of_nat (length (write_data writes)) < 2 ^ 63 -> closes_last writes ->
  let st := run schedule (initial_state buffer writes reads) in
  (forall min, consumer st = CFailed min kEndOfStream ->
     written st = write_data writes /\ (length (written st) < length (consumed st) + min)%nat) /\
  ~ (producer_asleep st /\ consumer_asleep st).
Proof.
  intros Hb Ht Hw st. pose proof (stream_inv_initial buffer writes reads Hb) as HI0.
  pose proof (stream_inv_run _ Ht schedule _ HI0) as HI.
  assert (EndInv st) as [Hp Hc] by (apply (end_run (write_data writes)); [done|done|split; [by left|done]]).
  fold st in HI. pose proof HI as [H1 [HR HW] H3 H4 H5 H6 H7 H8 H9]. split.
  - intros min E. destruct (Hc min E) as [Hf Hlt]. split.
    + destruct Hp as [[Hn _]|[_ Ep]]; [congruence|]. rewrite Ep in H7. destruct H7 as (rem & <- & ->). simpl.
      unfold write_data. simpl. by rewrite app_nil_r.
    + rewrite H4, length_take. lia.
  - intros [(target & last & data & rest & Ep & Hl & _) (target' & last' & min & want & rest' & Ec & Hl' & _)].
    rewrite Ep in H8. rewrite Ec in H9. destruct H8 as (_ & -> & Hlt). destruct H9 as (-> & Hlt' & Hmin). lia.
Qed.
End stream.

Definition sample_run : State :=
  run 4 ((fun w => (w, Some O)) <$> concat (replicate 40 [true; true; false]))
    (initial_state [0; 0; 0; 0] [WriteAll [1; 2; 3; 4; 5; 6; 7]; CloseForWrite] [Read 1 3; Read 2 2; Read 2 9]).

Example sample_stream : written sample_run = [1; 2; 3; 4; 5; 6; 7] /\ consumed sample_run = [1; 2; 3; 4; 5; 6; 7].
Proof. by vm_compute. Qed.

(** Seven bytes through a ring of four: the reads wrap around. *)
Lemma stream_buffer_fifo_witness :
  let st := run 4 ((fun w => (w, Some O)) <$> concat (replicate 40 [true; true; false]))
    (initial_state [0; 0; 0; 0] [WriteAll [1; 2; 3; 4; 5; 6; 7]; CloseForWrite] [Read 1 3; Read 2 2; Read 2 9]) in
  consumed st = [1; 2; 3; 4; 5; 6; 7] /\ exists unread, written st = consumed st ++ unread /\ Z.of_nat (length unread) <= 4.
Proof.
  intros st. split; [by vm_compute|].
  apply (stream_buffer_fifo 4 ltac:(lia) [0; 0; 0; 0] [WriteAll [1; 2; 3; 4; 5; 6; 7]; CloseForWrite]
    [Read 1 3; Read 2 2; Read 2 9] ((fun w => (w, Some O)) <$> concat (replicate 40 [true; true; false])));
    [reflexivity|reflexivity].
Defined.

Definition end_schedule : list (bool * option nat) :=
  ((fun w => (w, Some O)) <$> replicate 20 true ++ replicate 10 false) ++ [(false, None)].

Lemma stream_buffer_end_witness :
  let st := run 4 end_schedule (initial_state [0; 0; 0; 0] [WriteAll [1; 2]; CloseForWrite] [Read 1 1; Read 2 2]) in
  consumer st = CFailed 2 kEndOfStream /\ written st = [1; 2].
Proof.
  intros st. assert (consumer st = CFailed 2 kEndOfStream) as E by (by vm_compute). split; [done|].
  apply (stream_buffer_end 4 ltac:(lia) [0; 0; 0; 0] [WriteAll [1; 2]; CloseForWrite] [Read 1 1; Read 2 2] end_schedule)
    with (min := 2%nat); [by vm_compute|by vm_compute|by exists [[1; 2]]|exact E].
Defined.
