(* ===== verification/StreamIO.v ===== *)
(** * Protocol-buffer streams and typed values over a stream buffer

    [protobuf/stream_buffer_input_stream.hpp],
    [protobuf/stream_buffer_output_stream.hpp] and the typed reads and writes
    of [async/stream_buffer.ipp].  The stream buffer is seen from the side of
    its reader, as a [BufferSource] that fetches what is asked for into the
    first buffer ([StreamBuffer.stream_buffer_fifo]), or from the side of its
    writer, as a class with the laws of [prepare_at_least] and [commit].  The
    streams implement the ZeroCopy interfaces of the protocol-buffer library:
    what that library documents about [Next], [BackUp], [Skip] and [ByteCount]
    is what is proved of them. *)

From S2P Require Import Prelude Status IntMath Buffer BufferSource.
Open Scope Z_scope.

Definition int_max : Z := 2 ^ 31 - 1.

(** [BATT_CHECKED_CAST(int, n)] of a size. *)
Definition to_int (n : nat) : io Z := if Z.of_nat n <=? int_max then Ret (Z.of_nat n) else Panicked.

Definition check_io (b : bool) : io unit := if b then Ret tt else Panicked.

(** A fetch has its first buffer as long as what is asked for. *)
Class FetchesFront (S : Type) `{SourceLaws S} : Prop :=
  fetches_front (n : Z) (s s' : S) (bufs : list buffer) :
    valid s -> 0 < n -> fetch_at_least n s = Ret (OkVal bufs, s') -> exists front more, bufs = front :: more /\ n <= Z.of_nat (length front).

(** ** The input stream *)

Section input.
Context {S : Type} `{BufferSource S}.

(* @ src/batteries/protobuf/stream_buffer_input_stream.hpp 133-135 StreamBufferInputStream *)
Record InputStream : Type := mkInput { buffer_ : S; byte_count_ : Z; n_to_consume_ : Z }.

(* @ src/batteries/protobuf/stream_buffer_input_stream.hpp 33-35 StreamBufferInputStream::StreamBufferInputStream *)
Definition open_input (s : S) : InputStream := mkInput s 0 0.

(** Also the destructor. *)
(* @ src/batteries/protobuf/stream_buffer_input_stream.hpp 101-108 StreamBufferInputStream::consume_data *)
Definition consume_data (st : InputStream) : io InputStream :=
  if 0 <? n_to_consume_ st then s ← consume (n_to_consume_ st) (buffer_ st); Ret (mkInput s (byte_count_ st) 0) else Ret st.

(* @ src/batteries/protobuf/stream_buffer_input_stream.hpp 113-129 StreamBufferInputStream::fetch_next *)
Definition fetch_next (st : InputStream) : io (option buffer * InputStream) :=
  st ← consume_data st;
  '(fetched, s) ← fetch_at_least 1 (buffer_ st);
  match fetched with
  | Err _ => Ret (None, mkInput s (byte_count_ st) (n_to_consume_ st))
  | OkVal [] => Panicked
  | OkVal (next :: _) =>
      Ret (Some next, mkInput s (byte_count_ st + Z.of_nat (length next)) (Z.of_nat (length next)))
  end.

(* @ src/batteries/protobuf/stream_buffer_input_stream.hpp 44-58 StreamBufferInputStream::Next *)
Definition Next (st : InputStream) : io (option buffer * InputStream) :=
  '(next, st) ← fetch_next st;
  match next with
  | None => Ret (None, st)
  | Some b => to_int (length b) ≫= fun _ => Ret (Some b, st)
  end.

(* @ src/batteries/protobuf/stream_buffer_input_stream.hpp 63-68 StreamBufferInputStream::BackUp *)
Definition BackUp (count : Z) (st : InputStream) : io InputStream :=
  check_io (count <=? n_to_consume_ st) ≫= fun _ => Ret (mkInput (buffer_ st) (byte_count_ st - count) (n_to_consume_ st - count)).

(** Each round skips a byte: [count] rounds are enough. *)
(* @ src/batteries/protobuf/stream_buffer_input_stream.hpp 72-90 StreamBufferInputStream::Skip *)
Fixpoint skip_loop (fuel : nat) (count : Z) (st : InputStream) : io (bool * InputStream) :=
  if 0 <? count then
    match fuel with
    | O => NoFuel
    | Datatypes.S fuel =>
        '(next, st) ← Next st;
        match next with
        | None | Some [] => Ret (false, st)
        | Some b =>
            let size := Z.of_nat (length b) in
            if count <? size then st ← BackUp (size - count) st; Ret (true, st) else skip_loop fuel (count - size) st
        end
    end
  else Ret (true, st).

Definition Skip (count : Z) (st : InputStream) : io (bool * InputStream) := skip_loop (Z.to_nat count) count st.

(* @ src/batteries/protobuf/stream_buffer_input_stream.hpp 94-97 StreamBufferInputStream::ByteCount *)
Definition ByteCount (st : InputStream) : Z := byte_count_ st.
End input.
Arguments InputStream : clear implicits.

Section input_laws.
Context {S : Type} {BS : BufferSource S} {SL : @SourceLaws S BS} {PC : @PartialConsume S BS SL} {FF : @FetchesFront S BS SL}.
Context (orig : list Z).

(** The stream has handed out the first [byte_count_] bytes of [orig]; what it
    has not consumed of them may still be consumed, or in part. *)
Record Inv (st : InputStream S) : Prop := {
  inv_valid : valid (buffer_ st);
  inv_n : 0 <= n_to_consume_ st <= byte_count_ st;
  inv_count : byte_count_ st <= Z.of_nat (length orig);
  inv_content : content (buffer_ st) = drop (Z.to_nat (byte_count_ st - n_to_consume_ st)) orig;
  inv_can : forall k, 0 < Z.of_nat k <= n_to_consume_ st -> can_consume (buffer_ st) k }.

Lemma open_input_inv (s : S) : valid s -> content s = orig -> Inv (open_input s).
Proof. intros Hv Hc. split; simpl; [done|lia|lia|done|lia]. Qed.

Lemma consume_data_spec (st : InputStream S) :
  Inv st -> exists st', consume_data st = Ret st' /\ Inv st' /\ n_to_consume_ st' = 0 /\ byte_count_ st' = byte_count_ st /\
    content (buffer_ st') = drop (Z.to_nat (byte_count_ st)) orig.
Proof.
  intros HI. pose proof (inv_n _ HI). unfold consume_data. destruct (0 <? n_to_consume_ st) eqn:E; bool_cases.
  - pose proof (inv_can _ HI (Z.to_nat (n_to_consume_ st)) ltac:(lia)) as Hk.
    destruct (consume_spec _ _ (inv_valid _ HI) Hk) as (s' & Hs & Hv & Hc). rewrite Z2Nat.id in Hs by lia. rewrite Hs. cbn [mbind io_bind].
    assert (content s' = drop (Z.to_nat (byte_count_ st)) orig) as Hc'.
    { rewrite Hc, (inv_content _ HI), drop_drop. f_equal. lia. }
    eexists. split_and!; try done. split; cbn [buffer_ byte_count_ n_to_consume_]; [done|lia|apply HI|by rewrite Z.sub_0_r|lia].
  - assert (n_to_consume_ st = 0) as H0 by lia. exists st. split_and!; try done. rewrite (inv_content _ HI), H0. do 2 f_equal. lia.
Qed.

(** The next bytes. *)
Definition next_ok (st : InputStream S) (res : io (option buffer * InputStream S)) : Prop :=
  match res with
  | Ret (Some b, st') =>
      Inv st' /\ (0 < length b)%nat /\ n_to_consume_ st' = Z.of_nat (length b) /\ byte_count_ st' = byte_count_ st + Z.of_nat (length b) /\
      b = take (length b) (drop (Z.to_nat (byte_count_ st)) orig)
  | Ret (None, st') =>
      byte_count_ st' = byte_count_ st /\
      exists s s' e, valid s /\ content s = drop (Z.to_nat (byte_count_ st)) orig /\ fetch_at_least 1 s = Ret (Err e, s') /\
        (e = kEndOfStream -> Inv st' /\ byte_count_ st = Z.of_nat (length orig))
  | Blocked => True
  | Panicked | NoFuel => False
  end.

Lemma fetch_next_spec (st : InputStream S) : Inv st -> next_ok st (fetch_next st).
Proof.
  intros HI. unfold fetch_next. destruct (consume_data_spec st HI) as (st1 & -> & HI1 & Hn & Hb & Hc). cbn [mbind io_bind].
  pose proof (fetch_spec 1 _ (inv_valid _ HI1) ltac:(lia)) as Hf.
  destruct (fetch_at_least 1 (buffer_ st1)) as [[[bufs|e] s']| | |] eqn:E; try done.
  - destruct (fetches_front 1 _ _ _ (inv_valid _ HI1) ltac:(lia) E) as (front & more & -> & Hl).
    destruct Hf as (Hv & Hcs & Hp & _ & Hcan). simpl. rewrite Hb. rewrite Hc in *. simpl in Hp.
    assert (front `prefix_of` drop (Z.to_nat (byte_count_ st)) orig) as Hpre by (etrans; [|exact Hp]; by eexists).
    pose proof (prefix_length _ _ Hpre) as Hlen. rewrite length_drop in Hlen. pose proof (inv_count _ HI).
    split_and!; try done; [|lia|].
    + split; cbn [buffer_ byte_count_ n_to_consume_]; [done|pose proof (inv_n _ HI); lia|lia| |].
      * rewrite Hcs. f_equal. lia.
      * intros k Hk. eapply (partial_consume 1); [apply (inv_valid _ HI1)|lia|exact E|]. unfold buffer_size. simpl. rewrite length_app. lia.
    + destruct Hpre as [tl ->]. by rewrite take_app_length.
  - simpl. rewrite Hb, Hn. split; [done|]. exists (buffer_ st1), s', e. split_and!; [apply (inv_valid _ HI1)|done|done|].
    intros He. destruct (Hf He) as (Hv & Hcs & Hl & _). rewrite Hc in *. rewrite length_drop in Hl. pose proof (inv_count _ HI). pose proof (inv_n _ HI). split; [|lia].
    split; cbn [buffer_ byte_count_ n_to_consume_]; [done|pose proof (inv_n _ HI); lia|lia| |lia]. rewrite Hcs. f_equal. lia.
Qed.

Hypothesis Hint : Z.of_nat (length orig) <= int_max.

Lemma Next_spec (st : InputStream S) : Inv st -> next_ok st (Next st).
Proof.
  intros HI. pose proof (fetch_next_spec st HI) as Hf. unfold Next.
  destruct (fetch_next st) as [[[b|] st']| | |]; try done. cbn [mbind io_bind]. unfold to_int.
  destruct Hf as (HI' & Hl & Hn & Hb & He). pose proof (inv_count _ HI'). pose proof (inv_n _ HI). rewrite (proj2 (Z.leb_le _ _)) by lia. done.
Qed.

Lemma BackUp_spec (count : Z) (st : InputStream S) :
  Inv st -> 0 <= count <= n_to_consume_ st ->
  exists st', BackUp count st = Ret st' /\ Inv st' /\ byte_count_ st' = byte_count_ st - count /\ n_to_consume_ st' = n_to_consume_ st - count.
Proof.
  intros HI Hc. unfold BackUp, check_io. rewrite (proj2 (Z.leb_le _ _)) by lia. cbn [mbind io_bind]. eexists. split_and!; try done.
  split; cbn [buffer_ byte_count_ n_to_consume_]; [apply HI|pose proof (inv_n _ HI); lia|pose proof (inv_count _ HI); lia| |].
  - rewrite (inv_content _ HI). f_equal. lia.
  - intros k Hk. apply (inv_can _ HI). lia.
Qed.

Lemma skip_loop_spec (fuel : nat) (count : Z) (st : InputStream S) :
  Inv st -> count <= Z.of_nat fuel ->
  match skip_loop fuel count st with
  | Ret (true, st') => Inv st' /\ byte_count_ st' = byte_count_ st + Z.max 0 count
  | Ret (false, st') =>
      exists s s' e, valid s /\ content s = drop (Z.to_nat (byte_count_ st')) orig /\ fetch_at_least 1 s = Ret (Err e, s') /\
        byte_count_ st <= byte_count_ st' < byte_count_ st + count /\
        (e = kEndOfStream -> Inv st' /\ byte_count_ st' = Z.of_nat (length orig))
  | Blocked => True
  | Panicked | NoFuel => False
  end.
Proof.
  revert count st. induction fuel as [|fuel IH]; intros count st HI Hf; simpl.
  { destruct (0 <? count) eqn:E; bool_cases; [lia|]. split; [done|lia]. }
  destruct (0 <? count) eqn:E; bool_cases; [|split; [done|lia]].
  pose proof (Next_spec st HI) as Hnext. destruct (Next st) as [[[b|] st1]| | |]; try done; cbn [mbind io_bind].
  2: { destruct Hnext as (Hb & s & s' & e & Hv & Hc & He & Hend). exists s, s', e. rewrite Hb. split_and!; try done; lia. }
  destruct Hnext as (HI1 & Hl & Hn & Hb & _). destruct b as [|x b]; [simpl in Hl; lia|]. set (l := x :: b) in *.
  destruct (count <? Z.of_nat (length l)) eqn:El; bool_cases.
  - destruct (BackUp_spec (Z.of_nat (length l) - count) st1 HI1 ltac:(lia)) as (st2 & -> & HI2 & Hb2 & _). cbn [mbind io_bind]. split; [done|lia].
  - specialize (IH (count - Z.of_nat (length l)) st1 HI1 ltac:(lia)).
    destruct (skip_loop fuel (count - Z.of_nat (length l)) st1) as [[[] st']| | |]; try done.
    + destruct IH as [HI2 Hb2]. split; [done|lia].
    + destruct IH as (s & s' & e & Hv & Hc & He & Hb2 & Hend). exists s, s', e. split_and!; try done; lia.
Qed.
End input_laws.

(** ** A client of the input stream

    It calls [Next], [Skip] and [BackUp], the last by no more than it may.
    [seen]: the bytes that it has read and not backed up; a byte that was
    skipped is [None]. *)
Inductive InputOp : Type := ONext | OBackUp (count : Z) | OSkip (count : Z).

Section client.
Context {S : Type} {BS : BufferSource S}.

(** [ends]: where [Next] and [Skip] have found the end of the stream. *)
Record Client : Type := mkClient { stream : InputStream S; seen : list (option Z); ends : list Z }.

Definition client_step (op : InputOp) (c : Client) : io Client :=
  let st := stream c in
  match op with
  | ONext =>
      '(next, st) ← Next st;
      match next with
      | Some b => Ret (mkClient st (seen c ++ (Some <$> b)) (ends c))
      | None => Ret (mkClient st (seen c) (ends c ++ [ByteCount st]))
      end
  | OBackUp count =>
      let count := Z.max 0 (Z.min count (n_to_consume_ st)) in
      st ← BackUp count st; Ret (mkClient st (take (length (seen c) - Z.to_nat count) (seen c)) (ends c))
  | OSkip count =>
      '(ok, st') ← Skip count st;
      let skipped := replicate (Z.to_nat (ByteCount st' - ByteCount st)) None in
      Ret (mkClient st' (seen c ++ skipped) (if ok : bool then ends c else ends c ++ [ByteCount st']))
  end.

Definition run_client (ops : list InputOp) (c : Client) : io Client := foldl (fun m op => c ← m; client_step op c) (Ret c) ops.
End client.
Arguments Client : clear implicits.

(** The source fails only at its end. *)
Class FailsAtEnd (S : Type) `{SourceLaws S} : Prop :=
  fails_at_end (s s' : S) (e : StatusCode) : valid s -> fetch_at_least 1 s = Ret (Err e, s') -> e = kEndOfStream.

Section client_laws.
Context {S : Type} {BS : BufferSource S} {SL : @SourceLaws S BS} {PC : @PartialConsume S BS SL} {FF : @FetchesFront S BS SL}.
Context {FE : @FailsAtEnd S BS SL} (orig : list Z) (Hint : Z.of_nat (length orig) <= int_max).

Definition byte_ok (seen : option Z) (x : Z) : Prop := match seen with Some y => y = x | None => True end.

Record ClientInv (c : Client S) : Prop := {
  client_inv : Inv orig (stream c);
  client_seen : Forall2 byte_ok (seen c) (take (Z.to_nat (ByteCount (stream c))) orig);
  client_ends : Forall (fun n => n = Z.of_nat (length orig)) (ends c) }.

Lemma client_step_inv (op : InputOp) (c : Client S) :
  ClientInv c -> match client_step op c with Ret c' => ClientInv c' | Blocked => True | _ => False end.
Proof.
  intros [HI Hseen Hends]. pose proof (inv_n _ _ HI) as Hn. pose proof (inv_count _ _ HI) as Hc. unfold ByteCount in *.
  destruct op as [|count|count]; unfold client_step.
  - pose proof (Next_spec orig Hint (stream c) HI) as H. destruct (Next (stream c)) as [[[b|] st']| | |]; try done; cbn [mbind io_bind].
    + destruct H as (HI' & Hl & _ & Hb & Eb). split; [done| |done]. unfold ByteCount. cbn [stream seen].
      replace (Z.to_nat (byte_count_ st')) with (Z.to_nat (byte_count_ (stream c)) + length b)%nat by lia.
      rewrite <- take_take_drop, <- Eb. apply Forall2_app; [done|]. apply Forall2_fmap_l. clear. induction b; by constructor.
    + destruct H as (Hb & s & s' & e & Hv & _ & He & Hend). destruct (Hend (fails_at_end _ _ _ Hv He)) as [HI' Hall].
      split; cbn [stream seen ends]; unfold ByteCount; [done|by rewrite Hb|]. apply Forall_app. split; [done|]. repeat constructor. lia.
  - set (k := Z.max 0 (Z.min count (n_to_consume_ (stream c)))). destruct (BackUp_spec orig k (stream c) HI ltac:(lia)) as (st' & -> & HI' & Hb & _).
    cbn [mbind io_bind]. split; [done| |done]. unfold ByteCount. cbn [stream seen]. rewrite Hb.
    pose proof (Forall2_length _ _ _ Hseen) as Hlen. rewrite length_take in Hlen.
    replace (take (Z.to_nat (byte_count_ (stream c) - k)) orig) with
      (take (length (seen c) - Z.to_nat k) (take (Z.to_nat (byte_count_ (stream c))) orig)); [by apply Forall2_take|].
    rewrite take_take. f_equal. lia.
  - unfold Skip. pose proof (skip_loop_spec orig Hint (Z.to_nat count) count (stream c) HI ltac:(lia)) as H.
    assert (forall st', Inv orig st' -> byte_count_ (stream c) <= byte_count_ st' ->
      Forall2 byte_ok (seen c ++ replicate (Z.to_nat (byte_count_ st' - byte_count_ (stream c))) None) (take (Z.to_nat (byte_count_ st')) orig)) as Hskip.
    { intros st' HI' Hle. pose proof (inv_count _ _ HI').
      replace (Z.to_nat (byte_count_ st')) with (Z.to_nat (byte_count_ (stream c)) + Z.to_nat (byte_count_ st' - byte_count_ (stream c)))%nat by lia.
      rewrite <- take_take_drop. apply Forall2_app; [done|].
      apply Forall2_replicate_l; [rewrite length_take, length_drop; lia|]. by apply list.Forall_forall. }
    destruct (skip_loop _ _ _) as [[[] st']| | |]; try done; cbn [mbind io_bind].
    + destruct H as [HI' Hb]. split; [done| |done]. unfold ByteCount. cbn [stream seen]. apply Hskip; [done|lia].
    + destruct H as (s & s' & e & Hv & _ & He & Hb & Hend). destruct (Hend (fails_at_end _ _ _ Hv He)) as [HI' Hall].
      split; unfold ByteCount; cbn [stream seen ends]; [done|apply Hskip; [done|lia]|]. apply Forall_app. split; [done|by repeat constructor].
Qed.

Lemma run_client_inv (ops : list InputOp) (c : Client S) :
  ClientInv c -> match run_client ops c with Ret c' => ClientInv c' | Blocked => True | _ => False end.
Proof.
  revert c. unfold run_client. induction ops as [|op ops IH]; intros c HI; [done|]. simpl.
  pose proof (client_step_inv op c HI) as H. destruct (client_step op c) as [c'| | |]; try done; [by apply IH|]. clear. by induction ops.
Qed.

(** A client of the input stream on any source: the bytes it has seen are the
    first [ByteCount] bytes of the stream, each once and in order, those that
    were skipped included; [Next] and [Skip] report the end only there; the
    destructor consumes from the source exactly what the client has seen; no
    check fails, and [Skip] terminates. *)
Theorem input_stream_correct (s : S) (ops : list InputOp) :
  valid s -> content s = orig ->
  match run_client ops (mkClient (open_input s) [] []) with
  | Ret c =>
      Forall2 byte_ok (seen c) (take (Z.to_nat (ByteCount (stream c))) orig) /\
      Forall (fun n => n = Z.of_nat (length orig)) (ends c) /\
      exists st, consume_data (stream c) = Ret st /\ valid (buffer_ st) /\ content (buffer_ st) = drop (length (seen c)) orig
  | Blocked => True
  | Panicked | NoFuel => False
  end.
Proof.
  intros Hv Hc. pose proof (run_client_inv ops (mkClient (open_input s) [] [])) as H.
  destruct (run_client ops _) as [c| | |]; try (apply H; split; [by apply open_input_inv|done|done]).
  destruct H as [HI Hseen Hends]; [split; [by apply open_input_inv|constructor|done]|].
  destruct (consume_data_spec orig (stream c) HI) as (st & Hst & HI' & _ & _ & Hcs). split_and!; [done|done|]. exists st. split_and!; [done|apply HI'|].
  rewrite Hcs. f_equal. pose proof (Forall2_length _ _ _ Hseen) as Hlen. rewrite length_take in Hlen. pose proof (inv_count _ _ HI). pose proof (inv_n _ _ HI).
  unfold ByteCount in *. lia.
Qed.
End client_laws.

(** ** The output stream

    [prepare_at_least] gives memory that can be written; [commit] makes its
    first bytes part of the stream. *)
Class ByteSink (D : Type) : Type := {
  prepare_at_least : Z -> D -> io (StatusOr (list nat) * D);
  commit : list Z -> D -> io D }.

(** [room d k]: [k] bytes of the memory may be committed. *)
Class SinkLaws (D : Type) `{ByteSink D} : Type := {
  received : D -> list Z;
  sink_valid : D -> Prop;
  room : D -> nat -> Prop;
  prepare_spec (n : Z) (d : D) : sink_valid d -> 0 < n ->
    match prepare_at_least n d with
    | Ret (OkVal sizes, d') =>
        sink_valid d' /\ received d' = received d /\
        exists front more, sizes = front :: more /\ (0 < front)%nat /\ forall k, (k <= sum_list sizes)%nat -> room d' k
    | Ret (Err _, d') => sink_valid d' /\ received d' = received d
    | Blocked => True
    | _ => False
    end;
  commit_spec (bytes : list Z) (d : D) : sink_valid d -> room d (length bytes) ->
    exists d', commit bytes d = Ret d' /\ sink_valid d' /\ received d' = received d ++ bytes }.

Section output.
Context {D : Type} `{ByteSink D}.

(** [region]: the memory that the last [Next] returned. *)
(* @ src/batteries/protobuf/stream_buffer_output_stream.hpp 125-127 StreamBufferOutputStream *)
Record OutputStream : Type := mkOutput { out_buffer_ : D; out_byte_count_ : Z; n_to_commit_ : Z; region : list Z }.

(* @ src/batteries/protobuf/stream_buffer_output_stream.hpp 33-35 StreamBufferOutputStream::StreamBufferOutputStream *)
Definition open_output (d : D) : OutputStream := mkOutput d 0 0 [].

(** Also the destructor. *)
(* @ src/batteries/protobuf/stream_buffer_output_stream.hpp 93-100 StreamBufferOutputStream::commit_data *)
Definition commit_data (st : OutputStream) : io OutputStream :=
  if 0 <? n_to_commit_ st then
    d ← commit (take (Z.to_nat (n_to_commit_ st)) (region st)) (out_buffer_ st); Ret (mkOutput d (out_byte_count_ st) 0 (region st))
  else Ret st.

(** [garbage]: what is in the memory. *)
(* @ src/batteries/protobuf/stream_buffer_output_stream.hpp 105-121 StreamBufferOutputStream::prepare_next *)
Definition prepare_next (garbage : nat -> list Z) (st : OutputStream) : io (option nat * OutputStream) :=
  st ← commit_data st;
  '(prepared, d) ← prepare_at_least 1 (out_buffer_ st);
  match prepared with
  | Err _ => Ret (None, mkOutput d (out_byte_count_ st) (n_to_commit_ st) (region st))
  | OkVal [] => Panicked
  | OkVal (next :: _) => Ret (Some next, mkOutput d (out_byte_count_ st + Z.of_nat next) (Z.of_nat next) (garbage next))
  end.

(* @ src/batteries/protobuf/stream_buffer_output_stream.hpp 44-58 StreamBufferOutputStream::Next *)
Definition output_Next (garbage : nat -> list Z) (st : OutputStream) : io (option nat * OutputStream) :=
  '(next, st) ← prepare_next garbage st;
  match next with
  | None => Ret (None, st)
  | Some n => to_int n ≫= fun _ => Ret (Some n, st)
  end.

(* @ src/batteries/protobuf/stream_buffer_output_stream.hpp 63-68 StreamBufferOutputStream::BackUp *)
Definition output_BackUp (count : Z) (st : OutputStream) : io OutputStream :=
  check_io (count <=? n_to_commit_ st) ≫= fun _ =>
  Ret (mkOutput (out_buffer_ st) (out_byte_count_ st - count) (n_to_commit_ st - count) (region st)).

(* @ src/batteries/protobuf/stream_buffer_output_stream.hpp 72-75 StreamBufferOutputStream::ByteCount *)
Definition output_ByteCount (st : OutputStream) : Z := out_byte_count_ st.

(** A client fills the memory with anything, and gives back no more than it
    may.  [finished]: what it wrote to the earlier regions. *)
Inductive OutputOp : Type := PNext | PFill (bytes : list Z) | PBackUp (count : Z).

Record Writer : Type := mkWriter { output : OutputStream; finished : list Z }.

Definition current (st : OutputStream) : list Z := take (Z.to_nat (n_to_commit_ st)) (region st).

Definition writer_step (garbage : nat -> list Z) (op : OutputOp) (w : Writer) : io Writer :=
  let st := output w in
  match op with
  | PNext => '(_, st') ← output_Next garbage st; Ret (mkWriter st' (finished w ++ current st))
  | PFill bytes =>
      let new := take (length (region st)) bytes ++ drop (length bytes) (region st) in
      Ret (mkWriter (mkOutput (out_buffer_ st) (out_byte_count_ st) (n_to_commit_ st) new) (finished w))
  | PBackUp count => st ← output_BackUp (Z.max 0 (Z.min count (n_to_commit_ st))) st; Ret (mkWriter st (finished w))
  end.

Definition run_writer (garbage : nat -> list Z) (ops : list OutputOp) (w : Writer) : io Writer :=
  foldl (fun m op => w ← m; writer_step garbage op w) (Ret w) ops.
End output.
Arguments OutputStream : clear implicits.
Arguments Writer : clear implicits.

Section output_laws.
Context {D : Type} {BD : ByteSink D} {SD : @SinkLaws D BD} (garbage : nat -> list Z).
Hypothesis Hgarbage : forall n, length (garbage n) = n.
(** No region is longer than an [int] can say. *)
Hypothesis Hsmall : forall (d d' : D) (front : nat) (more : list nat),
  sink_valid d -> prepare_at_least 1 d = Ret (OkVal (front :: more), d') -> Z.of_nat front <= int_max.

Record OutInv (w : Writer D) : Prop := {
  out_valid : sink_valid (out_buffer_ (output w));
  out_received : received (out_buffer_ (output w)) = finished w;
  out_n : 0 <= n_to_commit_ (output w) <= Z.of_nat (length (region (output w)));
  out_room : forall k, Z.of_nat k <= n_to_commit_ (output w) -> 0 < n_to_commit_ (output w) -> room (out_buffer_ (output w)) k;
  out_count : out_byte_count_ (output w) = Z.of_nat (length (finished w)) + n_to_commit_ (output w) }.

Lemma commit_data_spec (w : Writer D) :
  OutInv w -> exists st, commit_data (output w) = Ret st /\ sink_valid (out_buffer_ st) /\ n_to_commit_ st = 0 /\
    received (out_buffer_ st) = finished w ++ current (output w) /\ out_byte_count_ st = out_byte_count_ (output w) /\
    Z.of_nat (length (current (output w))) = n_to_commit_ (output w) /\ region st = region (output w).
Proof.
  intros [Hv Hr Hn Hroom Hc]. unfold commit_data, current. assert (Z.of_nat (length (take (Z.to_nat (n_to_commit_ (output w))) (region (output w)))) = n_to_commit_ (output w)) as Hl
    by (rewrite length_take; lia).
  destruct (0 <? n_to_commit_ (output w)) eqn:E; bool_cases.
  - destruct (commit_spec (take (Z.to_nat (n_to_commit_ (output w))) (region (output w))) _ Hv) as (d' & -> & Hv' & Hr'); [apply Hroom; lia|].
    cbn [mbind io_bind]. eexists. split_and!; try done. cbn [out_buffer_]. by rewrite Hr', Hr.
  - exists (output w). assert (n_to_commit_ (output w) = 0) as H0 by lia. split_and!; try done. rewrite H0. by rewrite app_nil_r.
Qed.

Lemma writer_step_inv (op : OutputOp) (w : Writer D) :
  OutInv w -> match writer_step garbage op w with Ret w' => OutInv w' | Blocked => True | _ => False end.
Proof.
  intros HI. destruct op as [|bytes|count]; unfold writer_step.
  - unfold output_Next, prepare_next. destruct (commit_data_spec w HI) as (st & -> & Hv & Hn & Hr & Hc & Hl & Hreg). cbn [mbind io_bind].
    pose proof (prepare_spec 1 _ Hv ltac:(lia)) as Hp. pose proof (out_count _ HI) as Hcount.
    destruct (prepare_at_least 1 (out_buffer_ st)) as [[[sizes|e] d']| | |] eqn:E; try done.
    + destruct Hp as (Hv' & Hr' & front & more & -> & Hf & Hroom). pose proof (Hsmall _ _ _ _ Hv E) as Hint. cbn [mbind io_bind]. unfold to_int.
      rewrite (proj2 (Z.leb_le _ _)) by done. cbn [mbind io_bind].
      split; cbn [output finished out_buffer_ n_to_commit_ region out_byte_count_]; [done|by rewrite Hr'|rewrite Hgarbage; lia| |rewrite length_app; lia].
      intros k Hk _. apply Hroom. simpl. lia.
    + destruct Hp as [Hv' Hr']. cbn [mbind io_bind].
      split; cbn [output finished out_buffer_ n_to_commit_ region out_byte_count_]; [done|by rewrite Hr'|rewrite Hn; lia|lia|rewrite length_app; lia].
  - destruct HI as [Hv Hr Hn Hroom Hc]. split; cbn [output finished out_buffer_ n_to_commit_ region out_byte_count_]; try done.
    rewrite length_app, length_take, length_drop. lia.
  - destruct HI as [Hv Hr Hn Hroom Hc]. unfold output_BackUp, check_io. rewrite (proj2 (Z.leb_le _ _)) by lia. cbn [mbind io_bind].
    split; cbn [output finished out_buffer_ n_to_commit_ region out_byte_count_]; try done; try lia. intros k Hk H0. apply Hroom; lia.
Qed.

(** A client of the output stream: after the destructor the stream buffer has
    received what the client wrote to the regions and did not back up, in
    order, and [ByteCount] is its length; no check fails. *)
Theorem output_stream_correct (d : D) (ops : list OutputOp) :
  sink_valid d -> received d = [] ->
  match run_writer garbage ops (mkWriter (open_output d) []) with
  | Ret w =>
      exists st, commit_data (output w) = Ret st /\ received (out_buffer_ st) = finished w ++ current (output w) /\
        output_ByteCount (output w) = Z.of_nat (length (finished w ++ current (output w)))
  | Blocked => True
  | Panicked | NoFuel => False
  end.
Proof.
  intros Hv Hr. assert (OutInv (mkWriter (open_output d) [])) as HI by (split; simpl; try done; lia).
  revert HI. generalize (mkWriter (open_output d) []). unfold run_writer. induction ops as [|op ops IH]; intros w HI; simpl.
  - destruct (commit_data_spec w HI) as (st & Hst & _ & _ & Hrec & _ & Hl & _). exists st. split_and!; [done|done|].
    unfold output_ByteCount. rewrite (out_count _ HI), length_app. lia.
  - pose proof (writer_step_inv op w HI) as H. destruct (writer_step garbage op w) as [w'| | |]; try done; [by apply IH|]. clear. by induction ops.
Qed.
End output_laws.

(** ** Values of a type

    [bytes_of] and [of_bytes]: how a value lies in memory; [sizeof] is the
    number of its bytes. *)
Section typed_values.
Context {T : Type} (sizeof : nat) (bytes_of : T -> list Z) (of_bytes : list Z -> T).

Section reader.
Context {S : Type} `{BufferSource S}.

(* @ src/batteries/async/stream_buffer.ipp 62-80 StreamBuffer::fetch_type *)
Definition fetch_type (s : S) : io (StatusOr T * S) :=
  '(fetched, s) ← fetch_at_least (Z.of_nat sizeof) s;
  match fetched with
  | Err e => Ret (Err e, s)
  | OkVal [] => Panicked
  | OkVal (front :: more) =>
      if (sizeof <=? length front)%nat then Ret (OkVal (of_bytes (take sizeof front)), s)
      else
        let tmp := take sizeof (concat (front :: more)) in
        check_io (length tmp =? sizeof)%nat ≫= fun _ => Ret (OkVal (of_bytes tmp), s)
  end.

(* @ src/batteries/async/stream_buffer.ipp 84-104 StreamBuffer::consume_type, read_type *)
Definition read_type (s : S) : io (StatusOr T * S) :=
  '(fetched, s) ← fetch_type s;
  match fetched with
  | Err e => Ret (Err e, s)
  | OkVal v => s ← consume (Z.of_nat sizeof) s; Ret (OkVal v, s)
  end.
End reader.

Section writer.
Context {D : Type} `{ByteSink D}.

(** Each round writes a byte. *)
(* @ src/batteries/async/stream_buffer_impl.hpp 91-103 StreamBuffer::write_all *)
Fixpoint write_all (fuel : nat) (bytes : list Z) (d : D) : io (StatusOr unit * D) :=
  match bytes with
  | [] => Ret (OkVal tt, d)
  | _ =>
      match fuel with
      | O => NoFuel
      | Datatypes.S fuel =>
          '(prepared, d) ← prepare_at_least 1 d;
          match prepared with
          | Err e => Ret (Err e, d)
          | OkVal sizes =>
              let n_copied := Nat.min (sum_list sizes) (length bytes) in
              d ← commit (take n_copied bytes) d; write_all fuel (drop n_copied bytes) d
          end
      end
  end.

(* @ src/batteries/async/stream_buffer.ipp 54-58 StreamBuffer::write_type *)
Definition write_type (v : T) (d : D) : io (StatusOr unit * D) := write_all sizeof (bytes_of v) d.
End writer.

Hypothesis Hsize : forall v, length (bytes_of v) = sizeof.
Hypothesis Hbytes : forall v, of_bytes (bytes_of v) = v.
Hypothesis Hpos : (0 < sizeof)%nat.

Lemma write_all_spec {D} {BD : ByteSink D} {SD : @SinkLaws D BD} (fuel : nat) (bytes : list Z) (d : D) :
  sink_valid d -> (length bytes <= fuel)%nat ->
  match write_all fuel bytes d with
  | Ret (OkVal _, d') => sink_valid d' /\ received d' = received d ++ bytes
  | Ret (Err _, d') => sink_valid d' /\ exists k, (k < length bytes)%nat /\ received d' = received d ++ take k bytes
  | Blocked => True
  | Panicked | NoFuel => False
  end.
Proof.
  revert bytes d. induction fuel as [|fuel IH]; intros bytes d Hv Hf; destruct bytes as [|x bytes]; cbn [write_all]; try (by rewrite app_nil_r); [simpl in Hf; lia|].
  set (l := x :: bytes) in *. pose proof (prepare_spec 1 d Hv ltac:(lia)) as Hp.
  destruct (prepare_at_least 1 d) as [[[sizes|e] d1]| | |]; try done; cbn [mbind io_bind].
  2: { destruct Hp as [Hv1 Hr1]. split; [done|]. exists 0%nat. simpl. split; [lia|]. by rewrite Hr1, app_nil_r. }
  destruct Hp as (Hv1 & Hr1 & front & more & -> & Hfront & Hroom). set (n := Nat.min (sum_list (front :: more)) (length l)).
  assert (0 < n <= length l)%nat as Hn by (unfold n, l in *; simpl; lia).
  destruct (commit_spec (take n l) d1 Hv1) as (d2 & -> & Hv2 & Hr2); [apply Hroom; rewrite length_take; lia|]. cbn [mbind io_bind].
  specialize (IH (drop n l) d2 Hv2). rewrite length_drop in IH. specialize (IH ltac:(lia)). rewrite Hr2, Hr1, <- !app_assoc in IH.
  destruct (write_all fuel (drop n l) d2) as [[[[]|e] d3]| | |]; try done.
  - destruct IH as [Hv3 Hr3]. split; [done|]. by rewrite Hr3, take_drop.
  - destruct IH as (Hv3 & k & Hk & Hr3). split; [done|]. exists (n + k)%nat. split; [lia|]. rewrite Hr3. by rewrite <- take_take_drop, <- app_assoc.
Qed.

(** What [write_type] adds to the stream, [read_type] reads, once. *)
Theorem typed_roundtrip {D} {BD : ByteSink D} {SD : @SinkLaws D BD} {S} {BS : BufferSource S} {SL : @SourceLaws S BS}
    {PC : @PartialConsume S BS SL} {FM : @FetchesMin S BS SL} {FF : @FetchesFront S BS SL} (v : T) (d : D) (s : S) (rest : list Z) :
  sink_valid d -> valid s ->
  match write_type v d with
  | Ret (OkVal _, d') =>
      received d' = received d ++ bytes_of v /\
      (content s = bytes_of v ++ rest ->
       match read_type s with
       | Ret (OkVal w, s') => w = v /\ valid s' /\ content s' = rest
       | Ret (Err e, _) => e <> kEndOfStream
       | Blocked => True
       | Panicked | NoFuel => False
       end)
  | Ret (Err _, d') => exists k, (k < sizeof)%nat /\ received d' = received d ++ take k (bytes_of v)
  | Blocked => True
  | Panicked | NoFuel => False
  end.
Proof.
  intros Hd Hs. unfold write_type. pose proof (write_all_spec sizeof (bytes_of v) d Hd ltac:(rewrite Hsize; lia)) as Hw. rewrite Hsize in Hw.
  destruct (write_all sizeof (bytes_of v) d) as [[[[]|e] d']| | |]; try done; [|by destruct Hw].
  destruct Hw as [_ Hw]. split; [done|]. intros Hc. unfold read_type, fetch_type.
  pose proof (fetch_spec (Z.of_nat sizeof) s Hs ltac:(lia)) as Hf.
  destruct (fetch_at_least (Z.of_nat sizeof) s) as [[[bufs|e] s1]| | |] eqn:E; try done; cbn [mbind io_bind].
  - destruct (fetches_front (Z.of_nat sizeof) _ _ _ Hs ltac:(lia) E) as (front & more & -> & Hfront). rewrite (proj2 (Nat.leb_le _ _)) by lia. cbn [mbind io_bind].
    destruct Hf as (Hv1 & Hc1 & Hp & _ & _). pose proof (partial_consume (Z.of_nat sizeof) _ _ _ sizeof Hs ltac:(lia) E) as Hcan.
    destruct (consume_spec sizeof s1 Hv1) as (s2 & -> & Hv2 & Hc2); [apply Hcan; unfold buffer_size; simpl; rewrite length_app; lia|]. cbn [mbind io_bind].
    assert (front `prefix_of` content s) as [tl Htl] by (etrans; [|exact Hp]; simpl; by eexists).
    assert (take sizeof front = bytes_of v) as ->.
    { apply (f_equal (take sizeof)) in Htl. rewrite Hc, take_app_le in Htl by (rewrite Hsize; lia). rewrite take_app_le in Htl by lia.
      rewrite <- Htl. by rewrite take_ge by (rewrite Hsize; lia). }
    split_and!; [apply Hbytes|done|]. rewrite Hc2, Hc1, Hc. by rewrite <- (Hsize v), drop_app_length.
  - intros He. destruct (Hf He) as (_ & _ & Hl & _). rewrite Hc, length_app, Hsize in Hl. lia.
Qed.
End typed_values.

(** ** Examples

    The reader's side of a stream buffer; a sink whose regions have [chunk]
    bytes. *)
#[export] Instance byte_stream_front : FetchesFront ByteStream.
Proof.
  intros n s s' bufs _ Hn. cbn -[gather buffer_size]. destruct (Z.of_nat (buffer_size (arrived s)) <? n) eqn:E; bool_cases; [by case_if|].
  intros [= <- <-]. unfold buffer_size in E. destruct (arrived s) as [|front [|b more]]; simpl in E; [lia| |].
  - rewrite app_nil_r in E. exists front, []. split; [done|lia].
  - cbn [gather]. destruct (length front <? Z.to_nat n)%nat eqn:El.
    + eexists _, _. split; [done|]. rewrite length_take. simpl. lia.
    + apply Nat.ltb_ge in El. eexists _, _. split; [done|lia].
Qed.

#[export] Instance byte_stream_fails_at_end : FailsAtEnd ByteStream.
Proof. intros s s' e _. cbn -[gather buffer_size]. repeat case_if; try done. by intros [= <-]. Qed.

Record MemorySink : Type := mkMemorySink { got : list Z; chunk : nat; available : nat }.

#[export] Instance memory_sink : ByteSink MemorySink := {|
  prepare_at_least n d :=
    if (chunk d =? 0)%nat then Ret (Err kClosed, d) else Ret (OkVal [chunk d; chunk d], mkMemorySink (got d) (chunk d) (chunk d + chunk d));
  commit bytes d :=
    if (length bytes <=? available d)%nat then Ret (mkMemorySink (got d ++ bytes) (chunk d) (available d - length bytes)) else Panicked |}.

#[export, refine] Instance memory_sink_laws : SinkLaws MemorySink := {|
  received := got; sink_valid d := Z.of_nat (chunk d) <= int_max; room d k := (k <= available d)%nat |}.
Proof.
  - intros n d Hv Hn. cbn. destruct (chunk d =? 0)%nat eqn:E; [done|]. apply Nat.eqb_neq in E. split_and!; [done|done|].
    eexists _, _. split_and!; [done|lia|]. intros k Hk. cbn in *. lia.
  - intros bytes d Hv Hk. cbn. rewrite (proj2 (Nat.leb_le _ _)) by done. by eexists.
Defined.

Definition sample_input : ByteStream := mkStream [[1; 2; 3]; [4; 5]; [6]] true.

Definition sample_ops : list InputOp := [ONext; OBackUp 2; OSkip 3; ONext; ONext; OSkip 1].

Lemma input_stream_correct_witness :
  match run_client sample_ops (mkClient (open_input sample_input) [] []) with
  | Ret c => seen c = [Some 1; None; None; None; Some 5; Some 6] /\ ends c = [6] /\
      Forall2 byte_ok (seen c) (take (Z.to_nat (ByteCount (stream c))) [1; 2; 3; 4; 5; 6])
  | _ => False
  end.
Proof.
  pose proof (input_stream_correct (S := ByteStream) [1; 2; 3; 4; 5; 6] ltac:(vm_compute; discriminate) sample_input sample_ops I eq_refl) as H.
  destruct (run_client sample_ops (mkClient (open_input sample_input) [] [])) as [c| | |] eqn:E; vm_compute in E; try discriminate E.
  injection E as <-. split; [reflexivity|]. split; [reflexivity|]. apply H.
Defined.

Definition zeros (n : nat) : list Z := replicate n 0.

Definition sample_output_ops : list OutputOp :=
  [PNext; PFill [1; 2; 3]; PNext; PFill [4; 5]; PBackUp 2; PBackUp 5; PNext; PFill [7]; PBackUp 2].

Lemma memory_regions_small (d d' : MemorySink) (front : nat) (more : list nat) :
  sink_valid d -> prepare_at_least 1 d = Ret (OkVal (front :: more), d') -> Z.of_nat front <= int_max.
Proof. cbn. intros Hv. case_if; [done|]. by intros [= <- _ _]. Qed.

Lemma output_stream_correct_witness :
  match run_writer zeros sample_output_ops (mkWriter (open_output (mkMemorySink [] 3 0)) []) with
  | Ret w => finished w ++ current (output w) = [1; 2; 3; 7] /\ output_ByteCount (output w) = 4 /\ 
      exists st, commit_data (output w) = Ret st /\ received (out_buffer_ st) = finished w ++ current (output w)
  | _ => False
  end.
Proof.
  pose proof (output_stream_correct (D := MemorySink) zeros ltac:(intros n; apply length_replicate) memory_regions_small
    (mkMemorySink [] 3 0) sample_output_ops ltac:(vm_compute; discriminate) eq_refl) as H.
  destruct (run_writer zeros sample_output_ops _) as [w| | |] eqn:E; vm_compute in E; try discriminate E.
  injection E as <-. destruct H as (st & H1 & H2 & H3). split; [reflexivity|]. split; [reflexivity|]. exists st. split; [exact H1|exact H2].
Defined.

(** A 16-bit number. *)
Definition u16_bytes (v : Z) : list Z := [v mod 256; v / 256 mod 256].
Definition u16_of_bytes (l : list Z) : Z := nth 0 l 0 + 256 * nth 1 l 0.

Example typed_values :
  write_type 2 u16_bytes 513 (mkMemorySink [] 1 0) = Ret (OkVal tt, mkMemorySink [1; 2] 1 0) /\
  read_type 2 u16_of_bytes (mkStream [[1]; [2; 9]] false) = Ret (OkVal 513, mkStream [[9]] false).
Proof. vm_compute. done. Qed.
