(* ===== verification/TaskState.v ===== *)
(** * Task: how a user-space thread is suspended, signalled and resumed

    [async/task_decl.hpp] and [async/task_impl.hpp].  A task is a stackful
    continuation whose scheduling is driven by one atomic word, [state_].  The
    body runs on whichever thread activates it; the callback of an [await],
    [call_when_done], [wake] and [try_dump_stack_trace] run on any thread.
    Each atomic access is one step of a thread, so every interleaving is a
    schedule.

    The body is a list of actions: the awaits (with or without the sleep
    timer) and the yields it makes.  Its call stack lives in the task's
    memory ([stack_]), whether it is running or suspended.  An activation
    that [boost::asio] posts or dispatches is a new thread at [Activate]; a
    dispatched activation runs nested in its caller, which is one of the
    interleavings of the two, since the caller has nothing left to do.

    Not modelled are the checks of [task_impl.hpp] on data of one thread (that
    [current_ptr] and the [Trampoline] of the thread name the task that runs on
    it): they compare what the thread itself has stored. *)

From S2P Require Import Prelude.
Open Scope Z_scope.

(* @ src/batteries/async/task_decl.hpp 121-123 Task::kNeedSignal *)
Definition kNeedSignal : Z := Z.shiftl 1 0.
(* @ src/batteries/async/task_decl.hpp 125-127 Task::kHaveSignal *)
Definition kHaveSignal : Z := Z.shiftl 1 1.
(* @ src/batteries/async/task_decl.hpp 129-131 Task::kSuspended *)
Definition kSuspended : Z := Z.shiftl 1 2.
(* @ src/batteries/async/task_decl.hpp 133-135 Task::kTerminated *)
Definition kTerminated : Z := Z.shiftl 1 3.
(* @ src/batteries/async/task_decl.hpp 137-139 Task::kStackTrace *)
Definition kStackTrace : Z := Z.shiftl 1 4.
(* @ src/batteries/async/task_decl.hpp 141-143 Task::kSleepTimerLock *)
Definition kSleepTimerLock : Z := Z.shiftl 1 5.
(* @ src/batteries/async/task_decl.hpp 145-147 Task::kCompletionHandlersLock *)
Definition kCompletionHandlersLock : Z := Z.shiftl 1 6.
(* @ src/batteries/async/task_decl.hpp 149-154 Task::kSleepTimerLockSuspend *)
Definition kSleepTimerLockSuspend : Z := Z.shiftl 1 7.
(* @ src/batteries/async/task_decl.hpp 156-159 Task::kCompletionHandlersClosed *)
Definition kCompletionHandlersClosed : Z := Z.shiftl 1 8.

(* @ src/batteries/async/task_decl.hpp 169-174 Task::is_running_state *)
Definition is_running_state (state : Z) : bool := Z.land state kSuspended =? 0.

(* @ src/batteries/async/task_decl.hpp 176-198 Task::is_ready_state *)
Definition is_ready_state (state : Z) : bool :=
  (Z.land state (Z.lor kSuspended kTerminated) =? kSuspended) &&
  ((Z.land state (Z.lor kNeedSignal kHaveSignal) =? 0) ||
   (Z.land state (Z.lor kNeedSignal kHaveSignal) =? Z.lor kNeedSignal kHaveSignal)) &&
  (Z.land state kStackTrace =? 0).

(* @ src/batteries/async/task_decl.hpp 200-205 Task::is_terminal_state *)
Definition is_terminal_state (state : Z) : bool :=
  Z.land state (Z.lor kSuspended kTerminated) =? Z.lor kSuspended kTerminated.

(** One call of [await_impl]: its identity, whether it is the one of
    [sleep_impl], and whether the function that starts the operation lets
    another task preempt this one before or after it has done so. *)
Record Await : Type := mkAwait {
  await_id : nat;
  sleeping : bool;
  preempt_before : bool;
  preempt_after : bool }.

(** What the body does; [DoYield true] is a preemption by another task. *)
Inductive Action : Type := DoAwait (a : Await) | DoYield (preempted : bool).

(** Where the body is. *)
Inductive BodyPc : Type :=
| Entry (acts : list Action)                (* pre_body_fn_entry, switched out *)
| Run (acts : list Action)
| SleepLock (a : Await) (acts : list Action)       (* sleep_impl *)
| Need (a : Await) (acts : list Action)            (* await_impl *)
| CallFn (a : Await) (acts : list Action)
| StartOp (a : Await) (acts : list Action)
| Started (a : Await) (acts : list Action)
| LastYield (a : Await) (acts : list Action)
| TakeResult (a : Await) (acts : list Action)
| SleepUnlock (acts : list Action)
| Suspend (next : BodyPc)                   (* yield_impl *)
| Resumed (next : BodyPc)
| Exited.

(** Who resumed the continuation: [Task::run] or [try_dump_stack_trace]. *)
Inductive Resumer : Type := Runner | Dumper.

(** [frame_] is the local variable [result] of the live call of [await_impl],
    if there is one: the await it belongs to and whether it has been set. *)
(* @ src/batteries/async/task_decl.hpp 844-873 Task *)
Record Memory : Type := mkMemory {
  state_ : Z;
  self_ : bool;
  scheduler_ : option Resumer;
  stack_ : BodyPc;
  frame_ : option (nat * bool);
  completion_handlers_ : list nat;
  is_preempted_ : bool;
  stack_trace_ : bool;
  sleep_timer_ : bool;
  priority_ : Z }.

Definition set_state (m : Memory) (s : Z) : Memory :=
  mkMemory s (self_ m) (scheduler_ m) (stack_ m) (frame_ m) (completion_handlers_ m)
    (is_preempted_ m) (stack_trace_ m) (sleep_timer_ m) (priority_ m).

Definition set_control (m : Memory) (self : bool) (scheduler : option Resumer) : Memory :=
  mkMemory (state_ m) self scheduler (stack_ m) (frame_ m) (completion_handlers_ m)
    (is_preempted_ m) (stack_trace_ m) (sleep_timer_ m) (priority_ m).

Definition set_stack (m : Memory) (b : BodyPc) : Memory :=
  mkMemory (state_ m) (self_ m) (scheduler_ m) b (frame_ m) (completion_handlers_ m)
    (is_preempted_ m) (stack_trace_ m) (sleep_timer_ m) (priority_ m).

Definition set_frame (m : Memory) (f : option (nat * bool)) : Memory :=
  mkMemory (state_ m) (self_ m) (scheduler_ m) (stack_ m) f (completion_handlers_ m)
    (is_preempted_ m) (stack_trace_ m) (sleep_timer_ m) (priority_ m).

Definition set_handlers (m : Memory) (hs : list nat) : Memory :=
  mkMemory (state_ m) (self_ m) (scheduler_ m) (stack_ m) (frame_ m) hs
    (is_preempted_ m) (stack_trace_ m) (sleep_timer_ m) (priority_ m).

Definition set_preempted (m : Memory) (p : bool) : Memory :=
  mkMemory (state_ m) (self_ m) (scheduler_ m) (stack_ m) (frame_ m) (completion_handlers_ m)
    p (stack_trace_ m) (sleep_timer_ m) (priority_ m).

Definition set_trace (m : Memory) (t : bool) : Memory :=
  mkMemory (state_ m) (self_ m) (scheduler_ m) (stack_ m) (frame_ m) (completion_handlers_ m)
    (is_preempted_ m) t (sleep_timer_ m) (priority_ m).

Definition set_timer (m : Memory) : Memory :=
  mkMemory (state_ m) (self_ m) (scheduler_ m) (stack_ m) (frame_ m) (completion_handlers_ m)
    (is_preempted_ m) (stack_trace_ m) true (priority_ m).

(* @ src/batteries/async/task_decl.hpp 578-584 Task::set_priority *)
Definition set_priority (m : Memory) (new_priority : Z) : Memory :=
  mkMemory (state_ m) (self_ m) (scheduler_ m) (stack_ m) (frame_ m) (completion_handlers_ m)
    (is_preempted_ m) (stack_trace_ m) (sleep_timer_ m) new_priority.

(** Where a thread is. *)
Inductive Pc : Type :=
| Handler (k : nat)                              (* the callback of await [k] *)
| HandleEvent (event_mask : Z)
| ScheduleToRun (observed : Z) (force_post : bool)
| Activate
| RunLoad | RunRelock (observed : Z) | RunResume
| Body
| RunSaved | RunRelease (observed : Z)
| CompleteCheck | CompleteLock | CompleteClose | CompleteTake | CompleteUnlock (hs : list nat)
| Invoke (hs : list nat)
| WhenDone (h : nat) | WhenDoneLock (h : nat) | WhenDonePush (h : nat)
| WhenDoneUnlock | WhenDoneRetry (h : nat)
| DumpLoad | DumpCas (observed : Z) | DumpResume | DumpTrace | DumpReload | DumpCas2 (observed : Z)
| WakeLock | WakeCancel | WakeUnlock
| SetPriority (p : Z)
| Finished
| Panicked.

(** What the threads of a run have done. *)
Inductive Event : Type :=
| AwaitReturned (k : nat)
| HandlerRan (h : nat).

(** What the environment decides at a step: whether a weak compare-exchange
    fails spuriously, and the priority of the task that is current on the
    thread an activation has reached, if there is one. *)
Record Env : Type := mkEnv { spurious : bool; current : option Z }.

Definition Result : Type := (Memory * Pc * list Pc * list Event)%type.

(** The thread goes on at [pc] with memory [m]. *)
Definition goto (m : Memory) (pc : Pc) : Result := (m, pc, [], []).

(* @ src/batteries/async/task_impl.hpp 409-433 Task::spin_lock, try_spin_lock *)
Definition spin_lock (lock_mask : Z) (m : Memory) (next : Z -> Pc) (retry : Pc) : Result :=
  let prior_state := state_ m in
  goto (set_state m (Z.lor prior_state lock_mask))
    (if Z.land prior_state lock_mask =? 0 then next prior_state else retry).

(* @ src/batteries/async/task_impl.hpp 435-440 Task::spin_unlock *)
Definition spin_unlock (lock_mask : Z) (m : Memory) : Memory :=
  set_state m (Z.ldiff (state_ m) lock_mask).

(* @ src/batteries/async/task_impl.hpp 285-308 Task::handle_event *)
Definition handle_event (m : Memory) (event_mask : Z) : Memory * Pc :=
  let new_state := Z.lor (state_ m) event_mask in
  let m' := set_state m new_state in
  if is_ready_state new_state then
    (set_preempted m' false, ScheduleToRun new_state (is_preempted_ m))
  else if is_terminal_state new_state then
    (m', if self_ m || bool_decide (scheduler_ m <> None) then Panicked else CompleteCheck)
  else (m', Finished).

(* @ src/batteries/async/task_impl.hpp 310-336 Task::schedule_to_run *)
Definition schedule_to_run (spurious : bool) (m : Memory) (observed_state : Z) (force_post : bool) : Result :=
  if negb (is_ready_state observed_state) then goto m Finished
  else
    let target_state := Z.ldiff observed_state (Z.lor kSuspended (Z.lor kNeedSignal kHaveSignal)) in
    if spurious || negb (state_ m =? observed_state) then goto m (ScheduleToRun (state_ m) force_post)
    else if self_ m then (set_state m target_state, Finished, [Activate], [])
    else goto m Panicked.

(** [activate_task] for the task of the model: [current] is the priority of
    the task current on the thread.  A task of equal or higher priority keeps
    the thread and the activation is posted again; one of lower priority
    yields, and the loop runs this task next. *)
(* @ src/batteries/async/task_impl.hpp 570-619 Task::Trampoline::activate_task *)
Definition activate_task (current : option Z) (m : Memory) : Pc :=
  match current with
  | Some p => if p >=? priority_ m then Activate else RunLoad
  | None => RunLoad
  end.

(* @ src/batteries/async/task_impl.hpp 376-383 Task::resume_impl *)
Definition resume_impl (who : Resumer) (m : Memory) : Result :=
  if self_ m then goto (set_control m false (Some who)) Body else goto m Panicked.

(** Where the thread that resumed the body goes on when it gets control back. *)
Definition back_to (who : Resumer) : Pc := match who with Runner => RunSaved | Dumper => DumpTrace end.

(* @ src/batteries/async/task_impl.hpp 338-374 Task::run *)
Definition run_step (spurious : bool) (m : Memory) (pc : Pc) : Result :=
  match pc with
  | RunLoad =>
      goto m (if Z.land (state_ m) kSleepTimerLockSuspend =? 0 then RunResume else RunRelock (state_ m))
  | RunRelock observed_state =>
      if negb (Z.land observed_state kSleepTimerLock =? 0) then goto m (RunRelock (state_ m))
      else
        let target_state := Z.lor (Z.ldiff observed_state kSleepTimerLockSuspend) kSleepTimerLock in
        if spurious || negb (state_ m =? observed_state) then goto m (RunRelock (state_ m))
        else goto (set_state m target_state) RunResume
  | RunResume => resume_impl Runner m
  | RunSaved =>
      goto m (if Z.land (state_ m) kSleepTimerLock =? 0 then HandleEvent kSuspended else RunRelease (state_ m))
  | RunRelease observed_state =>
      let target_state := Z.lor (Z.ldiff observed_state kSleepTimerLock) kSleepTimerLockSuspend in
      if spurious || negb (state_ m =? observed_state) then goto m (RunRelease (state_ m))
      else goto (set_state m target_state) (HandleEvent kSuspended)
  | _ => goto m pc
  end.

(* @ src/batteries/async/task_impl.hpp 385-407 Task::yield_impl *)
Definition yield_step (m : Memory) : Result :=
  match stack_ m, scheduler_ m with
  | Suspend next, Some who => goto (set_control (set_stack m (Resumed next)) true None) (back_to who)
  | Resumed next, Some _ =>
      if Z.land (state_ m) kStackTrace =? 0 then goto (set_stack m next) Body
      else goto (set_trace (set_stack m (Suspend next)) true) Body
  | _, _ => goto m Panicked
  end.

(** The callback writes the local variable of the call of [await_impl] it was
    made for, and then signals the task. *)
(* @ src/batteries/async/task_decl.hpp 749-777 Task::await_impl *)
Definition await_step (m : Memory) : Result :=
  match stack_ m with
  | Need a acts =>
      let prior_state := state_ m in
      let m' := set_frame (set_state m (Z.lor prior_state kNeedSignal)) (Some (await_id a, false)) in
      if Z.land prior_state kHaveSignal =? 0 then goto (set_stack m' (CallFn a acts)) Body else goto m' Panicked
  | CallFn a acts =>
      if preempt_before a then goto (set_preempted (set_stack m (Suspend (StartOp a acts))) true) Body
      else goto (set_stack m (StartOp a acts)) Body
  | StartOp a acts => (set_stack m (Started a acts), Body, [Handler (await_id a)], [])
  | Started a acts =>
      if preempt_after a then goto (set_preempted (set_stack m (Suspend (LastYield a acts))) true) Body
      else goto (set_stack m (LastYield a acts)) Body
  | LastYield a acts => goto (set_stack m (Suspend (TakeResult a acts))) Body
  | TakeResult a acts =>
      match frame_ m with
      | Some (k, true) =>
          (set_frame (set_stack m (if sleeping a then SleepUnlock acts else Run acts)) None, Body, [],
           [AwaitReturned k])
      | _ => goto m Panicked
      end
  | _ => goto m Panicked
  end.

(* @ src/batteries/async/task_decl.hpp 765-770 Task::await_impl *)
Definition handler_step (m : Memory) (k : nat) : Result :=
  match frame_ m with
  | Some (k', _) =>
      if decide (k' = k) then goto (set_frame m (Some (k, true))) (HandleEvent kHaveSignal) else goto m Panicked
  | None => goto m Panicked
  end.

(** The timer is created under the lock; the await is in the lock's scope. *)
(* @ src/batteries/async/task_impl.hpp 192-221 Task::sleep_impl *)
Definition sleep_step (m : Memory) : Result :=
  match stack_ m with
  | SleepLock a acts =>
      let prior_state := state_ m in
      let m' := set_state m (Z.lor prior_state kSleepTimerLock) in
      if Z.land prior_state kSleepTimerLock =? 0 then goto (set_timer (set_stack m' (Need a acts))) Body
      else goto m' Body
  | SleepUnlock acts => goto (set_stack (spin_unlock kSleepTimerLock m) (Run acts)) Body
  | _ => goto m Panicked
  end.

(** The other outcomes of [handle_event] here are shown to be unreachable. *)
(* @ src/batteries/async/task_impl.hpp 157-166 Task::post_body_fn_exit *)
Definition post_body_fn_exit (m : Memory) : Result :=
  match scheduler_ m with
  | Some parent =>
      match handle_event (set_control m (self_ m) None) kTerminated with
      | (m', Finished) => goto (set_stack m' Exited) (back_to parent)
      | (m', _) => goto m' Panicked
      end
  | None => goto m Panicked
  end.

(* @ src/batteries/async/task_decl.hpp 524-540 Task::Task *)
Definition body_step (m : Memory) : Result :=
  match stack_ m with
  | Entry acts => goto (set_stack m (Run acts)) Body
  | Run [] => post_body_fn_exit m
  | Run (DoYield preempted :: acts) =>
      goto (set_preempted (set_stack m (Suspend (Run acts))) (preempted || is_preempted_ m)) Body
  | Run (DoAwait a :: acts) => goto (set_stack m (if sleeping a then SleepLock a acts else Need a acts)) Body
  | SleepLock _ _ | SleepUnlock _ => sleep_step m
  | Suspend _ | Resumed _ => yield_step m
  | Need _ _ | CallFn _ _ | StartOp _ _ | Started _ _ | LastYield _ _ | TakeResult _ _ => await_step m
  | Exited => goto m Panicked
  end.

(* @ src/batteries/async/task_impl.hpp 168-190 Task::run_completion_handlers *)
Definition run_completion_handlers_step (m : Memory) (pc : Pc) : Result :=
  match pc with
  | CompleteCheck =>
      goto m (if is_terminal_state (state_ m) && bool_decide (scheduler_ m = None) && negb (self_ m)
              then CompleteLock else Panicked)
  | CompleteLock => spin_lock kCompletionHandlersLock m (fun _ => CompleteClose) CompleteLock
  | CompleteClose =>
      let prior_state := state_ m in
      goto (set_state m (Z.lor prior_state kCompletionHandlersClosed))
        (if Z.land prior_state kCompletionHandlersClosed =? 0 then CompleteTake else Panicked)
  | CompleteTake => goto (set_handlers m []) (CompleteUnlock (completion_handlers_ m))
  | CompleteUnlock hs => goto (spin_unlock kCompletionHandlersLock m) (Invoke hs)
  | Invoke [] => goto m Finished
  | Invoke (h :: hs) => (m, Invoke hs, [], [HandlerRan h])
  | _ => goto m pc
  end.

(* @ src/batteries/async/task_decl.hpp 624-653 Task::call_when_done *)
Definition call_when_done_step (m : Memory) (pc : Pc) : Result :=
  match pc with
  | WhenDone h =>
      if is_terminal_state (state_ m) then (m, Finished, [], [HandlerRan h]) else goto m (WhenDoneLock h)
  | WhenDoneLock h =>
      spin_lock kCompletionHandlersLock m
        (fun prior_state =>
           if is_terminal_state prior_state || negb (Z.land prior_state kCompletionHandlersClosed =? 0)
           then WhenDoneRetry h else WhenDonePush h) pc
  | WhenDonePush h => goto (set_handlers m (completion_handlers_ m ++ [h])) WhenDoneUnlock
  | WhenDoneUnlock => goto (spin_unlock kCompletionHandlersLock m) Finished
  | WhenDoneRetry h => goto (spin_unlock kCompletionHandlersLock m) (WhenDone h)
  | _ => goto m pc
  end.

(* @ src/batteries/async/task_impl.hpp 465-540 Task::try_dump_stack_trace *)
Definition try_dump_stack_trace_step (spurious : bool) (m : Memory) (pc : Pc) : Result :=
  match pc with
  | DumpLoad => goto m (DumpCas (state_ m))
  | DumpCas observed_state =>
      if is_running_state observed_state || is_ready_state observed_state ||
         is_terminal_state observed_state || negb (Z.land observed_state kStackTrace =? 0)
      then goto m Finished
      else if spurious || negb (state_ m =? observed_state) then goto m (DumpCas (state_ m))
      else goto (set_state m (Z.lor observed_state kStackTrace)) DumpResume
  | DumpResume => resume_impl Dumper m
  | DumpTrace => if stack_trace_ m then goto (set_trace m false) DumpReload else goto m Panicked
  | DumpReload => goto m (DumpCas2 (state_ m))
  | DumpCas2 observed_state =>
      let target_state := Z.lor (Z.ldiff observed_state kStackTrace) kSuspended in
      if is_terminal_state target_state then goto m Panicked
      else if spurious || negb (state_ m =? observed_state) then goto m (DumpCas2 (state_ m))
      else goto (set_state m target_state)
             (if is_ready_state target_state then ScheduleToRun target_state true else Finished)
  | _ => goto m pc
  end.

(** Cancelling the timer makes [boost::asio] invoke the pending callback of
    the sleep, which the environment may do at any time. *)
(* @ src/batteries/async/task_impl.hpp 269-283 Task::wake *)
Definition wake_step (m : Memory) (pc : Pc) : Result :=
  match pc with
  | WakeLock =>
      spin_lock kSleepTimerLock m (fun _ => if sleep_timer_ m then WakeCancel else WakeUnlock) WakeLock
  | WakeCancel => goto m WakeUnlock
  | WakeUnlock => goto (spin_unlock kSleepTimerLock m) Finished
  | _ => goto m pc
  end.

(** One atomic step: the new memory, the new program counter, the threads
    that are started and what has happened. *)
Definition thread_step (env : Env) (m : Memory) (pc : Pc) : Result :=
  match pc with
  | Handler k => handler_step m k
  | HandleEvent event_mask => let '(m', pc') := handle_event m event_mask in goto m' pc'
  | ScheduleToRun observed force_post => schedule_to_run (spurious env) m observed force_post
  | Activate => goto m (activate_task (current env) m)
  | RunLoad | RunRelock _ | RunResume | RunSaved | RunRelease _ => run_step (spurious env) m pc
  | Body => body_step m
  | CompleteCheck | CompleteLock | CompleteClose | CompleteTake | CompleteUnlock _ | Invoke _ =>
      run_completion_handlers_step m pc
  | WhenDone _ | WhenDoneLock _ | WhenDonePush _ | WhenDoneUnlock | WhenDoneRetry _ => call_when_done_step m pc
  | DumpLoad | DumpCas _ | DumpResume | DumpTrace | DumpReload | DumpCas2 _ =>
      try_dump_stack_trace_step (spurious env) m pc
  | WakeLock | WakeCancel | WakeUnlock => wake_step m pc
  | SetPriority p => goto (set_priority m p) Finished
  | Finished | Panicked => goto m pc
  end.

Record State : Type := mkState {
  mem : Memory;
  threads : list Pc;
  log : list Event }.

(** One step of thread [i]. *)
Definition step (i : nat) (env : Env) (st : State) : State :=
  match threads st !! i with
  | Some pc =>
      let '(m, pc', spawned, ev) := thread_step env (mem st) pc in
      mkState m (<[i := pc']> (threads st) ++ spawned) (log st ++ ev)
  | None => st
  end.

Definition run (schedule : list (nat * Env)) (st : State) : State :=
  foldl (fun st ie => step ie.1 ie.2 st) st schedule.

(** What other threads may do with the task. *)
Definition is_external (pc : Pc) : bool :=
  match pc with WhenDone _ | DumpLoad | WakeLock | SetPriority _ => true | _ => false end.

(** The constructor has started the continuation up to [pre_body_fn_entry]
    and is about to give the task its go signal. *)
(* @ src/batteries/async/task_decl.hpp 516-548 Task::Task *)
Definition initial_state (body : list Action) (priority : Z) (others : list Pc) : State :=
  mkState (mkMemory kNeedSignal true None (Entry body) None [] false false false priority)
    (HandleEvent (Z.lor kSuspended kHaveSignal) :: others) [].

(** ** The bits of the state *)

#[local] Arguments Z.testbit : simpl never.
#[local] Arguments Z.add : simpl never.
#[local] Arguments Z.sub : simpl never.

(** A test of the nine flags that depends on nothing else is checked on the
    512 values they can have. *)
Lemma flags_brute (f g : Z -> bool) (s : Z) :
  (forall s, f s = f (Z.land s 511)) -> (forall s, g s = g (Z.land s 511)) ->
  forallb (fun n => eqb (f (Z.of_nat n)) (g (Z.of_nat n))) (seq 0 512) = true -> f s = g s.
Proof.
  intros Hf Hg H. rewrite Hf, Hg.
  assert (0 <= Z.land s 511 < 512) as Hr.
  { change 511 with (Z.ones 9). rewrite Z.land_ones by lia. by apply Z.mod_pos_bound. }
  rewrite forallb_forall in H. specialize (H (Z.to_nat (Z.land s 511))).
  rewrite Z2Nat.id in H by lia. apply eqb_prop, H, in_seq. lia.
Qed.

Lemma land_low (s c : Z) : Z.land 511 c = c -> Z.land (Z.land s 511) c = Z.land s c.
Proof. intros Hc. by rewrite <- Z.land_assoc, Hc. Qed.

Lemma testbit_low (s k : Z) : Z.testbit 511 k = true -> Z.testbit (Z.land s 511) k = Z.testbit s k.
Proof. intros Hk. by rewrite Z.land_spec, Hk, andb_true_r. Qed.

Lemma ready_bits (s : Z) :
  is_ready_state s = Z.testbit s 2 && negb (Z.testbit s 3) && eqb (Z.testbit s 0) (Z.testbit s 1) &&
                     negb (Z.testbit s 4).
Proof.
  apply (flags_brute is_ready_state (fun s => Z.testbit s 2 && negb (Z.testbit s 3) &&
    eqb (Z.testbit s 0) (Z.testbit s 1) && negb (Z.testbit s 4))); [| |by vm_compute].
  - intros x. unfold is_ready_state. by rewrite !land_low.
  - intros x. by rewrite !testbit_low.
Qed.

Lemma terminal_bits (s : Z) : is_terminal_state s = Z.testbit s 2 && Z.testbit s 3.
Proof.
  apply (flags_brute is_terminal_state (fun s => Z.testbit s 2 && Z.testbit s 3)); [| |by vm_compute].
  - intros x. unfold is_terminal_state. by rewrite !land_low.
  - intros x. by rewrite !testbit_low.
Qed.

Lemma running_bits (s : Z) : is_running_state s = negb (Z.testbit s 2).
Proof. by apply (land_bit s 2). Qed.

Lemma test_have (s : Z) : (Z.land s kHaveSignal =? 0) = negb (Z.testbit s 1).
Proof. by apply (land_bit s 1). Qed.

Lemma test_trace (s : Z) : (Z.land s kStackTrace =? 0) = negb (Z.testbit s 4).
Proof. by apply (land_bit s 4). Qed.

Lemma test_lock (s : Z) : (Z.land s kCompletionHandlersLock =? 0) = negb (Z.testbit s 6).
Proof. by apply (land_bit s 6). Qed.

Lemma test_closed (s : Z) : (Z.land s kCompletionHandlersClosed =? 0) = negb (Z.testbit s 8).
Proof. by apply (land_bit s 8). Qed.

(** [bits] computes the flags of an updated state. *)
Ltac const_bits :=
  repeat match goal with
    | |- context [Z.testbit ?c ?k] =>
        let v := eval vm_compute in (Z.testbit c k) in
        match v with
        | true => change (Z.testbit c k) with true
        | false => change (Z.testbit c k) with false
        end
    end.
Ltac bits :=
  rewrite ?ready_bits, ?terminal_bits, ?running_bits, ?test_have, ?test_trace, ?test_lock, ?test_closed,
    ?Z.lor_spec, ?Z.ldiff_spec; const_bits;
  rewrite ?orb_true_r, ?orb_false_r, ?andb_true_r, ?andb_false_r, ?andb_true_l, ?andb_false_l, ?orb_false_l.

(** ** The invariant *)

(** The thread is responsible for the continuation: it is about to resume it,
    runs it, or has just got control back. *)
Definition active (pc : Pc) : bool :=
  match pc with
  | Activate | RunLoad | RunRelock _ | RunResume | Body | RunSaved | RunRelease _
  | DumpResume | DumpTrace | DumpReload | DumpCas2 _ => true
  | HandleEvent mask => Z.testbit mask 2
  | _ => false
  end.

Definition is_handler (pc : Pc) : bool := match pc with Handler _ => true | _ => false end.

(** The thread is about to deliver the signal. *)
Definition is_signal (pc : Pc) : bool :=
  match pc with HandleEvent mask => Z.testbit mask 1 | _ => false end.

(** The thread holds [kCompletionHandlersLock]. *)
Definition holds (pc : Pc) : bool :=
  match pc with
  | CompleteClose | CompleteTake | CompleteUnlock _ | WhenDonePush _ | WhenDoneUnlock | WhenDoneRetry _ => true
  | _ => false
  end.

(** The thread will close the list of completion handlers. *)
Definition will_close (pc : Pc) : bool :=
  match pc with CompleteCheck | CompleteLock | CompleteClose => true | _ => false end.

Definition will_take (pc : Pc) : bool := match pc with CompleteTake => true | _ => false end.

(** How far the body is with the signal it waits for. *)
Inductive Sig : Type := SigEntry | SigIdle | SigNeeded (k : nat) | SigStarted (k : nat).

Fixpoint sig_of (b : BodyPc) : Sig :=
  match b with
  | Entry _ => SigEntry
  | Run _ | SleepLock _ _ | Need _ _ | SleepUnlock _ | Exited => SigIdle
  | CallFn a _ | StartOp a _ => SigNeeded (await_id a)
  | Started a _ | LastYield a _ | TakeResult a _ => SigStarted (await_id a)
  | Suspend next | Resumed next => sig_of next
  end.

(** The flags [kNeedSignal] and [kHaveSignal], the frame of the await, and
    the number of threads that will call the callback or deliver the signal. *)
Definition sig_ok (need have : bool) (frame : option (nat * bool)) (g : Sig) (calls signals : Z) : Prop :=
  match g with
  | SigEntry =>
      frame = None /\ calls = 0 /\
      ((need = true /\ have = false /\ signals = 1) \/ (need = have /\ signals = 0))
  | SigIdle => frame = None /\ calls = 0 /\ signals = 0 /\ need = false /\ have = false
  | SigNeeded k => frame = Some (k, false) /\ calls = 0 /\ signals = 0 /\ need = true /\ have = false
  | SigStarted k =>
      (frame = Some (k, false) /\ calls = 1 /\ signals = 0 /\ need = true /\ have = false) \/
      (frame = Some (k, true) /\ calls = 0 /\
       ((need = true /\ have = false /\ signals = 1) \/ (need = have /\ signals = 0)))
  end.

Abbreviation need m := (Z.testbit (state_ m) 0).
Abbreviation have m := (Z.testbit (state_ m) 1).
Abbreviation suspended m := (Z.testbit (state_ m) 2).
Abbreviation terminated m := (Z.testbit (state_ m) 3).
Abbreviation tracing m := (Z.testbit (state_ m) 4).
Abbreviation locked m := (Z.testbit (state_ m) 6).
Abbreviation closed m := (Z.testbit (state_ m) 8).

Definition parked (b : BodyPc) : bool := match b with Entry _ | Resumed _ | Exited => true | _ => false end.
Definition at_entry (b : BodyPc) : bool := match b with Entry _ => true | _ => false end.

Fixpoint exited (b : BodyPc) : bool :=
  match b with Exited => true | Suspend next | Resumed next => exited next | _ => false end.

(** The body is at a point it reaches only after the signal was consumed. *)
Definition just_resumed (b : BodyPc) : bool :=
  match b with Resumed _ | Entry _ | TakeResult _ _ => true | _ => false end.

(** The memory while an active thread is before, inside and after the body,
    and while it takes a stack trace. *)
Definition before (m : Memory) : Prop :=
  suspended m = false /\ tracing m = false /\ terminated m = false /\ need m = false /\ have m = false /\
  self_ m = true /\ scheduler_ m = None /\ parked (stack_ m) = true.

Definition inside (m : Memory) : Prop :=
  self_ m = false /\ terminated m = false /\
  match scheduler_ m with
  | Some Runner =>
      suspended m = false /\ tracing m = false /\
      (just_resumed (stack_ m) = true -> need m = false /\ have m = false)
  | Some Dumper =>
      suspended m = true /\ tracing m = true /\
      exists next, stack_ m = Resumed next \/ (stack_ m = Suspend next /\ stack_trace_ m = true)
  | None => False
  end.

Definition after (m : Memory) : Prop :=
  suspended m = false /\ tracing m = false /\ scheduler_ m = None /\ parked (stack_ m) = true /\
  self_ m = negb (terminated m).

Definition dumping (m : Memory) : Prop :=
  suspended m = true /\ tracing m = true /\ terminated m = false /\ self_ m = true /\
  scheduler_ m = None /\ parked (stack_ m) = true /\ at_entry (stack_ m) = false.

Definition local (m : Memory) (pc : Pc) : Prop :=
  match pc with
  | Handler k => frame_ m = Some (k, false)
  | HandleEvent mask =>
      (mask = kHaveSignal /\ exists k, frame_ m = Some (k, true)) \/
      (after m /\ mask = (if at_entry (stack_ m) then Z.lor kSuspended kHaveSignal else kSuspended))
  | Activate | RunLoad | RunRelock _ | RunResume => before m
  | Body => inside m
  | RunSaved | RunRelease _ => after m /\ at_entry (stack_ m) = false
  | DumpResume | DumpReload => dumping m
  | DumpCas2 observed => dumping m /\ Z.testbit observed 3 = false
  | DumpTrace => dumping m /\ stack_trace_ m = true
  | WhenDonePush _ => closed m = false
  | CompleteUnlock _ | Invoke (_ :: _) => suspended m = true /\ terminated m = true
  | Panicked => False
  | _ => True
  end.

(** The memory while no thread is active. *)
Definition at_rest (m : Memory) : Prop :=
  scheduler_ m = None /\ self_ m = negb (terminated m) /\ parked (stack_ m) = true /\
  (at_entry (stack_ m) = true -> need m = true /\ have m = true).

(** The list of completion handlers is closed and emptied once, when the
    task has terminated. *)
Definition stage_ok (m : Memory) (closing taking : Z) : Prop :=
  if suspended m && terminated m then
    (closing = 1 /\ taking = 0 /\ closed m = false) \/
    (closing = 0 /\ closed m = true /\ (taking = 1 \/ (taking = 0 /\ completion_handlers_ m = [])))
  else closing = 0 /\ taking = 0 /\ closed m = false.

(** A ready task has a thread that is about to schedule it. *)
Definition scheduling (ts : list Pc) : Prop :=
  exists i obs force, ts !! i = Some (ScheduleToRun obs force) /\ is_ready_state obs = true.

Record Inv (m : Memory) (ts : list Pc) : Prop := {
  task_active : cnt active ts = Z.b2z (negb (suspended m) || tracing m);
  task_local : forall i pc, ts !! i = Some pc -> local m pc;
  task_rest : suspended m = true -> tracing m = false -> at_rest m;
  task_sig : sig_ok (need m) (have m) (frame_ m) (sig_of (stack_ m)) (cnt is_handler ts) (cnt is_signal ts);
  task_exit : terminated m = exited (stack_ m);
  task_ready : is_ready_state (state_ m) = true -> scheduling ts;
  task_lock : cnt holds ts = Z.b2z (locked m);
  task_stage : stage_ok m (cnt will_close ts) (cnt will_take ts) }.

(** ** How a step of one thread changes the invariant *)

Definition is_scheduling (pc : Pc) : bool :=
  match pc with ScheduleToRun obs _ => is_ready_state obs | _ => false end.

Lemma inv_update (m m' : Memory) (ts sp : list Pc) (i : nat) (pc pc' : Pc) :
  Inv m ts -> ts !! i = Some pc ->
  Z.b2z (negb (suspended m') || tracing m') =
    Z.b2z (negb (suspended m) || tracing m) - Z.b2z (active pc) + Z.b2z (active pc') + cnt active sp ->
  local m' pc' -> Forall (local m') sp ->
  (forall j q, j <> i -> ts !! j = Some q -> local m q -> local m' q) ->
  (suspended m' = true -> tracing m' = false -> at_rest m') ->
  sig_ok (need m') (have m') (frame_ m') (sig_of (stack_ m'))
    (cnt is_handler ts - Z.b2z (is_handler pc) + Z.b2z (is_handler pc') + cnt is_handler sp)
    (cnt is_signal ts - Z.b2z (is_signal pc) + Z.b2z (is_signal pc') + cnt is_signal sp) ->
  terminated m' = exited (stack_ m') ->
  (is_ready_state (state_ m') = true ->
     is_scheduling pc' = true \/ (is_ready_state (state_ m) = true /\ is_scheduling pc = false)) ->
  Z.b2z (locked m') = Z.b2z (locked m) - Z.b2z (holds pc) + Z.b2z (holds pc') + cnt holds sp ->
  stage_ok m' (cnt will_close ts - Z.b2z (will_close pc) + Z.b2z (will_close pc') + cnt will_close sp)
    (cnt will_take ts - Z.b2z (will_take pc) + Z.b2z (will_take pc') + cnt will_take sp) ->
  Inv m' (<[i := pc']> ts ++ sp).
Proof.
  intros [I1 I2 I3 I4 I5 I6 I7 I8] Hi H1 H2 H3 H4 H5 H6 H7 H8 H9 H10.
  assert (<[i := pc']> ts !! i = Some pc') as Hhere by (by eapply list_insert_here).
  split; rewrite ?(cnt_step _ _ _ _ _ _ Hi); try done; [lia| | |lia].
  - intros j q Hj. destruct (step_cases _ _ _ _ _ _ _ Hi Hj) as [[-> ->]|[[Hne Hq]|Hq]]; [done|eauto|].
    rewrite list.Forall_forall in H3. by apply H3.
  - intros Hr. destruct (H8 Hr) as [Hs|[Hr' Hs]].
    + destruct pc'; try done. eexists i, _, _. split; [apply lookup_app_l_Some, Hhere|done].
    + destruct (I6 Hr') as (j & obs & f & Hj & Ho). exists j, obs, f. split; [|done].
      apply lookup_app_l_Some. rewrite list_lookup_insert_ne; [done|]. intros ->.
      rewrite Hi in Hj. injection Hj as ->. simpl in Hs. congruence.
Qed.

(** While one thread is active, no other is. *)
Lemma others_inactive (m : Memory) (ts : list Pc) (i j : nat) (pc q : Pc) :
  Inv m ts -> ts !! i = Some pc -> active pc = true -> j <> i -> ts !! j = Some q -> active q = false.
Proof.
  intros [I1 _ _ _ _ _ _ _] Hi Ha Hne Hj. destruct (active q) eqn:Hq; [|done]. destruct Hne.
  apply (cnt_unique active ts j i q pc); try done. rewrite I1. by destruct (_ || _).
Qed.

Lemma others_unlocked (m : Memory) (ts : list Pc) (i j : nat) (pc q : Pc) :
  Inv m ts -> ts !! i = Some pc -> holds pc = true -> j <> i -> ts !! j = Some q -> holds q = false.
Proof.
  intros [_ _ _ _ _ _ I7 _] Hi Ha Hne Hj. destruct (holds q) eqn:Hq; [|done]. destruct Hne.
  apply (cnt_unique holds ts j i q pc); try done. rewrite I7. by destruct (Z.testbit _ _).
Qed.

Lemma at_rest_inactive (m : Memory) (ts : list Pc) (j : nat) (q : Pc) :
  Inv m ts -> suspended m = true -> tracing m = false -> ts !! j = Some q -> active q = false.
Proof. intros [I1 _ _ _ _ _ _ _] HS HK Hj. apply (cnt_zero active ts j q); [|done]. by rewrite I1, HS, HK. Qed.

(** A step that leaves the frame alone keeps what the inactive threads need. *)
Lemma local_inactive (m m' : Memory) (q : Pc) :
  active q = false -> frame_ m' = frame_ m -> (closed m = false -> closed m' = false) ->
  (suspended m = true -> terminated m = true -> suspended m' = true /\ terminated m' = true) ->
  local m q -> local m' q.
Proof.
  intros Ha Hf Hc Ht. destruct q; simpl in *; rewrite ?Hf; try done; auto.
  - intros [[-> Hk]|[_ ->]]; [by left|]. by destruct (at_entry _).
  - naive_solver.
  - destruct hs; [done|naive_solver].
Qed.

(** The two memories differ at most in the locks, the list of completion
    handlers, [is_preempted_], the timer and the priority. *)
Record same (m m' : Memory) : Prop := {
  same_need : need m' = need m; same_have : have m' = have m;
  same_suspended : suspended m' = suspended m; same_terminated : terminated m' = terminated m;
  same_tracing : tracing m' = tracing m; same_self : self_ m' = self_ m;
  same_scheduler : scheduler_ m' = scheduler_ m; same_stack : stack_ m' = stack_ m;
  same_frame : frame_ m' = frame_ m; same_trace : stack_trace_ m' = stack_trace_ m }.

Ltac use_same H :=
  destruct H as [sN sH sS sT sK sSelf sSch sStk sFr sTr];
  rewrite ?ready_bits, ?sN, ?sH, ?sS, ?sT, ?sK, ?sSelf, ?sSch, ?sStk, ?sFr, ?sTr.

Lemma local_same (m m' : Memory) (q : Pc) :
  same m m' -> (closed m = false -> closed m' = false) -> local m q -> local m' q.
Proof.
  intros H Hc. destruct q as [ | | | | | | | | | | | | | | |hs| | | | | | | | | | | | | | | | | ];
    unfold local, before, inside, after, dumping; try destruct hs; use_same H; auto.
Qed.

Lemma inv_quiet (m m' : Memory) (ts : list Pc) (i : nat) (pc pc' : Pc) :
  Inv m ts -> ts !! i = Some pc -> same m m' -> active pc' = active pc ->
  is_handler pc' = is_handler pc -> is_signal pc' = is_signal pc ->
  (forall j q, j <> i -> ts !! j = Some q -> holds q = false \/ (closed m = false -> closed m' = false)) ->
  local m' pc' ->
  (is_ready_state (state_ m) = true -> is_scheduling pc = true -> is_scheduling pc' = true) ->
  Z.b2z (locked m') = Z.b2z (locked m) - Z.b2z (holds pc) + Z.b2z (holds pc') ->
  stage_ok m' (cnt will_close ts - Z.b2z (will_close pc) + Z.b2z (will_close pc'))
    (cnt will_take ts - Z.b2z (will_take pc) + Z.b2z (will_take pc')) ->
  Inv m' (<[i := pc']> ts ++ []).
Proof.
  intros I Hi Hs Ha Hh Hg Hc Hl Hr Hk Hst. pose proof I as [I1 I2 I3 I4 I5 I6 I7 I8].
  apply (inv_update m m' ts [] i pc pc' I Hi); rewrite ?cnt_nil, ?Ha, ?Hh, ?Hg, ?Z.add_0_r; try done.
  - destruct Hs. rewrite same_suspended0, same_tracing0. lia.
  - intros j q Hne Hj Hq. destruct (Hc j q Hne Hj) as [Hf|Hf]; [|by apply (local_same m)].
    destruct q as [ | | | | | | | | | | | | | | |hs| | | | | | | | | | | | | | | | | ]; try done;
      revert Hq; unfold local, before, inside, after, dumping; try destruct hs; use_same Hs; auto.
  - unfold at_rest. use_same Hs. done.
  - use_same Hs.
    replace (cnt is_handler ts - _ + _) with (cnt is_handler ts) by lia.
    replace (cnt is_signal ts - _ + _) with (cnt is_signal ts) by lia. done.
  - use_same Hs. done.
  - intros Hr'. assert (is_ready_state (state_ m) = true) as Hr2.
    { revert Hr'. rewrite !ready_bits. by use_same Hs. }
    destruct (is_scheduling pc) eqn:E; [left; auto|by right].
Qed.

(** ** Every step preserves the invariant *)

Definition step_ok (ts : list Pc) (i : nat) (r : Result) : Prop :=
  let '(m, pc, spawned, _) := r in Inv m (<[i := pc]> ts ++ spawned).

Ltac proj :=
  cbn [state_ self_ scheduler_ stack_ frame_ completion_handlers_ is_preempted_ stack_trace_ sleep_timer_
       priority_ set_state set_control set_stack set_frame set_handlers set_preempted set_trace set_timer
       set_priority spin_unlock fst snd] in *.
Ltac count := simpl; const_bits; simpl; lia.
Ltac same_tac := split; proj; bits; done.
Ltac quiet I Hi := eapply (inv_quiet _ _ _ _ _ _ I Hi); [same_tac|done|done|done| | | | | ]; proj.

Ltac stage HS HT :=
  unfold stage_ok; proj; bits; rewrite HS, HT; simpl;
  first [left; split_and!; (done || lia) | right; split_and!; [lia|done|]; first [left; lia | right; split; [lia|done]]].

(** The stage when a thread that closes, or takes, the list takes a step. *)
Lemma stage_closing (m : Memory) (ts : list Pc) (i : nat) (pc : Pc) :
  Inv m ts -> ts !! i = Some pc -> will_close pc = true ->
  suspended m = true /\ terminated m = true /\ cnt will_close ts = 1 /\ cnt will_take ts = 0 /\ closed m = false.
Proof.
  intros [_ _ _ _ _ _ _ I8] Hi Hw. pose proof (cnt_lookup will_close ts i pc Hi) as Hc. rewrite Hw in Hc.
  unfold stage_ok in I8. destruct (suspended m), (terminated m); simpl in *; lia || naive_solver lia.
Qed.

Lemma stage_taking (m : Memory) (ts : list Pc) (i : nat) :
  Inv m ts -> ts !! i = Some CompleteTake ->
  suspended m = true /\ terminated m = true /\ cnt will_close ts = 0 /\ cnt will_take ts = 1 /\ closed m = true.
Proof.
  intros [_ _ _ _ _ _ _ I8] Hi. pose proof (cnt_lookup will_take ts i _ Hi) as Hc.
  unfold stage_ok in I8. destruct (suspended m), (terminated m); simpl in *; lia || naive_solver lia.
Qed.

Lemma local_active (m : Memory) (q : Pc) :
  active q = true -> local m q -> suspended m = true -> tracing m = true /\ terminated m = false.
Proof.
  intros Ha Hl HS. destruct q; try done; simpl in Ha, Hl; unfold before, inside, after, dumping in Hl;
    try intuition congruence.
  - destruct Hl as [[-> _]|(H & _)]; [done|]. intuition congruence.
  - destruct Hl as (_ & HT & Hl). destruct (scheduler_ m) as [[]|]; intuition congruence.
Qed.

Lemma terminal_rest (m : Memory) (ts : list Pc) :
  Inv m ts -> suspended m = true -> terminated m = true ->
  tracing m = false /\ self_ m = false /\ scheduler_ m = None.
Proof.
  intros [I1 I2 I3 _ _ _ _ _] HS HT. assert (tracing m = false) as HK.
  { destruct (tracing m) eqn:HK; [|done]. rewrite HS in I1. simpl in I1.
    destruct (cnt_exists active ts) as (j & q & Hj & Hq); [lia|].
    destruct (local_active m q Hq (I2 j q Hj) HS). congruence. }
  destruct (I3 HS HK) as (? & Hself & _). rewrite HT in Hself. done.
Qed.

Lemma free_lock (m : Memory) (ts : list Pc) (i : nat) (pc : Pc) :
  Inv m ts -> ts !! i = Some pc -> holds pc = true -> locked m = true.
Proof.
  intros [_ _ _ _ _ _ I7 _] Hi Hh. pose proof (cnt_lookup holds ts i pc Hi) as Hc. rewrite Hh, I7 in Hc.
  by destruct (locked m).
Qed.

Lemma ok_completion (m : Memory) (ts : list Pc) (i : nat) (pc : Pc) :
  Inv m ts -> ts !! i = Some pc ->
  match pc with CompleteCheck | CompleteLock | CompleteClose | CompleteTake | CompleteUnlock _ | Invoke _ => True
  | _ => False end ->
  step_ok ts i (run_completion_handlers_step m pc).
Proof.
  intros I Hi Hpc. pose proof (task_local _ _ I i pc Hi) as Hl. pose proof (task_stage _ _ I) as I8.
  destruct pc; try done; clear Hpc; cbn [run_completion_handlers_step].
  - destruct (stage_closing _ _ _ _ I Hi eq_refl) as (HS & HT & C1 & C2 & C3).
    destruct (terminal_rest _ _ I HS HT) as (HK & Hself & Hsch).
    rewrite Hself, Hsch. bits. rewrite HS, HT. cbn.
    quiet I Hi; try done; [naive_solver|cbn; lia|]. stage HS HT.
  - destruct (stage_closing _ _ _ _ I Hi eq_refl) as (HS & HT & C1 & C2 & C3).
    unfold spin_lock. bits. destruct (locked m) eqn:HL; cbn [negb goto];
      (quiet I Hi; try done; bits; [naive_solver|rewrite ?HL; cbn; lia|]; stage HS HT).
  - destruct (stage_closing _ _ _ _ I Hi eq_refl) as (HS & HT & C1 & C2 & C3).
    bits. rewrite C3. cbn [negb goto].
    quiet I Hi; try done; bits; [|cbn; lia|].
    + intros j q Hne Hj. left. by apply (others_unlocked m ts i j CompleteClose).
    + stage HS HT.
  - destruct (stage_taking _ _ _ I Hi) as (HS & HT & C1 & C2 & C3).
    quiet I Hi; try done; [naive_solver|cbn; lia|]. stage HS HT.
  - destruct Hl as [HS HT]. quiet I Hi; try done; bits; [naive_solver|destruct hs; simpl; bits; done| |].
    + rewrite (free_lock _ _ _ _ I Hi eq_refl). done.
    + revert I8. unfold stage_ok. proj. bits. rewrite !Z.sub_0_r, !Z.add_0_r. done.
  - destruct hs as [|h hs]; cbn [goto].
    + quiet I Hi; try done; [naive_solver|cbn; lia|]. by rewrite !Z.sub_0_r, !Z.add_0_r.
    + destruct Hl as [HS HT]. quiet I Hi; try done; [naive_solver|by destruct hs|cbn; lia|].
      by rewrite !Z.sub_0_r, !Z.add_0_r.
Qed.

Lemma stage_same (m m' : Memory) (ts : list Pc) :
  Inv m ts -> suspended m' = suspended m -> terminated m' = terminated m -> closed m' = closed m ->
  completion_handlers_ m' = completion_handlers_ m -> stage_ok m' (cnt will_close ts - 0 + 0) (cnt will_take ts - 0 + 0).
Proof.
  intros [_ _ _ _ _ _ _ I8] HS HT HC HL. unfold stage_ok. rewrite HS, HT, HC, HL, !Z.sub_0_r, !Z.add_0_r. done.
Qed.

Lemma ok_when_done (m : Memory) (ts : list Pc) (i : nat) (pc : Pc) :
  Inv m ts -> ts !! i = Some pc ->
  match pc with WhenDone _ | WhenDoneLock _ | WhenDonePush _ | WhenDoneUnlock | WhenDoneRetry _ => True
  | _ => False end ->
  step_ok ts i (call_when_done_step m pc).
Proof.
  intros I Hi Hpc. pose proof (task_local _ _ I i pc Hi) as Hl.
  destruct pc; try done; clear Hpc; cbn [call_when_done_step].
  - destruct (is_terminal_state (state_ m)); cbn [goto];
      (quiet I Hi; try done; [naive_solver|cbn; lia|by apply (stage_same m)]).
  - unfold spin_lock. bits. destruct (locked m) eqn:HL; cbn [negb goto].
    + quiet I Hi; try done; bits; [naive_solver|rewrite HL; cbn; lia|apply (stage_same m); proj; bits; done].
    + destruct (suspended m && terminated m || negb (negb (closed m))) eqn:HT; cbn [goto].
      * quiet I Hi; try done; bits; [naive_solver|rewrite HL; cbn; lia|apply (stage_same m); proj; bits; done].
      * apply orb_false_iff in HT as [_ HT]. apply negb_false_iff, negb_true_iff in HT.
        quiet I Hi; try done; bits; [naive_solver|simpl; bits; done|rewrite HL; cbn; lia|].
        apply (stage_same m); proj; bits; done.
  - simpl in Hl. quiet I Hi; try done; [naive_solver|cbn; lia|].
    pose proof (task_stage _ _ I) as I8. revert I8. unfold stage_ok. proj. cbn. rewrite Hl, !Z.sub_0_r, !Z.add_0_r.
    destruct (suspended m && terminated m); naive_solver.
  - quiet I Hi; try done; bits; [naive_solver| |apply (stage_same m); proj; bits; done].
    by rewrite (free_lock _ _ _ _ I Hi eq_refl).
  - quiet I Hi; try done; bits; [naive_solver| |apply (stage_same m); proj; bits; done].
    by rewrite (free_lock _ _ _ _ I Hi eq_refl).
Qed.

Lemma ok_wake (m : Memory) (ts : list Pc) (i : nat) (pc : Pc) :
  Inv m ts -> ts !! i = Some pc ->
  match pc with WakeLock | WakeCancel | WakeUnlock => True | _ => False end ->
  step_ok ts i (wake_step m pc).
Proof.
  intros I Hi Hpc. destruct pc; try done; clear Hpc; cbn [wake_step].
  - unfold spin_lock. destruct (_ =? 0), (sleep_timer_ m); cbn [goto];
      (quiet I Hi; try done; bits; [naive_solver|cbn; lia|apply (stage_same m); proj; bits; done]).
  - quiet I Hi; try done; [naive_solver|cbn; lia|by apply (stage_same m)].
  - quiet I Hi; try done; bits; [naive_solver|cbn; lia|apply (stage_same m); proj; bits; done].
Qed.

Lemma ok_set_priority (m : Memory) (ts : list Pc) (i : nat) (p : Z) :
  Inv m ts -> ts !! i = Some (SetPriority p) -> step_ok ts i (goto (set_priority m p) Finished).
Proof. intros I Hi. quiet I Hi; try done; [naive_solver|cbn; lia|by apply (stage_same m)]. Qed.

Lemma ok_stay (m : Memory) (ts : list Pc) (i : nat) (pc : Pc) :
  Inv m ts -> ts !! i = Some pc -> step_ok ts i (goto m pc).
Proof.
  intros I Hi. unfold step_ok, goto. rewrite app_nil_r, list_insert_id by done. done.
Qed.

(** A step of an active thread that leaves the memory, or what [same] compares
    of it, alone. *)
Lemma ok_active (m m' : Memory) (ts : list Pc) (i : nat) (pc pc' : Pc) :
  Inv m ts -> ts !! i = Some pc -> same m m' -> active pc = true -> active pc' = true ->
  is_signal pc = false -> is_signal pc' = false ->
  closed m' = closed m -> locked m' = locked m -> completion_handlers_ m' = completion_handlers_ m ->
  local m' pc' -> step_ok ts i (goto m' pc').
Proof.
  intros I Hi Hs Ha Ha' Hg Hg' Hc Hk Hh Hl.
  assert (forall q, active q = true -> is_handler q = false /\ holds q = false /\ will_close q = false /\
    will_take q = false /\ is_scheduling q = false) as Hq by (by intros []).
  destruct (Hq pc Ha) as (? & Hk1 & Hw & Ht & Hr), (Hq pc' Ha') as (? & Hk2 & Hw' & Ht' & Hr').
  apply (inv_quiet m m' ts i pc pc'); try congruence.
  - intros j q _ _. right. congruence.
  - rewrite Hk1, Hk2, Hk. simpl. lia.
  - rewrite Hw, Hw', Ht, Ht'. destruct Hs. by apply (stage_same m).
Qed.

(** A step of the active thread that keeps the responsibility. *)
Lemma ok_owner (m m' : Memory) (ts sp : list Pc) (ev : list Event) (i : nat) (pc pc' : Pc) :
  Inv m ts -> ts !! i = Some pc -> active pc = true -> active pc' = true ->
  is_signal pc = false -> is_signal pc' = false ->
  suspended m' = suspended m -> tracing m' = tracing m ->
  suspended m' && terminated m' = suspended m && terminated m ->
  closed m' = closed m -> locked m' = locked m -> completion_handlers_ m' = completion_handlers_ m ->
  local m' pc' -> Forall (fun q => is_handler q = true /\ local m' q) sp ->
  (forall j q, ts !! j = Some q -> active q = false -> local m q -> local m' q) ->
  sig_ok (need m') (have m') (frame_ m') (sig_of (stack_ m')) (cnt is_handler ts + cnt is_handler sp)
    (cnt is_signal ts) ->
  terminated m' = exited (stack_ m') ->
  step_ok ts i (m', pc', sp, ev).
Proof.
  intros I Hi Ha Ha' Hg Hg' HS HK HT Hc Hk Hh Hl Hsp Ho Hsig Hex.
  assert (forall q, active q = true -> is_handler q = false /\ holds q = false /\ will_close q = false /\
    will_take q = false /\ is_scheduling q = false) as Hq by (by intros []).
  assert (forall P, (forall k, P (Handler k) = false) -> cnt P sp = 0) as Hsp0.
  { intros P HP. clear - Hsp HP. induction Hsp as [|q sp [Hq _] _ IH]; [done|].
    rewrite cnt_cons, IH. destruct q; try done. by rewrite HP. }
  destruct (Hq pc Ha) as (E1 & E2 & E3 & E4 & E5), (Hq pc' Ha') as (F1 & F2 & F3 & F4 & F5).
  assert (negb (suspended m) || tracing m = true) as Hone.
  { pose proof (cnt_lookup active ts i pc Hi) as H. rewrite Ha, (task_active _ _ I) in H. by destruct (_ || _). }
  apply (inv_update m m' ts sp i pc pc'); try done;
    rewrite ?Ha, ?Ha', ?E1, ?E2, ?E3, ?E4, ?F1, ?F2, ?F3, ?F4, ?Hg, ?Hg', ?HS, ?HK, ?Hk, ?(Hsp0 active), ?(Hsp0 is_signal), ?(Hsp0 holds), ?(Hsp0 will_close), ?(Hsp0 will_take) by done.
  - lia.
  - eapply list.Forall_impl; [exact Hsp|]. by intros q [_ ?].
  - intros j q Hne Hj. apply (Ho j q Hj). by apply (others_inactive m ts i j pc).
  - intros H1 H2. rewrite H1, H2 in Hone. discriminate.
  - simpl. rewrite !Z.sub_0_r, !Z.add_0_r. done.
  - rewrite ready_bits, HS, HK. intros Hr. destruct (suspended m), (tracing m); try done. by rewrite !andb_false_r in Hr.
  - simpl. lia.
  - simpl. rewrite !Z.sub_0_r, !Z.add_0_r. pose proof (task_stage _ _ I) as I8. revert I8.
    unfold stage_ok. by rewrite HT, Hc, Hh.
Qed.

Lemma local_frame (m : Memory) (f : option (nat * bool)) (q : Pc) :
  is_handler q = false -> is_signal q = false -> local m q -> local (set_frame m f) q.
Proof.
  destruct q; try done. simpl. intros _ Hs [[-> _]|H]; [done|by right].
Qed.

Lemma ok_handler (m : Memory) (ts : list Pc) (i k : nat) :
  Inv m ts -> ts !! i = Some (Handler k) -> step_ok ts i (handler_step m k).
Proof.
  intros I Hi. pose proof (task_local _ _ I i _ Hi) as Hf. simpl in Hf. pose proof (task_sig _ _ I) as Hs.
  pose proof (cnt_lookup is_handler ts i _ Hi) as Hc. simpl in Hc.
  unfold handler_step. rewrite Hf, decide_True by done. unfold sig_ok in Hs. rewrite Hf in Hs.
  assert (cnt is_handler ts = 1 /\ cnt is_signal ts = 0 /\ need m = true /\ have m = false /\
          sig_of (stack_ m) = SigStarted k) as (H1 & H2 & HN & HH & Hg).
  { destruct (sig_of (stack_ m)); try (exfalso; lia || naive_solver lia).
    destruct Hs as [(Hk & ? & ? & ? & ?)|(Hk & _)]; [|done]. by injection Hk as <-. }
  apply (inv_update m (set_frame m (Some (k, true))) ts [] i (Handler k)); proj; try done; rewrite ?cnt_nil.
  - count.
  - left. split; [done|by exists k].
  - intros j q Hne Hj. apply local_frame.
    + destruct (is_handler q) eqn:Hq; [|done]. destruct Hne.
      apply (cnt_unique is_handler ts j i q (Handler k)); try done. lia.
    + by apply (cnt_zero is_signal ts j q).
  - by apply (task_rest _ _ I).
  - rewrite Hg. right. split; [done|]. split; [count|]. left. split_and!; try done. count.
  - by apply (task_exit _ _ I).
  - intros Hr. right. done.
  - cbn. lia.
  - pose proof (task_stage _ _ I) as I8. simpl. rewrite !Z.sub_0_r, !Z.add_0_r. done.
Qed.

(** The signal has been delivered: only [kHaveSignal] and [is_preempted_]
    have changed, while the task still needs it. *)
Lemma local_have (m : Memory) (p : bool) (q : Pc) :
  need m = true -> local m q -> local (set_preempted (set_state m (Z.lor (state_ m) kHaveSignal)) p) q.
Proof.
  intros HN. destruct q as [ | | | | | | | | | | | | | | |hs| | | | | | | | | | | | | | | | | ]; try done;
    unfold local, before, inside, after, dumping; try destruct hs; proj; bits; try done; try (intuition congruence).
  intros (? & ? & Hsch). split_and!; try done. destruct (scheduler_ m) as [[]|]; [|done..].
  destruct Hsch as (? & ? & Hj). split_and!; try done. intros Hj'. destruct (Hj Hj'). congruence.
Qed.

Lemma exited_idle (b : BodyPc) : exited b = true -> sig_of b = SigIdle.
Proof. by induction b. Qed.

Lemma signal_frame (m : Memory) (ts : list Pc) (i k : nat) :
  Inv m ts -> ts !! i = Some (HandleEvent kHaveSignal) -> frame_ m = Some (k, true) ->
  need m = true /\ have m = false /\ cnt is_handler ts = 0 /\ cnt is_signal ts = 1 /\
  sig_of (stack_ m) = SigStarted k.
Proof.
  intros I Hi Hf. pose proof (task_sig _ _ I) as Hs. unfold sig_ok in Hs. rewrite Hf in Hs.
  pose proof (cnt_lookup is_signal ts i _ Hi) as Hc. change (1 <= cnt is_signal ts) in Hc.
  destruct (sig_of (stack_ m)); try (exfalso; lia || naive_solver lia).
  destruct Hs as [(? & _)|(Hk & ? & Hs)]; [done|]. injection Hk as <-.
  destruct Hs as [(? & ? & ?)|[_ ?]]; [done|lia].
Qed.

Lemma ok_signal (m : Memory) (ts : list Pc) (i : nat) :
  Inv m ts -> ts !! i = Some (HandleEvent kHaveSignal) ->
  step_ok ts i (let '(m', pc') := handle_event m kHaveSignal in goto m' pc').
Proof.
  intros I Hi. pose proof (task_local _ _ I i _ Hi) as Hl. simpl in Hl.
  destruct Hl as [[_ [k Hf]]|[_ Hl]]; [|by destruct (at_entry _)].
  destruct (signal_frame _ _ _ _ I Hi Hf) as (HN & HH & Hc & Hg & Hsig).
  assert (terminated m = false) as HT.
  { destruct (terminated m) eqn:HT; [|done]. rewrite (task_exit _ _ I) in HT. rewrite exited_idle in Hsig by done. done. }
  assert (exists p pc', (let '(m', pc') := handle_event m kHaveSignal in goto m' pc') =
    goto (set_preempted (set_state m (Z.lor (state_ m) kHaveSignal)) p) pc' /\
    ((exists f, pc' = ScheduleToRun (Z.lor (state_ m) kHaveSignal) f) \/
     (pc' = Finished /\ is_ready_state (Z.lor (state_ m) kHaveSignal) = false))) as (p & pc' & -> & Hpc).
  { unfold handle_event. destruct (is_ready_state (Z.lor (state_ m) kHaveSignal)) eqn:Hr.
    - by eexists _, _; split; [done|left; eexists].
    - rewrite terminal_bits. bits. rewrite HT, andb_false_r.
      exists (is_preempted_ m), Finished. split; [by destruct m|by right]. }
  assert (active pc' = false /\ is_handler pc' = false /\ is_signal pc' = false /\ holds pc' = false /\
    will_close pc' = false /\ will_take pc' = false /\ local m pc') as (E1 & E2 & E3 & E4 & E5 & E6 & E7)
    by (destruct Hpc as [[f ->]|[-> _]]; done).
  apply (inv_update m _ ts [] i _ pc' I Hi); rewrite ?E1, ?E2, ?E3, ?E4, ?E5, ?E6, ?cnt_nil; proj; bits; try done.
  - count.
  - by apply local_have.
  - intros j q _ _. by apply local_have.
  - intros HS HK. destruct (task_rest _ _ I HS HK) as (? & ? & ? & Hen). unfold at_rest. proj. bits. by split_and!.
  - rewrite Hsig. right. split; [done|]. split; [count|]. right. rewrite HN. split; [done|]. rewrite Hg. count.
  - apply (task_exit _ _ I).
  - intros Hr. left. destruct Hpc as [[f ->]|[-> Hr']].
    + simpl. rewrite ready_bits. bits. done.
    + rewrite ready_bits in Hr'. revert Hr'. bits. intros Hr'. by rewrite Hr in Hr'.
  - count.
  - pose proof (task_stage _ _ I) as I8. revert I8. unfold stage_ok. proj. bits. simpl.
    by rewrite !Z.sub_0_r, !Z.add_0_r.
Qed.

(** The task suspends itself, or terminates. *)
Lemma ok_suspend (m : Memory) (ts : list Pc) (i : nat) (mask : Z) :
  Inv m ts -> ts !! i = Some (HandleEvent mask) -> after m ->
  mask = (if at_entry (stack_ m) then Z.lor kSuspended kHaveSignal else kSuspended) ->
  step_ok ts i (let '(m', pc') := handle_event m mask in goto m' pc').
Proof.
  intros I Hi (HS & HK & Hsch & Hpark & Hself) Hmask.
  assert (active (HandleEvent mask) = true) as Ha by (by rewrite Hmask; destruct (at_entry _)).
  assert (Z.testbit mask 3 = false /\ Z.testbit mask 4 = false /\ Z.testbit mask 2 = true /\
          Z.testbit mask 6 = false /\ Z.testbit mask 8 = false /\ Z.testbit mask 0 = false)
    as (B3 & B4 & B2 & B6 & B8 & B0) by (rewrite Hmask; by destruct (at_entry _)).
  set (s := Z.lor (state_ m) mask).
  assert (exists p pc', (let '(m', pc') := handle_event m mask in goto m' pc') =
    goto (set_preempted (set_state m s) p) pc' /\
    active pc' = false /\ is_handler pc' = false /\ is_signal pc' = false /\ holds pc' = false /\
    will_take pc' = false /\ local m pc' /\ will_close pc' = terminated m /\
    (is_ready_state s = true -> is_scheduling pc' = true)) as (p & pc' & -> & E1 & E2 & E3 & E4 & E6 & E7 & E8 & E9).
  { unfold handle_event. fold s. destruct (is_ready_state s) eqn:Hr.
    - eexists _, _. split; [done|]. split_and!; try done. revert Hr. unfold s. rewrite ready_bits. bits. rewrite B3.
      destruct (terminated m); [|done]. by rewrite !andb_false_r.
    - assert (is_terminal_state s = terminated m) as ->.
      { unfold s. rewrite terminal_bits. bits. by rewrite B2, B3, orb_true_r, orb_false_r. }
      exists (is_preempted_ m). destruct (terminated m) eqn:HT.
      + rewrite Hself, Hsch. exists CompleteCheck. split; [by destruct m|]. done.
      + exists Finished. split; [by destruct m|]. done. }
  assert (local (set_preempted (set_state m s) p) pc') as Hl'.
  { unfold s. apply (local_inactive m); proj; bits; rewrite ?HS, ?B8, ?orb_false_r; done. }
  apply (inv_update m _ ts [] i _ pc' I Hi); rewrite ?Ha, ?E1, ?E2, ?E3, ?E4, ?E6, ?E8, ?cnt_nil; proj; try done;
    unfold s in *; bits; rewrite ?B0, ?B2, ?B3, ?B4, ?B6, ?B8, ?orb_false_r, ?HS, ?HK; try done.
  - intros j q Hne Hj. pose proof (others_inactive m ts i j _ q I Hi Ha Hne Hj) as Hq.
    apply local_inactive; proj; bits; rewrite ?HS, ?B8, ?orb_false_r; done.
  - intros _ _. unfold at_rest. proj. bits. rewrite B0, B3, !orb_false_r. split_and!; try done.
    intros Hen. pose proof (task_sig _ _ I) as Hs. destruct (stack_ m) eqn:Hst; try done. rewrite Hen in Hmask.
    pose proof (cnt_lookup is_signal ts i _ Hi) as Hc. rewrite Hmask in *.
    change (1 <= cnt is_signal ts) in Hc. destruct Hs as (_ & _ & [(-> & _)|[_ ?]]); [|lia]. by bits.
  - pose proof (task_sig _ _ I) as Hs. rewrite Hmask. destruct (stack_ m) eqn:Hst; cbn [at_entry];
      try (simpl; const_bits; rewrite !orb_false_r, !Z.sub_0_r, !Z.add_0_r; exact Hs).
    simpl in *. const_bits. pose proof (cnt_lookup is_signal ts i _ Hi) as Hc. rewrite Hmask in Hc.
    change (1 <= cnt is_signal ts) in Hc. destruct Hs as (Hf & Hc' & [(HN & HH & H1)|[_ ?]]); [|lia].
    rewrite HN, HH. split; [done|]. split; [count|]. right. split; [done|count].
  - apply (task_exit _ _ I).
  - intros Hr. left. apply E9. rewrite ready_bits. bits. rewrite ?B0, ?B2, ?B3, ?B4, ?orb_false_r, ?HK, ?HS. done.
  - count.
  - pose proof (task_stage _ _ I) as I8. unfold stage_ok in *. proj. bits. rewrite HS in I8. rewrite B2, B3, B8, !orb_true_r, !orb_false_r.
    simpl in *. destruct (terminated m); simpl; [left|]; intuition lia.
Qed.

Lemma ok_handle_event (m : Memory) (ts : list Pc) (i : nat) (mask : Z) :
  Inv m ts -> ts !! i = Some (HandleEvent mask) ->
  step_ok ts i (let '(m', pc') := handle_event m mask in goto m' pc').
Proof.
  intros I Hi. pose proof (task_local _ _ I i _ Hi) as Hl. destruct Hl as [[-> _]|[Ha Hm]].
  - by apply ok_signal.
  - by apply ok_suspend.
Qed.

Lemma ok_schedule (b : bool) (m : Memory) (ts : list Pc) (i : nat) (obs : Z) (f : bool) :
  Inv m ts -> ts !! i = Some (ScheduleToRun obs f) -> step_ok ts i (schedule_to_run b m obs f).
Proof.
  intros I Hi. unfold schedule_to_run. destruct (is_ready_state obs) eqn:Hr; cbn [negb].
  2: { quiet I Hi; try done; [naive_solver|simpl; congruence|count|by apply (stage_same m)]. }
  destruct (b || negb (state_ m =? obs)) eqn:Hb.
  { quiet I Hi; try done; [naive_solver|count|by apply (stage_same m)]. }
  apply orb_false_iff in Hb as [_ Hb]. bool_cases. subst obs.
  pose proof Hr as Hr'. rewrite ready_bits in Hr'. bool_cases.
  match goal with H : eqb _ _ = true |- _ => apply eqb_prop in H as HNH end.
  match goal with
  | H2 : suspended m = true, H3 : terminated m = false, H4 : tracing m = false |- _ => rename H2 into HS, H3 into HT, H4 into HK
  end.
  destruct (task_rest _ _ I HS HK) as (Hsch & Hself & Hpark & Hent). rewrite HT in Hself. rewrite Hself.
  set (m' := set_state m _).
  apply (inv_update m m' ts [Activate] i _ Finished I Hi); unfold m'; rewrite ?cnt_cons, ?cnt_nil; proj; bits; try done.
  - rewrite HS, HK. count.
  - constructor; [|constructor]. unfold local, before. proj. bits. by rewrite HT, HK.
  - intros j q _ Hj. pose proof (at_rest_inactive m ts j q I HS HK Hj) as Hq.
    apply local_inactive; proj; bits; try done. by rewrite HT.
  - pose proof (task_sig _ _ I) as Hs. simpl. rewrite !Z.sub_0_r, !Z.add_0_r. destruct (sig_of (stack_ m)); simpl in *.
    + destruct Hs as (? & ? & [(E1 & E2 & _)|[_ ?]]); [congruence|]. split_and!; try done. by right.
    + naive_solver.
    + destruct Hs as (_ & _ & _ & E1 & E2). congruence.
    + destruct Hs as [(_ & _ & _ & E1 & E2)|(? & ? & [(E1 & E2 & _)|[_ ?]])]; [congruence..|].
      right. split_and!; try done. by right.
  - apply (task_exit _ _ I).
  - count.
  - pose proof (task_stage _ _ I) as I8. unfold stage_ok in *. proj. bits. simpl. rewrite HT, andb_false_r in I8.
    intuition lia.
Qed.

Lemma ok_resume (who : Resumer) (m : Memory) (ts : list Pc) (i : nat) (pc : Pc) :
  Inv m ts -> ts !! i = Some pc -> active pc = true -> is_signal pc = false -> self_ m = true ->
  inside (set_control m false (Some who)) -> step_ok ts i (resume_impl who m).
Proof.
  intros I Hi Ha Hg Hself Hin. unfold resume_impl. rewrite Hself.
  apply (ok_owner m _ ts [] [] i pc Body); proj; rewrite ?cnt_nil, ?Z.add_0_r; try done.
  - intros j q _ Hq. by apply local_inactive.
  - apply (task_sig _ _ I).
  - apply (task_exit _ _ I).
Qed.

Ltac at_owner I Hi := eapply (ok_active _ _ _ _ _ _ I Hi); [same_tac| | | | |proj; bits; done..|]; try done.

Lemma ok_run (b : bool) (m : Memory) (ts : list Pc) (i : nat) (pc : Pc) :
  Inv m ts -> ts !! i = Some pc ->
  match pc with RunLoad | RunRelock _ | RunResume | RunSaved | RunRelease _ => True | _ => False end ->
  step_ok ts i (run_step b m pc).
Proof.
  intros I Hi Hpc. pose proof (task_local _ _ I i pc Hi) as Hl.
  destruct pc; try done; clear Hpc; cbn [run_step].
  - by destruct (_ =? 0); at_owner I Hi.
  - destruct (negb (_ =? 0)); [by at_owner I Hi|].
    destruct (b || negb (state_ m =? observed)) eqn:Hb; [by at_owner I Hi|].
    apply orb_false_iff in Hb as [_ Hb]. bool_cases. subst observed.
    at_owner I Hi. revert Hl. unfold local, before. proj. bits. done.
  - destruct Hl as (HS & HK & HT & HN & HH & Hself & Hsch & Hpark).
    apply (ok_resume Runner m ts i RunResume); try done.
  - destruct Hl as [Ha Hen]. destruct (_ =? 0); [|by at_owner I Hi].
    at_owner I Hi. right. by rewrite Hen.
  - destruct Hl as [Ha Hen]. destruct (b || negb (state_ m =? observed)) eqn:Hb; [by at_owner I Hi|].
    apply orb_false_iff in Hb as [_ Hb]. bool_cases. subst observed.
    at_owner I Hi. right. revert Ha. unfold after. proj. bits. by rewrite Hen.
Qed.

Lemma ok_activate (m : Memory) (ts : list Pc) (i : nat) (current : option Z) :
  Inv m ts -> ts !! i = Some Activate -> step_ok ts i (goto m (activate_task current m)).
Proof.
  intros I Hi. pose proof (task_local _ _ I i _ Hi) as Hl. unfold activate_task.
  destruct current as [p|]; [destruct (p >=? priority_ m)|]; by at_owner I Hi.
Qed.

(** A stack trace is requested only while the task waits for a signal. *)
Lemma ok_request_trace (m : Memory) (ts : list Pc) (i : nat) :
  Inv m ts -> ts !! i = Some (DumpCas (state_ m)) ->
  is_running_state (state_ m) || is_ready_state (state_ m) || is_terminal_state (state_ m) || tracing m = false ->
  step_ok ts i (goto (set_state m (Z.lor (state_ m) kStackTrace)) DumpResume).
Proof.
  intros I Hi Hb. rewrite running_bits, ready_bits, terminal_bits in Hb.
  apply orb_false_iff in Hb as [Hb HK]. apply orb_false_iff in Hb as [Hb HT].
  apply orb_false_iff in Hb as [HS Hr]. apply negb_false_iff in HS.
  rewrite HS in HT, Hr. rewrite HK in Hr. simpl in HT. rewrite HT in Hr. simpl in Hr. rewrite andb_true_r in Hr.
  destruct (task_rest _ _ I HS HK) as (Hsch & Hself & Hpark & Hent). rewrite HT in Hself.
  assert (at_entry (stack_ m) = false) as Hen.
  { destruct (at_entry (stack_ m)); [|done]. destruct (Hent eq_refl) as [HN HH]. by rewrite HN, HH in Hr. }
  apply (inv_update m _ ts [] i _ DumpResume I Hi); rewrite ?cnt_nil; proj; bits; try done.
  - rewrite HS, HK. count.
  - unfold local, dumping. proj. bits. by split_and!.
  - intros j q _ Hj. pose proof (at_rest_inactive m ts j q I HS HK Hj) as Hq.
    apply local_inactive; proj; bits; done.
  - simpl. rewrite !Z.sub_0_r, !Z.add_0_r. apply (task_sig _ _ I).
  - apply (task_exit _ _ I).
  - count.
  - pose proof (task_stage _ _ I) as I8. revert I8. unfold stage_ok. proj. bits. simpl.
    by rewrite !Z.sub_0_r, !Z.add_0_r.
Qed.

(** The stack trace has been taken; the task is suspended again. *)
Lemma ok_end_trace (m : Memory) (ts : list Pc) (i : nat) :
  Inv m ts -> ts !! i = Some (DumpCas2 (state_ m)) ->
  let s := Z.lor (Z.ldiff (state_ m) kStackTrace) kSuspended in
  step_ok ts i (goto (set_state m s) (if is_ready_state s then ScheduleToRun s true else Finished)).
Proof.
  intros I Hi s. destruct (task_local _ _ I i _ Hi) as [(HS & HK & HT & Hself & Hsch & Hpark & Hen) _].
  set (pc' := if is_ready_state s then _ else _).
  assert (active pc' = false /\ is_handler pc' = false /\ is_signal pc' = false /\ holds pc' = false /\
    will_close pc' = false /\ will_take pc' = false /\ local (set_state m s) pc') as (E1 & E2 & E3 & E4 & E5 & E6 & E7)
    by (unfold pc'; destruct (is_ready_state s); done).
  apply (inv_update m _ ts [] i _ pc' I Hi); rewrite ?E1, ?E2, ?E3, ?E4, ?E5, ?E6, ?cnt_nil; proj; try done.
  - unfold s. bits. rewrite HS, HK. count.
  - intros j q Hne Hj. pose proof (others_inactive m ts i j _ q I Hi eq_refl Hne Hj) as Hq.
    unfold s. apply local_inactive; proj; bits; done.
  - intros _ _. unfold at_rest. proj. rewrite Hen. unfold s. bits. rewrite HT. by split_and!.
  - unfold s. bits. simpl. rewrite !Z.sub_0_r, !Z.add_0_r. apply (task_sig _ _ I).
  - unfold s. bits. apply (task_exit _ _ I).
  - intros Hr. left. unfold pc'. by rewrite Hr.
  - unfold s. bits. count.
  - pose proof (task_stage _ _ I) as I8. revert I8. unfold s, stage_ok. proj. bits. simpl.
    rewrite HS. by rewrite !Z.sub_0_r, !Z.add_0_r.
Qed.

Lemma ok_dump (b : bool) (m : Memory) (ts : list Pc) (i : nat) (pc : Pc) :
  Inv m ts -> ts !! i = Some pc ->
  match pc with DumpLoad | DumpCas _ | DumpResume | DumpTrace | DumpReload | DumpCas2 _ => True
  | _ => False end ->
  step_ok ts i (try_dump_stack_trace_step b m pc).
Proof.
  intros I Hi Hpc. pose proof (task_local _ _ I i pc Hi) as Hl.
  destruct pc; try done; clear Hpc; cbn [try_dump_stack_trace_step].
  - quiet I Hi; try done; [naive_solver|count|by apply (stage_same m)].
  - rewrite test_trace, negb_involutive. destruct (is_running_state observed || _ || _ || _) eqn:Hb.
    { quiet I Hi; try done; [naive_solver|count|by apply (stage_same m)]. }
    destruct (b || negb (state_ m =? observed)) eqn:Hc.
    { quiet I Hi; try done; [naive_solver|count|by apply (stage_same m)]. }
    apply orb_false_iff in Hc as [_ Hc]. apply negb_false_iff, Z.eqb_eq in Hc. subst observed. by apply ok_request_trace.
  - destruct Hl as (HS & HK & HT & Hself & Hsch & Hpark & Hen).
    apply (ok_resume Dumper m ts i DumpResume); try done. unfold inside. proj. split_and!; try done.
    destruct (stack_ m) as [| | | | | | | | | | |next|] eqn:Hst; try done.
    + by exists next; left.
    + pose proof (task_exit _ _ I) as He. rewrite Hst in He. simpl in He. congruence.
  - destruct Hl as [Hd Htr]. rewrite Htr. eapply (ok_owner _ _ _ _ _ _ _ _ I Hi); proj; try done.
    + intros j q _ Hq. by apply local_inactive.
    + rewrite cnt_nil, Z.add_0_r. apply (task_sig _ _ I).
    + apply (task_exit _ _ I).
  - at_owner I Hi. split; [done|]. by destruct Hl as (_ & _ & HT & _).
  - destruct Hl as [Hd Ho].
    assert (is_terminal_state (Z.lor (Z.ldiff observed kStackTrace) kSuspended) = false) as ->.
    { rewrite terminal_bits. bits. by rewrite Ho. }
    destruct (b || negb (state_ m =? observed)) eqn:Hc.
    + at_owner I Hi. split; [done|]. by destruct Hd as (_ & _ & HT & _).
    + apply orb_false_iff in Hc as [_ Hc]. bool_cases. subst observed.
      by apply ok_end_trace.
Qed.

(** A step inside the body that leaves the frame and the flags alone. *)
Lemma ok_inside (m m' : Memory) (ts : list Pc) (i : nat) :
  Inv m ts -> ts !! i = Some Body ->
  suspended m' = suspended m -> terminated m' = terminated m -> tracing m' = tracing m ->
  need m' = need m -> have m' = have m -> closed m' = closed m -> locked m' = locked m ->
  completion_handlers_ m' = completion_handlers_ m -> frame_ m' = frame_ m ->
  sig_ok (need m) (have m) (frame_ m) (sig_of (stack_ m')) (cnt is_handler ts) (cnt is_signal ts) ->
  exited (stack_ m') = false -> inside m' -> step_ok ts i (goto m' Body).
Proof.
  intros I Hi HS HT HK HN HH Hc Hk Hh Hf Hsig Hst Hin.
  apply (ok_owner m m' ts [] [] i Body Body); try done; rewrite ?cnt_nil, ?Z.add_0_r, ?HN, ?HH, ?Hf; try done.
  - by rewrite HS, HT.
  - intros j q _ Hq. apply local_inactive; try done; [by rewrite Hc|by rewrite HS, HT].
  - destruct Hin as (_ & HT' & _). by rewrite HT'.
Qed.

Lemma inside_runner (m : Memory) :
  inside m -> (forall next, stack_ m <> Resumed next /\ stack_ m <> Suspend next) ->
  self_ m = false /\ terminated m = false /\ scheduler_ m = Some Runner /\ suspended m = false /\ tracing m = false /\
  (just_resumed (stack_ m) = true -> need m = false /\ have m = false).
Proof.
  intros (Hself & HT & Hsch) Hst. destruct (scheduler_ m) as [[]|]; try done.
  destruct Hsch as (_ & _ & next & [H|[H _]]); by destruct (Hst next).
Qed.

Ltac inside_tac := unfold inside; proj; bits; repeat match goal with H : scheduler_ _ = _ |- _ => rewrite H end; by split_and!.

Lemma ok_await (m : Memory) (ts : list Pc) (i : nat) :
  Inv m ts -> ts !! i = Some Body ->
  match stack_ m with
  | Need _ _ | CallFn _ _ | StartOp _ _ | Started _ _ | LastYield _ _ | TakeResult _ _ => True | _ => False
  end ->
  step_ok ts i (await_step m).
Proof.
  intros I Hi Hst. pose proof (task_local _ _ I i _ Hi) as Hl. pose proof (task_sig _ _ I) as Hs.
  destruct (inside_runner m Hl) as (Hself & HT & Hsch & HS & HK & Hj).
  { intros next. by destruct (stack_ m). }
  unfold await_step. destruct (stack_ m) as [| | |a acts|a acts|a acts|a acts|a acts|a acts| | | |] eqn:Hstk; try done;
    clear Hst; cbn [sig_of] in Hs; cbn [just_resumed] in Hj.
  - destruct Hs as (Hf & H1 & H2 & HN & HH). bits. rewrite HH. cbn [negb].
    eapply (ok_owner _ _ _ _ _ _ _ _ I Hi); proj; bits; try done.
    + unfold local. inside_tac.
    + intros j q Hq Hin Hl'. pose proof (cnt_zero _ _ _ _ H1 Hq) as Z1. pose proof (cnt_zero _ _ _ _ H2 Hq) as Z2.
      apply (local_inactive (set_frame m (Some (await_id a, false)))); proj; bits; try done. by apply local_frame.
    + cbn [sig_of]. rewrite cnt_nil. by split_and!; try lia.
  - destruct (preempt_before a); (eapply (ok_inside _ _ _ _ I Hi); proj; try done; inside_tac).
  - eapply (ok_owner _ _ _ _ _ _ _ _ I Hi); proj; try done.
    + unfold local. inside_tac.
    + constructor; [|done]. split; [done|]. simpl. by destruct Hs as [-> _].
    + intros j q _ Hq. by apply local_inactive.
    + cbn [sig_of]. destruct Hs as (Hf & H1 & H2 & HN & HH). left. rewrite cnt_cons, cnt_nil, H1. by split_and!.
  - destruct (preempt_after a); (eapply (ok_inside _ _ _ _ I Hi); proj; try done; inside_tac).
  - eapply (ok_inside _ _ _ _ I Hi); proj; try done; inside_tac.
  - destruct (Hj eq_refl) as [HN HH]. rewrite HN, HH in Hs.
    destruct Hs as [(_ & _ & _ & ? & _)|(Hf & H1 & [(? & _)|[_ H2]])]; try done. rewrite Hf.
    eapply (ok_owner _ _ _ _ _ _ _ _ I Hi); proj; try done.
    + unfold local, inside. proj. rewrite Hsch. by split_and!.
    + intros j q Hq Hin Hl'. pose proof (cnt_zero _ _ _ _ H1 Hq) as Z1. pose proof (cnt_zero _ _ _ _ H2 Hq) as Z2.
      apply (local_inactive (set_frame m None)); proj; bits; try done. by apply local_frame.
    + rewrite HN, HH, cnt_nil. destruct (sleeping a); by split_and!; try lia.
    + rewrite HT. by destruct (sleeping a).
Qed.

Lemma ok_yield (m : Memory) (ts : list Pc) (i : nat) :
  Inv m ts -> ts !! i = Some Body ->
  match stack_ m with Suspend _ | Resumed _ => True | _ => False end ->
  step_ok ts i (yield_step m).
Proof.
  intros I Hi Hst. pose proof (task_local _ _ I i _ Hi) as Hl. pose proof (task_sig _ _ I) as Hs.
  pose proof (task_exit _ _ I) as He. pose proof Hl as (Hself & HT & Hsch). unfold yield_step.
  destruct (stack_ m) as [| | | | | | | | | |next|next|] eqn:Hstk; try done; clear Hst; cbn [exited sig_of] in *;
    destruct (scheduler_ m) as [who|] eqn:Hw; try done.
  - eapply (ok_owner _ _ _ _ _ _ _ _ I Hi); proj; try done.
    + by destruct who.
    + by destruct who.
    + destruct who; [|destruct Hsch as (HS & HK & n & [?|[_ Htr]]); [done|]];
        unfold local, after, dumping; proj; rewrite ?HT; naive_solver.
    + intros j q _ Hq. by apply local_inactive.
    + by rewrite cnt_nil, Z.add_0_r.
  - bits. destruct (tracing m) eqn:HK; cbn [negb].
    + eapply (ok_inside _ _ _ _ I Hi); proj; try done; [simpl; congruence|]. destruct who; [naive_solver|].
      unfold inside. proj. rewrite Hw. destruct Hsch as (HS & _ & _). split_and!; try done. by exists next; right.
    + destruct who; [|naive_solver]. destruct Hsch as (HS & _ & Hj). destruct (Hj eq_refl) as [HN HH].
      eapply (ok_inside _ _ _ _ I Hi); proj; try done; [congruence|inside_tac].
Qed.

Lemma ok_body (m : Memory) (ts : list Pc) (i : nat) :
  Inv m ts -> ts !! i = Some Body -> step_ok ts i (body_step m).
Proof.
  intros I Hi. pose proof (task_local _ _ I i _ Hi) as Hl. pose proof (task_sig _ _ I) as Hs.
  pose proof (task_exit _ _ I) as He. unfold body_step.
  destruct (stack_ m) as [acts|acts|a acts| | | | | | |acts| | |] eqn:Hstk;
    try (apply ok_await; [done..|by rewrite Hstk]); try (apply ok_yield; [done..|by rewrite Hstk]);
    cbn [exited sig_of] in *;
    (destruct (inside_runner m Hl) as (Hself & HT & Hsch & HS & HK & Hj); [by rewrite Hstk|]); rewrite Hstk in Hj;
    cbn [just_resumed] in Hj; try congruence.
  - destruct (Hj eq_refl) as [HN HH]. eapply (ok_inside _ _ _ _ I Hi); proj; try done; [|inside_tac].
    cbn [sig_of]. destruct Hs as (? & ? & [(? & _)|[_ ?]]); [congruence|]. done.
  - destruct acts as [|[a|p] acts].
    + unfold post_body_fn_exit. rewrite Hsch.
      assert (handle_event (set_control m (self_ m) None) kTerminated =
        (set_state (set_control m (self_ m) None) (Z.lor (state_ m) kTerminated), Finished)) as ->.
      { unfold handle_event. proj. bits. by rewrite HS. }
      eapply (ok_owner _ _ _ _ _ _ _ _ I Hi); proj; bits; try done.
      * by rewrite HS.
      * unfold local, after. proj. bits. by split_and!.
      * intros j q _ Hq. apply local_inactive; proj; bits; done.
      * by rewrite cnt_nil, Z.add_0_r.
    + destruct (sleeping a); (eapply (ok_inside _ _ _ _ I Hi); proj; try done; inside_tac).
    + eapply (ok_inside _ _ _ _ I Hi); proj; try done; inside_tac.
  - unfold sleep_step. rewrite Hstk. destruct (_ =? 0); (eapply (ok_inside _ _ _ _ I Hi); proj; bits; try done).
    + inside_tac.
    + by rewrite Hstk.
    + by rewrite Hstk.
    + unfold inside. proj. rewrite Hsch. bits. split_and!; try done. by rewrite Hstk.
  - unfold sleep_step. rewrite Hstk. eapply (ok_inside _ _ _ _ I Hi); proj; bits; try done. inside_tac.
Qed.

Lemma inv_thread_step_task (env : Env) (m : Memory) (ts : list Pc) (i : nat) (pc : Pc) :
  Inv m ts -> ts !! i = Some pc -> step_ok ts i (thread_step env m pc).
Proof.
  intros I Hi. destruct pc; cbn [thread_step];
    eauto using ok_handler, ok_handle_event, ok_schedule, ok_activate, ok_body, ok_set_priority, ok_stay;
    first [by apply ok_run | by apply ok_completion | by apply ok_when_done | by apply ok_dump | by apply ok_wake].
Qed.

Lemma task_inv_step (i : nat) (env : Env) (st : State) :
  Inv (mem st) (threads st) -> Inv (mem (step i env st)) (threads (step i env st)).
Proof.
  intros I. unfold step. destruct (threads st !! i) as [pc|] eqn:Hi; [|done].
  pose proof (inv_thread_step_task env _ _ _ _ I Hi) as H. unfold step_ok in H.
  destruct (thread_step env (mem st) pc) as [[[m pc'] sp] ev]. done.
Qed.

(** A property of the states that every step preserves holds after a run. *)
Lemma run_ind (P : State -> Prop) (schedule : list (nat * Env)) (st : State) :
  (forall i env st, P st -> P (step i env st)) -> P st -> P (run schedule st).
Proof. intros Hstep. revert st. induction schedule as [|[i env] l IH]; intros st HP; [done|]. apply IH. by apply Hstep. Qed.

Lemma external_cnt (P : Pc -> bool) (others : list Pc) :
  Forall (fun pc => is_external pc = true) others -> (forall pc, is_external pc = true -> P pc = false) ->
  cnt P others = 0.
Proof. intros Ho HP. induction Ho as [|pc l Hpc _ IH]; [done|]. by rewrite cnt_cons, IH, HP. Qed.

Lemma task_inv_initial (body : list Action) (priority : Z) (others : list Pc) :
  Forall (fun pc => is_external pc = true) others ->
  Inv (mem (initial_state body priority others)) (threads (initial_state body priority others)).
Proof.
  intros Ho.
  assert (forall P, (forall pc, is_external pc = true -> P pc = false) ->
    forall mask, cnt P (HandleEvent mask :: others) = Z.b2z (P (HandleEvent mask))) as Hc.
  { intros P HP mask. rewrite cnt_cons, (external_cnt P others Ho HP). lia. }
  split; proj; cbn [mem threads initial_state] in *; proj; rewrite ?Hc by (by intros []); try done.
  - intros [|i] pc Hi; simplify_eq/=.
    + right. done.
    + rewrite list.Forall_lookup in Ho. specialize (Ho i pc Hi). by destruct pc.
  - simpl. split_and!; try done. by left.
Qed.

Lemma task_inv_run (body : list Action) (priority : Z) (others : list Pc) (schedule : list (nat * Env)) :
  Forall (fun pc => is_external pc = true) others ->
  let st := run schedule (initial_state body priority others) in Inv (mem st) (threads st).
Proof.
  intros Ho. apply (run_ind (fun st => Inv (mem st) (threads st))); [apply task_inv_step|by apply task_inv_initial].
Qed.

(** ** The body makes its awaits in order *)

Definition action_ids (acts : list Action) : list nat :=
  omap (fun act => match act with DoAwait a => Some (await_id a) | DoYield _ => None end) acts.

(** The awaits that have not returned yet. *)
Fixpoint pending_ids (b : BodyPc) : list nat :=
  match b with
  | Entry acts | Run acts | SleepUnlock acts => action_ids acts
  | SleepLock a acts | Need a acts | CallFn a acts | StartOp a acts | Started a acts | LastYield a acts
  | TakeResult a acts => await_id a :: action_ids acts
  | Suspend next | Resumed next => pending_ids next
  | Exited => []
  end.

Definition returned (l : list Event) : list nat :=
  omap (fun ev => match ev with AwaitReturned k => Some k | HandlerRan _ => None end) l.

Definition ran (l : list Event) : list nat :=
  omap (fun ev => match ev with HandlerRan h => Some h | AwaitReturned _ => None end) l.

Lemma awaits_returned_app (a b : list Event) : returned (a ++ b) = returned a ++ returned b.
Proof. apply omap_app. Qed.

Lemma ran_app (a b : list Event) : ran (a ++ b) = ran a ++ ran b.
Proof. apply omap_app. Qed.

(** No await lets another task preempt this one before its operation has
    been started. *)
Definition calm_action (act : Action) : bool :=
  match act with DoAwait a => negb (preempt_before a) | DoYield _ => true end.

Definition is_needed (g : Sig) : bool := match g with SigNeeded _ => true | _ => false end.

Fixpoint calm (b : BodyPc) : bool :=
  match b with
  | Entry acts | Run acts | SleepUnlock acts => forallb calm_action acts
  | SleepLock a acts | Need a acts | CallFn a acts => negb (preempt_before a) && forallb calm_action acts
  | StartOp _ acts | Started _ acts | LastYield _ acts | TakeResult _ acts => forallb calm_action acts
  | Suspend next | Resumed next => calm next && negb (is_needed (sig_of next))
  | Exited => true
  end.

Ltac step_cases_tac := repeat (case_match; simplify_eq/=).

Ltac rw_true :=
  repeat match goal with
    | H : ?x = true |- context [?x] => rewrite H
    | H : ?x = false |- context [?x] => rewrite H
    end.

Lemma body_or_not (pc : Pc) : pc = Body \/ pc <> Body.
Proof. destruct pc; ((by left) || (by right)). Qed.

(** Only the body moves on its stack. *)
Lemma stack_kept (env : Env) (m : Memory) (pc : Pc) :
  pc <> Body ->
  let '(m', _, _, ev) := thread_step env m pc in stack_ m' = stack_ m /\ returned ev = [].
Proof.
  intros Hb. destruct pc; try done; unfold thread_step, handler_step, schedule_to_run, run_step,
    run_completion_handlers_step, call_when_done_step, try_dump_stack_trace_step, wake_step, spin_lock,
    resume_impl, goto;
    try (unfold handle_event); step_cases_tac; simplify_eq/=; done.
Qed.

Lemma body_ids (m : Memory) (calls signals : Z) :
  sig_ok (need m) (have m) (frame_ m) (sig_of (stack_ m)) calls signals ->
  let '(m', _, _, ev) := body_step m in pending_ids (stack_ m) = returned ev ++ pending_ids (stack_ m').
Proof.
  intros Hs. unfold body_step, sleep_step, yield_step, await_step, post_body_fn_exit, goto.
  destruct (stack_ m) as [acts|acts|a acts|a acts|a acts|a acts|a acts|a acts|a acts| | | |] eqn:Hst;
    cbn [sig_of] in Hs; try (step_cases_tac; simplify_eq/=; rewrite ?Hst; done).
  - destruct acts as [|[a|p] acts]; [|by destruct (sleeping a)|done].
    destruct (scheduler_ m) as [who|]; simpl; [|by rewrite Hst].
    unfold handle_event. step_cases_tac; simplify_eq/=; rewrite ?Hst; done.
  - destruct Hs as [(-> & _)|(-> & _)]; simpl; [by rewrite Hst|]. by destruct (sleeping a).
Qed.

Lemma body_calm (m : Memory) :
  calm (stack_ m) = true -> let '(m', _, _, _) := body_step m in calm (stack_ m') = true.
Proof.
  intros Hc. unfold body_step, sleep_step, yield_step, await_step, post_body_fn_exit, goto.
  destruct (stack_ m) as [acts|acts|a acts|a acts|a acts|a acts|a acts|a acts|a acts| | | |] eqn:Hst;
    cbn [calm] in Hc; bool_cases; try (step_cases_tac; rewrite ?Hst; simpl; rw_true; done).
  destruct acts as [|[a|p] acts]; simpl in *; bool_cases.
  - destruct (scheduler_ m) as [who|]; simpl; [|by rewrite Hst].
    unfold handle_event. step_cases_tac; rewrite ?Hst; done.
  - destruct (sleeping a); simpl; by rw_true.
  - by rewrite Hc.
Qed.

(** The awaits that have returned are the first ones of the body. *)
Lemma task_ids_run (body : list Action) (priority : Z) (others : list Pc) (schedule : list (nat * Env)) :
  Forall (fun pc => is_external pc = true) others ->
  let st := run schedule (initial_state body priority others) in
  action_ids body = returned (log st) ++ pending_ids (stack_ (mem st)).
Proof.
  intros Ho st.
  assert (Inv (mem st) (threads st) /\ action_ids body = returned (log st) ++ pending_ids (stack_ (mem st))) as [_ H]; [|done].
  apply (run_ind (fun st => Inv (mem st) (threads st) /\
    action_ids body = returned (log st) ++ pending_ids (stack_ (mem st)))); [|by split; [apply task_inv_initial|]].
  clear st. intros i env st [I H]. split; [by apply task_inv_step|].
  unfold step. destruct (threads st !! i) as [pc|] eqn:Hi; [|done].
  destruct (body_or_not pc) as [->|Hb].
  - pose proof (body_ids (mem st) _ _ (task_sig _ _ I)) as Hids. simpl.
    destruct (body_step (mem st)) as [[[m pc'] sp] ev]. simpl in *.
    rewrite awaits_returned_app, <- app_assoc. rewrite H. f_equal. done.
  - pose proof (stack_kept env (mem st) pc Hb) as Hk. destruct (thread_step env (mem st) pc) as [[[m pc'] sp] ev].
    destruct Hk as [Hs Hr]. simpl. by rewrite awaits_returned_app, Hr, app_nil_r, Hs.
Qed.

Lemma task_calm_run (body : list Action) (priority : Z) (others : list Pc) (schedule : list (nat * Env)) :
  forallb calm_action body = true ->
  calm (stack_ (mem (run schedule (initial_state body priority others)))) = true.
Proof.
  intros Hc. apply (run_ind (fun st => calm (stack_ (mem st)) = true)); [|done].
  intros i env st H. unfold step. destruct (threads st !! i) as [pc|] eqn:Hi; [|done].
  destruct (body_or_not pc) as [->|Hb].
  - pose proof (body_calm _ H) as H'. simpl. by destruct (body_step (mem st)) as [[[m pc'] sp] ev].
  - pose proof (stack_kept env (mem st) pc Hb) as Hk. destruct (thread_step env (mem st) pc) as [[[m pc'] sp] ev].
    destruct Hk as [Hs _]. simpl. by rewrite Hs.
Qed.

(** ** The completion handlers *)

(** The handlers a thread holds. *)
Definition handlers_of (pc : Pc) : list nat :=
  match pc with
  | WhenDone h | WhenDoneLock h | WhenDonePush h | WhenDoneRetry h => [h]
  | CompleteUnlock hs | Invoke hs => hs
  | _ => []
  end.

(** Where all the handlers are. *)
Definition all_handlers (st : State) : list nat :=
  concat (handlers_of <$> threads st) ++ completion_handlers_ (mem st) ++ ran (log st).

Lemma handlers_kept (env : Env) (m : Memory) (pc : Pc) :
  let '(m', pc', sp, ev) := thread_step env m pc in
  handlers_of pc ++ completion_handlers_ m ≡ₚ handlers_of pc' ++ completion_handlers_ m' ++ ran ev /\
  Forall (fun q => handlers_of q = []) sp.
Proof.
  destruct pc; unfold thread_step, body_step, sleep_step, yield_step, await_step, post_body_fn_exit, handler_step,
    schedule_to_run, run_step, run_completion_handlers_step, call_when_done_step, try_dump_stack_trace_step,
    wake_step, spin_lock, resume_impl, back_to, handle_event, activate_task, goto; step_cases_tac;
    rewrite ?app_nil_r; repeat constructor; try done; try solve_Permutation.
Qed.

Lemma all_handlers_step (i : nat) (env : Env) (st : State) : all_handlers (step i env st) ≡ₚ all_handlers st.
Proof.
  unfold step. destruct (threads st !! i) as [pc|] eqn:Hi; [|done].
  pose proof (handlers_kept env (mem st) pc) as Hk. destruct (thread_step env (mem st) pc) as [[[m pc'] sp] ev].
  destruct Hk as [Hp Hsp]. destruct (concat_step_perm handlers_of _ sp i pc pc' Hi Hsp) as (rest & E1 & E2).
  unfold all_handlers. simpl. rewrite ran_app, E1, E2.
  transitivity (rest ++ (handlers_of pc' ++ completion_handlers_ m ++ ran ev) ++ ran (log st)); [solve_Permutation|].
  rewrite <- Hp. solve_Permutation.
Qed.

(** The handlers that [call_when_done] was called with. *)
Definition requested (others : list Pc) : list nat := concat (handlers_of <$> others).

Lemma all_handlers_run (body : list Action) (priority : Z) (others : list Pc) (schedule : list (nat * Env)) :
  all_handlers (run schedule (initial_state body priority others)) ≡ₚ requested others.
Proof.
  apply (run_ind (fun st => all_handlers st ≡ₚ requested others)).
  - intros i env st H. by rewrite all_handlers_step.
  - unfold all_handlers, requested. simpl. by rewrite !app_nil_r.
Qed.

Lemma terminal_stays (env : Env) (m : Memory) (pc : Pc) :
  is_terminal_state (state_ m) = true ->
  let '(m', _, _, _) := thread_step env m pc in is_terminal_state (state_ m') = true.
Proof.
  rewrite terminal_bits. intros HT. apply andb_true_iff in HT as [HS HT].
  assert (is_ready_state (state_ m) = false) as Hr by (rewrite ready_bits, HS, HT; done).
  destruct pc; unfold thread_step, body_step, sleep_step, yield_step, await_step, post_body_fn_exit, handler_step,
    schedule_to_run, run_step, run_completion_handlers_step, call_when_done_step, try_dump_stack_trace_step,
    wake_step, spin_lock, resume_impl, back_to, handle_event, activate_task, goto; step_cases_tac;
    repeat match goal with
      | H : _ || negb (_ =? _) = false |- _ => apply orb_false_iff in H as [_ H]; apply negb_false_iff, Z.eqb_eq in H; subst
      | H : negb (is_ready_state _) = false |- _ => apply negb_false_iff in H
      end; try congruence; proj; bits; rewrite ?HS, ?HT; done.
Qed.

(** A completion handler runs only when the task has terminated. *)
Lemma ran_terminal (env : Env) (m : Memory) (pc : Pc) :
  local m pc ->
  let '(m', _, _, ev) := thread_step env m pc in ran ev <> [] -> is_terminal_state (state_ m') = true.
Proof.
  intros Hl.
  destruct pc; unfold thread_step, body_step, sleep_step, yield_step, await_step, post_body_fn_exit, handler_step,
    schedule_to_run, run_step, run_completion_handlers_step, call_when_done_step, try_dump_stack_trace_step,
    wake_step, spin_lock, resume_impl, back_to, handle_event, activate_task, goto; step_cases_tac; try done.
  intros _. rewrite terminal_bits. destruct Hl as [-> ->]. done.
Qed.

Lemma ran_terminal_run (body : list Action) (priority : Z) (others : list Pc) (schedule : list (nat * Env)) :
  Forall (fun pc => is_external pc = true) others ->
  let st := run schedule (initial_state body priority others) in
  ran (log st) <> [] -> is_terminal_state (state_ (mem st)) = true.
Proof.
  intros Ho st.
  assert (Inv (mem st) (threads st) /\ (ran (log st) <> [] -> is_terminal_state (state_ (mem st)) = true)) as [_ H]; [|done].
  apply (run_ind (fun st => Inv (mem st) (threads st) /\ (ran (log st) <> [] -> is_terminal_state (state_ (mem st)) = true))); [|by split; [apply task_inv_initial|]].
  clear st. intros i env st [I H]. split; [by apply task_inv_step|].
  unfold step. destruct (threads st !! i) as [pc|] eqn:Hi; [|done].
  pose proof (terminal_stays env (mem st) pc) as Ht. pose proof (ran_terminal env _ _ (task_local _ _ I i pc Hi)) as Hr.
  destruct (thread_step env (mem st) pc) as [[[m pc'] sp] ev]. simpl. rewrite ran_app.
  destruct (ran (log st)) as [|h l]; [done|]. intros _. by apply Ht, H.
Qed.

(** ** What the task promises *)

Definition finished (pc : Pc) : bool := match pc with Finished => true | _ => false end.

(** Nothing is left to do but, perhaps, to call the callbacks of awaits. *)
Definition settled (st : State) : Prop :=
  Forall (fun pc => finished pc = true \/ is_handler pc = true) (threads st).

Definition has_terminated (st : State) : bool := is_terminal_state (state_ (mem st)).

(** C4: No interleaving makes a [BATT_CHECK] of the task fail or lets the
    callback of an await write a dead stack frame, and at most one thread is
    ever responsible for the continuation: two activations, two threads
    running the body, or an activation during a stack trace cannot exist. *)
Theorem task_runs_on_one_thread (body : list Action) (priority : Z) (others : list Pc)
    (schedule : list (nat * Env)) :
  Forall (fun pc => is_external pc = true) others ->
  let st := run schedule (initial_state body priority others) in
  Panicked ∉ threads st /\
  forall i j pc pc', threads st !! i = Some pc -> threads st !! j = Some pc' ->
    active pc = true -> active pc' = true -> i = j.
Proof.
  intros Ho st. pose proof (task_inv_run body priority others schedule Ho) as I. fold st in I. split.
  - intros (i & Hi)%list_elem_of_lookup_1. by apply (task_local _ _ I i Panicked).
  - intros i j pc pc'. apply cnt_unique. rewrite (task_active _ _ I). by destruct (_ || _).
Qed.

(** C5: No signal is lost by a task in which no await is preempted before it
    has started its operation: when every thread has finished except for
    callbacks that were not called yet, then the task has terminated, or it
    is suspended in an await whose callback is the one that is still to come.
    [forallb calm_action body] leaves out the awaits whose function wakes
    another task of higher priority first: such an await never returns
    ([preempted_await_is_stuck]). *)
Theorem task_no_lost_signal (body : list Action) (priority : Z) (others : list Pc)
    (schedule : list (nat * Env)) :
  Forall (fun pc => is_external pc = true) others -> forallb calm_action body = true ->
  let st := run schedule (initial_state body priority others) in
  settled st ->
  has_terminated st = true \/
  exists i k, threads st !! i = Some (Handler k) /\ frame_ (mem st) = Some (k, false) /\
    need (mem st) = true /\ have (mem st) = false.
Proof.
  intros Ho Hcalm st Hset. pose proof (task_inv_run body priority others schedule Ho) as I. fold st in I.
  pose proof (task_calm_run body priority others schedule Hcalm) as Hc. fold st in Hc.
  assert (forall P, (forall pc, finished pc = true \/ is_handler pc = true -> P pc = false) -> cnt P (threads st) = 0) as Hz.
  { intros P HP. clear - Hset HP. unfold settled in Hset. induction Hset as [|pc l Hpc _ IH]; [done|].
    by rewrite cnt_cons, IH, HP. }
  assert (suspended (mem st) = true /\ tracing (mem st) = false) as [HS HK].
  { pose proof (task_active _ _ I) as Ha. rewrite Hz in Ha by (by intros [] []).
    destruct (suspended (mem st)), (tracing (mem st)); done. }
  destruct (task_rest _ _ I HS HK) as (Hsch & Hself & Hpark & Hent).
  unfold has_terminated. rewrite terminal_bits, HS. destruct (terminated (mem st)) eqn:HT; [by left|right].
  assert (is_ready_state (state_ (mem st)) = false) as Hr.
  { destruct (is_ready_state _) eqn:Hr; [|done]. destruct (task_ready _ _ I Hr) as (i & obs & f & Hi & _).
    unfold settled in Hset. rewrite list.Forall_lookup in Hset. by destruct (Hset _ _ Hi). }
  rewrite ready_bits, HS, HT, HK in Hr. simpl in Hr. rewrite andb_true_r in Hr.
  pose proof (task_sig _ _ I) as Hs. rewrite (Hz is_signal) in Hs by (by intros [] []).
  destruct (stack_ (mem st)) as [acts| | | | | | | | | | |next|] eqn:Hstk; try done; cbn [sig_of calm] in *.
  - destruct (Hent eq_refl) as [HN HH]. by rewrite HN, HH in Hr.
  - apply andb_true_iff in Hc as [_ Hc]. destruct (sig_of next) as [| |k|k]; simpl in Hs, Hc; try done.
    + destruct Hs as (_ & _ & [(_ & _ & ?)|[E _]]); [lia|]. rewrite E in Hr. by destruct (have _).
    + destruct Hs as (_ & _ & _ & E1 & E2). by rewrite E1, E2 in Hr.
    + destruct Hs as [(Hf & H1 & _ & HN & HH)|(_ & _ & [(_ & _ & ?)|[E _]])]; [|lia|rewrite E in Hr; by destruct (have _)].
      destruct (cnt_exists is_handler (threads st)) as (i & pc & Hi & Hp); [lia|].
      destruct pc as [k'| | | | | | | | | | | | | | | | | | | | | | | | | | | | | | | |]; try done.
      pose proof (task_local _ _ I i _ Hi) as Hl. simpl in Hl. exists i, k'. by rewrite Hl.
  - pose proof (task_exit _ _ I) as He. rewrite Hstk in He. simpl in He. congruence.
Qed.

(** The awaits of the body return in the order the body makes them, each
    exactly once, and all of them have returned when the task has terminated. *)
Theorem task_awaits_in_order (body : list Action) (priority : Z) (others : list Pc)
    (schedule : list (nat * Env)) :
  Forall (fun pc => is_external pc = true) others ->
  let st := run schedule (initial_state body priority others) in
  returned (log st) `prefix_of` action_ids body /\
  (has_terminated st = true -> returned (log st) = action_ids body).
Proof.
  intros Ho st. pose proof (task_inv_run body priority others schedule Ho) as I. fold st in I.
  pose proof (task_ids_run body priority others schedule Ho) as Hids. fold st in Hids. rewrite Hids. split.
  - by eexists.
  - unfold has_terminated. rewrite terminal_bits. intros [HS HT]%andb_true_iff. rewrite (task_exit _ _ I) in HT.
    assert (forall b, exited b = true -> pending_ids b = []) as Hp by (by induction b).
    by rewrite (Hp _ HT), app_nil_r.
Qed.

(** C21: A completion handler runs only after the task has terminated, and when
    every thread has finished on a terminated task, each handler passed to
    [call_when_done] has run exactly once, whatever the races between
    registration and termination. *)
Theorem task_completion_handlers_once (body : list Action) (priority : Z) (others : list Pc)
    (schedule : list (nat * Env)) :
  Forall (fun pc => is_external pc = true) others ->
  let st := run schedule (initial_state body priority others) in
  (ran (log st) <> [] -> has_terminated st = true) /\
  (Forall (fun pc => finished pc = true) (threads st) -> has_terminated st = true ->
   ran (log st) ≡ₚ requested others).
Proof.
  intros Ho st. pose proof (task_inv_run body priority others schedule Ho) as I. fold st in I. split.
  - by apply ran_terminal_run.
  - intros Hf Ht. rewrite <- (all_handlers_run body priority others schedule). fold st. unfold all_handlers.
    assert (forall P, P Finished = false -> cnt P (threads st) = 0) as Hz.
    { intros P HP. clear - Hf HP. induction Hf as [|pc l Hpc _ IH]; [done|].
      rewrite cnt_cons, IH. destruct pc; try done. by rewrite HP. }
    assert (concat (handlers_of <$> threads st) = []) as ->.
    { clear - Hf. induction Hf as [|pc l Hpc _ IH]; [done|]. rewrite fmap_cons. cbn [concat]. rewrite IH. by destruct pc. }
    unfold has_terminated in Ht. rewrite terminal_bits in Ht.
    pose proof (task_stage _ _ I) as I8. unfold stage_ok in I8. rewrite Ht, !Hz in I8 by done.
    destruct I8 as [(? & _)|(_ & _ & [?|[_ ->]])]; [done..|]. done.
Qed.

(** ** What the code does not promise *)

Definition plain_env : Env := mkEnv false None.

(** The threads of [l] take a step each, in this order. *)
Definition turns (l : list nat) : list (nat * Env) := (fun i => (i, plain_env)) <$> l.

(** A state that every step of every thread leaves as it is. *)
Lemma stuck (st : State) :
  (forall i pc env, threads st !! i = Some pc -> thread_step env (mem st) pc = (mem st, pc, [], [])) ->
  forall schedule, run schedule st = st.
Proof.
  intros H schedule. apply (run_ind (fun st' => st' = st)); [|done]. intros i env st' ->.
  unfold step. destruct (threads st !! i) as [pc|] eqn:Hi; [|done]. rewrite (H i pc env Hi).
  rewrite list_insert_id, !app_nil_r by done. by destruct st.
Qed.

Definition sleep_1 : Await := mkAwait 1 true false false.

(** [Task::run] takes the sleep timer lock for its own when [wake] holds it
    at the moment the task suspends, clears it, and takes it again for the
    task when it resumes.  The next [sleep] of the task then waits for ever
    for a lock that nobody holds. *)
Theorem wake_blocks_sleep :
  let st := run (turns [0;0;0;2;2;2;2;2;2;1;2;2;2;2;2;1;3;3;3;3;3;3;3]%nat)
              (initial_state [DoYield false; DoAwait sleep_1] 0 [WakeLock]) in
  threads st = [Finished; Finished; Finished; Body] /\ has_terminated st = false /\
  forall schedule, run schedule st = st.
Proof.
  cbv zeta. split; [by vm_compute|]. split; [by vm_compute|]. apply stuck. vm_compute.
  intros [|[|[|[|i]]]] pc env Hi; simplify_eq/=; done.
Qed.

(** An await whose function wakes a task of higher priority before it starts
    its own operation is preempted while [kNeedSignal] is set; the task never
    runs again, although no callback is outstanding. *)
Theorem preempted_await_is_stuck :
  let st := run (turns [0;0;0;1;1;1;1;1;1;1;1;1;1]%nat)
              (initial_state [DoAwait (mkAwait 1 false true false)] 0 []) in
  threads st = [Finished; Finished] /\ has_terminated st = false /\ forall schedule, run schedule st = st.
Proof.
  cbv zeta. split; [by vm_compute|]. split; [by vm_compute|]. apply stuck. vm_compute.
  intros [|[|i]] pc env Hi; simplify_eq/=; done.
Qed.

(** ** Witnesses *)

Definition sample_body : list Action := [DoAwait sleep_1; DoYield true; DoAwait (mkAwait 2 false false true)].

Definition sample_others : list Pc := [WhenDone 7; DumpLoad; WhenDone 8; SetPriority 3].

(** Every thread takes a step in turn, [n] times. *)
Definition rounds (n : nat) : list (nat * Env) := turns (concat (replicate n (seq 0 20))).

Abbreviation sample_run n := (run (rounds n) (initial_state sample_body 0 sample_others)).

Lemma sample_external : Forall (fun pc => is_external pc = true) sample_others.
Proof. repeat constructor. Qed.

Example task_runs_on_one_thread_witness :
  Panicked ∉ threads (sample_run 5) /\
  forall i j pc pc', threads (sample_run 5) !! i = Some pc -> threads (sample_run 5) !! j = Some pc' ->
    active pc = true -> active pc' = true -> i = j.
Proof. exact (task_runs_on_one_thread sample_body 0 sample_others (rounds 5) sample_external). Defined.

Example task_no_lost_signal_witness :
  settled (sample_run 80) /\
  (has_terminated (sample_run 80) = true \/
   exists i k, threads (sample_run 80) !! i = Some (Handler k) /\ frame_ (mem (sample_run 80)) = Some (k, false) /\
     need (mem (sample_run 80)) = true /\ have (mem (sample_run 80)) = false).
Proof.
  assert (settled (sample_run 80)) as Hs by (unfold settled; vm_compute; repeat constructor).
  split; [exact Hs|].
  exact (task_no_lost_signal sample_body 0 sample_others (rounds 80) sample_external eq_refl Hs).
Defined.

Example task_awaits_in_order_witness :
  has_terminated (sample_run 80) = true /\ returned (log (sample_run 80)) = [1; 2]%nat.
Proof.
  split; [by vm_compute|].
  apply (task_awaits_in_order sample_body 0 sample_others (rounds 80) sample_external). by vm_compute.
Defined.

Example task_completion_handlers_once_witness :
  ran (log (sample_run 80)) <> [] /\ ran (log (sample_run 80)) ≡ₚ [7; 8]%nat.
Proof.
  split; [by vm_compute|].
  apply (task_completion_handlers_once sample_body 0 sample_others (rounds 80) sample_external).
  - vm_compute. repeat constructor.
  - by vm_compute.
Defined.
