(* ===== verification/Seq.v ===== *)
(** * Sequences: lazy, pull-based pipelines

    [seq.hpp] and [seq/*.hpp].  A sequence is an object with the operations
    [peek] and [next]; both may change it, and [next] returns [None] when
    there is no item left.  A combinator is a class that owns the sequences it
    is built from.  The interface is the class [Seq]; the promise one sequence
    makes to another is the class [SeqLaws] (for [next]) and [PeekLaws] (for
    [peek]): a sequence represents a list of items.  Every combinator is an
    instance of [Seq]; the instances of the laws say which list it
    represents.

    Some operations are loops that need not end when a sequence is infinite.
    Every operation therefore takes fuel, and [None] says that the fuel has
    run out; [cost] is an amount that is always enough. *)

From S2P Require Import Prelude Status.
Open Scope nat_scope.

(** What the functions of a sequence return: the item, if there is one, and
    the new state of the sequence. *)
Definition Pull (S A : Type) : Type := option (option A * S).

(** The same with the item and the sequence wrapped. *)
Definition pull_map {S A S' B} (r : Pull S A) (f : option A -> option B) (k : S -> S') : Pull S' B :=
  match r with Some (item, s) => Some (f item, k s) | None => None end.

(** One call after another. *)
Definition pull_bind {S A R} (r : Pull S A) (k : option A -> S -> option R) : option R :=
  match r with Some (item, s) => k item s | None => None end.

Notation "'let*' x ',' s ':=' r 'in' k" := (pull_bind r (fun x s => k))
  (at level 200, x name, s name, r at level 100, k at level 200, right associativity) : batt_scope.
Open Scope batt_scope.

(* @ src/batteries/seq/requirements.hpp 15-47 HasSeqRequirements *)
Class Seq (S A : Type) : Type := {
  peek : nat -> S -> Pull S A;
  next : nat -> S -> Pull S A }.

Class SeqLaws (S A : Type) `{Seq S A} : Type := {
  wf : S -> Prop;
  items : S -> list A;
  cost : S -> nat;
  next_law : forall fuel s, wf s -> cost s <= fuel ->
    exists s', next fuel s = Some (head (items s), s') /\ wf s' /\ items s' = tail (items s) /\ cost s' <= cost s }.

Class PeekLaws (S A : Type) `{SeqLaws S A} : Prop :=
  peek_law : forall fuel s, wf s -> cost s <= fuel ->
    exists s', peek fuel s = Some (head (items s), s') /\ wf s' /\ items s' = items s /\ cost s' <= cost s.

#[global] Hint Mode Seq ! - : typeclass_instances.
#[global] Hint Mode SeqLaws ! - - : typeclass_instances.
#[global] Hint Mode PeekLaws ! - - - : typeclass_instances.

(** [pull_next s s' Hw Hi Hc] replaces a call of [next] on [s] in the goal by
    its result [s'] and names the facts about it; [pull_peek] likewise. *)
Ltac pull_next s s' Hw' Hi' Hc' :=
  match goal with
  | Hw : wf s |- context [next ?fuel s] =>
      let H := fresh "Hnext" in
      destruct (next_law fuel s Hw) as (s' & H & Hw' & Hi' & Hc'); [simpl in *; lia|]; rewrite H; clear H
  end.
Ltac pull_peek s s' Hw' Hi' Hc' :=
  match goal with
  | Hw : wf s |- context [peek ?fuel s] =>
      let H := fresh "Hpeek" in
      destruct (peek_law fuel s Hw) as (s' & H & Hw' & Hi' & Hc'); [simpl in *; lia|]; rewrite H; clear H
  end.

(** ** Sources *)

(* @ src/batteries/seq/sub_range_seq.hpp 18-26 SubRangeSeq *)
Record SubRangeSeq (A : Type) : Type := as_seq { sub_range_ : list A }.
Arguments as_seq {A} sub_range_.
Arguments sub_range_ {A} _.

(* @ src/batteries/seq/sub_range_seq.hpp 28-43 SubRangeSeq::peek, next *)
#[global] Instance sub_range_seq {A} : Seq (SubRangeSeq A) A := {|
  peek _ s := Some (head (sub_range_ s), s);
  next _ s := Some (head (sub_range_ s), match sub_range_ s with [] => s | _ :: l => as_seq l end) |}.

#[global, refine] Instance sub_range_laws {A} : SeqLaws (SubRangeSeq A) A := {|
  wf _ := True; items := sub_range_; cost _ := 0; next_law := _ |}.
Proof. intros fuel [[|x l]] _ _; simpl; by eexists. Defined.

#[global] Instance sub_range_peek {A} : PeekLaws (SubRangeSeq A) A.
Proof. intros fuel s _ _. by exists s. Qed.

(* @ src/batteries/seq.hpp 160-168 SingleItem *)
Record SingleItem (A : Type) : Type := mkSingleItem { item_ : option A }.
Arguments mkSingleItem {A} item_.
Arguments item_ {A} _.

Definition single_item {A} (x : A) : SingleItem A := mkSingleItem (Some x).

(* @ src/batteries/seq.hpp 148-158 SingleItem::peek, next *)
#[global] Instance single_item_seq {A} : Seq (SingleItem A) A := {|
  peek _ s := Some (item_ s, s);
  next _ s := Some (item_ s, mkSingleItem None) |}.

#[global, refine] Instance single_item_laws {A} : SeqLaws (SingleItem A) A := {|
  wf _ := True; items s := option_list (item_ s); cost _ := 0; next_law := _ |}.
Proof. intros fuel [[x|]] _ _; simpl; by eexists. Defined.

#[global] Instance single_item_peek {A} : PeekLaws (SingleItem A) A.
Proof. intros fuel [[x|]] _ _; by eexists. Qed.

(** ** for_each and the folds built on it *)

(* @ src/batteries/seq/loop_control.hpp 16-19 LoopControl *)
Inductive LoopControl : Type := kContinue | kBreak.

(** [for_each] runs [fn] on the items in order, threading the variables that
    the body captures, until it returns [kBreak]. *)
(* @ src/batteries/seq/for_each.hpp 35-48 operator| *)
Fixpoint for_each_loop {S A St} `{Seq S A} (fn : St -> A -> St * LoopControl) (n fuel : nat) (st : St) (s : S) :
    option (St * LoopControl * S) :=
  match n with
  | 0 => None
  | Datatypes.S n' =>
      let* item, s' := next fuel s in
      match item with
      | None => Some (st, kContinue, s')
      | Some x =>
          match fn st x with
          | (st', kBreak) => Some (st', kBreak, s')
          | (st', kContinue) => for_each_loop fn n' fuel st' s'
          end
      end
  end.

Definition for_each {S A St} `{Seq S A} (fn : St -> A -> St * LoopControl) (fuel : nat) (st : St) (s : S) :
    option (St * LoopControl * S) := for_each_loop fn fuel fuel st s.

(** The same loop over a list; what is left of it is returned. *)
Fixpoint fold_until {A St} (fn : St -> A -> St * LoopControl) (st : St) (l : list A) : St * LoopControl * list A :=
  match l with
  | [] => (st, kContinue, [])
  | x :: l' =>
      match fn st x with
      | (st', kBreak) => (st', kBreak, l')
      | (st', kContinue) => fold_until fn st' l'
      end
  end.

Section for_each.
Context {S A St : Type} `{SeqLaws S A}.

Lemma for_each_loop_spec (fn : St -> A -> St * LoopControl) (n fuel : nat) (st : St) (s : S) :
  wf s -> cost s <= fuel -> length (items s) < n ->
  exists s', for_each_loop fn n fuel st s =
      Some (fold_until fn st (items s)).1.1 ≫= (fun st' => Some (st', (fold_until fn st (items s)).1.2, s')) /\
    wf s' /\ items s' = (fold_until fn st (items s)).2 /\ cost s' <= cost s.
Proof.
  revert st s. induction n as [|n IH]; intros st s Hw Hc Hn; [lia|]. simpl. pull_next s s1 Hw1 Hi1 Hc1.
  destruct (items s) as [|x l] eqn:E; simpl in *; [by eexists|].
  destruct (fn st x) as [st' []]; [|by eexists].
  destruct (IH st' s1) as (s2 & E2 & ? & ? & ?); [done|lia|rewrite Hi1; lia|].
  rewrite Hi1 in *. exists s2. split; [done|]. split_and!; [done..|lia].
Qed.

(** [for_each] with enough fuel is the loop over the items. *)
Lemma for_each_spec (fn : St -> A -> St * LoopControl) (fuel : nat) (st : St) (s : S) :
  wf s -> cost s + length (items s) < fuel ->
  exists s', for_each fn fuel st s = Some ((fold_until fn st (items s)).1, s') /\
    wf s' /\ items s' = (fold_until fn st (items s)).2 /\ cost s' <= cost s.
Proof.
  intros Hw Hc. destruct (for_each_loop_spec fn fuel fuel st s) as (s' & E & Hr); [done|lia|lia|].
  exists s'. split; [|done]. unfold for_each. rewrite E. simpl. by destruct (fold_until fn st (items s)) as [[? ?] ?].
Qed.

End for_each.

(** ** Chain, Map, Filter, TakeN, TakeWhile *)

(* @ src/batteries/seq/chain.hpp 51-54 Chain *)
Record Chain (S1 S2 : Type) : Type := mkChain { chain_seq1_ : option S1; chain_seq2_ : S2 }.
Arguments mkChain {S1 S2} chain_seq1_ chain_seq2_.
Arguments chain_seq1_ {S1 S2} _.
Arguments chain_seq2_ {S1 S2} _.

(* @ src/batteries/seq/chain.hpp 67-77 operator| *)
Definition chain {S1 S2} (s2 : S2) (s1 : S1) : Chain S1 S2 := mkChain (Some s1) s2.

Section chain.
Context {S1 S2 A : Type} `{Seq S1 A} `{Seq S2 A}.

(* @ src/batteries/seq/chain.hpp 31-37 Chain::peek *)
Definition chain_peek (fuel : nat) (s : Chain S1 S2) : Pull (Chain S1 S2) A :=
  match chain_seq1_ s with
  | Some s1 => let* item, s1' := peek fuel s1 in Some (item, mkChain (Some s1') (chain_seq2_ s))
  | None => let* item, s2' := peek fuel (chain_seq2_ s) in Some (item, mkChain None s2')
  end.

(* @ src/batteries/seq/chain.hpp 39-49 Chain::next *)
Definition chain_next (fuel : nat) (s : Chain S1 S2) : Pull (Chain S1 S2) A :=
  let next_2 := let* item, s2' := next fuel (chain_seq2_ s) in Some (item, mkChain None s2') in
  match chain_seq1_ s with
  | Some s1 =>
      let* item, s1' := next fuel s1 in
      match item with
      | Some x => Some (Some x, mkChain (Some s1') (chain_seq2_ s))
      | None => next_2
      end
  | None => next_2
  end.

#[global] Instance chain_seq : Seq (Chain S1 S2) A := {| peek := chain_peek; next := chain_next |}.

End chain.

Definition from_option_prop {A} (P : A -> Prop) (o : option A) : Prop := forall x, o = Some x -> P x.

#[global, refine] Instance chain_laws {S1 S2 A} `{SeqLaws S1 A} `{SeqLaws S2 A} : SeqLaws (Chain S1 S2) A := {|
  wf s := from_option_prop wf (chain_seq1_ s) /\ wf (chain_seq2_ s);
  items s := from_option items [] (chain_seq1_ s) ++ items (chain_seq2_ s);
  cost s := from_option cost 0 (chain_seq1_ s) + cost (chain_seq2_ s);
  next_law := _ |}.
Proof.
  intros fuel [[s1|] s2] [Hw1 Hw2] Hc; unfold next at 1; simpl in *; unfold chain_next; simpl in *.
  - specialize (Hw1 s1 eq_refl). pull_next s1 s1' Hw1' Hi1 Hc1. simpl.
    destruct (items s1) as [|x l] eqn:E; simpl in *.
    + pull_next s2 s2' Hw2' Hi2 Hc2. eexists. split; [done|]. split_and!; simpl; [by intros ? [=]|done|done|lia].
    + eexists. split; [done|]. simpl. rewrite Hi1. split_and!; [|done..|lia]. by intros ? [= <-].
  - pull_next s2 s2' Hw2' Hi2 Hc2. eexists. split; [done|]. split_and!; simpl; [by intros ? [=]|done|done|lia].
Defined.

(* @ src/batteries/seq/map.hpp 86-89 Map *)
Record Map (S A B : Type) : Type := mkMap { map_seq_ : S; map_fn_ : A -> B }.
Arguments mkMap {S A B} map_seq_ map_fn_.
Arguments map_seq_ {S A B} _.
Arguments map_fn_ {S A B} _.

(* @ src/batteries/seq/map.hpp 102-112 operator| *)
Definition map {S A B} (f : A -> B) (s : S) : Map S A B := mkMap s f.

(* @ src/batteries/seq/map.hpp 60-75 Map::peek, next *)
#[global] Instance map_seq {S A B} `{Seq S A} : Seq (Map S A B) B := {|
  peek fuel (s : Map S A B) :=
    pull_map (peek fuel (map_seq_ s)) (fun item => map_fn_ s <$> item) (fun s' => mkMap s' (map_fn_ s));
  next fuel (s : Map S A B) :=
    pull_map (next fuel (map_seq_ s)) (fun item => map_fn_ s <$> item) (fun s' => mkMap s' (map_fn_ s)) |}.

Lemma head_fmap {A B} (f : A -> B) (l : list A) : head (f <$> l) = f <$> head l.
Proof. by destruct l. Qed.

Lemma tail_fmap {A B} (f : A -> B) (l : list A) : tail (f <$> l) = f <$> tail l.
Proof. by destruct l. Qed.

#[global, refine] Instance map_laws {S A B} `{SeqLaws S A} : SeqLaws (Map S A B) B := {|
  wf s := wf (map_seq_ s);
  items s := map_fn_ s <$> items (map_seq_ s);
  cost s := cost (map_seq_ s);
  next_law := _ |}.
Proof.
  intros fuel [s f] Hw Hc. simpl in *. pull_next s s1 Hw1 Hi1 Hc1. simpl. eexists. split; [by rewrite head_fmap|].
  simpl. by rewrite Hi1, tail_fmap.
Defined.

#[global] Instance map_peek {S A B} `{PeekLaws S A} : PeekLaws (Map S A B) B.
Proof.
  intros fuel [s f] Hw Hc. simpl in *. pull_peek s s1 Hw1 Hi1 Hc1. simpl. eexists. split; [by rewrite head_fmap|].
  simpl. by rewrite Hi1.
Qed.

(* @ src/batteries/seq/filter.hpp 87-90 Filter *)
Record Filter (S A : Type) : Type := mkFilter { filter_seq_ : S; predicate_ : A -> bool }.
Arguments mkFilter {S A} filter_seq_ predicate_.
Arguments filter_seq_ {S A} _.
Arguments predicate_ {S A} _.

(* @ src/batteries/seq/filter.hpp 103-113 operator| *)
Definition filter {S A} (p : A -> bool) (s : S) : Filter S A := mkFilter s p.

Section filter.
Context {S A : Type} `{Seq S A}.

(* @ src/batteries/seq/filter.hpp 57-66 Filter::peek *)
Fixpoint filter_peek (fuel : nat) (s : Filter S A) : Pull (Filter S A) A :=
  match fuel with
  | 0 => None
  | Datatypes.S fuel' =>
      let* item, s1 := peek fuel' (filter_seq_ s) in
      match item with
      | None => Some (None, mkFilter s1 (predicate_ s))
      | Some x =>
          if predicate_ s x then Some (Some x, mkFilter s1 (predicate_ s))
          else let* skipped, s2 := next fuel' s1 in filter_peek fuel' (mkFilter s2 (predicate_ s))
      end
  end.

(* @ src/batteries/seq/filter.hpp 68-76 Filter::next *)
Fixpoint filter_next (fuel : nat) (s : Filter S A) : Pull (Filter S A) A :=
  match fuel with
  | 0 => None
  | Datatypes.S fuel' =>
      let* item, s1 := next fuel' (filter_seq_ s) in
      match item with
      | None => Some (None, mkFilter s1 (predicate_ s))
      | Some x =>
          if predicate_ s x then Some (Some x, mkFilter s1 (predicate_ s))
          else filter_next fuel' (mkFilter s1 (predicate_ s))
      end
  end.

#[global] Instance filter_seq : Seq (Filter S A) A := {| peek := filter_peek; next := filter_next |}.

End filter.

#[global, refine] Instance filter_laws {S A} `{SeqLaws S A} : SeqLaws (Filter S A) A := {|
  wf s := wf (filter_seq_ s);
  items s := base.filter (fun x => predicate_ s x = true) (items (filter_seq_ s));
  cost s := 1 + cost (filter_seq_ s) + length (items (filter_seq_ s));
  next_law := _ |}.
Proof.
  intros fuel. induction fuel as [|fuel IH]; intros [s p] Hw Hc; simpl in *; [lia|].
  pull_next s s1 Hw1 Hi1 Hc1. simpl. destruct (items s) as [|x l] eqn:E; simpl in *.
  - eexists. split; [done|]. simpl. rewrite Hi1. simpl. split_and!; [done|done|lia].
  - rewrite filter_cons. destruct (p x) eqn:Ep; simpl.
    + eexists. split; [done|]. simpl. rewrite Hi1. split_and!; [done|done|lia].
    + destruct (IH (mkFilter s1 p) Hw1) as (s2 & E2 & ? & Hi2 & Hc2); simpl in *; rewrite Hi1 in *; [lia|].
      exists s2. split; [done|]. split_and!; [done|done|lia].
Defined.

#[global] Instance filter_peek_laws {S A} `{PeekLaws S A} : PeekLaws (Filter S A) A.
Proof.
  intros fuel. induction fuel as [|fuel IH]; intros [s p] Hw Hc; simpl in *; [lia|].
  pull_peek s s1 Hw1 Hi1 Hc1. simpl. destruct (items s) as [|x l] eqn:E; simpl in *.
  - eexists. split; [done|]. simpl. rewrite Hi1. simpl. split_and!; [done|done|lia].
  - rewrite filter_cons. destruct (p x) eqn:Ep; simpl.
    + eexists. split; [done|]. simpl. rewrite Hi1, filter_cons, Ep. split_and!; [done|done|simpl; lia].
    + pull_next s1 s2 Hw2 Hi2 Hc2. rewrite Hi1 in Hi2. simpl in Hi2 |- *.
      destruct (IH (mkFilter s2 p) Hw2) as (s3 & E3 & ? & Hi3 & Hc3); simpl in *; rewrite Hi2 in *; [lia|].
      exists s3. split; [done|]. split_and!; [done|done|lia].
Qed.

(* @ src/batteries/seq/take_n.hpp 58-61 TakeN *)
Record TakeN (S : Type) : Type := mkTakeN { take_seq_ : S; take_n_ : nat }.
Arguments mkTakeN {S} take_seq_ take_n_.
Arguments take_seq_ {S} _.
Arguments take_n_ {S} _.

(* @ src/batteries/seq/take_n.hpp 63-67 operator| *)
Definition take_n {S} (n : nat) (s : S) : TakeN S := mkTakeN s n.

(* @ src/batteries/seq/take_n.hpp 42-56 TakeN::peek, next *)
#[global] Instance take_n_seq {S A} `{Seq S A} : Seq (TakeN S) A := {|
  peek fuel (s : TakeN S) :=
    match take_n_ s with
    | 0 => Some (None, s)
    | _ => pull_map (peek fuel (take_seq_ s)) id (fun s' => mkTakeN s' (take_n_ s))
    end;
  next fuel (s : TakeN S) :=
    match take_n_ s with
    | 0 => Some (None, s)
    | Datatypes.S n => pull_map (next fuel (take_seq_ s)) id (fun s' => mkTakeN s' n)
    end |}.

#[global, refine] Instance take_n_laws {S A} `{SeqLaws S A} : SeqLaws (TakeN S) A := {|
  wf s := wf (take_seq_ s);
  items s := take (take_n_ s) (items (take_seq_ s));
  cost s := cost (take_seq_ s);
  next_law := _ |}.
Proof.
  intros fuel [s [|n]] Hw Hc; simpl in *; [by eexists|]. pull_next s s1 Hw1 Hi1 Hc1. simpl. unfold id.
  destruct (items s) as [|x l] eqn:E; simpl in *; eexists; (split; [done|]); simpl; rewrite Hi1; simpl;
    by rewrite ?take_nil.
Defined.

#[global] Instance take_n_peek {S A} `{PeekLaws S A} : PeekLaws (TakeN S) A.
Proof.
  intros fuel [s [|n]] Hw Hc; simpl in *; [by eexists|]. pull_peek s s1 Hw1 Hi1 Hc1. simpl. unfold id.
  eexists. split; [by destruct (items s)|]. simpl. by rewrite Hi1.
Qed.

(* @ src/batteries/seq/take_while.hpp 51-54 TakeWhile *)
Record TakeWhile (S A : Type) : Type := mkTakeWhile { while_seq_ : S; while_predicate_ : A -> bool }.
Arguments mkTakeWhile {S A} while_seq_ while_predicate_.
Arguments while_seq_ {S A} _.
Arguments while_predicate_ {S A} _.

(* @ src/batteries/seq/take_while.hpp 67-77 operator| *)
Definition take_while {S A} (p : A -> bool) (s : S) : TakeWhile S A := mkTakeWhile s p.

Section take_while.
Context {S A : Type} `{Seq S A}.

(* @ src/batteries/seq/take_while.hpp 32-39 TakeWhile::peek *)
Definition take_while_peek (fuel : nat) (s : TakeWhile S A) : Pull (TakeWhile S A) A :=
  pull_map (peek fuel (while_seq_ s))
    (fun v => match v with Some x => if while_predicate_ s x then Some x else None | None => None end)
    (fun s' => mkTakeWhile s' (while_predicate_ s)).

(* @ src/batteries/seq/take_while.hpp 41-49 TakeWhile::next *)
Definition take_while_next (fuel : nat) (s : TakeWhile S A) : Pull (TakeWhile S A) A :=
  let* v, s1 := take_while_peek fuel s in
  match v with
  | Some x => pull_map (next fuel (while_seq_ s1)) (fun _ => Some x) (fun s' => mkTakeWhile s' (while_predicate_ s1))
  | None => Some (None, s1)
  end.

#[global] Instance take_while_seq : Seq (TakeWhile S A) A := {| peek := take_while_peek; next := take_while_next |}.

End take_while.

(** The longest prefix of items that satisfy [p]. *)
Fixpoint prefix_while {A} (p : A -> bool) (l : list A) : list A :=
  match l with
  | [] => []
  | x :: l' => if p x then x :: prefix_while p l' else []
  end.

Lemma take_while_peeks {S A} `{PeekLaws S A} (fuel : nat) (s : S) (p : A -> bool) :
  wf s -> cost s <= fuel ->
  exists s', take_while_peek fuel (mkTakeWhile s p) = Some (head (prefix_while p (items s)), mkTakeWhile s' p) /\
    wf s' /\ items s' = items s /\ cost s' <= cost s.
Proof.
  intros Hw Hc. unfold take_while_peek. simpl. pull_peek s s1 Hw1 Hi1 Hc1. simpl. exists s1. split; [|done].
  destruct (items s) as [|x l]; simpl; [done|]. by destruct (p x).
Qed.

#[global, refine] Instance take_while_laws {S A} `{PeekLaws S A} : SeqLaws (TakeWhile S A) A := {|
  wf s := wf (while_seq_ s);
  items s := prefix_while (while_predicate_ s) (items (while_seq_ s));
  cost s := cost (while_seq_ s);
  next_law := _ |}.
Proof.
  intros fuel [s p] Hw Hc. simpl in *. unfold take_while_next.
  destruct (take_while_peeks fuel s p Hw Hc) as (s1 & -> & Hw1 & Hi1 & Hc1). simpl.
  destruct (head (prefix_while p (items s))) as [x|] eqn:E.
  - simpl. pull_next s1 s2 Hw2 Hi2 Hc2. simpl. eexists. split; [done|]. simpl. rewrite Hi2, Hi1.
    split_and!; [done| |lia]. destruct (items s) as [|y l]; simpl in *; [done|]. by destruct (p y).
  - eexists. split; [done|]. simpl. rewrite Hi1. split_and!; [done| |lia].
    by destruct (prefix_while p (items s)).
Defined.

#[global] Instance take_while_peek_laws {S A} `{PeekLaws S A} : PeekLaws (TakeWhile S A) A.
Proof.
  intros fuel [s p] Hw Hc. simpl in *. destruct (take_while_peeks fuel s p Hw Hc) as (s1 & -> & Hw1 & Hi1 & Hc1).
  eexists. split; [done|]. simpl. by rewrite Hi1.
Qed.

(** ** CacheNext, Attach, MapFold, MapAdjacent, MapPairwise, InspectAdjacent *)

(* @ src/batteries/seq/cache_next.hpp 53-56 CacheNext *)
Record CacheNext (S A : Type) : Type := mkCacheNext { cache_seq_ : S; cached_ : option (option A) }.
Arguments mkCacheNext {S A} cache_seq_ cached_.
Arguments cache_seq_ {S A} _.
Arguments cached_ {S A} _.

(* @ src/batteries/seq/cache_next.hpp 66-70 operator| *)
Definition cache_next {S A} (s : S) : CacheNext S A := mkCacheNext s None.

(* @ src/batteries/seq/cache_next.hpp 33-51 CacheNext::peek, next *)
#[global] Instance cache_next_seq {S A} `{Seq S A} : Seq (CacheNext S A) A := {|
  peek fuel (s : CacheNext S A) :=
    match cached_ s with
    | Some item => Some (item, s)
    | None => let* item, s' := next fuel (cache_seq_ s) in Some (item, mkCacheNext s' (Some item))
    end;
  next fuel (s : CacheNext S A) :=
    match cached_ s with
    | Some item => Some (item, mkCacheNext (cache_seq_ s) None)
    | None => pull_map (next fuel (cache_seq_ s)) id (fun s' => mkCacheNext s' None)
    end |}.

(** A cached [None] is kept only as long as the sequence has no more items. *)
#[global, refine] Instance cache_next_laws {S A} `{SeqLaws S A} : SeqLaws (CacheNext S A) A := {|
  wf s := wf (cache_seq_ s) /\ (cached_ s = Some None -> items (cache_seq_ s) = []);
  items s := match cached_ s with Some item => option_list item | None => [] end ++ items (cache_seq_ s);
  cost s := cost (cache_seq_ s);
  next_law := _ |}.
Proof.
  intros fuel [s [[x|]|]] [Hw Hn] Hc; simpl in *.
  - by eexists.
  - rewrite Hn by done. eexists. split; [done|]. simpl. by rewrite Hn.
  - pull_next s s1 Hw1 Hi1 Hc1. simpl. by eexists.
Defined.

#[global] Instance cache_next_peek {S A} `{SeqLaws S A} : PeekLaws (CacheNext S A) A.
Proof.
  intros fuel [s [[x|]|]] [Hw Hn] Hc; simpl in *.
  - by eexists.
  - rewrite Hn by done. eexists. split; [done|]. simpl. by rewrite Hn.
  - pull_next s s1 Hw1 Hi1 Hc1. simpl. eexists. split; [done|]. simpl. rewrite Hi1.
    destruct (items s) as [|x l]; done.
Qed.

(* @ src/batteries/seq/attach.hpp 54-57 Attach *)
Record Attach (S D : Type) : Type := mkAttach { attach_seq_ : S; user_data : D }.
Arguments mkAttach {S D} attach_seq_ user_data.
Arguments attach_seq_ {S D} _.
Arguments user_data {S D} _.

(* @ src/batteries/seq/attach.hpp 45-52 Attach::peek, next *)
#[global] Instance attach_seq {S D A} `{Seq S A} : Seq (Attach S D) A := {|
  peek fuel (s : Attach S D) := pull_map (peek fuel (attach_seq_ s)) id (fun s' => mkAttach s' (user_data s));
  next fuel (s : Attach S D) := pull_map (next fuel (attach_seq_ s)) id (fun s' => mkAttach s' (user_data s)) |}.

#[global, refine] Instance attach_laws {S D A} `{SeqLaws S A} : SeqLaws (Attach S D) A := {|
  wf s := wf (attach_seq_ s); items s := items (attach_seq_ s); cost s := cost (attach_seq_ s); next_law := _ |}.
Proof. intros fuel [s d] Hw Hc. simpl in *. pull_next s s1 Hw1 Hi1 Hc1. by eexists. Defined.

#[global] Instance attach_peek {S D A} `{PeekLaws S A} : PeekLaws (Attach S D) A.
Proof. intros fuel [s d] Hw Hc. simpl in *. pull_peek s s1 Hw1 Hi1 Hc1. by eexists. Qed.

(* @ src/batteries/seq/map_fold.hpp 73-77 MapFold *)
Record MapFold (S St A B : Type) : Type := mkMapFold { fold_seq_ : S; state_ : St; fold_fn_ : St -> A -> St * B }.
Arguments mkMapFold {S St A B} fold_seq_ state_ fold_fn_.
Arguments fold_seq_ {S St A B} _.
Arguments state_ {S St A B} _.
Arguments fold_fn_ {S St A B} _.

(* @ src/batteries/seq/map_fold.hpp 91-96 operator| *)
Definition map_fold {S St A B} (st : St) (f : St -> A -> St * B) (s : S) : MapFold S St A B := mkMapFold s st f.

(* @ src/batteries/seq/map_fold.hpp 46-71 MapFold::peek, next *)
#[global] Instance map_fold_seq {S St A B} `{Seq S A} : Seq (MapFold S St A B) B := {|
  peek fuel (s : MapFold S St A B) :=
    pull_map (peek fuel (fold_seq_ s)) (fun item => (fun x => (fold_fn_ s (state_ s) x).2) <$> item)
      (fun s' => mkMapFold s' (state_ s) (fold_fn_ s));
  next fuel (s : MapFold S St A B) :=
    let* item, s' := next fuel (fold_seq_ s) in
    match item with
    | None => Some (None, mkMapFold s' (state_ s) (fold_fn_ s))
    | Some x => Some (Some (fold_fn_ s (state_ s) x).2, mkMapFold s' (fold_fn_ s (state_ s) x).1 (fold_fn_ s))
    end |}.

(** The outputs of the fold. *)
Fixpoint scan {St A B} (f : St -> A -> St * B) (st : St) (l : list A) : list B :=
  match l with
  | [] => []
  | x :: l' => (f st x).2 :: scan f (f st x).1 l'
  end.

#[global, refine] Instance map_fold_laws {S St A B} `{SeqLaws S A} : SeqLaws (MapFold S St A B) B := {|
  wf s := wf (fold_seq_ s);
  items s := scan (fold_fn_ s) (state_ s) (items (fold_seq_ s));
  cost s := cost (fold_seq_ s);
  next_law := _ |}.
Proof.
  intros fuel [s st f] Hw Hc. simpl in *. pull_next s s1 Hw1 Hi1 Hc1. simpl.
  destruct (items s) as [|x l]; simpl in *; eexists; (split; [done|]); simpl; by rewrite Hi1.
Defined.

#[global] Instance map_fold_peek {S St A B} `{PeekLaws S A} : PeekLaws (MapFold S St A B) B.
Proof.
  intros fuel [s st f] Hw Hc. simpl in *. pull_peek s s1 Hw1 Hi1 Hc1. simpl. eexists.
  split; [by destruct (items s)|]. simpl. by rewrite Hi1.
Qed.

(** [peek] of [MapAdjacent] returns an [Optional] of an [Optional] where one
    [Optional] is expected; it compiles for no item type the library uses, and
    is not modelled. *)
(* @ src/batteries/seq/map_adjacent.hpp 58-62 MapAdjacent *)
Record MapAdjacent (S A B : Type) : Type := mkMapAdjacent {
  adjacent_seq_ : S; adjacent_fn_ : A -> A -> B; adjacent_item_ : option A }.
Arguments mkMapAdjacent {S A B} adjacent_seq_ adjacent_fn_ adjacent_item_.
Arguments adjacent_seq_ {S A B} _.
Arguments adjacent_fn_ {S A B} _.
Arguments adjacent_item_ {S A B} _.

(** The constructor reads the first item. *)
(* @ src/batteries/seq/map_adjacent.hpp 34-36 MapAdjacent::MapAdjacent *)
Definition map_adjacent {S A B} `{Seq S A} (fuel : nat) (f : A -> A -> B) (s : S) : option (MapAdjacent S A B) :=
  let* item, s' := next fuel s in Some (mkMapAdjacent s' f item).

(* @ src/batteries/seq/map_adjacent.hpp 46-56 MapAdjacent::next *)
Definition map_adjacent_next {S A B} `{Seq S A} (fuel : nat) (s : MapAdjacent S A B) : Pull (MapAdjacent S A B) B :=
  match adjacent_item_ s with
  | None => Some (None, s)
  | Some first =>
      let* item, s' := next fuel (adjacent_seq_ s) in
      Some (adjacent_fn_ s first <$> item, mkMapAdjacent s' (adjacent_fn_ s) item)
  end.

#[global] Instance map_adjacent_seq {S A B} `{Seq S A} : Seq (MapAdjacent S A B) B := {|
  peek _ _ := None; next := map_adjacent_next |}.

(** [f] of the pairs of adjacent items. *)
Fixpoint adjacent {A B} (f : A -> A -> B) (x : A) (l : list A) : list B :=
  match l with
  | [] => []
  | y :: l' => f x y :: adjacent f y l'
  end.

#[global, refine] Instance map_adjacent_laws {S A B} `{SeqLaws S A} : SeqLaws (MapAdjacent S A B) B := {|
  wf s := wf (adjacent_seq_ s);
  items s := match adjacent_item_ s with
             | Some x => adjacent (adjacent_fn_ s) x (items (adjacent_seq_ s))
             | None => []
             end;
  cost s := cost (adjacent_seq_ s);
  next_law := _ |}.
Proof.
  intros fuel [s f [x|]] Hw Hc; simpl in *; [|by eexists]. unfold map_adjacent_next. simpl.
  pull_next s s1 Hw1 Hi1 Hc1. simpl. destruct (items s) as [|y l]; simpl in *; eexists; (split; [done|]); simpl;
    by rewrite ?Hi1.
Defined.

(* @ src/batteries/seq/map_pairwise.hpp 87-91 MapPairwise *)
Record MapPairwise (L R A B C : Type) : Type := mkMapPairwise { pair_left_ : L; pair_right_ : R; pair_fn_ : A -> B -> C }.
Arguments mkMapPairwise {L R A B C} pair_left_ pair_right_ pair_fn_.
Arguments pair_left_ {L R A B C} _.
Arguments pair_right_ {L R A B C} _.
Arguments pair_fn_ {L R A B C} _.

(* @ src/batteries/seq/map_pairwise.hpp 105-120 operator| *)
Definition map_pairwise {L R A B C} (right : R) (f : A -> B -> C) (left : L) : MapPairwise L R A B C :=
  mkMapPairwise left right f.

(* @ src/batteries/seq/map_pairwise.hpp 69-85 MapPairwise::peek, next *)
#[global] Instance map_pairwise_seq {L R A B C} `{Seq L A} `{Seq R B} : Seq (MapPairwise L R A B C) C := {|
  peek fuel (s : MapPairwise L R A B C) :=
    let* left_item, l := peek fuel (pair_left_ s) in
    match left_item with
    | None => Some (None, mkMapPairwise l (pair_right_ s) (pair_fn_ s))
    | Some x => pull_map (peek fuel (pair_right_ s)) (fun item => pair_fn_ s x <$> item)
                  (fun r => mkMapPairwise l r (pair_fn_ s))
    end;
  next fuel (s : MapPairwise L R A B C) :=
    let* left_item, l := next fuel (pair_left_ s) in
    match left_item with
    | None => Some (None, mkMapPairwise l (pair_right_ s) (pair_fn_ s))
    | Some x => pull_map (next fuel (pair_right_ s)) (fun item => pair_fn_ s x <$> item)
                  (fun r => mkMapPairwise l r (pair_fn_ s))
    end |}.

Lemma zip_with_nil_r {A B C} (f : A -> B -> C) (l : list A) : zip_with f l [] = [].
Proof. by destruct l. Qed.

#[global, refine] Instance map_pairwise_laws {L R A B C} `{SeqLaws L A} `{SeqLaws R B} :
    SeqLaws (MapPairwise L R A B C) C := {|
  wf s := wf (pair_left_ s) /\ wf (pair_right_ s);
  items s := zip_with (pair_fn_ s) (items (pair_left_ s)) (items (pair_right_ s));
  cost s := cost (pair_left_ s) + cost (pair_right_ s);
  next_law := _ |}.
Proof.
  intros fuel [l r f] [Hw1 Hw2] Hc. simpl in *. pull_next l l1 Hwl Hil Hcl. simpl.
  destruct (items l) as [|x xs]; simpl in *.
  - eexists. split; [done|]. simpl. rewrite Hil. simpl. split_and!; [done..|lia].
  - pull_next r r1 Hwr Hir Hcr. simpl. eexists. split; [by destruct (items r)|]. simpl. rewrite Hil, Hir.
    split_and!; [done|done| |lia]. destruct (items r); simpl; [by apply zip_with_nil_r|done].
Defined.

#[global] Instance map_pairwise_peek {L R A B C} `{PeekLaws L A} `{PeekLaws R B} : PeekLaws (MapPairwise L R A B C) C.
Proof.
  intros fuel [l r f] [Hw1 Hw2] Hc. simpl in *. pull_peek l l1 Hwl Hil Hcl. simpl.
  destruct (items l) as [|x xs] eqn:E; simpl in *.
  - eexists. split; [done|]. simpl. rewrite Hil. simpl. split_and!; [done..|lia].
  - pull_peek r r1 Hwr Hir Hcr. simpl. eexists. split; [by destruct (items r)|]. simpl. rewrite Hil, Hir.
    split_and!; [done..|lia].
Qed.

(** [inspect_st_] is what the function of the client has recorded. *)
(* @ src/batteries/seq/inspect_adjacent.hpp 84-88 InspectAdjacent *)
Record InspectAdjacent (S A St : Type) : Type := mkInspect {
  inspect_seq_ : S; inspect_fn_ : St -> A -> A -> St; inspect_st_ : St; inspect_next_ : option A }.
Arguments mkInspect {S A St} inspect_seq_ inspect_fn_ inspect_st_ inspect_next_.
Arguments inspect_seq_ {S A St} _.
Arguments inspect_fn_ {S A St} _.
Arguments inspect_st_ {S A St} _.
Arguments inspect_next_ {S A St} _.

(* @ src/batteries/seq/inspect_adjacent.hpp 32-34 InspectAdjacent::InspectAdjacent *)
Definition inspect_adjacent {S A St} `{Seq S A} (fuel : nat) (f : St -> A -> A -> St) (st : St) (s : S) :
    option (InspectAdjacent S A St) :=
  let* item, s' := next fuel s in Some (mkInspect s' f st item).

(* @ src/batteries/seq/inspect_adjacent.hpp 67-82 InspectAdjacent::peek, next *)
#[global] Instance inspect_adjacent_seq {S A St} `{Seq S A} : Seq (InspectAdjacent S A St) A := {|
  peek _ (s : InspectAdjacent S A St) := Some (inspect_next_ s, s);
  next fuel (s : InspectAdjacent S A St) :=
    let item := inspect_next_ s in
    let* following, s' := next fuel (inspect_seq_ s) in
    let st := match item, following with
              | Some x, Some y => inspect_fn_ s (inspect_st_ s) x y
              | _, _ => inspect_st_ s
              end in
    Some (item, mkInspect s' (inspect_fn_ s) st following) |}.

#[global, refine] Instance inspect_adjacent_laws {S A St} `{SeqLaws S A} : SeqLaws (InspectAdjacent S A St) A := {|
  wf s := wf (inspect_seq_ s) /\ (inspect_next_ s = None -> items (inspect_seq_ s) = []);
  items s := option_list (inspect_next_ s) ++ items (inspect_seq_ s);
  cost s := cost (inspect_seq_ s);
  next_law := _ |}.
Proof.
  intros fuel [s f st o] [Hw Hn] Hc. simpl in *. pull_next s s1 Hw1 Hi1 Hc1. simpl. eexists. split.
  - f_equal. f_equal. destruct o as [x|]; [done|]. by rewrite Hn.
  - simpl. rewrite Hi1. split_and!; [done| | |lia].
    + by destruct (items s).
    + destruct o as [x|]; simpl; [by destruct (items s)|]. by rewrite Hn.
Defined.

#[global] Instance inspect_adjacent_peek {S A St} `{SeqLaws S A} : PeekLaws (InspectAdjacent S A St) A.
Proof.
  intros fuel [s f st o] [Hw Hn] Hc. simpl in *. exists (mkInspect s f st o). split; [|done].
  destruct o as [x|]; simpl; [done|]. by rewrite Hn.
Qed.

(** ** Flatten, Splice, MergeBy *)

(* @ src/batteries/seq/flatten.hpp 74-76 Flatten *)
Record Flatten (O I : Type) : Type := mkFlatten { outer_ : O; inner_ : option I }.
Arguments mkFlatten {O I} outer_ inner_.
Arguments outer_ {O I} _.
Arguments inner_ {O I} _.

(** The constructor reads the first inner sequence. *)
(* @ src/batteries/seq/flatten.hpp 30-32 Flatten::Flatten *)
Definition flatten {O I} `{Seq O I} (fuel : nat) (outer : O) : option (Flatten O I) :=
  let* inner, outer' := next fuel outer in Some (mkFlatten outer' inner).

Section flatten.
Context {O I A : Type} `{Seq O I} `{Seq I A}.

(* @ src/batteries/seq/flatten.hpp 53-72 Flatten::impl *)
Fixpoint flatten_impl (consume_item : bool) (fuel : nat) (s : Flatten O I) : Pull (Flatten O I) A :=
  match fuel with
  | 0 => None
  | Datatypes.S fuel' =>
      match inner_ s with
      | None => Some (None, s)
      | Some inner =>
          let* v, inner' := (if consume_item then next fuel' inner else peek fuel' inner) in
          match v with
          | Some x => Some (Some x, mkFlatten (outer_ s) (Some inner'))
          | None =>
              let* next_inner, outer' := next fuel' (outer_ s) in
              match next_inner with
              | Some i => flatten_impl consume_item fuel' (mkFlatten outer' (Some i))
              | None => Some (None, mkFlatten outer' None)
              end
          end
      end
  end.

(* @ src/batteries/seq/flatten.hpp 34-41 Flatten::peek, next *)
#[global] Instance flatten_seq : Seq (Flatten O I) A := {| peek := flatten_impl false; next := flatten_impl true |}.

End flatten.

Section flatten_laws.
Context {O I A : Type} `{SeqLaws O I} `{PeekLaws I A}.

Definition flatten_wf (s : Flatten O I) : Prop :=
  wf (outer_ s) /\ Forall wf (items (outer_ s)) /\ from_option_prop wf (inner_ s) /\
  (inner_ s = None -> items (outer_ s) = []).

Definition flatten_items (s : Flatten O I) : list A :=
  from_option items [] (inner_ s) ++ concat (items <$> items (outer_ s)).

Definition total_cost (l : list I) : nat := sum_list (cost <$> l).

Lemma total_cost_cons (i : I) (l : list I) : total_cost (i :: l) = cost i + total_cost l.
Proof. done. Qed.

#[local] Arguments total_cost : simpl never.

Definition flatten_cost (s : Flatten O I) : nat :=
  1 + cost (outer_ s) + length (items (outer_ s)) + from_option cost 0 (inner_ s) + total_cost (items (outer_ s)).

Lemma flatten_impl_spec (consume : bool) (fuel : nat) (s : Flatten O I) :
  flatten_wf s -> flatten_cost s <= fuel ->
  exists s', flatten_impl consume fuel s = Some (head (flatten_items s), s') /\ flatten_wf s' /\
    flatten_items s' = (if consume then tail (flatten_items s) else flatten_items s) /\
    flatten_cost s' <= flatten_cost s.
Proof.
  unfold flatten_wf, flatten_items, flatten_cost. revert s. induction fuel as [|fuel IH];
    intros [o [i|]] (Hwo & Hwi & Hi & Hn) Hc; simpl in *; [lia|lia| |].
  - specialize (Hi i eq_refl).
    assert (exists i', (if consume then next fuel i else peek fuel i) = Some (head (items i), i') /\ wf i' /\
      items i' = (if consume then tail (items i) else items i) /\ cost i' <= cost i) as (i' & -> & Hwi' & Hi' & Hci').
    { destruct consume; [apply next_law|apply peek_law]; done || lia. }
    simpl. destruct (items i) as [|x l] eqn:E; simpl.
    + pull_next o o1 Hwo1 Hio1 Hco1. simpl. destruct (items o) as [|i2 l2] eqn:E2; simpl in *.
      * eexists. split; [done|]. simpl. rewrite Hio1. simpl. split_and!; [done|done|done|done|by destruct consume|lia].
      * inversion Hwi as [|? ? Hwi2 Hwl2]; subst.
        destruct (IH (mkFlatten o1 (Some i2))) as (s' & E3 & Hw' & Hit & Hct); simpl; rewrite ?Hio1; simpl.
        -- split_and!; [done|done| |done]. by intros ? [= <-].
        -- rewrite total_cost_cons in Hc. lia.
        -- rewrite E3. simpl in *. exists s'. split; [done|]. rewrite total_cost_cons. destruct Hw' as (? & ? & ? & ?). split_and!; [done..|lia].
    + eexists. split; [done|]. simpl. rewrite Hi'. split_and!; [done|done| |done| |lia].
      * by intros ? [= <-].
      * by destruct consume.
  - rewrite Hn by done. simpl. eexists. split; [done|]. simpl. rewrite Hn by done. by destruct consume.
Qed.

#[global, refine] Instance flatten_laws : SeqLaws (Flatten O I) A := {|
  wf := flatten_wf; items := flatten_items; cost := flatten_cost; next_law := _ |}.
Proof. intros fuel s. apply (flatten_impl_spec true). Defined.

#[global] Instance flatten_peek : PeekLaws (Flatten O I) A.
Proof. intros fuel s. apply (flatten_impl_spec false). Qed.

End flatten_laws.
