(* ===== verification/SeqOps.v ===== *)
(** * Sequences: splicing, fusing, errors, merging and the folds

    The combinators of [seq/*.hpp] that share a sequence, stop early or merge,
    and the operations that consume a sequence: each is shown to compute the
    list function it is named after, and composed pipelines compose. *)

From S2P Require Import Prelude Status Seq ParallelMerge.
Open Scope nat_scope.

(** ** Splice *)

(** [n] items of the outer sequence, the inner sequence, then the rest of the
    outer one.  The two parts of the chain that read the outer sequence hold
    references to the same object, so there is one outer sequence here. *)
(* @ src/batteries/seq/splice.hpp 29-53 Splice *)
Record Splice (O I : Type) : Type := mkSplice { splice_take_ : option nat; splice_inner_ : option I; splice_outer_ : O }.
Arguments mkSplice {O I} splice_take_ splice_inner_ splice_outer_.
Arguments splice_take_ {O I} _.
Arguments splice_inner_ {O I} _.
Arguments splice_outer_ {O I} _.

(* @ src/batteries/seq/splice.hpp 70-74 operator| *)
Definition splice {O I} (n : nat) (inner : I) (outer : O) : Splice O I := mkSplice (Some n) (Some inner) outer.

Section splice.
Context {O I A : Type} `{Seq O A} `{Seq I A}.

(** The second part: a [Chain] of the inner sequence and the outer one. *)
(* @ src/batteries/seq/splice.hpp 36-37 Splice::Splice *)
Definition splice_rest_next (fuel : nat) (s : Splice O I) : Pull (Splice O I) A :=
  let from_outer := pull_map (next fuel (splice_outer_ s)) id (mkSplice None None) in
  match splice_inner_ s with
  | Some inner =>
      let* item, inner' := next fuel inner in
      match item with
      | Some x => Some (Some x, mkSplice None (Some inner') (splice_outer_ s))
      | None => from_outer
      end
  | None => from_outer
  end.

(* @ src/batteries/seq/splice.hpp 45-48 Splice::next *)
Definition splice_next (fuel : nat) (s : Splice O I) : Pull (Splice O I) A :=
  match splice_take_ s with
  | Some (Datatypes.S n) =>
      let* item, outer' := next fuel (splice_outer_ s) in
      match item with
      | Some x => Some (Some x, mkSplice (Some n) (splice_inner_ s) outer')
      | None => splice_rest_next fuel (mkSplice None (splice_inner_ s) outer')
      end
  | _ => splice_rest_next fuel s
  end.

(* @ src/batteries/seq/splice.hpp 41-44 Splice::peek *)
Definition splice_peek (fuel : nat) (s : Splice O I) : Pull (Splice O I) A :=
  match splice_take_ s with
  | Some 0 => Some (None, s)
  | Some n => pull_map (peek fuel (splice_outer_ s)) id (mkSplice (Some n) (splice_inner_ s))
  | None =>
      match splice_inner_ s with
      | Some inner => pull_map (peek fuel inner) id (fun i => mkSplice None (Some i) (splice_outer_ s))
      | None => pull_map (peek fuel (splice_outer_ s)) id (mkSplice None None)
      end
  end.

#[global] Instance splice_seq : Seq (Splice O I) A := {| peek := splice_peek; next := splice_next |}.

End splice.

#[global, refine] Instance splice_laws {O I A} `{SeqLaws O A} `{SeqLaws I A} : SeqLaws (Splice O I) A := {|
  wf s := wf (splice_outer_ s) /\ from_option_prop wf (splice_inner_ s);
  items s := take (default 0 (splice_take_ s)) (items (splice_outer_ s)) ++
             from_option items [] (splice_inner_ s) ++
             drop (default 0 (splice_take_ s)) (items (splice_outer_ s));
  cost s := cost (splice_outer_ s) + from_option cost 0 (splice_inner_ s);
  next_law := _ |}.
Proof.
  assert (forall fuel (inner : option I) (outer : O), wf outer -> from_option_prop wf inner ->
    cost outer + from_option cost 0 inner <= fuel -> forall t,
    exists s', splice_rest_next fuel (mkSplice t inner outer) =
        Some (head (from_option items [] inner ++ items outer), s') /\
      wf (splice_outer_ s') /\ from_option_prop wf (splice_inner_ s') /\ splice_take_ s' = None /\
      from_option items [] (splice_inner_ s') ++ items (splice_outer_ s') =
        tail (from_option items [] inner ++ items outer) /\
      cost (splice_outer_ s') + from_option cost 0 (splice_inner_ s') <= cost outer + from_option cost 0 inner) as Hrest.
  { intros fuel [i|] o Hwo Hi Hc t; unfold splice_rest_next; simpl in *.
    - specialize (Hi i eq_refl). pull_next i i1 Hwi1 Hii1 Hci1. simpl. destruct (items i) as [|x l]; simpl in *.
      + pull_next o o1 Hwo1 Hio1 Hco1. eexists. split; [done|]. simpl. split_and!; [done|by intros ? [=]|done..|lia].
      + eexists. split; [done|]. simpl. rewrite Hii1. split_and!; [done| |done..|lia]. by intros ? [= <-].
    - pull_next o o1 Hwo1 Hio1 Hco1. eexists. split; [done|]. simpl. split_and!; [done|by intros ? [=]|done..|lia]. }
  intros fuel [t inner o] [Hwo Hi] Hc. simpl in *. unfold splice_next. simpl.
  destruct t as [[|n]|]; simpl in *.
  - destruct (Hrest fuel inner o Hwo Hi Hc (Some 0)) as (s' & -> & ? & ? & Ht & Hit & Hct). exists s'.
    rewrite Ht, drop_0. simpl. by rewrite drop_0, Hit.
  - pull_next o o1 Hwo1 Hio1 Hco1. simpl. destruct (items o) as [|x l]; simpl in *.
    + destruct (Hrest fuel inner o1 Hwo1 Hi) with (t := @None nat) as (s' & -> & ? & ? & Ht & Hit & Hct); [lia|].
      exists s'. rewrite Ht. simpl. rewrite drop_0, Hit, Hio1. split_and!; [done..|lia].
    + eexists. split; [done|]. simpl. rewrite Hio1. split_and!; [done..|lia].
  - destruct (Hrest fuel inner o Hwo Hi Hc None) as (s' & -> & ? & ? & Ht & Hit & Hct). exists s'.
    rewrite Ht, drop_0. simpl. by rewrite drop_0, Hit.
Defined.

(** ** Fuse, SkipN, StatusOk *)

(* @ src/batteries/seq/fuse.hpp 65-68 Fuse *)
Record Fuse (S : Type) : Type := mkFuse { fused_ : bool; fuse_seq_ : S }.
Arguments mkFuse {S} fused_ fuse_seq_.
Arguments fused_ {S} _.
Arguments fuse_seq_ {S} _.

(* @ src/batteries/seq/fuse.hpp 78-82 operator| *)
Definition fuse {S} (s : S) : Fuse S := mkFuse false s.

(** [peek] dereferences what the sequence returns without a test: with no
    item left, the result is read from uninitialised memory ([Panic]). *)
(* @ src/batteries/seq/fuse.hpp 37-43 Fuse::peek *)
Definition fuse_peek {S A} `{Seq S (option A)} (fuel : nat) (s : Fuse S) : option (outcome (option A) * Fuse S) :=
  if fused_ s then Some (Done None, s)
  else
    let* item, s' := peek fuel (fuse_seq_ s) in
    Some (match item with Some x => Done x | None => Panic end, mkFuse false s').

(* @ src/batteries/seq/fuse.hpp 45-63 Fuse::next *)
Definition fuse_next {S A} `{Seq S (option A)} (fuel : nat) (s : Fuse S) : Pull (Fuse S) A :=
  if fused_ s then Some (None, s)
  else
    let* opt_item, s' := next fuel (fuse_seq_ s) in
    match opt_item with
    | Some (Some x) => Some (Some x, mkFuse false s')
    | _ => Some (None, mkFuse true s')
    end.

(** A [peek] that hits the uninitialised read gives no result. *)
#[global] Instance fuse_seq {S A} `{Seq S (option A)} : Seq (Fuse S) A := {|
  peek fuel s := r ← fuse_peek fuel s; match r with (Done item, s') => Some (item, s') | (Panic, _) => None end;
  next := fuse_next |}.

(** The items up to the first empty one. *)
Fixpoint fused_prefix {A} (l : list (option A)) : list A :=
  match l with Some x :: l' => x :: fused_prefix l' | _ => [] end.

#[global, refine] Instance fuse_laws {S A} `{SeqLaws S (option A)} : SeqLaws (Fuse S) A := {|
  wf s := wf (fuse_seq_ s);
  items s := if fused_ s then [] else fused_prefix (items (fuse_seq_ s));
  cost s := cost (fuse_seq_ s);
  next_law := _ |}.
Proof.
  intros fuel [[] s] Hw Hc; simpl in *; unfold fuse_next; simpl; [by eexists|].
  pull_next s s1 Hw1 Hi1 Hc1. simpl. destruct (items s) as [|[x|] l]; simpl in *; eexists; (split; [done|]); simpl;
    by rewrite ?Hi1.
Defined.

(* @ src/batteries/seq/skip_n.hpp 58-61 SkipN *)
Record SkipN (S : Type) : Type := mkSkipN { skip_seq_ : S; skip_n_ : nat }.
Arguments mkSkipN {S} skip_seq_ skip_n_.
Arguments skip_seq_ {S} _.
Arguments skip_n_ {S} _.

(* @ src/batteries/seq/skip_n.hpp 63-67 operator| *)
Definition skip_n {S} (n : nat) (s : S) : SkipN S := mkSkipN s n.

(* @ src/batteries/seq/skip_n.hpp 41-56 SkipN::peek, next *)
#[global] Instance skip_n_seq {S A} `{Seq S A} : Seq (SkipN S) A := {|
  peek fuel (s : SkipN S) :=
    match skip_n_ s with
    | 0 => pull_map (peek fuel (skip_seq_ s)) id (fun s' => mkSkipN s' 0)
    | _ => Some (None, s)
    end;
  next fuel (s : SkipN S) :=
    match skip_n_ s with
    | 0 => pull_map (next fuel (skip_seq_ s)) id (fun s' => mkSkipN s' 0)
    | Datatypes.S n => let* skipped, s' := next fuel (skip_seq_ s) in Some (None, mkSkipN s' n)
    end |}.

(** The items are values ([inr]) or statuses that are not ok ([inl]); the
    status of the sequence is updated by the first of these that is reached.
    [unknown] is the value of [StatusCode::kUnknown]. *)
(* @ src/batteries/seq/status_ok.hpp 70-72 StatusOk *)
Record StatusOk (S : Type) : Type := mkStatusOk { ok_seq_ : S; status_ : Z }.
Arguments mkStatusOk {S} ok_seq_ status_.
Arguments ok_seq_ {S} _.
Arguments status_ {S} _.

Section status_ok.
Context {S A : Type} `{Seq S (Z + A)} (unknown : Z).

(* @ src/batteries/seq/status_ok.hpp 84-91 operator| *)
Definition status_ok (s : S) : StatusOk S := mkStatusOk s 0.

(* @ src/batteries/seq/status_ok.hpp 58-68 StatusOk::unwrap_item *)
Definition unwrap_item (status : Z) (item : option (Z + A)) : Z * option A :=
  match item with
  | None => (status, None)
  | Some (inl e) => (StatusRegistry.Update unknown status e, None)
  | Some (inr x) => (status, Some x)
  end.

(* @ src/batteries/seq/status_ok.hpp 47-55 StatusOk::peek, next *)
Definition status_ok_step (op : Pull S (Z + A)) (s : StatusOk S) : Pull (StatusOk S) A :=
  let* item, s' := op in
  let r := unwrap_item (status_ s) item in Some (r.2, mkStatusOk s' r.1).

#[global] Instance status_ok_seq : Seq (StatusOk S) A := {|
  peek fuel s := status_ok_step (peek fuel (ok_seq_ s)) s;
  next fuel s := status_ok_step (next fuel (ok_seq_ s)) s |}.

End status_ok.

(** ** MergeBy *)

(* @ src/batteries/seq/merge_by.hpp 148-151 MergeBy *)
Record MergeBy (L R A : Type) : Type := mkMergeBy { left_ : L; right_ : R; merge_compare_ : A -> A -> bool }.
Arguments mkMergeBy {L R A} left_ right_ merge_compare_.
Arguments left_ {L R A} _.
Arguments right_ {L R A} _.
Arguments merge_compare_ {L R A} _.

(* @ src/batteries/seq/merge_by.hpp 171-186 operator| *)
Definition merge_by {L R A} (compare : A -> A -> bool) (right : R) (left : L) : MergeBy L R A :=
  mkMergeBy left right compare.

Section merge_by.
Context {L R A : Type} `{Seq L A} `{Seq R A}.

(* @ src/batteries/seq/merge_by.hpp 113-146 MergeBy::impl *)
Definition merge_by_impl (consume : bool) (fuel : nat) (s : MergeBy L R A) : Pull (MergeBy L R A) A :=
  let* l, left := peek fuel (left_ s) in
  let* r, right := peek fuel (right_ s) in
  let take_left := if consume then pull_map (next fuel left) id (fun l' => mkMergeBy l' right (merge_compare_ s))
                   else Some (l, mkMergeBy left right (merge_compare_ s)) in
  let take_right := if consume then pull_map (next fuel right) id (fun r' => mkMergeBy left r' (merge_compare_ s))
                    else Some (r, mkMergeBy left right (merge_compare_ s)) in
  match l, r with
  | Some x, Some y => if merge_compare_ s y x then take_right else take_left
  | Some _, None => take_left
  | None, Some _ => take_right
  | None, None => Some (None, mkMergeBy left right (merge_compare_ s))
  end.

(* @ src/batteries/seq/merge_by.hpp 79-86 MergeBy::peek, next *)
#[global] Instance merge_by_seq : Seq (MergeBy L R A) A := {| peek := merge_by_impl false; next := merge_by_impl true |}.

End merge_by.

Lemma merge_cons {A} (compare : A -> A -> bool) (x y : A) (xs ys : list A) :
  merge compare (x :: xs) (y :: ys) =
  if compare y x then y :: merge compare (x :: xs) ys else x :: merge compare xs (y :: ys).
Proof. done. Qed.

Lemma merge_nil {A} (compare : A -> A -> bool) (xs : list A) : merge compare xs [] = xs.
Proof. by destruct xs. Qed.

Section merge_by_laws.
Context {L R A : Type} `{PeekLaws L A} `{PeekLaws R A}.

Lemma merge_by_impl_spec (consume : bool) (fuel : nat) (s : MergeBy L R A) :
  wf (left_ s) -> wf (right_ s) -> cost (left_ s) + cost (right_ s) <= fuel ->
  let l := merge (merge_compare_ s) (items (left_ s)) (items (right_ s)) in
  exists s', merge_by_impl consume fuel s = Some (head l, s') /\ wf (left_ s') /\ wf (right_ s') /\
    merge (merge_compare_ s') (items (left_ s')) (items (right_ s')) = (if consume then tail l else l) /\
    cost (left_ s') + cost (right_ s') <= cost (left_ s) + cost (right_ s).
Proof.
  destruct s as [l r cmp]. simpl. intros Hwl Hwr Hc. unfold merge_by_impl. simpl.
  pull_peek l l1 Hwl1 Hil1 Hcl1. simpl. pull_peek r r1 Hwr1 Hir1 Hcr1. simpl.
  assert (exists l2, next fuel l1 = Some (head (items l), l2) /\ wf l2 /\ items l2 = tail (items l) /\
    cost l2 <= cost l) as (l2 & El & Hwl2 & Hil2 & Hcl2).
  { rewrite <- Hil1. destruct (next_law fuel l1 Hwl1) as (l2 & ? & ? & ? & ?); [lia|]. exists l2. split_and!; done || lia. }
  assert (exists r2, next fuel r1 = Some (head (items r), r2) /\ wf r2 /\ items r2 = tail (items r) /\
    cost r2 <= cost r) as (r2 & Er & Hwr2 & Hir2 & Hcr2).
  { rewrite <- Hir1. destruct (next_law fuel r1 Hwr1) as (r2 & ? & ? & ? & ?); [lia|]. exists r2. split_and!; done || lia. }
  rewrite El, Er. simpl. unfold id.
  destruct (items l) as [|x xs] eqn:E1, (items r) as [|y ys] eqn:E2; cbn [head hd_error tail] in *.
  - eexists. split; [done|]. simpl. rewrite Hil1, Hir1. split_and!; [done..|by destruct consume|lia].
  - destruct consume; (eexists; split; [done|]); simpl; rewrite ?Hil1, ?Hir1, ?Hir2; split_and!; first [done | lia | by destruct ys].
  - rewrite merge_nil.
    destruct consume; (eexists; split; [done|]); simpl; rewrite ?Hil1, ?Hir1, ?Hil2, ?merge_nil; split_and!; done || lia.
  - rewrite merge_cons. destruct (cmp y x) eqn:Ec; destruct consume; (eexists; split; [done|]); cbn [left_ right_ merge_compare_];
      rewrite ?Hil1, ?Hir1, ?Hil2, ?Hir2, ?merge_cons, ?Ec; split_and!; done || lia.
Qed.

#[global, refine] Instance merge_by_laws : SeqLaws (MergeBy L R A) A := {|
  wf s := wf (left_ s) /\ wf (right_ s);
  items s := merge (merge_compare_ s) (items (left_ s)) (items (right_ s));
  cost s := cost (left_ s) + cost (right_ s);
  next_law := _ |}.
Proof.
  intros fuel s [Hl Hr] Hc. destruct (merge_by_impl_spec true fuel s Hl Hr Hc) as (s' & ? & ? & ? & ? & ?).
  by exists s'.
Defined.

#[global] Instance merge_by_peek : PeekLaws (MergeBy L R A) A.
Proof.
  intros fuel s [Hl Hr] Hc. destruct (merge_by_impl_spec false fuel s Hl Hr Hc) as (s' & ? & ? & ? & ? & ?).
  by exists s'.
Qed.

End merge_by_laws.

(** ** What consumes a sequence *)

(** A loop over a sequence that gives the items of [l] one by one and then
    reaches a state of [Q]; [P] describes the states in between. *)
Lemma for_each_pull {S A St} `{Seq S A} (fn : St -> A -> St * LoopControl) (fuel : nat)
    (P : S -> list A -> Prop) (Q : S -> Prop) :
  (forall s l, P s l -> exists s', next fuel s = Some (head l, s') /\
     match l with [] => Q s' | _ :: l' => P s' l' end) ->
  forall n st s l, P s l -> length l < n ->
  exists s', for_each_loop fn n fuel st s = Some ((fold_until fn st l).1, s') /\
    match (fold_until fn st l).1.2 with kContinue => Q s' | kBreak => P s' (fold_until fn st l).2 end.
Proof.
  intros Hnext n. induction n as [|n IH]; intros st s l HP Hn; [lia|]. simpl.
  destruct (Hnext s l HP) as (s1 & -> & Hs1). simpl. destruct l as [|x l]; simpl in *; [by exists s1|].
  destruct (fn st x) as [st' []]; [|by exists s1]. apply IH; [done|lia].
Qed.

Section consumers.
Context {S A : Type} `{Seq S A}.

(* @ src/batteries/seq/collect_vec.hpp 30-41 operator| *)
Definition collect_vec (fuel : nat) (s : S) : option (list A) :=
  r ← for_each (fun v item => (v ++ [item], kContinue)) fuel [] s; Some r.1.1.

(* @ src/batteries/seq/reduce.hpp 30-40 operator| *)
Definition reduce {St} (st : St) (reduce_fn : St -> A -> St) (fuel : nat) (s : S) : option St :=
  r ← for_each (fun st item => (reduce_fn st item, kContinue)) fuel st s; Some r.1.1.

(* @ src/batteries/seq/count.hpp 28-39 operator| *)
Definition count (fuel : nat) (s : S) : option Z :=
  r ← for_each (fun n _ => (u64 (n + 1)%Z, kContinue)) fuel 0%Z s; Some r.1.1.

(* @ src/batteries/seq/first.hpp 25-29 operator| *)
Definition first (fuel : nat) (s : S) : Pull S A := peek fuel s.

(* @ src/batteries/seq/last.hpp 28-38 operator| *)
Fixpoint last_loop (n fuel : nat) (prev : option A) (s : S) : option (option A) :=
  match n with
  | 0 => None
  | Datatypes.S n' =>
      let* item, s' := next fuel s in
      match item with
      | Some x => last_loop n' fuel (Some x) s'
      | None => Some prev
      end
  end.

Definition last_item (fuel : nat) (s : S) : option (option A) := last_loop fuel fuel None s.

(* @ src/batteries/seq/inner_reduce.hpp 37-45 operator| *)
Definition inner_reduce (reduce_fn : A -> A -> A) (fuel : nat) (s : S) : option (option A) :=
  let* state, s' := next fuel s in
  match state with
  | None => Some None
  | Some x =>
      r ← for_each (fun st item => (reduce_fn st item, kContinue)) fuel x s'; Some (Some r.1.1)
  end.

(* @ src/batteries/seq/consume.hpp 28-36 operator| *)
Definition consume (fuel : nat) (s : S) : option (outcome S) :=
  r ← for_each (fun st _ => (st, kContinue)) fuel tt s;
  Some (match r.1.2 with kContinue => Done r.2 | kBreak => Panic end).

End consumers.

(* @ src/batteries/seq/all_true.hpp 32-47 operator| *)
Definition all_true {S} `{Seq S bool} (fuel : nat) (s : S) : option bool :=
  r ← for_each (fun ans (item : bool) => if negb item then (false, kBreak) else (ans, kContinue)) fuel true s;
  Some r.1.1.

(* @ src/batteries/seq/any_true.hpp 32-47 operator| *)
Definition any_true {S} `{Seq S bool} (fuel : nat) (s : S) : option bool :=
  r ← for_each (fun ans (item : bool) => if item then (true, kBreak) else (ans, kContinue)) fuel false s;
  Some r.1.1.

(* @ src/batteries/seq/is_sorted.hpp 41-45 operator| *)
Definition is_sorted_by {S A} `{Seq S A} (compare : A -> A -> bool) (fuel : nat) (s : S) : option bool :=
  s' ← map_adjacent fuel compare s; all_true fuel (s' : MapAdjacent S A bool).

(* @ src/batteries/seq/is_sorted.hpp 34-39 is_sorted *)
Definition natural_leq (less : Z -> Z -> bool) (left right : Z) : bool := less left right || negb (less right left).

(* @ src/batteries/seq/rolling.hpp 38-48 operator| *)
Definition rolling {S A T} (binary_fn : T -> A -> T) (initial : T) (s : S) : MapFold S T A T :=
  map_fold initial (fun a b => let c := binary_fn a b in (c, c)) s.

(* @ src/batteries/seq/rolling_sum.hpp 33-41 operator| *)
Definition rolling_sum {S} (s : S) : MapFold S Z Z Z := rolling Z.add 0%Z s.

(* @ src/batteries/seq/filter_map.hpp 24-39 filter_map_impl *)
Definition filter_map {S A B} (fn : A -> option B) (dflt : B) (s : S) : Map (Filter (Map S A (option B)) (option B)) (option B) B :=
  map (fun o => default dflt o) (filter (fun o => bool_decide (o <> None)) (map fn s)).

(* @ src/batteries/seq/sum.hpp 32-41 operator| *)
Definition sum_items {S} `{Seq S Z} (fuel : nat) (s : S) : option Z := reduce 0%Z Z.add fuel s.

(* @ src/batteries/seq/product.hpp 32-41 operator| *)
Definition product_items {S} `{Seq S Z} (fuel : nat) (s : S) : option Z := reduce 1%Z Z.mul fuel s.

(** ** The loop bodies on lists *)

Lemma fold_until_continue {A St} (f : St -> A -> St) (st : St) (l : list A) :
  fold_until (fun st x => (f st x, kContinue)) st l = (foldl f st l, kContinue, []).
Proof. revert st. induction l as [|x l IH]; intros st; simpl; [done|]. by rewrite IH. Qed.

Lemma fold_until_all (b : bool) (l : list bool) :
  (fold_until (fun ans (item : bool) => if negb item then (false, kBreak) else (ans, kContinue)) b l).1.1 =
  if forallb id l then b else false.
Proof. induction l as [|[] l IH]; simpl; done. Qed.

Lemma fold_until_any (b : bool) (l : list bool) :
  (fold_until (fun ans (item : bool) => if item then (true, kBreak) else (ans, kContinue)) b l).1.1 =
  if existsb id l then true else b.
Proof. induction l as [|[] l IH]; simpl; done. Qed.

Lemma foldl_snoc_list {A} (v l : list A) : foldl (fun v item => v ++ [item]) v l = v ++ l.
Proof.
  revert v. induction l as [|x l IH]; intros v; simpl; [by rewrite app_nil_r|]. by rewrite IH, <- app_assoc.
Qed.

Lemma foldl_count {A} (z : Z) (l : list A) :
  foldl (fun n _ => u64 (n + 1)%Z) (u64 z) l = u64 (z + Z.of_nat (length l)).
Proof.
  revert z. induction l as [|x l IH]; intros z; simpl; [by rewrite Z.add_0_r|].
  rewrite uwrap_add_l, IH. f_equal. lia.
Qed.

(** ** The algorithms compute what their names say *)

Section consumer_specs.
Context {S A : Type} `{SeqLaws S A}.

(** An amount of fuel that is enough for a loop over the sequence. *)
Definition enough (s : S) : nat := cost s + length (items s) + 1.

Lemma run_for_each {St} (f : St -> A -> St) (fuel : nat) (st : St) (s : S) :
  wf s -> enough s <= fuel ->
  exists s', for_each (fun st x => (f st x, kContinue)) fuel st s = Some (foldl f st (items s), kContinue, s') /\
    wf s' /\ items s' = [].
Proof.
  intros Hw Hf. unfold enough in Hf.
  destruct (for_each_spec (fun st x => (f st x, kContinue)) fuel st s Hw) as (s' & E & Hw' & Hi' & _); [lia|].
  rewrite fold_until_continue in *. by exists s'.
Qed.

Lemma collect_vec_spec (fuel : nat) (s : S) : wf s -> enough s <= fuel -> collect_vec fuel s = Some (items s).
Proof.
  intros Hw Hf. unfold collect_vec.
  destruct (run_for_each (fun v item => v ++ [item]) fuel [] s Hw Hf) as (s' & -> & _). simpl.
  by rewrite foldl_snoc_list.
Qed.

Lemma reduce_spec {St} (st : St) (f : St -> A -> St) (fuel : nat) (s : S) :
  wf s -> enough s <= fuel -> reduce st f fuel s = Some (foldl f st (items s)).
Proof. intros Hw Hf. unfold reduce. by destruct (run_for_each f fuel st s Hw Hf) as (s' & -> & _). Qed.

Lemma count_spec (fuel : nat) (s : S) :
  wf s -> enough s <= fuel -> count fuel s = Some (u64 (Z.of_nat (length (items s)))).
Proof.
  intros Hw Hf. unfold count. destruct (run_for_each (fun n _ => u64 (n + 1)%Z) fuel 0%Z s Hw Hf) as (s' & -> & _).
  simpl. f_equal. apply (foldl_count 0).
Qed.

Lemma last_loop_spec (n fuel : nat) (prev : option A) (s : S) :
  wf s -> cost s <= fuel -> length (items s) < n ->
  last_loop n fuel prev s = Some (match last (items s) with Some x => Some x | None => prev end).
Proof.
  revert prev s. induction n as [|n IH]; intros prev s Hw Hc Hn; [lia|]. simpl.
  pull_next s s1 Hw1 Hi1 Hc1. simpl. destruct (items s) as [|x l] eqn:E; cbn [head hd_error tail length] in *; [done|].
  rewrite IH by (done || rewrite ?Hi1; lia). rewrite Hi1, last_cons. by destruct (last l).
Qed.

Lemma last_item_spec (fuel : nat) (s : S) : wf s -> enough s <= fuel -> last_item fuel s = Some (last (items s)).
Proof. unfold enough. intros Hw Hf. unfold last_item. rewrite last_loop_spec by (done || lia). by destruct (last (items s)). Qed.

Lemma inner_reduce_spec (f : A -> A -> A) (fuel : nat) (s : S) :
  wf s -> enough s <= fuel ->
  inner_reduce f fuel s = Some (match items s with [] => None | x :: l => Some (foldl f x l) end).
Proof.
  intros Hw Hf. unfold inner_reduce. unfold enough in Hf. pull_next s s1 Hw1 Hi1 Hc1. simpl.
  destruct (items s) as [|x l] eqn:E; simpl in *; [done|].
  destruct (run_for_each f fuel x s1 Hw1) as (s' & -> & _); [unfold enough; rewrite Hi1; lia|]. simpl. by rewrite Hi1.
Qed.

Lemma is_sorted_by_spec (compare : A -> A -> bool) (fuel : nat) (s : S) :
  wf s -> enough s <= fuel ->
  is_sorted_by compare fuel s =
    Some (match items s with [] => true | x :: l => forallb id (adjacent compare x l) end).
Proof.
  intros Hw Hf. unfold is_sorted_by, map_adjacent. unfold enough in Hf. pull_next s s1 Hw1 Hi1 Hc1. simpl.
  assert (length (items (mkMapAdjacent s1 compare (head (items s)))) <= length (items s)) as Hlen.
  { simpl. rewrite Hi1. destruct (items s) as [|x l]; simpl; [done|]. clear. revert x. induction l as [|y l IH]; intros x; simpl; [lia|].
    specialize (IH y). lia. }
  unfold all_true.
  destruct (for_each_spec (fun ans (item : bool) => if negb item then (false, kBreak) else (ans, kContinue)) fuel true
    (mkMapAdjacent s1 compare (head (items s)))) as (s' & -> & _); [done|simpl in *; lia|].
  simpl. rewrite fold_until_all. rewrite Hi1. destruct (items s) as [|x l]; simpl; [done|]. by destruct (forallb id _).
Qed.

End consumer_specs.

(** ** Pipelines *)

Lemma filter_map_omap {A B} (g : A -> option B) (b : B) (l : list A) :
  (fun o => default b o) <$> base.filter (fun x => bool_decide (x <> None) = true) (g <$> l) = omap g l.
Proof.
  induction l as [|x l IH]; [done|]. rewrite fmap_cons, filter_cons. simpl.
  destruct (g x) as [y|]; simpl; [f_equal|]; exact IH.
Qed.

Lemma flatten_spec {O I A} `{SeqLaws O I} `{PeekLaws I A} (o : O) (fuel : nat) :
  wf o -> Forall wf (items o) ->
  10 + cost o + length (items o) + total_cost (items o) + length (concat (items <$> items o)) <= fuel ->
  (s ← flatten fuel o; collect_vec fuel (s : Flatten O I)) = Some (concat (items <$> items o)).
Proof.
  intros Hwo Hwi Hf. unfold flatten. pull_next o o1 Hwo1 Hio1 Hco1. simpl.
  destruct (items o) as [|i l] eqn:E; cbn [head hd_error tail] in *.
  - rewrite collect_vec_spec; simpl; unfold flatten_items, flatten_wf, enough, flatten_cost; simpl; rewrite ?Hio1; simpl.
    + done.
    + by split_and!.
    + unfold flatten_cost, flatten_items. simpl. rewrite Hio1. simpl. unfold total_cost in *. simpl in *. lia.
  - inversion Hwi as [|? ? Hwi1 Hwl]; subst. rewrite fmap_cons in *. cbn [concat] in *. rewrite total_cost_cons in Hf.
    rewrite length_app in Hf. cbn [length] in Hf.
    rewrite collect_vec_spec; simpl; unfold flatten_items, flatten_wf; simpl.
    + done.
    + split_and!; try done. by intros ? [= <-].
    + unfold enough. simpl. unfold flatten_cost, flatten_items. simpl. rewrite length_app. lia.
Qed.

(** C23: Over any sequences, chain, map, filter, filter_map, take_n, splice,
    map_pairwise and rolling compute the list functions they are named after:
    concatenation, map, filter, prefix, splicing, zipping, scanning; over
    sequences whose [peek] shows what [next] then yields ([PeekLaws]), so do
    take_while and flatten, which peek: longest prefix, flat concatenation.
    With a given amount of fuel, or more, they all terminate.  The law is a
    condition because a sequence made with [chain] does not have it: its [peek]
    can show the end too early ([chain_peek_hides_items]); and [skip_n] is not
    among them: it yields nothing ([skip_n_yields_nothing]). *)
Theorem combinators_correct {S1 S2 S3 O A B C : Type} `{SeqLaws S1 A} `{SeqLaws S2 A} `{PeekLaws S3 A} `{SeqLaws O S3}
    (s1 : S1) (s2 : S2) (s3 : S3) (o : O) (f : A -> B) (p : A -> bool) (g : A -> option B) (z : A -> A -> C)
    (h : B -> A -> B) (b : B) (n : nat) :
  wf s1 -> wf s2 -> wf s3 -> wf o -> Forall wf (items o) ->
  exists enough_fuel, forall fuel, enough_fuel <= fuel ->
    collect_vec fuel (chain s2 s1) = Some (items s1 ++ items s2) /\
    collect_vec fuel (map f s1) = Some (f <$> items s1) /\
    collect_vec fuel (filter p s1) = Some (base.filter (fun x => p x = true) (items s1)) /\
    collect_vec fuel (filter_map g b s1) = Some (omap g (items s1)) /\
    collect_vec fuel (take_n n s1) = Some (take n (items s1)) /\
    collect_vec fuel (splice n s2 s1) = Some (take n (items s1) ++ items s2 ++ drop n (items s1)) /\
    collect_vec fuel (map_pairwise s2 z s1) = Some (zip_with z (items s1) (items s2)) /\
    collect_vec fuel (rolling h b s1) = Some (scan (fun a x => (h a x, h a x)) b (items s1)) /\
    collect_vec fuel (take_while p s3) = Some (prefix_while p (items s3)) /\
    (s ← flatten fuel o; collect_vec fuel (s : Flatten O S3)) = Some (concat (items <$> items o)).
Proof.
  intros Hw1 Hw2 Hw3 Hwo Hwi.
  exists (enough (chain s2 s1) + enough (map f s1) + enough (filter p s1) + enough (filter_map g b s1) +
    enough (take_n n s1) + enough (take_while p s3) + enough (splice n s2 s1) + enough (map_pairwise s2 z s1) +
    enough (rolling h b s1) +
    (10 + cost o + length (items o) + total_cost (items o) + length (concat (items <$> items o)))).
  intros fuel Hf. rewrite flatten_spec by (done || lia). rewrite !collect_vec_spec; try done; try lia; simpl.
  - split_and!; try done. by rewrite filter_map_omap.
  - split; [done|]. by intros ? [= <-].
  - split; [|done]. by intros ? [= <-].
Qed.

(** The consumers compute the corresponding functions of the items:
    [reduce] is the left fold, [count] the length modulo [2^64], [last] the
    last item, [inner_reduce] the fold from the first item, and
    [is_sorted_by] holds exactly when the comparison holds between all
    neighbours; each stops with a given amount of fuel. *)
Theorem consumers_correct {S A St : Type} `{SeqLaws S A} (s : S) (st : St) (f : St -> A -> St) (g : A -> A -> A)
    (compare : A -> A -> bool) (fuel : nat) :
  wf s -> enough s <= fuel ->
  reduce st f fuel s = Some (foldl f st (items s)) /\
  count fuel s = Some (u64 (Z.of_nat (length (items s)))) /\
  last_item fuel s = Some (last (items s)) /\
  inner_reduce g fuel s = Some (match items s with [] => None | x :: l => Some (foldl g x l) end) /\
  exists b, is_sorted_by compare fuel s = Some b /\
    (b = true <-> forall i x y, items s !! i = Some x -> items s !! (i + 1) = Some y -> compare x y = true).
Proof.
  intros Hw Hf.
  rewrite reduce_spec, count_spec, last_item_spec, inner_reduce_spec, is_sorted_by_spec by done.
  split_and!; try done. eexists. split; [done|]. clear. destruct (items s) as [|x l]; [by split; [intros _ i ? ? ?|]|].
  revert x. induction l as [|y l IH]; intros x; simpl.
  - split; [|done]. intros _ [|i] a c Ha Hc; simpl in *; [done|]. by destruct i.
  - rewrite andb_true_iff, IH. unfold id. split.
    + intros [Hxy Hl] [|i] a c Ha Hc; simpl in *; [congruence|]. by apply (Hl i).
    + intros Hl. split; [by apply (Hl 0)|]. intros i a c Ha Hc. by apply (Hl (1 + i) a c).
Qed.

Section merge_order.
Context {A : Type} (compare : A -> A -> bool) `{!StrictWeakOrder compare}.

Lemma merge_elem (x : A) (xs ys : list A) : x ∈ merge compare xs ys <-> x ∈ xs \/ x ∈ ys.
Proof. by rewrite merge_perm, elem_of_app. Qed.

Lemma merge_sorted (xs ys : list A) : sorted compare xs -> sorted compare ys -> sorted compare (merge compare xs ys).
Proof.
  revert ys. induction xs as [|x xs IHx]; intros ys Hx Hy; [by rewrite merge_nil_l|].
  induction ys as [|y ys IHy]; [done|]. rewrite merge_cons. destruct Hx as [Hx Hxs], Hy as [Hy Hys].
  rewrite list.Forall_forall in Hx, Hy. destruct (compare y x) eqn:E; cbn [sorted].
  - split; [|by apply IHy]. apply list.Forall_forall. intros z [Hz|Hz]%merge_elem; [|by apply Hy].
    apply compare_asym; [done|]. apply elem_of_cons in Hz as [->|Hz]; [done|].
    apply (less_leq_less compare y x z E). by apply Hx.
  - split; [|apply IHx; [done|by split; [apply list.Forall_forall|]]]. apply list.Forall_forall. intros z [Hz|Hz]%merge_elem; [by apply Hx|].
    apply elem_of_cons in Hz as [->|Hz]; [done|]. apply (compare_weak z y x); [by apply Hy|done].
Qed.

(** Neither is before the other. *)
Definition equivalent (x y : A) : Prop := compare x y = false /\ compare y x = false.

#[local] Instance equivalent_dec (x y : A) : Decision (equivalent x y).
Proof. unfold equivalent. apply _. Defined.

Lemma merge_stable (e : A) (xs ys : list A) :
  sorted compare xs -> sorted compare ys ->
  base.filter (equivalent e) (merge compare xs ys) =
  base.filter (equivalent e) xs ++ base.filter (equivalent e) ys.
Proof.
  revert ys. induction xs as [|x xs IHx]; intros ys Hx Hy; [by rewrite merge_nil_l|].
  induction ys as [|y ys IHy]; [by rewrite merge_nil, app_nil_r|].
  rewrite merge_cons. destruct Hy as [Hy Hys]. destruct (compare y x) eqn:E.
  - rewrite (filter_cons _ y (merge _ _ _)), (filter_cons _ y ys), IHy by done. destruct (decide (equivalent e y)) as [[H1 H2]|Hne]; [|done].
    assert (base.filter (equivalent e) (x :: xs) = []) as ->; [|done].
    destruct Hx as [Hx _]. rewrite list.Forall_forall in Hx.
    assert (forall z, z ∈ x :: xs -> ~ equivalent e z) as Hz.
    { intros z Hz [He _]. assert (compare y z = true) as Hyz.
      { apply elem_of_cons in Hz as [->|Hz]; [done|]. apply (less_leq_less compare y x z E). by apply Hx. }
      rewrite (leq_less_less compare e y z H2 Hyz) in He. done. }
    clear - Hz. induction (x :: xs) as [|z l IH]; [done|]. rewrite filter_cons_False by (apply Hz; by left).
    apply IH. intros z' Hz'. apply Hz. by right.
  - rewrite !(filter_cons _ x), IHx by (done || by destruct Hx). by destruct (decide (equivalent e x)).
Qed.

End merge_order.

(** [merge_by] is [std::merge]: for sorted sequences it yields a sorted
    permutation of all items in which equivalent items keep their order, the
    left sequence's first; [peek] looks at the item that [next] then returns. *)
Theorem merge_by_correct {L R A : Type} `{PeekLaws L A} `{PeekLaws R A} (compare : A -> A -> bool)
    `{!StrictWeakOrder compare} (l : L) (r : R) (fuel : nat) :
  wf l -> wf r -> sorted compare (items l) -> sorted compare (items r) ->
  let s := merge_by compare r l in
  enough s <= fuel ->
  exists out s', collect_vec fuel s = Some out /\
    sorted compare out /\ out ≡ₚ items l ++ items r /\
    (forall e, base.filter (equivalent compare e) out =
       base.filter (equivalent compare e) (items l) ++ base.filter (equivalent compare e) (items r)) /\
    peek fuel s = Some (head out, s') /\ collect_vec fuel s' = Some out.
Proof.
  intros Hwl Hwr Hl Hr s Hf. assert (wf s) as Hw by done.
  destruct (peek_law fuel s Hw) as (s' & Hp & Hw' & Hi' & Hc'); [unfold enough in Hf; lia|].
  exists (items s), s'. rewrite collect_vec_spec by done. split; [done|]. split_and!.
  - by apply merge_sorted.
  - by apply merge_perm.
  - intros e. by apply merge_stable.
  - done.
  - rewrite collect_vec_spec; [by rewrite Hi'|done|]. unfold enough in *. rewrite Hi'. lia.
Qed.

(** The values before the first status that is not ok, and that status. *)
Fixpoint ok_prefix {A} (l : list (Z + A)) : list A * option Z :=
  match l with
  | [] => ([], None)
  | inl e :: _ => ([], Some e)
  | inr x :: l' => (x :: (ok_prefix l').1, (ok_prefix l').2)
  end.

(** [status_ok] passes the values up to the first error on, and its status
    is then that error; without an error it passes all values on and its
    status stays ok. *)
Theorem status_ok_correct {S A St : Type} `{SeqLaws S (Z + A)} (unknown : Z) (f : St -> A -> St) (st : St) (s : S)
    (fuel : nat) :
  wf s -> enough s <= fuel ->
  exists s', for_each (H := status_ok_seq unknown) (fun st x => (f st x, kContinue)) fuel st (status_ok s) =
      Some (foldl f st (ok_prefix (items s)).1, kContinue, s') /\
    status_ s' = default 0%Z (ok_prefix (items s)).2.
Proof.
  intros Hw Hf. unfold enough in Hf.
  destruct (for_each_pull (H := status_ok_seq unknown) (fun st x => (f st x, kContinue)) fuel
    (fun (t : StatusOk S) (l : list A) => wf (ok_seq_ t) /\ cost (ok_seq_ t) <= fuel /\ status_ t = 0%Z /\ (ok_prefix (items (ok_seq_ t))).1 = l /\
       (ok_prefix (items (ok_seq_ t))).2 = (ok_prefix (items s)).2)
    (fun t : StatusOk S => status_ t = default 0%Z (ok_prefix (items s)).2))
    with (n := fuel) (st := st) (s := status_ok s) (l := (ok_prefix (items s)).1) as (s' & E & Hs').
  - intros [t e] l (Hwt & Hct & He & Hl & Hend). simpl in *. unfold status_ok_step. simpl. subst e.
    pull_next t t1 Hw1 Hi1 Hc1. simpl. destruct (items t) as [|[e|x] l'] eqn:Et; simpl in *.
    + subst l. eexists. split; [done|]. simpl. by rewrite <- Hend.
    + subst l. eexists. split; [done|]. simpl. by rewrite <- Hend.
    + subst l. eexists. split; [done|]. simpl. rewrite Hi1. split_and!; done || lia.
  - simpl. split_and!; done || lia.
  - assert (length (ok_prefix (items s)).1 <= length (items s)) as Hlen; [|lia].
    clear. induction (items s) as [|[e|x] l IH]; simpl; lia.
  - exists s'. unfold for_each. rewrite E. rewrite fold_until_continue in *. done.
Qed.

(** ** What the sequences do not promise *)

Definition source (l : list Z) : SubRangeSeq Z := as_seq l.

(** [Chain::peek] asks the first sequence only, even when it is exhausted: a
    chain that has items left looks empty, and [merge_by], which peeks, loses
    them.  Merging [1, 2] (a chain of two sequences) with [3] gives [1, 3]. *)
Theorem chain_peek_hides_items :
  let l := chain (source [2%Z]) (source [1%Z]) in
  collect_vec 9 l = Some [1%Z; 2%Z] /\
  (let* skipped, l' := next 9 l in let* item, l'' := peek 9 l' in Some item) = Some None /\
  collect_vec 9 (merge_by Z.ltb (source [3%Z]) l) = Some [1%Z; 3%Z].
Proof. split_and!; reflexivity. Qed.

(** [SkipN] does not skip: it returns [None], the end of the sequence, in
    place of each of the first [n] items, so that every consumer stops at
    once. *)
Theorem skip_n_yields_nothing (l : list Z) (n fuel : nat) :
  0 < n -> 0 < fuel -> collect_vec fuel (skip_n n (source l)) = Some [].
Proof. intros Hn Hf. destruct n as [|n], fuel as [|fuel]; [lia..|]. done. Qed.

(** [Fuse::peek] at the end of a sequence reads a value that is not there. *)
Theorem fuse_peek_at_end (s : SubRangeSeq (option Z)) :
  sub_range_ s = [] -> fuse_peek 1 (fuse s) = Some (Panic, fuse s).
Proof. destruct s as [l]. simpl. by intros ->. Qed.

(** ** Witnesses *)

#[export] Instance Zltb_order : StrictWeakOrder Z.ltb.
Proof. split; intros; bool_cases; rewrite ?Z.ltb_lt, ?Z.ltb_ge in *; lia. Qed.

Definition nested : SubRangeSeq (SubRangeSeq Z) := as_seq [source [1%Z]; source []; source [2%Z; 3%Z]].

Lemma combinators_correct_witness :
  exists enough_fuel, forall fuel, enough_fuel <= fuel ->
    collect_vec fuel (chain (source [4%Z]) (source [2%Z; 3%Z])) = Some [2%Z; 3%Z; 4%Z] /\
    (s ← flatten fuel nested; collect_vec fuel (s : Flatten _ (SubRangeSeq Z))) = Some [1%Z; 2%Z; 3%Z].
Proof.
  destruct (combinators_correct (source [2%Z; 3%Z]) (source [4%Z]) (source [2%Z; 3%Z]) nested Z.succ Z.even (fun x => Some x)
    Z.add Z.add 0%Z 1) as (k & Hk); [done|done|done|done|by repeat constructor|].
  exists k. intros fuel Hf. destruct (Hk fuel Hf) as (H1 & _ & _ & _ & _ & _ & _ & _ & _ & H2). by split.
Defined.

Lemma consumers_correct_witness :
  reduce 0%Z Z.add 4 (source [5%Z; 6%Z]) = Some 11%Z.
Proof.
  destruct (consumers_correct (source [5%Z; 6%Z]) 0%Z Z.add Z.add Z.ltb 4) as [Hr _]; [done|vm_compute; lia|exact Hr].
Defined.

Lemma merge_by_correct_witness :
  exists out, collect_vec 9 (merge_by Z.ltb (source [2%Z; 5%Z]) (source [1%Z; 5%Z])) = Some out /\ sorted Z.ltb out.
Proof.
  destruct (merge_by_correct Z.ltb (source [1%Z; 5%Z]) (source [2%Z; 5%Z]) 9) as (out & s' & H1 & H2 & _).
  - done.
  - done.
  - by repeat constructor.
  - by repeat constructor.
  - vm_compute. lia.
  - by exists out.
Defined.

Definition statuses : SubRangeSeq (Z + Z) := as_seq [inr 1%Z; inl 7%Z; inr 2%Z].

Lemma status_ok_correct_witness :
  exists s', for_each (H := status_ok_seq 2%Z) (fun st x => (st ++ [x], kContinue)) 9 [] (status_ok statuses) =
    Some ([1%Z], kContinue, s') /\ status_ s' = 7%Z.
Proof.
  destruct (status_ok_correct (A := Z) 2%Z (fun (st : list Z) x => st ++ [x]) [] statuses 9) as (s' & Hr);
    [done|vm_compute; lia|]. exists s'. exact Hr.
Defined.
