(* ===== verification/KMerge.v ===== *)
(** * kmerge: merging any number of sequences

    [seq/kmerge.hpp].  [KMergeBy] keeps a heap of pointers to its sequences,
    ordered by the item each would return next.  [std::push_heap] and
    [std::pop_heap] are given by what the C++ standard says about them, the
    class [StdHeap]: which of two equivalent elements comes to the front is up
    to the library.  A pointer into [k_seqs_] is an index. *)

From S2P Require Import Prelude Status ParallelMerge Seq SeqOps.
Open Scope nat_scope.

(** ** The heap algorithms of the C++ standard library *)

(** [comp] is a strict weak order on the elements of [l]. *)
Record swo_on {K} (comp : K -> K -> bool) (l : list K) : Prop := {
  swo_irrefl : forall x, x ∈ l -> comp x x = false;
  swo_trans : forall x y z, x ∈ l -> y ∈ l -> z ∈ l -> comp x y = true -> comp y z = true -> comp x z = true;
  swo_weak : forall x y z, x ∈ l -> y ∈ l -> z ∈ l -> comp x y = false -> comp y z = false -> comp x z = false }.

(** No element is less than its parent. *)
Definition is_heap {K} (comp : K -> K -> bool) (l : list K) : Prop :=
  forall i x y, 0 < i -> l !! ((i - 1) / 2) = Some x -> l !! i = Some y -> comp x y = false.

Class StdHeap : Type := {
  push_heap : forall {K}, (K -> K -> bool) -> list K -> list K;
  pop_heap : forall {K}, (K -> K -> bool) -> list K -> list K;
  push_heap_law : forall {K} (comp : K -> K -> bool) (h : list K) (x : K), swo_on comp (h ++ [x]) -> is_heap comp h ->
    is_heap comp (push_heap comp (h ++ [x])) /\ push_heap comp (h ++ [x]) ≡ₚ h ++ [x];
  pop_heap_law : forall {K} (comp : K -> K -> bool) (x : K) (h : list K), swo_on comp (x :: h) -> is_heap comp (x :: h) ->
    exists h', pop_heap comp (x :: h) = h' ++ [x] /\ is_heap comp h' /\ h' ≡ₚ h }.

(** The first element of a heap is a largest one. *)
Lemma heap_top {K} (comp : K -> K -> bool) (x : K) (h : list K) :
  swo_on comp (x :: h) -> is_heap comp (x :: h) -> forall y, y ∈ x :: h -> comp x y = false.
Proof.
  intros [Hirr _ Hweak] Hheap y Hy. apply list_elem_of_lookup_1 in Hy as [i Hi]. revert y Hi.
  induction (Nat.lt_wf_0 i) as [i _ IH]. intros y Hi. destruct i as [|i].
  { injection Hi as <-. apply Hirr. by left. }
  assert ((S i - 1) / 2 < S i) as Hlt by (apply Nat.Div0.div_lt_upper_bound; lia).
  destruct (lookup_lt_is_Some_2 (x :: h) ((S i - 1) / 2)) as [p Hp].
  { apply lookup_lt_Some in Hi. lia. }
  apply (Hweak x p y); [by left|by eapply list_elem_of_lookup_2|by eapply list_elem_of_lookup_2|by eapply IH|].
  by apply (Hheap (S i) p y); [lia| |].
Qed.

Lemma is_heap_ext {K} (comp comp' : K -> K -> bool) (h : list K) :
  (forall x y, x ∈ h -> y ∈ h -> comp' x y = comp x y) -> is_heap comp h -> is_heap comp' h.
Proof.
  intros E H i x y Hi Hx Hy. rewrite E by (by eapply list_elem_of_lookup_2). by apply (H i x y).
Qed.

Lemma swo_on_incl {K} (comp : K -> K -> bool) (l l' : list K) :
  (forall x, x ∈ l' -> x ∈ l) -> swo_on comp l -> swo_on comp l'.
Proof. intros Hl [H1 H2 H3]. split; intros; eauto. Qed.

(** ** KMergeBy *)

Section kmerge.
Context `{StdHeap} {S A : Type} `{Seq S A}.

(* @ src/batteries/seq/kmerge.hpp 131-140 KMergeBy *)
Record KMergeBy : Type := mkKMergeBy {
  order_ : A -> A -> bool;
  k_seqs_ : list (CacheNext S A);
  heap_ : list nat }.

(** The item that [peek] of sequence [k] returns. *)
Definition key (fuel : nat) (seqs : list (CacheNext S A)) (k : nat) : option A :=
  match seqs !! k with
  | Some q => match peek fuel q with Some (item, _) => item | None => None end
  | None => None
  end.

(** Reversed, because the heap has the largest element first. *)
(* @ src/batteries/seq/kmerge.hpp 29-37 KMergeBy::HeapOrder *)
Definition heap_order (fuel : nat) (compare : A -> A -> bool) (seqs : list (CacheNext S A)) (l r : nat) : bool :=
  match key fuel seqs r, key fuel seqs l with Some y, Some x => compare y x | _, _ => false end.

(** Sequence [i] enters the heap, unless it is empty. *)
(* @ src/batteries/seq/kmerge.hpp 49-56 KMergeBy::KMergeBy *)
Definition add_seq (fuel : nat) (i : nat) (s : KMergeBy) : option KMergeBy :=
  q ← k_seqs_ s !! i;
  let* item, q' := peek fuel q in
  let seqs := <[i := q']> (k_seqs_ s) in
  Some (mkKMergeBy (order_ s) seqs
    (match item with
     | None => heap_ s
     | Some _ => push_heap (heap_order fuel (order_ s) seqs) (heap_ s ++ [i])
     end)).

Definition add_seqs (fuel : nat) (ids : list nat) (s : KMergeBy) : option KMergeBy :=
  foldl (fun r i => s ← r; add_seq fuel i s) (Some s) ids.

(** The assertion at the end of the constructor stops the program. *)
(* @ src/batteries/seq/kmerge.hpp 40-59 KMergeBy::KMergeBy *)
Definition kmerge_by (fuel : nat) (compare : A -> A -> bool) (ks : list S) : option KMergeBy :=
  s ← add_seqs fuel (seq 0 (length ks)) (mkKMergeBy compare (cache_next <$> ks) []);
  if length (heap_ s) <=? length (k_seqs_ s) then Some s else None.

(* @ src/batteries/seq/kmerge.hpp 77-102 KMergeBy::next *)
Definition kmerge_next (fuel : nat) (s : KMergeBy) : option (option A * KMergeBy) :=
  match heap_ s with
  | [] => Some (None, s)
  | _ =>
      let popped := pop_heap (heap_order fuel (order_ s) (k_seqs_ s)) (heap_ s) in
      k ← last popped;
      q ← k_seqs_ s !! k;
      let* next_item, q1 := next fuel q in
      match next_item with
      | None => None
      | Some x =>
          let* item, q2 := peek fuel q1 in
          let seqs := <[k := q2]> (k_seqs_ s) in
          Some (Some x, mkKMergeBy (order_ s) seqs
            (match item with
             | None => removelast popped
             | Some _ => push_heap (heap_order fuel (order_ s) seqs) popped
             end))
      end
  end.

(* @ src/batteries/seq/kmerge.hpp 104-110 KMergeBy::peek *)
Definition kmerge_peek (fuel : nat) (s : KMergeBy) : option (option A * KMergeBy) :=
  match heap_ s with
  | [] => Some (None, s)
  | k :: _ =>
      q ← k_seqs_ s !! k;
      let* item, q' := peek fuel q in
      Some (item, mkKMergeBy (order_ s) (<[k := q']> (k_seqs_ s)) (heap_ s))
  end.

#[export] Instance kmerge_seq : Seq KMergeBy A := {| peek := kmerge_peek; next := kmerge_next |}.
End kmerge.
Arguments KMergeBy : clear implicits.

(** ** What is merged *)

(** [l] takes, again and again, one of the smallest first items of the
    lists. *)
Inductive merges {A} (compare : A -> A -> bool) : list (list A) -> list A -> Prop :=
| merges_nil ls : Forall (fun l => l = []) ls -> merges compare ls []
| merges_cons ls k x xs l :
    ls !! k = Some (x :: xs) ->
    (forall j y ys, ls !! j = Some (y :: ys) -> compare y x = false) ->
    merges compare (<[k := xs]> ls) l -> merges compare ls (x :: l).

Section merges.
Context {A : Type} (compare : A -> A -> bool).

Lemma concat_nils (ls : list (list A)) : Forall (fun l => l = []) ls -> concat ls = [].
Proof. by induction 1 as [|l ls -> Hls IH]. Qed.

Lemma concat_take_first (ls : list (list A)) (k : nat) (x : A) (xs : list A) :
  ls !! k = Some (x :: xs) -> concat ls ≡ₚ x :: concat (<[k := xs]> ls).
Proof.
  revert k. induction ls as [|l ls IH]; intros [|k] E; try done; simpl in *.
  - by injection E as ->.
  - rewrite (IH k E). by rewrite Permutation_middle.
Qed.

Lemma merges_perm (ls : list (list A)) (l : list A) : merges compare ls l -> l ≡ₚ concat ls.
Proof.
  induction 1 as [ls Hls|ls k x xs l Hk Hmin Hm IH]; [by rewrite concat_nils|].
  by rewrite (concat_take_first ls k x xs Hk), IH.
Qed.

(** Each list keeps its order. *)
Lemma merges_sublist (ls : list (list A)) (l xs : list A) (j : nat) :
  merges compare ls l -> ls !! j = Some xs -> xs `sublist_of` l.
Proof.
  intros Hm. revert xs. induction Hm as [ls Hls|ls k x xs' l Hk Hmin Hm IH]; intros xs Hj.
  - by rewrite (proj1 (list.Forall_lookup _ _) Hls j xs Hj).
  - destruct (decide (j = k)) as [->|Hne].
    + rewrite Hj in Hk. injection Hk as ->. constructor. apply IH, list_lookup_insert_eq. by eapply lookup_lt_Some.
    + constructor. apply IH. by rewrite list_lookup_insert_ne.
Qed.

Lemma merges_sorted `{!StrictWeakOrder compare} (ls : list (list A)) (l : list A) :
  merges compare ls l -> Forall (sorted compare) ls -> sorted compare l.
Proof.
  induction 1 as [ls Hls|ls k x xs l Hk Hmin Hm IH]; intros Hs; [done|].
  pose proof (proj1 (list.Forall_lookup _ _) Hs k _ Hk) as [Hx Hxs]. split; [|apply IH; by apply list.Forall_insert].
  apply list.Forall_forall. intros z Hz. rewrite (merges_perm _ _ Hm) in Hz.
  apply list_elem_of_In, in_concat in Hz as (ys & Hys & Hz). apply list_elem_of_In in Hys, Hz.
  apply list_elem_of_lookup_1 in Hys as [j Hj]. destruct (decide (j = k)) as [->|Hne].
  - rewrite list_lookup_insert_eq in Hj by (by eapply lookup_lt_Some). injection Hj as <-.
    by apply (proj1 (list.Forall_forall _ _) Hx).
  - rewrite list_lookup_insert_ne in Hj by done. destruct ys as [|y ys]; [by apply elem_of_nil in Hz|].
    pose proof (Hmin j y ys Hj) as Hyx. apply elem_of_cons in Hz as [->|Hz]; [done|].
    pose proof (proj1 (list.Forall_lookup _ _) Hs j _ Hj) as [Hy _].
    apply (compare_weak z y x); [by apply (proj1 (list.Forall_forall _ _) Hy)|done].
Qed.
End merges.

(** ** The invariant *)

Section kmerge_laws.
Context `{HeapLib : StdHeap} {S A : Type} `{Laws : SeqLaws S A}.

Definition tails (seqs : list (CacheNext S A)) : list (list A) := items <$> seqs.

(** The item of sequence [k] has been looked at. *)
Definition cached_head (seqs : list (CacheNext S A)) (k : nat) : Prop :=
  exists q x, seqs !! k = Some q /\ cached_ q = Some (Some x).

(** The first [n] sequences have been added to the heap. *)
Record Inv (fuel n : nat) (s : KMergeBy S A) : Prop := {
  inv_wf : Forall (fun q => wf q /\ cost q <= fuel) (k_seqs_ s);
  inv_nodup : NoDup (heap_ s);
  inv_members : forall k, k ∈ heap_ s <-> k < n /\ exists x xs, tails (k_seqs_ s) !! k = Some (x :: xs);
  inv_cached : forall k, k ∈ heap_ s -> cached_head (k_seqs_ s) k;
  inv_heap : is_heap (heap_order fuel (order_ s) (k_seqs_ s)) (heap_ s) }.

Lemma cached_key (fuel : nat) (seqs : list (CacheNext S A)) (k : nat) :
  cached_head seqs k ->
  exists q x xs, seqs !! k = Some q /\ cached_ q = Some (Some x) /\ key fuel seqs k = Some x /\ tails seqs !! k = Some (x :: xs).
Proof.
  intros (q & x & Hq & Hc). exists q, x, (items (cache_seq_ q)). split_and!; [done|done| |].
  - unfold key. rewrite Hq. simpl. by rewrite Hc.
  - unfold tails. rewrite list_lookup_fmap, Hq. simpl. by rewrite Hc.
Qed.

Lemma key_insert_ne (fuel : nat) (seqs : list (CacheNext S A)) (i k : nat) (q : CacheNext S A) :
  k <> i -> key fuel (<[i := q]> seqs) k = key fuel seqs k.
Proof. intros Hne. unfold key. by rewrite list_lookup_insert_ne. Qed.

Lemma tails_insert (seqs : list (CacheNext S A)) (i : nat) (q : CacheNext S A) :
  tails (<[i := q]> seqs) = <[i := items q]> (tails seqs).
Proof. apply list_fmap_insert. Qed.

Lemma cached_insert_ne (seqs : list (CacheNext S A)) (i k : nat) (q : CacheNext S A) :
  k <> i -> cached_head seqs k -> cached_head (<[i := q]> seqs) k.
Proof. intros Hne (q' & x & Hq & Hc). exists q', x. by rewrite list_lookup_insert_ne. Qed.

(** The order of the heap is a strict weak order on sequences that have an
    item. *)
Lemma heap_order_swo (fuel : nat) (compare : A -> A -> bool) (seqs : list (CacheNext S A)) (l : list nat) :
  StrictWeakOrder compare -> (forall k, k ∈ l -> cached_head seqs k) -> swo_on (heap_order fuel compare seqs) l.
Proof.
  intros Hcmp Hl. assert (forall k, k ∈ l -> exists x, key fuel seqs k = Some x) as Hk.
  { intros k Hin. destruct (cached_key fuel seqs k (Hl k Hin)) as (q & x & xs & _ & _ & E & _). by exists x. }
  split; unfold heap_order.
  - intros x Hx. destruct (Hk x Hx) as [a ->]. apply compare_irrefl.
  - intros x y z Hx Hy Hz. destruct (Hk x Hx) as [a ->], (Hk y Hy) as [b ->], (Hk z Hz) as [c ->].
    intros H1 H2. by apply (compare_trans c b a).
  - intros x y z Hx Hy Hz. destruct (Hk x Hx) as [a ->], (Hk y Hy) as [b ->], (Hk z Hz) as [c ->].
    intros H1 H2. by apply (compare_weak c b a).
Qed.

Lemma heap_order_ext (fuel : nat) (compare : A -> A -> bool) (seqs : list (CacheNext S A)) (i : nat) (q : CacheNext S A) (h : list nat) :
  i ∉ h -> is_heap (heap_order fuel compare seqs) h -> is_heap (heap_order fuel compare (<[i := q]> seqs)) h.
Proof.
  intros Hi. apply is_heap_ext. intros x y Hx Hy. unfold heap_order.
  by rewrite !key_insert_ne by (intros ->; done).
Qed.

(** A sequence whose item has been looked at goes on the heap. *)
Lemma push_heap_order (fuel : nat) (compare : A -> A -> bool) (seqs : list (CacheNext S A)) (h : list nat) (k : nat) :
  StrictWeakOrder compare -> (forall j, j ∈ h ++ [k] -> cached_head seqs j) ->
  is_heap (heap_order fuel compare seqs) h ->
  is_heap (heap_order fuel compare seqs) (push_heap (heap_order fuel compare seqs) (h ++ [k])) /\
  push_heap (heap_order fuel compare seqs) (h ++ [k]) ≡ₚ h ++ [k].
Proof. intros Hcmp Hc Hh. apply push_heap_law; [by apply heap_order_swo|done]. Qed.

(** [peek] of a sequence fills its cache. *)
Lemma peek_cached (fuel : nat) (q : CacheNext S A) :
  wf q -> cost q <= fuel ->
  exists q', peek fuel q = Some (head (items q), q') /\ wf q' /\ items q' = items q /\ cost q' <= cost q /\
    cached_ q' = Some (head (items q)).
Proof.
  destruct q as [s [[x|]|]]; intros [Hw Hn] Hc; simpl in *.
  - eexists. split; [done|]. simpl. by split_and!.
  - rewrite Hn by done. eexists. split; [done|]. simpl. by rewrite Hn.
  - pull_next s s1 Hw1 Hi1 Hc1. simpl. eexists. split; [done|]. simpl. rewrite Hi1.
    destruct (items s) as [|x l]; by split_and!.
Qed.

Lemma add_seq_spec (fuel i : nat) (s : KMergeBy S A) :
  StrictWeakOrder (order_ s) -> i < length (k_seqs_ s) -> Inv fuel i s ->
  exists s', add_seq fuel i s = Some s' /\ Inv fuel (i + 1) s' /\ tails (k_seqs_ s') = tails (k_seqs_ s) /\ order_ s' = order_ s.
Proof.
  intros Hcmp Hi [H1 H2 H3 H4 H5]. unfold add_seq. destruct (lookup_lt_is_Some_2 _ _ Hi) as [q Hq]. rewrite Hq.
  destruct (proj1 (list.Forall_lookup _ _) H1 i q Hq) as [Hw Hc].
  destruct (peek_cached fuel q Hw Hc) as (q' & Hp & Hw' & Hi' & Hc' & Hcache). cbn [mbind option_bind]. rewrite Hp. cbn [pull_bind].
  assert (tails (<[i:=q']> (k_seqs_ s)) = tails (k_seqs_ s)) as Ht.
  { rewrite tails_insert. apply list_insert_id. unfold tails. by rewrite list_lookup_fmap, Hq, Hi'. }
  assert (i ∉ heap_ s) as Hni by (intros Hin; apply H3 in Hin; lia).
  assert (Forall (fun q => wf q /\ cost q <= fuel) (<[i:=q']> (k_seqs_ s))) as Hwf by (apply list.Forall_insert; [done|split; [done|lia]]).
  assert (tails (k_seqs_ s) !! i = Some (items q)) as Hti by (unfold tails; by rewrite list_lookup_fmap, Hq).
  destruct (items q) as [|x l] eqn:Eq; cbn [head hd_error]; eexists; (split; [done|]); (split; [|done]).
  - split; cbn [k_seqs_ heap_ order_]; rewrite ?Ht; try done.
    + intros k. rewrite H3. split; intros [Hk Hx]; (split; [|done]); [lia|].
      destruct (decide (k = i)) as [->|]; [|lia]. destruct Hx as (? & ? & E). congruence.
    + intros k Hk. apply cached_insert_ne; [by intros ->|by apply H4].
    + by apply heap_order_ext.
  - assert (forall j, j ∈ heap_ s ++ [i] -> cached_head (<[i:=q']> (k_seqs_ s)) j) as Hcs.
    { intros j [Hj|Hj%list_elem_of_singleton]%elem_of_app; [apply cached_insert_ne; [by intros ->|by apply H4]|subst j].
      exists q', x. split; [by apply list_lookup_insert_eq|done]. }
    destruct (push_heap_order fuel (order_ s) _ _ i Hcmp Hcs (heap_order_ext fuel _ _ i q' _ Hni H5)) as [Hh Hperm].
    split; cbn [k_seqs_ heap_ order_]; rewrite ?Ht; try done.
    + rewrite Hperm. apply list.NoDup_app. split_and!; [done| |apply NoDup_singleton]. by intros j Hj ->%list_elem_of_singleton.
    + intros k. rewrite Hperm, elem_of_app, list_elem_of_singleton, H3. split.
      * intros [[Hk Hx]| ->]; (split; [lia|]); [done|by exists x, l].
      * intros [Hk Hx]. destruct (decide (k = i)) as [->|]; [by right|left]. split; [lia|done].
    + intros k. rewrite Hperm. apply Hcs.
Qed.

Lemma add_seqs_spec (fuel n i : nat) (s : KMergeBy S A) :
  StrictWeakOrder (order_ s) -> i + n = length (k_seqs_ s) -> Inv fuel i s ->
  exists s', add_seqs fuel (seq i n) s = Some s' /\ Inv fuel (i + n) s' /\ tails (k_seqs_ s') = tails (k_seqs_ s) /\ order_ s' = order_ s.
Proof.
  revert i s. induction n as [|n IH]; intros i s Hcmp Hn HI.
  { exists s. by rewrite Nat.add_0_r. }
  destruct (add_seq_spec fuel i s Hcmp ltac:(lia) HI) as (s1 & E1 & HI1 & Ht1 & Ho1).
  assert (length (k_seqs_ s1) = length (k_seqs_ s)) as Hlen.
  { pose proof (f_equal length Ht1) as E. unfold tails in E. by rewrite !length_fmap in E. }
  rewrite Nat.add_1_r in HI1. destruct (IH (Datatypes.S i) s1) as (s2 & E2 & HI2 & Ht2 & Ho2); [by rewrite Ho1|lia|done|].
  exists s2. split_and!; [|by rewrite <- Nat.add_succ_comm|by rewrite Ht2|by rewrite Ho2].
  unfold add_seqs in *. cbn [seq foldl mbind option_bind]. rewrite E1. exact E2.
Qed.

(** The heap holds indices of sequences, each once. *)
Lemma heap_bound (fuel : nat) (s : KMergeBy S A) :
  Inv fuel (length (k_seqs_ s)) s -> length (heap_ s) <= length (k_seqs_ s).
Proof.
  intros [H1 H2 H3 H4 H5]. rewrite <- (length_seq (length (k_seqs_ s)) 0) at 1.
  apply submseteq_length, NoDup_submseteq; [done|]. intros k Hk. apply elem_of_seq. apply H3 in Hk. lia.
Qed.

Lemma kmerge_by_spec (fuel : nat) (compare : A -> A -> bool) (ks : list S) :
  StrictWeakOrder compare -> Forall (fun q => wf q /\ cost q <= fuel) ks ->
  exists s, kmerge_by fuel compare ks = Some s /\ Inv fuel (length (k_seqs_ s)) s /\
    tails (k_seqs_ s) = items <$> ks /\ order_ s = compare.
Proof.
  intros Hcmp Hks. set (s0 := mkKMergeBy compare (cache_next <$> ks) []).
  assert (Inv fuel 0 s0) as HI0.
  { split; simpl; try done; [|apply NoDup_nil_2| |by intros k ?%elem_of_nil].
    - apply list.Forall_fmap. eapply list.Forall_impl; [exact Hks|]. intros q [Hw Hc]. by split_and!.
    - intros k. split; [by intros ?%elem_of_nil|]. intros [Hk _]. lia. }
  destruct (add_seqs_spec fuel (length ks) 0 s0 Hcmp) as (s & E & HI & Ht & Ho); [simpl; by rewrite length_fmap|done|].
  assert (length (k_seqs_ s) = length ks) as Hlen.
  { pose proof (f_equal length Ht) as El. unfold tails in El. simpl in El. by rewrite !length_fmap in El. }
  rewrite Nat.add_0_l in HI. unfold kmerge_by. fold s0. rewrite E. cbn [mbind option_bind]. rewrite <- Hlen in HI.
  exists s. rewrite (proj2 (Nat.leb_le _ _) (heap_bound fuel s HI)). split_and!; [done|done| |done].
  rewrite Ht. unfold tails. simpl. rewrite <- list_fmap_compose. by apply list_fmap_ext.
Qed.

(** ** next and peek *)

(** The sequence in front has a smallest item. *)
Lemma front_spec (fuel k : nat) (h : list nat) (s : KMergeBy S A) :
  StrictWeakOrder (order_ s) -> Inv fuel (length (k_seqs_ s)) s -> heap_ s = k :: h ->
  exists q x xs, k_seqs_ s !! k = Some q /\ cached_ q = Some (Some x) /\ tails (k_seqs_ s) !! k = Some (x :: xs) /\
    forall j y ys, tails (k_seqs_ s) !! j = Some (y :: ys) -> order_ s y x = false.
Proof.
  intros Hcmp [H1 H2 H3 H4 H5] Eh. rewrite Eh in *.
  destruct (cached_key fuel _ k (H4 k ltac:(by left))) as (q & x & xs & Hq & Hc & Hk & Ht).
  exists q, x, xs. split_and!; [done|done|done|]. intros j y ys Hj.
  assert (j ∈ k :: h) as Hin.
  { apply H3. split; [|by exists y, ys]. apply lookup_lt_Some in Hj. unfold tails in Hj. by rewrite length_fmap in Hj. }
  pose proof (heap_top _ k h (heap_order_swo fuel (order_ s) (k_seqs_ s) _ Hcmp H4) H5 j Hin) as Ho.
  destruct (cached_key fuel _ j (H4 j Hin)) as (q' & y' & ys' & _ & _ & Hk' & Ht').
  rewrite Hj in Ht'. injection Ht' as <- <-. unfold heap_order in Ho. by rewrite Hk, Hk' in Ho.
Qed.

Lemma kmerge_next_spec (fuel : nat) (s : KMergeBy S A) :
  StrictWeakOrder (order_ s) -> Inv fuel (length (k_seqs_ s)) s ->
  match heap_ s with
  | [] => kmerge_next fuel s = Some (None, s) /\ Forall (fun l => l = []) (tails (k_seqs_ s))
  | k :: _ =>
      exists x xs s', kmerge_next fuel s = Some (Some x, s') /\ tails (k_seqs_ s) !! k = Some (x :: xs) /\
        (forall j y ys, tails (k_seqs_ s) !! j = Some (y :: ys) -> order_ s y x = false) /\
        Inv fuel (length (k_seqs_ s')) s' /\ order_ s' = order_ s /\ tails (k_seqs_ s') = <[k := xs]> (tails (k_seqs_ s))
  end.
Proof.
  intros Hcmp HI. unfold kmerge_next. destruct (heap_ s) as [|k h] eqn:Eh.
  { split; [done|]. apply list.Forall_lookup. intros j [|y ys] Hj; [done|]. exfalso.
    apply (not_elem_of_nil j). rewrite <- Eh. apply (inv_members _ _ _ HI). split; [|by exists y, ys].
    apply lookup_lt_Some in Hj. unfold tails in Hj. by rewrite length_fmap in Hj. }
  destruct (front_spec fuel k h s Hcmp HI Eh) as (q & x & xs & Hq & Hc & Ht & Hmin).
  destruct HI as [H1 H2 H3 H4 H5]. rewrite Eh in *. apply NoDup_cons in H2 as [Hkh Hnd].
  destruct (pop_heap_law _ k h (heap_order_swo fuel (order_ s) (k_seqs_ s) _ Hcmp H4) H5) as (h' & Ep & Hh' & Hperm).
  rewrite Ep, last_snoc. cbn [mbind option_bind]. rewrite Hq. cbn [mbind option_bind].
  destruct (proj1 (list.Forall_lookup _ _) H1 k q Hq) as [Hw Hcost].
  destruct (next_law fuel q Hw Hcost) as (q1 & E1 & Hw1 & Hi1 & Hc1). rewrite E1. cbn [pull_bind].
  assert (items q = x :: xs) as Hiq by (unfold tails in Ht; rewrite list_lookup_fmap, Hq in Ht; by injection Ht).
  rewrite Hiq in *. cbn [head hd_error tail] in *.
  destruct (peek_cached fuel q1 Hw1 ltac:(lia)) as (q2 & E2 & Hw2 & Hi2 & Hc2 & Hcache). rewrite E2. cbn [pull_bind].
  rewrite Hi1 in Hi2, Hcache.
  assert (k ∉ h') as Hkh' by (by rewrite Hperm).
  assert (Forall (fun q => wf q /\ cost q <= fuel) (<[k:=q2]> (k_seqs_ s))) as Hwf by (apply list.Forall_insert; [done|split; [done|lia]]).
  assert (tails (<[k:=q2]> (k_seqs_ s)) = <[k := xs]> (tails (k_seqs_ s))) as Htl by (by rewrite tails_insert, Hi2).
  assert (k < length (k_seqs_ s)) as Hlt by (by eapply lookup_lt_Some).
  assert (forall j, j <> k -> j ∈ h' <-> j < length (k_seqs_ s) /\ exists y ys, tails (k_seqs_ s) !! j = Some (y :: ys)) as Hmem.
  { intros j Hj. rewrite Hperm, <- H3, elem_of_cons. naive_solver. }
  rewrite Hi1. eexists x, xs, _. split; [done|]. split_and!; [done|done| |done|exact Htl].
  cbn [k_seqs_]. rewrite length_insert. destruct xs as [|y ys]; cbn [head hd_error].
  { split; cbn [k_seqs_ heap_ order_]; rewrite ?Htl, ?removelast_last; try done.
    - by rewrite Hperm.
    - intros j. destruct (decide (j = k)) as [->|Hj].
      + split; [done|]. intros [_ (y & ys & E)]. rewrite list_lookup_insert_eq in E; [done|]. unfold tails. by rewrite length_fmap.
      + rewrite list_lookup_insert_ne by done. by apply Hmem.
    - intros j Hj. apply cached_insert_ne; [by intros ->|]. apply H4. right. by rewrite <- Hperm.
    - by apply heap_order_ext. }
  assert (forall j, j ∈ h' ++ [k] -> cached_head (<[k:=q2]> (k_seqs_ s)) j) as Hcs.
  { intros j [Hj|Hj%list_elem_of_singleton]%elem_of_app.
    - apply cached_insert_ne; [by intros ->|apply H4; right; by rewrite <- Hperm].
    - subst j. exists q2, y. split; [by apply list_lookup_insert_eq|done]. }
  destruct (push_heap_order fuel (order_ s) _ _ k Hcmp Hcs (heap_order_ext fuel _ _ k q2 _ Hkh' Hh')) as [Hh2 Hperm2].
  split; cbn [k_seqs_ heap_ order_]; rewrite ?Htl; try done.
  - rewrite Hperm2. apply list.NoDup_app. split_and!; [by rewrite Hperm| |apply NoDup_singleton].
    by intros j Hj ->%list_elem_of_singleton.
  - intros j. rewrite Hperm2, elem_of_app, list_elem_of_singleton. destruct (decide (j = k)) as [->|Hj].
    + split; [|by right]. intros _. split; [done|]. exists y, ys. apply list_lookup_insert_eq. unfold tails. by rewrite length_fmap.
    + rewrite list_lookup_insert_ne by done. rewrite <- Hmem by done. naive_solver.
  - intros j. rewrite Hperm2. apply Hcs.
Qed.

(** [peek] looks at the item that [next] then returns. *)
Lemma kmerge_peek_spec (fuel : nat) (s : KMergeBy S A) :
  StrictWeakOrder (order_ s) -> Inv fuel (length (k_seqs_ s)) s ->
  exists item s1 s2, kmerge_peek fuel s = Some (item, s) /\ kmerge_next fuel s = Some (item, s1) /\ s2 = s.
Proof.
  intros Hcmp HI. pose proof (kmerge_next_spec fuel s Hcmp HI) as Hn. unfold kmerge_peek. destruct (heap_ s) as [|k h] eqn:Eh.
  { destruct Hn as [Hn _]. by exists None, s, s. }
  destruct Hn as (x & xs & s' & Hn & Ht & _). destruct (front_spec fuel k h s Hcmp HI Eh) as (q & x' & xs' & Hq & Hc & Ht' & _).
  rewrite Ht in Ht'. injection Ht' as <- <-. exists (Some x), s', s. split_and!; [|done|done].
  rewrite Hq. cbn [mbind option_bind]. simpl. rewrite Hc. cbn. rewrite list_insert_id by done. destruct s. simpl in *. by rewrite Eh.
Qed.

(** The items that [next] returns one by one. *)
Inductive yields (fuel : nat) : KMergeBy S A -> list A -> Prop :=
| yields_nil s s' : kmerge_next fuel s = Some (None, s') -> yields fuel s []
| yields_cons s s' x l : kmerge_next fuel s = Some (Some x, s') -> yields fuel s' l -> yields fuel s (x :: l).

Lemma kmerge_yields (fuel : nat) (s : KMergeBy S A) :
  StrictWeakOrder (order_ s) -> Inv fuel (length (k_seqs_ s)) s ->
  exists l, yields fuel s l /\ merges (order_ s) (tails (k_seqs_ s)) l.
Proof.
  remember (length (concat (tails (k_seqs_ s)))) as n eqn:En. revert s En.
  induction n as [n IH] using (well_founded_induction Nat.lt_wf_0). intros s -> Hcmp HI.
  pose proof (kmerge_next_spec fuel s Hcmp HI) as Hn. destruct (heap_ s) as [|k h].
  { destruct Hn as [Hn Hnil]. exists []. split; [by econstructor|by constructor]. }
  destruct Hn as (x & xs & s' & Hn & Ht & Hmin & HI' & Ho & Ht').
  destruct (IH (length (concat (tails (k_seqs_ s'))))) with (s := s') as (l & Hy & Hm); [|done|by rewrite Ho|done|].
  - rewrite Ht'. rewrite (concat_take_first _ k x xs Ht). simpl. lia.
  - exists (x :: l). split; [by econstructor|]. rewrite Ho, Ht' in Hm. by econstructor.
Qed.

Lemma collect_yields (fuel : nat) (s : KMergeBy S A) (l : list A) :
  yields fuel s l -> length l < fuel -> collect_vec fuel s = Some l.
Proof.
  intros Hy Hf. unfold collect_vec, for_each.
  destruct (for_each_pull (fun v item => (v ++ [item], kContinue)) fuel (yields fuel) (fun _ => True)) with (n := fuel) (st := @nil A) (s := s) (l := l)
    as (s' & E & _); [|done|done|].
  { intros s' l' Hy'. destruct Hy' as [s' s1 E|s' s1 x l1 E Hy1]; by exists s1. }
  rewrite E. simpl. f_equal. rewrite fold_until_continue. simpl. apply foldl_snoc_list.
Qed.

(** C33: [kmerge_by] merges any number of sequences: over sorted sequences it
    yields a sorted permutation of all their items in which the items of each
    sequence keep their order, whichever of several equivalent elements the
    heap algorithms of the standard library bring to the front; the
    assertions hold; and [peek] looks at the item that [next] then returns,
    changing nothing. *)
Theorem kmerge_correct (compare : A -> A -> bool) `{!StrictWeakOrder compare} (ks : list S) (fuel : nat) :
  Forall (fun q => wf q /\ cost q <= fuel) ks -> Forall (fun q => sorted compare (items q)) ks ->
  length (concat (items <$> ks)) < fuel ->
  exists s out, kmerge_by fuel compare ks = Some s /\ collect_vec fuel s = Some out /\
    sorted compare out /\ out ≡ₚ concat (items <$> ks) /\ Forall (fun q => items q `sublist_of` out) ks /\
    peek fuel s = Some (head out, s).
Proof.
  intros Hks Hs Hf. destruct (kmerge_by_spec fuel compare ks _ Hks) as (s & E & HI & Ht & Ho). rewrite <- Ho in *.
  destruct (kmerge_yields fuel s _ HI) as (out & Hy & Hm). rewrite Ht in Hm. exists s, out.
  pose proof (merges_perm _ _ _ Hm) as Hperm. split_and!; [done| | |done| |].
  - apply collect_yields; [done|]. by rewrite Hperm.
  - apply (merges_sorted _ _ _ Hm). by apply list.Forall_fmap.
  - apply list.Forall_lookup. intros k q Hq. apply (merges_sublist _ _ _ _ k Hm). by rewrite list_lookup_fmap, Hq.
  - destruct (kmerge_peek_spec fuel s _ HI) as (item & s1 & _ & Hp & Hn & _). simpl. rewrite Hp. do 2 f_equal.
    destruct Hy as [s s' E'|s s' x l E' Hy]; by rewrite E' in Hn; injection Hn as <-.
Qed.
End kmerge_laws.

(** ** A conforming library: the heap is kept sorted *)

Fixpoint insert_sorted {K} (comp : K -> K -> bool) (x : K) (l : list K) : list K :=
  match l with
  | [] => [x]
  | y :: l' => if comp y x then x :: l else y :: insert_sorted comp x l'
  end.

Definition sort_desc {K} (comp : K -> K -> bool) (l : list K) : list K := foldr (insert_sorted comp) [] l.

Lemma insert_sorted_perm {K} (comp : K -> K -> bool) (x : K) (l : list K) : insert_sorted comp x l ≡ₚ x :: l.
Proof.
  induction l as [|y l IH]; simpl; [done|]. destruct (comp y x); [done|]. rewrite IH. apply Permutation_swap.
Qed.

Lemma sort_desc_perm {K} (comp : K -> K -> bool) (l : list K) : sort_desc comp l ≡ₚ l.
Proof. induction l as [|x l IH]; simpl; [done|]. by rewrite insert_sorted_perm, IH. Qed.

Lemma insert_sorted_desc {K} (comp : K -> K -> bool) (x : K) (l : list K) :
  swo_on comp (x :: l) -> sorted (flip comp) l -> sorted (flip comp) (insert_sorted comp x l).
Proof.
  intros Hswo. induction l as [|y l IH]; simpl; [done|]. intros [Hy Hl]. destruct (comp y x) eqn:E.
  - assert (comp x y = false) as Hxy.
    { destruct (comp x y) eqn:E'; [|done]. rewrite <- (swo_irrefl _ _ Hswo x) by (by left). symmetry.
      by apply (swo_trans _ _ Hswo x y x); [left|right; left|left| |]. }
    split; [constructor; [done|]|by split]. rewrite list.Forall_forall in Hy |- *. intros z Hz.
    apply (swo_weak _ _ Hswo x y z); [by left|by right; left|by right; right|done|by apply Hy].
  - split; [|apply IH; [|done]; eapply swo_on_incl; [|exact Hswo]; set_solver].
    rewrite list.Forall_forall in Hy |- *. intros z Hz. rewrite insert_sorted_perm in Hz.
    apply elem_of_cons in Hz as [->|Hz]; [done|by apply Hy].
Qed.

Lemma sort_desc_sorted {K} (comp : K -> K -> bool) (l : list K) : swo_on comp l -> sorted (flip comp) (sort_desc comp l).
Proof.
  induction l as [|x l IH]; intros Hswo; simpl; [done|]. apply insert_sorted_desc.
  - eapply swo_on_incl; [|exact Hswo]. intros y. by rewrite sort_desc_perm.
  - apply IH. eapply swo_on_incl; [|exact Hswo]. set_solver.
Qed.

Lemma sorted_heap {K} (comp : K -> K -> bool) (l : list K) : sorted (flip comp) l -> is_heap comp l.
Proof.
  intros Hs i x y Hi Hx Hy. assert ((i - 1) / 2 < i) as Hlt by (apply Nat.Div0.div_lt_upper_bound; lia).
  revert Hlt Hx Hy. generalize ((i - 1) / 2). clear Hi. revert i Hs.
  induction l as [|z l IH]; intros i Hs j Hlt Hx Hy; [done|]. destruct Hs as [Hz Hl]. destruct i as [|i]; [lia|]. destruct j as [|j]; simpl in *.
  - injection Hx as ->. rewrite list.Forall_forall in Hz. apply Hz. by eapply list_elem_of_lookup_2.
  - apply (IH i Hl j); [lia|done|done].
Qed.

#[refine] Instance sorted_std_heap : StdHeap := {|
  push_heap K comp l := sort_desc comp l;
  pop_heap K comp l := match l with [] => [] | x :: h => sort_desc comp h ++ [x] end |}.
Proof.
  - intros K comp h x Hswo _. split; [by apply sorted_heap, sort_desc_sorted|by apply sort_desc_perm].
  - intros K comp x h Hswo _. exists (sort_desc comp h). split_and!; [done| |by apply sort_desc_perm].
    apply sorted_heap, sort_desc_sorted. eapply swo_on_incl; [|exact Hswo]. set_solver.
Defined.

#[local] Instance nat_ltb_order : StrictWeakOrder Nat.ltb.
Proof.
  split.
  - intros x. apply Nat.ltb_irrefl.
  - intros x y z H1%Nat.ltb_lt H2%Nat.ltb_lt. apply Nat.ltb_lt. lia.
  - intros x y z H1%Nat.ltb_ge H2%Nat.ltb_ge. apply Nat.ltb_ge. lia.
Qed.

Lemma kmerge_correct_witness :
  exists s out, kmerge_by 20 Nat.ltb [as_seq [1; 4; 4]; as_seq []; as_seq [2; 4; 9]; as_seq [0]] = Some s /\
    collect_vec 20 s = Some out /\ sorted Nat.ltb out /\ out ≡ₚ [1; 4; 4; 2; 4; 9; 0].
Proof.
  destruct (kmerge_correct Nat.ltb [as_seq [1; 4; 4]; as_seq []; as_seq [2; 4; 9]; as_seq [0]] 20) as (s & out & E & Ec & Hs & Hp & _).
  - repeat constructor.
  - repeat constructor.
  - simpl. lia.
  - by exists s, out.
Defined.
