(* ===== verification/GroupBy.v ===== *)
(** * group_by: a sequence of sub-sequences that share their source

    [seq/group_by.hpp].  [GroupBy] yields one [SubGroup] per run of adjacent
    equal items.  A sub-group reads the source of the [GroupBy] it came from
    ([Attached]) until the next group is asked for: then it gets a private
    copy of the source ([Private]) and the source is advanced past its group.
    The state holds the [GroupBy] and all sub-groups that were handed out, so
    the pointers between them are explicit: [sub_group_] of the [GroupBy] is
    the number of the attached sub-group, and [group_by_] of a sub-group is
    its constructor.  A moved sub-group keeps its number. *)

From S2P Require Import Prelude Seq.
Open Scope nat_scope.

Section group_by.
Context {S A : Type} `{SeqLaws S A} (group_eq_ : A -> A -> bool).

(** What a [GroupBy] reads from: the source and the item read ahead. *)
(* @ src/batteries/seq/group_by.hpp 163-165 GroupBy *)
Record Source : Type := mkSource { seq_ : S; next_item_ : option A }.

(* @ src/batteries/seq/group_by.hpp 169-175 GroupBy::SubGroup *)
Inductive SubGroup : Type :=
| Null                          (* group_by_ == nullptr *)
| Attached                      (* group_by_ is the GroupBy *)
| Private (gb : Source).        (* group_by_ is private_group_by_ *)

(* @ src/batteries/seq/group_by.hpp 162-165 GroupBy *)
Record State : Type := mkState { main : Source; sub_group_ : option nat; subs : list SubGroup }.

(* @ src/batteries/seq/group_by.hpp 41-46 GroupBy::GroupBy *)
Definition group_by (fuel : nat) (s : S) : option State :=
  let* item, s' := next fuel s in Some (mkState (mkSource s' item) None []).

(** The part of [sub_group_next] that reads the source; the flag says that
    the group is at its end.  With no item left it returns [None]. *)
(* @ src/batteries/seq/group_by.hpp 376-393 GroupBy::sub_group_next *)
Definition advance (fuel : nat) (gb : Source) : option (option A * Source * bool) :=
  match next_item_ gb with
  | None => Some (None, gb, false)
  | Some x =>
      let* item, s' := next fuel (seq_ gb) in
      let at_end := match item with None => true | Some y => negb (group_eq_ x y) end in
      Some (Some x, mkSource s' item, at_end)
  end.

(** A temporary sub-group of the [GroupBy] is consumed. *)
(* @ src/batteries/seq/group_by.hpp 364-368 GroupBy::detach *)
Fixpoint consume_group (n fuel : nat) (gb : Source) : option Source :=
  match n with
  | 0 => None
  | Datatypes.S n' =>
      match advance fuel gb with
      | Some (_, gb', true) => Some gb'
      | Some (Some _, gb', false) => consume_group n' fuel gb'
      | Some (None, gb', false) => Some gb'
      | None => None
      end
  end.

(* @ src/batteries/seq/group_by.hpp 255-265 GroupBy::SubGroup::is_detached *)
Definition is_detached (sub : SubGroup) : bool := match sub with Attached => false | _ => true end.

(** [skip_advance] is true when the [GroupBy] itself is destroyed. *)
(* @ src/batteries/seq/group_by.hpp 347-372 GroupBy::detach *)
Definition detach (fuel i : nat) (skip_advance : bool) (st : State) : option (outcome State) :=
  match subs st !! i with
  | Some Attached =>
      if bool_decide (sub_group_ st = Some i) then
        let subs' := <[i := Private (main st)]> (subs st) in
        if skip_advance then Some (Done (mkState (main st) None subs'))
        else gb ← consume_group fuel fuel (main st); Some (Done (mkState gb None subs'))
      else Some Panic
  | _ => Some (Done st)
  end.

(** What an operation returns: a sub-group or an item. *)
Inductive Answer : Type := Group (i : option nat) | Item (x : option A).

Definition answer (a : Answer) (st : State) : option (outcome (Answer * State)) := Some (Done (a, st)).

(* @ src/batteries/seq/group_by.hpp 408-419 GroupBy::next *)
Definition group_next (fuel : nat) (st : State) : option (outcome (Answer * State)) :=
  r ← match sub_group_ st with Some i => detach fuel i false st | None => Some (Done st) end;
  match r with
  | Panic => Some Panic
  | Done st =>
      if bool_decide (sub_group_ st <> None) then Some Panic
      else
        match next_item_ (main st) with
        | None => answer (Group None) st
        | Some _ =>
            let i := length (subs st) in
            answer (Group (Some i)) (mkState (main st) (Some i) (subs st ++ [Attached]))
        end
  end.

(** The result is detached from the start; while a sub-group is attached, it
    is taken from a copy that has been advanced past the current group. *)
(* @ src/batteries/seq/group_by.hpp 395-406 GroupBy::peek *)
Definition group_peek (fuel : nat) (st : State) : option (outcome (Answer * State)) :=
  copy ← match sub_group_ st with Some _ => consume_group fuel fuel (main st) | None => Some (main st) end;
  match next_item_ copy with
  | None => answer (Group None) st
  | Some _ =>
      answer (Group (Some (length (subs st)))) (mkState (main st) (sub_group_ st) (subs st ++ [Private copy]))
  end.

(* @ src/batteries/seq/group_by.hpp 275-281 GroupBy::SubGroup::next *)
Definition sub_next (fuel i : nat) (st : State) : option (outcome (Answer * State)) :=
  match subs st !! i with
  | Some Attached =>
      match next_item_ (main st), sub_group_ st with
      | None, Some _ => Some Panic
      | _, _ =>
          r ← advance fuel (main st);
          let '(x, gb, at_end) := r in
          answer (Item x)
            (if at_end : bool then mkState gb None (<[i := Null]> (subs st)) else mkState gb (sub_group_ st) (subs st))
      end
  | Some (Private gb) =>
      match next_item_ gb with
      | None => Some Panic
      | Some _ =>
          r ← advance fuel gb;
          let '(x, gb', at_end) := r in
          answer (Item x)
            (mkState (main st) (sub_group_ st) (<[i := if at_end : bool then Null else Private gb']> (subs st)))
      end
  | _ => answer (Item None) st
  end.

(* @ src/batteries/seq/group_by.hpp 267-273 GroupBy::SubGroup::peek *)
Definition sub_peek (i : nat) (st : State) : option (outcome (Answer * State)) :=
  answer (Item match subs st !! i with
               | Some Attached => next_item_ (main st)
               | Some (Private gb) => next_item_ gb
               | _ => None
               end) st.

(* @ src/batteries/seq/group_by.hpp 226-231 GroupBy::SubGroup::~SubGroup *)
Definition sub_destroy (fuel i : nat) (st : State) : option (outcome (Answer * State)) :=
  r ← detach fuel i false st;
  match r with
  | Panic => Some Panic
  | Done st' => answer (Item None) (mkState (main st') (sub_group_ st') (<[i := Null]> (subs st')))
  end.

(* @ src/batteries/seq/group_by.hpp 314-328 GroupBy::SubGroup::copy_impl *)
Definition sub_copy (i : nat) (st : State) : option (outcome (Answer * State)) :=
  match subs st !! i with
  | Some sub =>
      let copy := match sub with Null => Null | Attached => Private (main st) | Private gb => Private gb end in
      answer (Group (Some (length (subs st)))) (mkState (main st) (sub_group_ st) (subs st ++ [copy]))
  | None => answer (Group None) st
  end.

Inductive Op : Type := GroupNext | GroupPeek | SubNext (i : nat) | SubPeek (i : nat) | SubDestroy (i : nat) | SubCopy (i : nat).

Definition exec (fuel : nat) (op : Op) (st : State) : option (outcome (Answer * State)) :=
  match op with
  | GroupNext => group_next fuel st
  | GroupPeek => group_peek fuel st
  | SubNext i => sub_next fuel i st
  | SubPeek i => sub_peek i st
  | SubDestroy i => sub_destroy fuel i st
  | SubCopy i => sub_copy i st
  end.

Fixpoint exec_all (fuel : nat) (ops : list Op) (st : State) : option (outcome (list Answer * State)) :=
  match ops with
  | [] => Some (Done ([], st))
  | op :: ops' =>
      r ← exec fuel op st;
      match r with
      | Panic => Some Panic
      | Done (a, st') =>
          r' ← exec_all fuel ops' st';
          Some (match r' with Panic => Panic | Done (l, st'') => Done (a :: l, st'') end)
      end
  end.

(** ** The specification: independent lists *)

(** The runs of adjacent items that [group_eq_] relates. *)
Fixpoint groups (l : list A) : list (list A) :=
  match l with
  | [] => []
  | x :: l' =>
      match l' with
      | [] => [[x]]
      | y :: _ =>
          if group_eq_ x y then match groups l' with g :: gs => (x :: g) :: gs | [] => [[x]] end
          else [x] :: groups l'
      end
  end.

(** The groups that were not handed out yet, and what is left of each
    sub-group. *)
Record Spec : Type := mkSpec { pending : list (list A); handed : list (list A) }.

Definition spec_exec (op : Op) (sp : Spec) : Answer * Spec :=
  match op with
  | GroupNext =>
      match pending sp with
      | [] => (Group None, sp)
      | g :: gs => (Group (Some (length (handed sp))), mkSpec gs (handed sp ++ [g]))
      end
  | GroupPeek =>
      match pending sp with
      | [] => (Group None, sp)
      | g :: _ => (Group (Some (length (handed sp))), mkSpec (pending sp) (handed sp ++ [g]))
      end
  | SubNext i => (Item (handed sp !! i ≫= head), mkSpec (pending sp) (alter tail i (handed sp)))
  | SubPeek i => (Item (handed sp !! i ≫= head), sp)
  | SubDestroy i => (Item None, mkSpec (pending sp) (<[i := []]> (handed sp)))
  | SubCopy i =>
      match handed sp !! i with
      | Some g => (Group (Some (length (handed sp))), mkSpec (pending sp) (handed sp ++ [g]))
      | None => (Group None, sp)
      end
  end.

Fixpoint spec_all (ops : list Op) (sp : Spec) : list Answer * Spec :=
  match ops with
  | [] => ([], sp)
  | op :: ops' => let '(a, sp') := spec_exec op sp in let '(l, sp'') := spec_all ops' sp' in (a :: l, sp'')
  end.

(** ** The source and its groups *)

Definition rest (gb : Source) : list A := option_list (next_item_ gb) ++ items (seq_ gb).

Definition source_ok (fuel : nat) (gb : Source) : Prop :=
  wf (seq_ gb) /\ (next_item_ gb = None -> items (seq_ gb) = []) /\ cost (seq_ gb) + length (rest gb) < fuel.

Lemma groups_cons (x : A) (l : list A) : exists g gs, groups (x :: l) = (x :: g) :: gs.
Proof.
  destruct l as [|y l]; [by exists [], []|]. simpl. destruct (group_eq_ x y); [|by eexists [], _].
  destruct (match l with [] => _ | _ => _ end) as [|g gs]; [by exists [], []|by exists g, gs].
Qed.

Lemma groups_nil (l : list A) : groups l = [] -> l = [].
Proof. destruct l as [|x l]; [done|]. by destruct (groups_cons x l) as (g & gs & ->). Qed.

Lemma rest_nil (fuel : nat) (gb : Source) : source_ok fuel gb -> next_item_ gb = None -> rest gb = [].
Proof. unfold rest. intros (_ & Hn & _) E. by rewrite E, Hn. Qed.

Lemma rest_some (gb : Source) (x : A) : next_item_ gb = Some x -> rest gb = x :: items (seq_ gb).
Proof. unfold rest. by intros ->. Qed.

Lemma advance_spec (fuel : nat) (gb : Source) (x : A) :
  source_ok fuel gb -> next_item_ gb = Some x ->
  exists gb' at_end g gs, advance fuel gb = Some (Some x, gb', at_end) /\ source_ok fuel gb' /\
    length (rest gb') < length (rest gb) /\
    groups (rest gb) = (x :: g) :: gs /\
    (if at_end : bool then g = [] /\ groups (rest gb') = gs
     else next_item_ gb' <> None /\ groups (rest gb') = g :: gs).
Proof.
  intros (Hw & Hn & Hf) E. unfold advance. rewrite E. unfold rest in *. rewrite E in *. simpl in *.
  pull_next (seq_ gb) s1 Hw1 Hi1 Hc1. simpl. destruct (items (seq_ gb)) as [|y l] eqn:El; simpl in *.
  - exists (mkSource s1 None), true, [], []. unfold source_ok, rest. simpl. rewrite Hi1. simpl. split_and!; done || lia.
  - assert (source_ok fuel (mkSource s1 (Some y))) as Hok.
    { unfold source_ok, rest. simpl. rewrite Hi1. split_and!; [done|done|simpl; lia]. }
    destruct (group_eq_ x y) eqn:Exy; simpl.
    + destruct (groups_cons y l) as (g & gs & Eg). simpl in Eg.
      exists (mkSource s1 (Some y)), false, (y :: g), gs. simpl. rewrite Hi1. simpl. rewrite Eg.
      split_and!; done || lia.
    + exists (mkSource s1 (Some y)), true, [], (groups (y :: l)). simpl. rewrite Hi1. split_and!; done || lia.
Qed.

Lemma consume_group_spec (n fuel : nat) (gb : Source) :
  source_ok fuel gb -> next_item_ gb <> None -> length (rest gb) < n ->
  exists gb', consume_group n fuel gb = Some gb' /\ source_ok fuel gb' /\
    groups (rest gb') = tail (groups (rest gb)).
Proof.
  revert gb. induction n as [|n IH]; intros gb Hok Hnext Hn; [lia|]. simpl.
  destruct (next_item_ gb) as [x|] eqn:E; [clear Hnext|done].
  destruct (advance_spec fuel gb x Hok E) as (gb' & [] & g & gs & -> & Hok' & Hlen & Eg & Hend).
  - destruct Hend as [-> Hg]. exists gb'. by rewrite Eg, Hg.
  - destruct Hend as [Hnext Hg]. destruct (IH gb' Hok' Hnext) as (gb2 & -> & Hok2 & Hg2); [lia|].
    exists gb2. split; [done|]. split; [done|]. by rewrite Hg2, Hg, Eg.
Qed.

(** ** Refinement *)

(** What is left of a sub-group. *)
Definition contents (st : State) (sub : SubGroup) : list A :=
  match sub with
  | Null => []
  | Attached => default [] (head (groups (rest (main st))))
  | Private gb => default [] (head (groups (rest gb)))
  end.

Definition sub_ok (fuel : nat) (st : State) (i : nat) (sub : SubGroup) : Prop :=
  match sub with
  | Null => True
  | Attached => sub_group_ st = Some i
  | Private gb => source_ok fuel gb /\ next_item_ gb <> None
  end.

Record represents (fuel : nat) (st : State) (sp : Spec) : Prop := {
  rep_main : source_ok fuel (main st);
  rep_sub : forall i, sub_group_ st = Some i -> subs st !! i = Some Attached /\ next_item_ (main st) <> None;
  rep_subs : forall i sub, subs st !! i = Some sub -> sub_ok fuel st i sub;
  rep_pending : pending sp = (if sub_group_ st then tail (groups (rest (main st))) else groups (rest (main st)));
  rep_handed : handed sp = contents st <$> subs st }.

Lemma some_group (fuel : nat) (gb : Source) :
  source_ok fuel gb -> next_item_ gb <> None -> exists g gs, groups (rest gb) = g :: gs.
Proof.
  intros Hok Hn. destruct (next_item_ gb) as [x|] eqn:E; [|done]. rewrite (rest_some _ _ E).
  destruct (groups_cons x (items (seq_ gb))) as (g & gs & ->). by eexists _, _.
Qed.

Lemma no_group (fuel : nat) (gb : Source) :
  source_ok fuel gb -> next_item_ gb = None -> groups (rest gb) = [].
Proof. intros Hok Hn. by rewrite (rest_nil fuel). Qed.

(** The contents of the other sub-groups do not depend on the [GroupBy]. *)
Lemma contents_detached (st st' : State) (sub : SubGroup) :
  is_detached sub = true -> contents st' sub = contents st sub.
Proof. by destruct sub. Qed.

Lemma other_detached (fuel : nat) (st : State) (sp : Spec) (i : nat) (sub : SubGroup) :
  represents fuel st sp -> subs st !! i = Some sub -> sub_group_ st <> Some i -> is_detached sub = true.
Proof. intros [_ _ Hsubs _ _] Hi Hne. specialize (Hsubs i sub Hi). by destruct sub. Qed.

Lemma handed_lookup (fuel : nat) (st : State) (sp : Spec) (i : nat) :
  represents fuel st sp -> handed sp !! i = contents st <$> subs st !! i.
Proof. intros [_ _ _ _ ->]. apply list_lookup_fmap. Qed.

(** Sub-group [i] becomes [sub'], whose contents are [g], and the other
    sub-groups are detached. *)
Lemma fmap_contents_insert (st st' : State) (i : nat) (sub' : SubGroup) (g : list A) :
  (forall j sub, j <> i -> subs st !! j = Some sub -> contents st' sub = contents st sub) ->
  contents st' sub' = g ->
  contents st' <$> <[i := sub']> (subs st) = <[i := g]> (contents st <$> subs st).
Proof.
  intros Ho Hg. apply list_eq. intros j. rewrite list_lookup_fmap.
  destruct (decide (j = i)) as [->|Hne].
  - destruct (decide (i < length (subs st))) as [Hl|Hl].
    + rewrite !list_lookup_insert_eq by (rewrite ?length_fmap; done). simpl. by rewrite Hg.
    + rewrite !list_insert_ge, list_lookup_fmap by (rewrite ?length_fmap; lia).
      by rewrite lookup_ge_None_2 by lia.
  - rewrite !list_lookup_insert_ne by done. rewrite list_lookup_fmap.
    destruct (subs st !! j) as [sub|] eqn:Hj; simpl; [|done]. f_equal. by apply (Ho j).
Qed.

(** The attached sub-group, if there is one, is detached and the [GroupBy]
    has moved on to the next group. *)
Lemma detach_spec (fuel i : nat) (st : State) (sp : Spec) :
  represents fuel st sp ->
  exists st', detach fuel i false st = Some (Done st') /\ represents fuel st' sp /\
    length (subs st') = length (subs st) /\
    (sub_group_ st' = None \/ (sub_group_ st' = sub_group_ st /\ subs st !! i <> Some Attached)).
Proof.
  intros Hrep. pose proof Hrep as [Hok Hsub Hsubs Hp Hh]. unfold detach.
  destruct (subs st !! i) as [[| |gb]|] eqn:Hi; try (by exists st; split_and!; [..|right]).
  pose proof (Hsubs i _ Hi) as Hsg. simpl in Hsg. rewrite bool_decide_eq_true_2 by done.
  destruct (Hsub i Hsg) as [_ Hnext].
  assert (length (rest (main st)) < fuel) as Hlen by (destruct Hok as (_ & _ & Hf); lia).
  destruct (consume_group_spec fuel fuel (main st) Hok Hnext Hlen) as (gb & -> & Hok' & Hg). simpl.
  eexists. split; [done|]. split; [|split; [simpl; by rewrite length_insert|by left]]. split; simpl.
  - done.
  - done.
  - intros j sub Hj. destruct (list_insert_cases _ _ _ _ _ _ Hi Hj) as [[-> ->]|[Hne Hj']]; simpl; [done|].
    specialize (Hsubs j sub Hj'). destruct sub; simpl in *; try done. congruence.
  - by rewrite Hp, Hsg, Hg.
  - rewrite Hh. rewrite (fmap_contents_insert st _ i _ (default [] (head (groups (rest (main st)))))).
    + symmetry. apply list_insert_id. by rewrite list_lookup_fmap, Hi.
    + intros j sub Hne Hj. apply contents_detached. apply (other_detached fuel st sp j); [done|done|]. congruence.
    + done.
Qed.

Lemma group_next_spec (fuel : nat) (st : State) (sp : Spec) :
  represents fuel st sp ->
  exists st', group_next fuel st = Some (Done ((spec_exec GroupNext sp).1, st')) /\
    represents fuel st' (spec_exec GroupNext sp).2.
Proof.
  intros Hrep. unfold group_next.
  assert (exists st1, match sub_group_ st with Some i => detach fuel i false st | None => Some (Done st) end =
      Some (Done st1) /\ represents fuel st1 sp /\ sub_group_ st1 = None) as (st1 & -> & [Hok Hsub Hsubs Hp Hh] & Hn).
  { destruct (sub_group_ st) as [i|] eqn:Hsg; [|by exists st].
    destruct (detach_spec fuel i st sp Hrep) as (st1 & E & Hrep1 & _ & Hd). exists st1. split; [done|]. split; [done|].
    destruct Hd as [?|[_ Hd]]; [done|]. destruct (rep_sub _ _ _ Hrep i Hsg) as [? _]. done. }
  simpl. rewrite Hn in *. rewrite bool_decide_eq_false_2 by congruence.
  destruct (next_item_ (main st1)) as [x|] eqn:E.
  - destruct (some_group fuel (main st1) Hok) as (g & gs & Eg); [congruence|].
    unfold answer. rewrite Hp, Eg. simpl. rewrite Hh, length_fmap.
    eexists. split; [done|]. split; simpl.
    + done.
    + intros i [= <-]. split; [|congruence]. by apply list_lookup_middle.
    + intros i sub Hi. apply lookup_snoc_Some in Hi as [[Hl Hi]|[-> <-]]; [|done].
      specialize (Hsubs i sub Hi). destruct sub; simpl in *; try done. congruence.
    + by rewrite Eg.
    + rewrite fmap_app. simpl. by rewrite Eg.
  - rewrite Hp, (no_group fuel) by done. exists st1. split; [done|]. split; rewrite ?Hn; done.
Qed.

Lemma snoc_represents (fuel : nat) (st : State) (sp : Spec) (sub : SubGroup) (g : list A) :
  represents fuel st sp -> is_detached sub = true -> sub_ok fuel st (length (subs st)) sub -> contents st sub = g ->
  represents fuel (mkState (main st) (sub_group_ st) (subs st ++ [sub])) (mkSpec (pending sp) (handed sp ++ [g])).
Proof.
  intros [Hok Hsub Hsubs Hp Hh] Hd Hs Hg. split; simpl; try done.
  - intros i Hi. destruct (Hsub i Hi) as [Hl ?]. split; [|done]. by apply lookup_app_l_Some.
  - intros i q Hi. apply lookup_snoc_Some in Hi as [[Hl Hi]|[-> <-]]; [by apply Hsubs in Hi; destruct q|by destruct sub].
  - rewrite fmap_app, Hh, <- Hg. done.
Qed.

Lemma group_peek_spec (fuel : nat) (st : State) (sp : Spec) :
  represents fuel st sp ->
  exists st', group_peek fuel st = Some (Done ((spec_exec GroupPeek sp).1, st')) /\
    represents fuel st' (spec_exec GroupPeek sp).2.
Proof.
  intros Hrep. pose proof Hrep as [Hok Hsub Hsubs Hp Hh]. unfold group_peek.
  assert (exists copy, match sub_group_ st with Some _ => consume_group fuel fuel (main st) | None => Some (main st) end =
    Some copy /\ source_ok fuel copy /\ groups (rest copy) = pending sp) as (copy & -> & Hokc & Hpc).
  { destruct (sub_group_ st) as [i|] eqn:Hsg; [|by exists (main st)].
    destruct (Hsub i eq_refl) as [_ Hnext]. destruct (consume_group_spec fuel fuel (main st) Hok Hnext) as (gb & E & ? & Hg).
    - destruct Hok as (_ & _ & Hf). lia.
    - exists gb. by rewrite Hp. }
  simpl. rewrite <- Hpc. destruct (next_item_ copy) as [x|] eqn:E.
  - destruct (some_group fuel copy Hokc) as (g & gs & Eg); [congruence|]. rewrite Eg. simpl. rewrite Hh, length_fmap.
    eexists. split; [done|]. rewrite <- Hh. rewrite <- Eg, Hpc. apply snoc_represents; try done.
    + simpl. split; [done|congruence].
    + simpl. by rewrite Eg.
  - rewrite (no_group fuel) by done. by exists st.
Qed.

Lemma sub_peek_spec (fuel i : nat) (st : State) (sp : Spec) :
  represents fuel st sp ->
  exists st', sub_peek i st = Some (Done ((spec_exec (SubPeek i) sp).1, st')) /\
    represents fuel st' (spec_exec (SubPeek i) sp).2.
Proof.
  intros Hrep. exists st. split; [|done]. unfold sub_peek. simpl. rewrite (handed_lookup fuel st) by done.
  assert (forall gb, source_ok fuel gb -> next_item_ gb = default [] (head (groups (rest gb))) !! 0) as Hg.
  { intros gb Hok. destruct (next_item_ gb) as [x|] eqn:E.
    - rewrite (rest_some _ _ E). destruct (groups_cons x (items (seq_ gb))) as (g & gs & ->). done.
    - by rewrite (no_group fuel). }
  unfold answer. do 4 f_equal. destruct (subs st !! i) as [[| |gb]|] eqn:Hi; simpl; try done.
  - rewrite Hg by apply Hrep. by destruct (default _ _).
  - rewrite Hg by apply (rep_subs _ _ _ Hrep i _ Hi). by destruct (default _ _).
Qed.

Lemma sub_next_spec (fuel i : nat) (st : State) (sp : Spec) :
  represents fuel st sp ->
  exists st', sub_next fuel i st = Some (Done ((spec_exec (SubNext i) sp).1, st')) /\
    represents fuel st' (spec_exec (SubNext i) sp).2.
Proof.
  intros Hrep. pose proof Hrep as [Hok Hsub Hsubs Hp Hh]. unfold sub_next. simpl. rewrite (handed_lookup fuel st) by done.
  assert (forall g, handed sp !! i = Some g -> alter tail i (handed sp) = <[i := tail g]> (handed sp)) as Halt.
  { intros g Hg. apply list_eq. intros j. destruct (decide (j = i)) as [->|Hne].
    - rewrite list_lookup_alter_eq, Hg, list_lookup_insert_eq by (by apply lookup_lt_Some in Hg). done.
    - by rewrite list_lookup_alter_ne, list_lookup_insert_ne. }
  rewrite (handed_lookup fuel st) in Halt by done.
  destruct (subs st !! i) as [[| |gb]|] eqn:Hi; simpl in *.
  - rewrite (Halt [] eq_refl). simpl. rewrite list_insert_id; [by exists st; destruct sp|]. by rewrite (handed_lookup fuel st), Hi.
  - pose proof (Hsubs i _ Hi) as Hsg. simpl in Hsg. rewrite Hsg. destruct (Hsub i Hsg) as [_ Hnext].
    destruct (next_item_ (main st)) as [x|] eqn:E; [|done].
    destruct (advance_spec fuel (main st) x Hok E) as (gb' & at_end & g & gs & -> & Hok' & _ & Eg & Hend). simpl.
    rewrite (Halt _ eq_refl), Eg. simpl. eexists. split; [done|].
    assert (forall st' j sub, j <> i -> subs st !! j = Some sub -> contents st' sub = contents st sub) as Ho.
    { intros st' j sub Hne Hj. apply contents_detached. apply (other_detached fuel st sp j); [done|done|]. congruence. }
    destruct at_end; destruct Hend as [Hend Hg].
    + split; simpl; try done.
      * intros j sub Hj. destruct (list_insert_cases _ _ _ _ _ _ Hi Hj) as [[-> ->]|[Hne Hj']]; [done|].
        specialize (Hsubs j sub Hj'). destruct sub; simpl in *; try done. congruence.
      * by rewrite Hp, Hsg, Eg, Hg.
      * rewrite Hh. subst g. symmetry. apply fmap_contents_insert; [|done]. apply Ho.
    + split; simpl; try done.
      * by intros j [= <-].
      * intros j sub Hj. specialize (Hsubs j sub Hj). destruct sub; simpl in *; [done|congruence|done].
      * by rewrite Hp, Hsg, Eg, Hg.
      * rewrite Hh, <- (fmap_contents_insert st (mkState gb' (Some i) (subs st)) i Attached g);
          [by rewrite list_insert_id|apply Ho|simpl; by rewrite Hg].
  - destruct (Hsubs i _ Hi) as [Hokg Hnext]. destruct (next_item_ gb) as [x|] eqn:E; [|done].
    destruct (advance_spec fuel gb x Hokg E) as (gb' & at_end & g & gs & -> & Hok' & _ & Eg & Hend). simpl.
    rewrite (Halt _ eq_refl), Eg. simpl. eexists. split; [done|]. split; simpl; try done.
    + intros j Hj. destruct (Hsub j Hj) as [Hj' ?]. split; [|done]. rewrite list_lookup_insert_ne; [done|]. intros ->. congruence.
    + intros j sub Hj. destruct (list_insert_cases _ _ _ _ _ _ Hi Hj) as [[-> ->]|[Hne Hj']].
      * destruct at_end; [done|]. simpl. split; [done|]. apply Hend.
      * specialize (Hsubs j sub Hj'). by destruct sub.
    + rewrite Hh. symmetry. apply fmap_contents_insert; [by intros j [| |] _ _|].
      destruct at_end; destruct Hend as [Hend Hg]; simpl; [by subst g|]. by rewrite Hg.
  - exists st. split; [done|]. assert (alter tail i (handed sp) = handed sp) as ->; [|by destruct sp].
    apply list_eq. intros j. destruct (decide (j = i)) as [->|Hne]; [|by rewrite list_lookup_alter_ne].
    rewrite list_lookup_alter_eq, (handed_lookup fuel st), Hi by done. done.
Qed.

Lemma sub_destroy_spec (fuel i : nat) (st : State) (sp : Spec) :
  represents fuel st sp ->
  exists st', sub_destroy fuel i st = Some (Done ((spec_exec (SubDestroy i) sp).1, st')) /\
    represents fuel st' (spec_exec (SubDestroy i) sp).2.
Proof.
  intros Hrep. unfold sub_destroy. destruct (detach_spec fuel i st sp Hrep) as (st1 & -> & Hrep1 & Hlen & Hd). simpl.
  eexists. split; [done|]. pose proof Hrep1 as [Hok Hsub Hsubs Hp Hh].
  assert (forall j, sub_group_ st1 = Some j -> j <> i) as Hne.
  { intros j Hj ->. destruct Hd as [?|[Hs Hna]]; [congruence|]. rewrite Hs in Hj.
    destruct (rep_sub _ _ _ Hrep i Hj) as [? _]. done. }
  split; simpl; try done.
  - intros j Hj. destruct (Hsub j Hj) as [? ?]. split; [|done]. rewrite list_lookup_insert_ne by (by intros ->; apply (Hne j)). done.
  - intros j sub Hj. destruct (decide (j = i)) as [->|Hji].
    + destruct (subs st1 !! i) as [q|] eqn:Hq.
      * rewrite list_lookup_insert_eq in Hj by (by apply lookup_lt_Some in Hq). by injection Hj as <-.
      * rewrite list_insert_ge in Hj by (by apply lookup_ge_None). congruence.
    + rewrite list_lookup_insert_ne in Hj by done. specialize (Hsubs j sub Hj). by destruct sub.
  - rewrite Hh. symmetry. apply fmap_contents_insert; [by intros j [| |] _ _|done].
Qed.

Lemma sub_copy_spec (fuel i : nat) (st : State) (sp : Spec) :
  represents fuel st sp ->
  exists st', sub_copy i st = Some (Done ((spec_exec (SubCopy i) sp).1, st')) /\
    represents fuel st' (spec_exec (SubCopy i) sp).2.
Proof.
  intros Hrep. unfold sub_copy. simpl. rewrite (handed_lookup fuel st) by done.
  pose proof Hrep as [Hok Hsub Hsubs Hp Hh]. destruct (subs st !! i) as [sub|] eqn:Hi; simpl; [|by exists st].
  rewrite Hh, length_fmap, <- Hh. eexists. split; [done|]. specialize (Hsubs i sub Hi).
  apply snoc_represents; try done; by destruct sub; simpl in *; try done; destruct (Hsub i Hsubs).
Qed.

Lemma exec_spec (fuel : nat) (op : Op) (st : State) (sp : Spec) :
  represents fuel st sp ->
  exists st', exec fuel op st = Some (Done ((spec_exec op sp).1, st')) /\ represents fuel st' (spec_exec op sp).2.
Proof.
  destruct op; simpl exec; auto using group_next_spec, group_peek_spec, sub_next_spec, sub_peek_spec, sub_destroy_spec, sub_copy_spec.
Qed.

Lemma exec_all_spec (fuel : nat) (ops : list Op) (st : State) (sp : Spec) :
  represents fuel st sp ->
  exists st', exec_all fuel ops st = Some (Done ((spec_all ops sp).1, st')) /\ represents fuel st' (spec_all ops sp).2.
Proof.
  revert st sp. induction ops as [|op ops IH]; intros st sp Hrep; simpl; [by exists st|].
  destruct (exec_spec fuel op st sp Hrep) as (st1 & -> & Hrep1). simpl.
  destruct (spec_exec op sp) as [a sp1]. destruct (IH st1 sp1 Hrep1) as (st2 & -> & Hrep2). simpl in *.
  destruct (spec_all ops sp1) as [l sp2]. simpl in *. by exists st2.
Qed.

(** C22: [group_by] splits a sequence into its runs of related neighbours, and
    the sub-groups it hands out are independent of each other and of the
    [GroupBy]: whatever the client calls, in any order ([next] and [peek] on
    the [GroupBy], [next], [peek], copy and destruction of any sub-group), the
    answers are those of lists that share nothing; no assertion fails. *)
Theorem group_by_independent (s : S) (ops : list Op) (fuel : nat) :
  wf s -> cost s + length (items s) < fuel ->
  exists st st', group_by fuel s = Some st /\
    exec_all fuel ops st = Some (Done ((spec_all ops (mkSpec (groups (items s)) [])).1, st')) /\
    concat (groups (items s)) = items s /\
    (forall g, g ∈ groups (items s) -> g <> [] /\
       forall i x y, g !! i = Some x -> g !! (i + 1) = Some y -> group_eq_ x y = true).
Proof.
  intros Hw Hf. unfold group_by. pull_next s s1 Hw1 Hi1 Hc1. simpl.
  set (st := mkState (mkSource s1 (head (items s))) None []).
  assert (rest (mkSource s1 (head (items s))) = items s) as Hrest.
  { unfold rest. simpl. rewrite Hi1. by destruct (items s). }
  assert (represents fuel st (mkSpec (groups (items s)) [])) as Hrep.
  { split; simpl; try done.
    - unfold source_ok. simpl. split_and!; [done| |rewrite Hrest; lia].
      rewrite Hi1. by destruct (items s).
    - by rewrite Hrest. }
  destruct (exec_all_spec fuel ops st _ Hrep) as (st' & E & _). exists st, st'. split; [done|]. split; [done|].
  clear. induction (items s) as [|x l [IH1 IH2]]; [split; [done|]; by intros g Hg%elem_of_nil|].
  destruct l as [|y l].
  - split; [done|]. intros g [->|Hg]%elem_of_cons; [|by apply elem_of_nil in Hg]. split; [done|].
    intros [|i] a b Ha Hb; [done|done].
  - destruct (groups_cons y l) as (g1 & gs & Eg). rewrite Eg in *.
    assert (groups (x :: y :: l) = if group_eq_ x y then (x :: y :: g1) :: gs else [x] :: (y :: g1) :: gs) as ->.
    { change (groups (x :: y :: l)) with (if group_eq_ x y then match groups (y :: l) with g :: gs => (x :: g) :: gs | [] => [[x]] end
        else [x] :: groups (y :: l)). by rewrite Eg. }
    simpl in IH1. destruct (group_eq_ x y) eqn:Exy; simpl.
    + split; [by rewrite <- IH1|]. intros g [->|Hg]%elem_of_cons; [|apply IH2; by right]. split; [done|].
      intros [|i] a b Ha Hb; simpl in *; [congruence|]. apply (IH2 (y :: g1)) with (i := i); [by left|done|done].
    + split; [by rewrite <- IH1|]. intros g [->|Hg]%elem_of_cons; [|by apply IH2]. split; [done|].
      intros [|i] a b Ha Hb; done.
Qed.

End group_by.

(** ** Witness *)

Definition sample : SubRangeSeq Z := as_seq [1%Z; 3%Z; 2%Z; 4%Z; 5%Z].

Definition same_parity (x y : Z) : bool := eqb (Z.even x) (Z.even y).

(** Two groups are read alternately, the first one while the second is the
    current group of the [GroupBy]. *)
Definition sample_ops : list Op :=
  [GroupNext; SubNext 0; GroupPeek; GroupNext; SubNext 2; SubNext 0; SubNext 0; SubNext 1; SubNext 2; GroupNext; SubPeek 3].

Lemma group_by_independent_witness :
  exists st st', group_by 20 sample = Some st /\
    exec_all same_parity 20 sample_ops st =
      Some (Done ([Group (Some 0); Item (Some 1%Z); Group (Some 1); Group (Some 2); Item (Some 2%Z); Item (Some 3%Z);
        Item None; Item (Some 2%Z); Item (Some 4%Z); Group (Some 3); Item (Some 5%Z)], st')).
Proof.
  destruct (group_by_independent same_parity sample sample_ops 20) as (st & st' & H1 & H2 & _);
    [done|vm_compute; lia|]. exists st, st'. split; [done|]. exact H2.
Defined.
