(* ===== verification/ModelChecker.v ===== *)
(** * The model checker: one shard

    [state_machine_model.hpp], [state_machine_model/entropy_source.hpp],
    [state_machine_model/exhaustive_model_checker.hpp].  A user's model is a
    parameter: an object with a state, whose [step] may call [pick_int] any
    number of times.  A branch is a state together with the picks to make
    first; the checker turns every value of every pick into a branch.  This
    file models what one shard does with one branch; [ModelCheckMesh] runs the
    shards. *)

From S2P Require Export Prelude.
From S2P Require Export RadixQueue.
Open Scope Z_scope.

(** ** Results *)

(** The times and rates of a result are not modelled. *)
(* @ src/batteries/state_machine_model/state_machine_result.hpp 20-33 StateMachineResult *)
Record StateMachineResult : Type := mkResult {
  ok : bool;
  branch_push_count : Z;
  branch_pop_count : Z;
  branch_miss_count : Z;
  state_count : Z;
  self_branch_count : Z;
  shards : Z;
  seed : option Z }.

(* @ src/batteries/state_machine_model/state_machine_result.hpp 21-32 StateMachineResult *)
Definition new_result : StateMachineResult := mkResult false 0 0 0 0 0 0 None.

(* @ src/batteries/state_machine_model/state_machine_result.hpp 56-78 combine_results *)
Definition combine_results (a b : StateMachineResult) : StateMachineResult :=
  {| ok := ok a && ok b;
     branch_push_count := u64 (branch_push_count a + branch_push_count b);
     branch_pop_count := u64 (branch_pop_count a + branch_pop_count b);
     branch_miss_count := u64 (branch_miss_count a + branch_miss_count b);
     state_count := u64 (state_count a + state_count b);
     self_branch_count := u64 (self_branch_count a + self_branch_count b);
     shards := Z.lor (shards a) (shards b);
     seed := match seed a with Some s => Some s | None => seed b end |}.

(** ** The model *)

(** The code of [step]: it returns, or it calls [pick_int] and goes on with
    the value it gets. *)
Inductive Step (M : Type) : Type :=
| Return (m : M)
| PickInt (min_value max_value : Z) (k : Z -> Step M).
Arguments Return {M} m.
Arguments PickInt {M} min_value max_value k.

(** The methods a model implements.  [M] is the type of the object. *)
(* @ src/batteries/state_machine_model.hpp 115-146 StateMachineModel *)
Record StateMachineModel (St M : Type) : Type := mkModel {
  initialize : St;
  enter_state : St -> M -> M;
  step : M -> Step M;
  leave_state : M -> St;
  check_invariants : M -> bool;
  normalize : St -> St }.
Arguments initialize {St M} _.
Arguments enter_state {St M} _ _ _.
Arguments step {St M} _ _.
Arguments leave_state {St M} _ _.
Arguments check_invariants {St M} _ _.
Arguments normalize {St M} _ _.

(* @ src/batteries/state_machine_model/entropy_source.hpp 53-58 BasicStateMachineEntropySource::pick_branch *)
Definition pick_branch {M} (k : bool -> Step M) : Step M := PickInt 0 1 (fun i => k (i =? 0)).

(** [values] is not empty. *)
(* @ src/batteries/state_machine_model/entropy_source.hpp 60-67 BasicStateMachineEntropySource::pick_one_of *)
Definition pick_one_of {M T} (value : T) (values : list T) (k : T -> Step M) : Step M :=
  PickInt 0 (Z.of_nat (length (value :: values)) - 1)
    (fun index => k (nth (Z.to_nat index) (value :: values) value)).

(* @ src/batteries/state_machine_model/entropy_source.hpp 86-97 BasicStateMachineEntropySource::do_one_of *)
Definition do_one_of {M} (action : Step M) (actions : list (Step M)) : Step M :=
  pick_one_of action actions id.

(** ** The checker of one shard *)

(* @ src/batteries/state_machine_model/exhaustive_model_checker.hpp 23-32 StateMachineBranch *)
Record Branch (St : Type) : Type := mkBranch { snapshot : St; delta : RadixQueue }.
Arguments mkBranch {St} _ _.
Arguments snapshot {St} _.
Arguments delta {St} _.

(* @ src/batteries/state_machine_model/state_machine_traits.hpp 15-18 StateMachineTraits::kRadixQueueSize *)
Definition kRadixQueueSize : nat := 256.

Definition new_delta : RadixQueue := new_queue kRadixQueueSize.

(* @ src/batteries/state_machine_model.hpp 51-54 StateMachineModel::VisitResult *)
Inductive VisitResult : Type := kFirstTime | kSeenBefore.

(** [sent] holds the branches that were handed to the mesh, with their
    destinations, since it was last emptied. *)
(* @ src/batteries/state_machine_model/exhaustive_model_checker.hpp 91-99 ExhaustiveModelChecker *)
Record Checker (St M : Type) `{Countable St} : Type := mkChecker {
  model_ : M;
  visited_ : gmap St (Branch St);
  current_branch_ : option (Branch St);
  history_ : RadixQueue;
  queue_ : list (Branch St);
  result_ : StateMachineResult;
  sent : list (nat * Branch St) }.
Arguments mkChecker {St M _ _} _ _ _ _ _ _ _.
Arguments model_ {St M _ _} _.
Arguments visited_ {St M _ _} _.
Arguments current_branch_ {St M _ _} _.
Arguments history_ {St M _ _} _.
Arguments queue_ {St M _ _} _.
Arguments result_ {St M _ _} _.
Arguments sent {St M _ _} _.

Section Operations.
Context `{Countable St, !Inhabited St} {M : Type}.
Notation Branch := (Branch St).
Notation Checker := (Checker St M).
Variable mdl : StateMachineModel St M.

(** The hash of a branch. *)
Variable hash : Branch -> Z.

(** The number of shards, and the one this checker works for. *)
Variable (shard_count shard_i : nat).

Definition set_model (m : M) (c : Checker) : Checker :=
  mkChecker m (visited_ c) (current_branch_ c) (history_ c) (queue_ c) (result_ c) (sent c).

Definition set_visited (v : gmap St Branch) (c : Checker) : Checker :=
  mkChecker (model_ c) v (current_branch_ c) (history_ c) (queue_ c) (result_ c) (sent c).

Definition set_current (b : option Branch) (c : Checker) : Checker :=
  mkChecker (model_ c) (visited_ c) b (history_ c) (queue_ c) (result_ c) (sent c).

Definition set_history (h : RadixQueue) (c : Checker) : Checker :=
  mkChecker (model_ c) (visited_ c) (current_branch_ c) h (queue_ c) (result_ c) (sent c).

Definition set_queue (q : list Branch) (c : Checker) : Checker :=
  mkChecker (model_ c) (visited_ c) (current_branch_ c) (history_ c) q (result_ c) (sent c).

Definition set_result (r : StateMachineResult) (c : Checker) : Checker :=
  mkChecker (model_ c) (visited_ c) (current_branch_ c) (history_ c) (queue_ c) r (sent c).

Definition set_sent (s : list (nat * Branch)) (c : Checker) : Checker :=
  mkChecker (model_ c) (visited_ c) (current_branch_ c) (history_ c) (queue_ c) (result_ c) s.

Definition set_ok (o : bool) (r : StateMachineResult) : StateMachineResult :=
  mkResult o (branch_push_count r) (branch_pop_count r) (branch_miss_count r) (state_count r)
    (self_branch_count r) (shards r) (seed r).

Definition add_push (n : Z) (r : StateMachineResult) : StateMachineResult :=
  mkResult (ok r) (u64 (branch_push_count r + n)) (branch_pop_count r) (branch_miss_count r) (state_count r)
    (self_branch_count r) (shards r) (seed r).

Definition add_pop (r : StateMachineResult) : StateMachineResult :=
  mkResult (ok r) (branch_push_count r) (u64 (branch_pop_count r + 1)) (branch_miss_count r) (state_count r)
    (self_branch_count r) (shards r) (seed r).

Definition add_miss (r : StateMachineResult) : StateMachineResult :=
  mkResult (ok r) (branch_push_count r) (branch_pop_count r) (u64 (branch_miss_count r + 1)) (state_count r)
    (self_branch_count r) (shards r) (seed r).

Definition set_state_count (n : Z) (r : StateMachineResult) : StateMachineResult :=
  mkResult (ok r) (branch_push_count r) (branch_pop_count r) (branch_miss_count r) n
    (self_branch_count r) (shards r) (seed r).

Definition add_self_branch (r : StateMachineResult) : StateMachineResult :=
  mkResult (ok r) (branch_push_count r) (branch_pop_count r) (branch_miss_count r) (state_count r)
    (u64 (self_branch_count r + 1)) (shards r) (seed r).

(** The branch that makes no picks before [step] does. *)
Definition root_branch (s : St) : Branch := mkBranch s new_delta.

(* @ src/batteries/state_machine_model/parallel_model_check_state.hpp 239-239 ParallelModelCheckState::hash_space_per_shard *)
Definition hash_space_per_shard : Z := u64_max / Z.of_nat shard_count.

(* @ src/batteries/state_machine_model/parallel_model_check_state.hpp 84-90 ParallelModelCheckState::find_shard *)
Definition find_shard (branch : Branch) : nat := Z.to_nat (hash branch / hash_space_per_shard).

(** Indexing [send_queues] out of range is undefined: [Panic]. *)
(* @ src/batteries/state_machine_model/exhaustive_model_checker.hpp 170-190 ExhaustiveModelChecker::explore *)
Definition explore (branch : Branch) (force_send : bool) (c : Checker) : outcome Checker :=
  let dst_i := find_shard branch in
  let c1 := if (dst_i =? shard_i)%nat then c else set_result (add_miss (result_ c)) c in
  if (dst_i =? shard_i)%nat && negb force_send then
    mret (set_queue (queue_ c1 ++ [branch]) (set_result (add_push 1 (result_ c1)) c1))
  else
    check (dst_i <? shard_count)%nat;;
    mret (set_sent (sent c1 ++ [(dst_i, branch)]) c1).

(** [*this->current_branch_] *)
Definition get_current (c : Checker) : outcome Branch :=
  match current_branch_ c with Some b => Done b | None => Panic end.

(** The loop that queues a branch for each value but the first. *)
(* @ src/batteries/state_machine_model/exhaustive_model_checker.hpp 150-162 ExhaustiveModelChecker::pick_int *)
Fixpoint explore_values (radix : Z) (values : list Z) (c : Checker) : outcome Checker :=
  match values with
  | [] => mret c
  | value :: values' =>
      b ← get_current c;
      d ← push (history_ c) radix value;
      c' ← explore (mkBranch (snapshot b) d) false c;
      explore_values radix values' c'
  end.

(* @ src/batteries/state_machine_model/exhaustive_model_checker.hpp 127-168 ExhaustiveModelChecker::pick_int *)
Definition pick_int (min_value max_value : Z) (c : Checker) : outcome (Z * Checker) :=
  if min_value =? max_value then mret (min_value, c) else
  check (min_value <? max_value);;
  let radix := u64 (max_value - min_value + 1) in
  b ← get_current c;
  e ← empty (delta b);
  if negb e then
    '(value, d) ← pop (delta b) radix;
    h ← push (history_ c) radix value;
    mret (u64 (min_value + value), set_history h (set_current (Some (mkBranch (snapshot b) d)) c))
  else
    c1 ← explore_values radix (seqZ 1 (radix - 1)) c;
    h ← push (history_ c1) radix 0;
    mret (min_value, set_history h c1).

(** [step()], with [pick_int] answered by the checker. *)
(* @ src/batteries/state_machine_model/exhaustive_model_checker.hpp 113-115 ExhaustiveModelChecker::ExhaustiveModelChecker *)
Fixpoint run_step (t : Step M) (c : Checker) : outcome Checker :=
  match t with
  | Return m => Done (set_model m c)
  | PickInt min_value max_value k =>
      match pick_int min_value max_value c with
      | Done (value, c') => run_step (k value) c'
      | Panic => Panic
      end
  end.

(* @ src/batteries/state_machine_model.hpp 95-110 StateMachineModel::visit *)
Definition visit (s : St) (src_branch : Branch) (v : gmap St Branch) : gmap St Branch * VisitResult :=
  match v !! s with
  | Some _ => (v, kSeenBefore)
  | None => (<[s := src_branch]> v, kFirstTime)
  end.

(** The removal of duplicates from the branches that have arrived. *)
(* @ src/batteries/state_machine_model/exhaustive_model_checker.hpp 241-251 ExhaustiveModelChecker::pop_next *)
Fixpoint deduplicate (bs : list Branch) (v : gmap St Branch) : outcome (list Branch * gmap St Branch) :=
  match bs with
  | [] => mret ([], v)
  | b :: bs' =>
      e ← empty (delta b);
      let '(v1, result) := if (e : bool) then visit (snapshot b) (root_branch inhabitant) v else (v, kFirstTime) in
      '(kept, v2) ← deduplicate bs' v1;
      mret (match result with kSeenBefore => kept | kFirstTime => b :: kept end, v2)
  end.

(** A batch arrives while the local queue is empty. *)
(* @ src/batteries/state_machine_model/exhaustive_model_checker.hpp 226-255 ExhaustiveModelChecker::pop_next *)
Definition receive (batch : list Branch) (c : Checker) : outcome Checker :=
  check (length (queue_ c) =? 0)%nat;;
  check (0 <? length batch)%nat;;
  '(kept, v) ← deduplicate batch (visited_ c);
  mret (set_queue kept (set_visited v (set_result (add_push (Z.of_nat (length kept)) (result_ c)) c))).

(* @ src/batteries/state_machine_model/exhaustive_model_checker.hpp 257-270 ExhaustiveModelChecker::pop_next *)
Definition take_next (c : Checker) : outcome Checker :=
  match queue_ c with
  | [] => Panic
  | next_branch :: rest =>
      check (find_shard next_branch =? shard_i)%nat;;
      mret (set_result (add_pop (result_ c)) (set_queue rest
        (set_history (clear (history_ c)) (set_current (Some next_branch) c))))
  end.

(** One round of the loop of [run], after [pop_next]; the flag says whether
    the loop goes on. *)
(* @ src/batteries/state_machine_model/exhaustive_model_checker.hpp 325-376 ExhaustiveModelChecker::run *)
Definition expand (c : Checker) : outcome (Checker * bool) :=
  b ← get_current c;
  let c1 := set_model (enter_state mdl (snapshot b) (model_ c)) c in
  if negb (check_invariants mdl (model_ c1)) then mret (set_result (set_ok false (result_ c1)) c1, false) else
  c2 ← run_step (step mdl (model_ c1)) c1;
  if negb (check_invariants mdl (model_ c2)) then mret (set_result (set_ok false (result_ c2)) c2, false) else
  let after := normalize mdl (leave_state mdl (model_ c2)) in
  if decide (after = snapshot b) then mret (set_result (add_self_branch (result_ c2)) c2, true) else
  match visit after (mkBranch (snapshot b) (history_ c2)) (visited_ c2) with
  | (v, kFirstTime) =>
      let c3 := set_result (set_state_count (u64 (state_count (result_ c2) + 1)) (result_ c2)) (set_visited v c2) in
      c4 ← explore (root_branch after) false c3;
      mret (c4, true)
  | (v, kSeenBefore) => mret (set_visited v c2, true)
  end.

(** The start of [run], up to the first branch. *)
(* @ src/batteries/state_machine_model/exhaustive_model_checker.hpp 282-302 ExhaustiveModelChecker::run *)
Definition start_run (c : Checker) : outcome Checker :=
  let c1 := set_queue [] (set_visited ∅ (set_history (clear (history_ c)) (set_current None c))) in
  explore (root_branch (normalize mdl (initialize mdl))) true c1.

(* @ src/batteries/state_machine_model/exhaustive_model_checker.hpp 307-308 ExhaustiveModelChecker::run *)
Definition begin_search (c : Checker) : Checker :=
  set_result (set_state_count 1 (set_ok true (result_ c))) c.

End Operations.

(** ** What there is to explore *)

(** The code of [step] after the picks of [p].  A pick among one value is not
    recorded in a branch. *)
Fixpoint follow {M} (t : Step M) (p : list item) {struct t} : option (Step M) :=
  match t with
  | Return _ => match p with [] => Some t | _ :: _ => None end
  | PickInt a b k =>
      if a =? b then follow (k a) p else
      match p with
      | [] => Some t
      | (r, v) :: p' => if (r =? b - a + 1) && (0 <=? v) && (v <? r) then follow (k (a + v)) p' else None
      end
  end.

(** What [step] returns when every pick gives the least value, and these picks. *)
Fixpoint least {M} (t : Step M) : M :=
  match t with Return m => m | PickInt a _ k => least (k a) end.

Fixpoint zeros {M} (t : Step M) : list item :=
  match t with
  | Return _ => []
  | PickInt a b k => if a =? b then zeros (k a) else (b - a + 1, 0) :: zeros (k a)
  end.

(** The branches that leave this run: one for each other value of each pick. *)
Fixpoint siblings {M} (t : Step M) (h : list item) : list (list item) :=
  match t with
  | Return _ => []
  | PickInt a b k =>
      if a =? b then siblings (k a) h else
      ((fun v => h ++ [(b - a + 1, v)]) <$> seqZ 1 (b - a)) ++ siblings (k a) (h ++ [(b - a + 1, 0)])
  end.

(** The number of runs of [t]. *)
Fixpoint runs {M} (t : Step M) : Z :=
  match t with
  | Return _ => 1
  | PickInt a b k => sum ((fun v => runs (k v)) <$> seqZ a (b - a + 1))
  end.

(** [pick_int] is called with a range that is not empty, and whose size is a
    [u64]. *)
Fixpoint valid_step {M} (t : Step M) : Prop :=
  match t with
  | Return _ => True
  | PickInt a b k =>
      0 <= a <= b /\ b <= u64_max /\ b - a + 1 <= u64_max /\ (forall v, a <= v <= b -> valid_step (k v))
  end.

(** The ring that holds the picks of [p], pushed one after the other. *)
Definition encode_from (q : RadixQueue) (p : list item) : outcome RadixQueue :=
  foldl (fun q it => q ≫= fun q => push q it.1 it.2) (Done q) p.

Definition encode (p : list item) : outcome RadixQueue := encode_from new_delta p.

Section Specification.
Context {St M : Type} (mdl : StateMachineModel St M) (m0 : M).

Definition entered (s : St) : M := enter_state mdl s m0.

Definition step_of (s : St) : Step M := step mdl (entered s).

Definition target (m : M) : St := normalize mdl (leave_state mdl m).

(** [m] is what a run of [step] from [s] leaves, with the picks [p]. *)
Definition leads_to (s : St) (p : list item) (m : M) : Prop := follow (step_of s) p = Some (Return m).

Inductive reachable : St -> Prop :=
| reachable_initial : reachable (normalize mdl (initialize mdl))
| reachable_next (s : St) (p : list item) (m : M) : reachable s -> leads_to s p m -> reachable (target m).

(** The invariants fail at [s], or after a run of [step] from [s]. *)
Definition violates (s : St) : Prop :=
  check_invariants mdl (entered s) = false \/
  exists p m, leads_to s p m /\ check_invariants mdl m = false.

Definition violation : Prop := exists s, reachable s /\ violates s.

(** What the checker relies on: [enter_state] sets the whole state of the
    model, the ranges that are picked from are valid, and the picks of one
    step fit into a branch. *)
Record model_ok : Prop := {
  enter_state_sets : forall s m m', enter_state mdl s m = enter_state mdl s m';
  steps_valid : forall s, reachable s -> valid_step (step_of s);
  picks_fit : forall s p, reachable s -> is_Some (follow (step_of s) p) -> is_done (encode p) }.
End Specification.

(** ** Runs *)

Lemma follow_app {M} (t : Step M) (p q : list item) : follow t (p ++ q) = follow t p ≫= fun t' => follow t' q.
Proof.
  revert p. induction t as [m|a b k IH]; intros p; simpl.
  - destruct p; [|done]. simpl. by destruct q.
  - destruct (a =? b) eqn:E; [apply IH|]. destruct p as [|[r v] p]; simpl; [by rewrite E|].
    case_if; [apply IH|done].
Qed.

Lemma follow_valid {M} (t t' : Step M) (p : list item) :
  valid_step t -> follow t p = Some t' ->
  valid_step t' /\ Forall valid_item p /\ Forall (fun it => informative it = true) p.
Proof.
  revert p. induction t as [m|a b k IH]; intros p Hv; simpl.
  - destruct p; [|done]. intros [= <-]. split_and!; [exact I|constructor..].
  - destruct Hv as (Hab & Hb & Hr & Hk). destruct (a =? b) eqn:E; bool_cases; [apply IH, Hk; lia|].
    destruct p as [|[r v] p]; [intros [= <-]; split; [simpl; auto|by split]|].
    destruct ((r =? b - a + 1) && (0 <=? v) && (v <? r)) eqn:C; [|done]. bool_cases. subst r. intros Hf.
    apply IH in Hf as (Hv' & Hp & Hi); [|apply Hk; lia]. split_and!; [done| |].
    + constructor; [|done]. split; simpl; lia.
    + constructor; [|done]. unfold informative. simpl. apply negb_true_iff, Z.eqb_neq. lia.
Qed.

Lemma follow_norm {M} (t : Step M) :
  valid_step t ->
  exists t', follow t [] = Some t' /\ least t' = least t /\ zeros t' = zeros t /\
    runs t' = runs t /\ forall h, siblings t' h = siblings t h.
Proof.
  induction t as [m|a b k IH]; intros Hv; simpl.
  - by exists (Return m).
  - destruct (a =? b) eqn:E; [|exists (PickInt a b k); simpl; by rewrite E]. bool_cases. subst b.
    destruct Hv as (? & _ & _ & Hk). destruct (IH a) as (t' & ? & ? & ? & ? & ?); [apply Hk; lia|].
    exists t'. replace (a - a + 1) with 1 by lia. simpl. rewrite sum_cons. split_and!; [done..| |done].
    rewrite Z.add_0_l. unfold sum. simpl. lia.
Qed.

Lemma follow_some {M} (t : Step M) : valid_step t -> is_Some (follow t []).
Proof. intros Hv. destruct (follow_norm t Hv) as (t' & -> & _). by exists t'. Qed.

(** Every run is the one with the least picks or starts with a sibling of it. *)
Lemma run_cases {M} (t : Step M) (m : M) (q h : list item) :
  follow t q = Some (Return m) -> (q = zeros t /\ m = least t) \/ exists p, p ∈ siblings t h /\ p `prefix_of` h ++ q.
Proof.
  revert q h. induction t as [m'|a b k IH]; intros q h; simpl.
  - destruct q; [|done]. intros [= ->]. by left.
  - destruct (a =? b) eqn:E; [apply IH|]. destruct q as [|[r v] q]; [done|].
    destruct ((r =? b - a + 1) && (0 <=? v) && (v <? r)) eqn:C; [|done]. bool_cases. subst r. intros Hf.
    destruct (decide (v = 0)) as [->|Hv].
    + rewrite Z.add_0_r in Hf. destruct (IH _ q (h ++ [(b - a + 1, 0)]) Hf) as [[-> ->]|(p & Hp & Hpre)]; [by left|].
      right. exists p. split; [apply elem_of_app; by right|]. by rewrite <- app_assoc in Hpre.
    + right. exists (h ++ [(b - a + 1, v)]). split.
      * apply elem_of_app. left. apply list_elem_of_fmap. exists v. split; [done|]. apply elem_of_seqZ. lia.
      * exists q. by rewrite <- app_assoc.
Qed.

Lemma follow_zeros {M} (t : Step M) : valid_step t -> follow t (zeros t) = Some (Return (least t)).
Proof.
  induction t as [m|a b k IH]; intros Hv; [done|]. simpl. destruct Hv as (Hab & _ & _ & Hk).
  destruct (a =? b) eqn:E; [apply IH, Hk; lia|]. bool_cases.
  rewrite Z.eqb_refl, (proj2 (Z.ltb_lt _ _)) by lia. simpl. rewrite Z.add_0_r. apply IH, Hk. lia.
Qed.

Lemma siblings_follow {M} (t : Step M) (h p : list item) :
  valid_step t -> p ∈ siblings t h -> exists q, p = h ++ q /\ q <> [] /\ is_Some (follow t q).
Proof.
  revert h. induction t as [m|a b k IH]; intros h Hv; simpl; [by intros H%elem_of_nil|].
  destruct Hv as (Hab & _ & _ & Hk). destruct (a =? b) eqn:E; bool_cases; [apply IH, Hk; lia|].
  intros [Hp|Hp]%elem_of_app.
  - apply list_elem_of_fmap in Hp as (v & -> & Hv%elem_of_seqZ). exists [(b - a + 1, v)]. split_and!; [done|done|].
    rewrite Z.eqb_refl, (proj2 (Z.leb_le _ _)), (proj2 (Z.ltb_lt _ _)) by lia. simpl.
    apply follow_some, Hk. lia.
  - apply IH in Hp as (q & -> & Hq & Hf); [|apply Hk; lia]. exists ((b - a + 1, 0) :: q).
    split_and!; [by rewrite <- app_assoc|done|].
    rewrite Z.eqb_refl, (proj2 (Z.ltb_lt _ _)) by lia. simpl. by rewrite Z.add_0_r.
Qed.

(** ** Picks in a ring *)

Local Notation segments := RadixQueue.queue_.

(** [q1] and [q2] start at index 0 and hold the same segments; the rest of the
    array may differ ([clear] does not reset it). *)
Record agree (q1 q2 : RadixQueue) : Prop := {
  agree_front1 : front_ q1 = 0%nat;
  agree_front2 : front_ q2 = 0%nat;
  agree_back : back_ q1 = back_ q2;
  agree_size : kQueueSize q1 = kQueueSize q2;
  agree_in : (back_ q1 < kQueueSize q1)%nat;
  agree_segments : forall i, (i <= back_ q1)%nat -> segments q1 !! i = segments q2 !! i }.

(** [d] is a ring whose content was pushed pick by pick. *)
Definition coded (d : RadixQueue) (p : list item) : Prop := exists q, encode p = Done q /\ agree d q.

Lemma agree_insert (q1 q2 : RadixQueue) (b : nat) (s : Segment) :
  front_ q1 = 0%nat -> front_ q2 = 0%nat -> kQueueSize q1 = kQueueSize q2 -> (b < kQueueSize q1)%nat ->
  (forall i, (i < b)%nat -> segments q1 !! i = segments q2 !! i) ->
  agree (mkQueue (front_ q1) b (<[b := s]> (segments q1))) (mkQueue (front_ q2) b (<[b := s]> (segments q2))).
Proof.
  intros H1 H2 Hs Hb Hi. unfold kQueueSize in *. split; unfold kQueueSize; simpl; rewrite ?length_insert; try done.
  intros i Hle. destruct (decide (i = b)) as [->|Hne].
  - rewrite !list_lookup_insert_eq; [done|lia|lia].
  - rewrite !list_lookup_insert_ne by done. apply Hi. lia.
Qed.

Lemma agree_push (q1 q2 q2' : RadixQueue) (r v : Z) :
  agree q1 q2 -> push q2 r v = Done q2' -> exists q1', push q1 r v = Done q1' /\ agree q1' q2'.
Proof.
  intros [F1 F2 B S In Seg]. unfold push, back, get_segment. rewrite B, (Seg (back_ q2)) by lia.
  intros H. apply check_bind_done in H as [-> H]. simpl.
  apply bind_done in H as (b & Hb & H). rewrite Hb. simpl.
  destruct (u64_max / radix b <? r).
  - unfold push_back, full, advance_index in *. rewrite F1, B. rewrite F2, <- S in H.
    apply bind_done in H as (q2a & Hq & H). apply check_bind_done in Hq as [Hf Hq]. injection Hq as <-.
    rewrite Hf. cbn in H |- *. unfold kQueueSize in S, In.
    assert ((back_ q2 + 1) mod kQueueSize q1 < kQueueSize q1)%nat as Hm by (apply Nat.mod_upper_bound; unfold kQueueSize; lia).
    unfold kQueueSize in *. rewrite list_lookup_insert_eq in H by lia. rewrite list_lookup_insert_eq by lia.
    cbn in H |- *. injection H as <-. eexists. split; [reflexivity|].
    rewrite !list_insert_insert_eq.
    pose proof (fun b s => agree_insert q1 q2 b s F1 F2) as A. rewrite F1, F2 in A. apply A; [done|done|].
    intros i Hi. apply Seg. apply negb_true_iff, Nat.eqb_neq in Hf. rewrite B in In.
    destruct (decide (back_ q2 + 1 = length (segments q1))%nat) as [E|E].
    + rewrite E, Nat.Div0.mod_same in Hf. done.
    + rewrite Nat.mod_small in Hi by lia. lia.
  - cbn in H |- *. rewrite B, (Seg (back_ q2)) by lia. destruct (segments q2 !! back_ q2) as [s|]; [|done].
    cbn in H |- *. injection H as <-. eexists. split; [reflexivity|]. 
    pose proof (fun s => agree_insert q1 q2 (back_ q2) s F1 F2 S) as A. rewrite F1, F2 in A. rewrite ?F1, ?F2.
    apply A; [by rewrite <- B|]. intros i Hi. apply Seg. lia.
Qed.

Lemma encode_snoc (p : list item) (r v : Z) : encode (p ++ [(r, v)]) = encode p ≫= fun q => push q r v.
Proof. unfold encode, encode_from. by rewrite foldl_app. Qed.

Lemma coded_new : coded new_delta [].
Proof. exists new_delta. split; [done|]. split; try done. unfold kQueueSize. simpl. lia. Qed.

Lemma push_size (q q' : RadixQueue) (r v : Z) : push q r v = Done q' -> kQueueSize q' = kQueueSize q.
Proof.
  unfold push. intros H. run_inv. subst q'. unfold kQueueSize. simpl. rewrite length_insert.
  case_if; run_inv; [|by subst]. unfold push_back in *. run_inv. subst. simpl. by rewrite length_insert.
Qed.

Lemma encode_size (p : list item) (q : RadixQueue) : encode p = Done q -> kQueueSize q = 4%nat.
Proof.
  revert q. induction p as [|[r v] p IH] using rev_ind; intros q Hq; [by injection Hq as <-|].
  rewrite encode_snoc in Hq. apply bind_done in Hq as (q0 & H0 & Hp). rewrite <- (IH q0 H0). by eapply push_size.
Qed.

Lemma coded_clear (d : RadixQueue) (p : list item) : coded d p -> coded (clear d) [].
Proof.
  intros (q & Hq & A). apply encode_size in Hq. destruct A as [_ _ _ S _ _]. rewrite Hq in S.
  exists new_delta. split; [done|]. unfold kQueueSize in *.
  split; unfold kQueueSize; simpl; try done; rewrite ?length_insert; [done|lia|].
  intros i Hi. replace i with 0%nat by lia. by rewrite list_lookup_insert_eq by lia.
Qed.

Lemma coded_push (d : RadixQueue) (p : list item) (r v : Z) :
  coded d p -> is_done (encode (p ++ [(r, v)])) -> exists d', push d r v = Done d' /\ coded d' (p ++ [(r, v)]).
Proof.
  intros (q & Hq & A) [q' Hq']. pose proof Hq' as Hp. rewrite encode_snoc, Hq in Hp. simpl in Hp.
  destruct (agree_push d q q' r v A Hp) as (d' & Hd & A'). exists d'. split; [done|]. by exists q'.
Qed.

Lemma encode_represents (p : list item) (q : RadixQueue) :
  encode p = Done q -> Forall valid_item p -> represents q p.
Proof.
  revert q. induction p as [|[r v] p IH] using rev_ind; intros q Hq Hp.
  - injection Hq as <-. apply new_queue_represents. unfold kRadixQueueSize. lia.
  - apply Forall_app in Hp as [Hp Hit]. apply Forall_inv in Hit.
    rewrite encode_snoc in Hq. apply bind_done in Hq as (q0 & H0 & Hpush).
    assert (exists b, back q0 = Done b) as [b Hb].
    { unfold push in Hpush. apply check_bind_done in Hpush as [_ Hpush].
      apply bind_done in Hpush as (b & Hb & _). by exists b. }
    destruct (push_spec q0 p r v b (IH q0 H0 Hp) Hit Hb) as [(_ & _ & E)|(_ & q1 & E & R)]; [congruence|].
    rewrite E in Hpush. by injection Hpush as ->.
Qed.

Lemma agree_represents (d q : RadixQueue) (p : list item) : agree d q -> represents q p -> represents d p.
Proof.
  intros [F1 F2 B S In Seg] (groups & [L1 L2 L3 L4 L5 L6] & Hc). exists groups. split; [|done].
  rewrite F2, <- S, <- B in *. split; rewrite ?F1; try done.
  intros i g Hi. pose proof (L4 i g Hi) as Hg. apply lookup_lt_Some in Hi.
  assert ((back_ d + kQueueSize d - 0) mod kQueueSize d = back_ d)%nat as E.
  { rewrite Nat.sub_0_r. replace (back_ d + kQueueSize d)%nat with (back_ d + 1 * kQueueSize d)%nat by lia.
    rewrite Nat.Div0.mod_add. by apply Nat.mod_small. }
  rewrite E in L3. rewrite Nat.add_0_l, Nat.mod_small in * by lia. rewrite Seg by lia. done.
Qed.

Lemma coded_represents (d : RadixQueue) (p : list item) : coded d p -> Forall valid_item p -> represents d p.
Proof. intros (q & Hq & A) Hp. apply (agree_represents d q); [done|]. by apply encode_represents. Qed.

(** [empty] tells a branch with picks from one without. *)
Lemma represents_empty (d : RadixQueue) (p : list item) :
  represents d p -> Forall (fun it => informative it = true) p -> empty d = Done (bool_decide (p = [])).
Proof.
  intros R Hi. rewrite (empty_represents d p R). f_equal. destruct p as [|it p]; [done|].
  apply Forall_inv in Hi. simpl. by rewrite Hi.
Qed.

(** ** One shard explores *)

(** [branch / hash_space_per_shard] is the index of a shard. *)
Definition hash_ok {St} (hash : Branch St -> Z) (n : nat) : Prop :=
  forall b, 0 <= hash b < Z.of_nat n * hash_space_per_shard n.

Section Exploration.
Context `{Countable St, !Inhabited St} {M : Type}.
Variable (mdl : StateMachineModel St M) (m0 : M) (hash : Branch St -> Z) (shard_count shard_i : nat).
Hypothesis hash_in_range : hash_ok hash shard_count.

Notation owner := (find_shard hash shard_count).

Lemma owner_lt (b : Branch St) : (owner b < shard_count)%nat.
Proof.
  unfold find_shard. pose proof (hash_in_range b) as [H0 H1].
  assert (0 < hash_space_per_shard shard_count) by nia.
  assert (0 <= hash b / hash_space_per_shard shard_count < Z.of_nat shard_count); [|lia].
  split; [by apply Z.div_pos|]. apply Z.div_lt_upper_bound; lia.
Qed.

Definition is_local (b : Branch St) : bool := (owner b =? shard_i)%nat.

Definition locals (bs : list (Branch St)) : list (Branch St) := List.filter is_local bs.

Definition remotes (bs : list (Branch St)) : list (nat * Branch St) :=
  (fun b => (owner b, b)) <$> List.filter (fun b => negb (is_local b)) bs.

(** The branches [bs] were handed to [explore], in this order. *)
Record added (bs : list (Branch St)) (c c' : Checker St M) : Prop := {
  added_queue : queue_ c' = queue_ c ++ locals bs;
  added_sent : sent c' = sent c ++ remotes bs;
  added_visited : visited_ c' = visited_ c;
  added_ok : ok (result_ c') = ok (result_ c);
  added_count : state_count (result_ c') = state_count (result_ c) }.

(** What [explore] leaves alone. *)
Record same_run (c c' : Checker St M) : Prop := {
  same_model : model_ c' = model_ c;
  same_current : current_branch_ c' = current_branch_ c;
  same_history : history_ c' = history_ c }.

Lemma added_nil (c : Checker St M) : added [] c c.
Proof. split; unfold locals, remotes; simpl; by rewrite ?app_nil_r. Qed.

Lemma added_trans (bs bs' : list (Branch St)) (c c' c'' : Checker St M) :
  added bs c c' -> added bs' c' c'' -> added (bs ++ bs') c c''.
Proof.
  intros [Q1 S1 V1 O1 C1] [Q2 S2 V2 O2 C2]. split; [| |congruence..].
  - rewrite Q2, Q1. unfold locals. by rewrite List.filter_app, app_assoc.
  - rewrite S2, S1. unfold remotes. by rewrite List.filter_app, fmap_app, app_assoc.
Qed.

Lemma explore_spec (b : Branch St) (c : Checker St M) :
  exists c', explore hash shard_count shard_i b false c = Done c' /\ added [b] c c' /\ same_run c c'.
Proof.
  unfold explore. pose proof (owner_lt b) as Hlt%Nat.ltb_lt.
  destruct (owner b =? shard_i)%nat eqn:E; simpl; rewrite ?Hlt; simpl; (eexists; split; [reflexivity|]);
    split; split; unfold locals, remotes, is_local; simpl; rewrite ?E; simpl; by rewrite ?app_nil_r.
Qed.

(** [b] continues the runs from [s] that make the picks [p] first. *)
Definition branch_at (s : St) (b : Branch St) (p : list item) : Prop := snapshot b = s /\ coded (delta b) p.

Lemma explore_values_spec (radix : Z) (vs : list Z) (c : Checker St M) (b : Branch St) (h : list item) :
  current_branch_ c = Some b -> coded (history_ c) h ->
  (forall v, v ∈ vs -> is_done (encode (h ++ [(radix, v)]))) ->
  exists c' bs, explore_values hash shard_count shard_i radix vs c = Done c' /\ added bs c c' /\ same_run c c' /\
    Forall2 (branch_at (snapshot b)) bs ((fun v => h ++ [(radix, v)]) <$> vs).
Proof.
  revert c. induction vs as [|v vs IH]; intros c Hb Hh Hd.
  - exists c, []. split_and!; [done|apply added_nil|done|constructor].
  - destruct (coded_push (history_ c) h radix v Hh) as (d & Hpush & Hc); [apply Hd; by left|].
    destruct (explore_spec (mkBranch (snapshot b) d) c) as (c1 & E1 & A1 & [M1 B1 H1]).
    destruct (IH c1) as (c2 & bs & E2 & A2 & [M2 B2 H2] & F2);
      [congruence|congruence|intros w Hw; apply Hd; by right|].
    exists c2, (mkBranch (snapshot b) d :: bs). split_and!.
    + simpl. unfold get_current. rewrite Hb. simpl. rewrite Hpush. simpl. by rewrite E1.
    + by apply (added_trans [_] bs c c1).
    + split; congruence.
    + constructor; [by split|done].
Qed.

Lemma run_step_spec (T t t' : Step M) (h r : list item) (c : Checker St M) (s : St) (d : RadixQueue) :
  (forall q, is_Some (follow T q) -> is_done (encode q)) ->
  (forall q, follow T (h ++ q) = follow t q) -> valid_step t ->
  current_branch_ c = Some (mkBranch s d) -> represents d r -> follow t r = Some t' -> coded (history_ c) h ->
  exists c' bs d', run_step hash shard_count shard_i t c = Done c' /\ model_ c' = least t' /\
    current_branch_ c' = Some (mkBranch s d') /\ coded (history_ c') (h ++ r ++ zeros t') /\
    added bs c c' /\ Forall2 (branch_at s) bs (siblings t' (h ++ r)).
Proof.
  intros Hfit. revert h r c d t'. induction t as [m|a b k IH]; intros h r c d t' Ht Hv Hcur Hrep Hf Hh.
  - simpl in Hf. destruct r; [|done]. injection Hf as <-. exists (set_model m c), [], d. simpl. rewrite !app_nil_r.
    split_and!; try done. by destruct (added_nil c).
  - destruct (follow_valid _ _ _ Hv Hf) as (_ & Hvr & Hir). simpl in Hv. destruct Hv as (Hab & Hb & Hr & Hk).
    simpl in Ht, Hf |- *. unfold pick_int. destruct (a =? b) eqn:E; simpl.
    { bool_cases. apply (IH a h r c d t'); try done. apply Hk. lia. }
    bool_cases. rewrite (proj2 (Z.ltb_lt a b)) by lia. unfold get_current. rewrite Hcur. simpl.
    rewrite uwrap_small by (unfold u64_max in *; lia). rewrite (represents_empty d r Hrep Hir).
    destruct r as [|[rx v] r]; simpl.
    + injection Hf as <-. rewrite app_nil_r.
      assert (forall v, 0 <= v < b - a + 1 -> forall q, follow T (h ++ (b - a + 1, v) :: q) = follow (k (a + v)) q) as Hpick.
      { intros v Hvr' q. rewrite Ht, Z.eqb_refl, (proj2 (Z.leb_le _ _)), (proj2 (Z.ltb_lt _ _)) by lia. done. }
      assert (forall v, 0 <= v < b - a + 1 -> is_done (encode (h ++ [(b - a + 1, v)]))) as Hdone.
      { intros v Hvr'. apply Hfit. rewrite Hpick by done. apply follow_some, Hk. lia. }
      destruct (explore_values_spec (b - a + 1) (seqZ 1 (b - a + 1 - 1)) c (mkBranch s d) h Hcur Hh) as
        (c1 & bs1 & E1 & A1 & [M1 B1 H1] & F1); [intros v Hv; apply Hdone; apply elem_of_seqZ in Hv; lia|].
      rewrite E1. simpl.
      destruct (coded_push (history_ c1) h (b - a + 1) 0) as (hd & Hpush & Hc); [by rewrite H1|apply Hdone; lia|].
      rewrite Hpush. simpl.
      destruct (follow_norm (k a)) as (ta & Ea & La & Za & _ & Sa); [apply Hk; lia|].
      edestruct (IH a (h ++ [(b - a + 1, 0)]) [] (set_history hd c1) d ta) as (c2 & bs2 & d2 & E2 & M2 & C2 & Hc2 & A2 & F2);
        try done.
      * intros q. rewrite <- app_assoc. simpl. rewrite Hpick by lia. by rewrite Z.add_0_r.
      * apply Hk. lia.
      * by rewrite <- Hcur, <- B1.
      * rewrite La in M2. rewrite Za in Hc2. rewrite Sa in F2.
        exists c2, (bs1 ++ bs2), d2. simpl. rewrite (proj2 (Z.eqb_neq a b)) by done. split_and!; try done.
        -- by rewrite <- app_assoc in Hc2.
        -- apply (added_trans _ _ c c1); [done|]. by destruct A2.
        -- rewrite app_nil_r in F2. replace (b - a + 1 - 1) with (b - a) in F1 by lia. by apply Forall2_app.
    + destruct ((rx =? b - a + 1) && (0 <=? v) && (v <? rx)) eqn:C; [|done]. bool_cases. subst rx.
      destruct (pop_spec d r (b - a + 1) v Hrep) as (d1 & Hpop & Hrep1); [by apply Forall_inv in Hvr|].
      rewrite Hpop. simpl.
      destruct (coded_push (history_ c) h (b - a + 1) v Hh) as (hd & Hpush & Hc).
      { apply Hfit. rewrite Ht.
        rewrite Z.eqb_refl, (proj2 (Z.leb_le _ _)), (proj2 (Z.ltb_lt _ _)) by lia. simpl. apply follow_some, Hk. lia. }
      rewrite Hpush. simpl. rewrite uwrap_small by (unfold u64_max in *; lia).
      destruct (IH (a + v) (h ++ [(b - a + 1, v)]) r (set_history hd (set_current (Some (mkBranch s d1)) c)) d1 t')
        as (c2 & bs2 & d2 & E2 & M2 & C2 & Hc2 & A2 & F2);
        try done.
      * intros q. rewrite <- app_assoc. simpl. rewrite Ht.
        by rewrite Z.eqb_refl, (proj2 (Z.leb_le _ _)), (proj2 (Z.ltb_lt _ _)) by lia.
      * apply Hk. lia.
      * exists c2, bs2, d2. rewrite <- app_assoc in Hc2, F2. split_and!; try done. by destruct A2.
Qed.

Hypothesis model_fits : model_ok mdl m0.

(** The state that a round finds, if it is new. *)
Definition discovered (s after : St) (v : gmap St (Branch St)) : list (Branch St) :=
  if decide (after = s) then [] else match v !! after with Some _ => [] | None => [root_branch after] end.

(** A round on a branch of [s] with the picks [p] has seen a run of [step]
    from [s] to [m], and has left the branches [bs] for the other values. *)
Record explored (s : St) (p : list item) (t : Step M) (bs : list (Branch St)) (c c' : Checker St M) : Prop := {
  explored_run : leads_to mdl m0 s (p ++ zeros t) (least t);
  explored_before : check_invariants mdl (entered mdl m0 s) = true;
  explored_after : check_invariants mdl (least t) = true;
  explored_siblings : Forall2 (branch_at s) bs (siblings t p);
  explored_queue : queue_ c' = queue_ c ++ locals (bs ++ discovered s (target mdl (least t)) (visited_ c));
  explored_sent : sent c' = sent c ++ remotes (bs ++ discovered s (target mdl (least t)) (visited_ c));
  explored_visited : dom (visited_ c') =
    if decide (target mdl (least t) = s) then dom (visited_ c) else {[target mdl (least t)]} ∪ dom (visited_ c);
  explored_ok : ok (result_ c') = ok (result_ c);
  explored_count : state_count (result_ c') =
    match discovered s (target mdl (least t)) (visited_ c) with
    | [] => state_count (result_ c)
    | _ => u64 (state_count (result_ c) + 1)
    end }.

(** A round that finds a violation stops the search. *)
Record stopped (s : St) (p : list item) (t : Step M) (bs : list (Branch St)) (c c' : Checker St M) : Prop := {
  stopped_ok : ok (result_ c') = false;
  stopped_violates : violates mdl m0 s;
  stopped_siblings : bs = [] \/ Forall2 (branch_at s) bs (siblings t p);
  stopped_queue : queue_ c' = queue_ c ++ locals bs;
  stopped_sent : sent c' = sent c ++ remotes bs;
  stopped_visited : visited_ c' = visited_ c;
  stopped_count : state_count (result_ c') = state_count (result_ c) }.

Lemma expand_spec (c : Checker St M) (b : Branch St) (s : St) (p : list item) (t : Step M) :
  current_branch_ c = Some b -> branch_at s b p -> reachable mdl m0 s ->
  follow (step_of mdl m0 s) p = Some t -> coded (history_ c) [] ->
  exists c' more bs, expand mdl hash shard_count shard_i c = Done (c', more) /\ (exists h, coded (history_ c') h) /\
    if (more : bool) then explored s p t bs c c' else stopped s p t bs c c'.
Proof.
  intros Hb [<- Hd] Hr Hf Hh. unfold expand, get_current. rewrite Hb. simpl.
  destruct model_fits as [Hset Hsteps Hfit]. rewrite (Hset _ _ m0). fold (entered mdl m0 (snapshot b)).
  destruct (check_invariants mdl (entered mdl m0 (snapshot b))) eqn:Hinv; simpl.
  2:{ eexists _, false, []. split_and!; [done|by exists []|]. split; simpl; rewrite ?app_nil_r; try done; by left. }
  destruct (follow_valid _ _ _ (Hsteps _ Hr) Hf) as (Hvt & Hvp & Hip).
  destruct (run_step_spec (step_of mdl m0 (snapshot b)) (step_of mdl m0 (snapshot b)) t [] p
    (set_model (entered mdl m0 (snapshot b)) c) (snapshot b) (delta b)) as (c2 & bs & d' & E & Em & Ec & Eh & A & F).
  - intros q. by apply Hfit.
  - done.
  - by apply Hsteps.
  - simpl. rewrite Hb. by destruct b.
  - by apply coded_represents.
  - done.
  - done.
  - fold (step_of mdl m0 (snapshot b)). rewrite E. simpl. rewrite Em. simpl in Eh, F.
    assert (leads_to mdl m0 (snapshot b) (p ++ zeros t) (least t)) as Hrun.
    { unfold leads_to. rewrite follow_app, Hf. simpl. by apply follow_zeros. }
    destruct A as [AQ AS AV AO AC]. simpl in AQ, AS, AV, AO, AC.
    destruct (check_invariants mdl (least t)) eqn:Hafter; simpl.
    2:{ eexists _, false, bs. split_and!; [done|by eexists|]. split; simpl; try done; [|by right].
        right. by eexists _, _. }
    fold (target mdl (least t)).
    unfold visit. destruct (decide (target mdl (least t) = snapshot b)) as [Es|Es].
    + eexists _, true, bs. split_and!; [done|by eexists|].
      split; unfold discovered; rewrite ?decide_True by done; rewrite ?app_nil_r; simpl; congruence.
    + rewrite AV. destruct (visited_ c !! target mdl (least t)) as [src|] eqn:Ev.
      * eexists _, true, bs. split_and!; [done|by eexists|].
        split; unfold discovered; rewrite ?decide_False by done; rewrite ?Ev, ?app_nil_r; simpl; try congruence.
        apply elem_of_dom_2 in Ev. set_solver.
      * edestruct (explore_spec (root_branch (target mdl (least t)))) as (c4 & -> & [Q S V O C] & [_ _ Hh4]).
        eexists c4, true, bs. split_and!; [done|rewrite Hh4; by eexists|].
        split; unfold discovered; rewrite ?decide_False by done; rewrite ?Ev; try done.
        -- rewrite Q. simpl. rewrite AQ. unfold locals. by rewrite List.filter_app, app_assoc.
        -- rewrite S. simpl. rewrite AS. unfold remotes. by rewrite List.filter_app, fmap_app, app_assoc.
        -- rewrite V. simpl. by rewrite dom_insert_L.
        -- by rewrite O.
        -- rewrite C. simpl. by rewrite AC.
Qed.

End Exploration.
