(* ===== verification/ModelCheckMesh.v ===== *)
(** * The model checker: shards that run in parallel

    [state_machine_model/parallel_model_check_state.hpp], the loop of
    [exhaustive_model_checker.hpp] and [check_model] of
    [state_machine_model.hpp].  Each shard explores the branches whose hash
    falls into its part of the hash space, and sends the others, in batches,
    to the shards they belong to.  Every access to memory that the shards
    share is one step of a shard; what a shard does between two of them is
    local.  A receive queue is the FIFO queue of [Queue]; its [push] tests
    [is_open] in one step and inserts in another.  The counters that nothing
    reads ([ShardMetrics]) and the progress reports are left out. *)

From S2P Require Export ModelChecker.
Open Scope Z_scope.

(* @ src/batteries/async/queue.hpp 116-116 QueueBase::pending_count_, pending_items_ *)
Record RecvQueue (St : Type) : Type := mkRecvQueue { items : list (list (Branch St)); closed : bool }.
Arguments mkRecvQueue {St} _ _.
Arguments items {St} _.
Arguments closed {St} _.

(** Where a shard goes on when [flush_all] returns; [loop_counter] is that of
    [run]. *)
Inductive AfterFlush : Type :=
| ToArrive
| ToPopNext (loop_counter : Z)
| ToAck (loop_counter : Z)
| ToClose.

(** ... when all branches of a round are sent. *)
Inductive AfterSend : Type :=
| SentLoop (loop_counter : Z)
| SentFlush (next : AfterFlush).

(** ... when [queue_push] returns. *)
Inductive AfterPush : Type :=
| BackToSend (next : AfterSend)
| BackToFlush (dst_i : nat) (next : AfterFlush).

(** Where a shard is. *)
(* @ src/batteries/state_machine_model/exhaustive_model_checker.hpp 282-379 ExhaustiveModelChecker::run *)
Inductive Pc (St : Type) : Type :=
| Start
| Sending (next : AfterSend)
| PushAdd (dst_i : nat) (batch : list (Branch St)) (next : AfterPush)
| PushOpen (dst_i : nat) (batch : list (Branch St)) (next : AfterPush)
| PushItem (dst_i : nat) (batch : list (Branch St)) (next : AfterPush)
| Flushing (dst_i : nat) (next : AfterFlush)
| Arrive
| AwaitOthers
| CheckPending
| LoopTop (loop_counter : Z)
| PopNext (loop_counter : Z)
| TryPop (loop_counter : Z)
| SetStalled (other_i : nat) (loop_counter : Z)
| Ack (loop_counter : Z)
| Closing (dst_i : nat) (waited : bool) (loop_counter : Z)
| CloseOther (dst_i : nat) (loop_counter : Z)
| AwaitNext (loop_counter : Z)
| ResetStalled (other_i : nat) (received : option Z)
| CloseOwn
| Drain
| Returned.
Arguments Start {St}.
Arguments Sending {St} _.
Arguments PushAdd {St} _ _ _.
Arguments PushOpen {St} _ _ _.
Arguments PushItem {St} _ _ _.
Arguments Flushing {St} _ _.
Arguments Arrive {St}.
Arguments AwaitOthers {St}.
Arguments CheckPending {St}.
Arguments LoopTop {St} _.
Arguments PopNext {St} _.
Arguments TryPop {St} _.
Arguments SetStalled {St} _ _.
Arguments Ack {St} _.
Arguments Closing {St} _ _ _.
Arguments CloseOther {St} _ _.
Arguments AwaitNext {St} _.
Arguments ResetStalled {St} _ _.
Arguments CloseOwn {St}.
Arguments Drain {St}.
Arguments Returned {St}.

Definition after_flush {St} (next : AfterFlush) : Pc St :=
  match next with
  | ToArrive => Arrive
  | ToPopNext lc => PopNext lc
  | ToAck lc => Ack lc
  | ToClose => CloseOwn
  end.

Definition after_send {St} (next : AfterSend) : Pc St :=
  match next with SentLoop lc => LoopTop lc | SentFlush next' => Flushing 0 next' end.

Definition after_push {St} (next : AfterPush) : Pc St :=
  match next with BackToSend next' => Sending next' | BackToFlush dst next' => Flushing dst next' end.

(** A shard: its checker, its row of [send_queues], its [local_consume_count]. *)
(* @ src/batteries/state_machine_model/parallel_model_check_state.hpp 244-250 ParallelModelCheckState *)
Record Shard (St M : Type) `{Countable St} : Type := mkShard {
  checker : Checker St M;
  send_queues : list (list (Branch St));
  local_consume_count : Z;
  pc : Pc St }.
Arguments mkShard {St M _ _} _ _ _ _.
Arguments checker {St M _ _} _.
Arguments send_queues {St M _ _} _.
Arguments local_consume_count {St M _ _} _.
Arguments pc {St M _ _} _.

(** [panicked] says where a check has failed; the program has stopped then. *)
(* @ src/batteries/state_machine_model/parallel_model_check_state.hpp 238-250 ParallelModelCheckState *)
Record Mesh (St M : Type) `{Countable St} : Type := mkMesh {
  shard_states : list (Shard St M);
  recv_queues : list (RecvQueue St);
  total_pending_count : Z;
  stalled : list (list bool);
  barrier_ : Z;
  queue_push_count : Z;
  queue_pop_count : Z;
  panicked : option (Pc St) }.
Arguments mkMesh {St M _ _} _ _ _ _ _ _ _ _.
Arguments shard_states {St M _ _} _.
Arguments recv_queues {St M _ _} _.
Arguments total_pending_count {St M _ _} _.
Arguments stalled {St M _ _} _.
Arguments barrier_ {St M _ _} _.
Arguments queue_push_count {St M _ _} _.
Arguments queue_pop_count {St M _ _} _.
Arguments panicked {St M _ _} _.

Section Mesh.
Context `{Countable St, !Inhabited St} {M : Type}.
Variable (mdl : StateMachineModel St M) (m0 : M) (hash : Branch St -> Z).

(** [max_loop_iterations_between_flush] of the model's options. *)
Variable between_flush : Z.

Notation Shard := (Shard St M).
Notation Mesh := (Mesh St M).

Definition set_shard (i : nat) (sh : Shard) (st : Mesh) : Mesh :=
  mkMesh (<[i := sh]> (shard_states st)) (recv_queues st) (total_pending_count st) (stalled st)
    (barrier_ st) (queue_push_count st) (queue_pop_count st) (panicked st).

Definition set_recv (dst : nat) (q : RecvQueue St) (st : Mesh) : Mesh :=
  mkMesh (shard_states st) (<[dst := q]> (recv_queues st)) (total_pending_count st) (stalled st)
    (barrier_ st) (queue_push_count st) (queue_pop_count st) (panicked st).

Definition set_total (n : Z) (st : Mesh) : Mesh :=
  mkMesh (shard_states st) (recv_queues st) n (stalled st)
    (barrier_ st) (queue_push_count st) (queue_pop_count st) (panicked st).

(** [this->stalled[src_i][dst_i].store(b)] *)
Definition set_stalled (src_i dst_i : nat) (b : bool) (st : Mesh) : Mesh :=
  mkMesh (shard_states st) (recv_queues st) (total_pending_count st) (alter (<[dst_i := b]>) src_i (stalled st))
    (barrier_ st) (queue_push_count st) (queue_pop_count st) (panicked st).

Definition set_barrier (n : Z) (st : Mesh) : Mesh :=
  mkMesh (shard_states st) (recv_queues st) (total_pending_count st) (stalled st)
    n (queue_push_count st) (queue_pop_count st) (panicked st).

Definition count_push (st : Mesh) : Mesh :=
  mkMesh (shard_states st) (recv_queues st) (total_pending_count st) (stalled st)
    (barrier_ st) (queue_push_count st + 1) (queue_pop_count st) (panicked st).

Definition count_pop (st : Mesh) : Mesh :=
  mkMesh (shard_states st) (recv_queues st) (total_pending_count st) (stalled st)
    (barrier_ st) (queue_push_count st) (queue_pop_count st + 1) (panicked st).

Definition panic (p : Pc St) (st : Mesh) : Mesh :=
  mkMesh (shard_states st) (recv_queues st) (total_pending_count st) (stalled st)
    (barrier_ st) (queue_push_count st) (queue_pop_count st) (Some p).

Definition goto (p : Pc St) (sh : Shard) : Shard :=
  mkShard (checker sh) (send_queues sh) (local_consume_count sh) p.

Definition set_checker (c : Checker St M) (sh : Shard) : Shard :=
  mkShard c (send_queues sh) (local_consume_count sh) (pc sh).

Definition set_row (dst : nat) (batch : list (Branch St)) (sh : Shard) : Shard :=
  mkShard (checker sh) (<[dst := batch]> (send_queues sh)) (local_consume_count sh) (pc sh).

Definition set_consume (n : Z) (sh : Shard) : Shard :=
  mkShard (checker sh) (send_queues sh) n (pc sh).

Definition shard_count (st : Mesh) : nat := length (shard_states st).

Definition recv_queue (st : Mesh) (i : nat) : RecvQueue St :=
  default (mkRecvQueue [] true) (recv_queues st !! i).

(** A local computation that panics stops the program. *)
Definition local_step {A} (o : outcome A) (i : nat) (sh : Shard) (k : A -> Shard) (st : Mesh) : Mesh :=
  match o with Done a => set_shard i (k a) st | Panic => panic (pc sh) st end.

(** [send], for the first of the branches the checker has handed over;
    [queue_push] empties the row first. *)
(* @ src/batteries/state_machine_model/parallel_model_check_state.hpp 92-103 ParallelModelCheckState::send *)
Definition send_step (i : nat) (sh : Shard) (next : AfterSend) (st : Mesh) : Mesh :=
  match sent (checker sh) with
  | [] => set_shard i (goto (after_send next) sh) st
  | (dst, b) :: rest =>
      let batch := default [] (send_queues sh !! dst) ++ [b] in
      let sh1 := set_checker (set_sent rest (checker sh)) sh in
      if default false (stalled st !! i ≫= fun row => row !! dst) then
        set_shard i (goto (PushAdd dst batch (BackToSend next)) (set_row dst [] sh1)) st
      else set_shard i (set_row dst batch sh1) st
  end.

(* @ src/batteries/state_machine_model/parallel_model_check_state.hpp 105-119 ParallelModelCheckState::flush_all *)
Definition flush_step (i : nat) (sh : Shard) (dst : nat) (next : AfterFlush) (st : Mesh) : Mesh :=
  if (dst <? shard_count st)%nat then
    match default [] (send_queues sh !! dst) with
    | [] => set_shard i (goto (Flushing (S dst) next) sh) st
    | batch => set_shard i (goto (PushAdd dst batch (BackToFlush (S dst) next)) (set_row dst [] sh)) st
    end
  else set_shard i (goto (after_flush next) sh) st.

(** [queue_push]: the count, the test of [is_open], the insertion.  The
    result of [push] is a [bool] stored in an [Optional<i64>], which then has
    a value, so the check of it cannot fail. *)
(* @ src/batteries/state_machine_model/parallel_model_check_state.hpp 121-129 ParallelModelCheckState::queue_push *)
Definition push_step (i : nat) (sh : Shard) (st : Mesh) : Mesh :=
  match pc sh with
  | PushAdd dst batch next =>
      set_shard i (goto (PushOpen dst batch next) sh) (set_total (total_pending_count st + 1) st)
  | PushOpen dst batch next =>
      if closed (recv_queue st dst) then set_shard i (goto (after_push next) sh) (count_push st)
      else set_shard i (goto (PushItem dst batch next) sh) st
  | PushItem dst batch next =>
      let q := recv_queue st dst in
      set_shard i (goto (after_push next) sh) (count_push (set_recv dst (mkRecvQueue (items q ++ [batch]) (closed q)) st))
  | _ => st
  end.

(** [pop_next] with a branch in the local queue, and the rest of the round. *)
(* @ src/batteries/state_machine_model/exhaustive_model_checker.hpp 310-376 ExhaustiveModelChecker::run *)
Definition round_step (i : nat) (sh : Shard) (loop_counter : Z) (st : Mesh) : Mesh :=
  local_step (c ← take_next hash (shard_count st) i (checker sh); expand mdl hash (shard_count st) i c) i sh
    (fun r => goto (Sending (if (r.2 : bool) then SentLoop (u64 (loop_counter + 1)) else SentFlush ToClose))
                (set_checker r.1 sh)) st.

(** A batch is taken from the queue of shard [i]; it goes to the local queue
    without the duplicates. *)
(* @ src/batteries/state_machine_model/parallel_model_check_state.hpp 137-149 ParallelModelCheckState::recv *)
Definition transfer_batch (i : nat) (sh : Shard) (batch : list (Branch St)) (rest : list (list (Branch St)))
    (next : Pc St) (st : Mesh) : Mesh :=
  local_step (receive batch (checker sh)) i sh
    (fun c => goto next (set_consume (local_consume_count sh + 1) (set_checker c sh)))
    (count_pop (set_recv i (mkRecvQueue rest (closed (recv_queue st i))) st)).

(* @ src/batteries/state_machine_model/parallel_model_check_state.hpp 131-204 ParallelModelCheckState::recv *)
Definition recv_step (i : nat) (sh : Shard) (st : Mesh) : Mesh :=
  match pc sh with
  | TryPop lc =>
      match items (recv_queue st i) with
      | batch :: rest => transfer_batch i sh batch rest (PopNext lc) st
      | [] => set_shard i (goto (SetStalled 0 lc) sh) st
      end
  | SetStalled other lc =>
      if (other <? shard_count st)%nat then set_shard i (goto (SetStalled (S other) lc) sh) (set_stalled other i true st)
      else set_shard i (goto (Flushing 0 (ToAck lc)) sh) st
  | Ack lc =>
      let n_to_consume := local_consume_count sh in
      let total := total_pending_count st - n_to_consume in
      set_shard i (goto (if total =? 0 then Closing 0 false lc else AwaitNext lc) (set_consume 0 sh)) (set_total total st)
  | AwaitNext lc =>
      match items (recv_queue st i) with
      | batch :: rest => transfer_batch i sh batch rest (ResetStalled 0 (Some lc)) st
      | [] => if closed (recv_queue st i) then set_shard i (goto (ResetStalled 0 None) sh) st else st
      end
  | ResetStalled other received =>
      if (other <? shard_count st)%nat then set_shard i (goto (ResetStalled (S other) received) sh) (set_stalled other i false st)
      else set_shard i (goto (match received with Some lc => PopNext lc | None => Flushing 0 ToClose end) sh) st
  | _ => st
  end.

(** [waited]: the queue was not empty, and the shard has slept. *)
(* @ src/batteries/state_machine_model/parallel_model_check_state.hpp 206-221 ParallelModelCheckState::close_all *)
Definition close_step (i : nat) (sh : Shard) (st : Mesh) : Mesh :=
  match pc sh with
  | Closing dst waited lc =>
      if (dst <? shard_count st)%nat then
        match items (recv_queue st dst) with
        | [] => set_shard i (goto (CloseOther dst lc) sh) st
        | _ => if waited then panic (pc sh) st else set_shard i (goto (Closing dst true lc) sh) st
        end
      else set_shard i (goto (AwaitNext lc) sh) st
  | CloseOther dst lc =>
      set_shard i (goto (Closing (S dst) false lc) sh) (set_recv dst (mkRecvQueue (items (recv_queue st dst)) true) st)
  | _ => st
  end.

(* @ src/batteries/state_machine_model/parallel_model_check_state.hpp 223-228 ParallelModelCheckState::finished *)
Definition finish_step (i : nat) (sh : Shard) (st : Mesh) : Mesh :=
  let q := recv_queue st i in
  match pc sh with
  | CloseOwn => set_shard i (goto Drain sh) (set_recv i (mkRecvQueue (items q) true) st)
  | Drain =>
      match items q with
      | _ :: rest => count_pop (set_recv i (mkRecvQueue rest (closed q)) st)
      | [] => set_shard i (goto Returned sh) st
      end
  | _ => st
  end.

(* @ src/batteries/state_machine_model/parallel_model_check_state.hpp 230-235 ParallelModelCheckState::wait_for_other_shards *)
Definition barrier_step (i : nat) (sh : Shard) (st : Mesh) : Mesh :=
  match pc sh with
  | Arrive => set_shard i (goto AwaitOthers sh) (set_barrier (barrier_ st - 1) st)
  | AwaitOthers => if barrier_ st =? 0 then set_shard i (goto CheckPending sh) st else st
  | _ => st
  end.

(* @ src/batteries/state_machine_model/exhaustive_model_checker.hpp 192-216 ExhaustiveModelChecker::enter_loop *)
Definition enter_loop (i : nat) (sh : Shard) (loop_counter : Z) (st : Mesh) : Mesh :=
  if ((loop_counter + 1) mod between_flush =? 0) && (1 <? shard_count st)%nat
  then set_shard i (goto (Flushing 0 (ToPopNext loop_counter)) sh) st
  else set_shard i (goto (PopNext loop_counter) sh) st.

(* @ src/batteries/state_machine_model/exhaustive_model_checker.hpp 275-379 ExhaustiveModelChecker::run *)
Definition shard_step (i : nat) (sh : Shard) (st : Mesh) : Mesh :=
  match pc sh with
  | Start =>
      local_step (start_run mdl hash (shard_count st) i (checker sh)) i sh
        (fun c => goto (Sending (SentFlush ToArrive)) (set_checker c sh)) st
  | Sending next => send_step i sh next st
  | Flushing dst next => flush_step i sh dst next st
  | PushAdd _ _ _ | PushOpen _ _ _ | PushItem _ _ _ => push_step i sh st
  | Arrive | AwaitOthers => barrier_step i sh st
  | CheckPending =>
      if 0 <? total_pending_count st
      then set_shard i (goto (LoopTop 0) (set_checker (begin_search (checker sh)) sh)) st
      else panic CheckPending st
  | LoopTop lc => enter_loop i sh lc st
  | PopNext lc =>
      match queue_ (checker sh) with
      | [] => set_shard i (goto (TryPop lc) sh) st
      | _ => round_step i sh lc st
      end
  | TryPop _ | SetStalled _ _ | Ack _ | AwaitNext _ | ResetStalled _ _ => recv_step i sh st
  | Closing _ _ _ | CloseOther _ _ => close_step i sh st
  | CloseOwn | Drain => finish_step i sh st
  | Returned => st
  end.

Definition mesh_step (i : nat) (st : Mesh) : Mesh :=
  match panicked st, shard_states st !! i with
  | None, Some sh => shard_step i sh st
  | _, _ => st
  end.

Definition run_mesh (schedule : list nat) (st : Mesh) : Mesh := foldl (fun st i => mesh_step i st) st schedule.

Definition new_checker : Checker St M := mkChecker m0 ∅ None new_delta [] new_result [].

(* @ src/batteries/state_machine_model/parallel_model_check_state.hpp 50-82 ParallelModelCheckState::ParallelModelCheckState *)
Definition new_mesh (n_shards : nat) : Mesh :=
  mkMesh (replicate n_shards (mkShard new_checker (replicate n_shards []) 0 Start))
    (replicate n_shards (mkRecvQueue [] false)) 0 (replicate n_shards (replicate n_shards false))
    (Z.of_nat n_shards) 0 0 None.
End Mesh.
