(* ===== verification/ModelCheckSafe.v ===== *)
(** * The model checker: what every step of a shard preserves

    Two invariants of the mesh of [ModelCheckMesh], for any number of shards
    and any interleaving.  [safe]: branches are where they belong, lead to
    reachable states, and a shard that has stopped has seen a violation.
    [protocol]: the counters that detect the end of the search. *)

From S2P Require Export ModelCheckMesh.
Open Scope Z_scope.

Section Safe.
Context `{Countable St, !Inhabited St} {M : Type}.
Variable (mdl : StateMachineModel St M) (m0 : M) (hash : Branch St -> Z) (between_flush : Z) (n : nat).
Hypothesis hash_in_range : hash_ok hash n.
Hypothesis model_fits : model_ok mdl m0.

Notation owner := (find_shard hash n).
Notation Shard := (Shard St M).
Notation Mesh := (Mesh St M).
Notation Checker := (Checker St M).
Notation Branch := (Branch St).

(** ** Branches *)

(** [b] makes no picks of its own. *)
Definition is_root (b : Branch) : Prop := empty (delta b) = Done true.

(** [b] makes picks that a run from a reachable state makes. *)
Definition good (b : Branch) : Prop :=
  (is_root b -> b = root_branch (snapshot b)) /\
  exists p t, branch_at (snapshot b) b p /\ reachable mdl m0 (snapshot b) /\
    follow (step_of mdl m0 (snapshot b)) p = Some t.

Lemma good_picks (b : Branch) :
  good b -> exists p t, branch_at (snapshot b) b p /\ reachable mdl m0 (snapshot b) /\
    follow (step_of mdl m0 (snapshot b)) p = Some t /\ valid_step t /\ represents (delta b) p /\
    empty (delta b) = Done (bool_decide (p = [])).
Proof.
  intros (_ & p & t & [Hs Hc] & Hr & Hf). destruct model_fits as [_ Hsteps _].
  destruct (follow_valid _ _ _ (Hsteps _ Hr) Hf) as (Hv & Hp & Hi).
  assert (represents (delta b) p) as R by (by apply coded_represents).
  exists p, t. split_and!; try done. by apply represents_empty.
Qed.

Lemma good_root (s : St) : reachable mdl m0 s -> good (root_branch s).
Proof.
  intros Hr. destruct (follow_some (step_of mdl m0 s)) as [t Ht]; [by apply model_fits|].
  split; [done|]. exists [], t. split_and!; [|done|done]. split; [done|apply coded_new].
Qed.

Lemma root_is_root (s : St) : is_root (root_branch s).
Proof. done. Qed.

Lemma good_is_root (b : Branch) : good b -> is_root b -> branch_at (snapshot b) b [].
Proof.
  intros Hg Hr. destruct (good_picks b Hg) as (p & t & Hb & _ & _ & _ & _ & He). unfold is_root in Hr.
  rewrite He in Hr. injection Hr as Hr. apply bool_decide_eq_true in Hr. by subst p.
Qed.

Lemma siblings_good (s : St) (p : list item) (t : Step M) (bs : list Branch) :
  reachable mdl m0 s -> follow (step_of mdl m0 s) p = Some t -> Forall2 (branch_at s) bs (siblings t p) ->
  Forall (fun b => snapshot b = s /\ good b /\ ~ is_root b) bs.
Proof.
  intros Hr Hf HF. assert (valid_step (step_of mdl m0 s)) as Hv by (by apply model_fits).
  destruct (follow_valid _ _ _ Hv Hf) as (Hvt & _ & _).
  apply list.Forall_forall. intros b Hb. apply list_elem_of_lookup in Hb as [k Hb].
  destruct (Forall2_lookup_l _ _ _ _ _ HF Hb) as (q & Hq & [Hsn Hc]).
  apply list_elem_of_lookup_2 in Hq.
  destruct (siblings_follow t p q Hvt Hq) as (q' & -> & Hne & [t' Ht']).
  assert (follow (step_of mdl m0 s) (p ++ q') = Some t') as Hf' by (by rewrite follow_app, Hf).
  assert (~ is_root b) as Hnr; [|by split_and!; [|split; [|exists (p ++ q'), t'; rewrite Hsn]|]].
  unfold is_root. destruct (follow_valid _ _ _ Hv Hf') as (_ & Hp' & Hi').
  rewrite (represents_empty _ (p ++ q') (coded_represents _ _ Hc Hp') Hi').
  intros [= E%bool_decide_eq_true]. by apply app_eq_nil in E as [_ ?].
Qed.

(** ** The local computations do not panic *)

Record arrived (batch : list Branch) (c c' : Checker) : Prop := {
  arrived_sublist : queue_ c' `sublist_of` batch;
  arrived_picks : forall b, b ∈ batch -> ~ is_root b -> b ∈ queue_ c';
  arrived_visited : forall s, s ∈ dom (visited_ c') <->
    s ∈ dom (visited_ c) \/ exists b, b ∈ batch /\ is_root b /\ snapshot b = s;
  arrived_new : forall s, s ∈ dom (visited_ c') -> s ∉ dom (visited_ c) ->
    exists b, b ∈ queue_ c' /\ is_root b /\ snapshot b = s;
  arrived_sent : sent c' = sent c;
  arrived_history : history_ c' = history_ c;
  arrived_ok : ok (result_ c') = ok (result_ c);
  arrived_count : state_count (result_ c') = state_count (result_ c) }.

Lemma deduplicate_spec (batch : list Branch) (v : gmap St Branch) :
  Forall good batch ->
  exists kept v', deduplicate batch v = Done (kept, v') /\ kept `sublist_of` batch /\
    (forall b, b ∈ batch -> ~ is_root b -> b ∈ kept) /\
    (forall s, s ∈ dom v' <-> s ∈ dom v \/ exists b, b ∈ batch /\ is_root b /\ snapshot b = s) /\
    (forall s, s ∈ dom v' -> s ∉ dom v -> exists b, b ∈ kept /\ is_root b /\ snapshot b = s).
Proof.
  revert v. induction batch as [|b batch IH]; intros v Hg.
  - exists [], v. split_and!; [done|done|by intros b ?%elem_of_nil| |done].
    intros s. split; [by left|]. intros [?|(b & ?%elem_of_nil & _)]; done.
  - apply Forall_cons_1 in Hg as [Hb Hg]. destruct (good_picks b Hb) as (p & _ & _ & _ & _ & _ & _ & He).
    simpl. rewrite He. simpl. destruct (bool_decide (p = [])) eqn:Ep.
    + unfold visit. destruct (v !! snapshot b) as [src|] eqn:Ev.
      * destruct (IH v Hg) as (kept & v' & E & Hs & Hp & Hd & Hn). rewrite E. simpl.
        exists kept, v'. apply elem_of_dom_2 in Ev as Ev'. split_and!; [done|by constructor| | |done].
        -- intros b' [->|Hb']%elem_of_cons Hr; [done|by apply Hp].
        -- intros s. rewrite Hd. split; [intros [?|(b' & ? & ?)]; [by left|right; exists b'; set_solver]|].
           intros [?|(b' & [->|?]%elem_of_cons & ? & <-)]; [by left|by left|right; by exists b'].
      * destruct (IH (<[snapshot b := root_branch inhabitant]> v) Hg) as (kept & v' & E & Hs & Hp & Hd & Hn).
        rewrite E. simpl. exists (b :: kept), v'. split_and!; [done|by constructor| | |].
        -- intros b' [->|Hb']%elem_of_cons Hr; [by left|right; by apply Hp].
        -- intros s. rewrite Hd, dom_insert. split.
           ++ intros [[->%elem_of_singleton|?]%elem_of_union|(b' & ? & ?)]; [right; exists b|by left|right; exists b']; set_solver.
           ++ intros [?|(b' & [->|?]%elem_of_cons & ? & <-)]; [set_solver..|right; by exists b'].
        -- intros s Hs' Hns. destruct (decide (s = snapshot b)) as [->|Hne]; [exists b; set_solver|].
           destruct (Hn s Hs') as (b' & ? & ?); [rewrite dom_insert; set_solver|]. exists b'. set_solver.
    + destruct (IH v Hg) as (kept & v' & E & Hs & Hp & Hd & Hn). rewrite E. simpl.
      assert (~ is_root b) as Hnr by (unfold is_root; by rewrite He).
      exists (b :: kept), v'. split_and!; [done|by constructor| | |].
      * intros b' [->|Hb']%elem_of_cons Hr; [by left|right; by apply Hp].
      * intros s. rewrite Hd. split; [intros [?|(b' & ? & ?)]; [by left|right; exists b'; set_solver]|].
        intros [?|(b' & [->|?]%elem_of_cons & ? & <-)]; [by left|done|right; by exists b'].
      * intros s Hs' Hns. destruct (Hn s Hs' Hns) as (b' & ? & ?). exists b'. set_solver.
Qed.

Lemma receive_spec (batch : list Branch) (c : Checker) :
  queue_ c = [] -> batch <> [] -> Forall good batch -> exists c', receive batch c = Done c' /\ arrived batch c c'.
Proof.
  intros Hq Hne Hg. unfold receive. rewrite Hq. simpl. destruct batch as [|b batch]; [done|].
  destruct (deduplicate_spec _ (visited_ c) Hg) as (kept & v' & E & Hs & Hp & Hd & Hn).
  cbn [check length Nat.ltb Nat.leb mbind outcome_bind]. rewrite E. simpl. eexists. split; [reflexivity|]. by split.
Qed.

Lemma round_spec (i : nat) (c : Checker) (b : Branch) (rest : list Branch) :
  queue_ c = b :: rest -> owner b = i -> good b -> (exists h, coded (history_ c) h) ->
  exists c' more p t bs,
    (take_next hash n i c ≫= fun c => expand mdl hash n i c) = Done (c', more) /\
    branch_at (snapshot b) b p /\ reachable mdl m0 (snapshot b) /\
    follow (step_of mdl m0 (snapshot b)) p = Some t /\ valid_step t /\
    (exists h, coded (history_ c') h) /\
    if (more : bool) then explored mdl m0 hash n i (snapshot b) p t bs (set_queue rest c) c'
    else stopped mdl m0 hash n i (snapshot b) p t bs (set_queue rest c) c'.
Proof.
  intros Hq Ho Hg [h Hh]. destruct (good_picks b Hg) as (p & t & Hb & Hr & Hf & Hv & _ & _).
  unfold take_next. rewrite Hq, Ho, Nat.eqb_refl. simpl.
  edestruct (expand_spec mdl m0 hash n i hash_in_range model_fits) as (c' & more & bs & E & Hh' & Hx);
    [..|exists c', more, p, t, bs; split_and!; [exact E|done|done|done|done|done|]]; try done.
  - simpl. by apply (coded_clear _ h).
  - destruct more; destruct Hx; split; done.
Qed.

Definition first_branch : Branch := root_branch (normalize mdl (initialize mdl)).

Lemma start_spec (i : nat) (c : Checker) :
  (exists h, coded (history_ c) h) ->
  exists c', start_run mdl hash n i c = Done c' /\ queue_ c' = [] /\ dom (visited_ c') = ∅ /\
    sent c' = sent c ++ [(owner first_branch, first_branch)] /\ (exists h, coded (history_ c') h) /\
    ok (result_ c') = ok (result_ c).
Proof.
  intros [h Hh]. unfold start_run, explore. fold first_branch.
  pose proof (owner_lt hash n hash_in_range first_branch) as Hlt%Nat.ltb_lt.
  rewrite Hlt, andb_false_r. simpl. eexists. split; [reflexivity|].
  destruct (owner first_branch =? i)%nat; simpl;
    (split_and!; [done|by rewrite dom_empty_L|done|exists []; by apply (coded_clear _ h)|done]).
Qed.

(** ** Where a shard is *)

Definition flush_early (next : AfterFlush) : bool := match next with ToArrive => true | _ => false end.

Definition send_early (next : AfterSend) : bool := match next with SentFlush f => flush_early f | _ => false end.

Definition push_early (next : AfterPush) : bool :=
  match next with BackToSend s => send_early s | BackToFlush _ f => flush_early f end.

(** The shard has not yet arrived at the barrier. *)
Definition early (p : Pc St) : bool :=
  match p with
  | Start | Arrive => true
  | Sending s => send_early s
  | PushAdd _ _ k | PushOpen _ _ k | PushItem _ _ k => push_early k
  | Flushing _ f => flush_early f
  | _ => false
  end.

Definition at_barrier (p : Pc St) : bool := match p with AwaitOthers | CheckPending => true | _ => false end.

(** The shard has begun to search. *)
Definition begun (p : Pc St) : bool := negb (early p) && negb (at_barrier p).

Definition flush_ending (next : AfterFlush) : bool := match next with ToClose => true | _ => false end.

(** The shard has left the loop. *)
Definition ending (p : Pc St) : bool :=
  match p with
  | Sending (SentFlush f) | PushAdd _ _ (BackToSend (SentFlush f)) | PushOpen _ _ (BackToSend (SentFlush f))
  | PushItem _ _ (BackToSend (SentFlush f)) | PushAdd _ _ (BackToFlush _ f) | PushOpen _ _ (BackToFlush _ f)
  | PushItem _ _ (BackToFlush _ f) | Flushing _ f => flush_ending f
  | ResetStalled _ None | CloseOwn | Drain | Returned => true
  | _ => false
  end.

(** The shard is about to close every queue. *)
Definition is_closing (p : Pc St) : bool := match p with Closing _ _ _ | CloseOther _ _ => true | _ => false end.

(** The batch that is on its way to a queue. *)
Definition pc_batch (p : Pc St) : option (nat * list Branch) :=
  match p with
  | PushAdd d batch _ | PushOpen d batch _ | PushItem d batch _ => Some (d, batch)
  | _ => None
  end.

(** ... and has been counted. *)
Definition counted (p : Pc St) : bool := match p with PushOpen _ _ _ | PushItem _ _ _ => true | _ => false end.

(** ** Branches are where they belong *)

(** The shard has handed over [b] for shard [d], and no other shard can see it yet. *)
Definition shard_out (sh : Shard) (d : nat) (b : Branch) : Prop :=
  (d, b) ∈ sent (checker sh) \/ (exists row, send_queues sh !! d = Some row /\ b ∈ row) \/
  exists batch, pc_batch (pc sh) = Some (d, batch) /\ b ∈ batch.

Record safe_shard (i : nat) (sh : Shard) : Prop := {
  safe_rows : length (send_queues sh) = n;
  safe_out : forall d b, shard_out sh d b -> d = owner b /\ good b;
  safe_batch : forall d batch, pc_batch (pc sh) = Some (d, batch) -> batch <> [];
  safe_local : forall b, b ∈ queue_ (checker sh) -> owner b = i /\ good b;
  safe_visited : forall s, s ∈ dom (visited_ (checker sh)) -> reachable mdl m0 s;
  safe_history : exists h, coded (history_ (checker sh)) h;
  safe_ok : begun (pc sh) = true -> ok (result_ (checker sh)) = false -> violation mdl m0 }.

Definition safe_queue (j : nat) (q : RecvQueue St) : Prop :=
  forall batch, batch ∈ items q -> batch <> [] /\ forall b, b ∈ batch -> owner b = j /\ good b.

Record safe (st : Mesh) : Prop := {
  safe_count : shard_count st = n;
  safe_recv : length (recv_queues st) = n;
  safe_shards : forall i sh, shard_states st !! i = Some sh -> safe_shard i sh;
  safe_queues : forall j q, recv_queues st !! j = Some q -> safe_queue j q }.

(** ** What a shard has left to do when it is somewhere *)

Definition rows_empty (sh : Shard) (k : nat) : Prop :=
  forall d row, (d < k)%nat -> send_queues sh !! d = Some row -> row = [].

Definition has_work (sh : Shard) : Prop := queue_ (checker sh) <> [] \/ exists d b, shard_out sh d b.

Definition flush_pos (sh : Shard) (d : nat) (next : AfterFlush) : Prop :=
  sent (checker sh) = [] /\ rows_empty sh d /\
  match next with ToArrive | ToAck _ => queue_ (checker sh) = [] | _ => True end.

Definition send_pos (sh : Shard) (next : AfterSend) : Prop :=
  match next with SentFlush ToArrive => queue_ (checker sh) = [] | SentFlush (ToAck _) => False | _ => True end.

Definition push_pos (sh : Shard) (next : AfterPush) : Prop :=
  match next with BackToSend s => send_pos sh s | BackToFlush d f => flush_pos sh d f end.

Definition position (sh : Shard) : Prop :=
  match pc sh with
  | Start => queue_ (checker sh) = [] /\ sent (checker sh) = [] /\ rows_empty sh n
  | Sending s => send_pos sh s
  | PushAdd _ _ k | PushOpen _ _ k | PushItem _ _ k => push_pos sh k
  | Flushing d f => flush_pos sh d f
  | Arrive | Ack _ => queue_ (checker sh) = [] /\ sent (checker sh) = [] /\ rows_empty sh n
  | AwaitOthers | CheckPending | Closing _ _ _ | AwaitNext _ => local_consume_count sh = 0
  | CloseOther d _ => local_consume_count sh = 0 /\ (d < n)%nat
  | TryPop _ | SetStalled _ _ => queue_ (checker sh) = [] /\ sent (checker sh) = []
  | LoopTop _ | PopNext _ | ResetStalled _ _ => sent (checker sh) = []
  | CloseOwn | Drain | Returned => sent (checker sh) = [] /\ rows_empty sh n
  end.

Record local_protocol (sh : Shard) : Prop := {
  consume_nonneg : 0 <= local_consume_count sh;
  consume_early : early (pc sh) = true -> local_consume_count sh = 0;
  consume_work : early (pc sh) = false -> has_work sh -> 1 <= local_consume_count sh;
  in_position : position sh }.

(** A shard has found a violation. *)
Definition broken (st : Mesh) : Prop :=
  exists i sh, shard_states st !! i = Some sh /\ begun (pc sh) = true /\ ok (result_ (checker sh)) = false.

(** Nothing is pending, and every shard has passed the barrier. *)
Definition quiet (st : Mesh) : Prop := total_pending_count st = 0 /\ barrier_ st = 0.

(** The batches that a shard has counted and not acknowledged. *)
Definition unacked (sh : Shard) : Z := local_consume_count sh + Z.b2z (counted (pc sh)).

Definition queued (q : RecvQueue St) : Z := Z.of_nat (length (items q)).

Definition pending_batches (st : Mesh) : Z :=
  sum (unacked <$> shard_states st) + sum (queued <$> recv_queues st).

Record protocol (st : Mesh) : Prop := {
  protocol_local : forall i sh, shard_states st !! i = Some sh -> local_protocol sh;
  protocol_barrier : barrier_ st = cnt (fun sh => early (pc sh)) (shard_states st);
  protocol_passed : forall i sh, shard_states st !! i = Some sh ->
    early (pc sh) = false -> pc sh <> AwaitOthers -> barrier_ st = 0;
  protocol_total : pending_batches st <= total_pending_count st;
  protocol_exact : total_pending_count st = pending_batches st \/ broken st;
  protocol_closing : forall i sh, shard_states st !! i = Some sh -> is_closing (pc sh) = true -> quiet st;
  protocol_ending : forall i sh, shard_states st !! i = Some sh -> ending (pc sh) = true -> quiet st \/ broken st;
  protocol_closed : forall j q, recv_queues st !! j = Some q -> closed q = true -> quiet st \/ broken st }.

(** ** Updates *)

Lemma safe_same (st st' : Mesh) :
  shard_states st' = shard_states st -> recv_queues st' = recv_queues st -> safe st -> safe st'.
Proof. intros Es Er [C R S Q]. split; unfold shard_count in *; rewrite ?Es, ?Er; done. Qed.

Lemma safe_set_shard (st : Mesh) (i : nat) (sh : Shard) :
  safe st -> safe_shard i sh -> safe (set_shard i sh st).
Proof.
  intros [C R S Q] Hsh. split; unfold shard_count in *; simpl; rewrite ?length_insert; try done.
  intros j sh' Hj. destruct (decide (i = j)) as [->|Hne].
  - destruct (decide (j < length (shard_states st))%nat) as [Hlt|Hge].
    + rewrite list_lookup_insert_eq in Hj by done. by injection Hj as <-.
    + rewrite list_insert_ge in Hj by lia. by apply S.
  - rewrite list_lookup_insert_ne in Hj by done. by apply S.
Qed.

Lemma safe_set_recv (st : Mesh) (j : nat) (q : RecvQueue St) : safe st -> safe_queue j q -> safe (set_recv j q st).
Proof.
  intros [C R S Q] Hq. split; unfold shard_count in *; simpl; rewrite ?length_insert; try done.
  intros k q' Hk. destruct (decide (j = k)) as [->|Hne].
  - destruct (decide (k < length (recv_queues st))%nat) as [Hlt|Hge].
    + rewrite list_lookup_insert_eq in Hk by done. by injection Hk as <-.
    + rewrite list_insert_ge in Hk by lia. by apply Q.
  - rewrite list_lookup_insert_ne in Hk by done. by apply Q.
Qed.

Lemma safe_recv_queue (st : Mesh) (j : nat) : safe st -> safe_queue j (recv_queue st j).
Proof.
  intros [_ _ _ Q]. unfold recv_queue. destruct (recv_queues st !! j) as [q|] eqn:E; [by apply Q|].
  intros batch Hb. by apply elem_of_nil in Hb.
Qed.

(** Only the place changes. *)
Lemma safe_goto (i : nat) (sh : Shard) (p : Pc St) :
  safe_shard i sh -> (pc_batch p = None \/ pc_batch p = pc_batch (pc sh)) ->
  (begun p = true -> begun (pc sh) = true) -> safe_shard i (goto p sh).
Proof.
  intros [Sr So Sb Sl Sv Sh Sk] Hp Hb. split; simpl; try done.
  - intros d b [Hs|[Hr|(batch & Hpb & Hin)]]; [apply So; by left|apply So; right; by left|].
    destruct Hp as [Hp|Hp]; simpl in Hpb; [by rewrite Hp in Hpb|]. apply So. right. right. exists batch. by rewrite <- Hp.
  - intros d batch Hpb. destruct Hp as [Hp|Hp]; [by rewrite Hp in Hpb|]. apply (Sb d). by rewrite <- Hp.
  - intros Hp'. by apply Sk, Hb.
Qed.

Lemma begun_after_flush (d : nat) (f : AfterFlush) : begun (after_flush f : Pc St) = begun (Flushing d f).
Proof. by destruct f. Qed.

Lemma begun_after_send (k : AfterSend) : begun (after_send k : Pc St) = begun (Sending k).
Proof. by destruct k as [|[]]. Qed.

Lemma begun_after_push (d : nat) (batch : list Branch) (k : AfterPush) :
  begun (after_push k : Pc St) = begun (PushItem d batch k).
Proof. by destruct k. Qed.

Lemma pc_batch_after_flush (f : AfterFlush) : pc_batch (after_flush f : Pc St) = None.
Proof. by destruct f. Qed.

Lemma pc_batch_after_send (k : AfterSend) : pc_batch (after_send k : Pc St) = None.
Proof. by destruct k. Qed.

Lemma pc_batch_after_push (k : AfterPush) : pc_batch (after_push k : Pc St) = None.
Proof. by destruct k. Qed.

(** A batch leaves a row for [queue_push]. *)
Lemma safe_take_row (i : nat) (sh : Shard) (d : nat) (batch : list Branch) (p : Pc St) :
  safe_shard i sh -> pc_batch p = Some (d, batch) -> batch <> [] ->
  (forall b, b ∈ batch -> d = owner b /\ good b) ->
  (begun p = true -> begun (pc sh) = true) -> safe_shard i (goto p (set_row d [] sh)).
Proof.
  intros [Sr So Sb Sl Sv Sh Sk] Hp Hne Hg Hb. split; simpl; try done.
  - by rewrite length_insert.
  - intros d' b [Hs|[(row & Hr & Hin)|(batch' & Hpb & Hin)]].
    + apply So. by left.
    + simpl in Hr. destruct (decide (d = d')) as [->|Hne'].
      * apply list_lookup_insert_Some in Hr as [(_ & <- & _)|[? _]]; [by apply elem_of_nil in Hin|done].
      * rewrite list_lookup_insert_ne in Hr by done. apply So. right. left. by exists row.
    + simpl in Hpb. rewrite Hp in Hpb. injection Hpb as <- <-. by apply Hg.
  - intros d' batch' Hpb. rewrite Hp in Hpb. by injection Hpb as <- <-.
  - intros Hb'. by apply Sk, Hb.
Qed.

(** The first branch that was handed over joins its row. *)
Lemma safe_send (i : nat) (sh : Shard) (d : nat) (b : Branch) (rest : list (nat * Branch)) :
  safe_shard i sh -> sent (checker sh) = (d, b) :: rest -> pc_batch (pc sh) = None ->
  let batch := default [] (send_queues sh !! d) ++ [b] in
  (forall b', b' ∈ batch -> d = owner b' /\ good b') /\
  safe_shard i (set_row d batch (set_checker (set_sent rest (checker sh)) sh)).
Proof.
  intros [Sr So Sb Sl Sv Sh Sk] Hs Hp batch.
  assert (forall b', b' ∈ batch -> d = owner b' /\ good b') as Hg.
  { intros b' [Hb'|Hb']%elem_of_app.
    - destruct (send_queues sh !! d) as [row|] eqn:E; [|by apply elem_of_nil in Hb'].
      apply So. right. left. by exists row.
    - apply list_elem_of_singleton in Hb' as ->. apply So. left. rewrite Hs. by left. }
  split; [done|]. split; simpl; try done.
  - by rewrite length_insert.
  - intros d' b' [Hs'|[(row & Hr & Hin)|(batch' & Hpb & Hin)]].
    + simpl in Hs'. apply So. left. rewrite Hs. by right.
    + simpl in Hr. apply list_lookup_insert_Some in Hr as [(<- & <- & _)|[? Hr]]; [by apply Hg|].
      apply So. right. left. by exists row.
    + simpl in Hpb. by rewrite Hp in Hpb.
Qed.

Lemma good_reachable (b : Branch) : good b -> reachable mdl m0 (snapshot b).
Proof. by intros (_ & _ & _ & _ & Hr & _). Qed.

Lemma received (st : Mesh) (i : nat) (sh : Shard) (batch : list Branch) (rest : list (list Branch)) :
  safe st -> items (recv_queue st i) = batch :: rest -> queue_ (checker sh) = [] ->
  exists c, receive batch (checker sh) = Done c /\ arrived batch (checker sh) c /\
    (forall b, b ∈ batch -> owner b = i /\ good b).
Proof.
  intros Hs Hi Hq. destruct (safe_recv_queue st i Hs batch) as [Hne Hg]; [rewrite Hi; by left|].
  destruct (receive_spec batch (checker sh) Hq Hne) as (c & E & A); [|by exists c].
  apply list.Forall_forall. intros b Hb. by apply Hg.
Qed.

Lemma safe_transfer (st : Mesh) (i : nat) (sh : Shard) (batch : list Branch) (rest : list (list Branch)) (p : Pc St) :
  safe st -> safe_shard i sh -> items (recv_queue st i) = batch :: rest -> queue_ (checker sh) = [] ->
  pc_batch p = None -> pc_batch (pc sh) = None -> (begun p = true -> begun (pc sh) = true) ->
  safe (transfer_batch i sh batch rest p st).
Proof.
  intros Hs [Sr So Sb Sl Sv Sh Sk] Hi Hq Hp Hp' Hb.
  destruct (received st i sh batch rest Hs Hi Hq) as (c & E & [As Ap Av An At Ah Ao _] & Hg).
  unfold transfer_batch. rewrite E. simpl. apply safe_set_shard.
  - apply (safe_same (set_recv i (mkRecvQueue rest (closed (recv_queue st i))) st)); [done|done|].
    apply safe_set_recv; [done|]. intros batch' Hb'. apply (safe_recv_queue st i Hs). rewrite Hi. by right.
  - split; simpl; try done.
    + intros d b [Hs'|[Hr|(batch' & Hpb & _)]]; simpl in *; [|apply So; right; by left|by rewrite Hp in Hpb].
      apply So. left. by rewrite <- At.
    + intros d batch' Hpb. by rewrite Hp in Hpb.
    + intros b Hb'. apply Hg. by eapply elem_of_sublist.
    + intros s Hs'. apply Av in Hs' as [Hs'|(b & Hb' & _ & <-)]; [by apply Sv|]. by apply good_reachable, Hg.
    + by rewrite Ah.
    + rewrite Ao. intros Hbp. by apply Sk, Hb.
Qed.

(** [explore] routes a branch to the shard it belongs to. *)
Lemma elem_of_locals (i : nat) (bs : list Branch) (b : Branch) :
  b ∈ locals hash n i bs <-> b ∈ bs /\ owner b = i.
Proof. unfold locals. rewrite list_elem_of_In, filter_In, <- list_elem_of_In. unfold is_local. by rewrite Nat.eqb_eq. Qed.

Lemma elem_of_remotes (i : nat) (bs : list Branch) (d : nat) (b : Branch) :
  (d, b) ∈ remotes hash n i bs <-> b ∈ bs /\ d = owner b /\ owner b <> i.
Proof.
  unfold remotes. rewrite list_elem_of_fmap. split.
  - intros (b' & [= -> ->] & Hb). apply list_elem_of_In, filter_In in Hb as [Hb Hn]. apply list_elem_of_In in Hb.
    unfold is_local in Hn. bool_cases. done.
  - intros (Hb & -> & Hn). exists b. split; [done|]. apply list_elem_of_In, filter_In. split; [by apply list_elem_of_In|].
    unfold is_local. by apply negb_true_iff, Nat.eqb_neq.
Qed.

Lemma explored_target (s : St) (p : list item) (t : Step M) (bs : list Branch) (i : nat) (c c' : Checker) :
  reachable mdl m0 s -> explored mdl m0 hash n i s p t bs c c' -> reachable mdl m0 (target mdl (least t)).
Proof. intros Hr X. eapply reachable_next; [exact Hr|]. by destruct X. Qed.

Lemma elem_of_discovered (s after : St) (v : gmap St Branch) (b : Branch) :
  b ∈ discovered s after v <-> after <> s /\ after ∉ dom v /\ b = root_branch after.
Proof.
  unfold discovered. rewrite not_elem_of_dom. destruct (decide (after = s)) as [->|Hne]; [rewrite elem_of_nil; naive_solver|].
  destruct (v !! after); [rewrite elem_of_nil; naive_solver|]. rewrite list_elem_of_singleton. naive_solver.
Qed.

(** The branches of a round make picks, from the same state. *)
Lemma round_siblings (more : bool) (s : St) (p : list item) (t : Step M) (bs : list Branch) (i : nat) (c c' : Checker) :
  reachable mdl m0 s -> follow (step_of mdl m0 s) p = Some t ->
  (if more then explored mdl m0 hash n i s p t bs c c' else stopped mdl m0 hash n i s p t bs c c') ->
  forall b, b ∈ bs -> snapshot b = s /\ good b /\ ~ is_root b.
Proof.
  intros Hr Hf X b Hb. assert (Forall2 (branch_at s) bs (siblings t p)) as HF.
  { destruct more; [by destruct X|]. destruct X as [_ _ [->|X] _ _ _ _]; [by apply elem_of_nil in Hb|done]. }
  pose proof (siblings_good _ _ _ _ Hr Hf HF) as HG. rewrite list.Forall_forall in HG. by apply HG.
Qed.

Lemma safe_round (st : Mesh) (i : nat) (sh : Shard) (lc : Z) :
  safe st -> safe_shard i sh -> pc sh = PopNext lc -> queue_ (checker sh) <> [] ->
  safe (round_step mdl hash i sh lc st).
Proof.
  intros Hs Hsh Hpc Hq. pose proof (safe_count _ Hs) as Hn. destruct (queue_ (checker sh)) as [|b rest] eqn:E; [done|].
  destruct (safe_local _ _ Hsh b) as [Ho Hg]; [rewrite E; by left|].
  destruct (round_spec i (checker sh) b rest E Ho Hg (safe_history _ _ Hsh)) as
    (c & more & p & t & bs & Er & Hb & Hr & Hf & Hv & Hh & X).
  unfold round_step. rewrite Hn. setoid_rewrite Er. simpl. apply safe_set_shard; [done|].
  destruct Hsh as [Sr So Sb Sl Sv Sh Sk]. rewrite E in Sl.
  assert (forall b', b' ∈ bs -> good b') as Hbs.
  { intros b' Hb'. by destruct (round_siblings _ _ _ _ _ _ _ _ Hr Hf X b' Hb') as (_ & ? & _). }
  split; simpl; try done.
  - intros d b' [Hs'|[Hrow|(batch & Hpb & _)]]; simpl in *; [|apply So; right; by left|by destruct more].
    destruct more.
    + pose proof (explored_target _ _ _ _ _ _ _ Hr X) as Ht. rewrite (explored_sent _ _ _ _ _ _ _ _ _ _ _ X) in Hs'.
      apply elem_of_app in Hs' as [Hs'|Hs']; [apply So; by left|].
      apply elem_of_remotes in Hs' as ([Hs'|Hs']%elem_of_app & -> & _); (split; [done|]); [by apply Hbs|].
      apply elem_of_discovered in Hs' as (_ & _ & ->). by apply good_root.
    + rewrite (stopped_sent _ _ _ _ _ _ _ _ _ _ _ X) in Hs'.
      apply elem_of_app in Hs' as [Hs'|Hs']; [apply So; by left|].
      apply elem_of_remotes in Hs' as (Hs' & -> & _). split; [done|]. by apply Hbs.
  - intros b' Hb'. destruct more.
    + pose proof (explored_target _ _ _ _ _ _ _ Hr X) as Ht. rewrite (explored_queue _ _ _ _ _ _ _ _ _ _ _ X) in Hb'.
      apply elem_of_app in Hb' as [Hb'|Hb']; [apply Sl; by right|].
      apply elem_of_locals in Hb' as ([Hb'|Hb']%elem_of_app & ->); (split; [done|]); [by apply Hbs|].
      apply elem_of_discovered in Hb' as (_ & _ & ->). by apply good_root.
    + rewrite (stopped_queue _ _ _ _ _ _ _ _ _ _ _ X) in Hb'.
      apply elem_of_app in Hb' as [Hb'|Hb']; [apply Sl; by right|].
      apply elem_of_locals in Hb' as [Hb' ->]. split; [done|]. by apply Hbs.
  - intros s Hs'. destruct more.
    + pose proof (explored_target _ _ _ _ _ _ _ Hr X) as Ht. rewrite (explored_visited _ _ _ _ _ _ _ _ _ _ _ X) in Hs'.
      destruct (decide _) in Hs'; [by apply Sv|]. apply elem_of_union in Hs' as [->%elem_of_singleton|Hs']; [done|by apply Sv].
    + rewrite (stopped_visited _ _ _ _ _ _ _ _ _ _ _ X) in Hs'. by apply Sv.
  - intros Hb' Hk. destruct more.
    + rewrite (explored_ok _ _ _ _ _ _ _ _ _ _ _ X) in Hk. apply Sk; [|done]. by rewrite Hpc.
    + exists (snapshot b). split; [done|]. by destruct X.
Qed.

Lemma no_work (sh : Shard) :
  local_protocol sh -> early (pc sh) = false -> local_consume_count sh = 0 -> ~ has_work sh.
Proof. intros [_ _ Hw _] He Hl Hh. specialize (Hw He Hh). lia. Qed.

Lemma waiting_queue (sh : Shard) (lc : Z) :
  local_protocol sh -> pc sh = TryPop lc \/ pc sh = AwaitNext lc -> queue_ (checker sh) = [].
Proof.
  intros L [E|E]; pose proof L as [_ _ _ P]; unfold position in P; rewrite E in P; [by destruct P|].
  destruct (queue_ (checker sh)) as [|b q] eqn:Eq; [done|]. exfalso.
  apply (no_work sh L); [by rewrite E|done|left; by rewrite Eq].
Qed.

Lemma safe_panic (p : Pc St) (st : Mesh) : safe st -> safe (panic p st).
Proof. by apply safe_same. Qed.

Lemma safe_start (st : Mesh) (i : nat) (sh : Shard) :
  safe st -> safe_shard i sh -> pc sh = Start ->
  safe (local_step (start_run mdl hash (shard_count st) i (checker sh)) i sh
    (fun c => goto (Sending (SentFlush ToArrive)) (set_checker c sh)) st).
Proof.
  intros Hs [Sr So Sb Sl Sv Sh Sk] E. rewrite (safe_count _ Hs).
  destruct (start_spec i (checker sh) Sh) as (c & -> & Hq & Hv & Hsent & Hh & Ho). simpl.
  apply safe_set_shard; [done|]. split; simpl; try done.
  - intros d b [Hs'|[Hrow|(batch & [=] & _)]]; [|apply So; right; by left]. simpl in Hs'. rewrite Hsent in Hs'.
    apply elem_of_app in Hs' as [Hs'|Hs']; [apply So; by left|].
    apply list_elem_of_singleton in Hs' as [= -> ->]. split; [done|]. apply good_root, reachable_initial.
  - intros b Hb. rewrite Hq in Hb. by apply elem_of_nil in Hb.
  - intros s Hs'. rewrite Hv in Hs'. by apply elem_of_empty in Hs'.
Qed.

Lemma safe_push (st : Mesh) (i : nat) (sh : Shard) :
  safe st -> safe_shard i sh -> pc_batch (pc sh) <> None -> safe (push_step i sh st).
Proof.
  intros Hs Hsh Hp. unfold push_step. destruct (pc sh) as [| |d batch k|d batch k|d batch k| | | | | | | | | | | | | | | |] eqn:E; try done.
  - apply safe_set_shard; [by apply (safe_same st)|]. apply safe_goto; [done|right; by rewrite E|by rewrite E].
  - destruct (closed (recv_queue st d)).
    + apply safe_set_shard; [by apply (safe_same st)|].
      apply safe_goto; [done|left; apply pc_batch_after_push|by rewrite E, (begun_after_push d batch)].
    + apply safe_set_shard; [done|]. apply safe_goto; [done|right; by rewrite E|by rewrite E].
  - apply safe_set_shard.
    + apply (safe_same (set_recv d (mkRecvQueue (items (recv_queue st d) ++ [batch]) (closed (recv_queue st d))) st)); [done..|].
      apply safe_set_recv; [done|]. intros b [Hb|Hb]%elem_of_app; [by apply (safe_recv_queue st d Hs)|].
      apply list_elem_of_singleton in Hb as ->. split; [apply (safe_batch _ _ Hsh d); by rewrite E|].
      intros b Hb. destruct (safe_out _ _ Hsh d b) as [-> Hg]; [|done]. right. right. exists batch. by rewrite E.
    + apply safe_goto; [done|left; apply pc_batch_after_push|by rewrite E, (begun_after_push d batch)].
Qed.

Lemma safe_send_step (st : Mesh) (i : nat) (sh : Shard) (k : AfterSend) :
  safe st -> safe_shard i sh -> pc sh = Sending k -> safe (send_step i sh k st).
Proof.
  intros Hs Hsh E. unfold send_step. destruct (sent (checker sh)) as [|[d b] rest] eqn:Es.
  - apply safe_set_shard; [done|]. apply safe_goto; [done|left; apply pc_batch_after_send|by rewrite E, begun_after_send].
  - destruct (safe_send i sh d b rest Hsh Es) as [Hg Hsh']; [by rewrite E|].
    destruct (default false _); apply safe_set_shard; try done.
    set (batch := default [] (send_queues sh !! d) ++ [b]) in *.
    eapply (safe_take_row i _ d batch (PushAdd d batch (BackToSend k))) in Hsh';
      [|done|subst batch; intros [_ ?]%app_eq_nil; done|done|by simpl; rewrite E].
    unfold set_row in Hsh'. simpl in Hsh'. by rewrite list_insert_insert_eq in Hsh'.
Qed.

Lemma safe_flush_step (st : Mesh) (i : nat) (sh : Shard) (d : nat) (f : AfterFlush) :
  safe st -> safe_shard i sh -> pc sh = Flushing d f -> safe (flush_step i sh d f st).
Proof.
  intros Hs Hsh E. unfold flush_step. destruct (d <? shard_count st)%nat.
  - destruct (default [] (send_queues sh !! d)) as [|b row] eqn:Er; apply safe_set_shard; try done.
    + apply safe_goto; [done|by left|by rewrite E].
    + apply (safe_take_row i sh d (b :: row)); [done|done|done| |by rewrite E].
      destruct (send_queues sh !! d) as [row'|] eqn:Erow; [|done]. simpl in Er. subst row'.
      intros b' Hb'. apply (safe_out _ _ Hsh). right. left. by eexists.
  - apply safe_set_shard; [done|].
    apply safe_goto; [done|left; apply pc_batch_after_flush|by rewrite E, (begun_after_flush d)].
Qed.

Lemma safe_recv_step (st : Mesh) (i : nat) (sh : Shard) :
  safe st -> safe_shard i sh -> local_protocol sh -> pc_batch (pc sh) = None -> safe (recv_step i sh st).
Proof.
  intros Hs Hsh Hl Hpb. unfold recv_step.
  destruct (pc sh) as [| | | | | | | | | | |lc|o lc|lc| | |lc|o r| | |] eqn:E; try done.
  - destruct (items (recv_queue st i)) as [|batch rest] eqn:Eq.
    + apply safe_set_shard; [done|]. apply safe_goto; [done|by left|by rewrite E].
    + apply safe_transfer; try done; [apply (waiting_queue sh lc Hl); by left|by rewrite E|by rewrite E].
  - destruct (o <? shard_count st)%nat; apply safe_set_shard; try done;
      [by apply (safe_same st)|..]; (apply safe_goto; [done|by left|by rewrite E]).
  - apply safe_set_shard; [by apply (safe_same st)|].
    destruct Hsh as [Sr So Sb Sl Sv Sh Sk]. split; simpl; try done; [..|intros _; apply Sk; by rewrite E].
    + intros d b [Hs'|[Hr|(batch & Hb & _)]]; [apply So; by left|apply So; right; by left|].
      simpl in Hb. by destruct (_ =? 0) in Hb.
    + intros d batch Hb. by destruct (_ =? 0) in Hb.
  - destruct (items (recv_queue st i)) as [|batch rest] eqn:Eq.
    + destruct (closed (recv_queue st i)); [|done]. apply safe_set_shard; [done|]. apply safe_goto; [done|by left|by rewrite E].
    + apply safe_transfer; try done; [apply (waiting_queue sh lc Hl); by right|by rewrite E|by rewrite E].
  - destruct (o <? shard_count st)%nat; apply safe_set_shard; try done;
      [by apply (safe_same st)|..]; (apply safe_goto; [done|by destruct r; left|by rewrite E]).
Qed.

Lemma safe_close_step (st : Mesh) (i : nat) (sh : Shard) :
  safe st -> safe_shard i sh -> safe (close_step i sh st).
Proof.
  intros Hs Hsh. unfold close_step.
  destruct (pc sh) as [| | | | | | | | | | | | | |d w lc|d lc| | | | |] eqn:E; try done.
  - destruct (d <? shard_count st)%nat.
    + destruct (items (recv_queue st d)); [|destruct w; [by apply safe_panic|]];
        (apply safe_set_shard; [done|]; apply safe_goto; [done|by left|by rewrite E]).
    + apply safe_set_shard; [done|]. apply safe_goto; [done|by left|by rewrite E].
  - apply safe_set_shard.
    + apply safe_set_recv; [done|]. apply (safe_recv_queue st d Hs).
    + apply safe_goto; [done|by left|by rewrite E].
Qed.

Lemma safe_finish_step (st : Mesh) (i : nat) (sh : Shard) :
  safe st -> safe_shard i sh -> safe (finish_step i sh st).
Proof.
  intros Hs Hsh. unfold finish_step.
  destruct (pc sh) as [| | | | | | | | | | | | | | | | | | | |] eqn:E; try done.
  - apply safe_set_shard.
    + apply safe_set_recv; [done|]. apply (safe_recv_queue st i Hs).
    + apply safe_goto; [done|by left|by rewrite E].
  - destruct (items (recv_queue st i)) as [|batch rest] eqn:Eq.
    + apply safe_set_shard; [done|]. apply safe_goto; [done|by left|by rewrite E].
    + apply (safe_same (set_recv i (mkRecvQueue rest (closed (recv_queue st i))) st)); [done..|].
      apply safe_set_recv; [done|]. intros batch' Hb'. apply (safe_recv_queue st i Hs). rewrite Eq. by right.
Qed.

Lemma safe_step (st : Mesh) (i : nat) : safe st -> protocol st -> safe (mesh_step mdl hash between_flush i st).
Proof.
  intros Hs Hp. unfold mesh_step. destruct (panicked st); [done|].
  destruct (shard_states st !! i) as [sh|] eqn:Ei; [|done].
  pose proof (safe_shards _ Hs i sh Ei) as Hsh. pose proof (protocol_local _ Hp i sh Ei) as Hl.
  unfold shard_step. destruct (pc sh) as [|k|d batch k|d batch k|d batch k|d f| | | |lc|lc|lc|o lc|lc|d w lc|d lc|lc|o r| | |] eqn:E.
  - by apply safe_start.
  - by apply safe_send_step.
  - by apply safe_push; [..|rewrite E].
  - by apply safe_push; [..|rewrite E].
  - by apply safe_push; [..|rewrite E].
  - by apply safe_flush_step.
  - unfold barrier_step. rewrite E. apply safe_set_shard; [by apply (safe_same st)|]. by apply safe_goto; [|left|].
  - unfold barrier_step. rewrite E. destruct (barrier_ st =? 0); [|done].
    apply safe_set_shard; [done|]. by apply safe_goto; [|left|].
  - destruct (0 <? total_pending_count st); [|by apply safe_panic]. apply safe_set_shard; [done|].
    destruct Hsh as [Sr So Sb Sl Sv Sh Sk]. split; simpl; try done.
    intros d b [Hs'|[Hr|(batch & [=] & _)]]; apply So; [by left|right; by left].
  - unfold enter_loop. destruct (_ && _); apply safe_set_shard; try done; (apply safe_goto; [done|by left|by rewrite E]).
  - destruct (queue_ (checker sh)) as [|b q] eqn:Eq; [|apply safe_round; [done|done|done|by rewrite Eq]].
    apply safe_set_shard; [done|]. apply safe_goto; [done|by left|by rewrite E].
  - by apply safe_recv_step; [..|rewrite E].
  - by apply safe_recv_step; [..|rewrite E].
  - by apply safe_recv_step; [..|rewrite E].
  - by apply safe_close_step.
  - by apply safe_close_step.
  - by apply safe_recv_step; [..|rewrite E].
  - by apply safe_recv_step; [..|rewrite E].
  - by apply safe_finish_step.
  - by apply safe_finish_step.
  - done.
Qed.
End Safe.
