(* ===== verification/ModelCheckCount.v ===== *)
(** * The model checker: the end of the search is detected

    Every step of a shard preserves the invariant [protocol] of
    [ModelCheckSafe]: the batches that are counted and not acknowledged are in
    a queue, on their way to one, or with a shard that may still send; so a
    shard that sees the count at zero may close every queue. *)

From S2P Require Export ModelCheckSafe.
Open Scope Z_scope.

Section Count.
Context `{Countable St, !Inhabited St} {M : Type}.
Variable (mdl : StateMachineModel St M) (m0 : M) (hash : Branch St -> Z) (between_flush : Z) (n : nat).
Hypothesis hash_in_range : hash_ok hash n.
Hypothesis model_fits : model_ok mdl m0.

Notation owner := (find_shard hash n).
Notation Shard := (Shard St M).
Notation Mesh := (Mesh St M).
Notation Checker := (Checker St M).
Notation Branch := (Branch St).
Notation safe := (safe mdl m0 hash n).
Notation safe_shard := (safe_shard mdl m0 hash n).
Notation protocol := (protocol n).
Notation local_protocol := (local_protocol n).
Notation position := (position n).

(** ** Nothing is pending *)

Lemma unacked_nonneg (st : Mesh) : protocol st -> Forall (fun sh => 0 <= unacked sh) (shard_states st).
Proof.
  intros P. apply list.Forall_forall. intros sh Hsh. apply list_elem_of_lookup in Hsh as [i Hi].
  destruct (protocol_local _ _ P i sh Hi) as [Hc _ _ _]. unfold unacked. destruct (counted (pc sh)); simpl; lia.
Qed.

Lemma queued_nonneg (qs : list (RecvQueue St)) : Forall (fun q => 0 <= queued q) qs.
Proof. apply list.Forall_forall. intros q _. unfold queued. lia. Qed.

Lemma pending_shard (st : Mesh) (i : nat) (sh : Shard) :
  protocol st -> shard_states st !! i = Some sh -> unacked sh <= total_pending_count st.
Proof.
  intros P Hi. pose proof (protocol_total _ _ P) as Ht. unfold pending_batches in Ht.
  pose proof (sum_lookup_le unacked _ i sh (unacked_nonneg st P) Hi).
  pose proof (sum_nonneg queued _ (queued_nonneg (recv_queues st))). lia.
Qed.

Lemma pending_queue (st : Mesh) (j : nat) (q : RecvQueue St) :
  protocol st -> recv_queues st !! j = Some q -> queued q <= total_pending_count st.
Proof.
  intros P Hj. pose proof (protocol_total _ _ P) as Ht. unfold pending_batches in Ht.
  pose proof (sum_lookup_le queued _ j q (queued_nonneg _) Hj).
  pose proof (sum_nonneg unacked _ (unacked_nonneg st P)). lia.
Qed.

Lemma barrier_early (st : Mesh) (i : nat) (sh : Shard) :
  protocol st -> barrier_ st = 0 -> shard_states st !! i = Some sh -> early (pc sh) = false.
Proof.
  intros P Hb Hi. rewrite (protocol_barrier _ _ P) in Hb. by apply (cnt_zero (fun sh => early (pc sh)) _ i sh Hb).
Qed.

(** No shard has anything to do, and no batch is on its way. *)
Lemma quiet_shard (st : Mesh) (i : nat) (sh : Shard) :
  protocol st -> quiet st -> shard_states st !! i = Some sh ->
  early (pc sh) = false /\ local_consume_count sh = 0 /\ counted (pc sh) = false /\ ~ has_work sh.
Proof.
  intros P [Ht Hb] Hi. pose proof (protocol_local _ _ P i sh Hi) as L.
  pose proof (barrier_early st i sh P Hb Hi) as He. pose proof (pending_shard st i sh P Hi) as Hu.
  pose proof (consume_nonneg _ _ L). unfold unacked in Hu. rewrite Ht in Hu.
  assert (local_consume_count sh = 0 /\ counted (pc sh) = false) as [Hl Hc] by (destruct (counted (pc sh)); simpl in Hu; split; lia || done).
  split_and!; [done|done|done|]. by apply (no_work n).
Qed.

Lemma quiet_queue (st : Mesh) (j : nat) (q : RecvQueue St) :
  protocol st -> quiet st -> recv_queues st !! j = Some q -> items q = [].
Proof.
  intros P [Ht _] Hj. pose proof (pending_queue st j q P Hj) as Hq. unfold queued in Hq.
  destruct (items q); [done|simpl in Hq; lia].
Qed.

Lemma batch_is_work (sh : Shard) (d : nat) (batch : list Branch) (i : nat) :
  safe_shard i sh -> pc_batch (pc sh) = Some (d, batch) -> has_work sh.
Proof.
  intros Hs Hp. pose proof (safe_batch _ _ _ _ _ _ Hs d batch Hp) as Hne.
  destruct batch as [|b batch]; [done|]. right. exists d, b. right. right. exists (b :: batch). split; [done|by left].
Qed.

(** ** Updates *)

Record stays_begun (sh sh' : Shard) : Prop := {
  stays_begun_pc : begun (pc sh) = true -> begun (pc sh') = true;
  stays_broken : begun (pc sh) = true -> ok (result_ (checker sh)) = false -> ok (result_ (checker sh')) = false }.

Lemma broken_stable (st st' : Mesh) (i : nat) (sh sh' : Shard) :
  shard_states st !! i = Some sh -> shard_states st' = <[i := sh']> (shard_states st) -> stays_begun sh sh' ->
  broken st -> broken st'.
Proof.
  intros Hi E [Hb Ho] (j & shj & Hj & Hbj & Hoj). destruct (decide (j = i)) as [->|Hne].
  - rewrite Hi in Hj. injection Hj as <-. exists i, sh'. rewrite E. split_and!; [by eapply list_insert_here|by apply Hb|by apply Ho].
  - exists j, shj. by rewrite E, list_lookup_insert_ne.
Qed.

(** How a step of shard [i] changes what the protocol counts. *)
Lemma protocol_update (st st' : Mesh) (i : nat) (sh sh' : Shard) :
  protocol st -> shard_states st !! i = Some sh -> shard_states st' = <[i := sh']> (shard_states st) ->
  local_protocol sh' -> stays_begun sh sh' ->
  (early (pc sh') = true -> early (pc sh) = true) ->
  barrier_ st' = barrier_ st - Z.b2z (early (pc sh)) + Z.b2z (early (pc sh')) ->
  (early (pc sh') = false -> pc sh' <> AwaitOthers -> barrier_ st' = 0) ->
  (let more := unacked sh' - unacked sh + sum (queued <$> recv_queues st') - sum (queued <$> recv_queues st) in
   more <= total_pending_count st' - total_pending_count st /\
   (total_pending_count st' - total_pending_count st = more \/ broken st')) ->
  (quiet st -> total_pending_count st' = 0) ->
  (is_closing (pc sh') = true -> quiet st') ->
  (ending (pc sh') = true -> ending (pc sh) = true \/ quiet st' \/ broken st') ->
  (forall j q, recv_queues st' !! j = Some q -> closed q = true ->
     (exists q0, recv_queues st !! j = Some q0 /\ closed q0 = true) \/ quiet st' \/ broken st') ->
  protocol st'.
Proof.
  intros P Hi E L B He Hbar Hpass Htot Hq Hclo Hend Hcl. cbv zeta in Htot. destruct Htot as [Hle Heq].
  pose proof (broken_stable st st' i sh sh' Hi E B) as Hbr.
  assert (barrier_ st = 0 -> barrier_ st' = 0) as Hb0.
  { intros H0. pose proof (barrier_early st i sh P H0 Hi) as He0. rewrite Hbar, He0, H0.
    destruct (early (pc sh')); [|done]. by rewrite He in He0. }
  assert (quiet st -> quiet st') as Hqq by (intros Hqu; split; [by apply Hq|apply Hb0; by destruct Hqu]).
  assert (quiet st \/ broken st -> quiet st' \/ broken st') as Hqb by tauto.
  assert (pending_batches st' = pending_batches st + (unacked sh' - unacked sh + sum (queued <$> recv_queues st') - sum (queued <$> recv_queues st))) as Hpend.
  { unfold pending_batches. rewrite E, (sum_insert unacked _ _ _ sh' Hi). lia. }
  pose proof P as [PL PB PP PT PX PC PE PQ]. split.
  - intros j shj Hj. rewrite E in Hj. destruct (list_insert_cases _ _ _ _ _ _ Hi Hj) as [[-> ->]|[_ Hj']]; [done|by eapply PL].
  - rewrite Hbar, PB, E. unfold cnt. by rewrite (sum_insert _ _ _ _ sh' Hi).
  - intros j shj Hj. rewrite E in Hj. destruct (list_insert_cases _ _ _ _ _ _ Hi Hj) as [[-> ->]|[_ Hj']]; [done|].
    intros He' Hn. apply Hb0. by eapply PP.
  - lia.
  - destruct PX as [PX|PX]; [|right; by apply Hbr]. destruct Heq as [Heq|Heq]; [left; lia|by right].
  - intros j shj Hj Hc. rewrite E in Hj. destruct (list_insert_cases _ _ _ _ _ _ Hi Hj) as [[-> ->]|[_ Hj']]; [by apply Hclo|].
    eapply Hqq, PC; done.
  - intros j shj Hj Hc. rewrite E in Hj. destruct (list_insert_cases _ _ _ _ _ _ Hi Hj) as [[-> ->]|[_ Hj']].
    + destruct (Hend Hc) as [He'|?]; [|done]. eapply Hqb, PE; done.
    + eapply Hqb, PE; done.
  - intros j q Hj Hc. destruct (Hcl j q Hj Hc) as [(q0 & Hq0 & Hc0)|?]; [|done]. eapply Hqb, PQ; done.
Qed.

(** ** Moves of a shard *)

Lemma work_goto (sh : Shard) (p : Pc St) :
  (pc_batch p = None \/ pc_batch p = pc_batch (pc sh)) -> has_work (goto p sh) -> has_work sh.
Proof.
  intros Hp [Hq|(d & b & [Hs|[Hr|(batch & Hb & Hin)]])]; [by left|right; exists d, b..].
  - by left.
  - by right; left.
  - right. right. simpl in Hb. destruct Hp as [Hp|Hp]; [by rewrite Hp in Hb|]. exists batch. by rewrite <- Hp.
Qed.

Lemma local_goto (sh : Shard) (p : Pc St) :
  local_protocol sh -> early p = early (pc sh) -> (pc_batch p = None \/ pc_batch p = pc_batch (pc sh)) ->
  position (goto p sh) -> local_protocol (goto p sh).
Proof.
  intros [Lc Le Lw _] He Hp Hpos. split; simpl; rewrite ?He; try done.
  intros E Hw. apply Lw; [done|]. by eapply work_goto.
Qed.

Lemma begun_goto (sh : Shard) (p : Pc St) : (begun (pc sh) = true -> begun p = true) -> stays_begun sh (goto p sh).
Proof. by split. Qed.

(** A shard moves on; the queues, the count and the barrier stay the same. *)
Lemma protocol_move (st st' : Mesh) (i : nat) (sh sh' : Shard) :
  protocol st -> shard_states st !! i = Some sh -> shard_states st' = <[i := sh']> (shard_states st) ->
  recv_queues st' = recv_queues st -> total_pending_count st' = total_pending_count st -> barrier_ st' = barrier_ st ->
  local_protocol sh' -> stays_begun sh sh' -> early (pc sh') = early (pc sh) ->
  (pc sh <> AwaitOthers \/ barrier_ st = 0) -> unacked sh' = unacked sh ->
  (is_closing (pc sh') = true -> is_closing (pc sh) = true) ->
  (ending (pc sh') = true -> ending (pc sh) = true \/ quiet st \/ broken st') -> protocol st'.
Proof.
  intros P Hi E Er Et Eb L B He Hne Hu Hc Hend.
  assert (quiet st -> quiet st') as Hqq by (unfold quiet; by rewrite Et, Eb).
  apply (protocol_update st st' i sh sh' P Hi E L B); [by rewrite He|rewrite Eb, He; lia| | | | | |].
  - intros He' _. rewrite Eb. destruct Hne as [Hne|]; [|done].
    apply (protocol_passed _ _ P i sh Hi); [by rewrite <- He|done].
  - cbv zeta. rewrite Er, Et, Hu. split; [lia|left; lia].
  - rewrite Et. by intros [? _].
  - intros Hc'. apply Hqq. by eapply (protocol_closing _ _ P), Hc.
  - intros He'. destruct (Hend He') as [?|[?|?]]; auto.
  - intros j q Hj Hq. left. exists q. by rewrite <- Er.
Qed.

Lemma protocol_same (st st' : Mesh) :
  shard_states st' = shard_states st -> recv_queues st' = recv_queues st ->
  total_pending_count st' = total_pending_count st -> barrier_ st' = barrier_ st -> protocol st -> protocol st'.
Proof.
  intros Es Er Et Eb [PL PB PP PT PX PC PE PQ]. unfold pending_batches, broken, quiet in *.
  split; unfold pending_batches, broken, quiet; rewrite ?Es, ?Er, ?Et, ?Eb; done.
Qed.

Lemma row_nil (sh : Shard) (d : nat) (row : list Branch) :
  default [] (send_queues sh !! d) = [] -> send_queues sh !! d = Some row -> row = [].
Proof. intros E Hr. by rewrite Hr in E. Qed.

Lemma row_work (sh : Shard) (d : nat) (b : Branch) (row : list Branch) :
  default [] (send_queues sh !! d) = b :: row -> has_work sh.
Proof.
  intros E. destruct (send_queues sh !! d) as [row'|] eqn:Er; [|done]. simpl in E. subst row'.
  right. exists d, b. right. left. exists (b :: row). split; [done|by left].
Qed.

(** The side conditions of a move from [pc sh], which [E] states. *)
Local Ltac side E :=
  simpl; rewrite ?E;
  first [ done
        | split; simpl; rewrite ?E; done
        | left; done
        | unfold unacked; simpl; rewrite ?E; done
        | intros Hside; left; done ].

Lemma protocol_send_step (st : Mesh) (i : nat) (sh : Shard) (k : AfterSend) :
  protocol st -> shard_states st !! i = Some sh -> pc sh = Sending k -> protocol (send_step i sh k st).
Proof.
  intros P Hi E. pose proof (protocol_local _ _ P i sh Hi) as L. pose proof L as [Lc Le Lw Lp].
  unfold ModelCheckSafe.position in Lp. rewrite E in Lp, Le, Lw.
  unfold send_step. destruct (sent (checker sh)) as [|[d b] rest] eqn:Es.
  - apply (protocol_move st _ i sh (goto (after_send k) sh)); try done.
    + apply local_goto; [done|rewrite E; by destruct k as [|[]]|left; apply pc_batch_after_send|].
      unfold ModelCheckSafe.position. destruct k as [lc|f]; simpl; [done|]. split_and!; [done|intros d' row ?; lia|by destruct f].
    + apply begun_goto. by rewrite E, begun_after_send.
    + rewrite E. by destruct k as [|[]].
    + left. by rewrite E.
    + unfold unacked. rewrite E. by destruct k as [|[]].
    + rewrite E. by destruct k as [|[]].
    + rewrite E. left. by destruct k as [|[]].
  - assert (has_work sh) as Hw by (right; exists d, b; left; rewrite Es; by left).
    destruct (default false _).
    + apply (protocol_move st _ i sh (goto (PushAdd d (default [] (send_queues sh !! d) ++ [b]) (BackToSend k))
        (set_row d [] (set_checker (set_sent rest (checker sh)) sh)))); try side E.
      split; simpl; try done. intros He _. by apply Lw.
    + apply (protocol_move st _ i sh (set_row d (default [] (send_queues sh !! d) ++ [b])
        (set_checker (set_sent rest (checker sh)) sh))); try side E.
      split; simpl; rewrite ?E; try done; [intros He _; by apply Lw|].
      unfold ModelCheckSafe.position. simpl. by rewrite E.
Qed.

Lemma protocol_flush_step (st : Mesh) (i : nat) (sh : Shard) (d : nat) (f : AfterFlush) :
  safe st -> protocol st -> shard_states st !! i = Some sh -> pc sh = Flushing d f -> protocol (flush_step i sh d f st).
Proof.
  intros Hsf P Hi E. pose proof (protocol_local _ _ P i sh Hi) as L. pose proof L as [Lc Le Lw Lp].
  unfold ModelCheckSafe.position in Lp. rewrite E in Lp, Le, Lw. destruct Lp as (Ps & Pr & Pq).
  unfold flush_step. rewrite (safe_count _ _ _ _ _ Hsf). destruct (d <? n)%nat eqn:Hd; bool_cases.
  - destruct (default [] (send_queues sh !! d)) as [|b row] eqn:Er.
    + apply (protocol_move st _ i sh (goto (Flushing (S d) f) sh)); try side E.
      apply local_goto; [done|by rewrite E|by left|]. unfold ModelCheckSafe.position. simpl. split_and!; [done| |done].
      intros e row He Hrow. destruct (decide (e = d)) as [->|Hne]; [by eapply row_nil|]. apply (Pr e row); [lia|done].
    + pose proof (row_work sh d b row Er) as Hw.
      apply (protocol_move st _ i sh (goto (PushAdd d (b :: row) (BackToFlush (S d) f)) (set_row d [] sh))); try side E.
      split; simpl; rewrite ?E; try done; [intros He _; by apply Lw|].
      unfold ModelCheckSafe.position. simpl. split_and!; [done| |done].
      intros e row' He Hrow. apply list_lookup_insert_Some in Hrow as [(_ & <- & _)|[Hne Hrow]]; [done|].
      apply (Pr e row'); [lia|done].
  - apply (protocol_move st _ i sh (goto (after_flush f) sh)); try side E.
    + apply local_goto; [done|rewrite E; by destruct f|left; apply pc_batch_after_flush|].
      unfold ModelCheckSafe.position. assert (rows_empty sh n) as Hr by (intros e row He; apply (Pr e row); lia).
      by destruct f.
    + apply begun_goto. by rewrite E, (begun_after_flush d).
    + rewrite E. by destruct f.
    + unfold unacked. rewrite E. by destruct f.
    + rewrite E. by destruct f.
    + rewrite E. left. by destruct f.
Qed.

Lemma push_end (sh : Shard) (d : nat) (batch : list Branch) (k : AfterPush) :
  local_protocol sh -> (pc sh = PushOpen d batch k \/ pc sh = PushItem d batch k) ->
  local_protocol (goto (after_push k) sh) /\ early (after_push k : Pc St) = early (pc sh) /\ stays_begun sh (goto (after_push k) sh) /\
  unacked (goto (after_push k) sh) = unacked sh - 1 /\ is_closing (after_push k : Pc St) = false /\
  ending (after_push k : Pc St) = ending (pc sh) /\ (after_push k : Pc St) <> AwaitOthers.
Proof.
  intros L E. pose proof L as [Lc Le Lw Lp]. unfold ModelCheckSafe.position in Lp.
  assert (early (after_push k : Pc St) = early (pc sh)) as He by (destruct E as [-> | ->]; by destruct k).
  split_and!; try done.
  - apply local_goto; [done|done|left; apply pc_batch_after_push|].
    unfold ModelCheckSafe.position. by destruct E as [E|E]; rewrite E in Lp; destruct k.
  - apply begun_goto. destruct E as [-> | ->]; by rewrite (begun_after_push d batch).
  - unfold unacked. simpl. destruct E as [-> | ->]; destruct k; simpl; lia.
  - by destruct k.
  - destruct E as [-> | ->]; by destruct k as [[|]|].
  - by destruct k.
Qed.

Lemma recv_queue_lookup (st : Mesh) (j : nat) (q : RecvQueue St) : recv_queues st !! j = Some q -> recv_queue st j = q.
Proof. unfold recv_queue. by intros ->. Qed.

Lemma recv_queue_some (st : Mesh) (j : nat) : safe st -> (j < n)%nat -> recv_queues st !! j = Some (recv_queue st j).
Proof.
  intros Hsf Hj. rewrite <- (safe_recv _ _ _ _ _ Hsf) in Hj. apply lookup_lt_is_Some_2 in Hj as [q Hq].
  by rewrite (recv_queue_lookup st j q Hq).
Qed.

(** The batch of a shard goes to a queue that exists. *)
Lemma batch_dst (st : Mesh) (i : nat) (sh : Shard) (d : nat) (batch : list Branch) :
  safe st -> shard_states st !! i = Some sh -> pc_batch (pc sh) = Some (d, batch) -> (d < n)%nat.
Proof.
  intros Hsf Hi Hb. pose proof (safe_shards _ _ _ _ _ Hsf i sh Hi) as Hs.
  destruct batch as [|b batch]; [by pose proof (safe_batch _ _ _ _ _ _ Hs d [] Hb)|].
  destruct (safe_out _ _ _ _ _ _ Hs d b) as [-> _]; [|by apply owner_lt].
  right. right. exists (b :: batch). split; [done|by left].
Qed.

(** The state in which all counts are those of [st], but queue [j]. *)
Lemma queued_set (st : Mesh) (j : nat) (q : RecvQueue St) :
  safe st -> (j < n)%nat ->
  sum (queued <$> <[j := q]> (recv_queues st)) = sum (queued <$> recv_queues st) - queued (recv_queue st j) + queued q.
Proof. intros Hsf Hj. by apply sum_insert, recv_queue_some. Qed.

(** A queue that is replaced by one that is not closed, or was closed before. *)
Lemma closed_set (st : Mesh) (j k : nat) (q q' : RecvQueue St) :
  safe st -> (j < n)%nat -> <[j := q]> (recv_queues st) !! k = Some q' -> closed q' = true ->
  (closed q = true -> closed (recv_queue st j) = true) ->
  exists q0, recv_queues st !! k = Some q0 /\ closed q0 = true.
Proof.
  intros Hsf Hj Hk Hc Hq. apply list_lookup_insert_Some in Hk as [(<- & <- & _)|[_ Hk]].
  - exists (recv_queue st j). split; [by apply recv_queue_some|by apply Hq].
  - by exists q'.
Qed.

Lemma protocol_push_step (st : Mesh) (i : nat) (sh : Shard) :
  safe st -> protocol st -> shard_states st !! i = Some sh -> protocol (push_step i sh st).
Proof.
  intros Hsf P Hi. pose proof (protocol_local _ _ P i sh Hi) as L. pose proof L as [Lc Le Lw Lp].
  unfold ModelCheckSafe.position in Lp. pose proof (safe_shards _ _ _ _ _ Hsf i sh Hi) as Hs.
  unfold push_step. destruct (pc sh) as [| |d batch k|d batch k|d batch k| | | | | | | | | | | | | | | |] eqn:E; try done.
  - assert (has_work sh) as Hw by (by eapply (batch_is_work sh d batch); [|rewrite E]).
    apply (protocol_update st _ i sh (goto (PushOpen d batch k) sh) P Hi); try side E.
    + apply local_goto; [done|by rewrite E|right; by rewrite E|done].
    + rewrite E. simpl. lia.
    + simpl. intros He _. apply (protocol_passed _ _ P i sh Hi); [by rewrite E|by rewrite E].
    + cbv zeta. unfold unacked. simpl. rewrite E. simpl. split; [lia|left; lia].
    + intros Hq. by destruct (quiet_shard st i sh P Hq Hi) as (_ & _ & _ & ?).
    + intros j q Hj Hc. left. by exists q.
  - destruct (push_end sh d batch k L) as (L' & He & B & Hu & Hc & Hend & Hne); [by left|].
    pose proof (batch_dst st i sh d batch Hsf Hi ltac:(by rewrite E)) as Hd.
    destruct (closed (recv_queue st d)) eqn:Ec.
    + assert (broken st) as Hbr.
      { destruct (protocol_closed _ _ P d _ (recv_queue_some st d Hsf Hd) Ec) as [Hq|]; [|done].
        destruct (quiet_shard st i sh P Hq Hi) as (_ & _ & Hcount & _). by rewrite E in Hcount. }
      apply (protocol_update st _ i sh (goto (after_push k) sh) P Hi); simpl; rewrite ?He, ?Hc, ?Hend, ?E; try done; [lia| | | | |].
      * intros He' _. apply (protocol_passed _ _ P i sh Hi); by rewrite E.
      * cbv zeta. rewrite Hu. split; [lia|right]. by eapply (broken_stable st _ i sh _ Hi).
      * by intros [? _].
      * by left.
      * intros j q Hj Hq. left. by exists q.
    + apply (protocol_move st _ i sh (goto (PushItem d batch k) sh)); try side E.
      apply local_goto; [done|by rewrite E|right; by rewrite E|done].
  - destruct (push_end sh d batch k L) as (L' & He & B & Hu & Hc & Hend & Hne); [by right|].
    pose proof (batch_dst st i sh d batch Hsf Hi ltac:(by rewrite E)) as Hd.
    apply (protocol_update st _ i sh (goto (after_push k) sh) P Hi); simpl; rewrite ?He, ?Hc, ?Hend, ?E; try done; [lia| | | | |].
    + intros He' _. apply (protocol_passed _ _ P i sh Hi); by rewrite E.
    + cbv zeta. rewrite Hu, queued_set by done. unfold queued. simpl. rewrite length_app. simpl. split; [lia|left; lia].
    + by intros [? _].
    + by left.
    + intros j q Hj Hq. left. by eapply (closed_set st d).
Qed.

(** A shard without unacknowledged batches has handed over nothing. *)
Lemma idle_sent (sh : Shard) : ~ has_work sh -> sent (checker sh) = [].
Proof.
  intros Hn. destruct (sent (checker sh)) as [|[d b] rest] eqn:E; [done|]. exfalso. apply Hn. right.
  exists d, b. left. rewrite E. by left.
Qed.

Lemma rows_no_work (sh : Shard) (i : nat) :
  safe_shard i sh -> queue_ (checker sh) = [] -> sent (checker sh) = [] -> rows_empty sh n ->
  pc_batch (pc sh) = None -> ~ has_work sh.
Proof.
  intros Hs Hq He Hr Hp [?|(d & b & [Hb|[(row & Hrow & Hb)|(batch & Hb & _)]])]; [done| | |by rewrite Hp in Hb].
  - rewrite He in Hb. by apply elem_of_nil in Hb.
  - rewrite (Hr d row) in Hb; [by apply elem_of_nil in Hb| |done]. apply lookup_lt_Some in Hrow.
    by rewrite (safe_rows _ _ _ _ _ _ Hs) in Hrow.
Qed.

Lemma protocol_barrier_step (st : Mesh) (i : nat) (sh : Shard) :
  safe st -> protocol st -> shard_states st !! i = Some sh -> protocol (barrier_step i sh st).
Proof.
  intros Hsf P Hi. pose proof (protocol_local _ _ P i sh Hi) as L. pose proof L as [Lc Le Lw Lp].
  unfold ModelCheckSafe.position in Lp. pose proof (safe_shards _ _ _ _ _ Hsf i sh Hi) as Hs.
  unfold barrier_step. destruct (pc sh) eqn:E; try done.
  - destruct Lp as (Lq & Ls & Lr).
    apply (protocol_update st _ i sh (goto AwaitOthers sh) P Hi); try side E.
    + split; simpl; try done; [|by apply Le].
      intros _ Hw. apply work_goto in Hw; [|by left]. exfalso. by eapply (rows_no_work sh i); [..|rewrite E|].
    + rewrite E. simpl. lia.
    + cbv zeta. unfold unacked. simpl. rewrite E. simpl. split; [lia|left; lia].
    + by intros [? _].
    + intros j q Hj Hc. left. by exists q.
  - destruct (barrier_ st =? 0) eqn:Hb; [|done]. bool_cases.
    apply (protocol_move st _ i sh (goto CheckPending sh)); try side E; [|by right].
    apply local_goto; [done|by rewrite E|by left|done].
Qed.

Lemma protocol_check (st : Mesh) (i : nat) (sh : Shard) :
  protocol st -> shard_states st !! i = Some sh -> pc sh = CheckPending ->
  protocol (set_shard i (goto (LoopTop 0) (set_checker (begin_search (checker sh)) sh)) st).
Proof.
  intros P Hi E. pose proof (protocol_local _ _ P i sh Hi) as L. pose proof L as [Lc Le Lw Lp].
  unfold ModelCheckSafe.position in Lp. rewrite E in Lp.
  assert (~ has_work sh) as Hn by (apply (no_work n); [done|by rewrite E|done]).
  eapply (protocol_move st _ i sh); [done|done|reflexivity|..]; try side E.
  split; simpl; try done; [|exact (idle_sent sh Hn)].
  intros _ Hw. exfalso. apply Hn. destruct Hw as [Hq|(d & b & [Hb|[Hb|(batch & [=] & _)]])]; [by left|right..]; exists d, b; [by left|by right; left].
Qed.

Lemma protocol_enter_loop (st : Mesh) (i : nat) (sh : Shard) (lc : Z) :
  protocol st -> shard_states st !! i = Some sh -> pc sh = LoopTop lc -> protocol (enter_loop between_flush i sh lc st).
Proof.
  intros P Hi E. pose proof (protocol_local _ _ P i sh Hi) as L. pose proof L as [Lc Le Lw Lp].
  unfold ModelCheckSafe.position in Lp. rewrite E in Lp.
  unfold enter_loop. destruct (_ && _); (eapply (protocol_move st _ i sh); [done|done|reflexivity|..]; try side E);
    (apply local_goto; [done|by rewrite E|by left|]); [|done].
  unfold ModelCheckSafe.position. simpl. split_and!; [done|intros d row ?; lia|done].
Qed.

Lemma protocol_round (st : Mesh) (i : nat) (sh : Shard) (lc : Z) :
  safe st -> protocol st -> shard_states st !! i = Some sh -> pc sh = PopNext lc -> queue_ (checker sh) <> [] ->
  protocol (round_step mdl hash i sh lc st).
Proof.
  intros Hsf P Hi E Hq. pose proof (protocol_local _ _ P i sh Hi) as L. pose proof L as [Lc Le Lw Lp].
  pose proof (safe_shards _ _ _ _ _ Hsf i sh Hi) as Hs. assert (has_work sh) as Hw by by left.
  rewrite E in Le, Lw. specialize (Lw eq_refl Hw).
  unfold round_step. rewrite (safe_count _ _ _ _ _ Hsf).
  destruct (queue_ (checker sh)) as [|b rest] eqn:Eq; [done|].
  destruct (safe_local _ _ _ _ _ _ Hs b) as [Ho Hg]; [rewrite Eq; by left|].
  destruct (round_spec mdl m0 hash n hash_in_range model_fits i (checker sh) b rest Eq Ho Hg (safe_history _ _ _ _ _ _ Hs)) as
    (c & more & p & t & bs & Er & Hb & Hr & Hf & Hv & Hh & X).
  setoid_rewrite Er. simpl.
  set (sh' := goto _ _). assert (local_protocol sh') as L'.
  { split; simpl; try done; [by destruct more|]. unfold ModelCheckSafe.position. simpl. by destruct more. }
  assert (begun (pc sh') = true) as Hbeg by (by destruct more).
  apply (protocol_move st _ i sh sh'); try done; try side E; simpl; rewrite ?E.
  - split; [done|]. intros _ Hok. simpl. destruct more; [by rewrite (explored_ok _ _ _ _ _ _ _ _ _ _ _ X)|by destruct X].
  - by destruct more.
  - destruct more; [done|]. intros _. right. right. exists i, sh'. split_and!; [by eapply list_insert_here|done|by destruct X].
Qed.

Lemma protocol_transfer (st : Mesh) (i : nat) (sh : Shard) (batch : list Branch) (rest : list (list Branch)) (lc : Z) (p : Pc St) :
  safe st -> protocol st -> shard_states st !! i = Some sh -> items (recv_queue st i) = batch :: rest ->
  (pc sh = TryPop lc /\ p = PopNext lc) \/ (pc sh = AwaitNext lc /\ p = ResetStalled 0 (Some lc)) ->
  protocol (transfer_batch i sh batch rest p st).
Proof.
  intros Hsf P Hi Hit Hp. pose proof (protocol_local _ _ P i sh Hi) as L. pose proof L as [Lc Le Lw Lp].
  assert (queue_ (checker sh) = []) as Hq by (apply (waiting_queue n sh lc L); destruct Hp as [[? _]|[? _]]; auto).
  assert (i < n)%nat as Hin by (rewrite <- (safe_count _ _ _ _ _ Hsf); by apply lookup_lt_Some in Hi).
  assert (sent (checker sh) = []) as Hsent.
  { unfold ModelCheckSafe.position in Lp. destruct Hp as [[E _]|[E _]]; rewrite E in Lp; [by destruct Lp|].
    apply idle_sent, (no_work n); [done|by rewrite E|done]. }
  destruct (received mdl m0 hash n hash_in_range model_fits st i sh batch rest Hsf Hit Hq) as (c & E & A & _).
  unfold transfer_batch. rewrite E. simpl.
  set (sh' := goto _ _). assert (local_protocol sh') as L'.
  { split; simpl; [lia|by destruct Hp as [[_ ->]|[_ ->]]|lia|]. unfold ModelCheckSafe.position.
    destruct Hp as [[_ ->]|[_ ->]]; simpl; by rewrite (arrived_sent _ _ _ A). }
  apply (protocol_update st _ i sh sh' P Hi); simpl; try done.
  - split; simpl; [by destruct Hp as [[-> ->]|[-> ->]]|]. by rewrite (arrived_ok _ _ _ A).
  - by destruct Hp as [[-> ->]|[-> ->]].
  - destruct Hp as [[-> ->]|[-> ->]]; simpl; lia.
  - intros _ _. apply (protocol_passed _ _ P i sh Hi); by destruct Hp as [[-> _]|[-> _]].
  - cbv zeta. rewrite queued_set by done. unfold queued, unacked. simpl. rewrite Hit. simpl.
    destruct Hp as [[-> ->]|[-> ->]]; simpl; split; try (left; lia); lia.
  - by intros [? _].
  - by destruct Hp as [[_ ->]|[_ ->]].
  - by destruct Hp as [[_ ->]|[_ ->]].
  - intros j q Hj Hc. left. by eapply (closed_set st i).
Qed.

Lemma protocol_ack (st : Mesh) (i : nat) (sh : Shard) (lc : Z) :
  safe st -> protocol st -> shard_states st !! i = Some sh -> pc sh = Ack lc ->
  let total := total_pending_count st - local_consume_count sh in
  protocol (set_shard i (goto (if total =? 0 then Closing 0 false lc else AwaitNext lc) (set_consume 0 sh)) (set_total total st)).
Proof.
  intros Hsf P Hi E total. pose proof (protocol_local _ _ P i sh Hi) as L. pose proof L as [Lc Le Lw Lp].
  unfold ModelCheckSafe.position in Lp. rewrite E in Lp. destruct Lp as (Lq & Ls & Lr).
  pose proof (safe_shards _ _ _ _ _ Hsf i sh Hi) as Hs.
  assert (~ has_work sh) as Hn by (by apply (rows_no_work sh i); [..|rewrite E]).
  assert (barrier_ st = 0) as Hb by (by apply (protocol_passed _ _ P i sh Hi); rewrite E).
  set (p := if total =? 0 then Closing 0 false lc else AwaitNext lc : Pc St).
  assert (early p = false /\ counted p = false /\ ending p = false /\ pc_batch p = None /\ begun p = true) as (Pe & Pcn & Pen & Pb & Pg)
    by (subst p; by destruct (total =? 0)).
  apply (protocol_update st _ i sh (goto p (set_consume 0 sh)) P Hi); simpl; rewrite ?Pe, ?Pen, ?E; try done.
  - split; simpl; rewrite ?Pe; try done.
    + intros _ Hw. exfalso. apply Hn. apply (work_goto (set_consume 0 sh) p); [by left|done].
    + unfold ModelCheckSafe.position, p. simpl. by destruct (total =? 0).
  - rewrite Hb. simpl. lia.
  - cbv zeta. unfold unacked. simpl. rewrite Pcn, E. simpl. subst total. split; [lia|left; lia].
  - intros Hq. destruct (quiet_shard st i sh P Hq Hi) as (_ & Hl & _). destruct Hq as [Ht _]. subst total. lia.
  - subst p. destruct (total =? 0) eqn:Ht; [|done]. intros _. split; simpl; [by apply Z.eqb_eq|done].
  - intros j q Hj Hc. left. by exists q.
Qed.

Lemma protocol_recv_step (st : Mesh) (i : nat) (sh : Shard) :
  safe st -> protocol st -> shard_states st !! i = Some sh -> pc_batch (pc sh) = None -> protocol (recv_step i sh st).
Proof.
  intros Hsf P Hi _. pose proof (protocol_local _ _ P i sh Hi) as L. pose proof L as [Lc Le Lw Lp].
  assert (i < n)%nat as Hin by (rewrite <- (safe_count _ _ _ _ _ Hsf); by apply lookup_lt_Some in Hi).
  unfold ModelCheckSafe.position in Lp. unfold recv_step.
  destruct (pc sh) as [| | | | | | | | | | |lc|o lc|lc| | |lc|o r| | |] eqn:E; try done.
  - destruct (items (recv_queue st i)) as [|batch rest] eqn:Eq.
    + eapply (protocol_move st _ i sh); [done|done|reflexivity|..]; try side E. apply local_goto; [done|by rewrite E|by left|done].
    + eapply protocol_transfer; [done..|]. by left.
  - destruct (o <? shard_count st)%nat; (eapply (protocol_move st _ i sh); [done|done|reflexivity|..]; try side E);
      (apply local_goto; [done|by rewrite E|by left|]); [done|].
    destruct Lp as [Lq Ls]. split_and!; [done|intros d row ?; lia|done].
  - by apply protocol_ack.
  - destruct (items (recv_queue st i)) as [|batch rest] eqn:Eq; [|eapply protocol_transfer; [done..|]; by right].
    destruct (closed (recv_queue st i)) eqn:Ec; [|done].
    eapply (protocol_move st _ i sh); [done|done|reflexivity|..]; try side E.
    + apply local_goto; [done|by rewrite E|by left|]. unfold ModelCheckSafe.position. simpl.
      apply idle_sent, (no_work n); [done|by rewrite E|done].
    + simpl. intros _. right.
      destruct (protocol_closed _ _ P i _ (recv_queue_some st i Hsf Hin) Ec) as [Hq|Hb]; [by left|right].
      eapply (broken_stable st _ i sh); [done|reflexivity| |done]. side E.
  - destruct (o <? shard_count st)%nat; (eapply (protocol_move st _ i sh); [done|done|reflexivity|..]; try side E).
    + apply local_goto; [done|by rewrite E|by left|done].
    + apply local_goto; [done|by rewrite E; destruct r|by destruct r; left|].
      destruct r; [done|]. split_and!; [done|intros d row ?; lia|done].
    + apply begun_goto. by destruct r.
    + rewrite E. by destruct r.
    + unfold unacked. rewrite E. by destruct r.
    + by destruct r.
    + rewrite E. left. by destruct r.
Qed.

Lemma protocol_close_step (st : Mesh) (i : nat) (sh : Shard) :
  safe st -> protocol st -> shard_states st !! i = Some sh -> protocol (close_step i sh st).
Proof.
  intros Hsf P Hi. pose proof (protocol_local _ _ P i sh Hi) as L. pose proof L as [Lc Le Lw Lp].
  unfold ModelCheckSafe.position in Lp. unfold close_step.
  destruct (pc sh) as [| | | | | | | | | | | | | |d w lc|d lc| | | | |] eqn:E; try done.
  - rewrite (safe_count _ _ _ _ _ Hsf). destruct (d <? n)%nat eqn:Hd; bool_cases;
      [destruct (items (recv_queue st d)) as [|batch rest]; [|destruct w; [by apply (protocol_same st)|]]|];
      (eapply (protocol_move st _ i sh); [done|done|reflexivity|..]; try side E);
      (apply local_goto; [done|by rewrite E|by left|done]).
  - assert (quiet st) as Hq by (apply (protocol_closing _ _ P i sh Hi); by rewrite E).
    apply (protocol_update st _ i sh (goto (Closing (S d) false lc) sh) P Hi); try side E.
    + apply local_goto; [done|by rewrite E|by left|by destruct Lp].
    + rewrite E. simpl. lia.
    + intros _ _. by destruct Hq.
    + cbv zeta. unfold unacked. simpl. rewrite E. simpl.
      assert (sum (queued <$> <[d := mkRecvQueue (items (recv_queue st d)) true]> (recv_queues st)) = sum (queued <$> recv_queues st)) as ->; [|split; [lia|left; lia]].
      destruct (recv_queues st !! d) as [q|] eqn:Eq.
      * rewrite (sum_insert queued _ _ _ _ Eq). unfold recv_queue, queued. rewrite Eq. simpl. lia.
      * rewrite list_insert_ge; [done|]. by apply lookup_ge_None in Eq.
    + by intros [? _].
    + intros j q _ _. right. by left.
Qed.

Lemma protocol_finish_step (st : Mesh) (i : nat) (sh : Shard) :
  safe st -> protocol st -> shard_states st !! i = Some sh -> protocol (finish_step i sh st).
Proof.
  intros Hsf P Hi. pose proof (protocol_local _ _ P i sh Hi) as L. pose proof L as [Lc Le Lw Lp].
  assert (i < n)%nat as Hin by (rewrite <- (safe_count _ _ _ _ _ Hsf); by apply lookup_lt_Some in Hi).
  unfold ModelCheckSafe.position in Lp. unfold finish_step.
  destruct (pc sh) as [| | | | | | | | | | | | | | | | | | | |] eqn:E; try done.
  - assert (quiet st \/ broken st) as Hq by (apply (protocol_ending _ _ P i sh Hi); by rewrite E).
    assert (stays_begun sh (goto Drain sh)) as B by side E.
    apply (protocol_update st _ i sh (goto Drain sh) P Hi); try side E.
    + apply local_goto; [done|by rewrite E|by left|done].
    + rewrite E. simpl. lia.
    + intros _ _. apply (protocol_passed _ _ P i sh Hi); by rewrite E.
    + cbv zeta. simpl. rewrite queued_set by done. unfold unacked, queued. simpl. rewrite E. simpl. split; [lia|left; lia].
    + by intros [? _].
    + intros j q Hj Hc. right. destruct Hq as [Hq|Hq]; [by left|right]. by eapply (broken_stable st _ i sh).
  - assert (quiet st \/ broken st) as Hq by (apply (protocol_ending _ _ P i sh Hi); by rewrite E).
    destruct (items (recv_queue st i)) as [|batch rest] eqn:Eq.
    + eapply (protocol_move st _ i sh); [done|done|reflexivity|..]; try side E. apply local_goto; [done|by rewrite E|by left|done].
    + destruct Hq as [Hq|Hb].
      { rewrite (quiet_queue st i _ P Hq (recv_queue_some st i Hsf Hin)) in Eq. done. }
      apply (protocol_update st _ i sh sh P Hi); try side E; simpl.
      * by rewrite list_insert_id.
      * lia.
      * intros _ _. apply (protocol_passed _ _ P i sh Hi); by rewrite E.
      * cbv zeta. simpl. rewrite queued_set by done. unfold queued. rewrite Eq. simpl. split; [lia|by right].
      * by intros [? _].
      * intros j q Hj Hc. left. by eapply (closed_set st i).
Qed.

Lemma protocol_start (st : Mesh) (i : nat) (sh : Shard) :
  safe st -> protocol st -> shard_states st !! i = Some sh -> pc sh = Start ->
  protocol (local_step (start_run mdl hash (shard_count st) i (checker sh)) i sh
    (fun c => goto (Sending (SentFlush ToArrive)) (set_checker c sh)) st).
Proof.
  intros Hsf P Hi E. pose proof (protocol_local _ _ P i sh Hi) as L. pose proof L as [Lc Le Lw Lp].
  unfold ModelCheckSafe.position in Lp. rewrite E in Lp. destruct Lp as (Lq & Ls & Lr). rewrite (safe_count _ _ _ _ _ Hsf).
  destruct (start_spec mdl hash n hash_in_range i (checker sh) (safe_history _ _ _ _ _ _ (safe_shards _ _ _ _ _ Hsf i sh Hi)))
    as (c & -> & Hq & Hv & Hsent & Hh & Ho). simpl.
  eapply (protocol_move st _ i sh); [done|done|reflexivity|..]; try side E.
  split; simpl; [done|intros _; apply Le; by rewrite E|done|done].
Qed.

Lemma protocol_step (st : Mesh) (i : nat) :
  safe st -> protocol st -> protocol (mesh_step mdl hash between_flush i st).
Proof.
  intros Hsf P. unfold mesh_step. destruct (panicked st); [done|].
  destruct (shard_states st !! i) as [sh|] eqn:Hi; [|done].
  unfold shard_step. destruct (pc sh) as [|k|d batch k|d batch k|d batch k|d f| | | |lc|lc|lc|o lc|lc|d w lc|d lc|lc|o r| | |] eqn:E.
  - by apply protocol_start.
  - by apply protocol_send_step.
  - by apply protocol_push_step.
  - by apply protocol_push_step.
  - by apply protocol_push_step.
  - by apply protocol_flush_step.
  - by apply protocol_barrier_step.
  - by apply protocol_barrier_step.
  - destruct (0 <? total_pending_count st); [by apply protocol_check|by apply (protocol_same st)].
  - by apply protocol_enter_loop.
  - destruct (queue_ (checker sh)) as [|b q] eqn:Eq; [|apply protocol_round; [done..|by rewrite Eq]].
    pose proof (protocol_local _ _ P i sh Hi) as L. pose proof L as [_ _ _ Lp]. unfold ModelCheckSafe.position in Lp. rewrite E in Lp.
    eapply (protocol_move st _ i sh); [done|done|reflexivity|..]; try side E. apply local_goto; [done|by rewrite E|by left|done].
  - by apply protocol_recv_step; [..|rewrite E].
  - by apply protocol_recv_step; [..|rewrite E].
  - by apply protocol_recv_step; [..|rewrite E].
  - by apply protocol_close_step.
  - by apply protocol_close_step.
  - by apply protocol_recv_step; [..|rewrite E].
  - by apply protocol_recv_step; [..|rewrite E].
  - by apply protocol_finish_step.
  - by apply protocol_finish_step.
  - done.
Qed.

(** ** Runs *)

Notation new_mesh := (ModelCheckMesh.new_mesh (St:=St) m0 n).

Lemma sum_replicate {A} (f : A -> Z) (x : A) (k : nat) : sum (f <$> replicate k x) = Z.of_nat k * f x.
Proof. induction k as [|k IH]; [done|]. simpl replicate. rewrite fmap_cons, sum_cons, IH. lia. Qed.

Lemma new_shard (i : nat) (sh : Shard) :
  shard_states new_mesh !! i = Some sh -> sh = mkShard (new_checker m0) (replicate n []) 0 Start.
Proof. by intros [-> _]%lookup_replicate. Qed.

Lemma safe_new : safe new_mesh.
Proof.
  split; [apply length_replicate|apply length_replicate| |].
  - intros i sh ->%new_shard. split; simpl; try done.
    + apply length_replicate.
    + intros d b [Hs|[(row & [-> _]%lookup_replicate & Hb)|(batch & [=] & _)]]; [by apply elem_of_nil in Hs|by apply elem_of_nil in Hb].
    + intros b Hb. by apply elem_of_nil in Hb.
    + exists []. apply coded_new.
  - intros j q [-> _]%lookup_replicate batch Hb. by apply elem_of_nil in Hb.
Qed.

Lemma protocol_new : protocol new_mesh.
Proof.
  split.
  - intros i sh ->%new_shard. split; simpl; try done. unfold ModelCheckSafe.position. simpl.
    split_and!; [done|done|]. by intros d row _ [-> _]%lookup_replicate.
  - simpl. unfold cnt. rewrite sum_replicate. simpl. lia.
  - by intros i sh ->%new_shard.
  - unfold pending_batches. simpl. rewrite !sum_replicate. unfold unacked, queued. simpl. lia.
  - left. unfold pending_batches. simpl. rewrite !sum_replicate. unfold unacked, queued. simpl. lia.
  - by intros i sh ->%new_shard.
  - by intros i sh ->%new_shard.
  - by intros j q [-> _]%lookup_replicate.
Qed.

(** Induction over the steps of a run that starts with [new_mesh]. *)
Lemma run_mesh_ind (Inv : Mesh -> Prop) :
  Inv new_mesh ->
  (forall st i, safe st -> protocol st -> Inv st -> Inv (mesh_step mdl hash between_flush i st)) ->
  forall schedule, let st := run_mesh mdl hash between_flush schedule new_mesh in safe st /\ protocol st /\ Inv st.
Proof.
  intros H0 Hstep schedule. unfold run_mesh.
  assert (safe new_mesh /\ protocol new_mesh /\ Inv new_mesh) as Hst by (split_and!; [apply safe_new|apply protocol_new|done]).
  revert Hst. generalize new_mesh as st. induction schedule as [|i schedule IH]; intros st (S & P & I); [done|].
  simpl. apply IH. split_and!; [by apply safe_step|by apply protocol_step|by apply Hstep].
Qed.
End Count.
