(* ===== verification/ModelCheck.v ===== *)
(** * The model checker: the search is exhaustive

    For any number of shards and any interleaving: when every shard has
    returned without a violation, every reachable state has been visited and
    every run of [step] from it has been seen. *)

From S2P Require Export ModelCheckCount.
Open Scope Z_scope.

(** The picks of a branch are determined by its ring. *)
Lemma picks_unique {M} (t : Step M) (d : RadixQueue) (p1 p2 : list item) :
  valid_step t -> is_Some (follow t p1) -> is_Some (follow t p2) -> represents d p1 -> represents d p2 -> p1 = p2.
Proof.
  revert d p1 p2. induction t as [m|a b k IH]; intros d p1 p2 Hv [t1 H1] [t2 H2] R1 R2.
  - simpl in H1, H2. by destruct p1, p2.
  - destruct (follow_valid _ _ _ Hv H1) as (_ & V1 & I1). destruct (follow_valid _ _ _ Hv H2) as (_ & V2 & I2).
    pose proof (represents_empty d p1 R1 I1) as E1. rewrite (represents_empty d p2 R2 I2) in E1.
    destruct Hv as (Hab & _ & _ & Hk). simpl in H1, H2. destruct (a =? b) eqn:Eab; bool_cases.
    { apply (IH a d); [apply Hk; lia|by eexists|by eexists|done|done]. }
    destruct p1 as [|[r1 v1] p1], p2 as [|[r2 v2] p2]; try done.
    destruct ((r1 =? b - a + 1) && (0 <=? v1) && (v1 <? r1)) eqn:C1; [|done].
    destruct ((r2 =? b - a + 1) && (0 <=? v2) && (v2 <? r2)) eqn:C2; [|done]. bool_cases. subst r1 r2.
    apply Forall_inv in V1 as W1. apply Forall_inv in V2 as W2.
    destruct (pop_spec d p1 _ v1 R1 W1) as (d1 & D1 & R1'). destruct (pop_spec d p2 _ v2 R2 W2) as (d2 & D2 & R2').
    rewrite D1 in D2. injection D2 as <- <-. f_equal.
    apply (IH (a + v1) d1); [apply Hk; lia|by eexists|by eexists|done|done].
Qed.

Section Exhaustive.
Context `{Countable St, !Inhabited St} {M : Type}.
Variable (mdl : StateMachineModel St M) (m0 : M) (hash : Branch St -> Z) (between_flush : Z) (n : nat).
Hypothesis hash_in_range : hash_ok hash n.
Hypothesis model_fits : model_ok mdl m0.

Notation owner := (find_shard hash n).
Notation Shard := (Shard St M).
Notation Mesh := (Mesh St M).
Notation Checker := (Checker St M).
Notation Branch := (Branch St).
Notation safe := (safe mdl m0 hash n).
Notation protocol := (protocol n).
Notation reachable := (reachable mdl m0).
Notation leads_to := (leads_to mdl m0).
Notation mesh_step := (mesh_step mdl hash between_flush).

(** ** Where branches and states are *)

Definition in_transit (st : Mesh) (d : nat) (b : Branch) : Prop :=
  (exists i sh, shard_states st !! i = Some sh /\ shard_out sh d b) \/
  (exists q batch, recv_queues st !! d = Some q /\ batch ∈ items q /\ b ∈ batch).

Definition in_local (st : Mesh) (b : Branch) : Prop :=
  exists i sh, shard_states st !! i = Some sh /\ b ∈ queue_ (checker sh).

Definition visited_by (st : Mesh) (i : nat) (s : St) : Prop :=
  exists sh, shard_states st !! i = Some sh /\ s ∈ dom (visited_ (checker sh)).

Definition known (st : Mesh) (s : St) : Prop := exists i, visited_by st i s.

(** A branch of [s] is waiting for its turn.  A branch without picks counts
    only when its shard has accepted it. *)
Definition waiting (st : Mesh) (b : Branch) : Prop :=
  in_local st b \/ (~ is_root b /\ exists d, in_transit st d b).

(** The run from [s] to [m] with the picks [q] has been seen, or will be. *)
Definition covered (st : Mesh) (s : St) (q : list item) (m : M) : Prop :=
  (exists b p, waiting st b /\ branch_at s b p /\ p `prefix_of` q) \/
  (check_invariants mdl (entered mdl m0 s) = true /\ check_invariants mdl m = true /\
   (target mdl m = s \/ known st (target mdl m))).

Definition initial_state : St := normalize mdl (initialize mdl).

Record cover (st : Mesh) : Prop := {
  cover_first : (exists sh, shard_states st !! 0%nat = Some sh /\ pc sh = Start) \/
    visited_by st (owner (root_branch initial_state)) initial_state \/ exists d, in_transit st d (root_branch initial_state);
  cover_start : forall i sh, shard_states st !! i = Some sh -> pc sh = Start -> dom (visited_ (checker sh)) = ∅;
  cover_root : forall i s, visited_by st i s ->
    visited_by st (owner (root_branch s)) s \/ exists d, in_transit st d (root_branch s);
  cover_runs : forall s q m, visited_by st (owner (root_branch s)) s -> leads_to s q m -> covered st s q m }.

(** Nothing is lost when branches move and states are only added. *)
Lemma covered_mono (st st' : Mesh) (s : St) (q : list item) (m : M) :
  (forall b, waiting st b -> waiting st' b) ->
  (forall s, known st s -> known st' s) -> covered st s q m -> covered st' s q m.
Proof.
  intros Hw Hk [(b & p & Hb & Hp & Hq)|(H1 & H2 & H3)].
  - left. exists b, p. split_and!; [by apply Hw|done|done].
  - right. split_and!; [done|done|]. destruct H3 as [?|?]; [by left|right; by apply Hk].
Qed.

(** A step that moves branches of shard [i]. *)
Lemma cover_move (st st' : Mesh) (i : nat) (sh sh' : Shard) :
  shard_states st !! i = Some sh -> shard_states st' = <[i := sh']> (shard_states st) ->
  (forall d b, shard_out sh d b -> in_transit st' d b) ->
  (forall d q batch b, recv_queues st !! d = Some q -> batch ∈ items q -> b ∈ batch -> in_transit st' d b) ->
  queue_ (checker sh') = queue_ (checker sh) -> dom (visited_ (checker sh')) = dom (visited_ (checker sh)) ->
  (pc sh = Start -> exists d, in_transit st' d (root_branch initial_state)) -> pc sh' <> Start -> cover st -> cover st'.
Proof.
  intros Hi E Hout Hrecv Hq Hv Hs Hs' [C1 C2 C3 C4].
  assert (forall d b, in_transit st d b -> in_transit st' d b) as HT.
  { intros d b [(j & shj & Hj & Hb)|(q & batch & Hd & Hbatch & Hb)]; [|by eapply Hrecv].
    destruct (decide (j = i)) as [->|Hne]; [rewrite Hi in Hj; injection Hj as <-; by apply Hout|].
    left. exists j, shj. by rewrite E, list_lookup_insert_ne. }
  assert (forall b, in_local st b -> in_local st' b) as HL.
  { intros b (j & shj & Hj & Hb). destruct (decide (j = i)) as [->|Hne].
    - rewrite Hi in Hj. injection Hj as <-. exists i, sh'. rewrite E, Hq. split; [by eapply list_insert_here|done].
    - exists j, shj. by rewrite E, list_lookup_insert_ne. }
  assert (forall j s, visited_by st' j s <-> visited_by st j s) as HV.
  { intros j s. unfold visited_by. rewrite E. destruct (decide (j = i)) as [->|Hne].
    - rewrite (list_insert_here _ _ _ _ Hi), Hi. split; intros (? & [= <-] & Hd); eexists; (split; [done|]); [by rewrite <- Hv|by rewrite Hv].
    - by rewrite list_lookup_insert_ne. }
  split.
  - destruct C1 as [(sh0 & H0 & Hp)|[C1|[d C1]]].
    + destruct (decide (i = 0)%nat) as [->|Hne].
      * rewrite Hi in H0. injection H0 as ->. right. right. by apply Hs.
      * left. exists sh0. split; [|done]. by rewrite E, list_lookup_insert_ne.
    + right. left. by apply HV.
    + right. right. exists d. by apply HT.
  - intros j shj Hj Hp. rewrite E in Hj. destruct (list_insert_cases _ _ _ _ _ _ Hi Hj) as [[-> ->]|[_ Hj']]; [done|by eapply C2].
  - intros j s Hj%HV. destruct (C3 j s Hj) as [?|[d ?]]; [left; by apply HV|right; exists d; by apply HT].
  - intros s q m Hs1%HV Hm. apply (covered_mono st); [|intros s' [j Hj]; exists j; by apply HV|by apply C4].
    intros b [Hb|(Hb & d & Hd)]; [left; by apply HL|right; split; [done|exists d; by apply HT]].
Qed.

Lemma in_transit_shard (st : Mesh) (i : nat) (sh : Shard) (d : nat) (b : Branch) :
  shard_states st !! i = Some sh -> shard_out sh d b -> in_transit st d b.
Proof. left. by exists i, sh. Qed.

Lemma in_transit_queue (st : Mesh) (d : nat) (batch : list Branch) (b : Branch) :
  batch ∈ items (recv_queue st d) -> b ∈ batch -> in_transit st d b.
Proof.
  unfold recv_queue. destruct (recv_queues st !! d) as [q|] eqn:E; intros Hb Hin; [|by apply elem_of_nil in Hb].
  right. by exists q, batch.
Qed.

(** A shard moves on, and no queue changes. *)
Lemma cover_goto (st st' : Mesh) (i : nat) (sh : Shard) (p : Pc St) :
  shard_states st !! i = Some sh -> shard_states st' = <[i := goto p sh]> (shard_states st) ->
  recv_queues st' = recv_queues st -> pc sh <> Start -> p <> Start ->
  (pc_batch (pc sh) = None \/ pc_batch p = pc_batch (pc sh)) -> cover st -> cover st'.
Proof.
  intros Hi E Er Hs Hp Hb. apply (cover_move st st' i sh (goto p sh)); try done.
  - intros d b Ho. apply (in_transit_shard st' i (goto p sh)); [rewrite E; by eapply list_insert_here|].
    destruct Ho as [Ho|[Ho|(batch & Hpb & Hin)]]; [by left|by right; left|right; right].
    exists batch. split; [|done]. destruct Hb as [Hb|Hb]; [by rewrite Hb in Hpb|]. simpl. by rewrite Hb.
  - intros d q batch b Hd Hbatch Hin. right. exists q, batch. by rewrite Er.
Qed.

Lemma cover_same (st st' : Mesh) :
  shard_states st' = shard_states st -> recv_queues st' = recv_queues st -> cover st -> cover st'.
Proof.
  intros Es Er [C1 C2 C3 C4].
  assert (forall d b, in_transit st d b <-> in_transit st' d b) as HT by (intros d b; unfold in_transit; by rewrite Es, Er).
  assert (forall j s, visited_by st j s <-> visited_by st' j s) as HV by (intros j s; unfold visited_by; by rewrite Es).
  split.
  - destruct C1 as [C1|[C1|[d C1]]]; [left; by rewrite Es|right; left; by apply HV|right; right; exists d; by apply HT].
  - rewrite Es. done.
  - intros i s Hv%HV. destruct (C3 i s Hv) as [?|[d ?]]; [left; by apply HV|right; exists d; by apply HT].
  - intros s q m Hv%HV Hm. apply (covered_mono st); [|intros s' [j Hj]; exists j; by apply HV|by apply C4].
    intros b [Hb|(Hb & d & Hd)]; [left; unfold in_local; by rewrite Es|right; split; [done|exists d; by apply HT]].
Qed.

(** A row is emptied into a batch. *)
Lemma out_take_row (sh : Shard) (e : nat) (batch : list Branch) (p : Pc St) (d : nat) (b : Branch) :
  pc_batch (pc sh) = None -> pc_batch p = Some (e, batch) ->
  (forall row, send_queues sh !! e = Some row -> row `sublist_of` batch) ->
  shard_out sh d b -> shard_out (goto p (set_row e [] sh)) d b.
Proof.
  intros Hn Hp Hrow [Ho|[(row & Hr & Hin)|(batch' & Hb & _)]]; [by left| |by rewrite Hn in Hb].
  destruct (decide (d = e)) as [->|Hne].
  - right. right. exists batch. split; [done|]. eapply elem_of_sublist; [done|by apply Hrow].
  - right. left. exists row. split; [|done]. simpl. by rewrite list_lookup_insert_ne.
Qed.

Lemma cover_send_step (st : Mesh) (i : nat) (sh : Shard) (k : AfterSend) :
  safe st -> shard_states st !! i = Some sh -> pc sh = Sending k -> cover st -> cover (send_step i sh k st).
Proof.
  intros Hsf Hi E C. pose proof (safe_shards _ _ _ _ _ Hsf i sh Hi) as Hs.
  unfold send_step. destruct (sent (checker sh)) as [|[d b] rest] eqn:Es.
  { apply (cover_goto st _ i sh (after_send k)); [done|done|done|by rewrite E|by destruct k as [|[]]|by left; rewrite E|done]. }
  destruct (safe_out _ _ _ _ _ _ Hs d b) as [Hd _]; [left; rewrite Es; by left|].
  assert (d < length (send_queues sh))%nat as Hlt.
  { rewrite (safe_rows _ _ _ _ _ _ Hs), Hd. by apply owner_lt. }
  set (batch := default [] (send_queues sh !! d) ++ [b]).
  set (sh1 := set_row d batch (set_checker (set_sent rest (checker sh)) sh)).
  assert (forall e b', shard_out sh e b' -> shard_out sh1 e b') as Hout.
  { intros e b' [Ho|[(row & Hr & Hin)|(batch' & Hb & _)]]; [| |by rewrite E in Hb].
    - rewrite Es in Ho. apply elem_of_cons in Ho as [[= -> ->]|Ho]; [|by left].
      right. left. exists batch. simpl. split; [by apply list_lookup_insert_eq|]. apply elem_of_app. right. by left.
    - right. left. destruct (decide (e = d)) as [->|Hne].
      + exists batch. simpl. split; [by apply list_lookup_insert_eq|]. apply elem_of_app. left. by rewrite Hr.
      + exists row. simpl. by rewrite list_lookup_insert_ne. }
  destruct (default false _).
  - set (p := PushAdd d batch (BackToSend k)).
    assert (goto p (set_row d [] (set_checker (set_sent rest (checker sh)) sh)) = goto p (set_row d [] sh1)) as ->.
    { unfold goto, set_row, sh1. simpl. by rewrite list_insert_insert_eq. }
    apply (cover_move st _ i sh (goto p (set_row d [] sh1))); try done; [|by intros e q batch' b' ? ? ?; right; exists q, batch'|by rewrite E].
    intros e b' Ho. apply (in_transit_shard _ i (goto p (set_row d [] sh1))); [by eapply list_insert_here|].
    apply (out_take_row sh1 d batch); [simpl; by rewrite E|done| |by apply Hout].
    simpl. intros row Hr. rewrite list_lookup_insert_eq in Hr by done. by injection Hr as <-.
  - apply (cover_move st _ i sh sh1); try done; [|by intros e q batch' b' ? ? ?; right; exists q, batch'|by rewrite E|by simpl; rewrite E].
    intros e b' Ho. apply (in_transit_shard _ i sh1); [by eapply list_insert_here|by apply Hout].
Qed.

Lemma cover_flush_step (st : Mesh) (i : nat) (sh : Shard) (d : nat) (f : AfterFlush) :
  shard_states st !! i = Some sh -> pc sh = Flushing d f -> cover st -> cover (flush_step i sh d f st).
Proof.
  intros Hi E C. unfold flush_step. destruct (d <? shard_count st)%nat.
  - destruct (default [] (send_queues sh !! d)) as [|b row] eqn:Er.
    + apply (cover_goto st _ i sh (Flushing (S d) f)); [done|done|done|by rewrite E|done|by left; rewrite E|done].
    + set (p := PushAdd d (b :: row) (BackToFlush (S d) f)).
      apply (cover_move st _ i sh (goto p (set_row d [] sh))); try done; [|by intros e q batch' b' ? ? ?; right; exists q, batch'|by rewrite E].
      intros e b' Ho. apply (in_transit_shard _ i (goto p (set_row d [] sh))); [by eapply list_insert_here|].
      apply (out_take_row sh d (b :: row)); [by rewrite E|done| |done]. intros row' Hr. by rewrite Hr in Er; simpl in Er; subst row'.
  - apply (cover_goto st _ i sh (after_flush f)); [done|done|done|by rewrite E|by destruct f|by left; rewrite E|done].
Qed.

Lemma broken_violation (st : Mesh) : safe st -> broken st -> violation mdl m0.
Proof.
  intros Hsf (i & sh & Hi & Hb & Ho). by apply (safe_ok _ _ _ _ _ _ (safe_shards _ _ _ _ _ Hsf i sh Hi)).
Qed.

Lemma cover_push_step (st : Mesh) (i : nat) (sh : Shard) :
  safe st -> protocol st -> shard_states st !! i = Some sh -> pc_batch (pc sh) <> None ->
  cover st -> broken st \/ cover (push_step i sh st).
Proof.
  intros Hsf P Hi Hpb C.
  unfold push_step. destruct (pc sh) as [| |d batch k|d batch k|d batch k| | | | | | | | | | | | | | | |] eqn:E; try done.
  - right. apply (cover_goto st _ i sh (PushOpen d batch k)); [done|done|done|by rewrite E|done|by right; rewrite E|done].
  - pose proof (batch_dst mdl m0 hash n hash_in_range st i sh d batch Hsf Hi ltac:(by rewrite E)) as Hd.
    destruct (closed (recv_queue st d)) eqn:Ec.
    + left. destruct (protocol_closed _ _ P d _ (recv_queue_some mdl m0 hash n st d Hsf Hd) Ec) as [Hq|]; [|done].
      destruct (quiet_shard n st i sh P Hq Hi) as (_ & _ & Hcount & _). by rewrite E in Hcount.
    + right. apply (cover_goto st _ i sh (PushItem d batch k)); [done|done|done|by rewrite E|done|by right; rewrite E|done].
  - right. pose proof (batch_dst mdl m0 hash n hash_in_range st i sh d batch Hsf Hi ltac:(by rewrite E)) as Hd.
    set (st' := set_shard i _ _).
    assert (recv_queues st' !! d = Some (mkRecvQueue (items (recv_queue st d) ++ [batch]) (closed (recv_queue st d)))) as Hq.
    { simpl. apply list_lookup_insert_eq. by rewrite (safe_recv _ _ _ _ _ Hsf). }
    apply (cover_move st st' i sh (goto (after_push k) sh)); try done; [| |by rewrite E|by destruct k].
    + intros e b [Ho|[Ho|(batch' & Hb & Hin)]].
      * apply (in_transit_shard _ i (goto (after_push k) sh)); [by eapply list_insert_here|by left].
      * apply (in_transit_shard _ i (goto (after_push k) sh)); [by eapply list_insert_here|by right; left].
      * rewrite E in Hb. injection Hb as <- <-. right. eexists _, batch. split; [exact Hq|]. simpl.
        split; [apply elem_of_app; right; by left|done].
    + intros e q batch' b He Hb Hin. right. destruct (decide (e = d)) as [->|Hne].
      * eexists _, batch'. split; [exact Hq|]. simpl. split; [|done]. apply elem_of_app. left.
        unfold recv_queue. by rewrite He.
      * exists q, batch'. simpl. by rewrite list_lookup_insert_ne.
Qed.

Lemma cover_start_run (st : Mesh) (i : nat) (sh : Shard) :
  safe st -> protocol st -> shard_states st !! i = Some sh -> pc sh = Start -> cover st ->
  cover (local_step (start_run mdl hash (shard_count st) i (checker sh)) i sh
    (fun c => goto (Sending (SentFlush ToArrive)) (set_checker c sh)) st).
Proof.
  intros Hsf P Hi E C. pose proof (in_position _ _ (protocol_local _ _ P i sh Hi)) as Lp.
  unfold position in Lp. rewrite E in Lp. destruct Lp as (Lq & _ & _). rewrite (safe_count _ _ _ _ _ Hsf).
  destruct (start_spec mdl hash n hash_in_range i (checker sh) (safe_history _ _ _ _ _ _ (safe_shards _ _ _ _ _ Hsf i sh Hi)))
    as (c & -> & Hq & Hv & Hsent & _ & _). simpl.
  set (sh' := goto _ _). set (st' := set_shard i sh' st).
  assert (shard_states st' !! i = Some sh') as Hi' by (by eapply list_insert_here).
  apply (cover_move st st' i sh sh'); try done.
  - intros d b [Ho|[Ho|(batch & Hb & _)]]; [| |by rewrite E in Hb]; apply (in_transit_shard st' i sh'); try done; [left|by right; left].
    simpl. rewrite Hsent. apply elem_of_app. by left.
  - intros d q batch b Hd Hb Hin. right. by exists q, batch.
  - simpl. by rewrite Hq, Lq.
  - simpl. by rewrite Hv, (cover_start _ C i sh Hi E).
  - intros _. exists (owner (first_branch mdl)). apply (in_transit_shard st' i sh'); [done|left]. simpl. rewrite Hsent.
    apply elem_of_app. right. by left.
Qed.

(** A step that adds states and hands branches over: [grows] says that
    whatever was promised is still promised. *)
Record grows (st st' : Mesh) : Prop := {
  grows_transit : forall d b, in_transit st d b -> in_transit st' d b \/
    ((is_root b -> visited_by st' (owner b) (snapshot b)) /\ (~ is_root b -> in_local st' b));
  grows_visited : forall j s, visited_by st j s -> visited_by st' j s;
  grows_new : forall j s, visited_by st' j s -> visited_by st j s \/
    in_local st' (root_branch s) \/ (j <> owner (root_branch s) /\ exists d, in_transit st' d (root_branch s));
  grows_owner : forall j s, visited_by st' j s -> visited_by st j s \/ j = owner (root_branch s) \/
    exists d, in_transit st' d (root_branch s);
  grows_local : forall s q m b p, in_local st b -> branch_at s b p -> p `prefix_of` q -> leads_to s q m ->
    covered st' s q m;
  grows_start : forall j sh, pc sh = Start -> shard_states st !! j = Some sh <-> shard_states st' !! j = Some sh }.

Lemma cover_grows (st st' : Mesh) : grows st st' -> cover st -> cover st'.
Proof.
  intros [G1 G2 G3 G4 G5 G6] [C1 C2 C3 C4].
  assert (forall s, (exists d, in_transit st d (root_branch s)) ->
    visited_by st' (owner (root_branch s)) s \/ exists d, in_transit st' d (root_branch s)) as HR.
  { intros s [d [Ht|[Hv _]]%G1]; [right; by exists d|left; by apply Hv]. }
  split.
  - destruct C1 as [(sh0 & H0 & Hp)|[C1|C1]]; [left|right; left; by apply G2|right; by apply HR].
    exists sh0. split; [|done]. by apply G6.
  - intros j sh Hj Hp. apply (C2 j sh); [by apply G6|done].
  - intros j s Hv. destruct (G4 j s Hv) as [Hv'|[->|?]]; [|by left|by right].
    destruct (C3 j s Hv') as [?|?]; [left; by apply G2|by apply HR].
  - intros s q m Hv Hm. destruct (G3 _ s Hv) as [Hv'|[Hl|[Hne _]]]; [| |done].
    + destruct (C4 s q m Hv' Hm) as [(b & p & Hw & Hb & Hp)|(I1 & I2 & I3)].
      * destruct Hw as [Hl|(Hnr & d & [Ht|[_ Hl]]%G1)]; [by eapply G5| |].
        -- left. exists b, p. split_and!; [right; split; [done|by exists d]|done|done].
        -- left. exists b, p. split_and!; [left; by apply Hl|done|done].
      * right. split_and!; [done|done|]. destruct I3 as [?|[j Hj]]; [by left|right; exists j; by apply G2].
    + left. exists (root_branch s), []. split_and!; [by left|split; [done|apply coded_new]|apply prefix_nil].
Qed.

(** ** A batch arrives *)

Section Arrival.
Variable (st : Mesh) (i : nat) (sh : Shard) (batch : list Branch) (rest : list (list Branch)) (p : Pc St) (c : Checker).
Hypothesis Hsf : safe st.
Hypothesis Hi : shard_states st !! i = Some sh.
Hypothesis Hit : items (recv_queue st i) = batch :: rest.
Hypothesis Hq : queue_ (checker sh) = [].
Hypothesis Hpb : pc_batch (pc sh) = None.
Hypothesis Harr : arrived batch (checker sh) c.
Hypothesis Hgood : forall b, b ∈ batch -> owner b = i /\ good mdl m0 b.

Let sh' : Shard := goto p (set_consume (local_consume_count sh + 1) (set_checker c sh)).
Let st' : Mesh := set_shard i sh' (count_pop (set_recv i (mkRecvQueue rest (closed (recv_queue st i))) st)).

Lemma arrival_here : shard_states st' !! i = Some sh'.
Proof. by eapply list_insert_here. Qed.

Lemma arrival_other (j : nat) (shj : Shard) : j <> i -> shard_states st' !! j = Some shj <-> shard_states st !! j = Some shj.
Proof. intros Hne. simpl. by rewrite list_lookup_insert_ne. Qed.

Lemma arrival_queue : recv_queues st' !! i = Some (mkRecvQueue rest (closed (recv_queue st i))).
Proof.
  simpl. apply list_lookup_insert_eq. rewrite (safe_recv _ _ _ _ _ Hsf), <- (safe_count _ _ _ _ _ Hsf).
  by apply lookup_lt_Some in Hi.
Qed.

Lemma arrival_transit (d : nat) (b : Branch) : in_transit st d b -> in_transit st' d b \/ b ∈ batch.
Proof.
  intros [(j & shj & Hj & Hb)|(q & batch' & Hd & Hb & Hin)].
  - left. destruct (decide (j = i)) as [->|Hne]; [|left; exists j, shj; split; [by apply arrival_other|done]].
    rewrite Hi in Hj. injection Hj as <-. apply (in_transit_shard st' i sh'); [apply arrival_here|].
    destruct Hb as [Hb|[Hb|(b' & Hb & _)]]; [left; simpl; by rewrite (arrived_sent _ _ _ Harr)|by right; left|by rewrite Hpb in Hb].
  - destruct (decide (d = i)) as [->|Hne].
    + apply recv_queue_lookup in Hd as Hd'. subst q. rewrite Hit in Hb. apply elem_of_cons in Hb as [->|Hb]; [by right|].
      left. right. eexists _, batch'. by split; [exact arrival_queue|].
    + left. right. exists q, batch'. simpl. by rewrite list_lookup_insert_ne.
Qed.

Lemma arrival_visited (j : nat) (s : St) :
  visited_by st' j s <-> visited_by st j s \/ (j = i /\ exists b, b ∈ batch /\ is_root b /\ snapshot b = s).
Proof.
  destruct (decide (j = i)) as [->|Hne].
  - unfold visited_by. rewrite arrival_here, Hi. split.
    + intros (? & [= <-] & [Hv|Hb]%(arrived_visited _ _ _ Harr)); [left; by exists sh|by right].
    + intros Hv. exists sh'. split; [done|]. apply (arrived_visited _ _ _ Harr).
      destruct Hv as [(? & [= <-] & Hv)|[_ Hb]]; [by left|by right].
  - unfold visited_by. setoid_rewrite arrival_other; [|done]. naive_solver.
Qed.

Lemma arrival_root (b : Branch) : b ∈ batch -> is_root b -> owner (root_branch (snapshot b)) = i.
Proof. intros Hb Hr. destruct (Hgood b Hb) as [Ho [Hroot _]]. by rewrite <- (Hroot Hr). Qed.

Lemma arrival_grows : pc sh <> Start -> p <> Start -> grows st st'.
Proof.
  intros Hs Hp. assert (forall b, in_local st b -> in_local st' b) as HL.
  { intros b (j & shj & Hj & Hb). destruct (decide (j = i)) as [->|Hne]; [|exists j, shj; split; [by apply arrival_other|done]].
    rewrite Hi in Hj. injection Hj as <-. rewrite Hq in Hb. by apply elem_of_nil in Hb. }
  split.
  - intros d b [?|Hb]%arrival_transit; [by left|right]. destruct (Hgood b Hb) as [Ho _]. split.
    + intros Hr. apply arrival_visited. right. split; [done|by exists b].
    + intros Hnr. exists i, sh'. split; [apply arrival_here|]. by apply (arrived_picks _ _ _ Harr).
  - intros j s Hv. apply arrival_visited. by left.
  - intros j s (shj & Hj & Hv). destruct (decide (j = i)) as [->|Hne]; [|left; exists shj; split; [by apply arrival_other|done]].
    rewrite arrival_here in Hj. injection Hj as <-.
    destruct (decide (s ∈ dom (visited_ (checker sh)))) as [?|Hn]; [left; by exists sh|right; left].
    destruct (arrived_new _ _ _ Harr s Hv Hn) as (b & Hb & Hr & <-).
    destruct (Hgood b) as [_ [Hroot _]]; [by apply (elem_of_sublist _ _ _ Hb), (arrived_sublist _ _ _ Harr)|].
    rewrite <- (Hroot Hr). exists i, sh'. split; [apply arrival_here|done].
  - intros j s [?|(-> & b & Hb & Hr & <-)]%arrival_visited; [by left|right; left]. symmetry. by apply arrival_root.
  - intros s q m b p' Hl Hb Hpre _. left. exists b, p'. split_and!; [left; by apply HL|done|done].
  - intros j shj Hpj. destruct (decide (j = i)) as [->|Hne]; [|symmetry; by apply arrival_other].
    rewrite arrival_here, Hi. split; intros [= <-]; done.
Qed.
End Arrival.

Lemma cover_transfer (st : Mesh) (i : nat) (sh : Shard) (batch : list Branch) (rest : list (list Branch)) (p : Pc St) :
  safe st -> shard_states st !! i = Some sh -> items (recv_queue st i) = batch :: rest -> queue_ (checker sh) = [] ->
  pc sh <> Start -> pc_batch (pc sh) = None -> p <> Start -> cover st -> cover (transfer_batch i sh batch rest p st).
Proof.
  intros Hsf Hi Hit Hq Hs Hpb Hp C.
  destruct (received mdl m0 hash n hash_in_range model_fits st i sh batch rest Hsf Hit Hq) as (c & E & A & Hg).
  unfold transfer_batch. rewrite E. simpl. eapply cover_grows; [|exact C]. by apply (arrival_grows st i sh batch rest p c).
Qed.

(** ** A round *)

(** What a round has seen: the runs that started with its branch. *)
Lemma explored_covers (st : Mesh) (i : nat) (sh : Shard) (b : Branch) (p : list item) (t : Step M) (bs : list Branch)
    (c c' : Checker) (q : list item) (m : M) :
  shard_states st !! i = Some sh -> queue_ (checker sh) = queue_ c' -> visited_ (checker sh) = visited_ c' ->
  sent (checker sh) = sent c' ->
  explored mdl m0 hash n i (snapshot b) p t bs c c' -> reachable (snapshot b) ->
  follow (step_of mdl m0 (snapshot b)) p = Some t -> leads_to (snapshot b) q m -> p `prefix_of` q ->
  covered st (snapshot b) q m.
Proof.
  intros Hi Eq Ev Es X Hr Hf Hm [q' ->]. unfold ModelChecker.leads_to in Hm. rewrite follow_app, Hf in Hm. simpl in Hm.
  pose proof (round_siblings mdl m0 hash n model_fits true _ _ _ _ _ _ _ Hr Hf X) as HS.
  destruct X as [_ X2 X3 X4 X5 X6 X7 _ _]. destruct (run_cases t m q' p Hm) as [[-> ->]|(p' & Hp' & Hpre)].
  - right. split_and!; [done|done|]. destruct (decide (target mdl (least t) = snapshot b)) as [|Hne]; [by left|right].
    exists i, sh. split; [done|]. rewrite Ev, X7. set_solver.
  - left. apply list_elem_of_lookup in Hp' as [k Hk]. destruct (Forall2_lookup_r _ _ _ _ _ X4 Hk) as (b' & Hb' & Hat).
    apply list_elem_of_lookup_2 in Hb'. destruct (HS b' Hb') as (_ & Hg & Hnr).
    exists b', p'. split_and!; [|done|done]. destruct (decide (owner b' = i)) as [Ho|Ho].
    + left. exists i, sh. split; [done|]. rewrite Eq, X5. apply elem_of_app. right. apply elem_of_locals.
      split; [apply elem_of_app; by left|done].
    + right. split; [done|]. exists (owner b'). apply (in_transit_shard st i sh); [done|left]. rewrite Es, X6.
      apply elem_of_app. right. apply elem_of_remotes. split_and!; [apply elem_of_app; by left|done|done].
Qed.

Section Round.
Variable (st : Mesh) (i : nat) (sh : Shard) (next : Pc St) (b : Branch) (rest : list Branch) (c : Checker).
Variable (p : list item) (t : Step M) (bs : list Branch).
Hypothesis Hi : shard_states st !! i = Some sh.
Hypothesis Hpb : pc_batch (pc sh) = None.
Hypothesis Hqueue : queue_ (checker sh) = b :: rest.
Hypothesis Hat : branch_at (snapshot b) b p.
Hypothesis Hreach : reachable (snapshot b).
Hypothesis Hfollow : follow (step_of mdl m0 (snapshot b)) p = Some t.
Hypothesis Hexp : explored mdl m0 hash n i (snapshot b) p t bs (set_queue rest (checker sh)) c.

Let sh' : Shard := goto next (set_checker c sh).
Let st' : Mesh := set_shard i sh' st.
Let after : St := target mdl (least t).

Lemma round_here : shard_states st' !! i = Some sh'.
Proof. by eapply list_insert_here. Qed.

Lemma round_other (j : nat) (shj : Shard) : j <> i -> shard_states st' !! j = Some shj <-> shard_states st !! j = Some shj.
Proof. intros Hne. simpl. by rewrite list_lookup_insert_ne. Qed.

Lemma round_transit (d : nat) (b' : Branch) : in_transit st d b' -> in_transit st' d b'.
Proof.
  intros [(j & shj & Hj & Hout)|Hd]; [|by right].
  destruct (decide (j = i)) as [->|Hne]; [|left; exists j, shj; split; [by apply round_other|done]].
  rewrite Hi in Hj. injection Hj as <-. apply (in_transit_shard st' i sh'); [apply round_here|].
  destruct Hout as [Hout|[Hout|(b'' & Hb & _)]]; [left|by right; left|by rewrite Hpb in Hb].
  simpl. rewrite (explored_sent _ _ _ _ _ _ _ _ _ _ _ Hexp). apply elem_of_app. by left.
Qed.

Lemma round_local (b' : Branch) : in_local st b' -> in_local st' b' \/ b' = b.
Proof.
  intros (j & shj & Hj & Hin). destruct (decide (j = i)) as [->|Hne]; [|left; exists j, shj; split; [by apply round_other|done]].
  rewrite Hi in Hj. injection Hj as <-. rewrite Hqueue in Hin. apply elem_of_cons in Hin as [->|Hin]; [by right|left].
  exists i, sh'. split; [apply round_here|]. simpl. rewrite (explored_queue _ _ _ _ _ _ _ _ _ _ _ Hexp). apply elem_of_app. by left.
Qed.

Lemma round_visited (j : nat) (s : St) :
  visited_by st' j s <-> visited_by st j s \/ (j = i /\ s = after /\ after <> snapshot b).
Proof.
  destruct (decide (j = i)) as [->|Hne].
  - unfold visited_by. rewrite round_here, Hi. pose proof (explored_visited _ _ _ _ _ _ _ _ _ _ _ Hexp) as X.
    fold after in X. split.
    + intros (? & [= <-] & Hv). simpl in Hv. rewrite X in Hv. case_decide; [left; by exists sh|].
      apply elem_of_union in Hv as [->%elem_of_singleton|Hv]; [by right|left; by exists sh].
    + intros Hv. exists sh'. split; [done|]. simpl. rewrite X.
      destruct Hv as [(? & [= <-] & Hv)|(_ & -> & Hne)]; [case_decide; set_solver|rewrite decide_False by done; set_solver].
  - unfold visited_by. setoid_rewrite round_other; [|done]. naive_solver.
Qed.

(** A state that is new to the shard is in its local queue or has been sent. *)
Lemma round_discovers :
  after <> snapshot b -> ~ visited_by st i after ->
  if decide (owner (root_branch after) = i) then in_local st' (root_branch after)
  else exists d, in_transit st' d (root_branch after).
Proof.
  intros Hne Hn. assert (root_branch after ∈ bs ++ discovered (snapshot b) after (visited_ (checker sh))) as Hd.
  { apply elem_of_app. right. apply elem_of_discovered. split_and!; [done| |done].
    intros Hv. apply Hn. by exists sh. }
  case_decide as Ho.
  - exists i, sh'. split; [apply round_here|]. simpl. rewrite (explored_queue _ _ _ _ _ _ _ _ _ _ _ Hexp).
    apply elem_of_app. right. by apply elem_of_locals.
  - exists (owner (root_branch after)). apply (in_transit_shard st' i sh'); [apply round_here|left]. simpl.
    rewrite (explored_sent _ _ _ _ _ _ _ _ _ _ _ Hexp). apply elem_of_app. right. by apply elem_of_remotes.
Qed.

(** The picks with which a branch covers a run are those of the round. *)
Lemma round_picks (p' q : list item) (m : M) :
  branch_at (snapshot b) b p' -> p' `prefix_of` q -> leads_to (snapshot b) q m -> p' = p.
Proof.
  intros [_ Hc'] [q' ->] Hm. unfold ModelChecker.leads_to in Hm. rewrite follow_app in Hm.
  destruct (follow (step_of mdl m0 (snapshot b)) p') as [t'|] eqn:Et; [|done].
  assert (valid_step (step_of mdl m0 (snapshot b))) as Hv by (by apply model_fits).
  destruct (follow_valid _ _ _ Hv Hfollow) as (_ & V1 & _). destruct (follow_valid _ _ _ Hv Et) as (_ & V2 & _).
  destruct Hat as [_ Hc]. apply (picks_unique (step_of mdl m0 (snapshot b)) (delta b)); [done|by eexists|by eexists|..];
    by apply coded_represents.
Qed.

Lemma round_grows : pc sh <> Start -> next <> Start -> grows st st'.
Proof.
  intros Hs Hp.
  assert (forall j s, visited_by st' j s -> visited_by st j s \/ (j = i /\ s = after /\ after <> snapshot b /\ ~ visited_by st i after)) as HN.
  { intros j s [?|(-> & -> & Hne)]%round_visited; [by left|].
    destruct (decide (after ∈ dom (visited_ (checker sh)))) as [?|Hn]; [left; by exists sh|right].
    split_and!; try done. intros (? & Hj & Hv). rewrite Hi in Hj. by injection Hj as <-. }
  split.
  - intros d b' Hd. left. by apply round_transit.
  - intros j s Hv. apply round_visited. by left.
  - intros j s [?|(-> & -> & Hne & Hn)]%HN; [by left|right]. pose proof (round_discovers Hne Hn) as Hd.
    destruct (decide (owner (root_branch after) = i)); [by left|right]. split; [done|exact Hd].
  - intros j s [?|(-> & -> & Hne & Hn)]%HN; [by left|right]. pose proof (round_discovers Hne Hn) as Hd.
    destruct (decide (owner (root_branch after) = i)) as [Ho|]; [by left|by right].
  - intros s q m b' p' [Hl| ->]%round_local Hb' Hpre Hm; [left; exists b', p'; split_and!; [by left|done|done]|].
    pose proof Hb' as [<- _]. rewrite (round_picks p' q m Hb' Hpre Hm) in Hpre.
    apply (explored_covers st' i sh' b p t bs (set_queue rest (checker sh)) c); try done. apply round_here.
  - intros j shj Hpj. destruct (decide (j = i)) as [->|Hne]; [|symmetry; by apply round_other].
    rewrite round_here, Hi. split; intros [= <-]; done.
Qed.
End Round.

Lemma cover_round (st : Mesh) (i : nat) (sh : Shard) (lc : Z) :
  safe st -> shard_states st !! i = Some sh -> pc sh = PopNext lc -> queue_ (checker sh) <> [] -> cover st ->
  broken (round_step mdl hash i sh lc st) \/ cover (round_step mdl hash i sh lc st).
Proof.
  intros Hsf Hi E Hq C. pose proof (safe_shards _ _ _ _ _ Hsf i sh Hi) as Hs.
  destruct (queue_ (checker sh)) as [|b rest] eqn:Eq; [done|].
  destruct (safe_local _ _ _ _ _ _ Hs b) as [Ho Hg]; [rewrite Eq; by left|].
  destruct (round_spec mdl m0 hash n hash_in_range model_fits i (checker sh) b rest Eq Ho Hg (safe_history _ _ _ _ _ _ Hs)) as
    (c & more & p & t & bs & Er & Hb & Hr & Hf & _ & _ & X).
  unfold round_step. rewrite (safe_count _ _ _ _ _ Hsf). setoid_rewrite Er. simpl. destruct more.
  - right. eapply cover_grows; [|exact C]. by eapply (round_grows st i sh _ b rest c p t bs); try done; rewrite E.
  - left. eexists i, _. split_and!; [by eapply list_insert_here|done|by destruct X].
Qed.

(** ** Every step *)

(** A violation that has been found is not forgotten. *)
Lemma broken_update (st st' : Mesh) (i : nat) (sh sh' : Shard) (p : Pc St) :
  shard_states st !! i = Some sh -> pc sh = p -> shard_states st' = <[i := sh']> (shard_states st) ->
  (begun p = true -> begun (pc sh') = true) ->
  (begun p = true -> ok (result_ (checker sh)) = false -> ok (result_ (checker sh')) = false) -> broken st -> broken st'.
Proof. intros Hi <- E H1 H2. by apply (broken_stable st st' i sh sh'). Qed.

Lemma broken_step (st : Mesh) (i : nat) : safe st -> protocol st -> broken st -> broken (mesh_step i st).
Proof.
  intros Hsf P Hb. unfold ModelCheckMesh.mesh_step. destruct (panicked st); [done|].
  destruct (shard_states st !! i) as [sh|] eqn:Hi; [|done].
  pose proof (safe_shards _ _ _ _ _ Hsf i sh Hi) as Hs. pose proof (protocol_local _ _ P i sh Hi) as L.
  unfold shard_step. destruct (pc sh) as [|k|d batch k|d batch k|d batch k|d f| | | |lc|lc|lc|o lc|lc|d w lc|d lc|lc|o r| | |] eqn:E;
    unfold send_step, push_step, flush_step, barrier_step, enter_loop, recv_step, close_step, finish_step; rewrite ?E;
    repeat case_match; try done; try (eapply (broken_update st); [exact Hi|exact E|reflexivity| |done|exact Hb]; done).
  - rewrite (safe_count _ _ _ _ _ Hsf).
    destruct (start_spec mdl hash n hash_in_range i (checker sh) (safe_history _ _ _ _ _ _ Hs)) as (c & -> & _). simpl.
    by eapply (broken_update st); [exact Hi|exact E|reflexivity|..].
  - eapply (broken_update st); [exact Hi|exact E|reflexivity|by rewrite <- begun_after_send|done|done].
  - eapply (broken_update st); [exact Hi|exact E|reflexivity|by simpl; rewrite E|done|done].
  - eapply (broken_update st); [exact Hi|exact E|reflexivity|simpl; by rewrite (begun_after_push d batch)|done|done].
  - eapply (broken_update st); [exact Hi|exact E|reflexivity|simpl; by rewrite (begun_after_push d batch)|done|done].
  - eapply (broken_update st); [exact Hi|exact E|reflexivity|simpl; by rewrite (begun_after_flush d)|done|done].
  - match goal with Hq : queue_ _ = ?b1 :: ?q1 |- _ => rename Hq into Eq, q1 into q end.
    destruct (safe_local _ _ _ _ _ _ Hs b) as [Ho Hg]; [rewrite Eq; by left|].
    destruct (round_spec mdl m0 hash n hash_in_range model_fits i (checker sh) b q Eq Ho Hg (safe_history _ _ _ _ _ _ Hs)) as
      (c & more & p & t & bs & Er & _ & _ & _ & _ & _ & X).
    unfold round_step. rewrite (safe_count _ _ _ _ _ Hsf). setoid_rewrite Er. simpl.
    eapply (broken_update st); [exact Hi|exact E|reflexivity|by destruct more| |done]. intros _ Hok. simpl.
    destruct more; [by rewrite (explored_ok _ _ _ _ _ _ _ _ _ _ _ X)|by destruct X].
  - match goal with Hit : items _ = _ :: _ |- _ =>
      destruct (received mdl m0 hash n hash_in_range model_fits st i sh _ _ Hsf Hit) as (c & Er & A & _);
        [apply (waiting_queue n sh lc L); by left|] end.
    unfold transfer_batch. rewrite Er. simpl.
    eapply (broken_update st); [exact Hi|exact E|reflexivity|done| |done]. simpl. by rewrite (arrived_ok _ _ _ A).
  - match goal with Hit : items _ = _ :: _ |- _ =>
      destruct (received mdl m0 hash n hash_in_range model_fits st i sh _ _ Hsf Hit) as (c & Er & A & _);
        [apply (waiting_queue n sh lc L); by right|] end.
    unfold transfer_batch. rewrite Er. simpl.
    eapply (broken_update st); [exact Hi|exact E|reflexivity|done| |done]. simpl. by rewrite (arrived_ok _ _ _ A).
Qed.

(** The queue of a shard that another one closes keeps its batches. *)
Lemma cover_close (st : Mesh) (i j : nat) (sh : Shard) (p : Pc St) :
  shard_states st !! i = Some sh -> pc sh <> Start -> p <> Start -> pc_batch (pc sh) = None -> cover st ->
  cover (set_shard i (goto p sh) (set_recv j (mkRecvQueue (items (recv_queue st j)) true) st)).
Proof.
  intros Hi Hs Hp Hb C. set (st' := set_shard _ _ _).
  apply (cover_move st st' i sh (goto p sh)); try done.
  - intros d b Ho. apply (in_transit_shard st' i (goto p sh)); [by eapply list_insert_here|].
    destruct Ho as [Ho|[Ho|(batch & Hpb & _)]]; [by left|by right; left|by rewrite Hb in Hpb].
  - intros d q batch b Hd Hin Hbin. right. destruct (decide (d = j)) as [->|Hne].
    + eexists _, batch. simpl. split; [by eapply list_insert_here|]. simpl. unfold recv_queue. by rewrite Hd.
    + exists q, batch. simpl. by rewrite list_lookup_insert_ne.
Qed.

Lemma cover_recv_step (st : Mesh) (i : nat) (sh : Shard) :
  safe st -> protocol st -> shard_states st !! i = Some sh -> cover st -> cover (recv_step i sh st).
Proof.
  intros Hsf P Hi C. pose proof (protocol_local _ _ P i sh Hi) as L. unfold recv_step.
  destruct (pc sh) as [| | | | | | | | | | |lc|o lc|lc| | |lc|o r| | |] eqn:E; try done.
  - destruct (items (recv_queue st i)) as [|batch rest] eqn:Eq.
    + apply (cover_goto st _ i sh (SetStalled 0 lc)); [done|done|done|by rewrite E|done|by left; rewrite E|done].
    + apply cover_transfer; try done; [apply (waiting_queue n sh lc L); by left|by rewrite E|by rewrite E].
  - destruct (o <? shard_count st)%nat; eapply (cover_goto st _ i sh); try done; rewrite E; try done; by left.
  - set (st' := set_shard _ _ _).
    apply (cover_move st st' i sh (goto (if total_pending_count st - local_consume_count sh =? 0 then Closing 0 false lc else AwaitNext lc)
      (set_consume 0 sh))); try done; [| |by rewrite E|by simpl; destruct (_ =? 0)].
    + intros d b Ho. eapply (in_transit_shard st' i); [by eapply list_insert_here|].
      destruct Ho as [Ho|[Ho|(batch & Hpb & _)]]; [by left|by right; left|by rewrite E in Hpb].
    + intros d q batch b Hd Hin Hb. right. by exists q, batch.
  - destruct (items (recv_queue st i)) as [|batch rest] eqn:Eq.
    + destruct (closed (recv_queue st i)); [|done]. eapply (cover_goto st _ i sh); try done; rewrite E; try done; by left.
    + apply cover_transfer; try done; [apply (waiting_queue n sh lc L); by right|by rewrite E|by rewrite E].
  - destruct (o <? shard_count st)%nat; eapply (cover_goto st _ i sh); try done; rewrite ?E; try done; try (by left); by destruct r.
Qed.

Lemma cover_close_step (st : Mesh) (i : nat) (sh : Shard) :
  shard_states st !! i = Some sh -> cover st -> cover (close_step i sh st).
Proof.
  intros Hi C. unfold close_step. destruct (pc sh) as [| | | | | | | | | | | | | |d w lc|d lc| | | | |] eqn:E; try done.
  - destruct (d <? shard_count st)%nat; [destruct (items (recv_queue st d)) as [|batch rest]; [|destruct w; [by apply (cover_same st)|]]|];
      (eapply (cover_goto st _ i sh); try done; rewrite E; try done; by left).
  - by apply cover_close; try rewrite E.
Qed.

Lemma cover_finish_step (st : Mesh) (i : nat) (sh : Shard) :
  safe st -> protocol st -> shard_states st !! i = Some sh -> cover st -> broken st \/ cover (finish_step i sh st).
Proof.
  intros Hsf P Hi C. unfold finish_step. destruct (pc sh) as [| | | | | | | | | | | | | | | | | | | |] eqn:E; try by right.
  - right. by apply cover_close; try rewrite E.
  - destruct (items (recv_queue st i)) as [|batch rest] eqn:Eq.
    + right. eapply (cover_goto st _ i sh); try done; rewrite E; try done; by left.
    + left. destruct (protocol_ending _ _ P i sh Hi) as [Hq|]; [by rewrite E| |done].
      assert (i < n)%nat as Hin by (rewrite <- (safe_count _ _ _ _ _ Hsf); by apply lookup_lt_Some in Hi).
      by rewrite (quiet_queue n st i _ P Hq (recv_queue_some mdl m0 hash n st i Hsf Hin)) in Eq.
Qed.

Lemma cover_step (st : Mesh) (i : nat) :
  safe st -> protocol st -> broken st \/ cover st -> broken (mesh_step i st) \/ cover (mesh_step i st).
Proof.
  intros Hsf P [Hb|C]; [left; by apply broken_step|].
  assert (broken st \/ broken (mesh_step i st) \/ cover (mesh_step i st)) as [Hb|?]; [|left; by apply broken_step|done].
  unfold ModelCheckMesh.mesh_step. destruct (panicked st); [by right; right|].
  destruct (shard_states st !! i) as [sh|] eqn:Hi; [|by right; right].
  unfold shard_step. destruct (pc sh) as [|k|d batch k|d batch k|d batch k|d f| | | |lc|lc|lc|o lc|lc|d w lc|d lc|lc|o r| | |] eqn:E.
  - right. right. by apply cover_start_run.
  - right. right. by apply cover_send_step.
  - destruct (cover_push_step st i sh Hsf P Hi) as [?|?]; [by rewrite E|done|by left|by right; right].
  - destruct (cover_push_step st i sh Hsf P Hi) as [?|?]; [by rewrite E|done|by left|by right; right].
  - destruct (cover_push_step st i sh Hsf P Hi) as [?|?]; [by rewrite E|done|by left|by right; right].
  - right. right. by apply cover_flush_step.
  - right. right. unfold barrier_step. rewrite E. eapply (cover_goto st _ i sh); try done; rewrite E; try done; by left.
  - right. right. unfold barrier_step. rewrite E. destruct (barrier_ st =? 0); [|done].
    eapply (cover_goto st _ i sh); try done; rewrite E; try done; by left.
  - right. right. destruct (0 <? total_pending_count st); [|by apply (cover_same st)].
    apply (cover_move st _ i sh (goto (LoopTop 0) (set_checker (begin_search (checker sh)) sh))); try done; [| |by rewrite E].
    + intros d b Ho. eapply (in_transit_shard _ i); [by eapply list_insert_here|].
      destruct Ho as [Ho|[Ho|(batch & Hpb & _)]]; [by left|by right; left|by rewrite E in Hpb].
    + intros d q batch b Hd Hin Hb. right. by exists q, batch.
  - right. right. unfold enter_loop. destruct (_ && _); (eapply (cover_goto st _ i sh); try done; rewrite E; try done; by left).
  - destruct (queue_ (checker sh)) as [|b q] eqn:Eq.
    + right. right. eapply (cover_goto st _ i sh); try done; rewrite E; try done; by left.
    + right. eapply cover_round; [done..|by rewrite Eq|done].
  - right. right. by apply cover_recv_step.
  - right. right. by apply cover_recv_step.
  - right. right. by apply cover_recv_step.
  - right. right. by apply cover_close_step.
  - right. right. by apply cover_close_step.
  - right. right. by apply cover_recv_step.
  - right. right. by apply cover_recv_step.
  - destruct (cover_finish_step st i sh Hsf P Hi C); [by left|by right; right].
  - destruct (cover_finish_step st i sh Hsf P Hi C); [by left|by right; right].
  - by right; right.
Qed.

(** ** The end of the search *)

Lemma shards_exist : (0 < n)%nat.
Proof.
  pose proof (hash_in_range (root_branch initial_state)) as Hh. destruct (decide (n = 0%nat)) as [E|]; [|lia].
  rewrite E in Hh. lia.
Qed.

Lemma cover_new : cover (new_mesh m0 n).
Proof.
  split.
  - left. simpl. rewrite lookup_replicate_2 by apply shards_exist. by eexists.
  - intros i sh ->%(new_shard m0 n) _. apply dom_empty_L.
  - intros i s (sh & ->%(new_shard m0 n) & Hv). simpl in Hv. rewrite dom_empty in Hv. by apply elem_of_empty in Hv.
  - intros s q m (sh & ->%(new_shard m0 n) & Hv). simpl in Hv. rewrite dom_empty in Hv. by apply elem_of_empty in Hv.
Qed.

Lemma run_cover (schedule : list nat) :
  let st := run_mesh mdl hash between_flush schedule (new_mesh m0 n) in
  safe st /\ protocol st /\ (broken st \/ cover st).
Proof.
  apply (run_mesh_ind mdl m0 hash between_flush n hash_in_range model_fits (fun st => broken st \/ cover st)).
  - right. apply cover_new.
  - intros st i. apply cover_step.
Qed.

Definition all_returned (st : Mesh) : Prop := forall i sh, shard_states st !! i = Some sh -> pc sh = Returned.

(** [combine_results] of all shards is ok. *)
Definition all_ok (st : Mesh) : Prop := forall i sh, shard_states st !! i = Some sh -> ok (result_ (checker sh)) = true.

Lemma quiet_nothing_waits (st : Mesh) :
  safe st -> protocol st -> quiet st -> (forall d b, ~ in_transit st d b) /\ forall b, ~ in_local st b.
Proof.
  intros Hsf P Hq. split.
  - intros d b [(i & sh & Hi & Ho)|(q & batch & Hd & Hb & _)].
    + destruct (quiet_shard n st i sh P Hq Hi) as (_ & _ & _ & Hn). apply Hn. right. by exists d, b.
    + rewrite (quiet_queue n st d q P Hq Hd) in Hb. by apply elem_of_nil in Hb.
  - intros b (i & sh & Hi & Hb). destruct (quiet_shard n st i sh P Hq Hi) as (_ & _ & _ & Hn). apply Hn. left.
    intros E. rewrite E in Hb. by apply elem_of_nil in Hb.
Qed.

(** When nothing is waiting, the states that have been visited are closed
    under the runs of [step]. *)
Lemma cover_closed (st : Mesh) :
  safe st -> protocol st -> quiet st -> cover st -> all_returned st -> forall s, reachable s -> visited_by st (owner (root_branch s)) s.
Proof.
  intros Hsf P Hq C Hret. destruct (quiet_nothing_waits st Hsf P Hq) as [HT HL].
  assert (forall s, known st s -> visited_by st (owner (root_branch s)) s) as Hk.
  { intros s [i Hi]. destruct (cover_root _ C i s Hi) as [?|[d Hd]]; [done|by apply HT in Hd]. }
  induction 1 as [|s p m Hr IH Hm].
  - destruct (cover_first _ C) as [(sh & H0 & Hs)|[?|[d Hd]]]; [|done|by apply HT in Hd].
    rewrite (Hret _ _ H0) in Hs. done.
  - destruct (cover_runs _ C s p m IH Hm) as [(b & p' & [Hl|(_ & d & Hd)] & _)|(_ & _ & [E|Hkn])];
      [by apply HL in Hl|by apply HT in Hd|by rewrite E|by apply Hk].
Qed.

Lemma not_broken (st : Mesh) : all_ok st -> ~ broken st.
Proof. intros Hok (i & sh & Hi & _ & Ho). by rewrite (Hok i sh Hi) in Ho. Qed.

Lemma returned_quiet (st : Mesh) : safe st -> protocol st -> all_returned st -> ~ broken st -> quiet st.
Proof.
  intros Hsf P Hret Hnb. pose proof shards_exist as Hn. rewrite <- (safe_count _ _ _ _ _ Hsf) in Hn.
  apply lookup_lt_is_Some_2 in Hn as [sh Hsh].
  destruct (protocol_ending _ _ P 0%nat sh Hsh) as [?|?]; [by rewrite (Hret _ _ Hsh)|done|done].
Qed.

Lemma no_violation_ok (st : Mesh) : safe st -> all_returned st -> ~ violation mdl m0 -> all_ok st.
Proof.
  intros Hsf Hret Hnv i sh Hi. destruct (ok (result_ (checker sh))) eqn:E; [done|]. exfalso. apply Hnv.
  apply (safe_ok _ _ _ _ _ _ (safe_shards _ _ _ _ _ Hsf i sh Hi)); [by rewrite (Hret _ _ Hi)|done].
Qed.

Lemma ok_search (st : Mesh) :
  safe st -> protocol st -> broken st \/ cover st -> all_returned st -> all_ok st ->
  ~ violation mdl m0 /\ forall s, reachable s <-> known st s.
Proof.
  intros Hsf P [Hb|C] Hret Hok; [by apply not_broken in Hb|].
  pose proof (returned_quiet st Hsf P Hret (not_broken st Hok)) as Hq.
  pose proof (cover_closed st Hsf P Hq C Hret) as Hclosed.
  destruct (quiet_nothing_waits st Hsf P Hq) as [HT HL].
  assert (forall s p m, reachable s -> leads_to s p m ->
    check_invariants mdl (entered mdl m0 s) = true /\ check_invariants mdl m = true) as Hinv.
  { intros s p m Hr Hm. destruct (cover_runs _ C s p m (Hclosed s Hr) Hm) as [(b & p' & [Hl|(_ & d & Hd)] & _)|(? & ? & _)];
      [by apply HL in Hl|by apply HT in Hd|done]. }
  split.
  - intros (s & Hr & [Hv|(p & m & Hm & Hv)]).
    + destruct (Hinv s _ _ Hr (follow_zeros (step_of mdl m0 s) ltac:(by apply model_fits))) as [E _]. by rewrite Hv in E.
    + destruct (Hinv s p m Hr Hm) as [_ E]. by rewrite Hv in E.
  - intros s. split; [intros Hr; by eexists; apply Hclosed|]. intros (i & sh & Hi & Hs).
    by apply (safe_visited _ _ _ _ _ _ (safe_shards _ _ _ _ _ Hsf i sh Hi)).
Qed.

(** No computation of a shard panics, and the queues that are closed are
    empty. *)
Lemma step_panics (st : Mesh) (i : nat) :
  safe st -> protocol st -> panicked st = None \/ panicked st = Some CheckPending ->
  panicked (mesh_step i st) = None \/ panicked (mesh_step i st) = Some CheckPending.
Proof.
  intros Hsf P [Hp|Hp]; unfold ModelCheckMesh.mesh_step; rewrite Hp; [|by right].
  destruct (shard_states st !! i) as [sh|] eqn:Hi; [|by left].
  pose proof (safe_shards _ _ _ _ _ Hsf i sh Hi) as Hs. pose proof (protocol_local _ _ P i sh Hi) as L.
  unfold shard_step. destruct (pc sh) as [|k|d batch k|d batch k|d batch k|d f| | | |lc|lc|lc|o lc|lc|d w lc|d lc|lc|o r| | |] eqn:E;
    unfold send_step, push_step, flush_step, barrier_step, enter_loop, recv_step, close_step, finish_step; rewrite ?E;
    repeat case_match; try (by left); try (by right).
  - rewrite (safe_count _ _ _ _ _ Hsf).
    destruct (start_spec mdl hash n hash_in_range i (checker sh) (safe_history _ _ _ _ _ _ Hs)) as (c & -> & _). by left.
  - match goal with Hq : queue_ _ = ?b1 :: ?q1 |- _ => rename Hq into Eq, q1 into q end.
    destruct (safe_local _ _ _ _ _ _ Hs b) as [Ho Hg]; [rewrite Eq; by left|].
    destruct (round_spec mdl m0 hash n hash_in_range model_fits i (checker sh) b q Eq Ho Hg (safe_history _ _ _ _ _ _ Hs)) as
      (c & more & p & t & bs & Er & _).
    unfold round_step. rewrite (safe_count _ _ _ _ _ Hsf). setoid_rewrite Er. by left.
  - match goal with Hit : items _ = _ :: _ |- _ =>
      destruct (received mdl m0 hash n hash_in_range model_fits st i sh _ _ Hsf Hit) as (c & Er & A & _);
        [apply (waiting_queue n sh lc L); by left|] end.
    unfold transfer_batch. rewrite Er. by left.
  - exfalso. assert (quiet st) as Hq by (apply (protocol_closing _ _ P i sh Hi); by rewrite E).
    destruct (recv_queues st !! d) as [q|] eqn:Ed.
    + by rewrite (recv_queue_lookup st d q Ed), (quiet_queue n st d q P Hq Ed) in *.
    + by unfold recv_queue in *; rewrite Ed in *.
  - match goal with Hit : items _ = _ :: _ |- _ =>
      destruct (received mdl m0 hash n hash_in_range model_fits st i sh _ _ Hsf Hit) as (c & Er & A & _);
        [apply (waiting_queue n sh lc L); by right|] end.
    unfold transfer_batch. rewrite Er. by left.
Qed.

(** No check of a search fails, in any interleaving, but the one on the
    number of pending batches after the barrier. *)
Lemma parallel_check_panics (schedule : list nat) :
  let st := run_mesh mdl hash between_flush schedule (new_mesh m0 n) in
  panicked st = None \/ panicked st = Some CheckPending.
Proof.
  destruct (run_mesh_ind mdl m0 hash between_flush n hash_in_range model_fits
    (fun st => panicked st = None \/ panicked st = Some CheckPending)) with schedule as (_ & _ & H'); [by left| |done].
  intros st i. apply step_panics.
Qed.
End Exhaustive.

(** ** An example

    The state is a counter; below 2, [step] picks whether to add 1 or 2. *)

Definition sample_step (m : nat) : Step nat :=
  if (m <? 2)%nat then PickInt 0 1 (fun v => Return (m + 1 + Z.to_nat v)%nat) else Return m.

Definition sample_model : StateMachineModel nat nat :=
  mkModel nat nat 0%nat (fun s _ => s) sample_step id (fun m => (m <? 4)%nat) id.

(** Even counters belong to shard 0, odd ones to shard 1. *)
Definition sample_hash (b : Branch nat) : Z := if Nat.even (snapshot b) then 0 else 2 ^ 63 - 1.

Lemma sample_hash_ok : hash_ok sample_hash 2.
Proof. intros b. unfold sample_hash. destruct (Nat.even _); vm_compute; split; congruence. Qed.

Lemma sample_picks (s : nat) (p : list item) :
  is_Some (follow (step_of sample_model 0%nat s) p) -> p = [] \/ p = [(2, 0)] \/ p = [(2, 1)].
Proof.
  intros [t Ht]. unfold step_of in Ht. simpl in Ht. unfold sample_step in Ht. destruct (s <? 2)%nat; simpl in Ht.
  - destruct p as [|[r v] p]; [by left|]. destruct ((r =? 1 - 0 + 1) && (0 <=? v) && (v <? r)) eqn:C; [|discriminate Ht]. bool_cases. simpl in *. subst r.
    destruct p; [|discriminate Ht]. assert (v = 0 \/ v = 1) as [-> | ->] by lia; auto.
  - destruct p; [by left|discriminate Ht].
Qed.

Lemma sample_ok : model_ok sample_model 0%nat.
Proof.
  split; [done| |].
  - intros s _. unfold step_of. simpl. unfold sample_step. destruct (_ <? 2)%nat; [|done]. simpl. by split_and!.
  - intros s p _ [-> |[-> | ->]]%sample_picks; by eexists.
Qed.

(** The shards take turns. *)
Definition sample_schedule : list nat := concat (replicate 200 [0; 1]%nat).

Local Notation sample_end := (run_mesh sample_model sample_hash 3 sample_schedule (new_mesh 0%nat 2)).

Lemma sample_returned : all_returned sample_end.
Proof.
  assert (forallb (fun sh : Shard nat nat => match pc sh with Returned => true | _ => false end) (shard_states sample_end) = true) as Hall
    by (vm_compute; reflexivity).
  intros i sh Hi%list_elem_of_lookup_2%list_elem_of_In. rewrite forallb_forall in Hall. specialize (Hall sh Hi). clear Hi.
  destruct (pc sh); first [reflexivity|discriminate Hall].
Qed.
