(* ===== verification/ModelCheckEnd.v ===== *)
(** * The model checker: the search ends

    When the reachable states are finitely many, a measure bounds the steps
    of shards that are not blocked; and when all shards are blocked, they have
    returned.  A search with one shard therefore always ends, with the right
    answer. *)

From S2P Require Export ModelCheck.
Open Scope Z_scope.

(** ** The runs a branch stands for *)

(** The code of [step] after the picks of the ring [d]. *)
Fixpoint resume {M} (t : Step M) (d : RadixQueue) : Step M :=
  match t with
  | Return _ => t
  | PickInt a b k =>
      if a =? b then resume (k a) d else
      match empty d with
      | Done false => match pop d (b - a + 1) with Done (v, d') => resume (k (a + v)) d' | Panic => t end
      | _ => t
      end
  end.

Lemma resume_spec {M} (t t' : Step M) (d : RadixQueue) (p : list item) :
  valid_step t -> represents d p -> follow t p = Some t' -> resume t d = t'.
Proof.
  revert d p. induction t as [m|a b k IH]; intros d p Hv R Hf.
  - simpl in Hf. destruct p; [|done]. by injection Hf as <-.
  - destruct (follow_valid _ _ _ Hv Hf) as (_ & V & I). simpl in Hv, Hf |- *. destruct Hv as (Hab & _ & _ & Hk).
    destruct (a =? b) eqn:E; bool_cases; [by apply (IH a d p); [apply Hk; lia|..]|].
    rewrite (represents_empty d p R I). destruct p as [|[r v] p]; simpl; [by injection Hf|].
    destruct ((r =? b - a + 1) && (0 <=? v) && (v <? r)) eqn:C; [|done]. bool_cases. subst r.
    apply Forall_inv in V. destruct (pop_spec d p _ v R V) as (d' & -> & R').
    apply (IH (a + v) d' p); [apply Hk; lia|done|done].
Qed.

Lemma runs_pos {M} (t : Step M) : valid_step t -> 1 <= runs t.
Proof.
  induction t as [m|a b k IH]; intros Hv; simpl; [lia|]. destruct Hv as (Hab & _ & _ & Hk).
  rewrite seqZ_cons by lia. rewrite fmap_cons, sum_cons.
  pose proof (IH a ltac:(apply Hk; lia)).
  assert (0 <= sum ((fun v => runs (k v)) <$> seqZ (Z.succ a) (Z.pred (b - a + 1)))); [|lia].
  apply sum_nonneg, list.Forall_forall. intros v Hv%elem_of_seqZ. assert (1 <= runs (k v)); [|lia].
  apply IH, Hk. lia.
Qed.

Lemma follow_runs {M} (t t' : Step M) : valid_step t -> follow t [] = Some t' -> runs t' = runs t.
Proof. intros Hv Hf. destruct (follow_norm t Hv) as (t2 & E & _ & _ & R & _). rewrite Hf in E. by injection E as <-. Qed.

(** The number of runs that start with the picks [p]. *)
Definition runs_after {M} (t : Step M) (p : list item) : Z :=
  match follow t p with Some t' => runs t' | None => 0 end.

(** A run and its siblings share out the runs of [t]. *)
Lemma runs_siblings {M} (T t : Step M) (h : list item) :
  valid_step t -> (forall q, follow T (h ++ q) = follow t q) ->
  runs t = 1 + sum (runs_after T <$> siblings t h).
Proof.
  revert h. induction t as [m|a b k IH]; intros h Hv HT; [done|]. destruct Hv as (Hab & _ & _ & Hk).
  simpl. destruct (a =? b) eqn:E; bool_cases.
  - subst b. replace (a - a + 1) with 1 by lia. simpl. rewrite Z.add_0_l, sum_cons.
    rewrite (IH a h); [unfold sum; simpl; lia|apply Hk; lia|]. intros q. rewrite HT. simpl. by rewrite Z.eqb_refl.
  - assert (forall v, 0 <= v < b - a + 1 -> forall q : list item, follow T (h ++ (b - a + 1, v) :: q) = follow (k (a + v)) q) as Hpick.
    { intros v Hv q. rewrite HT. simpl. rewrite (proj2 (Z.eqb_neq a b)) by done.
      by rewrite Z.eqb_refl, (proj2 (Z.leb_le _ _)), (proj2 (Z.ltb_lt _ _)) by lia. }
    rewrite fmap_app, sum_app, seqZ_cons by lia. rewrite fmap_cons, sum_cons.
    rewrite (IH a (h ++ [(b - a + 1, 0)])); [|apply Hk; lia|].
    2:{ intros q. rewrite <- app_assoc. simpl. rewrite Hpick by lia. by rewrite Z.add_0_r. }
    assert (sum ((fun v => runs (k v)) <$> seqZ (Z.succ a) (Z.pred (b - a + 1))) =
            sum (runs_after T <$> ((fun v => h ++ [(b - a + 1, v)]) <$> seqZ 1 (b - a)))) as ->; [|lia].
    rewrite <- list_fmap_compose. replace (Z.succ a) with (a + 1) by lia. rewrite <- fmap_add_seqZ, <- list_fmap_compose.
    replace (Z.pred (b - a + 1)) with (b - a) by lia. f_equal. apply list_fmap_ext. intros j v Hv.
    apply list_elem_of_lookup_2, elem_of_seqZ in Hv. simpl. unfold runs_after. rewrite Hpick by lia.
    assert (valid_step (k (a + v))) as Hkv by (apply Hk; lia).
    change (@nil (Z * Z)) with (@nil item). destruct (follow_some _ Hkv) as [t' Ht']. rewrite Ht'. symmetry. by apply follow_runs.
Qed.

Section End.
Context `{Countable St, !Inhabited St} {M : Type}.
Variable (mdl : StateMachineModel St M) (m0 : M) (hash : Branch St -> Z) (between_flush : Z) (n : nat).
Hypothesis hash_in_range : hash_ok hash n.
Hypothesis model_fits : model_ok mdl m0.

(** The reachable states are among these. *)
Variable states : list St.
Hypothesis states_finite : forall s, reachable mdl m0 s -> s ∈ states.

Notation owner := (find_shard hash n).
Notation Shard := (Shard St M).
Notation Mesh := (Mesh St M).
Notation Checker := (Checker St M).
Notation Branch := (Branch St).
Notation safe := (safe mdl m0 hash n).
Notation safe_shard := (safe_shard mdl m0 hash n).
Notation protocol := (protocol n).
Notation reachable := (reachable mdl m0).
Notation step_of := (step_of mdl m0).
Notation good := (good mdl m0).
Notation mesh_step := (mesh_step mdl hash between_flush).

(** ** The measure *)

Let N : Z := Z.of_nat n.

(** What a branch costs where it is; moving on makes it cheaper. *)
Definition cost_queue : Z := 8 * N + 20.
Definition cost_row : Z := cost_queue + 4.
Definition cost_sent : Z := cost_row + 1.
Definition cost_run : Z := cost_sent + 8 * N + 20.

Definition remaining (b : Branch) : Z := runs (resume (step_of (snapshot b)) (delta b)).

Definition branch_cost (a : Z) (b : Branch) : Z := cost_run * (2 * remaining b - 1) + a.

Definition costs (a : Z) (bs : list Branch) : Z := sum (branch_cost a <$> bs).

(** What a state costs that a shard has not visited. *)
Definition state_cost (s : St) : Z := cost_run * (2 * runs (step_of s) - 1) + cost_sent.


Definition unvisited_in (l : list St) (v : gset St) : Z :=
  sum ((fun s => if decide (s ∈ v) then 0 else Z.max 0 (state_cost s)) <$> l).

Definition unvisited_cost (v : gset St) : Z := unvisited_in states v.

Definition left_to (d : nat) : Z := Z.of_nat (n - d).

Definition flush_weight (next : AfterFlush) : Z :=
  match next with
  | ToArrive => 8 * N + 17
  | ToPopNext _ => 7 * N + 12
  | ToAck _ => 5 * N + 8
  | ToClose => 2
  end.

Definition send_weight (next : AfterSend) : Z :=
  1 + match next with SentLoop _ => 8 * N + 14 | SentFlush f => N + 1 + flush_weight f end.

Definition push_weight (next : AfterPush) : Z :=
  match next with BackToSend k => send_weight k | BackToFlush d f => left_to d + 1 + flush_weight f end.

Definition pc_weight (p : Pc St) : Z :=
  match p with
  | Start => 9 * N + 20 + state_cost (initial_state mdl)
  | Sending k => send_weight k
  | PushAdd _ _ k => 3 + push_weight k
  | PushOpen _ _ k => 2 + push_weight k
  | PushItem _ _ k => 1 + push_weight k
  | Flushing d f => left_to d + 1 + flush_weight f
  | Arrive => 8 * N + 17
  | AwaitOthers => 8 * N + 16
  | CheckPending => 8 * N + 15
  | LoopTop _ => 8 * N + 14
  | PopNext _ => 7 * N + 12
  | TryPop _ => 7 * N + 11
  | SetStalled o _ => left_to o + 1 + N + 1 + 5 * N + 8
  | Ack _ => 5 * N + 8
  | Closing d waited _ => 3 * left_to d + (if waited then 1 else 2) + 2 * N + 5
  | CloseOther d _ => 3 * left_to d + 2 * N + 5
  | AwaitNext _ => 2 * N + 5
  | ResetStalled o (Some _) => left_to o + 1 + 7 * N + 12
  | ResetStalled o None => left_to o + 1 + N + 1 + 2
  | CloseOwn => 2
  | Drain => 1
  | Returned => 0
  end.

Definition batch_cost (p : Pc St) : Z := match pc_batch p with Some (_, batch) => costs cost_queue batch | None => 0 end.

(** The cost of everything a shard holds but the batch on its way. *)
Definition work_cost (sh : Shard) : Z :=
  costs cost_sent (snd <$> sent (checker sh)) + sum (costs cost_row <$> send_queues sh) +
  costs 0 (queue_ (checker sh)) + unvisited_cost (dom (visited_ (checker sh))).

Definition shard_cost (sh : Shard) : Z := pc_weight (pc sh) + batch_cost (pc sh) + work_cost sh.

Definition queue_cost (q : RecvQueue St) : Z := sum (costs cost_queue <$> items q).

Definition queues_cost (st : Mesh) : Z := sum (queue_cost <$> recv_queues st).

Definition measure (st : Mesh) : Z :=
  sum (shard_cost <$> shard_states st) + queues_cost st + match panicked st with None => 1 | Some _ => 0 end.

Lemma good_remaining (b : Branch) (p : list item) :
  branch_at (snapshot b) b p -> reachable (snapshot b) -> is_Some (follow (step_of (snapshot b)) p) ->
  remaining b = runs_after (step_of (snapshot b)) p.
Proof.
  intros [_ Hc] Hr [t Hf]. assert (valid_step (step_of (snapshot b))) as Hv by (by apply model_fits).
  destruct (follow_valid _ _ _ Hv Hf) as (_ & V & _). unfold remaining, runs_after. rewrite Hf. f_equal.
  apply (resume_spec _ _ _ p); [done|by apply coded_represents|done].
Qed.

Lemma good_cost (a : Z) (b : Branch) : 0 <= a -> good b -> 0 < branch_cost a b.
Proof.
  intros Ha (_ & p & t & Hb & Hr & Hf). unfold branch_cost.
  rewrite (good_remaining b p Hb Hr) by (by eexists). unfold runs_after. rewrite Hf.
  assert (valid_step (step_of (snapshot b))) as Hv by (by apply model_fits).
  destruct (follow_valid _ _ _ Hv Hf) as (Hvt & _ & _). pose proof (runs_pos t Hvt).
  unfold cost_run, cost_sent, cost_row, cost_queue, N. nia.
Qed.

Lemma costs_app (a : Z) (l k : list Branch) : costs a (l ++ k) = costs a l + costs a k.
Proof. unfold costs. by rewrite fmap_app, sum_app. Qed.

Lemma costs_cons (a : Z) (b : Branch) (l : list Branch) : costs a (b :: l) = branch_cost a b + costs a l.
Proof. done. Qed.

Lemma costs_nil (a : Z) : costs a [] = 0.
Proof. done. Qed.

Lemma branch_shift (a a' : Z) (b : Branch) : branch_cost a' b = branch_cost a b + (a' - a).
Proof. unfold branch_cost. lia. Qed.

(** A branch gets cheaper by the difference of the places. *)
Lemma costs_shift (a a' : Z) (l : list Branch) : costs a' l = costs a l + (a' - a) * Z.of_nat (length l).
Proof.
  induction l as [|b l IH]; [unfold costs, sum; simpl; lia|]. rewrite !costs_cons, IH, (branch_shift a a'). simpl length. lia.
Qed.

Lemma costs_nonneg (a : Z) (l : list Branch) : 0 <= a -> (forall b, b ∈ l -> good b) -> 0 <= costs a l.
Proof.
  intros Ha Hl. apply sum_nonneg, list.Forall_forall. intros x Hx%Hl. simpl. pose proof (good_cost a x Ha Hx). lia.
Qed.

Lemma costs_sublist (a : Z) (l k : list Branch) :
  0 <= a -> (forall b, b ∈ k -> good b) -> l `sublist_of` k -> costs a l <= costs a k.
Proof.
  intros Ha Hk Hs. induction Hs as [|b l k Hs IH|b l k Hs IH]; [done|..]; rewrite !costs_cons.
  - assert (costs a l <= costs a k); [apply IH; set_solver|lia].
  - assert (costs a l <= costs a k); [apply IH; set_solver|]. pose proof (good_cost a b Ha (Hk b ltac:(by left))). lia.
Qed.

Lemma unvisited_mono_in (l : list St) (v w : gset St) : v ⊆ w -> unvisited_in l w <= unvisited_in l v.
Proof.
  intros Hvw. unfold unvisited_in. induction l as [|s l IH]; [done|].
  rewrite !fmap_cons, !sum_cons. case_decide; case_decide; try lia; set_solver.
Qed.

Lemma unvisited_mono (v w : gset St) : v ⊆ w -> unvisited_cost w <= unvisited_cost v.
Proof. apply (unvisited_mono_in states). Qed.

Lemma unvisited_found (l : list St) (v : gset St) (s : St) :
  s ∈ l -> s ∉ v -> unvisited_in l ({[s]} ∪ v) <= unvisited_in l v - state_cost s.
Proof.
  intros Hs Hv. induction l as [|s' l IH]; [by apply elem_of_nil in Hs|]. apply elem_of_cons in Hs as [<-|Hs].
  - pose proof (unvisited_mono_in l v ({[s]} ∪ v) ltac:(set_solver)) as Hm. unfold unvisited_in in *.
    rewrite !fmap_cons, !sum_cons. rewrite decide_True by set_solver. rewrite decide_False by done. lia.
  - specialize (IH Hs). unfold unvisited_in in *. rewrite !fmap_cons, !sum_cons. case_decide; case_decide; try lia; set_solver.
Qed.

Lemma unvisited_nonneg (v : gset St) : 0 <= unvisited_cost v.
Proof. apply sum_nonneg, list.Forall_forall. intros s _. simpl. case_decide; lia. Qed.

Lemma pc_weight_nonneg (p : Pc St) : 0 <= pc_weight p.
Proof.
  assert (forall d, 0 <= left_to d) as Hl by (unfold left_to; lia).
  assert (0 <= state_cost (initial_state mdl)) as Hi.
  { unfold state_cost, cost_run, cost_sent, cost_row, cost_queue.
    pose proof (runs_pos (step_of (initial_state mdl))). assert (1 <= runs (step_of (initial_state mdl))); [|unfold N; nia].
    apply runs_pos, model_fits, reachable_initial. }
  assert (forall f, 0 <= flush_weight f) as Hf by (intros []; unfold flush_weight, N; lia).
  assert (forall k, 0 <= send_weight k) as Hs by (intros [|f]; unfold send_weight; [|specialize (Hf f)]; unfold N; lia).
  assert (forall k, 0 <= push_weight k) as Hp.
  { intros [k|d f]; simpl; [apply Hs|]. specialize (Hl d). specialize (Hf f). lia. }
  destruct p as [|k|d b k|d b k|d b k|d f| | | | | | |o| |d w| d| |o []| | |]; simpl; unfold N in *;
    try specialize (Hs k); try specialize (Hp k); try specialize (Hl d); try specialize (Hl o); try specialize (Hf f);
    try destruct w; lia.
Qed.

(** The measure is not negative. *)
Lemma shard_cost_nonneg (i : nat) (sh : Shard) : safe_shard i sh -> 0 <= shard_cost sh.
Proof.
  intros Hs. pose proof (pc_weight_nonneg (pc sh)) as Hw. unfold shard_cost, work_cost.
  assert (0 <= cost_sent /\ 0 <= cost_row /\ 0 <= cost_queue) as (Ha & Hb & Hc) by (unfold cost_sent, cost_row, cost_queue, N; lia).
  assert (0 <= batch_cost (pc sh)).
  { unfold batch_cost. destruct (pc_batch (pc sh)) as [[d batch]|] eqn:E; [|lia]. apply costs_nonneg; [done|].
    intros b Hin. apply (safe_out _ _ _ _ _ _ Hs d b). right. right. by exists batch. }
  assert (0 <= costs cost_sent (snd <$> sent (checker sh))).
  { apply costs_nonneg; [done|]. intros b ([d b'] & -> & Hin)%list_elem_of_fmap. apply (safe_out _ _ _ _ _ _ Hs d b'). by left. }
  assert (0 <= sum (costs cost_row <$> send_queues sh)).
  { apply sum_nonneg, list.Forall_forall. intros row [d Hd]%list_elem_of_lookup. simpl. apply costs_nonneg; [done|].
    intros b Hin. apply (safe_out _ _ _ _ _ _ Hs d b). right. left. by exists row. }
  assert (0 <= costs 0 (queue_ (checker sh))) by (apply costs_nonneg; [done|]; intros b Hin; by apply (safe_local _ _ _ _ _ _ Hs)).
  pose proof (unvisited_nonneg (dom (visited_ (checker sh)))). lia.
Qed.

Lemma queues_cost_nonneg (st : Mesh) : safe st -> 0 <= queues_cost st.
Proof.
  intros Hs. apply sum_nonneg, list.Forall_forall. intros q [j Hj]%list_elem_of_lookup. simpl.
  apply sum_nonneg, list.Forall_forall. intros batch Hb. simpl. apply costs_nonneg; [unfold cost_queue, N; lia|].
  intros b Hin. by apply (safe_queues _ _ _ _ _ Hs j q Hj batch Hb).
Qed.

Lemma measure_nonneg (st : Mesh) : safe st -> 0 <= measure st.
Proof.
  intros Hs. pose proof (queues_cost_nonneg st Hs). unfold measure.
  assert (0 <= sum (shard_cost <$> shard_states st)); [|destruct (panicked st); lia].
  apply sum_nonneg, list.Forall_forall. intros sh [i Hi]%list_elem_of_lookup. simpl.
  by eapply shard_cost_nonneg, (safe_shards _ _ _ _ _ Hs).
Qed.

Lemma measure_pos (st : Mesh) : safe st -> panicked st = None -> 0 < measure st.
Proof.
  intros Hs Hp. pose proof (measure_nonneg (panic Start st)) as Hm. unfold measure, queues_cost in *. simpl in Hm. rewrite Hp.
  assert (safe (panic Start st)) as Hs' by (by apply safe_panic). specialize (Hm Hs'). lia.
Qed.

(** ** Every step of a shard that is not blocked *)

(** The step of shard [i] changes [sh] to [sh'], and perhaps a queue. *)
Lemma measure_update (st st' : Mesh) (i : nat) (sh sh' : Shard) :
  shard_states st !! i = Some sh -> shard_states st' = <[i := sh']> (shard_states st) ->
  panicked st' = panicked st ->
  shard_cost sh' + queues_cost st' < shard_cost sh + queues_cost st -> measure st' < measure st.
Proof.
  intros Hi E Ep Hlt. unfold measure. rewrite E, Ep, (sum_insert shard_cost _ _ _ sh' Hi). lia.
Qed.

(** A shard moves on, and no branch moves. *)
Lemma measure_goto (st st' : Mesh) (i : nat) (sh : Shard) (p : Pc St) :
  shard_states st !! i = Some sh -> shard_states st' = <[i := goto p sh]> (shard_states st) ->
  panicked st' = panicked st -> queues_cost st' <= queues_cost st -> batch_cost p <= batch_cost (pc sh) ->
  pc_weight p < pc_weight (pc sh) -> measure st' < measure st.
Proof.
  intros Hi E Ep Eq Hb Hlt. eapply measure_update; [done|done|done|].
  unfold shard_cost. change (work_cost (goto p sh)) with (work_cost sh). simpl. lia.
Qed.

Lemma left_to_0 : left_to 0 = N.
Proof. unfold left_to, N. lia. Qed.

Lemma left_to_S (d : nat) : (d < n)%nat -> left_to d = left_to (S d) + 1.
Proof. unfold left_to. lia. Qed.

(** A row is emptied into a batch. *)
Lemma row_taken (rows : list (list Branch)) (d : nat) (row : list Branch) :
  rows !! d = Some row -> sum (costs cost_row <$> <[d := []]> rows) = sum (costs cost_row <$> rows) - costs cost_row row.
Proof. intros Hd. rewrite (sum_insert _ _ _ _ _ Hd), costs_nil. lia. Qed.

Lemma measure_send (st : Mesh) (i : nat) (sh : Shard) (k : AfterSend) :
  safe st -> shard_states st !! i = Some sh -> pc sh = Sending k -> measure (send_step i sh k st) < measure st.
Proof.
  intros Hsf Hi E. pose proof (safe_shards _ _ _ _ _ Hsf i sh Hi) as Hs. unfold send_step.
  destruct (sent (checker sh)) as [|[d b] rest] eqn:Es.
  { eapply measure_goto; [done|reflexivity|done|done|by rewrite E; destruct k|].
    rewrite E. destruct k as [|f]; simpl; unfold send_weight; rewrite ?left_to_0; lia. }
  destruct (safe_out _ _ _ _ _ _ Hs d b) as [Hd _]; [left; rewrite Es; by left|].
  assert (d < length (send_queues sh))%nat as [row Hrow]%lookup_lt_is_Some_2.
  { rewrite (safe_rows _ _ _ _ _ _ Hs), Hd. by apply owner_lt. }
  rewrite Hrow. simpl.
  destruct (default false _); (eapply measure_update; [done|reflexivity|done|]); change (queues_cost (set_shard _ _ _)) with (queues_cost st);
    unfold shard_cost, work_cost, batch_cost; simpl; rewrite E, Es, fmap_cons, costs_cons; simpl.
  - rewrite (row_taken _ _ _ Hrow), costs_app, costs_cons, costs_nil, (costs_shift cost_row cost_queue row), (branch_shift cost_queue cost_sent).
    unfold cost_sent, cost_row. lia.
  - rewrite (sum_insert _ _ _ _ _ Hrow), costs_app, costs_cons, costs_nil, (branch_shift cost_row cost_sent).
    unfold cost_sent. lia.
Qed.

Lemma measure_flush (st : Mesh) (i : nat) (sh : Shard) (d : nat) (f : AfterFlush) :
  safe st -> shard_states st !! i = Some sh -> pc sh = Flushing d f -> measure (flush_step i sh d f st) < measure st.
Proof.
  intros Hsf Hi E. unfold flush_step. rewrite (safe_count _ _ _ _ _ Hsf). destruct (d <? n)%nat eqn:Hd; bool_cases.
  - pose proof (left_to_S d Hd) as Hl. destruct (send_queues sh !! d) as [[|b row]|] eqn:Er; simpl;
      [eapply measure_goto; [done|reflexivity|done|done|by rewrite E|rewrite E; simpl; lia]| |
       eapply measure_goto; [done|reflexivity|done|done|by rewrite E|rewrite E; simpl; lia]].
    eapply measure_update; [done|reflexivity|done|]. change (queues_cost (set_shard _ _ _)) with (queues_cost st).
    unfold shard_cost, work_cost, batch_cost. simpl. rewrite E. simpl.
    rewrite (row_taken _ _ _ Er), (costs_shift cost_row cost_queue (b :: row)). unfold cost_row. simpl length. lia.
  - eapply measure_goto; [done|reflexivity|done|done|by rewrite E; destruct f|]. rewrite E.
    assert (0 <= left_to d) by (unfold left_to; lia). destruct f; simpl; lia.
Qed.

Lemma queues_cost_set (st : Mesh) (j : nat) (q : RecvQueue St) :
  safe st -> (j < n)%nat -> queues_cost (set_recv j q st) = queues_cost st - queue_cost (recv_queue st j) + queue_cost q.
Proof. intros Hsf Hj. unfold queues_cost. simpl. by apply sum_insert, (recv_queue_some mdl m0 hash n). Qed.

Lemma queue_cost_close (st : Mesh) (j : nat) (c : bool) :
  safe st -> (j < n)%nat -> queues_cost (set_recv j (mkRecvQueue (items (recv_queue st j)) c) st) = queues_cost st.
Proof. intros Hsf Hj. rewrite queues_cost_set by done. unfold queue_cost. simpl. lia. Qed.

Lemma measure_push (st : Mesh) (i : nat) (sh : Shard) :
  safe st -> shard_states st !! i = Some sh -> pc_batch (pc sh) <> None -> measure (push_step i sh st) < measure st.
Proof.
  intros Hsf Hi Hpb. pose proof (safe_shards _ _ _ _ _ Hsf i sh Hi) as Hs. unfold push_step.
  destruct (pc sh) as [| |d batch k|d batch k|d batch k| | | | | | | | | | | | | | | |] eqn:E; try done.
  - eapply measure_goto; [done|reflexivity|done|done|by rewrite E|rewrite E; simpl; lia].
  - assert (pc_weight (after_push k) = push_weight k) as Hw by (by destruct k).
    destruct (closed _); (eapply measure_goto; [done|reflexivity|done|done| |rewrite E; simpl; lia]); [|by rewrite E].
    rewrite E. unfold batch_cost at 1. rewrite pc_batch_after_push. unfold batch_cost. simpl.
    apply costs_nonneg; [unfold cost_queue, N; lia|]. intros b Hb.
    apply (safe_out _ _ _ _ _ _ Hs d b). right. right. exists batch. by rewrite E.
  - assert (pc_weight (after_push k) = push_weight k) as Hw by (by destruct k).
    pose proof (batch_dst mdl m0 hash n hash_in_range st i sh d batch Hsf Hi ltac:(by rewrite E)) as Hd.
    eapply measure_update; [done|reflexivity|done|].
    change (queues_cost (set_shard i _ (count_push ?st1))) with (queues_cost st1).
    rewrite queues_cost_set by done. unfold queue_cost. simpl. rewrite fmap_app, sum_app. simpl. rewrite sum_cons.
    unfold shard_cost. rewrite E. unfold batch_cost. simpl. rewrite pc_batch_after_push.
    change (work_cost (goto (after_push k) sh)) with (work_cost sh). unfold sum at 3. simpl. lia.
Qed.

(** ** A round *)

Lemma branches_cost (a : Z) (s : St) (bs : list Branch) (qs : list (list item)) :
  reachable s -> Forall2 (branch_at s) bs qs -> (forall q, q ∈ qs -> is_Some (follow (step_of s) q)) ->
  costs a bs = cost_run * (2 * sum (runs_after (step_of s) <$> qs)) + (a - cost_run) * Z.of_nat (length bs).
Proof.
  intros Hr HF. induction HF as [|b q bs qs Hb HF IH]; intros Hq; [rewrite costs_nil; unfold sum; simpl; lia|].
  rewrite costs_cons, fmap_cons, sum_cons, IH by set_solver. unfold branch_cost.
  pose proof Hb as [<- _]. rewrite (good_remaining b q) by (done || apply Hq; by left). simpl length. lia.
Qed.

(** The branches that a run of [t] leaves stand for its other runs. *)
Lemma siblings_cost (a : Z) (s : St) (p : list item) (t : Step M) (bs : list Branch) :
  reachable s -> follow (step_of s) p = Some t -> Forall2 (branch_at s) bs (siblings t p) ->
  costs a bs = cost_run * (2 * (runs t - 1)) + (a - cost_run) * Z.of_nat (length bs).
Proof.
  intros Hr Hf HF. assert (valid_step (step_of s)) as Hv by (by apply model_fits).
  destruct (follow_valid _ _ _ Hv Hf) as (Hvt & _ & _).
  rewrite (branches_cost a s bs (siblings t p) Hr HF).
  - rewrite (runs_siblings (step_of s) t p Hvt); [lia|]. intros q. by rewrite follow_app, Hf.
  - intros q Hq. destruct (siblings_follow t p q Hvt Hq) as (q' & -> & _ & Hf'). by rewrite follow_app, Hf.
Qed.

(** Local branches are cheaper than those that are sent. *)
Lemma routed_cost (i : nat) (bs : list Branch) :
  costs 0 (locals hash n i bs) + costs cost_sent (snd <$> remotes hash n i bs) <= costs cost_sent bs.
Proof.
  assert (0 <= cost_sent) by (unfold cost_sent, cost_row, cost_queue, N; lia).
  unfold locals, remotes. induction bs as [|b bs IH]; [done|]. cbn [List.filter].
  destruct (is_local hash n i b); cbn [negb]; rewrite ?fmap_cons, !costs_cons; [rewrite (branch_shift 0 cost_sent)|]; simpl; lia.
Qed.

Lemma routed_app (i : nat) (l k : list Branch) :
  costs 0 (locals hash n i (l ++ k)) + costs cost_sent (snd <$> remotes hash n i (l ++ k)) <= costs cost_sent l + costs cost_sent k.
Proof. rewrite <- costs_app. apply routed_cost. Qed.

(** A state that is found pays for its branch. *)
Lemma discovered_cost (s after : St) (v : gmap St Branch) :
  after ∈ states -> reachable after ->
  costs cost_sent (discovered s after v) +
    unvisited_cost (if decide (after = s) then dom v else {[after]} ∪ dom v) <= unvisited_cost (dom v).
Proof.
  intros Hin Hr. unfold discovered, unvisited_cost. case_decide as Hs; [rewrite costs_nil; lia|].
  destruct (v !! after) as [src|] eqn:E.
  - pose proof (unvisited_mono_in states (dom v) ({[after]} ∪ dom v) ltac:(set_solver)). rewrite costs_nil. lia.
  - apply not_elem_of_dom in E. pose proof (unvisited_found states (dom v) after Hin E).
    rewrite costs_cons, costs_nil. unfold branch_cost.
    destruct (follow_some (step_of after)) as [t Ht]; [by apply model_fits|].
    pose proof (good_remaining (root_branch after) []) as Hrem. simpl in Hrem.
    rewrite Hrem; [|split; [done|apply coded_new]|done|by eexists].
    unfold runs_after. rewrite Ht, (follow_runs _ t) by (done || by apply model_fits). unfold state_cost in *. lia.
Qed.

Lemma measure_round (st : Mesh) (i : nat) (sh : Shard) (lc : Z) :
  safe st -> shard_states st !! i = Some sh -> pc sh = PopNext lc -> queue_ (checker sh) <> [] ->
  measure (round_step mdl hash i sh lc st) < measure st.
Proof.
  intros Hsf Hi E Hq. pose proof (safe_shards _ _ _ _ _ Hsf i sh Hi) as Hs.
  destruct (queue_ (checker sh)) as [|b rest] eqn:Eq; [done|].
  destruct (safe_local _ _ _ _ _ _ Hs b) as [Ho Hg]; [rewrite Eq; by left|].
  destruct (round_spec mdl m0 hash n hash_in_range model_fits i (checker sh) b rest Eq Ho Hg (safe_history _ _ _ _ _ _ Hs)) as
    (c & more & p & t & bs & Er & Hb & Hr & Hf & Hv & _ & X).
  unfold round_step. rewrite (safe_count _ _ _ _ _ Hsf). setoid_rewrite Er. simpl.
  eapply measure_update; [done|reflexivity|done|]. change (queues_cost (set_shard _ _ _)) with (queues_cost st).
  unfold shard_cost, work_cost, batch_cost. simpl. rewrite E, Eq, costs_cons. simpl.
  pose proof (good_remaining b p Hb Hr ltac:(by eexists)) as Hrem. unfold runs_after in Hrem. rewrite Hf in Hrem.
  unfold branch_cost. rewrite Hrem. pose proof (runs_pos t Hv) as Hpos.
  assert (forall bs', Forall2 (branch_at (snapshot b)) bs' (siblings t p) -> costs cost_sent bs' <= cost_run * (2 * (runs t - 1))) as Hsib.
  { intros bs' HF. rewrite (siblings_cost cost_sent (snapshot b) p t bs' Hr Hf HF). unfold cost_run, N. nia. }
  assert (cost_run = 16 * N + 45) as Hrun by (unfold cost_run, cost_sent, cost_row, cost_queue; lia).
  assert (0 <= N) by (unfold N; lia). destruct more; unfold send_weight; simpl.
  - pose proof (explored_target mdl m0 hash n _ _ _ _ _ _ _ Hr X) as Ht. destruct X as [_ _ _ X4 X5 X6 X7 _ _].
    rewrite X5, X6, X7, fmap_app, !costs_app. simpl.
    pose proof (routed_app i bs (discovered (snapshot b) (target mdl (least t)) (visited_ (checker sh)))).
    pose proof (discovered_cost (snapshot b) (target mdl (least t)) (visited_ (checker sh)) (states_finite _ Ht) Ht).
    specialize (Hsib bs X4). simpl in *. lia.
  - destruct X as [_ _ X3 X4 X5 X6 _]. rewrite X4, X5, X6, fmap_app, !costs_app. simpl.
    pose proof (routed_cost i bs). assert (costs cost_sent bs <= cost_run * (2 * (runs t - 1))); [|simpl in *; lia].
    destruct X3 as [->|HF]; [rewrite costs_nil, Hrun; nia|by apply Hsib].
Qed.

Lemma measure_transfer (st : Mesh) (i : nat) (sh : Shard) (batch : list Branch) (rest : list (list Branch)) (p : Pc St) :
  safe st -> protocol st -> shard_states st !! i = Some sh -> items (recv_queue st i) = batch :: rest ->
  queue_ (checker sh) = [] -> pc_batch (pc sh) = None -> pc_batch p = None -> pc_weight p < pc_weight (pc sh) + cost_queue ->
  measure (transfer_batch i sh batch rest p st) < measure st.
Proof.
  intros Hsf P Hi Hit Hq Hpb Hpb' Hw.
  assert (i < n)%nat as Hin by (rewrite <- (safe_count _ _ _ _ _ Hsf); by apply lookup_lt_Some in Hi).
  destruct (received mdl m0 hash n hash_in_range model_fits st i sh batch rest Hsf Hit Hq) as (c & E & A & Hg).
  destruct (safe_recv_queue mdl m0 hash n st i Hsf batch) as [Hne _]; [rewrite Hit; by left|].
  unfold transfer_batch. rewrite E. simpl. eapply measure_update; [done|reflexivity|done|].
  change (queues_cost (set_shard i _ (count_pop ?st1))) with (queues_cost st1). rewrite queues_cost_set by done.
  unfold queue_cost. rewrite Hit. cbn [items]. rewrite fmap_cons, sum_cons.
  unfold shard_cost, batch_cost, work_cost. simpl. rewrite Hpb, Hpb', Hq, costs_nil, (arrived_sent _ _ _ A).
  pose proof (costs_sublist 0 (queue_ c) batch ltac:(done) ltac:(by intros b Hb; apply Hg) (arrived_sublist _ _ _ A)) as Hsub.
  rewrite (costs_shift 0 cost_queue batch). assert (1 <= Z.of_nat (length batch)) by (destruct batch; [done|simpl length; lia]).
  assert (unvisited_cost (dom (visited_ c)) <= unvisited_cost (dom (visited_ (checker sh)))) as Hu.
  { apply unvisited_mono_in. intros s Hs. apply (arrived_visited _ _ _ A). by left. }
  assert (0 <= cost_queue) by (unfold cost_queue, N; lia). nia.
Qed.

(** ** What a shard has seen, and where it is *)

(** A shard visits nothing before it begins to search, and ends when it finds
    a violation. *)
Record tidy (sh : Shard) : Prop := {
  tidy_visited : begun (pc sh) = false -> dom (visited_ (checker sh)) = ∅;
  tidy_ending : begun (pc sh) = true -> ok (result_ (checker sh)) = false -> ending (pc sh) = true }.

Definition all_tidy (st : Mesh) : Prop := forall i sh, shard_states st !! i = Some sh -> tidy sh.

Lemma tidy_update (st st' : Mesh) (i : nat) (sh sh' : Shard) :
  shard_states st !! i = Some sh -> shard_states st' = <[i := sh']> (shard_states st) -> all_tidy st ->
  (tidy sh -> tidy sh') -> all_tidy st'.
Proof.
  intros Hi E HT Hsh j shj Hj. rewrite E in Hj.
  destruct (list_insert_cases _ _ _ _ _ _ Hi Hj) as [[-> ->]|[_ Hj']]; [by eapply Hsh, HT|by eapply HT].
Qed.

Lemma tidy_goto (sh : Shard) (p q : Pc St) (c : Checker) rows consumed :
  pc sh = p -> begun q = begun p -> (ending p = true -> ending q = true) ->
  visited_ c = visited_ (checker sh) -> ok (result_ c) = ok (result_ (checker sh)) ->
  tidy sh -> tidy (mkShard c rows consumed q).
Proof.
  intros <- Hb He Hv Ho [T1 T2]. split; simpl; rewrite Hb, ?Hv, ?Ho; [done|]. intros H1 H2. by apply He, T2.
Qed.

Lemma ending_after_push (d : nat) (batch : list Branch) (k : AfterPush) :
  ending (PushItem d batch k) = true -> ending (after_push k : Pc St) = true.
Proof. by destruct k as [[]|]. Qed.

Lemma tidy_transfer (st : Mesh) (i : nat) (sh : Shard) (batch : list Branch) (rest : list (list Branch)) (p : Pc St) :
  safe st -> shard_states st !! i = Some sh -> items (recv_queue st i) = batch :: rest -> queue_ (checker sh) = [] ->
  begun (pc sh) = true -> begun p = true -> ending (pc sh) = false -> all_tidy st -> all_tidy (transfer_batch i sh batch rest p st).
Proof.
  intros Hsf Hi Hit Hq Hb Hb' He HT.
  destruct (received mdl m0 hash n hash_in_range model_fits st i sh batch rest Hsf Hit Hq) as (c & E & A & _).
  unfold transfer_batch. rewrite E. simpl. eapply (tidy_update st); [exact Hi|reflexivity|exact HT|].
  intros [_ T2]. split; simpl; [by rewrite Hb'|]. intros _ Ho. rewrite (arrived_ok _ _ _ A) in Ho.
  by rewrite (T2 Hb Ho) in He.
Qed.

Lemma tidy_round (st : Mesh) (i : nat) (sh : Shard) (lc : Z) :
  safe st -> shard_states st !! i = Some sh -> pc sh = PopNext lc -> queue_ (checker sh) <> [] -> all_tidy st ->
  all_tidy (round_step mdl hash i sh lc st).
Proof.
  intros Hsf Hi E Hq HT. pose proof (safe_shards _ _ _ _ _ Hsf i sh Hi) as Hs.
  destruct (queue_ (checker sh)) as [|b rest] eqn:Eq; [done|].
  destruct (safe_local _ _ _ _ _ _ Hs b) as [Ho Hg]; [rewrite Eq; by left|].
  destruct (round_spec mdl m0 hash n hash_in_range model_fits i (checker sh) b rest Eq Ho Hg (safe_history _ _ _ _ _ _ Hs)) as
    (c & more & p & t & bs & Er & _ & _ & _ & _ & _ & X).
  unfold round_step. rewrite (safe_count _ _ _ _ _ Hsf). setoid_rewrite Er. simpl.
  eapply (tidy_update st); [exact Hi|reflexivity|exact HT|]. intros [_ T2]. rewrite E in T2.
  split; simpl; [by destruct more|]. intros _ Hok. destruct more; [|done].
  rewrite (explored_ok _ _ _ _ _ _ _ _ _ _ _ X) in Hok. by specialize (T2 eq_refl Hok).
Qed.

Lemma tidy_step (st : Mesh) (i : nat) : safe st -> protocol st -> all_tidy st -> all_tidy (mesh_step i st).
Proof.
  intros Hsf P HT. unfold ModelCheckMesh.mesh_step. destruct (panicked st); [done|].
  destruct (shard_states st !! i) as [sh|] eqn:Hi; [|done].
  pose proof (safe_shards _ _ _ _ _ Hsf i sh Hi) as Hs. pose proof (protocol_local _ _ P i sh Hi) as L.
  unfold shard_step. destruct (pc sh) as [|k|d batch k|d batch k|d batch k|d f| | | |lc|lc|lc|o lc|lc|d w lc|d lc|lc|o r| | |] eqn:E;
    unfold send_step, push_step, flush_step, barrier_step, enter_loop, recv_step, close_step, finish_step; rewrite ?E;
    repeat case_match; try done;
    try (eapply (tidy_update st); [exact Hi|reflexivity|exact HT|]; eapply tidy_goto; [exact E|done..]).
  - rewrite (safe_count _ _ _ _ _ Hsf).
    destruct (start_spec mdl hash n hash_in_range i (checker sh) (safe_history _ _ _ _ _ _ Hs)) as (c & -> & _ & Hv & _). simpl.
    eapply (tidy_update st); [exact Hi|reflexivity|exact HT|]. by split.
  - eapply (tidy_update st); [exact Hi|reflexivity|exact HT|]. eapply tidy_goto; [exact E|apply begun_after_send|by destruct k as [|[]]|done..].
  - eapply (tidy_update st); [exact Hi|reflexivity|exact HT|]. by apply (tidy_goto sh (pc sh) (pc sh)).
  - eapply (tidy_update st); [exact Hi|reflexivity|exact HT|].
    eapply tidy_goto; [exact E|apply (begun_after_push d batch)|apply (ending_after_push d batch)|done..].
  - eapply (tidy_update st); [exact Hi|reflexivity|exact HT|].
    eapply tidy_goto; [exact E|apply (begun_after_push d batch)|apply (ending_after_push d batch)|done..].
  - eapply (tidy_update st); [exact Hi|reflexivity|exact HT|]. eapply tidy_goto; [exact E|apply (begun_after_flush d)|by destruct f|done..].
  - eapply (tidy_update st); [exact Hi|reflexivity|exact HT|]. by split.
  - apply tidy_round; [done..| |done]. congruence.
  - apply tidy_transfer; try done; rewrite ?E; try done. apply (waiting_queue n sh lc L). by left.
  - apply tidy_transfer; try done; rewrite ?E; try done. apply (waiting_queue n sh lc L). by right.
Qed.

(** [pc] is where shard [i] waits for others, or has returned. *)
Definition blocked (st : Mesh) (i : nat) : bool :=
  match panicked st, shard_states st !! i with
  | None, Some sh =>
      match pc sh with
      | AwaitOthers => negb (barrier_ st =? 0)
      | AwaitNext _ => match items (recv_queue st i) with [] => negb (closed (recv_queue st i)) | _ => false end
      | Returned => true
      | _ => false
      end
  | _, _ => true
  end.

(** The step takes shard [sh] on, from the place that [E] states. *)
Local Ltac cheaper E :=
  eapply measure_goto; [done|reflexivity|done|try done|by rewrite E|rewrite E; simpl; rewrite ?left_to_0; try lia].

Lemma measure_panic (st : Mesh) (p : Pc St) : panicked st = None -> measure (panic p st) < measure st.
Proof. intros Hp. unfold measure, queues_cost. simpl. rewrite Hp. lia. Qed.

Lemma measure_start (st : Mesh) (i : nat) (sh : Shard) :
  safe st -> protocol st -> tidy sh -> shard_states st !! i = Some sh -> pc sh = Start ->
  measure (local_step (start_run mdl hash (shard_count st) i (checker sh)) i sh
    (fun c => goto (Sending (SentFlush ToArrive)) (set_checker c sh)) st) < measure st.
Proof.
  intros Hsf P T Hi E. pose proof (in_position _ _ (protocol_local _ _ P i sh Hi)) as Lp.
  unfold position in Lp. rewrite E in Lp. destruct Lp as (Lq & Ls & _). rewrite (safe_count _ _ _ _ _ Hsf).
  destruct (start_spec mdl hash n hash_in_range i (checker sh) (safe_history _ _ _ _ _ _ (safe_shards _ _ _ _ _ Hsf i sh Hi)))
    as (c & -> & Hq & Hv & Hsent & _ & _). simpl.
  eapply measure_update; [done|reflexivity|done|]. change (queues_cost (set_shard _ _ _)) with (queues_cost st).
  unfold shard_cost, work_cost, batch_cost. simpl.
  rewrite E, Hq, Hv, Hsent, Lq, Ls, (tidy_visited _ T) by (by rewrite E). simpl. rewrite costs_cons, !costs_nil.
  assert (reachable (initial_state mdl)) as Hr by apply reachable_initial.
  destruct (follow_some (step_of (initial_state mdl))) as [t Ht]; [by apply model_fits|].
  pose proof (good_remaining (root_branch (initial_state mdl)) []) as Hrem. simpl in Hrem.
  unfold branch_cost. change (first_branch mdl) with (root_branch (initial_state mdl)).
  rewrite Hrem; [|split; [done|apply coded_new]|done|by eexists]. unfold runs_after.
  rewrite Ht, (follow_runs _ t) by (done || by apply model_fits). unfold state_cost, send_weight, flush_weight. lia.
Qed.

Lemma measure_recv (st : Mesh) (i : nat) (sh : Shard) :
  safe st -> protocol st -> shard_states st !! i = Some sh -> panicked st = None -> blocked st i = false ->
  (match pc sh with TryPop _ | SetStalled _ _ | Ack _ | AwaitNext _ | ResetStalled _ _ => true | _ => false end) = true ->
  measure (recv_step i sh st) < measure st.
Proof.
  intros Hsf P Hi Hp. unfold blocked. rewrite Hp, Hi. pose proof (protocol_local _ _ P i sh Hi) as L.
  assert (0 <= N) by (unfold N; lia). unfold recv_step. rewrite (safe_count _ _ _ _ _ Hsf).
  destruct (pc sh) as [| | | | | | | | | | |lc|o lc|lc| | |lc|o r| | |] eqn:E; intros Hb Hpc; try done.
  - destruct (items (recv_queue st i)) as [|batch rest] eqn:Eq; [by cheaper E|].
    apply measure_transfer; try done; [apply (waiting_queue n sh lc L); by left|by rewrite E|].
    rewrite E. unfold cost_queue. simpl. lia.
  - destruct (o <? n)%nat eqn:Ho; bool_cases; [pose proof (left_to_S o Ho); by cheaper E|].
    assert (0 <= left_to o) by (unfold left_to; lia). by cheaper E.
  - eapply (measure_update st); [done|reflexivity|done|].
    change (queues_cost (set_shard i _ (set_total _ st))) with (queues_cost st).
    unfold shard_cost. change (work_cost (goto _ (set_consume _ sh))) with (work_cost sh). rewrite E.
    destruct (_ =? 0); simpl; rewrite ?left_to_0; unfold batch_cost; simpl; lia.
  - destruct (items (recv_queue st i)) as [|batch rest] eqn:Eq.
    + apply negb_false_iff in Hb. rewrite Hb. by cheaper E.
    + apply measure_transfer; try done; [apply (waiting_queue n sh lc L); by right|by rewrite E|].
      rewrite E. unfold cost_queue. simpl. rewrite left_to_0. lia.
  - destruct (o <? n)%nat eqn:Ho; bool_cases.
    + pose proof (left_to_S o Ho). destruct r; by cheaper E.
    + assert (0 <= left_to o) by (unfold left_to; lia). destruct r; by cheaper E.
Qed.

Lemma measure_close (st : Mesh) (i : nat) (sh : Shard) :
  safe st -> protocol st -> shard_states st !! i = Some sh -> panicked st = None -> is_closing (pc sh) = true ->
  measure (close_step i sh st) < measure st.
Proof.
  intros Hsf P Hi Hp Hc. pose proof (in_position _ _ (protocol_local _ _ P i sh Hi)) as Lp. unfold position in Lp.
  unfold close_step. rewrite (safe_count _ _ _ _ _ Hsf).
  destruct (pc sh) as [| | | | | | | | | | | | | |d w lc|d lc| | | | |] eqn:E; try done.
  - destruct (d <? n)%nat eqn:Hd; bool_cases.
    + destruct (items (recv_queue st d)); [destruct w; by cheaper E|]. destruct w; [by apply measure_panic|by cheaper E].
    + assert (0 <= left_to d) by (unfold left_to; lia). destruct w; by cheaper E.
  - destruct Lp as [_ Hd]. pose proof (left_to_S d Hd). cheaper E.
    change (queues_cost (set_shard i _ ?st1)) with (queues_cost st1). by rewrite queue_cost_close.
Qed.

Lemma measure_finish (st : Mesh) (i : nat) (sh : Shard) :
  safe st -> shard_states st !! i = Some sh -> pc sh = CloseOwn \/ pc sh = Drain ->
  measure (finish_step i sh st) < measure st.
Proof.
  intros Hsf Hi Hpc. assert (i < n)%nat as Hin by (rewrite <- (safe_count _ _ _ _ _ Hsf); by apply lookup_lt_Some in Hi).
  unfold finish_step. destruct Hpc as [E|E]; rewrite E.
  - cheaper E. change (queues_cost (set_shard i _ ?st1)) with (queues_cost st1). by rewrite queue_cost_close.
  - destruct (items (recv_queue st i)) as [|batch rest] eqn:Eq; [by cheaper E|].
    apply (measure_update st _ i sh sh); [done|by simpl; rewrite list_insert_id|done|].
    change (queues_cost (count_pop ?st1)) with (queues_cost st1). rewrite queues_cost_set by done.
    unfold queue_cost. rewrite Eq. cbn [items]. rewrite fmap_cons, sum_cons.
    destruct (safe_recv_queue mdl m0 hash n st i Hsf batch) as [Hne Hg]; [rewrite Eq; by left|].
    destruct batch as [|b batch]; [done|]. rewrite costs_cons. assert (0 <= cost_queue) as Hc by (unfold cost_queue, N; lia).
    pose proof (good_cost cost_queue b Hc ltac:(apply Hg; by left)).
    pose proof (costs_nonneg cost_queue batch Hc ltac:(intros b' Hb'; apply Hg; by right)). lia.
Qed.

(** Any step of a shard that is not blocked makes progress. *)
Lemma measure_step (st : Mesh) (i : nat) :
  safe st -> protocol st -> all_tidy st -> blocked st i = false -> measure (mesh_step i st) < measure st.
Proof.
  intros Hsf P HT Hb. pose proof Hb as Hb'. unfold blocked in Hb'. unfold ModelCheckMesh.mesh_step.
  destruct (panicked st) eqn:Hp; [done|]. destruct (shard_states st !! i) as [sh|] eqn:Hi; [|done].
  assert (0 <= N) by (unfold N; lia).
  unfold shard_step. destruct (pc sh) as [|k|d batch k|d batch k|d batch k|d f| | | |lc|lc|lc|o lc|lc|d w lc|d lc|lc|o r| | |] eqn:E;
    try done; try (by apply measure_send); try (by apply measure_flush); try (by apply measure_push; [..|rewrite E]);
    try (by apply measure_recv; [..|rewrite E]); try (by apply measure_close; [..|rewrite E]); try (apply measure_finish; by auto).
  - apply measure_start; try done. by eapply HT.
  - unfold barrier_step. rewrite E. by cheaper E.
  - unfold barrier_step. rewrite E. apply negb_false_iff in Hb'. rewrite Hb'. by cheaper E.
  - destruct (0 <? total_pending_count st); [|by apply measure_panic].
    eapply measure_update; [done|reflexivity|done|]. change (queues_cost (set_shard _ _ _)) with (queues_cost st).
    unfold shard_cost. rewrite E. change (work_cost (goto _ (set_checker _ sh))) with (work_cost sh). simpl. unfold batch_cost. simpl. lia.
  - unfold enter_loop. destruct (_ && _); by cheaper E.
  - destruct (queue_ (checker sh)) as [|b q] eqn:Eq; [by cheaper E|]. apply measure_round; try done. congruence.
Qed.
End End.
