(* ===== verification/ModelCheckLive.v ===== *)
(** * The model checker: the search returns

    [ModelCheckEnd] bounds the number of steps.  Here: when no shard can take
    a step, and no violation has been found, all have returned, because some
    shard sees the count of pending batches at zero and closes every queue.
    A search with one shard returns in any case. *)

From S2P Require Export ModelCheckEnd.
Open Scope Z_scope.

Section Live.
Context `{Countable St, !Inhabited St} {M : Type}.
Variable (mdl : StateMachineModel St M) (m0 : M) (hash : Branch St -> Z) (between_flush : Z) (n : nat).
Hypothesis hash_in_range : hash_ok hash n.
Hypothesis model_fits : model_ok mdl m0.

Notation Shard := (Shard St M).
Notation Mesh := (Mesh St M).
Notation safe := (safe mdl m0 hash n).
Notation protocol := (protocol n).
Notation mesh_step := (mesh_step mdl hash between_flush).
Notation new_mesh := (ModelCheckMesh.new_mesh (St:=St) m0 n).
Notation cover := (cover mdl m0 hash n).

(** ** Who closes the queues *)

(** The shard will count down [total_pending_count] before it waits. *)
Definition searching (p : Pc St) : bool :=
  negb (ending p) && negb (is_closing p) && match p with AwaitNext _ => false | _ => true end.

Definition closing_at (p : Pc St) : option nat :=
  match p with Closing d _ _ | CloseOther d _ => Some d | _ => None end.

Definition closed_below (st : Mesh) (d : nat) : Prop :=
  forall j q, recv_queues st !! j = Some q -> (j < d)%nat -> closed q = true.

(** When nothing is pending, the queues are closed, or they will be. *)
Definition wakes (st : Mesh) : Prop :=
  total_pending_count st <> 0 \/
  (exists i sh, shard_states st !! i = Some sh /\ searching (pc sh) = true) \/
  (exists i sh d, shard_states st !! i = Some sh /\ closing_at (pc sh) = Some d /\ closed_below st d) \/
  closed_below st n.

Lemma closed_below_set (st : Mesh) (j d : nat) (q : RecvQueue St) :
  (closed (recv_queue st j) = true -> closed q = true) -> closed_below st d -> closed_below (set_recv j q st) d.
Proof.
  intros Hq Hc k q' Hk Hlt. simpl in Hk. apply list_lookup_insert_Some in Hk as [(<- & <- & Hj)|[_ Hk]]; [|by eapply Hc].
  apply lookup_lt_is_Some_2 in Hj as [q0 H0]. apply Hq. rewrite (recv_queue_lookup st j q0 H0). by eapply Hc.
Qed.

(** What a step of shard [i] has to keep. *)
Lemma wakes_update (st st' : Mesh) (i : nat) (sh sh' : Shard) :
  shard_states st !! i = Some sh -> shard_states st' = <[i := sh']> (shard_states st) ->
  (forall d, closed_below st d -> closed_below st' d) ->
  (searching (pc sh) = true \/ total_pending_count st' <> total_pending_count st ->
    total_pending_count st' <> 0 \/ searching (pc sh') = true \/ closing_at (pc sh') = Some 0%nat) ->
  (forall d, closing_at (pc sh) = Some d -> closed_below st d ->
    (exists d', closing_at (pc sh') = Some d' /\ closed_below st' d') \/ closed_below st' n) ->
  wakes st -> wakes st'.
Proof.
  intros Hi E Hc Ht Hd Hw. assert (shard_states st' !! i = Some sh') as Hi' by (rewrite E; by eapply list_insert_here).
  assert (searching (pc sh) = true \/ total_pending_count st' <> total_pending_count st -> wakes st') as Hsrch.
  { intros Hs. destruct (Ht Hs) as [Ht'|[Hs'|Hd']]; [by left|right; left; by exists i, sh'|].
    right. right. left. exists i, sh', 0%nat. split_and!; [done|done|]. intros j q _ ?. lia. }
  destruct Hw as [Hw|[(j & shj & Hj & Hs)|[(j & shj & d & Hj & Hat & Hb)|Hw]]].
  - destruct (decide (total_pending_count st' = total_pending_count st)) as [E'|Hne]; [left; by rewrite E'|by apply Hsrch; right].
  - destruct (decide (j = i)) as [->|Hne]; [rewrite Hi in Hj; injection Hj as <-; by apply Hsrch; left|].
    right. left. exists j, shj. by rewrite E, list_lookup_insert_ne.
  - destruct (decide (j = i)) as [->|Hne].
    + rewrite Hi in Hj. injection Hj as <-. destruct (Hd d Hat Hb) as [(d' & Hd' & Hb')|?]; [|by right; right; right].
      right. right. left. by exists i, sh', d'.
    + right. right. left. exists j, shj, d. rewrite E, list_lookup_insert_ne by done. split_and!; [done|done|by apply Hc].
  - right. right. right. by apply Hc.
Qed.

(** A shard moves on from where it searches to where it searches. *)
Lemma wakes_move (st st' : Mesh) (i : nat) (sh sh' : Shard) :
  shard_states st !! i = Some sh -> shard_states st' = <[i := sh']> (shard_states st) ->
  recv_queues st' = recv_queues st -> total_pending_count st' = total_pending_count st ->
  (searching (pc sh) = true -> searching (pc sh') = true) -> closing_at (pc sh) = None -> wakes st -> wakes st'.
Proof.
  intros Hi E Er Et Hs Hd. apply (wakes_update st st' i sh sh' Hi E).
  - intros d. unfold closed_below. by rewrite Er.
  - rewrite Et. intros [H1|H1]; [right; left; by apply Hs|done].
  - rewrite Hd. done.
Qed.

Lemma searching_after_flush (d : nat) (f : AfterFlush) :
  searching (Flushing d f) = true -> searching (after_flush f) = true.
Proof. by destruct f. Qed.

Lemma searching_after_send (k : AfterSend) : searching (Sending k) = true -> searching (after_send k) = true.
Proof. by destruct k as [|[]]. Qed.

Lemma searching_after_push (d : nat) (batch : list (Branch St)) (k : AfterPush) :
  searching (PushItem d batch k) = true -> searching (after_push k) = true.
Proof. by destruct k as [[]|]. Qed.

Lemma wakes_push_step (st : Mesh) (i : nat) (sh : Shard) :
  protocol st -> shard_states st !! i = Some sh -> wakes st -> wakes (push_step i sh st).
Proof.
  intros P Hi W. unfold push_step.
  destruct (pc sh) as [| |d batch k|d batch k|d batch k| | | | | | | | | | | | | | | |] eqn:E; try done.
  - eapply wakes_update; [done|reflexivity|done| |by rewrite E|done]. intros _. left. simpl.
    assert (0 <= total_pending_count st); [|lia]. pose proof (pending_shard n st i sh P Hi) as Hp.
    pose proof (consume_nonneg _ _ (protocol_local _ _ P i sh Hi)). unfold unacked in Hp.
    destruct (counted (pc sh)); simpl in Hp; lia.
  - destruct (closed (recv_queue st d)); (eapply wakes_move; [done|reflexivity|done|done| |by rewrite E|done]); rewrite E; [|done].
    apply (searching_after_push d batch).
  - eapply (wakes_update st); [done|reflexivity| | |by rewrite E|done].
    + intros e He. apply (closed_below_set st d e (mkRecvQueue (items (recv_queue st d) ++ [batch]) (closed (recv_queue st d)))); [done|done].
    + intros [Hs|Hs]; [|done]. right. left. rewrite E in Hs. by apply (searching_after_push d batch).
Qed.

Lemma wakes_transfer (st : Mesh) (i : nat) (sh : Shard) (batch : list (Branch St)) (rest : list (list (Branch St))) (p : Pc St) :
  safe st -> shard_states st !! i = Some sh -> items (recv_queue st i) = batch :: rest -> queue_ (checker sh) = [] ->
  closing_at (pc sh) = None -> searching p = true -> wakes st -> wakes (transfer_batch i sh batch rest p st).
Proof.
  intros Hsf Hi Hit Hq Hd Hp W.
  destruct (received mdl m0 hash n hash_in_range model_fits st i sh batch rest Hsf Hit Hq) as (c & E & _).
  unfold transfer_batch. rewrite E. simpl. eapply (wakes_update st); [done|reflexivity| |by right; left|by rewrite Hd|done].
  intros d. by apply (closed_below_set st i d (mkRecvQueue rest (closed (recv_queue st i)))).
Qed.

Lemma wakes_recv_step (st : Mesh) (i : nat) (sh : Shard) :
  safe st -> protocol st -> shard_states st !! i = Some sh -> wakes st -> wakes (recv_step i sh st).
Proof.
  intros Hsf P Hi W. pose proof (protocol_local _ _ P i sh Hi) as L. unfold recv_step.
  destruct (pc sh) as [| | | | | | | | | | |lc|o lc|lc| | |lc|o r| | |] eqn:E; try done.
  - destruct (items (recv_queue st i)) as [|batch rest] eqn:Eq.
    + by eapply wakes_move; [done|reflexivity|done|done| |by rewrite E|done].
    + apply wakes_transfer; try done; [apply (waiting_queue n sh lc L); by left|by rewrite E].
  - by destruct (o <? shard_count st)%nat; (eapply wakes_move; [done|reflexivity|done|done| |by rewrite E|done]).
  - eapply (wakes_update st); [done|reflexivity|done| |by rewrite E|done]. intros _. simpl.
    destruct (_ =? 0) eqn:Ht; [by right; right|left; by apply Z.eqb_neq].
  - destruct (items (recv_queue st i)) as [|batch rest] eqn:Eq.
    + destruct (closed (recv_queue st i)); [|done].
      eapply wakes_move; [done|reflexivity|done|done|by rewrite E|by rewrite E|done].
    + apply wakes_transfer; try done; [apply (waiting_queue n sh lc L); by right|by rewrite E].
  - destruct (o <? shard_count st)%nat; (eapply wakes_move; [done|reflexivity|done|done| |by rewrite E|done]); rewrite E; by destruct r.
Qed.

Lemma wakes_close_step (st : Mesh) (i : nat) (sh : Shard) :
  safe st -> shard_states st !! i = Some sh -> wakes st -> wakes (close_step i sh st).
Proof.
  intros Hsf Hi W. unfold close_step. rewrite (safe_count _ _ _ _ _ Hsf).
  destruct (pc sh) as [| | | | | | | | | | | | | |d w lc|d lc| | | | |] eqn:E; try done.
  - destruct (d <? n)%nat eqn:Hd; bool_cases.
    + destruct (items (recv_queue st d)); [|destruct w; [done|]];
        (eapply (wakes_update st); [done|reflexivity|done|rewrite E; by intros []|rewrite E; intros d' [= <-] Hc; left; by exists d|done]).
    + eapply (wakes_update st); [done|reflexivity|done|rewrite E; by intros []|rewrite E|done]. intros d' [= <-] Hc. right.
      intros j q Hj Hlt. apply (Hc j q Hj). lia.
  - eapply (wakes_update st); [done|reflexivity| |rewrite E; by intros []|rewrite E|done].
    + intros e. by apply (closed_below_set st d e (mkRecvQueue (items (recv_queue st d)) true)).
    + intros d' [= <-] Hc. left. exists (S d). split; [done|]. intros j q Hj Hlt. simpl in Hj.
      apply list_lookup_insert_Some in Hj as [(_ & <- & _)|[Hne Hj]]; [done|]. apply (Hc j q Hj). lia.
Qed.

Lemma wakes_finish_step (st : Mesh) (i : nat) (sh : Shard) :
  shard_states st !! i = Some sh -> wakes st -> wakes (finish_step i sh st).
Proof.
  intros Hi W. unfold finish_step. destruct (pc sh) eqn:E; try done.
  - eapply (wakes_update st); [done|reflexivity| |rewrite E; by intros []|by rewrite E|done].
    intros e. by apply (closed_below_set st i e (mkRecvQueue (items (recv_queue st i)) true)).
  - destruct (items (recv_queue st i)) as [|batch rest] eqn:Eq.
    + eapply wakes_move; [done|reflexivity|done|done|by rewrite E|by rewrite E|done].
    + apply (wakes_update st _ i sh sh Hi); [by simpl; rewrite list_insert_id| |rewrite E; by intros []|by rewrite E|done].
      intros e. by apply (closed_below_set st i e (mkRecvQueue rest (closed (recv_queue st i)))).
Qed.

Lemma wakes_step (st : Mesh) (i : nat) :
  safe st -> protocol st -> wakes st -> broken (mesh_step i st) \/ wakes (mesh_step i st).
Proof.
  intros Hsf P W. unfold ModelCheckMesh.mesh_step. destruct (panicked st); [by right|].
  destruct (shard_states st !! i) as [sh|] eqn:Hi; [|by right].
  pose proof (safe_shards _ _ _ _ _ Hsf i sh Hi) as Hs.
  unfold shard_step. destruct (pc sh) as [|k|d batch k|d batch k|d batch k|d f| | | |lc|lc|lc|o lc|lc|d w lc|d lc|lc|o r| | |] eqn:E;
    try (right; by apply wakes_push_step); try (right; by apply wakes_recv_step); try (right; by apply wakes_close_step);
    try (right; by apply wakes_finish_step); try (by right).
  - right. rewrite (safe_count _ _ _ _ _ Hsf).
    destruct (start_spec mdl hash n hash_in_range i (checker sh) (safe_history _ _ _ _ _ _ Hs)) as (c & -> & _). simpl.
    by eapply wakes_move; [done|reflexivity|done|done|..|done]; rewrite E.
  - right. unfold send_step. destruct (sent (checker sh)) as [|[d b] rest].
    + eapply wakes_move; [done|reflexivity|done|done| |by rewrite E|done]. rewrite E. apply searching_after_send.
    + destruct (default false _); (eapply wakes_move; [done|reflexivity|done|done| |by rewrite E|done]); rewrite E; [by destruct k as [|[]]|].
      simpl. by rewrite E.
  - right. unfold flush_step. destruct (d <? shard_count st)%nat; [destruct (default [] _)|];
      (eapply wakes_move; [done|reflexivity|done|done| |by rewrite E|done]); rewrite E; [by destruct f..|].
    apply searching_after_flush.
  - right. unfold barrier_step. rewrite E. by eapply wakes_move; [done|reflexivity|done|done|..|done]; rewrite E.
  - right. unfold barrier_step. rewrite E. destruct (barrier_ st =? 0); [|done].
    by eapply wakes_move; [done|reflexivity|done|done|..|done]; rewrite E.
  - right. destruct (0 <? total_pending_count st); [|done]. by eapply wakes_move; [done|reflexivity|done|done|..|done]; rewrite E.
  - right. unfold enter_loop. destruct (_ && _); by eapply wakes_move; [done|reflexivity|done|done|..|done]; rewrite E.
  - destruct (queue_ (checker sh)) as [|b rest] eqn:Eq.
    { right. by eapply wakes_move; [done|reflexivity|done|done|..|done]; rewrite E. }
    destruct (safe_local _ _ _ _ _ _ Hs b) as [Ho Hg]; [rewrite Eq; by left|].
    destruct (round_spec mdl m0 hash n hash_in_range model_fits i (checker sh) b rest Eq Ho Hg (safe_history _ _ _ _ _ _ Hs)) as
      (c & more & p & t & bs & Er & _ & _ & _ & _ & _ & X).
    unfold round_step. rewrite (safe_count _ _ _ _ _ Hsf). setoid_rewrite Er. simpl. destruct more.
    + right. by eapply wakes_move; [done|reflexivity|done|done|..|done]; rewrite E.
    + left. eexists i, _. split_and!; [by eapply list_insert_here|done|by destruct X].
Qed.

(** ** Nobody can take a step *)

Definition all_blocked (st : Mesh) : Prop := forall i, (i < n)%nat -> blocked st i = true.

(** Every shard has passed the barrier, and waits for a batch or has returned. *)
Lemma blocked_past_barrier (st : Mesh) :
  safe st -> protocol st -> panicked st = None -> all_blocked st -> barrier_ st = 0.
Proof.
  intros Hsf P Hp Hb. rewrite (protocol_barrier _ _ P).
  pose proof (cnt_nonneg (fun sh : Shard => early (pc sh)) (shard_states st)) as H0.
  destruct (decide (0 < cnt (fun sh : Shard => early (pc sh)) (shard_states st))) as [Hlt|]; [|lia].
  destruct (cnt_exists _ _ Hlt) as (i & sh & Hi & He).
  assert (i < n)%nat as Hin by (rewrite <- (safe_count _ _ _ _ _ Hsf); by apply lookup_lt_Some in Hi).
  specialize (Hb i Hin). unfold blocked in Hb. rewrite Hp, Hi in Hb. by destruct (pc sh) as [| | | | | | | | | | | | | | | | | | | |].
Qed.

Lemma blocked_waits (st : Mesh) (i : nat) (sh : Shard) :
  safe st -> protocol st -> panicked st = None -> all_blocked st -> shard_states st !! i = Some sh ->
  pc sh = Returned \/ exists lc, pc sh = AwaitNext lc /\ items (recv_queue st i) = [] /\ closed (recv_queue st i) = false.
Proof.
  intros Hsf P Hp Hb Hi. pose proof (blocked_past_barrier st Hsf P Hp Hb) as H0.
  assert (i < n)%nat as Hin by (rewrite <- (safe_count _ _ _ _ _ Hsf); by apply lookup_lt_Some in Hi).
  specialize (Hb i Hin). unfold blocked in Hb. rewrite Hp, Hi in Hb.
  destruct (pc sh) as [| | | | | | | | | | | | | | | |lc| | | |]; try done; [by rewrite H0 in Hb| |by left].
  right. exists lc. destruct (items (recv_queue st i)); [|done]. split_and!; [done|done|by apply negb_true_iff].
Qed.

(** When everybody waits, nothing is pending. *)
Lemma blocked_quiet (st : Mesh) :
  safe st -> protocol st -> panicked st = None -> all_blocked st -> ~ broken st -> total_pending_count st = 0.
Proof.
  intros Hsf P Hp Hb Hnb. pose proof (blocked_waits st) as Hw.
  destruct (decide (Exists (fun sh : Shard => ending (pc sh) = true) (shard_states st))) as [He|Hn].
  - apply list.Exists_exists in He as (sh & [i Hi]%list_elem_of_lookup & He).
    by destruct (protocol_ending _ _ P i sh Hi He) as [[? _]|?].
  - assert (forall i sh, shard_states st !! i = Some sh -> items (recv_queue st i) = [] /\ unacked sh = 0) as Hall.
    { intros i sh Hi. destruct (Hw i sh Hsf P Hp Hb Hi) as [E|(lc & E & Hit & _)].
      - exfalso. apply Hn, list.Exists_exists. exists sh. split; [by eapply list_elem_of_lookup_2|by rewrite E].
      - split; [done|]. pose proof (in_position _ _ (protocol_local _ _ P i sh Hi)) as Lp. unfold position in Lp. rewrite E in Lp.
        unfold unacked. by rewrite Lp, E. }
    destruct (protocol_exact _ _ P) as [->|]; [|done]. unfold pending_batches.
    rewrite !sum_all_zero; [done| |intros j sh Hj; by apply (Hall j sh Hj)].
    intros j q Hj. assert (j < shard_count st)%nat as [sh Hsh]%lookup_lt_is_Some_2.
    { rewrite (safe_count _ _ _ _ _ Hsf), <- (safe_recv _ _ _ _ _ Hsf). by eapply lookup_lt_Some. }
    destruct (Hall j sh Hsh) as [Hit _]. rewrite (recv_queue_lookup st j q Hj) in Hit. unfold queued. by rewrite Hit.
Qed.

Lemma blocked_returned (st : Mesh) :
  safe st -> protocol st -> wakes st -> panicked st = None -> all_blocked st -> ~ broken st -> all_returned st.
Proof.
  intros Hsf P W Hp Hb Hnb i sh Hi. pose proof (blocked_quiet st Hsf P Hp Hb Hnb) as H0.
  destruct (blocked_waits st i sh Hsf P Hp Hb Hi) as [?|(lc & E & _ & Hop)]; [done|exfalso].
  destruct W as [?|[(j & shj & Hj & Hs)|[(j & shj & d & Hj & Hd & _)|Hc]]]; [done|..].
  - by destruct (blocked_waits st j shj Hsf P Hp Hb Hj) as [Ej|(lc' & Ej & _)]; rewrite Ej in Hs.
  - by destruct (blocked_waits st j shj Hsf P Hp Hb Hj) as [Ej|(lc' & Ej & _)]; rewrite Ej in Hd.
  - assert (i < n)%nat as Hin by (rewrite <- (safe_count _ _ _ _ _ Hsf); by apply lookup_lt_Some in Hi).
    pose proof (recv_queue_some mdl m0 hash n st i Hsf Hin) as Hq. rewrite (Hc i _ Hq Hin) in Hop. done.
Qed.

(** ** Runs *)

Record live (st : Mesh) : Prop := {
  live_tidy : all_tidy st;
  live_wakes : broken st \/ wakes st;
  live_panics : panicked st = None \/ panicked st = Some CheckPending;
  live_cover : broken st \/ cover st }.

Lemma live_new : live new_mesh.
Proof.
  split.
  - intros i sh ->%(new_shard m0 n). by split.
  - right. right. left. exists 0%nat, (mkShard (new_checker m0) (replicate n []) 0 Start). split; [|done]. simpl.
    by rewrite lookup_replicate_2 by apply (shards_exist mdl hash n hash_in_range).
  - by left.
  - right. by apply cover_new.
Qed.

Lemma live_step (st : Mesh) (i : nat) : safe st -> protocol st -> live st -> live (mesh_step i st).
Proof.
  intros Hsf P [L1 L2 L3 L4]. split.
  - by apply (tidy_step mdl m0 hash between_flush n).
  - destruct L2 as [Hb|W]; [left; by apply (broken_step mdl m0 hash between_flush n)|by apply wakes_step].
  - by apply (step_panics mdl m0 hash between_flush n).
  - by apply (cover_step mdl m0 hash between_flush n).
Qed.

Lemma run_live (schedule : list nat) :
  let st := run_mesh mdl hash between_flush schedule new_mesh in safe st /\ protocol st /\ live st.
Proof. apply (run_mesh_ind mdl m0 hash between_flush n); [done|done|apply live_new|apply live_step]. Qed.

(** Every step of the schedule is one of a shard that is not blocked. *)
Fixpoint unblocked (schedule : list nat) (st : Mesh) : Prop :=
  match schedule with
  | [] => True
  | i :: schedule' => blocked st i = false /\ unblocked schedule' (mesh_step i st)
  end.

Variable states : list St.
Hypothesis states_finite : forall s, reachable mdl m0 s -> s ∈ states.

Notation measure := (measure mdl m0 n states).

Lemma unblocked_measure (schedule : list nat) (st : Mesh) :
  safe st -> protocol st -> live st -> unblocked schedule st ->
  Z.of_nat (length schedule) + measure (run_mesh mdl hash between_flush schedule st) <= measure st.
Proof.
  revert st. induction schedule as [|i schedule IH]; intros st Hsf P L; [simpl; lia|]. intros [Hb Hu].
  pose proof (measure_step mdl m0 hash between_flush n hash_in_range model_fits states states_finite st i Hsf P (live_tidy _ L) Hb).
  assert (Z.of_nat (length schedule) + measure (run_mesh mdl hash between_flush schedule (mesh_step i st)) <= measure (mesh_step i st)).
  { apply IH; [by apply safe_step|by apply (protocol_step mdl m0)|by apply live_step|done]. }
  simpl length. change (run_mesh _ _ _ (i :: schedule) st) with (run_mesh mdl hash between_flush schedule (mesh_step i st)). lia.
Qed.

(** The number of steps that a search takes at most. *)
Definition search_bound : Z := measure new_mesh.

Lemma unblocked_bound (schedule : list nat) : unblocked schedule new_mesh -> Z.of_nat (length schedule) <= search_bound.
Proof.
  intros Hu. destruct (run_live schedule) as (Hsf & _).
  pose proof (unblocked_measure schedule new_mesh (safe_new _ _ _ _) (protocol_new _ _) live_new Hu).
  pose proof (measure_nonneg mdl m0 hash n model_fits states _ Hsf). unfold search_bound. lia.
Qed.

(** C7: the model checker terminates on a model with finitely many reachable
    states ([states_finite]), which is as [model_ok] requires, with a hash that
    gives every branch to an existing shard ([hash_ok]): the shards take at
    most [search_bound] steps together, in any interleaving, not counting those
    in which a shard waits; and when no shard can take another step, then,
    unless an invariant of the model fails, every shard has returned.  (The
    check of the number of pending batches after the barrier may fail
    instead.) *)
Theorem parallel_check_terminates (schedule : list nat) :
  let st := run_mesh mdl hash between_flush schedule new_mesh in
  unblocked schedule new_mesh ->
  Z.of_nat (length schedule) <= search_bound /\
  (all_blocked st -> ~ violation mdl m0 -> panicked st = Some CheckPending \/ all_returned st).
Proof.
  intros st Hu. destruct (run_live schedule) as (Hsf & P & [_ W Hp _]). fold st in Hsf, P, W, Hp.
  split; [by apply unblocked_bound|]. intros Hb Hnv. destruct Hp as [Hp|?]; [right|by left].
  assert (~ broken st) as Hnb by (intros Hbr; apply Hnv; by eapply broken_violation).
  destruct W as [?|W]; [done|]. by apply blocked_returned.
Qed.
End Live.

(** A check fails where the shard that takes the step is. *)
Lemma panic_here `{Countable St, !Inhabited St} {M : Type} (mdl : StateMachineModel St M) (hash : Branch St -> Z)
    (between_flush : Z) (st : Mesh St M) (i : nat) (p : Pc St) :
  panicked st = None -> panicked (mesh_step mdl hash between_flush i st) = Some p ->
  exists sh, shard_states st !! i = Some sh /\ pc sh = p /\ (p = CheckPending -> total_pending_count st <= 0).
Proof.
  intros Hp. unfold mesh_step. rewrite Hp. destruct (shard_states st !! i) as [sh|]; [|by rewrite Hp].
  unfold shard_step. destruct (pc sh) eqn:E;
    unfold send_step, push_step, flush_step, barrier_step, enter_loop, recv_step, close_step, finish_step,
      round_step, transfer_batch, local_step; rewrite ?E;
    repeat case_match; simpl; rewrite ?Hp; intros [= <-]; exists sh; split_and!; try done.
  intros _. bool_cases. done.
Qed.

(** ** A single shard *)

Section Single.
Context `{Countable St, !Inhabited St} {M : Type}.
Variable (mdl : StateMachineModel St M) (m0 : M) (hash : Branch St -> Z) (between_flush : Z).
Hypothesis hash_in_range : hash_ok hash 1.
Hypothesis model_fits : model_ok mdl m0.
Variable states : list St.
Hypothesis states_finite : forall s, reachable mdl m0 s -> s ∈ states.

Notation Shard := (Shard St M).
Notation Mesh := (Mesh St M).
Notation safe := (safe mdl m0 hash 1).
Notation protocol := (protocol 1).
Notation live := (live mdl m0 hash 1).
Notation mesh_step := (mesh_step mdl hash between_flush).
Notation new_mesh := (ModelCheckMesh.new_mesh (St:=St) m0 1).
Notation measure := (measure mdl m0 1 states).

Lemma single_shard (st : Mesh) : safe st -> exists sh, shard_states st = [sh].
Proof.
  intros Hsf. pose proof (safe_count _ _ _ _ _ Hsf) as Hn. unfold shard_count in Hn.
  destruct (shard_states st) as [|sh [|]]; [done|by exists sh|done].
Qed.

Lemma single_broken (st : Mesh) (sh : Shard) :
  shard_states st = [sh] -> broken st -> begun (pc sh) = true /\ ok (result_ (checker sh)) = false.
Proof. intros E ([|i] & shi & Hi & Hb); rewrite E in Hi; [by injection Hi as <-|by rewrite lookup_nil in Hi || destruct i]. Qed.

(** The first branch is pending when the shard checks that one is. *)
Lemma single_pending (st : Mesh) (sh : Shard) :
  safe st -> protocol st -> live st -> shard_states st = [sh] -> pc sh = CheckPending -> 0 < total_pending_count st.
Proof.
  intros Hsf P [LT _ _ LC] E Ep. assert (shard_states st !! 0%nat = Some sh) as Hi by (by rewrite E).
  pose proof (protocol_local _ _ P 0%nat sh Hi) as L.
  assert (~ has_work sh) as Hn.
  { apply (no_work 1 sh L); [by rewrite Ep|]. pose proof (in_position _ _ L) as Lp. unfold position in Lp. by rewrite Ep in Lp. }
  destruct LC as [Hb|C]; [apply (single_broken st sh E) in Hb as [Hb _]; by rewrite Ep in Hb|].
  destruct (cover_first _ _ _ _ _ C) as [(sh0 & H0 & Hs)|[(shj & Hj & Hv)|[d Hd]]].
  - rewrite Hi in H0. injection H0 as <-. by rewrite Ep in Hs.
  - assert (shj = sh) as ->; [|rewrite (tidy_visited _ (LT 0%nat sh Hi)) in Hv by (by rewrite Ep); by apply elem_of_empty in Hv].
    rewrite E in Hj. destruct (find_shard _ _ _) in Hj; [by injection Hj|by destruct n].
  - destruct Hd as [(j & shj & Hj & Ho)|(q & batch & Hq & Hb & _)].
    + exfalso. apply Hn. rewrite E in Hj. destruct j as [|j]; [injection Hj as <-|by destruct j].
      right. by exists d, (root_branch (initial_state mdl)).
    + pose proof (pending_queue 1 st d q P Hq) as Hle. unfold queued in Hle.
      destruct (items q); [by apply elem_of_nil in Hb|]. simpl in Hle. lia.
Qed.

Lemma single_panics (st : Mesh) (i : nat) :
  safe st -> protocol st -> live st -> panicked st = None -> panicked (mesh_step i st) = None.
Proof.
  intros Hsf P L Hp. destruct (step_panics mdl m0 hash between_flush 1 hash_in_range model_fits st i Hsf P) as [?|Hc]; [by left|done|].
  destruct (panic_here _ _ _ _ _ _ Hp Hc) as (sh & Hi & Ep & Ht). specialize (Ht eq_refl).
  destruct (single_shard st Hsf) as [sh' E]. rewrite E in Hi. destruct i as [|i]; [injection Hi as <-|by destruct i].
  pose proof (single_pending st sh' Hsf P L E Ep). lia.
Qed.

(** A single shard waits for nobody. *)
Lemma single_blocked (st : Mesh) (sh : Shard) :
  safe st -> protocol st -> live st -> panicked st = None -> shard_states st = [sh] -> blocked st 0 = true -> pc sh = Returned.
Proof.
  intros Hsf P L Hp E Hb. assert (shard_states st !! 0%nat = Some sh) as Hi by (by rewrite E).
  assert (all_blocked 1 st) as Hall by (intros [|i] ?; [done|lia]).
  destruct (blocked_waits mdl m0 hash 1 st 0 sh Hsf P Hp Hall Hi) as [?|(lc & Ep & _)]; [done|].
  assert (~ broken st) as Hnb.
  { intros Hbr. destruct (single_broken st sh E Hbr) as [Hbg Ho]. pose proof (tidy_ending _ (live_tidy _ _ _ _ _ L 0%nat sh Hi) Hbg Ho) as He.
    by rewrite Ep in He. }
  destruct (live_wakes _ _ _ _ _ L) as [?|W]; [done|]. by apply (blocked_returned mdl m0 hash 1 st Hsf P W Hp Hall Hnb 0%nat).
Qed.

Lemma single_run (k : nat) :
  let st := run_mesh mdl hash between_flush (replicate k 0%nat) new_mesh in
  safe st /\ protocol st /\ live st /\ panicked st = None /\
  (all_returned st \/ Z.of_nat k + measure st <= measure new_mesh).
Proof.
  induction k as [|k IH].
  - split_and!; [apply safe_new|apply protocol_new|by apply live_new|done|right; simpl; lia].
  - rewrite replicate_S_end. unfold run_mesh in *. rewrite foldl_app. simpl in IH |- *.
    set (st := foldl _ _ _) in *. destruct IH as (Hsf & P & L & Hp & Hr). split_and!.
    + by apply safe_step.
    + by apply (protocol_step mdl m0).
    + by apply live_step.
    + by apply single_panics.
    + destruct (single_shard st Hsf) as [sh E]. assert (shard_states st !! 0%nat = Some sh) as Hi by (by rewrite E).
      assert (all_returned st -> mesh_step 0 st = st) as Hstay.
      { intros Hret. unfold ModelCheckMesh.mesh_step, shard_step. by rewrite Hp, Hi, (Hret 0%nat sh Hi). }
      destruct (blocked st 0) eqn:Hb.
      * assert (all_returned st) as Hret.
        { intros [|j] shj Hj; rewrite E in Hj; [injection Hj as <-; by apply (single_blocked st)|by destruct j]. }
        left. by rewrite Hstay.
      * destruct Hr as [Hret|Hle]; [left; by rewrite Hstay|right].
        pose proof (measure_step mdl m0 hash between_flush 1 hash_in_range model_fits states states_finite st 0 Hsf P (live_tidy _ _ _ _ _ L) Hb).
        lia.
Qed.

(** With one shard, the checker always returns: after at most
    [search_bound] steps it has returned, no check has failed, its result is ok
    exactly when the invariants of the model hold, and then it has visited
    exactly the reachable states. *)
Theorem single_shard_check (k : nat) :
  search_bound mdl m0 1 states <= Z.of_nat k ->
  let st := run_mesh mdl hash between_flush (replicate k 0%nat) new_mesh in
  exists sh, shard_states st = [sh] /\ panicked st = None /\ pc sh = Returned /\
    (ok (result_ (checker sh)) = true <-> ~ violation mdl m0) /\
    (~ violation mdl m0 -> forall s, reachable mdl m0 s <-> s ∈ dom (visited_ (checker sh))).
Proof.
  intros Hk st. destruct (single_run k) as (Hsf & P & L & Hp & Hr). fold st in Hsf, P, L, Hp, Hr.
  destruct (single_shard st Hsf) as [sh E]. assert (shard_states st !! 0%nat = Some sh) as Hi by (by rewrite E).
  assert (all_returned st) as Hret.
  { destruct Hr as [?|Hle]; [done|exfalso]. pose proof (measure_pos mdl m0 hash 1 model_fits states st Hsf Hp).
    unfold search_bound in Hk. lia. }
  assert (forall o, (forall i shi, shard_states st !! i = Some shi -> ok (result_ (checker shi)) = o) <-> ok (result_ (checker sh)) = o) as Hone.
  { intros o. split; [intros Ha; by apply (Ha 0%nat)|]. intros Ho [|i] shi Hi'; rewrite E in Hi'; [by injection Hi' as <-|by destruct i]. }
  exists sh. split_and!; [done|done|by apply (Hret 0%nat)| |].
  - split; [|intros Hnv; apply (proj1 (Hone true)); by apply (no_violation_ok mdl m0 hash 1)].
    intros Ho. by destruct (ok_search mdl m0 hash 1 hash_in_range model_fits st Hsf P (live_cover _ _ _ _ _ L) Hret) as [? _]; [exact (proj2 (Hone true) Ho)|].
  - intros Hnv s. destruct (ok_search mdl m0 hash 1 hash_in_range model_fits st Hsf P (live_cover _ _ _ _ _ L) Hret) as [_ Hs];
      [by apply (no_violation_ok mdl m0 hash 1)|].
    rewrite Hs. split; [intros ([|i] & shi & Hi' & Hv); rewrite E in Hi'; [by injection Hi' as <-|by destruct i]|].
    intros Hv. by exists 0%nat, sh.
Qed.
End Single.

(** ** An example *)

Lemma sample_leads (s : nat) (p : list item) (m : nat) :
  leads_to sample_model 0%nat s p m -> (s <= 3)%nat -> (m <= 3)%nat.
Proof.
  unfold leads_to, step_of. simpl. unfold sample_step. intros Hf Hs. destruct (s <? 2)%nat eqn:Es; simpl in Hf; bool_cases.
  - destruct p as [|[r v] p]; [discriminate Hf|]. destruct ((r =? 1 - 0 + 1) && (0 <=? v) && (v <? r)) eqn:C; [|discriminate Hf].
    bool_cases. destruct p; [|discriminate Hf]. injection Hf as <-. lia.
  - destruct p; [|discriminate Hf]. injection Hf as <-. lia.
Qed.

Lemma sample_bounded (s : nat) : reachable sample_model 0%nat s -> (s <= 3)%nat.
Proof. induction 1 as [|s p m Hr IH Hm]; [simpl; lia|]. by apply (sample_leads s p m). Qed.

Lemma sample_finite (s : nat) : reachable sample_model 0%nat s -> s ∈ seq 0 4.
Proof. intros Hs%sample_bounded. apply elem_of_seq. lia. Qed.

Lemma sample_no_violation : ~ violation sample_model 0%nat.
Proof.
  intros (s & Hr%sample_bounded & [Hv|(p & m & Hm & Hv)]); simpl in Hv.
  - apply Nat.ltb_ge in Hv. unfold entered in Hv. simpl in Hv. lia.
  - apply (sample_leads s p m Hm) in Hr. apply Nat.ltb_ge in Hv. lia.
Qed.

(** The first shard that is not blocked takes the next step. *)
Fixpoint greedy (fuel : nat) (st : Mesh nat nat) : list nat :=
  match fuel with
  | O => []
  | S fuel' =>
      match List.find (fun i => negb (blocked st i)) (seq 0 (shard_count st)) with
      | Some i => i :: greedy fuel' (mesh_step sample_model sample_hash 3 i st)
      | None => []
      end
  end.

Definition greedy_schedule : list nat := Eval vm_compute in greedy 400 (new_mesh 0%nat 2).

Lemma parallel_check_terminates_witness :
  unblocked sample_model sample_hash 3 greedy_schedule (new_mesh 0%nat 2) /\
  Z.of_nat (length greedy_schedule) <= search_bound sample_model 0%nat 2 (seq 0 4) /\
  (panicked (run_mesh sample_model sample_hash 3 greedy_schedule (new_mesh 0%nat 2)) = Some CheckPending \/
   all_returned (run_mesh sample_model sample_hash 3 greedy_schedule (new_mesh 0%nat 2))).
Proof.
  assert (unblocked sample_model sample_hash 3 greedy_schedule (new_mesh 0%nat 2)) as Hu by (vm_compute; repeat split).
  destruct (parallel_check_terminates sample_model 0%nat sample_hash 3 2 sample_hash_ok sample_ok (seq 0 4) sample_finite
    greedy_schedule Hu) as [Hb He].
  split; [exact Hu|]. split; [exact Hb|]. apply He; [|exact sample_no_violation].
  intros [|[|i]] Hi; [vm_compute; reflexivity|vm_compute; reflexivity|lia].
Defined.

Lemma sample_hash_1 : hash_ok (fun _ : Branch nat => 0) 1.
Proof. intros b. vm_compute. by split. Qed.

Lemma single_shard_check_witness :
  search_bound sample_model 0%nat 1 (seq 0 4) <= Z.of_nat 1000 /\
  exists sh, shard_states (run_mesh sample_model (fun _ => 0) 3 (replicate 1000 0%nat) (new_mesh 0%nat 1)) = [sh] /\
    pc sh = Returned /\ ok (result_ (checker sh)) = true.
Proof.
  assert (search_bound sample_model 0%nat 1 (seq 0 4) <= Z.of_nat 1000) as Hk by (vm_compute; congruence).
  split; [exact Hk|].
  destruct (single_shard_check sample_model 0%nat (fun _ => 0) 3 sample_hash_1 sample_ok (seq 0 4) sample_finite 1000 Hk)
    as (sh & E & _ & Hr & Ho & _).
  exists sh. split; [exact E|]. split; [exact Hr|]. apply Ho, sample_no_violation.
Defined.
