(* ===== verification/ModelCheckMerge.v ===== *)
(** * The model checker: the results of the shards are merged

    [StateMachineModel::check_model] of [state_machine_model.hpp]: when its
    search has returned, each shard waits for the results of a few others,
    combines them with its own, and sets its latch.  The waits form a tree: a
    shard waits only for greater indices, so the result of a shard is a
    function of what the searches have left. *)

From S2P Require Export ModelCheckLive.
Open Scope Z_scope.

Section Merge.
Context `{Countable St, !Inhabited St} {M : Type}.

Notation Shard := (Shard St M).
Notation Mesh := (Mesh St M).

(** The result of a shard and the states it has visited. *)
Definition ShardResult : Type := StateMachineResult * gmap St (Branch St).

Definition set_shards (s : Z) (r : StateMachineResult) : StateMachineResult :=
  mkResult (ok r) (branch_push_count r) (branch_pop_count r) (branch_miss_count r) (state_count r)
    (self_branch_count r) s (seed r).

(** [insert] keeps the branch of a state that is already there. *)
(* @ src/batteries/state_machine_model.hpp 359-362 StateMachineModel::check_model *)
Definition combine (a b : ShardResult) : ShardResult := (combine_results a.1 b.1, a.2 ∪ b.2).

(** What the search of the shard has left; [std::bitset<64>::set] throws when
    the index is out of range. *)
(* @ src/batteries/state_machine_model.hpp 317-321 StateMachineModel::check_model *)
Definition own_result (shard_i : nat) (sh : Shard) : outcome ShardResult :=
  check (shard_i <? 64)%nat;;
  mret (set_shards (Z.setbit (shards (result_ (checker sh))) (Z.of_nat shard_i)) (result_ (checker sh)),
        visited_ (checker sh)).

(** The loop of shard [shard_i] from [merge_mask] on.  [await] is the result
    that the latch of a shard gets. *)
(* @ src/batteries/state_machine_model.hpp 348-363 StateMachineModel::check_model *)
Fixpoint merge_from (fuel : nat) (await : nat -> outcome ShardResult) (shard_count shard_i : nat) (merge_mask : Z)
    (tmp_result : ShardResult) : outcome ShardResult :=
  match fuel with
  | O => Panic
  | S fuel' =>
      if Z.land merge_mask (Z.of_nat shard_i) =? 0 then
        let merge_i := Z.to_nat (Z.lor (Z.of_nat shard_i) merge_mask) in
        if (shard_count <=? merge_i)%nat then mret tmp_result else
        check (shard_i <? merge_i)%nat;;
        check (merge_i <? shard_count)%nat;;
        merge_result ← await merge_i;
        merge_from fuel' await shard_count shard_i (u64 (Z.shiftl merge_mask 1)) (combine tmp_result merge_result)
      else mret tmp_result
  end.

(** What shard [shard_i] sets its latch to. *)
(* @ src/batteries/state_machine_model.hpp 315-364 StateMachineModel::check_model *)
Fixpoint shard_result (fuel : nat) (shard_count : nat) (st : Mesh) (shard_i : nat) : outcome ShardResult :=
  match fuel with
  | O => Panic
  | S fuel' =>
      match shard_states st !! shard_i with
      | Some sh =>
          tmp_result ← own_result shard_i sh;
          merge_from 64 (shard_result fuel' shard_count st) shard_count shard_i 1 tmp_result
      | None => Panic
      end
  end.

(** [check_model], when every shard has returned from its search. *)
(* @ src/batteries/state_machine_model.hpp 259-389 StateMachineModel::check_model *)
Definition check_model (st : Mesh) : outcome ShardResult :=
  let n_shards := shard_count st in
  check (0 <? n_shards)%nat;;
  if (n_shards =? 1)%nat then
    match shard_states st !! 0%nat with Some sh => mret (result_ (checker sh), visited_ (checker sh)) | None => Panic end
  else
    r ← shard_result 64 n_shards st 0;
    mret (set_state_count (Z.of_nat (size r.2)) r.1, r.2).

(** ** The merge is a fold over the shards, in order *)

Lemma combine_assoc (a b c : ShardResult) : combine a (combine b c) = combine (combine a b) c.
Proof.
  unfold combine, combine_results. simpl. rewrite (assoc_L (∪)). f_equal.
  f_equal; rewrite ?andb_assoc, ?Z.lor_assoc; try done; try (destruct (seed a.1); done);
    unfold uwrap; rewrite Zplus_mod_idemp_r, Zplus_mod_idemp_l; f_equal; lia.
Qed.

Lemma foldl_combine (x y : ShardResult) (l k : list ShardResult) :
  foldl combine x (l ++ y :: k) = combine (foldl combine x l) (foldl combine y k).
Proof.
  rewrite foldl_app. simpl. generalize (foldl combine x l) as z. intros z. revert y z.
  induction k as [|w k IH]; intros y z; [done|]. simpl. by rewrite <- combine_assoc, IH.
Qed.

(** ** The tree of waits *)

Section Tree.
Variable (st : Mesh) (n : nat) (own : nat -> ShardResult).
Hypothesis bitset_size : (n <= 64)%nat.
Hypothesis has_own : forall i, (i < n)%nat -> exists sh, shard_states st !! i = Some sh /\ own_result i sh = Done (own i).

(** The results of the shards from [a] up to [b], combined in order. *)
Definition fold_range (a b : nat) : ShardResult := foldl combine (own a) (own <$> seq (S a) (b - S a)).

Lemma fold_range_one (a : nat) : fold_range a (S a) = own a.
Proof. unfold fold_range. by replace (S a - S a)%nat with 0%nat by lia. Qed.

Lemma fold_range_app (a b c : nat) : (a < b < c)%nat -> combine (fold_range a b) (fold_range b c) = fold_range a c.
Proof.
  intros Habc. unfold fold_range. rewrite <- foldl_combine. f_equal.
  replace (c - S a)%nat with ((b - S a) + S (c - S b))%nat by lia. rewrite seq_app, fmap_app.
  replace (S a + (b - S a))%nat with b by lia. done.
Qed.

(** The bit of the mask, in an index that is a multiple of [2 ^ k]. *)
Lemma mask_bit (m k : nat) (j : nat) : (j < k)%nat -> Z.testbit (Z.of_nat (m * 2 ^ k)) (Z.of_nat j) = false.
Proof.
  intros Hj. replace (Z.of_nat (m * 2 ^ k)) with (Z.of_nat m * 2 ^ Z.of_nat k) by (rewrite Nat2Z.inj_mul, Nat2Z.inj_pow; lia).
  apply Z.mul_pow2_bits_low. lia.
Qed.

Lemma mask_land (i j : nat) : (Z.land (2 ^ Z.of_nat j) (Z.of_nat i) =? 0) = negb (Z.testbit (Z.of_nat i) (Z.of_nat j)).
Proof.
  rewrite Z.land_comm. destruct (Z.testbit (Z.of_nat i) (Z.of_nat j)) eqn:E; simpl.
  - apply Z.eqb_neq. intros H0. apply (f_equal (fun z => Z.testbit z (Z.of_nat j))) in H0.
    rewrite Z.land_spec, E, Z.pow2_bits_true, Z.testbit_0_l in H0 by lia. done.
  - apply Z.eqb_eq. apply Z.bits_inj'. intros l Hl. rewrite Z.land_spec, Z.testbit_0_l.
    destruct (decide (l = Z.of_nat j)) as [->|Hne]; [by rewrite E|]. rewrite Z.pow2_bits_false by lia. apply andb_false_r.
Qed.

Lemma mask_lor (i j : nat) :
  Z.testbit (Z.of_nat i) (Z.of_nat j) = false -> Z.to_nat (Z.lor (Z.of_nat i) (2 ^ Z.of_nat j)) = (i + 2 ^ j)%nat.
Proof.
  intros E. assert (Z.land (Z.of_nat i) (2 ^ Z.of_nat j) = 0) as H0.
  { apply Z.eqb_eq. rewrite Z.land_comm, mask_land. by rewrite E. }
  rewrite <- Z.lxor_lor, <- Z.add_nocarry_lxor by done.
  rewrite Z2Nat.inj_add, Nat2Z.id by lia. f_equal. rewrite <- (Nat2Z.id (2 ^ j)). f_equal. rewrite Nat2Z.inj_pow. done.
Qed.

(** The mask goes through the powers of two. *)
Lemma mask_next (j : nat) : (j < 63)%nat -> u64 (Z.shiftl (2 ^ Z.of_nat j) 1) = 2 ^ Z.of_nat (S j).
Proof.
  intros Hj. rewrite Z.shiftl_mul_pow2 by lia. rewrite Nat2Z.inj_succ, Z.pow_succ_r, uwrap_small by
    (lia || (assert (2 ^ Z.of_nat j <= 2 ^ 62); [apply Z.pow_le_mono_r; lia|lia])). lia.
Qed.

(** From bit [j] on, a shard whose index is a multiple of [2 ^ k] merges the
    blocks of the other bits up to [k]. *)
Lemma merge_from_spec (await : nat -> outcome ShardResult) (m k j fuel : nat) :
  let i := (m * 2 ^ k)%nat in
  (i < n)%nat -> (j <= k)%nat -> (k < 63)%nat -> (k - j < fuel)%nat ->
  (Z.testbit (Z.of_nat i) (Z.of_nat k) = true \/ (n <= i + 2 ^ k)%nat) ->
  (forall j', (j' < k)%nat -> (i + 2 ^ j' < n)%nat ->
     await (i + 2 ^ j')%nat = Done (fold_range (i + 2 ^ j') (min (i + 2 ^ S j') n))) ->
  merge_from fuel await n i (2 ^ Z.of_nat j) (fold_range i (min (i + 2 ^ j) n)) = Done (fold_range i (min (i + 2 ^ k) n)).
Proof.
  intros i Hi Hjk Hk Hf Htop Hawait. revert j Hjk Hf. induction fuel as [|fuel IH]; intros j Hjk Hf; [lia|].
  assert (0 < 2 ^ j)%nat as Hpos by (apply Nat.neq_0_lt_0, Nat.pow_nonzero; lia).
  simpl. rewrite mask_land. destruct (decide (j = k)) as [->|Hne].
  - destruct (Z.testbit (Z.of_nat i) (Z.of_nat k)) eqn:E; [done|]. destruct Htop as [?|Htop]; [done|]. simpl.
    rewrite mask_lor by done. by rewrite (proj2 (Nat.leb_le _ _)) by done.
  - assert (Z.testbit (Z.of_nat i) (Z.of_nat j) = false) as E by (apply mask_bit; lia). rewrite E. simpl.
    rewrite mask_lor by done. destruct (n <=? i + 2 ^ j)%nat eqn:Hn; bool_cases.
    + assert (2 ^ j <= 2 ^ k)%nat by (apply Nat.pow_le_mono_r; lia). by rewrite !Nat.min_r by lia.
    + rewrite (proj2 (Nat.ltb_lt i (i + 2 ^ j))), (proj2 (Nat.ltb_lt (i + 2 ^ j) n)) by lia. simpl.
      rewrite Hawait by lia. simpl. rewrite mask_next by lia.
      assert (2 ^ S j = 2 ^ j + 2 ^ j)%nat as Hpow by (simpl; lia).
      rewrite (Nat.min_l (i + 2 ^ j) n), fold_range_app by lia. apply IH; lia.
Qed.

(** A shard that is a multiple of [2 ^ k], and not more, gets the results of
    its block. *)
Lemma shard_result_spec (k m fuel : nat) :
  let i := (m * 2 ^ k)%nat in
  (i < n)%nat -> (k < 63)%nat -> (k < fuel)%nat ->
  (Z.testbit (Z.of_nat i) (Z.of_nat k) = true \/ (n <= i + 2 ^ k)%nat) ->
  shard_result fuel n st i = Done (fold_range i (min (i + 2 ^ k) n)).
Proof.
  revert m fuel. induction k as [k IH] using lt_wf_ind. intros m [|fuel] i Hi Hk Hf Htop; [lia|].
  destruct (has_own i Hi) as (sh & Hsh & Ho). cbn [shard_result]. rewrite Hsh, Ho. cbn [mbind outcome_bind].
  pose proof (merge_from_spec (shard_result fuel n st) m k 0 64 Hi) as Hm. cbv zeta in Hm. fold i in Hm.
  change (2 ^ 0)%nat with 1%nat in Hm. change (2 ^ Z.of_nat 0) with 1 in Hm.
  rewrite Nat.min_l, Nat.add_1_r, fold_range_one in Hm by lia. apply Hm; [lia|done|lia|done|].
  intros j' Hj' Hn. assert (2 ^ k = 2 ^ (k - j' - 1) * 2 * 2 ^ j')%nat as Hpow.
  { rewrite (Nat.mul_comm _ 2), <- Nat.pow_succ_r', <- Nat.pow_add_r. f_equal. lia. }
  assert ((m * 2 ^ (k - j' - 1) * 2 + 1) * 2 ^ j' = i + 2 ^ j')%nat as E by (unfold i; rewrite Hpow; lia).
  pose proof (IH j' Hj' (m * 2 ^ (k - j' - 1) * 2 + 1)%nat fuel) as Hr. cbv zeta in Hr. rewrite E in Hr.
  rewrite Hr; [f_equal; f_equal; simpl; lia|done|lia|lia|left].
  rewrite <- E, Nat2Z.inj_mul, Nat2Z.inj_pow. rewrite Z.mul_pow2_bits by lia. rewrite Z.sub_diag.
  rewrite Nat2Z.inj_add, Nat2Z.inj_mul. rewrite Z.testbit_odd, Z.shiftr_0_r, Z.odd_add, Z.odd_mul. simpl. by rewrite andb_false_r.
Qed.

Lemma shard_result_first (fuel : nat) : (0 < n)%nat -> (7 <= fuel)%nat -> shard_result fuel n st 0 = Done (fold_range 0 n).
Proof.
  intros Hn Hf. pose proof (shard_result_spec 6 0 fuel) as Hr. cbv zeta in Hr. change (0 * 2 ^ 6)%nat with 0%nat in Hr.
  change (2 ^ 6)%nat with 64%nat in Hr. rewrite Nat.min_r in Hr by lia. apply Hr; [done|lia|lia|right; lia].
Qed.
End Tree.

Lemma fold_ok (x : ShardResult) (l : list ShardResult) :
  ok (foldl combine x l).1 = ok x.1 && forallb (fun y => ok y.1) l.
Proof. revert x. induction l as [|y l IH]; intros x; simpl; [by rewrite andb_true_r|]. rewrite IH. simpl. by rewrite andb_assoc. Qed.

Lemma fold_visited (x : ShardResult) (l : list ShardResult) (s : St) :
  s ∈ dom (foldl combine x l).2 <-> s ∈ dom x.2 \/ exists y, y ∈ l /\ s ∈ dom y.2.
Proof.
  revert x. induction l as [|y l IH]; intros x; simpl.
  - split; [by left|]. intros [?|(y & Hy & _)]; [done|by apply elem_of_nil in Hy].
  - rewrite IH. simpl. rewrite dom_union. set_solver.
Qed.

(** ** The result of the whole check *)

Definition own_of (st : Mesh) (i : nat) : ShardResult :=
  match shard_states st !! i with
  | Some sh => (set_shards (Z.setbit (shards (result_ (checker sh))) (Z.of_nat i)) (result_ (checker sh)), visited_ (checker sh))
  | None => (new_result, ∅)
  end.

Lemma check_model_spec (st : Mesh) :
  (0 < shard_count st <= 64)%nat ->
  exists r v, check_model st = Done (r, v) /\
    (ok r = true <-> forall i sh, shard_states st !! i = Some sh -> ok (result_ (checker sh)) = true) /\
    (forall s, s ∈ dom v <-> exists i sh, shard_states st !! i = Some sh /\ s ∈ dom (visited_ (checker sh))) /\
    ((1 < shard_count st)%nat -> state_count r = Z.of_nat (size (dom v))).
Proof.
  intros [Hpos Hle]. unfold check_model. rewrite (proj2 (Nat.ltb_lt _ _)) by done. cbn [check mbind outcome_bind].
  destruct (shard_count st =? 1)%nat eqn:En; bool_cases.
  - unfold shard_count in En. destruct (shard_states st) as [|sh [|]] eqn:E; [done| |done]. simpl.
    eexists _, _. split; [done|]. split_and!; [| |unfold shard_count; rewrite E; simpl; lia].
    + split; [|by intros Ha; apply (Ha 0%nat)]. intros Ho [|i] sh' Hi; [by injection Hi as <-|by destruct i].
    + intros s. split; [intros Hs; by exists 0%nat, sh|]. intros ([|i] & sh' & Hi & Hs); [by injection Hi as <-|by destruct i].
  - rewrite (shard_result_first st (shard_count st) (own_of st)); [|done| |done|lia].
    2:{ intros i [sh Hi]%lookup_lt_is_Some_2. exists sh. split; [done|]. unfold own_result, own_of. rewrite Hi.
        apply lookup_lt_Some in Hi. unfold shard_count in *. by rewrite (proj2 (Nat.ltb_lt _ _)) by lia. }
    cbn [mbind outcome_bind]. eexists _, _. split; [done|]. unfold fold_range.
    assert (forall y, y ∈ own_of st <$> seq 1 (shard_count st - 1) <-> exists i sh, (0 < i)%nat /\ shard_states st !! i = Some sh /\ y = own_of st i) as Hin.
    { intros y. rewrite list_elem_of_fmap. setoid_rewrite elem_of_seq. split.
      - intros (i & -> & Hi). assert (i < length (shard_states st))%nat as [sh Hsh]%lookup_lt_is_Some_2 by (unfold shard_count in *; lia).
        exists i, sh. split_and!; [lia|done|done].
      - intros (i & sh & Hi & Hsh%lookup_lt_Some & ->). exists i. unfold shard_count. split; [done|lia]. }
    assert (exists sh0, shard_states st !! 0%nat = Some sh0) as [sh0 H0] by (by apply lookup_lt_is_Some_2).
    split_and!.
    + simpl. rewrite fold_ok, andb_true_iff, forallb_forall. setoid_rewrite <- list_elem_of_In. setoid_rewrite Hin. split.
      * intros [Ho Hall] [|i] sh Hi; [unfold own_of in Ho; by rewrite Hi in Ho|].
        specialize (Hall (own_of st (S i)) ltac:(exists (S i), sh; split_and!; [lia|done|done])). unfold own_of in Hall. by rewrite Hi in Hall.
      * intros Ha. split; [unfold own_of; rewrite H0; by apply (Ha 0%nat)|]. intros y (i & sh & _ & Hi & ->).
        unfold own_of. rewrite Hi. by apply (Ha i).
    + intros s. rewrite fold_visited. setoid_rewrite Hin. split.
      * intros [Hs|(y & (i & sh & _ & Hi & ->) & Hs)]; unfold own_of in Hs; [rewrite H0 in Hs; by exists 0%nat, sh0|].
        rewrite Hi in Hs. by exists i, sh.
      * intros ([|i] & sh & Hi & Hs); [left; unfold own_of; by rewrite Hi|right]. exists (own_of st (S i)).
        split; [exists (S i), sh; split_and!; [lia|done|done]|]. unfold own_of. by rewrite Hi.
    + intros _. simpl. by rewrite size_dom.
Qed.

Variable (mdl : StateMachineModel St M) (m0 : M) (hash : Branch St -> Z) (between_flush : Z) (n : nat).
Hypothesis hash_in_range : hash_ok hash n.
Hypothesis model_fits : model_ok mdl m0.
Hypothesis bitset_size : (n <= 64)%nat.

(** C6: [check_model] is exhaustive for 1 to 64 shards and any interleaving of
    them, for a model as [model_ok] requires and a hash that gives every branch
    to an existing shard ([hash_ok]; for another one, [send] indexes out of
    range): when all searches have returned, their results can be merged, and
    the result is ok exactly when the invariants hold in every reachable state
    and after every run of [step] from one; then the visited states are exactly
    the reachable ones, and, with more than one shard, [state_count] is their
    number. *)
Theorem check_model_correct (schedule : list nat) :
  let st := run_mesh mdl hash between_flush schedule (new_mesh m0 n) in
  all_returned st ->
  exists r v, check_model st = Done (r, v) /\ (ok r = true <-> ~ violation mdl m0) /\
    (~ violation mdl m0 ->
       (forall s, s ∈ dom v <-> reachable mdl m0 s) /\ ((1 < n)%nat -> state_count r = Z.of_nat (size (dom v)))).
Proof.
  intros st Hret. destruct (run_cover mdl m0 hash between_flush n hash_in_range model_fits schedule) as (Hsf & P & C).
  fold st in Hsf, P, C. pose proof (safe_count _ _ _ _ _ Hsf) as Hn.
  pose proof (shards_exist mdl hash n hash_in_range) as Hpos.
  destruct (check_model_spec st) as (r & v & E & Ho & Hv & Hc); [lia|]. exists r, v.
  pose proof (no_violation_ok mdl m0 hash n st Hsf Hret) as Hok.
  pose proof (ok_search mdl m0 hash n hash_in_range model_fits st Hsf P C Hret) as Hsearch.
  split_and!; [done| |].
  - split; [|intros Hnv; apply Ho; by apply Hok]. intros Hr. by destruct (Hsearch (proj1 Ho Hr)).
  - intros Hnv. destruct (Hsearch (Hok Hnv)) as [_ Hreach]. rewrite <- Hn. split; [|done].
    intros s. rewrite Hv. symmetry. apply Hreach.
Qed.
End Merge.

Lemma check_model_correct_witness :
  exists r v, check_model (run_mesh sample_model sample_hash 3 sample_schedule (new_mesh 0%nat 2)) = Done (r, v) /\
    ok r = true /\ state_count r = Z.of_nat (size (dom v)).
Proof.
  destruct (check_model_correct sample_model 0%nat sample_hash 3 2 sample_hash_ok sample_ok ltac:(lia) sample_schedule sample_returned)
    as (r & v & E & Ho & Hv).
  exists r, v. split; [exact E|]. split; [apply Ho, sample_no_violation|]. apply Hv; [exact sample_no_violation|lia].
Defined.
